(* ===== verification/_CoqProject ===== *)
-Q . S2P
Prelude.v
Arithmetic.v
HandleRemap.v
Arena.v
Tarjan.v
TarjanProof.v
Stratify.v
StratifyProof.v
Lexer.v
LexerProof.v
RadixSort.v
Relation.v
RelSort.v
Consolidate.v
ConsolidateProof.v
HeapProof.v
DeltaProof.v
DeltaSpec.v
HashDedup.v
KwayProof.v
ConsolidateSpec.v
Lftj.v
LftjProof.v
Frontier.v
Progress.v
Governor.v
GovernorProof.v
Crc32.v
LockfreeQueue.v
LockfreeQueueProof.v
LockfreeQueueSpec.v
MemLedger.v
MemLedgerProof.v
Parser.v
ParserProof.v
ParserGrammar.v
Intern.v
InternProof.v
StringOps.v
StringOpsProof.v
Floats.v
Expr.v
ExprCompile.v
ExprProof.v
FloatsProof.v
DigestProof.v
ExprGen.v
ExprGenProof.v
ExprSpec.v
EvalStack.v
Filter.v
FilterProof.v
FilterSpec.v
ConcatSpec.v
RowOps.v
GroupTable.v
ReduceProof.v
ReduceSpec.v
MapSpec.v
Partition.v
PartitionSpec.v
HashJoin.v
HashJoinProof.v
HashJoinSpec.v
SemijoinSpec.v
Arrangement.v
ArrangementProof.v
ArrangementSpec.v
MatCache.v
MatCacheProof.v
MatCacheSpec.v
Join.v
JoinProof.v
JoinSpec.v
Eval.v
EvalProof.v
EvalSpec.v
