(* ===== verification/Prelude.v ===== *)
(** * wirelog in Rocq

    wirelog is an embeddable Datalog engine in C (src/wirelog/). A program text
    is scanned and parsed, lowered to an IR, stratified, compiled to a plan of
    relational operators and evaluated stratum by stratum over columnar
    relations, with frontiers that tell which iterations an incremental
    evaluation may skip. Below that lie allocators, a memory governor shared by
    the worker threads, and tables that rewrite handles when an arena is
    compacted. This library models the parts listed here, from the source, and
    proves what makes each of them correct.

    ** Conventions

    A C integer is a [Z]; wrap-around is written out with [u8], [u32], [u64]
    and [i64]. A C array is a list that is read and written through [rd] and
    [wr], which return [None] outside the array, so that a result [Some _] is
    also a proof that no access left the allocation. The outer [option] of an
    operation is always that (or exhausted fuel); error codes and NULL results
    are values inside it. The outcome of malloc and calloc is a parameter
    ([alloc]), so the theorems cover every allocation failure the code handles.

    ** Files

    - [Prelude] (this file): machine integers, arrays, lemmas on lists, the
      tactics [mi] and [mi_divmod], the hint database [mach].
    - [Arithmetic] (columnar/arithmetic.c): the overflow-checked int64
      operations; the portable branches against the compiler builtins.
    - [HandleRemap] (columnar/handle_remap.c, handle_remap_apply.c): the
      open-addressing table. [Remap.to_map] reads a table as a finite map;
      insertion, growth and lookup refine the map operations, and probing
      ends because a quarter of the cells is empty. The rewrite of a column
      stops at the first handle the table does not know.
    - [Arena] (arena/arena.c, columnar/delta_pool.c): the bump allocators over
      offsets; granted blocks are disjoint and inside the buffer.
    - [Tarjan], [TarjanProof] (ir/stratify.c, wl_ir_stratify_scc_detect): the
      iterative search for strongly connected components, one while turn a
      step; the invariant is the usual one of the stack, the call stack and
      the low links. Fuel per root: one turn per edge and per node.
    - [Stratify], [StratifyProof] (ir/stratify.c, ir/program.c): the dependency
      graph, the negation check, the assignment of rules to strata, the
      recursion marks; every allocation site of the pipeline is a [site].
    - [Lexer], [LexerProof] (parser/lexer.c): the scanner on a NUL-terminated
      text. Loops have fuel one more than the text's length, which suffices
      because every turn consumes a character. strtod is a parameter.
    - [RadixSort] (columnar/relation.c, columnar/internal.h): the comparison of
      binary64 bit patterns and the stable radix sort by a key column; the
      interface [StableKeySort] is what the join uses of it.
    - [Relation], [RelSort] (columnar/internal.h, relation.c, merge.c): a
      relation as its list of rows with the counters of the C structure (rows,
      capacity, sorted prefix, merge buffer, runs), the typed comparison of
      rows, appends, and the sorts of a range; [RangeSort] is what
      consolidation uses of a sort. Rows are numbers in a base above every
      cell ([Rel.key]), so that the order of rows is the order of [Z].
    - [Consolidate] (columnar/merge.c): the consolidation operator, the k-way
      merge with its hash path, the compaction of runs and the incremental
      consolidation. [ConsolidateProof] and [HeapProof] hold the lemmas on the
      loops and on the heap, [DeltaProof] and [DeltaSpec] the incremental path
      and rounds of it, [HashDedup], [KwayProof] and [ConsolidateSpec] the
      operator. The fuel of a merge is one more than its rows, that of a sift
      one more than the heap, that of a probe the slots of the table.
    - [Lftj], [LftjProof] (columnar/lftj.c): the leapfrog join, proved against
      [StableKeySort] and equal to the k-way join of the inputs. The fuel of a
      seek is the row count, that of the main loop the sum of the row counts.
    - [Frontier] (columnar/frontier.c): which strata and rules an insertion
      reaches, as 64-bit masks; the fixed point is reached in at most 65
      rounds because a round that does not end the loop adds a bit.
    - [Progress] (columnar/frontier_epoch.c, diff_vtable.c, progress.c): the
      frontier vtable as a record of operations with two implementations,
      each an instance of [FrontierRefines], and the worker reports.
    - [Governor], [GovernorProof] (columnar/memory_governor.c): budget
      resolution, and the reservation tokens as threads whose steps are the
      atomic accesses of the source; [reach] is every interleaving.
    - [Crc32] (crc32.c): the table-driven checksums against polynomial division.
    - [LockfreeQueue], [LockfreeQueueProof], [LockfreeQueueSpec]
      (util/lockfree_queue.c): the single-producer rings and the queue over
      them. A step is one atomic access; a relaxed or acquire load may return
      any value at least as new as the last one its thread saw, so the history
      of each cursor is part of the state. [LockfreeQueueSpec] runs the calls
      one after the other against a family of bounded lists.
    - [MemLedger], [MemLedgerProof] (columnar/mem_ledger.c): the counters as
      threads of atomic steps with spuriously failing compare-exchanges, the
      budget queries, and the reclaimer table, whose callbacks are parameters.
    - [Parser], [ParserProof], [ParserGrammar] (parser/parser.c, ast.c): the
      recursive descent in a state monad over the interface [TokenStream], of
      which the lexer is one instance. [ParserProof] works against
      [LawfulStream], what a stream promises to the parser; [ParserGrammar]
      gives the grammar as relations between tokens and trees. The fuel is one
      more than the characters of the text; each loop turn or recursion
      consumes a token.
    - [Intern], [InternProof] (intern.c): the intern table. A put is a plan,
      the list of its stores, so that readers can be placed between them;
      [Spec] is the abstract table, a list of distinct strings. A probe has
      one step of fuel per slot and ends at one of the free quarter.
    - [StringOps], [StringOpsProof] (string_ops.c): the string functions over
      the interface [Interner] (reverse, put, malloc). [InternerLaws] is what
      they need of a table; [host_laws] discharges it for [Intern]. Text is
      read through [chars], the decoding into code points.
    - [Floats], [FloatsProof] (columnar/expr.c): the binary64 value of a lane,
      by the Standard Library's specification of IEEE numbers, and its order.
    - [Expr] (columnar/expr.c): the stack interpreter of expression bytecode,
      with every opcode and error. [Host] is what it calls: the intern table,
      the checksums, XXH3, the PSA functions, the leases of extensions; an
      extension is a descriptor whose callback runs in the same world. Each
      turn of the loop consumes a byte, so the fuel is one more than the
      buffer. The callers always give a context and a status, and so does
      [eval_run_ctx]. [DigestProof] is about the framing and the UUID text.
    - [ExprCompile], [ExprProof] (columnar/expr.c): the compiler and the
      compiled evaluator, equal to the interpreter where it compiles.
    - [ExprGen], [ExprGenProof], [ExprSpec] (exec_plan_gen.c): expressions of
      the IR, their typing and serialisation into a growing buffer; [denote]
      is the meaning of an expression, which its bytecode computes. The
      doubling loop of the buffer ends within 64 turns below 2^31 bytes.
    - [EvalStack] (columnar/eval_stack.c, merge.c): the operator stack and the
      concatenation of its two top relations; what an operation frees is part
      of its result. [ConcatSpec]: pushes and concatenations cut into
      segments, from which consolidation gives the union.
    - [Filter], [FilterProof], [FilterSpec] (columnar/filter.c): the filter
      operator with its scalar, AVX2 and tiled selection (the vector kernel
      lane by lane), the filters of a right input and their cache. [accepted]
      is the reference: the row at a time predicate. The kernel's fuel is the
      rows, that of the tiles one more. The cache's theorem is about the calls
      made before: it needs no assumption on snapshots, only pure predicates.
    - [RowOps] (columnar/ops.c, eval_serial.c): MAP, REDUCE and the reduction in
      place that ends a recursive aggregate. [GroupTable] is the theory of the
      hash table of groups they share: at least half of it is free, so a probe
      ends within one step per slot; the capacity doubles at most 32 times.
      [ReduceProof], [ReduceSpec]: REDUCE is [grouped], the fold of its rows into
      groups, which over integers is the count, sum, least or greatest value of
      each key. [MapSpec]: MAP is [mapped], cell by cell.
    - [Partition], [PartitionSpec] (columnar/partition.c): the split of a
      relation by the hash of key columns, and the merge of the parts.
    - [HashJoin], [HashJoinProof], [HashJoinSpec], [SemijoinSpec]
      (columnar/join.c): key columns by name, the chained hash table over the
      right rows, ANTIJOIN and SEMIJOIN with its counting and filling workers.
      [chained] is the theory of such tables, shared with the arrangements: a
      bucket's chain lists its rows, the last one first, so a walk has one step
      of fuel per row and one more. The order in which tasks run is an input.
    - [Arrangement], [ArrangementProof], [ArrangementSpec]
      (columnar/arrangement.c): hash indices whose bucket heads carry the
      generation of the build that wrote them; [lives] is the life of one
      through builds, updates, growing relations and failures.
    - [MatCache], [MatCacheProof], [MatCacheSpec] (columnar/cache.c): the cache
      of join results with its pins. What it destroys and tells the ledger are
      effects; the theorems run any sequence of operations against a record of
      what was given, pinned and destroyed. A sweep has one step per entry.
    - [Join], [JoinProof], [JoinSpec] (columnar/join.c): JOIN with its choice of
      the right input, its tables, arrangements, workers, limits and its use of
      the cache. [emits] is the contract of every path; [serves] is what the
      operator needs of an arrangement, which the life of one provides.
    - [Eval], [EvalProof], [EvalSpec] (columnar/eval_plan.c, eval_serial.c, ops.c,
      session.c): plans on the operator stack, VARIABLE, and the evaluation of
      strata. A recursive stratum runs passes over the deltas of the previous
      pass; [rule_law] is the contract of a plan, [paused] the invariant between
      passes, [Side] the interface of the caches and arenas of the session. The
      passes need no fuel of their own: [MAX_ITERATIONS] strides of [EVAL_STRIDE]
      passes, as in the code, which is why a derivation of 32768 rounds is out of
      reach. [join_rule_law] proves the contract of a rule that joins.

    ** What the theorems show

    Refinement and functional correctness: the components, strata and joins
    computed are the ones of their definitions; the table is a finite map; the
    masks are reachability; the vtables and the tracker answer from abstract
    maps; the sort is the stable sort; the checksums are the remainders; a
    consolidated relation is the sorted set of its rows, and an incremental
    consolidation reports exactly the rows that were not there before; a
    filter keeps exactly the accepted rows in order whichever path runs, its
    cache answers with a relation filtered under an equal snapshot, and the
    concatenation of relations consolidates to their union; projection and
    aggregation compute their references whatever was compiled and however
    the groups collide; the parts of a relation are its classes by hash and
    merge to its rows; joins, semijoins and antijoins are the nested-loop ones,
    through whatever table, arrangement or worker the rows are found; the cache
    of join results keeps what is pinned, destroys everything else once and
    answers only with results of the same inputs; a recursive stratum of rules
    that keep their contract is evaluated to its least fixed point.
    Totality and memory safety: every loop ends within its fuel and no access
    leaves its array, on every branch and under every allocation failure.
    The theorems on consolidation have the conditions under which the code does
    this: a first column that is not a float, and sorts and appends to a delta
    that succeed, since their status is ignored.
    Invariants under concurrency: the governor's total is exact and bounded in
    every interleaving that keeps reserve apart from rollback and release of
    the same token, the queue delivers every message once and in order and
    each call ends within a bounded number of its own steps, the ledger's peaks
    and total are exact at rest, a reader of the intern table never meets an
    unfinished entry. Syntax: the parser ends on every text, returns
    only well-typed trees or an error at a place of the text, and returns the
    tree of every program of the grammar. Expressions: the bytecode of an
    expression computes its meaning, compiled or interpreted, with its errors
    and its effects on the intern table; a float comparison is the order of
    the sorts; the string functions are exact on code points and bytes. Bounds:
    int64 results are exact or
    refused. A few theorems exhibit inputs on which the code does what it does not mean to:
    the arena's unguarded sum, the size of an array that wraps, the names of a rule without a graph node, the
    lost recursion mark, the 32-bit product of the tracker, a release that
    gives back a stale size, gauge updates that overtake each other, the
    underscore runs of the lexer, the compaction of float runs, four ways
    in which the incremental consolidation departs from its description, float
    variables that never compile, a column number that wraps, a constant cut
    to 16 bits of length, a missing column on which the two filters disagree,
    a stale cache entry of a failed filter, segment boundaries that leak,
    float counts, float minima of recursive aggregates, operators that
    lose the column types of floats, symbols that do not join because one
    relation has column types, copies that joins leak, row ranges of workers
    that wrap, a cache of join results that ignores the join columns, and a
    delta that is lost without a report.

    ** Not modelled

    The lowering to IR and the optimisation passes; plan generation but for
    expressions; the parallel and the incremental evaluation and the join over
    differential arrangements; the registry that keeps a session's arrangements;
    the session but for its table of relations; CSV and I/O adapters; threads, the work queue, logging, the command line.
    The governor's and the ledger's atomics are sequentially consistent in the
    model: their relaxed orderings are not distinguished, and the two plain
    fields of a token are kept free of races by the callers. Failed
    allocations of the parser and freed memory are not modelled. Next on the
    plan: the registry of arrangements, the admission hooks over the governor
    and the compound arena. *)

From stdpp Require Export base tactics list numbers option strings gmap.
From Stdlib Require Export ZArith Lia.

#[global] Open Scope Z_scope.

(** ** Machine integers

    Every C integer is a [Z]; the width is written out where it matters. *)

Definition UINT32_MAX : Z := 4294967295.
Definition UINT64_MAX : Z := 18446744073709551615.
Definition SIZE_MAX : Z := UINT64_MAX.
Definition INT64_MAX : Z := 9223372036854775807.
Definition INT64_MIN : Z := -9223372036854775808.

(** Wrap-around of unsigned arithmetic, and the two's complement reading of a
    64-bit pattern. *)
Definition u8 (z : Z) : Z := z mod 2 ^ 8.
Definition u32 (z : Z) : Z := z mod 2 ^ 32.
Definition u64 (z : Z) : Z := z mod 2 ^ 64.
Definition i64 (z : Z) : Z := (z + 2 ^ 63) mod 2 ^ 64 - 2 ^ 63.

Definition is_int64 (z : Z) : Prop := INT64_MIN <= z <= INT64_MAX.
Definition is_uint64 (z : Z) : Prop := 0 <= z <= UINT64_MAX.
Definition is_uint32 (z : Z) : Prop := 0 <= z <= UINT32_MAX.

#[export] Instance is_int64_dec z : Decision (is_int64 z).
Proof. unfold is_int64. apply _. Defined.
#[export] Instance is_uint64_dec z : Decision (is_uint64 z).
Proof. unfold is_uint64. apply _. Defined.
#[export] Instance is_uint32_dec z : Decision (is_uint32 z).
Proof. unfold is_uint32. apply _. Defined.

(** errno values the sources return. *)
Definition ENOMEM : Z := 12.
Definition EINVAL : Z := 22.
Definition ERANGE : Z := 34.
Definition EOVERFLOW : Z := 75.

(** [mi] unfolds the machine constants and calls [lia]. *)
Ltac mi_unfold :=
  unfold is_int64, is_uint64, is_uint32, u8, u32, u64, i64,
    UINT32_MAX, SIZE_MAX, UINT64_MAX, INT64_MAX, INT64_MIN in *.
Ltac mi := mi_unfold; lia.

(** Division and remainder facts are added for one goal only. *)
Ltac mi_divmod := mi_unfold; Z.div_mod_to_equations; lia.

Create HintDb mach discriminated.
Create Rewrite HintDb mach.

Lemma u64_small z : is_uint64 z -> u64 z = z.
Proof. intros H. unfold u64. apply Z.mod_small. mi. Qed.

Lemma u32_small z : is_uint32 z -> u32 z = z.
Proof. intros H. unfold u32. apply Z.mod_small. mi. Qed.

(** Bits below a shifted number are added to it. *)
Lemma lor_shiftl_low k a x : 0 <= k -> 0 <= x < 2 ^ k -> Z.lor (Z.shiftl a k) x = a * 2 ^ k + x.
Proof.
  intros Hk Hx. rewrite <-Z.shiftl_mul_pow2 by lia.
  assert (Hl : Z.land (Z.shiftl a k) x = 0).
  { apply Z.bits_inj'. intros n Hn. rewrite Z.land_spec, Z.bits_0. destruct (Z.ltb_spec n k); [by rewrite Z.shiftl_spec_low|].
    rewrite <-(Z.mod_small x (2 ^ k)) by lia. by rewrite Z.mod_pow2_bits_high, andb_false_r by lia. }
  by rewrite Z.add_nocarry_lxor, Z.lxor_lor.
Qed.

Lemma u64_range z : is_uint64 (u64 z).
Proof. unfold u64. pose proof (Z.mod_pos_bound z (2 ^ 64) ltac:(lia)). mi. Qed.

Lemma u32_range z : is_uint32 (u32 z).
Proof. unfold u32. pose proof (Z.mod_pos_bound z (2 ^ 32) ltac:(lia)). mi. Qed.

Lemma i64_small z : is_int64 z -> i64 z = z.
Proof. intros H. unfold i64. rewrite Z.mod_small; mi. Qed.

Lemma i64_range z : is_int64 (i64 z).
Proof.
  unfold i64. pose proof (Z.mod_pos_bound (z + 2 ^ 63) (2 ^ 64) ltac:(lia)). mi.
Qed.

Lemma i64_u64 z : i64 (u64 z) = i64 z.
Proof. unfold i64, u64. f_equal. rewrite Zplus_mod_idemp_l. done. Qed.

Lemma u64_i64 z : u64 (i64 z) = u64 z.
Proof.
  unfold i64, u64. rewrite Zminus_mod_idemp_l. f_equal. lia.
Qed.

#[export] Hint Resolve u64_range u32_range i64_range : mach.
#[export] Hint Rewrite i64_u64 u64_i64 : mach.

(** ** Arrays

    A C array is a list with checked accesses: [None] is an access outside
    the allocation, which C leaves undefined. *)
Definition rd {A} (a : list A) (i : nat) : option A := a !! i.
Definition wr {A} (a : list A) (i : nat) (x : A) : option (list A) :=
  if decide (i < length a)%nat then Some (<[i := x]> a) else None.

(** ** Lists *)

Lemma filter_all {A} (P : A -> Prop) `{forall x, Decision (P x)} (l : list A) :
  Forall P l -> filter P l = l.
Proof. induction 1; [done|]. rewrite filter_cons, decide_True by done. by f_equal. Qed.

Lemma rd_total {A} `{Inhabited A} (a : list A) i :
  (i < length a)%nat -> rd a i = Some (a !!! i).
Proof. apply list_lookup_lookup_total_lt. Qed.

Lemma wr_lt {A} (a : list A) i x :
  (i < length a)%nat -> wr a i x = Some (<[i := x]> a).
Proof. intros. unfold wr. by rewrite decide_True. Qed.

(** Reading an updated array. *)
Lemma upd_total {A} `{Inhabited A} (a : list A) i j x : (i < length a)%nat ->
  <[i := x]> a !!! j = if decide (j = i) then x else a !!! j.
Proof.
  intros. case_decide; subst.
  - by apply list_lookup_total_insert_eq.
  - by apply list_lookup_total_insert_ne.
Qed.

(** Writing a cell that did not satisfy [P] with a value that does adds one to
    the number of cells satisfying it. *)
Lemma length_filter_insert {A} (P : A -> Prop) `{forall x, Decision (P x)} (l : list A) i x y :
  l !! i = Some x -> ~ P x -> P y ->
  length (filter P (<[i := y]> l)) = S (length (filter P l)).
Proof.
  intros Hl Hx Hy. pose proof (lookup_lt_Some _ _ _ Hl).
  rewrite insert_take_drop by done.
  rewrite <- (take_drop_middle l i x Hl) at 3.
  rewrite !filter_app, !filter_cons, !length_app.
  rewrite decide_True, decide_False by done. cbn. lia.
Qed.

Lemma filter_iff_in {A} (P Q : A -> Prop) `{forall x, Decision (P x)} `{forall x, Decision (Q x)}
  (l : list A) : (forall x, x ∈ l -> P x <-> Q x) -> filter P l = filter Q l.
Proof.
  induction l as [|x l IH]; intros Hiff; [done|]. rewrite !filter_cons.
  rewrite IH by (intros; apply Hiff; by right). pose proof (Hiff x ltac:(left)).
  repeat case_decide; tauto || done.
Qed.

Lemma filter_none {A} (P : A -> Prop) `{forall x, Decision (P x)} (l : list A) :
  (forall x, x ∈ l -> ~ P x) -> filter P l = [].
Proof.
  induction l as [|x l IH]; intros Hn; [done|]. rewrite filter_cons, decide_False by (apply Hn; left).
  apply IH. intros y Hy. apply Hn. by right.
Qed.

(** ** Rounding up to a power of two

    One shift of the usual rounding. *)
Definition smear (s v : Z) : Z := Z.lor v (Z.shiftr v s).

(** After the smearing shifts, bit [i] is set when one of the [n] bits from [i]
    up was. *)
Definition smeared (n v x : Z) : Prop :=
  forall i, 0 <= i -> Z.testbit x i = true <-> exists j, 0 <= j < n /\ Z.testbit v (i + j) = true.

Lemma smeared_refl v : smeared 1 v v.
Proof.
  intros i Hi. split.
  - intros H. exists 0. rewrite Z.add_0_r. split; [lia|done].
  - intros (j & Hj & H). replace (i + j) with i in H by lia. done.
Qed.

Lemma smear_step n v x : 0 <= n -> smeared n v x -> smeared (2 * n) v (smear n x).
Proof.
  intros Hn Hs i Hi. unfold smear. rewrite Z.lor_spec, Z.shiftr_spec by done.
  rewrite orb_true_iff, (Hs i), (Hs (i + n)) by lia. split.
  - intros [(j & Hj & H)|(j & Hj & H)]; [exists j|exists (n + j)]; (split; [lia|]); [done|].
    by rewrite Z.add_assoc.
  - intros (j & Hj & H). destruct (decide (j < n)); [left; exists j; split; [lia|done]|].
    right. exists (j - n). split; [lia|]. replace (i + n + (j - n)) with (i + j) by lia. done.
Qed.

Lemma smear_all v : smeared 32 v (smear 16 (smear 8 (smear 4 (smear 2 (smear 1 v))))).
Proof.
  do 4 (match goal with |- smeared ?n _ (smear ?s _) =>
    change n with (2 * s); apply smear_step; [lia|] end).
  change 2 with (2 * 1). apply smear_step; [lia|]. apply smeared_refl.
Qed.

Lemma smeared_ones v x : 0 < v < 2 ^ 32 -> 0 <= x -> smeared 32 v x -> x = 2 ^ (Z.log2 v + 1) - 1.
Proof.
  intros Hv Hx Hs. replace (2 ^ _ - 1) with (Z.ones (Z.log2 v + 1)) by (rewrite Z.ones_equiv; lia).
  apply Z.bits_inj'. intros i Hi. apply eq_true_iff_eq. rewrite (Hs i Hi).
  assert (Hl : Z.log2 v < 32) by (apply Z.log2_lt_pow2; lia).
  pose proof (Z.log2_nonneg v).
  destruct (decide (i <= Z.log2 v)).
  - rewrite Z.ones_spec_low by lia. split; [done|]. intros _. exists (Z.log2 v - i).
    split; [lia|]. replace (i + (Z.log2 v - i)) with (Z.log2 v) by lia. apply Z.bit_log2. lia.
  - rewrite Z.ones_spec_high by lia. split; [|done]. intros (j & Hj & Hb).
    rewrite Z.bits_above_log2 in Hb by lia. done.
Qed.

Lemma smear_nonneg s v : 0 <= v -> 0 <= smear s v.
Proof. intros. unfold smear. apply Z.lor_nonneg. split; [done|]. by apply Z.shiftr_nonneg. Qed.

Lemma smear_log2 v : 0 < v < 2 ^ 32 ->
  smear 16 (smear 8 (smear 4 (smear 2 (smear 1 v)))) = 2 ^ (Z.log2 v + 1) - 1.
Proof. intros Hv. apply smeared_ones; [done|do 5 apply smear_nonneg; lia|apply smear_all]. Qed.
