(* ===== verification/Arithmetic.v ===== *)
(** * Checked 64-bit arithmetic (wirelog/columnar/arithmetic.c)

    The expression evaluator never computes an [int64_t] operation directly: it
    goes through the seven [wl_columnar_arithmetic_checked_*] functions, which
    return [ERANGE] instead of overflowing.  Addition, subtraction and
    multiplication exist twice in the source, once over the compiler's overflow
    builtins and once as range checks for other compilers; both are modelled and
    proved to agree.  A C operation whose signed result leaves [int64_t] (or a
    division by zero) is undefined, which the model makes visible as [None]. *)
From S2P Require Import Prelude.

Module Arith.

(** The value a call leaves behind: its return code and the cell [*out]. *)
Record outcome := Outcome { rc : Z; out : Z }.

(** A signed operation: undefined when the exact result is out of range. *)
Definition sint (z : Z) : option Z := if decide (is_int64 z) then Some z else None.

Definition sdiv (a b : Z) : option Z :=
  if decide (b = 0) then None else sint (Z.quot a b).

(** C gives [a % b] exactly when [a / b] is representable. *)
Definition smod (a b : Z) : option Z :=
  if decide (b = 0) then None else _ ← sint (Z.quot a b); Some (Z.rem a b).

(** The overflow builtins: [*out] receives the wrapped result, the flag says
    whether it differs from the exact one. *)
Definition builtin_overflow (exact : Z) : bool * Z :=
  (bool_decide (i64 exact ≠ exact), i64 exact).

Definition builtin_outcome (exact : Z) : outcome :=
  let '(ovf, v) := builtin_overflow exact in
  {| rc := if ovf then ERANGE else 0; out := v |}.

Definition checked_add_int64_builtin (a b : Z) : outcome := builtin_outcome (a + b).
Definition checked_sub_int64_builtin (a b : Z) : outcome := builtin_outcome (a - b).
Definition checked_mul_int64_builtin (a b : Z) : outcome := builtin_outcome (a * b).

(** [wl_columnar_arithmetic_abs_u64] *)
Definition abs_u64 (v : Z) : Z :=
  if v <? 0 then u64 (0 - u64 v) else u64 v.

(** The portable range checks.  [o] is the content of [*out] before the call. *)
Definition checked_add_int64 (a b o : Z) : option outcome :=
  if b >? 0 then
    lim ← sint (INT64_MAX - b);
    if a >? lim then Some {| rc := ERANGE; out := o |}
    else v ← sint (a + b); Some {| rc := 0; out := v |}
  else
    lim ← sint (INT64_MIN - b);
    if a <? lim then Some {| rc := ERANGE; out := o |}
    else v ← sint (a + b); Some {| rc := 0; out := v |}.

Definition checked_sub_int64 (a b o : Z) : option outcome :=
  if b >? 0 then
    lim ← sint (INT64_MIN + b);
    if a <? lim then Some {| rc := ERANGE; out := o |}
    else v ← sint (a - b); Some {| rc := 0; out := v |}
  else
    lim ← sint (INT64_MAX + b);
    if a >? lim then Some {| rc := ERANGE; out := o |}
    else v ← sint (a - b); Some {| rc := 0; out := v |}.

Definition checked_mul_int64 (a b o : Z) : option outcome :=
  if (a =? 0) || (b =? 0) then Some {| rc := 0; out := 0 |}
  else if ((a =? -1) && (b =? INT64_MIN)) || ((b =? -1) && (a =? INT64_MIN))
  then Some {| rc := ERANGE; out := o |}
  else
    let ua := abs_u64 a in
    let ub := abs_u64 b in
    let lim := if Bool.eqb (a <? 0) (b <? 0) then u64 INT64_MAX / ub
               else u64 (u64 INT64_MAX + 1) / ub in
    if ua >? lim then Some {| rc := ERANGE; out := o |}
    else v ← sint (a * b); Some {| rc := 0; out := v |}.

Definition checked_div_int64 (a b o : Z) : option outcome :=
  if (b =? 0) || ((a =? INT64_MIN) && (b =? -1))
  then Some {| rc := ERANGE; out := o |}
  else v ← sdiv a b; Some {| rc := 0; out := v |}.

Definition checked_mod_int64 (a b o : Z) : option outcome :=
  if (b =? 0) || ((a =? INT64_MIN) && (b =? -1))
  then Some {| rc := ERANGE; out := o |}
  else v ← smod a b; Some {| rc := 0; out := v |}.

Definition checked_shl_int64 (a b o : Z) : outcome :=
  if (b <? 0) || (b >=? 64) then {| rc := ERANGE; out := o |}
  else {| rc := 0; out := i64 (u64 (Z.shiftl (u64 a) (u32 b))) |}.

(** [>>] on a negative value is the arithmetic shift of gcc, clang and MSVC. *)
Definition checked_shr_int64 (a b o : Z) : outcome :=
  if (b <? 0) || (b >=? 64) then {| rc := ERANGE; out := o |}
  else {| rc := 0; out := Z.shiftr a (u32 b) |}.

(** What the callers rely on: success exactly when the exact result is an
    [int64_t], and then [*out] is that result; otherwise [*out] is untouched. *)
Definition checks (exact o : Z) (r : option outcome) : Prop :=
  r = Some (if decide (is_int64 exact) then {| rc := 0; out := exact |}
            else {| rc := ERANGE; out := o |}).

(** ** Lemmas *)

Lemma sint_ok z : is_int64 z -> sint z = Some z.
Proof. intros H. unfold sint. by rewrite decide_True. Qed.

Lemma i64_fix z : i64 z = z <-> is_int64 z.
Proof. split; [intros <-; apply i64_range | apply i64_small]. Qed.

Lemma builtin_outcome_spec e :
  builtin_outcome e =
    if decide (is_int64 e) then {| rc := 0; out := e |}
    else {| rc := ERANGE; out := i64 e |}.
Proof.
  unfold builtin_outcome, builtin_overflow. case_decide as H.
  - rewrite (i64_small e H). by rewrite bool_decide_eq_false_2 by auto.
  - rewrite bool_decide_eq_true_2; [done|]. by rewrite i64_fix.
Qed.

Lemma checks_ok e o : is_int64 e -> checks e o (Some {| rc := 0; out := e |}).
Proof. intros H. unfold checks. by rewrite decide_True. Qed.

Lemma checks_err e o :
  ~ is_int64 e -> checks e o (Some {| rc := ERANGE; out := o |}).
Proof. intros H. unfold checks. by rewrite decide_False. Qed.

#[local] Hint Resolve checks_ok checks_err : mach.

(** Splits the boolean comparisons of a guard into their arithmetic meaning. *)
Ltac split_guards :=
  repeat match goal with
  | |- context [?a >? ?b] => rewrite (Z.gtb_ltb a b)
  | |- context [?a <? ?b] => destruct (Z.ltb_spec a b)
  | |- context [?a =? ?b] => destruct (Z.eqb_spec a b)
  end; cbn [orb andb Bool.eqb].

Lemma add_checks a b o :
  is_int64 a -> is_int64 b -> checks (a + b) o (checked_add_int64 a b o).
Proof.
  intros Ha Hb. unfold checked_add_int64. split_guards.
  all: match goal with |- context [sint ?l ≫= _] => rewrite (sint_ok l) by mi end.
  all: cbn; split_guards; try (apply checks_err; mi).
  all: rewrite sint_ok by mi; cbn; apply checks_ok; mi.
Qed.

Lemma sub_checks a b o :
  is_int64 a -> is_int64 b -> checks (a - b) o (checked_sub_int64 a b o).
Proof.
  intros Ha Hb. unfold checked_sub_int64. split_guards.
  all: match goal with |- context [sint ?l ≫= _] => rewrite (sint_ok l) by mi end.
  all: cbn; split_guards; try (apply checks_err; mi).
  all: rewrite sint_ok by mi; cbn; apply checks_ok; mi.
Qed.

Lemma abs_u64_spec v : is_int64 v -> abs_u64 v = Z.abs v.
Proof.
  intros H. unfold abs_u64. split_guards; [|rewrite u64_small; mi].
  unfold u64. rewrite Zminus_mod_idemp_r. rewrite Z.mod_small; mi.
Qed.

(** [ua > lim / ub] decides [ua * ub > lim] for a positive divisor. *)
Lemma div_bound x y lim : 0 < y -> lim / y < x <-> lim < x * y.
Proof. intros Hy. Z.div_mod_to_equations. nia. Qed.

Lemma mul_checks a b o :
  is_int64 a -> is_int64 b -> checks (a * b) o (checked_mul_int64 a b o).
Proof.
  intros Ha Hb. unfold checked_mul_int64.
  destruct (decide (a = 0 \/ b = 0)) as [H0|H0].
  { assert (Hg : (a =? 0) || (b =? 0) = true) by lia. rewrite Hg.
    replace (a * b) with 0 by lia. apply checks_ok. mi. }
  assert (Hg : (a =? 0) || (b =? 0) = false) by lia. rewrite Hg.
  case_match eqn:Hm.
  { apply checks_err. mi. }
  cbv zeta. rewrite !abs_u64_spec by done. rewrite Z.gtb_ltb.
  match goal with |- context [?l <? ?x] => destruct (Z.ltb_spec l x) as [Hlt|Hge] end.
  - apply checks_err. revert Hlt. rewrite (u64_small INT64_MAX) by mi.
    rewrite (u64_small (INT64_MAX + 1)) by mi.
    destruct (Bool.eqb_spec (a <? 0) (b <? 0)); rewrite div_bound by lia; mi_unfold; nia.
  - rewrite <- Z.nlt_ge in Hge. revert Hge. rewrite (u64_small INT64_MAX) by mi.
    rewrite (u64_small (INT64_MAX + 1)) by mi.
    intros Hge. assert (is_int64 (a * b)) as Hr.
    { revert Hge. destruct (Bool.eqb_spec (a <? 0) (b <? 0));
        rewrite div_bound by lia; mi_unfold; nia. }
    rewrite sint_ok by done. cbn. by apply checks_ok.
Qed.

(** ** Properties *)

(** C40: The portable range checks of addition, subtraction and multiplication
    never perform an undefined operation, succeed exactly when the exact
    result is an [int64_t] and then store it, and otherwise return [ERANGE]
    and leave [*out] alone; the builtin variants return the same code and, on
    success, the same value. *)
Theorem checked_ops_exact (a b o : Z) (Ha : is_int64 a) (Hb : is_int64 b) :
  checks (a + b) o (checked_add_int64 a b o) /\
  checks (a - b) o (checked_sub_int64 a b o) /\
  checks (a * b) o (checked_mul_int64 a b o) /\
  checked_add_int64_builtin a b
    = (if decide (is_int64 (a + b)) then Outcome 0 (a + b) else Outcome ERANGE (i64 (a + b))) /\
  checked_sub_int64_builtin a b
    = (if decide (is_int64 (a - b)) then Outcome 0 (a - b) else Outcome ERANGE (i64 (a - b))) /\
  checked_mul_int64_builtin a b
    = (if decide (is_int64 (a * b)) then Outcome 0 (a * b) else Outcome ERANGE (i64 (a * b))).
Proof.
  split_and!; try apply builtin_outcome_spec;
    auto using add_checks, sub_checks, mul_checks.
Qed.

Lemma checked_ops_exact_witness :
  checks (INT64_MIN * -1) 7 (checked_mul_int64 INT64_MIN (-1) 7) /\
  checked_mul_int64 INT64_MIN (-1) 7 = Some (Outcome ERANGE 7).
Proof.
  split; [|reflexivity].
  refine (proj1 (proj2 (proj2 (checked_ops_exact INT64_MIN (-1) 7 _ _)))); mi.
Defined.

Lemma quot_bound a b : is_int64 a -> b <> 0 -> ~ (a = INT64_MIN /\ b = -1) ->
  is_int64 (Z.quot a b).
Proof.
  intros Ha Hb Hx. destruct (decide (b = -1)) as [->|Hm].
  { change (-1) with (- (1)). rewrite Z.quot_opp_r, Z.quot_1_r by lia. mi. }
  assert (Z.abs (Z.quot a b) <= Z.abs a) as Hle.
  { rewrite <- Z.quot_abs by done.
    apply Z.quot_le_upper_bound; nia. }
  destruct (decide (a = INT64_MIN)) as [->|]; [|mi].
  destruct (decide (b = 1)) as [->|]; [rewrite Z.quot_1_r; mi|].
  enough (Z.abs (Z.quot INT64_MIN b) <= 4611686018427387904) by mi.
  rewrite <- Z.quot_abs by done. apply Z.quot_le_upper_bound; mi_unfold; nia.
Qed.

(** Division and modulus are total: they refuse exactly a zero divisor and
    [INT64_MIN / -1], never execute an undefined division, and otherwise
    return the truncating quotient and remainder, which satisfy the division
    identity with a remainder smaller than the divisor and of the dividend's
    sign. *)
Theorem checked_div_mod_exact (a b o : Z) (Ha : is_int64 a) (Hb : is_int64 b) :
  (b = 0 \/ (a = INT64_MIN /\ b = -1) ->
     checked_div_int64 a b o = Some (Outcome ERANGE o) /\
     checked_mod_int64 a b o = Some (Outcome ERANGE o)) /\
  (b <> 0 /\ ~ (a = INT64_MIN /\ b = -1) ->
     exists q r, checked_div_int64 a b o = Some (Outcome 0 q) /\
       checked_mod_int64 a b o = Some (Outcome 0 r) /\
       a = b * q + r /\ Z.abs r < Z.abs b /\ 0 <= a * r /\
       is_int64 q /\ is_int64 r).
Proof.
  unfold checked_div_int64, checked_mod_int64. split.
  - intros Hbad.
    assert (Hg : (b =? 0) || ((a =? INT64_MIN) && (b =? -1)) = true) by lia.
    by rewrite Hg.
  - intros [H0 Hx].
    assert (Hg : (b =? 0) || ((a =? INT64_MIN) && (b =? -1)) = false) by lia.
    rewrite Hg. exists (Z.quot a b), (Z.rem a b).
    pose proof (quot_bound a b Ha H0 Hx) as Hq.
    unfold sdiv, smod. rewrite !decide_False by done.
    rewrite sint_ok by done. cbn.
    pose proof (Z.quot_rem' a b). pose proof (Z.rem_bound_abs a b H0).
    pose proof (Z.rem_sign_mul a b H0).
    split_and!; try done; mi.
Qed.

Lemma checked_div_mod_exact_witness :
  (exists q r, checked_div_int64 (-7) 2 0 = Some (Outcome 0 q) /\
     checked_mod_int64 (-7) 2 0 = Some (Outcome 0 r) /\ -7 = 2 * q + r) /\
  checked_div_int64 INT64_MIN (-1) 5 = Some (Outcome ERANGE 5).
Proof.
  split.
  - destruct (proj2 (checked_div_mod_exact (-7) 2 0 ltac:(mi) ltac:(mi)) ltac:(lia))
      as (q & r & H1 & H2 & H3 & _).
    exists q, r. done.
  - apply (proj1 (checked_div_mod_exact INT64_MIN (-1) 5 ltac:(mi) ltac:(mi))).
    right. done.
Defined.

(** The shifts refuse a count outside [0, 64); otherwise the left shift is
    multiplication by a power of two in the ring of 64-bit two's complement
    numbers and the right shift is the floor division by it, and both results
    are [int64_t] values. *)
Theorem checked_shift_exact (a b o : Z) (Ha : is_int64 a) :
  ((b < 0 \/ 64 <= b) ->
     checked_shl_int64 a b o = Outcome ERANGE o /\
     checked_shr_int64 a b o = Outcome ERANGE o) /\
  (0 <= b < 64 ->
     checked_shl_int64 a b o = Outcome 0 (i64 (a * 2 ^ b)) /\
     checked_shr_int64 a b o = Outcome 0 (a / 2 ^ b) /\
     is_int64 (a / 2 ^ b)).
Proof.
  unfold checked_shl_int64, checked_shr_int64. rewrite Z.geb_leb. split.
  - intros H. assert (Hg : (b <? 0) || (64 <=? b) = true) by lia. by rewrite Hg.
  - intros H. assert (Hg : (b <? 0) || (64 <=? b) = false) by lia. rewrite Hg.
    rewrite (u32_small b) by mi.
    rewrite Z.shiftl_mul_pow2, Z.shiftr_div_pow2 by lia.
    assert (0 < 2 ^ b) by (apply Z.pow_pos_nonneg; lia).
    split_and!; [f_equal| done |].
    + rewrite i64_u64. rewrite <- (i64_u64 (u64 a * _)), <- (i64_u64 (a * _)).
      f_equal. unfold u64. apply Zmult_mod_idemp_l.
    + mi_unfold. Z.div_mod_to_equations. nia.
Qed.

Lemma checked_shift_exact_witness :
  checked_shl_int64 1 63 0 = Outcome 0 (i64 (1 * 2 ^ 63)) /\
  checked_shr_int64 (-5) 1 0 = Outcome 0 (-3).
Proof.
  split.
  - apply (checked_shift_exact 1 63 0 ltac:(mi)). lia.
  - change (-3) with (-5 / 2 ^ 1). apply (checked_shift_exact (-5) 1 0 ltac:(mi)). lia.
Defined.

End Arith.
