(* ===== verification/HandleRemap.v ===== *)
(** * Compound-handle remap table (wirelog/columnar/handle_remap.c)

    An open-addressing hash table with linear probing and SplitMix64 hashing
    that maps pre-compaction handles to post-compaction ones, and the pass that
    rewrites relation columns through it (handle_remap_apply.c).  Array accesses
    are checked and the two unconditional probe loops carry fuel, so that
    [None] is an out-of-bounds access, the [abort] of the trip-wire, or a loop
    that does not end; the theorems show that none of them happens on a table
    built by the API, and that the table refines a finite map. *)
From S2P Require Import Prelude.

Module Remap.

(** struct wl_handle_remap *)
Record t := mk {
  keys : list Z;
  values : list Z;
  capacity : Z;
  count : Z;
  rehash_at : Z }.

Definition WL_ERROR_INVALID_ARGS : Z := EINVAL.
Definition WL_ERROR_OOM : Z := ENOMEM.
Definition WL_HANDLE_REMAP_MIN_CAP : Z := 16.

(** [wl_handle_remap_hash_]: the SplitMix64 finalizer. *)
Definition hash_ (key : Z) : Z :=
  let x := u64 key in
  let x := Z.lxor x (Z.shiftr x 30) in
  let x := u64 (x * 0xbf58476d1ce4e5b9) in
  let x := Z.lxor x (Z.shiftr x 27) in
  let x := u64 (x * 0x94d049bb133111eb) in
  Z.lxor x (Z.shiftr x 31).

(** The loop [while (p && p < x) p <<= 1]; 64 doublings exhaust [size_t]. *)
Fixpoint pow2_loop (fuel : nat) (p x : Z) : Z :=
  match fuel with
  | O => p
  | S f => if negb (p =? 0) && (p <? x) then pow2_loop f (u64 (Z.shiftl p 1)) x else p
  end.

Definition next_pow2_ (x : Z) : Z :=
  if x =? 0 then 0
  else if Z.land x (x - 1) =? 0 then x
  else pow2_loop 65 1 x.

Definition rehash_threshold_ (capacity : Z) : Z := capacity - Z.shiftr capacity 2.

(** [alloc] says whether every [calloc] of the call succeeds. *)
Definition create (alloc : bool) (cap_hint : Z) : Z + t :=
  if cap_hint >? SIZE_MAX / 2 then inl WL_ERROR_OOM
  else
    let target := if cap_hint =? 0 then WL_HANDLE_REMAP_MIN_CAP
                  else u64 (cap_hint + cap_hint / 3 + 1) in
    let target := if target <? WL_HANDLE_REMAP_MIN_CAP then WL_HANDLE_REMAP_MIN_CAP
                  else target in
    let cap := next_pow2_ target in
    if cap =? 0 then inl WL_ERROR_OOM
    else if cap >? SIZE_MAX / (8 * 2) then inl WL_ERROR_OOM
    else if negb alloc then inl WL_ERROR_OOM
    else inr {| keys := replicate (Z.to_nat cap) 0;
                values := replicate (Z.to_nat cap) 0;
                capacity := cap; count := 0;
                rehash_at := rehash_threshold_ cap |}.

(** The probe loop shared by put and lookup: the first slot from [i] on that is
    empty or holds [key]. *)
Fixpoint probe (ks : list Z) (mask key i : Z) (fuel : nat) : option Z :=
  match fuel with
  | O => None
  | S f =>
      k ← rd ks (Z.to_nat i);
      if (k =? 0) || (k =? key) then Some i
      else probe ks mask key (Z.land (u64 (i + 1)) mask) f
  end.

Definition start (m : t) (key : Z) : Z := Z.land (hash_ key) (u64 (capacity m - 1)).

Definition probe_from (m : t) (key : Z) : option Z :=
  probe (keys m) (u64 (capacity m - 1)) key (start m key) (Z.to_nat (capacity m)).

(** [remap_put_unchecked_] *)
Definition put_unchecked (m : t) (key value : Z) : option t :=
  if count m >=? capacity m then None
  else
    i ← probe_from m key;
    k ← rd (keys m) (Z.to_nat i);
    if k =? 0 then
      ks ← wr (keys m) (Z.to_nat i) key;
      vs ← wr (values m) (Z.to_nat i) value;
      Some {| keys := ks; values := vs; capacity := capacity m;
              count := u64 (count m + 1); rehash_at := rehash_at m |}
    else
      vs ← wr (values m) (Z.to_nat i) value;
      Some {| keys := keys m; values := vs; capacity := capacity m;
              count := count m; rehash_at := rehash_at m |}.

(** The reinsertion loop of [remap_grow_] over the old slots. *)
Fixpoint reinsert (old : list (Z * Z)) (m : t) : option t :=
  match old with
  | [] => Some m
  | (k, v) :: rest =>
      if negb (k =? 0) then m' ← put_unchecked m k v; reinsert rest m'
      else reinsert rest m
  end.

(** [remap_grow_]: return code and table. *)
Definition grow (alloc : bool) (m : t) : option (Z * t) :=
  let new_cap := u64 (capacity m * 2) in
  if new_cap <? capacity m then Some (WL_ERROR_OOM, m)
  else if new_cap >? SIZE_MAX / (8 * 2) then Some (WL_ERROR_OOM, m)
  else if negb alloc then Some (WL_ERROR_OOM, m)
  else
    m' ← reinsert (zip (keys m) (values m))
           {| keys := replicate (Z.to_nat new_cap) 0;
              values := replicate (Z.to_nat new_cap) 0;
              capacity := new_cap; count := 0;
              rehash_at := rehash_threshold_ new_cap |};
    Some (0, m').

Definition insert (alloc : bool) (m : t) (old_handle new_handle : Z) : option (Z * t) :=
  if old_handle =? 0 then Some (WL_ERROR_INVALID_ARGS, m)
  else
    '(rc, m1) ← (if u64 (count m + 1) >? rehash_at m then grow alloc m else Some (0, m));
    if negb (rc =? 0) then Some (rc, m1)
    else m2 ← put_unchecked m1 old_handle new_handle; Some (0, m2).

Definition lookup (m : t) (old_handle : Z) : option Z :=
  if old_handle =? 0 then Some 0
  else
    i ← probe_from m old_handle;
    k ← rd (keys m) (Z.to_nat i);
    if k =? 0 then Some 0 else rd (values m) (Z.to_nat i).

(** ** The abstract map *)

Definition entries (m : t) : list (Z * Z) :=
  filter (fun kv => kv.1 <> 0) (zip (keys m) (values m)).

Definition to_map (m : t) : gmap Z Z := list_to_map (entries m).

(** ** Well-formed tables *)

Definition at_ (ks : list Z) (i : Z) : Z := default 0 (ks !! Z.to_nat i).

Definition used (ks : list Z) : nat := length (filter (fun k => k <> 0) ks).

(** Slot [s] is reached from the home of its key over occupied slots only. *)
Definition path_ok (n : Z) (ks : list Z) (home : Z -> Z) : Prop :=
  forall s, 0 <= s < n -> at_ ks s <> 0 ->
  exists d, 0 <= d < n /\ s = (home (at_ ks s) + d) mod n /\
    forall j, 0 <= j < d -> at_ ks ((home (at_ ks s) + j) mod n) <> 0.

Definition uniq (n : Z) (ks : list Z) : Prop :=
  forall s s', 0 <= s < n -> 0 <= s' < n ->
  at_ ks s <> 0 -> at_ ks s = at_ ks s' -> s = s'.

Definition home (n key : Z) : Z := hash_ key mod n.

Record wf (m : t) : Prop := {
  wf_cap : exists k, 4 <= k <= 59 /\ capacity m = 2 ^ k;
  wf_keys : Z.of_nat (length (keys m)) = capacity m;
  wf_values : Z.of_nat (length (values m)) = capacity m;
  wf_count : count m = Z.of_nat (used (keys m));
  wf_thr : rehash_at m = rehash_threshold_ (capacity m);
  wf_load : count m <= rehash_at m;
  wf_uniq : uniq (capacity m) (keys m);
  wf_path : path_ok (capacity m) (keys m) (home (capacity m)) }.

(** ** Slots and indices *)

Lemma at_lookup ks s :
  0 <= s < Z.of_nat (length ks) -> ks !! Z.to_nat s = Some (at_ ks s).
Proof.
  intros H. unfold at_. destruct (ks !! Z.to_nat s) eqn:E; [done|].
  apply lookup_ge_None in E. lia.
Qed.

Lemma rd_at ks s : 0 <= s < Z.of_nat (length ks) -> rd ks (Z.to_nat s) = Some (at_ ks s).
Proof. apply at_lookup. Qed.

Lemma wr_ok {A} (a : list A) s x :
  0 <= s < Z.of_nat (length a) -> wr a (Z.to_nat s) x = Some (<[Z.to_nat s := x]> a).
Proof. intros H. unfold wr. rewrite decide_True; [done|lia]. Qed.

Lemma at_upd ks s s' x :
  0 <= s < Z.of_nat (length ks) -> 0 <= s' ->
  at_ (<[Z.to_nat s := x]> ks) s' = if decide (s' = s) then x else at_ ks s'.
Proof.
  intros H H'. unfold at_. case_decide as E.
  - subst. rewrite list_lookup_insert_eq; [done|lia].
  - rewrite list_lookup_insert_ne; [done|lia].
Qed.

Lemma land_mask x k : 0 <= k <= 60 -> Z.land x (u64 (2 ^ k - 1)) = x mod 2 ^ k.
Proof.
  intros Hk. assert (2 ^ k <= 2 ^ 60) by (apply Z.pow_le_mono_r; lia).
  assert (0 < 2 ^ k) by (apply Z.pow_pos_nonneg; lia).
  rewrite u64_small by mi. rewrite <- Z.land_ones by lia.
  f_equal. rewrite Z.ones_equiv. lia.
Qed.

Lemma mod_step i j n : 0 < n -> ((i + 1) mod n + j) mod n = (i + (j + 1)) mod n.
Proof. intros. rewrite Zplus_mod_idemp_l. f_equal. lia. Qed.

(** ** The probe loop *)

Definition stop (ks : list Z) (key i : Z) : Prop := at_ ks i = 0 \/ at_ ks i = key.

#[export] Instance stop_dec ks key i : Decision (stop ks key i).
Proof. unfold stop. apply _. Defined.

Lemma probe_first k ks key fuel : forall i,
  0 <= k <= 60 -> Z.of_nat (length ks) = 2 ^ k -> 0 <= i < 2 ^ k ->
  (exists j, 0 <= j < Z.of_nat fuel /\ stop ks key ((i + j) mod 2 ^ k)) ->
  exists j, 0 <= j < Z.of_nat fuel /\
    probe ks (u64 (2 ^ k - 1)) key i fuel = Some ((i + j) mod 2 ^ k) /\
    stop ks key ((i + j) mod 2 ^ k) /\
    forall j', 0 <= j' < j -> ~ stop ks key ((i + j') mod 2 ^ k).
Proof.
  induction fuel as [|f IH]; intros i Hk Hlen Hi (j & Hj & Hs); [lia|].
  assert (Hn : 0 < 2 ^ k) by lia.
  cbn [probe]. rewrite rd_at by lia. cbn.
  destruct ((at_ ks i =? 0) || (at_ ks i =? key)) eqn:E.
  - exists 0. rewrite Z.add_0_r, Z.mod_small by lia.
    split_and!; [lia|lia|done| |lia]. unfold stop. lia.
  - assert (~ stop ks key i) as Hno by (unfold stop; lia).
    assert (2 ^ k <= 2 ^ 60) by (apply Z.pow_le_mono_r; lia).
    rewrite (u64_small (i + 1)) by mi. rewrite land_mask by lia.
    destruct (IH ((i + 1) mod 2 ^ k)) as (j1 & Hj1 & Hp & Hst & Hbefore); try done.
    { apply Z.mod_pos_bound; lia. }
    { exists (j - 1). rewrite mod_step by lia.
      destruct (decide (j = 0)) as [->|].
      - rewrite Z.add_0_r, Z.mod_small in Hs by lia. done.
      - split; [lia|]. by replace (j - 1 + 1) with j by lia. }
    exists (j1 + 1). rewrite mod_step in Hp, Hst by lia.
    split_and!; [lia|lia|done|done|].
    intros j' Hj'. destruct (decide (j' = 0)) as [->|].
    + by rewrite Z.add_0_r, Z.mod_small by lia.
    + specialize (Hbefore (j' - 1) ltac:(lia)). rewrite mod_step in Hbefore by lia.
      by replace (j' - 1 + 1) with j' in Hbefore by lia.
Qed.

Lemma free_slot ks : (used ks < length ks)%nat ->
  exists s, 0 <= s < Z.of_nat (length ks) /\ at_ ks s = 0.
Proof.
  unfold used. intros H.
  destruct (decide (Exists (fun k => k = 0) ks)) as [He|Hn].
  - apply Exists_exists in He as (x & Hx & ->). apply list_elem_of_lookup in Hx as [i Hi].
    exists (Z.of_nat i). pose proof (lookup_lt_Some _ _ _ Hi).
    split; [lia|]. unfold at_. by rewrite Nat2Z.id, Hi.
  - exfalso. apply not_Exists_Forall in Hn; [|apply _].
    rewrite filter_all in H; [lia|done].
Qed.

(** ** Contents *)

(** A table without the load-factor bound: the state inside [grow]. *)
Record wf0 (m : t) : Prop := {
  w_cap : exists k, 4 <= k <= 59 /\ capacity m = 2 ^ k;
  w_keys : Z.of_nat (length (keys m)) = capacity m;
  w_values : Z.of_nat (length (values m)) = capacity m;
  w_count : count m = Z.of_nat (used (keys m));
  w_uniq : uniq (capacity m) (keys m);
  w_path : path_ok (capacity m) (keys m) (home (capacity m)) }.

Lemma wf_wf0 m : wf m -> wf0 m.
Proof. intros []. by constructor. Qed.
#[local] Hint Resolve wf_wf0 : core.

Lemma cap_pos m : wf0 m -> 16 <= capacity m <= 2 ^ 59.
Proof.
  intros [(k & Hk & ->) _ _ _ _ _]. split.
  - change 16 with (2 ^ 4). apply Z.pow_le_mono_r; lia.
  - apply Z.pow_le_mono_r; lia.
Qed.

Lemma start_home m key : wf0 m -> start m key = home (capacity m) key.
Proof.
  intros [(k & Hk & E) _ _ _ _ _]. unfold start, home. rewrite E.
  apply land_mask. lia.
Qed.

Lemma home_range n key : 0 < n -> 0 <= home n key < n.
Proof. intros. apply Z.mod_pos_bound. lia. Qed.

Lemma entries_keys ks vs : length ks = length vs ->
  (filter (fun kv : Z * Z => kv.1 <> 0) (zip ks vs)).*1 = filter (fun k => k <> 0) ks.
Proof.
  revert vs. induction ks as [|k ks IH]; intros [|v vs] H; try done.
  cbn [zip zip_with]. rewrite !filter_cons. injection H as H.
  destruct (decide (k = 0)).
  - rewrite !decide_False by (cbn; tauto). by apply IH.
  - rewrite !decide_True by done. cbn. by rewrite IH.
Qed.

Lemma filter_nodup (ks : list Z) :
  (forall i j x, ks !! i = Some x -> ks !! j = Some x -> x <> 0 -> i = j) ->
  NoDup (filter (fun k => k <> 0) ks).
Proof.
  induction ks as [|k ks IH]; intros H; [constructor|].
  rewrite filter_cons. assert (NoDup (filter (fun k => k <> 0) ks)).
  { apply IH. intros i j x Hi Hj Hx.
    enough (S i = S j) by lia. by apply (H _ _ x). }
  case_decide; [|done]. constructor; [|done].
  rewrite list_elem_of_filter, list_elem_of_lookup. intros [_ [i Hi]].
  specialize (H O (S i) k eq_refl Hi ltac:(done)). lia.
Qed.

Lemma uniq_nodup m : wf0 m -> NoDup (entries m).*1.
Proof.
  intros W. destruct W as [_ Hk Hv _ Hu _]. unfold entries.
  rewrite entries_keys by lia. apply filter_nodup.
  intros i j x Hi Hj Hx.
  pose proof (lookup_lt_Some _ _ _ Hi). pose proof (lookup_lt_Some _ _ _ Hj).
  specialize (Hu (Z.of_nat i) (Z.of_nat j)). unfold at_ in Hu.
  rewrite !Nat2Z.id, Hi, Hj in Hu. cbn in Hu.
  enough (Z.of_nat i = Z.of_nat j) by lia. apply Hu; lia || done.
Qed.

Lemma lookup_to_map m k v : wf0 m ->
  to_map m !! k = Some v <->
  k <> 0 /\ exists s, 0 <= s < capacity m /\ at_ (keys m) s = k /\ at_ (values m) s = v.
Proof.
  intros W. unfold to_map. rewrite <- elem_of_list_to_map by by apply uniq_nodup.
  unfold entries. rewrite list_elem_of_filter, list_elem_of_lookup. cbn.
  destruct W as [_ Hk Hv _ _ _].
  split; intros [H0 [s Hs]]; split; try done.
  - rewrite lookup_zip_with_Some in Hs. destruct Hs as (x & y & [= -> ->] & Hx & Hy).
    exists (Z.of_nat s). pose proof (lookup_lt_Some _ _ _ Hx).
    unfold at_. rewrite Nat2Z.id, Hx, Hy. split_and!; done || lia.
  - destruct Hs as (Hr & <- & <-). exists (Z.to_nat s).
    rewrite lookup_zip_with_Some.
    exists (at_ (keys m) s), (at_ (values m) s).
    split_and!; [done| |]; apply at_lookup; lia.
Qed.

Lemma count_size m : wf0 m -> count m = Z.of_nat (size (to_map m)).
Proof.
  intros W. rewrite (w_count _ W). f_equal. unfold to_map.
  rewrite <- length_map_to_list, map_to_list_to_map by by apply uniq_nodup.
  destruct W as [_ Hk Hv _ _ _]. unfold used, entries.
  rewrite <- (entries_keys (keys m) (values m)) by lia. apply length_fmap.
Qed.

(** ** Probing a well-formed table *)

Lemma probe_hit m s : wf0 m -> 0 <= s < capacity m -> at_ (keys m) s <> 0 ->
  probe_from m (at_ (keys m) s) = Some s.
Proof.
  intros W Hs Hnz. pose proof (cap_pos m W) as Hcap.
  unfold probe_from. rewrite start_home by done.
  destruct (w_path _ W s Hs Hnz) as (d & Hd & Heq & Hp).
  pose proof (home_range (capacity m) (at_ (keys m) s) ltac:(lia)) as Hh.
  destruct (w_cap _ W) as (k & Hk & Ek). rewrite Ek in *.
  destruct (probe_first k (keys m) (at_ (keys m) s) (Z.to_nat (2 ^ k))
              (home (2 ^ k) (at_ (keys m) s))) as (j & Hj & Hpr & Hst & Hbef);
    try lia; [pose proof (w_keys _ W); lia| |].
  { exists d. split; [lia|]. rewrite <- Heq. by right. }
  rewrite Hpr. f_equal.
  assert (j <= d) by (destruct (decide (j <= d)); [done|];
    destruct (Hbef d); [lia|]; rewrite <- Heq; by right).
  destruct (decide (j = d)) as [->|]; [done|].
  destruct Hst as [Hst|Hst]; [exfalso; by apply (Hp j); [lia|]|].
  symmetry. apply (w_uniq _ W); rewrite ?Ek; auto. apply Z.mod_pos_bound. lia.
Qed.

Lemma probe_miss m key : wf0 m -> count m < capacity m ->
  key <> 0 -> (forall s, 0 <= s < capacity m -> at_ (keys m) s <> key) ->
  exists d, 0 <= d < capacity m /\
    let e := (home (capacity m) key + d) mod capacity m in
    probe_from m key = Some e /\ at_ (keys m) e = 0 /\
    forall j, 0 <= j < d -> at_ (keys m) ((home (capacity m) key + j) mod capacity m) <> 0.
Proof.
  intros W Hc H0 Habs. pose proof (cap_pos m W) as Hcap.
  unfold probe_from. rewrite start_home by done.
  pose proof (home_range (capacity m) key ltac:(lia)) as Hh.
  destruct (free_slot (keys m)) as (s & Hs & Hz).
  { pose proof (w_count _ W). pose proof (w_keys _ W). lia. }
  rewrite (w_keys _ W) in Hs.
  destruct (w_cap _ W) as (k & Hk & Ek). rewrite Ek in *.
  destruct (probe_first k (keys m) key (Z.to_nat (2 ^ k)) (home (2 ^ k) key))
    as (j & Hj & Hpr & Hst & Hbef); try lia; [pose proof (w_keys _ W); lia| |].
  { exists ((s - home (2 ^ k) key) mod 2 ^ k).
    pose proof (Z.mod_pos_bound (s - home (2 ^ k) key) (2 ^ k) ltac:(lia)).
    split; [lia|]. rewrite Zplus_mod_idemp_r.
    replace (home (2 ^ k) key + (s - home (2 ^ k) key)) with s by lia.
    rewrite Z.mod_small by lia. by left. }
  exists j. split; [lia|]. cbn. split_and!; [done| |].
  - destruct Hst as [|Hst]; [done|]. destruct (Habs _ ltac:(apply Z.mod_pos_bound; lia) Hst).
  - intros j' Hj' E. apply (Hbef j' Hj'). by left.
Qed.

(** ** put, grow, insert *)

Definition holds (m : t) (key : Z) : Prop :=
  exists s, 0 <= s < capacity m /\ at_ (keys m) s = key.

Lemma holds_dec m key : wf0 m -> key <> 0 ->
  holds m key \/ (forall s, 0 <= s < capacity m -> at_ (keys m) s <> key).
Proof.
  intros W H0. destruct (decide (key ∈ keys m)) as [Hin|Hout].
  - left. apply list_elem_of_lookup in Hin as [i Hi].
    pose proof (lookup_lt_Some _ _ _ Hi). pose proof (w_keys _ W).
    exists (Z.of_nat i). unfold at_. rewrite Nat2Z.id, Hi. split; [lia|done].
  - right. intros s Hs E. apply Hout. rewrite <- E. apply list_elem_of_lookup.
    exists (Z.to_nat s). apply at_lookup. pose proof (w_keys _ W). lia.
Qed.

Definition with_values (m : t) (vs : list Z) : t :=
  {| keys := keys m; values := vs; capacity := capacity m;
     count := count m; rehash_at := rehash_at m |}.

Lemma overwrite_ok m s value : wf0 m -> 0 <= s < capacity m -> at_ (keys m) s <> 0 ->
  let m' := with_values m (<[Z.to_nat s := value]> (values m)) in
  wf0 m' /\ to_map m' = <[at_ (keys m) s := value]> (to_map m).
Proof.
  intros W Hs Hnz m'. assert (W' : wf0 m').
  { destruct W. constructor; cbn; try done. by rewrite length_insert. }
  split; [done|]. apply map_eq. intros k. apply option_eq. intros v.
  rewrite lookup_insert_Some, !lookup_to_map by done. cbn.
  assert (Hlen : 0 <= s < Z.of_nat (length (values m))) by (rewrite (w_values _ W); lia).
  split.
  - intros (Hk0 & s' & Hs' & Hk & Hv). rewrite at_upd in Hv by lia.
    case_decide as E; [subst; by left|].
    right. split; [|split; [done|by exists s']].
    intros Hc. apply E. symmetry. apply (w_uniq _ W); auto. by rewrite Hc.
  - intros [[<- <-]|[Hne [Hk0 (s' & Hs' & Hk & Hv)]]]; split; try done.
    + exists s. rewrite at_upd, decide_True by lia. done.
    + exists s'. rewrite at_upd, decide_False by (lia || congruence). done.
Qed.

Lemma used_insert ks s key : 0 <= s < Z.of_nat (length ks) -> key <> 0 -> at_ ks s = 0 ->
  used (<[Z.to_nat s := key]> ks) = S (used ks).
Proof.
  intros Hs H0 Hz. pose proof (at_lookup ks s Hs) as Hl. rewrite Hz in Hl.
  apply (length_filter_insert (fun k => k <> 0) ks _ 0); tauto.
Qed.

Definition with_new (m : t) (s key value : Z) : t :=
  {| keys := <[Z.to_nat s := key]> (keys m);
     values := <[Z.to_nat s := value]> (values m);
     capacity := capacity m; count := count m + 1; rehash_at := rehash_at m |}.

Lemma fresh_ok m key value d : wf0 m -> key <> 0 -> 0 <= d < capacity m ->
  (forall s, 0 <= s < capacity m -> at_ (keys m) s <> key) ->
  let e := (home (capacity m) key + d) mod capacity m in
  at_ (keys m) e = 0 ->
  (forall j, 0 <= j < d -> at_ (keys m) ((home (capacity m) key + j) mod capacity m) <> 0) ->
  wf0 (with_new m e key value) /\
  to_map (with_new m e key value) = <[key := value]> (to_map m).
Proof.
  intros W H0 Hd Habs e Hz Hp. pose proof (cap_pos m W).
  assert (He : 0 <= e < capacity m) by (apply Z.mod_pos_bound; lia).
  pose proof (w_keys _ W) as Hlk. pose proof (w_values _ W) as Hlv.
  assert (Hupd : forall s, 0 <= s -> at_ (<[Z.to_nat e := key]> (keys m)) s
            = if decide (s = e) then key else at_ (keys m) s)
    by (intros; apply at_upd; lia).
  assert (Hmono : forall s, 0 <= s -> at_ (keys m) s <> 0 ->
            at_ (<[Z.to_nat e := key]> (keys m)) s <> 0)
    by (intros s ??; rewrite Hupd by done; by case_decide).
  assert (W' : wf0 (with_new m e key value)).
  { constructor; unfold with_new; cbn [keys values capacity count]; rewrite ?length_insert; try done.
    - apply (w_cap _ W).
    - rewrite used_insert by (lia || done). pose proof (w_count _ W). lia.
    - intros s s' Hs Hs'. rewrite !Hupd by lia.
      do 2 case_decide; subst; try done; intros Hn E.
      + by destruct (Habs s').
      + by destruct (Habs s).
      + by apply (w_uniq _ W).
    - intros s Hs. rewrite Hupd by lia. case_decide as E; intros Hn.
      + exists d. split_and!; [lia|lia|done|]. intros j Hj. apply Hmono; auto.
        apply Z.mod_pos_bound. lia.
      + destruct (w_path _ W s Hs Hn) as (d' & Hd' & Eq & Hp').
        exists d'. split_and!; [lia|lia|done|]. intros j Hj. apply Hmono; auto.
        apply Z.mod_pos_bound. lia. }
  split; [done|]. apply map_eq. intros k. apply option_eq. intros v.
  rewrite lookup_insert_Some, !lookup_to_map by done.
  unfold with_new; cbn [keys values capacity]. split.
  - intros (Hk0 & s' & Hs' & Hk & Hv). rewrite Hupd in Hk by lia. rewrite at_upd in Hv by lia.
    case_decide as E; [by left|]. right. split; [|by eauto].
    intros <-. by apply (Habs s').
  - intros [[<- <-]|[Hne [Hk0 (s' & Hs' & Hk & Hv)]]]; split; try done.
    + exists e. rewrite Hupd, at_upd, !decide_True by lia. done.
    + exists s'. assert (s' <> e) by (intros ->; congruence).
      rewrite Hupd, at_upd, !decide_False by lia. done.
Qed.

(** Inserting below a full table always ends, keeps the invariant and updates
    the abstract map. *)
Lemma put_ok m key value : wf0 m -> count m < capacity m -> key <> 0 ->
  exists m', put_unchecked m key value = Some m' /\ wf0 m' /\
    to_map m' = <[key := value]> (to_map m) /\
    capacity m' = capacity m /\ rehash_at m' = rehash_at m.
Proof.
  intros W Hc H0. pose proof (cap_pos m W) as Hcap.
  unfold put_unchecked. rewrite Z.geb_leb.
  destruct (Z.leb_spec (capacity m) (count m)); [lia|].
  pose proof (w_keys _ W) as Hlk. pose proof (w_values _ W) as Hlv.
  destruct (holds_dec m key W H0) as [(s & Hs & <-)|Habs].
  - rewrite probe_hit by done. cbn. rewrite rd_at by lia. cbn.
    destruct (Z.eqb_spec (at_ (keys m) s) 0); [done|].
    rewrite wr_ok by lia. cbn. eexists. split; [done|].
    destruct (overwrite_ok m s value W Hs H0). done.
  - destruct (probe_miss m key W Hc H0 Habs) as (d & Hd & Hpr & Hz & Hp).
    cbn zeta in *. set (e := (home (capacity m) key + d) mod capacity m) in *.
    assert (He : 0 <= e < capacity m) by (apply Z.mod_pos_bound; lia).
    rewrite Hpr. cbn. rewrite rd_at by lia. rewrite Hz. cbn.
    rewrite !wr_ok by lia. cbn. rewrite u64_small.
    2: { pose proof (w_count _ W). mi. }
    eexists. split; [done|].
    destruct (fresh_ok m key value d W H0 Hd Habs Hz Hp). done.
Qed.

Lemma used_replicate n : used (replicate n 0) = O.
Proof.
  unfold used. induction n as [|n IH]; [done|].
  rewrite replicate_S, filter_cons, decide_False by tauto. done.
Qed.

Lemma empty_wf0 k r : 4 <= k <= 59 ->
  let m := {| keys := replicate (Z.to_nat (2 ^ k)) 0;
              values := replicate (Z.to_nat (2 ^ k)) 0;
              capacity := 2 ^ k; count := 0; rehash_at := r |} in
  wf0 m /\ to_map m = ∅.
Proof.
  intros Hk m. assert (0 < 2 ^ k) by (apply Z.pow_pos_nonneg; lia).
  assert (Hat : forall s, at_ (keys m) s = 0).
  { intros s. unfold at_. cbn. destruct (_ !! _) as [x|] eqn:E; [|done].
    apply lookup_replicate in E as [-> _]. done. }
  assert (W : wf0 m).
  { constructor; unfold m; cbn [keys values capacity count];
      rewrite ?length_replicate; try lia.
    - by exists k.
    - by rewrite used_replicate.
    - intros s s' _ _ Hn. by rewrite Hat in Hn.
    - intros s _ Hn. by rewrite Hat in Hn. }
  split; [done|]. apply map_eq. intros x. rewrite lookup_empty.
  destruct (to_map m !! x) as [v|] eqn:E; [|done].
  apply lookup_to_map in E as (Hn & s & _ & Hk' & _); [|done]. by rewrite Hat in Hk'.
Qed.

Lemma reinsert_ok old : forall m, wf0 m ->
  NoDup (filter (fun kv : Z * Z => kv.1 <> 0) old).*1 ->
  count m + Z.of_nat (length (filter (fun kv : Z * Z => kv.1 <> 0) old)) < capacity m ->
  exists m', reinsert old m = Some m' /\ wf0 m' /\
    to_map m' = list_to_map (filter (fun kv : Z * Z => kv.1 <> 0) old) ∪ to_map m /\
    capacity m' = capacity m /\ rehash_at m' = rehash_at m.
Proof.
  induction old as [|[k v] rest IH]; intros m W Hnd Hcount.
  { exists m. cbn. rewrite (left_id_L ∅ (∪)). done. }
  cbn [reinsert]. rewrite filter_cons in Hnd, Hcount |- *. cbn [fst] in *.
  destruct (Z.eqb_spec k 0) as [E|E]; cbn [negb].
  - rewrite decide_False in Hnd, Hcount |- * by tauto. by apply IH.
  - rewrite decide_True in Hnd, Hcount |- * by done.
    cbn in Hnd, Hcount. apply NoDup_cons in Hnd as [Hnin Hnd].
    destruct (put_ok m k v W ltac:(lia) E) as (m1 & Hp & W1 & Hm1 & Hc1 & Hr1).
    rewrite Hp. cbn.
    destruct (IH m1 W1 Hnd) as (m' & Hre & W' & Hm' & Hc' & Hr').
    { rewrite (count_size _ W1), Hm1. rewrite (count_size _ W) in Hcount.
      rewrite map_size_insert. case_match; unfold id; lia. }
    exists m'. split_and!; [done|done| |congruence|congruence].
    rewrite Hm', Hm1. rewrite <- insert_union_r.
    + by rewrite insert_union_l.
    + by apply not_elem_of_list_to_map.
Qed.

Lemma pow2_double k : 0 <= k -> 2 ^ k * 2 = 2 ^ (k + 1).
Proof. intros. rewrite Z.pow_add_r by lia. lia. Qed.

(** [grow] either reports [ENOMEM] and leaves the table alone or doubles it. *)
Lemma grow_ok alloc m : wf m ->
  grow alloc m = Some (WL_ERROR_OOM, m) /\ (alloc = false \/ capacity m = 2 ^ 59) \/
  exists m', grow alloc m = Some (0, m') /\ wf m' /\ to_map m' = to_map m /\
    capacity m' = 2 * capacity m /\ count m' = count m /\ alloc = true.
Proof.
  intros Wf. pose proof (wf_wf0 m Wf) as W. pose proof (cap_pos m W) as Hcap.
  destruct (w_cap _ W) as (k & Hk & Ek).
  unfold grow. cbv zeta. rewrite (u64_small (capacity m * 2)) by mi.
  destruct (Z.ltb_spec (capacity m * 2) (capacity m)); [lia|].
  rewrite Z.gtb_ltb. change (SIZE_MAX / (8 * 2)) with (2 ^ 60 - 1).
  assert (k = 59 \/ k + 1 <= 59) as [->|Hk'] by lia.
  { left. rewrite Ek. split; [done|by right]. }
  assert (2 ^ (k + 1) <= 2 ^ 59) by (apply Z.pow_le_mono_r; lia).
  rewrite <- pow2_double, <- Ek in * by lia.
  destruct (Z.ltb_spec (2 ^ 60 - 1) (capacity m * 2)); [lia|].
  destruct alloc; [right|left; by split; [|left]].
  cbn [negb]. rewrite Ek, pow2_double by lia.
  destruct (empty_wf0 (k + 1) (rehash_threshold_ (2 ^ (k + 1)))) as [W0 E0]; [lia|].
  set (m0 := {| keys := _ |}) in *.
  destruct (reinsert_ok (zip (keys m) (values m)) m0) as (m' & -> & W' & Hm' & Hc' & Hr').
  { done. }
  { apply (uniq_nodup m W). }
  { cbn. rewrite <- pow2_double, <- Ek by lia.
    rewrite <- (length_fmap fst), entries_keys by (pose proof (w_keys _ W); pose proof (w_values _ W); lia).
    change (length _) with (used (keys m)). rewrite <- (w_count _ W).
    pose proof (wf_load _ Wf). rewrite (wf_thr _ Wf) in *. unfold rehash_threshold_ in *.
    rewrite Z.shiftr_div_pow2 in * by lia. Z.div_mod_to_equations. lia. }
  assert (Hmap : to_map m' = to_map m) by (rewrite Hm', E0; apply (right_id_L ∅ (∪))).
  assert (Hcnt : count m' = count m) by (by rewrite !count_size, Hmap by done).
  exists m'. cbn in *. split; [done|]. split_and!; try done; [|rewrite Hc', <- pow2_double; lia].
  destruct W'. constructor; try done.
  - by rewrite Hr', Hc'.
  - rewrite Hcnt, Hr'. pose proof (wf_load _ Wf). rewrite (wf_thr _ Wf) in *.
    unfold rehash_threshold_ in *. rewrite !Z.shiftr_div_pow2 in * by lia.
    rewrite <- pow2_double, <- Ek by lia. Z.div_mod_to_equations. lia.
Qed.

Lemma load_below m : wf m -> count m < capacity m.
Proof.
  intros W. pose proof (wf_load _ W). rewrite (wf_thr _ W) in *.
  pose proof (cap_pos m (wf_wf0 _ W)).
  unfold rehash_threshold_ in *. rewrite Z.shiftr_div_pow2 in * by lia.
  Z.div_mod_to_equations. lia.
Qed.

(** After the growth check, one more entry fits under the threshold. *)
Lemma put_wf m key value : wf m -> key <> 0 -> count m + 1 <= rehash_at m ->
  exists m', put_unchecked m key value = Some m' /\ wf m' /\
    to_map m' = <[key := value]> (to_map m).
Proof.
  intros W H0 Hroom.
  destruct (put_ok m key value) as (m' & Hp & W' & Hm & Hc & Hr); auto using load_below.
  exists m'. split_and!; try done. pose proof (wf_thr _ W) as Ht.
  assert (count m' <= count m + 1).
  { rewrite !count_size, Hm, map_size_insert by auto. case_match; unfold id; lia. }
  destruct W'. constructor; try done; rewrite ?Hr, ?Hc; done || lia.
Qed.

Lemma insert_spec alloc m k v : wf m -> k <> 0 ->
  (exists m', insert alloc m k v = Some (0, m') /\ wf m' /\
     to_map m' = <[k := v]> (to_map m)) \/
  insert alloc m k v = Some (WL_ERROR_OOM, m) /\ count m = rehash_at m /\
    (alloc = false \/ capacity m = 2 ^ 59).
Proof.
  intros W H0. pose proof (cap_pos m (wf_wf0 _ W)).
  pose proof (load_below m W). pose proof (wf_count _ W).
  unfold insert. destruct (Z.eqb_spec k 0); [done|].
  rewrite (u64_small (count m + 1)) by mi. rewrite Z.gtb_ltb.
  destruct (Z.ltb_spec (rehash_at m) (count m + 1)) as [Hfull|Hroom].
  - destruct (grow_ok alloc m W) as [[-> Ho]|(m1 & -> & W1 & Hm1 & Hc1 & Hn1 & _)].
    + right. cbn. pose proof (wf_load _ W). split_and!; [done|lia|done].
    + left. cbn. destruct (put_wf m1 k v W1 H0) as (m' & -> & W' & Hm').
      { rewrite Hn1, (wf_thr _ W1), Hc1. pose proof (wf_load _ W).
        rewrite (wf_thr _ W) in *. unfold rehash_threshold_ in *.
        rewrite !Z.shiftr_div_pow2 in * by lia. Z.div_mod_to_equations. lia. }
      exists m'. cbn. by rewrite Hm', Hm1.
  - left. cbn. destruct (put_wf m k v W H0) as (m' & -> & W' & Hm'); [lia|].
    exists m'. by cbn.
Qed.

(** ** create *)

Lemma land_pred_pow2 x : 0 < x -> Z.land x (x - 1) = 0 -> x = 2 ^ Z.log2 x.
Proof.
  intros Hx Hl. destruct (Z.log2_spec x Hx) as [Hlo Hhi].
  destruct (decide (x = 2 ^ Z.log2 x)) as [|Hne]; [done|exfalso].
  assert (Hb : Z.testbit (Z.land x (x - 1)) (Z.log2 x) = true).
  { assert (0 < 2 ^ Z.log2 x) by (apply Z.pow_pos_nonneg; [lia|apply Z.log2_nonneg]).
    rewrite Z.land_spec. rewrite Z.bit_log2 by lia.
    replace (Z.log2 x) with (Z.log2 (x - 1)); [by rewrite Z.bit_log2 by lia|].
    apply Z.log2_unique; [apply Z.log2_nonneg|]. lia. }
  rewrite Hl, Z.bits_0 in Hb. done.
Qed.

Definition pow2_above (x p : Z) : Prop :=
  p = 0 /\ 2 ^ 63 < x \/
  exists k, p = 2 ^ k /\ 0 <= k <= 63 /\ x <= 2 ^ k < 2 * x.

Lemma pow2_loop_spec fuel : forall j x, 0 <= j <= 63 -> 1 <= x < 2 ^ 64 ->
  2 ^ j < 2 * x -> 65 <= j + Z.of_nat fuel -> pow2_above x (pow2_loop fuel (2 ^ j) x).
Proof.
  induction fuel as [|f IH]; intros j x Hj Hx Hlt Hf; [lia|].
  assert (0 < 2 ^ j) by (apply Z.pow_pos_nonneg; lia).
  cbn [pow2_loop]. destruct (Z.eqb_spec (2 ^ j) 0); [lia|].
  destruct (Z.ltb_spec (2 ^ j) x) as [Hlt'|Hge]; cbn [negb andb].
  2: { right. exists j. split_and!; lia || done. }
  rewrite Z.shiftl_mul_pow2 by lia. change (2 ^ 1) with 2. rewrite pow2_double by lia.
  destruct (decide (j = 63)) as [->|].
  { change (u64 (2 ^ (63 + 1))) with 0. left. split; [|lia]. by destruct f. }
  assert (2 ^ (j + 1) <= 2 ^ 63) by (apply Z.pow_le_mono_r; lia).
  rewrite u64_small by (pose proof (Z.pow_pos_nonneg 2 (j + 1)); mi).
  apply IH; try lia. rewrite <- pow2_double by lia. lia.
Qed.

Lemma next_pow2_spec x : 1 <= x < 2 ^ 64 -> pow2_above x (next_pow2_ x).
Proof.
  intros Hx. unfold next_pow2_. destruct (Z.eqb_spec x 0); [lia|].
  destruct (Z.eqb_spec (Z.land x (x - 1)) 0) as [Hp|Hp].
  - right. exists (Z.log2 x). rewrite <- land_pred_pow2 by lia.
    pose proof (Z.log2_nonneg x). pose proof (Z.log2_lt_pow2 x 64 ltac:(lia)).
    split_and!; lia.
  - change 1 with (2 ^ 0). apply pow2_loop_spec; lia.
Qed.

Lemma create_ok alloc hint : 0 <= hint <= SIZE_MAX ->
  match create alloc hint with
  | inl e => e = WL_ERROR_OOM /\ (alloc = false \/ 2 ^ 57 < hint)
  | inr m => wf m /\ to_map m = ∅ /\ hint <= rehash_at m /\ alloc = true
  end.
Proof.
  intros Hh. unfold create. rewrite !Z.gtb_ltb.
  change (SIZE_MAX / 2) with (2 ^ 63 - 1). change (SIZE_MAX / (8 * 2)) with (2 ^ 60 - 1).
  destruct (Z.ltb_spec (2 ^ 63 - 1) hint); [split; [done|right; lia]|].
  set (t1 := if hint =? 0 then _ else _).
  set (t2 := if t1 <? _ then _ else _).
  assert (Ht : 16 <= t2 < 2 ^ 64 /\ hint + hint / 3 + 1 <= t2 /\
               (t2 <= 16 \/ t2 <= hint + hint / 3 + 1)).
  { subst t2 t1. unfold WL_HANDLE_REMAP_MIN_CAP.
    rewrite u64_small by mi_divmod.
    destruct (Z.eqb_spec hint 0) as [->|]; [split_and!; [done|done|done|by left]|].
    match goal with |- context [?a <? ?b] => destruct (Z.ltb_spec a b) end;
      Z.div_mod_to_equations; lia. }
  clearbody t2. clear t1.
  destruct (next_pow2_spec t2) as [[-> Hbig]|(k & -> & Hk & Hlo & Hhi)]; [lia| |].
  { cbn. split; [done|]. right. Z.div_mod_to_equations. lia. }
  destruct (Z.eqb_spec (2 ^ k) 0); [lia|].
  destruct (Z.ltb_spec (2 ^ 60 - 1) (2 ^ k)) as [Hb|Hs].
  { split; [done|]. right. Z.div_mod_to_equations. lia. }
  destruct alloc; cbn [negb]; [|by split; [|left]].
  assert (4 <= k) by (apply (Z.pow_le_mono_r_iff 2); lia).
  assert (k < 60) by (apply (Z.pow_lt_mono_r_iff 2); lia).
  destruct (empty_wf0 k (rehash_threshold_ (2 ^ k))) as [W E]; [lia|].
  assert (0 <= rehash_threshold_ (2 ^ k) /\ hint <= rehash_threshold_ (2 ^ k)).
  { unfold rehash_threshold_. rewrite Z.shiftr_div_pow2 by lia.
    Z.div_mod_to_equations. lia. }
  split_and!; try done; [|cbn; lia].
  destruct W. constructor; try done. cbn. lia.
Qed.

(** ** Rewriting relation columns (handle_remap_apply.c) *)

Definition EIO : Z := 5.

(** One column, rows left to right.  On a miss the rows already rewritten stay
    rewritten and the scan stops; the third component is [new_h == 0]. *)
Fixpoint apply_column (m : t) (col : list Z) (rewrites : Z) : option (list Z * Z * bool) :=
  match col with
  | [] => Some ([], rewrites, false)
  | old_h :: rest =>
      if old_h =? 0 then
        '(rest', n, miss) ← apply_column m rest rewrites;
        Some (old_h :: rest', n, miss)
      else
        new_h ← lookup m old_h;
        if new_h =? 0 then Some (old_h :: rest, rewrites, true)
        else
          '(rest', n, miss) ← apply_column m rest (u64 (rewrites + 1));
          Some (new_h :: rest', n, miss)
  end.

Fixpoint apply_columns (m : t) (idx : list nat) (cols : list (list Z)) (rewrites : Z)
  : option (list (list Z) * Z * Z) :=
  match idx with
  | [] => Some (cols, 0, rewrites)
  | c :: rest =>
      col ← rd cols c;
      '(col', n, miss) ← apply_column m col rewrites;
      cols' ← wr cols c col';
      if (miss : bool) then Some (cols', EIO, n) else apply_columns m rest cols' n
  end.

(** [wl_handle_remap_apply_columns]: the relation is its columns, each of
    [nrows] cells; the result is the columns, the return code and
    [*out_rewrites]. *)
Definition apply (m : t) (nrows : nat) (cols : list (list Z)) (idx : list nat)
  : option (list (list Z) * Z * Z) :=
  if negb (forallb (fun c => c <? length cols)%nat idx) then Some (cols, EINVAL, 0)
  else if bool_decide (idx = []) || (nrows =? 0)%nat then Some (cols, 0, 0)
  else apply_columns m idx cols 0.

(** ** Lookup *)

Lemma lookup_ok m k : wf m -> lookup m k = Some (default 0 (to_map m !! k)).
Proof.
  intros Wf. pose proof (wf_wf0 m Wf) as W. unfold lookup.
  pose proof (w_keys _ W) as Hlk. pose proof (w_values _ W) as Hlv.
  destruct (Z.eqb_spec k 0) as [->|H0].
  { destruct (to_map m !! 0) eqn:E; [|done]. apply lookup_to_map in E as [? _]; done. }
  destruct (holds_dec m k W H0) as [(s & Hs & <-)|Habs].
  - rewrite probe_hit by done. cbn. rewrite !rd_at by lia. cbn.
    destruct (Z.eqb_spec (at_ (keys m) s) 0); [done|].
    rewrite (proj2 (lookup_to_map m (at_ (keys m) s) (at_ (values m) s) W)); [done|].
    split; [done|]. by exists s.
  - destruct (probe_miss m k W (load_below _ Wf) H0 Habs) as (d & Hd & -> & Hz & _).
    cbn. pose proof (cap_pos m W).
    rewrite !rd_at by (pose proof (Z.mod_pos_bound (home (capacity m) k + d) (capacity m)); lia).
    rewrite Hz. cbn. destruct (to_map m !! k) as [v|] eqn:E; [|done].
    apply lookup_to_map in E as (_ & s & Hs & Hk & _); [|done]. by destruct (Habs s).
Qed.

(** The row-wise specification of the rewrite pass. *)
Definition resolves (m : t) (h : Z) : Prop := h = 0 \/ default 0 (to_map m !! h) <> 0.
Definition remap_cell (m : t) (h : Z) : Z := if h =? 0 then 0 else default 0 (to_map m !! h).

#[export] Instance resolves_dec m h : Decision (resolves m h).
Proof. unfold resolves. apply _. Defined.

(** Longest prefix on which every handle resolves. *)
Fixpoint good_prefix (m : t) (col : list Z) : list Z :=
  match col with
  | [] => []
  | h :: rest => if decide (resolves m h) then h :: good_prefix m rest else []
  end.

Definition live (col : list Z) : Z := Z.of_nat (used col).

Lemma used_cons h l : Z.of_nat (used (h :: l)) = Z.of_nat (used l) + (if h =? 0 then 0 else 1).
Proof.
  unfold used. rewrite filter_cons. destruct (Z.eqb_spec h 0).
  - rewrite decide_False by tauto. lia.
  - rewrite decide_True by done. cbn. lia.
Qed.

Lemma triple_eq {A B C} (a a' : A) (b b' : B) (c c' : C) :
  a = a' -> b = b' -> c = c' -> Some (a, b, c) = Some (a', b', c').
Proof. by intros -> -> ->. Qed.

Lemma cons_neq_iff (h : Z) (l l' : list Z) : h :: l <> h :: l' <-> l <> l'.
Proof. naive_solver congruence. Qed.

Lemma apply_column_ok m col : wf m -> forall n,
  0 <= n -> n + live col <= UINT64_MAX ->
  apply_column m col n =
    Some ((remap_cell m <$> good_prefix m col) ++ drop (length (good_prefix m col)) col,
          n + live (good_prefix m col),
          bool_decide (good_prefix m col <> col)).
Proof.
  intros W. induction col as [|h rest IH]; intros n Hn Hb.
  { apply triple_eq; cbn; try done. unfold live. cbn. lia. }
  unfold live in *. rewrite used_cons in Hb.
  cbn [apply_column good_prefix].
  destruct (decide (resolves m h)) as [Hr|Hr].
  - cbn [fmap list_fmap app length drop]. rewrite used_cons.
    rewrite (bool_decide_ext _ _ (cons_neq_iff _ _ _)).
    destruct (Z.eqb_spec h 0) as [->|H0].
    + rewrite IH by lia. apply triple_eq; done || lia.
    + rewrite lookup_ok by done. cbn [mbind option_bind].
      destruct (Z.eqb_spec (default 0 (to_map m !! h)) 0) as [E|E]; [by destruct Hr|].
      rewrite u64_small by mi. rewrite IH by lia. apply triple_eq; [|lia|done].
      unfold remap_cell at 2. by destruct (Z.eqb_spec h 0).
  - destruct (Z.eqb_spec h 0) as [->|H0]; [by destruct Hr; left|].
    rewrite lookup_ok by done. cbn [mbind option_bind].
    destruct (Z.eqb_spec (default 0 (to_map m !! h)) 0) as [E|E]; [|by destruct Hr; right].
    apply triple_eq; [done|unfold used; cbn; lia|]. by rewrite bool_decide_eq_true_2.
Qed.

(** A compaction run: build the table, then insert every live handle. *)
Fixpoint inserts (m : t) (kvs : list (Z * Z)) : option t :=
  match kvs with
  | [] => Some m
  | (k, v) :: rest =>
      '(rc, m') ← insert true m k v;
      if rc =? 0 then inserts m' rest else None
  end.

Definition abstract_inserts (kvs : list (Z * Z)) (f : gmap Z Z) : gmap Z Z :=
  foldl (fun acc kv => <[kv.1 := kv.2]> acc) f kvs.

Lemma inserts_ok kvs : forall m, wf m -> Forall (fun kv => kv.1 <> 0) kvs ->
  count m + Z.of_nat (length kvs) < 2 ^ 58 ->
  exists m', inserts m kvs = Some m' /\ wf m' /\
    to_map m' = abstract_inserts kvs (to_map m).
Proof.
  induction kvs as [|[k v] rest IH]; intros m W Hk Hn; [by exists m|].
  apply Forall_cons in Hk as [Hk Hrest]. cbn in Hk, Hn. cbn [inserts].
  destruct (insert_spec true m k v W Hk) as [(m1 & -> & W1 & Hm1)|(_ & Hfull & [|Hcap])];
    [|done|].
  - cbn. destruct (IH m1 W1 Hrest) as (m' & -> & W' & Hm').
    { rewrite (count_size m1), Hm1, map_size_insert, (count_size m) in * by auto.
      case_match; unfold id; lia. }
    exists m'. cbn. by rewrite Hm', Hm1.
  - exfalso. rewrite (wf_thr _ W), Hcap in Hfull.
    change (rehash_threshold_ (2 ^ 59)) with (3 * 2 ^ 57) in Hfull. lia.
Qed.

(** ** Properties *)

(** C32: On a well-formed table an insertion always returns, without touching
    memory outside the arrays: handle 0 is refused with [EINVAL], otherwise the
    call either updates exactly the given key of the abstract map and keeps the
    table well formed, or returns [ENOMEM] leaving the table as it was, which
    happens only at the load threshold when memory (or the address space) is
    exhausted. *)
Theorem remap_insert_refines (alloc : bool) (m : t) (k v : Z) (W : wf m) :
  insert alloc m 0 v = Some (WL_ERROR_INVALID_ARGS, m) /\
  (k <> 0 ->
   (exists m', insert alloc m k v = Some (0, m') /\ wf m' /\
      to_map m' = <[k := v]> (to_map m)) \/
   insert alloc m k v = Some (WL_ERROR_OOM, m) /\ count m = rehash_at m /\
     (alloc = false \/ capacity m = 2 ^ 59)).
Proof. split; [done|]. intros. by apply insert_spec. Qed.

(** The probe loop of a lookup ends on every well-formed table and returns
    the abstract map's value, with 0 for an absent key. *)
Theorem remap_lookup_refines (m : t) (k : Z) (W : wf m) :
  lookup m k = Some (default 0 (to_map m !! k)).
Proof. by apply lookup_ok. Qed.

(** A table created for [hint] entries starts empty and holds [hint]
    entries before its first rehash; creation fails only with [ENOMEM], when
    memory is exhausted or the hint exceeds 2^57. *)
Theorem remap_create_sized (alloc : bool) (hint : Z) (H : 0 <= hint <= SIZE_MAX) :
  match create alloc hint with
  | inl e => e = WL_ERROR_OOM /\ (alloc = false \/ 2 ^ 57 < hint)
  | inr m => wf m /\ to_map m = ∅ /\ hint <= rehash_at m /\ alloc = true
  end.
Proof. by apply create_ok. Qed.

(** A whole compaction run: with memory available, creating a table and
    inserting fewer than 2^58 non-zero handles, growing as often as needed,
    succeeds, and every later lookup gives the last value inserted for the
    handle. *)
Theorem remap_session (hint : Z) (kvs : list (Z * Z)) (Hh : 0 <= hint <= 2 ^ 57)
  (Hk : Forall (fun kv => kv.1 <> 0) kvs) (Hn : Z.of_nat (length kvs) < 2 ^ 58) :
  exists m m', create true hint = inr m /\ inserts m kvs = Some m' /\
    forall k, lookup m' k = Some (default 0 (abstract_inserts kvs ∅ !! k)).
Proof.
  pose proof (create_ok true hint ltac:(mi)) as Hc.
  destruct (create true hint) as [e|m]; [lia || (destruct Hc as [_ [|]]; [done|lia])|].
  destruct Hc as (W & E & _ & _).
  destruct (inserts_ok kvs m W Hk) as (m' & Hi & W' & Hm').
  { rewrite (count_size m), E, map_size_empty by auto. lia. }
  exists m, m'. split_and!; [done|done|]. intros k. rewrite lookup_ok by done.
  by rewrite Hm', E.
Qed.

(** The rewrite pass over one column replaces every handle before the first
    unresolved one by its image, keeps zero cells and everything from the miss
    on, counts the rewritten cells, and reports a miss exactly when some
    non-zero handle is not in the table. *)
Theorem remap_apply_column (m : t) (col : list Z) (W : wf m)
  (Hlen : Z.of_nat (length col) <= UINT64_MAX) :
  let pre := good_prefix m col in
  apply_column m col 0 =
    Some ((remap_cell m <$> pre) ++ drop (length pre) col,
          Z.of_nat (length (filter (fun h => h <> 0) pre)),
          bool_decide (pre <> col)) /\
  (pre = col <-> Forall (resolves m) col).
Proof.
  intros pre. split.
  - rewrite (apply_column_ok m col W 0); [done|lia|].
    unfold live, used. pose proof (length_filter (fun h => h <> 0) col). lia.
  - subst pre. induction col as [|h rest IH]; [split; [constructor|done]|].
    cbn in *. rewrite Forall_cons. case_decide; [|split; [done|tauto]].
    specialize (IH ltac:(lia)). rewrite <- IH.
    split; [by intros [= ->]|by intros [_ ->]].
Qed.

(** Instances *)

Definition table3 : t :=
  match create true 2 with
  | inr m => default m (inserts m [(5, 50); (21, 210); (5, 51)])
  | inl _ => {| keys := []; values := []; capacity := 0; count := 0; rehash_at := 0 |}
  end.

Lemma empty16_wf : exists m, create true 2 = inr m /\ wf m.
Proof.
  pose proof (create_ok true 2 ltac:(mi)) as H.
  destruct (create true 2) as [e|m] eqn:E; [vm_compute in E; discriminate|].
  exists m. split; [done|]. apply H.
Qed.

Lemma remap_session_witness :
  exists m m', create true 2 = inr m /\ inserts m [(5, 50); (21, 210); (5, 51)] = Some m' /\
    forall k, lookup m' k = Some (default 0 (abstract_inserts [(5, 50); (21, 210); (5, 51)] ∅ !! k)).
Proof.
  apply (remap_session 2); [lia| |cbn; lia].
  repeat constructor; cbn; lia.
Defined.

Lemma remap_insert_refines_witness :
  exists m, create true 2 = inr m /\ insert false m 0 1 = Some (WL_ERROR_INVALID_ARGS, m).
Proof.
  destruct empty16_wf as (m & E & W). exists m. split; [exact E|].
  exact (proj1 (remap_insert_refines false m 5 1 W)).
Defined.

Lemma remap_lookup_refines_witness :
  exists m, create true 2 = inr m /\ lookup m 9 = Some (default 0 (to_map m !! 9)).
Proof.
  destruct empty16_wf as (m & E & W). exists m. split; [exact E|].
  exact (remap_lookup_refines m 9 W).
Defined.

Lemma remap_create_sized_witness :
  match create true 100 with
  | inl e => e = WL_ERROR_OOM /\ (true = false \/ 2 ^ 57 < 100)
  | inr m => wf m /\ to_map m = ∅ /\ 100 <= rehash_at m /\ true = true
  end.
Proof. apply (remap_create_sized true 100). mi. Defined.

Lemma remap_apply_column_witness :
  exists m, create true 2 = inr m /\
    (good_prefix m [0; 3] = [0; 3] <-> Forall (resolves m) [0; 3]).
Proof.
  destruct empty16_wf as (m & E & W). exists m. split; [exact E|].
  exact (proj2 (remap_apply_column m [0; 3] W ltac:(cbn; mi))).
Defined.

Example table3_lookups :
  lookup table3 5 = Some 51 /\ lookup table3 21 = Some 210 /\ lookup table3 37 = Some 0.
Proof. by vm_compute. Qed.

Example apply_two_columns :
  apply table3 3 [[5; 0; 21]; [1; 2; 3]; [21; 5; 9]] [0%nat; 2%nat]
  = Some ([[51; 0; 210]; [1; 2; 3]; [210; 51; 9]], EIO, 4).
Proof. by vm_compute. Qed.

End Remap.
