(* ===== verification/Arena.v ===== *)
(** * Bump allocators (wirelog/arena/arena.c, wirelog/columnar/delta_pool.c)

    Both allocators hand out consecutive 8-byte aligned blocks of one buffer and
    release them all at once.  Addresses are [Z]; a failed allocation is [None].
    The pool's relation slots are zeroed on allocation, so its slab is modelled
    with its bytes. *)
From S2P Require Import Prelude.

Definition ALIGN : Z := 8.

(** WL_ARENA_ALIGN_UP and POOL_ALIGN_UP, in [size_t] arithmetic. *)
Definition align_up (n : Z) : Z := Z.land (u64 (n + (ALIGN - 1))) (u64 (Z.lnot (ALIGN - 1))).

(** What a destructor does, in order. *)
Inductive event := ReleaseAdmission (context : Z) | FreeBuffer (base : Z) | FreeHeader.

Module Arena.

(** wl_arena_t; [admission] is the release callback's context when one is set. *)
Record t := mk { base : Z; capacity : Z; used : Z; admission : option Z }.

(** [hdr] and [buf] are the two [malloc] results. *)
Definition create_impl (hdr : bool) (buf : option Z) (cap : Z) (adm : option Z) : option t :=
  if cap =? 0 then None
  else if negb hdr then None
  else b ← buf; Some {| base := b; capacity := cap; used := 0; admission := adm |}.

Definition create (hdr : bool) (buf : option Z) (cap : Z) : option t :=
  create_impl hdr buf cap None.

Definition create_with_admission (hdr : bool) (buf : option Z) (cap context : Z) : option t :=
  create_impl hdr buf cap (Some context).

Definition alloc (a : t) (size : Z) : option Z * t :=
  if size =? 0 then (None, a)
  else
    let aligned := align_up size in
    if u64 (used a + aligned) >? capacity a then (None, a)
    else (Some (base a + used a),
          {| base := base a; capacity := capacity a;
             used := u64 (used a + aligned); admission := admission a |}).

Definition reset (a : t) : t :=
  {| base := base a; capacity := capacity a; used := 0; admission := admission a |}.

Definition free (a : t) : list event :=
  (match admission a with Some c => [ReleaseAdmission c] | None => [] end)
  ++ [FreeBuffer (base a); FreeHeader].

End Arena.

Module Pool.

(** delta_pool_t.  [slab] is the byte content of the slot area. *)
Record t := mk {
  slab_base : Z; slab : list Z; slot_size : Z; slot_cap : Z; slot_used : Z;
  arena : Z; arena_cap : Z; arena_used : Z; admission : option Z }.

(** [pool_align_up] *)
Definition pool_align_up (value : Z) : option Z :=
  if value >? SIZE_MAX - (ALIGN - 1) then None else Some (align_up value).

(** [hdr], [slab_buf] and [arena_buf] are the three allocation results. *)
Definition create_impl (hdr : bool) (slab_buf arena_buf : option Z)
    (max_slots size arena_bytes : Z) (adm : option Z) : option t :=
  if (max_slots =? 0) || (size =? 0) || (arena_bytes =? 0) then None
  else if negb hdr then None
  else
    aligned ← pool_align_up size;
    if max_slots >? SIZE_MAX / aligned then None
    else
      sb ← slab_buf; ab ← arena_buf;
      Some {| slab_base := sb; slab := replicate (Z.to_nat (max_slots * aligned)) 0;
              slot_size := aligned; slot_cap := max_slots; slot_used := 0;
              arena := ab; arena_cap := arena_bytes; arena_used := 0;
              admission := adm |}.

Definition create hdr sb ab max_slots size arena_bytes : option t :=
  create_impl hdr sb ab max_slots size arena_bytes None.

Definition create_with_admission hdr sb ab max_slots size arena_bytes context : option t :=
  create_impl hdr sb ab max_slots size arena_bytes (Some context).

(** memset(base + off, 0, len) *)
Definition zero_range (bytes : list Z) (off len : Z) : list Z :=
  take (Z.to_nat off) bytes ++ replicate (Z.to_nat len) 0
    ++ drop (Z.to_nat (off + len)) bytes.

Definition alloc_slot (p : t) : option Z * t :=
  if slot_used p >=? slot_cap p then (None, p)
  else
    let off := slot_used p * slot_size p in
    (Some (slab_base p + off),
     {| slab_base := slab_base p; slab := zero_range (slab p) off (slot_size p);
        slot_size := slot_size p; slot_cap := slot_cap p; slot_used := u32 (slot_used p + 1);
        arena := arena p; arena_cap := arena_cap p; arena_used := arena_used p;
        admission := admission p |}).

Definition alloc_data (p : t) (bytes : Z) : option Z * t :=
  if bytes =? 0 then (None, p)
  else
    match pool_align_up bytes with
    | None => (None, p)
    | Some aligned =>
        if arena_used p >? arena_cap p then (None, p)
        else if aligned >? arena_cap p - arena_used p then (None, p)
        else
          (Some (arena p + arena_used p),
           {| slab_base := slab_base p; slab := slab p; slot_size := slot_size p;
              slot_cap := slot_cap p; slot_used := slot_used p;
              arena := arena p; arena_cap := arena_cap p;
              arena_used := arena_used p + aligned; admission := admission p |})
    end.

Definition reset (p : t) : t :=
  {| slab_base := slab_base p; slab := slab p; slot_size := slot_size p;
     slot_cap := slot_cap p; slot_used := 0;
     arena := arena p; arena_cap := arena_cap p; arena_used := 0;
     admission := admission p |}.

Definition destroy (p : t) : list event :=
  [FreeBuffer (slab_base p); FreeBuffer (arena p)]
  ++ (match admission p with Some c => [ReleaseAdmission c] | None => [] end)
  ++ [FreeHeader].

Definition owns_slot (p : t) (ptr : Z) : bool :=
  (slab_base p <=? ptr) && (ptr <? slab_base p + slot_cap p * slot_size p).

Definition owns_data (p : t) (ptr : Z) : bool :=
  (arena p <=? ptr) && (ptr <? arena p + arena_cap p).

End Pool.

(** ** Alignment *)

Lemma align_up_spec n : 0 <= n <= SIZE_MAX - 7 ->
  exists q, align_up n = 8 * q /\ n <= 8 * q < n + 8.
Proof.
  intros Hn. exists ((n + 7) / 8).
  assert (align_up n = 8 * ((n + 7) / 8)) as ->.
  { unfold align_up, ALIGN. change (8 - 1) with 7.
    rewrite (u64_small (n + 7)) by mi.
    change (u64 (Z.lnot 7)) with (Z.ldiff (Z.ones 64) (Z.ones 3)).
    apply Z.bits_inj'. intros i Hi.
    rewrite Z.land_spec, Z.ldiff_spec, !Z.testbit_ones by lia.
    change 8 with (2 ^ 3). rewrite (Z.mul_comm (2 ^ 3)).
    replace (0 <=? i) with true by lia. cbn [andb].
    destruct (Z.ltb_spec i 3).
    - rewrite Z.mul_pow2_bits_low by lia. cbn. by rewrite !andb_false_r.
    - rewrite Z.mul_pow2_bits, Z.div_pow2_bits by lia.
      replace (i - 3 + 3) with i by lia. cbn [negb]. rewrite andb_true_r.
      destruct (Z.ltb_spec i 64); [by rewrite andb_true_r|].
      rewrite andb_false_r. symmetry.
      apply Z.bits_above_log2; [lia|]. apply Z.log2_lt_pow2; [lia|].
      assert (2 ^ 64 <= 2 ^ i) by (apply Z.pow_le_mono_r; lia). mi. }
  Z.div_mod_to_equations. lia.
Qed.

Lemma align_up_pos n : 0 < n <= SIZE_MAX - 7 -> 8 <= align_up n /\ n <= align_up n < n + 8
  /\ align_up n mod 8 = 0.
Proof.
  intros H. destruct (align_up_spec n) as (q & E & Hq); [lia|].
  rewrite E, Z.mul_comm, Z.mod_mul by lia. lia.
Qed.

(** ** Runs *)

(** A block handed out: first address and size in bytes. *)
Definition block : Type := Z * Z.
Definition disjoint_blocks (x y : block) : Prop := x.1 + x.2 <= y.1 \/ y.1 + y.2 <= x.1.

Module ArenaRun.
Import Arena.

(** Allocations in order; the blocks that were granted. *)
Fixpoint allocs (a : t) (sizes : list Z) : list block * t :=
  match sizes with
  | [] => ([], a)
  | s :: rest =>
      let '(p, a1) := alloc a s in
      let '(bs, a2) := allocs a1 rest in
      (match p with Some q => (q, s) :: bs | None => bs end, a2)
  end.

Definition wf (a : t) : Prop := 0 <= used a <= capacity a /\ used a mod 8 = 0.

(** Sizes for which neither the rounding nor the sum can wrap. *)
Definition sane (a : t) (s : Z) : Prop := 0 <= s /\ capacity a + s <= SIZE_MAX - 7.

Lemma alloc_spec a s : wf a -> sane a s ->
  (alloc a s = (None, a) /\ (s = 0 \/ capacity a < used a + align_up s)) \/
  (exists a', alloc a s = (Some (base a + used a), a') /\ wf a' /\
     base a' = base a /\ capacity a' = capacity a /\
     used a' = used a + align_up s /\ 0 < s <= align_up s).
Proof.
  intros [Hu Hm] [Hs Hb]. unfold alloc. destruct (Z.eqb_spec s 0); [left; auto|].
  pose proof (align_up_pos s ltac:(lia)) as (Ha & Hb' & Hc).
  rewrite u64_small by mi. rewrite Z.gtb_ltb. cbv zeta.
  destruct (Z.ltb_spec (capacity a) (used a + align_up s)); [left; auto|].
  right. eexists. split; [done|]. unfold wf. cbn. split_and!; try lia.
  rewrite <- Z.add_mod_idemp_l, <- Z.add_mod_idemp_r, Hm, Hc by lia. done.
Qed.

Lemma allocs_spec sizes : forall a, wf a -> Forall (sane a) sizes ->
  let '(bs, a') := allocs a sizes in
  wf a' /\ base a' = base a /\ capacity a' = capacity a /\ used a <= used a' /\
  Forall (fun b : block => base a + used a <= b.1 /\ 0 < b.2 /\
            b.1 + b.2 <= base a + used a' /\ (b.1 - base a) mod 8 = 0) bs /\
  ForallOrdPairs disjoint_blocks bs.
Proof.
  induction sizes as [|s rest IH]; intros a W Hs; cbn.
  { split_and!; try done; try lia; constructor. }
  apply Forall_cons in Hs as [Hs Hrest].
  destruct (alloc_spec a s W Hs) as [[-> _]|(a1 & -> & W1 & Eb & Ec & Eu & Hp)].
  - specialize (IH a W Hrest). destruct (allocs a rest). done.
  - assert (Forall (sane a1) rest) by (eapply Forall_impl; [done|]; unfold sane; intros; lia).
    specialize (IH a1 W1 ltac:(done)). destruct (allocs a1 rest) as [bs a'].
    destruct IH as (W' & Eb' & Ec' & Hle & Hbs & Hd). rewrite Eb, Eu in *.
    split_and!; try done; try lia.
    + constructor; [|eapply Forall_impl; [done|]; cbn; intros; lia]. cbn.
      replace (base a + used a - base a) with (used a) by lia.
      destruct W. split_and!; try done; lia.
    + constructor; [|done]. eapply Forall_impl; [done|].
      intros b Hb. left. cbn in *. lia.
Qed.

End ArenaRun.

Module PoolRun.
Import Pool.

Record wf (p : t) : Prop := {
  wf_arena : 0 <= arena_used p <= arena_cap p;
  wf_arena_cap : arena_cap p <= SIZE_MAX;
  wf_size : 8 <= slot_size p;
  wf_slots : 0 <= slot_used p <= slot_cap p;
  wf_slot_cap : is_uint32 (slot_cap p);
  wf_slab : Z.of_nat (length (slab p)) = slot_cap p * slot_size p;
  wf_slab_max : slot_cap p * slot_size p <= SIZE_MAX }.

Lemma pool_align_up_spec v : 0 < v <= SIZE_MAX ->
  (pool_align_up v = None /\ SIZE_MAX - 7 < v) \/
  (exists a, pool_align_up v = Some a /\ 8 <= a /\ v <= a < v + 8).
Proof.
  intros H. unfold pool_align_up. rewrite Z.gtb_ltb. change (ALIGN - 1) with 7.
  destruct (Z.ltb_spec (SIZE_MAX - 7) v); [by left|right].
  eexists. split; [done|]. pose proof (align_up_pos v). lia.
Qed.

Lemma alloc_data_spec p n : wf p -> 0 <= n <= SIZE_MAX ->
  alloc_data p n = (None, p) \/
  exists p' a, alloc_data p n = (Some (arena p + arena_used p), p') /\ wf p' /\
    arena p' = arena p /\ arena_cap p' = arena_cap p /\
    arena_used p' = arena_used p + a /\ 0 < n <= a.
Proof.
  intros W Hn. unfold alloc_data. destruct (Z.eqb_spec n 0); [by left|].
  destruct (pool_align_up_spec n) as [[-> _]|(a & -> & Ha & Hr)]; [lia|by left|].
  rewrite !Z.gtb_ltb. destruct (Z.ltb_spec (arena_cap p) (arena_used p)); [by left|].
  destruct (Z.ltb_spec (arena_cap p - arena_used p) a); [by left|right].
  eexists _, a. split; [done|]. destruct W. split_and!; try done; [|lia|lia].
  constructor; cbn; lia || done.
Qed.

Fixpoint datas (p : t) (sizes : list Z) : list block * t :=
  match sizes with
  | [] => ([], p)
  | s :: rest =>
      let '(q, p1) := alloc_data p s in
      let '(bs, p2) := datas p1 rest in
      (match q with Some q => (q, s) :: bs | None => bs end, p2)
  end.

Lemma datas_spec sizes : forall p, wf p -> Forall (fun s => 0 <= s <= SIZE_MAX) sizes ->
  let '(bs, p') := datas p sizes in
  wf p' /\ arena p' = arena p /\ arena_cap p' = arena_cap p /\
  Forall (fun b : block => arena p + arena_used p <= b.1 /\ 0 < b.2 /\
            b.1 + b.2 <= arena p + arena_cap p) bs /\
  ForallOrdPairs disjoint_blocks bs.
Proof.
  induction sizes as [|s rest IH]; intros p W Hs; cbn.
  { split_and!; try done; constructor. }
  apply Forall_cons in Hs as [Hs Hrest].
  destruct (alloc_data_spec p s W Hs) as [->|(p1 & a & -> & W1 & Eb & Ec & Eu & Hp)].
  - specialize (IH p W Hrest). by destruct (datas p rest).
  - specialize (IH p1 W1 Hrest). destruct (datas p1 rest) as [bs p'].
    destruct IH as (W' & Eb' & Ec' & Hbs & Hd). rewrite Eb, Ec, Eu in *.
    pose proof (wf_arena _ W1). split_and!; try done.
    + constructor; [|eapply Forall_impl; [done|]; cbn; intros; lia]. cbn. lia.
    + constructor; [|done]. eapply Forall_impl; [done|].
      intros b Hb. left. cbn in *. lia.
Qed.

Lemma length_zero_range bs off len : 0 <= off -> 0 <= len ->
  off + len <= Z.of_nat (length bs) -> length (zero_range bs off len) = length bs.
Proof.
  intros. unfold zero_range. rewrite !length_app, length_take, length_replicate, length_drop. lia.
Qed.

Lemma zero_range_lookup bs off len i : 0 <= off -> 0 <= len ->
  off + len <= Z.of_nat (length bs) -> 0 <= i < Z.of_nat (length bs) ->
  zero_range bs off len !! Z.to_nat i =
    if decide (off <= i < off + len) then Some 0 else bs !! Z.to_nat i.
Proof.
  intros. unfold zero_range. case_decide.
  - rewrite lookup_app_r by (rewrite length_take; lia).
    rewrite lookup_app_l by (rewrite length_take, length_replicate; lia).
    apply lookup_replicate_2. rewrite length_take. lia.
  - destruct (decide (i < off)).
    + rewrite lookup_app_l by (rewrite length_take; lia). by rewrite lookup_take_lt by lia.
    + rewrite lookup_app_r by (rewrite length_take; lia).
      rewrite lookup_app_r by (rewrite length_take, length_replicate; lia).
      rewrite lookup_drop. f_equal. rewrite length_take, length_replicate. lia.
Qed.

End PoolRun.

(** ** Properties *)

(** An arena grants disjoint blocks: over any sequence of requests whose
    size leaves the [size_t] sum unwrapped, the blocks granted are pairwise
    disjoint, start at multiples of 8 from the base, lie inside the buffer, and
    the fill level stays within the capacity. *)
Theorem arena_blocks_disjoint (a : Arena.t) (sizes : list Z)
  (W : ArenaRun.wf a) (Hs : Forall (ArenaRun.sane a) sizes) :
  let '(bs, a') := ArenaRun.allocs a sizes in
  ArenaRun.wf a' /\
  Forall (fun b : block => Arena.base a + Arena.used a <= b.1 /\ 0 < b.2 /\
            b.1 + b.2 <= Arena.base a + Arena.capacity a /\
            (b.1 - Arena.base a) mod 8 = 0) bs /\
  ForallOrdPairs disjoint_blocks bs.
Proof.
  pose proof (ArenaRun.allocs_spec sizes a W Hs) as H.
  destruct (ArenaRun.allocs a sizes) as [bs a'].
  destruct H as (W' & _ & Ec & _ & Hb & Hd). split_and!; try done.
  destruct W' as [? _]. eapply Forall_impl; [done|]. cbn. intros. lia.
Qed.

Lemma arena_blocks_disjoint_witness :
  let a := {| Arena.base := 4096; Arena.capacity := 64; Arena.used := 0; Arena.admission := None |} in
  let '(bs, a') := ArenaRun.allocs a [5; 17; 100; 8] in
  bs = [(4096, 5); (4104, 17); (4128, 8)] /\ ArenaRun.wf a' /\
  ForallOrdPairs disjoint_blocks bs.
Proof.
  intros a.
  pose proof (arena_blocks_disjoint a [5; 17; 100; 8]) as H.
  assert (W : ArenaRun.wf a) by (split; [split; discriminate|reflexivity]).
  assert (Hs : Forall (ArenaRun.sane a) [5; 17; 100; 8])
    by (repeat constructor; unfold ArenaRun.sane; cbn; mi).
  specialize (H W Hs).
  destruct (ArenaRun.allocs a [5; 17; 100; 8]) as [bs a'] eqn:E.
  destruct H as (H1 & _ & H3). split; [|split; assumption].
  vm_compute in E. congruence.
Defined.

(** The unguarded sum of [wl_arena_alloc] wraps: on an arena filled to 16 of
    64 bytes a request for 2^64 - 8 bytes is granted at offset 16 and moves the
    fill level back to 8, and the largest request of all, [SIZE_MAX], is granted
    a block without advancing the fill level.  [delta_pool_alloc_data], which
    tests before adding, refuses both. *)
Theorem arena_alloc_wraps :
  let a := {| Arena.base := 4096; Arena.capacity := 64; Arena.used := 16; Arena.admission := None |} in
  (exists a', Arena.alloc a (SIZE_MAX - 7) = (Some (4096 + 16), a') /\ Arena.used a' = 8) /\
  Arena.alloc a SIZE_MAX = (Some (4096 + 16), a) /\
  forall p : Pool.t, PoolRun.wf p ->
    Pool.alloc_data p (SIZE_MAX - 7) = (None, p) \/
    (exists q p', Pool.alloc_data p (SIZE_MAX - 7) = (Some q, p') /\
       SIZE_MAX - 7 <= Pool.arena_cap p).
Proof.
  split_and!.
  - eexists. split; vm_compute; reflexivity.
  - vm_compute. reflexivity.
  - intros p W. destruct (PoolRun.alloc_data_spec p (SIZE_MAX - 7) W ltac:(mi))
      as [?|(p' & a & E & W' & _ & Ec & Eu & Ha)]; [by left|right].
    exists (Pool.arena p + Pool.arena_used p), p'. split; [done|].
    pose proof (PoolRun.wf_arena _ W'). pose proof (PoolRun.wf_arena _ W). lia.
Qed.

(** The delta pool's data area grants pairwise disjoint blocks inside the
    buffer for every sequence of [size_t] requests, whatever their size. *)
Theorem pool_data_disjoint (p : Pool.t) (sizes : list Z)
  (W : PoolRun.wf p) (Hs : Forall (fun s => 0 <= s <= SIZE_MAX) sizes) :
  let '(bs, p') := PoolRun.datas p sizes in
  PoolRun.wf p' /\
  Forall (fun b : block => Pool.arena p + Pool.arena_used p <= b.1 /\ 0 < b.2 /\
            b.1 + b.2 <= Pool.arena p + Pool.arena_cap p) bs /\
  ForallOrdPairs disjoint_blocks bs.
Proof.
  pose proof (PoolRun.datas_spec sizes p W Hs) as H.
  destruct (PoolRun.datas p sizes) as [bs p']. tauto.
Qed.

(** A slot taken from the delta pool is owned by the pool, is all zero
    bytes, leaves every byte outside it unchanged, and never coincides with an
    earlier slot; when the pool is full nothing changes. *)
Theorem pool_slot_zeroed (p : Pool.t) (W : PoolRun.wf p) :
  (Pool.slot_used p = Pool.slot_cap p /\ Pool.alloc_slot p = (None, p)) \/
  exists p', Pool.alloc_slot p = (Some (Pool.slab_base p + Pool.slot_used p * Pool.slot_size p), p') /\
    PoolRun.wf p' /\
    Pool.owns_slot p (Pool.slab_base p + Pool.slot_used p * Pool.slot_size p) = true /\
    Pool.slot_used p' = Pool.slot_used p + 1 /\
    forall i, 0 <= i < Z.of_nat (length (Pool.slab p)) ->
      Pool.slab p' !! Z.to_nat i =
        if decide (Pool.slot_used p * Pool.slot_size p <= i
                   < (Pool.slot_used p + 1) * Pool.slot_size p)
        then Some 0 else Pool.slab p !! Z.to_nat i.
Proof.
  pose proof W as W0. destruct W0. unfold Pool.alloc_slot. rewrite Z.geb_leb.
  destruct (Z.leb_spec (Pool.slot_cap p) (Pool.slot_used p)); [left; split; [lia|done]|right].
  assert (Hin : Pool.slot_used p * Pool.slot_size p + Pool.slot_size p
                <= Pool.slot_cap p * Pool.slot_size p) by nia.
  eexists. split; [done|]. rewrite u32_small by mi. split_and!.
  - constructor; cbn; try done; try lia.
    rewrite PoolRun.length_zero_range by nia. done.
  - unfold Pool.owns_slot. nia.
  - done.
  - intros i Hi. cbn. rewrite PoolRun.zero_range_lookup by nia.
    by replace ((Pool.slot_used p + 1) * Pool.slot_size p)
      with (Pool.slot_used p * Pool.slot_size p + Pool.slot_size p) by lia.
Qed.

(** A pool the constructor builds. *)
Definition pool2 : Pool.t :=
  default (Pool.mk 0 [] 0 0 0 0 0 0 None)
    (Pool.create true (Some 1000) (Some 9000) 2 5 64).

Lemma pool2_wf : PoolRun.wf pool2.
Proof. constructor; vm_compute; try split; done || discriminate. Qed.

Lemma pool_data_disjoint_witness :
  let '(bs, p') := PoolRun.datas pool2 [SIZE_MAX; 60; 1; 5] in
  bs = [(9000, 60)] /\ ForallOrdPairs disjoint_blocks bs.
Proof.
  pose proof (pool_data_disjoint pool2 [SIZE_MAX; 60; 1; 5] pool2_wf) as H.
  assert (Hs : Forall (fun s => 0 <= s <= SIZE_MAX) [SIZE_MAX; 60; 1; 5])
    by (repeat constructor; mi).
  specialize (H Hs). destruct (PoolRun.datas pool2 [SIZE_MAX; 60; 1; 5]) as [bs p'] eqn:E.
  destruct H as (_ & _ & H3). split; [|exact H3]. vm_compute in E. congruence.
Defined.

Lemma pool_slot_zeroed_witness :
  (Pool.slot_used pool2 = Pool.slot_cap pool2 /\ Pool.alloc_slot pool2 = (None, pool2)) \/
  exists p', Pool.alloc_slot pool2 = (Some (1000 + 0 * 8), p') /\ Pool.slot_used p' = 1.
Proof.
  destruct (pool_slot_zeroed pool2 pool2_wf) as [H|(p' & H1 & _ & _ & H2 & _)]; [left; exact H|].
  right. exists p'. split; [exact H1|exact H2].
Defined.

Lemma arena_alloc_wraps_witness :
  Pool.alloc_data pool2 (SIZE_MAX - 7) = (None, pool2) \/
  (exists q p', Pool.alloc_data pool2 (SIZE_MAX - 7) = (Some q, p') /\
     SIZE_MAX - 7 <= Pool.arena_cap pool2).
Proof. apply (proj2 (proj2 arena_alloc_wraps) pool2 pool2_wf). Defined.
