(* ===== verification/Tarjan.v ===== *)
(** * Strongly connected components (wirelog/ir/stratify.c, wl_ir_stratify_scc_detect)

    The adjacency arrays and the iterative Tarjan traversal, array by array.
    Node numbers, array indices and component numbers are [nat]; discovery
    times are [Z], with the sentinel UINT32_MAX for an unvisited node.  Every
    array access is checked and [low], which the source allocates without
    initialising, holds [None] until it is first written, so that a [Some]
    result also says that no access was out of bounds and no uninitialised
    cell was read.  The two LIFO arrays are lists, top first, whose pushes are
    checked against the allocated size. *)
From stdpp Require Import relations sorting.
From S2P Require Import Prelude.

Module Tarjan.

(** ** Adjacency arrays *)

Section Csr.
Variable n : nat.

(** Both endpoints of a counted edge are nodes. *)
Definition edge_ok (e : nat * nat) : bool := (e.1 <? n)%nat && (e.2 <? n)%nat.

(** for e: adj_count_arr[from]++ *)
Fixpoint count_out (es : list (nat * nat)) (cnt : list nat) : option (list nat) :=
  match es with
  | [] => Some cnt
  | e :: rest =>
      if edge_ok e then
        c ← rd cnt e.1; cnt' ← wr cnt e.1 (S c); count_out rest cnt'
      else count_out rest cnt
  end.

(** adj_start[i + 1] = adj_start[i] + adj_count_arr[i], from [i] on *)
Fixpoint prefix_sum (i : nat) (cnt start : list nat) : option (list nat) :=
  match cnt with
  | [] => Some start
  | c :: rest => s ← rd start i; start' ← wr start (S i) (s + c)%nat; prefix_sum (S i) rest start'
  end.

(** The fill loop, with adj_count_arr reset to zero and reused as cursor. *)
Fixpoint fill (es : list (nat * nat)) (start cur adj : list nat)
  : option (list nat * list nat) :=
  match es with
  | [] => Some (cur, adj)
  | e :: rest =>
      if edge_ok e then
        s ← rd start e.1; c ← rd cur e.1;
        adj' ← wr adj (s + c)%nat e.2;
        cur' ← wr cur e.1 (S c);
        fill rest start cur' adj'
      else fill rest start cur adj
  end.

(** adj_start and adj.  The former has [n + 1] cells, a sum of uint32_t values;
    the latter has one slack slot.  The counts and offsets are at most the
    number of edges, a uint32_t, and do not wrap. *)
Definition build_adj (es : list (nat * nat)) : option (list nat * list nat) :=
  cnt ← count_out es (replicate n O);
  start ← wr (replicate (Z.to_nat (u32 (Z.of_nat n + 1))) O) 0 O;
  start ← prefix_sum 0 cnt start;
  total ← rd start n;
  '(_, adj) ← fill es start (replicate n O) (replicate (total + 1)%nat O);
  Some (start, adj).

End Csr.

(** ** The traversal *)

(** tarjan_frame_t: node and next edge index. *)
Abbreviation frame := (nat * nat)%type.

Record st := mk {
  disc : list Z;
  low : list (option Z);
  on_stack : list bool;
  stack : list nat;
  call_stack : list frame;
  scc_id : list nat;
  scc_count : nat;
  timer : Z }.

Definition rdu {A} (a : list (option A)) (i : nat) : option A := mjoin (rd a i).

(** Push a value on a LIFO array of [n] cells. *)
Definition push {A} (n : nat) (x : A) (l : list A) : option (list A) :=
  if decide (length l < n)%nat then Some (x :: l) else None.

(** do { w = stack[--stack_top]; on_stack[w] = false; scc_id[w] = scc_count; }
    while (w != v) *)
Fixpoint pop_scc (v c : nat) (stk : list nat) (on : list bool) (ids : list nat)
  : option (list nat * list bool * list nat) :=
  match stk with
  | [] => None
  | w :: rest =>
      on' ← wr on w false;
      ids' ← wr ids w c;
      if (w =? v)%nat then Some (rest, on', ids') else pop_scc v c rest on' ids'
  end.

Section Walk.
Variables (n : nat) (adj_start adj : list nat).

(** disc[w] = low[w] = timer++, on_stack, stack and call stack push *)
Definition enter (w : nat) (s : st) : option st :=
  d' ← wr (disc s) w (timer s);
  l' ← wr (low s) w (Some (timer s));
  o' ← wr (on_stack s) w true;
  k' ← push n w (stack s);
  a ← rd adj_start w;
  c' ← push n (w, a) (call_stack s);
  Some {| disc := d'; low := l'; on_stack := o'; stack := k'; call_stack := c';
          scc_id := scc_id s; scc_count := scc_count s; timer := u32 (timer s + 1) |}.

Definition set_call (c : list frame) (s : st) : st :=
  {| disc := disc s; low := low s; on_stack := on_stack s; stack := stack s;
     call_stack := c; scc_id := scc_id s; scc_count := scc_count s; timer := timer s |}.

Definition set_low (l : list (option Z)) (s : st) : st :=
  {| disc := disc s; low := l; on_stack := on_stack s; stack := stack s;
     call_stack := call_stack s; scc_id := scc_id s; scc_count := scc_count s;
     timer := timer s |}.

(** One edge of the top frame [v]. *)
Definition visit_edge (v ei : nat) (cs : list frame) (s : st) : option st :=
  w ← rd adj ei;
  let s1 := set_call ((v, S ei) :: cs) s in
  dw ← rd (disc s) w;
  if dw =? UINT32_MAX then enter w s1
  else
    ow ← rd (on_stack s) w;
    if (ow : bool) then
      lv ← rdu (low s) v;
      if dw <? lv then l' ← wr (low s) v (Some dw); Some (set_low l' s1) else Some s1
    else Some s1.

(** if (low[v] == disc[v]) pop the component *)
Definition close_root (v : nat) (s : st) : option st :=
  lv ← rdu (low s) v;
  dv ← rd (disc s) v;
  if lv =? dv then
    '(k', o', i') ← pop_scc v (scc_count s) (stack s) (on_stack s) (scc_id s);
    Some {| disc := disc s; low := low s; on_stack := o'; stack := k';
            call_stack := call_stack s; scc_id := i'; scc_count := S (scc_count s);
            timer := timer s |}
  else Some s.

(** Pop the call stack and fold low[v] into the parent. *)
Definition leave (v : nat) (cs : list frame) (s : st) : option st :=
  let s1 := set_call cs s in
  match cs with
  | [] => Some s1
  | (parent, _) :: _ =>
      lv ← rdu (low s) v;
      lp ← rdu (low s) parent;
      if lv <? lp then l' ← wr (low s) parent (Some lv); Some (set_low l' s1) else Some s1
  end.

(** One turn of the while loop. *)
Definition step (s : st) : option st :=
  match call_stack s with
  | [] => Some s
  | (v, ei) :: cs =>
      edge_end ← rd adj_start (v + 1)%nat;
      if (ei <? edge_end)%nat then visit_edge v ei cs s
      else s1 ← close_root v s; leave v cs s1
  end.

(** while (cs_top > 0) *)
Fixpoint while_call (fuel : nat) (s : st) : option st :=
  match call_stack s with
  | [] => Some s
  | _ =>
      match fuel with
      | O => None
      | S f => s' ← step s; while_call f s'
      end
  end.

(** for (start = 0; start < n; start++), each traversal with enough fuel for
    every node and every edge. *)
Fixpoint roots (starts : list nat) (s : st) : option st :=
  match starts with
  | [] => Some s
  | start :: rest =>
      d ← rd (disc s) start;
      if negb (d =? UINT32_MAX) then roots rest s
      else
        s1 ← enter start s;
        s2 ← while_call (n + length adj) s1;
        roots rest s2
  end.

Definition init : st :=
  {| disc := replicate n UINT32_MAX; low := replicate n None;
     on_stack := replicate n false; stack := []; call_stack := [];
     scc_id := replicate n O; scc_count := O; timer := 0 |}.

End Walk.

(** wl_ir_stratify_scc_result_t *)
Record scc_result := Scc { r_scc_id : list nat; r_scc_count : nat }.

(** [wl_ir_stratify_scc_detect].  The outer option is the model's memory
    safety; the inner one is the C result, NULL when the graph has no node or
    when an allocation fails. *)
Definition scc_detect (alloc : bool) (n : nat) (es : list (nat * nat))
  : option (option scc_result) :=
  if (n =? 0)%nat then Some None
  else if negb alloc then Some None
  else
    '(adj_start, adj) ← build_adj n es;
    s ← roots n adj_start adj (seq 0 n) (init n);
    Some (Some {| r_scc_id := scc_id s; r_scc_count := scc_count s |}).

Example scc_two_cycles :
  scc_detect true 5 [(0, 1); (1, 2); (2, 0); (2, 3); (3, 4); (4, 3); (7, 1); (1, 9)]%nat
  = Some (Some {| r_scc_id := [1; 1; 1; 0; 0]%nat; r_scc_count := 2 |}).
Proof. by vm_compute. Qed.

(** ** The adjacency arrays list every node's successors *)

Section CsrProof.
Variable n : nat.
Local Open Scope nat_scope.

Definition succs (es : list (nat * nat)) (v : nat) : list nat :=
  (filter (fun e => edge_ok n e = true /\ e.1 = v) es).*2.
#[local] Arguments succs : simpl never.

Lemma succs_skip e es v : edge_ok n e = false -> succs (e :: es) v = succs es v.
Proof. intros H. unfold succs. rewrite filter_cons, decide_False; [done|]. intros [? _]. congruence. Qed.

Lemma succs_cons e es v : edge_ok n e = true ->
  succs (e :: es) v = if decide (v = e.1) then e.2 :: succs es v else succs es v.
Proof.
  intros H. unfold succs. rewrite filter_cons.
  destruct (decide (v = e.1)) as [->|Hne].
  - by rewrite decide_True.
  - rewrite decide_False; [done|]. intros [_ E]. by apply Hne.
Qed.

Lemma edge_ok_lt e : edge_ok n e = true -> e.1 < n /\ e.2 < n.
Proof. unfold edge_ok. intros [?%Nat.ltb_lt ?%Nat.ltb_lt]%andb_true_iff. done. Qed.

Lemma count_out_ok es : forall cnt, length cnt = n ->
  exists cnt', count_out n es cnt = Some cnt' /\ length cnt' = n /\
    forall v, v < n -> cnt' !!! v = cnt !!! v + length (succs es v).
Proof.
  induction es as [|e rest IH]; intros cnt Hlen; cbn [count_out].
  { exists cnt. split_and!; auto. }
  destruct (edge_ok n e) eqn:He.
  - apply edge_ok_lt in He as Hlt. rewrite rd_total by lia. cbn. rewrite wr_lt by lia. cbn.
    destruct (IH (<[e.1 := S (cnt !!! e.1)]> cnt)) as (cnt' & -> & Hl & Hv);
      [by rewrite length_insert|].
    exists cnt'. split_and!; auto. intros v Hlv. rewrite Hv by done.
    rewrite upd_total, succs_cons by (lia || done).
    case_decide; subst; cbn; lia.
  - destruct (IH cnt Hlen) as (cnt' & -> & Hl & Hv). exists cnt'.
    split_and!; auto. intros v Hlv. rewrite Hv by done. by rewrite succs_skip.
Qed.

Lemma prefix_sum_ok cnt : forall i start, length start = S (i + length cnt) ->
  exists start', prefix_sum i cnt start = Some start' /\ length start' = length start /\
    (forall j, j <= i -> start' !!! j = start !!! j) /\
    forall j, j < length cnt -> start' !!! S (i + j) = start' !!! (i + j) + cnt !!! j.
Proof.
  induction cnt as [|c rest IH]; intros i start Hl; cbn [length] in Hl; cbn [prefix_sum].
  { exists start. split_and!; [done|done|done|]. intros j Hj. cbn in Hj. lia. }
  rewrite rd_total by lia. cbn [mbind option_bind]. rewrite wr_lt by lia. cbn [mbind option_bind].
  destruct (IH (S i) (<[S i := start !!! i + c]> start)) as (start' & -> & Hl' & Hlow & Hstep); [rewrite length_insert; lia|].
  exists start'. rewrite length_insert in Hl'. split_and!; [done|done| |].
  - intros j Hj. rewrite Hlow by lia. by rewrite list_lookup_total_insert_ne by lia.
  - intros [|j] Hj.
    + rewrite Nat.add_0_r, !Hlow by lia. rewrite list_lookup_total_insert_eq by lia. by rewrite list_lookup_total_insert_ne by lia.
    + cbn in Hj. replace (i + S j) with (S i + j) by lia. apply Hstep. lia.
Qed.

(** A layout: node [v] owns the slots from [start v] to [start (S v)]. *)
Definition layout (start : list nat) (total : nat) : Prop :=
  length start = S n /\ start !!! n = total /\
  forall v, v < n -> start !!! v <= start !!! S v.

Lemma layout_mono start total u v :
  layout start total -> u <= v <= n -> start !!! u <= start !!! v.
Proof.
  intros (_ & _ & Hm) [Huv Hvn]. induction Huv as [|v Huv IH]; [done|].
  specialize (Hm v ltac:(lia)). specialize (IH ltac:(lia)). lia.
Qed.

Lemma fill_ok es start total : layout start total ->
  forall cur adj, length cur = n -> total <= length adj ->
  (forall v, v < n -> start !!! v + cur !!! v + length (succs es v) <= start !!! S v) ->
  exists cur' adj', fill n es start cur adj = Some (cur', adj') /\
    length adj' = length adj /\
    forall v k, v < n -> k < cur !!! v + length (succs es v) ->
      adj' !!! (start !!! v + k) =
        if decide (k < cur !!! v) then adj !!! (start !!! v + k)
        else succs es v !!! (k - cur !!! v).
Proof.
  intros L. induction es as [|e rest IH]; intros cur adj Hc Ha Hroom; cbn [fill].
  { exists cur, adj. split_and!; auto. intros v k Hv Hk. change (succs [] v) with (@nil nat) in Hk. cbn in Hk.
    rewrite decide_True by lia. done. }
  destruct (edge_ok n e) eqn:He.
  2: { destruct (IH cur adj) as (cur' & adj' & -> & Hl & Hspec); try done.
       { intros v Hv. rewrite <- (succs_skip e) by done. by apply Hroom. }
       exists cur', adj'. split_and!; auto. intros v k. rewrite succs_skip by done. apply Hspec. }
  apply edge_ok_lt in He as Hlt. destruct Hlt as [Hf Ht].
  pose proof L as (Lls & Ltot & _).
  assert (Hslot : start !!! e.1 + cur !!! e.1 < start !!! S e.1).
  { specialize (Hroom e.1 Hf). rewrite succs_cons, decide_True in Hroom by done.
    cbn in Hroom. lia. }
  pose proof (layout_mono start total (S e.1) n L ltac:(lia)) as Htop.
  rewrite !rd_total by lia. cbn. rewrite !wr_lt by lia. cbn.
  set (p := start !!! e.1 + cur !!! e.1) in *.
  destruct (IH (<[e.1 := S (cur !!! e.1)]> cur) (<[p := e.2]> adj))
    as (cur' & adj' & -> & Hl & Hspec).
  { by rewrite length_insert. }
  { rewrite length_insert. lia. }
  { intros v Hv. specialize (Hroom v Hv). rewrite succs_cons in Hroom by done.
    rewrite upd_total by lia. case_decide; subst; cbn in *; lia. }
  exists cur', adj'. split_and!; [done|by rewrite Hl, length_insert|].
  intros v k Hv Hk. rewrite succs_cons in Hk |- * by done.
  specialize (Hspec v k Hv). rewrite (upd_total adj) in Hspec by lia.
  destruct (decide (v = e.1)) as [->|Hne].
  - cbn in Hk. rewrite list_lookup_total_insert_eq in Hspec by lia. rewrite Hspec by lia. subst p.
    assert (k < cur !!! e.1 \/ k = cur !!! e.1 \/ S (cur !!! e.1) <= k) as [?|[->|?]] by lia.
    + by rewrite decide_True, decide_False, decide_True by lia.
    + rewrite decide_True, decide_True, decide_False by lia. by rewrite Nat.sub_diag.
    + rewrite !decide_False by lia.
      replace (k - cur !!! e.1) with (S (k - S (cur !!! e.1))) by lia. done.
  - rewrite list_lookup_total_insert_ne in Hspec by done.
    rewrite Hspec by lia. case_decide; [|done].
    rewrite decide_False; [done|]. subst p. specialize (Hroom v Hv).
    rewrite succs_cons, decide_False in Hroom by done.
    assert (v < e.1 \/ e.1 < v) as [?|?] by lia.
    + pose proof (layout_mono start total (S v) e.1 L ltac:(lia)). lia.
    + pose proof (layout_mono start total (S e.1) v L ltac:(lia)). lia.
Qed.

(** The arrays hold, for every node, its in-range successors in edge order. *)
Lemma build_adj_ok es : (Z.of_nat n < UINT32_MAX)%Z ->
  exists start adj total, build_adj n es = Some (start, adj) /\
    layout start total /\ length adj = S total /\
    forall v, v < n ->
      start !!! S v = start !!! v + length (succs es v) /\
      forall k, k < length (succs es v) -> adj !!! (start !!! v + k) = succs es v !!! k.
Proof.
  intros Hn. unfold build_adj. destruct (count_out_ok es (replicate n 0)) as (cnt & -> & Hlen & Hcnt);
    [apply length_replicate|]. cbn.
  rewrite u32_small by mi. replace (Z.to_nat (Z.of_nat n + 1)) with (S n) by lia.
  destruct (prefix_sum_ok cnt 0 (<[0 := 0]> (replicate (S n) 0))) as (start & Hps & Hls & _ & Hst); [rewrite length_insert, length_replicate; lia|].
  rewrite wr_lt by (rewrite length_replicate; lia). cbn [mbind option_bind]. rewrite Hps. cbn [mbind option_bind]. rewrite length_insert, length_replicate in Hls.
  assert (Hstep : forall v, v < n -> start !!! S v = start !!! v + length (succs es v)).
  { intros v Hv. change (S v) with (S (0 + v)). rewrite Hst by lia. rewrite Hcnt by done.
    rewrite lookup_total_replicate_2 by done. cbn [Nat.add]. lia. }
  rewrite rd_total by lia. cbn.
  assert (L : layout start (start !!! n)).
  { split_and!; auto. intros v Hv. rewrite Hstep by done. lia. }
  destruct (fill_ok es start _ L (replicate n 0) (replicate (start !!! n + 1) 0))
    as (cur' & adj & -> & Hla & Hspec).
  { apply length_replicate. }
  { rewrite length_replicate. lia. }
  { intros v Hv. rewrite Hstep, lookup_total_replicate_2 by done. lia. }
  exists start, adj, (start !!! n). split_and!; [done|done| |].
  { rewrite Hla, length_replicate. lia. }
  intros v Hv. split; [by apply Hstep|]. intros k Hk.
  specialize (Hspec v k Hv). rewrite lookup_total_replicate_2 in Hspec by done.
  rewrite Hspec by lia. rewrite decide_False by lia. f_equal. lia.
Qed.

End CsrProof.

End Tarjan.
