(* ===== verification/TarjanProof.v ===== *)
(** * Correctness of the component search

    The invariant of the iterative traversal and its preservation by each turn
    of the loop, over adjacency arrays in the layout that [Tarjan.build_adj]
    produces. *)
From stdpp Require Import relations sorting.
From S2P Require Import Prelude Tarjan.
Import Tarjan.

Module TarjanProof.

Lemma length_bounded (n : nat) (l : list nat) :
  NoDup l -> (forall x, x ∈ l -> x < n)%nat -> (length l <= n)%nat.
Proof.
  intros Hnd Hlt. rewrite <- (length_seq n 0). apply submseteq_length, NoDup_submseteq; [done|].
  intros x Hx. apply elem_of_seq. specialize (Hlt x Hx). lia.
Qed.

Lemma ssorted_nodup {A} (f : A -> Z) (l : list A) :
  StronglySorted (fun u v => f v < f u) l -> NoDup l.
Proof.
  induction 1 as [|x l _ IH Hx]; constructor; [|done].
  intros Hin. rewrite Forall_forall in Hx. specialize (Hx x Hin). lia.
Qed.

Section Graph.
Variables (n : nat) (adj_start adj : list nat) (total : nat).
Hypothesis L : layout n adj_start total.
Hypothesis Hadj : length adj = S total.
Hypothesis Htgt : forall v i, (v < n)%nat ->
  (adj_start !!! v <= i < adj_start !!! S v)%nat -> (adj !!! i < n)%nat.
Hypothesis Hn : Z.of_nat n <= UINT32_MAX.

(** Slot [i] of the arrays is the edge from [v] to [w]. *)
Definition slice (v i w : nat) : Prop :=
  (v < n)%nat /\ (adj_start !!! v <= i < adj_start !!! S v)%nat /\ adj !!! i = w.
Definition E (v w : nat) : Prop := exists i, slice v i w.
Definition reach : nat -> nat -> Prop := rtc E.

Lemma slice_bound v i w : slice v i w -> (v < n /\ w < n /\ i < length adj)%nat.
Proof.
  intros (Hv & Hi & <-). pose proof (layout_mono n adj_start total (S v) n L ltac:(lia)) as Hm.
  destruct L as (_ & Ht & _). split_and!; [done|by apply (Htgt v)|lia].
Qed.

Definition D (s : st) (v : nat) : Z := disc s !!! v.
Definition visited (s : st) (v : nat) : Prop := (v < n)%nat /\ D s v <> UINT32_MAX.
Definition gray (s : st) (v : nat) : Prop := v ∈ (call_stack s).*1.
Definition finished (s : st) (v : nat) : Prop := visited s v /\ v ∉ stack s.

(** An edge the traversal has already looked at. *)
Definition dedge (s : st) (x w : nat) : Prop :=
  exists i, slice x i w /\ visited s x /\ forall ei, (x, ei) ∈ call_stack s -> (i < ei)%nat.

(** [g] is the last open node at or below [x] on the stack. *)
Definition owner (s : st) (g x : nat) : Prop :=
  D s g <= D s x /\ forall g', gray s g' -> D s g' <= D s x -> D s g' <= D s g.

(** [pend] is a target whose edge was consumed but which is not entered yet. *)
Record Inv (pend : option nat) (s : st) : Prop := {
  I_len : length (disc s) = n /\ length (low s) = n /\
          length (on_stack s) = n /\ length (scc_id s) = n;
  I_frames : forall v ei, (v, ei) ∈ call_stack s ->
    (adj_start !!! v <= ei <= adj_start !!! S v)%nat;
  I_timer : timer s = Z.of_nat (length (filter (fun d => d <> UINT32_MAX) (disc s)));
  I_disc : forall v, visited s v -> 0 <= D s v < timer s;
  I_inj : forall u v, visited s u -> visited s v -> D s u = D s v -> u = v;
  I_stack : StronglySorted (fun u v => D s v < D s u) (stack s);
  I_svis : forall v, v ∈ stack s -> visited s v;
  I_on : forall v, (v < n)%nat -> on_stack s !!! v = true <-> v ∈ stack s;
  I_gsort : StronglySorted (fun u v => D s v < D s u) (call_stack s).*1;
  I_gstk : forall v, gray s v -> v ∈ stack s;
  I_low : forall g, gray s g -> exists l, low s !!! g = Some l /\ l <= D s g /\
    exists u, u ∈ stack s /\ D s u = l /\ reach g u;
  I_reach : forall g x, gray s g -> x ∈ stack s -> D s g <= D s x -> reach g x;
  I_black : forall x, x ∈ stack s -> ~ gray s x ->
    exists u, u ∈ stack s /\ D s u < D s x /\ reach x u;
  I_proc : forall x w, dedge s x w -> visited s w \/ pend = Some w;
  I_lowc : forall g x w l, gray s g -> x ∈ stack s -> owner s g x ->
    dedge s x w -> w ∈ stack s -> low s !!! g = Some l -> l <= D s w;
  I_closed : forall x w, finished s x -> E x w ->
    finished s w /\ (scc_id s !!! w <= scc_id s !!! x)%nat;
  I_scc : forall x y, finished s x -> finished s y ->
    scc_id s !!! x = scc_id s !!! y <-> reach x y /\ reach y x;
  I_cnt : forall x, finished s x -> (scc_id s !!! x < scc_count s)%nat;
  I_dense : forall c, (c < scc_count s)%nat -> exists x, finished s x /\ scc_id s !!! x = c }.

Lemma init_inv : Inv None (init n).
Proof.
  assert (Hnv : forall v, ~ visited (init n) v).
  { intros v [Hv Hd]. unfold D in Hd. cbn in Hd.
    by rewrite lookup_total_replicate_2 in Hd by done. }
  constructor; unfold gray, finished; cbn; try done.
  all: try (intros; exfalso; set_solver).
  - by rewrite !length_replicate.
  - enough (filter (fun d => d <> UINT32_MAX) (replicate n UINT32_MAX) = []) as -> by done.
    clear. induction n as [|m IH]; [done|].
    rewrite replicate_S, filter_cons, decide_False by tauto. done.
  - constructor.
  - intros v Hv. rewrite lookup_total_replicate_2 by done. set_solver.
  - constructor.
  - intros x w (_ & _ & Hx & _). by destruct (Hnv x).
  - lia.
Qed.

(** Facts every state of the traversal satisfies. *)
Lemma stack_lt pend s v : Inv pend s -> v ∈ stack s -> (v < n)%nat.
Proof. intros I Hv. by destruct (I_svis _ _ I v Hv). Qed.

Lemma low_read pend s g l : Inv pend s -> gray s g -> low s !!! g = Some l ->
  rdu (low s) g = Some l.
Proof.
  intros I Hg Hl. unfold rdu. rewrite rd_total.
  - cbn. by rewrite Hl.
  - destruct (I_len _ _ I) as (_ & -> & _). eauto using stack_lt, I_gstk.
Qed.

Lemma disc_read pend s v : Inv pend s -> (v < n)%nat -> rd (disc s) v = Some (D s v).
Proof. intros I Hv. apply rd_total. by destruct (I_len _ _ I) as (-> & _). Qed.

Lemma timer_lt pend s w : Inv pend s -> (w < n)%nat -> D s w = UINT32_MAX ->
  timer s < Z.of_nat n.
Proof.
  intros I Hw Hd. rewrite (I_timer _ _ I).
  destruct (I_len _ _ I) as (Hl & _).
  assert (Hlk : disc s !! w = Some UINT32_MAX).
  { rewrite <- Hd. apply list_lookup_lookup_total_lt. lia. }
  pose proof (length_filter_insert (fun d => d <> UINT32_MAX) (disc s) w UINT32_MAX 0 Hlk
                ltac:(tauto) ltac:(done)) as Hlen.
  pose proof (length_filter (fun d => d <> UINT32_MAX) (<[w := 0]> (disc s))) as Hle.
  rewrite length_insert in Hle. lia.
Qed.

(** ** Entering a node *)

Definition entered (w : nat) (s : st) : st :=
  {| disc := <[w := timer s]> (disc s); low := <[w := Some (timer s)]> (low s);
     on_stack := <[w := true]> (on_stack s); stack := w :: stack s;
     call_stack := (w, adj_start !!! w) :: call_stack s;
     scc_id := scc_id s; scc_count := scc_count s; timer := timer s + 1 |}.

Lemma enter_eval w s : Inv (Some w) s -> (w < n)%nat -> D s w = UINT32_MAX ->
  enter n adj_start w s = Some (entered w s).
Proof.
  intros I Hw Hd. pose proof (timer_lt _ _ _ I Hw Hd) as Ht.
  destruct (I_len _ _ I) as (H1 & H2 & H3 & H4).
  assert (Hnv : w ∉ stack s) by (intros Hc; by destruct (I_svis _ _ I w Hc)).
  assert (Hs : (length (w :: stack s) <= n)%nat).
  { apply length_bounded.
    - constructor; [done|]. apply (ssorted_nodup (D s)), (I_stack _ _ I).
    - intros x [->|Hx]%elem_of_cons; [done|]. eapply stack_lt; eauto. }
  assert (Hc : (length (call_stack s) <= length (stack s))%nat).
  { rewrite <- (length_fmap fst (call_stack s)). apply submseteq_length, NoDup_submseteq.
    - apply (ssorted_nodup (D s)), (I_gsort _ _ I).
    - intros x Hx. by apply (I_gstk _ _ I). }
  destruct L as (HL & _). cbn in Hs. unfold enter, push.
  rewrite !wr_lt by lia. cbn. rewrite decide_True by lia. cbn.
  rewrite rd_total by lia. cbn. rewrite decide_True by lia. cbn.
  rewrite u32_small; [done|]. pose proof (I_timer _ _ I). mi.
Qed.

Section Enter.
Variables (w : nat) (s : st).
Hypotheses (I : Inv (Some w) s) (Hw : (w < n)%nat) (Hd : D s w = UINT32_MAX).
Hypothesis Hfrom : forall g, gray s g -> reach g w.

Let s' := entered w s.

Lemma ent_D x : D s' x = if decide (x = w) then timer s else D s x.
Proof.
  unfold D, s'. cbn [disc entered]. apply upd_total.
  by destruct (I_len _ _ I) as (-> & _).
Qed.

Lemma ent_low x : low s' !!! x = if decide (x = w) then Some (timer s) else low s !!! x.
Proof. apply upd_total. by destruct (I_len _ _ I) as (_ & -> & _). Qed.

Lemma ent_not_visited : ~ visited s w.
Proof. intros [_ H]. by apply H. Qed.

Lemma ent_visited x : visited s' x <-> visited s x \/ x = w.
Proof.
  unfold visited. rewrite ent_D. pose proof (timer_lt _ _ _ I Hw Hd).
  pose proof (I_timer _ _ I). case_decide; subst.
  - split; [by right|]. intros _. split; [done|]. mi.
  - tauto.
Qed.

Lemma ent_old x : visited s x -> D s' x = D s x /\ D s x < timer s /\ x <> w.
Proof.
  intros Hx. assert (x <> w) by (intros ->; by apply ent_not_visited).
  rewrite ent_D, decide_False by done. pose proof (I_disc _ _ I x Hx). split_and!; lia || done.
Qed.

Lemma ent_new : D s' w = timer s.
Proof. by rewrite ent_D, decide_True. Qed.

Lemma ent_gray x : gray s' x <-> x = w \/ gray s x.
Proof. unfold gray, s'. cbn. apply elem_of_cons. Qed.

Lemma ent_gray_visited g : gray s g -> visited s g.
Proof. intros Hg. by apply (I_svis _ _ I), (I_gstk _ _ I). Qed.

Lemma ent_finished x : finished s' x <-> finished s x.
Proof.
  unfold finished. rewrite ent_visited. cbn. rewrite not_elem_of_cons.
  split; [tauto|]. intros [Hv Hs]. split_and!; auto. intros ->. by apply ent_not_visited.
Qed.

(** A looked-at edge of the new state is an old one or ends in [w]. *)
Lemma ent_dedge x y : dedge s' x y -> x <> w /\ dedge s x y.
Proof.
  intros (i & Hi & Hv & Hf).
  assert (x <> w).
  { intros ->. specialize (Hf (adj_start !!! w)). destruct Hi as (_ & Hr & _).
    enough (i < adj_start !!! w)%nat by lia. apply Hf. cbn. left. }
  split; [done|]. exists i. apply ent_visited in Hv as [Hv|]; [|done].
  split_and!; auto. intros ei Hei. apply Hf. cbn. by right.
Qed.

Lemma ent_sorted l : (forall x, x ∈ l -> visited s x) ->
  StronglySorted (fun u v => D s v < D s u) l ->
  StronglySorted (fun u v => D s' v < D s' u) (w :: l).
Proof.
  intros Hv Hs. constructor.
  - induction Hs as [|x l Hs IH Hx]; constructor.
    + apply IH. intros; apply Hv. by right.
    + rewrite Forall_forall in Hx |- *. intros y Hy.
      destruct (ent_old x) as (-> & _); [apply Hv; by left|].
      destruct (ent_old y) as (-> & _); [apply Hv; by right|]. by apply Hx.
  - rewrite Forall_forall. intros x Hx. rewrite ent_new.
    destruct (ent_old x (Hv x Hx)) as (-> & ? & _). done.
Qed.

Lemma enter_inv : Inv None s'.
Proof.
  pose proof (I_len _ _ I) as (H1 & H2 & H3 & H4).
  constructor.
  - cbn. by rewrite !length_insert.
  - cbn. intros v ei [[= -> ->]|Hin]%elem_of_cons; [|by apply (I_frames _ _ I)].
    destruct L as (_ & _ & Hm). specialize (Hm w Hw). lia.
  - cbn. rewrite (length_filter_insert _ _ _ UINT32_MAX).
    + rewrite (I_timer _ _ I). lia.
    + rewrite <- Hd. apply list_lookup_lookup_total_lt. lia.
    + tauto.
    + pose proof (timer_lt _ _ _ I Hw Hd). mi.
  - intros v [Hv| ->]%ent_visited.
    + destruct (ent_old v Hv) as (-> & ? & _). pose proof (I_disc _ _ I v Hv). cbn. lia.
    + rewrite ent_new. pose proof (I_timer _ _ I). cbn. lia.
  - intros u v [Hu| ->]%ent_visited [Hv| ->]%ent_visited; rewrite ?ent_new;
      repeat match goal with H : visited s _ |- _ =>
        pose proof (ent_old _ H) as (-> & ? & _); revert H end; intros; try lia.
    by apply (I_inj _ _ I).
  - apply ent_sorted; [apply (I_svis _ _ I)|apply (I_stack _ _ I)].
  - cbn. intros v [->|Hv]%elem_of_cons; apply ent_visited; [by right|left].
    by apply (I_svis _ _ I).
  - cbn. intros v Hv. rewrite upd_total by lia. rewrite elem_of_cons.
    case_decide; [tauto|]. rewrite (I_on _ _ I v Hv). tauto.
  - cbn. apply ent_sorted; [apply ent_gray_visited|apply (I_gsort _ _ I)].
  - intros v [->|Hv]%ent_gray; cbn; [by left|right]. by apply (I_gstk _ _ I).
  - intros g Hg. rewrite ent_low. apply ent_gray in Hg as [->|Hg].
    + rewrite decide_True by done. exists (timer s). rewrite ent_new. split_and!; auto; [lia|].
      exists w. cbn. split_and!; [by left|apply ent_new|apply rtc_refl].
    + pose proof (ent_gray_visited g Hg) as Hv. destruct (ent_old g Hv) as (-> & _ & Hne).
      rewrite decide_False by done.
      destruct (I_low _ _ I g Hg) as (l & Hl & Hle & u & Hu & Hdu & Hr).
      exists l. split_and!; auto. exists u. cbn. split_and!; [by right| |done].
      by destruct (ent_old u (I_svis _ _ I u Hu)) as (-> & _).
  - intros g x Hg Hx Hle. cbn in Hx. apply elem_of_cons in Hx as [->|Hx].
    + apply ent_gray in Hg as [->|Hg]; [apply rtc_refl|by apply Hfrom].
    + pose proof (I_svis _ _ I x Hx) as Hv. destruct (ent_old x Hv) as (E1 & ? & _).
      rewrite E1 in Hle. apply ent_gray in Hg as [->|Hg]; [rewrite ent_new in Hle; lia|].
      destruct (ent_old g (ent_gray_visited g Hg)) as (E2 & _). rewrite E2 in Hle.
      by apply (I_reach _ _ I).
  - intros x Hx Hng. rewrite ent_gray in Hng. cbn in Hx.
    apply elem_of_cons in Hx as [->|Hx]; [tauto|].
    destruct (I_black _ _ I x Hx ltac:(tauto)) as (u & Hu & Hlt & Hr).
    exists u. destruct (ent_old u (I_svis _ _ I u Hu)) as (-> & _).
    destruct (ent_old x (I_svis _ _ I x Hx)) as (-> & _). cbn. split_and!; auto. by right.
  - intros x y (Hne & Hde)%ent_dedge. left. apply ent_visited.
    destruct (I_proc _ _ I x y Hde) as [|[= <-]]; auto.
  - intros g x y l Hg Hx [Ho1 Ho2] (Hne & Hde)%ent_dedge Hy Hl.
    cbn in Hx. apply elem_of_cons in Hx as [->|Hx]; [done|].
    destruct (ent_old x (I_svis _ _ I x Hx)) as (Ex & ? & _). rewrite Ex in *.
    apply ent_gray in Hg as [->|Hg]; [rewrite ent_new in Ho1; lia|].
    destruct (ent_old g (ent_gray_visited g Hg)) as (Eg & Hgt & Hgw).
    rewrite ent_low, decide_False in Hl by done. rewrite Eg in *.
    apply elem_of_cons in Hy as [->|Hy].
    { rewrite ent_new. destruct (I_low _ _ I g Hg) as (l' & Hl' & Hle & _).
      rewrite Hl' in Hl. injection Hl as <-. lia. }
    destruct (ent_old y (I_svis _ _ I y Hy)) as (-> & _).
    apply (I_lowc _ _ I g x y l); auto. split; [done|]. intros g' Hg' Hle.
    destruct (ent_old g' (ent_gray_visited g' Hg')) as (Eg' & _).
    rewrite <- Eg'. apply Ho2; [apply ent_gray; by right|by rewrite Eg'].
  - intros x y Hx He. rewrite ent_finished in *. by apply (I_closed _ _ I).
  - intros x y Hx Hy. rewrite ent_finished in *. by apply (I_scc _ _ I).
  - intros x Hx. rewrite ent_finished in *. by apply (I_cnt _ _ I).
  - intros c Hc. destruct (I_dense _ _ I c Hc) as (x & Hx & Hxc).
    exists x. by rewrite ent_finished.
Qed.

End Enter.

(** ** Looking at an edge *)

Lemma elem_of_sorted_cons s v l x :
  StronglySorted (fun u v => D s v < D s u) (v :: l) -> x ∈ l -> D s x < D s v.
Proof. intros [Hf _]%StronglySorted_cons Hx. rewrite Forall_forall in Hf. by apply Hf. Qed.

(** The top frame is the open node with the largest discovery time. *)
Lemma top_max pend s v ei cs g : Inv pend s -> call_stack s = (v, ei) :: cs ->
  gray s g -> g = v \/ D s g < D s v.
Proof.
  intros I Ecs Hg. pose proof (I_gsort _ _ I) as Hs. unfold gray in Hg.
  rewrite Ecs in Hs, Hg. cbn in Hs, Hg. apply elem_of_cons in Hg as [->|Hg]; [by left|right].
  eapply elem_of_sorted_cons; eauto.
Qed.

Lemma frame_unique pend s v ei cs ei' : Inv pend s -> call_stack s = (v, ei) :: cs ->
  (v, ei') ∈ cs -> False.
Proof.
  intros I Ecs Hin. pose proof (I_gsort _ _ I) as Hs. rewrite Ecs in Hs. cbn in Hs.
  assert (v ∈ cs.*1) as Hv by (apply (list_elem_of_fmap_2 fst _ _ Hin)).
  pose proof (elem_of_sorted_cons s v _ v Hs Hv). lia.
Qed.

Section Advance.
Variables (s : st) (v ei : nat) (cs : list frame) (w : nat) (l l' : Z).
Hypotheses (I : Inv None s) (Ecs : call_stack s = (v, ei) :: cs).
Hypotheses (Hslice : slice v ei w) (Hl : low s !!! v = Some l).
Hypothesis Hl' : l' <= l /\ (w ∈ stack s -> l' <= D s w) /\
  (l' = l \/ (w ∈ stack s /\ l' = D s w)).

Let s' := set_low (<[v := Some l']> (low s)) (set_call ((v, S ei) :: cs) s).

Lemma adv_gray_v : gray s v.
Proof. unfold gray. rewrite Ecs. left. Qed.

Lemma adv_gray x : gray s' x <-> gray s x.
Proof. unfold gray, s'. cbn. by rewrite Ecs. Qed.

Lemma adv_lt : (v < n)%nat.
Proof. eapply stack_lt; [done|]. apply (I_gstk _ _ I), adv_gray_v. Qed.

Lemma adv_low x : low s' !!! x = if decide (x = v) then Some l' else low s !!! x.
Proof. apply upd_total. destruct (I_len _ _ I) as (_ & -> & _). apply adv_lt. Qed.

Lemma adv_dedge x y : dedge s' x y -> dedge s x y \/ (x = v /\ y = w).
Proof.
  intros (i & Hi & Hv & Hf). destruct (decide (x = v)) as [->|Hne].
  - specialize (Hf (S ei) ltac:(cbn; left)).
    destruct (decide (i = ei)) as [->|].
    + right. destruct Hi as (_ & _ & <-), Hslice as (_ & _ & <-). done.
    + left. exists i. split_and!; auto. intros e. rewrite Ecs.
      intros [[= ->]|Hin]%elem_of_cons; [lia|]. by destruct (frame_unique _ _ _ _ _ _ I Ecs Hin).
  - left. exists i. split_and!; auto. intros e He. apply Hf. cbn. rewrite Ecs in He.
    apply elem_of_cons in He as [[= ? ?]|He]; [done|by right].
Qed.

Lemma advance_inv : Inv (Some w) s'.
Proof.
  destruct Hl' as (Hle & Hin & Hor). pose proof (I_len _ _ I) as (H1 & H2 & H3 & H4).
  assert (HD : forall x, D s' x = D s x) by done.
  assert (Hvis : forall x, visited s' x <-> visited s x) by done.
  assert (Hreach : reach v w) by (apply rtc_once; by exists ei).
  constructor; try apply I.
  - cbn. by rewrite length_insert.
  - cbn. intros x e [[= -> ->]|Hx]%elem_of_cons.
    + destruct Hslice as (_ & ? & _). lia.
    + apply (I_frames _ _ I). rewrite Ecs. by right.
  - cbn. pose proof (I_gsort _ _ I) as Hg. by rewrite Ecs in Hg.
  - intros x Hx%adv_gray. by apply (I_gstk _ _ I).
  - intros g Hg%adv_gray. rewrite adv_low. destruct (I_low _ _ I g Hg) as (l0 & Hl0 & Hb & u & Hu).
    case_decide as Eg; [subst g|by eauto 10].
    rewrite Hl in Hl0. injection Hl0 as <-. exists l'. split_and!; [done|rewrite HD; lia|].
    destruct Hor as [->|[Hw ->]]; [by exists u|]. exists w. done.
  - intros g x Hg%adv_gray. by apply (I_reach _ _ I).
  - intros x Hx Hng. rewrite adv_gray in Hng. by apply (I_black _ _ I).
  - intros x y [Hde|[-> ->]]%adv_dedge; [|by right].
    destruct (I_proc _ _ I x y Hde); [by left|done].
  - intros g x y l0 Hg%adv_gray Hx Ho Hde Hy Hl0.
    assert (Ho' : owner s g x).
    { destruct Ho as [Ho1 Ho2]. split; [done|]. intros g' Hg'. apply Ho2. by apply adv_gray. }
    rewrite adv_low in Hl0. apply adv_dedge in Hde as [Hde|[-> ->]].
    + case_decide as Eg; [subst g; injection Hl0 as <-|by apply (I_lowc _ _ I g x y l0)].
      transitivity l; [done|]. by apply (I_lowc _ _ I v x y l).
    + assert (g = v) as ->.
      { destruct Ho' as [Ho1 Ho2]. specialize (Ho2 v adv_gray_v ltac:(lia)).
        apply (I_inj _ _ I); [| |lia]; apply (I_svis _ _ I), (I_gstk _ _ I); auto using adv_gray_v. }
      rewrite decide_True in Hl0 by done. injection Hl0 as <-. by apply Hin.
Qed.

End Advance.

Lemma unpend w s : Inv (Some w) s -> visited s w -> Inv None s.
Proof.
  intros I Hv. destruct I. constructor; try done.
  intros x y Hde. destruct (I_proc0 x y Hde) as [|[= <-]]; auto.
Qed.

Lemma set_low_same v l s c : Inv None s -> gray s v -> low s !!! v = Some l ->
  set_low (<[v := Some l]> (low s)) (set_call c s) = set_call c s.
Proof.
  intros I Hg Hl. unfold set_low, set_call. cbn. f_equal. apply list_insert_id.
  rewrite <- Hl. apply list_lookup_lookup_total_lt.
  destruct (I_len _ _ I) as (_ & -> & _). eapply stack_lt; eauto using I_gstk.
Qed.

Lemma visit_edge_ok s v ei cs : Inv None s -> call_stack s = (v, ei) :: cs ->
  (ei < adj_start !!! S v)%nat ->
  exists s', visit_edge n adj_start adj v ei cs s = Some s' /\ Inv None s' /\
    (call_stack s' = (v, S ei) :: cs /\ disc s' = disc s \/
     exists w, (w < n)%nat /\ D s w = UINT32_MAX /\ disc s' = <[w := timer s]> (disc s) /\
       call_stack s' = (w, adj_start !!! w) :: (v, S ei) :: cs).
Proof.
  intros I Ecs Hei. assert (Hg : gray s v) by (unfold gray; rewrite Ecs; left).
  assert (Hv : (v < n)%nat) by (eapply stack_lt; eauto using I_gstk).
  pose proof (I_frames _ _ I v ei ltac:(rewrite Ecs; left)) as Hfr.
  assert (Hsl : slice v ei (adj !!! ei)) by (split_and!; done || lia).
  destruct (slice_bound _ _ _ Hsl) as (_ & Hw & Hlen).
  set (w := adj !!! ei) in *.
  destruct (I_low _ _ I v Hg) as (l & Hl & Hlv & _).
  unfold visit_edge. rewrite rd_total by done. cbn [mbind option_bind]. fold w.
  rewrite (disc_read _ _ _ I Hw). cbn [mbind option_bind].
  destruct (Z.eqb_spec (D s w) UINT32_MAX) as [Hd|Hd].
  - assert (Hnin : w ∉ stack s) by (intros Hc; by destruct (I_svis _ _ I w Hc)).
    pose proof (advance_inv s v ei cs w l l I Ecs Hsl Hl ltac:(split_and!; [lia|done|by left])) as I1.
    rewrite set_low_same in I1 by done.
    eexists. split_and!; [by apply enter_eval| |right; by exists w]. apply enter_inv; try done.
    intros g Hg1. assert (gray s g) as Hg2 by (unfold gray in *; by rewrite Ecs).
    apply rtc_r with v; [|by exists ei]. apply (I_reach _ _ I); [done|by apply (I_gstk _ _ I)|].
    destruct (top_max _ _ _ _ _ _ I Ecs Hg2) as [->|]; lia.
  - rewrite rd_total by (destruct (I_len _ _ I) as (_ & _ & -> & _); done).
    cbn [mbind option_bind]. assert (Hvis : visited s w) by done.
    destruct (on_stack s !!! w) eqn:Hon.
    + assert (Hin : w ∈ stack s) by by apply (I_on _ _ I w Hw).
      rewrite (low_read _ _ _ _ I Hg Hl). cbn [mbind option_bind].
      destruct (Z.ltb_spec (D s w) l).
      * rewrite wr_lt by (destruct (I_len _ _ I) as (_ & -> & _); done).
        eexists. split_and!; [done| |by left]. apply (unpend w); [|done].
        apply (advance_inv s v ei cs w l (D s w)); try done. split_and!; [lia|lia|by right].
      * eexists. split_and!; [done| |by left]. apply (unpend w); [|done].
        rewrite <- (set_low_same v l s ((v, S ei) :: cs)) by done.
        apply (advance_inv s v ei cs w l l); try done. split_and!; [lia|lia|by left].
    + assert (Hnin : w ∉ stack s) by (rewrite <- (I_on _ _ I w Hw), Hon; done).
      eexists. split_and!; [done| |by left]. apply (unpend w); [|done].
      rewrite <- (set_low_same v l s ((v, S ei) :: cs)) by done.
      apply (advance_inv s v ei cs w l l); try done. split_and!; [lia|done|by left].
Qed.

(** ** Leaving a node *)

Section Finish.
Variables (s : st) (v ei : nat) (cs : list frame) (l : Z).
Hypotheses (I : Inv None s) (Ecs : call_stack s = (v, ei) :: cs).
Hypotheses (Hend : (adj_start !!! S v <= ei)%nat) (Hl : low s !!! v = Some l).

Lemma fin_gray_v : gray s v.
Proof. unfold gray. rewrite Ecs. left. Qed.

Lemma fin_gray x : gray s x <-> x = v \/ x ∈ cs.*1.
Proof. unfold gray. rewrite Ecs. apply elem_of_cons. Qed.

Lemma fin_v_stack : v ∈ stack s.
Proof. apply (I_gstk _ _ I), fin_gray_v. Qed.

Lemma fin_below g : g ∈ cs.*1 -> D s g < D s v.
Proof.
  intros Hg. pose proof (I_gsort _ _ I) as Hs. rewrite Ecs in Hs.
  eapply elem_of_sorted_cons; eauto.
Qed.

Lemma fin_ne g : g ∈ cs.*1 -> g <> v.
Proof. intros Hg%fin_below ->. lia. Qed.

(** Every edge of the finished node and of the nodes above it was looked at. *)
Lemma fin_dedge x i y : x ∈ stack s -> D s v <= D s x -> slice x i y -> dedge s x y.
Proof.
  intros Hx Hle Hs. exists i. split_and!; [done|by apply (I_svis _ _ I)|].
  rewrite Ecs. intros e [[= -> ->]|Hin]%elem_of_cons.
  - destruct Hs as (_ & ? & _). lia.
  - assert (x ∈ cs.*1) as Hg by apply (list_elem_of_fmap_2 fst _ _ Hin).
    pose proof (fin_below x Hg). lia.
Qed.

Lemma fin_owner x : D s v <= D s x -> owner s v x.
Proof.
  intros Hle. split; [done|]. intros g Hg _.
  apply fin_gray in Hg as [->|?%fin_below]; lia.
Qed.

(** After the frame is dropped, the looked-at edges are the same. *)
Lemma fin_dedge_drop s' x y : call_stack s' = cs -> (forall z, visited s' z <-> visited s z) ->
  dedge s' x y -> dedge s x y.
Proof.
  intros E1 Hvis (i & Hi & Hx & Hf). rewrite E1 in Hf. apply Hvis in Hx.
  exists i. split_and!; auto. rewrite Ecs. intros e [[= -> ->]|Hin]%elem_of_cons; [|by apply Hf].
  destruct Hi as (_ & ? & _). lia.
Qed.

(** *** Not a root *)

Definition merged_low : list (option Z) :=
  match cs with
  | [] => low s
  | (p, _) :: _ => <[p := (fun lp => l `min` lp) <$> (low s !!! p)]> (low s)
  end.

Lemma merged_other x : x ∉ cs.*1 -> merged_low !!! x = low s !!! x.
Proof.
  unfold merged_low. destruct cs as [|[p e] cs']; [done|]. cbn. intros Hx.
  apply list_lookup_total_insert_ne. set_solver.
Qed.

Lemma merged_spec g : g ∈ cs.*1 -> exists l0 l1, low s !!! g = Some l0 /\
  merged_low !!! g = Some l1 /\ l1 <= l0 /\ (l1 = l0 \/ l1 = l) /\
  (head cs.*1 = Some g -> l1 <= l).
Proof.
  intros Hg. destruct (I_low _ _ I g) as (l0 & Hl0 & _); [apply fin_gray; by right|].
  assert (Hn' : forall p, p ∈ cs.*1 -> (p < length (low s))%nat).
  { destruct (I_len _ _ I) as (_ & -> & _). intros p Hp. eapply stack_lt; [done|].
    apply (I_gstk _ _ I), fin_gray. by right. }
  unfold merged_low. destruct cs as [|[p e] cs']; [by apply elem_of_nil in Hg|].
  rewrite upd_total by (apply Hn'; left). case_decide as Eg.
  - subst p. rewrite Hl0. exists l0, (l `min` l0). cbn. split_and!; try done; lia.
  - exists l0, l0. split_and!; auto; [lia|]. cbn. congruence.
Qed.

Lemma leave_inv : l < D s v -> Inv None (set_low merged_low (set_call cs s)).
Proof.
  intros Hlt. set (s' := set_low merged_low (set_call cs s)).
  assert (HD : forall x, D s' x = D s x) by done.
  assert (Hvis : forall x, visited s' x <-> visited s x) by done.
  assert (Hg : forall x, gray s' x <-> x ∈ cs.*1) by done.
  destruct (I_low _ _ I v fin_gray_v) as (l0 & Hl0 & _ & u & Hu & Hdu & Hru).
  rewrite Hl in Hl0. injection Hl0 as <-.
  assert (Hrv : forall g, g ∈ cs.*1 -> reach g v).
  { intros g Hgc. apply (I_reach _ _ I); [apply fin_gray; by right|apply fin_v_stack|].
    apply fin_below in Hgc. lia. }
  constructor; try apply I.
  - pose proof (I_len _ _ I) as (H1 & H2 & H3 & H4). split_and!; try done. cbn.
    unfold merged_low. destruct cs as [|[p e] cs']; [done|]. by rewrite length_insert.
  - intros x e Hx. apply (I_frames _ _ I). rewrite Ecs. by right.
  - pose proof (I_gsort _ _ I) as Hs. rewrite Ecs in Hs. cbn in Hs.
    by apply StronglySorted_cons in Hs as [_ Hs].
  - intros x Hx%Hg. apply (I_gstk _ _ I), fin_gray. by right.
  - intros g Hgc%Hg. destruct (merged_spec g Hgc) as (l0 & l1 & Hl0 & Hl1 & Hle & Hor & _).
    destruct (I_low _ _ I g) as (l0' & Hl0' & Hb & u' & Hu'); [apply fin_gray; by right|].
    rewrite Hl0 in Hl0'. injection Hl0' as <-.
    exists l1. split_and!; [done|rewrite HD; lia|].
    destruct Hor as [-> | ->]; [by exists u'|]. exists u. split_and!; auto.
    eapply rtc_trans; [by apply Hrv|done].
  - intros g x Hgc%Hg. apply (I_reach _ _ I). apply fin_gray. by right.
  - intros x Hx Hng. destruct (decide (x = v)) as [->|Hne].
    + exists u. split_and!; auto. rewrite !HD. lia.
    + apply (I_black _ _ I); [done|]. rewrite fin_gray. rewrite Hg in Hng. tauto.
  - intros x y Hde. left. apply (fin_dedge_drop s') in Hde; [|done|done].
    by destruct (I_proc _ _ I x y Hde).
  - intros g x y l1 Hgc Hx [Ho1 Ho2] Hde Hy Hl1. change (g ∈ cs.*1) in Hgc.
    apply (fin_dedge_drop s') in Hde; [|done|done]. rewrite HD in *.
    destruct (merged_spec g Hgc) as (l0 & l1' & Hl0 & Hl1' & Hle & _ & Htop).
    change (merged_low !!! g = Some l1) in Hl1.
    rewrite Hl1' in Hl1. injection Hl1 as <-.
    destruct (decide (D s v <= D s x)) as [Hvx|Hvx].
    + transitivity l; [|by eapply (I_lowc _ _ I v x y l); auto using fin_gray_v, fin_owner].
      apply Htop. pose proof (I_gsort _ _ I) as Hs. rewrite Ecs in Hs. cbn in Hs.
      apply StronglySorted_cons in Hs as [_ Hs]. pose proof fin_below as Hbelow.
      clear Hl1' Htop Hde. clearbody s'.
      destruct cs as [|[p e] cs']; [by apply elem_of_nil in Hgc|]. cbn in *. f_equal.
      apply elem_of_cons in Hgc as [->|Hgc]; [done|].
      pose proof (elem_of_sorted_cons s p _ g Hs Hgc) as Hpg.
      specialize (Ho2 p ltac:(apply Hg; left)). rewrite !HD in Ho2.
      specialize (Hbelow p ltac:(left)). lia.
    + transitivity l0; [done|]. apply (I_lowc _ _ I g x y l0); auto; [apply fin_gray; by right|].
      split; [done|]. intros g' [->|Hg']%fin_gray; [lia|]. intros. by apply Ho2.
Qed.

(** *** A root: the nodes above it on the stack are its component *)

Variables (pre rest : list nat).
Hypotheses (Hstk : stack s = pre ++ v :: rest) (Hroot : l = D s v).

Definition seg : list nat := pre ++ [v].

Lemma seg_stack x : x ∈ stack s <-> x ∈ seg \/ x ∈ rest.
Proof. unfold seg. rewrite Hstk. set_solver. Qed.

Lemma seg_above x : x ∈ seg -> D s v <= D s x.
Proof.
  pose proof (I_stack _ _ I) as Hs. rewrite Hstk in Hs. apply StronglySorted_app in Hs as (Hs & _).
  unfold seg. rewrite elem_of_app, list_elem_of_singleton. intros [Hx| ->]; [|lia].
  specialize (Hs x v Hx ltac:(left)). cbn in Hs. lia.
Qed.

Lemma rest_below x : x ∈ rest -> D s x < D s v.
Proof.
  pose proof (I_stack _ _ I) as Hs. rewrite Hstk in Hs.
  apply StronglySorted_app in Hs as (_ & _ & Hs). intros Hx.
  eapply elem_of_sorted_cons; eauto.
Qed.

Lemma seg_rest x : x ∈ seg -> x ∈ rest -> False.
Proof. intros ?%seg_above ?%rest_below. lia. Qed.

Lemma seg_of x : x ∈ stack s -> D s v <= D s x -> x ∈ seg.
Proof. intros [|?%rest_below]%seg_stack; [done|lia]. Qed.

Lemma rest_of x : x ∈ stack s -> D s x < D s v -> x ∈ rest.
Proof. intros [?%seg_above|]%seg_stack; [lia|done]. Qed.

Lemma seg_visited x : x ∈ seg -> visited s x.
Proof. intros Hx. apply (I_svis _ _ I), seg_stack. by left. Qed.

Lemma seg_succ x y : x ∈ seg -> E x y -> y ∈ seg \/ finished s y.
Proof.
  intros Hx [i Hi]. assert (Hs : x ∈ stack s) by (apply seg_stack; by left).
  pose proof (seg_above x Hx) as Hle. pose proof (fin_dedge x i y Hs Hle Hi) as Hde.
  destruct (I_proc _ _ I x y Hde) as [Hy|]; [|done].
  destruct (decide (y ∈ stack s)) as [Hin|Hout]; [|by right]. left.
  apply seg_of; [done|]. rewrite <- Hroot.
  apply (I_lowc _ _ I v x y l); auto using fin_gray_v, fin_owner.
Qed.

Lemma finished_reach x y : finished s x -> reach x y -> finished s y.
Proof. intros Hx Hr. induction Hr as [|x z y He _ IH]; [done|]. by apply IH, (I_closed _ _ I x). Qed.

Lemma seg_reach x y : x ∈ seg -> reach x y -> y ∈ seg \/ finished s y.
Proof.
  intros Hx Hr. induction Hr as [|x z y He Hr IH]; [by left|].
  destruct (seg_succ x z Hx He); [by apply IH|right]. by apply (finished_reach z).
Qed.

Lemma seg_to_root x : x ∈ seg -> reach x v.
Proof.
  assert (Hk : forall k x, x ∈ seg -> (Z.to_nat (D s x) < k)%nat -> reach x v).
  { induction k as [|k IH]; intros y Hy Hd; [lia|].
    destruct (decide (y = v)) as [->|Hne]; [apply rtc_refl|].
    assert (Hs : y ∈ stack s) by (apply seg_stack; by left).
    destruct (I_black _ _ I y Hs) as (u & Hu & Hlt & Hr).
    { intros [->|Hg]%fin_gray; [done|]. apply fin_below in Hg. apply seg_above in Hy. lia. }
    apply rtc_trans with u; [done|]. apply IH.
    - destruct (seg_reach y u Hy Hr) as [|[_ Hf]]; done.
    - pose proof (I_disc _ _ I u (I_svis _ _ I u Hu)). lia. }
  intros Hx. by apply (Hk (S (Z.to_nat (D s x)))); [|lia].
Qed.

Lemma seg_from_root x : x ∈ seg -> reach v x.
Proof.
  intros Hx. apply (I_reach _ _ I); [apply fin_gray_v|apply seg_stack; by left|].
  by apply seg_above.
Qed.

Variables (on' : list bool) (ids' : list nat).
Hypotheses (Hon_len : length on' = n) (Hids_len : length ids' = n).
Hypothesis Hon' : forall x, (x < n)%nat ->
  on' !!! x = if decide (x ∈ seg) then false else on_stack s !!! x.
Hypothesis Hids' : forall x, (x < n)%nat ->
  ids' !!! x = if decide (x ∈ seg) then scc_count s else scc_id s !!! x.

Definition closed_root : st :=
  {| disc := disc s; low := low s; on_stack := on'; stack := rest; call_stack := cs;
     scc_id := ids'; scc_count := S (scc_count s); timer := timer s |}.

Lemma root_finished x : finished closed_root x <-> finished s x \/ x ∈ seg.
Proof.
  unfold finished. change (visited closed_root x) with (visited s x). cbn [stack closed_root].
  rewrite seg_stack. destruct (decide (x ∈ seg)) as [Hx|Hx].
  - split; [by right|]. intros _. split; [by apply seg_visited|].
    intros Hr. by apply (seg_rest x).
  - tauto.
Qed.

Lemma root_id x : finished closed_root x ->
  (x ∈ seg /\ ids' !!! x = scc_count s) \/
  (finished s x /\ x ∉ seg /\ ids' !!! x = scc_id s !!! x).
Proof.
  intros Hf. assert (x < n)%nat by apply Hf. rewrite Hids' by done.
  apply root_finished in Hf as [Hf|Hx].
  - assert (x ∉ seg) by (intros Hx; destruct Hf as [_ Hf]; apply Hf, seg_stack; by left).
    rewrite decide_False by done. by right.
  - rewrite decide_True by done. by left.
Qed.

Lemma root_inv : Inv None closed_root.
Proof.
  set (s' := closed_root).
  assert (HD : forall x, D s' x = D s x) by done.
  assert (Hvis : forall x, visited s' x <-> visited s x) by done.
  assert (Hgs : forall g, g ∈ cs.*1 -> gray s g) by (intros; apply fin_gray; by right).
  pose proof (I_len _ _ I) as (H1 & H2 & H3 & H4).
  constructor; try apply I; try done.
  - intros x e Hx. apply (I_frames _ _ I). rewrite Ecs. by right.
  - pose proof (I_stack _ _ I) as Hs. rewrite Hstk in Hs.
    apply StronglySorted_app in Hs as (_ & _ & Hs). by apply StronglySorted_cons in Hs as [_ Hs].
  - intros x Hx. apply (I_svis _ _ I), seg_stack. by right.
  - intros x Hx. change (on' !!! x = true <-> x ∈ rest). rewrite Hon' by done. case_decide as Hseg.
    + split; [done|]. intros Hr. by destruct (seg_rest x).
    + rewrite (I_on _ _ I x Hx), seg_stack. tauto.
  - pose proof (I_gsort _ _ I) as Hs. rewrite Ecs in Hs. cbn in Hs.
    by apply StronglySorted_cons in Hs as [_ Hs].
  - intros g Hg. change (g ∈ cs.*1) in Hg. apply rest_of; [|by apply fin_below].
    apply (I_gstk _ _ I), Hgs, Hg.
  - intros g Hg. change (g ∈ cs.*1) in Hg.
    destruct (I_low _ _ I g (Hgs g Hg)) as (l0 & Hl0 & Hle & u & Hu & Hdu & Hr).
    exists l0. split_and!; auto. exists u. split_and!; auto.
    apply rest_of; [done|]. apply fin_below in Hg. lia.
  - intros g x Hg Hx. apply (I_reach _ _ I); [by apply Hgs|]. apply seg_stack. by right.
  - intros x Hx Hng. assert (x ∈ stack s) as Hs by (apply seg_stack; by right).
    destruct (I_black _ _ I x Hs) as (u & Hu & Hlt & Hr).
    { intros [->|]%fin_gray; [|done]. apply rest_below in Hx. lia. }
    exists u. split_and!; auto. apply rest_of; [done|]. apply rest_below in Hx. lia.
  - intros x y Hde. left. apply (fin_dedge_drop s') in Hde; [|done|done].
    by destruct (I_proc _ _ I x y Hde).
  - intros g x y l0 Hg Hx [Ho1 Ho2] Hde Hy Hl0. change (g ∈ cs.*1) in Hg.
    apply (fin_dedge_drop s') in Hde; [|done|done].
    apply (I_lowc _ _ I g x y l0); auto; try (apply seg_stack; by right).
    split; [done|]. intros g' [->|Hg']%fin_gray; [|by apply Ho2].
    apply rest_below in Hx. lia.
  - intros x y Hx He. pose proof (root_id x Hx) as Hix. cbn [scc_id closed_root s'].
    assert (Hy : finished s' y).
    { apply root_finished. destruct Hix as [[Hseg _]|(Hf & _)].
      - destruct (seg_succ x y Hseg He); tauto.
      - left. by apply (I_closed _ _ I x). }
    split; [done|]. change (ids' !!! y <= ids' !!! x)%nat.
    destruct Hix as [[Hseg ->]|(Hf & Hns & ->)], (root_id y Hy) as [[Hsy ->]|(Hfy & _ & ->)].
    + done.
    + pose proof (I_cnt _ _ I y Hfy). lia.
    + destruct (I_closed _ _ I x y Hf He) as [[_ Hc] _]. destruct Hc. apply seg_stack. by left.
    + by apply (I_closed _ _ I).
  - intros x y Hx Hy. change (ids' !!! x = ids' !!! y <-> reach x y /\ reach y x).
    assert (Hmix : forall a b, a ∈ seg -> finished s b -> b ∉ seg -> ~ reach b a).
    { intros a b Ha Hb _ Hr. destruct (finished_reach b a Hb Hr) as [_ Hc]. apply Hc, seg_stack.
      by left. }
    destruct (root_id x Hx) as [[Hsx ->]|(Hfx & Hnx & ->)],
             (root_id y Hy) as [[Hsy ->]|(Hfy & Hny & ->)].
    + split; [|done]. intros _.
      split; apply rtc_trans with v; by (apply seg_to_root || apply seg_from_root).
    + pose proof (I_cnt _ _ I y Hfy). split; [lia|]. intros [_ Hr]. by destruct (Hmix x y).
    + pose proof (I_cnt _ _ I x Hfx). split; [lia|]. intros [Hr _]. by destruct (Hmix y x).
    + by apply (I_scc _ _ I).
  - intros x Hx. change (ids' !!! x < S (scc_count s))%nat.
    destruct (root_id x Hx) as [[_ ->]|(Hf & _ & ->)]; [lia|].
    pose proof (I_cnt _ _ I x Hf). lia.
  - intros c Hc. change (c < S (scc_count s))%nat in Hc.
    change (exists x, finished s' x /\ ids' !!! x = c).
    destruct (decide (c = scc_count s)) as [->|].
    + assert (Hv : v ∈ seg) by (unfold seg; set_solver).
      assert (Hf : finished s' v) by (apply root_finished; by right).
      exists v. split; [done|]. by destruct (root_id v Hf) as [[_ ?]|(_ & ? & _)].
    + destruct (I_dense _ _ I c) as (x & Hx & Hxc); [lia|].
      assert (Hf : finished s' x) by (apply root_finished; by left).
      exists x. split; [done|]. destruct (root_id x Hf) as [[Hs _]|(_ & _ & ->)]; [|done].
      destruct Hx as [_ Hx]. destruct Hx. apply seg_stack. by left.
Qed.

End Finish.

Lemma pop_scc_ok v c pre rest : forall on ids, v ∉ pre ->
  (forall x, x ∈ pre ++ [v] -> (x < n)%nat) -> length on = n -> length ids = n ->
  exists on' ids', pop_scc v c (pre ++ v :: rest) on ids = Some (rest, on', ids') /\
    length on' = n /\ length ids' = n /\
    (forall x, (x < n)%nat -> on' !!! x = if decide (x ∈ pre ++ [v]) then false else on !!! x) /\
    (forall x, (x < n)%nat -> ids' !!! x = if decide (x ∈ pre ++ [v]) then c else ids !!! x).
Proof.
  induction pre as [|y pre IH]; intros on ids Hv Hlt Ho Hi; cbn [app pop_scc].
  - assert (v < n)%nat by (apply Hlt; set_solver).
    rewrite !wr_lt by lia. cbn. rewrite Nat.eqb_refl.
    eexists _, _. split_and!; try done; rewrite ?length_insert; try done.
    all: intros x Hx; rewrite upd_total by lia.
    all: destruct (decide (x = v)); [rewrite decide_True by set_solver|rewrite decide_False by set_solver]; done.
  - assert (y < n)%nat by (apply Hlt; set_solver).
    rewrite !wr_lt by lia. cbn.
    destruct (Nat.eqb_spec y v) as [->|Hne]; [set_solver|].
    destruct (IH (<[y := false]> on) (<[y := c]> ids)) as (on' & ids' & -> & H1 & H2 & H3 & H4);
      rewrite ?length_insert; try done; [set_solver|intros x Hx; apply Hlt; set_solver|].
    exists on', ids'. split_and!; try done.
    all: intros x Hx; rewrite (H3 x Hx) || rewrite (H4 x Hx); rewrite upd_total by lia.
    all: destruct (decide (x ∈ pre ++ [v])); [rewrite decide_True by set_solver; done|].
    all: destruct (decide (x = y)); [rewrite decide_True by set_solver|rewrite decide_False by set_solver]; done.
Qed.

Lemma split_stack (x : nat) (l : list nat) : x ∈ l -> exists pre rest, l = pre ++ x :: rest /\ x ∉ pre.
Proof.
  induction l as [|y l IH]; [by intros ?%elem_of_nil|].
  destruct (decide (x = y)) as [->|Hne]; intros Hx.
  - exists [], l. split; [done|]. apply not_elem_of_nil.
  - apply elem_of_cons in Hx as [|Hx]; [done|]. destruct (IH Hx) as (pre & rest & -> & Hp).
    exists (y :: pre), rest. split; [done|]. set_solver.
Qed.

Lemma leave_ok s v ei cs : Inv None s -> call_stack s = (v, ei) :: cs ->
  (adj_start !!! S v <= ei)%nat ->
  exists s1 s', close_root v s = Some s1 /\ leave v cs s1 = Some s' /\ Inv None s' /\
    call_stack s' = cs /\ disc s' = disc s.
Proof.
  intros I Ecs Hend. pose proof (fin_gray_v s v ei cs Ecs) as Hg.
  pose proof (fin_v_stack s v ei cs I Ecs) as Hvs.
  assert (Hv : (v < n)%nat) by (eapply stack_lt; eauto).
  pose proof (I_len _ _ I) as (H1 & H2 & H3 & H4).
  destruct (I_low _ _ I v Hg) as (l & Hl & Hle & _).
  unfold close_root. rewrite (low_read _ _ _ _ I Hg Hl). cbn [mbind option_bind].
  rewrite (disc_read _ _ _ I Hv). cbn [mbind option_bind].
  destruct (Z.eqb_spec l (D s v)) as [Hroot|Hnr].
  - destruct (split_stack v (stack s) Hvs) as (pre & rest & Hstk & Hpre).
    destruct (pop_scc_ok v (scc_count s) pre rest (on_stack s) (scc_id s))
      as (on' & ids' & Hpop & Ho & Hi & Hon & Hids); try done.
    { intros x Hx. eapply stack_lt; [done|]. rewrite Hstk. set_solver. }
    rewrite Hstk, Hpop. cbn [mbind option_bind].
    eexists _, (closed_root s cs rest on' ids').
    assert (Inv None (closed_root s cs rest on' ids')) as I'.
    { eapply root_inv; eauto. }
    split_and!; try done. unfold leave. destruct cs as [|[p e] cs']; [done|].
    assert (Hgp : gray s p) by (unfold gray; rewrite Ecs; right; left).
    destruct (I_low _ _ I p Hgp) as (lp & Hlp & Hlep & _).
    cbn [low]. rewrite (low_read _ _ _ _ I Hg Hl), (low_read _ _ _ _ I Hgp Hlp).
    cbn [mbind option_bind].
    pose proof (fin_below s v ei ((p, e) :: cs') I Ecs p ltac:(left)).
    destruct (Z.ltb_spec l lp); [lia|]. done.
  - exists s, (set_low (merged_low s cs l) (set_call cs s)).
    split; [done|]. assert (I' : Inv None (set_low (merged_low s cs l) (set_call cs s))).
    { eapply leave_inv; eauto. lia. }
    split_and!; try done. unfold leave, merged_low. destruct cs as [|[p e] cs']; [done|].
    assert (Hgp : gray s p) by (unfold gray; rewrite Ecs; right; left).
    destruct (I_low _ _ I p Hgp) as (lp & Hlp & Hlep & _).
    rewrite (low_read _ _ _ _ I Hg Hl), (low_read _ _ _ _ I Hgp Hlp). cbn [mbind option_bind].
    assert (Hp : (p < length (low s))%nat)
      by (rewrite H2; eapply stack_lt; [done|]; by apply (I_gstk _ _ I)).
    rewrite Hlp. cbn [fmap option_fmap option_map].
    destruct (Z.ltb_spec l lp).
    + rewrite wr_lt by done. cbn [mbind option_bind]. by rewrite Z.min_l by lia.
    + rewrite Z.min_r by lia. by rewrite set_low_same.
Qed.

(** ** Termination *)

Definition deg (v : nat) : nat := adj_start !!! S v - adj_start !!! v.

Definition node_work (dl : list Z) (v : nat) : nat :=
  if decide (dl !!! v = UINT32_MAX) then S (deg v) else O.

Definition frame_work (f : frame) : nat := S (adj_start !!! S f.1 - f.2).

(** Turns still to be made: one per edge to look at and one per node to leave. *)
Definition work (s : st) : nat :=
  sum_list_with (node_work (disc s)) (seq 0 n) + sum_list_with frame_work (call_stack s).

Lemma sum_change (f g : nat -> nat) w l : NoDup l -> w ∈ l ->
  (forall x, x <> w -> f x = g x) ->
  (sum_list_with f l + g w = sum_list_with g l + f w)%nat.
Proof.
  intros Hnd Hw Hfg. induction Hnd as [|x l Hx Hnd IH]; [by apply elem_of_nil in Hw|].
  cbn. apply elem_of_cons in Hw as [<-|Hw].
  - enough (sum_list_with f l = sum_list_with g l) by lia. clear IH Hnd.
    induction l as [|y l IH]; [done|]. cbn. rewrite Hfg by set_solver. f_equal. apply IH. set_solver.
  - rewrite (Hfg x) by (intros ->; done). specialize (IH Hw). lia.
Qed.

Lemma work_enter (dl : list Z) w t : (w < n)%nat -> length dl = n -> dl !!! w = UINT32_MAX ->
  t <> UINT32_MAX ->
  (sum_list_with (node_work (<[w := t]> dl)) (seq 0 n) + frame_work (w, adj_start !!! w)
   = sum_list_with (node_work dl) (seq 0 n))%nat.
Proof.
  intros Hw Hlen Hd Ht.
  pose proof (sum_change (node_work (<[w := t]> dl)) (node_work dl) w (seq 0 n)) as Hs.
  assert (E1 : node_work (<[w := t]> dl) w = O).
  { unfold node_work. by rewrite list_lookup_total_insert_eq, decide_False by (lia || done). }
  assert (E2 : node_work dl w = S (deg w)) by (unfold node_work; by rewrite decide_True).
  rewrite E1, E2, Nat.add_0_r in Hs. apply Hs.
  - apply NoDup_seq.
  - apply elem_of_seq. lia.
  - intros x Hx. unfold node_work. by rewrite list_lookup_total_insert_ne by done.
Qed.

Lemma step_ok s : Inv None s -> call_stack s <> [] ->
  exists s', step n adj_start adj s = Some s' /\ Inv None s' /\ (work s' < work s)%nat /\
    forall v, visited s v -> visited s' v.
Proof.
  intros I Hne. unfold step. destruct (call_stack s) as [|[v ei] cs] eqn:Ecs; [done|].
  assert (Hg : gray s v) by (unfold gray; rewrite Ecs; left).
  assert (Hv : (v < n)%nat) by (eapply stack_lt; eauto using I_gstk).
  rewrite rd_total by (destruct L as (-> & _); lia). cbn [mbind option_bind].
  rewrite (Nat.add_1_r v). pose proof (I_len _ _ I) as (Hld & _).
  destruct (Nat.ltb_spec ei (adj_start !!! S v)) as [Hlt|Hge].
  - destruct (visit_edge_ok s v ei cs I Ecs Hlt) as (s' & -> & I' & Hshape).
    exists s'. split_and!; try done.
    + unfold work. rewrite Ecs. destruct Hshape as [[-> ->]|(w & Hw & Hd & -> & ->)]; cbn [sum_list_with].
      * unfold frame_work. cbn. lia.
      * pose proof (timer_lt _ _ _ I Hw Hd). pose proof (I_timer _ _ I).
        rewrite <- (work_enter (disc s) w (timer s)) by (done || mi).
        unfold frame_work. cbn. lia.
    + intros x [Hx Hdx]. split; [done|]. unfold D in *.
      destruct Hshape as [[_ ->]|(w & Hw & Hd & -> & _)]; [done|].
      rewrite upd_total by lia. pose proof (timer_lt _ _ _ I Hw Hd).
      pose proof (I_timer _ _ I). case_decide; [mi|done].
  - destruct (leave_ok s v ei cs I Ecs Hge) as (s1 & s' & -> & Hlv & I' & Hcs & Hds).
    cbn [mbind option_bind]. exists s'. split_and!; try done.
    + unfold work. rewrite Hcs, Hds, Ecs. cbn [sum_list_with]. unfold frame_work at 2. lia.
    + intros x. unfold visited, D. by rewrite Hds.
Qed.

Lemma while_ok fuel : forall s, Inv None s -> (work s <= fuel)%nat ->
  exists s', while_call n adj_start adj fuel s = Some s' /\ Inv None s' /\ call_stack s' = [] /\
    forall v, visited s v -> visited s' v.
Proof.
  induction fuel as [|f IH]; intros s I Hw.
  - cbn. destruct (call_stack s) as [|fr cs] eqn:E; [by exists s|].
    unfold work in Hw. rewrite E in Hw. cbn in Hw. unfold frame_work in Hw. lia.
  - cbn [while_call]. destruct (call_stack s) as [|fr cs] eqn:E; [by exists s|].
    destruct (step_ok s I) as (s1 & -> & I1 & Hlt & Hvis); [by rewrite E|].
    cbn [mbind option_bind]. destruct (IH s1 I1 ltac:(lia)) as (s' & -> & I' & Hc & Hv').
    exists s'. split_and!; auto.
Qed.

(** With no open node the stack is empty: every node is in a component. *)
Lemma idle_stack s : Inv None s -> call_stack s = [] -> stack s = [].
Proof.
  intros I Hc. destruct (stack s) as [|x st'] eqn:E; [done|exfalso].
  assert (Hk : forall k y, y ∈ stack s -> (Z.to_nat (D s y) < k)%nat -> False).
  { induction k as [|k IH]; intros y Hy Hd; [lia|].
    destruct (I_black _ _ I y Hy) as (u & Hu & Hlt & _).
    { unfold gray. rewrite Hc. apply not_elem_of_nil. }
    apply (IH u Hu). pose proof (I_disc _ _ I u (I_svis _ _ I u Hu)). lia. }
  apply (Hk (S (Z.to_nat (D s x))) x); [rewrite E; left|lia].
Qed.

Lemma work_bound dl : (sum_list_with (node_work dl) (seq 0 n) <= n + total)%nat.
Proof.
  destruct L as (_ & Ht & Hm). rewrite <- Ht.
  enough (forall k, (k <= n)%nat -> (sum_list_with (node_work dl) (seq 0 k) + adj_start !!! O
            <= k + adj_start !!! k)%nat) as H by (specialize (H n); lia).
  induction k as [|k IH]; intros Hk; [cbn; lia|].
  rewrite seq_S, sum_list_with_app. cbn. specialize (IH ltac:(lia)). specialize (Hm k ltac:(lia)).
  unfold node_work at 2, deg. case_decide; lia.
Qed.

Lemma roots_ok starts : forall s, Inv None s -> call_stack s = [] ->
  (forall x, x ∈ starts -> (x < n)%nat) ->
  exists s', roots n adj_start adj starts s = Some s' /\ Inv None s' /\ call_stack s' = [] /\
    (forall v, visited s v \/ v ∈ starts -> visited s' v).
Proof.
  induction starts as [|x rest IH]; intros s I Hc Hlt; cbn [roots].
  { exists s. split_and!; auto. intros v [|Hv]; [done|]. by apply elem_of_nil in Hv. }
  assert (Hx : (x < n)%nat) by (apply Hlt; left).
  rewrite (disc_read _ _ _ I Hx). cbn [mbind option_bind].
  destruct (Z.eqb_spec (D s x) UINT32_MAX) as [Hd|Hd]; cbn [negb].
  - assert (I0 : Inv (Some x) s).
    { destruct I. constructor; try done. intros a b Hab. left. by destruct (I_proc0 a b Hab). }
    rewrite (enter_eval x s I0 Hx Hd). cbn [mbind option_bind].
    assert (Hng : forall g, gray s g -> False) by (intros g; unfold gray; rewrite Hc; apply not_elem_of_nil).
    assert (I1 : Inv None (entered x s)).
    { apply enter_inv; try done. intros g Hg. by destruct (Hng g). }
    pose proof (timer_lt _ _ _ I Hx Hd). pose proof (I_timer _ _ I).
    destruct (while_ok (n + length adj) (entered x s) I1) as (s2 & -> & I2 & Hc2 & Hv2).
    { unfold work. cbn [disc call_stack entered]. rewrite Hc. cbn [sum_list_with].
      rewrite Nat.add_0_r, work_enter, Hadj; try done.
      - pose proof (work_bound (disc s)). lia.
      - by destruct (I_len _ _ I).
      - mi. }
    cbn [mbind option_bind]. destruct (IH s2 I2 Hc2) as (s' & -> & I' & Hc' & Hv').
    { intros y Hy. apply Hlt. by right. }
    exists s'. split_and!; auto. intros v Hv. apply Hv'.
    assert (Hold : forall y, visited s y -> visited s2 y).
    { intros y Hy. apply Hv2. apply ent_visited; auto. }
    destruct Hv as [Hv|[->|Hv]%elem_of_cons]; [left; auto| |by right].
    left. apply Hv2, ent_visited; auto.
  - destruct (IH s I Hc) as (s' & -> & I' & Hc' & Hv').
    { intros y Hy. apply Hlt. by right. }
    exists s'. split_and!; auto. intros v [Hv|[->|Hv]%elem_of_cons]; apply Hv'; auto.
    by left.
Qed.

End Graph.

(** ** From the arrays back to the edge list *)

Definition G (n : nat) (es : list (nat * nat)) (u v : nat) : Prop :=
  (u, v) ∈ es /\ (u < n)%nat /\ (v < n)%nat.

Lemma elem_of_succs n es u v : v ∈ succs n es u <-> G n es u v.
Proof.
  unfold succs, G. rewrite list_elem_of_fmap. split.
  - intros ([a b] & -> & Hin). apply list_elem_of_filter in Hin as [[Hok <-] Hin].
    apply edge_ok_lt in Hok as [? ?]. done.
  - intros (Hin & Hu & Hv). exists (u, v). split; [done|]. apply list_elem_of_filter.
    split_and!; [|done|done]. unfold edge_ok. cbn.
    apply andb_true_iff. split; by apply Nat.ltb_lt.
Qed.

Lemma E_iff_G n es start adj total : layout n start total ->
  (forall v, (v < n)%nat ->
     start !!! S v = (start !!! v + length (succs n es v))%nat /\
     forall k, (k < length (succs n es v))%nat -> adj !!! (start !!! v + k)%nat = succs n es v !!! k) ->
  forall u v, E n start adj u v <-> G n es u v.
Proof.
  intros L H u v. rewrite <- elem_of_succs. unfold E, slice. split.
  - intros (i & Hu & Hi & <-). destruct (H u Hu) as [Hs Hk].
    replace i with (start !!! u + (i - start !!! u))%nat by lia.
    rewrite Hk by lia. apply list_elem_of_lookup. exists (i - start !!! u)%nat.
    apply list_lookup_lookup_total_lt. lia.
  - intros Hin. assert (Hu : (u < n)%nat) by (by apply elem_of_succs in Hin as (_ & ? & _)).
    apply list_elem_of_lookup in Hin as [k Hk]. destruct (H u Hu) as [Hs Hval].
    pose proof (lookup_lt_Some _ _ _ Hk). exists (start !!! u + k)%nat.
    split_and!; [done|lia|lia|]. rewrite Hval by done. by apply list_lookup_total_correct.
Qed.

(** What the pipeline needs from a component search: one number per node,
    equal exactly on mutually reachable nodes, dense, and numbered so that an
    edge never goes to a larger number. *)
Record scc_spec (n : nat) (es : list (nat * nat)) (r : scc_result) : Prop := {
  spec_len : length (r_scc_id r) = n;
  spec_range : forall v, (v < n)%nat -> (r_scc_id r !!! v < r_scc_count r)%nat;
  spec_same : forall u v, (u < n)%nat -> (v < n)%nat ->
    r_scc_id r !!! u = r_scc_id r !!! v <-> rtc (G n es) u v /\ rtc (G n es) v u;
  spec_order : forall u v, G n es u v -> (r_scc_id r !!! v <= r_scc_id r !!! u)%nat;
  spec_dense : forall c, (c < r_scc_count r)%nat ->
    exists v, (v < n)%nat /\ r_scc_id r !!! v = c }.

Lemma scc_detect_ok n es : (0 < n)%nat -> Z.of_nat n < UINT32_MAX ->
  exists r, scc_detect true n es = Some (Some r) /\ scc_spec n es r.
Proof.
  intros H0 Hn. unfold scc_detect. destruct (Nat.eqb_spec n 0); [lia|]. cbn [negb].
  destruct (build_adj_ok n es Hn) as (start & adj & total & -> & L & Hlen & Hval). apply Z.lt_le_incl in Hn.
  cbn [mbind option_bind]. pose proof (E_iff_G n es start adj total L Hval) as HE.
  assert (Htgt : forall v i, (v < n)%nat -> (start !!! v <= i < start !!! S v)%nat ->
                 (adj !!! i < n)%nat).
  { intros v i Hv Hi. assert (Hs : E n start adj v (adj !!! i)) by (by exists i).
    by apply HE in Hs as (_ & _ & ?). }
  destruct (roots_ok n start adj total L Hlen Htgt Hn (seq 0 n) (init n))
    as (s & -> & I & Hc & Hv);
    [by eapply init_inv|done|intros x Hx; apply elem_of_seq in Hx; lia|].
  cbn [mbind option_bind]. eexists. split; [done|].
  assert (Hst : stack s = []) by (eapply idle_stack; eauto).
  assert (Hfin : forall v, (v < n)%nat -> finished n s v).
  { intros v Hlt. split; [apply Hv; right; apply elem_of_seq; lia|].
    rewrite Hst. apply not_elem_of_nil. }
  assert (Hr : forall u v, reach n start adj u v <-> rtc (G n es) u v).
  { intros u v. split; apply rtc_subrel; intros a b; apply HE. }
  constructor; cbn.
  - apply (I_len _ _ _ _ _ I).
  - intros v Hlt. by apply (I_cnt _ _ _ _ _ I), Hfin.
  - intros u v Hu Hlt. rewrite <- !Hr. apply (I_scc _ _ _ _ _ I); auto.
  - intros u v Huv. apply (I_closed _ _ _ _ _ I u v); [|by apply HE].
    apply Hfin. apply Huv.
  - intros c Hcc. destruct (I_dense _ _ _ _ _ I c Hcc) as (x & Hx & Hxc).
    exists x. split; [apply Hx|done].
Qed.

(** ** Properties *)

(** C1: When its allocations succeed, the component search is memory safe,
    terminates and is correct for every dependency graph with 1 to
    UINT32_MAX - 1 nodes and at most UINT32_MAX edges, out-of-range edges
    included: it numbers two nodes alike exactly when each reaches the other,
    uses every number below the component count, and never numbers the target
    of an edge above its source, so components come in execution order. *)
Theorem scc_detect_correct (n : nat) (es : list (nat * nat))
  (H0 : (0 < n)%nat) (Hn : Z.of_nat n < UINT32_MAX) (He : Z.of_nat (length es) <= UINT32_MAX) :
  exists r, scc_detect true n es = Some (Some r) /\ scc_spec n es r.
Proof. by apply scc_detect_ok. Qed.

Lemma scc_detect_correct_witness :
  exists r, scc_detect true 3 [(0, 1); (1, 0); (2, 1); (5, 2)]%nat = Some (Some r) /\
    scc_spec 3 [(0, 1); (1, 0); (2, 1); (5, 2)]%nat r.
Proof. apply (scc_detect_correct 3 [(0, 1); (1, 0); (2, 1); (5, 2)]%nat); [lia|by vm_compute|by vm_compute]. Defined.

(** With UINT32_MAX nodes the number of cells of adj_start wraps to 0, and its
    first store is out of bounds. *)
Theorem adj_start_wraps (n : nat) (es : list (nat * nat)) : Z.of_nat n = UINT32_MAX -> build_adj n es = None.
Proof.
  intros Hn. unfold build_adj. destruct (count_out_ok n es (replicate n 0%nat)) as (cnt & -> & _); [apply length_replicate|].
  cbn [mbind option_bind]. rewrite Hn. done.
Qed.

End TarjanProof.
