(* ===== verification/Stratify.v ===== *)
(** * Dependency graph and stratification (wirelog/ir/stratify.c)

    The dependency graph of a program, extracted from its rules' IR trees, and
    the pipeline that turns the components of that graph into strata.  A
    function that can fail returns its C return code; [None] is an access
    outside an allocation.  Each allocation asks the oracle [alloc], so that
    every out-of-memory exit is a branch of the model.  [SIZE] bounds below are
    those of the source's uint32_t counters. *)
From stdpp Require Import relations sorting.
From S2P Require Import Prelude Tarjan TarjanProof.
Import Tarjan TarjanProof.

Module Strat.

(** wirelog_ir_node_type_t *)
Inductive ir_type :=
  | IR_SCAN | IR_PROJECT | IR_FILTER | IR_JOIN | IR_FLATMAP | IR_AGGREGATE
  | IR_ANTIJOIN | IR_UNION | IR_SEMIJOIN | IR_COMPOUND_INLINE | IR_COMPOUND_SIDE.

(** The part of wirelog_ir_node_t that the walk reads. *)
Inductive ir_node := Node (type : ir_type) (relation_name : option string) (children : list ir_node).

Inductive dep_type := DEP_POSITIVE | DEP_NEGATION | DEP_AGGREGATION.
#[export] Instance dep_type_eq_dec : EqDecision dep_type.
Proof. solve_decision. Defined.

Record dep_edge := Edge { from : nat; to : nat; type : dep_type }.

(** wl_ir_stratify_dep_graph_t; relation_count and edge_count are the lengths. *)
Record dep_graph := Graph {
  relation_map : list nat;
  edges : list dep_edge;
  edge_capacity : Z }.

Record rule := Rule { head_relation : option string; ir_root : option ir_node }.

(** wirelog_stratum_t; a NULL rule_names array is the empty list, a NULL entry
    is [None]. *)
Record stratum := Stratum {
  stratum_id : nat;
  rule_names : list (option string);
  rule_count : nat;
  is_recursive : bool }.

(** The part of struct wirelog_program that stratification reads and writes. *)
Record program := Program {
  relations : list string;
  rules : list rule;
  strata : list stratum;
  is_stratified : bool }.

(** Allocation sites. *)
Inductive site :=
  | SGraph | SFlags | SMap | SEdges (cap : Z) | SScc | SStratumId | SStrata
  | SRulesPer | SRuleStratum | SNames (s : nat) | SFillIdx | SSccSize
  | SDefault | SDefaultNames.

Definition EDGE_INITIAL_CAPACITY : Z := 16.

Section Pipeline.
Variable alloc : site -> bool.

(** [graph_find_relation]; [None] is UINT32_MAX. *)
Definition graph_find_relation (map : list nat) (rels : list string) (name : string) : option nat :=
  fst <$> list_find (fun ri => rels !! ri = Some name) map.

Definition graph_add_edge (g : dep_graph) (e : dep_edge) : option (Z * dep_graph) :=
  let count := Z.of_nat (length (edges g)) in
  let new_cap := if edge_capacity g =? 0 then EDGE_INITIAL_CAPACITY
                 else u32 (edge_capacity g * 2) in
  let grow := count >=? edge_capacity g in
  if grow && negb (alloc (SEdges new_cap)) then Some (-1, g)
  else
    let cap := if grow then new_cap else edge_capacity g in
    if count <? cap
    then Some (0, {| relation_map := relation_map g; edges := edges g ++ [e];
                     edge_capacity := cap |})
    else None.

Section Walk.
Variables (rels : list string) (head_gi : nat).

(** The SCAN case. *)
Definition walk_scan (rel : option string) (dep : dep_type) (g : dep_graph)
  : option (Z * dep_graph) :=
  match rel with
  | None => Some (0, g)
  | Some name =>
      match graph_find_relation (relation_map g) rels name with
      | None => Some (0, g)
      | Some to_gi =>
          '(rc, g') ← graph_add_edge g (Edge head_gi to_gi dep);
          Some (if rc =? 0 then 0 else -1, g')
      end
  end.

Fixpoint walk_ir_tree (node : ir_node) (dep : dep_type) (g : dep_graph) {struct node}
  : option (Z * dep_graph) :=
  let fix walk_all (l : list ir_node) (d : dep_type) (g : dep_graph) {struct l}
    : option (Z * dep_graph) :=
    match l with
    | [] => Some (0, g)
    | c :: rest =>
        '(rc, g1) ← walk_ir_tree c d g;
        if rc =? 0 then walk_all rest d g1 else Some (-1, g1)
    end in
  match node with
  | Node ty rel ch =>
      match ty with
      | IR_SCAN | IR_COMPOUND_INLINE | IR_COMPOUND_SIDE => walk_scan rel dep g
      | IR_ANTIJOIN =>
          match ch with
          | [] => Some (0, g)
          | c0 :: rest =>
              '(rc, g1) ← walk_ir_tree c0 dep g;
              if rc =? 0 then
                match rest with
                | [] => Some (0, g1)
                | c1 :: _ =>
                    '(rc1, g2) ← walk_ir_tree c1 DEP_NEGATION g1;
                    Some (if rc1 =? 0 then 0 else -1, g2)
                end
              else Some (-1, g1)
          end
      | IR_AGGREGATE => walk_all ch DEP_AGGREGATION g
      | _ => walk_all ch dep g
      end
  end.

End Walk.

(** Step 1 of the build: flag the first relation of each head's name. *)
Definition mark_idb (rels : list string) (rs : list rule) : list bool :=
  foldl (fun flags r =>
    match head_relation r with
    | None => flags
    | Some h => match list_find (fun n => n = h) rels with
                | Some (i, _) => <[i := true]> flags
                | None => flags
                end
    end) (replicate (length rels) false) rs.

(** Indices of the flagged relations, in order. *)
Definition flagged (flags : list bool) : list nat :=
  filter (fun i => flags !! i = Some true) (seq 0 (length flags)).

(** Step 2: walk each rule. *)
Fixpoint walk_rules (rels : list string) (rs : list rule) (g : dep_graph) : option (Z * dep_graph) :=
  match rs with
  | [] => Some (0, g)
  | r :: rest =>
      match head_relation r with
      | None => walk_rules rels rest g
      | Some h =>
          match graph_find_relation (relation_map g) rels h with
          | None => walk_rules rels rest g
          | Some head_gi =>
              match ir_root r with
              | None => walk_rules rels rest g
              | Some root =>
                  '(rc, g1) ← walk_ir_tree rels head_gi root DEP_POSITIVE g;
                  if rc =? 0 then walk_rules rels rest g1 else Some (-1, g1)
              end
          end
      end
  end.

(** [wl_ir_stratify_dep_graph_build_ex] *)
Definition dep_graph_build_ex (p : program) : option (Z * option dep_graph) :=
  if (length (rules p) =? 0)%nat then Some (0, None)
  else if negb (alloc SGraph) then Some (-1, None)
  else if negb (alloc SFlags) then Some (-1, None)
  else
    let map := flagged (mark_idb (relations p) (rules p)) in
    if (length map =? 0)%nat then Some (0, None)
    else if negb (alloc SMap) then Some (-1, None)
    else
      '(rc, g) ← walk_rules (relations p) (rules p) (Graph map [] 0);
      Some (if rc =? 0 then (0, Some g) else (-1, None)).

(** [wl_ir_stratify_dep_graph_build] *)
Definition dep_graph_build (p : program) : option (option dep_graph) :=
  '(rc, g) ← dep_graph_build_ex p; Some (if rc =? 0 then g else None).

(** [wl_ir_program_build_default_stratum] *)
Definition build_default_stratum (p : program) : program :=
  if negb (alloc SDefault) then Program (relations p) (rules p) [] (is_stratified p)
  else
    Program (relations p) (rules p)
      [Stratum 0 (if (0 <? length (rules p))%nat && alloc SDefaultNames
                  then head_relation <$> rules p else [])
         (length (rules p)) false]
      (is_stratified p).

Definition set_recursive (b : bool) (s : stratum) : stratum :=
  Stratum (stratum_id s) (rule_names s) (rule_count s) b.

(** [wl_ir_stratify_mark_recursive_strata] *)
Definition mark_recursive_strata (g : dep_graph) (r : scc_result) (sts : list stratum)
  : list stratum :=
  let n := length (relation_map g) in
  let num := length sts in
  if negb (alloc SSccSize) then sts
  else
    let size := foldl (fun sz s => if (s <? num)%nat then <[s := S (sz !!! s)]> sz else sz)
                  (replicate num O) (take n (r_scc_id r)) in
    let sts1 := imap (fun s st => set_recursive (1 <? size !!! s)%nat st) sts in
    foldl (fun sts e =>
      if negb ((from e <? n) && (to e <? n))%nat then sts
      else if (from e =? to e)%nat &&
              (bool_decide (type e = DEP_POSITIVE) || bool_decide (type e = DEP_AGGREGATION))
      then alter (set_recursive true) (r_scc_id r !!! from e) sts
      else sts) sts1 (edges g).

(** Step 4: a negation edge inside one component. *)
Definition negation_cycle (n : nat) (ids : list nat) (es : list dep_edge) : bool :=
  existsb (fun e => bool_decide (type e = DEP_NEGATION) && (from e <? n)%nat && (to e <? n)%nat
                    && (ids !!! from e =? ids !!! to e)%nat) es.

(** The two passes over the rules of step 5: [rule_stratum] and
    [rules_per_stratum], both zero-initialised. *)
Fixpoint assign_rules (map : list nat) (rels : list string) (sid : list nat) (rs : list rule)
    (per : list nat) : option (list nat * list nat) :=
  match rs with
  | [] => Some ([], per)
  | r :: rest =>
      match h ← head_relation r; graph_find_relation map rels h with
      | None =>
          '(rstr, per') ← assign_rules map rels sid rest per; Some (O :: rstr, per')
      | Some gi =>
          s ← rd sid gi;
          c ← rd per s;
          per1 ← wr per s (S c);
          '(rstr, per') ← assign_rules map rels sid rest per1; Some (s :: rstr, per')
      end
  end.

(** The fill loop: [fill_idx] and the rule_names arrays. *)
Fixpoint fill_names (rs : list rule) (rstr : list nat) (per fidx : list nat)
    (names : list (list (option string))) : option (list (list (option string))) :=
  match rs, rstr with
  | r :: rs', s :: rstr' =>
      match head_relation r with
      | None => fill_names rs' rstr' per fidx names
      | Some h =>
          if (s <? length names)%nat then
            arr ← rd names s; i ← rd fidx s; c ← rd per s;
            if negb (bool_decide (arr = [])) && (i <? c)%nat then
              arr' ← wr arr i (Some h);
              names' ← wr names s arr';
              fidx' ← wr fidx s (S i);
              fill_names rs' rstr' per fidx' names'
            else fill_names rs' rstr' per fidx names
          else fill_names rs' rstr' per fidx names
      end
  | _, _ => Some names
  end.

(** One rule_names array per stratum with rules, from stratum [s] on; on a
    failed allocation the remaining strata keep NULL. *)
Fixpoint alloc_names (s : nat) (per : list nat) : list (list (option string)) * bool :=
  match per with
  | [] => ([], true)
  | c :: rest =>
      if (0 <? c)%nat && negb (alloc (SNames s)) then (replicate (length per) [], false)
      else let '(names, ok) := alloc_names (S s) rest in (replicate c None :: names, ok)
  end.

Definition with_strata (p : program) (sts : list stratum) (ok : bool) : program :=
  Program (relations p) (rules p) sts ok.

Definition fresh_strata (num : nat) : list stratum :=
  (fun s => Stratum s [] 0 false) <$> seq 0 num.

Definition strata_of (names : list (list (option string))) (counts : list nat) : list stratum :=
  imap (fun s nc => Stratum s nc.1 nc.2 false) (zip names counts).

(** Steps 5 and 6, once the components are accepted. *)
Definition assign_strata (p : program) (g : dep_graph) (r : scc_result) : option (Z * program) :=
  let num := r_scc_count r in
  if negb (alloc SStrata) then Some (-1, with_strata p [] (is_stratified p))
  else
    let sts0 := fresh_strata num in
    if negb (alloc SRulesPer) then Some (-1, with_strata p sts0 (is_stratified p))
    else if negb (alloc SRuleStratum) then Some (-1, with_strata p sts0 (is_stratified p))
    else
      '(rstr, per) ← assign_rules (relation_map g) (relations p) (r_scc_id r) (rules p)
                       (replicate num O);
      let '(names0, ok) := alloc_names 0 per in
      if negb ok || negb (alloc SFillIdx)
      then Some (-1, with_strata p (strata_of names0 (replicate num O)) (is_stratified p))
      else
        names ← fill_names (rules p) rstr per (replicate num O) names0;
        Some (0, with_strata p (mark_recursive_strata g r (strata_of names per)) true).

(** [wl_ir_stratify_program] *)
Definition stratify_program (p : program) : option (Z * program) :=
  if (length (rules p) =? 0)%nat
  then let d := build_default_stratum p in Some (0, with_strata d (strata d) true)
  else
    '(rc, og) ← dep_graph_build_ex p;
    if negb (rc =? 0) then Some (-1, p)
    else
      match og with
      | None => let d := build_default_stratum p in Some (0, with_strata d (strata d) true)
      | Some g =>
          let n := length (relation_map g) in
          oscc ← scc_detect (alloc SScc) n ((fun e => (from e, to e)) <$> edges g);
          match oscc with
          | None => Some (-1, p)
          | Some r =>
              if negb (alloc SStratumId) then Some (-1, p)
              else if negation_cycle n (r_scc_id r) (edges g) then Some (-2, p)
              else assign_strata p g r
          end
      end.

End Pipeline.

(** ** Examples *)

Definition scan (r : string) : ir_node := Node IR_SCAN (Some r) [].

Definition win_move : program :=
  Program ["move"; "win"; "reach"]
    [Rule (Some "reach") (Some (scan "move"));
     Rule (Some "reach") (Some (Node IR_JOIN None [scan "reach"; scan "move"]));
     Rule (Some "win") (Some (Node IR_ANTIJOIN None [scan "move"; scan "reach"]))] [] false.

Example win_move_strata :
  exists p, stratify_program (fun _ => true) win_move = Some (0, p) /\
    strata p = [Stratum 0 [Some "reach"; Some "reach"] 2 true; Stratum 1 [Some "win"] 1 false].
Proof. eexists. by vm_compute. Qed.

Definition win_lose : program :=
  Program ["move"; "win"]
    [Rule (Some "win") (Some (Node IR_ANTIJOIN None [scan "move"; scan "win"]))] [] false.

Example win_lose_rejected : stratify_program (fun _ => true) win_lose = Some (-2, win_lose).
Proof. by vm_compute. Qed.

End Strat.
