(* ===== verification/StratifyProof.v ===== *)
(** * Correctness of stratification

    [Strat.stratify_program] against an abstract specification stated on
    relation names: the dependencies that the rules' trees contain, reachability
    along them, and the classical criterion that no negated dependency lies on
    a cycle. *)
From stdpp Require Import relations sorting.
From S2P Require Import Prelude Tarjan TarjanProof Stratify.
Import Tarjan TarjanProof Strat.

Module StratifyProof.

(** ** Specification *)

(** The relations a tree refers to, with the kind of each dependency. *)
Fixpoint refs (dep : dep_type) (node : ir_node) : list (string * dep_type) :=
  match node with
  | Node ty rel ch =>
      match ty with
      | IR_SCAN | IR_COMPOUND_INLINE | IR_COMPOUND_SIDE =>
          match rel with Some nm => [(nm, dep)] | None => [] end
      | IR_ANTIJOIN =>
          match ch with
          | [] => []
          | [c0] => refs dep c0
          | c0 :: c1 :: _ => refs dep c0 ++ refs DEP_NEGATION c1
          end
      | IR_AGGREGATE => concat (refs DEP_AGGREGATION <$> ch)
      | _ => concat (refs dep <$> ch)
      end
  end.

Definition rule_refs (r : rule) : list (string * dep_type) :=
  match head_relation r, ir_root r with
  | Some _, Some root => refs DEP_POSITIVE root
  | _, _ => []
  end.

(** A derived relation: declared, and the head of some rule. *)
Definition idb (p : program) (a : string) : Prop :=
  a ∈ relations p /\ exists r, r ∈ rules p /\ head_relation r = Some a.

Definition depends (p : program) (t : dep_type) (a b : string) : Prop :=
  idb p a /\ idb p b /\
  exists r, r ∈ rules p /\ head_relation r = Some a /\ (b, t) ∈ rule_refs r.

Definition dep_any (p : program) (a b : string) : Prop := exists t, depends p t a b.

(** No negated dependency lies on a cycle. *)
Definition stratifiable (p : program) : Prop :=
  forall a b, depends p DEP_NEGATION a b -> ~ rtc (dep_any p) b a.

(** ** Walking the trees *)

Lemma ir_node_nested_ind (P : ir_node -> Prop)
  (step : forall ty rel ch, Forall P ch -> P (Node ty rel ch)) : forall t, P t.
Proof.
  fix IH 1. intros [ty rel ch]. apply step.
  induction ch as [|c ch IHch]; constructor; [apply IH|apply IHch].
Qed.

Section Walk.
Variable alloc : site -> bool.

(** The edge array is empty or has a power-of-two capacity that the counter's
    width can hold. *)
Definition cap_ok (g : dep_graph) : Prop :=
  (edge_capacity g = 0 /\ edges g = []) \/
  exists k, 4 <= k <= 31 /\ edge_capacity g = 2 ^ k /\ Z.of_nat (length (edges g)) <= 2 ^ k.

(** [res] is the outcome of a walk that meets the dependencies [new]. *)
Definition walked (g : dep_graph) (new : list dep_edge) (res : option (Z * dep_graph)) : Prop :=
  cap_ok g -> Z.of_nat (length (edges g) + length new) <= 2 ^ 31 ->
  exists rc g', res = Some (rc, g') /\ relation_map g' = relation_map g /\
    (rc = 0 /\ cap_ok g' /\ edges g' = edges g ++ new \/
     rc = -1 /\ exists c, alloc (SEdges c) = false).

Lemma add_edge_walked g e : walked g [e] (graph_add_edge alloc g e).
Proof.
  intros Hc Hb. unfold graph_add_edge. rewrite Nat2Z.inj_add in Hb. cbn in Hb.
  destruct Hc as [[Hc Hn]|(k & Hk & Hc & Hl)]; rewrite Hc.
  - rewrite Hn. cbn. destruct (alloc _) eqn:Ha; cbn.
    + do 2 eexists. split; [done|]. split; [done|]. left. split_and!; [done| |done].
      right. exists 4. cbn. split_and!; [lia|lia|done|lia].
    + do 2 eexists. split; [done|]. split; [done|]. right. eauto.
  - assert (H2 : 2 ^ 4 <= 2 ^ k <= 2 ^ 31) by (split; apply Z.pow_le_mono_r; lia).
    destruct (Z.eqb_spec (2 ^ k) 0); [lia|].
    destruct (Z.geb_spec (Z.of_nat (length (edges g))) (2 ^ k)); cbn [andb].
    + destruct (decide (k = 31)) as [->|Hk']; [lia|].
      assert (Hs : u32 (2 ^ k * 2) = 2 ^ (k + 1)).
      { rewrite Z.pow_add_r, Z.pow_1_r by lia. apply u32_small.
        assert (2 ^ k <= 2 ^ 30) by (apply Z.pow_le_mono_r; lia). mi. }
      rewrite Hs. destruct (alloc _) eqn:Ha; cbn [negb].
      * rewrite (proj2 (Z.ltb_lt _ _)) by (rewrite Z.pow_add_r, Z.pow_1_r; lia).
        do 2 eexists. split; [done|]. split; [done|]. left. split_and!; [done| |done].
        right. exists (k + 1). cbn. rewrite length_app. cbn. split_and!; [lia|lia|done|].
        rewrite Z.pow_add_r, Z.pow_1_r by lia. lia.
      * do 2 eexists. split; [done|]. split; [done|]. right. eauto.
    + rewrite (proj2 (Z.ltb_lt _ _)) by lia.
      do 2 eexists. split; [done|]. split; [done|]. left. split_and!; [done| |done].
      right. exists k. cbn. rewrite length_app. cbn. split_and!; [lia|lia|done|lia].
Qed.

Lemma walked_nil g : walked g [] (Some (0, g)).
Proof.
  intros Hc _. do 2 eexists. split; [done|]. split; [done|]. left.
  rewrite app_nil_r. done.
Qed.

(** A walk followed by another one. *)
Lemma walked_bind g n1 n2 r1 (k : dep_graph -> option (Z * dep_graph)) :
  walked g n1 r1 ->
  (forall g1, relation_map g1 = relation_map g -> walked g1 n2 (k g1)) ->
  walked g (n1 ++ n2) ('(rc, g1) ← r1; if rc =? 0 then k g1 else Some (-1, g1)).
Proof.
  intros H1 H2 Hc Hb. rewrite length_app in Hb.
  destruct (H1 Hc ltac:(lia)) as (rc & g1 & -> & Hm & [(-> & Hc1 & He)|(-> & Ha)]); cbn.
  - destruct (H2 g1 Hm Hc1) as (rc & g2 & -> & Hm2 & H); [rewrite He, length_app; lia|].
    do 2 eexists. split; [done|]. split; [congruence|].
    destruct H as [(-> & Hc2 & He2)|H]; [left|by right].
    split_and!; [done..|]. by rewrite He2, He, app_assoc.
  - do 2 eexists. split; [done|]. split; [done|]. right. eauto.
Qed.

(** The last call of a walk, whose code is turned into 0 or -1. *)
Lemma walked_last g n r :
  walked g n r -> walked g n ('(rc, g1) ← r; Some (if rc =? 0 then 0 else -1, g1)).
Proof.
  intros H1 Hc Hb.
  destruct (H1 Hc Hb) as (rc & g1 & -> & Hm & [(-> & Hc1 & He)|(-> & Ha)]); cbn;
    do 2 eexists; (split; [done|]); (split; [done|]); eauto.
Qed.

Variable rels : list string.

(** The edge of a reference, when both ends are graph nodes. *)
Definition resolve (map : list nat) (h : nat) (x : string * dep_type) : option dep_edge :=
  w ← graph_find_relation map rels x.1; Some (Edge h w x.2).

Lemma walk_tree_walked h node : forall dep g,
  walked g (omap (resolve (relation_map g) h) (refs dep node)) (walk_ir_tree alloc rels h node dep g).
Proof.
  induction node as [ty rel ch IH] using ir_node_nested_ind.
  assert (Hall : forall d g,
    walked g (omap (resolve (relation_map g) h) (concat (refs d <$> ch)))
      ((fix walk_all (l : list ir_node) (d : dep_type) (g : dep_graph) {struct l} :=
         match l with
         | [] => Some (0, g)
         | c :: rest => '(rc, g1) ← walk_ir_tree alloc rels h c d g;
                        if rc =? 0 then walk_all rest d g1 else Some (-1, g1)
         end) ch d g)).
  { clear ty rel. intros d. induction IH as [|c ch Hc _ IHch]; intros g; [apply walked_nil|].
    cbn [fmap list_fmap concat]. rewrite omap_app. apply walked_bind; [apply Hc|].
    intros g1 <-. apply IHch. }
  assert (Hscan : forall dep g, walked g
    (omap (resolve (relation_map g) h) (match rel with Some nm => [(nm, dep)] | None => [] end))
    (walk_scan alloc rels h rel dep g)).
  { intros dep g. unfold walk_scan. destruct rel as [nm|]; [|apply walked_nil].
    cbn. unfold resolve. cbn. destruct (graph_find_relation _ _ _); cbn; [|apply walked_nil].
    apply walked_last, add_edge_walked. }
  intros dep g. destruct ty; cbn [refs walk_ir_tree]; try apply Hall; try apply Hscan.
  destruct IH as [|c0 ch H0 IH]; [apply walked_nil|].
  destruct IH as [|c1 ch H1 IH].
  - rewrite <- (app_nil_r (omap _ _)). apply walked_bind; [apply H0|]. intros. apply walked_nil.
  - rewrite omap_app. apply walked_bind; [apply H0|]. intros g1 <-. apply walked_last, H1.
Qed.

(** The edges that one rule contributes. *)
Definition rule_edges (map : list nat) (r : rule) : list dep_edge :=
  match h ← head_relation r; graph_find_relation map rels h with
  | Some gi => omap (resolve map gi) (rule_refs r)
  | None => []
  end.

Lemma walk_rules_walked rs : forall g,
  walked g (concat (rule_edges (relation_map g) <$> rs)) (walk_rules alloc rels rs g).
Proof.
  induction rs as [|r rs IH]; intros g; cbn; [apply walked_nil|].
  unfold rule_edges at 1, rule_refs. destruct (head_relation r) as [h|]; cbn; [|apply IH].
  destruct (graph_find_relation _ _ _) as [gi|]; [|apply IH].
  destruct (ir_root r) as [root|]; cbn; [|apply IH].
  apply walked_bind; [apply walk_tree_walked|]. intros g1 <-. apply IH.
Qed.

End Walk.

(** ** Graph nodes and relation names *)

Definition mark_step (rels : list string) (flags : list bool) (r : rule) : list bool :=
  match head_relation r with
  | None => flags
  | Some h => match list_find (fun n => n = h) rels with
              | Some (i, _) => <[i := true]> flags
              | None => flags
              end
  end.

Lemma mark_step_length rels flags r : length (mark_step rels flags r) = length flags.
Proof. unfold mark_step. repeat case_match; rewrite ?length_insert; done. Qed.

(** Index [i] is the first one that carries the name [a]. *)
Definition first_at (rels : list string) (i : nat) (a : string) : Prop :=
  list_find (fun n => n = a) rels = Some (i, a).

Lemma mark_step_true rels flags r i : (i < length flags)%nat ->
  mark_step rels flags r !! i = Some true <->
  flags !! i = Some true \/ exists a, first_at rels i a /\ head_relation r = Some a.
Proof.
  intros Hi. unfold mark_step, first_at. destruct (head_relation r) as [h|]; [|naive_solver].
  destruct (list_find _ rels) as [[j nm]|] eqn:Hf; [|naive_solver].
  destruct (proj1 (list_find_Some _ _ _ _) Hf) as (_ & -> & _).
  destruct (decide (i = j)) as [->|Hne].
  - rewrite list_lookup_insert_eq by done. naive_solver.
  - rewrite list_lookup_insert_ne by done. naive_solver.
Qed.

Lemma mark_fold_true rels rs : forall flags i, (i < length flags)%nat ->
  foldl (mark_step rels) flags rs !! i = Some true <->
  flags !! i = Some true \/
  exists a r, first_at rels i a /\ r ∈ rs /\ head_relation r = Some a.
Proof.
  induction rs as [|r rs IH]; intros flags i Hi; cbn; [set_solver|].
  rewrite IH by (by rewrite mark_step_length). rewrite mark_step_true by done. set_solver.
Qed.

Lemma first_at_lookup rels i a : first_at rels i a -> rels !! i = Some a.
Proof. intros H. by apply list_find_Some in H as (? & _). Qed.

Lemma mark_idb_true rels rs i :
  mark_idb rels rs !! i = Some true <->
  exists a r, first_at rels i a /\ r ∈ rs /\ head_relation r = Some a.
Proof.
  change (mark_idb rels rs) with (foldl (mark_step rels) (replicate (length rels) false) rs).
  assert (Hl : forall fl, length (foldl (mark_step rels) fl rs) = length fl).
  { induction rs as [|r rs IH]; intros fl; cbn; [done|]. by rewrite IH, mark_step_length. }
  destruct (decide (i < length rels)%nat).
  - rewrite mark_fold_true by (by rewrite length_replicate).
    rewrite lookup_replicate_2 by done. naive_solver.
  - split.
    + intros H%lookup_lt_Some. rewrite Hl, length_replicate in H. lia.
    + intros (a & _ & H%first_at_lookup%lookup_lt_Some & _). lia.
Qed.

Lemma elem_of_flagged flags i : i ∈ flagged flags <-> flags !! i = Some true.
Proof.
  unfold flagged. rewrite list_elem_of_filter, elem_of_seq. split; [tauto|].
  intros H. split; [done|]. apply lookup_lt_Some in H. lia.
Qed.

Lemma NoDup_flagged flags : NoDup (flagged flags).
Proof. apply NoDup_filter, NoDup_seq. Qed.

Definition node_map (p : program) : list nat := flagged (mark_idb (relations p) (rules p)).

(** Graph node [v] stands for the relation [a]. *)
Definition node (p : program) (v : nat) (a : string) : Prop :=
  graph_find_relation (node_map p) (relations p) a = Some v.

Lemma node_spec p v a : node p v a <->
  exists i, node_map p !! v = Some i /\ first_at (relations p) i a.
Proof.
  assert (Hin : forall v i, node_map p !! v = Some i ->
    exists b r, first_at (relations p) i b /\ r ∈ rules p /\ head_relation r = Some b).
  { intros w i H%list_elem_of_lookup_2. by apply elem_of_flagged, mark_idb_true in H. }
  unfold node, graph_find_relation. rewrite fmap_Some. split.
  - intros ([w i] & Hf & ->). apply list_find_Some in Hf as (Hl & Hr & _). exists i.
    split; [done|]. destruct (Hin _ _ Hl) as (b & r & Hb & _).
    pose proof (first_at_lookup _ _ _ Hb). by simplify_eq.
  - intros (i & Hl & Hf). exists (v, i). split; [|done]. apply list_find_Some.
    split_and!; [done|by apply first_at_lookup|].
    intros j y Hj Hlt Hy. destruct (Hin _ _ Hj) as (b & r & Hb & _).
    pose proof (first_at_lookup _ _ _ Hb). simplify_eq. unfold first_at in *. simplify_eq.
    pose proof (NoDup_lookup _ _ _ _ (NoDup_flagged _) Hl Hj). lia.
Qed.

Lemma node_lt p v a : node p v a -> (v < length (node_map p))%nat.
Proof. rewrite node_spec. intros (i & H & _). by eapply lookup_lt_Some. Qed.

Lemma node_inj p v a b : node p v a -> node p v b -> a = b.
Proof.
  rewrite !node_spec. intros (i & Hi & Ha%first_at_lookup) (j & Hj & Hb%first_at_lookup). congruence.
Qed.

Lemma node_fun p v w a : node p v a -> node p w a -> v = w.
Proof. unfold node. congruence. Qed.

Lemma node_name p v : (v < length (node_map p))%nat -> exists a, node p v a.
Proof.
  intros [i Hi]%lookup_lt_is_Some_2. pose proof Hi as H%list_elem_of_lookup_2.
  apply elem_of_flagged, mark_idb_true in H as (a & r & Ha & _).
  exists a. apply node_spec. eauto.
Qed.

Lemma idb_node p a : idb p a <-> exists v, node p v a.
Proof.
  split.
  - intros (Ha & r & Hr & Hh). destruct (list_find (fun n => n = a) (relations p)) as [[i b]|] eqn:E.
    + pose proof E as (Hl & -> & _)%list_find_Some.
      assert (Hi : i ∈ node_map p) by (apply elem_of_flagged, mark_idb_true; by exists a, r).
      apply list_elem_of_lookup_1 in Hi as [v Hv]. exists v. apply node_spec. eauto.
    + apply list_find_None in E. rewrite Forall_forall in E. by destruct (E a Ha).
  - intros [v Hv]. apply node_spec in Hv as (i & Hi & Hf).
    apply list_elem_of_lookup_2, elem_of_flagged, mark_idb_true in Hi as (b & r & Hb & Hr & Hh).
    pose proof (first_at_lookup _ _ _ Hb). pose proof (first_at_lookup _ _ _ Hf). simplify_eq.
    split; [|by exists r]. eapply list_elem_of_lookup_2, first_at_lookup, Hf.
Qed.

(** ** The edges of the graph are the dependencies *)

Definition all_edges (p : program) : list dep_edge :=
  concat (rule_edges (relations p) (node_map p) <$> rules p).

Lemma elem_of_all_edges p e : e ∈ all_edges p <->
  exists a b, node p (from e) a /\ node p (to e) b /\ depends p (type e) a b.
Proof.
  unfold all_edges. rewrite list_elem_of_In, in_concat. setoid_rewrite <- list_elem_of_In.
  split.
  - intros (l & Hl & He). apply list_elem_of_fmap in Hl as (r & -> & Hr).
    unfold rule_edges in He. destruct (head_relation r) as [h|] eqn:Hh; cbn in He; [|set_solver].
    destruct (graph_find_relation _ _ h) as [gi|] eqn:Hg; [|set_solver].
    apply list_elem_of_omap in He as ([b t] & Hb & Hres). unfold resolve in Hres. cbn in Hres.
    destruct (graph_find_relation _ _ b) as [w|] eqn:Hw; cbn in Hres; simplify_eq/=.
    exists h, b. split; [done|]. split; [done|]. split_and!; [apply idb_node; eauto..|]. eauto.
  - intros (a & b & Ha & Hb & _ & _ & r & Hr & Hh & Href).
    exists (rule_edges (relations p) (node_map p) r). split.
    + apply list_elem_of_fmap. eauto.
    + unfold rule_edges. rewrite Hh. cbn. rewrite Ha.
      apply list_elem_of_omap. eexists. split; [done|]. unfold resolve. cbn. rewrite Hb.
      by destruct e.
Qed.

Definition edge_pairs (es : list dep_edge) : list (nat * nat) := (fun e => (from e, to e)) <$> es.

Section Transport.
Variable p : program.
Let n := length (node_map p).
Let R := G n (edge_pairs (all_edges p)).

Lemma G_dep u w : R u w <-> exists a b, node p u a /\ node p w b /\ dep_any p a b.
Proof.
  unfold R, G, edge_pairs. rewrite list_elem_of_fmap. split.
  - intros [([f t ty] & [= -> ->] & He) _]. apply elem_of_all_edges in He as (a & b & Ha & Hb & H).
    exists a, b. unfold dep_any. eauto.
  - intros (a & b & Ha & Hb & t & H). split_and!; [|by eapply node_lt..].
    exists (Edge u w t). split; [done|]. apply elem_of_all_edges. eauto.
Qed.

Lemma dep_any_node a b : dep_any p a b -> exists v w, node p v a /\ node p w b /\ R v w.
Proof.
  intros H. pose proof H as (t & Ha & Hb & _).
  apply idb_node in Ha as [v Hv]. apply idb_node in Hb as [w Hw].
  exists v, w. split_and!; [done..|]. apply G_dep. eauto.
Qed.

Lemma rtc_dep_G u a b : node p u a -> rtc (dep_any p) a b -> exists w, node p w b /\ rtc R u w.
Proof.
  intros Hu H. revert u Hu. induction H as [a|a b c Hab _ IH]; intros u Hu.
  - exists u. split; [done|apply rtc_refl].
  - apply dep_any_node in Hab as (v & w & Hv & Hw & HR).
    pose proof (node_fun _ _ _ _ Hu Hv) as <-. destruct (IH w Hw) as (x & Hx & Hr).
    exists x. split; [done|]. by eapply rtc_l.
Qed.

Lemma rtc_G_dep u w a b : node p u a -> node p w b -> rtc R u w <-> rtc (dep_any p) a b.
Proof.
  intros Hu Hw. split.
  - intros H. revert a Hu. induction H as [u|u v w Huv _ IH]; intros a Hu.
    + rewrite (node_inj _ _ _ _ Hu Hw). apply rtc_refl.
    + apply G_dep in Huv as (a' & c & Ha' & Hc & Hd).
      rewrite (node_inj _ _ _ _ Hu Ha'). eapply rtc_l; [done|]. by apply IH.
  - intros H. destruct (rtc_dep_G _ _ _ Hu H) as (w' & Hw' & Hr).
    by rewrite (node_fun _ _ _ _ Hw Hw').
Qed.

(** A relation that depends on itself, through a chain of one step or more. *)
Lemma tc_dep_cycle a : tc (dep_any p) a a <-> exists b, dep_any p a b /\ rtc (dep_any p) b a.
Proof.
  split.
  - intros H. inversion H as [x y Hxy|x y z Hxy Hyz]; subst.
    + exists a. split; [done|apply rtc_refl].
    + exists y. split; [done|by apply tc_rtc].
  - intros (b & Hab & Hba). by eapply tc_rtc_r; [apply tc_once|].
Qed.

Section Scc.
Variable r : scc_result.
Hypothesis S : scc_spec n (edge_pairs (all_edges p)) r.

Lemma negation_cycle_spec :
  negation_cycle n (r_scc_id r) (all_edges p) = false <-> stratifiable p.
Proof.
  unfold negation_cycle. rewrite <- not_true_iff_false, existsb_exists. unfold stratifiable. split.
  - intros Hno a b Hd Hr. apply Hno.
    pose proof Hd as (Ha & Hb & _). apply idb_node in Ha as [v Hv]. apply idb_node in Hb as [w Hw].
    pose proof (node_lt _ _ _ Hv). pose proof (node_lt _ _ _ Hw).
    exists (Edge v w DEP_NEGATION). rewrite <- list_elem_of_In, elem_of_all_edges. split; [by exists a, b|].
    rewrite !andb_true_iff, bool_decide_eq_true, !Nat.ltb_lt, Nat.eqb_eq. split_and!; [done..|].
    apply (spec_same _ _ _ S); [done..|]. cbn. split.
    + apply rtc_once, G_dep. exists a, b. unfold dep_any. eauto.
    + by apply (rtc_G_dep w v b a).
  - intros Hs ([v w t] & Hin & He).
    rewrite !andb_true_iff, bool_decide_eq_true, !Nat.ltb_lt, Nat.eqb_eq in He. cbn in He.
    destruct He as (((-> & Hv) & Hw) & Hid).
    rewrite <- list_elem_of_In, elem_of_all_edges in Hin. destruct Hin as (a & b & Ha & Hb & Hd). cbn in *.
    apply (Hs a b Hd). apply (rtc_G_dep w v b a); [done..|]. by apply (spec_same _ _ _ S).
Qed.

End Scc.
End Transport.

(** ** Rules into strata *)

(** The fill loop never leaves an array, whatever the heads. *)
Lemma fill_names_total num per rs : forall rstr fidx names,
  length per = num -> length fidx = num -> length names = num ->
  (forall s, (s < num)%nat -> names !!! s = [] \/ length (names !!! s) = per !!! s) ->
  exists names', fill_names rs rstr per fidx names = Some names' /\ length names' = num.
Proof.
  induction rs as [|r rs IH]; intros rstr fidx names Hp Hf Hn Hs; [by exists names|].
  destruct rstr as [|s rstr]; [by exists names|]. cbn [fill_names].
  destruct (head_relation r) as [h|]; [|by apply IH].
  destruct (Nat.ltb_spec s (length names)); [|by apply IH].
  rewrite !rd_total by lia. cbn [mbind option_bind].
  destruct (bool_decide _) eqn:Eb; cbn [negb andb]; [by apply IH|].
  apply bool_decide_eq_false in Eb. destruct (Nat.ltb_spec (fidx !!! s) (per !!! s)); [|by apply IH].
  destruct (Hs s) as [?|Hlen]; [lia|done|].
  rewrite (wr_lt (names !!! s)) by lia. cbn [mbind option_bind].
  rewrite (wr_lt names), (wr_lt fidx) by lia. cbn [mbind option_bind].
  apply IH; rewrite ?length_insert; [done..|].
  intros s' Hs'. rewrite upd_total by lia. case_decide; subst; [|by apply Hs].
  rewrite length_insert. by right.
Qed.

Section Assign.
Variables (map : list nat) (rels : list string) (sid : list nat) (num : nat).
Hypothesis Hsid : forall a v, graph_find_relation map rels a = Some v ->
  (v < length sid)%nat /\ (sid !!! v < num)%nat.

(** The stratum of a rule whose head is a graph node. *)
Definition target (r : rule) : option nat :=
  v ← (h ← head_relation r; graph_find_relation map rels h); Some (sid !!! v).

(** The heads of the rules of stratum [s], in program order. *)
Definition heads (s : nat) (rs : list rule) : list (option string) :=
  head_relation <$> filter (fun r => target r = Some s) rs.

Lemma target_inv r : match target r with
  | Some s => exists h v, head_relation r = Some h /\ graph_find_relation map rels h = Some v /\
      s = sid !!! v /\ (v < length sid)%nat /\ (s < num)%nat
  | None => (h ← head_relation r; graph_find_relation map rels h) = None
  end.
Proof.
  unfold target. destruct (head_relation r) as [h|]; cbn; [|done].
  destruct (graph_find_relation map rels h) as [v|] eqn:E; cbn; [|done].
  destruct (Hsid h v E). by exists h, v.
Qed.

Lemma target_lt r s : target r = Some s -> (s < num)%nat.
Proof. intros H. pose proof (target_inv r) as Hr. rewrite H in Hr. naive_solver. Qed.

Lemma heads_cons s r rs : heads s (r :: rs) =
  if decide (target r = Some s) then head_relation r :: heads s rs else heads s rs.
Proof. unfold heads. rewrite filter_cons. by case_decide. Qed.

Lemma assign_rules_ok rs : forall per, length per = num ->
  exists per', assign_rules map rels sid rs per = Some (default O ∘ target <$> rs, per') /\
    length per' = num /\
    forall s, (s < num)%nat -> per' !!! s = (per !!! s + length (heads s rs))%nat.
Proof.
  induction rs as [|r rs IH]; intros per Hl; cbn [assign_rules].
  { exists per. split_and!; [done..|]. intros s _. unfold heads. rewrite filter_nil. cbn. lia. }
  setoid_rewrite heads_cons. cbn [fmap list_fmap compose]. pose proof (target_inv r) as Ht.
  destruct (target r) as [s|] eqn:Er.
  - destruct Ht as (h & v & Hh & Hv & -> & Hlv & Hs). rewrite Hh. cbn [mbind option_bind].
    rewrite Hv, rd_total by done. cbn [mbind option_bind].
    rewrite rd_total by (by rewrite Hl). cbn [mbind option_bind].
    rewrite wr_lt by (by rewrite Hl). cbn [mbind option_bind].
    destruct (IH (<[sid !!! v := S (per !!! (sid !!! v))]> per)) as (per' & -> & Hl' & Hp);
      [by rewrite length_insert|]. cbn.
    exists per'. rewrite ?Er. split; [done|split; [done|]].
    intros s Hlt. rewrite Hp by done. rewrite upd_total by lia.
    repeat case_decide; simplify_eq; cbn; lia.
  - rewrite Ht. destruct (IH per Hl) as (per' & -> & Hl' & Hp). cbn. rewrite ?Er.
    exists per'. split; [done|split; [done|]].
    intros s Hlt. rewrite Hp by done. by rewrite decide_False.
Qed.

(** When every head is a graph node, the loop writes each stratum's heads in
    program order. *)
Lemma fill_names_exact per rs : forall (F : nat -> list (option string)) fidx names,
  length per = num -> length fidx = num -> length names = num ->
  (forall r, r ∈ rs -> head_relation r <> None -> target r <> None) ->
  (forall s, (s < num)%nat ->
     names !!! s = F s ++ replicate (length (heads s rs)) None /\
     fidx !!! s = length (F s) /\ per !!! s = (length (F s) + length (heads s rs))%nat) ->
  exists names', fill_names rs (default O ∘ target <$> rs) per fidx names = Some names' /\
    length names' = num /\ forall s, (s < num)%nat -> names' !!! s = F s ++ heads s rs.
Proof.
  induction rs as [|r rs IH]; intros F fidx names Hp Hf Hn Hfound Hs.
  { exists names. split_and!; [done..|]. intros s Hlt. by destruct (Hs s Hlt) as (-> & _). }
  rewrite fmap_cons. cbn [fill_names].
  change ((default O ∘ target) r) with (default O (target r)). setoid_rewrite heads_cons in Hs.
  destruct (head_relation r) as [h|] eqn:Hh.
  - destruct (target r) as [s|] eqn:Ht; [|exfalso; apply (Hfound r); [left|congruence|done]].
    cbn [default from_option id]. pose proof (target_lt _ _ Ht) as Hlt.
    rewrite (proj2 (Nat.ltb_lt s (length names))) by lia.
    rewrite !rd_total by lia. cbn [mbind option_bind].
    destruct (Hs s Hlt) as (Hna & Hfi & Hpe). rewrite decide_True in Hna, Hpe by done.
    cbn [length replicate] in Hna, Hpe.
    rewrite bool_decide_false by (rewrite Hna; by destruct (F s)). cbn [negb andb].
    rewrite (proj2 (Nat.ltb_lt _ _)) by lia.
    rewrite (wr_lt (names !!! s)) by (rewrite Hna, Hfi, length_app; cbn; lia).
    cbn [mbind option_bind]. rewrite (wr_lt names), (wr_lt fidx) by lia. cbn [mbind option_bind].
    destruct (IH (fun s' => if decide (s' = s) then F s ++ [Some h] else F s')
                (<[s := S (fidx !!! s)]> fidx)
                (<[s := <[fidx !!! s := Some h]> (names !!! s)]> names)) as (names' & -> & Hn' & Hx);
      rewrite ?length_insert; [done..| | |].
    + intros r' Hr'. apply Hfound. by right.
    + intros s' Hs'. rewrite !upd_total by lia. destruct (decide (s' = s)) as [->|Hne].
      * rewrite Hna, Hfi, insert_app_r_alt, Nat.sub_diag, length_app by lia. cbn.
        rewrite <- app_assoc. cbn. split_and!; [done|lia|lia].
      * specialize (Hs s' Hs'). by rewrite decide_False in Hs by congruence.
    + exists names'. split_and!; [done..|]. intros s' Hs'. rewrite Hx, heads_cons by done.
      destruct (decide (s' = s)) as [->|Hne].
      * rewrite decide_True, Hh, <- app_assoc by done. done.
      * by rewrite decide_False by congruence.
  - assert (Ht : target r = None) by (unfold target; by rewrite Hh).
    setoid_rewrite heads_cons. rewrite Ht in *. setoid_rewrite decide_False; [|done].
    apply IH; [done..| |].
    + intros r' Hr'. apply Hfound. by right.
    + intros s Hlt. specialize (Hs s Hlt). by rewrite decide_False in Hs.
Qed.

End Assign.

Lemma alloc_names_shape alloc per : forall s0,
  length (alloc_names alloc s0 per).1 = length per /\
  (forall s, (s < length per)%nat ->
     (alloc_names alloc s0 per).1 !!! s = [] \/
     length ((alloc_names alloc s0 per).1 !!! s) = per !!! s) /\
  ((alloc_names alloc s0 per).2 = false -> exists t, alloc (SNames t) = false).
Proof.
  induction per as [|c per IH]; intros s0; cbn [alloc_names]; [split_and!; [done|cbn; lia|done]|].
  destruct (andb _ _) eqn:E; cbn [fst snd].
  - apply andb_true_iff in E as [_ E%negb_true_iff]. rewrite length_replicate.
    split_and!; [done| |eauto]. intros s Hs. left. by apply lookup_total_replicate_2.
  - destruct (IH (S s0)) as (Hl & Hs & Hf). destruct (alloc_names _ _ per) as [names ok].
    cbn in *. split_and!; [lia| |done]. intros [|s] Hlt; cbn.
    + right. by rewrite length_replicate.
    + apply Hs. lia.
Qed.

Lemma alloc_names_ok per : forall s0,
  alloc_names (fun _ => true) s0 per = ((fun c => replicate c None) <$> per, true).
Proof.
  induction per as [|c per IH]; intros s0; [done|]. cbn [alloc_names].
  rewrite andb_false_r, IH. done.
Qed.

(** ** Recursive strata *)

Definition occ (s : nat) (l : list nat) : nat := length (filter (fun x => x = s) l).

Lemma size_fold num l : forall sz, length sz = num ->
  let f sz s := if (s <? num)%nat then <[s := S (sz !!! s)]> sz else sz in
  length (foldl f sz l) = num /\
  forall s, (s < num)%nat -> foldl f sz l !!! s = (sz !!! s + occ s l)%nat.
Proof.
  induction l as [|x l IH]; intros sz Hl f; cbn [foldl]; [split; [done|]; cbn; lia|].
  change (f sz x) with (if (x <? num)%nat then <[x := S (sz !!! x)]> sz else sz).
  destruct (Nat.ltb_spec x num).
  - destruct (IH (<[x := S (sz !!! x)]> sz)) as [H1 H2]; [by rewrite length_insert|].
    split; [done|]. intros s Hs. rewrite H2 by done. rewrite upd_total by lia.
    unfold occ. rewrite filter_cons. repeat case_decide; subst; cbn; lia.
  - destruct (IH sz Hl) as [H1 H2]. split; [done|]. intros s Hs. rewrite H2 by done.
    unfold occ. rewrite filter_cons, decide_False by lia. done.
Qed.

(** A value occurs more than once exactly when two positions hold it. *)
Lemma occ_two s l : (1 < occ s l)%nat <->
  exists i j, i <> j /\ l !! i = Some s /\ l !! j = Some s.
Proof.
  unfold occ. induction l as [|x l IH]; [cbn; split; [lia|]; naive_solver|].
  rewrite filter_cons. case_decide as Hx.
  - subst. cbn. split.
    + intros H. destruct (filter (fun x => x = s) l) as [|y l'] eqn:E; [cbn in H; lia|].
      assert (Hy : y ∈ filter (fun x => x = s) l) by (rewrite E; left).
      apply list_elem_of_filter in Hy as [-> Hy]. apply list_elem_of_lookup_1 in Hy as [j Hj].
      exists O, (S j). done.
    + intros (i & j & Hne & Hi & Hj).
      assert (Hin : s ∈ filter (fun x => x = s) l).
      { apply list_elem_of_filter. split; [done|].
        destruct i as [|i]; [destruct j as [|j]; [done|]|]; cbn in *;
          eapply list_elem_of_lookup_2; eauto. }
      destruct (filter _ l); [by apply not_elem_of_nil in Hin|cbn; lia].
  - rewrite IH. split.
    + intros (i & j & Hne & Hi & Hj). exists (S i), (S j). split; [lia|done].
    + intros ([|i] & [|j] & Hne & Hi & Hj); cbn in *; simplify_eq; exists i, j; split_and!; done || lia.
Qed.

(** A self-dependency other than a negated one, within the graph. *)
Definition self_loop (n : nat) (e : dep_edge) : bool :=
  (from e <? n)%nat && (to e <? n)%nat && (from e =? to e)%nat &&
  (bool_decide (type e = DEP_POSITIVE) || bool_decide (type e = DEP_AGGREGATION)).

Lemma self_fold (n : nat) (ids : list nat) es : forall (sts : list stratum) s,
  foldl (fun sts e =>
      if negb ((from e <? n) && (to e <? n))%nat then sts
      else if (from e =? to e)%nat &&
              (bool_decide (type e = DEP_POSITIVE) || bool_decide (type e = DEP_AGGREGATION))
      then alter (set_recursive true) (ids !!! from e) sts
      else sts) sts es !! s =
  (fun st => set_recursive
    (is_recursive st || existsb (fun e => self_loop n e && (ids !!! from e =? s)%nat) es) st)
    <$> sts !! s.
Proof.
  induction es as [|e es IH]; intros sts s; cbn [foldl existsb].
  { destruct (sts !! s) as [[]|]; cbn; rewrite ?orb_false_r; done. }
  rewrite IH. unfold self_loop at 2.
  destruct ((from e <? n) && (to e <? n))%nat; cbn [negb andb]; [|done].
  destruct (_ && _) eqn:E; cbn [andb]; [|done].
  destruct (Nat.eqb_spec (ids !!! from e) s) as [<-|Hne].
  - rewrite list_lookup_alter_eq. destruct (sts !! _) as [[]|]; cbn; [|done].
    by rewrite ?orb_true_r.
  - rewrite list_lookup_alter_ne by done. done.
Qed.

(** What the marking pass computes, stratum by stratum. *)
Lemma mark_recursive_lookup alloc g r sts s : alloc SSccSize = true ->
  length (r_scc_id r) = length (relation_map g) ->
  (s < length sts)%nat ->
  mark_recursive_strata alloc g r sts !! s =
  set_recursive ((1 <? occ s (r_scc_id r))%nat ||
    existsb (fun e => self_loop (length (relation_map g)) e && (r_scc_id r !!! from e =? s)%nat)
      (edges g)) <$> sts !! s.
Proof.
  intros Ha Hl Hs. unfold mark_recursive_strata. rewrite Ha. cbn [negb].
  rewrite <- Hl, take_ge by done. rewrite self_fold, list_lookup_imap, <- option_fmap_compose.
  destruct (sts !! s) as [st|] eqn:E; [|done]. cbn. f_equal. unfold set_recursive. cbn.
  f_equal. f_equal.
  destruct (size_fold (length sts) (r_scc_id r) (replicate (length sts) O)) as [_ H];
    [by rewrite length_replicate|]. rewrite H by done.
  by rewrite lookup_total_replicate_2.
Qed.

Lemma mark_recursive_length alloc g r sts :
  length (mark_recursive_strata alloc g r sts) = length sts.
Proof.
  unfold mark_recursive_strata. destruct (alloc _); [|done]. cbn [negb].
  set (sts1 := imap _ sts). transitivity (length sts1); [|apply length_imap].
  generalize sts1. induction (edges g) as [|e es IH]; intros l; [done|]. cbn [foldl]. rewrite IH.
  repeat case_match; rewrite ?length_alter; done.
Qed.

(** ** The pipeline *)

Definition bounded (p : program) : Prop :=
  Z.of_nat (length (relations p)) < UINT32_MAX /\
  Z.of_nat (length (concat (rule_refs <$> rules p))) <= 2 ^ 31.

Lemma length_all_edges p :
  (length (all_edges p) <= length (concat (rule_refs <$> rules p)))%nat.
Proof.
  unfold all_edges. induction (rules p) as [|r rs IH]; cbn [fmap list_fmap concat]; [done|].
  rewrite !length_app. enough (length (rule_edges (relations p) (node_map p) r) <= length (rule_refs r))%nat by lia.
  unfold rule_edges. case_match; [|cbn; lia]. induction (rule_refs r) as [|x l IHl]; cbn; [done|].
  destruct (resolve _ _ _ _); cbn; lia.
Qed.

Lemma node_map_bound p : bounded p -> Z.of_nat (length (node_map p)) < UINT32_MAX.
Proof.
  intros [H _]. unfold node_map, flagged.
  assert (Hl : (length (node_map p) <= length (relations p))%nat); [|unfold node_map, flagged in Hl; lia].
  apply length_bounded; [apply NoDup_flagged|]. intros i Hi.
  apply elem_of_flagged, mark_idb_true in Hi as (a & _ & Hf & _).
  by eapply lookup_lt_Some, first_at_lookup.
Qed.

Lemma no_idb p : node_map p = [] <-> ~ exists a, idb p a.
Proof.
  setoid_rewrite idb_node. split.
  - intros H (a & v & Hv%node_lt). rewrite H in Hv. cbn in Hv. lia.
  - intros H. destruct (node_map p) as [|x l] eqn:E; [done|]. destruct H.
    destruct (node_name p 0) as [a Ha]; [rewrite E; cbn; lia|]. eauto.
Qed.

(** The graph that the build returns. *)
Lemma build_ok alloc p : bounded p ->
  (exists s, alloc s = false /\ dep_graph_build_ex alloc p = Some (-1, None)) \/
  (node_map p = [] /\ dep_graph_build_ex alloc p = Some (0, None)) \/
  (node_map p <> [] /\ exists g, dep_graph_build_ex alloc p = Some (0, Some g) /\
     relation_map g = node_map p /\ edges g = all_edges p).
Proof.
  intros [_ Hb]. unfold dep_graph_build_ex. destruct (Nat.eqb_spec (length (rules p)) 0) as [E|_].
  { right. left. split; [|done]. apply no_idb. intros (a & _ & r & Hr & _).
    apply nil_length_inv in E. rewrite E in Hr. by apply not_elem_of_nil in Hr. }
  destruct (alloc SGraph) eqn:?; cbn [negb]; [|eauto].
  destruct (alloc SFlags) eqn:?; cbn [negb]; [|eauto].
  fold (node_map p). destruct (Nat.eqb_spec (length (node_map p)) 0) as [E|Hne].
  { apply nil_length_inv in E. eauto. }
  destruct (alloc SMap) eqn:?; cbn [negb]; [|eauto].
  destruct (walk_rules_walked alloc (relations p) (rules p) (Graph (node_map p) [] 0))
    as (rc & g & -> & Hm & [(-> & _ & He)|(-> & c & Hc)]); cbn.
  - by left.
  - pose proof (length_all_edges p). unfold all_edges in *. cbn. lia.
  - right. right. split; [intros E; by rewrite E in Hne|]. by exists g.
  - left. eauto.
Qed.

(** The stratum of a relation, from the component numbers of the nodes. *)
Definition stratum_of (p : program) (ids : list nat) (a : string) : nat :=
  default O (v ← graph_find_relation (node_map p) (relations p) a; ids !! v).

Record strata_spec (p p' : program) (sigma : string -> nat) : Prop := {
  sp_static : relations p' = relations p /\ rules p' = rules p /\ is_stratified p' = true;
  sp_range : forall a, idb p a -> (sigma a < length (strata p'))%nat;
  sp_dense : forall s, (s < length (strata p'))%nat -> exists a, idb p a /\ sigma a = s;
  sp_same : forall a b, idb p a -> idb p b ->
    sigma a = sigma b <-> rtc (dep_any p) a b /\ rtc (dep_any p) b a;
  sp_dep : forall a b, dep_any p a b -> (sigma b <= sigma a)%nat;
  sp_neg : forall a b, depends p DEP_NEGATION a b -> (sigma b < sigma a)%nat;
  sp_stratum : forall s st, strata p' !! s = Some st -> stratum_id st = s /\
    (is_recursive st = true <-> exists a, idb p a /\ sigma a = s /\ tc (dep_any p) a a);
  sp_names : (forall r h, r ∈ rules p -> head_relation r = Some h -> h ∈ relations p) ->
    forall s st, strata p' !! s = Some st ->
    rule_names st = head_relation <$> filter (fun r => sigma <$> head_relation r = Some s) (rules p) /\
    rule_count st = length (rule_names st) }.

Section Accept.
Variables (p : program) (r : scc_result).
Local Abbreviation n := (length (node_map p)).
Local Abbreviation ids := (r_scc_id r).
Let sigma := stratum_of p ids.
Hypothesis S : scc_spec n (edge_pairs (all_edges p)) r.
Hypothesis Hstrat : stratifiable p.

Lemma sigma_node v a : node p v a -> sigma a = ids !!! v /\ (sigma a < r_scc_count r)%nat.
Proof.
  intros Hv. pose proof (node_lt _ _ _ Hv) as Hlt. unfold sigma, stratum_of.
  unfold node in Hv. rewrite Hv. cbn. rewrite list_lookup_lookup_total_lt by (by rewrite (spec_len _ _ _ S)).
  split; [done|]. by apply (spec_range _ _ _ S).
Qed.

Lemma sigma_same a b : idb p a -> idb p b ->
  sigma a = sigma b <-> rtc (dep_any p) a b /\ rtc (dep_any p) b a.
Proof.
  intros [v Hv]%idb_node [w Hw]%idb_node.
  destruct (sigma_node v a Hv) as [-> _], (sigma_node w b Hw) as [-> _].
  rewrite (spec_same _ _ _ S) by (by eapply node_lt).
  by rewrite (rtc_G_dep p v w a b), (rtc_G_dep p w v b a).
Qed.

Lemma sigma_dep a b : dep_any p a b -> (sigma b <= sigma a)%nat.
Proof.
  intros (v & w & Hv & Hw & HG)%dep_any_node.
  destruct (sigma_node v a Hv) as [-> _], (sigma_node w b Hw) as [-> _].
  by apply (spec_order _ _ _ S).
Qed.

Lemma sigma_neg a b : depends p DEP_NEGATION a b -> (sigma b < sigma a)%nat.
Proof.
  intros Hd. pose proof Hd as (Ha & Hb & _). pose proof (sigma_dep a b ltac:(by eexists)).
  enough (sigma b <> sigma a) by lia. intros [Hba _]%sigma_same; [|done..]. by apply (Hstrat a b).
Qed.

(** The marking pass finds exactly the strata with a cyclic relation. *)
Lemma recursive_iff s :
  (1 <? occ s ids)%nat || existsb (fun e => self_loop n e && (ids !!! from e =? s)%nat) (all_edges p)
    = true <-> exists a, idb p a /\ sigma a = s /\ tc (dep_any p) a a.
Proof.
  rewrite orb_true_iff, Nat.ltb_lt, occ_two, existsb_exists. split.
  - intros [(i & j & Hij & Hi & Hj)|([u w t] & Hin & He)].
    + pose proof (lookup_lt_Some _ _ _ Hi) as Hli. pose proof (lookup_lt_Some _ _ _ Hj) as Hlj.
      rewrite (spec_len _ _ _ S) in Hli, Hlj.
      destruct (node_name p i Hli) as [a Ha], (node_name p j Hlj) as [b Hb].
      apply list_lookup_total_correct in Hi, Hj.
      destruct (sigma_node i a Ha) as [Hsa _], (sigma_node j b Hb) as [Hsb _].
      assert (Hia : idb p a) by (apply idb_node; eauto).
      assert (Hib : idb p b) by (apply idb_node; eauto).
      destruct (proj1 (sigma_same a b Hia Hib)) as [Hab Hba]; [congruence|].
      exists a. split_and!; [done|congruence|]. apply rtc_tc in Hab as [<-|Hab].
      * by destruct Hij; eapply node_fun.
      * by eapply tc_rtc_r.
    + rewrite <- list_elem_of_In, elem_of_all_edges in Hin. destruct Hin as (a & b & Ha & Hb & Hd).
      unfold self_loop in He. cbn in *. rewrite !andb_true_iff, !Nat.eqb_eq in He.
      destruct He as [[[_ <-] _] Hs]. pose proof (node_inj _ _ _ _ Ha Hb) as <-.
      exists a. split_and!; [apply Hd|by destruct (sigma_node u a Ha) as [-> _]|].
      apply tc_once. by exists t.
  - intros (a & Ha & <- & (b & Hab & Hba)%tc_dep_cycle).
    pose proof Hab as (t & _ & Hib & _). pose proof Hab as (v & w & Hv & Hw & _)%dep_any_node.
    assert (Heq : sigma a = sigma b) by (apply sigma_same; [done..|]; split; [by apply rtc_once|done]).
    destruct (sigma_node v a Hv) as [Hsa _], (sigma_node w b Hw) as [Hsb _].
    destruct (decide (v = w)) as [<-|Hne].
    + right. pose proof (node_inj _ _ _ _ Hv Hw) as <-. destruct Hab as [t' Hab].
      exists (Edge v v t'). split.
      * apply list_elem_of_In, elem_of_all_edges. by exists a, a.
      * unfold self_loop. cbn [from to type]. rewrite Hsa, !Nat.eqb_refl.
        rewrite (proj2 (Nat.ltb_lt v n)) by (by eapply node_lt). cbn.
        destruct t'; [done| |done]. exfalso. pose proof (sigma_neg a a Hab). lia.
    + left. exists v, w. split; [done|].
      pose proof (spec_len _ _ _ S) as Hlen.
      rewrite !list_lookup_lookup_total_lt by (rewrite Hlen; by eapply node_lt).
      split; congruence.
Qed.

Lemma ids_in_range a v : graph_find_relation (node_map p) (relations p) a = Some v ->
  (v < length ids)%nat /\ (ids !!! v < r_scc_count r)%nat.
Proof.
  intros Hv. pose proof (node_lt p v a Hv). rewrite (spec_len _ _ _ S).
  split; [done|]. by apply (spec_range _ _ _ S).
Qed.

Lemma strata_of_lookup names counts s : length names = length counts ->
  (s < length names)%nat ->
  strata_of names counts !! s = Some (Stratum s (names !!! s) (counts !!! s) false).
Proof.
  intros Hl Hs. unfold strata_of. rewrite list_lookup_imap.
  destruct (lookup_lt_is_Some_2 names s) as [x Hx]; [done|].
  destruct (lookup_lt_is_Some_2 counts s) as [c Hc]; [lia|].
  rewrite (proj2 (lookup_zip_Some _ _ _ _ _) (conj Hx Hc)). cbn.
  by rewrite (list_lookup_total_correct _ _ _ Hx), (list_lookup_total_correct _ _ _ Hc).
Qed.

Lemma length_strata_of names counts : length names = length counts ->
  length (strata_of names counts) = length names.
Proof. intros H. unfold strata_of. rewrite length_imap, length_zip_with. lia. Qed.

Lemma assign_strata_safe alloc g : relation_map g = node_map p ->
  exists rc p', assign_strata alloc p g r = Some (rc, p') /\
    relations p' = relations p /\ rules p' = rules p /\
    (rc = 0 /\ is_stratified p' = true /\ length (strata p') = r_scc_count r \/
     rc = -1 /\ is_stratified p' = is_stratified p /\ exists s, alloc s = false).
Proof.
  intros Hg. unfold assign_strata.
  destruct (alloc SStrata) eqn:?; cbn [negb]; [|do 2 eexists; split_and!; eauto 10].
  destruct (alloc SRulesPer) eqn:?; cbn [negb]; [|do 2 eexists; split_and!; eauto 10].
  destruct (alloc SRuleStratum) eqn:?; cbn [negb]; [|do 2 eexists; split_and!; eauto 10].
  rewrite Hg.
  destruct (assign_rules_ok (node_map p) (relations p) ids (r_scc_count r) ids_in_range (rules p)
              (replicate (r_scc_count r) O)) as (per & -> & Hl & _); [by rewrite length_replicate|].
  cbn [mbind option_bind]. pose proof (alloc_names_shape alloc per 0) as (Hn & Hs & Hf).
  destruct (alloc_names alloc 0 per) as [names0 ok]. cbn in Hn, Hs, Hf.
  destruct ok; cbn [negb orb];
    [|destruct (Hf eq_refl); do 2 eexists; split_and!; eauto 10].
  destruct (alloc SFillIdx) eqn:?; cbn [negb]; [|do 2 eexists; split_and!; eauto 10].
  destruct (fill_names_total (r_scc_count r) per (rules p) (default O ∘ target (node_map p) (relations p) ids <$> rules p)
    (replicate (r_scc_count r) O) names0) as (names & -> & Hnl);
    [done|by rewrite length_replicate|lia|rewrite <- Hl; done|]. cbn [mbind option_bind].
  do 2 eexists. split; [done|]. split_and!; [done..|]. left. split_and!; [done..|].
  cbn. rewrite mark_recursive_length, length_strata_of; lia.
Qed.

Lemma target_sigma x s : (forall h, head_relation x = Some h -> idb p h) ->
  target (node_map p) (relations p) ids x = Some s <-> sigma <$> head_relation x = Some s.
Proof.
  intros Hh. unfold target. destruct (head_relation x) as [h|]; cbn; [|done].
  destruct (proj1 (idb_node p h) (Hh h eq_refl)) as [v Hv].
  destruct (sigma_node v h Hv) as [-> _]. unfold node in Hv. rewrite Hv. done.
Qed.

Lemma assign_strata_ok g : relation_map g = node_map p -> edges g = all_edges p ->
  exists p', assign_strata (fun _ => true) p g r = Some (0, p') /\ strata_spec p p' sigma.
Proof.
  intros Hg He. unfold assign_strata. cbn [negb]. rewrite Hg.
  destruct (assign_rules_ok (node_map p) (relations p) ids (r_scc_count r) ids_in_range (rules p)
              (replicate (r_scc_count r) O)) as (per & -> & Hl & Hper); [by rewrite length_replicate|].
  cbn [mbind option_bind]. rewrite alloc_names_ok. cbn [negb orb].
  set (names0 := (fun c => replicate c None) <$> per). set (num := r_scc_count r) in *.
  assert (Hn0 : forall s, (s < num)%nat -> names0 !!! s = replicate (per !!! s) None).
  { intros s Hs. apply list_lookup_total_correct. unfold names0.
    rewrite list_lookup_fmap, list_lookup_lookup_total_lt by lia. done. }
  destruct (fill_names_total num per (rules p) (default O ∘ target (node_map p) (relations p) ids <$> rules p)
    (replicate num O) names0) as (names & Hfill & Hnl);
    [done|by rewrite length_replicate|by unfold names0; rewrite length_fmap| |].
  { intros s Hs. rewrite Hn0, length_replicate by done. by right. }
  rewrite Hfill. cbn [mbind option_bind]. eexists. split; [done|].
  assert (Hlook : forall s st, mark_recursive_strata (fun _ => true) g r (strata_of names per) !! s = Some st ->
    (s < num)%nat /\ stratum_id st = s /\ rule_names st = names !!! s /\ rule_count st = per !!! s /\
    (is_recursive st = true <-> exists a, idb p a /\ sigma a = s /\ tc (dep_any p) a a)).
  { intros s st Hst. pose proof (lookup_lt_Some _ _ _ Hst) as Hlt.
    rewrite mark_recursive_length, length_strata_of in Hlt by lia.
    rewrite mark_recursive_lookup in Hst; [|done|by rewrite Hg, (spec_len _ _ _ S)|by rewrite length_strata_of; lia].
    rewrite strata_of_lookup in Hst by lia. rewrite Hg, He in Hst. apply Some_inj in Hst as <-.
    unfold set_recursive. cbn [stratum_id rule_names rule_count is_recursive].
    rewrite recursive_iff. split_and!; [lia|done..]. }
  assert (Hlen : length (mark_recursive_strata (fun _ => true) g r (strata_of names per)) = num).
  { rewrite mark_recursive_length, length_strata_of; lia. }
  constructor; cbn [with_strata relations rules is_stratified strata].
  - done.
  - intros a [v Hv]%idb_node. rewrite Hlen. by apply (sigma_node v a).
  - intros s Hs. rewrite Hlen in Hs. destruct (spec_dense _ _ _ S s Hs) as (v & Hv & <-).
    destruct (node_name p v Hv) as [a Ha]. exists a. split; [apply idb_node; eauto|].
    by apply sigma_node.
  - apply sigma_same.
  - apply sigma_dep.
  - apply sigma_neg.
  - intros s st Hst%Hlook. tauto.
  - intros Hall s st (Hs & _ & -> & -> & _)%Hlook.
    assert (Hidb : forall x h, x ∈ rules p -> head_relation x = Some h -> idb p h).
    { intros x h Hx Hh. split; [by eapply Hall|by exists x]. }
    destruct (fill_names_exact (node_map p) (relations p) ids num ids_in_range per (rules p)
      (fun _ => []) (replicate num O) names0) as (names' & Hfill' & _ & Hx);
      [done|by rewrite length_replicate|by unfold names0; rewrite length_fmap| | |].
    + intros x Hin Hne. destruct (head_relation x) as [h|] eqn:Hh; [|done].
      rewrite (proj2 (target_sigma x (sigma h) (fun h' E => Hidb x h' Hin E))); [done|by rewrite Hh].
    + intros s' Hs'. rewrite Hn0, Hper, lookup_total_replicate_2 by done. done.
    + rewrite Hfill in Hfill'. simplify_eq. rewrite Hx by done. cbn [app].
      assert (Hhs : heads (node_map p) (relations p) ids s (rules p) =
                head_relation <$> filter (fun x => sigma <$> head_relation x = Some s) (rules p)).
      { unfold heads. f_equal. apply filter_iff_in. intros x Hin. apply target_sigma.
        intros h. by apply Hidb. }
      split; [done|]. rewrite Hper, lookup_total_replicate_2 by done. done.
Qed.

End Accept.

(** ** Properties *)

(** C2: When no allocation fails, and for a program with a derived relation,
    fewer than UINT32_MAX relations and at most 2^31 references, the pipeline
    decides stratifiability: it returns -2 and leaves the program as it was
    exactly when a negated dependency lies on a cycle; otherwise it returns 0
    and installs strata that are the mutual-dependency classes, are numbered so
    that dependencies never point upwards and negated ones point strictly
    downwards, and are marked recursive exactly when one of their relations
    depends on itself; if moreover every rule's head is a declared relation,
    the strata carry their rules' heads in program order. *)
Theorem stratify_program_correct (p : program)
  (Hb : bounded p) (Hidb : exists a, idb p a) :
  (~ stratifiable p /\ stratify_program (fun _ => true) p = Some (-2, p)) \/
  (stratifiable p /\ exists p' sigma,
     stratify_program (fun _ => true) p = Some (0, p') /\ strata_spec p p' sigma).
Proof.
  unfold stratify_program. destruct (Nat.eqb_spec (length (rules p)) 0) as [E|_].
  { destruct Hidb as (a & _ & x & Hx & _). apply nil_length_inv in E.
    rewrite E in Hx. by apply not_elem_of_nil in Hx. }
  destruct (build_ok (fun _ => true) p Hb) as [(? & ? & _)|[[Hn _]|(Hn & g & -> & Hg & He)]];
    [done|by apply no_idb in Hn|]. cbn [mbind option_bind Z.eqb negb]. rewrite Hg, He.
  destruct (scc_detect_ok (length (node_map p)) (edge_pairs (all_edges p))) as (r & Hr & S);
    [by destruct (node_map p); cbn; [|lia]|by apply node_map_bound|].
  unfold edge_pairs in Hr. rewrite Hr. cbn [mbind option_bind negb].
  pose proof (negation_cycle_spec p r S) as Hneg.
  destruct (negation_cycle _ _ _).
  - left. split; [|done]. intros Hs. by apply Hneg in Hs.
  - right. split; [by apply Hneg|].
    destruct (assign_strata_ok p r S (proj1 Hneg eq_refl) g Hg He) as (p' & -> & Hp'). eauto.
Qed.

Lemma stratify_program_correct_witness :
  (~ stratifiable win_move /\ stratify_program (fun _ => true) win_move = Some (-2, win_move)) \/
  (stratifiable win_move /\ exists p' sigma,
     stratify_program (fun _ => true) win_move = Some (0, p') /\ strata_spec win_move p' sigma).
Proof.
  apply (stratify_program_correct win_move); [split; vm_compute; done|].
  exists "win". split; [vm_compute; set_solver|].
  eexists. split; [right; right; left|reflexivity].
Defined.

(** Whatever allocations fail, the pipeline stays inside its arrays and
    terminates with one of the three documented codes.  It never changes the
    relations or the rules, reports -1 only after a failed allocation and
    without setting the stratified flag, reports -2 only for a program that is
    not stratifiable and then leaves it untouched, and sets the flag when it
    reports success. *)
Theorem stratify_program_safe (alloc : site -> bool) (p : program) (Hb : bounded p) :
  exists rc p', stratify_program alloc p = Some (rc, p') /\
    relations p' = relations p /\ rules p' = rules p /\
    (rc = 0 /\ is_stratified p' = true \/
     rc = -1 /\ is_stratified p' = is_stratified p /\ (exists s, alloc s = false) \/
     rc = -2 /\ p' = p /\ ~ stratifiable p).
Proof.
  assert (Hd : forall q, relations q = relations p -> rules q = rules p ->
    relations (with_strata q (strata q) true) = relations p /\
    rules (with_strata q (strata q) true) = rules p) by done.
  assert (Hdef : relations (build_default_stratum alloc p) = relations p /\
                 rules (build_default_stratum alloc p) = rules p)
    by (unfold build_default_stratum; by destruct (alloc _)).
  unfold stratify_program. destruct (Nat.eqb_spec (length (rules p)) 0) as [_|_].
  { do 2 eexists. split; [done|]. destruct (Hd _ (proj1 Hdef) (proj2 Hdef)). eauto 10. }
  destruct (build_ok alloc p Hb) as [(? & ? & ->)|[[Hn ->]|(Hn & g & -> & Hg & He)]];
    cbn [mbind option_bind Z.eqb negb].
  - do 2 eexists. split_and!; eauto 10.
  - do 2 eexists. split; [done|]. destruct (Hd _ (proj1 Hdef) (proj2 Hdef)). eauto 10.
  - rewrite Hg, He. destruct (alloc SScc) eqn:Ha; cycle 1.
    { unfold scc_detect. destruct (_ =? 0)%nat; cbn; do 2 eexists; split_and!; eauto 10. }
    destruct (scc_detect_ok (length (node_map p)) (edge_pairs (all_edges p))) as (r & Hr & S);
      [by destruct (node_map p); cbn; [|lia]|by apply node_map_bound|].
    unfold edge_pairs in Hr. rewrite Hr. cbn [mbind option_bind negb].
    destruct (alloc SStratumId) eqn:?; cbn [negb]; [|do 2 eexists; split_and!; eauto 10].
    pose proof (negation_cycle_spec p r S) as Hneg. destruct (negation_cycle _ _ _).
    + do 2 eexists. split_and!; [done..|]. right. right. split_and!; [done..|].
      intros Hs. by apply Hneg in Hs.
    + destruct (assign_strata_safe p r S alloc g Hg) as (rc & p' & -> & H1 & H2 & H3).
      do 2 eexists. split_and!; [done..|]. naive_solver.
Qed.

Lemma stratify_program_safe_witness :
  exists rc p', stratify_program (fun s => match s with SFillIdx => false | _ => true end) win_move
      = Some (rc, p') /\
    relations p' = relations win_move /\ rules p' = rules win_move /\
    (rc = 0 /\ is_stratified p' = true \/
     rc = -1 /\ is_stratified p' = is_stratified win_move /\
       (exists s, match s with SFillIdx => false | _ => true end = false) \/
     rc = -2 /\ p' = win_move /\ ~ stratifiable win_move).
Proof.
  apply (stratify_program_safe (fun s => match s with SFillIdx => false | _ => true end) win_move).
  split; vm_compute; done.
Defined.

(** ** Two behaviours at the edge of the contract *)

(** A rule whose head names no declared relation, ahead of a real rule. *)
Definition ghost_rule : program :=
  Program ["move"; "reach"]
    [Rule (Some "ghost") (Some (scan "move")); Rule (Some "reach") (Some (scan "move"))] [] false.

(** A rule whose head is not a graph node keeps stratum 0 from the
    zero-initialised array and takes a slot that the counting loop reserved for
    another rule: the stratum of this program lists the absent relation and
    omits the real one. *)
Theorem ghost_head_displaces_rule :
  exists p', stratify_program (fun _ => true) ghost_rule = Some (0, p') /\
    strata p' = [Stratum 0 [Some "ghost"] 1 false].
Proof. eexists. split; [by vm_compute|done]. Qed.

(** When the scratch array of the marking pass cannot be allocated, the
    pipeline still reports success, and a stratum whose relation depends on
    itself is left marked as not recursive. *)
Theorem recursion_mark_lost :
  exists p', stratify_program (fun s => match s with SSccSize => false | _ => true end) win_move
      = Some (0, p') /\
    tc (dep_any win_move) "reach" "reach" /\
    exists st, st ∈ strata p' /\ Some "reach" ∈ rule_names st /\ is_recursive st = false.
Proof.
  eexists. split; [by vm_compute|]. split.
  - apply tc_once. exists DEP_POSITIVE.
    assert (Hi : idb win_move "reach").
    { split; [vm_compute; set_solver|]. eexists. split; [left|reflexivity]. }
    split_and!; [done..|]. eexists. split_and!; [right; left|done|vm_compute; set_solver].
  - eexists. split_and!; [left|left|done].
Qed.

End StratifyProof.
