(* ===== verification/Lexer.v ===== *)
(** * Lexer (wirelog/parser/lexer.c, lexer.h)

    The scanner as a state machine over a NUL-terminated text.  A text is the
    list of its bytes without the terminator; a pointer into it is an index, and
    reading at the length yields the terminator.  [None] is a read past the
    terminator or a loop that has not ended within its fuel; the theorems show
    that neither happens.  Character classes are those of the C locale.  The
    conversion of a float literal ([strtod_l]) and the allocation of its text
    are parameters. *)
From Stdlib Require Import Ascii.
From S2P Require Import Prelude.

Module Lexer.

(** wl_parser_lexer_token_type_t *)
Inductive token_type :=
  | TOK_IDENT | TOK_INTEGER | TOK_FLOAT | TOK_STRING | TOK_TRUE | TOK_FALSE | TOK_UNDERSCORE
  | TOK_COUNT | TOK_SUM | TOK_MIN | TOK_MAX | TOK_AVG | TOK_INT32 | TOK_INT64 | TOK_STRING_TYPE
  | TOK_SYMBOL_TYPE | TOK_FLOAT_TYPE | TOK_LPAREN | TOK_RPAREN | TOK_COMMA | TOK_DOT
  | TOK_COLON | TOK_BANG | TOK_AT | TOK_HORN | TOK_EQ | TOK_NEQ | TOK_LT | TOK_GT | TOK_LTE
  | TOK_GTE | TOK_PLUS | TOK_MINUS | TOK_STAR | TOK_SLASH | TOK_PERCENT | TOK_BAND | TOK_BOR
  | TOK_BXOR | TOK_BNOT | TOK_BSHL | TOK_BSHR | TOK_HASH | TOK_MD5 | TOK_SHA1 | TOK_SHA256
  | TOK_SHA512 | TOK_HMAC_SHA256 | TOK_UUID4 | TOK_UUID5 | TOK_UUID5_RFC | TOK_CRC32_ETH
  | TOK_CRC32_CAST | TOK_STRLEN | TOK_CAT | TOK_SUBSTR | TOK_CONTAINS | TOK_STR_PREFIX
  | TOK_STR_SUFFIX | TOK_STR_ORD | TOK_TO_UPPER | TOK_TO_LOWER | TOK_STR_REPLACE | TOK_TRIM
  | TOK_TO_STRING | TOK_TO_NUMBER | TOK_DECL | TOK_INPUT | TOK_OUTPUT | TOK_PRINTSIZE
  | TOK_PLAN | TOK_QUERY | TOK_EOF | TOK_ERROR.

#[export] Instance token_type_eq_dec : EqDecision token_type.
Proof. solve_decision. Defined.

(** wl_parser_lexer_token_t; [float_value] is a binary64 bit pattern. *)
Record token := Token {
  type : token_type;
  tstart : nat;
  length : Z;
  tline : Z;
  tcol : Z;
  int_value : Z;
  uint_value : Z;
  float_value : Z }.

(** wl_parser_lexer_t *)
Record lexer := Lex {
  source : list Z;
  current : nat;
  start : nat;
  line : Z;
  col : Z;
  start_line : Z;
  start_col : Z;
  error_msg : string }.

(** ** Characters *)

Definition chr (a : ascii) : Z := Z.of_N (N_of_ascii a).
Definition bytes (s : string) : list Z := chr <$> String.list_ascii_of_string s.

Definition NUL : Z := 0.
Definition NEWLINE : Z := 10.
Definition QUOTE : Z := 34.
Definition BACKSLASH : Z := 92.

Definition isdigit (c : Z) : bool := (48 <=? c) && (c <=? 57).
Definition isalpha (c : Z) : bool := (65 <=? c) && (c <=? 90) || (97 <=? c) && (c <=? 122).
Definition isalnum (c : Z) : bool := isalpha c || isdigit c.

(** ** Helpers *)

Definition set_pos (lx : lexer) (i : nat) (l c : Z) : lexer :=
  Lex (source lx) i (start lx) l c (start_line lx) (start_col lx) (error_msg lx).

Definition read (lx : lexer) (i : nat) : option Z := rd (source lx ++ [NUL]) i.

Definition peek (lx : lexer) : option Z := read lx (current lx).

Definition is_at_end (lx : lexer) : option bool := c ← peek lx; Some (c =? NUL).

Definition peek_next (lx : lexer) : option Z :=
  e ← is_at_end lx; if e : bool then Some NUL else read lx (S (current lx)).

Definition advance (lx : lexer) : option (Z * lexer) :=
  c ← peek lx;
  Some (c, if c =? NEWLINE then set_pos lx (S (current lx)) (u32 (line lx + 1)) 1
           else set_pos lx (S (current lx)) (line lx) (u32 (col lx + 1))).

Definition match_char (lx : lexer) (expected : Z) : option (bool * lexer) :=
  e ← is_at_end lx;
  if e : bool then Some (false, lx)
  else
    c ← peek lx;
    if negb (c =? expected) then Some (false, lx)
    else '(_, lx') ← advance lx; Some (true, lx').

Definition make_token (lx : lexer) (ty : token_type) : token :=
  Token ty (start lx) (u32 (Z.of_nat (current lx) - Z.of_nat (start lx)))
    (start_line lx) (start_col lx) 0 0 0.

Definition make_error (lx : lexer) (message : string) : token * lexer :=
  (make_token lx TOK_ERROR,
   Lex (source lx) (current lx) (start lx) (line lx) (col lx) (start_line lx) (start_col lx) message).

(** while (!is_at_end(lexer) && p(peek(lexer))) advance(lexer); *)
Fixpoint advance_while (fuel : nat) (p : Z -> bool) (lx : lexer) : option lexer :=
  match fuel with
  | O => None
  | S fuel' =>
      e ← is_at_end lx;
      if e : bool then Some lx
      else
        c ← peek lx;
        if p c then '(_, lx') ← advance lx; advance_while fuel' p lx' else Some lx
  end.

Definition fuel_of (lx : lexer) : nat := S (List.length (source lx)).

(** ** Whitespace and comments *)

Definition is_space (c : Z) : bool := (c =? 32) || (c =? 9) || (c =? 13) || (c =? NEWLINE).

Definition not_newline (c : Z) : bool := negb (c =? NEWLINE).

Fixpoint skip_whitespace_and_comments (fuel : nat) (lx : lexer) : option lexer :=
  match fuel with
  | O => None
  | S fuel' =>
      c ← peek lx;
      if is_space c then '(_, lx1) ← advance lx; skip_whitespace_and_comments fuel' lx1
      else if c =? chr "#" then
        lx1 ← advance_while (fuel_of lx) not_newline lx;
        skip_whitespace_and_comments fuel' lx1
      else
        slashes ← (if c =? chr "/" then n ← peek_next lx; Some (n =? chr "/") else Some false);
        if slashes : bool then
          '(_, lx1) ← advance lx;
          '(_, lx2) ← advance lx1;
          lx3 ← advance_while (fuel_of lx) not_newline lx2;
          skip_whitespace_and_comments fuel' lx3
        else Some lx
  end.

(** ** Strings *)

Definition escapable (c : Z) : bool := (c =? QUOTE) || (c =? BACKSLASH).

Fixpoint string_loop (fuel : nat) (lx : lexer) : option lexer :=
  match fuel with
  | O => None
  | S fuel' =>
      e ← is_at_end lx;
      c ← peek lx;
      if (e : bool) || (c =? QUOTE) then Some lx
      else
        esc ← (if c =? BACKSLASH then n ← peek_next lx; Some (escapable n) else Some false);
        if esc : bool then
          '(_, lx1) ← advance lx; '(_, lx2) ← advance lx1; string_loop fuel' lx2
        else '(_, lx1) ← advance lx; string_loop fuel' lx1
  end.

Definition scan_string (lx : lexer) : option (token * lexer) :=
  lx1 ← string_loop (fuel_of lx) lx;
  e ← is_at_end lx1;
  if e : bool then Some (make_error lx1 "unterminated string literal")
  else '(_, lx2) ← advance lx1; Some (make_token lx2 TOK_STRING, lx2).

(** The text of a token: [memcpy] of its bytes. *)
Definition token_text (src : list Z) (t : token) : list Z :=
  take (Z.to_nat (length t)) (drop (tstart t) src).

(** The decoding loop over the bytes between the quotes. *)
Fixpoint decode (l : list Z) : list Z :=
  match l with
  | c :: ((d :: l') as r) =>
      if (c =? BACKSLASH) && escapable d then d :: decode l' else c :: decode r
  | _ => l
  end.

(** [wl_parser_lexer_token_to_string] when its allocation succeeds. *)
Definition token_to_string (src : list Z) (t : token) : list Z :=
  if bool_decide (type t = TOK_STRING) && (2 <=? length t)
  then decode (take (Z.to_nat (length t - 2)) (drop (S (tstart t)) src))
  else token_text src t.

(** ** Numbers *)

Definition max_signed_magnitude : Z := INT64_MAX + 1.

(** value = value * 10 + digit over the literal's bytes, in uint64_t. *)
Definition decimal (l : list Z) : Z := foldl (fun v c => u64 (v * 10 + u64 (c - 48))) 0 l.

(** Binary64 patterns. *)
Definition bits_finite (b : Z) : bool := negb (Z.land (Z.shiftr b 52) 2047 =? 2047).
Definition bits_zero (b : Z) : bool := (b =? 0) || (b =? 2 ^ 63).

Section Scan.

(** [strtod text] is the end offset, errno and the value's bit pattern, or
    [None] when the "C" locale object cannot be created; [alloc] is the outcome
    of the text's allocation. *)
Variable strtod : list Z -> option (nat * Z * Z).
Variable alloc : bool.

Definition scan_float (lx : lexer) : token * lexer :=
  let t := make_token lx TOK_FLOAT in
  if negb alloc then make_error lx "out of memory parsing float literal"
  else
    let text := token_to_string (source lx) t in
    match strtod text with
    | None => make_error lx "float literal is not a finite binary64 value"
    | Some (end_, errno, value) =>
        let invalid := (end_ =? 0)%nat || negb (end_ =? List.length text)%nat
                       || negb (bits_finite value)
                       || ((errno =? ERANGE) && bits_zero value) in
        if invalid then make_error lx "float literal is not a finite binary64 value"
        else (Token TOK_FLOAT (tstart t) (length t) (tline t) (tcol t) 0 0
                (if bits_zero value then 0 else value), lx)
    end.

Definition scan_integer (lx : lexer) : token * lexer :=
  let t := make_token lx TOK_INTEGER in
  if (19 <? Z.of_nat (current lx) - Z.of_nat (tstart t))
  then make_error lx "integer literal out of int64 range"
  else
    let value := decimal (take (current lx - tstart t) (drop (tstart t) (source lx))) in
    if max_signed_magnitude <? value
    then make_error lx "integer literal out of int64 range"
    else (Token TOK_INTEGER (tstart t) (length t) (tline t) (tcol t)
            (if value <=? INT64_MAX then value else 0) value 0, lx).

Definition scan_number (lx : lexer) : option (token * lexer) :=
  lx1 ← advance_while (fuel_of lx) isdigit lx;
  c ← peek lx1;
  frac ← (if c =? chr "." then n ← peek_next lx1; Some (isdigit n) else Some false);
  lx2 ← (if frac : bool
         then '(_, lx') ← advance lx1; advance_while (fuel_of lx) isdigit lx'
         else Some lx1);
  e ← peek lx2;
  if (e =? chr "e") || (e =? chr "E") then
    '(_, lx3) ← advance lx2;
    s ← peek lx3;
    lx4 ← (if (s =? chr "+") || (s =? chr "-") then '(_, lx') ← advance lx3; Some lx' else Some lx3);
    d ← peek lx4;
    if negb (isdigit d) then Some (make_error lx4 "malformed float exponent")
    else lx5 ← advance_while (fuel_of lx) isdigit lx4; Some (scan_float lx5)
  else Some (if frac : bool then scan_float lx2 else scan_integer lx2).

(** ** Identifiers and directives *)

Definition keywords : list (string * token_type) :=
  [("True", TOK_TRUE); ("False", TOK_FALSE); ("count", TOK_COUNT); ("sum", TOK_SUM);
   ("min", TOK_MIN); ("max", TOK_MAX); ("average", TOK_AVG); ("COUNT", TOK_COUNT);
   ("SUM", TOK_SUM); ("MIN", TOK_MIN); ("MAX", TOK_MAX); ("AVG", TOK_AVG);
   ("int32", TOK_INT32); ("int64", TOK_INT64); ("string", TOK_STRING_TYPE);
   ("symbol", TOK_SYMBOL_TYPE); ("float", TOK_FLOAT_TYPE); ("band", TOK_BAND);
   ("bor", TOK_BOR); ("bxor", TOK_BXOR); ("bnot", TOK_BNOT); ("bshl", TOK_BSHL);
   ("bshr", TOK_BSHR); ("hash", TOK_HASH); ("md5", TOK_MD5); ("sha1", TOK_SHA1);
   ("sha256", TOK_SHA256); ("sha512", TOK_SHA512); ("hmac_sha256", TOK_HMAC_SHA256);
   ("uuid4", TOK_UUID4); ("uuid5", TOK_UUID5); ("crc32_ethernet", TOK_CRC32_ETH);
   ("crc32_castagnoli", TOK_CRC32_CAST); ("strlen", TOK_STRLEN); ("cat", TOK_CAT);
   ("substr", TOK_SUBSTR); ("contains", TOK_CONTAINS); ("str_prefix", TOK_STR_PREFIX);
   ("str_suffix", TOK_STR_SUFFIX); ("str_ord", TOK_STR_ORD); ("to_upper", TOK_TO_UPPER);
   ("to_lower", TOK_TO_LOWER); ("str_replace", TOK_STR_REPLACE); ("trim", TOK_TRIM);
   ("to_string", TOK_TO_STRING); ("to_number", TOK_TO_NUMBER); ("uuid5_rfc", TOK_UUID5_RFC)].

(** The chain of [check_keyword] tests, in order. *)
Definition identifier_type (text : list Z) : token_type :=
  match list_find (fun kw => text = bytes kw.1) keywords with
  | Some (_, kw) => kw.2
  | None => TOK_IDENT
  end.

Definition ident_char (c : Z) : bool := isalnum c || (c =? chr "_").

Definition scan_identifier (lx : lexer) : option (token * lexer) :=
  lx1 ← advance_while (fuel_of lx) ident_char lx;
  let text := take (current lx1 - start lx1) (drop (start lx1) (source lx1)) in
  Some (make_token lx1 (identifier_type text), lx1).

Definition directives : list (string * token_type) :=
  [(".decl", TOK_DECL); (".input", TOK_INPUT); (".output", TOK_OUTPUT);
   (".printsize", TOK_PRINTSIZE); (".plan", TOK_PLAN); (".query", TOK_QUERY)].

Definition scan_directive (lx : lexer) : option (token * lexer) :=
  lx1 ← advance_while (fuel_of lx) isalpha lx;
  let text := take (current lx1 - start lx1) (drop (start lx1) (source lx1)) in
  match list_find (fun d => text = bytes d.1) directives with
  | Some (_, d) => Some (make_token lx1 d.2, lx1)
  | None =>
      let lx2 := set_pos lx1 (S (start lx1)) (line lx1) (u32 (start_col lx1 + 1)) in
      Some (make_token lx2 TOK_DOT, lx2)
  end.

(** ** The scanner *)

(** Punctuation of one character, and of one or two. *)
Definition single : list (Z * token_type) :=
  [(chr "(", TOK_LPAREN); (chr ")", TOK_RPAREN); (chr ",", TOK_COMMA); (chr "@", TOK_AT);
   (chr "=", TOK_EQ); (chr "+", TOK_PLUS); (chr "-", TOK_MINUS); (chr "*", TOK_STAR);
   (chr "/", TOK_SLASH); (chr "%", TOK_PERCENT)].

Definition double : list (Z * (Z * token_type * token_type)) :=
  [(chr ":", (chr "-", TOK_HORN, TOK_COLON)); (chr "!", (chr "=", TOK_NEQ, TOK_BANG));
   (chr "<", (chr "=", TOK_LTE, TOK_LT)); (chr ">", (chr "=", TOK_GTE, TOK_GT))].

Definition scan_punct (c : Z) (lx : lexer) : option (token * lexer) :=
  match list_find (fun x => x.1 = c) double with
  | Some (_, (_, (second, two, one))) =>
      '(m, lx') ← match_char lx second;
      Some (make_token lx' (if m : bool then two else one), lx')
  | None =>
      match list_find (fun x => x.1 = c) single with
      | Some (_, (_, ty)) => Some (make_token lx ty, lx)
      | None => Some (make_error lx "unexpected character")
      end
  end.

Definition underscore_ident (lx : lexer) : option bool :=
  e ← is_at_end lx;
  if e : bool then Some false
  else
    c ← peek lx;
    if isalpha c then Some true
    else if c =? chr "_" then
      n ← peek_next lx; Some (isalpha n || (n =? chr "_"))
    else Some false.

Definition scan_token (lx : lexer) : option (token * lexer) :=
  lx0 ← skip_whitespace_and_comments (fuel_of lx) lx;
  let lx1 := Lex (source lx0) (current lx0) (current lx0) (line lx0) (col lx0)
               (line lx0) (col lx0) (error_msg lx0) in
  e ← is_at_end lx1;
  if e : bool then Some (make_token lx1 TOK_EOF, lx1)
  else
    '(c, lx2) ← advance lx1;
    if isalpha c then scan_identifier lx2
    else if c =? chr "_" then
      b ← underscore_ident lx2;
      if b : bool then scan_identifier lx2 else Some (make_token lx2 TOK_UNDERSCORE, lx2)
    else if isdigit c then scan_number lx2
    else if c =? QUOTE then scan_string lx2
    else if c =? chr "." then
      e2 ← is_at_end lx2;
      d ← peek lx2;
      if negb e2 && isalpha d then scan_directive lx2 else Some (make_token lx2 TOK_DOT, lx2)
    else scan_punct c lx2.

(** ** Public interface *)

Definition lexer_init (src : list Z) : lexer := Lex src 0 0 1 1 1 1 "".

Definition next_token (lx : lexer) : option (token * lexer) := scan_token lx.

Definition peek_token (lx : lexer) : option (token * lexer) :=
  '(t, lx') ← scan_token lx;
  Some (t, Lex (source lx) (current lx) (start lx) (line lx) (col lx)
             (start_line lx) (start_col lx) (error_msg lx')).

End Scan.

Definition token_type_str (t : token_type) : string :=
  match t with
  | TOK_IDENT => "IDENT" | TOK_INTEGER => "INTEGER" | TOK_FLOAT => "FLOAT"
  | TOK_STRING => "STRING" | TOK_TRUE => "TRUE" | TOK_FALSE => "FALSE"
  | TOK_UNDERSCORE => "UNDERSCORE" | TOK_COUNT => "COUNT" | TOK_SUM => "SUM" | TOK_MIN => "MIN"
  | TOK_MAX => "MAX" | TOK_AVG => "AVG" | TOK_INT32 => "INT32" | TOK_INT64 => "INT64"
  | TOK_STRING_TYPE => "STRING_TYPE" | TOK_SYMBOL_TYPE => "SYMBOL_TYPE"
  | TOK_FLOAT_TYPE => "FLOAT_TYPE" | TOK_LPAREN => "LPAREN" | TOK_RPAREN => "RPAREN"
  | TOK_COMMA => "COMMA" | TOK_DOT => "DOT" | TOK_COLON => "COLON" | TOK_BANG => "BANG"
  | TOK_AT => "AT" | TOK_HORN => "HORN" | TOK_EQ => "EQ" | TOK_NEQ => "NEQ" | TOK_LT => "LT"
  | TOK_GT => "GT" | TOK_LTE => "LTE" | TOK_GTE => "GTE" | TOK_PLUS => "PLUS"
  | TOK_MINUS => "MINUS" | TOK_STAR => "STAR" | TOK_SLASH => "SLASH" | TOK_PERCENT => "PERCENT"
  | TOK_BAND => "BAND" | TOK_BOR => "BOR" | TOK_BXOR => "BXOR" | TOK_BNOT => "BNOT"
  | TOK_BSHL => "BSHL" | TOK_BSHR => "BSHR" | TOK_HASH => "HASH" | TOK_MD5 => "MD5"
  | TOK_SHA1 => "SHA1" | TOK_SHA256 => "SHA256" | TOK_SHA512 => "SHA512"
  | TOK_HMAC_SHA256 => "HMAC_SHA256" | TOK_UUID4 => "UUID4" | TOK_UUID5 => "UUID5"
  | TOK_UUID5_RFC => "UUID5_RFC" | TOK_CRC32_ETH => "CRC32_ETHERNET"
  | TOK_CRC32_CAST => "CRC32_CASTAGNOLI" | TOK_STRLEN => "STRLEN" | TOK_CAT => "CAT"
  | TOK_SUBSTR => "SUBSTR" | TOK_CONTAINS => "CONTAINS" | TOK_STR_PREFIX => "STR_PREFIX"
  | TOK_STR_SUFFIX => "STR_SUFFIX" | TOK_STR_ORD => "STR_ORD" | TOK_TO_UPPER => "TO_UPPER"
  | TOK_TO_LOWER => "TO_LOWER" | TOK_STR_REPLACE => "STR_REPLACE" | TOK_TRIM => "TRIM"
  | TOK_TO_STRING => "TO_STRING" | TOK_TO_NUMBER => "TO_NUMBER" | TOK_DECL => "DECL"
  | TOK_INPUT => "INPUT" | TOK_OUTPUT => "OUTPUT" | TOK_PRINTSIZE => "PRINTSIZE"
  | TOK_PLAN => "PLAN" | TOK_QUERY => "QUERY" | TOK_EOF => "EOF" | TOK_ERROR => "ERROR"
  end.

(** The tokens up to and including the end of input. *)
Fixpoint tokens strtod (fuel : nat) (lx : lexer) : option (list token) :=
  match fuel with
  | O => None
  | S fuel' =>
      '(t, lx') ← next_token strtod true lx;
      if bool_decide (type t = TOK_EOF) then Some [t]
      else ts ← tokens strtod fuel' lx'; Some (t :: ts)
  end.

Definition no_strtod (_ : list Z) : option (nat * Z * Z) := None.

Example lex_rule :
  option_map (fmap type) (tokens no_strtod 40 (lexer_init (bytes "r(x, _) :- e(x, 42), !x1(_y). // end")))
  = Some [TOK_IDENT; TOK_LPAREN; TOK_IDENT; TOK_COMMA; TOK_UNDERSCORE; TOK_RPAREN; TOK_HORN;
          TOK_IDENT; TOK_LPAREN; TOK_IDENT; TOK_COMMA; TOK_INTEGER; TOK_RPAREN; TOK_COMMA;
          TOK_BANG; TOK_IDENT; TOK_LPAREN; TOK_IDENT; TOK_RPAREN; TOK_DOT; TOK_EOF].
Proof. by vm_compute. Qed.

End Lexer.
