(* ===== verification/LexerProof.v ===== *)
(** * Correctness of the lexer

    Views of the unread suffix, the effect of each scanner on it, and the
    theorems: totality, tiling of the source by tokens, positions, literals. *)
From Stdlib Require Import Ascii.
From S2P Require Import Prelude Lexer.
Import Lexer.

Module LexerProof.

Abbreviation len := List.length.

(** ** Longest prefixes *)

Fixpoint tw (p : Z -> bool) (l : list Z) : list Z :=
  match l with c :: l' => if p c then c :: tw p l' else [] | [] => [] end.
Fixpoint dw (p : Z -> bool) (l : list Z) : list Z :=
  match l with c :: l' => if p c then dw p l' else l | [] => [] end.

Lemma tw_dw p l : tw p l ++ dw p l = l.
Proof. induction l as [|c l IH]; cbn; [done|]. destruct (p c); cbn; by rewrite ?IH. Qed.

Lemma tw_all p l : Forall (fun c => p c = true) (tw p l).
Proof. induction l as [|c l IH]; cbn; [done|]. destruct (p c) eqn:?; by constructor. Qed.

Lemma dw_stop p l : match dw p l with c :: _ => p c = false | [] => True end.
Proof. induction l as [|c l IH]; cbn; [done|]. destruct (p c) eqn:?; done. Qed.

(** A run that satisfies [p], before something that does not start with [p]. *)
Lemma tw_app p a l : Forall (fun c => p c = true) a ->
  match l with c :: _ => p c = false | [] => True end -> tw p (a ++ l) = a /\ dw p (a ++ l) = l.
Proof.
  intros Ha Hl. induction Ha as [|c a Hc _ [IH1 IH2]]; cbn.
  - destruct l as [|c l]; [done|]. cbn. by rewrite Hl.
  - rewrite Hc, IH1. done.
Qed.

(** ** The unread suffix *)

Definition plain (c : Z) : Prop := 0 < c < 256.

(** [l] is what the lexer has not read yet. *)
Record at_ (lx : lexer) (l : list Z) : Prop := {
  at_rest : drop (current lx) (source lx) = l;
  at_le : (current lx <= len (source lx))%nat;
  at_plain : Forall plain l }.

Definition adv_pos (lc : Z * Z) (c : Z) : Z * Z :=
  if c =? NEWLINE then (u32 (lc.1 + 1), 1) else (lc.1, u32 (lc.2 + 1)).

(** The lexer after reading [pre]. *)
Definition go (lx : lexer) (pre : list Z) : lexer :=
  let lc := foldl adv_pos (line lx, col lx) pre in
  set_pos lx (current lx + len pre) lc.1 lc.2.

Lemma go_nil lx : go lx [] = lx.
Proof. destruct lx. unfold go, set_pos. cbn. by rewrite Nat.add_0_r. Qed.

Lemma go_go lx a b : go (go lx a) b = go lx (a ++ b).
Proof.
  unfold go, set_pos. cbn. rewrite foldl_app, length_app, Nat.add_assoc.
  by destruct (foldl adv_pos (line lx, col lx) a).
Qed.

Lemma go_at lx pre l : at_ lx (pre ++ l) -> at_ (go lx pre) l.
Proof.
  intros [Hr Hl Hp]. split; cbn.
  - rewrite <- drop_drop, Hr. by rewrite drop_app_length.
  - apply (f_equal len) in Hr. rewrite length_drop, length_app in Hr. lia.
  - by apply Forall_app in Hp as [_ ?].
Qed.

Lemma source_go lx pre : source (go lx pre) = source lx.
Proof. done. Qed.
Lemma start_go lx pre : start (go lx pre) = start lx.
Proof. done. Qed.

Section View.
Context (lx : lexer) (l : list Z) (H : at_ lx l).

Lemma read_view i : (i <= len l)%nat -> read lx (current lx + i) = Some (default 0 (l !! i)).
Proof.
  destruct H as [Hr Hl _]. intros Hi. unfold read, rd.
  assert (Hlen : len l = (len (source lx) - current lx)%nat) by (by rewrite <- Hr, length_drop).
  destruct (decide (i = len l)) as [->|].
  - rewrite lookup_app_r by lia. rewrite (lookup_ge_None_2 l) by lia.
    by replace (current lx + len l - len (source lx))%nat with O by lia.
  - rewrite lookup_app_l by lia. rewrite <- lookup_drop, Hr.
    by destruct (lookup_lt_is_Some_2 l i) as [c ->]; [lia|].
Qed.

Lemma peek_view : peek lx = Some (hd 0 l).
Proof. unfold peek. rewrite <- (Nat.add_0_r (current lx)), read_view by lia. by destruct l. Qed.

Lemma end_view : is_at_end lx = Some (match l with [] => true | _ => false end).
Proof.
  unfold is_at_end. rewrite peek_view. cbn. f_equal. destruct H as [_ _ Hp].
  destruct Hp as [|c l' Hc _]; [done|]. cbn. apply Z.eqb_neq. unfold plain, NUL in *. lia.
Qed.

Lemma next_view : peek_next lx = Some (hd 0 (tail l)).
Proof.
  unfold peek_next. rewrite end_view. cbn. pose proof (read_view 1) as Hr. revert Hr.
  rewrite Nat.add_1_r. destruct l as [|c l']; [done|]. intros ->; [by destruct l'|cbn; lia].
Qed.

End View.

Lemma advance_view lx c l : at_ lx (c :: l) ->
  advance lx = Some (c, go lx [c]) /\ at_ (go lx [c]) l.
Proof.
  intros H. split; [|by apply (go_at lx [c])]. unfold advance. rewrite (peek_view _ _ H). cbn.
  unfold go, adv_pos. cbn. rewrite Nat.add_1_r. by destruct (c =? NEWLINE).
Qed.

Lemma at_plain_hd lx c l : at_ lx (c :: l) -> c <> 0.
Proof. intros [_ _ Hp]. apply Forall_cons in Hp as [? _]. unfold plain in *. lia. Qed.

Lemma at_fuel lx l : at_ lx l -> (len l < fuel_of lx)%nat.
Proof. intros [Hr _ _]. unfold fuel_of. rewrite <- Hr, length_drop. lia. Qed.

Lemma advance_while_view p fuel : forall lx l, at_ lx l -> (len l < fuel)%nat ->
  advance_while fuel p lx = Some (go lx (tw p l)) /\ at_ (go lx (tw p l)) (dw p l).
Proof.
  induction fuel as [|fuel IH]; intros lx l H Hf; [lia|]. cbn [advance_while].
  rewrite (end_view _ _ H), (peek_view _ _ H). cbn [mbind option_bind].
  destruct l as [|c l]; cbn; [by rewrite go_nil|].
  destruct (p c); [|by rewrite go_nil].
  destruct (advance_view _ _ _ H) as [-> H']. cbn [mbind option_bind].
  destruct (IH _ _ H') as [-> ?]; [cbn in Hf; lia|]. rewrite go_go in *. done.
Qed.

(** ** Blanks *)

(** Where a comment ends: at a newline or at the end of the text. *)
Definition line_end (r : list Z) : Prop := r = [] \/ exists r', r = NEWLINE :: r'.

(** [blank pre l]: [pre] is whitespace and comments, in front of [l]. *)
Inductive blank : list Z -> list Z -> Prop :=
  | blank_nil l : blank [] l
  | blank_space c pre l : is_space c = true -> blank pre l -> blank (c :: pre) l
  | blank_hash body pre l : Forall (fun c => not_newline c = true) body ->
      line_end (pre ++ l) -> blank pre l -> blank (chr "#" :: body ++ pre) l
  | blank_slashes body pre l : Forall (fun c => not_newline c = true) body ->
      line_end (pre ++ l) -> blank pre l -> blank (chr "/" :: chr "/" :: body ++ pre) l.

(** No blank starts here. *)
Definition solid (l : list Z) : Prop :=
  match l with
  | [] => True
  | c :: l' => is_space c = false /\ c <> chr "#" /\ ~ (c = chr "/" /\ hd 0 l' = chr "/")
  end.

Lemma dw_line_end l : line_end (dw not_newline l).
Proof.
  pose proof (dw_stop not_newline l) as H. unfold line_end, not_newline in *.
  destruct (dw _ l) as [|c r]; [by left|right]. apply negb_false_iff, Z.eqb_eq in H as ->. eauto.
Qed.

Lemma skip_view fuel : forall lx l, at_ lx l -> (len l < fuel)%nat ->
  exists pre l', l = pre ++ l' /\ blank pre l' /\ solid l' /\
    skip_whitespace_and_comments fuel lx = Some (go lx pre) /\ at_ (go lx pre) l'.
Proof.
  induction fuel as [|fuel IH]; intros lx l H Hf; [lia|]. cbn [skip_whitespace_and_comments].
  rewrite (peek_view _ _ H). cbn [mbind option_bind]. destruct l as [|c l].
  { exists [], []. cbn. rewrite go_nil. split_and!; [done|constructor|done..]. }
  cbn [hd]. cbn in Hf. destruct (is_space c) eqn:Es.
  { destruct (advance_view _ _ _ H) as [-> H1]. cbn [mbind option_bind].
    destruct (IH _ _ H1) as (pre & l' & -> & Hb & Hs & -> & Ha); [lia|].
    exists (c :: pre), l'. rewrite go_go in *. split_and!; [done|by constructor|done..]. }
  destruct (Z.eqb_spec c (chr "#")) as [->|Hh].
  { destruct (advance_while_view not_newline (fuel_of lx) lx (chr "#" :: l) H) as [-> H1];
      [by apply at_fuel|]. cbn [mbind option_bind].
    change (tw not_newline (chr "#" :: l)) with (chr "#" :: tw not_newline l) in *.
    change (dw not_newline (chr "#" :: l)) with (dw not_newline l) in *.
    pose proof (tw_dw not_newline l) as Hl. pose proof (f_equal len Hl) as Hlen. rewrite length_app in Hlen.
    destruct (IH _ _ H1) as (pre & l' & Hd & Hb & Hs & -> & Ha); [lia|].
    exists (chr "#" :: tw not_newline l ++ pre), l'. rewrite go_go in *. split_and!; [|apply blank_hash|done..]; try done.
    - cbn. by rewrite <- app_assoc, <- Hd, Hl.
    - apply tw_all.
    - rewrite <- Hd. apply dw_line_end. }
  destruct (Z.eqb_spec c (chr "/")) as [->|Hc]; cycle 1.
  { cbn [mbind option_bind]. exists [], (c :: l). cbn [app]. rewrite go_nil.
    split_and!; [done|apply blank_nil| |done..]. split_and!; [done|done|]. intros [? ?]; done. }
  rewrite (next_view _ _ H). cbn [mbind option_bind tail].
  destruct (Z.eqb_spec (hd 0 l) (chr "/")) as [Hd|Hd]; cycle 1.
  { cbn [mbind option_bind]. exists [], (chr "/" :: l). cbn [app]. rewrite go_nil.
    split_and!; [done|apply blank_nil| |done..]. split_and!; [done|done|]. intros [? ?]; done. }
  destruct l as [|d l]; [done|]. cbn in Hd. subst d.
  destruct (advance_view _ _ _ H) as [-> H1]. cbn [mbind option_bind].
  destruct (advance_view _ _ _ H1) as [-> H2]. cbn [mbind option_bind].
  rewrite go_go in *. cbn [app] in *.
  destruct (advance_while_view not_newline (fuel_of lx) _ _ H2) as [-> H3]; [by apply (at_fuel _ _ H2)|].
  cbn [mbind option_bind]. rewrite go_go in *.
  pose proof (tw_dw not_newline l) as Hl. pose proof (f_equal len Hl) as Hlen.
  rewrite length_app in Hlen. cbn in Hf.
  destruct (IH _ _ H3) as (pre & l' & Hd & Hb & Hs & -> & Ha); [lia|]. rewrite go_go in *.
  exists (chr "/" :: chr "/" :: tw not_newline l ++ pre), l'.
  split_and!; [|apply blank_slashes|done..]; try done.
  - cbn. by rewrite <- app_assoc, <- Hd, Hl.
  - apply tw_all.
  - rewrite <- Hd. apply dw_line_end.
Qed.

(** ** Outcomes of the scanners *)

Definition with_msg (m : string) (lx : lexer) : lexer :=
  Lex (source lx) (current lx) (start lx) (line lx) (col lx) (start_line lx) (start_col lx) m.

(** The token [t] that starts at [start lx] and ends after [body]. *)
Definition spans (lx : lexer) (body : list Z) (t : token) : Prop :=
  tstart t = start lx /\ tline t = start_line lx /\ tcol t = start_col lx /\
  length t = u32 (Z.of_nat (current lx + len body) - Z.of_nat (start lx)).

(** A scanner that consumes [body] in front of [l'] and never yields EOF. *)
Definition ends (lx : lexer) (l : list Z) (res : option (token * lexer)) : Prop :=
  exists t body l' m, l = body ++ l' /\ res = Some (t, with_msg m (go lx body)) /\
    spans lx body t /\ type t <> TOK_EOF.

Lemma with_msg_go lx body : go lx body = with_msg (error_msg lx) (go lx body).
Proof. done. Qed.

Lemma ends_token lx body l' ty : ty <> TOK_EOF ->
  ends lx (body ++ l') (Some (make_token (go lx body) ty, go lx body)).
Proof.
  intros Hty. exists (make_token (go lx body) ty), body, l', (error_msg lx).
  split_and!; [done|by rewrite <- with_msg_go|done..].
Qed.

Lemma ends_error lx body l' msg :
  ends lx (body ++ l') (Some (make_error (go lx body) msg)).
Proof. exists (make_token (go lx body) TOK_ERROR), body, l', msg. split_and!; done. Qed.

(** A token whose value fields were filled in. *)
Lemma ends_value lx body l' t : spans lx body t -> type t <> TOK_EOF ->
  ends lx (body ++ l') (Some (t, go lx body)).
Proof.
  intros Hs Ht. exists t, body, l', (error_msg lx).
  split_and!; [done|by rewrite <- with_msg_go|apply Hs..|done].
Qed.

Lemma ends_here lx l ty : ty <> TOK_EOF -> ends lx l (Some (make_token lx ty, lx)).
Proof. intros H. rewrite <- (go_nil lx) at 2 3. by apply (ends_token lx [] l). Qed.

(** ** String literals *)

Fixpoint str_body (l : list Z) : list Z :=
  match l with
  | [] => []
  | c :: r =>
      if c =? QUOTE then []
      else match r with
           | d :: r' => if (c =? BACKSLASH) && escapable d then c :: d :: str_body r'
                        else c :: str_body r
           | [] => [c]
           end
  end.

Fixpoint str_rest (l : list Z) : list Z :=
  match l with
  | [] => []
  | c :: r =>
      if c =? QUOTE then l
      else match r with
           | d :: r' => if (c =? BACKSLASH) && escapable d then str_rest r' else str_rest r
           | [] => []
           end
  end.

(** Induction on a list that may drop two elements at a time. *)
Lemma list_ind2 (P : list Z -> Prop) : P [] -> (forall c, P [c]) ->
  (forall c d l, P l -> P (d :: l) -> P (c :: d :: l)) -> forall l, P l.
Proof.
  intros H0 H1 H2 l. enough (P l /\ forall c, P (c :: l)) by tauto.
  induction l as [|d l [IH1 IH2]]; [split; auto|]. split; [auto|]. intros c. auto.
Qed.

Lemma str_split l : str_body l ++ str_rest l = l.
Proof.
  induction l as [|c|c d l IH1 IH2] using list_ind2; cbn [str_body str_rest]; [done| |];
    destruct (c =? QUOTE); try done.
  destruct (_ && _); cbn; [by rewrite IH1|]. cbn in IH2. by rewrite IH2.
Qed.

Lemma str_rest_quote l : match str_rest l with c :: _ => c = QUOTE | [] => True end.
Proof.
  induction l as [|c|c d l IH1 IH2] using list_ind2; cbn [str_rest]; [done| |];
    destruct (Z.eqb_spec c QUOTE); try done.
  by destruct (_ && _).
Qed.

Lemma string_loop_view l : forall fuel lx, at_ lx l -> (len l < fuel)%nat ->
  string_loop fuel lx = Some (go lx (str_body l)) /\ at_ (go lx (str_body l)) (str_rest l).
Proof.
  assert (Hone : forall c l fuel lx, at_ lx (c :: l) -> (len l < fuel)%nat ->
    (forall fuel lx, at_ lx l -> (len l < fuel)%nat ->
       string_loop fuel lx = Some (go lx (str_body l)) /\ at_ (go lx (str_body l)) (str_rest l)) ->
    ('(_, lx1) ← advance lx; string_loop fuel lx1) = Some (go lx (c :: str_body l)) /\
    at_ (go lx (c :: str_body l)) (str_rest l)).
  { intros c l' fuel lx H Hf IH. destruct (advance_view _ _ _ H) as [-> H1]. cbn [mbind option_bind].
    destruct (IH fuel _ H1 Hf) as [-> ?]. by rewrite go_go in *. }
  induction l as [|c|c d l IH1 IH2] using list_ind2; intros fuel lx H Hf;
    (destruct fuel as [|fuel]; [lia|]); cbn [string_loop];
    rewrite (end_view _ _ H), (peek_view _ _ H), ?(next_view _ _ H); cbn [mbind option_bind orb hd tail].
  - cbn. by rewrite go_nil.
  - cbn [str_body str_rest]. destruct (c =? QUOTE); [by rewrite go_nil|].
    replace (if c =? BACKSLASH then Some (escapable 0) else Some false) with (Some false)
      by (by destruct (c =? BACKSLASH)). cbn [mbind option_bind].
    apply (Hone c []); [done|cbn in *; lia|]. intros fuel' lx' H' Hf'.
    destruct fuel' as [|f]; [lia|]. cbn. rewrite (end_view _ _ H'), (peek_view _ _ H').
    cbn. by rewrite go_nil.
  - cbn [str_body str_rest]. destruct (c =? QUOTE); [by rewrite go_nil|].
    replace (if c =? BACKSLASH then Some (escapable d) else Some false)
      with (Some ((c =? BACKSLASH) && escapable d)) by (by destruct (c =? BACKSLASH)).
    cbn [mbind option_bind]. destruct (_ && _).
    + destruct (advance_view _ _ _ H) as [-> H1]. cbn [mbind option_bind].
      destruct (Hone d l fuel _ H1) as [-> ?]; [cbn in Hf; lia|done|]. by rewrite go_go in *.
    + apply (Hone c (d :: l)); [done|cbn in *; lia|done].
Qed.

Lemma scan_string_view lx l : at_ lx l ->
  scan_string lx =
  match str_rest l with
  | [] => Some (make_error (go lx (str_body l)) "unterminated string literal")
  | q :: _ => Some (make_token (go lx (str_body l ++ [q])) TOK_STRING, go lx (str_body l ++ [q]))
  end.
Proof.
  intros H. unfold scan_string.
  destruct (string_loop_view l (fuel_of lx) lx H) as [-> H1]; [by apply at_fuel|].
  cbn [mbind option_bind]. rewrite (end_view _ _ H1). cbn [mbind option_bind].
  destruct (str_rest l) as [|q r] eqn:E; [done|].
  destruct (advance_view _ _ _ H1) as [-> H2]. cbn [mbind option_bind]. by rewrite go_go.
Qed.

Lemma scan_string_ends lx l : at_ lx l -> ends lx l (scan_string lx).
Proof.
  intros H. rewrite (scan_string_view _ _ H). pose proof (str_split l) as Hs.
  destruct (str_rest l) as [|q r].
  - rewrite <- Hs at 1. apply ends_error.
  - rewrite <- Hs at 1. rewrite cons_middle, app_assoc. by apply ends_token.
Qed.

(** ** Numbers, identifiers, directives, punctuation *)

Section Scan.
Context (strtod : list Z -> option (nat * Z * Z)) (alloc : bool).

Lemma scan_float_ends lx body l' : ends lx (body ++ l') (Some (scan_float strtod alloc (go lx body))).
Proof.
  unfold scan_float. destruct alloc; cbn [negb]; [|apply ends_error].
  destruct (strtod _) as [[[e en] v]|]; [|apply ends_error].
  destruct (_ || _); [apply ends_error|]. by apply ends_value.
Qed.

Lemma scan_integer_ends lx body l' : ends lx (body ++ l') (Some (scan_integer (go lx body))).
Proof.
  unfold scan_integer. destruct (19 <? _); [apply ends_error|].
  destruct (max_signed_magnitude <? _); [apply ends_error|]. by apply ends_value.
Qed.

(** The mantissa of a literal: its integer part, and a fraction if one follows. *)
Definition fraction (l : list Z) : list Z :=
  match l with
  | c :: ((d :: _) as r) => if (c =? chr ".") && isdigit d then c :: tw isdigit r else []
  | _ => []
  end.

Lemma fraction_hd l : (if hd 0 l =? chr "." then Some (isdigit (hd 0 (tail l))) else Some false)
  = Some (negb (bool_decide (fraction l = []))).
Proof.
  destruct l as [|c [|d l]]; cbn [hd tail fraction]; [done|by destruct (c =? _)|].
  destruct (c =? chr "."); cbn; [by destruct (isdigit d)|done].
Qed.

Lemma scan_number_mantissa lx l : at_ lx l ->
  let b := tw isdigit l ++ fraction (dw isdigit l) in
  exists r, l = b ++ r /\ at_ (go lx b) r /\
    scan_number strtod alloc lx =
    (e ← peek (go lx b);
     if (e =? chr "e") || (e =? chr "E") then
       '(_, lx3) ← advance (go lx b);
       s ← peek lx3;
       lx4 ← (if (s =? chr "+") || (s =? chr "-") then '(_, lx') ← advance lx3; Some lx' else Some lx3);
       d ← peek lx4;
       if negb (isdigit d) then Some (make_error lx4 "malformed float exponent")
       else lx5 ← advance_while (fuel_of lx) isdigit lx4; Some (scan_float strtod alloc lx5)
     else Some (if negb (bool_decide (fraction (dw isdigit l) = [])) then scan_float strtod alloc (go lx b)
                else scan_integer (go lx b))).
Proof.
  intros H b. unfold scan_number.
  destruct (advance_while_view isdigit (fuel_of lx) lx l H) as [-> H1]; [by apply at_fuel|].
  cbn [mbind option_bind]. rewrite (peek_view _ _ H1), (next_view _ _ H1). cbn [mbind option_bind].
  rewrite fraction_hd. cbn [mbind option_bind]. pose proof (tw_dw isdigit l) as Hl.
  destruct (fraction (dw isdigit l)) as [|f fr] eqn:Ef; cbn [bool_decide decide negb].
  - rewrite bool_decide_true by done. cbn [negb]. subst b. rewrite app_nil_r in *. cbn [mbind option_bind].
    exists (dw isdigit l). done.
  - rewrite bool_decide_false by done. cbn [negb].
    destruct (dw isdigit l) as [|c [|d r]]; cbn [fraction] in Ef; [done..|].
    destruct ((c =? chr ".") && isdigit d); [|done]. injection Ef as <- <-.
    destruct (advance_view _ _ _ H1) as [-> H2]. cbn [mbind option_bind].
    destruct (advance_while_view isdigit (fuel_of lx) _ _ H2) as [-> H3]; [by apply (at_fuel _ _ H2)|].
    rewrite !go_go in *. rewrite <- ?app_assoc in *. cbn [app] in *. cbn [mbind option_bind].
    exists (dw isdigit (d :: r)). split_and!; [|done|done].
    pose proof (tw_dw isdigit (d :: r)) as Hdr. rewrite <- Hl at 1. rewrite <- Hdr at 1.
    unfold b. by rewrite <- app_assoc.
Qed.

Lemma scan_number_ends lx l : at_ lx l -> ends lx l (scan_number strtod alloc lx).
Proof.
  intros H. destruct (scan_number_mantissa lx l H) as (r & Hl & H2 & ->).
  set (b := tw isdigit l ++ _) in *. clearbody b. rewrite Hl. rewrite (peek_view _ _ H2).
  cbn [mbind option_bind]. destruct ((hd 0 r =? _) || _) eqn:Ee.
  2: { destruct (negb _); [apply scan_float_ends|apply scan_integer_ends]. }
  destruct r as [|e r]; [done|]. destruct (advance_view _ _ _ H2) as [-> H3]. cbn [mbind option_bind].
  rewrite go_go in *. rewrite (cons_middle e b r), app_assoc. set (b' := b ++ [e]) in *. clearbody b'.
  rewrite (peek_view _ _ H3). cbn [mbind option_bind].
  assert (exists b2 r2, r = b2 ++ r2 /\ at_ (go lx (b' ++ b2)) r2 /\
    (if (hd 0 r =? chr "+") || (hd 0 r =? chr "-")
     then '(_, lx') ← advance (go lx b'); Some lx' else Some (go lx b')) = Some (go lx (b' ++ b2)))
    as (b2 & r2 & -> & H4 & ->).
  { destruct ((hd 0 r =? _) || _) eqn:Es.
    - destruct r as [|sg r]; [done|]. destruct (advance_view _ _ _ H3) as [-> H4].
      rewrite go_go in *. by exists [sg], r.
    - exists [], r. by rewrite app_nil_r. }
  cbn [mbind option_bind]. rewrite (peek_view _ _ H4). cbn [mbind option_bind]. rewrite app_assoc.
  destruct (isdigit _); cbn [negb]; [|apply ends_error].
  destruct (advance_while_view isdigit (fuel_of lx) _ _ H4) as [-> H5]; [by apply (at_fuel _ _ H4)|].
  cbn [mbind option_bind]. rewrite go_go. rewrite <- (tw_dw isdigit r2) at 1. rewrite app_assoc.
  apply scan_float_ends.
Qed.

Lemma find_type (P : string * token_type -> Prop) `{forall x, Decision (P x)} l i x :
  list_find P l = Some (i, x) -> Forall (fun k => k.2 <> TOK_EOF) l -> x.2 <> TOK_EOF.
Proof. intros [Hl _]%list_find_Some Hf. by eapply Forall_lookup_1 in Hf. Qed.

Lemma identifier_type_not_eof text : identifier_type text <> TOK_EOF.
Proof.
  unfold identifier_type. destruct (list_find _ keywords) as [[i kw]|] eqn:E; [|done].
  eapply find_type; [exact E|]. by repeat constructor.
Qed.

Lemma scan_identifier_view lx l : at_ lx l ->
  let b := tw ident_char l in
  scan_identifier lx = Some
    (make_token (go lx b)
       (identifier_type (take (current lx + len b - start lx) (drop (start lx) (source lx)))), go lx b).
Proof.
  intros H b. unfold scan_identifier.
  by destruct (advance_while_view ident_char (fuel_of lx) lx l H) as [-> H1]; [apply at_fuel|].
Qed.

Lemma scan_identifier_ends lx l : at_ lx l -> ends lx l (scan_identifier lx).
Proof.
  intros H. rewrite (scan_identifier_view _ _ H). rewrite <- (tw_dw ident_char l) at 1.
  apply ends_token, identifier_type_not_eof.
Qed.

(** The lexer has just consumed the one character [c] of the token. *)
Definition after_first (c : Z) (lx : lexer) : Prop :=
  exists lx1, lx = go lx1 [c] /\ start lx1 = current lx1 /\ start_line lx1 = line lx1 /\
    start_col lx1 = col lx1.

Lemma line_alpha a : Forall (fun c => isalpha c = true) a ->
  forall lc, (foldl adv_pos lc a).1 = lc.1.
Proof.
  induction 1 as [|c a Hc _ IH]; intros lc; cbn; [done|]. rewrite IH. unfold adv_pos.
  destruct (Z.eqb_spec c NEWLINE) as [->|]; [done|]. done.
Qed.

Lemma scan_directive_ends lx l : at_ lx l -> after_first (chr ".") lx -> ends lx l (scan_directive lx).
Proof.
  intros H (lx1 & -> & Hs & Hl & Hc). unfold scan_directive.
  destruct (advance_while_view isalpha (fuel_of (go lx1 [chr "."])) _ l H) as [-> H1];
    [by apply (at_fuel _ _ H)|].
  cbn [mbind option_bind]. destruct (list_find _ directives) as [[i d]|] eqn:E.
  - rewrite <- (tw_dw isalpha l) at 1. apply ends_token. eapply find_type; [exact E|].
    by repeat constructor.
  - set (lx2 := set_pos _ _ _ _). assert (lx2 = go lx1 [chr "."]) as ->; [|by apply ends_here].
    unfold lx2. rewrite go_go. unfold go, set_pos. cbn. rewrite Hs, Hc, Nat.add_1_r.
    rewrite line_alpha by apply tw_all. done.
Qed.

Lemma match_view lx l c : at_ lx l ->
  match_char lx c = Some (if bool_decide (l <> []) && (hd 0 l =? c) then (true, go lx [c]) else (false, lx)).
Proof.
  intros H. unfold match_char. rewrite (end_view _ _ H), (peek_view _ _ H). cbn [mbind option_bind].
  destruct l as [|d l]; [done|]. rewrite bool_decide_true by done. cbn [hd andb].
  destruct (Z.eqb_spec d c) as [->|]; cbn [negb]; [|done].
  by destruct (advance_view _ _ _ H) as [-> H1].
Qed.

Lemma scan_punct_ends c lx l : at_ lx l -> ends lx l (scan_punct c lx).
Proof.
  intros H. unfold scan_punct. destruct (list_find _ double) as [[i [c' [[second two] one]]]|] eqn:E.
  - assert (two <> TOK_EOF /\ one <> TOK_EOF) as [Ht Ho].
    { apply list_find_Some in E as [Hl _].
      assert (Hall : Forall (fun x => x.2.1.2 <> TOK_EOF /\ x.2.2 <> TOK_EOF) double)
        by (repeat constructor; done).
      exact (Forall_lookup_1 _ _ _ _ Hall Hl). }
    rewrite (match_view _ _ _ H). destruct (_ && _) eqn:Em; cbn [mbind option_bind].
    + apply andb_true_iff in Em as [Hn Em]. apply bool_decide_eq_true in Hn. apply Z.eqb_eq in Em.
      destruct l as [|d l]; [done|]. cbn in Em. subst d. by apply (ends_token lx [second] l).
    + by apply ends_here.
  - destruct (list_find _ single) as [[i [c' ty]]|] eqn:E'.
    + apply ends_here. apply list_find_Some in E' as [Hl _].
      assert (Hall : Forall (fun x => x.2 <> TOK_EOF) single) by (repeat constructor; done).
      exact (Forall_lookup_1 _ _ _ _ Hall Hl).
    + rewrite <- (go_nil lx) at 2. apply (ends_error lx [] l).
Qed.

End Scan.

(** ** Positions *)

(** The line and column, counted from 1, of the character after [pre]. *)
Definition line_of (pre : list Z) : Z := 1 + Z.of_nat (len (filter (fun c => c = NEWLINE) pre)).
Definition col_of (pre : list Z) : Z := 1 + Z.of_nat (len (tw not_newline (reverse pre))).

Lemma len_tw p l : (len (tw p l) <= len l)%nat.
Proof. rewrite <- (tw_dw p l) at 2. rewrite length_app. lia. Qed.

Lemma pos_fold pre : Z.of_nat (len pre) < UINT32_MAX ->
  foldl adv_pos (1, 1) pre = (line_of pre, col_of pre).
Proof.
  induction pre as [|c pre IH] using rev_ind; intros Hl; [done|].
  rewrite length_app in Hl. cbn in Hl. rewrite foldl_app, IH by lia. cbn [foldl].
  assert (H1 : 1 <= line_of pre <= 1 + Z.of_nat (len pre))
    by (pose proof (length_filter (fun c => c = NEWLINE) pre); unfold line_of; lia).
  assert (H2 : 1 <= col_of pre <= 1 + Z.of_nat (len pre)).
  { pose proof (len_tw not_newline (reverse pre)) as Ht. rewrite length_reverse in Ht. unfold col_of. lia. }
  unfold adv_pos. cbn [fst snd]. rewrite !u32_small by mi.
  unfold line_of, col_of. rewrite filter_app, filter_cons, filter_nil, reverse_snoc. cbn [tw].
  unfold not_newline at 2. destruct (Z.eqb_spec c NEWLINE) as [->|Hc].
  - rewrite decide_True, length_app by done. cbn. f_equal. lia.
  - rewrite decide_False, app_nil_r by done. cbn. f_equal. unfold not_newline. lia.
Qed.

(** The lexer's line and column are those of its position. *)
Record wf (lx : lexer) : Prop := {
  wf_plain : Forall plain (source lx);
  wf_len : Z.of_nat (len (source lx)) < UINT32_MAX;
  wf_cur : (current lx <= len (source lx))%nat;
  wf_line : line lx = line_of (take (current lx) (source lx));
  wf_col : col lx = col_of (take (current lx) (source lx)) }.

Lemma wf_at lx : wf lx -> at_ lx (drop (current lx) (source lx)).
Proof. intros W. split; [done|apply W|by apply Forall_drop, W]. Qed.

Lemma wf_go lx pre l m : wf lx -> at_ lx (pre ++ l) -> wf (with_msg m (go lx pre)).
Proof.
  intros W [Hr Hl Hp].
  assert (Hc : (current lx + len pre <= len (source lx))%nat).
  { apply (f_equal len) in Hr. rewrite length_drop, length_app in Hr. lia. }
  assert (Ht : take (current lx + len pre) (source lx) = take (current lx) (source lx) ++ pre).
  { rewrite <- (take_drop (current lx) (source lx)) at 1. rewrite Hr, app_assoc.
    rewrite take_app_length'; [done|]. rewrite length_app, length_take. lia. }
  assert (Hf : foldl adv_pos (line lx, col lx) pre
    = (line_of (take (current lx + len pre) (source lx)), col_of (take (current lx + len pre) (source lx)))).
  { pose proof (wf_len _ W). rewrite (wf_line _ W), (wf_col _ W), <- pos_fold by (rewrite length_take; lia).
    rewrite <- foldl_app, <- Ht. apply pos_fold. rewrite length_take. lia. }
  split; cbn; [apply W|apply W|lia|by rewrite Hf..].
Qed.

Lemma wf_init src : Forall plain src -> Z.of_nat (len src) < UINT32_MAX -> wf (lexer_init src).
Proof. intros Hp Hl. split; cbn; [done|done|lia|done|done]. Qed.

(** ** One token *)

(** [t] is the token that [next_token] takes from [lx], leaving [lx']. *)
Record scanned (lx : lexer) (t : token) (lx' : lexer) (pre body l' : list Z) : Prop := {
  sc_text : drop (current lx) (source lx) = pre ++ body ++ l';
  sc_blank : blank pre (body ++ l');
  sc_solid : solid (body ++ l');
  sc_source : source lx' = source lx;
  sc_current : current lx' = (current lx + len pre + len body)%nat;
  sc_start : tstart t = (current lx + len pre)%nat;
  sc_length : length t = Z.of_nat (len body);
  sc_line : tline t = line_of (take (tstart t) (source lx));
  sc_col : tcol t = col_of (take (tstart t) (source lx));
  sc_eof : type t = TOK_EOF /\ body = [] /\ l' = [] \/ type t <> TOK_EOF /\ body <> [] }.

Section Main.
Context (strtod : list Z -> option (nat * Z * Z)) (alloc : bool).

(** [scan_token] once the first character of a token is consumed. *)
Definition dispatch (c : Z) (lx2 : lexer) : option (token * lexer) :=
  if isalpha c then scan_identifier lx2
  else if c =? chr "_" then
    b ← underscore_ident lx2;
    if b : bool then scan_identifier lx2 else Some (make_token lx2 TOK_UNDERSCORE, lx2)
  else if isdigit c then scan_number strtod alloc lx2
  else if c =? QUOTE then scan_string lx2
  else if c =? chr "." then
    e2 ← is_at_end lx2;
    d ← peek lx2;
    if negb e2 && isalpha d then scan_directive lx2 else Some (make_token lx2 TOK_DOT, lx2)
  else scan_punct c lx2.

Lemma underscore_view lx l : at_ lx l -> exists b, underscore_ident lx = Some b.
Proof.
  intros H. unfold underscore_ident. rewrite (end_view _ _ H), (peek_view _ _ H), (next_view _ _ H).
  cbn [mbind option_bind]. destruct l; [eauto|]. repeat case_match; eauto.
Qed.

Lemma dispatch_ends c lx l : at_ lx l -> after_first c lx -> ends lx l (dispatch c lx).
Proof.
  intros H Ha. unfold dispatch. destruct (isalpha c); [by apply scan_identifier_ends|].
  destruct (c =? chr "_").
  { destruct (underscore_view _ _ H) as [[] ->]; cbn [mbind option_bind];
      [by apply scan_identifier_ends|by apply ends_here]. }
  destruct (isdigit c); [by apply scan_number_ends|].
  destruct (c =? QUOTE); [by apply scan_string_ends|].
  destruct (Z.eqb_spec c (chr ".")) as [->|]; [|by apply scan_punct_ends].
  rewrite (end_view _ _ H), (peek_view _ _ H). cbn [mbind option_bind].
  destruct (_ && _); [by apply scan_directive_ends|by apply ends_here].
Qed.

(** The lexer where a token starts. *)
Definition begin (lx : lexer) : lexer :=
  Lex (source lx) (current lx) (current lx) (line lx) (col lx) (line lx) (col lx) (error_msg lx).

Lemma scan_token_view lx l : at_ lx l -> exists pre r,
  l = pre ++ r /\ blank pre r /\ solid r /\ at_ (begin (go lx pre)) r /\
  scan_token strtod alloc lx =
    match r with
    | [] => Some (make_token (begin (go lx pre)) TOK_EOF, begin (go lx pre))
    | c :: _ => dispatch c (go (begin (go lx pre)) [c])
    end.
Proof.
  intros H. unfold scan_token.
  destruct (skip_view (fuel_of lx) lx l H) as (pre & r & Hl & Hb & Hs & -> & H1); [by apply at_fuel|].
  exists pre, r. assert (H2 : at_ (begin (go lx pre)) r) by (destruct H1; by split).
  split_and!; [done..|]. cbn [mbind option_bind].
  cbv zeta. fold (begin (go lx pre)). rewrite (end_view _ _ H2). cbn [mbind option_bind].
  destruct r as [|c r]; [done|].
  by destruct (advance_view _ _ _ H2) as [-> H3].
Qed.

Lemma next_token_ok lx : wf lx -> exists t lx' pre body l',
  next_token strtod alloc lx = Some (t, lx') /\ wf lx' /\ scanned lx t lx' pre body l'.
Proof.
  intros W. pose proof (wf_at _ W) as H. unfold next_token.
  destruct (scan_token_view lx _ H) as (pre & r & Hl & Hb & Hs & H2 & ->). rewrite Hl in H.
  pose proof (wf_go lx pre r (error_msg lx) W H) as W1. rewrite <- with_msg_go in W1.
  assert (W2 : wf (begin (go lx pre))) by (destruct W1; by split).
  destruct r as [|c r].
  - do 2 eexists. exists pre, [], []. split; [done|]. split; [done|]. split; cbn; try done.
    + rewrite u32_small; mi.
    + apply (wf_line _ W1).
    + apply (wf_col _ W1).
    + by left.
  - destruct (dispatch_ends c (go (begin (go lx pre)) [c]) r) as (t & body & l' & m & -> & -> & Hsp & Ht).
    { by apply (go_at _ [c]). }
    { by exists (begin (go lx pre)). }
    rewrite go_go. cbn [app].
    pose proof (wf_go _ (c :: body) l' m W2 H2) as W3.
    exists t. eexists. exists pre, (c :: body), l'. split; [done|]. split; [done|].
    destruct Hsp as (S1 & S2 & S3 & S4). cbn in S1, S2, S3, S4.
    pose proof (wf_len _ W3). pose proof (wf_cur _ W3). cbn in *.
    split; try done.
    + rewrite S4, u32_small; cbn; mi.
    + rewrite S1, S2. apply (wf_line _ W1).
    + rewrite S1, S3. apply (wf_col _ W1).
    + by right.
Qed.

End Main.

(** ** The whole text *)

(** [tiles src off l ts]: the tokens [ts] and the blanks between them make up
    [l], the text from offset [off] on; the last token is the end of input. *)
Inductive tiles (src : list Z) : nat -> list Z -> list token -> Prop :=
  | tiles_end off pre t : blank pre [] -> type t = TOK_EOF ->
      tstart t = (off + len pre)%nat -> length t = 0 -> tiles src off pre [t]
  | tiles_token off pre body l t ts : blank pre (body ++ l) -> body <> [] ->
      type t <> TOK_EOF -> tstart t = (off + len pre)%nat -> length t = Z.of_nat (len body) ->
      tline t = line_of (take (tstart t) src) -> tcol t = col_of (take (tstart t) src) ->
      tiles src (off + len pre + len body) l ts -> tiles src off (pre ++ body ++ l) (t :: ts).

Lemma tokens_tile strtod fuel : forall lx, wf lx -> (len (drop (current lx) (source lx)) < fuel)%nat ->
  exists ts, tokens strtod fuel lx = Some ts /\
    tiles (source lx) (current lx) (drop (current lx) (source lx)) ts.
Proof.
  induction fuel as [|fuel IH]; intros lx W Hf; [lia|]. cbn [tokens].
  destruct (next_token_ok strtod true lx W) as (t & lx' & pre & body & l' & -> & W' & S).
  cbn [mbind option_bind]. destruct (sc_eof _ _ _ _ _ _ S) as [(Ht & -> & ->)|(Ht & Hb)].
  - rewrite bool_decide_true by done. exists [t]. split; [done|].
    pose proof (sc_text _ _ _ _ _ _ S) as Htx. cbn in Htx. rewrite app_nil_r in Htx. rewrite Htx.
    apply tiles_end; [apply (sc_blank _ _ _ _ _ _ S)|done|apply S|apply S].
  - rewrite bool_decide_false by done. pose proof (sc_text _ _ _ _ _ _ S) as Htx.
    assert (Hd : drop (current lx') (source lx') = l').
    { rewrite (sc_source _ _ _ _ _ _ S), (sc_current _ _ _ _ _ _ S).
      rewrite <- Nat.add_assoc, <- drop_drop, Htx, app_assoc.
      by rewrite drop_app_length' by (rewrite length_app; done). }
    destruct (IH lx' W') as (ts & -> & Hts).
    { rewrite Hd. rewrite Htx, !length_app in Hf. destruct body; [done|cbn in Hf; lia]. }
    cbn [mbind option_bind]. exists (t :: ts). split; [done|].
    rewrite Hd, (sc_source _ _ _ _ _ _ S), (sc_current _ _ _ _ _ _ S) in Hts. rewrite Htx.
    apply tiles_token; [apply S|done|done|apply S..|done].
Qed.

(** ** Literals *)

Section Literals.
Context (strtod : list Z -> option (nat * Z * Z)) (alloc : bool).

Lemma solid_first c l : is_space c || (c =? chr "#") || (c =? chr "/") = false -> solid (c :: l).
Proof.
  rewrite !orb_false_iff, !Z.eqb_neq. intros [[H1 H2] H3]. split_and!; [done|done|]. by intros [? _].
Qed.

(** A solid suffix is scanned where it stands. *)
Lemma scan_solid lx c l : at_ lx (c :: l) -> solid (c :: l) ->
  scan_token strtod alloc lx = dispatch strtod alloc c (go (begin lx) [c]) /\
  at_ (go (begin lx) [c]) l.
Proof.
  intros H Hs. destruct (scan_token_view strtod alloc lx _ H) as (pre & r & Hl & Hb & _ & H2 & ->).
  assert (pre = []) as ->.
  { destruct Hb as [|d pre r Hd|body pre r|body pre r]; [done|exfalso..]; injection Hl as -> ->;
      destruct Hs as (Hs1 & Hs2 & Hs3); [congruence|done|]. by apply Hs3. }
  cbn in Hl. subst r. rewrite go_nil in *. split; [done|]. by apply (go_at (begin lx) [c]).
Qed.

(** The text between two positions of the lexer. *)
Lemma text_between lx b l : at_ lx (b ++ l) ->
  take (len b) (drop (current lx) (source lx)) = b.
Proof. intros [-> _ _]. by rewrite take_app_length. Qed.

Definition escape_char (c : Z) : list Z := if escapable c then [BACKSLASH; c] else [c].
Definition escape (s : list Z) : list Z := concat (escape_char <$> s).

Lemma str_body_escape s l :
  str_body (escape s ++ QUOTE :: l) = escape s /\ str_rest (escape s ++ QUOTE :: l) = QUOTE :: l.
Proof.
  induction s as [|c s [IH1 IH2]]; [done|]. unfold escape in *. cbn [fmap list_fmap concat].
  unfold escape_char at 1 3 5. destruct (escapable c) eqn:E.
  - cbn [app str_body str_rest]. rewrite E. cbn. by rewrite IH1, IH2.
  - unfold escapable in E. apply orb_false_iff in E as [E1 E2]. cbn [app str_body str_rest].
    rewrite E1, E2. destruct (concat _ ++ QUOTE :: l) as [|d r] eqn:Er; [by destruct (concat _)|].
    cbn [andb]. by rewrite IH1, IH2.
Qed.

Lemma decode_escape s : decode (escape s) = s.
Proof.
  induction s as [|c s IH]; [done|]. unfold escape in *. cbn [fmap list_fmap concat].
  unfold escape_char at 1. destruct (escapable c) eqn:E.
  - cbn [app decode]. rewrite E. cbn. by rewrite IH.
  - unfold escapable in E. apply orb_false_iff in E as [E1 E2]. cbn [app].
    destruct (concat _) as [|d r] eqn:Er; [cbn in IH; by subst|].
    change (decode (c :: d :: r)) with
      (if (c =? BACKSLASH) && escapable d then d :: decode r else c :: decode (d :: r)).
    by rewrite E2, IH.
Qed.

Lemma string_literal lx s l : wf lx ->
  at_ lx (QUOTE :: escape s ++ QUOTE :: l) ->
  exists t lx', next_token strtod alloc lx = Some (t, lx') /\ type t = TOK_STRING /\
    token_to_string (source lx) t = s /\ drop (current lx') (source lx') = l.
Proof.
  intros W H. unfold next_token. destruct (scan_solid lx _ _ H) as [-> H1]; [by apply solid_first|].
  change (dispatch strtod alloc QUOTE (go (begin lx) [QUOTE])) with (scan_string (go (begin lx) [QUOTE])).
  rewrite (scan_string_view _ _ H1). destruct (str_body_escape s l) as [-> ->].
  rewrite go_go. cbn [app]. do 2 eexists. split; [done|]. split; [done|].
  pose proof (wf_len _ W) as Hlen. pose proof (at_rest _ _ H) as Hr.
  assert (Hsz : (current lx + S (len (escape s ++ [QUOTE])) <= len (source lx))%nat).
  { apply (f_equal len) in Hr. rewrite length_drop in Hr. cbn in Hr. rewrite length_app in *. cbn in *. lia. }
  assert (Hl : length (make_token (go (begin lx) (QUOTE :: escape s ++ [QUOTE])) TOK_STRING)
               = Z.of_nat (len (escape s)) + 2).
  { cbn. rewrite u32_small; rewrite length_app in *; cbn in *; mi. }
  split.
  - unfold token_to_string. rewrite Hl. rewrite bool_decide_true by done. cbn [andb].
    rewrite (proj2 (Z.leb_le _ _)) by lia.
    replace (Z.of_nat (len (escape s)) + 2 - 2) with (Z.of_nat (len (escape s))) by lia.
    rewrite Nat2Z.id. cbn [tstart make_token start go set_pos begin].
    rewrite <- Nat.add_1_r, <- drop_drop, Hr. cbn [skipn]. 
    rewrite drop_0, take_app_length. apply decode_escape.
  - eapply at_rest, go_at. replace ((QUOTE :: escape s ++ [QUOTE]) ++ l) with (QUOTE :: escape s ++ QUOTE :: l).
    + destruct H. by split.
    + cbn. by rewrite <- app_assoc.
Qed.

(** The value of a digit string. *)
Definition value (ds : list Z) : Z := foldl (fun v c => v * 10 + (c - 48)) 0 ds.

Lemma decimal_fold ds : Forall (fun c => isdigit c = true) ds -> forall v k,
  0 <= v < 10 ^ Z.of_nat k -> (k + len ds <= 19)%nat ->
  foldl (fun v c => u64 (v * 10 + u64 (c - 48))) v ds = foldl (fun v c => v * 10 + (c - 48)) v ds.
Proof.
  induction 1 as [|c ds Hc _ IH]; intros v k Hv Hk; [done|]. cbn [foldl]. cbn in Hk.
  unfold isdigit in Hc. apply andb_true_iff in Hc as [H1%Z.leb_le H2%Z.leb_le].
  assert (Hp : 10 ^ Z.of_nat (S k) = 10 * 10 ^ Z.of_nat k) by (rewrite Nat2Z.inj_succ, Z.pow_succ_r; lia).
  assert (Hb : 10 ^ Z.of_nat (S k) <= 10 ^ 19) by (apply Z.pow_le_mono_r; lia).
  rewrite (u64_small (c - 48)) by mi. rewrite u64_small by mi. apply (IH _ (S k)); lia.
Qed.

Lemma decimal_value ds : Forall (fun c => isdigit c = true) ds -> (len ds <= 19)%nat ->
  decimal ds = value ds.
Proof. intros H Hl. apply (decimal_fold ds H 0 0); [cbn; lia|lia]. Qed.

(** What may follow an integer literal. *)
Definition after_integer (l : list Z) : Prop :=
  isdigit (hd 0 l) = false /\ hd 0 l <> chr "e" /\ hd 0 l <> chr "E" /\
  ~ (hd 0 l = chr "." /\ isdigit (hd 0 (tail l)) = true).

Lemma after_integer_fraction l : after_integer l -> fraction l = [].
Proof.
  intros (_ & _ & _ & H). destruct l as [|c [|d l]]; cbn in *; [done..|].
  destruct (Z.eqb_spec c (chr ".")) as [->|]; [|done]. cbn [andb].
  destruct (isdigit d); [|done]. by destruct H.
Qed.

Lemma digit_dispatch c lx : isdigit c = true -> dispatch strtod alloc c lx = scan_number strtod alloc lx.
Proof.
  intros Hc. unfold dispatch. rewrite Hc. unfold isdigit, isalpha in *.
  apply andb_true_iff in Hc as [H1%Z.leb_le H2%Z.leb_le].
  replace ((65 <=? c) && (c <=? 90) || (97 <=? c) && (c <=? 122)) with false by lia.
  destruct (Z.eqb_spec c (chr "_")) as [->|]; [vm_compute in H2; done|done].
Qed.

Lemma digit_solid c l : isdigit c = true -> solid (c :: l).
Proof.
  intros [H1%Z.leb_le H2%Z.leb_le]%andb_true_iff. apply solid_first. unfold is_space, NEWLINE.
  change (chr "#") with 35. change (chr "/") with 47. lia.
Qed.

Lemma integer_literal lx c ds l : wf lx ->
  Forall (fun c => isdigit c = true) (c :: ds) -> after_integer l -> at_ lx (c :: ds ++ l) ->
  exists t lx', next_token strtod alloc lx = Some (t, lx') /\
    length t = Z.of_nat (len (c :: ds)) /\ drop (current lx') (source lx') = l /\
    if decide ((len (c :: ds) <= 19)%nat /\ value (c :: ds) <= 2 ^ 63)
    then type t = TOK_INTEGER /\ uint_value t = value (c :: ds) /\
         int_value t = (if value (c :: ds) <=? INT64_MAX then value (c :: ds) else 0)
    else type t = TOK_ERROR.
Proof.
  intros W Hd Ha H. apply Forall_cons in Hd as [Hc Hds]. unfold next_token.
  destruct (scan_solid lx _ _ H) as [-> H1]; [by apply digit_solid|]. rewrite digit_dispatch by done.
  destruct (scan_number_mantissa strtod alloc _ _ H1) as (r & Hr & H2 & ->).
  destruct (tw_app isdigit ds l Hds) as [Ht Hw]; [destruct l; [done|apply Ha]|].
  rewrite Ht, Hw, (after_integer_fraction l Ha) in *. rewrite app_nil_r in *. apply app_inv_head in Hr as <-.
  rewrite (peek_view _ _ H2). cbn [mbind option_bind]. destruct Ha as (_ & He & HE & _).
  rewrite (proj2 (Z.eqb_neq _ _) He), (proj2 (Z.eqb_neq _ _) HE). cbn [orb negb].
  rewrite bool_decide_true by done. cbn [negb]. rewrite go_go in *. cbn [app] in *.
  pose proof (at_le _ _ H2) as Hle. pose proof (wf_len _ W) as Hlen. cbn in Hle.
  pose proof (at_rest _ _ H2) as Hrest.
  unfold scan_integer. cbn [tstart make_token current start go set_pos begin source].
  assert (Hlt : u32 (Z.of_nat (current lx + len (c :: ds)) - Z.of_nat (current lx)) = Z.of_nat (len (c :: ds)))
    by (rewrite u32_small; cbn; mi).
  replace (Z.of_nat (current lx + len (c :: ds)) - Z.of_nat (current lx)) with (Z.of_nat (len (c :: ds)))
    by lia.
  replace (current lx + len (c :: ds) - current lx)%nat with (len (c :: ds)) by lia.
  rewrite (text_between lx (c :: ds) l H).
  unfold max_signed_magnitude. destruct (Z.ltb_spec 19 (Z.of_nat (len (c :: ds)))).
  { do 2 eexists. rewrite decide_False by lia. split_and!; [done|exact Hlt|exact Hrest|done]. }
  rewrite decimal_value by (try lia; by constructor).
  destruct (Z.ltb_spec (INT64_MAX + 1) (value (c :: ds))).
  { do 2 eexists. rewrite decide_False by mi. split_and!; [done|exact Hlt|exact Hrest|done]. }
  do 2 eexists. rewrite decide_True by mi. split_and!; [done|exact Hlt|exact Hrest|done..].
Qed.

(** ** Words *)

Lemma keyword_iff text ty : ty <> TOK_IDENT ->
  identifier_type text = ty <-> exists kw, (kw, ty) ∈ keywords /\ text = bytes kw.
Proof.
  intros Hty. unfold identifier_type. destruct (list_find _ keywords) as [[i [kw ty']]|] eqn:E.
  - apply list_find_Some in E as (Hl & Ht & _). split.
    + cbn. intros <-. exists kw. split; [|done]. by eapply list_elem_of_lookup_2.
    + intros (kw' & Hin & Ht'). cbn. apply list_elem_of_lookup_1 in Hin as [j Hj].
      assert (Hnd : NoDup (bytes ∘ fst <$> keywords)) by (apply (bool_decide_unpack _); by vm_compute).
      assert (i = j) as ->.
      { eapply (NoDup_lookup _ _ _ text Hnd); rewrite list_lookup_fmap;
          [rewrite Hl|rewrite Hj]; by apply (f_equal Some). }
      congruence.
  - apply list_find_None in E. split; [by intros <-|]. intros (kw & Hin & ->).
    rewrite Forall_forall in E. by destruct (E _ Hin).
Qed.

Lemma word_literal lx c l : wf lx -> isalpha c = true -> at_ lx (c :: l) ->
  exists t lx', next_token strtod alloc lx = Some (t, lx') /\
    token_text (source lx) t = c :: tw ident_char l /\
    drop (current lx') (source lx') = dw ident_char l /\
    type t = identifier_type (c :: tw ident_char l).
Proof.
  intros W Hc H. unfold next_token.
  assert (Hs : solid (c :: l)).
  { apply solid_first. unfold isalpha, is_space, NEWLINE in *.
    change (chr "#") with 35. change (chr "/") with 47. lia. }
  destruct (scan_solid lx _ _ H Hs) as [-> H1]. unfold dispatch. rewrite Hc.
  rewrite (scan_identifier_view _ _ H1). rewrite go_go. cbn [app].
  do 2 eexists. split; [done|]. set (b := tw ident_char l).
  assert (H0 : at_ lx ((c :: b) ++ dw ident_char l)) by (cbn; unfold b; by rewrite tw_dw).
  assert (H3 : at_ (begin lx) ((c :: b) ++ dw ident_char l)) by (destruct H0; by split).
  pose proof (go_at _ _ _ H3) as H4. pose proof (wf_len _ W). pose proof (at_le _ _ H4) as Hle. cbn in Hle.
  split_and!.
  - unfold token_text. cbn [make_token length tstart current start go set_pos begin].
    replace (Z.of_nat (current lx + len (c :: b)) - Z.of_nat (current lx)) with (Z.of_nat (len (c :: b))) by lia.
    rewrite u32_small by (cbn; mi). rewrite Nat2Z.id. by eapply text_between.
  - apply (at_rest _ _ H4).
  - cbn [type make_token current start go set_pos begin source]. f_equal.
    replace (current lx + len [c] + len b - current lx)%nat with (len (c :: b)) by (cbn; lia).
    by eapply text_between.
Qed.

End Literals.

(** ** The error message never influences scanning *)

(** Lexers that differ in the error message only. *)
Definition erase (lx : lexer) : lexer := with_msg "" lx.
Definition same_result (x y : option (token * lexer)) : Prop :=
  prod_map id erase <$> x = prod_map id erase <$> y.

#[local] Instance same_result_equiv : Equivalence same_result.
Proof. split; [by intros x|by intros x y|intros x y z; unfold same_result; congruence]. Qed.

Lemma advance_erase lx : advance (erase lx) = prod_map id erase <$> advance lx.
Proof. unfold advance. change (peek (erase lx)) with (peek lx). destruct (peek lx); [|done]. cbn. by case_match. Qed.

Lemma advance_while_erase p fuel : forall lx,
  advance_while fuel p (erase lx) = erase <$> advance_while fuel p lx.
Proof.
  induction fuel as [|fuel IH]; intros lx; [done|]. cbn [advance_while].
  change (is_at_end (erase lx)) with (is_at_end lx). change (peek (erase lx)) with (peek lx).
  destruct (is_at_end lx) as [[]|]; [done| |done]. destruct (peek lx) as [c|]; [|done]. cbn [mbind option_bind].
  destruct (p c); [|done]. rewrite advance_erase. destruct (advance lx) as [[d lx']|]; [|done]. cbn. apply IH.
Qed.

(** Push [erase] through the next step of a scanner and split on its outcome. *)
Ltac er_step :=
  match goal with
  | |- context [peek (erase ?l)] => change (peek (erase l)) with (peek l)
  | |- context [peek_next (erase ?l)] => change (peek_next (erase l)) with (peek_next l)
  | |- context [is_at_end (erase ?l)] => change (is_at_end (erase l)) with (is_at_end l)
  | |- context [fuel_of (erase ?l)] => change (fuel_of (erase l)) with (fuel_of l)
  | |- context [advance (erase ?l)] => rewrite (advance_erase l)
  | |- context [advance_while ?f ?p (erase ?l)] => rewrite (advance_while_erase p f l)
  | |- context [option_bind _ _ ?f (_ <$> ?x)] => destruct x as [[]|] eqn:?
  | |- context [mbind _ (_ <$> ?x)] => destruct x eqn:?
  | |- context [mbind _ ?x] => is_var x; destruct x
  | |- context [mbind _ (peek ?x)] => destruct (peek x) eqn:?
  | |- context [mbind _ (is_at_end ?x)] => destruct (is_at_end x) eqn:?
  | |- context [mbind _ (peek_next ?x)] => destruct (peek_next x) eqn:?
  | |- context [match ?p with pair _ _ => _ end] => is_var p; destruct p
  | |- context [if ?b then _ else _] => destruct b eqn:?
  end; cbn [mbind option_bind fmap option_fmap option_map prod_map fst snd id] in *.
Ltac er := repeat er_step; try done; try congruence.

Lemma skip_erase fuel : forall lx,
  skip_whitespace_and_comments fuel (erase lx) = erase <$> skip_whitespace_and_comments fuel lx.
Proof.
  induction fuel as [|fuel IH]; intros lx; [done|]. cbn [skip_whitespace_and_comments].
  er; apply IH.
Qed.

Lemma string_loop_erase fuel : forall lx, string_loop fuel (erase lx) = erase <$> string_loop fuel lx.
Proof. induction fuel as [|fuel IH]; intros lx; [done|]. cbn [string_loop]. er; apply IH. Qed.

Section Erase.
Context (strtod : list Z -> option (nat * Z * Z)) (alloc : bool).

Lemma scan_string_erase lx : same_result (scan_string (erase lx)) (scan_string lx).
Proof. unfold same_result, scan_string. er_step. rewrite string_loop_erase. er. Qed.

Lemma scan_float_erase lx : same_result (Some (scan_float strtod alloc (erase lx))) (Some (scan_float strtod alloc lx)).
Proof.
  unfold same_result, scan_float. change (source (erase lx)) with (source lx).
  change (make_token (erase lx) TOK_FLOAT) with (make_token lx TOK_FLOAT).
  destruct alloc; [|done]. cbn [negb]. destruct (strtod _) as [[[e en] v]|]; [|done]. by destruct (_ || _).
Qed.

Lemma scan_integer_erase lx : same_result (Some (scan_integer (erase lx))) (Some (scan_integer lx)).
Proof. unfold same_result, scan_integer. cbn -[Z.ltb decimal]. by repeat case_match. Qed.

Lemma scan_number_erase lx : same_result (scan_number strtod alloc (erase lx)) (scan_number strtod alloc lx).
Proof. unfold scan_number. er; apply scan_float_erase || apply scan_integer_erase. Qed.

Lemma scan_identifier_erase lx : same_result (scan_identifier (erase lx)) (scan_identifier lx).
Proof. unfold same_result, scan_identifier. er. Qed.

Lemma scan_directive_erase lx : same_result (scan_directive (erase lx)) (scan_directive lx).
Proof.
  unfold same_result, scan_directive. er_step. rewrite advance_while_erase.
  destruct (advance_while _ _ lx) as [lx1|]; [|done]. cbn -[directives list_find].
  by destruct (list_find _ directives) as [[i d]|].
Qed.

Lemma scan_punct_erase c lx : same_result (scan_punct c (erase lx)) (scan_punct c lx).
Proof.
  unfold same_result, scan_punct. destruct (list_find _ double) as [[i [c' [[s2 two] one]]]|].
  - unfold match_char. er.
  - by destruct (list_find _ single) as [[i [c' ty]]|].
Qed.

Lemma scan_token_erase lx : same_result (scan_token strtod alloc (erase lx)) (scan_token strtod alloc lx).
Proof.
  unfold scan_token. er_step. rewrite skip_erase.
  destruct (skip_whitespace_and_comments _ lx) as [lx0|]; [|done]. cbn [mbind option_bind fmap option_fmap option_map].
  cbv zeta. fold (begin lx0) (begin (erase lx0)). change (begin (erase lx0)) with (erase (begin lx0)).
  er_step. destruct (is_at_end (begin lx0)) as [[]|]; [done| |done]. cbn [mbind option_bind].
  rewrite advance_erase. destruct (advance (begin lx0)) as [[c lx2]|]; [|done].
  cbn [mbind option_bind fmap option_fmap option_map prod_map fst snd id].
  fold (dispatch strtod alloc c lx2) (dispatch strtod alloc c (erase lx2)). unfold dispatch.
  destruct (isalpha c); [apply scan_identifier_erase|].
  destruct (c =? chr "_").
  { change (underscore_ident (erase lx2)) with (underscore_ident lx2).
    destruct (underscore_ident lx2) as [[]|]; [apply scan_identifier_erase|done..]. }
  destruct (isdigit c); [apply scan_number_erase|]. destruct (c =? QUOTE); [apply scan_string_erase|].
  destruct (c =? chr "."); [|apply scan_punct_erase].
  do 2 er_step. destruct (is_at_end lx2) as [e|]; [|done]. destruct (peek lx2) as [d|]; [|done].
  cbn [mbind option_bind]. destruct (_ && _); [apply scan_directive_erase|done].
Qed.

End Erase.

(** ** Properties *)

(** A text: bytes other than NUL, short enough for the 32-bit counters. *)
Definition text_ok (src : list Z) : Prop := Forall plain src /\ Z.of_nat (len src) < UINT32_MAX.

Lemma wf_text lx l : wf lx -> drop (current lx) (source lx) = l -> at_ lx l.
Proof. intros W <-. by apply wf_at. Qed.

Lemma plain_dec src : forallb (fun c => (0 <? c) && (c <? 256)) src = true -> Forall plain src.
Proof.
  rewrite forallb_forall, Forall_forall. intros H c Hc%list_elem_of_In%H. unfold plain. lia.
Qed.

(** From any consistent state the scanner returns one token, within the
    text and in bounded time, whatever [strtod_l] and the allocator do.  It
    skips exactly one maximal run of whitespace and comments, the token covers
    the characters that follow, its line and column are those of its first
    character, the state stays consistent, and only the end of the text yields
    an empty token, of type EOF. *)
Theorem next_token_total (strtod : list Z -> option (nat * Z * Z)) (alloc : bool) (lx : lexer)
  (W : wf lx) :
  exists t lx' pre body l',
    next_token strtod alloc lx = Some (t, lx') /\ wf lx' /\ scanned lx t lx' pre body l'.
Proof. by apply next_token_ok. Qed.

Definition sample : list Z := bytes "p(x) :- q(x). # c".

Lemma sample_ok : text_ok sample.
Proof. split; [apply plain_dec; by vm_compute|by vm_compute]. Qed.

Lemma next_token_total_witness : exists t lx' pre body l',
  next_token no_strtod true (lexer_init sample) = Some (t, lx') /\ wf lx' /\
  scanned (lexer_init sample) t lx' pre body l'.
Proof. apply (next_token_total no_strtod true (lexer_init sample)). apply wf_init; apply sample_ok. Defined.

(** C35: Scanning a whole text ends after at most one token per character, with
    the end-of-input token; the tokens, with the blanks between them, tile the
    text in order without gap or overlap. *)
Theorem tokens_tile_text (strtod : list Z -> option (nat * Z * Z)) (src : list Z) (Hs : text_ok src) :
  exists ts, tokens strtod (S (len src)) (lexer_init src) = Some ts /\ tiles src 0 src ts.
Proof.
  destruct Hs as [Hp Hl]. apply (tokens_tile strtod (S (len src)) (lexer_init src)); [by apply wf_init|].
  cbn [current source lexer_init]. rewrite drop_0. lia.
Qed.

Lemma tokens_tile_text_witness :
  exists ts, tokens no_strtod (S (len sample)) (lexer_init sample) = Some ts /\ tiles sample 0 sample ts.
Proof. apply (tokens_tile_text no_strtod sample sample_ok). Defined.

(** String literals round-trip: a quoted, escaped byte string, whatever
    follows it, is scanned as one STRING token whose decoded text is the
    original. *)
Theorem string_roundtrip (strtod : list Z -> option (nat * Z * Z)) (alloc : bool) (lx : lexer)
  (s l : list Z) (W : wf lx)
  (H : drop (current lx) (source lx) = QUOTE :: escape s ++ QUOTE :: l) :
  exists t lx', next_token strtod alloc lx = Some (t, lx') /\ type t = TOK_STRING /\
    token_to_string (source lx) t = s /\ drop (current lx') (source lx') = l.
Proof. apply string_literal; [done|by apply wf_text]. Qed.

Lemma string_roundtrip_witness :
  let lx := lexer_init (QUOTE :: escape [97; QUOTE; BACKSLASH; 98] ++ QUOTE :: bytes ").") in
  exists t lx', next_token no_strtod true lx = Some (t, lx') /\ type t = TOK_STRING /\
    token_to_string (source lx) t = [97; QUOTE; BACKSLASH; 98] /\
    drop (current lx') (source lx') = bytes ").".
Proof.
  apply (string_roundtrip no_strtod true
           (lexer_init (QUOTE :: escape [97; QUOTE; BACKSLASH; 98] ++ QUOTE :: bytes ").")));
    [apply wf_init; [apply plain_dec|]; by vm_compute|reflexivity].
Defined.

(** Integer literals are exact: a maximal digit string that no fraction or
    exponent follows is an INTEGER token with the string's decimal value when
    it has at most 19 digits and a value of at most 2^63, with the signed field
    set when it fits, and an ERROR token otherwise. *)
Theorem integer_exact (strtod : list Z -> option (nat * Z * Z)) (alloc : bool) (lx : lexer)
  (c : Z) (ds l : list Z) (W : wf lx)
  (Hd : Forall (fun c => isdigit c = true) (c :: ds)) (Ha : after_integer l)
  (H : drop (current lx) (source lx) = c :: ds ++ l) :
  exists t lx', next_token strtod alloc lx = Some (t, lx') /\
    length t = Z.of_nat (len (c :: ds)) /\ drop (current lx') (source lx') = l /\
    if decide ((len (c :: ds) <= 19)%nat /\ value (c :: ds) <= 2 ^ 63)
    then type t = TOK_INTEGER /\ uint_value t = value (c :: ds) /\
         int_value t = (if value (c :: ds) <=? INT64_MAX then value (c :: ds) else 0)
    else type t = TOK_ERROR.
Proof. apply integer_literal; [done..|by apply wf_text]. Qed.

Lemma integer_exact_witness :
  exists t lx', next_token no_strtod true (lexer_init (bytes "9223372036854775808)")) = Some (t, lx') /\
    length t = 19 /\ drop (current lx') (source lx') = bytes ")" /\
    if decide ((len (bytes "9223372036854775808") <= 19)%nat /\
               value (bytes "9223372036854775808") <= 2 ^ 63)
    then type t = TOK_INTEGER /\ uint_value t = value (bytes "9223372036854775808") /\
         int_value t = (if value (bytes "9223372036854775808") <=? INT64_MAX
                        then value (bytes "9223372036854775808") else 0)
    else type t = TOK_ERROR.
Proof.
  apply (integer_exact no_strtod true (lexer_init (bytes "9223372036854775808)"))
           57 (bytes "223372036854775808") (bytes ")")).
  - apply wf_init; [apply plain_dec|]; by vm_compute.
  - by repeat constructor.
  - split_and!; [done..|]. by intros [? _].
  - reflexivity.
Defined.

(** A word is scanned whole (longest match), and it is a keyword token
    exactly when its text is the spelling of that keyword. *)
Theorem word_longest_match (strtod : list Z -> option (nat * Z * Z)) (alloc : bool) (lx : lexer)
  (c : Z) (l : list Z) (W : wf lx) (Hc : isalpha c = true)
  (H : drop (current lx) (source lx) = c :: l) :
  exists t lx', next_token strtod alloc lx = Some (t, lx') /\
    token_text (source lx) t = c :: tw ident_char l /\
    drop (current lx') (source lx') = dw ident_char l /\
    forall ty, ty <> TOK_IDENT ->
      type t = ty <-> exists kw, (kw, ty) ∈ keywords /\ c :: tw ident_char l = bytes kw.
Proof.
  destruct (word_literal strtod alloc lx c l W Hc) as (t & lx' & E & H1 & H2 & H3); [by apply wf_text|].
  exists t, lx'. split_and!; [done..|]. intros ty Hty. rewrite H3. by apply keyword_iff.
Qed.

Lemma word_longest_match_witness :
  exists t lx', next_token no_strtod true (lexer_init (bytes "counter(x)")) = Some (t, lx') /\
    token_text (bytes "counter(x)") t = bytes "counter" /\
    drop (current lx') (source lx') = bytes "(x)" /\
    forall ty, ty <> TOK_IDENT ->
      type t = ty <-> exists kw, (kw, ty) ∈ keywords /\ bytes "counter" = bytes kw.
Proof.
  apply (word_longest_match no_strtod true (lexer_init (bytes "counter(x)")) 99 (bytes "ounter(x)"));
    [apply wf_init; [apply plain_dec|]; by vm_compute|reflexivity|reflexivity].
Defined.

(** Peeking returns the token that the next call returns and moves
    nothing: afterwards the lexer scans as before, up to the message buffer. *)
Theorem peek_then_next (strtod : list Z -> option (nat * Z * Z)) (alloc : bool) (lx : lexer) (W : wf lx) :
  exists t lx1 lx2 lx3,
    peek_token strtod alloc lx = Some (t, lx1) /\ erase lx1 = erase lx /\
    next_token strtod alloc lx1 = Some (t, lx2) /\
    next_token strtod alloc lx = Some (t, lx3) /\ erase lx2 = erase lx3.
Proof.
  destruct (next_token_ok strtod alloc lx W) as (t & lx3 & _ & _ & _ & E3 & _ & _).
  unfold peek_token. unfold next_token in *. rewrite E3. cbn [mbind option_bind].
  set (lx1 := Lex _ _ _ _ _ _ _ _). assert (He : erase lx1 = erase lx) by done.
  pose proof (scan_token_erase strtod alloc lx1) as H1. pose proof (scan_token_erase strtod alloc lx) as H2.
  unfold same_result in *. rewrite He, H2, E3 in H1.
  destruct (scan_token strtod alloc lx1) as [[t2 lx2]|] eqn:E1; [|done].
  apply Some_inj in H1. pose proof (f_equal fst H1) as Ht. pose proof (f_equal snd H1) as Hl.
  cbn [fst snd prod_map id] in Ht, Hl. subst t2.
  exists t, lx1, lx2, lx3. split_and!; done.
Qed.

Lemma peek_then_next_witness : exists t lx1 lx2 lx3,
  peek_token no_strtod true (lexer_init (bytes "$ x")) = Some (t, lx1) /\
  erase lx1 = erase (lexer_init (bytes "$ x")) /\
  next_token no_strtod true lx1 = Some (t, lx2) /\
  next_token no_strtod true (lexer_init (bytes "$ x")) = Some (t, lx3) /\ erase lx2 = erase lx3.
Proof.
  apply (peek_then_next no_strtod true (lexer_init (bytes "$ x"))).
  apply wf_init; [apply plain_dec|]; by vm_compute.
Defined.

(** A run of three underscores with no letter anywhere after it is scanned
    as an identifier, where the comment in the scanner announces a wildcard. *)
Theorem underscore_run_is_identifier :
  option_map (fmap (fun t => (type t, length t))) (tokens no_strtod 5 (lexer_init (bytes "___")))
  = Some [(TOK_IDENT, 3); (TOK_EOF, 0)].
Proof. by vm_compute. Qed.

End LexerProof.
