(* ===== verification/RadixSort.v ===== *)
(** * Key order and key-column radix sort

    wirelog/columnar/internal.h (binary64 comparison on bit patterns) and
    wirelog/columnar/relation.c (the stable LSD radix sort by one key column).
    A row-major buffer of [nrows * ncols] cells is the list of its rows; a key
    is an int64_t cell, which for a FLOAT column holds a binary64 pattern. *)
From stdpp Require Import sorting.
From S2P Require Import Prelude.

Module Keys.

(** wirelog_column_type_t *)
Inductive column_type :=
  | TYPE_INT32 | TYPE_INT64 | TYPE_UINT32 | TYPE_UINT64 | TYPE_FLOAT | TYPE_STRING | TYPE_BOOL.

#[export] Instance column_type_eq_dec : EqDecision column_type.
Proof. solve_decision. Defined.

Definition is_float (ty : column_type) : bool := bool_decide (ty = TYPE_FLOAT).

Definition CMP_INCOMPATIBLE : Z := - 2 ^ 31.
Definition SIGN : Z := 0x8000000000000000.
Definition EXPONENT : Z := 0x7ff0000000000000.

Definition float_bits_valid (bits : Z) : bool := negb (Z.land (u64 bits) EXPONENT =? EXPONENT).

Definition float_bits_zero (bits : Z) : bool := Z.land (u64 bits) 0x7fffffffffffffff =? 0.

(** Reverse the negative encodings and place positives above negatives. *)
Definition float_ordered (raw : Z) : Z :=
  if negb (Z.land raw SIGN =? 0) then u64 (Z.lnot raw) else Z.lxor raw SIGN.

Definition three_way (a b : Z) : Z := if a <? b then -1 else if b <? a then 1 else 0.

Definition float_compare_bits (left_bits right_bits : Z) : Z :=
  if negb (float_bits_valid left_bits) || negb (float_bits_valid right_bits)
  then CMP_INCOMPATIBLE
  else if float_bits_zero left_bits && float_bits_zero right_bits then 0
  else three_way (float_ordered (u64 left_bits)) (float_ordered (u64 right_bits)).

(** ** What the comparisons compute *)

Lemma land_sign k : is_int64 k -> (Z.land (u64 k) SIGN =? 0) = (0 <=? k).
Proof.
  intros Hk. assert (H : Z.land (u64 k) SIGN = if Z.testbit (u64 k) 63 then SIGN else 0).
  { apply Z.bits_inj'. intros i Hi. rewrite Z.land_spec.
    change SIGN with (2 ^ 63). destruct (decide (i = 63)) as [->|Hne].
    - rewrite Z.pow2_bits_true, andb_true_r by lia. destruct (Z.testbit _ 63);
        [by rewrite Z.pow2_bits_true|by rewrite Z.bits_0].
    - rewrite Z.pow2_bits_false, andb_false_r by lia. destruct (Z.testbit _ 63);
        [by rewrite Z.pow2_bits_false by lia|by rewrite Z.bits_0]. }
  rewrite H. assert (Hb : Z.testbit (u64 k) 63 = (k <? 0)).
  { rewrite Z.testbit_eqb by lia. unfold u64. destruct (Z.ltb_spec k 0).
    - apply Z.eqb_eq. mi_divmod.
    - apply Z.eqb_neq. mi_divmod. }
  rewrite Hb. destruct (Z.ltb_spec k 0), (Z.leb_spec 0 k); done || lia.
Qed.

Lemma lxor_sign x : 0 <= x < 2 ^ 63 -> Z.lxor x SIGN = x + 2 ^ 63.
Proof.
  intros Hx. change SIGN with (2 ^ 63). rewrite Z.add_nocarry_lxor; [done|].
  apply Z.bits_inj'. intros i Hi. rewrite Z.land_spec, Z.bits_0.
  destruct (decide (i = 63)) as [->|Hne].
  - rewrite Z.testbit_eqb by lia. rewrite Z.div_small by done. done.
  - rewrite Z.pow2_bits_false by lia. by rewrite andb_false_r.
Qed.

Lemma float_ordered_eq k : is_int64 k ->
  float_ordered (u64 k) = if k <? 0 then -1 - k else k + 2 ^ 63.
Proof.
  intros Hk. unfold float_ordered. rewrite land_sign by done.
  destruct (Z.ltb_spec k 0), (Z.leb_spec 0 k); try lia; cbn [negb].
  - unfold u64. unfold Z.lnot, Z.pred. mi_divmod.
  - rewrite u64_small by mi. rewrite lxor_sign by mi. done.
Qed.

Lemma float_bits_zero_iff k : is_int64 k -> float_bits_zero k = (k =? 0) || (k =? - 2 ^ 63).
Proof.
  intros Hk. unfold float_bits_zero. change 0x7fffffffffffffff with (Z.ones 63).
  rewrite Z.land_ones by lia. unfold u64.
  destruct (Z.eqb_spec k 0) as [->|]; [done|]. destruct (Z.eqb_spec k (- 2 ^ 63)) as [->|]; [done|].
  apply Z.eqb_neq. mi_divmod.
Qed.

(** The position of a key in its column's order: both zeros coincide. *)
Definition rank (ty : column_type) (k : Z) : Z :=
  if is_float ty then if float_bits_zero k then 2 ^ 63 else float_ordered (u64 k) else k.

(** The keys a column may hold: no NaN and no infinity in a float column. *)
Definition valid_key (ty : column_type) (k : Z) : Prop :=
  is_int64 k /\ (is_float ty = true -> float_bits_valid k = true).

(** A comparison that is a total order on valid keys, by rank. *)
Class KeyOrder (ty : column_type) (cmp : Z -> Z -> Z) : Prop := {
  cmp_rank : forall a b, valid_key ty a -> valid_key ty b ->
    cmp a b = three_way (rank ty a) (rank ty b) }.

Lemma three_way_cases a b :
  (a < b /\ three_way a b = -1) \/ (a = b /\ three_way a b = 0) \/ (b < a /\ three_way a b = 1).
Proof. unfold three_way. destruct (Z.ltb_spec a b), (Z.ltb_spec b a); lia. Qed.

#[export] Instance float_order : KeyOrder TYPE_FLOAT float_compare_bits.
Proof.
  split. intros a b [Ha Va] [Hb Vb]. specialize (Va eq_refl). specialize (Vb eq_refl).
  unfold float_compare_bits. rewrite Va, Vb. cbn [negb orb]. unfold rank, is_float. rewrite bool_decide_true by done.
  rewrite !float_bits_zero_iff, !float_ordered_eq by done. unfold three_way.
  destruct (Z.eqb_spec a 0), (Z.eqb_spec a (- 2 ^ 63)), (Z.eqb_spec b 0), (Z.eqb_spec b (- 2 ^ 63));
    cbn [orb andb]; try lia; repeat (case_match; try lia); mi.
Qed.

End Keys.

Module Radix.
Import Keys.

Abbreviation row := (list Z).

(** ** The sort *)

(** The bucket of a row in pass [b]. *)
Definition bucket (ty : column_type) (key_col b : nat) (r : row) : option nat :=
  k ← rd r key_col;
  let raw := u64 k in
  let ordered := if is_float ty then float_ordered raw else raw in
  let bv := u8 (Z.shiftr ordered (8 * Z.of_nat b)) in
  Some (Z.to_nat (if (b =? 7)%nat && negb (is_float ty) then Z.lxor bv 0x80 else bv)).

(** The loops of a pass, for elements whose bucket is [bucket_of]. *)
Section Pass.
Context {A : Type} (bucket_of : A -> option nat).

Fixpoint count_rows (src : list A) (count : list nat) : option (list nat) :=
  match src with
  | [] => Some count
  | r :: rest => bv ← bucket_of r; c ← rd count bv; count' ← wr count bv (S c); count_rows rest count'
  end.

(** prefix[0] = 0; prefix[i] = prefix[i-1] + count[i-1] *)
Fixpoint prefix_from (acc : nat) (count : list nat) : list nat :=
  match count with [] => [] | c :: rest => acc :: prefix_from (acc + c)%nat rest end.

Fixpoint scatter (src : list A) (prefix : list nat) (dst : list A) : option (list A) :=
  match src with
  | [] => Some dst
  | r :: rest =>
      bv ← bucket_of r;
      out_pos ← rd prefix bv;
      prefix' ← wr prefix bv (S out_pos);
      dst' ← wr dst out_pos r;
      scatter rest prefix' dst'
  end.

(** With [m] buckets. *)
Definition counting_pass (m : nat) (src dst : list A) : option (list A) :=
  count ← count_rows src (replicate m O);
  scatter src (prefix_from 0 count) dst.

End Pass.

Definition pass (ty : column_type) (key_col b : nat) (src dst : list row) : option (list row) :=
  counting_pass (bucket ty key_col b) 256 src dst.

(** The passes [bs] in order; after each one the buffers swap roles.  The flag
    says that [src] is the scratch buffer [tmp]. *)
Fixpoint passes (ty : column_type) (key_col : nat) (bs : list nat) (data tmp : list row) (in_tmp : bool)
  : option (list row * list row * bool) :=
  match bs with
  | [] => Some (data, tmp, in_tmp)
  | b :: rest =>
      if in_tmp
      then data' ← pass ty key_col b tmp data; passes ty key_col rest data' tmp false
      else tmp' ← pass ty key_col b data tmp; passes ty key_col rest data tmp' true
  end.

(** [wl_columnar_relation_radix_sort_rows_by_key_typed]; [tmp] is the scratch
    allocation with its indeterminate contents.  Returns the code and the rows
    of the buffer. *)
Definition radix_sort_rows_by_key_typed (tmp : option (list row)) (ty : column_type)
    (data : list row) (ncols key_col : nat) : option (Z * list row) :=
  if (ncols =? 0)%nat || (length data <=? 1)%nat || (ncols <=? key_col)%nat then Some (0, data)
  else
    match tmp with
    | None => Some (-1, data)
    | Some t =>
        '(data', tmp', in_tmp) ← passes ty key_col (seq 0 8) data t false;
        Some (0, if in_tmp : bool then tmp' else data')
    end.

Definition col_radix_sort_rows_by_key (tmp : option (list row)) (data : list row) (ncols key_col : nat)
  : option (Z * list row) :=
  radix_sort_rows_by_key_typed tmp TYPE_INT64 data ncols key_col.

(** ** Counting sort *)

Section Counting.
Context {A : Type} (f : A -> nat) (m : nat).
Local Open Scope nat_scope.

Definition block (l : list A) (v : nat) : list A := filter (fun x => f x = v) l.
Definition bsort (l : list A) : list A := concat (block l <$> seq 0 m).

(** The first position of bucket [v]. *)
Definition offset (l : list A) (v : nat) : nat := length (concat (block l <$> seq 0 v)).

Lemma offset_S l v : offset l (S v) = offset l v + length (block l v).
Proof. unfold offset. rewrite seq_S, fmap_app, concat_app, length_app. cbn. rewrite app_nil_r. done. Qed.

Lemma offset_mono l v w : v <= w -> offset l v <= offset l w.
Proof. induction 1; [done|]. rewrite offset_S. lia. Qed.

Lemma block_nil v : block [] v = [].
Proof. done. Qed.

Lemma block_cons x l v : block (x :: l) v = if decide (f x = v) then x :: block l v else block l v.
Proof. unfold block. rewrite filter_cons. done. Qed.

Lemma block_app l1 l2 v : block (l1 ++ l2) v = block l1 v ++ block l2 v.
Proof. apply filter_app. Qed.

(** Every position of the sorted list lies in one bucket. *)
Lemma bsort_lookup l k p x :
  concat (block l <$> seq 0 k) !! p = Some x <->
  exists v i, v < k /\ p = offset l v + i /\ block l v !! i = Some x.
Proof.
  induction k as [|k IH]; [cbn; split; [done|intros (v & i & Hv & _); lia]|].
  rewrite seq_S, fmap_app, concat_app. cbn. rewrite app_nil_r, lookup_app_Some, IH.
  fold (offset l k). split.
  - intros [(v & i & Hv & H)|[Hge Hx]]; [exists v, i; split; [lia|done]|].
    exists k, (p - offset l k). unfold offset in *. split_and!; [lia|lia|done].
  - intros (v & i & Hv & -> & Hx). destruct (decide (v = k)) as [->|].
    + right. unfold offset. split; [lia|]. by replace (_ + i - _) with i by lia.
    + left. exists v, i. split; [lia|done].
Qed.

Hypothesis Hf : forall x, f x < m.

Lemma length_bsort l : length (bsort l) = length l.
Proof.
  unfold bsort. induction l as [|x l IH].
  - generalize (seq 0 m). intros s. induction s; [done|]. cbn. done.
  - cbn. rewrite <- IH. clear IH. assert (Hin : f x ∈ seq 0 m) by (apply elem_of_seq; specialize (Hf x); lia).
    pose proof (NoDup_seq 0 m) as Hnd. revert Hin Hnd. generalize (seq 0 m). intros s.
    induction s as [|v s IH]; intros Hin Hnd; [by apply not_elem_of_nil in Hin|].
    apply NoDup_cons in Hnd as [Hv Hnd]. cbn [fmap list_fmap concat]. rewrite !length_app, block_cons.
    destruct (decide (f x = v)) as [Hx|Hne].
    + cbn. f_equal. f_equal. f_equal. f_equal. apply list_fmap_ext. intros i w Hw.
      rewrite block_cons, decide_False; [done|]. intros Hw'. apply Hv. rewrite <- Hx, Hw'.
      by eapply list_elem_of_lookup_2.
    + apply elem_of_cons in Hin as [?|Hin]; [done|]. rewrite IH by done. lia.
Qed.

End Counting.
#[global] Arguments block : simpl never.
#[global] Arguments offset : simpl never.

(** ** One pass is a counting sort *)

Section CountingPass.
Context {A : Type} (bucket_of : A -> option nat) (m : nat) (good : A -> Prop).
Local Open Scope nat_scope.
Let f (x : A) : nat := default O (bucket_of x).
Hypothesis Hsome : forall x, good x -> bucket_of x = Some (f x).
Hypothesis Hlt : forall x, f x < m.

Lemma count_rows_ok src : forall count, length count = m -> Forall good src ->
  exists count', count_rows bucket_of src count = Some count' /\ length count' = m /\
    forall v, v < m -> count' !!! v = count !!! v + length (block f src v).
Proof.
  induction src as [|r src IH]; intros count Hl Hk; cbn [count_rows].
  { exists count. split_and!; [done..|]. intros v _. rewrite block_nil. cbn. lia. }
  apply Forall_cons in Hk as [Hr Hk]. pose proof (Hlt r) as Hltr.
  rewrite Hsome by done. cbn. rewrite rd_total by lia. cbn. rewrite wr_lt by lia. cbn.
  destruct (IH (<[f r := S (count !!! f r)]> count)) as (count' & -> & Hl' & Hc); [by rewrite length_insert|done|].
  exists count'. split_and!; [done..|]. intros v Hv. rewrite Hc, upd_total, block_cons by lia.
  repeat case_decide; subst; cbn; done || lia.
Qed.

Lemma length_prefix_from acc count : length (prefix_from acc count) = length count.
Proof. revert acc. induction count; intros; cbn; auto. Qed.

Lemma prefix_offset l count : length count = m -> (forall v, v < m -> count !!! v = length (block f l v)) ->
  forall v, v < m -> prefix_from 0 count !!! v = offset f l v.
Proof.
  intros Hl Hc. assert (Hstep : forall c acc v, S v < length c ->
    prefix_from acc c !!! S v = prefix_from acc c !!! v + c !!! v).
  { induction c as [|x c IHc]; intros acc v Hv; cbn in Hv; [lia|].
    destruct v as [|v]; cbn.
    - by destruct c; [cbn in Hv; lia|].
    - apply IHc. lia. }
  induction v as [|v IH]; intros Hv.
  - by destruct count.
  - rewrite Hstep, IH, Hc, offset_S by lia. done.
Qed.

Lemma scatter_ok l todo : forall done_ prefix dst, l = done_ ++ todo -> Forall good todo ->
  length prefix = m -> length dst = length l ->
  (forall v, v < m -> prefix !!! v = offset f l v + length (block f done_ v)) ->
  (forall v i x, v < m -> block f done_ v !! i = Some x -> dst !! (offset f l v + i) = Some x) ->
  exists dst', scatter bucket_of todo prefix dst = Some dst' /\ length dst' = length l /\
    forall v i x, v < m -> block f l v !! i = Some x -> dst' !! (offset f l v + i) = Some x.
Proof.
  induction todo as [|r todo IH]; intros done_ prefix dst Hl Hk Hp Hd Hpre Hdst; cbn [scatter].
  { exists dst. rewrite app_nil_r in Hl. subst. done. }
  apply Forall_cons in Hk as [Hr Hk]. pose proof (Hlt r) as Hltr.
  assert (Hroom : forall v, offset f l v + length (block f done_ v) + length (block f (r :: todo) v)
                  = offset f l (S v)).
  { intros v. rewrite offset_S, Hl, block_app, length_app. lia. }
  assert (Htop : offset f l m = length l) by (apply (length_bsort f m Hlt l)).
  assert (Hpos : prefix !!! f r < length l).
  { rewrite Hpre by done. rewrite <- Htop. pose proof (offset_mono f l (S (f r)) m ltac:(lia)).
    specialize (Hroom (f r)). rewrite block_cons, decide_True in Hroom by done. cbn in Hroom. lia. }
  rewrite Hsome by done. cbn. rewrite rd_total by lia. cbn. rewrite wr_lt by lia. cbn.
  rewrite wr_lt by lia. cbn.
  apply (IH (done_ ++ [r])); rewrite ?length_insert; [by rewrite <- app_assoc|done..| |].
  - intros v Hv. rewrite upd_total, block_app, length_app, block_cons by lia.
    specialize (Hpre v Hv). rewrite block_nil.
    repeat case_decide; subst; cbn; done || lia.
  - intros v i x Hv Hx. rewrite block_app in Hx. apply lookup_app_Some in Hx as [Hx|[Hge Hx]].
    + assert (Hi := lookup_lt_Some _ _ _ Hx). rewrite list_lookup_insert_ne; [by apply Hdst|].
      rewrite Hpre by done. assert (v < f r \/ v = f r \/ f r < v) as [?|[->|?]] by lia.
      * pose proof (offset_mono f l (S v) (f r) ltac:(lia)). specialize (Hroom v). lia.
      * lia.
      * pose proof (offset_mono f l (S (f r)) v ltac:(lia)). specialize (Hroom (f r)).
        rewrite block_cons, decide_True in Hroom by done. cbn in Hroom. lia.
    + rewrite block_cons in Hx. case_decide as Hv'; [|by rewrite block_nil, lookup_nil in Hx]. subst v.
      rewrite block_nil in Hx.
      destruct (i - length (block f done_ (f r))) as [|j] eqn:Ej; [|done]. cbn in Hx. injection Hx as <-.
      replace i with (length (block f done_ (f r))) by lia.
      rewrite <- (Hpre (f r)) by done. rewrite list_lookup_insert_eq by lia. done.
Qed.

Lemma counting_pass_ok src dst : Forall good src -> length dst = length src ->
  counting_pass bucket_of m src dst = Some (bsort f m src).
Proof.
  intros Hk Hd. unfold counting_pass.
  destruct (count_rows_ok src (replicate m O)) as (count & -> & Hl & Hc); [apply length_replicate|done|]. cbn [mbind option_bind].
  assert (Hc' : forall v, v < m -> count !!! v = length (block f src v)).
  { intros v Hv. rewrite Hc, lookup_total_replicate_2 by done. done. }
  destruct (scatter_ok src src [] (prefix_from 0 count) dst) as (dst' & -> & Hl' & Hx); try done.
  - by rewrite length_prefix_from.
  - intros v Hv. rewrite (prefix_offset src), block_nil by done. cbn. lia.
  - f_equal. apply list_eq_same_length with (n := length src); [apply length_bsort, Hlt|done|].
    intros p x y Hp H1 H2. apply bsort_lookup in H2 as (v & i & Hv & -> & H2).
    rewrite (Hx v i y) in H1 by done. congruence.
Qed.

End CountingPass.

Section PassProof.
Variables (ty : column_type) (key_col b : nat).
Local Open Scope nat_scope.
Let f (r : row) : nat := default O (bucket ty key_col b r).

(** The rows that have the key column. *)
Definition has_key (r : row) : Prop := key_col < length r.

Lemma bucket_some r : has_key r -> bucket ty key_col b r = Some (f r).
Proof. intros H. unfold f, bucket. by rewrite rd_total by done. Qed.

Lemma lxor_128 x : (0 <= x < 256 -> Z.lxor x 0x80 = if x <? 128 then x + 128 else x - 128)%Z.
Proof.
  intros Hx. assert (Hall : Forall (fun x => Z.lxor x 0x80 = if x <? 128 then x + 128 else x - 128)%Z (seqZ 0 256))
    by (apply (bool_decide_unpack _); by vm_compute).
  rewrite Forall_forall in Hall. apply Hall, elem_of_seqZ. lia.
Qed.

Lemma bucket_lt r : f r < 256.
Proof.
  unfold f, bucket. destruct (rd r key_col) as [k|]; [|cbn; lia].
  cbn [mbind option_bind default from_option id]. set (x := u8 _).
  assert (Hu : (0 <= x < 256)%Z) by (unfold x, u8; apply Z.mod_pos_bound; lia).
  clearbody x. destruct (_ && _); [rewrite lxor_128 by done; destruct (Z.ltb_spec x 128)|]; lia.
Qed.

Lemma pass_ok src dst : Forall has_key src -> length dst = length src ->
  pass ty key_col b src dst = Some (bsort f 256 src).
Proof. apply (counting_pass_ok (bucket ty key_col b) 256 has_key bucket_some bucket_lt). Qed.

End PassProof.

(** ** Stability and order of a counting sort *)

Lemma ssorted_app {A} (R : A -> A -> Prop) (l1 l2 : list A) :
  StronglySorted R l1 -> StronglySorted R l2 ->
  (forall x y, x ∈ l1 -> y ∈ l2 -> R x y) -> StronglySorted R (l1 ++ l2).
Proof.
  intros H1 H2 H12. induction H1 as [|x l1 _ IH Hx]; cbn; [done|]. constructor.
  - apply IH. intros y z Hy. apply H12. by right.
  - apply Forall_app. split; [done|]. apply Forall_forall. intros y. apply H12. left.
Qed.

Lemma ssorted_filter {A} (R : A -> A -> Prop) (P : A -> Prop) `{forall x, Decision (P x)} (l : list A) :
  StronglySorted R l -> StronglySorted R (filter P l).
Proof.
  induction 1 as [|x l _ IH Hx]; [constructor|]. rewrite filter_cons. case_decide; [|done].
  constructor; [done|]. apply Forall_forall. intros y [_ Hy]%list_elem_of_filter.
  rewrite Forall_forall in Hx. by apply Hx.
Qed.

Section Stable.
Context {A : Type} (f : A -> nat) (m : nat) (Hf : forall x, (f x < m)%nat).

(** A property that pins the bucket sees the sort as the identity. *)
Lemma bsort_stable (Q : A -> Prop) `{forall x, Decision (Q x)} (v : nat) (l : list A) :
  (forall x, Q x -> f x = v) -> filter Q (bsort f m l) = filter Q l.
Proof.
  intros HQ. destruct (decide (v < m)%nat) as [Hv|Hv].
  - unfold bsort. assert (Hin : v ∈ seq 0 m) by (apply elem_of_seq; lia).
    pose proof (NoDup_seq 0 m) as Hnd. revert Hin Hnd. generalize (seq 0 m). intros s.
    assert (Hout : forall s, v ∉ s -> filter Q (concat (block f l <$> s)) = []).
    { clear s. induction s as [|w s IH]; intros Hni; [done|]. cbn [fmap list_fmap concat].
      rewrite filter_app, IH by set_solver. rewrite app_nil_r. unfold block.
      rewrite list_filter_filter. apply filter_none.
      intros x _ [Hx Hw]. apply HQ in Hx. set_solver. }
    induction s as [|w s IH]; intros Hin Hnd; [by apply not_elem_of_nil in Hin|].
    apply NoDup_cons in Hnd as [Hw Hnd]. cbn [fmap list_fmap concat]. rewrite filter_app.
    destruct (decide (w = v)) as [->|Hne].
    + rewrite Hout, app_nil_r by done. unfold block. rewrite list_filter_filter.
      apply filter_iff_in. intros x _. naive_solver.
    + rewrite IH by set_solver. unfold block. rewrite list_filter_filter.
      rewrite filter_none; [done|]. intros x _ [Hx%HQ Hxw]. congruence.
  - assert (Hno : forall x, ~ Q x) by (intros x Hx; apply HQ in Hx; specialize (Hf x); lia).
    rewrite !filter_none by auto. done.
Qed.

(** Sorting by bucket a list sorted by [g] sorts by bucket, then [g]. *)
Lemma bsort_sorted (g h : A -> Z) (l : list A) :
  (forall x y, x ∈ l -> y ∈ l -> f x = f y -> g x <= g y -> h x <= h y) ->
  (forall x y, x ∈ l -> y ∈ l -> (f x < f y)%nat -> h x <= h y) ->
  StronglySorted (fun x y => g x <= g y) l ->
  StronglySorted (fun x y => h x <= h y) (bsort f m l).
Proof.
  intros Heq Hlt Hs. unfold bsort.
  assert (Hin : forall x v, x ∈ block f l v -> x ∈ l /\ f x = v)
    by (intros x v [? ?]%list_elem_of_filter; done).
  clear Hf. generalize 0%nat as a. induction m as [|k IH]; intros a; [constructor|]. cbn [seq fmap list_fmap concat].
  apply ssorted_app; [|apply IH|].
  - assert (Hb : StronglySorted (fun x y => g x <= g y) (block f l a)) by by apply ssorted_filter.
    assert (Hall : forall x, x ∈ block f l a -> x ∈ l /\ f x = a) by (intros x; apply Hin).
    revert Hall. induction Hb as [|x b Hb IHb Hx]; intros Hall; constructor.
    + apply IHb. intros y Hy. apply Hall. by right.
    + apply Forall_forall. intros y Hy. rewrite Forall_forall in Hx.
      destruct (Hall x ltac:(left)) as [? ?], (Hall y ltac:(by right)) as [? ?].
      apply Heq; [done..|congruence|by apply Hx].
  - intros x y Hx Hy. apply Hin in Hx as [Hx <-].
    rewrite list_elem_of_In, in_concat in Hy. destruct Hy as (bl & Hbl & Hy).
    apply list_elem_of_In in Hbl, Hy. apply list_elem_of_fmap in Hbl as (w & -> & Hw).
    apply elem_of_seq in Hw. apply Hin in Hy as [Hy <-]. apply Hlt; [done..|lia].
Qed.

End Stable.

(** Two lists that agree on every class of [g] are permutations. *)
Lemma classes_permutation {A} (g : A -> Z) (l1 : list A) : forall l2,
  (forall m, filter (fun x => g x = m) l1 = filter (fun x => g x = m) l2) -> l1 ≡ₚ l2.
Proof.
  induction l1 as [|x l1 IH]; intros l2 H.
  - destruct l2 as [|y l2]; [done|]. specialize (H (g y)). rewrite filter_cons, decide_True in H; done.
  - assert (Hx : x ∈ l2).
    { specialize (H (g x)). rewrite filter_cons, decide_True in H by done.
      assert (Hin : x ∈ filter (fun y => g y = g x) l2) by (rewrite <- H; left).
      by apply list_elem_of_filter in Hin as [_ ?]. }
    assert (exists a b, l2 = a ++ x :: b /\ Forall (fun y => g y <> g x) a) as (a & b & -> & Ha).
    { assert (Hhd : filter (fun y => g y = g x) l2 = x :: filter (fun y => g y = g x) l1)
        by (rewrite <- H, filter_cons, decide_True; done).
      clear H IH Hx. induction l2 as [|y l2 IH2]; [done|]. rewrite filter_cons in Hhd. case_decide as Hy.
      - injection Hhd as -> _. exists [], l2. done.
      - destruct (IH2 Hhd) as (a & b & -> & Ha). exists (y :: a), b. split; [done|]. by constructor. }
    rewrite <- Permutation_middle. constructor. apply IH. intros k.
    specialize (H k). rewrite filter_app in *. rewrite !filter_cons in H. case_decide as Hk.
    + subst k. rewrite Forall_forall in Ha. rewrite (filter_none _ a) in * by done. cbn in *. congruence.
    + done.
Qed.

(** ** The eight passes *)

(** The unsigned 64-bit key that the passes sort by. *)
Definition okey (ty : column_type) (k : Z) : Z :=
  if is_float ty then float_ordered (u64 k) else k + 2 ^ 63.

Lemma okey_range ty k : is_int64 k -> 0 <= okey ty k < 2 ^ 64.
Proof. intros Hk. unfold okey. destruct (is_float ty); [rewrite float_ordered_eq by done; case_match|]; mi. Qed.

Lemma okey_inj ty a b : is_int64 a -> is_int64 b -> okey ty a = okey ty b -> a = b.
Proof.
  intros Ha Hb. unfold okey. destruct (is_float ty); [|lia]. rewrite !float_ordered_eq by done.
  destruct (Z.ltb_spec a 0), (Z.ltb_spec b 0); mi.
Qed.

(** The order of the passes refines the order of the column. *)
Lemma okey_rank ty a b : is_int64 a -> is_int64 b -> okey ty a <= okey ty b -> rank ty a <= rank ty b.
Proof.
  intros Ha Hb. unfold okey, rank. destruct (is_float ty); [|lia].
  rewrite !float_bits_zero_iff, !float_ordered_eq by done.
  destruct (Z.eqb_spec a 0), (Z.eqb_spec a (- 2 ^ 63)), (Z.eqb_spec b 0), (Z.eqb_spec b (- 2 ^ 63));
    cbn [orb]; destruct (Z.ltb_spec a 0), (Z.ltb_spec b 0); mi.
Qed.

Section Lsd.
Variables (ty : column_type) (key_col : nat).

Definition good_row (r : row) : Prop := (key_col < length r)%nat /\ is_int64 (r !!! key_col).
Definition key (r : row) : Z := r !!! key_col.
Definition low (b : nat) (r : row) : Z := okey ty (key r) mod 2 ^ (8 * Z.of_nat b).
Let f (b : nat) (r : row) : nat := default O (bucket ty key_col b r).

Lemma bucket_byte b r : (b < 8)%nat -> good_row r ->
  Z.of_nat (f b r) = okey ty (key r) / 2 ^ (8 * Z.of_nat b) mod 2 ^ 8.
Proof.
  intros Hb [Hl Hk]. unfold f, bucket. rewrite rd_total by done. cbn [mbind option_bind default from_option id].
  fold (key r). unfold u8, okey. rewrite Z.shiftr_div_pow2 by lia. unfold is_float in *.
  destruct (bool_decide (ty = TYPE_FLOAT)); cbn [negb].
  { rewrite andb_false_r, Z2Nat.id; [done|]. by apply Z.mod_pos_bound. }
  rewrite andb_true_r. assert (Hraw : u64 (key r) = (key r + 2 ^ 63) + (if key r <? 0 then 2 ^ 63 else - 2 ^ 63)).
  { unfold u64, key in *. destruct (Z.ltb_spec (r !!! key_col) 0); mi_divmod. }
  set (o := key r + 2 ^ 63) in *. assert (Ho : 0 <= o < 2 ^ 64) by (unfold o, key in *; mi).
  destruct (Nat.eqb_spec b 7) as [->|Hb7].
  - change (8 * Z.of_nat 7) with 56. rewrite lxor_128 by (by apply Z.mod_pos_bound).
    rewrite Hraw. unfold o in *. destruct (Z.ltb_spec (key r) 0); case_match eqn:E; mi_divmod.
  - rewrite Z2Nat.id by (by apply Z.mod_pos_bound). rewrite Hraw. unfold key in *.
    assert (b = 0 \/ b = 1 \/ b = 2 \/ b = 3 \/ b = 4 \/ b = 5 \/ b = 6)%nat as Hc by lia.
    destruct Hc as [->|[->|[->|[->|[->|[->| ->]]]]]]; cbn [Z.of_nat Pos.of_succ_nat Z.mul Pos.mul Pos.succ Pos.add];
      case_match; mi_divmod.
Qed.

Lemma low_S b r : (b < 8)%nat -> good_row r ->
  low (S b) r = Z.of_nat (f b r) * 2 ^ (8 * Z.of_nat b) + low b r.
Proof.
  intros Hb Hg. rewrite bucket_byte by done. unfold low.
  assert (Hp : 2 ^ (8 * Z.of_nat (S b)) = 2 ^ (8 * Z.of_nat b) * 2 ^ 8)
    by (rewrite <- Z.pow_add_r by lia; f_equal; lia).
  rewrite Hp, Z.rem_mul_r by lia. lia.
Qed.

Lemma low_range b r : 0 <= low b r < 2 ^ (8 * Z.of_nat b).
Proof. unfold low. apply Z.mod_pos_bound. lia. Qed.

(** What [b] passes have established of [out], from the rows [rows]. *)
Record sorted_upto (b : nat) (rows out : list row) : Prop := {
  su_good : Forall good_row out;
  su_order : StronglySorted (fun x y => low b x <= low b y) out;
  su_stable : forall m, filter (fun x => low b x = m) out = filter (fun x => low b x = m) rows }.

Lemma sorted_upto_perm b rows out : sorted_upto b rows out -> out ≡ₚ rows.
Proof. intros H. apply (classes_permutation (low b)), H. Qed.

Lemma pass_upto b rows out : (b < 8)%nat -> Forall good_row rows -> sorted_upto b rows out ->
  sorted_upto (S b) rows (bsort (f b) 256 out).
Proof.
  intros Hb Hrows H. pose proof (bucket_lt ty key_col b) as Hlt. fold (f b) in Hlt.
  assert (Hg : Forall good_row (bsort (f b) 256 out)).
  { rewrite Forall_forall. intros x Hx. unfold bsort in Hx. rewrite list_elem_of_In, in_concat in Hx.
    destruct Hx as (bl & Hbl & Hx). apply list_elem_of_In in Hbl, Hx.
    apply list_elem_of_fmap in Hbl as (w & -> & _). apply list_elem_of_filter in Hx as [_ Hx].
    pose proof (su_good _ _ _ H) as Hgo. rewrite Forall_forall in Hgo. by apply Hgo. }
  pose proof (su_good _ _ _ H) as Hgo. rewrite Forall_forall in Hgo. rewrite Forall_forall in Hrows.
  split; [done| |].
  - apply (bsort_sorted (f b) 256 (low b)); [| |apply H].
    + intros x y Hx Hy Hxy Hle. rewrite !low_S by auto. rewrite Hxy. lia.
    + intros x y Hx Hy Hxy. rewrite !low_S by auto. pose proof (low_range b x). pose proof (low_range b y). nia.
  - intros m. destruct (decide (m < 0)) as [Hm|Hm].
    { rewrite !filter_none; [done|intros x _ Hx; pose proof (low_range (S b) x); lia..]. }
    assert (Hv0 : 0 <= m / 2 ^ (8 * Z.of_nat b)) by (apply Z.div_pos; lia). set (v := m / 2 ^ (8 * Z.of_nat b)). set (m' := m mod 2 ^ (8 * Z.of_nat b)).
    assert (Hsplit : forall x, good_row x -> low (S b) x = m <-> Z.of_nat (f b x) = v /\ low b x = m').
    { intros x Hx. rewrite low_S by done. pose proof (low_range b x). unfold v, m'. split.
      - intros <-. rewrite (Z.add_comm _ (low b x)), Z_div_plus_full, Z.div_small by lia.
        rewrite Z_mod_plus_full, Z.mod_small by lia. lia.
      - intros [-> ->]. rewrite (Z.div_mod m (2 ^ (8 * Z.of_nat b))) at 3 by lia. lia. }
    transitivity (filter (fun x => f b x = Z.to_nat v) (filter (fun x => low b x = m') out)).
    + rewrite list_filter_filter.
      transitivity (filter (fun x => f b x = Z.to_nat v /\ low b x = m') (bsort (f b) 256 out)).
      * apply filter_iff_in. intros x Hx. rewrite Forall_forall in Hg. rewrite Hsplit by auto. lia.
      * rewrite (bsort_stable (f b) 256 Hlt _ (Z.to_nat v)) by (intros x [? _]; done).
        apply filter_iff_in. tauto.
    + rewrite (su_stable _ _ _ H), list_filter_filter. apply filter_iff_in. intros x Hx.
      rewrite Hsplit by auto. lia.
Qed.

End Lsd.

Lemma passes_upto ty key_col rows : Forall (good_row key_col) rows ->
  forall n b data tmp (in_tmp : bool), (b + n <= 8)%nat ->
  length data = length rows -> length tmp = length rows ->
  sorted_upto ty key_col b rows (if in_tmp then tmp else data) ->
  exists data' tmp' in_tmp', passes ty key_col (seq b n) data tmp in_tmp = Some (data', tmp', in_tmp') /\
    sorted_upto ty key_col (b + n) rows (if in_tmp' : bool then tmp' else data').
Proof.
  intros Hrows n. induction n as [|n IH]; intros b data tmp in_tmp Hb Hd Ht H; cbn [seq passes].
  { rewrite Nat.add_0_r. do 3 eexists. split; [done|]. done. }
  assert (Hpass : forall dst, length dst = length rows ->
    pass ty key_col b (if in_tmp then tmp else data) dst =
    Some (bsort (fun r => default O (bucket ty key_col b r)) 256 (if in_tmp then tmp else data))).
  { intros dst Hl. apply pass_ok.
    - eapply Forall_impl; [apply H|]. intros r [? _]. done.
    - rewrite Hl. symmetry. apply Permutation_length. by eapply sorted_upto_perm. }
  pose proof (pass_upto ty key_col b rows _ ltac:(lia) Hrows H) as H'.
  assert (Hlen : forall l, sorted_upto ty key_col (S b) rows l -> length l = length rows)
    by (intros l Hl; apply Permutation_length; by eapply sorted_upto_perm).
  rewrite Nat.add_succ_r, <- Nat.add_succ_l.
  destruct in_tmp; rewrite Hpass by done; cbn [mbind option_bind]; apply IH; try done; try lia; auto.
Qed.

(** The contract of a sort by one key column: the rows keep their multiset, are
    in the column's order, and equal keys keep their relative order.  Without
    scratch memory the buffer is left as it was. *)
Record key_sorted (ty : column_type) (key_col : nat) (data out : list row) : Prop := {
  ks_perm : out ≡ₚ data;
  ks_order : StronglySorted (fun x y => rank ty (key key_col x) <= rank ty (key key_col y)) out;
  ks_stable : forall k, filter (fun r => key key_col r = k) out = filter (fun r => key key_col r = k) data }.

Definition good_table (ncols key_col : nat) (data : list row) : Prop :=
  (key_col < ncols)%nat /\ Forall (fun r => length r = ncols /\ is_int64 (r !!! key_col)) data.

Class StableKeySort
  (sort : option (list row) -> column_type -> list row -> nat -> nat -> option (Z * list row)) : Prop := {
  sort_ok : forall t ty data ncols key_col, good_table ncols key_col data -> length t = length data ->
    exists out, sort (Some t) ty data ncols key_col = Some (0, out) /\ key_sorted ty key_col data out;
  sort_oom : forall ty data ncols key_col, good_table ncols key_col data ->
    sort None ty data ncols key_col = Some (0, data) /\ key_sorted ty key_col data data \/
    sort None ty data ncols key_col = Some (-1, data) }.

Lemma key_sorted_short ty key_col data : (length data <= 1)%nat -> key_sorted ty key_col data data.
Proof.
  intros H. split; [done| |done]. destruct data as [|r [|]]; [constructor|repeat constructor|cbn in H; lia].
Qed.

Lemma radix_sorts t ty data ncols key_col : good_table ncols key_col data -> length t = length data ->
  exists out, radix_sort_rows_by_key_typed (Some t) ty data ncols key_col = Some (0, out) /\
    key_sorted ty key_col data out.
Proof.
  intros [Hk Hd] Ht. unfold radix_sort_rows_by_key_typed.
  destruct (Nat.eqb_spec ncols 0); [lia|]. destruct (Nat.leb_spec ncols key_col); [lia|].
  destruct (Nat.leb_spec (length data) 1) as [H1|H1]; cbn [orb].
  { exists data. split; [done|]. by apply key_sorted_short. }
  assert (Hg : Forall (good_row key_col) data).
  { eapply Forall_impl; [done|]. intros r [Hl Hr]. split; [lia|done]. }
  destruct (passes_upto ty key_col data Hg 8 0 data t false) as (d & t' & it & -> & Hs); [lia|done|done| |].
  { split; [done| |done]. assert (Hz : forall x y, low ty key_col 0 x <= low ty key_col 0 y).
    { intros x y. pose proof (low_range ty key_col 0 x). pose proof (low_range ty key_col 0 y). cbn in *. lia. }
    clear -Hz. induction data; constructor; [done|]. apply Forall_forall. auto. }
  cbn [mbind option_bind]. eexists. split; [done|]. set (out := if it then t' else d) in *.
  assert (Hlow : forall r, good_row key_col r -> low ty key_col 8 r = okey ty (key key_col r)).
  { intros r [_ Hr]. unfold low. apply Z.mod_small. apply (okey_range ty _ Hr). }
  assert (Hgo : forall x, x ∈ out -> good_row key_col x) by (by apply Forall_forall, Hs).
  rewrite Forall_forall in Hg. split.
  - by eapply sorted_upto_perm.
  - pose proof (su_order _ _ _ _ _ Hs) as Ho. revert Ho Hgo. generalize out. clear.
    induction 1 as [|x l Hs IH Hx]; intros Hgo; constructor; [apply IH; intros; apply Hgo; by right|].
    apply Forall_forall. intros y Hy. rewrite Forall_forall in Hx. specialize (Hx y Hy).
    destruct (Hgo x ltac:(left)) as [? Hxi], (Hgo y ltac:(by right)) as [? Hyi].
    apply okey_rank; [done..|]. unfold low in Hx. rewrite !Z.mod_small in Hx; [done|apply okey_range; done..].
  - intros k. destruct (decide (is_int64 k)) as [Hki|Hki].
    + transitivity (filter (fun r => low ty key_col 8 r = okey ty k) out).
      * apply filter_iff_in. intros x Hx%Hgo. rewrite Hlow by done. split; [by intros <-|].
        apply okey_inj; [apply Hx|done].
      * rewrite (su_stable _ _ _ _ _ Hs). apply filter_iff_in. intros x Hx%Hg. rewrite Hlow by done.
        split; [|by intros <-]. apply okey_inj; [apply Hx|done].
    + rewrite !filter_none; [done| |]; intros x Hx <-; [apply Hg in Hx|apply Hgo in Hx]; by apply Hki, Hx.
Qed.

#[export] Instance radix_stable_key_sort : StableKeySort radix_sort_rows_by_key_typed.
Proof.
  split; [apply radix_sorts|]. intros ty data ncols key_col [Hk _]. unfold radix_sort_rows_by_key_typed.
  destruct (Nat.eqb_spec ncols 0); [lia|]. destruct (Nat.leb_spec ncols key_col); [lia|].
  destruct (Nat.leb_spec (length data) 1); [left|by right]. split; [done|by apply key_sorted_short].
Qed.

(** ** Properties *)

(** The key-column radix sort is a stable sort: for any table of int64
    cells, signed or binary64 keys alike, it stays inside its buffers and
    returns a permutation of the rows, in the column's order, in which rows
    with the same key keep their relative order. *)
Theorem radix_sort_stable (t : list row) (ty : column_type) (data : list row) (ncols key_col : nat)
  (Hg : good_table ncols key_col data) (Ht : length t = length data) :
  exists out, radix_sort_rows_by_key_typed (Some t) ty data ncols key_col = Some (0, out) /\
    key_sorted ty key_col data out.
Proof. by apply radix_sorts. Qed.

Definition table2 : list row := [[3; 1]; [-5; 2]; [3; 3]; [0; 4]].

Lemma radix_sort_stable_witness :
  exists out, radix_sort_rows_by_key_typed (Some [[]; []; []; []]) TYPE_INT64 table2 2 0 = Some (0, out) /\
    key_sorted TYPE_INT64 0 table2 out.
Proof.
  apply (radix_sort_stable [[]; []; []; []] TYPE_INT64 table2 2 0); [|reflexivity].
  split; [lia|]. repeat constructor; vm_compute; congruence.
Defined.

(** On finite binary64 patterns the bit comparison is a total order: it is
    the three-way comparison of ranks, under which the two zeros coincide and
    every other pattern has a rank of its own. *)
Theorem float_compare_total (a b : Z) (Ha : valid_key TYPE_FLOAT a) (Hb : valid_key TYPE_FLOAT b) :
  float_compare_bits a b = three_way (rank TYPE_FLOAT a) (rank TYPE_FLOAT b) /\
  (rank TYPE_FLOAT a = rank TYPE_FLOAT b <-> a = b \/ float_bits_zero a = true /\ float_bits_zero b = true).
Proof.
  split; [by apply cmp_rank|]. destruct Ha as [Ha _], Hb as [Hb _].
  unfold rank, is_float. rewrite bool_decide_true by done.
  rewrite !float_bits_zero_iff, !float_ordered_eq by done.
  destruct (Z.eqb_spec a 0), (Z.eqb_spec a (- 2 ^ 63)), (Z.eqb_spec b 0), (Z.eqb_spec b (- 2 ^ 63));
    cbn [orb]; try (split; [auto|done]); split; try (intros [?|[? ?]]; done || lia);
    destruct (Z.ltb_spec a 0), (Z.ltb_spec b 0); intros; try (left; mi); mi.
Qed.

Lemma float_compare_total_witness :
  float_compare_bits (-4616189618054758400) 0 =
    three_way (rank TYPE_FLOAT (-4616189618054758400)) (rank TYPE_FLOAT 0) /\
  (rank TYPE_FLOAT (-4616189618054758400) = rank TYPE_FLOAT 0 <-> -4616189618054758400 = 0 \/
     float_bits_zero (-4616189618054758400) = true /\ float_bits_zero 0 = true).
Proof. apply (float_compare_total (-4616189618054758400) 0); split; [mi|done|mi|done]. Defined.

End Radix.
