(* ===== verification/Relation.v ===== *)
(** * Relations (src/wirelog/columnar/internal.h, relation.c)

    A relation of int64 lanes.  The code stores it by columns; the model keeps
    the rows, so that [rows !! i] is the list of [columns[c][i]] over [c], and
    it keeps all the rows of the allocation, also those from [nrows] on.  Row
    numbers are [nat]: they are below the capacity, a uint32_t.  Generations,
    names, the schema and the ownership of buffers are left out. *)

From S2P Require Import Prelude RadixSort.

Module Rel.

Import Keys.

Abbreviation row := (list Z).

Definition COL_REL_INIT_CAP : nat := 64.
Definition COL_MAX_RUNS : nat := 8.

(** The lanes of a relation; [None] as [column_types] is NULL. *)
Record shape := Sh { ncols : nat; column_types : option (list column_type) }.

(** col_rel_t *)
Record rel := R {
  lanes :> shape;
  rows : list row;
  nrows : nat;
  capacity : nat;
  sorted_nrows : nat;
  merge_columns : option (list row);
  merge_buf_cap : nat;
  timestamps : bool;
  run_count : nat;
  run_ends : list nat }.

(** ** Setters *)

Definition set_rows (x : list row) (r : rel) : rel :=
  R (lanes r) x (nrows r) (capacity r) (sorted_nrows r) (merge_columns r) (merge_buf_cap r) (timestamps r) (run_count r) (run_ends r).
Definition set_nrows (n : nat) (r : rel) : rel :=
  R (lanes r) (rows r) n (capacity r) (sorted_nrows r) (merge_columns r) (merge_buf_cap r) (timestamps r) (run_count r) (run_ends r).
Definition set_capacity (n : nat) (r : rel) : rel :=
  R (lanes r) (rows r) (nrows r) n (sorted_nrows r) (merge_columns r) (merge_buf_cap r) (timestamps r) (run_count r) (run_ends r).
Definition set_sorted (n : nat) (r : rel) : rel :=
  R (lanes r) (rows r) (nrows r) (capacity r) n (merge_columns r) (merge_buf_cap r) (timestamps r) (run_count r) (run_ends r).
Definition set_merge (m : option (list row)) (cap : nat) (r : rel) : rel :=
  R (lanes r) (rows r) (nrows r) (capacity r) (sorted_nrows r) m cap (timestamps r) (run_count r) (run_ends r).
Definition set_timestamps (b : bool) (r : rel) : rel :=
  R (lanes r) (rows r) (nrows r) (capacity r) (sorted_nrows r) (merge_columns r) (merge_buf_cap r) b (run_count r) (run_ends r).
Definition set_runs (n : nat) (ends : list nat) (r : rel) : rel :=
  R (lanes r) (rows r) (nrows r) (capacity r) (sorted_nrows r) (merge_columns r) (merge_buf_cap r) (timestamps r) n ends.

(** ** Comparison of rows *)

Definition column_type_at (r : shape) (c : nat) : option column_type :=
  match column_types r with None => Some TYPE_INT64 | Some ts => rd ts c end.

Definition cell_cmp (ty : column_type) (a b : Z) : Z := if is_float ty then float_compare_bits a b else three_way a b.

Fixpoint cmp_from (r : shape) (n c : nat) (a b : row) : option Z :=
  match n with
  | O => Some 0
  | S n' =>
      ty ← column_type_at r c; va ← rd a c; vb ← rd b c;
      let cmp := cell_cmp ty va vb in
      if cmp =? 0 then cmp_from r n' (S c) a b else Some cmp
  end.

Definition col_rel_row_values_cmp (r : shape) (left right : row) : option Z := cmp_from r (ncols r) 0 left right.

(** With the unrolled paths for two and four columns. *)
Definition col_rel_row_cmp (r : rel) (row_a row_b : nat) : option Z :=
  a ← rd (rows r) row_a; b ← rd (rows r) row_b;
  if (ncols r =? 2)%nat then
    t0 ← column_type_at r 0; a0 ← rd a 0; b0 ← rd b 0;
    if negb (cell_cmp t0 a0 b0 =? 0) then Some (cell_cmp t0 a0 b0)
    else
      t1 ← column_type_at r 1; a1 ← rd a 1; b1 ← rd b 1;
      if is_float t1 then Some (float_compare_bits a1 b1)
      else if negb (a1 =? b1) then Some (if a1 <? b1 then -1 else 1)
      else Some 0
  else if (ncols r =? 4)%nat then cmp_from r 4 0 a b
  else cmp_from r (ncols r) 0 a b.

Definition col_rel_row_cmp_raw (r : rel) (row_idx : nat) (raw_row : row) : option Z :=
  a ← rd (rows r) row_idx; cmp_from r (ncols r) 0 a raw_row.

(** Binary search of row [needle] in the rows [lo] to [hi]. *)
Fixpoint binary_search (fuel : nat) (r : rel) (lo hi needle : nat) : option bool :=
  match fuel with
  | O => None
  | S fuel' =>
      if (lo <? hi)%nat then
        let mid := (lo + (hi - lo) / 2)%nat in
        cmp ← col_rel_row_cmp r mid needle;
        if cmp =? 0 then Some true
        else if cmp <? 0 then binary_search fuel' r (mid + 1) hi needle
        else binary_search fuel' r lo mid needle
      else Some false
  end.
Definition col_rel_binary_search_row (r : rel) (lo hi needle : nat) : option bool := binary_search (S (hi - lo)) r lo hi needle.

(** ** Rows in and out *)

Definition col_rel_row_move_raw (r : rel) (dst src : nat) : option rel :=
  if (dst =? src)%nat then Some r else x ← rd (rows r) src; l ← wr (rows r) dst x; Some (set_rows l r).

(** Every float lane holds a finite value. *)
Definition cell_valid (ty : column_type) (v : Z) : bool := negb (is_float ty) || float_bits_valid v.

Fixpoint cells_valid (r : shape) (n c : nat) (a : row) : option bool :=
  match n with
  | O => Some true
  | S n' => ty ← column_type_at r c; v ← rd a c; if cell_valid ty v then cells_valid r n' (S c) a else Some false
  end.

(** Negative zero is stored as zero. *)
Definition canonical_cell (ty : column_type) (v : Z) : Z := if is_float ty && float_bits_zero v then 0 else v.

Fixpoint canonical (r : shape) (n c : nat) (a : row) : option row :=
  match n with
  | O => Some []
  | S n' => ty ← column_type_at r c; v ← rd a c; l ← canonical r n' (S c) a; Some (canonical_cell ty v :: l)
  end.

(** The code and the relation; a row with an invalid lane is not stored. *)
Definition col_rel_row_copy_in_raw (r : rel) (i : nat) (src : row) : option (rel * Z) :=
  ok ← cells_valid r (ncols r) 0 src;
  if ok : bool then
    x ← canonical r (ncols r) 0 src; l ← wr (rows r) i x; Some (set_rows l r, 0)
  else Some (r, EINVAL).

Definition float_values_valid (r : rel) : option bool :=
  foldr (fun i acc => b ← acc; x ← rd (rows r) i; ok ← cells_valid r (ncols r) 0 x; Some (ok && b))
    (Some true) (seq 0 (nrows r)).

(** New storage of [cap] rows that starts with the old ones; what lies behind
    them is indeterminate, here zeros. *)
Definition resized (nc cap : nat) (l : list row) : list row :=
  take cap l ++ replicate (cap - length l) (replicate nc 0).

(** col_rel_append_row of a relation that does not share its storage; [grow_ok]:
    the admission and the allocation of more of it succeed. *)
Definition col_rel_append_row (grow_ok : bool) (r : rel) (x : row) : option (rel * Z) :=
  ok ← cells_valid r (ncols r) 0 x;
  if negb ok then Some (r, EINVAL)
  else
    let full := (capacity r <=? nrows r)%nat in
    let new_cap := if (capacity r =? 0)%nat then COL_REL_INIT_CAP else Z.to_nat (u32 (Z.of_nat (capacity r) * 2)) in
    if full && ((new_cap <=? capacity r)%nat || negb grow_ok) then Some (r, ENOMEM)
    else
      let r' := if full then set_capacity new_cap (set_rows (resized (ncols r) new_cap (rows r)) r) else r in
      '(r', rc) ← col_rel_row_copy_in_raw r' (nrows r') x;
      if negb (rc =? 0) then Some (r', EINVAL) else Some (set_nrows (S (nrows r')) r', 0).

(** ** The order of the rows

    Rows are compared lane by lane, by rank.  A row of [n] lanes is a number
    of [n] digits in a base above every rank, and the comparison of rows is the
    comparison of these numbers. *)

Definition BASE : Z := 2 ^ 65.
Definition digit (ty : column_type) (v : Z) : Z := rank ty v + 2 ^ 63.

Fixpoint key_from (r : shape) (n c : nat) (a : row) : Z :=
  match n with
  | O => 0
  | S n' => digit (default TYPE_INT64 (column_type_at r c)) (a !!! c) * BASE ^ Z.of_nat n' + key_from r n' (S c) a
  end.
Definition key (r : shape) (a : row) : Z := key_from r (ncols r) 0 a.

(** Rows with all their lanes, each holding a value of its type. *)
Record row_ok (r : shape) (a : row) : Prop := {
  rk_len : length a = ncols r;
  rk_cells : forall c v, a !! c = Some v -> exists ty, column_type_at r c = Some ty /\ valid_key ty v }.

Lemma cell_cmp_rank ty a b : valid_key ty a -> valid_key ty b -> cell_cmp ty a b = three_way (rank ty a) (rank ty b).
Proof.
  intros Ha Hb. unfold cell_cmp. destruct (is_float ty) eqn:Hf.
  - assert (ty = TYPE_FLOAT) as -> by (unfold is_float in Hf; by apply bool_decide_eq_true in Hf). by apply cmp_rank.
  - unfold rank. by rewrite Hf.
Qed.

Lemma digit_range ty v : valid_key ty v -> 0 <= digit ty v < BASE.
Proof.
  intros [Hi _]. unfold digit, rank, BASE. destruct (is_float ty); [|mi].
  destruct (float_bits_zero v); [lia|]. rewrite float_ordered_eq by done. destruct (Z.ltb_spec v 0); mi.
Qed.

Section Order.
Context (r : shape).

Lemma row_cell a c : row_ok r a -> (c < ncols r)%nat ->
  exists ty v, column_type_at r c = Some ty /\ a !! c = Some v /\ a !!! c = v /\ valid_key ty v.
Proof.
  intros [Hl Hc] Hlt. destruct (lookup_lt_is_Some_2 a c ltac:(lia)) as [v Hv]. destruct (Hc c v Hv) as (ty & Hty & Hk).
  exists ty, v. split_and!; [done..|by apply list_lookup_total_correct|done].
Qed.

Lemma key_from_range a n c : row_ok r a -> (c + n = ncols r)%nat -> 0 <= key_from r n c a < BASE ^ Z.of_nat n.
Proof.
  intros Ha. revert c. induction n as [|n IH]; intros c Hc; cbn [key_from]; [cbn; lia|].
  destruct (row_cell a c Ha ltac:(lia)) as (ty & v & Hty & _ & Hv & Hk). rewrite Hty, Hv. cbn [default].
  specialize (IH (S c) ltac:(lia)). pose proof (digit_range ty v Hk). rewrite Nat2Z.inj_succ, Z.pow_succ_r by lia. unfold id. nia.
Qed.

Lemma cmp_from_key a b n c : row_ok r a -> row_ok r b -> (c + n = ncols r)%nat ->
  cmp_from r n c a b = Some (three_way (key_from r n c a) (key_from r n c b)).
Proof.
  intros Ha Hb. revert c. induction n as [|n IH]; intros c Hc; cbn [cmp_from key_from]; [done|].
  destruct (row_cell a c Ha ltac:(lia)) as (ty & va & Hty & Hla & Hva & Hka).
  destruct (row_cell b c Hb ltac:(lia)) as (ty' & vb & Hty' & Hlb & Hvb & Hkb). rewrite Hty in Hty'. injection Hty' as <-.
  unfold rd. rewrite Hty, Hla, Hlb, Hva, Hvb. cbn [mbind option_bind default]. unfold id. rewrite cell_cmp_rank, IH by (done || lia).
  pose proof (key_from_range a n (S c) Ha ltac:(lia)). pose proof (key_from_range b n (S c) Hb ltac:(lia)).
  unfold digit. set (P := BASE ^ Z.of_nat n) in *. set (ka := key_from r n (S c) a) in *. set (kb := key_from r n (S c) b) in *.
  set (ra := rank ty va). set (rb := rank ty vb). clearbody P ka kb ra rb.
  destruct (three_way_cases ra rb) as [[H3 ->]|[[<- ->]|[H3 ->]]]; cbn [Z.eqb].
  - f_equal. unfold three_way. rewrite (proj2 (Z.ltb_lt _ _)) by nia. done.
  - f_equal. unfold three_way. destruct (Z.ltb_spec ka kb), (Z.ltb_spec kb ka), (Z.ltb_spec ((ra + 2 ^ 63) * P + ka) ((ra + 2 ^ 63) * P + kb)),
      (Z.ltb_spec ((ra + 2 ^ 63) * P + kb) ((ra + 2 ^ 63) * P + ka)); lia || done.
  - f_equal. unfold three_way. rewrite (proj2 (Z.ltb_ge _ _)) by nia. rewrite (proj2 (Z.ltb_lt _ _)) by nia. done.
Qed.

End Order.

Lemma row_cmp_key (r : rel) i j a b : rows r !! i = Some a -> rows r !! j = Some b -> row_ok r a -> row_ok r b ->
  col_rel_row_cmp r i j = Some (three_way (key r a) (key r b)).
Proof.
  intros Hi Hj Ha Hb. unfold col_rel_row_cmp, rd. rewrite Hi, Hj. cbn [mbind option_bind].
  assert (Hgen : cmp_from r (ncols r) 0 a b = Some (three_way (key r a) (key r b))) by (by apply cmp_from_key).
  destruct (Nat.eqb_spec (ncols r) 2) as [H2|]; [|destruct (Nat.eqb_spec (ncols r) 4) as [H4|]; [by rewrite H4 in Hgen|done]].
  rewrite H2 in Hgen. rewrite <-Hgen. cbn [cmp_from].
  destruct (row_cell r a 0 Ha ltac:(lia)) as (t0 & a0 & Ht0 & Ha0 & _ & Hka0). destruct (row_cell r b 0 Hb ltac:(lia)) as (t0' & b0 & Ht0' & Hb0 & _ & Hkb0).
  destruct (row_cell r a 1 Ha ltac:(lia)) as (t1 & a1 & Ht1 & Ha1 & _ & Hka1). destruct (row_cell r b 1 Hb ltac:(lia)) as (t1' & b1 & Ht1' & Hb1 & _ & Hkb1).
  unfold rd. rewrite Ht0, Ha0, Hb0, Ht1, Ha1, Hb1. cbn [mbind option_bind].
  destruct (Z.eqb_spec (cell_cmp t0 a0 b0) 0); cbn [negb]; [|done]. unfold cell_cmp. destruct (is_float t1) eqn:Hf1.
  - by destruct (Z.eqb_spec (float_compare_bits a1 b1) 0) as [->|].
  - unfold three_way. destruct (Z.eqb_spec a1 b1), (Z.ltb_spec a1 b1), (Z.ltb_spec b1 a1); cbn; (done || lia).
Qed.

Lemma row_cmp_raw_key (r : rel) i a b : rows r !! i = Some a -> row_ok r a -> row_ok r b ->
  col_rel_row_cmp_raw r i b = Some (three_way (key r a) (key r b)).
Proof. intros Hi Ha Hb. unfold col_rel_row_cmp_raw, rd. rewrite Hi. cbn [mbind option_bind]. by apply cmp_from_key. Qed.

(** ** Stored rows *)

Lemma cells_valid_ok (r : shape) a : row_ok r a -> cells_valid r (ncols r) 0 a = Some true.
Proof.
  intros Ha. assert (H : forall n c, (c + n = ncols r)%nat -> cells_valid r n c a = Some true); [|by apply H].
  induction n as [|n IH]; intros c Hc; [done|]. cbn [cells_valid].
  destruct (row_cell r a c Ha ltac:(lia)) as (ty & v & Hty & Hv & _ & [_ Hk]). unfold rd. rewrite Hty, Hv. cbn [mbind option_bind].
  assert (cell_valid ty v = true) as -> by (unfold cell_valid; destruct (is_float ty); [by apply Hk|done]). apply IH. lia.
Qed.

Lemma canonical_cell_ok ty v : valid_key ty v -> valid_key ty (canonical_cell ty v) /\ rank ty (canonical_cell ty v) = rank ty v.
Proof.
  intros Hk. unfold canonical_cell, rank. destruct (is_float ty) eqn:Hf, (float_bits_zero v) eqn:Hz; cbn [andb]; rewrite ?Hz; try done.
Qed.

(** A stored row is the row given, up to the sign of zeros. *)
Lemma canonical_ok (r : shape) a : row_ok r a -> exists x, canonical r (ncols r) 0 a = Some x /\ row_ok r x /\ key r x = key r a.
Proof.
  intros Ha.
  assert (H : forall n c, (c + n = ncols r)%nat -> exists x, canonical r n c a = Some x /\ length x = n /\
    (forall i v, x !! i = Some v -> exists ty, column_type_at r (c + i) = Some ty /\ valid_key ty v) /\
    forall pre, length pre = c -> key_from r n c (pre ++ x) = key_from r n c a).
  { induction n as [|n IH]; intros c Hc; cbn [canonical key_from]; [by exists []|].
    destruct (row_cell r a c Ha ltac:(lia)) as (ty & v & Hty & Hv & Htot & Hk). unfold rd. rewrite Hty, Hv, Htot. cbn [mbind option_bind default].
    destruct (IH (S c) ltac:(lia)) as (x & -> & Hl & Hx & Hkey). cbn [mbind option_bind]. pose proof (canonical_cell_ok ty v Hk) as [Hck Hcr].
    exists (canonical_cell ty v :: x). split; [done|]. split; [cbn; by rewrite Hl|]. split.
    - intros [|i] w Hi; cbn in Hi; simplify_eq.
      + exists ty. by rewrite Nat.add_0_r.
      + destruct (Hx i w Hi) as (ty' & Ht' & Hk'). exists ty'. by rewrite <-Nat.add_succ_comm.
    - intros pre Hpre. replace (pre ++ canonical_cell ty v :: x) with ((pre ++ [canonical_cell ty v]) ++ x) by (by rewrite <-app_assoc).
      rewrite Hkey by (rewrite length_app; cbn; lia). f_equal. f_equal. unfold digit, id. f_equal. rewrite <-Hcr. f_equal.
      rewrite <-app_assoc. apply list_lookup_total_correct. rewrite lookup_app_r by lia. by rewrite Hpre, Nat.sub_diag. }
  destruct (H (ncols r) 0%nat eq_refl) as (x & Hx & Hl & Hc & Hk). exists x. split; [done|]. split; [by split|]. by apply (Hk []).
Qed.

(** The row that is stored for [a]. *)
Definition canon (r : shape) (a : row) : row := imap (fun c v => canonical_cell (default TYPE_INT64 (column_type_at r c)) v) a.

Lemma canonical_canon (r : shape) a : row_ok r a -> canonical r (ncols r) 0 a = Some (canon r a).
Proof.
  intros Ha. assert (H : forall n c, (c + n = ncols r)%nat -> canonical r n c a = Some (imap (fun i v => canonical_cell (default TYPE_INT64 (column_type_at r (c + i))) v) (drop c a))).
  { induction n as [|n IH]; intros c Hc; cbn [canonical].
    - rewrite drop_ge by (rewrite (rk_len _ _ Ha); lia). done.
    - destruct (row_cell r a c Ha ltac:(lia)) as (ty & v & Hty & Hv & _ & _). unfold rd. rewrite Hty, Hv. cbn [mbind option_bind]. rewrite (IH (S c)) by lia. cbn [mbind option_bind].
      rewrite (drop_S a v c Hv). cbn [imap]. rewrite Nat.add_0_r, Hty. do 2 f_equal. apply imap_ext. intros i w _. cbn. by rewrite Nat.add_succ_r. }
  rewrite H by lia. by rewrite drop_0.
Qed.

Lemma canon_ok (r : shape) a : row_ok r a -> row_ok r (canon r a) /\ key r (canon r a) = key r a.
Proof. intros Ha. destruct (canonical_ok r a Ha) as (x & Hx & Hok & Hk). rewrite (canonical_canon r a Ha) in Hx. by injection Hx as <-. Qed.

Lemma copy_in_ok (r : rel) i a : row_ok r a -> (i < length (rows r))%nat ->
  col_rel_row_copy_in_raw r i a = Some (set_rows (<[i := canon r a]> (rows r)) r, 0).
Proof.
  intros Ha Hi. unfold col_rel_row_copy_in_raw. rewrite (cells_valid_ok r a Ha). cbn [mbind option_bind]. rewrite (canonical_canon r a Ha). cbn [mbind option_bind]. by rewrite wr_lt.
Qed.

Lemma move_ok (r : rel) dst src x : rows r !! src = Some x -> (dst < length (rows r))%nat ->
  col_rel_row_move_raw r dst src = Some (set_rows (<[dst := x]> (rows r)) r).
Proof.
  intros Hs Hd. unfold col_rel_row_move_raw, rd. destruct (Nat.eqb_spec dst src) as [->|].
  - rewrite list_insert_id by done. by destruct r.
  - rewrite Hs. cbn [mbind option_bind]. by rewrite wr_lt.
Qed.

End Rel.
