(* ===== verification/RelSort.v ===== *)
(** * Sorting rows (src/wirelog/columnar/relation.c)

    col_rel_radix_sort and what it calls: the insertion sort of short or float
    ranges, and the radix sorts of a permutation with 8-bit and 16-bit digits,
    in their scalar form.  A range is the list of its rows; the sorts return
    its new contents and the code.  What the consolidation uses of them is the
    class [RangeSort]. *)

From stdpp Require Import sorting.
From S2P Require Import Prelude RadixSort Relation.

Module RelSort.

Import Keys Radix Rel.

(** Which allocations succeed: the buffer of the insertion sort, the
    permutations and caches, the column buffer that applies the permutation,
    and the private copy of borrowed columns. *)
Record sort_env := SE { work_ok : bool; perm_ok : bool; temp_ok : bool; detach_ok : bool }.

(** ** Insertion sort *)

(** while (j > 0): shift the rows above [tbuf] up, then store it. *)
Fixpoint shift_up (s : shape) (work : list row) (tbuf : row) (j : nat) : option (list row) :=
  match j with
  | O => wr work 0 tbuf
  | S j' =>
      x ← rd work j';
      cmp ← cmp_from s (ncols s) 0 x tbuf;
      if cmp <=? 0 then wr work j tbuf else work' ← wr work j x; shift_up s work' tbuf j'
  end.

Fixpoint insertion_loop (s : shape) (work : list row) (order : list nat) : option (list row) :=
  match order with
  | [] => Some work
  | i :: order' => tbuf ← rd work i; work' ← shift_up s work tbuf i; insertion_loop s work' order'
  end.

Definition col_rel_insertion_sort (e : sort_env) (s : shape) (l : list row) : option (list row * Z) :=
  let row_count := Z.of_nat (length l) + 1 in
  if negb (ncols s =? 0)%nat && (SIZE_MAX / (Z.of_nat (ncols s) * 8) <? row_count) then Some (l, EOVERFLOW)
  else if negb (work_ok e) then Some (l, ENOMEM)
  else l' ← insertion_loop s l (seq 1 (length l - 1)); Some (l', 0).

(** ** Radix sort of a permutation *)

(** The digit of [bits] bits at [shift], the sign bit flipped in the last pass. *)
Definition radix_bucket (bits shift : Z) (is_sign_pass : bool) (v : Z) : nat :=
  let bv := Z.shiftr (u64 v) shift mod 2 ^ bits in
  Z.to_nat (if is_sign_pass then Z.lxor bv (2 ^ (bits - 1)) else bv).

Section Passes.
Context (bits : Z) (num_passes : nat) (l : list row).

(** bv_cache and count, in one traversal *)
Fixpoint fused_count (c : nat) (shift : Z) (sign : bool) (src count : list nat) : option (list nat * list nat) :=
  match src with
  | [] => Some ([], count)
  | i :: rest =>
      x ← rd l i; v ← rd x c;
      let bv := radix_bucket bits shift sign v in
      n ← rd count bv; count' ← wr count bv (S n);
      '(cache, count'') ← fused_count c shift sign rest count';
      Some (bv :: cache, count'')
  end.

(** dst[prefix[bv_cache[i]]++] = src[i] *)
Fixpoint scatter_cached (src cache prefix dst : list nat) : option (list nat) :=
  match src, cache with
  | i :: rest, bv :: cache' =>
      pos ← rd prefix bv; prefix' ← wr prefix bv (S pos); dst' ← wr dst pos i;
      scatter_cached rest cache' prefix' dst'
  | _, _ => Some dst
  end.

(** One pass over one column: skipped when every row has the same digit. *)
Definition radix_pass (c pass : nat) (src dst : list nat) : option (list nat * list nat) :=
  let shift := Z.of_nat pass * bits in
  let sign := (pass =? num_passes - 1)%nat in
  i0 ← rd src 0; x ← rd l i0; v ← rd x c;
  let first_bv := radix_bucket bits shift sign v in
  '(cache, count) ← fused_count c shift sign src (replicate (Z.to_nat (2 ^ bits)) O);
  if forallb (Nat.eqb first_bv) cache then Some (src, dst)
  else dst' ← scatter_cached src cache (prefix_from 0 count) dst; Some (dst', src).

Fixpoint radix_passes (c : nat) (ps : list nat) (src dst : list nat) : option (list nat * list nat) :=
  match ps with
  | [] => Some (src, dst)
  | p :: ps' => '(src', dst') ← radix_pass c p src dst; radix_passes c ps' src' dst'
  end.

(** for (c = nc - 1; c >= 0; c--) *)
Fixpoint radix_columns (c : nat) (src dst : list nat) : option (list nat * list nat) :=
  match c with
  | O => Some (src, dst)
  | S c' => '(src', dst') ← radix_passes c' (seq 0 num_passes) src dst; radix_columns c' src' dst'
  end.

(** temp_col[i] = col[start_row + src[i]], for every column *)
Fixpoint gather (src : list nat) : option (list row) :=
  match src with [] => Some [] | i :: rest => x ← rd l i; xs ← gather rest; Some (x :: xs) end.

Definition radix_sort_k (e : sort_env) (s : shape) : option (list row * Z) :=
  if negb (perm_ok e) then if (length l <=? 32)%nat then col_rel_insertion_sort e s l else Some (l, ENOMEM)
  else
    '(src, _) ← radix_columns (ncols s) (seq 0 (length l)) (replicate (length l) O);
    if negb (temp_ok e) then Some (l, ENOMEM) else l' ← gather src; Some (l', 0).

End Passes.

Definition radix_sort_k16 (e : sort_env) (s : shape) (l : list row) : option (list row * Z) := radix_sort_k 16 4 l e s.

(** ** The entry points *)

Fixpoint any_float (ts : list column_type) (cs : list nat) : option bool :=
  match cs with [] => Some false | c :: cs' => ty ← rd ts c; if is_float ty then Some true else any_float ts cs' end.

Definition col_rel_radix_sort_raw (e : sort_env) (s : shape) (l : list row) : option (list row * Z) :=
  if (length l <=? 1)%nat then Some (l, 0)
  else
    fl ← match column_types s with None => Some false | Some ts => any_float ts (seq 0 (ncols s)) end;
    if (fl : bool) || (length l <=? 32)%nat then col_rel_insertion_sort e s l
    else if 50000 <=? Z.of_nat (length l) then radix_sort_k16 e s l
    else radix_sort_k 8 8 l e s.

Definition range_of (r : rel) (start n : nat) : option (list row) :=
  if (start + n <=? length (rows r))%nat then Some (take n (drop start (rows r))) else None.
Definition put_range (r : rel) (start n : nat) (l : list row) : rel :=
  set_rows (take start (rows r) ++ l ++ drop (start + n) (rows r)) r.

(** A failed sort restores what it had borrowed. *)
Definition col_rel_radix_sort (e : sort_env) (r : rel) (start n : nat) : option (rel * Z) :=
  if (nrows r <? start)%nat || (nrows r - start <? n)%nat then Some (r, EINVAL)
  else if (n <=? 1)%nat then Some (r, 0)
  else if negb (detach_ok e) then Some (r, ENOMEM)
  else
    l ← range_of r start n;
    '(l', rc) ← col_rel_radix_sort_raw e r l;
    Some (put_range r start n l', rc).

Definition col_rel_radix_sort_int64 (e : sort_env) (r : rel) : option rel :=
  if (ncols r =? 0)%nat || (nrows r <=? 1)%nat then Some (set_sorted (nrows r) r)
  else '(r', rc) ← col_rel_radix_sort e r 0 (nrows r); Some (if rc =? 0 then set_sorted (nrows r') r' else r').

(** ** What a sort of a range promises *)

Definition by_key (s : shape) (a b : row) : Prop := key s a <= key s b.

Class RangeSort (sort : rel -> nat -> nat -> option (rel * Z)) : Prop := {
  sort_range : forall (r : rel) pre l post, rows r = pre ++ l ++ post -> (length pre + length l <= nrows r)%nat -> Forall (row_ok r) l ->
    exists l' rc, sort r (length pre) (length l) = Some (set_rows (pre ++ l' ++ post) r, rc) /\
      (rc = 0 -> l' ≡ₚ l /\ StronglySorted (by_key r) l') /\ (rc <> 0 -> l' = l) }.

(** ** Insertion sort is a sort *)

Lemma ssorted_snoc_le {A} (k : A -> Z) l x : StronglySorted (fun a b => k a <= k b) l -> Forall (fun a => k a <= k x) l ->
  StronglySorted (fun a b => k a <= k b) (l ++ [x]).
Proof.
  intros Hs Hf. apply ssorted_app; [done|by repeat constructor|]. intros a b Ha Hb. apply list_elem_of_singleton in Hb as ->.
  by apply (proj1 (Forall_forall _ _) Hf).
Qed.

Lemma shift_up_ok s t l1 hole l2 : Forall (row_ok s) l1 -> row_ok s t -> StronglySorted (by_key s) l1 ->
  exists la lb, l1 = la ++ lb /\ shift_up s (l1 ++ hole :: l2) t (length l1) = Some (la ++ t :: lb ++ l2) /\
    Forall (fun a => by_key s a t) la /\ Forall (fun b => key s t < key s b) lb.
Proof.
  revert hole l2. induction l1 as [|x l1 IH] using rev_ind; intros hole l2 Hok Ht Hs.
  { exists [], []. by split_and!. }
  apply Forall_app in Hok as [Hok Hx%Forall_inv].
  rewrite length_app, Nat.add_1_r. cbn [shift_up]. rewrite <-app_assoc. cbn [app]. unfold rd. rewrite list_lookup_middle by done. cbn [mbind option_bind].
  rewrite (cmp_from_key s x t (ncols s) 0 Hx Ht eq_refl). cbn [mbind option_bind]. fold (key s x) (key s t).
  assert (Hall : Forall (fun a => by_key s a x) l1).
  { apply Forall_forall. intros a Ha. eapply StronglySorted_app_1_elem_of; [exact Hs|done|left]. }
  assert (Hs1 : StronglySorted (by_key s) l1) by (by eapply StronglySorted_app_1_l).
  assert (Hlen : (S (length l1) < length (l1 ++ x :: hole :: l2))%nat) by (rewrite length_app; cbn; lia).
  destruct (three_way_cases (key s x) (key s t)) as [[H3 ->]|[[H3 ->]|[H3 ->]]]; cbn [Z.leb Z.compare].
  1,2: exists (l1 ++ [x]), []; rewrite app_nil_r; (split; [done|]); rewrite wr_lt by done; split_and!; [|
    apply Forall_app; split; [eapply Forall_impl; [exact Hall|]; unfold by_key; cbn; lia|constructor; [unfold by_key; lia|done]]|done];
    f_equal; rewrite insert_app_r_alt by lia; replace (S (length l1) - length l1)%nat with 1%nat by lia; cbn; by rewrite <-app_assoc.
  rewrite wr_lt by done. cbn [mbind option_bind]. rewrite insert_app_r_alt by lia. replace (S (length l1) - length l1)%nat with 1%nat by lia. cbn [insert list_insert].
  destruct (IH x (x :: l2) Hok Ht Hs1) as (la & lb & -> & Hsh & Hla & Hlb). exists la, (lb ++ [x]). rewrite <-!app_assoc. cbn [app].
  rewrite <-app_assoc in Hsh. split; [done|]. split; [exact Hsh|]. split; [done|]. apply Forall_app. split; [done|]. by constructor.
Qed.

Lemma insertion_loop_ok s : forall m i l, (i + m = length l)%nat -> Forall (row_ok s) l -> StronglySorted (by_key s) (take i l) ->
  exists l', insertion_loop s l (seq i m) = Some l' /\ l' ≡ₚ l /\ StronglySorted (by_key s) l'.
Proof.
  induction m as [|m IH]; intros i l Hi Hok Hs; cbn [seq insertion_loop].
  { exists l. by rewrite take_ge in Hs by lia. }
  destruct (lookup_lt_is_Some_2 l i ltac:(lia)) as [t Ht]. unfold rd. rewrite Ht. cbn [mbind option_bind].
  pose proof (take_drop_middle l i t Ht) as Hmid. assert (Hli : length (take i l) = i) by (rewrite length_take; lia).
  destruct (shift_up_ok s t (take i l) t (drop (S i) l)) as (la & lb & Hab & Hsh & Hla & Hlb).
  { by apply Forall_take. } { by eapply Forall_lookup_1. } { done. }
  rewrite Hmid, Hli in Hsh. rewrite Hsh. cbn [mbind option_bind].
  assert (Hp : la ++ t :: lb ++ drop (S i) l ≡ₚ l).
  { rewrite <-Hmid at 2. rewrite Hab, <-app_assoc. apply Permutation_app_head. by rewrite Permutation_middle. }
  destruct (IH (S i) (la ++ t :: lb ++ drop (S i) l)) as (l' & Hl' & Hp' & Hs').
  - rewrite (Permutation_length Hp). lia.
  - by rewrite Hp.
  - assert (Hlen : S i = length (la ++ t :: lb)).
    { rewrite length_app. cbn [length]. rewrite Hab, length_app in Hli. lia. }
    change (la ++ t :: lb ++ drop (S i) l) with (la ++ (t :: lb) ++ drop (S i) l). rewrite app_assoc, Hlen, take_app_length.
    rewrite Hab in Hs. apply ssorted_app.
    + by eapply StronglySorted_app_1_l.
    + constructor; [by eapply StronglySorted_app_1_r|]. eapply Forall_impl; [exact Hlb|]. unfold by_key. cbn. lia.
    + intros a b Ha Hb. rewrite Forall_forall in Hla. apply elem_of_cons in Hb as [->|Hb]; [by apply Hla|].
      eapply StronglySorted_app_1_elem_of; [exact Hs|done|done].
  - exists l'. split; [done|]. split; [by rewrite Hp', Hp|done].
Qed.

(** Every allocation succeeds, and the size of the buffer is a size_t. *)
Definition sort_space (e : sort_env) (s : shape) (l : list row) : bool :=
  (work_ok e && perm_ok e && temp_ok e && detach_ok e) &&
  negb (negb (ncols s =? 0)%nat && (SIZE_MAX / (Z.of_nat (ncols s) * 8) <? Z.of_nat (length l) + 1)).

(** What the sorts of a range return. *)
Definition sorts (e : sort_env) (s : shape) (l : list row) (res : option (list row * Z)) : Prop :=
  exists l' rc, res = Some (l', rc) /\ (rc = 0 -> l' ≡ₚ l /\ StronglySorted (by_key s) l') /\ (rc <> 0 -> l' = l /\ sort_space e s l = false).

Lemma sorts_fail e s l rc : rc <> 0 -> sort_space e s l = false -> sorts e s l (Some (l, rc)).
Proof. intros H Hs. exists l, rc. done. Qed.

Lemma insertion_sorts e s l : Forall (row_ok s) l -> sorts e s l (col_rel_insertion_sort e s l).
Proof.
  intros Hok. unfold col_rel_insertion_sort. destruct (_ && _) eqn:Hsz; [apply sorts_fail; [done|unfold sort_space; rewrite Hsz; apply andb_false_r]|].
  destruct (work_ok e) eqn:Hw; cbn [negb]; [|apply sorts_fail; [done|unfold sort_space; by rewrite Hw]].
  destruct l as [|x l]; [exists [], 0; split_and!; [done|intros _; split; [done|constructor]|done]|].
  destruct (insertion_loop_ok s (length (x :: l) - 1) 1 (x :: l)) as (l' & -> & Hp & Hs); [cbn; lia|done|cbn; repeat constructor|].
  cbn [mbind option_bind]. exists l', 0. done.
Qed.

(** ** The digits *)

Lemma lxor_pow k x : 0 <= k -> 0 <= x < 2 ^ k -> Z.lxor x (2 ^ k) = x + 2 ^ k.
Proof.
  intros Hk Hx. rewrite Z.add_nocarry_lxor; [done|]. apply Z.bits_inj'. intros i Hi. rewrite Z.land_spec, Z.bits_0.
  destruct (decide (i = k)) as [->|].
  - rewrite Z.testbit_eqb by lia. by rewrite Z.div_small.
  - rewrite Z.pow2_bits_false by lia. by rewrite andb_false_r.
Qed.

(** Digit [p] of the key, whose base is the number of buckets. *)
Lemma radix_bucket_digit bits np p v : 2 <= bits -> bits * Z.of_nat np = 64 -> (p < np)%nat -> is_int64 v ->
  Z.of_nat (radix_bucket bits (Z.of_nat p * bits) (p =? np - 1)%nat v) = (v + 2 ^ 63) / 2 ^ (bits * Z.of_nat p) mod 2 ^ bits.
Proof.
  intros Hb Hnp Hp Hv. unfold radix_bucket. set (sh := bits * Z.of_nat p). replace (Z.of_nat p * bits) with sh by (unfold sh; lia).
  assert (Hsh : 0 <= sh) by (unfold sh; nia). rewrite Z.shiftr_div_pow2 by done.
  assert (Hpow : 0 < 2 ^ sh) by (apply Z.pow_pos_nonneg; lia). assert (Hpb : 0 < 2 ^ bits) by (apply Z.pow_pos_nonneg; lia).
  assert (He : exists e, u64 v = v + 2 ^ 63 + e * 2 ^ 63 /\ (e = 1 /\ v + 2 ^ 63 < 2 ^ 63 \/ e = -1 /\ 2 ^ 63 <= v + 2 ^ 63)).
  { destruct (decide (v < 0)); [exists 1|exists (-1)]; (split; [|mi]); mi_divmod. }
  destruct He as (e & -> & He). set (D := v + 2 ^ 63) in *. assert (HD : 0 <= D < 2 ^ 64) by (unfold D; mi).
  destruct (Nat.eqb_spec p (np - 1)) as [->|Hne].
  - assert (H63 : 2 ^ 63 = 2 ^ (bits - 1) * 2 ^ sh) by (rewrite <-Z.pow_add_r by lia; f_equal; unfold sh; nia).
    assert (Hx : 0 <= D / 2 ^ sh < 2 ^ bits).
    { split; [apply Z.div_pos; lia|]. apply Z.div_lt_upper_bound; [lia|]. rewrite <-Z.pow_add_r by lia. replace (sh + bits) with 64 by (unfold sh; nia). lia. }
    assert (Hbb : 2 ^ bits = 2 * 2 ^ (bits - 1)) by (rewrite <-Z.pow_succ_r by lia; f_equal; lia).
    rewrite H63, Z.mul_assoc, Z.div_add by lia. rewrite (Z.mod_small (D / _)) by done. set (x := D / 2 ^ sh) in *.
    assert (Hcase : e = 1 /\ x < 2 ^ (bits - 1) \/ e = -1 /\ 2 ^ (bits - 1) <= x).
    { destruct He as [[-> He]|[-> He]]; [left|right]; (split; [done|]).
      - apply Z.div_lt_upper_bound; [lia|]. rewrite Z.mul_comm. lia.
      - apply Z.div_le_lower_bound; [lia|]. rewrite Z.mul_comm. lia. }
    assert (0 < 2 ^ (bits - 1)) by (apply Z.pow_pos_nonneg; lia).
    destruct Hcase as [[-> Hc]|[-> Hc]]; rewrite Z.mod_small by lia.
    + rewrite Z.mul_1_l. rewrite <-(lxor_pow (bits - 1) x) by lia. rewrite Z.lxor_assoc, Z.lxor_nilpotent, Z.lxor_0_r. lia.
    + rewrite lxor_pow by lia. lia.
  - assert (H63 : 2 ^ 63 = 2 ^ (63 - sh - bits) * 2 ^ bits * 2 ^ sh).
    { rewrite <-!Z.pow_add_r by (unfold sh; nia). f_equal. lia. }
    rewrite H63, Z.mul_assoc, Z.div_add, Z.mul_assoc, Z.mod_add by lia. rewrite Z2Nat.id; [done|]. apply Z.mod_pos_bound. lia.
Qed.

Lemma radix_bucket_lt bits np p v : 2 <= bits -> bits * Z.of_nat np = 64 -> (p < np)%nat -> is_int64 v ->
  (radix_bucket bits (Z.of_nat p * bits) (p =? np - 1) v < Z.to_nat (2 ^ bits))%nat.
Proof.
  intros Hb Hnp Hp Hv. pose proof (radix_bucket_digit bits np p v Hb Hnp Hp Hv). 
  assert (0 < 2 ^ bits) by (apply Z.pow_pos_nonneg; lia).
  pose proof (Z.mod_pos_bound ((v + 2 ^ 63) / 2 ^ (bits * Z.of_nat p)) (2 ^ bits) ltac:(done)). lia.
Qed.

Lemma bsort_perm {A} (f : A -> nat) m (l : list A) : (forall x, (f x < m)%nat) -> bsort f m l ≡ₚ l.
Proof.
  intros Hf. apply (classes_permutation (fun x => Z.of_nat (f x))). intros k.
  apply (bsort_stable f m Hf (fun x => Z.of_nat (f x) = k) (Z.to_nat k)). intros x Hx. lia.
Qed.

(** ** The radix sort is a sort *)

Section RadixProof.
Context (bits : Z) (np : nat) (s : shape) (l : list row).
Hypothesis Hbits : 2 <= bits.
Hypothesis Hnp : bits * Z.of_nat np = 64.
Hypothesis Hrows : Forall (row_ok s) l.
Hypothesis Hints : forall c ty, (c < ncols s)%nat -> column_type_at s c = Some ty -> is_float ty = false.

Let val (i : nat) : row := l !!! i.
Let cell (c i : nat) : Z := val i !!! c.
Let m : nat := Z.to_nat (2 ^ bits).
Let f (c p i : nat) : nat := radix_bucket bits (Z.of_nat p * bits) (p =? np - 1)%nat (cell c i).
Let bucket_of (c p i : nat) : option nat :=
  x ← rd l i; v ← rd x c; Some (radix_bucket bits (Z.of_nat p * bits) (p =? np - 1)%nat v).

(** The part of the key that the passes before pass [p] of column [c] have sorted by. *)
Let part (c p i : nat) : Z :=
  (cell c i + 2 ^ 63) mod 2 ^ (bits * Z.of_nat p) * BASE ^ Z.of_nat (ncols s - S c) + key_from s (ncols s - S c) (S c) (val i).

Definition is_perm (src : list nat) : Prop := src ≡ₚ seq 0 (length l).

Lemma perm_lt src i : is_perm src -> i ∈ src -> (i < length l)%nat.
Proof. unfold is_perm. intros Hp Hi. rewrite Hp in Hi. apply elem_of_seq in Hi. lia. Qed.

Lemma cell_at c i : (i < length l)%nat -> (c < ncols s)%nat ->
  l !! i = Some (val i) /\ val i !! c = Some (cell c i) /\ is_int64 (cell c i) /\ row_ok s (val i) /\
  exists ty, column_type_at s c = Some ty /\ is_float ty = false.
Proof.
  intros Hi Hc. destruct (lookup_lt_is_Some_2 l i Hi) as [x Hx]. assert (val i = x) as Hv by (by apply list_lookup_total_correct).
  assert (Hok : row_ok s x) by (by eapply Forall_lookup_1). destruct (row_cell s x c Hok Hc) as (ty & v & Hty & Hxc & Htot & [Hint _]).
  unfold cell. rewrite Hv, Htot. split_and!; [done..|]. exists ty. split; [done|]. by eapply Hints.
Qed.

Lemma bucket_of_some c p i : (c < ncols s)%nat -> (i < length l)%nat -> bucket_of c p i = Some (f c p i).
Proof. intros Hc Hi. destruct (cell_at c i Hi Hc) as (H1 & H2 & _). unfold bucket_of, rd. rewrite H1. cbn [mbind option_bind]. by rewrite H2. Qed.

Lemma fused_count_eq c p src count : (c < ncols s)%nat -> Forall (fun i => (i < length l)%nat) src ->
  fused_count bits l c (Z.of_nat p * bits) (p =? np - 1)%nat src count = (n ← count_rows (bucket_of c p) src count; Some (f c p <$> src, n)).
Proof.
  intros Hc Hs. revert count. induction Hs as [|i src Hi _ IH]; intros count; [done|]. cbn [fused_count count_rows].
  destruct (cell_at c i Hi Hc) as (H1 & H2 & _). change (rd l i) with (l !! i). rewrite H1. cbn [mbind option_bind].
  change (rd (val i) c) with (val i !! c). rewrite H2. cbn [mbind option_bind].
  rewrite (bucket_of_some c p i Hc Hi). cbn [mbind option_bind]. fold (f c p i). destruct (rd count (f c p i)) as [n|]; [|done]. cbn [mbind option_bind].
  destruct (wr count (f c p i) (S n)) as [count'|]; [|done]. cbn [mbind option_bind]. rewrite IH.
  by destruct (count_rows (bucket_of c p) src count').
Qed.

Lemma scatter_cached_eq c p src prefix dst : (c < ncols s)%nat -> Forall (fun i => (i < length l)%nat) src ->
  scatter_cached src (f c p <$> src) prefix dst = scatter (bucket_of c p) src prefix dst.
Proof.
  intros Hc Hs. revert prefix dst. induction Hs as [|i src Hi _ IH]; intros prefix dst; [done|].
  cbn [scatter_cached scatter fmap list_fmap]. rewrite (bucket_of_some c p i Hc Hi). cbn [mbind option_bind].
  destruct (rd prefix (f c p i)) as [pos|]; [|done]. cbn [mbind option_bind]. destruct (wr prefix (f c p i) (S pos)) as [prefix'|]; [|done].
  cbn [mbind option_bind]. destruct (wr dst pos i) as [dst'|]; [|done]. cbn [mbind option_bind]. apply IH.
Qed.

(** One more digit. *)
Lemma part_S c p i : (c < ncols s)%nat -> (p < np)%nat -> (i < length l)%nat ->
  part c (S p) i = Z.of_nat (f c p i) * (2 ^ (bits * Z.of_nat p) * BASE ^ Z.of_nat (ncols s - S c)) + part c p i.
Proof.
  intros Hc Hp Hi. destruct (cell_at c i Hi Hc) as (_ & _ & Hint & _). unfold part, f. rewrite (radix_bucket_digit bits np) by done.
  rewrite Nat2Z.inj_succ, Z.mul_succ_r, Z.pow_add_r by nia. set (P := 2 ^ (bits * Z.of_nat p)). set (B := 2 ^ bits).
  rewrite Z.rem_mul_r; [ring| |]; unfold P, B; [pose proof (Z.pow_pos_nonneg 2 (bits * Z.of_nat p) ltac:(lia) ltac:(nia)); lia|apply Z.pow_pos_nonneg; lia].
Qed.

Lemma part_range c p i : (c < ncols s)%nat -> (i < length l)%nat -> 0 <= part c p i < 2 ^ (bits * Z.of_nat p) * BASE ^ Z.of_nat (ncols s - S c).
Proof.
  intros Hc Hi. destruct (cell_at c i Hi Hc) as (_ & _ & _ & Hok & _). unfold part.
  pose proof (key_from_range s (val i) (ncols s - S c) (S c) Hok ltac:(lia)).
  pose proof (Z.mod_pos_bound (cell c i + 2 ^ 63) (2 ^ (bits * Z.of_nat p)) ltac:(apply Z.pow_pos_nonneg; nia)). nia.
Qed.

Lemma part_le c p i j : (c < ncols s)%nat -> (p < np)%nat -> (i < length l)%nat -> (j < length l)%nat ->
  (f c p i < f c p j)%nat \/ f c p i = f c p j /\ part c p i <= part c p j -> part c (S p) i <= part c (S p) j.
Proof.
  intros Hc Hp Hi Hj H. rewrite !part_S by done. pose proof (part_range c p i Hc Hi). pose proof (part_range c p j Hc Hj).
  destruct H as [Hlt|[-> Hle]]; nia.
Qed.

(** A skipped pass changes nothing in the order. *)
Lemma uniform_sorted c p k src : (c < ncols s)%nat -> (p < np)%nat -> Forall (fun i => (i < length l)%nat) src ->
  (forall i, i ∈ src -> f c p i = k) -> StronglySorted (fun i j => part c p i <= part c p j) src ->
  StronglySorted (fun i j => part c (S p) i <= part c (S p) j) src.
Proof.
  intros Hc Hp Hin Heq. induction 1 as [|i src Hs IH Hi]; constructor.
  - apply IH; [by inversion Hin|intros j Hj; apply Heq; by right].
  - apply Forall_forall. intros j Hj. rewrite Forall_forall in Hi, Hin.
    apply part_le; [done|done|apply Hin; left|apply Hin; by right|]. right. split; [|by apply Hi].
    rewrite (Heq i) by left. rewrite (Heq j) by (by right). done.
Qed.

Lemma radix_pass_ok c p src dst : (c < ncols s)%nat -> (p < np)%nat -> (0 < length l)%nat -> is_perm src -> length dst = length l ->
  StronglySorted (fun i j => part c p i <= part c p j) src ->
  exists src' dst', radix_pass bits np l c p src dst = Some (src', dst') /\ is_perm src' /\ length dst' = length l /\
    StronglySorted (fun i j => part c (S p) i <= part c (S p) j) src'.
Proof.
  intros Hc Hp Hl Hperm Hd Hs. pose proof (Permutation_length Hperm) as Hlen. rewrite length_seq in Hlen.
  assert (Hin : Forall (fun i => (i < length l)%nat) src) by (apply Forall_forall; intros i; by apply perm_lt).
  destruct (lookup_lt_is_Some_2 src 0 ltac:(lia)) as [i0 Hi0]. pose proof (Forall_lookup_1 _ _ _ _ Hin Hi0) as Hi0l. cbn in Hi0l.
  destruct (cell_at c i0 Hi0l Hc) as (H1 & H2 & _). unfold radix_pass, rd. rewrite Hi0. cbn [mbind option_bind]. rewrite H1. cbn [mbind option_bind].
  rewrite H2. cbn [mbind option_bind]. fold (f c p i0). rewrite fused_count_eq by done. fold m.
  set (g i := default O (bucket_of c p i)).
  assert (Hg : forall i, (i < length l)%nat -> g i = f c p i) by (intros i Hi; unfold g; by rewrite bucket_of_some).
  assert (Hm : (0 < m)%nat) by (unfold m; pose proof (Z.pow_pos_nonneg 2 bits); lia).
  assert (Hglt : forall i, (g i < m)%nat).
  { intros i. unfold g, bucket_of. destruct (decide (i < length l)%nat) as [Hi|Hi].
    - destruct (cell_at c i Hi Hc) as (E1 & E2 & Hint & _). unfold rd. rewrite E1. cbn [mbind option_bind]. rewrite E2. cbn. by apply radix_bucket_lt.
    - unfold rd. rewrite lookup_ge_None_2 by lia. done. }
  assert (Hsome : forall i, (i < length l)%nat -> bucket_of c p i = Some (g i)) by (intros i Hi; rewrite Hg by done; by apply bucket_of_some).
  destruct (count_rows_ok (bucket_of c p) m _ Hsome Hglt src (replicate m O)) as (count & Hcount & _); [apply length_replicate|done|].
  pose proof (counting_pass_ok (bucket_of c p) m _ Hsome Hglt src dst Hin ltac:(lia)) as Hpass. unfold counting_pass in Hpass.
  rewrite Hcount in Hpass. cbn [mbind option_bind] in Hpass. rewrite Hcount. cbn [mbind option_bind].
  destruct (forallb _ _) eqn:Huni.
  - exists src, dst. split_and!; [done..|]. rewrite forallb_forall in Huni.
    assert (Heq : forall i, i ∈ src -> f c p i = f c p i0).
    { intros i Hi. symmetry. apply Nat.eqb_eq, Huni, list_elem_of_In, list_elem_of_fmap. eauto. }
    by eapply uniform_sorted.
  - rewrite scatter_cached_eq, Hpass by done. cbn [mbind option_bind]. eexists _, _. split; [done|].
    split; [by unfold is_perm; rewrite bsort_perm|]. split; [lia|]. rewrite Forall_forall in Hin.
    apply (bsort_sorted g m (part c p)); [..|done].
    + intros i j Hi Hj Hij Hle. apply part_le; [auto..|]. right. by rewrite <-!Hg by auto.
    + intros i j Hi Hj Hij. apply part_le; [auto..|]. left. by rewrite <-!Hg by auto.
Qed.

Lemma radix_passes_ok c m' p src dst : (c < ncols s)%nat -> (p + m' = np)%nat -> (0 < length l)%nat -> is_perm src -> length dst = length l ->
  StronglySorted (fun i j => part c p i <= part c p j) src ->
  exists src' dst', radix_passes bits np l c (seq p m') src dst = Some (src', dst') /\ is_perm src' /\ length dst' = length l /\
    StronglySorted (fun i j => part c np i <= part c np j) src'.
Proof.
  revert p src dst. induction m' as [|m' IH]; intros p src dst Hc Hp Hl Hperm Hd Hs; cbn [seq radix_passes].
  { replace p with np in Hs by lia. by exists src, dst. }
  destruct (radix_pass_ok c p src dst) as (src1 & dst1 & -> & H1 & H2 & H3); [done|lia|done..|]. cbn [mbind option_bind]. apply IH; (done || lia).
Qed.

(** The first and the last part of a column's key. *)
Lemma part_first c i : part c 0 i = key_from s (ncols s - S c) (S c) (val i).
Proof. unfold part. rewrite Z.mul_0_r. cbn [Z.pow]. rewrite Z.mod_1_r. lia. Qed.

Lemma part_last c i : (c < ncols s)%nat -> (i < length l)%nat -> part c np i = key_from s (ncols s - c) c (val i).
Proof.
  intros Hc Hi. destruct (cell_at c i Hi Hc) as (_ & _ & Hint & _ & ty & Hty & Hf). unfold part. rewrite Hnp.
  rewrite Z.mod_small by mi. replace (ncols s - c)%nat with (S (ncols s - S c)) by lia. cbn [key_from]. rewrite Hty. cbn [default].
  unfold digit, rank, id. by rewrite Hf.
Qed.

Lemma sorted_ext_in (P Q : nat -> Z) src : (forall i, i ∈ src -> P i = Q i) ->
  StronglySorted (fun i j => P i <= P j) src -> StronglySorted (fun i j => Q i <= Q j) src.
Proof.
  intros Heq. induction 1 as [|i src Hs IH Hi]; constructor.
  - apply IH. intros j Hj. apply Heq. by right.
  - apply Forall_forall. intros j Hj. rewrite Forall_forall in Hi. rewrite <-!Heq by (by left + by right). by apply Hi.
Qed.

Lemma radix_columns_ok c src dst : (c <= ncols s)%nat -> (0 < length l)%nat -> is_perm src -> length dst = length l ->
  StronglySorted (fun i j => key_from s (ncols s - c) c (val i) <= key_from s (ncols s - c) c (val j)) src ->
  exists src' dst', radix_columns bits np l c src dst = Some (src', dst') /\ is_perm src' /\
    StronglySorted (fun i j => key s (val i) <= key s (val j)) src'.
Proof.
  revert src dst. induction c as [|c IH]; intros src dst Hc Hl Hperm Hd Hs; cbn [radix_columns].
  { rewrite Nat.sub_0_r in Hs. by exists src, dst. }
  destruct (radix_passes_ok c np 0 src dst) as (src1 & dst1 & -> & H1 & H2 & H3); [lia|lia|done..| |].
  - eapply sorted_ext_in; [|exact Hs]. intros i _. by rewrite part_first.
  - cbn [mbind option_bind]. apply IH; [lia|done..|]. eapply sorted_ext_in; [|exact H3]. intros i Hi. apply part_last; [lia|by eapply perm_lt].
Qed.

Lemma gather_ok src : Forall (fun i => (i < length l)%nat) src -> gather l src = Some (val <$> src).
Proof.
  induction 1 as [|i src Hi _ IH]; [done|]. cbn [gather fmap list_fmap]. unfold rd. rewrite (list_lookup_lookup_total_lt l i Hi).
  cbn [mbind option_bind]. by rewrite IH.
Qed.

Lemma val_seq : val <$> seq 0 (length l) = l.
Proof.
  apply list_eq. intros i. rewrite list_lookup_fmap. destruct (decide (i < length l)%nat) as [Hi|Hi].
  - rewrite lookup_seq_lt by done. cbn. symmetry. by apply list_lookup_lookup_total_lt.
  - rewrite lookup_seq_ge, lookup_ge_None_2 by lia. done.
Qed.

Lemma radix_k_sorts e : (0 < length l)%nat -> sorts e s l (radix_sort_k bits np l e s).
Proof.
  intros Hl. unfold radix_sort_k. destruct (perm_ok e) eqn:Hp; cbn [negb].
  2:{ destruct (_ <=? _)%nat; [by apply insertion_sorts|apply sorts_fail; [done|unfold sort_space; by rewrite Hp, andb_false_r]]. }
  destruct (radix_columns_ok (ncols s) (seq 0 (length l)) (replicate (length l) O)) as (src & dst & -> & Hperm & Hs);
    [done|done|by unfold is_perm|apply length_replicate| |].
  { rewrite Nat.sub_diag. cbn [key_from]. induction (seq 0 (length l)); constructor; [done|]. apply Forall_forall. done. }
  cbn [mbind option_bind]. destruct (temp_ok e) eqn:Ht; cbn [negb]; [|apply sorts_fail; [done|unfold sort_space; by rewrite Ht, andb_false_r]].
  rewrite gather_ok by (apply Forall_forall; intros i; by apply perm_lt). cbn [mbind option_bind]. exists (val <$> src), 0.
  split; [done|]. split; [|done]. intros _. split.
  - unfold is_perm in Hperm. rewrite Hperm. by rewrite val_seq.
  - clear -Hs. induction Hs as [|i src Hs IH Hi]; cbn; constructor; [done|]. apply Forall_fmap. exact Hi.
Qed.

End RadixProof.

Lemma any_float_ok ts cs : (forall c, c ∈ cs -> is_Some (ts !! c)) ->
  exists b, any_float ts cs = Some b /\ (b = false -> forall c ty, c ∈ cs -> ts !! c = Some ty -> is_float ty = false).
Proof.
  induction cs as [|c cs IH]; intros H; cbn [any_float]; [exists false; split; [done|]; intros _ c ty Hc; by apply not_elem_of_nil in Hc|].
  destruct (H c ltac:(left)) as [ty Hty]. unfold rd. rewrite Hty. cbn [mbind option_bind]. destruct (is_float ty) eqn:Hf; [by exists true|].
  destruct IH as (b & -> & Hb); [intros c' Hc'; apply H; by right|]. exists b. split; [done|]. intros -> c' ty' Hc' Hty'.
  apply elem_of_cons in Hc' as [->|Hc']; [congruence|by eapply Hb].
Qed.

Lemma raw_sorts e s l : Forall (row_ok s) l -> sorts e s l (col_rel_radix_sort_raw e s l).
Proof.
  intros Hok. unfold col_rel_radix_sort_raw. destruct (Nat.leb_spec (length l) 1) as [Hl|Hl].
  { exists l, 0. split; [done|]. split; [|done]. intros _. split; [done|].
    destruct l as [|x [|y l]]; [constructor|by repeat constructor|cbn in Hl; lia]. }
  destruct l as [|x l]; [cbn in Hl; lia|]. assert (Hx : row_ok s x) by (by inversion Hok).
  assert (Hcol : forall c, (c < ncols s)%nat -> is_Some (column_type_at s c)).
  { intros c Hc. destruct (row_cell s x c Hx Hc) as (ty & _ & Hty & _). by eexists. }
  assert (exists fl, match column_types s with None => Some false | Some ts => any_float ts (seq 0 (ncols s)) end = Some fl /\
    (fl = false -> forall c ty, (c < ncols s)%nat -> column_type_at s c = Some ty -> is_float ty = false)) as (fl & -> & Hfl).
  { unfold column_type_at in *. destruct (column_types s) as [ts|].
    - destruct (any_float_ok ts (seq 0 (ncols s))) as (b & -> & Hb); [intros c Hc; apply elem_of_seq in Hc; apply Hcol; lia|].
      exists b. split; [done|]. intros Hf c ty Hc. apply Hb; [done|apply elem_of_seq; lia].
    - exists false. split; [done|]. intros _ c ty _ [= <-]. done. }
  cbn [mbind option_bind]. destruct fl; cbn [orb]; [by apply insertion_sorts|]. destruct (_ <=? 32)%nat; [by apply insertion_sorts|].
  specialize (Hfl eq_refl). destruct (_ <=? _); apply radix_k_sorts; (done || cbn; lia).
Qed.

#[export] Instance radix_range_sort e : RangeSort (col_rel_radix_sort e).
Proof.
  split. intros r pre l post Hr Hn Hok. unfold col_rel_radix_sort.
  rewrite (proj2 (Nat.ltb_ge _ _)) by lia. rewrite (proj2 (Nat.ltb_ge _ _)) by lia. cbn [orb].
  assert (Hid : set_rows (pre ++ l ++ post) r = r) by (rewrite <-Hr; by destruct r).
  destruct (Nat.leb_spec (length l) 1) as [Hl|Hl].
  { exists l, 0. rewrite Hid. split; [done|]. split; [|done]. intros _. split; [done|].
    destruct l as [|x [|y l]]; [constructor|by repeat constructor|cbn in Hl; lia]. }
  destruct (detach_ok e); cbn [negb]; [|exists l, ENOMEM; rewrite Hid; done].
  unfold range_of. rewrite (proj2 (Nat.leb_le _ _)) by (rewrite Hr, !length_app; lia). cbn [mbind option_bind].
  assert (Hrange : take (length l) (drop (length pre) (rows r)) = l) by (rewrite Hr, drop_app_length, take_app_length; done).
  rewrite Hrange. destruct (raw_sorts e r l Hok) as (l' & rc & -> & H0 & H1). cbn [mbind option_bind]. exists l', rc. split; [|split; [done|intros Hrc; by apply H1]].
  unfold put_range. rewrite Hr, take_app_length.
  by assert (drop (length pre + length l) (pre ++ l ++ post) = post) as -> by (rewrite app_assoc, <-length_app; apply drop_app_length).
Qed.

End RelSort.
