(* ===== verification/Consolidate.v ===== *)
(** * Consolidation (src/wirelog/columnar/merge.c)

    Sorting and deduplication of relations: the k-way merge of concatenated
    segments with its hash path, the operator that evaluation plans call, and
    the incremental consolidation of semi-naive evaluation, which keeps up to
    eight sorted runs and reports the new rows.  The sort is a parameter, the
    outcome of every allocation an input.  As in the code, the codes that the
    sorts, row copies and appends return are ignored. *)

From S2P Require Import Prelude RadixSort Relation RelSort.

Module Consolidate.

Import Keys Rel.

(** ** Loops *)

(** Rows [base+i ..] of a sorted range, [n] of them: each is kept if it
    differs from its predecessor. *)
Fixpoint dedup_prev (n : nat) (r : rel) (base i out : nat) : option (rel * nat) :=
  match n with
  | O => Some (r, out)
  | S n' =>
      cmp ← col_rel_row_cmp r (base + i - 1) (base + i);
      if cmp =? 0 then dedup_prev n' r base (S i) out
      else r' ← col_rel_row_move_raw r (base + out) (base + i); dedup_prev n' r' base (S i) (S out)
  end.

(** The same, against the last row kept. *)
Fixpoint dedup_last (n : nat) (r : rel) (j out_r : nat) : option (rel * nat) :=
  match n with
  | O => Some (r, out_r)
  | S n' =>
      cmp ← col_rel_row_cmp r (out_r - 1) j;
      if cmp =? 0 then dedup_last n' r (S j) out_r
      else r' ← col_rel_row_move_raw r out_r j; dedup_last n' r' (S j) (S out_r)
  end.

(** Rows [j ..], [n] of them, are in order. *)
Fixpoint sorted_check (n : nat) (r : rel) (j : nat) : option bool :=
  match n with
  | O => Some true
  | S n' => cmp ← col_rel_row_cmp r (j - 1) j; if 0 <? cmp then Some false else sorted_check n' r (S j)
  end.

(** The merge buffer holds [cap] rows; a row equal to the last one is left out. *)
Definition emit_new (r : rel) (cap idx : nat) (out : list row) : option (list row) :=
  x ← rd (rows r) idx;
  same ← match last out with None => Some false | Some y => cmp ← col_rel_row_cmp_raw r idx y; Some (cmp =? 0) end;
  if same : bool then Some out
  else if (length out <? cap)%nat then Some (out ++ [x]) else None.

Fixpoint emit_range (n : nat) (r : rel) (cap i : nat) (out : list row) : option (list row) :=
  match n with O => Some out | S n' => out' ← emit_new r cap i out; emit_range n' r cap (S i) out' end.

(** Scatter the merged rows back. *)
Fixpoint copy_back (r : rel) (i : nat) (l : list row) : option rel :=
  match l with
  | [] => Some r
  | x :: l' => '(r', _) ← col_rel_row_copy_in_raw r i x; copy_back r' (S i) l'
  end.

(** ** Two-way merge *)

Fixpoint merge2 (fuel : nat) (r : rel) (cap i i_end j j_end : nat) (out : list row) : option (list row) :=
  match fuel with
  | O => None
  | S fuel' =>
      if (i <? i_end)%nat && (j <? j_end)%nat then
        cmp ← col_rel_row_cmp r i j;
        if cmp <=? 0 then
          out' ← emit_new r cap i out;
          merge2 fuel' r cap (S i) i_end (if cmp =? 0 then S j else j) j_end out'
        else out' ← emit_new r cap j out; merge2 fuel' r cap i i_end (S j) j_end out'
      else out' ← emit_range (i_end - i) r cap i out; emit_range (j_end - j) r cap j out'
  end.

(** ** Min-heap merge

    An entry is a cursor into a sorted segment, its end, and the leading key
    where the code keeps one; [lt] and [le] compare two entries. *)

Record entry := E { cursor : nat; seg_end : nat; lead_key : Z }.

Section Heap.
Context (lt le : entry -> entry -> option bool).

Fixpoint sift_down (fuel : nat) (heap : list entry) (size p : nat) : option (list entry) :=
  match fuel with
  | O => None
  | S fuel' =>
      let c := (2 * p + 1)%nat in
      if (c <? size)%nat then
        ec ← rd heap c; ep ← rd heap p;
        right ← (if (c + 1 <? size)%nat then er ← rd heap (c + 1); lt er ec else Some false);
        let c := if right : bool then (c + 1)%nat else c in
        ec ← rd heap c;
        stop ← le ep ec;
        if stop : bool then Some heap
        else heap1 ← wr heap p ec; heap2 ← wr heap1 c ep; sift_down fuel' heap2 size c
      else Some heap
  end.

(** for (i = size / 2 - 1; i >= 0; i--), from [n] = size / 2 *)
Fixpoint heapify (n : nat) (heap : list entry) (size : nat) : option (list entry) :=
  match n with
  | O => Some heap
  | S i => heap' ← sift_down (S size) heap size i; heapify i heap' size
  end.

End Heap.

(** The entries of the non-empty segments. *)
Definition entries (lead : nat -> option Z) (segs : list (nat * nat)) : option (list entry) :=
  foldr (fun '(s, e) acc => l ← acc; if (s <? e)%nat then k ← lead s; Some (E s e k :: l) else Some l) (Some []) segs.

(** Emit the least row, advance its cursor, restore the heap.  The rows read
    do not change: the merged rows are scattered back at the end. *)
Fixpoint extract (fuel : nat) (lt le : entry -> entry -> option bool) (lead : nat -> option Z) (r : rel) (cap : nat)
    (heap : list entry) (size : nat) (out : list row) : option (list row) :=
  match fuel with
  | O => None
  | S fuel' =>
      if (size =? 0)%nat then Some out
      else
        e ← rd heap 0;
        out' ← emit_new r cap (cursor e) out;
        let cur := S (cursor e) in
        '(heap', size') ←
          (if (seg_end e <=? cur)%nat then x ← rd heap (size - 1); h ← wr heap 0 x; Some (h, (size - 1)%nat)
           else k ← lead cur; h ← wr heap 0 (E cur (seg_end e) k); Some (h, size));
        heap'' ← (if (0 <? size')%nat then sift_down lt le (S size') heap' size' 0 else Some heap');
        extract fuel' lt le lead r cap heap'' size' out'
  end.

Definition heap_merge (lt le : entry -> entry -> option bool) (lead : nat -> option Z) (r : rel) (cap : nat) (segs : list (nat * nat))
  : option (list row) :=
  heap ← entries lead segs;
  let size := length heap in
  heap' ← (if (1 <? size)%nat then heapify lt le (size / 2) heap size else Some heap);
  extract (S (foldr (fun '(s, e) n => ((e - s) + n)%nat) O segs)) lt le lead r cap heap' size [].

(** HEAP_SIFT_DOWN of the k-way merge compares whole rows. *)
Definition row_lt (r : rel) (a b : entry) : option bool := cmp ← col_rel_row_cmp r (cursor a) (cursor b); Some (cmp <? 0).
Definition row_le (r : rel) (a b : entry) : option bool := cmp ← col_rel_row_cmp r (cursor a) (cursor b); Some (cmp <=? 0).

(** COMPACT_LT_ and COMPACT_LE_ compare the leading cells first, as integers. *)
Definition compact_lt (r : rel) (a b : entry) : option bool :=
  if lead_key a <? lead_key b then Some true
  else if lead_key a =? lead_key b then row_lt r a b else Some false.
Definition compact_le (r : rel) (a b : entry) : option bool :=
  if lead_key a <? lead_key b then Some true
  else if lead_key a =? lead_key b then row_le r a b else Some false.

Definition lead_col (r : rel) (i : nat) : option Z := x ← rd (rows r) i; rd x 0.

(** ** Hash deduplication *)

(** wl_columnar_value_key *)
Definition value_key (ty : column_type) (bits : Z) : Z := if is_float ty && float_bits_zero bits then 0 else u64 bits.

Definition hash_value (hash : Z) (ty : column_type) (bits : Z) : Z :=
  let value := value_key ty bits in
  let hash := u32 (Z.lxor hash (u32 value) * 16777619) in
  u32 (Z.lxor hash (u32 (Z.shiftr value 32)) * 16777619).

Fixpoint hash_row (s : shape) (n c : nat) (x : row) (hash : Z) : option Z :=
  match n with
  | O => Some hash
  | S n' => ty ← column_type_at s c; v ← rd x c; hash_row s n' (S c) x (hash_value hash ty v)
  end.

Definition value_equal (ty : column_type) (a b : Z) : bool := if is_float ty then float_compare_bits a b =? 0 else a =? b.

Fixpoint rows_equal (s : shape) (n c : nat) (a b : row) : option bool :=
  match n with
  | O => Some true
  | S n' => ty ← column_type_at s c; va ← rd a c; vb ← rd b c; if value_equal ty va vb then rows_equal s n' (S c) a b else Some false
  end.

(** A slot is [None] while its used byte is 0. *)
Abbreviation table := (list (option row)).

(** Whether the row is in the table, and the slot where the probe stopped. *)
Fixpoint ht_probe (fuel : nat) (s : shape) (ht : table) (mask slot : Z) (x : row) : option (bool * Z) :=
  match fuel with
  | O => None
  | S fuel' =>
      u ← rd ht (Z.to_nat slot);
      match u with
      | None => Some (false, slot)
      | Some sv =>
          eq ← rows_equal s (ncols s) 0 sv x;
          if eq : bool then Some (true, slot) else ht_probe fuel' s ht mask (Z.land (slot + 1) mask) x
      end
  end.

(** while (used[slot]) slot = (slot + 1) & mask *)
Fixpoint ht_free (fuel : nat) (ht : table) (mask slot : Z) : option Z :=
  match fuel with
  | O => None
  | S fuel' =>
      u ← rd ht (Z.to_nat slot);
      match u with None => Some slot | Some _ => ht_free fuel' ht mask (Z.land (slot + 1) mask) end
  end.

Fixpoint rehash (s : shape) (old : table) (ht : table) (mask : Z) : option table :=
  match old with
  | [] => Some ht
  | None :: old' => rehash s old' ht mask
  | Some sv :: old' =>
      h ← hash_row s (ncols s) 0 sv 2166136261;
      ns ← ht_free (length ht) ht mask (Z.land h mask);
      ht' ← wr ht (Z.to_nat ns) (Some sv);
      rehash s old' ht' mask
  end.

(** The allocations: the first tables and buffers, the table doubled at a
    count of unique rows, the buffer of unique rows grown at one. *)
Record hash_env := HE { tables_ok : bool; rehash_ok : nat -> bool; uniq_ok : nat -> bool }.

(** The rows from [i] on, [n] of them; [None] inside falls back to the sort. *)
Fixpoint hash_rows (e : hash_env) (n : nat) (r : rel) (i : nat) (ht : table) (uniq : list row) (uniq_cap : nat) : option (option (list row)) :=
  match n with
  | O => Some (Some uniq)
  | S n' =>
      rb ← rd (rows r) i;
      h ← hash_row r (ncols r) 0 rb 2166136261;
      let mask := Z.of_nat (length ht) - 1 in
      '(found, slot) ← ht_probe (length ht) r ht mask (Z.land h mask) rb;
      if found : bool then hash_rows e n' r (S i) ht uniq uniq_cap
      else
        room ←
          (if (length ht <=? length uniq * 2)%nat then
             if (nrows r / 4 <? length uniq)%nat || negb (rehash_ok e (length uniq)) then Some None
             else
               let new_cap := (length ht * 2)%nat in
               let new_mask := Z.of_nat new_cap - 1 in
               ht' ← rehash r ht (replicate new_cap None) new_mask;
               slot' ← ht_free new_cap ht' new_mask (Z.land h new_mask);
               Some (Some (ht', slot'))
           else Some (Some (ht, slot)));
        match room with
        | None => Some None
        | Some (ht', slot') =>
            ht'' ← wr ht' (Z.to_nat slot') (Some rb);
            let grow := (uniq_cap <=? length uniq)%nat in
            if grow && negb (uniq_ok e (length uniq)) then Some None
            else hash_rows e n' r (S i) ht'' (uniq ++ [rb]) (if grow then uniq_cap * 2 else uniq_cap)%nat
        end
  end.

(** ** Consolidation *)

(** The other allocations: segment arrays, merge buffers, the heap, the row
    buffer of wide relations, the right-sized columns, the growth of the delta
    relation at a row count, and the copy of a borrowed input. *)
Record cons_env := CE {
  hash_allocs : hash_env;
  segs_ok : bool;
  merged_ok : bool;
  heap_ok : bool;
  merge_buf_ok : bool;
  rowbuf_ok : bool;
  tight_ok : bool;
  append_ok : nat -> bool;
  copy_ok : bool }.

Section Operations.
Context (sort : rel -> nat -> nat -> option (rel * Z)) (e : cons_env).

(** 0, or -1 to fall back to sorting. *)
Definition col_op_consolidate_hash_dedup (r : rel) : option (rel * Z) :=
  if negb (tables_ok (hash_allocs e)) then Some (r, -1)
  else
    res ← hash_rows (hash_allocs e) (nrows r) r 0 (replicate 8192 None) [] 4096;
    match res with
    | None => Some (r, -1)
    | Some uniq =>
        r1 ← copy_back r 0 uniq;
        let r2 := set_nrows (length uniq) r1 in
        if (1 <? length uniq)%nat then
          '(r3, _) ← sort r2 0 (length uniq);
          '(r4, out) ← dedup_prev (length uniq - 1) r3 0 1 1;
          Some (set_nrows out r4, 0)
        else Some (r2, 0)
    end.

(** Sort each segment unless it is sorted, and drop its duplicates; the
    segments that remain. *)
Fixpoint sort_segments (r : rel) (bounds : list nat) : option (rel * list (nat * nat)) :=
  match bounds with
  | start :: (end_ :: _) as bounds' =>
      '(r', seg_end) ←
        (if (1 <? end_ - start)%nat then
           already ← sorted_check (end_ - start - 1) r (start + 1);
           '(r1, _) ← (if already : bool then Some (r, 0) else sort r start (end_ - start));
           dedup_last (end_ - start - 1) r1 (start + 1) (start + 1)
         else Some (r, end_));
      '(r'', segs) ← sort_segments r' bounds';
      Some (r'', (start, seg_end) :: segs)
  | _ => Some (r, [])
  end.

(** col_op_consolidate_kway_merge; [bounds] has one entry more than there are
    segments. *)
Definition col_op_consolidate_kway_merge (r : rel) (bounds : list nat) : option (rel * Z) :=
  valid ← float_values_valid r;
  if negb valid then Some (r, EINVAL)
  else if (nrows r <=? 1)%nat then Some (r, 0)
  else
    '(r0, rc) ← (if (10000 <? nrows r)%nat then col_op_consolidate_hash_dedup r else Some (r, -1));
    if rc =? 0 then Some (r0, 0)
    else if negb (segs_ok e) then Some (r0, ENOMEM)
    else
      '(r1, segs) ← sort_segments r0 bounds;
      match segs with
      | [(_, seg_end)] => Some (set_nrows seg_end r1, 0)
      | _ =>
          if negb (merged_ok e) then Some (r1, ENOMEM)
          else
            let cap := nrows r in
            merged ←
              match segs with
              | [(i, i_end); (j, j_end)] => m ← merge2 (S ((i_end - i) + (j_end - j))) r1 cap i i_end j j_end []; Some (Some m)
              | _ =>
                  if negb (heap_ok e) then Some None
                  else m ← heap_merge (row_lt r1) (row_le r1) (fun _ => Some 0) r1 cap segs; Some (Some m)
              end;
            match merged with
            | None => Some (r1, ENOMEM)
            | Some m => r2 ← copy_back r1 0 m; Some (set_nrows (length m) r2, 0)
            end
      end.

(** The segments of the runs: [n] of them, from run [i], which begins at [start]. *)
Fixpoint run_bounds (ends : list nat) (n i start : nat) : option (list (nat * nat)) :=
  match n with
  | O => Some []
  | S n' => end_ ← rd ends i; l ← run_bounds ends n' (S i) end_; Some ((start, end_) :: l)
  end.

Definition one_run (n : nat) (r : rel) : option rel := l ← wr (run_ends r) 0 n; Some (set_runs 1 l r).

(** K-way merge of the sorted runs. *)
Definition col_rel_compact_runs (r : rel) : option (rel * Z) :=
  if (run_count r <=? 1)%nat then Some (r, 0)
  else
    segs ← run_bounds (run_ends r) (run_count r) 0 0;
    if negb (merged_ok e) then Some (r, ENOMEM)
    else
      m ← heap_merge (compact_lt r) (compact_le r) (lead_col r) r (nrows r) segs;
      r1 ← copy_back r 0 m;
      r2 ← one_run (length m) (set_sorted (length m) (set_nrows (length m) r1));
      Some (r2, 0).

(** ** Merging into the column buffer *)

(** Make the merge buffer hold [max_rows] rows: [None] is ENOMEM. *)
Definition realloc_merge (r : rel) (max_rows : nat) : option rel :=
  let dbl := Z.to_nat (u32 (Z.of_nat (merge_buf_cap r) * 2)) in
  let new_cap := if (dbl <? max_rows)%nat then max_rows else dbl in
  if negb (merge_buf_ok e) then None
  else
    match merge_columns r with
    | Some l => Some (set_merge (Some (resized (ncols r) new_cap l)) new_cap r)
    | None => if (ncols r =? 0)%nat then None else Some (set_merge (Some (resized (ncols r) new_cap [])) new_cap r)
    end.

(** The operator reuses a buffer that exists and is large enough, the
    incremental consolidation one whose capacity is. *)
Definition reuse_merge (r : rel) (max_rows : nat) : option rel :=
  if bool_decide (is_Some (merge_columns r)) && (max_rows <=? merge_buf_cap r)%nat then Some r else realloc_merge r max_rows.
Definition grow_merge (r : rel) (max_rows : nat) : option rel :=
  if (max_rows <=? merge_buf_cap r)%nat then Some r else realloc_merge r max_rows.

(** col_rel_append_row on the delta relation, if there is one. *)
Definition append_delta (delta : option rel) (x : row) : option (option rel) :=
  match delta with
  | None => Some None
  | Some d => '(d', _) ← col_rel_append_row (append_ok e (nrows d)) d x; Some (Some d')
  end.

(** The rows [0 .. sn) and [sn .. sn + d) of the relation, merged into the
    buffer [mb] from [out] on; the rows only in the second part go to the
    delta relation. *)
Fixpoint merge_cols (fuel : nat) (r : rel) (sn d oi di out : nat) (mb : list row) (delta : option rel)
  : option (list row * nat * option rel) :=
  match fuel with
  | O => None
  | S fuel' =>
      let take_old skip :=
        x ← rd (rows r) oi; mb' ← wr mb out x; merge_cols fuel' r sn d (S oi) (if skip : bool then S di else di) (S out) mb' delta in
      let take_new :=
        x ← rd (rows r) (sn + di); mb' ← wr mb out x; delta' ← append_delta delta x;
        merge_cols fuel' r sn d oi (S di) (S out) mb' delta' in
      if (oi <? sn)%nat && (di <? d)%nat then
        cmp ← col_rel_row_cmp r oi (sn + di);
        if cmp <? 0 then take_old false else if cmp =? 0 then take_old true else take_new
      else if (oi <? sn)%nat then take_old false
      else if (di <? d)%nat then take_new
      else Some (mb, out, delta)
  end.

(** Swap the buffers and publish [out] rows as one run. *)
Definition publish_merge (r : rel) (mb : list row) (out : nat) : option rel :=
  let r1 := set_merge (Some (rows r)) (capacity r) (set_capacity (merge_buf_cap r) (set_rows mb r)) in
  one_run out (set_sorted out (set_nrows out r1)).

(** Both steps: the relation, its rows, the delta relation. *)
Definition merge_into (r : rel) (sn d : nat) (delta : option rel) : option (rel * nat * option rel) :=
  mb ← merge_columns r;
  '(mb', out, delta') ← merge_cols (S (sn + d)) r sn d 0 0 0 mb delta;
  r' ← publish_merge r mb' out;
  Some (r', out, delta').

Definition tight_cap (out : nat) : nat :=
  let tight := (out + out / 4)%nat in if (tight <? COL_REL_INIT_CAP)%nat then COL_REL_INIT_CAP else tight.

Definition wants_tight (r : rel) (out : nat) : bool := (0 <? out)%nat && (out + out / 4 <? capacity r)%nat.

(** ** Copying a relation *)

(** An empty relation with the lanes of [r]. *)
Definition new_like (r : rel) : rel :=
  R (lanes r) (replicate COL_REL_INIT_CAP (replicate (ncols r) 0)) 0 COL_REL_INIT_CAP 0 None 0 false 0 (replicate COL_MAX_RUNS O).

(** while (new_cap < n) new_cap *= 2, with the overflow guard. *)
Fixpoint double_until (fuel : nat) (cap n : Z) : option (option Z) :=
  match fuel with
  | O => None
  | S fuel' => if cap <? n then if u32 (cap * 2) <=? cap then Some None else double_until fuel' (u32 (cap * 2)) n else Some (Some cap)
  end.

(** All rows of [src] behind those of [dst], which has the same lanes. *)
Definition col_rel_append_all (grow_ok : bool) (dst src : rel) : option (rel * Z) :=
  if (nrows src =? 0)%nat then Some (dst, 0)
  else if UINT32_MAX - Z.of_nat (nrows dst) <? Z.of_nat (nrows src) then Some (dst, EOVERFLOW)
  else
    let n := (nrows dst + nrows src)%nat in
    cap ←
      (if (capacity dst <? n)%nat then
         double_until 33 (if (capacity dst =? 0)%nat then Z.of_nat COL_REL_INIT_CAP else u32 (Z.of_nat (capacity dst) * 2)) (Z.of_nat n)
       else Some (Some (Z.of_nat (capacity dst))));
    match cap with
    | None => Some (dst, ENOMEM)
    | Some c =>
        let cap := Z.to_nat c in
        if (capacity dst <? n)%nat && negb grow_ok then Some (dst, ENOMEM)
        else
          let dst1 := if (capacity dst <? n)%nat then set_capacity cap (set_rows (resized (ncols dst) cap (rows dst)) dst) else dst in
          dst2 ← copy_back dst1 (nrows dst) (take (nrows src) (rows src));
          Some (set_nrows n dst2, 0)
    end.

(** ** The operator *)

(** Without boundaries: merge the unsorted suffix into the sorted prefix, or
    sort everything. *)
Definition consolidate_plain (work : rel) : option (rel * Z) :=
  let nr := nrows work in
  let sn := sorted_nrows work in
  if (0 <? sn)%nat && (sn <? nr)%nat then
    '(r1, _) ← sort work sn (nr - sn);
    '(r2, d_unique) ← dedup_prev (nr - sn - 1) r1 sn 1 1;
    match reuse_merge r2 (sn + d_unique) with
    | None => Some (r2, ENOMEM)
    | Some r3 =>
        '(r4, out, _) ← merge_into r3 sn d_unique None;
        Some (if wants_tight r4 out && tight_ok e
              then set_capacity (tight_cap out) (set_rows (resized (ncols r4) (tight_cap out) (rows r4)) r4) else r4, 0)
    end
  else
    '(r1, _) ← (if (ncols work =? 0)%nat then Some (work, 0) else sort work 0 nr);
    '(r2, out) ← dedup_prev (nr - 1) r1 0 1 1;
    r3 ← one_run out (set_sorted out (set_nrows out r2));
    Some (r3, 0).

(** col_op_consolidate on an entry of the stack: the relation, whether the
    stack owns it, the boundaries of its segments.  The code, and the relation
    that is pushed when it is 0. *)
Definition col_op_consolidate (input : rel) (owned : bool) (bounds : option (list nat)) : option (rel * Z) :=
  valid ← float_values_valid input;
  if negb valid then Some (input, EINVAL)
  else if (nrows input <=? 1)%nat then
    r ← one_run (nrows input) (set_sorted (nrows input) input); Some (r, 0)
  else
    '(work, copied) ← (if owned then Some (input, 0) else if negb (copy_ok e) then Some (input, ENOMEM)
                       else col_rel_append_all (copy_ok e) (new_like input) input);
    if negb (copied =? 0) then Some (input, ENOMEM)
    else
      match bounds with
      | Some ((_ :: _ :: _ :: _) as b) =>
          '(r, rc) ← col_op_consolidate_kway_merge work b;
          if negb (rc =? 0) then Some (r, rc)
          else r' ← one_run (nrows r) (set_sorted (nrows r) r); Some (r', 0)
      | _ => consolidate_plain work
      end.

(** ** Incremental consolidation *)

(** Run tracking that does not end at [old] is replaced by one run. *)
Definition repair_runs (old : nat) (r : rel) : option rel :=
  stale ← (if (run_count r =? 0)%nat then Some true else x ← rd (run_ends r) (run_count r - 1); Some (negb (x =? old)%nat));
  if stale : bool then
    if (0 <? old)%nat then one_run old r else Some (set_runs 0 (run_ends r) r)
  else Some r.

(** The last row of every run is below the first new row. *)
Fixpoint runs_below (n : nat) (r : rel) (i old : nat) : option bool :=
  match n with
  | O => Some true
  | S n' =>
      end_ ← rd (run_ends r) i;
      below ← (if (0 <? end_)%nat then cmp ← col_rel_row_cmp r (end_ - 1) old; Some (cmp <? 0) else Some true);
      if below : bool then runs_below n' r (S i) old else Some false
  end.

(** Register the rows up to [nrows] as a new run: there is room for it. *)
Definition add_run (r : rel) : option rel :=
  l ← wr (run_ends r) (run_count r) (nrows r); Some (set_runs (S (run_count r)) l r).

(** Rows [i ..], [n] of them, to the delta relation. *)
Fixpoint append_rows (n : nat) (r : rel) (i : nat) (delta : option rel) : option (option rel) :=
  match n with
  | O => Some delta
  | S n' => x ← rd (rows r) i; delta' ← append_delta delta x; append_rows n' r (S i) delta'
  end.

(** Row [idx] is in one of the [n] runs from [k] on. *)
Fixpoint in_runs (n : nat) (r : rel) (k start idx : nat) : option bool :=
  match n with
  | O => Some false
  | S n' =>
      end_ ← rd (run_ends r) k;
      found ← col_rel_binary_search_row r start end_ idx;
      if found : bool then Some true else in_runs n' r (S k) end_ idx
  end.

(** col_row_buf_init: the stack buffer, or the heap for wide rows. *)
Definition row_buf (r : rel) : bool := (ncols r <=? 32)%nat || rowbuf_ok e.

(** The new rows from [i] on, [n] of them: the novel ones are moved together
    behind [old] and reported, through a row buffer each. *)
Fixpoint keep_novel (n : nat) (r : rel) (old i novel : nat) (delta : option rel) : option (rel * nat * option rel * Z) :=
  match n with
  | O => Some (r, novel, delta, 0)
  | S n' =>
      found ← in_runs (run_count r) r 0 0 (old + i);
      if found : bool then keep_novel n' r old (S i) novel delta
      else
        r' ← col_rel_row_move_raw r (old + novel) (old + i);
        if bool_decide (is_Some delta) && negb (row_buf r') then Some (r', novel, delta, ENOMEM)
        else
          x ← rd (rows r') (old + novel);
          delta' ← append_delta delta x;
          keep_novel n' r' old (S i) (S novel) delta'
  end.

(** Rows [src ..], [n] of them, moved to [dst ..]. *)
Fixpoint move_rows (n : nat) (r : rel) (dst src : nat) : option rel :=
  match n with
  | O => Some r
  | S n' => r' ← col_rel_row_move_raw r dst src; move_rows n' r' (S dst) (S src)
  end.

(** All new rows are novel and above every run. *)
Definition fast_append (r : rel) (old d : nat) (delta : option rel) : option (rel * option rel * Z) :=
  if bool_decide (is_Some delta) && negb (row_buf r) then Some (r, delta, ENOMEM)
  else
    delta' ← append_rows d r old delta;
    let r1 := set_sorted (old + d) (set_nrows (old + d) r) in
    if (run_count r1 <? COL_MAX_RUNS)%nat then r2 ← add_run r1; Some (set_timestamps false r2, delta', 0)
    else
      l ← wr (run_ends r1) (run_count r1 - 1) (nrows r1);
      '(r2, rc) ← col_rel_compact_runs (set_runs (run_count r1) l r1);
      Some (if rc =? 0 then set_timestamps false r2 else r2, delta', rc).

(** Few new rows: each is looked up in every run. *)
Definition search_append (r : rel) (old d : nat) (delta : option rel) : option (rel * option rel * Z) :=
  '(r1, novel, delta', rc) ← keep_novel d r old 0 0 delta;
  if negb (rc =? 0) then Some (r1, delta', rc)
  else
    if (0 <? novel)%nat then
      let r2 := set_nrows (old + novel) r1 in
      '(r3, rc) ←
        (if (run_count r2 <? COL_MAX_RUNS)%nat then r3 ← add_run r2; Some (r3, 0)
         else
           '(r3, rc) ← col_rel_compact_runs r2;
           if negb (rc =? 0) then Some (r3, rc)
           else
             let compacted := nrows r3 in
             r4 ← move_rows novel r3 compacted old;
             r5 ← add_run (set_nrows (compacted + novel) r4);
             Some (r5, 0));
      if negb (rc =? 0) then Some (r3, delta', rc)
      else Some (set_timestamps false (set_sorted (nrows r3) r3), delta', 0)
    else Some (set_timestamps false (set_sorted old (set_nrows old r1)), delta', 0).

(** Many new rows: one run, merged. *)
Definition merge_append (r : rel) (old d : nat) (delta : option rel) : option (rel * option rel * Z) :=
  match grow_merge r (old + d) with
  | None => Some (r, delta, ENOMEM)
  | Some r1 =>
      if negb (row_buf r1) then Some (r1, delta, ENOMEM)
      else
        '(r2, old', rc) ←
          (if (1 <? run_count r1)%nat then
             '(r2, rc) ← col_rel_compact_runs r1;
             if negb (rc =? 0) then Some (r2, old, rc)
             else
               let compacted := nrows r2 in
               r3 ← move_rows d r2 compacted old;
               Some (set_nrows (compacted + d) r3, compacted, 0)
           else Some (r1, old, 0));
        if negb (rc =? 0) then Some (r2, delta, rc)
        else
          '(r3, out, delta') ← merge_into r2 old' d delta;
          let r4 :=
            if wants_tight r3 out
            then set_capacity (tight_cap out) (if tight_ok e then set_rows (resized (ncols r3) (tight_cap out) (rows r3)) r3 else r3)
            else r3 in
          Some (set_timestamps false r4, delta', 0)
  end.

(** The relation, the delta relation, the code. *)
Definition col_op_consolidate_incremental_delta (r : rel) (old : nat) (delta : option rel) : option (rel * option rel * Z) :=
  valid ← float_values_valid r;
  valid_delta ← match delta with None => Some true | Some d => float_values_valid d end;
  if negb valid || negb valid_delta then Some (r, delta, EINVAL)
  else if (nrows r =? 0)%nat || (nrows r <=? old)%nat then Some (r, delta, 0)
  else
    let count := (nrows r - old)%nat in
    '(r1, _) ← sort r old count;
    '(r2, d) ← dedup_prev (count - 1) r1 old 1 1;
    r3 ← repair_runs old r2;
    fast ← (if (old =? 0)%nat then Some true else runs_below (run_count r3) r3 0 old);
    if fast : bool then fast_append r3 old d delta
    else if (d <=? old / 16)%nat && (0 <? run_count r3)%nat then search_append r3 old d delta
    else merge_append r3 old d delta.

End Operations.

End Consolidate.
