(* ===== verification/ConsolidateProof.v ===== *)
(** * Correctness of consolidation

    The relations after consolidation hold the rows they held before, once
    each and in order, and the delta relation of an incremental consolidation
    is what was added.  Rows count as equal when no lane tells them apart, that
    is when their keys are equal. *)

From stdpp Require Import sorting.
From S2P Require Import Prelude RadixSort Relation RelSort Consolidate.

Import Keys Rel RelSort Consolidate.

(** ** Rows and keys *)

Definition strict (s : shape) (l : list row) : Prop := StronglySorted (fun a b => key s a < key s b) l.
Definition keys (s : shape) (l : list row) : list Z := key s <$> l.

Lemma strict_app s l1 l2 : strict s (l1 ++ l2) <-> strict s l1 /\ strict s l2 /\ forall a b, a ∈ l1 -> b ∈ l2 -> key s a < key s b.
Proof. unfold strict. rewrite StronglySorted_app. tauto. Qed.

Lemma strict_nodup s l : strict s l -> NoDup (keys s l).
Proof.
  induction 1 as [|x l Hs IH Hx]; cbn; constructor; [|done]. intros Hin. apply list_elem_of_fmap in Hin as (y & Hy & Hin).
  rewrite Forall_forall in Hx. specialize (Hx y Hin). lia.
Qed.

(** ** Dropping equal neighbours *)

Fixpoint dropped (s : shape) (p : row) (l : list row) : list row :=
  match l with
  | [] => []
  | x :: l' => if decide (key s p = key s x) then dropped s p l' else x :: dropped s x l'
  end.

Lemma dropped_key s p q l : key s p = key s q -> dropped s p l = dropped s q l.
Proof. intros H. induction l as [|x l IH]; [done|]. cbn. by rewrite H, IH. Qed.

Lemma dropped_spec s p l : StronglySorted (by_key s) (p :: l) ->
  strict s (p :: dropped s p l) /\ (forall k, k ∈ keys s (p :: dropped s p l) <-> k ∈ keys s (p :: l)) /\
  (forall x, x ∈ dropped s p l -> x ∈ l) /\ (length (dropped s p l) <= length l)%nat.
Proof.
  revert p. induction l as [|x l IH]; intros p Hs; [by split_and!; [repeat constructor| | |]|]. cbn [dropped].
  apply StronglySorted_inv in Hs as [Hs Hp]. case_decide as Hk.
  - destruct (IH p) as (H1 & H2 & H3 & H4).
    { apply StronglySorted_inv in Hs as [Hs Hx]. constructor; [done|]. by apply Forall_cons in Hp as [_ Hp]. }
    split_and!; [done| |intros y Hy; right; by apply H3|cbn; lia].
    intros k. rewrite H2. unfold keys. cbn. rewrite !elem_of_cons, Hk. tauto.
  - destruct (IH x Hs) as (H1 & H2 & H3 & H4). split_and!.
    + constructor; [done|]. apply Forall_cons in Hp as [Hpx Hp]. unfold by_key in Hpx. constructor; [lia|].
      apply Forall_forall. intros y Hy. apply StronglySorted_inv in H1 as [_ H1]. rewrite Forall_forall in H1. specialize (H1 y Hy). lia.
    + intros k. unfold keys in *. cbn in *. rewrite !elem_of_cons. specialize (H2 k). rewrite !elem_of_cons in H2. tauto.
    + intros y Hy. apply elem_of_cons in Hy as [->|Hy]; [left|right; by apply H3].
    + cbn. lia.
Qed.

(** The row a comparison reads. *)
Lemma row_at (r : rel) A x B : rows r = A ++ x :: B -> rows r !! length A = Some x.
Proof. intros ->. by apply list_lookup_middle. Qed.

Lemma set_rows_twice a b r : set_rows a (set_rows b r) = set_rows a r.
Proof. done. Qed.

(** Keeping the row [x] behind the [length K] rows kept. *)
Lemma keep_row (r : rel) A K G x B : rows r = A ++ K ++ G ++ x :: B ->
  exists G', col_rel_row_move_raw r (length A + length K) (length A + (length K + length G)) =
      Some (set_rows (A ++ (K ++ [x]) ++ G' ++ B) r) /\ length G' = length G /\ last ((K ++ [x]) ++ G') = Some x.
Proof.
  intros Hr. assert (Hx : rows r !! (length A + (length K + length G))%nat = Some x).
  { rewrite Hr. rewrite (lookup_app_r A) by lia. rewrite (lookup_app_r K) by lia. apply list_lookup_middle. lia. }
  assert (Hlt : (length A + length K < length (rows r))%nat) by (rewrite Hr, !length_app; cbn; lia).
  exists (drop 1 (G ++ [x])). rewrite (move_ok r _ _ x Hx Hlt). split.
  - f_equal. f_equal. rewrite Hr, insert_app_r_alt by lia. replace (length A + length K - length A)%nat with (length K) by lia.
    rewrite insert_app_r_alt, Nat.sub_diag by lia. destruct G as [|g G]; cbn; rewrite ?drop_0, <-!app_assoc; done.
  - rewrite length_drop, length_app. cbn. split; [lia|]. destruct G as [|g G]; cbn [app drop]; [rewrite app_nil_r|rewrite drop_0, app_assoc]; apply last_snoc.
Qed.

(** Dropping equal neighbours in place: the rows [p] and [rest] behind [A]. *)
Lemma dedup_prev_ok rest : forall (r : rel) A K G p B, rows r = A ++ K ++ G ++ rest ++ B -> last (K ++ G) = Some p ->
  row_ok r p -> Forall (row_ok r) rest ->
  exists G', dedup_prev (length rest) r (length A) (length K + length G) (length K) =
      Some (set_rows (A ++ K ++ dropped r p rest ++ G' ++ B) r, (length K + length (dropped r p rest))%nat) /\
    (length (dropped r p rest) + length G' = length G + length rest)%nat.
Proof.
  induction rest as [|x rest IH]; intros r A K G p B Hr Hlast Hp Hok; cbn [length dedup_prev dropped].
  { exists G. rewrite Nat.add_0_r. cbn [app length]. split; [|lia]. f_equal. f_equal. cbn [app] in Hr. rewrite <-Hr. by destruct r. }
  apply Forall_cons in Hok as [Hx Hok].
  assert (Hpx : exists KG, K ++ G = KG ++ [p] /\ (length KG + 1 = length K + length G)%nat).
  { apply last_Some in Hlast as [KG HKG]. exists KG. split; [done|]. rewrite <-length_app, HKG, length_app. cbn. lia. }
  destruct Hpx as (KG & HKG & Hlen).
  assert (Hr' : rows r = A ++ KG ++ p :: x :: rest ++ B).
  { rewrite Hr. f_equal. rewrite app_assoc, HKG, <-app_assoc. done. }
  rewrite (row_cmp_key r _ _ p x); [| | |done|done].
  2:{ rewrite Hr'. rewrite (lookup_app_r A) by lia. apply list_lookup_middle. lia. }
  2:{ rewrite Hr', (lookup_app_r A) by lia. rewrite (lookup_app_r KG) by lia.
      replace (length A + (length K + length G) - length A - length KG)%nat with 1%nat by lia. done. }
  cbn [mbind option_bind].
  destruct (decide (key r p = key r x)) as [Hk|Hk].
  - destruct (three_way_cases (key r p) (key r x)) as [[? _]|[[_ ->]|[? _]]]; [lia| |lia]. cbn [Z.eqb].
    destruct (IH r A K (G ++ [x]) x B) as (G' & Hd & HG').
    { rewrite Hr, <-!app_assoc. done. } { rewrite app_assoc. apply last_snoc. } { done. } { done. }
    rewrite length_app in Hd. cbn [length] in Hd. rewrite Nat.add_assoc, Nat.add_1_r in Hd. rewrite Hd.
    rewrite (dropped_key r p x) by done. exists G'. split; [done|]. rewrite length_app in HG'. cbn in HG'. lia.
  - assert (three_way (key r p) (key r x) =? 0 = false) as -> by (destruct (three_way_cases (key r p) (key r x)) as [[? ->]|[[? _]|[? ->]]]; done).
    destruct (keep_row r A K G x (rest ++ B)) as (G1 & -> & HG1 & Hlast1); [by rewrite Hr|]. cbn [mbind option_bind].
    destruct (IH (set_rows (A ++ (K ++ [x]) ++ G1 ++ rest ++ B) r) A (K ++ [x]) G1 x B) as (G' & Hd & HG'); [done..|].
    rewrite length_app in Hd. cbn [length lanes set_rows] in Hd, HG'. rewrite HG1 in Hd. replace (length K + 1 + length G)%nat with (S (length K + length G)) in Hd by lia.
    replace (length K + 1)%nat with (S (length K)) in Hd by lia. rewrite Hd. exists G'. rewrite set_rows_twice. split; [|cbn; lia].
    f_equal. f_equal; [|cbn; lia]. f_equal. by rewrite <-!app_assoc.
Qed.

(** The same against the last row kept. *)
Lemma dedup_last_ok rest : forall (r : rel) A K G p B, rows r = A ++ K ++ G ++ rest ++ B -> last K = Some p ->
  row_ok r p -> Forall (row_ok r) rest ->
  exists G', dedup_last (length rest) r (length A + (length K + length G)) (length A + length K) =
      Some (set_rows (A ++ K ++ dropped r p rest ++ G' ++ B) r, (length A + (length K + length (dropped r p rest)))%nat) /\
    (length (dropped r p rest) + length G' = length G + length rest)%nat.
Proof.
  induction rest as [|x rest IH]; intros r A K G p B Hr Hlast Hp Hok; cbn [length dedup_last dropped].
  { exists G. rewrite Nat.add_0_r. cbn [app length]. split; [|lia]. f_equal. f_equal. cbn [app] in Hr. rewrite <-Hr. by destruct r. }
  apply Forall_cons in Hok as [Hx Hok]. apply last_Some in Hlast as [K0 HK].
  rewrite (row_cmp_key r _ _ p x); [| | |done|done].
  2:{ rewrite Hr, (lookup_app_r A) by (rewrite HK, length_app; cbn; lia). rewrite HK, <-app_assoc. cbn [app].
      apply list_lookup_middle. rewrite length_app. cbn. lia. }
  2:{ rewrite Hr, (lookup_app_r A) by lia. rewrite (lookup_app_r K) by lia. apply list_lookup_middle. lia. }
  cbn [mbind option_bind]. destruct (decide (key r p = key r x)) as [Hk|Hk].
  - destruct (three_way_cases (key r p) (key r x)) as [[? _]|[[_ ->]|[? _]]]; [lia| |lia]. cbn [Z.eqb].
    destruct (IH r A K (G ++ [x]) p B) as (G' & Hd & HG').
    { rewrite Hr, <-!app_assoc. done. } { rewrite HK. apply last_snoc. } { done. } { done. }
    rewrite length_app in Hd. cbn [length] in Hd. replace (length A + (length K + (length G + 1)))%nat with (S (length A + (length K + length G))) in Hd by lia.
    rewrite Hd. exists G'. split; [done|]. rewrite length_app in HG'. cbn in HG'. lia.
  - assert (three_way (key r p) (key r x) =? 0 = false) as -> by (destruct (three_way_cases (key r p) (key r x)) as [[? ->]|[[? _]|[? ->]]]; done).
    destruct (keep_row r A K G x (rest ++ B)) as (G1 & -> & HG1 & _); [by rewrite Hr|]. cbn [mbind option_bind].
    destruct (IH (set_rows (A ++ (K ++ [x]) ++ G1 ++ rest ++ B) r) A (K ++ [x]) G1 x B) as (G' & Hd & HG'); [done|apply last_snoc|done..|].
    rewrite length_app in Hd. cbn [length lanes set_rows] in Hd, HG'. rewrite HG1 in Hd.
    replace (length A + (length K + 1 + length G))%nat with (S (length A + (length K + length G))) in Hd by lia.
    replace (length A + (length K + 1))%nat with (S (length A + length K)) in Hd by lia. rewrite Hd. exists G'. rewrite set_rows_twice. split; [|cbn; lia].
    f_equal. f_equal; [|cbn; lia]. f_equal. by rewrite <-!app_assoc.
Qed.

Lemma sorted_check_ok rest : forall (r : rel) A p B, rows r = A ++ p :: rest ++ B -> row_ok r p -> Forall (row_ok r) rest ->
  exists b, sorted_check (length rest) r (length A + 1) = Some b /\ (b = true -> StronglySorted (by_key r) (p :: rest)).
Proof.
  induction rest as [|x rest IH]; intros r A p B Hr Hp Hok; cbn [length sorted_check]; [exists true; split; [done|]; by repeat constructor|].
  apply Forall_cons in Hok as [Hx Hok]. rewrite (row_cmp_key r _ _ p x); [| | |done|done].
  2:{ rewrite Hr. apply list_lookup_middle. lia. }
  2:{ rewrite Hr, (lookup_app_r A) by lia. by replace (length A + 1 - length A)%nat with 1%nat by lia. }
  cbn [mbind option_bind]. destruct (IH r (A ++ [p]) x B) as (b & Hb & Hs); [by rewrite Hr, <-app_assoc|done..|].
  rewrite length_app in Hb. cbn [length] in Hb. replace (length A + 1 + 1)%nat with (S (length A + 1)) in Hb by lia.
  assert (Hle : key r p <= key r x -> b = true -> StronglySorted (by_key r) (p :: x :: rest)).
  { intros Hle Hbt. specialize (Hs Hbt). constructor; [done|]. apply StronglySorted_inv in Hs as [_ Hx']. constructor; [done|].
    eapply Forall_impl; [exact Hx'|]. unfold by_key in *. cbn. lia. }
  destruct (three_way_cases (key r p) (key r x)) as [[H3 ->]|[[H3 ->]|[H3 ->]]]; cbn [Z.ltb Z.compare].
  - exists b. split; [done|]. apply Hle. lia.
  - exists b. split; [done|]. apply Hle. lia.
  - by exists false.
Qed.

(** ** Merging two sorted ranges *)

(** [out] is the merge of [old] and [new], [fresh] the rows only in [new]. *)
Inductive merges (s : shape) : list row -> list row -> list row -> list row -> Prop :=
| mg_nil : merges s [] [] [] []
| mg_old a old new out fresh : (forall b new', new = b :: new' -> key s a < key s b) -> merges s old new out fresh ->
    merges s (a :: old) new (a :: out) fresh
| mg_both a b old new out fresh : key s a = key s b -> merges s old new out fresh -> merges s (a :: old) (b :: new) (a :: out) fresh
| mg_new b old new out fresh : (forall a old', old = a :: old' -> key s b < key s a) -> merges s old new out fresh ->
    merges s old (b :: new) (b :: out) (b :: fresh).

Lemma strict_cons s x l : strict s (x :: l) <-> strict s l /\ forall y, y ∈ l -> key s x < key s y.
Proof. unfold strict. split; [intros H; apply StronglySorted_inv in H as [H1 H2]; by rewrite Forall_forall in H2|]. intros [H1 H2]. constructor; [done|]. by rewrite Forall_forall. Qed.

(** A bound on the head of a strict list bounds all of it. *)
Lemma head_bound s k l : strict s l -> (forall b l', l = b :: l' -> k < key s b) -> forall y, y ∈ l -> k < key s y.
Proof.
  intros Hs Hh y Hy. destruct l as [|b l]; [by apply not_elem_of_nil in Hy|]. specialize (Hh b l eq_refl).
  apply elem_of_cons in Hy as [->|Hy]; [done|]. apply strict_cons in Hs as [_ Hs]. specialize (Hs y Hy). lia.
Qed.

Lemma merges_spec s old new out fresh : merges s old new out fresh -> strict s old -> strict s new ->
  strict s out /\ strict s fresh /\ (forall x, x ∈ out -> x ∈ old \/ x ∈ new) /\ (forall x, x ∈ fresh -> x ∈ new) /\
  (forall k, k ∈ keys s out <-> k ∈ keys s old \/ k ∈ keys s new) /\
  (forall k, k ∈ keys s fresh <-> k ∈ keys s new /\ k ∉ keys s old).
Proof.
  induction 1 as [|a old new out fresh Hh H IH|a b old new out fresh Hab H IH|b old new out fresh Hh H IH]; intros Ho Hn.
  - split_and!; [constructor|constructor|auto|auto|set_solver|set_solver].
  - apply strict_cons in Ho as [Ho Ha]. destruct (IH Ho Hn) as (I1 & I2 & I3 & I4 & I5 & I6).
    pose proof (head_bound s _ _ Hn Hh) as Hbound. split_and!.
    + apply strict_cons. split; [done|]. intros y Hy. destruct (I3 y Hy); auto.
    + done.
    + intros y. rewrite !elem_of_cons. naive_solver.
    + done.
    + intros k. unfold keys in *. cbn. rewrite !elem_of_cons, I5. tauto.
    + intros k. unfold keys in *. cbn. rewrite not_elem_of_cons, I6. split; [|tauto]. intros [Hk Hno]. split_and!; [done| |done]. intros ->.
      apply list_elem_of_fmap in Hk as (y & Hy & Hy'). specialize (Hbound y Hy'). lia.
  - apply strict_cons in Ho as [Ho Ha]. apply strict_cons in Hn as [Hn Hb]. destruct (IH Ho Hn) as (I1 & I2 & I3 & I4 & I5 & I6). split_and!.
    + apply strict_cons. split; [done|]. intros y Hy. destruct (I3 y Hy) as [?|Hy']; [auto|]. specialize (Hb y Hy'). lia.
    + done.
    + intros y. rewrite !elem_of_cons. naive_solver.
    + intros y. rewrite !elem_of_cons. naive_solver.
    + intros k. unfold keys in *. cbn. rewrite !elem_of_cons, I5, Hab. tauto.
    + intros k. unfold keys in *. cbn. rewrite not_elem_of_cons, elem_of_cons, I6. rewrite Hab. split; [|tauto]. intros [Hk Hno]. split_and!; [tauto| |done]. intros ->.
      apply list_elem_of_fmap in Hk as (y & Hy & Hy'). specialize (Hb y Hy'). lia.
  - apply strict_cons in Hn as [Hn Hb]. destruct (IH Ho Hn) as (I1 & I2 & I3 & I4 & I5 & I6).
    pose proof (head_bound s _ _ Ho Hh) as Hbound. split_and!.
    + apply strict_cons. split; [done|]. intros y Hy. destruct (I3 y Hy); auto.
    + apply strict_cons. split; [done|]. auto.
    + intros y. rewrite !elem_of_cons. naive_solver.
    + intros y. rewrite !elem_of_cons. naive_solver.
    + intros k. unfold keys in *. cbn. rewrite !elem_of_cons, I5. tauto.
    + intros k. unfold keys in *. cbn. rewrite !elem_of_cons, I6. split; [|tauto]. intros [->|?]; [|tauto]. split; [by left|].
      intros Hin. apply list_elem_of_fmap in Hin as (y & Hy & Hy'). specialize (Hbound y Hy'). lia.
Qed.

(** ** The delta relation *)

Definition stored (r : rel) : list row := take (nrows r) (rows r).

(** The storage covers the rows and the capacity claimed. *)
Definition fits (r : rel) : Prop := (nrows r <= capacity r <= length (rows r))%nat.

Lemma length_stored r : fits r -> length (stored r) = nrows r.
Proof. intros [H1 H2]. unfold stored. rewrite length_take. lia. Qed.

Lemma length_resized nc cap l : length (resized nc cap l) = cap.
Proof. unfold resized. rewrite length_app, length_take, length_replicate. lia. Qed.

Lemma take_resized nc cap l n : (n <= length l)%nat -> (n <= cap)%nat -> take n (resized nc cap l) = take n l.
Proof. intros Hl Hc. unfold resized. rewrite take_app_le by (rewrite length_take; lia). rewrite take_take. f_equal. lia. Qed.

(** What an append leaves alone. *)
Record kept (d d' : rel) : Prop := {
  kt_lanes : lanes d' = lanes d;
  kt_merge : merge_columns d' = merge_columns d /\ merge_buf_cap d' = merge_buf_cap d;
  kt_runs : run_count d' = run_count d /\ run_ends d' = run_ends d;
  kt_rows : take (nrows d) (rows d') = take (nrows d) (rows d) }.

(** The rows of [l] were added, up to the sign of zeros. *)
Definition grew (d d' : rel) (l : list row) : Prop :=
  nrows d' = (nrows d + length l)%nat /\ exists l', stored d' = stored d ++ l' /\ keys d l' = keys d l /\ Forall (row_ok d) l'.

Lemma append_row_exact b d x : fits d -> row_ok d x ->
  exists d' rc, col_rel_append_row b d x = Some (d', rc) /\ kept d d' /\ fits d' /\
    ((rc = 0 /\ nrows d' = S (nrows d) /\ stored d' = stored d ++ [canon d x]) \/ (rc = ENOMEM /\ d' = d /\ (b = true -> 2 ^ 31 <= Z.of_nat (nrows d)))).
Proof.
  intros [Hn Hc] Hx. unfold col_rel_append_row. rewrite (cells_valid_ok d x Hx). cbn [mbind option_bind negb].
  set (full := (capacity d <=? nrows d)%nat). set (new_cap := if (capacity d =? 0)%nat then _ else _).
  destruct (full && _) eqn:Hfail.
  { exists d, ENOMEM. split; [done|]. split; [done|]. split; [done|]. right. split; [done|]. split; [done|]. intros ->. apply Znot_gt_le. intros Hlt. unfold full in Hfail. cbn [negb] in Hfail. rewrite orb_false_r in Hfail.
    apply andb_true_iff in Hfail as [Hf Hcap%Nat.leb_le]. apply Nat.leb_le in Hf. unfold new_cap, COL_REL_INIT_CAP in Hcap.
    destruct (Nat.eqb_spec (capacity d) 0); [lia|]. rewrite u32_small in Hcap by mi. lia. }
  set (d1 := if full then _ else d).
  assert (Hd1 : kept d d1 /\ nrows d1 = nrows d /\ (nrows d < capacity d1)%nat /\ (capacity d1 <= length (rows d1))%nat).
  { unfold d1. unfold full in *. destruct (Nat.leb_spec (capacity d) (nrows d)) as [Hf|Hf]; [|done]. cbn [andb] in Hfail.
    apply orb_false_iff in Hfail as [Hcap%Nat.leb_gt _]. cbn. rewrite length_resized. split_and!; [|done|lia|done].
    split; cbn; try done. apply take_resized; lia. }
  clearbody d1. destruct Hd1 as ([Hl Hm1 Hu1 Hst] & Hn1 & Hc1 & Hr1). rewrite <-Hl in Hx.
  rewrite (copy_in_ok d1 (nrows d1) x Hx ltac:(lia)). cbn [mbind option_bind Z.eqb negb].
  eexists _, 0. split; [done|]. split; [split; cbn; try done; by rewrite take_insert_ge by lia|]. unfold fits, stored in *. cbn. rewrite length_insert. split; [lia|].
  left. split; [done|]. split; [lia|]. rewrite Hl. rewrite <-Hst, Hn1.
  rewrite (take_S_r _ _ (canon d x)) by (rewrite list_lookup_insert_eq by lia; done). by rewrite take_insert_ge by lia.
Qed.

Lemma append_row_ok b d x : fits d -> row_ok d x ->
  exists d' rc, col_rel_append_row b d x = Some (d', rc) /\ kept d d' /\ fits d' /\
    (rc = 0 -> grew d d' [x]) /\ (rc <> 0 -> d' = d /\ (b = true -> 2 ^ 31 <= Z.of_nat (nrows d))).
Proof.
  intros Hf Hx. destruct (append_row_exact b d x Hf Hx) as (d' & rc & Ha & Hk & Hfd & H). exists d', rc. split_and!; [done..| |]; (destruct H as [(-> & Hn & Hs)|(-> & H)]; [|done]); [|done].
  intros _. split; [cbn; lia|]. exists [canon d x]. destruct (canon_ok d x Hx) as [Hok Hkey]. split; [done|]. split; [cbn; by rewrite Hkey|by constructor].
Qed.

Lemma grew_app d d1 d2 l1 l2 : lanes d1 = lanes d -> grew d d1 l1 -> grew d1 d2 l2 -> grew d d2 (l1 ++ l2).
Proof.
  intros Hl (Hn1 & x1 & E1 & K1 & F1) (Hn2 & x2 & E2 & K2 & F2). rewrite Hl in K2, F2. split; [rewrite length_app; lia|].
  exists (x1 ++ x2). rewrite E2, E1, <-app_assoc. split; [done|]. unfold keys in *. rewrite !fmap_app, K1, K2. split; [done|]. by apply Forall_app.
Qed.

(** The rows of [l] were reported: all of them, when every append succeeds. *)
Definition reported (e : cons_env) (s : shape) (delta delta' : option rel) (l : list row) : Prop :=
  match delta, delta' with
  | None, None => True
  | Some d, Some d' => lanes d' = s /\ fits d' /\ ((forall n, append_ok e n = true) -> Z.of_nat (nrows d + length l) < 2 ^ 31 -> grew d d' l)
  | _, _ => False
  end.

(** The delta relation has the lanes of the relation. *)
Definition delta_ok (s : shape) (delta : option rel) : Prop := match delta with None => True | Some d => lanes d = s /\ fits d end.

Lemma reported_ok e s delta delta' l : reported e s delta delta' l -> delta_ok s delta'.
Proof. destruct delta, delta'; cbn; tauto. Qed.

Lemma reported_nil e s delta : delta_ok s delta -> reported e s delta delta [].
Proof.
  destruct delta as [d|]; cbn; [|done]. intros [H1 H2]. split_and!; [done..|]. intros _ _. split; [cbn; lia|]. exists []. by rewrite app_nil_r.
Qed.

Lemma reported_app e s delta delta1 delta2 l1 l2 : delta_ok s delta -> reported e s delta delta1 l1 -> reported e s delta1 delta2 l2 ->
  reported e s delta delta2 (l1 ++ l2).
Proof.
  destruct delta as [d|], delta1 as [d1|], delta2 as [d2|]; cbn; try done. intros [Hl Hf] (L1 & F1 & G1) (L2 & F2 & G2).
  split_and!; [done..|]. intros Ha Hn. rewrite length_app in Hn. specialize (G1 Ha ltac:(lia)).
  apply (grew_app d d1 d2); [congruence|exact G1|]. apply G2; [done|]. destruct G1 as [-> _]. lia.
Qed.

Lemma append_delta_ok e s delta x : delta_ok s delta -> row_ok s x ->
  exists delta', append_delta e delta x = Some delta' /\ reported e s delta delta' [x].
Proof.
  intros Hd Hx. destruct delta as [d|]; cbn [append_delta]; [|by exists None]. destruct Hd as [<- Hf].
  destruct (append_row_ok (append_ok e (nrows d)) d x Hf Hx) as (d' & rc & -> & [Hl _ _ _] & Hf' & Hg & He). cbn [mbind option_bind]. exists (Some d').
  split; [done|]. split_and!; [done..|]. intros Ha Hn. apply Hg. destruct (decide (rc = 0)) as [|Hrc]; [done|]. destruct (He Hrc) as [_ Hbig]. specialize (Hbig (Ha _)). cbn in Hn. lia.
Qed.

(** ** Merging into the column buffer *)

Section MergeCols.
Context (e : cons_env) (r : rel) (olds news B : list row).
Hypothesis Hrows : rows r = olds ++ news ++ B.
Hypothesis Hold : Forall (row_ok r) olds.
Hypothesis Hnew : Forall (row_ok r) news.

Lemma old_at O1 a O2 : olds = O1 ++ a :: O2 -> rows r !! length O1 = Some a /\ row_ok r a.
Proof.
  intros ->. split.
  - rewrite Hrows, <-app_assoc. by apply list_lookup_middle.
  - apply Forall_app in Hold as [_ H]. by apply Forall_cons in H as [? _].
Qed.

Lemma new_at N1 b N2 : news = N1 ++ b :: N2 -> rows r !! (length olds + length N1)%nat = Some b /\ row_ok r b.
Proof.
  intros ->. split.
  - rewrite Hrows, (lookup_app_r olds) by lia. rewrite <-app_assoc. apply list_lookup_middle. lia.
  - apply Forall_app in Hnew as [_ H]. by apply Forall_cons in H as [? _].
Qed.

Lemma merge_cols_ok fuel : forall O1 O2 N1 N2 P Q delta, olds = O1 ++ O2 -> news = N1 ++ N2 ->
  (length O2 + length N2 < fuel)%nat -> (length O2 + length N2 <= length Q)%nat -> delta_ok r delta ->
  exists o fresh Q' delta', merge_cols e fuel r (length olds) (length news) (length O1) (length N1) (length P) (P ++ Q) delta =
      Some (P ++ o ++ Q', (length P + length o)%nat, delta') /\
    merges r O2 N2 o fresh /\ reported e r delta delta' fresh /\ (length o + length Q' = length Q)%nat.
Proof.
  induction fuel as [|fuel IH]; intros O1 O2 N1 N2 P Q delta Ho Hn Hf HQ Hd; [lia|]. cbn [merge_cols].
  assert (Hoi : (length O1 <? length olds)%nat = match O2 with [] => false | _ => true end).
  { rewrite Ho, length_app. destruct O2; cbn; [apply Nat.ltb_ge|apply Nat.ltb_lt]; lia. }
  assert (Hdi : (length N1 <? length news)%nat = match N2 with [] => false | _ => true end).
  { rewrite Hn, length_app. destruct N2; cbn; [apply Nat.ltb_ge|apply Nat.ltb_lt]; lia. }
  rewrite Hoi, Hdi. clear Hoi Hdi.
  assert (Hwr : forall x, (0 < length Q)%nat -> exists Q1, wr (P ++ Q) (length P) x = Some ((P ++ [x]) ++ Q1) /\ S (length Q1) = length Q).
  { intros x HQ0. destruct Q as [|q Q]; [cbn in HQ0; lia|]. exists Q. rewrite wr_lt by (rewrite length_app; cbn; lia).
    rewrite insert_app_r_alt, Nat.sub_diag by lia. by rewrite <-app_assoc. }
  (* taking an old row, alone or with its equal *)
  assert (Hto : forall a O2' (skip : bool) N2', O2 = a :: O2' -> (if skip then exists b, N2 = b :: N2' /\ key r a = key r b else N2 = N2' /\ forall b l, N2 = b :: l -> key r a < key r b) ->
    exists o fresh Q' delta', (x ← rd (rows r) (length O1); mb' ← wr (P ++ Q) (length P) x;
       merge_cols e fuel r (length olds) (length news) (S (length O1)) (if skip then S (length N1) else length N1) (S (length P)) mb' delta) =
       Some (P ++ o ++ Q', (length P + length o)%nat, delta') /\ merges r O2 N2 o fresh /\ reported e r delta delta' fresh /\ (length o + length Q' = length Q)%nat).
  { intros a O2' skip N2' -> Hskip. destruct (old_at O1 a O2' Ho) as [Ha Hak]. unfold rd. rewrite Ha. cbn [mbind option_bind].
    destruct (Hwr a) as (Q1 & -> & HQ1); [cbn in HQ; lia|]. cbn [mbind option_bind].
    assert (HN : exists N1', news = N1' ++ N2' /\ length N1' = if skip then S (length N1) else length N1).
    { destruct skip; [destruct Hskip as (b & -> & _); exists (N1 ++ [b]); rewrite length_app, <-app_assoc; cbn; split; [done|lia]|].
      destruct Hskip as [<- _]. by exists N1. }
    destruct HN as (N1' & HN1 & HN2). assert (HlenN : (length N2' <= length N2)%nat) by (destruct skip; [destruct Hskip as (b & -> & _); cbn; lia|destruct Hskip as [-> _]; lia]).
    destruct (IH (O1 ++ [a]) O2' N1' N2' (P ++ [a]) Q1 delta) as (o & fresh & Q' & delta' & Hm & Hmg & Hrep & Hl);
      [rewrite <-app_assoc; done|done|cbn in Hf; lia|cbn in HQ; lia|done|].
    rewrite !length_app, HN2 in Hm. cbn [length] in Hm. rewrite !Nat.add_1_r in Hm. rewrite Hm. exists (a :: o), fresh, Q', delta'.
    split; [f_equal; f_equal; f_equal; [by rewrite <-app_assoc|cbn; lia]|]. split; [|split; [done|cbn; lia]].
    destruct skip; [destruct Hskip as (b & -> & Hab); by apply mg_both|destruct Hskip as [-> Hlt]; by apply mg_old]. }
  (* taking a new row *)
  assert (Htn : forall b N2', N2 = b :: N2' -> (forall a l, O2 = a :: l -> key r b < key r a) ->
    exists o fresh Q' delta', (x ← rd (rows r) (length olds + length N1)%nat; mb' ← wr (P ++ Q) (length P) x; delta1 ← append_delta e delta x;
       merge_cols e fuel r (length olds) (length news) (length O1) (S (length N1)) (S (length P)) mb' delta1) =
       Some (P ++ o ++ Q', (length P + length o)%nat, delta') /\ merges r O2 N2 o fresh /\ reported e r delta delta' fresh /\ (length o + length Q' = length Q)%nat).
  { intros b N2' -> Hlt. destruct (new_at N1 b N2' Hn) as [Hb Hbk]. unfold rd. rewrite Hb. cbn [mbind option_bind].
    destruct (Hwr b) as (Q1 & -> & HQ1); [cbn in HQ; lia|]. cbn [mbind option_bind].
    destruct (append_delta_ok e r delta b Hd Hbk) as (delta1 & -> & Hrep1). cbn [mbind option_bind].
    destruct (IH O1 O2 (N1 ++ [b]) N2' (P ++ [b]) Q1 delta1) as (o & fresh & Q' & delta' & Hm & Hmg & Hrep & Hl);
      [done|rewrite <-app_assoc; done|cbn in Hf; lia|cbn in HQ; lia|by eapply reported_ok|].
    rewrite !length_app in Hm. cbn [length] in Hm. rewrite !Nat.add_1_r in Hm. rewrite Hm. exists (b :: o), (b :: fresh), Q', delta'.
    split; [f_equal; f_equal; f_equal; [by rewrite <-app_assoc|cbn; lia]|]. split; [by apply mg_new|]. split; [|cbn; lia].
    by apply (reported_app e r delta delta1 delta' [b] fresh). }
  destruct O2 as [|a O2], N2 as [|b N2]; cbn [andb].
  - exists [], [], Q, delta. rewrite Nat.add_0_r. split_and!; [done|constructor|by apply reported_nil|done].
  - by apply (Htn b N2).
  - by apply (Hto a O2 false []).
  - destruct (old_at O1 a O2 Ho) as [Ha Hak]. destruct (new_at N1 b N2 Hn) as [Hb Hbk]. rewrite (row_cmp_key r _ _ a b Ha Hb Hak Hbk). cbn [mbind option_bind].
    destruct (three_way_cases (key r a) (key r b)) as [[H3 ->]|[[H3 ->]|[H3 ->]]]; cbn [Z.ltb Z.eqb Z.compare].
    + apply (Hto a O2 false (b :: N2)); [done|]. split; [done|]. intros ? ? [= <- _]. done.
    + apply (Hto a O2 true N2); [done|]. by exists b.
    + apply (Htn b N2); [done|]. intros ? ? [= <- _]. done.
Qed.

End MergeCols.
