(* ===== verification/HeapProof.v ===== *)
(** * Correctness of the min-heap merge

    The heap of cursors into sorted segments of merge.c, for the plain
    comparison of the k-way merge and for the comparison by leading keys of the
    run compaction. *)

From stdpp Require Import sorting.
From S2P Require Import Prelude RadixSort Relation RelSort Consolidate ConsolidateProof.

Import Keys Rel RelSort Consolidate.

#[export] Instance entry_inhabited : Inhabited entry := populate (E 0 0 0).

Section HeapOrder.
Context (lt le : entry -> entry -> option bool) (kf : entry -> Z) (good : entry -> Prop).
Hypothesis Hlt : forall a b, good a -> good b -> lt a b = Some (kf a <? kf b).
Hypothesis Hle : forall a b, good a -> good b -> le a b = Some (kf a <=? kf b).

Definition child (q c : nat) : Prop := c = (2 * q + 1)%nat \/ c = (2 * q + 2)%nat.

(** Parents from [lo] on are at most their children, among the first [n]. *)
Definition heap_from (lo n : nat) (h : list entry) : Prop :=
  forall q c, (lo <= q)%nat -> (c < n)%nat -> child q c -> kf (h !!! q) <= kf (h !!! c).

(** The same except for the children of [p], which its parent bounds. *)
Definition heap_hole (lo n p : nat) (h : list entry) : Prop :=
  (forall q c, (lo <= q)%nat -> (c < n)%nat -> child q c -> q <> p -> kf (h !!! q) <= kf (h !!! c)) /\
  (forall q c, (lo <= q)%nat -> (c < n)%nat -> child q p -> child p c -> kf (h !!! q) <= kf (h !!! c)).

(** Exchanging two entries. *)
Lemma swap_perm (h : list entry) p c : (p < length h)%nat -> (c < length h)%nat ->
  <[c := h !!! p]> (<[p := h !!! c]> h) ≡ₚ h.
Proof.
  intros Hp Hc. destruct (decide (p = c)) as [->|Hne].
  - rewrite list_insert_insert_eq, list_insert_id; [done|]. by apply list_lookup_lookup_total_lt.
  - symmetry. apply Permutation_inj. split; [by rewrite !length_insert|].
    exists (fun i => if decide (i = p) then c else if decide (i = c) then p else i). split.
    + intros i j. repeat case_decide; lia.
    + intros i. repeat case_decide; subst.
      * rewrite list_lookup_insert_eq by (by rewrite length_insert). by rewrite list_lookup_lookup_total_lt.
      * rewrite list_lookup_insert_ne, list_lookup_insert_eq by done. by rewrite list_lookup_lookup_total_lt.
      * by rewrite !list_lookup_insert_ne by done.
Qed.

Lemma sift_down_ok fuel n : forall h p lo, (n <= length h)%nat -> (lo <= p < n)%nat -> (n < fuel + p)%nat -> Forall good (take n h) -> heap_hole lo n p h ->
  exists h', sift_down lt le fuel h n p = Some h' /\ h' ≡ₚ h /\ drop n h' = drop n h /\ heap_from lo n h'.
Proof.
  induction fuel as [|fuel IH]; intros h p lo Hn Hp Hf Hg [H1 H2]; [lia|]. cbn [sift_down].
  assert (Hgood : forall i, (i < n)%nat -> good (h !!! i)).
  { intros i Hi. eapply Forall_lookup_1; [exact Hg|]. rewrite lookup_take_lt by done. apply list_lookup_lookup_total_lt. lia. }
  destruct (Nat.ltb_spec (2 * p + 1) n) as [Hc|Hc].
  2:{ exists h. split_and!; [done..|]. intros q c Hq Hcn Hch. destruct (decide (q = p)) as [->|]; [destruct Hch; lia|by apply H1]. }
  rewrite (rd_total h (2 * p + 1)), (rd_total h p) by lia. cbn [mbind option_bind].
  assert (exists c, (if (2 * p + 1 + 1 <? n)%nat then er ← rd h (2 * p + 1 + 1); lt er (h !!! (2 * p + 1)%nat) else Some false) =
      Some (bool_decide (c = (2 * p + 2)%nat)) /\ child p c /\ (c < n)%nat /\ forall c', child p c' -> (c' < n)%nat -> kf (h !!! c) <= kf (h !!! c'))
    as (c & -> & Hch & Hcn & Hmin).
  { destruct (Nat.ltb_spec (2 * p + 1 + 1) n) as [Hr|Hr].
    - rewrite rd_total by lia. cbn [mbind option_bind]. rewrite Hlt by (apply Hgood; lia). replace (2 * p + 1 + 1)%nat with (2 * p + 2)%nat by lia.
      destruct (Z.ltb_spec (kf (h !!! (2 * p + 2)%nat)) (kf (h !!! (2 * p + 1)%nat))) as [Hl|Hl].
      + exists (2 * p + 2)%nat. rewrite bool_decide_eq_true_2 by done. split_and!; [done|by right|lia|]. intros c' [->| ->] _; lia.
      + exists (2 * p + 1)%nat. rewrite bool_decide_eq_false_2 by lia. split_and!; [done|by left|lia|]. intros c' [->| ->] _; lia.
    - exists (2 * p + 1)%nat. rewrite bool_decide_eq_false_2 by lia. split_and!; [done|by left|lia|]. intros c' [->| ->] ?; lia. }
  cbn [mbind option_bind].
  assert (Hcc : (if bool_decide (c = 2 * p + 2) then 2 * p + 1 + 1 else 2 * p + 1)%nat = c) by (case_bool_decide; destruct Hch; lia).
  rewrite Hcc, rd_total by lia. cbn [mbind option_bind]. rewrite Hle by (apply Hgood; lia). cbn [mbind option_bind].
  destruct (Z.leb_spec (kf (h !!! p)) (kf (h !!! c))) as [Hpc|Hpc].
  { exists h. split_and!; [done..|]. intros q c' Hq Hc' Hch'. destruct (decide (q = p)) as [->|]; [|by apply H1]. specialize (Hmin c' Hch' Hc'). lia. }
  assert (Hpc' : (p < c)%nat) by (destruct Hch; lia).
  rewrite wr_lt by lia. cbn [mbind option_bind]. rewrite wr_lt by (rewrite length_insert; lia). cbn [mbind option_bind].
  set (h2 := <[c := h !!! p]> (<[p := h !!! c]> h)). pose proof (swap_perm h p c ltac:(lia) ltac:(lia)) as Hperm. fold h2 in Hperm.
  assert (Hat : forall i, h2 !!! i = if decide (i = c) then h !!! p else if decide (i = p) then h !!! c else h !!! i).
  { intros i. unfold h2. rewrite upd_total by (rewrite length_insert; lia). by rewrite upd_total by lia. }
  assert (Hdrop : drop n h2 = drop n h) by (unfold h2; by rewrite !drop_insert_lt by lia).
  destruct (IH h2 c lo) as (h' & Hs & Hp' & Hd' & Hh').
  - rewrite (Permutation_length Hperm). done.
  - lia.
  - lia.
  - apply Forall_forall. intros x Hx. apply list_elem_of_lookup in Hx as [i Hi]. pose proof (lookup_lt_Some _ _ _ Hi) as Hil. rewrite length_take in Hil.
    rewrite lookup_take_lt in Hi by lia. apply list_lookup_total_correct in Hi. rewrite Hat in Hi. subst x. repeat case_decide; apply Hgood; lia.
  - split.
    + intros q c' Hq Hc' Hch' Hqc. rewrite !Hat. rewrite (decide_False (P := q = c)) by done.
      destruct (decide (q = p)) as [->|Hqp].
      * destruct (decide (c' = c)) as [->|Hne]; [lia|]. rewrite decide_False by (destruct Hch'; lia). by apply Hmin.
      * rewrite (decide_False (P := c' = c)) by (unfold child in *; lia). destruct (decide (c' = p)) as [->|]; [by eapply H2|by apply H1].
    + intros q c' Hq Hc' Hqc Hcc'. assert (q = p) as -> by (unfold child in *; lia). rewrite !Hat.
      rewrite (decide_False (P := p = c)) by lia. rewrite decide_True by done. rewrite !decide_False by (unfold child in *; lia).
      apply H1; [lia|done|done|lia].
  - exists h'. split_and!; [done| | |done]; [by rewrite Hp'|by rewrite Hd'].
Qed.

Lemma heapify_ok n m : forall h, (n <= length h)%nat -> (m <= n / 2)%nat -> Forall good (take n h) -> heap_from m n h ->
  exists h', heapify lt le m h n = Some h' /\ h' ≡ₚ h /\ drop n h' = drop n h /\ Forall good (take n h') /\ heap_from 0 n h'.
Proof.
  induction m as [|i IH]; intros h Hn Hm Hg Hh; cbn [heapify]; [by exists h|].
  assert (Hin : (i < n)%nat) by (pose proof (Nat.div_lt n 2); destruct n; cbn in *; lia).
  destruct (sift_down_ok (S n) n h i i Hn ltac:(lia) ltac:(lia) Hg) as (h1 & -> & Hp1 & Hd1 & Hh1).
  { split; [intros q c Hq Hc Hch Hne; apply Hh; [lia|done|done]|]. intros q c Hq Hc Hqi _. unfold child in Hqi. lia. }
  cbn [mbind option_bind]. assert (Hg1 : take n h1 ≡ₚ take n h).
  { apply (Permutation_app_inv_r (drop n h)). rewrite <-Hd1 at 1. by rewrite !take_drop. }
  destruct (IH h1) as (h' & -> & Hp' & Hd' & Hg' & Hh'); [by rewrite (Permutation_length Hp1)|lia|by rewrite Hg1|done|].
  exists h'. split_and!; [done|by rewrite Hp'|by rewrite Hd'|done|done].
Qed.

(** The root is the least entry. *)
Lemma root_least n h i : heap_from 0 n h -> (i < n)%nat -> kf (h !!! 0%nat) <= kf (h !!! i).
Proof.
  intros Hh. induction i as [i IH] using lt_wf_ind. intros Hi. destruct i as [|i]; [lia|].
  assert (Hch : child (i / 2) (S i)) by (unfold child; pose proof (Nat.div_mod_eq i 2); pose proof (Nat.mod_upper_bound i 2); lia).
  pose proof (Hh (i / 2)%nat (S i) ltac:(lia) Hi Hch). pose proof (Nat.Div0.div_le_upper_bound i 2 i ltac:(lia)).
  specialize (IH (i / 2)%nat ltac:(lia) ltac:(lia)). lia.
Qed.

End HeapOrder.

(** ** Emitting rows *)

Lemma emit_new_ok (r : rel) cap idx x out : rows r !! idx = Some x -> row_ok r x -> strict r out -> Forall (row_ok r) out ->
  (forall y, y ∈ out -> key r y <= key r x) -> (length out < cap)%nat ->
  exists out', emit_new r cap idx out = Some out' /\ strict r out' /\ Forall (row_ok r) out' /\
    (forall k, k ∈ keys r out' <-> k ∈ keys r out \/ k = key r x) /\ (forall y, y ∈ out' -> key r y <= key r x) /\
    (length out' <= S (length out))%nat /\ (forall y, y ∈ out' -> y ∈ out \/ y = x).
Proof.
  intros Hidx Hx Hs Hok Hle Hcap. unfold emit_new, rd. rewrite Hidx. cbn [mbind option_bind].
  assert (Hadd : (forall y, y ∈ out -> key r y < key r x) -> strict r (out ++ [x]) /\ Forall (row_ok r) (out ++ [x]) /\
    (forall k, k ∈ keys r (out ++ [x]) <-> k ∈ keys r out \/ k = key r x) /\ (forall y, y ∈ out ++ [x] -> key r y <= key r x) /\
    (length (out ++ [x]) <= S (length out))%nat /\ (forall y, y ∈ out ++ [x] -> y ∈ out \/ y = x)).
  { intros Hlt. split_and!.
    - apply strict_app. split_and!; [done|by repeat constructor|]. intros a b Ha ->%list_elem_of_singleton. by apply Hlt.
    - apply Forall_app. split; [done|by constructor].
    - intros k. unfold keys. rewrite fmap_app, elem_of_app. cbn. by rewrite list_elem_of_singleton.
    - intros y [Hy| ->%list_elem_of_singleton]%elem_of_app; [by apply Hle|lia].
    - rewrite length_app. cbn. lia.
    - intros y [Hy| ->%list_elem_of_singleton]%elem_of_app; auto. }
  rewrite (proj2 (Nat.ltb_lt _ _) Hcap). destruct (last out) as [y|] eqn:Hlast.
  - pose proof Hlast as Hy. apply last_Some in Hy as [l ->]. apply Forall_app in Hok as [Hokl Hoky%Forall_inv].
    rewrite (row_cmp_raw_key r idx x y Hidx Hx Hoky). cbn [mbind option_bind].
    assert (Hyx : key r y <= key r x) by (apply Hle, elem_of_app; right; left).
    apply strict_app in Hs as (Hsl & Hsy & Hly).
    destruct (three_way_cases (key r x) (key r y)) as [[? _]|[[Heq ->]|[Hgt ->]]]; [lia| |]; cbn [Z.eqb].
    + eexists. split; [done|]. split_and!; [by apply strict_app|apply Forall_app; split; [done|by constructor]| |done|lia|by left].
      intros k. split; [by left|]. intros [?| ->]; [done|]. unfold keys. rewrite fmap_app, elem_of_app. right. cbn. rewrite Heq. left.
    + eexists. split; [done|]. apply Hadd. intros z [Hz| ->%list_elem_of_singleton]%elem_of_app; [|lia]. specialize (Hly z y Hz ltac:(left)). lia.
  - cbn [mbind option_bind]. apply last_None in Hlast as ->. eexists. split; [done|]. apply Hadd. intros y Hy. by apply not_elem_of_nil in Hy.
Qed.

(** ** The extraction loop *)

Section Extract.
Context (r : rel) (lt le : entry -> entry -> option bool) (lead : nat -> option Z) (cap : nat).

(** The rows that an entry has still to give. *)
Definition rest_rows (x : entry) : list row := take (seg_end x - cursor x) (drop (cursor x) (rows r)).
Definition kf (x : entry) : Z := key r (rows r !!! cursor x).

Record good (x : entry) : Prop := {
  gd_range : (cursor x < seg_end x <= length (rows r))%nat;
  gd_ok : Forall (row_ok r) (rest_rows x);
  gd_strict : strict r (rest_rows x);
  gd_lead : lead (cursor x) = Some (lead_key x) }.

Hypothesis Hlt : forall a b, good a -> good b -> lt a b = Some (kf a <? kf b).
Hypothesis Hle : forall a b, good a -> good b -> le a b = Some (kf a <=? kf b).
Hypothesis Hlead : forall i x, rows r !! i = Some x -> row_ok r x -> is_Some (lead i).

Lemma rest_cons x : (cursor x < seg_end x <= length (rows r))%nat ->
  rows r !! cursor x = Some (rows r !!! cursor x) /\
  rest_rows x = (rows r !!! cursor x) :: take (seg_end x - S (cursor x)) (drop (S (cursor x)) (rows r)).
Proof.
  intros Hx. pose proof (list_lookup_lookup_total_lt (rows r) (cursor x) ltac:(lia)) as Hl. split; [done|]. unfold rest_rows.
  rewrite (drop_S _ _ _ Hl). replace (seg_end x - cursor x)%nat with (S (seg_end x - S (cursor x))) by lia. done.
Qed.

Definition remaining (h : list entry) : list row := concat (rest_rows <$> h).

Lemma remaining_perm h h' : h ≡ₚ h' -> remaining h ≡ₚ remaining h'.
Proof.
  unfold remaining. induction 1 as [|x l l' _ IH|x y l|l1 l2 l3 _ IH1 _ IH2]; cbn; [done|by rewrite IH| |by etrans].
  rewrite !app_assoc. by rewrite (Permutation_app_comm (rest_rows y)).
Qed.

(** The head of the least entry is the least remaining row. *)
Lemma least_remaining h n y : (n <= length h)%nat -> Forall good (take n h) -> heap_from kf 0 n h -> y ∈ remaining (take n h) -> kf (h !!! 0%nat) <= key r y.
Proof.
  intros Hn Hg Hh Hy. unfold remaining in Hy. rewrite list_elem_of_In, in_concat in Hy. destruct Hy as (l & Hl & Hy).
  apply list_elem_of_In in Hl, Hy. apply list_elem_of_fmap in Hl as (x & -> & Hx). apply list_elem_of_lookup in Hx as [i Hi].
  pose proof (lookup_lt_Some _ _ _ Hi) as Hil. rewrite length_take in Hil. assert (Hgx : good x) by (by eapply Forall_lookup_1).
  rewrite lookup_take_lt in Hi by lia. apply list_lookup_total_correct in Hi as <-.
  pose proof (root_least kf n h i Hh ltac:(lia)). destruct (rest_cons _ (gd_range _ Hgx)) as [_ Hrc]. pose proof (gd_strict _ Hgx) as Hs. rewrite Hrc in Hs, Hy.
  apply strict_cons in Hs as [_ Hs]. unfold kf in *. apply elem_of_cons in Hy as [->|Hy]; [lia|]. specialize (Hs y Hy). lia.
Qed.

(** Advancing the least entry: its row goes, the rest stays. *)
Lemma heap_advance_ok h n x : h !! 0%nat = Some x -> (0 < n <= length h)%nat -> Forall good (take n h) -> heap_from kf 0 n h ->
  exists h' n', (if (seg_end x <=? S (cursor x))%nat then y ← rd h (n - 1); h1 ← wr h 0 y; Some (h1, (n - 1)%nat)
      else k ← lead (S (cursor x)); h1 ← wr h 0 (E (S (cursor x)) (seg_end x) k); Some (h1, n)) = Some (h', n') /\
    (n' <= length h')%nat /\ Forall good (take n' h') /\ heap_hole kf 0 n' 0 h' /\
    remaining (take n h) ≡ₚ rows r !!! cursor x :: remaining (take n' h').
Proof.
  intros Hx Hn Hg Hh. destruct h as [|x0 h]; [done|]. cbn in Hx. assert (x0 = x) as -> by (by injection Hx). clear Hx.
  destruct n as [|n]; [lia|]. cbn [take] in Hg. apply Forall_cons in Hg as [Hgx Hg]. destruct (rest_cons x (gd_range _ Hgx)) as [Hrow Hrc].
  assert (Hhole : forall z m, (m <= S n)%nat -> heap_hole kf 0 m 0 (z :: h)).
  { intros z m Hm. split.
    - intros [|q] c Hq Hc Hch Hne; [done|]. destruct c as [|c]; [unfold child in Hch; lia|]. apply (Hh (S q) (S c)); [lia|lia|done].
    - intros q c Hq Hc Hch _. unfold child in Hch. lia. }
  destruct (Nat.leb_spec (seg_end x) (S (cursor x))) as [Hend|Hend].
  - assert (Hsub : rest_rows x = [rows r !!! cursor x]) by (rewrite Hrc; replace (seg_end x - S (cursor x))%nat with 0%nat by lia; done).
    replace (S n - 1)%nat with n by lia. destruct (lookup_lt_is_Some_2 (x :: h) n ltac:(cbn in Hn |- *; lia)) as [y Hy]. unfold rd. rewrite Hy. cbn [mbind option_bind].
    rewrite wr_lt by (cbn; lia). cbn [mbind option_bind]. exists (y :: h), n. split; [done|]. split; [cbn in Hn |- *; lia|].
    assert (Hp : take n h ≡ₚ take n (y :: h)).
    { destruct n as [|n]; [done|]. cbn [lookup list_lookup] in Hy. rewrite (take_S_r h n y) by done. symmetry. apply Permutation_cons_append. }
    split_and!.
    + by rewrite <-Hp.
    + apply Hhole. lia.
    + cbn [take]. unfold remaining. cbn [fmap list_fmap concat]. rewrite Hsub. cbn [app]. constructor. by apply remaining_perm.
  - assert (Hlk : exists y, rows r !! S (cursor x) = Some y /\ row_ok r y).
    { destruct (lookup_lt_is_Some_2 (rows r) (S (cursor x)) ltac:(destruct (gd_range _ Hgx); lia)) as [y Hy]. exists y. split; [done|].
      pose proof (gd_ok _ Hgx) as Hok. rewrite Hrc, (drop_S _ _ _ Hy) in Hok. replace (seg_end x - S (cursor x))%nat with (S (seg_end x - S (S (cursor x)))) in Hok by lia.
      cbn in Hok. by inversion Hok as [|? ? _ Hok']; inversion Hok'. }
    destruct Hlk as (y & Hy & Hoky). destruct (Hlead _ _ Hy Hoky) as [k Hk]. rewrite Hk. cbn [mbind option_bind]. rewrite wr_lt by (cbn; lia). cbn [mbind option_bind].
    set (x' := E (S (cursor x)) (seg_end x) k). exists (x' :: h), (S n). split; [done|]. split; [cbn in Hn |- *; lia|].
    assert (Hr' : rest_rows x' = take (seg_end x - S (cursor x)) (drop (S (cursor x)) (rows r))) by done.
    split_and!; [|by apply Hhole|].
    + cbn [take]. constructor; [|done]. pose proof (gd_ok _ Hgx) as Hok. pose proof (gd_strict _ Hgx) as Hs. rewrite Hrc in Hok, Hs.
      split; [cbn; destruct (gd_range _ Hgx); lia|rewrite Hr'; by inversion Hok|rewrite Hr'; by apply strict_cons in Hs as [? _]|done].
    + cbn [take]. unfold remaining. cbn [fmap list_fmap concat]. rewrite Hrc, Hr'. done.
Qed.

Lemma extract_ok fuel : forall h n out, (n <= length h)%nat -> Forall good (take n h) -> heap_from kf 0 n h ->
  (length (remaining (take n h)) < fuel)%nat -> (length out + length (remaining (take n h)) <= cap)%nat ->
  strict r out -> Forall (row_ok r) out -> (forall y z, y ∈ out -> z ∈ remaining (take n h) -> key r y <= key r z) ->
  exists out', extract fuel lt le lead r cap h n out = Some out' /\ strict r out' /\ Forall (row_ok r) out' /\
    (forall k, k ∈ keys r out' <-> k ∈ keys r out \/ k ∈ keys r (remaining (take n h))) /\
    (length out' <= length out + length (remaining (take n h)))%nat /\
    (forall y, y ∈ out' -> y ∈ out \/ y ∈ remaining (take n h)).
Proof.
  induction fuel as [|fuel IH]; intros h n out Hn Hg Hh Hf Hcap Hs Hok Hle'; [lia|]. cbn [extract].
  destruct (Nat.eqb_spec n 0) as [->|Hn0].
  { exists out. cbn. split_and!; [done..| |lia|by left]. intros k. unfold keys. cbn. split; [by left|]. intros [?|?]; [done|]. by apply not_elem_of_nil in H. }
  rewrite (rd_total h 0) by lia. cbn [mbind option_bind]. set (x := h !!! 0%nat).
  assert (Hgx : good x) by (apply (Forall_lookup_1 _ (take n h) 0 x Hg); rewrite lookup_take_lt by lia; apply list_lookup_lookup_total_lt; lia).
  destruct (rest_cons x (gd_range _ Hgx)) as [Hrow Hrc].
  assert (Hokx : row_ok r (rows r !!! cursor x)) by (pose proof (gd_ok _ Hgx) as Hokx; rewrite Hrc in Hokx; by inversion Hokx).
  destruct (heap_advance_ok h n x) as (h1 & n1 & Hadv & Hn1 & Hg1 & Hh1 & Hperm); [apply list_lookup_lookup_total_lt; lia|lia|done..|].
  set (row0 := rows r !!! cursor x) in *.
  assert (Hrem : forall z, z ∈ remaining (take n h) <-> z = row0 \/ z ∈ remaining (take n1 h1)) by (intros z; rewrite Hperm; apply elem_of_cons).
  pose proof (Permutation_length Hperm) as Hlen. cbn [length] in Hlen.
  destruct (emit_new_ok r cap (cursor x) row0 out Hrow Hokx Hs Hok) as (out1 & -> & Hs1 & Hok1 & Hk1 & Hle1 & Hl1 & Hin1).
  { intros y Hy. apply Hle'; [done|]. apply Hrem. by left. } { lia. }
  cbn [mbind option_bind]. rewrite Hadv. cbn [mbind option_bind].
  assert (exists h2, (if (0 <? n1)%nat then sift_down lt le (S n1) h1 n1 0 else Some h1) = Some h2 /\ (n1 <= length h2)%nat /\
    take n1 h2 ≡ₚ take n1 h1 /\ heap_from kf 0 n1 h2) as (h2 & -> & Hn2 & Hp2 & Hh2).
  { destruct (Nat.ltb_spec 0 n1) as [Hpos|Hz].
    - destruct (sift_down_ok lt le kf good Hlt Hle (S n1) n1 h1 0 0 Hn1 ltac:(lia) ltac:(lia) Hg1 Hh1) as (h2 & -> & Hp & Hd & Hh2).
      exists h2. split; [done|]. split; [by rewrite (Permutation_length Hp)|]. split; [|done].
      apply (Permutation_app_inv_r (drop n1 h1)). rewrite <-Hd at 1. by rewrite !take_drop.
    - exists h1. split_and!; [done..|]. intros q c _ Hc. lia. }
  cbn [mbind option_bind]. pose proof (remaining_perm _ _ Hp2) as Hrp. pose proof (Permutation_length Hrp) as Hrl.
  assert (Hmin : forall z, z ∈ remaining (take n1 h1) -> key r row0 <= key r z).
  { intros z Hz. apply (least_remaining h n z); [lia|done..|]. apply Hrem. by right. }
  destruct (IH h2 n1 out1) as (out' & -> & Hs' & Hok' & Hk' & Hl' & Hin'); [done|by rewrite Hp2|done|lia|lia|done|done| |].
  { intros y z Hy Hz. rewrite Hrp in Hz. specialize (Hmin z Hz). specialize (Hle1 y Hy). lia. }
  exists out'. split_and!; [done..| | |].
  - intros k. rewrite Hk', Hk1. unfold keys. rewrite Hrp, Hperm. cbn. rewrite elem_of_cons. tauto.
  - lia.
  - intros y Hy. destruct (Hin' y Hy) as [Hy1|Hy1].
    + destruct (Hin1 y Hy1) as [?| ->]; [by left|]. right. apply Hrem. by left.
    + right. apply Hrem. right. by rewrite <-Hrp.
Qed.

End Extract.

(** ** The whole merge *)

Definition slice (r : rel) (s e : nat) : list row := take (e - s) (drop s (rows r)).

Record seg_ok (r : rel) (sg : nat * nat) : Prop := {
  so_range : (sg.1 <= sg.2 <= length (rows r))%nat;
  so_ok : Forall (row_ok r) (slice r sg.1 sg.2);
  so_strict : strict r (slice r sg.1 sg.2) }.

Definition slices (r : rel) (segs : list (nat * nat)) : list row := concat ((fun sg => slice r sg.1 sg.2) <$> segs).

Lemma length_slice r s e : (s <= e <= length (rows r))%nat -> length (slice r s e) = (e - s)%nat.
Proof. intros H. unfold slice. rewrite length_take, length_drop. lia. Qed.

Section Merge.
Context (r : rel) (lt le : entry -> entry -> option bool) (lead : nat -> option Z).
Hypothesis Hlt : forall a b, good r lead a -> good r lead b -> lt a b = Some (kf r a <? kf r b).
Hypothesis Hle : forall a b, good r lead a -> good r lead b -> le a b = Some (kf r a <=? kf r b).
Hypothesis Hlead : forall i x, rows r !! i = Some x -> row_ok r x -> is_Some (lead i).

Lemma entries_ok segs : Forall (seg_ok r) segs ->
  exists h, entries lead segs = Some h /\ Forall (good r lead) h /\ remaining r h = slices r segs.
Proof.
  induction 1 as [|[s e] segs [Hr Hok Hs] _ IH]; [by exists []|]. destruct IH as (h & Hh & Hg & Hrem). unfold entries in Hh |- *. cbn [foldr]. rewrite Hh.
  cbn [mbind option_bind]. cbn [fst snd] in *. change (slices r ((s, e) :: segs)) with (slice r s e ++ slices r segs). rewrite <-Hrem.
  destruct (Nat.ltb_spec s e) as [Hlt'|Hge]; cbn [mbind option_bind].
  - assert (Hx : exists x, rows r !! s = Some x /\ row_ok r x).
    { destruct (lookup_lt_is_Some_2 (rows r) s ltac:(lia)) as [x Hx]. exists x. split; [done|]. unfold slice in Hok. rewrite (drop_S _ _ _ Hx) in Hok.
      replace (e - s)%nat with (S (e - s - 1)) in Hok by lia. cbn [take] in Hok. by inversion Hok. }
    destruct Hx as (x & Hx & Hokx). destruct (Hlead s x Hx Hokx) as [k Hk]. rewrite Hk. cbn [mbind option_bind]. eexists. split; [done|]. split.
    + constructor; [|done]. split; cbn; [lia|exact Hok|exact Hs|done].
    + unfold remaining. cbn [fmap list_fmap concat]. done.
  - exists h. split_and!; [done..|]. assert (slice r s e = []) as -> by (unfold slice; replace (e - s)%nat with 0%nat by lia; done). done.
Qed.

Lemma total_length segs : Forall (seg_ok r) segs -> foldr (fun '(s, e) n => ((e - s) + n)%nat) O segs = length (slices r segs).
Proof.
  induction 1 as [|[s e] segs [Hr _ _] _ IH]; [done|]. cbn [foldr]. change (slices r ((s, e) :: segs)) with (slice r s e ++ slices r segs).
  by rewrite length_app, (length_slice r s e), IH by done.
Qed.

Lemma heap_merge_ok cap segs : Forall (seg_ok r) segs -> (length (slices r segs) <= cap)%nat ->
  exists out, heap_merge lt le lead r cap segs = Some out /\ strict r out /\ Forall (row_ok r) out /\
    (forall k, k ∈ keys r out <-> k ∈ keys r (slices r segs)) /\ (length out <= length (slices r segs))%nat /\
    (forall y, y ∈ out -> y ∈ slices r segs).
Proof.
  intros Hs Hcap. unfold heap_merge. destruct (entries_ok segs Hs) as (h & -> & Hg & Hrem). cbn [mbind option_bind].
  assert (exists h', (if (1 <? length h)%nat then heapify lt le (length h / 2) h (length h) else Some h) = Some h' /\ h' ≡ₚ h /\ heap_from (kf r) 0 (length h) h')
    as (h' & -> & Hp & Hh).
  { destruct (Nat.ltb_spec 1 (length h)) as [Hl|Hl].
    - destruct (heapify_ok lt le (kf r) (good r lead) Hlt Hle (length h) (length h / 2) h) as (h' & -> & Hp & _ & _ & Hh); [done|done|by rewrite take_ge by done| |by exists h'].
      intros q c Hq Hc Hch. pose proof (Nat.div_mod_eq (length h) 2). pose proof (Nat.mod_upper_bound (length h) 2). unfold child in Hch. lia.
    - exists h. split_and!; [done..|]. intros q c _ Hc Hch. unfold child in Hch. lia. }
  cbn [mbind option_bind]. pose proof (Permutation_length Hp) as Hlen. pose proof (remaining_perm r _ _ Hp) as Hrp. rewrite Hrem in Hrp.
  assert (Hrl : length (remaining r (take (length h) h')) = length (slices r segs)) by (rewrite take_ge by lia; by apply Permutation_length).
  destruct (extract_ok r lt le lead cap Hlt Hle Hlead (S (foldr (fun '(s, e) n => ((e - s) + n)%nat) O segs)) h' (length h) [])
    as (out & -> & H1 & H2 & H3 & H4 & H5).
  - lia.
  - rewrite take_ge by lia. by rewrite Hp.
  - done.
  - rewrite (total_length segs Hs), Hrl. lia.
  - cbn. lia.
  - constructor.
  - done.
  - intros y z Hy. by apply not_elem_of_nil in Hy.
  - rewrite take_ge in H3, H4, H5 by lia. exists out. split_and!; [done..| | |].
    + intros k. rewrite H3. unfold keys. rewrite Hrp. cbn. rewrite elem_of_nil. tauto.
    + rewrite (Permutation_length Hrp) in H4. exact H4.
    + intros y Hy. destruct (H5 y Hy) as [Hy'|Hy']; [by apply not_elem_of_nil in Hy'|by rewrite <-Hrp].
Qed.

End Merge.

(** ** The two comparisons *)

Lemma good_row r lead a : good r lead a -> rows r !! cursor a = Some (rows r !!! cursor a) /\ row_ok r (rows r !!! cursor a).
Proof.
  intros Hg. destruct (rest_cons r a (gd_range _ _ _ Hg)) as [H1 H2]. split; [done|]. pose proof (gd_ok _ _ _ Hg) as H. rewrite H2 in H. by inversion H.
Qed.

Lemma row_cmp_entries r lead a b : good r lead a -> good r lead b -> col_rel_row_cmp r (cursor a) (cursor b) = Some (three_way (kf r a) (kf r b)).
Proof. intros Ha Hb. destruct (good_row _ _ _ Ha), (good_row _ _ _ Hb). by apply row_cmp_key. Qed.

Lemma three_way_lt a b : (three_way a b <? 0) = (a <? b).
Proof. destruct (three_way_cases a b) as [[H ->]|[[H ->]|[H ->]]]; cbn; symmetry; [apply Z.ltb_lt|apply Z.ltb_ge|apply Z.ltb_ge]; lia. Qed.

Lemma three_way_le a b : (three_way a b <=? 0) = (a <=? b).
Proof. destruct (three_way_cases a b) as [[H ->]|[[H ->]|[H ->]]]; cbn; symmetry; [apply Z.leb_le|apply Z.leb_le|apply Z.leb_gt]; lia. Qed.

Lemma row_lt_ok r lead a b : good r lead a -> good r lead b -> row_lt r a b = Some (kf r a <? kf r b).
Proof. intros Ha Hb. unfold row_lt. rewrite (row_cmp_entries r lead a b Ha Hb). cbn. by rewrite three_way_lt. Qed.

Lemma row_le_ok r lead a b : good r lead a -> good r lead b -> row_le r a b = Some (kf r a <=? kf r b).
Proof. intros Ha Hb. unfold row_le. rewrite (row_cmp_entries r lead a b Ha Hb). cbn. by rewrite three_way_le. Qed.

(** The leading cells decide when they differ, unless they are floats. *)
Definition int_lead (s : shape) : Prop := (0 < ncols s)%nat /\ exists ty, column_type_at s 0 = Some ty /\ is_float ty = false.

Lemma lead_decides (s : shape) x y : int_lead s -> row_ok s x -> row_ok s y -> x !!! 0%nat < y !!! 0%nat -> key s x < key s y.
Proof.
  intros (Hn & ty & Hty & Hf) Hx Hy Hlt. unfold key. destruct (ncols s) as [|n] eqn:Hnc; [lia|]. cbn [key_from]. rewrite Hty. cbn [default].
  pose proof (key_from_range s x n 1 Hx ltac:(lia)). pose proof (key_from_range s y n 1 Hy ltac:(lia)). unfold digit, rank, id. rewrite Hf. nia.
Qed.

Lemma lead_of (r : rel) a : int_lead r -> good r (lead_col r) a -> lead_key a = rows r !!! cursor a !!! 0%nat.
Proof.
  intros Hi Hg. destruct (good_row _ _ _ Hg) as [H1 H2]. pose proof (gd_lead _ _ _ Hg) as Hl. unfold lead_col, rd in Hl. rewrite H1 in Hl. cbn [mbind option_bind] in Hl.
  symmetry. by apply list_lookup_total_correct.
Qed.

Lemma compact_cmp_ok (r : rel) a b : int_lead r -> good r (lead_col r) a -> good r (lead_col r) b ->
  compact_lt r a b = Some (kf r a <? kf r b) /\ compact_le r a b = Some (kf r a <=? kf r b).
Proof.
  intros Hi Ha Hb. unfold compact_lt, compact_le. rewrite (row_lt_ok _ _ _ _ Ha Hb), (row_le_ok _ _ _ _ Ha Hb).
  pose proof (lead_of r a Hi Ha) as La. pose proof (lead_of r b Hi Hb) as Lb. destruct (good_row _ _ _ Ha) as [_ Oa], (good_row _ _ _ Hb) as [_ Ob].
  destruct (Z.ltb_spec (lead_key a) (lead_key b)) as [Hl|Hl].
  - rewrite La, Lb in Hl. pose proof (lead_decides r _ _ Hi Oa Ob Hl) as Hk. fold (kf r a) (kf r b) in Hk.
    by rewrite (proj2 (Z.ltb_lt _ _) Hk), (proj2 (Z.leb_le _ _)) by lia.
  - destruct (Z.eqb_spec (lead_key a) (lead_key b)) as [He|He]; [done|]. assert (Hgt : lead_key b < lead_key a) by lia.
    rewrite La, Lb in Hgt. pose proof (lead_decides r _ _ Hi Ob Oa Hgt) as Hk. fold (kf r a) (kf r b) in Hk.
    by rewrite (proj2 (Z.ltb_ge _ _)), (proj2 (Z.leb_gt _ _)) by lia.
Qed.

Lemma lead_col_some (r : rel) : int_lead r -> forall i x, rows r !! i = Some x -> row_ok r x -> is_Some (lead_col r i).
Proof.
  intros [Hn _] i x Hx Hok. unfold lead_col, rd. rewrite Hx. cbn [mbind option_bind]. apply lookup_lt_is_Some_2. rewrite (rk_len _ _ Hok). done.
Qed.
