(* ===== verification/DeltaProof.v ===== *)
(** * Correctness of the incremental consolidation

    Semi-naive evaluation appends the rows it derives and asks which of them
    are new.  The answer is exact on each of the three paths, and the runs
    that the next call relies on are kept. *)

From stdpp Require Import sorting.
From S2P Require Import Prelude RadixSort Relation RelSort Consolidate ConsolidateProof HeapProof.

Import Keys Rel RelSort Consolidate.

(** ** Runs *)

(** The rows [l] from row [start] on, cut into strictly sorted runs. *)
Fixpoint chained (s : shape) (start : nat) (ends : list nat) (l : list row) : Prop :=
  match ends with
  | [] => l = []
  | x :: ends' =>
      (start <= x)%nat /\ (x - start <= length l)%nat /\ strict s (take (x - start) l) /\ chained s x ends' (drop (x - start) l)
  end.

Lemma chained_snoc s start ends l m : chained s start ends l -> strict s m ->
  chained s start (ends ++ [start + length l + length m]%nat) (l ++ m).
Proof.
  revert start l. induction ends as [|x ends IH]; intros start l Hc Hm; cbn in *.
  - subst l. cbn. replace (start + 0 + length m - start)%nat with (length m) by lia. rewrite take_ge, drop_ge by lia. split_and!; [lia|lia|done|done].
  - destruct Hc as (H1 & H2 & H3 & H4). rewrite take_app_le, drop_app_le by done. split_and!; [done|rewrite length_app; lia|done|].
    specialize (IH x (drop (x - start) l) H4 Hm). rewrite length_drop in IH. by replace (x + (length l - (x - start)))%nat with (start + length l)%nat in IH by lia.
Qed.

Lemma chained_last s start ends l x : chained s start ends l -> last ends = Some x -> x = (start + length l)%nat.
Proof.
  revert start l. induction ends as [|y ends IH]; intros start l Hc Hl; [done|]. destruct Hc as (H1 & H2 & H3 & H4).
  destruct ends as [|z ends].
  - cbn in Hl, H4. simplify_eq. apply (f_equal length) in H4. rewrite length_drop in H4. cbn in H4. lia.
  - specialize (IH y _ H4). rewrite last_cons_cons in Hl. specialize (IH Hl). rewrite length_drop in IH. lia.
Qed.

Lemma chained_one s l : strict s l -> chained s 0 [length l] l.
Proof. intros H. cbn. rewrite Nat.sub_0_r, take_ge, drop_ge by done. split_and!; [lia|done|done|done]. Qed.

(** The rows of a relation up to [n] and the runs that it records. *)
Record runs_ok (r : rel) (n : nat) : Prop := {
  ru_ends : length (run_ends r) = COL_MAX_RUNS;
  ru_count : (run_count r <= COL_MAX_RUNS)%nat;
  ru_len : (n <= length (rows r))%nat;
  ru_rows : Forall (row_ok r) (take n (rows r));
  ru_uniq : NoDup (keys r (take n (rows r)));
  ru_chain : chained r 0 (take (run_count r) (run_ends r)) (take n (rows r)) }.

Lemma runs_ok_ext (r r' : rel) n : lanes r' = lanes r -> run_count r' = run_count r -> run_ends r' = run_ends r ->
  take n (rows r') = take n (rows r) -> (n <= length (rows r'))%nat -> runs_ok r n -> runs_ok r' n.
Proof. intros H1 H2 H3 H4 H5 [K1 K2 K3 K4 K5 K6]. split; rewrite ?H1, ?H2, ?H3, ?H4; done. Qed.

(** The segments the merges read. *)
Lemma run_bounds_ok (r : rel) ends n : forall i start pre l post, rows r = pre ++ l ++ post -> length pre = start ->
  (i + n <= length ends)%nat -> Forall (row_ok r) l -> chained r start (take n (drop i ends)) l ->
  exists segs, run_bounds ends n i start = Some segs /\ Forall (seg_ok r) segs /\ slices r segs = l /\
    Forall (fun sg => (sg.2 <= start + length l)%nat) segs.
Proof.
  induction n as [|n IH]; intros i start pre l post Hr Hpre Hi Hok Hc; cbn [run_bounds].
  { rewrite take_0 in Hc. cbn in Hc. subst l. by exists []. }
  destruct (lookup_lt_is_Some_2 ends i ltac:(lia)) as [x Hx]. rewrite (drop_S _ _ _ Hx) in Hc. cbn [take chained] in Hc. destruct Hc as (H1 & H2 & H3 & H4).
  unfold rd. rewrite Hx. cbn [mbind option_bind].
  destruct (IH (S i) x (pre ++ take (x - start) l) (drop (x - start) l) post) as (segs & -> & Hs & Hsl & Hends).
  { rewrite <-app_assoc, (app_assoc (take _ l)), take_drop. done. } { rewrite length_app, length_take. lia. } { lia. } { by apply Forall_drop. } { done. }
  cbn [mbind option_bind]. eexists. split; [done|]. assert (Hslice : slice r start x = take (x - start) l).
  { unfold slice. rewrite Hr, <-Hpre, drop_app_length, take_app_le by lia. done. }
  split_and!.
  - constructor; [|done]. split; cbn [fst snd]; rewrite ?Hslice; [rewrite Hr, !length_app; lia|by apply Forall_take|done].
  - change (slices r ((start, x) :: segs)) with (slice r start x ++ slices r segs). by rewrite Hslice, Hsl, take_drop.
  - constructor; [cbn; lia|]. eapply Forall_impl; [exact Hends|]. cbn. intros sg. rewrite length_drop. lia.
Qed.

Lemma runs_segments r n : runs_ok r n -> exists segs, run_bounds (run_ends r) (run_count r) 0 0 = Some segs /\ Forall (seg_ok r) segs /\
  slices r segs = take n (rows r) /\ Forall (fun sg => (sg.2 <= n)%nat) segs.
Proof.
  intros [H1 H2 H3 H4 H5 H6].
  destruct (run_bounds_ok r (run_ends r) (run_count r) 0 0 [] (take n (rows r)) (drop n (rows r))) as (segs & Hb & Hs & Hsl & Hends);
    [cbn; by rewrite take_drop|done|lia|done|done|].
  exists segs. split_and!; [done..|]. eapply Forall_impl; [exact Hends|]. cbn. intros sg. rewrite length_take. lia.
Qed.

(** ** Copying merged rows back *)

Lemma strict_keys s l : strict s l <-> StronglySorted Z.lt (keys s l).
Proof.
  unfold strict, keys. split.
  - induction 1 as [|x l Hs IH Hx]; cbn; constructor; [done|]. by apply Forall_fmap.
  - induction l as [|x l IH]; intros H; [constructor|]. cbn in H. apply StronglySorted_inv in H as [H1 H2]. constructor; [by apply IH|]. exact (proj1 (Forall_fmap (key s) _ l) H2).
Qed.

Lemma copy_back_ok l : forall (r : rel) pre mid post, rows r = pre ++ mid ++ post -> length mid = length l -> Forall (row_ok r) l ->
  exists l', copy_back r (length pre) l = Some (set_rows (pre ++ l' ++ post) r) /\ length l' = length l /\ Forall (row_ok r) l' /\ keys r l' = keys r l.
Proof.
  induction l as [|x l IH]; intros r pre mid post Hr Hm Hok; cbn [copy_back].
  { exists []. apply nil_length_inv in Hm as ->. split_and!; [|done..]. cbn [app] in *. rewrite <-Hr. by destruct r. }
  apply Forall_cons in Hok as [Hx Hok]. destruct mid as [|y mid]; [done|].
  rewrite (copy_in_ok r (length pre) x Hx) by (rewrite Hr, !length_app; cbn; lia). cbn [mbind option_bind].
  destruct (canon_ok r x Hx) as [Hx' Hk]. set (x' := canon r x) in *. clearbody x'.
  destruct (IH (set_rows (<[length pre := x']> (rows r)) r) (pre ++ [x']) mid post) as (l' & Hc & Hl & Hok' & Hks).
  { cbn. rewrite Hr, insert_app_r_alt, Nat.sub_diag by lia. by rewrite <-app_assoc. } { cbn in Hm; lia. } { done. }
  rewrite length_app, Nat.add_1_r in Hc. rewrite Hc. exists (x' :: l'). rewrite set_rows_twice, <-app_assoc.
  split_and!; [done|cbn; lia|by constructor|]. cbn in *. unfold keys in *. cbn. by rewrite Hk, Hks.
Qed.

(** ** Compaction *)

(** The allocations that the incremental consolidation cannot do without. *)
Definition allocs (e : cons_env) : bool := merged_ok e && merge_buf_ok e && rowbuf_ok e.

Lemma row_buf_starved e r : row_buf e r = false -> allocs e = false.
Proof. unfold row_buf, allocs. intros [_ ->]%orb_false_iff. apply andb_false_r. Qed.

Lemma buf_starved e r b : b && negb (row_buf e r) = true -> allocs e = false.
Proof. intros [_ H%negb_true_iff]%andb_true_iff. by eapply row_buf_starved. Qed.

Lemma realloc_starved e (r : rel) n : (0 < ncols r)%nat -> realloc_merge e r n = None -> merge_buf_ok e = false.
Proof.
  intros Hc. unfold realloc_merge. destruct (merge_buf_ok e); cbn [negb]; [|done].
  destruct (merge_columns r); [done|]. by rewrite (proj2 (Nat.eqb_neq _ _)) by lia.
Qed.

Lemma grow_starved e (r : rel) n : (0 < ncols r)%nat -> grow_merge e r n = None -> allocs e = false.
Proof.
  intros Hc. unfold grow_merge, allocs. destruct (n <=? merge_buf_cap r)%nat; [done|]. intros ->%realloc_starved; [|done]. by rewrite andb_false_r.
Qed.

(** The first [n] rows hold the same rows in one run; nothing else has changed. *)
Record compacted (r r' : rel) (n : nat) : Prop := {
  cp_lanes : lanes r' = lanes r;
  cp_cap : capacity r' = capacity r;
  cp_merge : merge_columns r' = merge_columns r /\ merge_buf_cap r' = merge_buf_cap r;
  cp_nrows : nrows r' = n;
  cp_runs : runs_ok r' n;
  cp_one : run_count r' = 1%nat;
  cp_rest : drop n (rows r') = drop n (rows r);
  cp_len : length (rows r') = length (rows r);
  cp_keys : forall k, k ∈ keys r (take n (rows r')) <-> k ∈ keys r (take n (rows r)) }.

Lemma one_run_ok r n : length (run_ends r) = COL_MAX_RUNS ->
  exists ends, one_run n r = Some (set_runs 1 ends r) /\ length ends = COL_MAX_RUNS /\ take 1 ends = [n].
Proof.
  intros Hl. unfold one_run. rewrite wr_lt by (rewrite Hl; unfold COL_MAX_RUNS; lia). cbn [mbind option_bind]. eexists. split; [done|].
  rewrite length_insert. split; [done|]. by destruct (run_ends r).
Qed.

Lemma compact_runs_ok e r n : runs_ok r n -> int_lead r -> (n <= nrows r)%nat -> (1 < run_count r)%nat ->
  exists r' rc, col_rel_compact_runs e r = Some (r', rc) /\ (rc = 0 -> compacted r r' n) /\ (rc <> 0 -> r' = r /\ rc = ENOMEM /\ allocs e = false).
Proof.
  intros Hruns Hi Hn Hc. unfold col_rel_compact_runs. rewrite (proj2 (Nat.leb_gt _ _)) by lia.
  destruct (runs_segments r n Hruns) as (segs & -> & Hs & Hsl & _). cbn [mbind option_bind]. destruct (merged_ok e) eqn:Hmok; cbn [negb]; [|exists r, ENOMEM; unfold allocs; by rewrite Hmok].
  destruct Hruns as [H1 H2 H3 H4 H5 H6]. assert (Hlen : length (take n (rows r)) = n) by (rewrite length_take; lia).
  destruct (heap_merge_ok r (compact_lt r) (compact_le r) (lead_col r)) with (cap := nrows r) (segs := segs) as (m & -> & M1 & M2 & M3 & M4 & M5).
  { intros a b Ha Hb. by apply compact_cmp_ok. } { intros a b Ha Hb. by apply compact_cmp_ok. } { by apply lead_col_some. } { done. } { rewrite Hsl. lia. }
  cbn [mbind option_bind]. rewrite Hsl in M3, M4, M5.
  assert (Hperm : keys r m ≡ₚ keys r (take n (rows r))) by (apply NoDup_Permutation; [by apply strict_nodup|done|done]).
  assert (Hm : length m = n) by (apply Permutation_length in Hperm; unfold keys in Hperm; rewrite !length_fmap in Hperm; lia).
  destruct (copy_back_ok m r [] (take n (rows r)) (drop n (rows r))) as (m' & Hcb & Hl' & Hok' & Hk'); [cbn; by rewrite take_drop|lia|done|].
  cbn [length app] in Hcb. rewrite Hcb. cbn [mbind option_bind].
  edestruct (one_run_ok (set_sorted (length m) (set_nrows (length m) (set_rows (m' ++ drop n (rows r)) r))) (length m)) as (ends & -> & E1 & E2); [done|].
  cbn [mbind option_bind]. eexists _, 0. split; [done|]. split; [|done]. intros _.
  assert (Htake : take n (m' ++ drop n (rows r)) = m') by (rewrite take_app_le by lia; rewrite take_ge by lia; done).
  assert (Hstrict : strict r m') by (apply strict_keys; rewrite Hk'; by apply strict_keys).
  split; cbn; try done.
  - split; cbn; rewrite ?Htake; try done.
    + unfold COL_MAX_RUNS. lia.
    + rewrite length_app, length_drop. lia.
    + by apply strict_nodup.
    + rewrite E2, Hm. replace n with (length m') by lia. by apply chained_one.
  - rewrite drop_app_ge, Hl', Hm, Nat.sub_diag by lia. done.
  - rewrite length_app, length_drop. lia.
  - intros k. rewrite Htake, Hk'. apply M3.
Qed.

(** ** Looking a row up *)

Lemma slice_at (r : rel) lo hi i : (lo <= i < hi)%nat -> (hi <= length (rows r))%nat ->
  exists x, rows r !! i = Some x /\ slice r lo hi !! (i - lo)%nat = Some x.
Proof.
  intros Hi Hh. destruct (lookup_lt_is_Some_2 (rows r) i ltac:(lia)) as [x Hx]. exists x. split; [done|]. unfold slice.
  rewrite lookup_take_lt by lia. rewrite lookup_drop. by replace (lo + (i - lo))%nat with i by lia.
Qed.

Lemma slice_split (r : rel) lo mid hi x : (lo <= mid < hi)%nat -> (hi <= length (rows r))%nat -> rows r !! mid = Some x ->
  slice r lo hi = slice r lo mid ++ x :: slice r (S mid) hi.
Proof.
  intros Hm Hh Hx. unfold slice. rewrite <-(take_drop (mid - lo) (drop lo (rows r))) at 1. rewrite drop_drop.
  replace (lo + (mid - lo))%nat with mid by lia. rewrite (drop_S _ _ _ Hx).
  rewrite take_app_ge by (rewrite length_take, length_drop; lia). rewrite length_take, length_drop.
  replace (hi - lo - (mid - lo) `min` (length (rows r) - lo))%nat with (S (hi - S mid)) by lia. done.
Qed.

Lemma binary_search_ok (r : rel) needle x fuel : rows r !! needle = Some x -> row_ok r x ->
  forall lo hi, (lo <= hi <= length (rows r))%nat -> (hi - lo < fuel)%nat -> Forall (row_ok r) (slice r lo hi) -> strict r (slice r lo hi) ->
  exists b, binary_search fuel r lo hi needle = Some b /\ (b = true <-> key r x ∈ keys r (slice r lo hi)).
Proof.
  intros Hneedle Hx. induction fuel as [|fuel IH]; intros lo hi Hr Hf Hok Hs; [lia|]. cbn [binary_search].
  destruct (Nat.ltb_spec lo hi) as [Hlt|Hge].
  2:{ exists false. split; [done|]. split; [done|]. unfold slice. replace (hi - lo)%nat with 0%nat by lia. intros H. by apply not_elem_of_nil in H. }
  set (mid := (lo + (hi - lo) / 2)%nat). assert (Hmid : (lo <= mid < hi)%nat) by (unfold mid; pose proof (Nat.div_lt (hi - lo) 2); lia).
  destruct (slice_at r lo hi mid Hmid ltac:(lia)) as (y & Hy & _). pose proof (slice_split r lo mid hi y Hmid ltac:(lia) Hy) as Hsp.
  rewrite Hsp in Hok, Hs |- *. apply Forall_app in Hok as [Hok1 [Hyok Hok2]%Forall_cons]. apply strict_app in Hs as (Hs1 & Hs2 & Hs3).
  apply strict_cons in Hs2 as Hs2'. destruct Hs2' as [Hs2' Hs4].
  rewrite (row_cmp_key r mid needle y x Hy Hneedle Hyok Hx). cbn [mbind option_bind].
  assert (Hsplit : forall k, k ∈ keys r (slice r lo mid ++ y :: slice r (S mid) hi) <-> k ∈ keys r (slice r lo mid) \/ k = key r y \/ k ∈ keys r (slice r (S mid) hi)).
  { intros k. unfold keys. rewrite fmap_app, elem_of_app. cbn. by rewrite elem_of_cons. }
  setoid_rewrite Hsplit.
  destruct (three_way_cases (key r y) (key r x)) as [[H3 ->]|[[H3 ->]|[H3 ->]]]; cbn [Z.ltb Z.eqb Z.compare].
  - replace (mid + 1)%nat with (S mid) by lia. destruct (IH (S mid) hi) as (b & -> & Hb); [lia|lia|done|done|]. exists b. split; [done|]. rewrite Hb. split; [tauto|].
    intros [Hin|[?|?]]; [|lia|done]. exfalso. apply list_elem_of_fmap in Hin as (z & Hz & Hz'). specialize (Hs3 z y Hz' ltac:(left)). lia.
  - exists true. split; [done|]. split; [|done]. intros _. right; left. lia.
  - destruct (IH lo mid) as (b & -> & Hb); [lia|lia|done|done|]. exists b. split; [done|]. rewrite Hb. split; [tauto|].
    intros [?|[?|Hin]]; [done|lia|]. exfalso. apply list_elem_of_fmap in Hin as (z & Hz & Hz'). specialize (Hs4 z Hz'). lia.
Qed.

Lemma in_runs_ok (r : rel) idx x n : rows r !! idx = Some x -> row_ok r x -> forall i start segs, run_bounds (run_ends r) n i start = Some segs -> Forall (seg_ok r) segs ->
  exists b, in_runs n r i start idx = Some b /\ (b = true <-> key r x ∈ keys r (slices r segs)).
Proof.
  intros Hidx Hx. induction n as [|n IH]; intros i start segs Hb Hs; cbn [run_bounds in_runs] in *.
  { simplify_eq. exists false. split; [done|]. split; [done|]. intros H. by apply not_elem_of_nil in H. }
  destruct (rd (run_ends r) i) as [x_end|]; [|done]. cbn [mbind option_bind] in *. destruct (run_bounds (run_ends r) n (S i) x_end) as [segs'|] eqn:Hb'; [|done].
  cbn in Hb. simplify_eq. apply Forall_cons in Hs as [[H1 H2 H3] Hs]. cbn [fst snd] in *.
  destruct (binary_search_ok r idx x (S (x_end - start)) Hidx Hx start x_end) as (b & Hbs & Hbi); [done|lia|done|done|].
  unfold col_rel_binary_search_row. rewrite Hbs. cbn [mbind option_bind]. change (slices r ((start, x_end) :: segs')) with (slice r start x_end ++ slices r segs').
  unfold keys. rewrite fmap_app. destruct b.
  - exists true. split; [done|]. split; [|done]. intros _. apply elem_of_app. left. by apply Hbi.
  - destruct (IH (S i) x_end segs' Hb' Hs) as (b' & -> & Hb2). exists b'. split; [done|]. rewrite elem_of_app, Hb2. split; [by right|].
    intros [Hin|?]; [|done]. by apply Hbi in Hin.
Qed.

(** ** Rows above every run *)

Lemma runs_below_ok (r : rel) old x n N : rows r !! old = Some x -> row_ok r x -> (N <= length (rows r))%nat -> Forall (row_ok r) (take N (rows r)) ->
  forall i start segs, run_bounds (run_ends r) n i start = Some segs -> Forall (seg_ok r) segs -> Forall (fun sg => (sg.2 <= N)%nat) segs ->
  exists b, runs_below n r i old = Some b /\ (b = true -> forall y, y ∈ slices r segs -> key r y < key r x).
Proof.
  intros Hold Hx HN Hok. induction n as [|n IH]; intros i start segs Hb Hs Hends; cbn [run_bounds runs_below] in *.
  { simplify_eq. exists true. split; [done|]. intros _ y Hy. by apply not_elem_of_nil in Hy. }
  destruct (rd (run_ends r) i) as [x_end|]; [|done]. cbn [mbind option_bind] in *. destruct (run_bounds (run_ends r) n (S i) x_end) as [segs'|] eqn:Hb'; [|done].
  cbn in Hb. simplify_eq. apply Forall_cons in Hs as [[H1 H2 H3] Hs]. apply Forall_cons in Hends as [He Hends]. cbn [fst snd] in *.
  destruct (IH (S i) x_end segs' Hb' Hs Hends) as (b & Hb2 & Hbi).
  assert (Hcons : (forall y, y ∈ slice r start x_end -> key r y < key r x) ->
    exists b0, runs_below n r (S i) old = Some b0 /\ (b0 = true -> forall y, y ∈ slices r ((start, x_end) :: segs') -> key r y < key r x)).
  { intros Hfirst. exists b. split; [done|]. intros -> y Hy. change (slices r ((start, x_end) :: segs')) with (slice r start x_end ++ slices r segs') in Hy.
    apply elem_of_app in Hy as [Hy|Hy]; [by apply Hfirst|by apply Hbi]. }
  destruct (Nat.ltb_spec 0 x_end) as [Hpos|Hz]; cbn [mbind option_bind].
  2:{ apply Hcons. intros y Hy. exfalso. unfold slice in Hy. replace (x_end - start)%nat with 0%nat in Hy by lia. by apply not_elem_of_nil in Hy. }
  destruct (lookup_lt_is_Some_2 (rows r) (x_end - 1) ltac:(lia)) as [z Hz].
  assert (Hzok : row_ok r z) by (apply (Forall_lookup_1 _ (take N (rows r)) (x_end - 1) z Hok); rewrite lookup_take_lt by lia; done).
  rewrite (row_cmp_key r _ _ z x Hz Hold Hzok Hx). cbn [mbind option_bind]. rewrite three_way_lt.
  destruct (Z.ltb_spec (key r z) (key r x)) as [Hzx|Hzx]; [|by exists false]. apply Hcons. intros y Hy.
  destruct (decide (start < x_end)%nat) as [Hne|Hne].
  - rewrite (slice_split r start (x_end - 1) x_end z) in Hy, H3 by (done || lia). apply strict_app in H3 as (_ & _ & H3).
    replace (slice r (S (x_end - 1)) x_end) with (@nil row) in Hy, H3 by (unfold slice; replace (x_end - S (x_end - 1))%nat with 0%nat by lia; done).
    apply elem_of_app in Hy as [Hy|Hy]; [specialize (H3 y z Hy ltac:(left)); lia|]. apply list_elem_of_singleton in Hy as ->. done.
  - exfalso. unfold slice in Hy. replace (x_end - start)%nat with 0%nat in Hy by lia. by apply not_elem_of_nil in Hy.
Qed.

(** ** Keeping the novel rows *)

Definition novel (s : shape) (olds rest : list row) : list row := filter (fun x => key s x ∉ keys s olds) rest.

Lemma keep_novel_ok e rest : forall (r : rel) olds K G B delta, rows r = olds ++ K ++ G ++ rest ++ B -> runs_ok r (length olds) ->
  Forall (row_ok r) rest -> delta_ok r delta ->
  exists r' n delta' rc, keep_novel e (length rest) r (length olds) (length K + length G) (length K) delta = Some (r', n, delta', rc) /\
    (rc = 0 -> exists G', r' = set_rows (olds ++ (K ++ novel r olds rest) ++ G' ++ B) r /\ n = (length K + length (novel r olds rest))%nat /\
       reported e r delta delta' (novel r olds rest) /\ (length (novel r olds rest) + length G' = length G + length rest)%nat) /\
    (rc <> 0 -> rc = ENOMEM /\ allocs e = false).
Proof.
  induction rest as [|x rest IH]; intros r olds K G B delta Hr Hruns Hok Hd; cbn [length keep_novel].
  { exists r, (length K), delta, 0. split; [done|]. split; [|done]. intros _. exists G. cbn [app] in Hr.
    unfold novel. cbn [filter list_filter app length]. rewrite app_nil_r, Nat.add_0_r. split_and!; [rewrite <-Hr; by destruct r|done|by apply reported_nil|lia]. }
  apply Forall_cons in Hok as [Hx Hok]. destruct (runs_segments r _ Hruns) as (segs & Hb & Hs & Hsl & _).
  assert (Hat : rows r !! (length olds + (length K + length G))%nat = Some x).
  { rewrite Hr, (lookup_app_r olds), (lookup_app_r K) by lia. apply list_lookup_middle. lia. }
  destruct (in_runs_ok r _ x (run_count r) Hat Hx 0 0 segs Hb Hs) as (b & -> & Hbi). cbn [mbind option_bind].
  rewrite Hsl in Hbi. replace (take (length olds) (rows r)) with olds in Hbi by (by rewrite Hr, take_app_length).
  unfold novel. rewrite filter_cons. fold (novel r olds rest). destruct b.
  - rewrite decide_False by (intros H; apply H; by apply Hbi).
    destruct (IH r olds K (G ++ [x]) B delta) as (r' & n & delta' & rc & Hk & H0 & H1); [by rewrite Hr, <-!app_assoc|done..|].
    rewrite length_app in Hk. cbn [length] in Hk. rewrite Nat.add_assoc, Nat.add_1_r in Hk. exists r', n, delta', rc. split; [done|]. split; [|done].
    intros Hrc. destruct (H0 Hrc) as (G' & E1 & E2 & E3 & E4). exists G'. split_and!; [done..|]. rewrite length_app in E4. cbn in E4. lia.
  - assert (Hni : key r x ∉ keys r olds) by (intros H; apply Hbi in H; done). rewrite decide_True by done.
    destruct (keep_row r olds K G x (rest ++ B)) as (G1 & -> & HG1 & _); [by rewrite Hr|]. cbn [mbind option_bind].
    destruct (bool_decide _ && _) eqn:Hbuf; [eexists _, _, _, ENOMEM; split; [done|]; split; [done|]; intros _; split; [done|by eapply buf_starved]|]. set (r1 := set_rows _ r).
    assert (Hrd : rd (rows r1) (length olds + length K) = Some x).
    { unfold rd, r1. cbn. rewrite (lookup_app_r olds) by lia. rewrite <-app_assoc. apply list_lookup_middle. lia. }
    rewrite Hrd. cbn [mbind option_bind]. destruct (append_delta_ok e r delta x Hd Hx) as (delta1 & -> & Hrep). cbn [mbind option_bind].
    destruct (IH r1 olds (K ++ [x]) G1 B delta1) as (r' & n & delta' & rc & Hk & H0 & H1); [done| |done|by eapply reported_ok|].
    { eapply runs_ok_ext; [..|exact Hruns]; unfold r1; cbn; [done..| |rewrite length_app; lia]. by rewrite Hr, !take_app_length. }
    rewrite length_app, HG1 in Hk. cbn [length] in Hk. replace (length K + 1 + length G)%nat with (S (length K + length G)) in Hk by lia.
    replace (length K + 1)%nat with (S (length K)) in Hk by lia. exists r', n, delta', rc. split; [done|]. split; [|done].
    intros Hrc. destruct (H0 Hrc) as (G' & E1 & E2 & E3 & E4). exists G'. change (lanes r1) with (lanes r) in *. rewrite length_app in E2. cbn [length] in *.
    split_and!; [|lia| |lia].
    + rewrite E1. unfold r1. rewrite set_rows_twice. by rewrite <-!app_assoc.
    + by apply (reported_app e r delta delta1 delta' [x]).
Qed.

(** ** Small steps *)

Lemma append_rows_ok e l : forall (r : rel) pre post delta, rows r = pre ++ l ++ post -> Forall (row_ok r) l -> delta_ok r delta ->
  exists delta', append_rows e (length l) r (length pre) delta = Some delta' /\ reported e r delta delta' l.
Proof.
  induction l as [|x l IH]; intros r pre post delta Hr Hok Hd; cbn [length append_rows]; [exists delta; split; [done|by apply reported_nil]|].
  apply Forall_cons in Hok as [Hx Hok]. unfold rd. rewrite (row_at r pre x (l ++ post) Hr). cbn [mbind option_bind].
  destruct (append_delta_ok e r delta x Hd Hx) as (delta1 & -> & Hrep1). cbn [mbind option_bind].
  destruct (IH r (pre ++ [x]) post delta1) as (delta' & Ha & Hrep); [by rewrite Hr, <-app_assoc|done|by eapply reported_ok|].
  rewrite length_app, Nat.add_1_r in Ha. exists delta'. split; [done|]. by apply (reported_app e r delta delta1 delta' [x] l).
Qed.

(** Rows that are already in place. *)
Lemma move_rows_id n r i : move_rows n r i i = Some r.
Proof. revert i. induction n as [|n IH]; intros i; cbn [move_rows]; [done|]. unfold col_rel_row_move_raw. rewrite Nat.eqb_refl. cbn [mbind option_bind]. apply IH. Qed.

Lemma add_run_ok (r : rel) old m : runs_ok r old -> (run_count r < COL_MAX_RUNS)%nat -> nrows r = (old + length m)%nat -> take (nrows r) (rows r) = take old (rows r) ++ m ->
  (nrows r <= length (rows r))%nat -> strict r m -> Forall (row_ok r) m -> (forall k, k ∈ keys r m -> k ∉ keys r (take old (rows r))) ->
  exists ends, add_run r = Some (set_runs (S (run_count r)) ends r) /\ runs_ok (set_runs (S (run_count r)) ends r) (nrows r).
Proof.
  intros [H1 H2 H3 H4 H5 H6] Hc Hn Hrows Hlen Hs Hok Hdis. unfold add_run. rewrite wr_lt by lia. cbn [mbind option_bind]. eexists. split; [done|].
  split; cbn; rewrite ?Hrows; [by rewrite length_insert|lia|done|by apply Forall_app| |].
  - unfold keys. rewrite fmap_app. apply NoDup_app. split_and!; [done| |by apply strict_nodup]. intros k Hk Hk'. by apply (Hdis k).
  - rewrite (take_S_r _ (run_count r) (nrows r)) by (apply list_lookup_insert_eq; lia). rewrite take_insert_ge by lia.
    pose proof (chained_snoc r 0 _ _ m H6 Hs) as Hch. rewrite length_take in Hch. replace (0 + old `min` length (rows r) + length m)%nat with (nrows r) in Hch by lia. done.
Qed.

(** The last run takes in rows above all others. *)
Lemma chained_extend s start ends x l m : chained s start (ends ++ [x]) l -> strict s m -> (forall a b, a ∈ l -> b ∈ m -> key s a < key s b) ->
  chained s start (ends ++ [x + length m]%nat) (l ++ m).
Proof.
  revert start l. induction ends as [|y ends IH]; intros start l Hc Hm Hlt; cbn [app chained] in *; destruct Hc as (H1 & H2 & H3 & H4).
  - apply (f_equal length) in H4. rewrite length_drop in H4. cbn in H4. rewrite take_ge in H3 by lia.
    rewrite take_ge, drop_ge by (rewrite length_app; lia). split_and!; [lia|rewrite length_app; lia| |done]. by apply strict_app.
  - rewrite take_app_le, drop_app_le by done. split_and!; [done|rewrite length_app; lia|done|]. apply IH; [done..|].
    intros a b Ha. apply Hlt. rewrite <-(take_drop (y - start) l). apply elem_of_app. by right.
Qed.

Lemma runs_strict r n : runs_ok r n -> (run_count r <= 1)%nat -> strict r (take n (rows r)).
Proof.
  intros [H1 H2 H3 H4 H5 H6] Hc. destruct (run_count r) as [|[|c]]; [| |lia].
  - rewrite take_0 in H6. cbn in H6. rewrite H6. constructor.
  - destruct (run_ends r) as [|x ends]; [done|]. cbn [take] in H6. rewrite take_0 in H6. cbn [chained] in H6. destruct H6 as (_ & G2 & G3 & G4).
    apply (f_equal length) in G4. rewrite length_drop in G4. cbn in G4. by rewrite take_ge in G3 by lia.
Qed.

(** ** Before and after *)

(** The merge buffer has its capacity. *)
Definition merge_wf (r : rel) : Prop := match merge_columns r with Some l => (merge_buf_cap r <= length l)%nat | None => merge_buf_cap r = O end.

Record wf (r : rel) : Prop := {
  wf_fits : fits r;
  wf_rows : Forall (row_ok r) (stored r);
  wf_merge : merge_wf r }.

(** ** The merge *)


Lemma realloc_merge_ok e r n r1 : realloc_merge e r n = Some r1 -> exists l c, r1 = set_merge (Some l) c r /\ (n <= c <= length l)%nat.
Proof.
  unfold realloc_merge. set (c := if (_ <? n)%nat then n else _).
  assert (Hc : (n <= c)%nat) by (unfold c; destruct (Nat.ltb_spec (Z.to_nat (u32 (Z.of_nat (merge_buf_cap r) * 2))) n); lia).
  clearbody c. destruct (merge_buf_ok e); cbn [negb]; [|done].
  destruct (merge_columns r) as [l|]; [|destruct (ncols r =? 0)%nat; [done|]]; intros [= <-]; eexists _, c; (split; [done|rewrite length_resized; lia]).
Qed.

Lemma grow_merge_ok e r n r1 : (0 < n)%nat -> merge_wf r -> grow_merge e r n = Some r1 ->
  exists l c, r1 = set_merge (Some l) c r /\ (n <= c <= length l)%nat.
Proof.
  unfold merge_wf. intros Hn Hm. unfold grow_merge. destruct (Nat.leb_spec n (merge_buf_cap r)) as [Hle|Hgt]; [|apply realloc_merge_ok].
  intros [= <-]. destruct (merge_columns r) as [l|] eqn:Hl; [|lia]. exists l, (merge_buf_cap r). split; [|done]. rewrite <-Hl. by destruct r.
Qed.

Lemma reuse_merge_ok e r n r1 : merge_wf r -> reuse_merge e r n = Some r1 -> exists l c, r1 = set_merge (Some l) c r /\ (n <= c <= length l)%nat.
Proof.
  unfold merge_wf, reuse_merge. intros Hm. destruct (merge_columns r) as [l|] eqn:Hl; cbn [bool_decide andb].
  - rewrite bool_decide_eq_true_2 by done. destruct (Nat.leb_spec n (merge_buf_cap r)) as [Hle|Hgt]; [|apply realloc_merge_ok].
    intros [= <-]. exists l, (merge_buf_cap r). split; [|done]. rewrite <-Hl. by destruct r.
  - rewrite bool_decide_eq_false_2 by (by intros [? ?]). apply realloc_merge_ok.
Qed.

(** The relation after the buffers are swapped: [o] in one run. *)
Record swapped (r r' : rel) (o : list row) : Prop := {
  sw_lanes : lanes r' = lanes r;
  sw_nrows : nrows r' = length o;
  sw_stored : exists Q, rows r' = o ++ Q;
  sw_cap : (length o <= capacity r' <= length (rows r'))%nat;
  sw_merge : merge_columns r' = Some (rows r) /\ merge_buf_cap r' = capacity r;
  sw_ends : length (run_ends r') = COL_MAX_RUNS;
  sw_runs : run_count r' = 1%nat /\ take 1 (run_ends r') = [length o];
  sw_sorted : sorted_nrows r' = length o }.

Lemma merge_into_ok e (r : rel) olds ds B mb delta : rows r = olds ++ ds ++ B -> Forall (row_ok r) olds -> Forall (row_ok r) ds ->
  merge_columns r = Some mb -> (length olds + length ds <= merge_buf_cap r <= length mb)%nat -> length (run_ends r) = COL_MAX_RUNS -> delta_ok r delta ->
  exists r' o fresh delta', merge_into e r (length olds) (length ds) delta = Some (r', length o, delta') /\ swapped r r' o /\
    merges r olds ds o fresh /\ reported e r delta delta' fresh.
Proof.
  intros Hr Ho Hd Hmb Hcap He Hdl. unfold merge_into. rewrite Hmb. cbn [mbind option_bind].
  destruct (merge_cols_ok e r olds ds B Hr Ho Hd (S (length olds + length ds)) [] olds [] ds [] mb delta) as (o & fresh & Q & delta' & Hm & Hmg & Hrep & Hl);
    [done|done|lia|lia|done|]. cbn [length app Nat.add] in Hm. rewrite Hm. cbn [mbind option_bind]. unfold publish_merge.
  edestruct (one_run_ok (set_sorted (length o) (set_nrows (length o) (set_merge (Some (rows r)) (capacity r)
    (set_capacity (merge_buf_cap r) (set_rows (o ++ Q) r))))) (length o)) as (ends & -> & E1 & E2); [done|]. cbn [mbind option_bind].
  assert (Hol : (length o <= length olds + length ds)%nat).
  { clear -Hmg. induction Hmg; cbn in *; lia. }
  eexists _, o, fresh, delta'. split; [done|]. split; [|done]. split; cbn; try done; [by eexists|]. rewrite length_app. lia.
Qed.

Lemma swapped_runs r r' o : swapped r r' o -> strict r o -> Forall (row_ok r) o -> runs_ok r' (length o).
Proof.
  intros [H1 H2 [Q H3] H4 H5 H6 [H7 H8] H9] Hs Hok. split; rewrite ?H1, ?H3, ?take_app_length; try done.
  - rewrite H7. unfold COL_MAX_RUNS. lia.
  - rewrite length_app. lia.
  - by apply strict_nodup.
  - rewrite H7, H8. by apply chained_one.
Qed.

Lemma swapped_wf (r r' : rel) o : swapped r r' o -> Forall (row_ok r) o -> (capacity r <= length (rows r))%nat -> stored r' = o /\ wf r'.
Proof.
  intros [H1 H2 [Q H3] H4 [H5 H5'] H6 [H7 H8] H9] Hok Hc. assert (Ht : stored r' = o) by (unfold stored; rewrite H2, H3; apply take_app_length).
  split; [done|]. split; [split; lia|by rewrite Ht, H1|unfold merge_wf; by rewrite H5, H5'].
Qed.

(** Right-sizing keeps the rows; it keeps the storage in step with the
    capacity when the allocation succeeds. *)
Lemma tighten_ok (e : cons_env) (r r' : rel) o : swapped r r' o -> strict r o -> Forall (row_ok r) o -> (capacity r <= length (rows r))%nat ->
  let r4 := if wants_tight r' (length o)
            then set_capacity (tight_cap (length o)) (if tight_ok e then set_rows (resized (ncols r') (tight_cap (length o)) (rows r')) r' else r')
            else r' in
  lanes r4 = lanes r /\ nrows r4 = length o /\ stored r4 = o /\ runs_ok r4 (length o) /\ (tight_ok e = true -> wf r4).
Proof.
  intros Hsw Hs Hok Hc. pose proof (swapped_runs _ _ _ Hsw Hs Hok) as Hruns. destruct Hsw as [H1 H2 [Q H3] H4 [H5 H5'] H6 [H7 H8] H9].
  assert (Ht : take (length o) (rows r') = o) by (rewrite H3; apply take_app_length).
  assert (Htc : (length o <= tight_cap (length o))%nat) by (unfold tight_cap; destruct (Nat.ltb_spec (length o + length o / 4) COL_REL_INIT_CAP); lia).
  assert (Hlen : (length o <= length (rows r'))%nat) by (rewrite H3, length_app; lia).
  assert (Htr : forall nc, take (length o) (resized nc (tight_cap (length o)) (rows r')) = o) by (intros nc; by rewrite take_resized by lia).
  cbv zeta. destruct (wants_tight r' (length o)); [destruct (tight_ok e)|].
  - split_and!; cbn; try done; [unfold stored; cbn; by rewrite H2, Htr| |].
    + eapply runs_ok_ext; [..|exact Hruns]; cbn; try done; [by rewrite Htr, Ht|rewrite length_resized; lia].
    + intros _. split; cbn; [split; cbn; rewrite ?length_resized; lia| |unfold merge_wf; cbn; by rewrite H5, H5']. unfold stored. cbn. by rewrite H2, Htr, H1.
  - split_and!; cbn; try done; [unfold stored; cbn; by rewrite H2|]. eapply runs_ok_ext; [..|exact Hruns]; done.
  - split_and!; try done; [unfold stored; by rewrite H2|]. intros _. split; [split; lia|unfold stored; by rewrite H2, Ht, H1|unfold merge_wf; cbn; by rewrite H5, H5'].
Qed.

(** [olds] and the new rows [ds] are consolidated: the relation holds both in
    runs, and the rows reported are those that only [ds] had. *)
Record consolidated (e : cons_env) (r r' : rel) (olds ds : list row) (delta delta' : option rel) : Prop := {
  co_lanes : lanes r' = lanes r;
  co_runs : runs_ok r' (nrows r');
  co_wf : tight_ok e = true -> wf r';
  co_keys : forall k, k ∈ keys r (stored r') <-> k ∈ keys r olds \/ k ∈ keys r ds;
  co_fresh : exists fresh, strict r fresh /\ (forall k, k ∈ keys r fresh <-> k ∈ keys r ds /\ k ∉ keys r olds) /\ reported e r delta delta' fresh }.

(** What a path returns. *)
Definition path_ok (e : cons_env) (r : rel) (olds ds : list row) (delta : option rel) (res : option (rel * option rel * Z)) : Prop :=
  exists r' delta' rc, res = Some (r', delta', rc) /\ (rc = 0 -> consolidated e r r' olds ds delta delta') /\ (rc <> 0 -> rc = ENOMEM /\ allocs e = false).

Lemma path_fail e r olds ds delta r' delta' : allocs e = false -> path_ok e r olds ds delta (Some (r', delta', ENOMEM)).
Proof. by exists r', delta', ENOMEM. Qed.

(** The three paths, for new rows [ds] sorted and without duplicates. *)
Section Paths.
Context (e : cons_env) (r : rel) (olds ds B : list row) (delta : option rel).
Hypothesis Hr : rows r = olds ++ ds ++ B.
Hypothesis Hruns : runs_ok r (length olds).
Hypothesis Hds : strict r ds.
Hypothesis Hok : Forall (row_ok r) ds.
Hypothesis Hfits : fits r.
Hypothesis Hn : (length olds + length ds <= nrows r)%nat.
Hypothesis Hmerge : merge_wf r.
Hypothesis Hlead : int_lead r.
Hypothesis Hd : delta_ok r delta.

Lemma olds_take : take (length olds) (rows r) = olds.
Proof. by rewrite Hr, take_app_length. Qed.

Lemma both_take : take (length olds + length ds) (rows r) = olds ++ ds.
Proof. rewrite Hr, app_assoc, <-length_app. apply take_app_length. Qed.

Lemma fast_append_ok : (forall a b, a ∈ olds -> b ∈ ds -> key r a < key r b) -> path_ok e r olds ds delta (fast_append e r (length olds) (length ds) delta).
Proof.
  intros Hlt. unfold fast_append. destruct (bool_decide _ && _) eqn:Hbuf; [by eapply path_fail, buf_starved|].
  destruct (append_rows_ok e ds r olds B delta Hr Hok Hd) as (delta' & -> & Hrep). cbn [mbind option_bind].
  set (r1 := set_sorted _ _). pose proof Hruns as [R1 R2 R3 R4 R5 R6]. rewrite olds_take in R4, R5, R6.
  assert (Hlen : (length olds + length ds <= length (rows r))%nat) by (rewrite Hr, !length_app; lia).
  assert (Hdis : forall k, k ∈ keys r ds -> k ∉ keys r olds).
  { intros k Hk Hk'. apply list_elem_of_fmap in Hk as (b & -> & Hb), Hk' as (a & Ha & Ha'). specialize (Hlt a b Ha' Hb). lia. }
  assert (Hfresh : exists fresh, strict r fresh /\ (forall k, k ∈ keys r fresh <-> k ∈ keys r ds /\ k ∉ keys r olds) /\ reported e r delta delta' fresh).
  { exists ds. split_and!; [done| |done]. intros k. split; [|tauto]. intros Hk. split; [done|by apply Hdis]. }
  assert (Hkeys : forall k, k ∈ keys r (olds ++ ds) <-> k ∈ keys r olds \/ k ∈ keys r ds) by (intros k; unfold keys; by rewrite fmap_app, elem_of_app).
  assert (Hallok : Forall (row_ok r) (olds ++ ds)) by (by apply Forall_app).
  destruct (Nat.ltb_spec (run_count r1) COL_MAX_RUNS) as [Hc|Hc]; cbn in Hc.
  - destruct (add_run_ok r1 (length olds) ds) as (ends & -> & Hruns').
    { eapply runs_ok_ext; [..|exact Hruns]; done. } { done. } { done. } { cbn. by rewrite both_take, olds_take. } { cbn. lia. } { done. } { done. } { cbn. by rewrite olds_take. }
    cbn [mbind option_bind]. eexists _, delta', 0. split; [done|]. split; [|done]. intros _. split; cbn.
    + done.
    + eapply runs_ok_ext; [..|exact Hruns']; try done.
    + intros _. split; cbn; [destruct Hfits; split; cbn; lia|unfold stored; cbn; by rewrite both_take|exact Hmerge].
    + intros k. unfold stored. cbn. rewrite both_take. apply Hkeys.
    + exact Hfresh.
  - assert (Hc8 : run_count r = COL_MAX_RUNS) by lia. change (run_count r1) with (run_count r). change (run_ends r1) with (run_ends r).
    change (nrows r1) with (length olds + length ds)%nat.
    rewrite wr_lt by (rewrite Hc8, R1; unfold COL_MAX_RUNS; lia). cbn [mbind option_bind]. set (r2 := set_runs _ _ r1).
    assert (Hruns2 : runs_ok r2 (length olds + length ds)).
    { split; cbn; rewrite ?both_take, ?length_insert; try done.
      - unfold keys. rewrite fmap_app. apply NoDup_app. split_and!; [done| |by apply strict_nodup]. intros k Hk Hk'. by apply (Hdis k).
      - rewrite Hc8 in R6 |- *. destruct (last (run_ends r)) as [x|] eqn:Hends; [|apply last_None in Hends; by rewrite Hends in R1].
        apply last_Some in Hends as [ends Hends].
        assert (Hel : length ends = 7%nat) by (rewrite Hends, length_app in R1; cbn in R1; unfold COL_MAX_RUNS in R1; lia).
        rewrite Hends in R6 |- *. rewrite take_ge in R6 by (rewrite length_app; cbn; unfold COL_MAX_RUNS; lia).
        rewrite insert_app_r_alt by (unfold COL_MAX_RUNS; lia). replace (COL_MAX_RUNS - 1 - length ends)%nat with 0%nat by (unfold COL_MAX_RUNS; lia). cbn [insert list_insert].
        rewrite take_ge by (rewrite length_app; cbn; unfold COL_MAX_RUNS; lia).
        pose proof (chained_last _ _ _ _ _ R6 (last_snoc _ _)) as Hx. cbn in Hx. rewrite <-Hx. by apply chained_extend. }
    destruct (compact_runs_ok e r2 (length olds + length ds) Hruns2) as (r3 & rc & -> & H0 & H1); [done|done|cbn; rewrite Hc8; unfold COL_MAX_RUNS; lia|].
    cbn [mbind option_bind]. destruct (Z.eqb_spec rc 0) as [->|Hrc]; [|destruct (H1 Hrc) as (_ & -> & Hst); by apply path_fail].
    specialize (H0 eq_refl). destruct H0 as [C1 C2 [C3 C3'] C4 C5 C6 C7 C8 C9]. cbn in C1, C2, C3, C3', C8, C9. rewrite both_take in C9.
    eexists _, delta', 0. split; [done|]. split; [|done]. intros _. split; cbn.
    + done.
    + rewrite C4. eapply runs_ok_ext; [..|exact C5]; try done. apply C5.
    + intros _. split; cbn; rewrite ?C2, ?C3, ?C3', ?C4; [destruct Hfits; split; cbn; rewrite ?C4, ?C2, ?C8; lia|unfold stored; cbn; rewrite ?C4; apply C5|unfold merge_wf; cbn; rewrite C3, C3'; exact Hmerge].
    + intros k. unfold stored. cbn. rewrite C4, <-Hkeys. apply C9.
    + exact Hfresh.
Qed.

Lemma novel_spec : strict r (novel r olds ds) /\ Forall (row_ok r) (novel r olds ds) /\
  (forall k, k ∈ keys r (novel r olds ds) <-> k ∈ keys r ds /\ k ∉ keys r olds).
Proof.
  unfold novel, keys. split_and!.
  - by apply Radix.ssorted_filter.
  - apply Forall_forall. intros x [_ Hx]%list_elem_of_filter. by apply (proj1 (Forall_forall _ _) Hok).
  - intros k. rewrite !list_elem_of_fmap. split.
    + intros (x & -> & [Hx Hin]%list_elem_of_filter). split; [by exists x|]. by rewrite <-list_elem_of_fmap.
    + intros [(x & -> & Hin) Hx]. exists x. split; [done|]. apply list_elem_of_filter. split; [|done]. by rewrite list_elem_of_fmap.
Qed.

(** The relation [r'] holds [olds] and the novel rows behind them. *)
Lemma search_result r' m m' delta' : lanes r' = lanes r -> capacity r' = capacity r -> merge_columns r' = merge_columns r -> merge_buf_cap r' = merge_buf_cap r ->
  runs_ok r' (nrows r') -> stored r' = m ++ m' -> length (rows r') = length (rows r) -> (nrows r' <= nrows r)%nat ->
  (forall k, k ∈ keys r m <-> k ∈ keys r olds) -> m' = novel r olds ds -> reported e r delta delta' (novel r olds ds) ->
  consolidated e r r' olds ds delta delta'.
Proof.
  intros H1 H2 H3 H4 H5 H6 H7 H8 H9 -> Hrep. destruct novel_spec as (N1 & N2 & N3). split; [done|done| | |by exists (novel r olds ds)].
  - intros _. destruct Hfits as [F1 F2]. split; [split; rewrite ?H2, ?H7; lia|apply H5|unfold merge_wf; by rewrite H3, H4].
  - intros k. rewrite H6. unfold keys in *. rewrite fmap_app, elem_of_app, H9, N3. destruct (decide (k ∈ key r <$> olds)); tauto.
Qed.

Lemma search_append_ok : (0 < run_count r)%nat -> path_ok e r olds ds delta (search_append e r (length olds) (length ds) delta).
Proof.
  intros Hrc0. unfold search_append.
  destruct (keep_novel_ok e ds r olds [] [] B delta) as (r1 & n & delta' & rc & Hk & H0 & H1); [done..|]. cbn [length Nat.add] in Hk. rewrite Hk. cbn [mbind option_bind].
  destruct (Z.eqb_spec rc 0) as [->|Hrc]; cbn [negb]; [|destruct (H1 Hrc) as [-> Hst]; by apply path_fail].
  destruct (H0 eq_refl) as (G' & -> & -> & Hrep & HG). clear H0 H1 Hk. cbn [app length Nat.add]. destruct novel_spec as (N1 & N2 & N3).
  set (nv := novel r olds ds) in *. set (r1 := set_rows (olds ++ nv ++ G' ++ B) r). cbn [length] in HG.
  assert (Hlen1 : length (rows r1) = length (rows r)) by (unfold r1; cbn; rewrite Hr, !length_app; lia).
  assert (Ht1 : take (length olds) (rows r1) = olds) by (unfold r1; cbn; apply take_app_length).
  assert (Hruns1 : runs_ok r1 (length olds)).
  { eapply runs_ok_ext; [..|exact Hruns]; [done..|by rewrite Ht1, olds_take|rewrite Hlen1; destruct Hfits; lia]. }
  assert (Hboth : take (length olds + length nv) (rows r1) = olds ++ nv).
  { unfold r1. cbn. rewrite app_assoc, <-length_app. apply take_app_length. }
  assert (Hdis : forall k, k ∈ keys r nv -> k ∉ keys r olds) by (intros k Hk; by apply N3).
  destruct (Nat.ltb_spec 0 (length nv)) as [Hpos|Hz].
  2:{ assert (Hnil : nv = []) by (apply nil_length_inv; lia). eexists _, delta', 0. split; [done|]. split; [|done]. intros _.
      eapply (search_result _ olds []); cbn; try done; [|unfold stored; cbn; by rewrite app_nil_r|lia]. eapply runs_ok_ext; [..|exact Hruns1]; try done. apply Hruns1. }
  set (r2 := set_nrows (length olds + length nv) r1).
  assert (Hrows2 : rows r2 = rows r1) by done. assert (Hn2 : nrows r2 = (length olds + length nv)%nat) by done.
  assert (Hruns2 : runs_ok r2 (length olds)) by (eapply runs_ok_ext; [..|exact Hruns1]; [done..|apply Hruns1]).
  destruct (Nat.ltb_spec (run_count r2) COL_MAX_RUNS) as [Hc|Hc].
  - destruct (add_run_ok r2 (length olds) nv Hruns2 Hc) as (ends & -> & Hruns3); [done|by rewrite Hn2, Hrows2, Hboth, Ht1|rewrite Hn2, Hrows2, Hlen1; destruct Hfits; lia|done|done|by rewrite Hrows2, Ht1|].
    cbn [mbind option_bind Z.eqb negb]. eexists _, delta', 0. split; [done|]. split; [|done]. intros _.
    eapply (search_result _ olds nv); cbn; try done; [|lia]. eapply runs_ok_ext; [..|exact Hruns3]; try done. apply Hruns3.
  - destruct (compact_runs_ok e r2 (length olds) Hruns2 Hlead) as (r3 & rc & -> & H0 & H1); [cbn; lia|unfold COL_MAX_RUNS in Hc; lia|]. cbn [mbind option_bind].
    destruct (Z.eqb_spec rc 0) as [->|Hrc]; cbn [negb mbind option_bind].
    2:{ rewrite (proj2 (Z.eqb_neq _ _) Hrc). cbn [negb]. destruct (H1 Hrc) as (_ & -> & Hst). by apply path_fail. }
    specialize (H0 eq_refl). destruct H0 as [C1 C2 [C3 C3'] C4 C5 C6 C7 C8 C9]. rewrite Hrows2 in C7, C8, C9. rewrite Ht1 in C9. cbn in C1, C2, C3, C3'. rewrite C4, move_rows_id. cbn [mbind option_bind].
    change (length olds + length nv)%nat with (nrows r2). set (r4 := set_nrows (nrows r2) r3).
    set (m := take (length olds) (rows r3)) in *. assert (Hm : length m = length olds) by (unfold m; rewrite length_take; destruct C5; lia).
    assert (Hsplit : take (nrows r2) (rows r3) = m ++ nv).
    { rewrite <-(take_drop (length olds) (rows r3)). fold m. rewrite C7. unfold r1. cbn [rows set_rows]. rewrite drop_app_length. rewrite take_app_ge by lia. f_equal.
      replace (nrows r2 - length m)%nat with (length nv) by lia. apply take_app_length. }
    assert (Hkm : forall k, k ∈ keys r m <-> k ∈ keys r olds) by (intros k; apply C9).
    destruct (add_run_ok r4 (length olds) nv) as (ends & -> & Hruns5).
    { eapply runs_ok_ext; [..|exact C5]; [done..|apply C5]. } { cbn. rewrite C6. unfold COL_MAX_RUNS. lia. } { done. } { cbn. exact Hsplit. }
    { cbn. rewrite C8, Hlen1. destruct Hfits; lia. } { cbn. by rewrite C1. } { cbn. by rewrite C1. }
    { cbn. rewrite C1. fold m. intros k Hk Hk'. apply (Hdis k Hk). by apply Hkm. }
    cbn [mbind option_bind Z.eqb negb]. eexists _, delta', 0. split; [done|]. split; [|done]. intros _.
    eapply (search_result _ m nv); cbn; try done; [|by rewrite C8, Hlen1|lia]. eapply runs_ok_ext; [..|exact Hruns5]; try done. apply Hruns5.
Qed.

(** Merging [olds'], the old rows in one run, with [ds]. *)
Lemma merge_tail_ok (r2 : rel) olds' B' mb : lanes r2 = lanes r -> rows r2 = olds' ++ ds ++ B' -> strict r olds' -> Forall (row_ok r) olds' ->
  (forall k, k ∈ keys r olds' <-> k ∈ keys r olds) -> merge_columns r2 = Some mb -> (length olds' + length ds <= merge_buf_cap r2 <= length mb)%nat ->
  length (run_ends r2) = COL_MAX_RUNS -> (capacity r2 <= length (rows r2))%nat ->
  path_ok e r olds ds delta ('(r3, out, delta') ← merge_into e r2 (length olds') (length ds) delta;
    Some (set_timestamps false (if wants_tight r3 out
            then set_capacity (tight_cap out) (if tight_ok e then set_rows (resized (ncols r3) (tight_cap out) (rows r3)) r3 else r3)
            else r3), delta', 0)).
Proof.
  intros Hl Hr2 Hs Ho Hk Hmb Hcap He Hc.
  destruct (merge_into_ok e r2 olds' ds B' mb delta) as (r3 & o & fresh & delta' & -> & Hsw & Hmg & Hrep); rewrite ?Hl; try done.
  cbn [mbind option_bind]. rewrite Hl in Hmg, Hrep. destruct (merges_spec _ _ _ _ _ Hmg Hs Hds) as (S1 & S2 & S3 & S4 & S5 & S6).
  assert (Hoo : Forall (row_ok r) o).
  { apply Forall_forall. intros x [Hx|Hx]%S3; [by apply (proj1 (Forall_forall _ _) Ho)|by apply (proj1 (Forall_forall _ _) Hok)]. }
  destruct (tighten_ok e r2 r3 o Hsw) as (T1 & T2 & T3 & T4 & T5); [by rewrite Hl|by rewrite Hl|done|].
  set (r4 := if wants_tight _ _ then _ else r3) in *. clearbody r4. eexists _, delta', 0. split; [done|]. split; [|done]. intros _. split; cbn.
  - by rewrite T1.
  - rewrite T2. eapply runs_ok_ext; [..|exact T4]; try done. apply T4.
  - intros Ht. destruct (T5 Ht) as [W1 W2 W3]. by split.
  - intros k. unfold stored in *. cbn. rewrite T3, S5. by rewrite Hk.
  - exists fresh. split_and!; [done| |done]. intros k. by rewrite S6, Hk.
Qed.

Lemma merge_append_ok : (0 < length ds)%nat -> path_ok e r olds ds delta (merge_append e r (length olds) (length ds) delta).
Proof.
  intros Hpos. unfold merge_append. destruct (grow_merge e r _) as [r1|] eqn:Hg; [|apply path_fail; eapply grow_starved; [apply Hlead|exact Hg]].
  destruct (grow_merge_ok e r (length olds + length ds) r1 ltac:(lia) Hmerge Hg) as (mb & c & -> & Hc). destruct (row_buf _ _) eqn:Hbuf; cbn [negb]; [|by eapply path_fail, row_buf_starved].
  set (r1 := set_merge (Some mb) c r). assert (Hruns1 : runs_ok r1 (length olds)) by (eapply runs_ok_ext; [..|exact Hruns]; [done..|apply Hruns]).
  destruct (Nat.ltb_spec 1 (run_count r1)) as [Hrc|Hrc].
  - destruct (compact_runs_ok e r1 (length olds) Hruns1 Hlead) as (r2 & rc & -> & H0 & H1); [cbn; lia|done|]. cbn [mbind option_bind].
    destruct (Z.eqb_spec rc 0) as [->|Hrc']; cbn [negb mbind option_bind].
    2:{ rewrite (proj2 (Z.eqb_neq _ _) Hrc'). cbn [negb]. destruct (H1 Hrc') as (_ & -> & Hst). by apply path_fail. }
    specialize (H0 eq_refl). destruct H0 as [C1 C2 [C3 C3'] C4 C5 C6 C7 C8 C9]. cbn in C1, C2, C3, C3', C7, C8, C9. rewrite olds_take in C9.
    rewrite C4, move_rows_id. cbn [mbind option_bind Z.eqb negb]. assert (Hst : strict r2 (take (length olds) (rows r2))) by (apply runs_strict; [done|lia]). destruct C5 as [Q1 Q2 Q3 Q4 Q5 Q6].
    set (m := take (length olds) (rows r2)) in *. assert (Hm : length m = length olds) by (unfold m; rewrite length_take; lia). rewrite <-Hm at 2.
    apply (merge_tail_ok _ m B mb); cbn; rewrite ?C1, ?C2, ?C3, ?C3', ?C8, ?Hm; try done; [|by rewrite <-C1|by rewrite <-C1|destruct Hfits; lia].
    rewrite <-(take_drop (length olds) (rows r2)), C7, Hr, drop_app_length. done.
  - cbn [mbind option_bind Z.eqb negb]. pose proof (runs_strict _ _ Hruns1 Hrc) as Hst. cbn in Hst. rewrite olds_take in Hst.
    apply (merge_tail_ok _ olds B mb); cbn; try done; [|apply Hruns|destruct Hfits; lia]. rewrite <-olds_take. apply Hruns.
Qed.

End Paths.

(** ** Run tracking *)

(** The runs that a call may find: they end at [n], or they are stale and
    the first [n] rows are sorted. *)
Record stale (r : rel) (n : nat) : Prop := {
  st_ends : length (run_ends r) = COL_MAX_RUNS;
  st_count : (run_count r <= COL_MAX_RUNS)%nat;
  st_last : run_count r = O \/ run_ends r !! (run_count r - 1)%nat <> Some n;
  st_rows : Forall (row_ok r) (take n (rows r));
  st_len : (n <= length (rows r))%nat;
  st_strict : strict r (take n (rows r)) }.

Definition tracked (r : rel) (n : nat) : Prop := runs_ok r n \/ stale r n.

Lemma repair_runs_ok r n : tracked r n -> exists c ends, repair_runs n r = Some (set_runs c ends r) /\ runs_ok (set_runs c ends r) n.
Proof.
  assert (Hid : set_runs (run_count r) (run_ends r) r = r) by (by destruct r).
  intros [H|[H1 H2 H3 H4 H5 H6]]; unfold repair_runs.
  - destruct (Nat.eqb_spec (run_count r) 0) as [Hz|Hnz]; cbn [mbind option_bind].
    + pose proof H as [H1 H2 H3 H4 H5 H6]. rewrite Hz in H6. cbn in H6. apply (f_equal length) in H6. rewrite length_take in H6. cbn in H6.
      rewrite (proj2 (Nat.ltb_ge 0 n)) by lia. eexists _, _. split; [done|]. by rewrite <-Hz, Hid.
    + pose proof H as [H1 H2 H3 H4 H5 H6]. destruct (lookup_lt_is_Some_2 (run_ends r) (run_count r - 1) ltac:(lia)) as [x Hx].
      unfold rd. rewrite Hx. cbn [mbind option_bind].
      assert (x = n) as ->.
      { pose proof (chained_last r 0 _ _ x H6) as Hl. rewrite last_lookup, length_take, lookup_take_lt in Hl by lia.
        rewrite Nat.min_l, <-Nat.sub_1_r, length_take in Hl by lia. specialize (Hl Hx). lia. }
      rewrite Nat.eqb_refl. cbn [negb]. exists (run_count r), (run_ends r). by rewrite Hid.
  - assert ((stale ← (if (run_count r =? 0)%nat then Some true else x ← rd (run_ends r) (run_count r - 1); Some (negb (x =? n)%nat));
             if stale : bool then if (0 <? n)%nat then one_run n r else Some (set_runs 0 (run_ends r) r) else Some r) =
            (if (0 <? n)%nat then one_run n r else Some (set_runs 0 (run_ends r) r))) as ->.
    { destruct (Nat.eqb_spec (run_count r) 0) as [Hz|Hnz]; [done|]. destruct H3 as [?|H3]; [done|].
      destruct (lookup_lt_is_Some_2 (run_ends r) (run_count r - 1) ltac:(lia)) as [x Hx]. unfold rd. rewrite Hx in H3 |- *. cbn [mbind option_bind].
      by rewrite (proj2 (Nat.eqb_neq x n)) by congruence. }
    destruct (Nat.ltb_spec 0 n) as [Hn|Hn].
    + destruct (one_run_ok r n H1) as (ends & -> & E1 & E2). eexists _, _. split; [done|]. split; cbn; try done; [unfold COL_MAX_RUNS; lia|by apply strict_nodup|].
      rewrite E2. replace n with (length (take n (rows r))) at 1 by (rewrite length_take; lia). by apply chained_one.
    + assert (n = O) as -> by lia. eexists _, _. split; [done|]. split; cbn; rewrite ?take_0; try done; [lia|constructor].
Qed.

Lemma float_valid_ok (r : rel) : fits r -> Forall (row_ok r) (stored r) -> float_values_valid r = Some true.
Proof.
  intros [Hn Hc] Hok. unfold float_values_valid. assert (H : forall i, i ∈ seq 0 (nrows r) -> exists x, rows r !! i = Some x /\ row_ok r x).
  { intros i Hi%elem_of_seq. destruct (lookup_lt_is_Some_2 (rows r) i ltac:(lia)) as [x Hx]. exists x. split; [done|].
    apply (Forall_lookup_1 _ (stored r) i x Hok). unfold stored. by rewrite lookup_take_lt by lia. }
  induction (seq 0 (nrows r)) as [|i l IH]; [done|]. cbn [foldr]. rewrite IH by (intros j Hj; apply H; by right). cbn [mbind option_bind].
  destruct (H i ltac:(left)) as (x & Hx & Hxk). unfold rd. rewrite Hx. cbn [mbind option_bind]. by rewrite cells_valid_ok.
Qed.

(** ** The operation *)

(** Only the lanes of the relation and the keys of the new rows matter. *)
Lemma path_news e (r r3 : rel) olds ds news delta res : lanes r3 = lanes r -> (forall k, k ∈ keys r ds <-> k ∈ keys r news) ->
  path_ok e r3 olds ds delta res -> path_ok e r olds news delta res.
Proof.
  intros Hl Hk (r' & delta' & rc & -> & H0 & H1). exists r', delta', rc. split; [done|]. split; [|done]. intros Hrc.
  destruct (H0 Hrc) as [C1 C2 C3 C4 (fresh & F1 & F2 & F3)]. rewrite Hl in C1, F1, F3. split; [done|done|done| |].
  - intros k. specialize (C4 k). rewrite Hl in C4. by rewrite C4, Hk.
  - exists fresh. split_and!; [done| |done]. intros k. specialize (F2 k). rewrite Hl in F2. by rewrite F2, Hk.
Qed.

(** Sorting and deduplicating the new rows in place. *)
Lemma sort_dedup_ok sort `{!RangeSort sort} (r r1 : rel) olds news B : rows r = olds ++ news ++ B -> (length olds + length news <= nrows r)%nat ->
  Forall (row_ok r) news -> news <> [] -> sort r (length olds) (length news) = Some (r1, 0) ->
  exists ds G, dedup_prev (length news - 1) r1 (length olds) 1 1 = Some (set_rows (olds ++ ds ++ G ++ B) r, length ds) /\
    (length ds + length G = length news)%nat /\ (0 < length ds)%nat /\ strict r ds /\ Forall (row_ok r) ds /\ (forall k, k ∈ keys r ds <-> k ∈ keys r news).
Proof.
  intros Hr Hn Hok Hne Hsort. destruct (sort_range r olds news B Hr Hn Hok) as (l' & rc & Hs & H0 & _). rewrite Hs in Hsort. injection Hsort as <- ->.
  destruct (H0 eq_refl) as [Hp Hso]. clear H0. rewrite <-Hp in Hok. assert (Hlen : length l' = length news) by (by rewrite Hp).
  destruct l' as [|x l]; [symmetry in Hp; by apply Permutation_nil_r in Hp|]. apply Forall_cons in Hok as [Hx Hok].
  destruct (dedup_prev_ok l (set_rows (olds ++ (x :: l) ++ B) r) olds [x] [] x B) as (G & Hd & HG); [done|done|done|done|].
  cbn [length Nat.add app] in Hd, HG. rewrite <-Hlen. cbn [length app]. rewrite Nat.sub_succ, Nat.sub_0_r, Hd, set_rows_twice.
  destruct (dropped_spec r x l Hso) as (D1 & D2 & D3 & D4).
  exists (x :: dropped r x l), G. split; [done|]. cbn [length]. change (lanes (set_rows _ r)) with (lanes r) in *. split_and!; [lia|lia|done| |].
  - constructor; [done|]. apply Forall_forall. intros y Hy%D3. by apply (proj1 (Forall_forall _ _) Hok).
  - intros k. rewrite D2. unfold keys. by rewrite Hp.
Qed.

Lemma paths_ok e (r : rel) olds ds B delta : rows r = olds ++ ds ++ B -> runs_ok r (length olds) -> strict r ds -> Forall (row_ok r) ds ->
  fits r -> (length olds + length ds <= nrows r)%nat -> merge_wf r ->
  int_lead r -> delta_ok r delta -> (0 < length ds)%nat ->
  path_ok e r olds ds delta
    (fast ← (if (length olds =? 0)%nat then Some true else runs_below (run_count r) r 0 (length olds));
     if fast : bool then fast_append e r (length olds) (length ds) delta
     else if (length ds <=? length olds / 16)%nat && (0 <? run_count r)%nat then search_append e r (length olds) (length ds) delta
     else merge_append e r (length olds) (length ds) delta).
Proof.
  intros Hr Hruns Hs Hok Hfits Hn Hm Hlead Hd Hpos. destruct ds as [|x ds]; [cbn in Hpos; lia|]. assert (Hx : row_ok r x) by (by inversion Hok).
  assert (Hfast : exists b, (if (length olds =? 0)%nat then Some true else runs_below (run_count r) r 0 (length olds)) = Some b /\
    (b = true -> forall a y, a ∈ olds -> y ∈ x :: ds -> key r a < key r y)).
  { destruct (Nat.eqb_spec (length olds) 0) as [Hz|Hnz].
    - apply nil_length_inv in Hz as ->. exists true. split; [done|]. intros _ a y Ha. by apply not_elem_of_nil in Ha.
    - destruct (runs_segments r _ Hruns) as (segs & Hb & Hsg & Hsl & He). destruct Hruns as [R1 R2 R3 R4 R5 R6].
      destruct (runs_below_ok r (length olds) x (run_count r) (length olds)) with (i := 0%nat) (start := 0%nat) (segs := segs) as (b & Hbe & Hbi); try done.
      { rewrite Hr. by apply list_lookup_middle. }
      exists b. split; [done|]. intros Hbt a y Ha Hy. rewrite Hsl, Hr, take_app_length in Hbi. specialize (Hbi Hbt a Ha).
      apply strict_cons in Hs as [_ Hs]. apply elem_of_cons in Hy as [->|Hy]; [done|]. specialize (Hs y Hy). lia. }
  destruct Hfast as (b & -> & Hb). cbn [mbind option_bind]. destruct b; [eapply fast_append_ok; eauto|].
  destruct (_ && _) eqn:Hsearch; [|eapply merge_append_ok; eauto]. apply andb_true_iff in Hsearch as [_ Hrc%Nat.ltb_lt]. eapply search_append_ok; eauto.
Qed.

(** The delta relation holds values of its lanes. *)
Definition valid_rows (delta : option rel) : Prop := match delta with None => True | Some d => Forall (row_ok d) (stored d) end.

Lemma incremental_ok sort `{!RangeSort sort} (e : cons_env) (r r1 : rel) (old : nat) (delta : option rel) :
  wf r -> tracked r old -> (old < nrows r)%nat -> int_lead r -> delta_ok r delta -> valid_rows delta -> sort r old (nrows r - old)%nat = Some (r1, 0) ->
  path_ok e r (take old (rows r)) (take (nrows r - old) (drop old (rows r))) delta (col_op_consolidate_incremental_delta sort e r old delta).
Proof.
  intros [Hfits Hrows Hm] Htr Hnew Hlead Hdelta Hvalid Hsort. set (olds := take old (rows r)). set (news := take (nrows r - old) (drop old (rows r))). pose proof Hfits as [Hn Hc].
  set (B := drop (nrows r) (rows r)).
  assert (Hr : rows r = olds ++ news ++ B).
  { unfold olds, news, B. rewrite <-(take_drop old (rows r)) at 1. f_equal. rewrite <-(take_drop (nrows r - old) (drop old (rows r))) at 1. f_equal.
    rewrite drop_drop. f_equal. lia. }
  assert (Hlo : length olds = old) by (unfold olds; rewrite length_take; lia).
  assert (Hln : length news = (nrows r - old)%nat) by (unfold news; rewrite length_take, length_drop; lia).
  assert (Hst : stored r = olds ++ news).
  { unfold stored. rewrite Hr, app_assoc. replace (nrows r) with (length (olds ++ news)) by (rewrite length_app; lia). apply take_app_length. }
  pose proof (float_valid_ok r Hfits Hrows) as Hv. rewrite Hst in Hrows. apply Forall_app in Hrows as [_ Hnok].
  unfold col_op_consolidate_incremental_delta. rewrite Hv. cbn [mbind option_bind].
  assert (match delta with None => Some true | Some d => float_values_valid d end = Some true) as ->.
  { destruct delta as [d|]; [|done]. apply float_valid_ok; [apply Hdelta|exact Hvalid]. }
  cbn [mbind option_bind negb orb]. rewrite (proj2 (Nat.eqb_neq _ _)), (proj2 (Nat.leb_gt _ _)) by lia. cbn [orb].
  rewrite <-Hln, <-Hlo in Hsort. rewrite <-Hln. rewrite <-Hlo. rewrite Hsort. cbn [mbind option_bind].
  destruct (sort_dedup_ok sort r r1 olds news B Hr) as (ds & G & -> & D1 & D2 & D3 & D4 & D5); [lia|done|intros E; rewrite E in Hln; cbn in Hln; lia|done|].
  cbn [mbind option_bind]. set (r2 := set_rows (olds ++ ds ++ G ++ B) r).
  assert (Hlen2 : length (rows r2) = length (rows r)) by (unfold r2; cbn; rewrite Hr, !length_app; lia).
  assert (Ht2 : take old (rows r2) = take old (rows r)) by (unfold r2; cbn [rows set_rows]; rewrite Hr, <-Hlo, !take_app_length; done).
  assert (Htr2 : tracked r2 old).
  { destruct Htr as [H|[S1 S2 S3 S4 S5 S6]]; [left; eapply runs_ok_ext; [..|exact H]; try done; lia|right; split; rewrite ?Ht2; done || lia]. }
  destruct (repair_runs_ok r2 old Htr2) as (c & ends & Hrep & Hruns). rewrite Hlo, Hrep. rewrite <-Hlo in Hruns |- *. cbn [mbind option_bind].
  apply (path_news e r (set_runs c ends r2) olds ds news); [done|exact D5|].
  apply (paths_ok e (set_runs c ends r2) olds ds (G ++ B)); try done; [|cbn; lia].
  split; cbn [nrows capacity rows set_runs]; rewrite ?Hlen2; cbn; lia.
Qed.
