(* ===== verification/DeltaSpec.v ===== *)
(** * What consolidation promises

    The theorems on the sort of a range and on the incremental consolidation,
    stated on relations, and what the code does where its own description says
    otherwise. *)

From stdpp Require Import sorting.
From S2P Require Import Prelude RadixSort Relation RelSort Consolidate ConsolidateProof HeapProof DeltaProof.

Import Keys Rel RelSort Consolidate.

(** ** Samples *)

Definition rich : cons_env := CE (HE true (fun _ => true) (fun _ => true)) true true true true true true (fun _ => true) true.
Definition rich_sort : sort_env := SE true true true true.
Definition pairs : shape := Sh 2 None.
Definition of_rows (s : shape) (l : list row) (count : nat) (ends : list nat) : rel :=
  R s l (length l) (length l) 0 None 0 false count (ends ++ replicate (COL_MAX_RUNS - length ends) O).

Lemma int_row_ok (s : shape) a : column_types s = None -> bool_decide (length a = ncols s /\ Forall is_int64 a) = true -> row_ok s a.
Proof.
  intros Hs [Hl Ha]%bool_decide_eq_true. split; [done|]. intros c v Hv. unfold column_type_at. rewrite Hs. eexists. split; [done|].
  split; [|done]. by eapply Forall_lookup_1.
Qed.

Lemma int_rows_ok (s : shape) l : column_types s = None -> forallb (fun a => bool_decide (length a = ncols s /\ Forall is_int64 a)) l = true -> Forall (row_ok s) l.
Proof. intros Hs Hl. rewrite forallb_forall in Hl. apply Forall_forall. intros a Ha. apply int_row_ok; [done|]. apply Hl. by apply list_elem_of_In. Qed.

Definition edges : rel := of_rows pairs [[1; 2]; [3; 4]; [3; 4]; [2; 5]] 1 [2%nat].
Definition no_rows : rel := of_rows pairs [] 0 [].

Lemma edges_wf : wf edges.
Proof. split; [split; by apply Nat.leb_le|by apply int_rows_ok|done]. Qed.

Lemma edges_tracked : tracked edges 2.
Proof.
  left. split; [done|cbn; unfold COL_MAX_RUNS; lia|cbn; lia|by apply int_rows_ok| |].
  - apply strict_nodup. repeat (constructor; [repeat constructor|]); try constructor; vm_compute; done.
  - cbn. split_and!; [lia|lia| |done]. repeat constructor; vm_compute; done.
Qed.

Lemma pairs_lead : int_lead pairs.
Proof. split; [cbn; lia|]. by eexists. Qed.

(** ** Sorting a range *)

(** The order that the code's comparison gives. *)
Definition cmp_le (s : shape) (a b : row) : Prop := exists c, col_rel_row_values_cmp s a b = Some c /\ c <= 0.

Lemma sorted_cmp (s : shape) l : Forall (row_ok s) l -> StronglySorted (by_key s) l -> StronglySorted (cmp_le s) l.
Proof.
  intros Hok Hs. induction Hs as [|x l Hs IH Hx]; [constructor|]. apply Forall_cons in Hok as [Hxk Hok]. constructor; [by apply IH|].
  apply Forall_forall. intros y Hy. rewrite Forall_forall in Hx. specialize (Hx y Hy). unfold by_key, key in Hx.
  eexists. split; [apply cmp_from_key; [done|by apply (proj1 (Forall_forall _ _) Hok)|done]|].
  destruct (three_way_cases (key_from s (ncols s) 0 x) (key_from s (ncols s) 0 y)) as [[? ->]|[[? ->]|[? ->]]]; lia.
Qed.

(** The sort, with the reason when it fails. *)
Lemma radix_range_ok (e : sort_env) (r : rel) (start n : nat) (Hn : (start + n <= nrows r /\ start + n <= length (rows r))%nat)
    (Hok : Forall (row_ok r) (take n (drop start (rows r)))) :
  exists l rc, col_rel_radix_sort e r start n = Some (put_range r start n l, rc) /\
    (rc = 0 -> l ≡ₚ take n (drop start (rows r)) /\ StronglySorted (cmp_le r) l) /\
    (rc <> 0 -> l = take n (drop start (rows r)) /\ sort_space e r l = false).
Proof.
  set (l := take n (drop start (rows r))) in *. assert (Hl : length l = n) by (unfold l; rewrite length_take, length_drop; lia).
  unfold col_rel_radix_sort. rewrite (proj2 (Nat.ltb_ge _ _)) by lia. rewrite (proj2 (Nat.ltb_ge _ _)) by lia. cbn [orb].
  assert (Hid : put_range r start n l = r).
  { unfold put_range, l. rewrite <-drop_drop, take_drop, take_drop. by destruct r. }
  destruct (Nat.leb_spec n 1) as [H1|H1].
  { exists l, 0. rewrite Hid. split; [done|]. split; [|done]. intros _. split; [done|].
    destruct l as [|x [|y l']]; [constructor|by repeat constructor|cbn in Hl; lia]. }
  destruct (detach_ok e) eqn:Hd; cbn [negb].
  2:{ exists l, ENOMEM. rewrite Hid. split; [done|]. split; [done|]. intros _. split; [done|]. unfold sort_space. by rewrite Hd, andb_false_r. }
  unfold range_of. rewrite (proj2 (Nat.leb_le _ _)) by lia. cbn [mbind option_bind]. fold l.
  destruct (raw_sorts e r l Hok) as (l' & rc & -> & H0 & H2). cbn [mbind option_bind]. exists l', rc. split; [done|]. split.
  - intros Hrc. destruct (H0 Hrc) as [Hp Hs]. split; [done|]. apply sorted_cmp; [by rewrite Hp|done].
  - intros Hrc. by destruct (H2 Hrc) as [-> ?].
Qed.

(** C36: the sort of a range of rows, by insertion, by eight passes over
    bytes or by four over 16-bit digits as the size asks: the range becomes a
    permutation of itself that the code's own comparison finds sorted, and no
    other row changes; if it fails nothing changes, and it fails only for want
    of memory. *)
Theorem rel_radix_sort_correct (e : sort_env) (r : rel) (start n : nat) (Hn : (start + n <= nrows r <= length (rows r))%nat)
    (Hok : Forall (row_ok r) (take n (drop start (rows r)))) :
  exists l rc, col_rel_radix_sort e r start n = Some (put_range r start n l, rc) /\
    (rc = 0 -> l ≡ₚ take n (drop start (rows r)) /\ StronglySorted (cmp_le r) l) /\
    (rc <> 0 -> l = take n (drop start (rows r)) /\ sort_space e r l = false).
Proof. apply radix_range_ok; [lia|done]. Qed.

Lemma rel_radix_sort_correct_witness : exists l, col_rel_radix_sort rich_sort edges 1 3 = Some (put_range edges 1 3 l, 0) /\
  StronglySorted (cmp_le edges) l /\ l = [[2; 5]; [3; 4]; [3; 4]].
Proof.
  destruct (rel_radix_sort_correct rich_sort edges 1 3) as (l & rc & Hc & H0 & _); [cbn; lia|by apply int_rows_ok|].
  assert (Hv : col_rel_radix_sort rich_sort edges 1 3 = Some (put_range edges 1 3 [[2; 5]; [3; 4]; [3; 4]], 0)) by (vm_compute; reflexivity).
  exists [[2; 5]; [3; 4]; [3; 4]]. rewrite Hv in Hc. injection Hc as Hl <-. rewrite app_nil_r in Hl. subst l. split; [done|]. split; [by apply H0|done].
Defined.

(** ** Incremental consolidation *)

(** C3: on a well-formed relation that has columns, the first of them not a
    float, whose first [old] rows are the consolidated ones, and whatever the
    sort, if it sorted the new rows, the incremental consolidation returns; on
    success the relation holds the union of both in at most eight runs, each
    strictly sorted, with no row twice, and when the right-sizing succeeds its
    storage is consistent; the rows reported to the delta relation, if all
    appends to it succeed, are the sorted set of the new rows that were not
    there.  It fails only for want of memory. *)
Theorem incremental_delta_exact sort `{!RangeSort sort} (e : cons_env) (r r1 : rel) (old : nat) (delta : option rel)
    (Hwf : wf r) (Htr : tracked r old) (Hnew : (old < nrows r)%nat) (Hlead : int_lead r)
    (Hdelta : delta_ok r delta) (Hvalid : valid_rows delta) (Hsort : sort r old (nrows r - old)%nat = Some (r1, 0)) :
  let olds := take old (rows r) in
  let news := take (nrows r - old) (drop old (rows r)) in
  exists r' delta' rc, col_op_consolidate_incremental_delta sort e r old delta = Some (r', delta', rc) /\
    (rc = 0 -> consolidated e r r' olds news delta delta') /\
    (rc <> 0 -> rc = ENOMEM /\ allocs e = false).
Proof. exact (incremental_ok sort e r r1 old delta Hwf Htr Hnew Hlead Hdelta Hvalid Hsort). Qed.

Lemma incremental_delta_exact_witness : exists r' d', col_op_consolidate_incremental_delta (col_rel_radix_sort rich_sort) rich edges 2 (Some no_rows) = Some (r', Some d', 0) /\
  consolidated rich edges r' [[1; 2]; [3; 4]] [[3; 4]; [2; 5]] (Some no_rows) (Some d') /\ stored r' = [[1; 2]; [2; 5]; [3; 4]] /\ stored d' = [[2; 5]].
Proof.
  destruct (incremental_delta_exact (col_rel_radix_sort rich_sort) rich edges (of_rows pairs [[1; 2]; [3; 4]; [2; 5]; [3; 4]] 1 [2%nat]) 2 (Some no_rows) edges_wf edges_tracked) as (r' & d' & rc & Hc & H0 & _);
    [cbn; lia|exact pairs_lead|split; [done|split; cbn; lia]|constructor|vm_compute; reflexivity|].
  vm_compute in Hc. injection Hc as <- <- <-. eexists _, _. split; [vm_compute; reflexivity|]. split; [exact (H0 eq_refl)|done].
Defined.

(** ** Rounds of semi-naive evaluation *)

Section Rounds.
Context (sort : rel -> nat -> nat -> option (rel * Z)) `{!RangeSort sort} (r0 : rel).

(** A relation that starts as [r0] and to which rows are appended, with
    consolidations in between: the rows [added], the rows [out] reported to
    the delta relations, the relation, its consolidated rows. *)
Inductive rounds : list row -> list row -> rel -> nat -> Prop :=
| rounds_start : rounds [] [] r0 0
| rounds_append b added out r old x r' : rounds added out r old -> row_ok r x -> col_rel_append_row b r x = Some (r', 0) ->
    rounds (added ++ [x]) out r' old
| rounds_consolidate e added out r old d r1 r' d' : rounds added out r old -> tight_ok e = true -> (forall n, append_ok e n = true) ->
    delta_ok r (Some d) -> valid_rows (Some d) -> Z.of_nat (nrows d + nrows r) < 2 ^ 31 ->
    sort r old (nrows r - old)%nat = Some (r1, 0) -> col_op_consolidate_incremental_delta sort e r old (Some d) = Some (r', Some d', 0) ->
    rounds added (out ++ drop (nrows d) (stored d')) r' (nrows r').

(** What holds between the steps. *)
Record between (added out : list row) (r : rel) (old : nat) : Prop := {
  bt_wf : wf r;
  bt_tracked : tracked r old;
  bt_old : (old <= nrows r)%nat;
  bt_lanes : lanes r = lanes r0;
  bt_set : forall k, k ∈ keys r0 (stored r) <-> k ∈ keys r0 added;
  bt_once : NoDup (keys r0 out);
  bt_out : forall k, k ∈ keys r0 out <-> k ∈ keys r0 (take old (rows r)) }.

Lemma kept_tracked r r' n : kept r r' -> fits r -> fits r' -> (nrows r <= nrows r')%nat -> (n <= nrows r)%nat -> tracked r n -> tracked r' n.
Proof.
  intros [K1 K2 [K3 K4] K5] [F1 F2] [F3 F4] Hn' Hn.
  assert (Ht : take n (rows r') = take n (rows r)) by (rewrite <-(Nat.min_l n (nrows r)) by lia; by rewrite <-!take_take, K5).
  intros [[H1 H2 H3 H4 H5 H6]|[S1 S2 S3 S4 S5 S6]]; [left|right]; split; rewrite ?K1, ?K3, ?K4, ?Ht; done || lia.
Qed.

Lemma between_append b added out r old x r' : between added out r old -> row_ok r x -> col_rel_append_row b r x = Some (r', 0) ->
  between (added ++ [x]) out r' old.
Proof.
  intros [[Hf Hr Hm] B2 B3 B4 B5 B6 B7] Hx Ha. destruct (append_row_ok b r x Hf Hx) as (r2 & rc & Ha' & Hk & Hf2 & Hg & _).
  rewrite Ha in Ha'. injection Ha' as <- <-. destruct (Hg eq_refl) as (Hn & l & Hl & Hkl & Hok). cbn [length] in Hn. pose proof Hk as [K1 [K2 K2'] K3 K4].
  split; rewrite ?K1; try done.
  - split; [done|by rewrite K1, Hl; apply Forall_app|unfold merge_wf; by rewrite K2, K2'].
  - eapply kept_tracked; [exact Hk|done..|lia|done|done].
  - lia.
  - intros k. rewrite Hl. unfold keys in *. rewrite !fmap_app, !elem_of_app, B5. rewrite B4 in Hkl. by rewrite Hkl.
  - intros k. rewrite B7. assert (take old (rows r') = take old (rows r)) as ->; [|done].
    rewrite <-(Nat.min_l old (nrows r)) by lia. by rewrite <-!take_take, K4.
Qed.

(** The rows reported are no more than the new rows. *)
Lemma fresh_length (s : shape) fresh news olds : strict s fresh -> (forall k, k ∈ keys s fresh <-> k ∈ keys s news /\ k ∉ keys s olds) ->
  (length fresh <= length news)%nat.
Proof.
  intros Hs Hk. rewrite <-(length_fmap (key s) fresh), <-(length_fmap (key s) news). apply submseteq_length.
  apply NoDup_submseteq; [by apply strict_nodup|]. intros k H. by apply Hk.
Qed.

Lemma between_consolidate e added out r old d r1 r' d' : int_lead r0 -> between added out r old -> tight_ok e = true -> (forall n, append_ok e n = true) ->
  delta_ok r (Some d) -> valid_rows (Some d) -> Z.of_nat (nrows d + nrows r) < 2 ^ 31 ->
  sort r old (nrows r - old)%nat = Some (r1, 0) -> col_op_consolidate_incremental_delta sort e r old (Some d) = Some (r', Some d', 0) ->
  between added (out ++ drop (nrows d) (stored d')) r' (nrows r').
Proof.
  intros Hi [B1 B2 B3 B4 B5 B6 B7] Ht Ha Hd Hv Hbig Hs Hc. rewrite <-B4 in Hi. pose proof B1 as [Hf Hr Hm]. pose proof Hf as [Hn Hcap].
  destruct (decide (old = nrows r)) as [->|Hne].
  { unfold col_op_consolidate_incremental_delta in Hc. rewrite (float_valid_ok r Hf Hr), (float_valid_ok d (proj2 Hd) Hv) in Hc. cbn [mbind option_bind negb orb] in Hc.
    rewrite (proj2 (Nat.leb_le (nrows r) (nrows r))), orb_true_r in Hc by done. injection Hc as <- <-.
    assert (drop (nrows d) (stored d) = []) as -> by (apply drop_ge; unfold stored; rewrite length_take; lia). rewrite app_nil_r. by split. }
  destruct (incremental_ok sort e r r1 old (Some d)) as (r2 & d2 & rc & Hc' & H0 & _); [done|done|lia|done..|]. rewrite Hc in Hc'. injection Hc' as <- <- <-.
  destruct (H0 eq_refl) as [C1 C2 C3 C4 (fresh & F1 & F2 & F3 & F4 & F5)]. rewrite <-B4 in B5, B6, B7.
  pose proof (fresh_length _ _ _ _ F1 F2) as Hfl. rewrite length_take, length_drop in Hfl. destruct F5 as (G1 & l & G2 & G3 & G4); [done|lia|].
  destruct Hd as [Hdl [Hd1 Hd2]]. rewrite Hdl in G3. assert (Hsd : length (stored d) = nrows d) by (unfold stored; rewrite length_take; lia).
  rewrite G2, <-Hsd, drop_app_length. assert (Hold : forall k, k ∈ keys r (stored r) <-> k ∈ keys r (take old (rows r)) \/ k ∈ keys r (take (nrows r - old) (drop old (rows r)))).
  { intros k. unfold stored. replace (nrows r) with (old + (nrows r - old))%nat at 1 by lia. rewrite <-take_take_drop. unfold keys. by rewrite fmap_app, elem_of_app. }
  split; rewrite ?C1, <-?B4; [by apply C3|by left|done|done| | |].
  - intros k. by rewrite C4, <-Hold, B5.
  - unfold keys. rewrite fmap_app. fold (keys r out) (keys r l). rewrite G3. apply NoDup_app. split_and!; [done| |by apply strict_nodup].
    intros k Hk Hk'. apply F2 in Hk' as [_ Hk']. apply Hk'. by apply B7.
  - intros k. unfold keys. rewrite fmap_app, elem_of_app. fold (keys r out) (keys r l) (keys r (take (nrows r') (rows r'))). rewrite G3, B7.
    change (take (nrows r') (rows r')) with (stored r'). rewrite C4, F2. destruct (decide (k ∈ keys r (take old (rows r)))); tauto.
Qed.

(** C4: take a well-formed relation that is empty at first, has columns and a
    first one that is not a float, and appends and consolidations of it that
    all succeed, the sorts, the right-sizings and the appends to the delta
    relations included.  Between these steps the relation is well formed, holds
    exactly the rows appended so far, and the rows reported by all the
    consolidations together are its consolidated rows, each reported once. *)
Theorem rounds_exact added out r old (Hrun : rounds added out r old) (Hwf : wf r0) (Hempty : nrows r0 = O)
    (Hends : length (run_ends r0) = COL_MAX_RUNS) (Hcount : run_count r0 = O) (Hlead : int_lead r0) :
  between added out r old.
Proof.
  induction Hrun as [|b added out r old x r' _ IH Hx Ha|e added out r old d r1 r' d' _ IH Ht Ha Hd Hv Hbig Hs Hc].
  - split; try done; [|lia| |constructor].
    + left. split; rewrite ?Hcount, ?take_0; try done; [unfold COL_MAX_RUNS; lia|lia|constructor].
    + unfold stored. by rewrite Hempty, take_0.
  - by eapply between_append.
  - by eapply between_consolidate.
Qed.

End Rounds.

Definition start : rel := new_like no_rows.
Definition add_row (r : rel) (x : row) : rel := match col_rel_append_row true r x with Some (r', _) => r' | None => r end.
Definition end_round (r : rel) (old : nat) : rel * rel :=
  match col_op_consolidate_incremental_delta (col_rel_radix_sort rich_sort) rich r old (Some no_rows) with Some (r', Some d', _) => (r', d') | _ => (r, r) end.

Lemma start_wf : wf start.
Proof. split; [split; by apply Nat.leb_le|by apply int_rows_ok|done]. Qed.

(** Two rounds on an empty relation: the second one derives a row again. *)
Definition first_round : rel * rel := end_round (add_row start [3; 4]) 0.
Definition second_round : rel * rel := end_round (add_row (add_row first_round.1 [3; 4]) [1; 2]) 1.

Lemma two_rounds : rounds (col_rel_radix_sort rich_sort) start ((([] ++ [[3; 4]]) ++ [[3; 4]]) ++ [[1; 2]])
  (([] ++ drop 0 (stored first_round.2)) ++ drop 0 (stored second_round.2)) second_round.1 (nrows second_round.1).
Proof.
  assert (Hd : delta_ok pairs (Some no_rows)) by (split; [done|split; cbn; lia]).
  eapply (rounds_consolidate _ _ rich _ _ (add_row (add_row first_round.1 [3; 4]) [1; 2]) 1 no_rows);
    [|done|done|exact Hd|constructor|done|vm_compute; reflexivity|vm_compute; reflexivity].
  apply (rounds_append _ _ true _ _ (add_row first_round.1 [3; 4])); [|by apply int_row_ok|vm_compute; reflexivity].
  apply (rounds_append _ _ true _ _ first_round.1); [|by apply int_row_ok|vm_compute; reflexivity].
  eapply (rounds_consolidate _ _ rich _ _ (add_row start [3; 4]) 0 no_rows); [|done|done|exact Hd|constructor|done|vm_compute; reflexivity|vm_compute; reflexivity].
  apply (rounds_append _ _ true _ _ start); [apply rounds_start|by apply int_row_ok|vm_compute; reflexivity].
Qed.

Lemma rounds_exact_witness : between start [[3; 4]; [3; 4]; [1; 2]] [[3; 4]; [1; 2]] second_round.1 2 /\ stored second_round.1 = [[1; 2]; [3; 4]].
Proof.
  split; [|vm_compute; reflexivity]. apply (rounds_exact (col_rel_radix_sort rich_sort) start _ _ second_round.1 2); [exact two_rounds|exact start_wf|done|done|done|exact pairs_lead].
Defined.

(** ** Where the code falls short *)

(** Two runs of negative floats, -2.0 and -1.0: compaction compares their
    leading cells as integers, and publishes a run that is not sorted. *)
Definition minus_one : Z := i64 0xBFF0000000000000.
Definition minus_two : Z := i64 0xC000000000000000.
Definition float_runs : rel := of_rows (Sh 1 (Some [TYPE_FLOAT])) [[minus_two]; [minus_one]] 2 [1%nat; 2%nat].

Theorem compaction_unsorts_floats : col_rel_row_cmp float_runs 0 1 = Some (-1) /\
  (fun '(r', rc) => (rc, run_count r', stored r', col_rel_row_cmp r' 0 1)) <$> col_rel_compact_runs rich float_runs =
    Some (0, 1%nat, [[minus_one]; [minus_two]], Some 1).
Proof. split; vm_compute; reflexivity. Qed.

(** With few new rows the relation keeps separate runs, yet all its rows count
    as sorted. *)
Definition sixteen : rel := of_rows pairs (((fun i => [Z.of_nat i; 0]) <$> seq 1 16) ++ [[4; 7]]) 1 [16%nat].

Theorem sorted_nrows_overstated :
  (fun '(r', _, rc) => (rc, nrows r', sorted_nrows r', run_count r', col_rel_row_cmp r' 15 16)) <$>
    col_op_consolidate_incremental_delta (col_rel_radix_sort rich_sort) rich sixteen 16 None = Some (0, 17%nat, 17%nat, 2%nat, Some 1).
Proof. vm_compute. reflexivity. Qed.

(** A right-sizing that fails still publishes its capacity: 64 rows over
    storage for four. *)
Theorem capacity_beyond_storage :
  (fun '(r', _, rc) => (rc, capacity r', length (rows r'))) <$>
    col_op_consolidate_incremental_delta (col_rel_radix_sort rich_sort) (CE (hash_allocs rich) true true true true true false (fun _ => true) true) edges 2 None =
    Some (0, 64%nat, 4%nat).
Proof. vm_compute. reflexivity. Qed.

(** A sort that fails is ignored: the relation keeps duplicates, and the call
    succeeds. *)
Definition alternating : rel := of_rows pairs (concat (replicate 17 [[1; 1]; [2; 2]])) 0 [].

Theorem failed_sort_keeps_duplicates :
  (fun '(r', _, rc) => (rc, nrows r', col_rel_row_cmp r' 0 2)) <$>
    col_op_consolidate_incremental_delta (col_rel_radix_sort (SE true false true true)) rich alternating 0 None = Some (0, 34%nat, Some 0).
Proof. vm_compute. reflexivity. Qed.

(** A relation without columns that derives its row again runs out of memory. *)
Theorem nullary_rederivation :
  snd <$> col_op_consolidate_incremental_delta (col_rel_radix_sort rich_sort) rich (of_rows (Sh 0 None) [[]; []] 1 [1%nat]) 1 None = Some ENOMEM.
Proof. vm_compute. reflexivity. Qed.
