(* ===== verification/HashDedup.v ===== *)
(** * Correctness of the hash deduplication

    The open-addressing table holds exactly the rows collected so far, a probe
    ends at an equal row or at a free slot, and the rows that come out are the
    input's, each value at least once. *)

From S2P Require Import Prelude RadixSort Relation RelSort Consolidate ConsolidateProof HeapProof.

Import Keys Rel RelSort Consolidate.

(** ** Equality and hash of rows *)

Lemma value_equal_cmp ty a b : value_equal ty a b = (cell_cmp ty a b =? 0).
Proof.
  unfold value_equal, cell_cmp. destruct (is_float ty); [done|]. destruct (three_way_cases a b) as [[H ->]|[[H ->]|[H ->]]]; cbn;
    [apply Z.eqb_neq|apply Z.eqb_eq|apply Z.eqb_neq]; lia.
Qed.

Lemma rows_equal_cmp s n c a b : rows_equal s n c a b = (fun z => z =? 0) <$> cmp_from s n c a b.
Proof.
  revert c. induction n as [|n IH]; intros c; cbn [rows_equal cmp_from]; [done|].
  destruct (column_type_at s c) as [ty|]; [|done]. destruct (rd a c); [|done]. destruct (rd b c); [|done]. cbn [mbind option_bind].
  rewrite value_equal_cmp. destruct (cell_cmp ty z z0 =? 0) eqn:Hc; [apply IH|]. cbn. by rewrite Hc.
Qed.

Lemma rows_equal_key (s : shape) a b : row_ok s a -> row_ok s b -> rows_equal s (ncols s) 0 a b = Some (key s a =? key s b).
Proof.
  intros Ha Hb. rewrite rows_equal_cmp, cmp_from_key by done. cbn. f_equal. fold (key s a) (key s b).
  destruct (three_way_cases (key s a) (key s b)) as [[H ->]|[[H ->]|[H ->]]]; cbn; symmetry; [apply Z.eqb_neq|apply Z.eqb_eq|apply Z.eqb_neq]; lia.
Qed.

Lemma hash_row_ok (s : shape) x : row_ok s x -> forall n c h, (c + n = ncols s)%nat -> 0 <= h -> exists h', hash_row s n c x h = Some h' /\ 0 <= h'.
Proof.
  intros Hx. induction n as [|n IH]; intros c h Hc Hh; cbn [hash_row]; [by exists h|].
  destruct (row_cell s x c Hx ltac:(lia)) as (ty & v & Hty & Hv & _). unfold rd. rewrite Hty, Hv. cbn [mbind option_bind]. apply IH; [lia|].
  unfold hash_value, u32. apply Z.mod_pos_bound. lia.
Qed.

(** ** Tables *)

(** The rows of a table, in slot order. *)
Definition contents (ht : table) : list row := omap id ht.

Lemma contents_app a b : contents (a ++ b) = contents a ++ contents b.
Proof. apply omap_app. Qed.

Lemma contents_insert ht i x : ht !! i = Some None -> contents (<[i:=Some x]> ht) ≡ₚ x :: contents ht.
Proof.
  intros Hi. rewrite (insert_take_drop ht i (Some x)) by (by eapply lookup_lt_Some). rewrite <-(take_drop_middle ht i None Hi) at 3.
  rewrite !contents_app. cbn. symmetry. apply Permutation_middle.
Qed.

Lemma contents_elem ht x : x ∈ contents ht <-> exists i, ht !! i = Some (Some x).
Proof.
  unfold contents. rewrite list_elem_of_omap. split.
  - intros (y & Hy & Hx). apply list_elem_of_lookup in Hy as [i Hi]. exists i. cbn in Hx. by subst y.
  - intros [i Hi]. exists (Some x). split; [|done]. by eapply list_elem_of_lookup_2.
Qed.

(** A table that is not full has a free slot. *)
Lemma table_free_slot ht : (length (contents ht) < length ht)%nat -> exists i, ht !! i = Some None.
Proof.
  induction ht as [|[x|] ht IH]; cbn; [lia| |by exists 0%nat]. intros H. destruct IH as [i Hi]; [unfold contents; cbn in *; lia|]. by exists (S i).
Qed.

Lemma contents_replicate n : contents (replicate n None) = [].
Proof. induction n as [|n IH]; [done|]. exact IH. Qed.

Section Probing.
Context (s : shape) (ht : table) (k : Z).
Hypothesis Hk : 0 <= k.
Hypothesis Hsize : Z.of_nat (length ht) = 2 ^ k.
Hypothesis Hok : Forall (row_ok s) (contents ht).

Lemma table_mask_mod x : Z.land x (Z.of_nat (length ht) - 1) = x mod 2 ^ k.
Proof. rewrite Hsize. replace (2 ^ k - 1) with (Z.ones k) by (rewrite Z.ones_equiv; lia). by apply Z.land_ones. Qed.

(** [d] steps ahead of [slot] there is a free slot. *)
Definition free_at (slot : Z) (d : nat) : Prop := ht !! Z.to_nat ((slot + Z.of_nat d) mod 2 ^ k) = Some None.

Lemma free_ahead slot : (length (contents ht) < length ht)%nat -> exists d, (d < length ht)%nat /\ free_at slot d.
Proof.
  intros [j Hj]%table_free_slot. pose proof (lookup_lt_Some _ _ _ Hj) as Hlt. pose proof (Z.pow_pos_nonneg 2 k ltac:(lia) Hk) as Hp.
  pose proof (Z.mod_pos_bound (Z.of_nat j - slot) (2 ^ k) Hp). exists (Z.to_nat ((Z.of_nat j - slot) mod 2 ^ k)). split; [lia|].
  unfold free_at. rewrite Z2Nat.id by lia. rewrite Z.add_mod_idemp_r by lia. replace (slot + (Z.of_nat j - slot)) with (Z.of_nat j) by lia.
  rewrite Z.mod_small by lia. by rewrite Nat2Z.id.
Qed.

Lemma free_next slot d : free_at slot (S d) -> free_at ((slot + 1) mod 2 ^ k) d.
Proof.
  unfold free_at. intros H. rewrite Z.add_mod_idemp_l by (pose proof (Z.pow_pos_nonneg 2 k ltac:(lia) Hk); lia).
  by replace (slot + 1 + Z.of_nat d) with (slot + Z.of_nat (S d)) by lia.
Qed.

Lemma slot_at slot : 0 <= slot < 2 ^ k -> exists u, ht !! Z.to_nat slot = Some u.
Proof. intros H. apply lookup_lt_is_Some_2. lia. Qed.

(** A probe finds an equal row or stops at a free slot. *)
Lemma ht_probe_ok x : row_ok s x -> forall d fuel slot, (d < fuel)%nat -> 0 <= slot < 2 ^ k -> free_at slot d ->
  exists found slot', ht_probe fuel s ht (Z.of_nat (length ht) - 1) slot x = Some (found, slot') /\
    if found : bool then key s x ∈ keys s (contents ht) else 0 <= slot' < 2 ^ k /\ ht !! Z.to_nat slot' = Some None.
Proof.
  intros Hx. pose proof (Z.pow_pos_nonneg 2 k ltac:(lia) Hk) as Hp. induction d as [|d IH]; intros fuel slot Hf Hs Hfree; (destruct fuel as [|fuel]; [lia|]); cbn [ht_probe]; unfold rd.
  - unfold free_at in Hfree. rewrite Z.add_0_r, Z.mod_small in Hfree by done. rewrite Hfree. cbn. by exists false, slot.
  - destruct (slot_at slot Hs) as [[sv|] Hu]; rewrite Hu; cbn [mbind option_bind]; [|by exists false, slot].
    assert (Hsv : sv ∈ contents ht) by (apply contents_elem; eauto).
    rewrite rows_equal_key by (done || by apply (proj1 (Forall_forall _ _) Hok)). cbn [mbind option_bind].
    destruct (Z.eqb_spec (key s sv) (key s x)) as [Heq|Hne].
    + exists true, slot. split; [done|]. rewrite <-Heq. by apply list_elem_of_fmap_2.
    + rewrite table_mask_mod. apply IH; [lia|by apply Z.mod_pos_bound|by apply free_next].
Qed.

Lemma ht_free_ok : forall d fuel slot, (d < fuel)%nat -> 0 <= slot < 2 ^ k -> free_at slot d ->
  exists slot', ht_free fuel ht (Z.of_nat (length ht) - 1) slot = Some slot' /\ 0 <= slot' < 2 ^ k /\ ht !! Z.to_nat slot' = Some None.
Proof.
  pose proof (Z.pow_pos_nonneg 2 k ltac:(lia) Hk) as Hp. induction d as [|d IH]; intros fuel slot Hf Hs Hfree; (destruct fuel as [|fuel]; [lia|]); cbn [ht_free]; unfold rd.
  - unfold free_at in Hfree. rewrite Z.add_0_r, Z.mod_small in Hfree by done. rewrite Hfree. cbn. by exists slot.
  - destruct (slot_at slot Hs) as [[sv|] Hu]; rewrite Hu; cbn [mbind option_bind]; [|by exists slot].
    rewrite table_mask_mod. apply IH; [lia|by apply Z.mod_pos_bound|by apply free_next].
Qed.

(** Both from a hash, in a table with room. *)
Lemma ht_probe_room x h : row_ok s x -> (length (contents ht) < length ht)%nat ->
  exists found slot', ht_probe (length ht) s ht (Z.of_nat (length ht) - 1) (Z.land h (Z.of_nat (length ht) - 1)) x = Some (found, slot') /\
    if found : bool then key s x ∈ keys s (contents ht) else 0 <= slot' < 2 ^ k /\ ht !! Z.to_nat slot' = Some None.
Proof.
  intros Hx Hroom. rewrite table_mask_mod. destruct (free_ahead (h mod 2 ^ k) Hroom) as (d & Hd & Hfree).
  eapply ht_probe_ok; [done|exact Hd|apply Z.mod_pos_bound, Z.pow_pos_nonneg; lia|done].
Qed.

Lemma ht_free_room h : (length (contents ht) < length ht)%nat ->
  exists slot', ht_free (length ht) ht (Z.of_nat (length ht) - 1) (Z.land h (Z.of_nat (length ht) - 1)) = Some slot' /\
    0 <= slot' < 2 ^ k /\ ht !! Z.to_nat slot' = Some None.
Proof.
  intros Hroom. rewrite table_mask_mod. destruct (free_ahead (h mod 2 ^ k) Hroom) as (d & Hd & Hfree).
  eapply ht_free_ok; [exact Hd|apply Z.mod_pos_bound, Z.pow_pos_nonneg; lia|done].
Qed.

End Probing.

(** ** Growing the table *)

Lemma rehash_ok (s : shape) k mask old : 0 <= k -> forall ht, Z.of_nat (length ht) = 2 ^ k -> mask = 2 ^ k - 1 -> Forall (row_ok s) (contents old) ->
  Forall (row_ok s) (contents ht) -> (length (contents old) + length (contents ht) < length ht)%nat ->
  exists ht', rehash s old ht mask = Some ht' /\ length ht' = length ht /\ contents ht' ≡ₚ contents old ++ contents ht.
Proof.
  intros Hk. induction old as [|[sv|] old IH]; intros ht Hsize Hm Hold Hht Hroom; cbn [rehash].
  - exists ht. done.
  - change (contents (Some sv :: old)) with (sv :: contents old) in *. apply Forall_cons in Hold as [Hsv Hold]. cbn [length] in Hroom.
    destruct (hash_row_ok s sv Hsv (ncols s) 0 2166136261 ltac:(lia) ltac:(lia)) as (h & -> & Hh). cbn [mbind option_bind].
    destruct (ht_free_room ht k Hk Hsize h ltac:(lia)) as (ns & Hns & Hr & Hfree). rewrite Hsize, <-Hm in Hns. rewrite Hns. cbn [mbind option_bind].
    rewrite wr_lt by (by eapply lookup_lt_Some). cbn [mbind option_bind]. pose proof (contents_insert ht _ sv Hfree) as Hp.
    destruct (IH (<[Z.to_nat ns:=Some sv]> ht)) as (ht' & -> & Hl & Hp').
    + by rewrite length_insert.
    + done.
    + done.
    + rewrite Hp. by constructor.
    + rewrite Hp, length_insert. cbn. lia.
    + exists ht'. split; [done|]. rewrite length_insert in Hl. split; [done|]. rewrite Hp', Hp. cbn. symmetry. apply Permutation_middle.
  - by apply IH.
Qed.

(** ** Collecting the rows *)

(** The table between two rows: a power of two, with room, holding [uniq]. *)
Record table_ok (s : shape) (ht : table) (uniq : list row) : Prop := {
  tb_size : exists k, 13 <= k /\ Z.of_nat (length ht) = 2 ^ k;
  tb_rows : contents ht ≡ₚ uniq;
  tb_ok : Forall (row_ok s) uniq;
  tb_room : (length uniq < length ht)%nat }.

(** The slot for a new row: the one the probe found, or one in a table of
    twice the size. *)
Lemma table_room (e : hash_env) (s : shape) ht uniq h slot too_many : table_ok s ht uniq -> 0 <= slot < Z.of_nat (length ht) -> ht !! Z.to_nat slot = Some None ->
  exists room, (if (length ht <=? length uniq * 2)%nat then
       if too_many : bool then Some None
       else ht' ← rehash s ht (replicate (length ht * 2) None) (Z.of_nat (length ht * 2) - 1);
            slot' ← ht_free (length ht * 2) ht' (Z.of_nat (length ht * 2) - 1) (Z.land h (Z.of_nat (length ht * 2) - 1));
            Some (Some (ht', slot'))
     else Some (Some (ht, slot))) = Some room /\
    forall ht' slot' x, room = Some (ht', slot') -> row_ok s x -> exists ht'', wr ht' (Z.to_nat slot') (Some x) = Some ht'' /\ table_ok s ht'' (uniq ++ [x]).
Proof.
  intros [(k & Hk & Hsize) Hp Hok Hroom] Hslot Hfree. pose proof (Z.pow_le_mono_r 2 13 k ltac:(lia) Hk) as Hbig. change (2 ^ 13) with 8192 in Hbig.
  assert (Hadd : forall ht0 slot0, contents ht0 ≡ₚ uniq -> (exists k, 13 <= k /\ Z.of_nat (length ht0) = 2 ^ k) -> ht0 !! Z.to_nat slot0 = Some None -> (S (length uniq) < length ht0)%nat ->
    forall x, row_ok s x -> exists ht'', wr ht0 (Z.to_nat slot0) (Some x) = Some ht'' /\ table_ok s ht'' (uniq ++ [x])).
  { intros ht0 slot0 Hp0 Hs0 Hf0 Hr0 x Hx. rewrite wr_lt by (by eapply lookup_lt_Some). eexists. split; [done|]. split.
    - by rewrite length_insert.
    - rewrite (contents_insert ht0 _ x Hf0), Hp0. apply Permutation_cons_append.
    - apply Forall_app. split; [done|]. by constructor.
    - rewrite length_insert, length_app. cbn. lia. }
  destruct (Nat.leb_spec (length ht) (length uniq * 2)) as [Hfull|Hfull].
  - destruct too_many; [exists None; split; [done|]; by intros|].
    assert (Hnew : Z.of_nat (length ht * 2) = 2 ^ (k + 1)) by (rewrite Z.pow_add_r by lia; lia).
    destruct (rehash_ok s (k + 1) (Z.of_nat (length ht * 2) - 1) ht ltac:(lia) (replicate (length ht * 2) None)) as (ht' & -> & Hl & Hc).
    { by rewrite length_replicate. } { lia. } { by rewrite Hp. } { by rewrite contents_replicate. }
    { rewrite contents_replicate, length_replicate, (Permutation_length Hp). cbn. lia. }
    rewrite contents_replicate, app_nil_r, Hp in Hc. rewrite length_replicate in Hl. cbn [mbind option_bind].
    destruct (ht_free_room ht' (k + 1) ltac:(lia) ltac:(lia) h) as (slot' & Hs' & Hr' & Hf'); [rewrite (Permutation_length Hc); lia|].
    rewrite Hl in Hs'. rewrite Hs'. cbn [mbind option_bind]. eexists. split; [done|]. intros ht2 slot2 x [= <- <-] Hx.
    apply Hadd; [done|exists (k + 1); split; lia|done|lia|done].
  - eexists. split; [done|]. intros ht2 slot2 x [= <- <-] Hx. apply Hadd; [done|by exists k|done|lia|done].
Qed.

Lemma hash_rows_ok (e : hash_env) rest : forall (r : rel) pre post ht uniq cap, rows r = pre ++ rest ++ post -> Forall (row_ok r) rest -> table_ok r ht uniq ->
  exists res, hash_rows e (length rest) r (length pre) ht uniq cap = Some res /\
    forall uniq', res = Some uniq' -> Forall (row_ok r) uniq' /\ (forall k, k ∈ keys r uniq' <-> k ∈ keys r uniq \/ k ∈ keys r rest) /\
      (length uniq' <= length uniq + length rest)%nat.
Proof.
  induction rest as [|x rest IH]; intros r pre post ht uniq cap Hr Hok Ht; cbn [length hash_rows].
  { exists (Some uniq). split; [done|]. intros uniq' [= <-]. split_and!; [apply Ht| |lia]. intros k. unfold keys. cbn. rewrite elem_of_nil. tauto. }
  apply Forall_cons in Hok as [Hx Hok]. unfold rd. rewrite (row_at r pre x (rest ++ post)) by (by rewrite Hr). cbn [mbind option_bind].
  destruct (hash_row_ok r x Hx (ncols r) 0 2166136261 ltac:(lia) ltac:(lia)) as (h & -> & Hh). cbn [mbind option_bind].
  pose proof Ht as [(k & Hk & Hsize) Hp Huok Hroom].
  destruct (ht_probe_room r ht k ltac:(lia) Hsize ltac:(by rewrite Hp) x h Hx ltac:(by rewrite Hp)) as (found & slot & -> & Hf). cbn [mbind option_bind].
  assert (Hr' : rows r = (pre ++ [x]) ++ rest ++ post) by (by rewrite Hr, <-app_assoc).
  assert (Hl : length (pre ++ [x]) = S (length pre)) by (rewrite length_app; cbn; lia).
  destruct found.
  - destruct (IH r (pre ++ [x]) post ht uniq cap Hr' Hok Ht) as (res & Hres & Hu). rewrite Hl in Hres. exists res. split; [done|].
    intros uniq' ->. destruct (Hu uniq' eq_refl) as (U1 & U2 & U3). split_and!; [done| |lia]. intros j. rewrite U2. unfold keys in *. cbn. rewrite elem_of_cons.
    rewrite Hp in Hf. split; [tauto|]. intros [?|[->|?]]; tauto.
  - destruct Hf as [Hsl Hfree]. set (give := (nrows r / 4 <? length uniq)%nat || negb (Consolidate.rehash_ok e (length uniq))).
    destruct (table_room e r ht uniq h slot give Ht ltac:(lia) Hfree) as (room & Hrm & Hnext).
    cbv zeta in Hrm |- *. rewrite Hrm. clear Hrm. cbn [mbind option_bind]. destruct room as [[ht' slot']|]; [|exists None; split; [done|]; by intros].
    destruct (Hnext ht' slot' x eq_refl Hx) as (ht'' & -> & Ht''). cbn [mbind option_bind].
    destruct (_ && _); [exists None; split; [done|]; by intros|].
    destruct (IH r (pre ++ [x]) post ht'' (uniq ++ [x]) (if (cap <=? length uniq)%nat then cap * 2 else cap)%nat Hr' Hok Ht'') as (res & Hres & Hu).
    rewrite Hl in Hres. exists res. split; [done|]. intros uniq' ->. destruct (Hu uniq' eq_refl) as (U1 & U2 & U3). rewrite length_app in U3. cbn in U3.
    split_and!; [done| |lia]. intros j. rewrite U2. unfold keys. rewrite fmap_app. cbn. rewrite elem_of_app, !elem_of_cons, elem_of_nil. tauto.
Qed.
