(* ===== verification/KwayProof.v ===== *)
(** * Correctness of the k-way consolidation and of the operator

    The segments are sorted and deduplicated one by one and merged, by two
    cursors or by a heap, or the rows go through the hash table first; what
    comes out is the sorted set of the rows. *)

From stdpp Require Import sorting.
From S2P Require Import Prelude RadixSort Relation RelSort Consolidate ConsolidateProof HeapProof DeltaProof HashDedup.

Import Keys Rel RelSort Consolidate.

(** ** Outcomes *)

(** [r'] holds the sorted set of [l] in the storage of [r]. *)
Record deduped (r r' : rel) (l : list row) : Prop := {
  dd_form : exists l' n, r' = set_nrows n (set_rows l' r) /\ length l' = length (rows r) /\ (n <= nrows r)%nat;
  dd_strict : strict r (stored r');
  dd_ok : Forall (row_ok r) (stored r');
  dd_keys : forall k, k ∈ keys r (stored r') <-> k ∈ keys r l }.

(** The sort succeeds on relations with these lanes, up to [N] rows. *)
Definition sorts_upto (sort : rel -> nat -> nat -> option (rel * Z)) (s : shape) (N : nat) : Prop :=
  forall (r : rel) pre l post, lanes r = s -> rows r = pre ++ l ++ post -> (length pre + length l <= nrows r)%nat -> (length l <= N)%nat ->
    Forall (row_ok r) l -> exists r1, sort r (length pre) (length l) = Some (r1, 0).

Lemma strict_short s l : (length l <= 1)%nat -> strict s l.
Proof. destruct l as [|x [|y l]]; cbn; [constructor|by repeat constructor|lia]. Qed.

(** Scattering merged rows back to the front. *)
Lemma write_back (r : rel) m l : Forall (row_ok r) m -> strict r m -> (length m <= nrows r <= length (rows r))%nat ->
  (forall k, k ∈ keys r m <-> k ∈ keys r l) ->
  exists r', copy_back r 0 m = Some r' /\ deduped r (set_nrows (length m) r') l.
Proof.
  intros Hok Hs Hn Hk. destruct (copy_back_ok m r [] (take (length m) (rows r)) (drop (length m) (rows r))) as (m' & Hc & Hl & Hok' & Hk');
    [cbn; by rewrite take_drop|rewrite length_take; lia|done|]. cbn [length app] in Hc. rewrite Hc. eexists. split; [done|].
  assert (Ht : take (length m) (m' ++ drop (length m) (rows r)) = m') by (rewrite <-Hl; apply take_app_length).
  split; unfold stored; cbn [nrows rows set_nrows set_rows]; rewrite ?Ht.
  - eexists _, _. split; [done|]. rewrite length_app, length_drop. lia.
  - apply strict_keys. rewrite Hk'. by apply strict_keys.
  - done.
  - intros k. by rewrite Hk', Hk.
Qed.

(** ** Emitting in order *)

Record emitted (r : rel) (out rest out' : list row) : Prop := {
  em_strict : strict r out';
  em_ok : Forall (row_ok r) out';
  em_keys : forall k, k ∈ keys r out' <-> k ∈ keys r out \/ k ∈ keys r rest;
  em_len : (length out' <= length out + length rest)%nat }.

(** What is emitted is below what remains. *)
Definition below (r : rel) (out rest : list row) : Prop := forall y z, y ∈ out -> z ∈ rest -> key r y <= key r z.

(** One row, the least of those that remain. *)
Lemma emit_step (r : rel) cap idx x out rest : rows r !! idx = Some x -> row_ok r x -> strict r out -> Forall (row_ok r) out ->
  below r out (x :: rest) -> (forall z, z ∈ rest -> key r x <= key r z) -> (length out < cap)%nat ->
  exists out', emit_new r cap idx out = Some out' /\ emitted r out [x] out' /\ below r out' rest.
Proof.
  intros Hi Hx Hs Hok Hb Hmin Hc. destruct (emit_new_ok r cap idx x out Hi Hx Hs Hok) as (out' & -> & H1 & H2 & H3 & H4 & H5 & H6).
  { intros y Hy. apply Hb; [done|left]. } { done. }
  exists out'. split; [done|]. split; [split; try done|].
  - intros k. rewrite H3. unfold keys. cbn. rewrite elem_of_cons, elem_of_nil. tauto.
  - cbn. lia.
  - intros y z Hy Hz. specialize (H4 y Hy). specialize (Hmin z Hz). lia.
Qed.

Lemma emitted_trans (r : rel) out l1 out1 l2 out2 l : emitted r out l1 out1 -> emitted r out1 l2 out2 ->
  (forall k, k ∈ keys r l1 \/ k ∈ keys r l2 <-> k ∈ keys r l) -> (length l1 + length l2 <= length l)%nat -> emitted r out l out2.
Proof.
  intros [A1 A2 A3 A4] [B1 B2 B3 B4] Hk Hl. split; [done|done| |lia]. intros k. rewrite B3, A3. rewrite <-(Hk k). tauto.
Qed.

(** The rows [l] are at [i]. *)
Definition at_ (r : rel) (i : nat) (l : list row) : Prop := take (length l) (drop i (rows r)) = l.

Lemma at_cons r i x l : at_ r i (x :: l) -> rows r !! i = Some x /\ at_ r (S i) l.
Proof.
  unfold at_. cbn [length]. destruct (drop i (rows r)) as [|y d] eqn:Hd; [done|]. cbn [take]. intros [= -> Hl].
  assert (Hi : rows r !! i = Some x) by (rewrite <-(Nat.add_0_r i), <-lookup_drop, Hd; done). split; [done|].
  rewrite (drop_S _ _ _ Hi) in Hd. injection Hd as Hd. by rewrite Hd.
Qed.

Lemma emit_range_ok (r : rel) cap l : forall i out, at_ r i l -> Forall (row_ok r) l -> strict r l -> strict r out -> Forall (row_ok r) out ->
  below r out l -> (length out + length l <= cap)%nat -> exists out', emit_range (length l) r cap i out = Some out' /\ emitted r out l out'.
Proof.
  induction l as [|x l IH]; intros i out Hat Hok Hl Hs Ho Hb Hc; cbn [length emit_range].
  { exists out. split; [done|]. split; [done|done| |cbn; lia]. intros k. unfold keys. cbn. rewrite elem_of_nil. tauto. }
  apply at_cons in Hat as [Hi Hat]. apply Forall_cons in Hok as [Hx Hok]. apply strict_cons in Hl as [Hl Hlt]. cbn [length] in Hc.
  destruct (emit_step r cap i x out l) as (out1 & -> & He & Hb1); [done..|intros z Hz; specialize (Hlt z Hz); lia|lia|]. cbn [mbind option_bind].
  pose proof He as [E1 E2 _ E4]. cbn in E4. destruct (IH (S i) out1) as (out' & -> & He'); [done..|lia|]. exists out'. split; [done|].
  eapply emitted_trans; [exact He|exact He'| |cbn; lia]. intros k. unfold keys. cbn. rewrite !elem_of_cons, elem_of_nil. tauto.
Qed.

(** ** Two segments *)

Lemma merge2_ok (r : rel) cap fuel : forall i j A B out, at_ r i A -> at_ r j B -> Forall (row_ok r) A -> Forall (row_ok r) B -> strict r A -> strict r B ->
  strict r out -> Forall (row_ok r) out -> below r out (A ++ B) -> (length A + length B < fuel)%nat -> (length out + length A + length B <= cap)%nat ->
  exists out', merge2 fuel r cap i (i + length A) j (j + length B) out = Some out' /\ emitted r out (A ++ B) out'.
Proof.
  induction fuel as [|fuel IH]; intros i j A B out HA HB HoA HoB HsA HsB Hs Ho Hb Hf Hc; [lia|]. cbn [merge2].
  assert (Hrest : (length A = O \/ length B = O) -> exists out', (out1 ← emit_range (i + length A - i) r cap i out; emit_range (j + length B - j) r cap j out1) = Some out' /\ emitted r out (A ++ B) out').
  { intros Hz. replace (i + length A - i)%nat with (length A) by lia. replace (j + length B - j)%nat with (length B) by lia.
    destruct (emit_range_ok r cap A i out) as (out1 & -> & He); [done..|intros y z Hy Hz'; apply Hb; [done|apply elem_of_app; by left]|lia|]. cbn [mbind option_bind].
    pose proof He as [E1 E2 E3 E4]. destruct (emit_range_ok r cap B j out1) as (out2 & -> & He2); [done..| |lia|].
    { destruct Hz as [Hz|Hz]; apply nil_length_inv in Hz as ->; [|intros y z _ Hz; by apply not_elem_of_nil in Hz].
      intros y z Hy Hz. assert (Hky : key r y ∈ keys r out1) by (by apply list_elem_of_fmap_2). apply E3 in Hky as [Hky|Hky]; [|by apply not_elem_of_nil in Hky].
      apply list_elem_of_fmap in Hky as (y' & -> & Hy'). apply Hb; [done|]. by apply elem_of_app; right. }
    exists out2. split; [done|]. eapply emitted_trans; [exact He|exact He2| |rewrite length_app; lia]. intros k. unfold keys. rewrite fmap_app, elem_of_app. tauto. }
  destruct A as [|a A]; [rewrite (proj2 (Nat.ltb_ge i (i + length [])%nat)) by (cbn; lia); cbn [andb]; apply Hrest; by left|].
  destruct B as [|b B]; [rewrite (proj2 (Nat.ltb_ge j (j + length [])%nat)) by (cbn; lia); rewrite andb_false_r; apply Hrest; by right|]. clear Hrest.
  rewrite (proj2 (Nat.ltb_lt i _)), (proj2 (Nat.ltb_lt j _)) by (cbn; lia). cbn [andb].
  pose proof HA as HA0. pose proof HB as HB0. apply at_cons in HA as [Hi HA]. apply at_cons in HB as [Hj HB].
  apply Forall_cons in HoA as [Ha HoA']. apply Forall_cons in HoB as [Hbk HoB']. pose proof HsA as HsA0. pose proof HsB as HsB0.
  apply strict_cons in HsA as [HsA HaA]. apply strict_cons in HsB as [HsB HbB].
  rewrite (row_cmp_key r i j a b Hi Hj Ha Hbk). cbn [mbind option_bind]. cbn [length] in *.
  replace (i + S (length A))%nat with (S i + length A)%nat by lia. replace (j + S (length B))%nat with (S j + length B)%nat by lia.
  assert (HlA : forall z, z ∈ A -> key r a <= key r z) by (intros z Hz; specialize (HaA z Hz); lia).
  assert (HlB : forall z, z ∈ B -> key r b <= key r z) by (intros z Hz; specialize (HbB z Hz); lia).
  destruct (three_way_cases (key r a) (key r b)) as [[Hab ->]|[[Hab ->]|[Hab ->]]]; cbn [Z.leb Z.eqb Z.compare].
  - destruct (emit_step r cap i a out (A ++ b :: B)) as (out1 & -> & He & Hb1); [done..| |lia|].
    { intros z [Hz|[->|Hz]%elem_of_cons]%elem_of_app; [by apply HlA|lia|specialize (HlB z Hz); lia]. }
    cbn [mbind option_bind]. pose proof He as [E1 E2 _ E4]. cbn in E4.
    destruct (IH (S i) j A (b :: B) out1) as (out' & Hm & He'); try done; [by apply Forall_cons|cbn; lia|cbn; lia|].
    cbn [length] in Hm. replace (j + S (length B))%nat with (S j + length B)%nat in Hm by lia. rewrite Hm. exists out'. split; [done|].
    eapply emitted_trans; [exact He|exact He'| |cbn; rewrite !length_app; cbn; lia]. intros k. unfold keys. cbn. rewrite !elem_of_cons, elem_of_nil. tauto.
  - destruct (emit_step r cap i a out (A ++ B)) as (out1 & -> & He & Hb1); [done|done|done|done| | |lia|].
    { intros y z Hy Hz. apply Hb; [done|]. set_solver. }
    { intros z [Hz|Hz]%elem_of_app; [by apply HlA|specialize (HlB z Hz); lia]. }
    cbn [mbind option_bind]. pose proof He as [E1 E2 _ E4]. cbn in E4.
    destruct (IH (S i) (S j) A B out1) as (out' & Hm & He'); try done; [lia|lia|]. rewrite Hm. exists out'. split; [done|].
    eapply emitted_trans; [exact He|exact He'| |cbn; rewrite !length_app; cbn; lia]. intros k. unfold keys. cbn. rewrite !fmap_app, fmap_cons, !elem_of_cons, elem_of_nil, !elem_of_app, elem_of_cons, Hab. tauto.
  - destruct (emit_step r cap j b out (a :: A ++ B)) as (out1 & -> & He & Hb1); [done|done|done|done| | |lia|].
    { intros y z Hy Hz. apply Hb; [done|]. set_solver. }
    { intros z [->|[Hz|Hz]%elem_of_app]%elem_of_cons; [lia|specialize (HlA z Hz); lia|by apply HlB]. }
    cbn [mbind option_bind]. pose proof He as [E1 E2 _ E4]. cbn in E4.
    destruct (IH i (S j) (a :: A) B out1) as (out' & Hm & He'); try done; [by apply Forall_cons|cbn; lia|cbn; lia|].
    cbn [length] in Hm. replace (i + S (length A))%nat with (S i + length A)%nat in Hm by lia. rewrite Hm. exists out'. split; [done|].
    eapply emitted_trans; [exact He|exact He'| |cbn; rewrite !length_app; cbn; lia]. intros k. unfold keys. cbn. rewrite !fmap_app, fmap_cons, !elem_of_cons, elem_of_nil, !elem_of_app, elem_of_cons. tauto.
Qed.

(** ** Segments *)

(** The boundaries from [start] to [n]. *)
Fixpoint cuts (start : nat) (bounds : list nat) (n : nat) : Prop :=
  match bounds with [] => start = n | b :: bounds' => (start <= b)%nat /\ cuts b bounds' n end.

Lemma cuts_le bounds : forall start n, cuts start bounds n -> (start <= n)%nat.
Proof. induction bounds as [|b bounds IH]; intros start n; cbn; [lia|]. intros [H1 H2%IH]. lia. Qed.

Section Operator.
Context (sort : rel -> nat -> nat -> option (rel * Z)) `{!RangeSort sort} (e : cons_env).

(** One segment: sorted in place if it has to be, without duplicates. *)
Lemma sort_segment_ok (r : rel) pre seg post : rows r = pre ++ seg ++ post -> (length pre + length seg <= nrows r)%nat -> Forall (row_ok r) seg ->
  sorts_upto sort r (length seg) ->
  exists ds G, (if (1 <? length seg)%nat then
       already ← sorted_check (length seg - 1) r (length pre + 1);
       '(r1, _) ← (if already : bool then Some (r, 0) else sort r (length pre) (length seg));
       dedup_last (length seg - 1) r1 (length pre + 1) (length pre + 1)
     else Some (r, (length pre + length seg)%nat)) = Some (set_rows (pre ++ (ds ++ G) ++ post) r, (length pre + length ds)%nat) /\
    length (ds ++ G) = length seg /\ strict r ds /\ Forall (row_ok r) ds /\ (forall k, k ∈ keys r ds <-> k ∈ keys r seg).
Proof.
  intros Hr Hn Hok Hsort. assert (Hid : set_rows (pre ++ seg ++ post) r = r) by (rewrite <-Hr; by destruct r).
  destruct (Nat.ltb_spec 1 (length seg)) as [H1|H1].
  2:{ exists seg, []. rewrite app_nil_r, Hid. split_and!; [done|done|by apply strict_short|done|done]. }
  assert (Hsorted : exists l, l ≡ₚ seg /\ StronglySorted (by_key r) l /\ (already ← sorted_check (length seg - 1) r (length pre + 1);
       '(r1, _) ← (if already : bool then Some (r, 0) else sort r (length pre) (length seg)); dedup_last (length seg - 1) r1 (length pre + 1) (length pre + 1)) =
       dedup_last (length seg - 1) (set_rows (pre ++ l ++ post) r) (length pre + 1) (length pre + 1)).
  { destruct seg as [|p rest]; [cbn in H1; lia|]. cbn [length] in *. rewrite Nat.sub_succ, Nat.sub_0_r. apply Forall_cons in Hok as [Hp Hrest].
    destruct (sorted_check_ok rest r pre p post) as (b & -> & Hb); [by rewrite Hr|done|done|]. cbn [mbind option_bind]. destruct b.
    - exists (p :: rest). split; [done|]. split; [by apply Hb|]. cbn [mbind option_bind]. cbn [app] in Hid |- *. by rewrite Hid.
    - destruct (Hsort r pre (p :: rest) post) as [r1 Hr1]; [done|done|done|done|by apply Forall_cons|].
      destruct (sort_range r pre (p :: rest) post Hr Hn) as (l & rc & Hs & H0 & _); [by apply Forall_cons|]. cbn [length] in *.
      rewrite Hs in Hr1. injection Hr1 as <- ->. destruct (H0 eq_refl) as [Hperm Hso]. exists l. split_and!; [done..|]. by rewrite Hs. }
  destruct Hsorted as (l & Hp & Hso & ->). rewrite <-Hp in Hok. assert (Hl : length l = length seg) by (by rewrite Hp). rewrite <-Hl in *.
  destruct l as [|x l]; [cbn in H1; lia|]. cbn [length]. rewrite Nat.sub_succ, Nat.sub_0_r. apply Forall_cons in Hok as [Hx Hok].
  destruct (dedup_last_ok l (set_rows (pre ++ (x :: l) ++ post) r) pre [x] [] x post) as (G & Hd & HG); [done|done|done|done|].
  cbn [length Nat.add app] in Hd, HG |- *. rewrite Hd. destruct (dropped_spec r x l Hso) as (D1 & D2 & D3 & D4).
  exists (x :: dropped r x l), G. rewrite set_rows_twice. change (lanes (set_rows _ r)) with (lanes r) in *. split_and!.
  - cbn [app length]. by rewrite <-app_assoc.
  - cbn [app length]. rewrite length_app. lia.
  - done.
  - constructor; [done|]. apply Forall_forall. intros y Hy%D3. by apply (proj1 (Forall_forall _ _) Hok).
  - intros k. rewrite D2. unfold keys. by rewrite Hp.
Qed.

Lemma sorts_upto_le s N M : (M <= N)%nat -> sorts_upto sort s N -> sorts_upto sort s M.
Proof. intros HM H r pre l post H1 H2 H3 H4 H5. eapply H; [done|done|done|lia|done]. Qed.

Lemma sort_segments_cons r start b bounds : sort_segments sort r (start :: b :: bounds) =
  ('(r', seg_end) ←
     (if (1 <? b - start)%nat then
        already ← sorted_check (b - start - 1) r (start + 1);
        '(r1, _) ← (if already : bool then Some (r, 0) else sort r start (b - start));
        dedup_last (b - start - 1) r1 (start + 1) (start + 1)
      else Some (r, b));
   '(r'', segs) ← sort_segments sort r' (b :: bounds);
   Some (r'', (start, seg_end) :: segs)).
Proof. done. Qed.

Lemma sort_segments_ok N bounds : forall (r : rel) pre mid post, rows r = pre ++ mid ++ post -> (length pre + length mid <= nrows r)%nat -> Forall (row_ok r) mid ->
  cuts (length pre) bounds (length pre + length mid) -> (length mid <= N)%nat -> sorts_upto sort r N ->
  exists mid' segs, sort_segments sort r (length pre :: bounds) = Some (set_rows (pre ++ mid' ++ post) r, segs) /\ length mid' = length mid /\
    length segs = length bounds /\ Forall (seg_ok (set_rows (pre ++ mid' ++ post) r)) segs /\ (length (slices (set_rows (pre ++ mid' ++ post) r) segs) <= length mid)%nat /\
    (forall k, k ∈ keys r (slices (set_rows (pre ++ mid' ++ post) r) segs) <-> k ∈ keys r mid) /\
    (forall n, head segs = Some n -> n.1 = length pre).
Proof.
  induction bounds as [|b bounds IH]; intros r pre mid post Hr Hn Hok Hc HN Hsort.
  { cbn in Hc. assert (Hm : mid = []) by (apply nil_length_inv; lia). subst mid. exists [], []. cbn. cbn in Hr. rewrite <-Hr. replace (set_rows (rows r) r) with r by (by destruct r).
    split_and!; done. }
  destruct Hc as [Hle Hc]. pose proof (cuts_le _ _ _ Hc) as Hbn.
  set (seg := take (b - length pre) mid). set (rest := drop (b - length pre) mid).
  assert (Hmid : mid = seg ++ rest) by (unfold seg, rest; by rewrite take_drop). assert (Hls : length seg = (b - length pre)%nat) by (unfold seg; rewrite length_take; lia).
  assert (Hlr : (length seg + length rest)%nat = length mid) by (by rewrite Hmid, length_app).
  rewrite Hmid in Hok. apply Forall_app in Hok as [Hok1 Hok2].
  destruct (sort_segment_ok r pre seg (rest ++ post)) as (ds & G & Hseg & Hdl & Hds & Hdok & Hdk); [rewrite Hr, Hmid; by rewrite <-app_assoc|lia|done|eapply sorts_upto_le; [|done]; lia|].
  rewrite sort_segments_cons. rewrite Hls in Hseg. replace (length pre + (b - length pre))%nat with b in Hseg by lia.
  set (r1 := set_rows (pre ++ (ds ++ G) ++ rest ++ post) r) in *. rewrite Hseg. cbn [mbind option_bind].
  assert (Hpre : length (pre ++ ds ++ G) = b) by (rewrite length_app, Hdl; lia).
  destruct (IH r1 (pre ++ ds ++ G) rest post) as (mid' & segs & Hss & Hl' & Hls' & Hsg & Hsl & Hk & _).
  { unfold r1. cbn. by rewrite <-!app_assoc. } { cbn [nrows r1 set_rows]. unfold r1. cbn. rewrite Hpre. lia. } { done. } { rewrite Hpre. replace (b + length rest)%nat with (length pre + length mid)%nat by lia. done. } { lia. } { done. }
  rewrite Hpre in Hss. rewrite Hss. cbn [mbind option_bind]. unfold r1 in *. rewrite set_rows_twice in *.
  assert (Happ : (pre ++ ds ++ G) ++ mid' ++ post = pre ++ ((ds ++ G) ++ mid') ++ post) by (by rewrite <-!app_assoc). rewrite Happ in *. clear Happ.
  set (r2 := set_rows (pre ++ ((ds ++ G) ++ mid') ++ post) r) in *.
  assert (Hslice : slice r2 (length pre) (length pre + length ds) = ds).
  { unfold slice, r2. cbn. rewrite drop_app_length. replace (length pre + length ds - length pre)%nat with (length ds) by lia. rewrite <-!app_assoc. apply take_app_length. }
  rewrite length_app in Hdl.
  exists ((ds ++ G) ++ mid'), ((length pre, (length pre + length ds)%nat) :: segs). fold r2. split; [done|]. split_and!.
  - rewrite !length_app. lia.
  - cbn. lia.
  - constructor; [|done]. split; cbn [fst snd]; rewrite ?Hslice; [|exact Hdok|exact Hds]. unfold r2. cbn. rewrite !length_app. lia.
  - change (slices r2 ((length pre, (length pre + length ds)%nat) :: segs)) with (slice r2 (length pre) (length pre + length ds) ++ slices r2 segs). rewrite Hslice, length_app. lia.
  - intros k. change (slices r2 ((length pre, (length pre + length ds)%nat) :: segs)) with (slice r2 (length pre) (length pre + length ds) ++ slices r2 segs). rewrite Hslice.
    rewrite Hmid. unfold keys in *. rewrite !fmap_app, !elem_of_app. cbn [lanes set_rows] in Hk. rewrite Hdk, Hk. tauto.
  - intros n [= <-]. done.
Qed.

(** ** The hash path *)

Lemma stored_rest (r : rel) : rows r = stored r ++ drop (nrows r) (rows r).
Proof. unfold stored. by rewrite take_drop. Qed.

(** Sorting the front of a relation and dropping equal neighbours. *)
Lemma sort_front_ok (r : rel) l post : rows r = l ++ post -> (length l <= nrows r)%nat -> Forall (row_ok r) l -> l <> [] -> sorts_upto sort r (length l) ->
  exists r1 l' out, sort r 0 (length l) = Some (r1, 0) /\ dedup_prev (length l - 1) r1 0 1 1 = Some (set_rows l' r, out) /\
    length l' = length (rows r) /\ (out <= length l)%nat /\ strict r (take out l') /\ Forall (row_ok r) (take out l') /\ (forall k, k ∈ keys r (take out l') <-> k ∈ keys r l).
Proof.
  intros Hr Hn Hok Hne Hsort. destruct (Hsort r [] l post) as [r1 Hr1]; [done|done|done|done|done|]. cbn [length] in Hr1.
  destruct (sort_dedup_ok sort r r1 [] l post) as (ds & G & Hd & D1 & D2 & D3 & D4 & D5); [done|done|done|done|done|]. cbn [app length] in Hd.
  exists r1, (ds ++ G ++ post), (length ds). rewrite take_app_length. split_and!; [done|done| |lia|done|done|done]. rewrite Hr, !length_app. lia.
Qed.

Lemma hash_dedup_ok (r : rel) : fits r -> Forall (row_ok r) (stored r) -> (0 < nrows r)%nat -> sorts_upto sort r (nrows r) ->
  exists r' rc, col_op_consolidate_hash_dedup sort e r = Some (r', rc) /\ ((rc = 0 /\ deduped r r' (stored r)) \/ (rc = -1 /\ r' = r)).
Proof.
  intros Hf Hok Hpos Hsort. pose proof Hf as [Hn Hc]. unfold col_op_consolidate_hash_dedup. destruct (tables_ok _); cbn [negb]; [|exists r, (-1); eauto].
  destruct (hash_rows_ok (hash_allocs e) (stored r) r [] (drop (nrows r) (rows r)) (replicate 8192 None) [] 4096) as (res & Hres & Hu).
  { apply stored_rest. } { done. }
  { split; [exists 13; rewrite length_replicate; done|by rewrite contents_replicate|constructor|rewrite length_replicate; cbn; lia]. }
  rewrite (length_stored r Hf) in Hres. cbn [length] in Hres. rewrite Hres. cbn [mbind option_bind]. clear Hres.
  destruct res as [uniq|]; [|exists r, (-1); eauto]. destruct (Hu uniq eq_refl) as (U1 & U2 & U3). cbn [length Nat.add] in U3. rewrite (length_stored r Hf) in U3.
  assert (U2' : forall k, k ∈ keys r uniq <-> k ∈ keys r (stored r)) by (intros k; rewrite U2; unfold keys; cbn; rewrite elem_of_nil; tauto). clear U2 Hu.
  destruct (Nat.ltb_spec 1 (length uniq)) as [H1|H1].
  - destruct (copy_back_ok uniq r [] (take (length uniq) (rows r)) (drop (length uniq) (rows r))) as (u & Hcb & Hul & Huok & Huk);
      [cbn; by rewrite take_drop|rewrite length_take; lia|done|]. cbn [length app] in Hcb. rewrite Hcb. cbn [mbind option_bind].
    set (r2 := set_nrows (length uniq) (set_rows (u ++ drop (length uniq) (rows r)) r)).
    destruct (sort_front_ok r2 u (drop (length uniq) (rows r))) as (r3 & l' & out & Hs & Hd & L1 & L2 & L3 & L4 & L5);
      [done|cbn; lia|done|intros ->; cbn in Hul; lia|eapply sorts_upto_le; [|exact Hsort]; lia|].
    rewrite Hul in Hs, Hd. rewrite Hs. cbn [mbind option_bind]. rewrite Hd. cbn [mbind option_bind]. eexists _, 0. split; [done|]. left. split; [done|].
    split; unfold stored; cbn.
    + exists l', out. split; [done|]. split; [|lia]. rewrite L1. cbn. rewrite length_app, length_drop. lia.
    + exact L3.
    + exact L4.
    + intros k. rewrite <-U2', <-Huk. apply L5.
  - destruct (write_back r uniq (stored r) U1 (strict_short r uniq H1) ltac:(lia) U2') as (r1 & -> & Hd). cbn [mbind option_bind]. eexists _, 0. eauto.
Qed.

(** ** The k-way merge *)

Definition kway_space : bool := segs_ok e && merged_ok e && heap_ok e.

Lemma kway_ok (r : rel) b bs : fits r -> Forall (row_ok r) (stored r) -> cuts 0 (b :: bs) (nrows r) -> sorts_upto sort r (nrows r) ->
  exists r' rc, col_op_consolidate_kway_merge sort e r (0%nat :: b :: bs) = Some (r', rc) /\
    (rc = 0 -> deduped r r' (stored r)) /\ (rc <> 0 -> rc = ENOMEM /\ kway_space = false).
Proof.
  intros Hf Hok Hcuts Hsort. pose proof Hf as [Hn Hc]. unfold col_op_consolidate_kway_merge, kway_space. rewrite (float_valid_ok r Hf Hok). cbn [mbind option_bind negb].
  destruct (Nat.leb_spec (nrows r) 1) as [H1|H1].
  { exists r, 0. split; [done|]. split; [|done]. intros _. split; [|apply strict_short; rewrite (length_stored r Hf); lia|done|done].
    exists (rows r), (nrows r). split; [by destruct r|done]. }
  assert (Hhash : exists r0 rc, (if (10000 <? nrows r)%nat then col_op_consolidate_hash_dedup sort e r else Some (r, -1)) = Some (r0, rc) /\
    ((rc = 0 /\ deduped r r0 (stored r)) \/ (rc = -1 /\ r0 = r))).
  { destruct (10000 <? nrows r)%nat; [apply hash_dedup_ok; (done || lia)|]. exists r, (-1). eauto. }
  destruct Hhash as (r0 & rc0 & -> & [[-> Hd]|[-> ->]]); cbn [mbind option_bind Z.eqb]; [by exists r0, 0|].
  destruct (segs_ok e); cbn [negb andb]; [|by exists r, ENOMEM].
  destruct (sort_segments_ok (nrows r) (b :: bs) r [] (stored r) (drop (nrows r) (rows r))) as (mid & segs & Hss & Hml & Hsl & Hsg & Hlen & Hk & Hhd);
    [apply stored_rest|rewrite (length_stored r Hf); done|done|by rewrite (length_stored r Hf)|by rewrite (length_stored r Hf)|done|].
  cbn [length app] in Hss. rewrite Hss. cbn [mbind option_bind]. clear Hss. cbn [app] in Hsg, Hlen, Hk. set (r1 := set_rows (mid ++ drop (nrows r) (rows r)) r) in *.
  rewrite (length_stored r Hf) in Hml, Hlen. assert (Hr1 : length (rows r1) = length (rows r)) by (unfold r1; cbn; rewrite length_app, length_drop; lia).
  assert (Hout : forall m, Forall (row_ok r) m -> strict r m -> (length m <= nrows r)%nat -> (forall k, k ∈ keys r m <-> k ∈ keys r (slices r1 segs)) ->
    exists r2, copy_back r1 0 m = Some r2 /\ deduped r (set_nrows (length m) r2) (stored r)).
  { intros m M1 M2 M3 M4. destruct (write_back r1 m (stored r)) as (r2 & -> & [(l' & n & D1 & D2 & D3) D4 D5 D6]); [done|done|change (nrows r1) with (nrows r); lia| |].
    { intros k. change (lanes r1) with (lanes r). rewrite M4. apply Hk. } exists r2. split; [done|]. split; [|done|done|done]. exists l', n. split; [by rewrite D1|]. split; [by rewrite D2|done]. }
  destruct segs as [|[s0 e0] segs]; [cbn in Hsl; lia|]. specialize (Hhd _ eq_refl). cbn in Hhd. subst s0. destruct segs as [|[s1 e1] segs].
  - apply Forall_cons in Hsg as [[G1 G2 G3] _]. cbn [fst snd] in *. change (slices r1 [(0%nat, e0)]) with (slice r1 0 e0 ++ []) in Hlen, Hk. rewrite app_nil_r in Hlen, Hk.
    rewrite length_slice in Hlen by done. exists (set_nrows e0 r1), 0. split; [done|]. split; [|done]. intros _.
    assert (Hst : stored (set_nrows e0 r1) = slice r1 0 e0) by (unfold stored, slice; cbn; by rewrite drop_0, Nat.sub_0_r).
    split; rewrite ?Hst; try done. eexists _, e0. split; [done|]. split; [done|lia].
  - destruct (merged_ok e); cbn [negb andb]; [|by exists r1, ENOMEM].
    destruct segs as [|sg2 segs].
    + apply Forall_cons in Hsg as [[G1 G2 G3] Hsg]. apply Forall_cons in Hsg as [[G4 G5 G6] _]. cbn [fst snd] in *.
      change (slices r1 [(0%nat, e0); (s1, e1)]) with (slice r1 0 e0 ++ slice r1 s1 e1 ++ []) in Hlen, Hk, Hout. rewrite app_nil_r in Hlen, Hk, Hout.
      pose proof (length_slice r1 _ _ G1) as L1. pose proof (length_slice r1 _ _ G4) as L2. rewrite length_app in Hlen.
      destruct (merge2_ok r1 (nrows r) (S (e0 - 0 + (e1 - s1))) 0 s1 (slice r1 0 e0) (slice r1 s1 e1) []) as (m & Hm & [M1 M2 M3 M4]).
      { unfold at_. by rewrite L1. } { unfold at_. by rewrite L2. } { done. } { done. } { done. } { done. } { constructor. } { constructor. }
      { intros y z Hy. by apply not_elem_of_nil in Hy. } { lia. } { cbn. lia. }
      rewrite L1, L2 in Hm. replace (0 + (e0 - 0))%nat with e0 in Hm by lia. replace (s1 + (e1 - s1))%nat with e1 in Hm by lia. rewrite Hm. cbn [mbind option_bind].
      cbn [length Nat.add] in M4. rewrite length_app in M4. destruct (Hout m M2 M1 ltac:(lia)) as (r2 & -> & Hd).
      { intros k. change (lanes r1) with (lanes r) in M3. rewrite M3. unfold keys. cbn. rewrite elem_of_nil. tauto. }
      cbn [mbind option_bind]. eexists _, 0. done.
    + destruct (heap_ok e); cbn [negb andb]; [|by exists r1, ENOMEM].
      destruct (heap_merge_ok r1 (row_lt r1) (row_le r1) (fun _ => Some 0)) with (cap := nrows r) (segs := (0%nat, e0) :: (s1, e1) :: sg2 :: segs) as (m & -> & M1 & M2 & M3 & M4 & _).
      { intros x y Hx Hy. by eapply row_lt_ok. } { intros x y Hx Hy. by eapply row_le_ok. } { by eexists. } { done. } { done. }
      cbn [mbind option_bind]. destruct (Hout m M2 M1 ltac:(lia) M3) as (r2 & -> & Hd). cbn [mbind option_bind]. eexists _, 0. done.
Qed.

(** ** The operator *)

(** [r'] is consolidated: the sorted set of [l] in one run. *)
Record settled (r r' : rel) (l : list row) : Prop := {
  se_lanes : lanes r' = lanes r;
  se_wf : wf r';
  se_strict : strict r (stored r');
  se_keys : forall k, k ∈ keys r (stored r') <-> k ∈ keys r l;
  se_sorted : sorted_nrows r' = nrows r';
  se_run : run_count r' = 1%nat;
  se_runs : runs_ok r' (nrows r') }.

Lemma settle_ok (r r1 : rel) l : wf r -> length (run_ends r) = COL_MAX_RUNS -> deduped r r1 l ->
  exists r', one_run (nrows r1) (set_sorted (nrows r1) r1) = Some r' /\ settled r r' l.
Proof.
  intros [[Hn Hc] _ Hm] He [(l' & n & -> & Hl & Hle) D1 D2 D3]. cbn [nrows set_nrows].
  destruct (one_run_ok (set_sorted n (set_nrows n (set_rows l' r))) n He) as (ends & -> & E1 & E2). eexists. split; [done|].
  unfold stored in D1, D2, D3. cbn in D1, D2, D3. split; try done.
  - split; [split; cbn; lia|exact D2|exact Hm].
  - split; cbn; try done; [unfold COL_MAX_RUNS; lia|lia|by apply strict_nodup|].
    rewrite E2. replace n with (length (take n l')) at 1 by (rewrite length_take; lia). by apply chained_one.
Qed.

Definition plain_result (r : rel) (l : list row) (res : option (rel * Z)) : Prop :=
  exists r' rc, res = Some (r', rc) /\ (rc = 0 -> settled r r' l) /\ (rc <> 0 -> rc = ENOMEM /\ ((0 < ncols r)%nat -> merge_buf_ok e = false)).

Lemma merge_plain_ok (r : rel) olds news B : wf r -> length (run_ends r) = COL_MAX_RUNS -> rows r = olds ++ news ++ B -> nrows r = (length olds + length news)%nat ->
  Forall (row_ok r) olds -> Forall (row_ok r) news -> strict r olds -> news <> [] -> sorts_upto sort r (length news) ->
  plain_result r (olds ++ news) ('(r1, _) ← sort r (length olds) (length news);
    '(r2, d_unique) ← dedup_prev (length news - 1) r1 (length olds) 1 1;
    match reuse_merge e r2 (length olds + d_unique) with
    | None => Some (r2, ENOMEM)
    | Some r3 =>
        '(r4, out, _) ← merge_into e r3 (length olds) d_unique None;
        Some (if wants_tight r4 out && tight_ok e
              then set_capacity (tight_cap out) (set_rows (resized (ncols r4) (tight_cap out) (rows r4)) r4) else r4, 0)
    end).
Proof.
  intros [[Hn Hc] _ Hm] He Hr Hnr Ho Hnew Hs Hne Hsort. destruct (Hsort r olds news B) as [r1 Hr1]; [done|done|lia|done|done|]. rewrite Hr1. cbn [mbind option_bind].
  destruct (sort_dedup_ok sort r r1 olds news B) as (ds & G & -> & D1 & D2 & D3 & D4 & D5); [done|lia|done|done|done|]. cbn [mbind option_bind].
  set (r2 := set_rows (olds ++ ds ++ G ++ B) r). destruct (reuse_merge e r2 _) as [r3|] eqn:Hg.
  2:{ exists r2, ENOMEM. split; [done|]. split; [done|]. intros _. split; [done|]. intros Hnc. unfold reuse_merge in Hg. destruct (_ && _); [done|].
      by eapply realloc_starved in Hg. }
  destruct (reuse_merge_ok e r2 (length olds + length ds) r3 Hm Hg) as (mb & c & -> & Hcap).
  destruct (merge_into_ok e (set_merge (Some mb) c r2) olds ds (G ++ B) mb None) as (r4 & o & fresh & delta' & -> & Hsw & Hmg & _); [done|done|done|done|done|done|done|].
  cbn [mbind option_bind]. destruct (merges_spec _ _ _ _ _ Hmg Hs D3) as (S1 & S2 & S3 & S4 & S5 & S6).
  assert (Hoo : Forall (row_ok r) o).
  { apply Forall_forall. intros x [Hx|Hx]%S3; [by apply (proj1 (Forall_forall _ _) Ho)|by apply (proj1 (Forall_forall _ _) D4)]. }
  assert (Hlen2 : length (olds ++ ds ++ G ++ B) = length (rows r)) by (rewrite Hr, !length_app; lia).
  destruct (swapped_wf _ _ _ Hsw Hoo) as [Hst Hwf4]; [cbn; lia|]. pose proof (swapped_runs _ _ _ Hsw S1 Hoo) as Hruns.
  assert (Hkeys : forall k, k ∈ keys r o <-> k ∈ keys r (olds ++ news)).
  { intros k. change (lanes (set_merge (Some mb) c r2)) with (lanes r) in S5. rewrite S5. unfold keys. rewrite fmap_app, elem_of_app. fold (keys r ds). by rewrite D5. }
  destruct (tighten_ok e _ r4 o Hsw S1 Hoo) as (T1 & T2 & T3 & T4 & T5); [cbn; lia|].
  eexists _, 0. split; [done|]. split; [|done]. intros _. pose proof Hsw as [W1 W2 _ _ _ _ [W7 _] W9].
  destruct (wants_tight r4 (length o)); cbn [andb]; [destruct (tight_ok e)|].
  - split; cbn [lanes sorted_nrows run_count nrows set_capacity set_rows]; try done; [by apply T5|by rewrite T3|by rewrite T3|by rewrite W9, W2|].
    rewrite W2. exact T4.
  - split; try done; [by rewrite Hst|by rewrite Hst|by rewrite W9, W2|by rewrite W2].
  - split; try done; [by rewrite Hst|by rewrite Hst|by rewrite W9, W2|by rewrite W2].
Qed.

(** Without columns all rows are equal. *)
Lemma nullary_sorted (s : shape) l : ncols s = O -> StronglySorted (by_key s) l.
Proof.
  intros Hs. induction l as [|x l IH]; constructor; [done|]. apply Forall_forall. intros y _. unfold by_key, key. by rewrite Hs.
Qed.

Lemma sort_all_ok (r : rel) : wf r -> (1 < nrows r)%nat -> sorts_upto sort r (nrows r) ->
  exists r1 rc l' out, (if (ncols r =? 0)%nat then Some (r, 0) else sort r 0 (nrows r)) = Some (r1, rc) /\
    dedup_prev (nrows r - 1) r1 0 1 1 = Some (set_rows l' r, out) /\ deduped r (set_nrows out (set_rows l' r)) (stored r).
Proof.
  intros [Hf Hok Hm] H1 Hsort. pose proof Hf as [Hn Hc]. pose proof (length_stored r Hf) as Hls. destruct (Nat.eqb_spec (ncols r) 0) as [Hz|Hnz].
  - pose proof (stored_rest r) as Hr. destruct (stored r) as [|x l] eqn:Hst; [cbn in Hls; lia|]. apply Forall_cons in Hok as [Hx Hok].
    destruct (dedup_prev_ok l r [] [x] [] x (drop (nrows r) (rows r))) as (G & Hd & HG); [done|done|done|done|]. cbn [length Nat.add app] in Hd, HG, Hls.
    replace (length l) with (nrows r - 1)%nat in Hd by lia. destruct (dropped_spec r x l (nullary_sorted r _ Hz)) as (D1 & D2 & D3 & D4).
    eexists r, 0, _, _. split; [done|]. split; [exact Hd|].
    assert (Ht : stored (set_nrows (S (length (dropped r x l))) (set_rows (x :: dropped r x l ++ G ++ drop (nrows r) (rows r)) r)) = x :: dropped r x l).
    { unfold stored. cbn. f_equal. apply take_app_length. }
    split; rewrite ?Ht; [|done| |done].
    + eexists _, _. split; [done|]. cbn [length]. rewrite !length_app, length_drop. lia.
    + constructor; [done|]. apply Forall_forall. intros y Hy%D3. by apply (proj1 (Forall_forall _ _) Hok).
  - destruct (sort_front_ok r (stored r) (drop (nrows r) (rows r))) as (r1 & l' & out & Hs & Hd & L1 & L2 & L3 & L4 & L5);
      [apply stored_rest|lia|done|intros E; rewrite E in Hls; cbn in Hls; lia|by rewrite Hls|]. rewrite Hls in Hs, Hd, L2.
    eexists r1, 0, l', out. split; [done|]. split; [done|]. split; try done. exists l', out. split; [done|]. lia.
Qed.

Lemma plain_ok (r : rel) : wf r -> length (run_ends r) = COL_MAX_RUNS -> (1 < nrows r)%nat -> strict r (take (sorted_nrows r) (stored r)) -> sorts_upto sort r (nrows r) ->
  plain_result r (stored r) (consolidate_plain sort e r).
Proof.
  intros Hwf He H1 Hs Hsort. pose proof Hwf as [Hf Hok Hm]. pose proof Hf as [Hn Hc]. pose proof (length_stored r Hf) as Hls. unfold consolidate_plain.
  set (sn := sorted_nrows r) in *. destruct ((0 <? sn)%nat && (sn <? nrows r)%nat) eqn:Hsn.
  - apply andb_true_iff in Hsn as [Hp%Nat.ltb_lt Hlt%Nat.ltb_lt]. set (olds := take sn (stored r)) in *. set (news := drop sn (stored r)).
    assert (Hst : stored r = olds ++ news) by (unfold olds, news; by rewrite take_drop).
    assert (Hlo : length olds = sn) by (unfold olds; rewrite length_take; lia). assert (Hln : length news = (nrows r - sn)%nat) by (unfold news; rewrite length_drop; lia).
    rewrite Hst in Hok |- *. apply Forall_app in Hok as [Ho Hnew].
    pose proof (merge_plain_ok r olds news (drop (nrows r) (rows r))) as H. rewrite Hln, Hlo in H. apply H; try done; [by rewrite app_assoc, <-Hst; apply stored_rest|lia|
      intros E; rewrite E in Hln; cbn in Hln; lia|eapply sorts_upto_le; [|done]; lia].
  - destruct (sort_all_ok r Hwf H1 Hsort) as (r1 & rc & l' & out & -> & Hd & Hdd). cbn [mbind option_bind]. rewrite Hd. cbn [mbind option_bind].
    destruct (settle_ok r _ _ Hwf He Hdd) as (r' & Hr' & Hset). cbn [nrows set_nrows] in Hr'. rewrite Hr'. cbn [mbind option_bind]. exists r', 0. done.
Qed.

(** ** Copying a borrowed input *)

Lemma double_until_ok fuel : forall cap n, 0 < cap -> n <= 2 ^ 31 -> n <= cap * 2 ^ Z.of_nat fuel ->
  exists c, double_until (S fuel) cap n = Some (Some c) /\ n <= c /\ 0 < c.
Proof.
  induction fuel as [|fuel IH]; intros cap n Hc Hn Hf; cbn [double_until].
  - change (2 ^ Z.of_nat 0) with 1 in Hf. destruct (Z.ltb_spec cap n) as [H|H]; [lia|]. exists cap. split; [done|]. lia.
  - destruct (Z.ltb_spec cap n) as [H|H]; [|exists cap; split; [done|]; lia].
    rewrite (u32_small (cap * 2)) by mi. rewrite (proj2 (Z.leb_gt _ _)) by lia. apply IH; [lia|lia|].
    rewrite Nat2Z.inj_succ, Z.pow_succ_r in Hf by lia. lia.
Qed.

(** All rows of [src] are appended to [dst], unless there is no room for them. *)
Lemma append_all_ok b (dst src : rel) : fits dst -> fits src -> lanes src = lanes dst -> Forall (row_ok src) (stored src) -> Z.of_nat (nrows dst + nrows src) <= 2 ^ 31 ->
  exists d rc, col_rel_append_all b dst src = Some (d, rc) /\ ((rc = 0 /\ kept dst d /\ fits d /\ sorted_nrows d = sorted_nrows dst /\ grew dst d (stored src)) \/ (rc = ENOMEM /\ d = dst /\ b = false)).
Proof.
  intros [Hn Hc] Hfs Hlanes Hok Hbig. pose proof (length_stored src Hfs) as Hls. unfold col_rel_append_all. destruct (Nat.eqb_spec (nrows src) 0) as [H0|H0].
  { exists dst, 0. split; [done|]. left. rewrite H0 in Hls. apply nil_length_inv in Hls as ->. split_and!; try done. split; [cbn; lia|]. exists []. by rewrite app_nil_r. }
  rewrite (proj2 (Z.ltb_ge _ _)) by mi. set (n := (nrows dst + nrows src)%nat) in *.
  assert (Hcap : exists c, (if (capacity dst <? n)%nat then
      double_until 33 (if (capacity dst =? 0)%nat then Z.of_nat COL_REL_INIT_CAP else u32 (Z.of_nat (capacity dst) * 2)) (Z.of_nat n)
    else Some (Some (Z.of_nat (capacity dst)))) = Some (Some c) /\ Z.of_nat n <= c).
  { destruct (Nat.ltb_spec (capacity dst) n) as [Hlt|Hge]; [|eexists; split; [done|lia]].
    set (c0 := if _ : bool then _ else _). assert (Hc0 : 0 < c0) by (unfold c0; destruct (Nat.eqb_spec (capacity dst) 0); [done|]; rewrite u32_small by mi; lia).
    destruct (double_until_ok 32 c0 (Z.of_nat n)) as (c & -> & H1 & H2); [lia|lia|change (2 ^ Z.of_nat 32) with (2 ^ 32); lia|]. eauto. }
  destruct Hcap as (c & -> & Hc1). cbn [mbind option_bind]. destruct ((capacity dst <? n)%nat && negb b) eqn:Hgrow.
  { apply andb_true_iff in Hgrow as [_ Hb%negb_true_iff]. exists dst, ENOMEM. split; [done|]. by right. }
  set (d1 := if (capacity dst <? n)%nat then _ else _).
  assert (Hd1 : kept dst d1 /\ nrows d1 = nrows dst /\ (n <= capacity d1 <= length (rows d1))%nat /\ sorted_nrows d1 = sorted_nrows dst).
  { unfold d1. destruct (Nat.ltb_spec (capacity dst) n) as [Hlt|Hge]; [|done]. cbn. rewrite length_resized. split_and!; try done; [|lia]. split; cbn; try done. apply take_resized; lia. }
  clearbody d1. destruct Hd1 as ([K1 K2 K3 K4] & D1 & D2 & D3). fold (stored src). rewrite Hlanes, <-K1 in Hok.
  assert (Hnd : length (take (nrows dst) (rows d1)) = nrows dst) by (rewrite length_take; lia).
  assert (Hrows : rows d1 = take (nrows dst) (rows d1) ++ take (nrows src) (drop (nrows dst) (rows d1)) ++ drop n (rows d1))
    by (unfold n; rewrite <-drop_drop, take_drop, take_drop; done).
  destruct (copy_back_ok (stored src) d1 _ _ _ Hrows) as (l & Hcb & Hl & Hlok & Hlk); [rewrite length_take, length_drop; lia|done|]. rewrite Hnd in Hcb. rewrite Hcb. cbn [mbind option_bind].
  rewrite K1 in Hlok, Hlk. rewrite Hls in Hl. exists (set_nrows n (set_rows (take (nrows dst) (rows d1) ++ l ++ drop n (rows d1)) d1)), 0. split; [done|]. left. split; [done|].
  split; [split; cbn; try done; rewrite take_app_le by lia; rewrite take_ge by lia; done|].
  split; [split; cbn; rewrite ?length_app, ?length_take, ?length_drop; lia|]. split; [done|]. split; [cbn; lia|].
  exists l. split_and!; try done. unfold stored at 1. cbn. rewrite app_assoc, take_app_le by (rewrite length_app; lia). rewrite take_ge by (rewrite length_app; lia). by rewrite K4.
Qed.

Lemma copy_input_ok (r : rel) : wf r -> (0 < nrows r)%nat -> Z.of_nat (nrows r) < 2 ^ 31 ->
  exists w, col_rel_append_all true (new_like r) r = Some (w, 0) /\ lanes w = lanes r /\ wf w /\ nrows w = nrows r /\ sorted_nrows w = O /\
    length (run_ends w) = COL_MAX_RUNS /\ (forall k, k ∈ keys r (stored w) <-> k ∈ keys r (stored r)).
Proof.
  intros [Hf Hok Hm] Hpos Hbig. pose proof (length_stored r Hf) as Hls.
  destruct (append_all_ok true (new_like r) r) as (w & rc & Ha & [(-> & [K1 K2 K3 _] & Hfw & Hs & Hn & l & Hst & Hk & Hlok)|(_ & _ & [=])]); try done.
  { unfold fits, new_like. cbn [nrows capacity rows]. rewrite length_replicate. lia. }
  { cbn [nrows new_like]. lia. }
  change (stored (new_like r)) with (take 0 (rows (new_like r))) in Hst. rewrite take_0 in Hst. cbn [app] in Hst.
  exists w. rewrite Hst. split_and!; try done.
  - split; [done|by rewrite Hst, K1|]. destruct K2 as [K2 K2']. unfold merge_wf. by rewrite K2, K2'.
  - cbn in Hn. lia.
  - destruct K3 as [_ ->]. done.
  - intros k. change (keys r l = keys r (stored r)) in Hk. by rewrite Hk.
Qed.

(** ** What a call returns *)

Definition cons_space : bool := kway_space && merge_buf_ok e && copy_ok e.

Definition bounds_ok (bounds : option (list nat)) (n : nat) : Prop := match bounds with None => True | Some b => exists bs, b = 0%nat :: bs /\ cuts 0 bs n end.

Lemma work_ok_consolidate (r : rel) bounds : wf r -> length (run_ends r) = COL_MAX_RUNS -> (1 < nrows r)%nat -> (0 < ncols r)%nat -> strict r (take (sorted_nrows r) (stored r)) ->
  sorts_upto sort r (nrows r) -> bounds_ok bounds (nrows r) ->
  exists r' rc, match bounds with
    | Some ((_ :: _ :: _ :: _) as b) =>
        '(r0, rc) ← col_op_consolidate_kway_merge sort e r b;
        if negb (rc =? 0) then Some (r0, rc) else r1 ← one_run (nrows r0) (set_sorted (nrows r0) r0); Some (r1, 0)
    | _ => consolidate_plain sort e r
    end = Some (r', rc) /\ (rc = 0 -> settled r r' (stored r)) /\ (rc <> 0 -> rc = ENOMEM /\ cons_space = false).
Proof.
  intros Hwf He H1 Hnc Hs Hsort Hb.
  assert (Hplain : exists r' rc, consolidate_plain sort e r = Some (r', rc) /\ (rc = 0 -> settled r r' (stored r)) /\ (rc <> 0 -> rc = ENOMEM /\ cons_space = false)).
  { destruct (plain_ok r Hwf He H1 Hs Hsort) as (r' & rc & -> & P1 & P2). exists r', rc. split; [done|]. split; [done|]. intros Hrc. destruct (P2 Hrc) as [-> Hm].
    split; [done|]. unfold cons_space. rewrite (Hm Hnc). by rewrite andb_false_r. }
  destruct bounds as [[|b0 [|b1 [|b2 bs]]]|]; try exact Hplain.
  destruct Hb as (bs' & [= -> <-] & Hcuts). pose proof Hwf as [Hf Hok Hm].
  destruct (kway_ok r b1 (b2 :: bs) Hf Hok Hcuts Hsort) as (r0 & rc & -> & K1 & K2). cbn [mbind option_bind].
  destruct (Z.eqb_spec rc 0) as [->|Hrc]; cbn [negb].
  - destruct (settle_ok r r0 _ Hwf He (K1 eq_refl)) as (r' & -> & Hset). cbn [mbind option_bind]. by exists r', 0.
  - exists r0, rc. split; [done|]. split; [done|]. intros _. destruct (K2 Hrc) as [-> Hk]. split; [done|]. unfold cons_space. by rewrite Hk.
Qed.

Lemma settled_copy (r w r' : rel) : lanes w = lanes r -> (forall k, k ∈ keys r (stored w) <-> k ∈ keys r (stored r)) -> settled w r' (stored w) -> settled r r' (stored r).
Proof.
  intros Hl Hk [S1 S2 S3 S4 S5 S6 S7]. rewrite Hl in S1, S3, S4. split; [done..| |done|done|done]. intros k. by rewrite S4.
Qed.

Lemma consolidate_ok (input : rel) owned bounds : wf input -> length (run_ends input) = COL_MAX_RUNS -> (0 < ncols input)%nat -> Z.of_nat (nrows input) < 2 ^ 31 ->
  (owned = true -> strict input (take (sorted_nrows input) (stored input))) -> sorts_upto sort input (nrows input) -> bounds_ok bounds (nrows input) ->
  exists r rc, col_op_consolidate sort e input owned bounds = Some (r, rc) /\ (rc = 0 -> settled input r (stored input)) /\ (rc <> 0 -> rc = ENOMEM /\ cons_space = false).
Proof.
  intros Hwf He Hnc Hbig Hs Hsort Hb. pose proof Hwf as [Hf Hok Hm]. unfold col_op_consolidate. rewrite (float_valid_ok input Hf Hok). cbn [mbind option_bind negb].
  destruct (Nat.leb_spec (nrows input) 1) as [H1|H1].
  { assert (Hd : deduped input input (stored input)).
    { split; [|apply strict_short; rewrite length_stored; done|done|done]. exists (rows input), (nrows input). split; [by destruct input|]. split; [done|lia]. }
    destruct (settle_ok input input _ Hwf He Hd) as (r' & -> & Hset). cbn [mbind option_bind]. by exists r', 0. }
  destruct owned; cbn [mbind option_bind].
  - cbn [Z.eqb negb]. apply work_ok_consolidate; try done. by apply Hs.
  - destruct (copy_ok e) eqn:Hcopy; cbn [negb mbind option_bind].
    2:{ exists input, ENOMEM. split; [done|]. split; [done|]. intros _. split; [done|]. unfold cons_space. by rewrite Hcopy, andb_false_r. }
    destruct (copy_input_ok input Hwf ltac:(lia) Hbig) as (w & -> & W1 & W2 & W3 & W4 & W5 & W6). cbn [mbind option_bind Z.eqb negb].
    destruct (work_ok_consolidate w bounds) as (r' & rc & Hc & H0 & H2); try done; [lia|by rewrite W1|rewrite W4, take_0; constructor|by rewrite W1, W3|by rewrite W3|].
    rewrite Hc. exists r', rc. split; [done|]. split; [|done]. intros Hrc. eapply settled_copy; [exact W1|exact W6|by apply H0].
Qed.

End Operator.
