(* ===== verification/ConsolidateSpec.v ===== *)
(** * What the consolidation operator promises

    The theorem on [col_op_consolidate] as evaluation plans call it, with the
    sort the code uses. *)

From stdpp Require Import sorting.
From S2P Require Import Prelude RadixSort Relation RelSort Consolidate ConsolidateProof HeapProof DeltaProof HashDedup KwayProof DeltaSpec.

Import Keys Rel RelSort Consolidate.

(** With memory, and rows whose bytes are a size_t, the radix sort succeeds. *)
Lemma radix_sorts_upto (se : sort_env) (s : shape) N : work_ok se && perm_ok se && temp_ok se && detach_ok se = true ->
  (ncols s = O \/ Z.of_nat N + 1 <= SIZE_MAX / (Z.of_nat (ncols s) * 8)) -> sorts_upto (col_rel_radix_sort se) s N.
Proof.
  intros Hse Hsz r pre l post <- Hr Hn HN Hok.
  assert (Hl : take (length l) (drop (length pre) (rows r)) = l) by (by rewrite Hr, drop_app_length, take_app_length).
  assert (Hlen : (length pre + length l <= length (rows r))%nat) by (rewrite Hr, !length_app; lia).
  destruct (radix_range_ok se r (length pre) (length l)) as (l' & rc & Hs & _ & Hf); [lia|by rewrite Hl|]. rewrite Hl in Hf. rewrite Hs.
  destruct (decide (rc = 0)) as [->|Hrc]; [by eexists|]. exfalso. destruct (Hf Hrc) as [-> Hsp]. clear Hf. rename Hsp into Hf.
  unfold sort_space in Hf. rewrite Hse in Hf. cbn [andb] in Hf. apply negb_false_iff, andb_true_iff in Hf as [Hf1%negb_true_iff%Nat.eqb_neq Hf2%Z.ltb_lt].
  destruct Hsz as [?|Hsz]; [done|]. lia.
Qed.

(** C5: if the sort succeeds on every range of up to as many rows as the input
    has (the code ignores its status), then on a well-formed relation with
    columns and fewer than 2^31 rows, whose sorted prefix, when it is owned, is
    what it claims, with any cut into segments or none, owned or borrowed, the
    operator returns; on success the relation it pushes is consolidated:
    strictly sorted, in one run, with consistent storage, and the set of its
    rows is the set of the input's.  It fails only for want of memory. *)
Theorem consolidate_exact sort `{!RangeSort sort} (e : cons_env) (input : rel) (owned : bool) (bounds : option (list nat))
    (Hwf : wf input) (Hends : length (run_ends input) = COL_MAX_RUNS) (Hcols : (0 < ncols input)%nat) (Hbig : Z.of_nat (nrows input) < 2 ^ 31)
    (Hprefix : owned = true -> strict input (take (sorted_nrows input) (stored input)))
    (Hsort : sorts_upto sort input (nrows input)) (Hbounds : bounds_ok bounds (nrows input)) :
  exists r rc, col_op_consolidate sort e input owned bounds = Some (r, rc) /\
    (rc = 0 -> settled input r (stored input)) /\ (rc <> 0 -> rc = ENOMEM /\ cons_space e = false).
Proof. by apply consolidate_ok. Qed.

(** Three segments, the second within the first. *)
Definition segments : rel := of_rows pairs [[3; 4]; [1; 2]; [1; 2]; [3; 4]; [2; 5]] 0 [].

Lemma consolidate_exact_witness : exists r, col_op_consolidate (col_rel_radix_sort rich_sort) rich segments false (Some [0; 2; 3; 5]%nat) = Some (r, 0) /\
  settled segments r (stored segments) /\ stored r = [[1; 2]; [2; 5]; [3; 4]].
Proof.
  destruct (consolidate_exact (col_rel_radix_sort rich_sort) rich segments false (Some [0; 2; 3; 5]%nat)) as (r & rc & Hc & H0 & _).
  - split; [split; by apply Nat.leb_le|by apply int_rows_ok|done].
  - done.
  - cbn; lia.
  - done.
  - done.
  - apply radix_sorts_upto; [done|]. right. by apply Z.leb_le.
  - exists [2; 3; 5]%nat. split; [done|]. cbn. lia.
  - assert (Hv : (fun '(r', c) => (c, stored r')) <$> col_op_consolidate (col_rel_radix_sort rich_sort) rich segments false (Some [0; 2; 3; 5]%nat) =
      Some (0, [[1; 2]; [2; 5]; [3; 4]])) by (vm_compute; reflexivity).
    rewrite Hc in Hv. cbn in Hv. injection Hv as -> Hst. exists r. split; [exact Hc|]. split; [by apply H0|exact Hst].
Defined.

(** Without memory for the merged rows. *)
Example consolidate_starved :
  snd <$> col_op_consolidate (col_rel_radix_sort rich_sort) (CE (hash_allocs rich) true false true true true true (fun _ => true) true) segments true (Some [0; 2; 5]%nat) = Some ENOMEM.
Proof. vm_compute. reflexivity. Qed.
