(* ===== verification/Lftj.v ===== *)
(** * Leapfrog triejoin (wirelog/columnar/lftj.c)

    The multi-way join on one shared key column: sorted iterators, binary
    search, the leapfrog loop and the recursive emitter, with the row buffer it
    overwrites in place.  The callback's successive rows are the list of
    emitted rows.  [None] is an access outside an allocation or a loop that has
    not ended within its fuel. *)
From stdpp Require Import sorting.
From S2P Require Import Prelude RadixSort.
Import Keys Radix.

Module Lftj.

Definition WL_LFTJ_MAX_K : nat := 64.

(** wl_lftj_input_t *)
Record input := Input { data : option (list row); in_nrows : nat; in_ncols : nat; in_key : nat }.

(** lftj_iter_t *)
Record iter := Iter {
  sorted : list row;
  nrows : nat;
  ncols : nat;
  key_col : nat;
  pos : nat;
  key_type : column_type }.

Definition set_pos (it : iter) (p : nat) : iter :=
  Iter (sorted it) (nrows it) (ncols it) (key_col it) p (key_type it).

Definition key_at (it : iter) (n : nat) : option Z := r ← rd (sorted it) n; rd r (key_col it).

Definition lftj_key (it : iter) : option Z := key_at it (pos it).

Definition compare_key (ty : column_type) (l r : Z) : Z :=
  if is_float ty then float_compare_bits l r else three_way l r.

Definition lftj_compare_key (it : iter) (l r : Z) : Z := compare_key (key_type it) l r.

Definition lftj_at_end (it : iter) : bool := (nrows it <=? pos it)%nat.

(** The binary search of both searches: [right] sends it to the upper half. *)
Fixpoint bsearch (fuel : nat) (it : iter) (right : Z -> bool) (lo hi : nat) : option nat :=
  if (lo <? hi)%nat then
    match fuel with
    | O => None
    | S fuel' =>
        let mid := (lo + (hi - lo) / 2)%nat in
        midkey ← key_at it mid;
        if right midkey then bsearch fuel' it right (mid + 1)%nat hi
        else bsearch fuel' it right lo mid
    end
  else Some lo.

Definition lftj_seek (it : iter) (target : Z) : option iter :=
  if lftj_at_end it then Some it
  else
    lo ← bsearch (nrows it) it (fun midkey => lftj_compare_key it midkey target <? 0) (pos it) (nrows it);
    Some (set_pos it lo).

Definition lftj_key_range (it : iter) (key : Z) : option (nat * nat) :=
  hi ← bsearch (nrows it) it (fun midkey => lftj_compare_key it midkey key <=? 0) (pos it) (nrows it);
  Some (pos it, hi).

(** Allocation outcomes: the copy of an input, its sort's scratch rows, and the
    two fixed allocations of the join. *)
Record memory := Memory {
  m_iters : bool;
  m_copy : nat -> bool;
  m_scratch : nat -> option (list row);
  m_buffers : bool }.

Definition lftj_iter_init (mem : memory) (i : nat) (inp : input) (ty : column_type) : option (Z * iter) :=
  let it0 := Iter [] (in_nrows inp) (in_ncols inp) (in_key inp) 0 ty in
  if (in_nrows inp =? 0)%nat then Some (0, it0)
  else if negb (m_copy mem i) then Some (ENOMEM, it0)
  else
    d ← data inp;
    rows ← (if (in_nrows inp <=? length d)%nat then Some (take (in_nrows inp) d) else None);
    '(rc, out) ← radix_sort_rows_by_key_typed (m_scratch mem i) ty rows (in_ncols inp) (in_key inp);
    if negb (rc =? 0) then Some (ENOMEM, it0)
    else Some (0, Iter out (in_nrows inp) (in_ncols inp) (in_key inp) 0 ty).

(** ** The emitter *)

(** row_buf[w++] = rp[c] for the cells of a row other than the key's; [c] is
    the index of the first cell of [rp]. *)
Fixpoint write_cells (rp : row) (c kc : nat) (buf : row) (w : nat) : option (row * nat) :=
  match rp with
  | [] => Some (buf, w)
  | x :: rp' =>
      if (c =? kc)%nat then write_cells rp' (S c) kc buf w
      else buf' ← wr buf w x; write_cells rp' (S c) kc buf' (S w)
  end.

Fixpoint lftj_emit_product (its : list iter) (ranges : list (nat * nat)) (key : Z) (depth : nat)
    (buf : row) (off : nat) {struct its} : option (row * list row) :=
  match its with
  | [] => Some (buf, [buf])
  | it :: its' =>
      match ranges with
      | [] => None
      | (lo, hi) :: ranges' =>
          buf0 ← (if (depth =? 0)%nat then wr buf 0 key else Some buf);
          (fix rows (rs : list nat) (buf : row) {struct rs} : option (row * list row) :=
             match rs with
             | [] => Some (buf, [])
             | r :: rs' =>
                 rp ← rd (sorted it) r;
                 '(buf1, w) ← write_cells rp 0 (key_col it) buf off;
                 '(buf2, o1) ← lftj_emit_product its' ranges' key (S depth) buf1 w;
                 '(buf3, o2) ← rows rs' buf2;
                 Some (buf3, o1 ++ o2)
             end) (seq lo (hi - lo)) buf0
      end
  end.

(** ** The leapfrog loop *)

(** The inner while: seek every iterator to [max_key], restarting when one
    overshoots.  The flag says that an iterator is exhausted. *)
Fixpoint seek_all (fuel : nat) (its : list iter) (i : nat) (max_key : Z) : option (list iter * Z * bool) :=
  match fuel with
  | O => None
  | S fuel' =>
      if (i <? length its)%nat then
        it ← rd its i;
        it' ← lftj_seek it max_key;
        let its' := <[i := it']> its in
        if lftj_at_end it' then Some (its', max_key, true)
        else
          cur ← lftj_key it';
          if lftj_compare_key it' cur max_key >? 0 then seek_all fuel' its' 0 cur
          else seek_all fuel' its' (S i) max_key
      else Some (its, max_key, false)
  end.

(** Move every iterator past its range and compute the next maximum; [None] in
    the result is an exhausted iterator. *)
Fixpoint advance_all (its : list iter) (ranges : list (nat * nat)) (next_max : option Z)
  : option (list iter * option Z) :=
  match its, ranges with
  | [], _ => Some ([], next_max)
  | it :: its', (_, hi) :: ranges' =>
      let it1 := set_pos it hi in
      if lftj_at_end it1 then Some (it1 :: its', None)
      else
        nk ← lftj_key it1;
        let next := match next_max with
                    | Some m => if lftj_compare_key it1 nk m >? 0 then nk else m
                    | None => nk
                    end in
        '(its2, n) ← advance_all its' ranges' (Some next);
        Some (it1 :: its2, n)
  | _ :: _, [] => None
  end.

Fixpoint initial_max (its : list iter) (max_key : Z) : option Z :=
  match its with
  | [] => Some max_key
  | it :: its' =>
      ki ← lftj_key it;
      initial_max its' (if lftj_compare_key it ki max_key >? 0 then ki else max_key)
  end.

Definition total_rows (its : list iter) : nat := sum_list (nrows <$> its).
Definition seek_fuel (its : list iter) : nat := (S (total_rows its) * S (length its))%nat.

Fixpoint leapfrog (fuel : nat) (its : list iter) (max_key : Z) (buf : row) : option (list row) :=
  match fuel with
  | O => None
  | S fuel' =>
      '(its1, mk, ended) ← seek_all (seek_fuel its) its 0 max_key;
      if ended : bool then Some []
      else
        ranges ← mapM (fun it => lftj_key_range it mk) its1;
        '(buf1, out) ← lftj_emit_product its1 ranges mk 0 buf 1;
        '(its2, next) ← advance_all its1 ranges None;
        match next with
        | None => Some out
        | Some nm => rest ← leapfrog fuel' its2 nm buf1; Some (out ++ rest)
        end
  end.

(** ** The join *)

(** Sum of the widths, or [None] on uint32_t overflow. *)
Fixpoint total_columns (ins : list input) (acc : Z) : option Z :=
  match ins with
  | [] => Some acc
  | i :: rest =>
      let add := Z.of_nat (in_ncols i) - 1 in
      if UINT32_MAX - add <? acc then None else total_columns rest (acc + add)
  end.

Definition bad_input (i : input) : bool :=
  (in_ncols i =? 0)%nat || (in_ncols i <=? in_key i)%nat
  || ((0 <? in_nrows i)%nat && bool_decide (data i = None)).

(** A float key column holds only finite values. *)
Fixpoint float_keys_valid (rows : list row) (kc : nat) : option bool :=
  match rows with
  | [] => Some true
  | r :: rest => k ← rd r kc; if float_bits_valid k then float_keys_valid rest kc else Some false
  end.

Fixpoint init_iters (mem : memory) (i : nat) (ins : list input) (ty : column_type)
  : option (Z * list iter) :=
  match ins with
  | [] => Some (0, [])
  | inp :: rest =>
      ok ← (if is_float ty then float_keys_valid (take (in_nrows inp) (default [] (data inp))) (in_key inp)
            else Some true);
      if negb ok then Some (EINVAL, [])
      else
        '(rc, it) ← lftj_iter_init mem i inp ty;
        if negb (rc =? 0) then Some (rc, [])
        else '(rc', its) ← init_iters mem (S i) rest ty; Some (rc', it :: its)
  end.

(** [wl_columnar_lftj_join_typed]: the code and the emitted rows; [buf] is the
    indeterminate row buffer. *)
Definition lftj_join_typed (mem : memory) (buf : Z -> row) (ins : list input) (ty : column_type)
  : option (Z * list row) :=
  let k := length ins in
  if (k <? 2)%nat || (WL_LFTJ_MAX_K <? k)%nat then Some (EINVAL, [])
  else if existsb bad_input ins then Some (EINVAL, [])
  else
    match total_columns ins 1 with
    | None => Some (EINVAL, [])
    | Some total =>
        if negb (m_iters mem) then Some (ENOMEM, [])
        else
          '(rc, its) ← init_iters mem 0 ins ty;
          if negb (rc =? 0) then Some (rc, [])
          else if existsb lftj_at_end its then Some (0, [])
          else if negb (m_buffers mem) then Some (ENOMEM, [])
          else
            match its with
            | [] => None
            | it0 :: rest =>
                k0 ← lftj_key it0;
                mk ← initial_max rest k0;
                out ← leapfrog (S (total_rows its)) its mk (buf total);
                Some (0, out)
            end
    end.

Definition lftj_join (mem : memory) (buf : Z -> row) (ins : list input) : option (Z * list row) :=
  lftj_join_typed mem buf ins TYPE_INT64.

(** A memory in which every allocation succeeds. *)
Definition enough (ins : list input) : memory :=
  Memory true (fun _ => true) (fun i => Some (replicate (in_nrows (default (Input None 0 0 0) (ins !! i))) [])) true.

Example join_two :
  let a := Input (Some [[3; 30]; [1; 10]; [3; 31]]) 3 2 0 in
  let b := Input (Some [[7; 3]; [8; 2]; [9; 3]]) 3 2 1 in
  lftj_join (enough [a; b]) (fun n => replicate (Z.to_nat n) 0) [a; b]
  = Some (0, [[3; 30; 7]; [3; 30; 9]; [3; 31; 7]; [3; 31; 9]]).
Proof. by vm_compute. Qed.

End Lftj.
