(* ===== verification/LftjProof.v ===== *)
(** * Correctness of the leapfrog join

    The emitted rows against the nested-loop join: the searches, the loop's
    invariant and termination measure, the emitter, and the theorem. *)
From stdpp Require Import sorting.
From S2P Require Import Prelude RadixSort Lftj.
Import Keys Radix Lftj.

Module LftjProof.
Local Open Scope nat_scope.

(** ** The reference join *)

Fixpoint cprod {A} (ls : list (list A)) : list (list A) :=
  match ls with
  | [] => [[]]
  | l :: ls' => concat ((fun x => cons x <$> cprod ls') <$> l)
  end.

Lemma elem_of_cprod {A} (ls : list (list A)) : forall t,
  t ∈ cprod ls <-> Forall2 (fun x l => x ∈ l) t ls.
Proof.
  induction ls as [|l ls IH]; intros t; cbn [cprod].
  - rewrite list_elem_of_singleton. split; [by intros ->|by inversion 1].
  - rewrite list_elem_of_In, in_concat. split.
    + intros (b & Hb & Ht). apply list_elem_of_In in Hb, Ht.
      apply list_elem_of_fmap in Hb as (x & -> & Hx). apply list_elem_of_fmap in Ht as (t' & -> & Ht').
      constructor; [done|]. by apply IH.
    + intros H. inversion H as [|x l' t' ls' Hx Ht']; subst. exists (cons x <$> cprod ls).
      rewrite <- !list_elem_of_In, !list_elem_of_fmap. split; [eauto|]. exists t'. by rewrite IH.
Qed.

Lemma concat_perm {A} (l1 l2 : list (list A)) : l1 ≡ₚ l2 -> concat l1 ≡ₚ concat l2.
Proof.
  induction 1 as [| |x y l|l1 l2 l3 _ IH1 _ IH2]; cbn; [done|by f_equiv| |by rewrite IH1].
  rewrite !app_assoc. f_equiv. apply Permutation_app_comm.
Qed.

Lemma cprod_perm {A} (ls1 ls2 : list (list A)) : Forall2 Permutation ls1 ls2 -> cprod ls1 ≡ₚ cprod ls2.
Proof.
  induction 1 as [|l1 l2 ls1 ls2 H _ IH]; cbn [cprod]; [done|].
  transitivity (concat ((fun x => cons x <$> cprod ls1) <$> l2)).
  - by apply concat_perm, fmap_Permutation.
  - induction l2 as [|x l2 IHl]; cbn [fmap list_fmap concat]; [done|]. clear H.
    rewrite IH. f_equiv. clear IHl. induction l2 as [|y l2 IHl]; cbn; [done|]. rewrite IH. by f_equiv.
Qed.

(** Filtering tuples componentwise. *)
Lemma filter_cprod {A} (Ps : list (A -> bool)) (ls : list (list A)) : length Ps = length ls ->
  filter (fun t => Forall2 (fun (P : A -> bool) x => P x = true) Ps t) (cprod ls)
  = cprod (zip_with (fun P l => filter (fun x => P x = true) l) Ps ls).
Proof.
  revert Ps. induction ls as [|l ls IH]; intros [|P Ps] Hl; [done..|]. injection Hl as Hl.
  cbn [cprod zip_with]. induction l as [|x l IHl]; [done|]. cbn [fmap list_fmap concat].
  rewrite filter_app, IHl, filter_cons. clear IHl.
  destruct (decide (P x = true)) as [Hx|Hx]; cbn [fmap list_fmap concat].
  - f_equal. rewrite <- IH by done. clear IH. induction (cprod ls) as [|t ts IHt]; [done|].
    cbn [fmap list_fmap]. rewrite !filter_cons, IHt.
    destruct (decide (Forall2 (fun (P : A -> bool) x => P x = true) Ps t)) as [Ht|Ht].
    + rewrite decide_True by (by constructor). done.
    + rewrite decide_False; [done|]. intros H. by inversion H.
  - rewrite filter_none; [done|]. intros t (t' & -> & _)%list_elem_of_fmap H. by inversion H.
Qed.

(** ** Iterators *)

Section Join.
Variable ty : column_type.

#[local] Instance compare_key_order : KeyOrder ty (compare_key ty).
Proof.
  split. intros a b Ha Hb. unfold compare_key. destruct (is_float ty) eqn:E.
  - unfold is_float in E. apply bool_decide_eq_true in E. subst ty. by apply (cmp_rank (ty := TYPE_FLOAT)).
  - unfold rank. by rewrite E.
Qed.

Definition rkey (kc : nat) (r : row) : Z := rank ty (r !!! kc).

(** The rank of the key at index [n]. *)
Definition ikey (it : iter) (n : nat) : Z := rkey (key_col it) (sorted it !!! n).

Record wf_iter (it : iter) : Prop := {
  wi_type : key_type it = ty;
  wi_rows : nrows it = length (sorted it);
  wi_key : key_col it < ncols it;
  wi_cells : Forall (fun r => length r = ncols it /\ valid_key ty (r !!! key_col it)) (sorted it);
  wi_order : StronglySorted (fun x y => rkey (key_col it) x <= rkey (key_col it) y)%Z (sorted it);
  wi_pos : pos it <= nrows it }.

Lemma wf_row it n : wf_iter it -> n < nrows it ->
  length (sorted it !!! n) = ncols it /\ valid_key ty (sorted it !!! n !!! key_col it).
Proof.
  intros W Hn. rewrite (wi_rows _ W) in Hn. pose proof (wi_cells _ W) as Hc. rewrite Forall_forall in Hc.
  apply Hc. by apply list_elem_of_lookup_total_2.
Qed.

Lemma key_at_ok it n : wf_iter it -> n < nrows it ->
  key_at it n = Some (sorted it !!! n !!! key_col it).
Proof.
  intros W Hn. destruct (wf_row it n W Hn) as [Hl _]. unfold key_at.
  rewrite rd_total by (by rewrite <- (wi_rows _ W)). cbn. pose proof (wi_key _ W).
  apply rd_total. lia.
Qed.

Lemma ikey_mono it m n : wf_iter it -> m <= n < nrows it -> (ikey it m <= ikey it n)%Z.
Proof.
  intros W [Hmn Hn]. rewrite (wi_rows _ W) in Hn. unfold ikey.
  destruct (decide (m = n)) as [->|Hne]; [lia|].
  pose proof (wi_order _ W) as Hs. revert m n Hmn Hn Hne.
  induction Hs as [|r l _ IH Hr]; intros m n Hmn Hn Hne; cbn in Hn; [lia|].
  destruct n as [|n]; [lia|]. destruct m as [|m]; cbn.
  - rewrite Forall_forall in Hr. apply Hr, list_elem_of_lookup_total_2. lia.
  - apply IH; lia.
Qed.

(** The searches find the boundary of a test that is monotone in the rank. *)
Lemma bsearch_ok it right T : wf_iter it ->
  (forall n, n < nrows it -> right (sorted it !!! n !!! key_col it) = (ikey it n <? T)%Z) ->
  forall fuel lo hi, lo <= hi <= nrows it -> hi - lo <= fuel ->
  exists p, bsearch fuel it right lo hi = Some p /\ lo <= p <= hi /\
    (forall n, lo <= n < p -> (ikey it n < T)%Z) /\ (forall n, p <= n < hi -> (T <= ikey it n)%Z).
Proof.
  intros W Hr. induction fuel as [|fuel IH]; intros lo hi Hb Hf; cbn [bsearch];
    destruct (Nat.ltb_spec lo hi); try lia; try (exists lo; split_and!; [done|lia..]).
  set (mid := lo + (hi - lo) / 2).
  assert (Hmid : lo <= mid < hi) by (unfold mid; pose proof (Nat.div_lt (hi - lo) 2); lia).
  rewrite key_at_ok by (done || lia). cbn [mbind option_bind]. rewrite Hr by lia.
  destruct (Z.ltb_spec (ikey it mid) T).
  - destruct (IH (mid + 1) hi) as (p & -> & Hp & H1 & H2); [lia..|]. exists p. split_and!; [done|lia|lia| |done].
    intros n Hn. destruct (decide (n <= mid)); [|apply H1; lia].
    pose proof (ikey_mono it n mid W ltac:(lia)). lia.
  - destruct (IH lo mid) as (p & -> & Hp & H1 & H2); [lia..|]. exists p. split_and!; [done|lia|lia|done|].
    intros n Hn. destruct (decide (mid <= n)); [|apply H2; lia].
    pose proof (ikey_mono it mid n W ltac:(lia)). lia.
Qed.

Lemma compare_lt it n target : wf_iter it -> n < nrows it -> valid_key ty target ->
  (lftj_compare_key it (sorted it !!! n !!! key_col it) target <? 0)%Z = (ikey it n <? rank ty target)%Z.
Proof.
  intros W Hn Hv. unfold lftj_compare_key. rewrite (wi_type _ W), cmp_rank by (done || by apply wf_row).
  fold (ikey it n). unfold ikey, rkey. destruct (three_way_cases (rank ty (sorted it !!! n !!! key_col it)) (rank ty target))
    as [[H ->]|[[H ->]|[H ->]]]; destruct (Z.ltb_spec (rank ty (sorted it !!! n !!! key_col it)) (rank ty target)); done || lia.
Qed.

Lemma compare_le it n target : wf_iter it -> n < nrows it -> valid_key ty target ->
  (lftj_compare_key it (sorted it !!! n !!! key_col it) target <=? 0)%Z = (ikey it n <? rank ty target + 1)%Z.
Proof.
  intros W Hn Hv. unfold lftj_compare_key. rewrite (wi_type _ W), cmp_rank by (done || by apply wf_row).
  unfold ikey, rkey. destruct (three_way_cases (rank ty (sorted it !!! n !!! key_col it)) (rank ty target))
    as [[H ->]|[[H ->]|[H ->]]]; destruct (Z.ltb_spec (rank ty (sorted it !!! n !!! key_col it)) (rank ty target + 1));
    done || lia.
Qed.

Lemma compare_gt it n target : wf_iter it -> n < nrows it -> valid_key ty target ->
  (lftj_compare_key it (sorted it !!! n !!! key_col it) target >? 0)%Z = (rank ty target <? ikey it n)%Z.
Proof.
  intros W Hn Hv. unfold lftj_compare_key. rewrite (wi_type _ W), cmp_rank by (done || by apply wf_row).
  unfold ikey, rkey. destruct (three_way_cases (rank ty (sorted it !!! n !!! key_col it)) (rank ty target))
    as [[H ->]|[[H ->]|[H ->]]]; destruct (Z.ltb_spec (rank ty target) (rank ty (sorted it !!! n !!! key_col it)));
    done || lia.
Qed.

(** Everything before the iterator's position ranks below [T]. *)
Definition behind (T : Z) (it : iter) : Prop := forall n, n < pos it -> (ikey it n < T)%Z.

Lemma wf_set_pos it p : wf_iter it -> p <= nrows it -> wf_iter (set_pos it p).
Proof. intros [] Hp. by split. Qed.

Lemma seek_ok it mk : wf_iter it -> valid_key ty mk -> behind (rank ty mk) it ->
  exists p, lftj_seek it mk = Some (set_pos it p) /\ pos it <= p <= nrows it /\
    behind (rank ty mk) (set_pos it p) /\ (p < nrows it -> (rank ty mk <= ikey it p)%Z).
Proof.
  intros W Hv Hb. unfold lftj_seek, lftj_at_end. pose proof (wi_pos _ W).
  destruct (Nat.leb_spec (nrows it) (pos it)).
  - exists (pos it). split_and!; [by destruct it|lia|lia|done|lia].
  - destruct (bsearch_ok it (fun midkey => lftj_compare_key it midkey mk <? 0)%Z (rank ty mk) W (fun n Hn => compare_lt it n mk W Hn Hv) (nrows it) (pos it) (nrows it))
      as (p & -> & Hp & H1 & H2); [lia..|]. cbn. exists p. split_and!; [done|lia|lia| |].
    + intros n Hn. cbn in Hn. change (ikey (set_pos it p) n) with (ikey it n).
      destruct (decide (n < pos it)); [by apply Hb|apply H1; lia].
    + intros Hlt. apply H2. lia.
Qed.

(** The rows of one rank. *)
Definition group (T : Z) (it : iter) : list row := filter (fun r => rkey (key_col it) r = T) (sorted it).

Lemma key_range_ok it mk : wf_iter it -> valid_key ty mk -> behind (rank ty mk) it ->
  (pos it < nrows it -> (rank ty mk <= ikey it (pos it))%Z) ->
  exists hi, lftj_key_range it mk = Some (pos it, hi) /\ pos it <= hi <= nrows it /\
    behind (rank ty mk + 1) (set_pos it hi) /\
    (hi < nrows it -> (rank ty mk < ikey it hi)%Z) /\
    take (hi - pos it) (drop (pos it) (sorted it)) = group (rank ty mk) it.
Proof.
  intros W Hv Hb Hge. unfold lftj_key_range. pose proof (wi_pos _ W).
  destruct (bsearch_ok it (fun midkey => lftj_compare_key it midkey mk <=? 0)%Z (rank ty mk + 1) W (fun n Hn => compare_le it n mk W Hn Hv) (nrows it) (pos it) (nrows it))
    as (hi & -> & Hp & H1 & H2); [lia..|]. cbn. exists hi.
  assert (Hbh : behind (rank ty mk + 1) (set_pos it hi)).
  { intros n Hn. cbn in Hn. change (ikey (set_pos it hi) n) with (ikey it n).
    destruct (decide (n < pos it)) as [Hlt|]; [specialize (Hb n Hlt); lia|apply H1; lia]. }
  split_and!; [done|lia|lia|done| |].
  - intros Hlt. specialize (H2 hi ltac:(lia)). lia.
  - unfold group. rewrite <- (take_drop (pos it) (sorted it)) at 2.
    rewrite <- (take_drop (hi - pos it) (drop (pos it) (sorted it))) at 2. rewrite !filter_app.
    assert (Hpart : forall a b, a + b <= nrows it -> forall x, x ∈ take b (drop a (sorted it)) ->
      exists n, a <= n < a + b /\ rkey (key_col it) x = ikey it n).
    { intros a b Hab x Hx. apply list_elem_of_lookup_1 in Hx as [i Hi].
      apply lookup_take_Some in Hi as [Hi Hlt]. rewrite lookup_drop in Hi. exists (a + i). split; [lia|].
      unfold ikey. by rewrite (list_lookup_total_correct _ _ _ Hi). }
    rewrite (filter_none _ (take (pos it) _)), (filter_none _ (drop _ _)), app_nil_r; cbn [app].
    + symmetry. apply filter_all, Forall_forall. intros x Hx.
      destruct (Hpart (pos it) (hi - pos it) ltac:(lia) x Hx) as (n & Hn & ->).
      specialize (H1 n ltac:(lia)). pose proof (ikey_mono it (pos it) n W ltac:(lia)). specialize (Hge ltac:(lia)). lia.
    + intros x Hx. rewrite drop_drop in Hx. replace (pos it + (hi - pos it)) with hi in Hx by lia.
      rewrite <- (take_ge (drop hi (sorted it)) (nrows it - hi)) in Hx by (rewrite length_drop, <- (wi_rows _ W); lia).
      destruct (Hpart hi (nrows it - hi) ltac:(lia) x Hx) as (n & Hn & ->). specialize (H2 n ltac:(lia)). lia.
    + intros x Hx. rewrite <- (drop_0 (sorted it)) in Hx.
      destruct (Hpart 0 (pos it) ltac:(lia) x Hx) as (n & Hn & ->). specialize (Hb n ltac:(lia)). lia.
Qed.

(** ** The emitter *)

(** The cells of a row other than the key's. *)
Fixpoint nonkey (c kc : nat) (r : row) : row :=
  match r with
  | [] => []
  | x :: r' => if (c =? kc)%nat then nonkey (S c) kc r' else x :: nonkey (S c) kc r'
  end.

Lemma length_nonkey r : forall c kc, length (nonkey c kc r) + (if decide (c <= kc < c + length r) then 1 else 0) = length r.
Proof.
  induction r as [|x r IH]; intros c kc; cbn; [case_decide; lia|].
  specialize (IH (S c) kc). destruct (Nat.eqb_spec c kc); cbn; repeat case_decide; lia.
Qed.

Lemma write_cells_ok r : forall c kc buf w, w + length (nonkey c kc r) <= length buf ->
  write_cells r c kc buf w
  = Some (take w buf ++ nonkey c kc r ++ drop (w + length (nonkey c kc r)) buf, w + length (nonkey c kc r)).
Proof.
  induction r as [|x r IH]; intros c kc buf w Hl; cbn [write_cells nonkey] in *.
  { cbn. by rewrite Nat.add_0_r, take_drop. }
  destruct (c =? kc)%nat; [by apply IH|]. cbn in Hl. rewrite wr_lt by lia. cbn [mbind option_bind].
  rewrite IH by (rewrite length_insert; lia). cbn [length app]. f_equal. f_equal; [|lia].
  rewrite (take_S_r _ _ x) by (apply list_lookup_insert_eq; lia). rewrite take_insert_ge by lia.
  rewrite drop_insert_lt by lia. rewrite <- app_assoc. cbn. do 3 f_equal. f_equal. lia.
Qed.

Definition width (it : iter) : nat := ncols it - 1.
Definition slice (it : iter) (lh : nat * nat) : list row := take (lh.2 - lh.1) (drop lh.1 (sorted it)).

(** The output cells of a tuple after the key. *)
Definition cells (its : list iter) (t : list row) : row :=
  concat (zip_with (fun it r => nonkey 0 (key_col it) r) its t).

Definition in_range (it : iter) (lh : nat * nat) : Prop := lh.1 <= lh.2 <= nrows it.

Lemma slice_seq it lo hi : wf_iter it -> in_range it (lo, hi) ->
  slice it (lo, hi) = (fun n => sorted it !!! n) <$> seq lo (hi - lo).
Proof.
  intros W [H1 H2]. unfold slice. cbn in *. rewrite (wi_rows _ W) in H2. apply list_eq. intros i.
  rewrite list_lookup_fmap. destruct (decide (i < hi - lo)).
  - rewrite lookup_take_lt, lookup_drop, lookup_seq_lt by lia. cbn. apply list_lookup_lookup_total_lt. lia.
  - rewrite lookup_take_ge, lookup_seq_ge by lia. done.
Qed.

(** The loop over one iterator's rows, around the deeper levels [k]. *)
Definition rows_loop (it : iter) (off : nat) (k : row -> nat -> option (row * list row)) :=
  fix rows (rs : list nat) (buf : row) {struct rs} : option (row * list row) :=
  match rs with
  | [] => Some (buf, [])
  | r :: rs' =>
      rp ← rd (sorted it) r;
      '(buf1, w) ← write_cells rp 0 (key_col it) buf off;
      '(buf2, o1) ← k buf1 w;
      '(buf3, o2) ← rows rs' buf2;
      Some (buf3, o1 ++ o2)
  end.

(** [k], called with the row filled up to [w], emits the tails [g t] for the
    tuples [ts] and leaves what is filled alone. *)
Definition emits (L w : nat) (k : row -> nat -> option (row * list row)) (g : list row -> row)
    (ts : list (list row)) : Prop :=
  forall b, length b = L -> exists b',
    k b w = Some (b', (fun t => take w b ++ g t) <$> ts) /\ length b' = L /\ take w b' = take w b.

Lemma rows_loop_ok it off k g ts L : wf_iter it -> off + width it <= L ->
  emits L (off + width it) k g ts ->
  forall rs buf, length buf = L -> Forall (fun n => n < nrows it) rs ->
  exists buf', rows_loop it off k rs buf = Some (buf', concat
      ((fun r => (fun t => take off buf ++ nonkey 0 (key_col it) r ++ g t) <$> ts) <$>
         ((fun n => sorted it !!! n) <$> rs))) /\
    length buf' = L /\ take off buf' = take off buf.
Proof.
  intros W Ho Hk rs. induction rs as [|r rs IH]; intros buf Hb Hrs; unfold rows_loop; fold (rows_loop it off k); [by exists buf|].
  apply Forall_cons in Hrs as [Hr Hrs]. destruct (wf_row it r W Hr) as [Hl _].
  rewrite rd_total by (by rewrite <- (wi_rows _ W)). cbn [mbind option_bind].
  set (rp := sorted it !!! r) in *.
  assert (Hnk : length (nonkey 0 (key_col it) rp) = width it).
  { pose proof (length_nonkey rp 0 (key_col it)) as H. pose proof (wi_key _ W). unfold width.
    rewrite decide_True in H by lia. lia. }
  rewrite write_cells_ok by lia. rewrite Hnk. cbn [mbind option_bind].
  set (b1 := take off buf ++ nonkey 0 (key_col it) rp ++ drop (off + width it) buf).
  assert (Hb1 : length b1 = L).
  { unfold b1. rewrite !length_app, length_take, length_drop. lia. }
  assert (Ht1 : take (off + width it) b1 = take off buf ++ nonkey 0 (key_col it) rp).
  { unfold b1. rewrite app_assoc. apply take_app_length'. rewrite length_app, length_take. lia. }
  destruct (Hk b1 Hb1) as (b2 & -> & Hb2 & Ht2). cbn [mbind option_bind].
  destruct (IH b2 Hb2 Hrs) as (b3 & -> & Hb3 & Ht3). cbn [mbind option_bind].
  assert (Htk : take off b2 = take off buf).
  { replace off with (off `min` (off + width it)) at 1 by lia. rewrite <- take_take, Ht2, Ht1.
    rewrite take_app_le by (rewrite length_take; lia). by rewrite take_take, Nat.min_id. }
  exists b3. split_and!; [|done|congruence]. do 2 f_equal. cbn [fmap list_fmap concat]. f_equal.
  - apply list_fmap_ext. intros i t _. by rewrite Ht1, <- app_assoc.
  - by rewrite Htk.
Qed.

(** One level of the product, given the deeper ones. *)
Lemma emit_level it its lo hi ranges k off L : wf_iter it -> in_range it (lo, hi) ->
  off + width it <= L ->
  emits L (off + width it) k (cells its) (cprod (zip_with slice its ranges)) ->
  emits L off (fun b _ => rows_loop it off k (seq lo (hi - lo)) b) (cells (it :: its))
    (cprod (zip_with slice (it :: its) ((lo, hi) :: ranges))).
Proof.
  intros W Hr Ho Hk b Hb.
  destruct (rows_loop_ok it off k _ _ L W Ho Hk (seq lo (hi - lo)) b Hb) as (b' & -> & Hb' & Ht).
  { apply Forall_forall. intros n Hn%elem_of_seq. unfold in_range in Hr. cbn in Hr. lia. }
  exists b'. split_and!; [|done..]. do 2 f_equal. cbn [zip_with cprod].
  rewrite slice_seq by done. set (rows := (fun n => sorted it !!! n) <$> seq lo (hi - lo)). clearbody rows.
  induction rows as [|r rows IHr]; [done|]. cbn [fmap list_fmap concat]. rewrite fmap_app, <- IHr. f_equal.
  rewrite <- list_fmap_compose. done.
Qed.

Lemma emit_deep its : forall ranges key depth off L, Forall wf_iter its -> Forall2 in_range its ranges ->
  depth <> 0 -> off + sum_list (width <$> its) = L ->
  emits L off (lftj_emit_product its ranges key depth) (cells its) (cprod (zip_with slice its ranges)).
Proof.
  induction its as [|it its IH]; intros ranges key depth off L HW HR Hd HL.
  { intros b Hb. exists b. cbn. rewrite take_ge, app_nil_r by (cbn in HL; lia). done. }
  inversion HR as [|? [lo hi] ? ranges' Hr HR']; subst. apply Forall_cons in HW as [W HW].
  destruct depth as [|depth]; [done|]. cbn [fmap list_fmap sum_list]. unfold id. intros b Hb.
  destruct (emit_level it its lo hi ranges' (lftj_emit_product its ranges' key (S (S depth))) off
              (off + (width it + sum_list (width <$> its))) W Hr) with (b := b) as (b' & E & H); [lia| |done|].
  - apply IH; [done..|lia|lia].
  - exists b'. split; [exact E|done].
Qed.

(** The whole product: the key, then the cells of each tuple. *)
Lemma emit_ok it its ranges key buf : Forall wf_iter (it :: its) -> Forall2 in_range (it :: its) ranges ->
  1 + sum_list (width <$> it :: its) = length buf ->
  exists buf', lftj_emit_product (it :: its) ranges key 0 buf 1
      = Some (buf', (fun t => key :: cells (it :: its) t) <$> cprod (zip_with slice (it :: its) ranges)) /\
    length buf' = length buf.
Proof.
  intros HW HR HL. inversion HR as [|? [lo hi] ? ranges' Hr HR']; subst. apply Forall_cons in HW as [W HW].
  change (sum_list (width <$> it :: its)) with (width it + sum_list (width <$> its)) in HL.
  pose proof (emit_level it its lo hi ranges' (lftj_emit_product its ranges' key 1) 1 (length buf)) as H.
  destruct (H W Hr ltac:(lia)) with (b := <[0 := key]> buf) as (b' & E & Hb' & _).
  { apply emit_deep; [done..|lia]. }
  { by rewrite length_insert. }
  exists b'. split; [|done]. cbn [lftj_emit_product Nat.eqb]. rewrite wr_lt by lia. cbn [mbind option_bind].
  refine (eq_trans E _). do 2 f_equal. apply list_fmap_ext. intros i t _.
  destruct buf as [|x buf]; [cbn in HL; lia|done].
Qed.

(** ** Tuples of the join *)

(** A table: its key column and its rows. *)
Abbreviation tab := (nat * list row)%type.
Definition tab_of (it : iter) : tab := (key_col it, sorted it).

Definition tkey (ts : list tab) (t : list row) : Z :=
  match ts, t with tb :: _, r :: _ => rkey tb.1 r | _, _ => 0%Z end.

(** All keys of the tuple have the rank of the first. *)
Definition eqkeys (ts : list tab) (t : list row) : Prop := Forall2 (fun tb r => rkey tb.1 r = tkey ts t) ts t.

#[local] Instance eqkeys_dec ts t : Decision (eqkeys ts t).
Proof. unfold eqkeys. apply _. Defined.

(** The nested-loop join, and the output row of a tuple, its key normalised to
    its rank. *)
Definition nested_join (ts : list tab) : list (list row) := filter (eqkeys ts) (cprod ts.*2).
Definition render (ts : list tab) (t : list row) : row :=
  tkey ts t :: concat (zip_with (fun tb r => nonkey 0 tb.1 r) ts t).
Definition norm (r : row) : row := match r with k :: r' => rank ty k :: r' | [] => [] end.

(** What is left to emit from rank [T] on. *)
Definition remaining (ts : list tab) (T : Z) : list (list row) :=
  filter (fun t => (T <= tkey ts t)%Z) (nested_join ts).

Lemma join_component (its : list iter) t i it : t ∈ nested_join (tab_of <$> its) -> its !! i = Some it ->
  wf_iter it -> exists n, n < nrows it /\ ikey it n = tkey (tab_of <$> its) t.
Proof.
  intros [He Ht]%list_elem_of_filter Hi W. apply elem_of_cprod in Ht. unfold eqkeys in He.
  rewrite <- list_fmap_compose in Ht.
  destruct (Forall2_lookup_l _ _ _ i (tab_of it) He) as (r & Hr & Hk); [by rewrite list_lookup_fmap, Hi|].
  destruct (Forall2_lookup_l _ _ _ i r Ht Hr) as (l & Hl & Hin).
  rewrite list_lookup_fmap, Hi in Hl. cbn in Hl. injection Hl as <-.
  apply list_elem_of_lookup_1 in Hin as [n Hn]. exists n.
  split; [rewrite (wi_rows _ W); by eapply lookup_lt_Some|].
  unfold ikey. by rewrite (list_lookup_total_correct _ _ _ Hn).
Qed.

(** An iterator whose rows from [pos] on rank at least [T'], and before it below
    [T], lets the loop jump from [T] to [T']. *)
Lemma remaining_jump its T T' i it : its !! i = Some it -> wf_iter it -> behind T it ->
  (T <= T')%Z -> (pos it < nrows it -> (T' <= ikey it (pos it))%Z) ->
  remaining (tab_of <$> its) T = remaining (tab_of <$> its) T'.
Proof.
  intros Hi W Hb HT Hp. apply filter_iff_in. intros t Ht.
  destruct (join_component its t i it Ht Hi W) as (n & Hn & Hk). split; [|lia].
  intros Hge. destruct (decide (n < pos it)) as [Hlt|Hlt]; [specialize (Hb n Hlt); lia|].
  pose proof (ikey_mono it (pos it) n W ltac:(lia)). specialize (Hp ltac:(lia)). lia.
Qed.

(** An exhausted iterator ends the join. *)
Lemma remaining_end its T i it : its !! i = Some it -> wf_iter it -> behind T it ->
  nrows it <= pos it -> remaining (tab_of <$> its) T = [].
Proof.
  intros Hi W Hb Hp. apply filter_none. intros t Ht.
  destruct (join_component its t i it Ht Hi W) as (n & Hn & Hk). specialize (Hb n ltac:(lia)). lia.
Qed.

(** The tuples of one rank are the product of the groups. *)
Lemma nested_join_group its T : its <> [] ->
  filter (fun t => tkey (tab_of <$> its) t = T) (nested_join (tab_of <$> its)) = cprod (group T <$> its).
Proof.
  intros Hne. unfold nested_join. rewrite list_filter_filter.
  set (Ps := (fun (it : iter) (r : row) => bool_decide (rkey (key_col it) r = T)) <$> its).
  transitivity (filter (fun t => Forall2 (fun (P : row -> bool) x => P x = true) Ps t) (cprod (tab_of <$> its).*2)).
  - apply filter_iff_in. intros t Ht. unfold eqkeys, Ps. rewrite !Forall2_fmap_l. cbn [tab_of fst].
    split.
    + intros [HT He]. eapply Forall2_impl; [exact He|]. intros it r. cbn. rewrite HT.
      intros Hr. by apply bool_decide_eq_true.
    + intros He. assert (HT : tkey (tab_of <$> its) t = T).
      { destruct He as [|it r its' t' Hr _]; [done|]. by apply bool_decide_eq_true in Hr. }
      rewrite HT. split; [done|]. eapply Forall2_impl; [exact He|]. intros it r Hr. by apply bool_decide_eq_true in Hr.
  - rewrite filter_cprod by (unfold Ps; by rewrite !length_fmap). f_equal. unfold Ps. clear.
    induction its as [|it its IH]; [done|]. cbn [fmap list_fmap zip_with]. f_equal; [|apply IH].
    apply filter_iff_in. intros x _. by rewrite bool_decide_eq_true.
Qed.

(** ** Seeking *)

(** The rows that rank above [T], over all tables. *)
Definition above (T : Z) (tb : tab) : nat := length (filter (fun r => (T < rkey tb.1 r)%Z) tb.2).
Definition mu (T : Z) (ts : list tab) : nat := sum_list (above T <$> ts).

Lemma above_le T T' tb : (T <= T')%Z -> above T' tb <= above T tb.
Proof.
  intros H. unfold above. induction tb.2 as [|r l IH]; [done|]. rewrite !filter_cons.
  repeat case_decide; cbn; lia.
Qed.

Lemma above_lt T tb r : r ∈ tb.2 -> (T < rkey tb.1 r)%Z -> above (rkey tb.1 r) tb < above T tb.
Proof.
  intros Hr HT. unfold above. set (T' := rkey tb.1 r) in *.
  assert (Hle : forall l, length (filter (fun x => (T' < rkey tb.1 x)%Z) l) <= length (filter (fun x => (T < rkey tb.1 x)%Z) l)).
  { induction l as [|x l IH]; [done|]. rewrite !filter_cons. repeat case_decide; cbn; lia. }
  apply list_elem_of_split in Hr as (a & b & ->). rewrite !filter_app, !filter_cons, !length_app.
  rewrite (decide_True (P := (T < rkey tb.1 r)%Z)) by done. rewrite decide_False by (unfold T'; lia).
  pose proof (Hle a). pose proof (Hle b). cbn. lia.
Qed.

Lemma mu_cons T tb ts : mu T (tb :: ts) = above T tb + mu T ts.
Proof. done. Qed.

Lemma mu_le T T' ts : (T <= T')%Z -> mu T' ts <= mu T ts.
Proof.
  intros H. induction ts as [|tb ts IH]; [done|]. rewrite !mu_cons.
  pose proof (above_le T T' tb H). lia.
Qed.

(** Moving to the rank of some row strictly above [T] decreases the measure. *)
Lemma mu_lt its T i it n : its !! i = Some it -> wf_iter it -> n < nrows it -> (T < ikey it n)%Z ->
  mu (ikey it n) (tab_of <$> its) < mu T (tab_of <$> its).
Proof.
  intros Hi W Hn HT. revert i Hi. induction its as [|x its IH]; intros i Hi; [done|].
  rewrite fmap_cons, !mu_cons. destruct i as [|i].
  - injection Hi as ->. pose proof (mu_le T (ikey it n) (tab_of <$> its) ltac:(lia)) as Hm.
    assert (Ha : above (ikey it n) (tab_of it) < above T (tab_of it)).
    { apply (above_lt T (tab_of it) (sorted it !!! n)); [|done].
      apply list_elem_of_lookup_total_2. cbn. by rewrite <- (wi_rows _ W). }
    lia.
  - specialize (IH i Hi). pose proof (above_le T (ikey it n) (tab_of x) ltac:(lia)). lia.
Qed.

(** The iterator stands on the first row of rank [T]. *)
Definition on_key (T : Z) (it : iter) : Prop := behind T it /\ pos it < nrows it /\ ikey it (pos it) = T.

(** An iterator up to its position. *)
Definition static (it : iter) : iter := set_pos it 0.

Lemma static_tabs (its its' : list iter) : static <$> its' = static <$> its -> tab_of <$> its' = tab_of <$> its.
Proof. intros H. apply (f_equal (fmap tab_of)) in H. by rewrite <- !list_fmap_compose in H. Qed.

Lemma static_insert (its : list iter) (i : nat) it p : its !! i = Some it ->
  static <$> <[i := set_pos it p]> its = static <$> its.
Proof.
  intros Hi. rewrite list_fmap_insert. apply list_insert_id. by rewrite list_lookup_fmap, Hi.
Qed.

Lemma seek_all_ok : forall fuel its i mk, Forall wf_iter its -> Forall (behind (rank ty mk)) its ->
  valid_key ty mk -> i <= length its ->
  (forall j it, j < i -> its !! j = Some it -> on_key (rank ty mk) it) ->
  mu (rank ty mk) (tab_of <$> its) * S (length its) + (length its - i) < fuel ->
  exists its' mk' ended, seek_all fuel its i mk = Some (its', mk', ended) /\
    static <$> its' = static <$> its /\ Forall wf_iter its' /\ valid_key ty mk' /\
    (rank ty mk <= rank ty mk')%Z /\
    remaining (tab_of <$> its) (rank ty mk) = remaining (tab_of <$> its) (rank ty mk') /\
    if ended : bool then remaining (tab_of <$> its) (rank ty mk') = []
    else Forall (on_key (rank ty mk')) its'.
Proof.
  induction fuel as [|fuel IH]; intros its i mk HW HB Hv Hi Hon Hf; [lia|]. cbn [seek_all].
  destruct (Nat.ltb_spec i (length its)) as [Hlt|Hge].
  2: { exists its, mk, false. split_and!; [done..|]. apply Forall_lookup. intros j it Hj.
       apply (Hon j); [|done]. apply lookup_lt_Some in Hj. lia. }
  destruct (lookup_lt_is_Some_2 its i Hlt) as [it Hit]. unfold rd. rewrite Hit. cbn [mbind option_bind].
  pose proof (proj1 (Forall_lookup _ _) HW i it Hit) as W. pose proof (proj1 (Forall_lookup _ _) HB i it Hit) as B.
  destruct (seek_ok it mk W Hv B) as (p & -> & Hp & Bp & Hkp). cbn [mbind option_bind].
  set (it' := set_pos it p) in *. set (its' := <[i := it']> its).
  assert (W' : wf_iter it') by (apply wf_set_pos; [done|lia]).
  assert (Hst : static <$> its' = static <$> its) by by apply static_insert.
  pose proof (static_tabs _ _ Hst) as Htab.
  assert (HW' : Forall wf_iter its') by by apply Forall_insert.
  assert (Hit' : its' !! i = Some it') by by apply list_lookup_insert_eq.
  assert (Hlen : length its' = length its) by apply length_insert.
  unfold lftj_at_end. change (nrows it') with (nrows it). change (pos it') with p.
  destruct (Nat.leb_spec (nrows it) p) as [Hend|Hin].
  { exists its', mk, true. split_and!; [done..|lia|done|]. rewrite <- Htab. by apply (remaining_end its' _ i it'). }
  unfold lftj_key. change (pos it') with p. rewrite key_at_ok by (done || cbn; lia). cbn [mbind option_bind].
  change (sorted it') with (sorted it). change (key_col it') with (key_col it).
  pose proof (compare_gt it' p mk W' Hin Hv) as Hcmp. change (ikey it' p) with (ikey it p) in Hcmp.
  change (sorted it') with (sorted it) in Hcmp. change (key_col it') with (key_col it) in Hcmp. rewrite Hcmp.
  destruct (wf_row it p W Hin) as [_ Hvc]. specialize (Hkp Hin).
  destruct (Z.ltb_spec (rank ty mk) (ikey it p)) as [Hover|Hat].
  - set (cur := sorted it !!! p !!! key_col it) in *. change (ikey it p) with (rank ty cur) in *.
    pose proof (mu_lt its' (rank ty mk) i it' p Hit' W' Hin Hover) as Hmu. change (ikey it' p) with (rank ty cur) in Hmu.
    rewrite Htab in Hmu.
    destruct (IH its' 0 cur) as (its2 & mk2 & e & -> & H1 & H2 & H3 & H4 & H5 & H6); [done| |done|lia|lia| |].
    { apply Forall_insert; [|intros n Hn; specialize (Bp n Hn); lia].
      eapply Forall_impl; [exact HB|]. intros x Hx n Hn. specialize (Hx n Hn). lia. }
    { rewrite Htab, Hlen. nia. }
    exists its2, mk2, e. rewrite Hst in H1. rewrite Htab in *. split_and!; [done..|lia| |done].
    rewrite <- H5, <- Htab. apply (remaining_jump its' _ _ i it'); [done..|lia|]. intros _. change (ikey it' (pos it')) with (rank ty cur). lia.
  - destruct (IH its' (S i) mk) as (its2 & mk2 & e & -> & H1 & H2 & H3 & H4 & H5 & H6); [done| |done|lia| | |].
    { apply Forall_insert; done. }
    { intros j x Hj Hx. destruct (decide (j = i)) as [->|Hne].
      - rewrite Hit' in Hx. injection Hx as <-. split_and!; [done|done|]. change (ikey it' (pos it')) with (ikey it p). lia.
      - unfold its' in Hx. rewrite list_lookup_insert_ne in Hx by done. apply (Hon j); [lia|done]. }
    { rewrite Htab, Hlen. lia. }
    exists its2, mk2, e. rewrite Hst in H1. rewrite Htab in *. split_and!; done.
Qed.

(** ** Emitting and advancing *)

(** The range of rank [T] of an iterator that stands on it. *)
Record ranged (T : Z) (it : iter) (rg : nat * nat) : Prop := {
  rg_in : in_range it rg;
  rg_behind : behind (T + 1) (set_pos it rg.2);
  rg_above : rg.2 < nrows it -> (T < ikey it rg.2)%Z;
  rg_group : slice it rg = group T it }.

Lemma ranges_ok mk its : valid_key ty mk -> Forall wf_iter its -> Forall (on_key (rank ty mk)) its ->
  exists ranges, mapM (fun it => lftj_key_range it mk) its = Some ranges /\ Forall2 (ranged (rank ty mk)) its ranges.
Proof.
  intros Hv HW HO. induction its as [|it its IH]; [by exists []|].
  apply Forall_cons in HW as [W HW]. apply Forall_cons in HO as [(B & Hp & Hk) HO].
  destruct (IH HW HO) as (ranges & Hm & HR).
  destruct (key_range_ok it mk W Hv B) as (hi & E & Hhi & Bh & Ha & Hg); [intros _; lia|].
  exists ((pos it, hi) :: ranges). cbn. rewrite E. cbn. rewrite Hm. cbn. split; [done|]. constructor; [|done]. by split.
Qed.

Lemma advance_ok T its ranges : Forall wf_iter its -> Forall2 (ranged T) its ranges ->
  forall nm, (forall m, nm = Some m -> valid_key ty m /\ (T < rank ty m)%Z) -> (its <> [] \/ nm <> None) ->
  exists its' next, advance_all its ranges nm = Some (its', next) /\ static <$> its' = static <$> its /\
    Forall wf_iter its' /\
    match next with
    | None => exists i it', its' !! i = Some it' /\ behind (T + 1) it' /\ nrows it' <= pos it'
    | Some m => valid_key ty m /\ (T < rank ty m)%Z /\ Forall (behind (T + 1)) its' /\
        ((exists i it', its' !! i = Some it' /\ pos it' < nrows it' /\ ikey it' (pos it') = rank ty m) \/ nm = Some m)
    end.
Proof.
  intros HW HR. induction HR as [|it [lo hi] its ranges HR _ IH]; intros nm Hnm Hne; cbn [advance_all].
  { exists [], nm. split_and!; [done..|]. destruct nm as [m|]; [|naive_solver].
    destruct (Hnm m eq_refl). split_and!; [done..|by right]. }
  apply Forall_cons in HW as [W HW]. pose proof (rg_in _ _ _ HR) as Hin. unfold in_range in Hin. cbn in Hin.
  assert (W1 : wf_iter (set_pos it hi)) by (apply wf_set_pos; [done|lia]).
  unfold lftj_at_end. change (nrows (set_pos it hi)) with (nrows it). change (pos (set_pos it hi)) with hi.
  destruct (Nat.leb_spec (nrows it) hi) as [Hend|Hlt].
  { exists (set_pos it hi :: its), None. split_and!; [done|done|by constructor|].
    exists 0, (set_pos it hi). split_and!; [done|apply (rg_behind _ _ _ HR)|done]. }
  unfold lftj_key. change (pos (set_pos it hi)) with hi. rewrite key_at_ok by (done || cbn; lia). cbn [mbind option_bind].
  change (sorted (set_pos it hi)) with (sorted it). change (key_col (set_pos it hi)) with (key_col it).
  set (nk := sorted it !!! hi !!! key_col it). destruct (wf_row it hi W Hlt) as [_ Hvk]. fold nk in Hvk.
  pose proof (rg_above _ _ _ HR Hlt) as Hnk. change (ikey it _) with (rank ty nk) in Hnk.
  set (next := match nm with Some m => if (lftj_compare_key (set_pos it hi) nk m >? 0)%Z then nk else m | None => nk end).
  assert (Hnext : valid_key ty next /\ (T < rank ty next)%Z /\ (next = nk \/ nm = Some next)).
  { unfold next. destruct nm as [m|]; [|auto]. destruct (Hnm m eq_refl). destruct (_ >? 0)%Z; auto. }
  destruct Hnext as (Hvn & HTn & Hor).
  destruct (IH HW (Some next)) as (its' & nx & -> & Htab & HW' & Hnx); [by intros m [= <-]|by right|].
  cbn [mbind option_bind]. exists (set_pos it hi :: its'), nx.
  split_and!; [done|by rewrite !fmap_cons, Htab|by constructor|].
  destruct nx as [m|].
  - destruct Hnx as (H1 & H2 & H3 & H4). split_and!; [done|done|constructor; [apply (rg_behind _ _ _ HR)|done]|].
    destruct H4 as [(i & it' & Hi & Hp & Hk)|[= <-]]; [left; by exists (S i), it'|].
    destruct Hor as [->|Hor]; [|by right]. left. by exists 0, (set_pos it hi).
  - destruct Hnx as (i & it' & Hi & Hb & Hp). by exists (S i), it'.
Qed.

Lemma ranged_slices T its ranges : Forall2 (ranged T) its ranges ->
  zip_with slice its ranges = group T <$> its /\ Forall2 in_range its ranges.
Proof.
  induction 1 as [|it rg its ranges H _ [IH1 IH2]]; [done|]. cbn. rewrite IH1, (rg_group _ _ _ H).
  split; [done|]. constructor; [apply H|done].
Qed.

(** The rows emitted for one rank are the rendered tuples of that rank. *)
Lemma emitted_group mk its : its <> [] ->
  norm <$> ((fun t => mk :: cells its t) <$> cprod (group (rank ty mk) <$> its)) =
  render (tab_of <$> its) <$> cprod (group (rank ty mk) <$> its).
Proof.
  intros Hne. rewrite <- list_fmap_compose. apply list_fmap_ext. intros i t Ht%list_elem_of_lookup_2.
  rewrite <- nested_join_group in Ht by done. apply list_elem_of_filter in Ht as [Hk _].
  cbn. unfold render. rewrite Hk. f_equal. unfold cells. f_equal. by rewrite zip_with_fmap_l.
Qed.

Lemma remaining_split ts T :
  remaining ts T ≡ₚ filter (fun t => tkey ts t = T) (nested_join ts) ++ remaining ts (T + 1).
Proof.
  unfold remaining. induction (nested_join ts) as [|t l IH]; [done|]. rewrite !filter_cons.
  repeat case_decide; try lia; cbn; [by f_equiv| |done]. rewrite IH. apply Permutation_middle.
Qed.

Lemma static_sizes (its its' : list iter) : static <$> its' = static <$> its ->
  length its' = length its /\ width <$> its' = width <$> its /\ total_rows its' = total_rows its.
Proof.
  intros H. split_and!.
  - by rewrite <- (length_fmap static its), <- H, length_fmap.
  - apply (f_equal (fmap width)) in H. by rewrite <- !list_fmap_compose in H.
  - unfold total_rows. apply (f_equal (fmap nrows)) in H. rewrite <- !list_fmap_compose in H. by f_equal.
Qed.

Lemma mu_total its T : Forall wf_iter its -> mu T (tab_of <$> its) <= total_rows its.
Proof.
  induction 1 as [|it its W _ IH]; [done|]. rewrite fmap_cons, mu_cons.
  change (total_rows (it :: its)) with (nrows it + total_rows its).
  assert (above T (tab_of it) <= nrows it); [|lia]. unfold above. rewrite (wi_rows _ W). apply length_filter.
Qed.

(** Rows in the order of their first cells, from [T] on. *)
Definition in_key_order (l : list row) : Prop := StronglySorted (fun a b : row => (a !!! 0%nat <= b !!! 0%nat)%Z) l.
Definition from_rank (T : Z) (l : list row) : Prop := Forall (fun r : row => (T <= r !!! 0%nat)%Z) l.

Lemma emitted_order mk (l : list (list row)) its : from_rank (rank ty mk) (norm <$> ((fun t => mk :: cells its t) <$> l)) /\
  forall rest, in_key_order rest -> from_rank (rank ty mk) rest -> in_key_order ((norm <$> ((fun t => mk :: cells its t) <$> l)) ++ rest).
Proof.
  induction l as [|t l [IH1 IH2]]; cbn [fmap list_fmap]; [split; [constructor|by intros]|]. split.
  - constructor; [cbn; lia|done].
  - intros rest Hs Hr. cbn [app]. constructor; [by apply IH2|]. apply Forall_app. by split.
Qed.

Lemma from_rank_le T T' l : (T' <= T)%Z -> from_rank T l -> from_rank T' l.
Proof. intros Hle H. eapply Forall_impl; [exact H|]. cbn. intros x Hx. lia. Qed.

(** The leapfrog loop emits every remaining tuple once, in the order of the
    keys. *)
Lemma leapfrog_ok : forall fuel its mk buf, its <> [] -> Forall wf_iter its ->
  Forall (behind (rank ty mk)) its -> valid_key ty mk ->
  1 + sum_list (width <$> its) = length buf -> mu (rank ty mk) (tab_of <$> its) < fuel ->
  exists out, leapfrog fuel its mk buf = Some out /\ in_key_order (norm <$> out) /\ from_rank (rank ty mk) (norm <$> out) /\
    norm <$> out ≡ₚ render (tab_of <$> its) <$> remaining (tab_of <$> its) (rank ty mk).
Proof.
  induction fuel as [|fuel IH]; intros its mk buf Hne HW HB Hv Hbuf Hf; [lia|]. cbn [leapfrog].
  destruct (seek_all_ok (seek_fuel its) its 0 mk) as (its1 & mk1 & ended & -> & Hst & HW1 & Hv1 & Hle & Hrem & Hend);
    [done|done|done|lia|lia| |].
  { pose proof (mu_total its (rank ty mk) HW). unfold seek_fuel. nia. }
  cbn [mbind option_bind]. rewrite Hrem. pose proof (static_tabs _ _ Hst) as Htab.
  destruct (static_sizes _ _ Hst) as (Hlen & Hwid & _).
  destruct ended. { exists []. rewrite Hend. split_and!; [done|constructor|constructor|done]. }
  assert (Hne1 : its1 <> []) by (intros ->; by destruct its).
  destruct (ranges_ok mk1 its1 Hv1 HW1 Hend) as (ranges & -> & HR). cbn [mbind option_bind].
  destruct (ranged_slices _ _ _ HR) as [Hsl Hin].
  destruct its1 as [|it1 rest1] eqn:Eits; [done|]. rewrite <- Eits in *.
  destruct (emit_ok it1 rest1 ranges mk1 buf) as (buf1 & Hemit & Hbuf1); [by rewrite <- Eits..|by rewrite <- Eits, Hwid|].
  rewrite <- Eits in Hemit. rewrite Hemit. cbn [mbind option_bind].
  destruct (advance_ok (rank ty mk1) its1 ranges HW1 HR None) as (its2 & next & -> & Hst2 & HW2 & Hnext);
    [done|by left|]. cbn [mbind option_bind]. pose proof (static_tabs _ _ Hst2) as Htab2.
  destruct (static_sizes _ _ Hst2) as (Hlen2 & Hwid2 & _). rewrite Htab in Htab2.
  assert (Hgrp : norm <$> ((fun t => mk1 :: cells its1 t) <$> cprod (zip_with slice its1 ranges))
    = render (tab_of <$> its) <$> filter (fun t => tkey (tab_of <$> its) t = rank ty mk1) (nested_join (tab_of <$> its))).
  { rewrite Hsl, emitted_group, <- Htab, nested_join_group by done. done. }
  destruct next as [m|].
  - destruct Hnext as (Hvm & HTm & HB2 & [(i & it' & Hi & Hp & Hk)|]); [|done].
    pose proof (proj1 (Forall_lookup _ _) HW2 i it' Hi) as W'.
    assert (Hmu : mu (rank ty m) (tab_of <$> its) < mu (rank ty mk1) (tab_of <$> its)).
    { rewrite <- Htab2, <- Hk. apply (mu_lt its2 _ i it'); [done..|lia]. }
    pose proof (mu_le (rank ty mk) (rank ty mk1) (tab_of <$> its) Hle).
    destruct (IH its2 m buf1) as (rest & -> & Hso & Hfrom & Hrest); [by intros ->; destruct its1|done| |done| | |].
    { eapply Forall_impl; [exact HB2|]. intros x Hx n Hn. specialize (Hx n Hn). lia. }
    { by rewrite Hwid2, Hwid, Hbuf1. }
    { rewrite Htab2. lia. }
    cbn [mbind option_bind]. eexists. split; [done|]. destruct (emitted_order mk1 (cprod (zip_with slice its1 ranges)) its1) as [He1 He2].
    assert (Hfrom1 : from_rank (rank ty mk1) (norm <$> rest)) by (apply (from_rank_le (rank ty m)); [lia|done]). split; [rewrite fmap_app; by apply He2|]. split; [rewrite fmap_app; apply (from_rank_le (rank ty mk1)); [lia|by apply Forall_app]|].
    rewrite fmap_app, Hgrp, Hrest, Htab2, (remaining_split _ (rank ty mk1)), fmap_app.
    apply Permutation_app_head. rewrite <- Htab2. rewrite (remaining_jump its2 (rank ty mk1 + 1) (rank ty m) i it'); [done|done|done| |lia|].
    + exact (proj1 (Forall_lookup _ _) HB2 i it' Hi).
    + intros _. lia.
  - destruct Hnext as (i & it' & Hi & Hb & Hp). eexists. split; [done|]. destruct (emitted_order mk1 (cprod (zip_with slice its1 ranges)) its1) as [He1 He2].
    split; [rewrite <-(app_nil_r (norm <$> _)); apply He2; constructor|]. split; [apply (from_rank_le (rank ty mk1)); [lia|done]|].
    rewrite Hgrp, remaining_split. rewrite <- Htab2.
    rewrite (remaining_end its2 (rank ty mk1 + 1) i it'), app_nil_r; [done|done| |done|done].
    exact (proj1 (Forall_lookup _ _) HW2 i it' Hi).
Qed.

(** ** Setting up *)

Definition rows_of (inp : input) : list row := default [] (data inp).
Definition tab_in (inp : input) : tab := (in_key inp, rows_of inp).

(** An input whose buffer is what its descriptor says. *)
Record shaped (inp : input) : Prop := {
  sh_len : length (rows_of inp) = in_nrows inp;
  sh_key : in_key inp < in_ncols inp;
  sh_cells : Forall (fun r => length r = in_ncols inp /\ is_int64 (r !!! in_key inp)) (rows_of inp) }.

Definition keys_ok (inp : input) : Prop := Forall (fun r => valid_key ty (r !!! in_key inp)) (rows_of inp).

(** Scratch rows, when available, are as many as the rows to sort. *)
Definition scratch_ok (mem : memory) (i : nat) (inp : input) : Prop :=
  forall t, m_scratch mem i = Some t -> length t = in_nrows inp.

Record iter_for (inp : input) (it : iter) : Prop := {
  if_wf : wf_iter it;
  if_pos : pos it = 0;
  if_key : key_col it = in_key inp;
  if_ncols : ncols it = in_ncols inp;
  if_rows : sorted it ≡ₚ rows_of inp }.

Lemma float_keys_valid_ok rows kc : Forall (fun r : row => kc < length r) rows ->
  exists b, float_keys_valid rows kc = Some b /\
    (b = true <-> Forall (fun r : row => float_bits_valid (r !!! kc) = true) rows).
Proof.
  induction 1 as [|r rows Hr _ (b & IH & Hb)]; cbn; [by exists true|].
  rewrite rd_total by done. cbn. destruct (float_bits_valid (r !!! kc)) eqn:E.
  - exists b. split; [done|]. rewrite Hb, Forall_cons. tauto.
  - exists false. split; [done|]. rewrite Forall_cons. split; [done|]. intros [? _]. congruence.
Qed.

Lemma iter_init_ok mem i inp : shaped inp -> keys_ok inp -> scratch_ok mem i inp ->
  (exists it, lftj_iter_init mem i inp ty = Some (0%Z, it) /\ iter_for inp it) \/
  (exists it, lftj_iter_init mem i inp ty = Some (ENOMEM, it) /\ (m_copy mem i = false \/ m_scratch mem i = None)).
Proof.
  intros Hs Hk Hm. unfold lftj_iter_init. destruct (Nat.eqb_spec (in_nrows inp) 0) as [E|Hne].
  { left. eexists. split; [done|]. pose proof (sh_len _ Hs) as Hl. rewrite E in Hl. apply nil_length_inv in Hl.
    split; [split; cbn; rewrite ?E; try done|..]; try done.
    - apply Hs.
    - constructor.
    - cbn. by rewrite Hl. }
  destruct (m_copy mem i) eqn:Ec; cbn [negb]; [|right; eauto].
  pose proof (sh_len _ Hs) as Hl. unfold rows_of in Hl.
  destruct (data inp) as [d|] eqn:Ed; cbn [default] in Hl; [|cbn in Hl; lia]. cbn [mbind option_bind].
  rewrite (proj2 (Nat.leb_le _ _)) by (cbn in Hl; lia). cbn [mbind option_bind]. rewrite take_ge by (cbn in Hl; lia).
  assert (Hg : good_table (in_ncols inp) (in_key inp) d).
  { split; [apply Hs|]. pose proof (sh_cells _ Hs) as Hc. unfold rows_of in Hc. by rewrite Ed in Hc. }
  assert (Hok : forall out, key_sorted ty (in_key inp) d out ->
    iter_for inp (Iter out (in_nrows inp) (in_ncols inp) (in_key inp) 0 ty)).
  { intros out Ho. pose proof (ks_perm _ _ _ _ Ho) as Hp.
    split; [split; cbn|..]; try done.
    - rewrite Hp. cbn in Hl. lia.
    - apply Hs.
    - rewrite Hp. apply Forall_forall. intros r Hr. destruct Hg as [_ Hg]. rewrite Forall_forall in Hg.
      unfold keys_ok, rows_of in Hk. rewrite Ed in Hk. cbn in Hk. rewrite Forall_forall in Hk.
      destruct (Hg r Hr). auto.
    - apply Ho.
    - lia.
    - cbn. rewrite Hp. unfold rows_of. by rewrite Ed. }
  destruct (m_scratch mem i) as [t|] eqn:Et.
  - destruct (sort_ok t ty d (in_ncols inp) (in_key inp) Hg) as (out & -> & Ho); [rewrite (Hm t Et); cbn in Hl; lia|].
    cbn [mbind option_bind Z.eqb negb]. left. eauto.
  - destruct (sort_oom (sort := radix_sort_rows_by_key_typed) ty d (in_ncols inp) (in_key inp) Hg) as [[E Ho]|E];
      rewrite E; cbn [mbind option_bind Z.eqb negb]; [left|right]; eauto.
Qed.

(** Every input gets its iterator, or the set-up stops with a cause. *)
Lemma init_iters_ok mem ins : forall i, Forall shaped ins ->
  (forall j inp, ins !! j = Some inp -> scratch_ok mem (i + j) inp) ->
  exists rc its, init_iters mem i ins ty = Some (rc, its) /\
    (rc = 0%Z /\ Forall2 iter_for ins its /\ Forall keys_ok ins \/
     rc = EINVAL /\ Exists (fun inp => ~ keys_ok inp) ins \/
     rc = ENOMEM /\ exists j, j < length ins /\ (m_copy mem (i + j) = false \/ m_scratch mem (i + j) = None)).
Proof.
  induction ins as [|inp ins IH]; intros i Hs Hm; cbn [init_iters]; [by exists 0%Z, []; naive_solver|].
  apply Forall_cons in Hs as [Hs Hss].
  assert (Hchk : exists b, (if is_float ty then float_keys_valid (take (in_nrows inp) (default [] (data inp))) (in_key inp)
            else Some true) = Some b /\ (b = true <-> keys_ok inp)).
  { fold (rows_of inp). rewrite take_ge by (rewrite (sh_len _ Hs); lia).
    pose proof (sh_cells _ Hs) as Hc. pose proof (sh_key _ Hs). unfold keys_ok, valid_key.
    destruct (is_float ty).
    - destruct (float_keys_valid_ok (rows_of inp) (in_key inp)) as (b & -> & Hb).
      { eapply Forall_impl; [exact Hc|]. intros r [-> _]. lia. }
      exists b. split; [done|]. rewrite Hb, !Forall_forall in *.
      split; [intros Hv r Hr; split; [by apply Hc|auto]|intros Hv r Hr; by apply (Hv r Hr)].
    - exists true. split; [done|]. split; [|done]. intros _. eapply Forall_impl; [exact Hc|]. intros r [_ Hr]. by split. }
  destruct Hchk as (b & -> & Hb). cbn [mbind option_bind]. destruct b; cbn [negb].
  2: { exists EINVAL, []. split; [done|]. right. left. split; [done|]. left. intros ?%Hb. done. }
  assert (Hk : keys_ok inp) by by apply Hb.
  pose proof (Hm 0 inp eq_refl) as H0. rewrite Nat.add_0_r in H0.
  destruct (iter_init_ok mem i inp Hs Hk H0) as [(it & -> & Hit)|(it & -> & Hf)]; cbn [mbind option_bind].
  - cbn [Z.eqb negb]. destruct (IH (S i)) as (rc & its & -> & H); [done| |].
    { intros j x Hx. rewrite Nat.add_succ_l, <- Nat.add_succ_r. by apply Hm. }
    cbn [mbind option_bind]. exists rc, (it :: its). split; [done|].
    destruct H as [(-> & H1 & H2)|[(-> & H1)|(-> & j & Hj & H1)]].
    + left. split_and!; [done|by constructor|by constructor].
    + right. left. split; [done|by right].
    + right. right. split; [done|]. exists (S j). rewrite Nat.add_succ_r. cbn. split; [lia|done].
  - exists ENOMEM, []. split; [done|]. right. right. split; [done|]. exists 0. rewrite Nat.add_0_r. cbn. split; [lia|done].
Qed.

Lemma initial_max_ok its : forall mk0, Forall wf_iter its -> Forall (fun it => pos it = 0 /\ 0 < nrows it) its ->
  valid_key ty mk0 ->
  exists mk, initial_max its mk0 = Some mk /\ valid_key ty mk /\
    (mk = mk0 \/ exists i it, its !! i = Some it /\ ikey it 0 = rank ty mk).
Proof.
  induction its as [|it its IH]; intros mk0 HW HP Hv; cbn [initial_max]; [eauto|].
  apply Forall_cons in HW as [W HW]. apply Forall_cons in HP as [[Hp Hn] HP].
  unfold lftj_key. rewrite Hp, key_at_ok by done. cbn [mbind option_bind].
  set (ki := sorted it !!! 0 !!! key_col it). destruct (wf_row it 0 W Hn) as [_ Hvk]. fold ki in Hvk.
  destruct (IH (if (lftj_compare_key it ki mk0 >? 0)%Z then ki else mk0)) as (mk & -> & Hvm & Hor);
    [done|done|by destruct (_ >? 0)%Z|].
  exists mk. split_and!; [done..|]. destruct Hor as [->|(i & x & Hi & Hk)].
  - destruct (_ >? 0)%Z; [right; by exists 0, it|by left].
  - right. by exists (S i), x.
Qed.

Definition in_width (inp : input) : nat := in_ncols inp - 1.

Lemma total_columns_ok ins : forall acc, Forall shaped ins ->
  match total_columns ins acc with
  | Some t => t = (acc + Z.of_nat (sum_list (in_width <$> ins)))%Z
  | None => (UINT32_MAX < acc + Z.of_nat (sum_list (in_width <$> ins)))%Z
  end.
Proof.
  induction ins as [|inp ins IH]; intros acc Hs; cbn [total_columns]; [cbn; lia|].
  apply Forall_cons in Hs as [Hs Hss]. pose proof (sh_key _ Hs).
  change (sum_list (in_width <$> inp :: ins))
    with (in_width inp + sum_list (in_width <$> ins)). unfold in_width at 1 3.
  destruct (Z.ltb_spec (UINT32_MAX - (Z.of_nat (in_ncols inp) - 1)) acc); [lia|].
  specialize (IH (acc + (Z.of_nat (in_ncols inp) - 1))%Z Hss). destruct (total_columns _ _); lia.
Qed.

Lemma iters_for_tabs ins its : Forall2 iter_for ins its ->
  Forall wf_iter its /\ Forall (fun it => pos it = 0) its /\
  (fst <$> (tab_of <$> its)) = (fst <$> (tab_in <$> ins)) /\
  Forall2 Permutation (tab_of <$> its).*2 (tab_in <$> ins).*2 /\
  width <$> its = in_width <$> ins.
Proof.
  induction 1 as [|inp it ins its H _ (IH1 & IH2 & IH3 & IH4 & IH5)]; [by repeat constructor|].
  split_and!; [constructor; [apply H|done]..| | |]; cbn.
  - rewrite (if_key _ _ H). f_equal. apply IH3.
  - constructor; [apply H|apply IH4].
  - unfold width. rewrite (if_ncols _ _ H). f_equal. apply IH5.
Qed.

(** The reference only looks at the key columns and the row multisets. *)
Lemma tkey_fst (ts1 ts2 : list tab) t : ts1.*1 = ts2.*1 -> tkey ts1 t = tkey ts2 t.
Proof. destruct ts1 as [|[] ?], ts2 as [|[] ?], t; cbn; congruence. Qed.

Lemma join_perm (ts1 ts2 : list tab) : ts1.*1 = ts2.*1 -> Forall2 Permutation ts1.*2 ts2.*2 ->
  render ts1 <$> nested_join ts1 ≡ₚ render ts2 <$> nested_join ts2.
Proof.
  intros H1 H2.
  assert (Hr : forall t, render ts1 t = render ts2 t).
  { intros t. unfold render. rewrite (tkey_fst _ _ t H1). f_equal. f_equal.
    rewrite <- (zip_with_fmap_l (fun kc r => nonkey 0 kc r) fst ts1 t), <- (zip_with_fmap_l (fun kc r => nonkey 0 kc r) fst ts2 t).
    by rewrite H1. }
  assert (He : forall t, eqkeys ts1 t <-> eqkeys ts2 t).
  { intros t. unfold eqkeys. rewrite (tkey_fst _ _ t H1).
    rewrite <- (Forall2_fmap_l fst (fun kc r => rkey kc r = tkey ts2 t) ts1 t).
    rewrite <- (Forall2_fmap_l fst (fun kc r => rkey kc r = tkey ts2 t) ts2 t). by rewrite H1. }
  rewrite (list_fmap_ext (render ts1) (render ts2)) by done. apply fmap_Permutation.
  unfold nested_join. rewrite (filter_iff_in (eqkeys ts1) (eqkeys ts2)) by done.
  by apply filter_Permutation, cprod_perm.
Qed.

(** The loop, from its initial maximum. *)
Lemma loop_ok ins its buf : Forall2 iter_for ins its -> 2 <= length ins ->
  existsb lftj_at_end its = false -> length buf = 1 + sum_list (in_width <$> ins) ->
  exists it0 rest k0 mk out, its = it0 :: rest /\ lftj_key it0 = Some k0 /\ initial_max rest k0 = Some mk /\
    leapfrog (S (total_rows its)) its mk buf = Some out /\ in_key_order (norm <$> out) /\
    norm <$> out ≡ₚ render (tab_in <$> ins) <$> nested_join (tab_in <$> ins).
Proof.
  intros HF Hk He Hbuf. destruct (iters_for_tabs _ _ HF) as (HW & HP & H1 & H2 & H3).
  assert (Hn : Forall (fun it => pos it = 0 /\ 0 < nrows it) its).
  { apply Forall_forall. intros it Hit. rewrite Forall_forall in HP. split; [by apply HP|].
    destruct (decide (0 < nrows it)); [done|]. exfalso. apply not_true_iff_false in He. apply He.
    apply existsb_exists. exists it. split; [by apply list_elem_of_In|]. unfold lftj_at_end. apply Nat.leb_le. lia. }
  destruct its as [|it0 rest]; [apply Forall2_length in HF; cbn in HF; lia|].
  pose proof HW as HW'. pose proof Hn as Hn'. apply Forall_cons in HW' as [W0 HWr]. apply Forall_cons in Hn' as [[Hp0 Hn0] Hnr].
  assert (Hk0 : lftj_key it0 = Some (sorted it0 !!! 0 !!! key_col it0)) by (unfold lftj_key; rewrite Hp0; by apply key_at_ok).
  destruct (wf_row it0 0 W0 Hn0) as [_ Hv0].
  destruct (initial_max_ok rest _ HWr Hnr Hv0) as (mk & Hmk & Hv & Hor).
  assert (Hex : exists i it, (it0 :: rest) !! i = Some it /\ ikey it 0 = rank ty mk).
  { destruct Hor as [->|(i & it & Hi & Hik)]; [by exists 0, it0|by exists (S i), it]. }
  destruct Hex as (i & it & Hi & Hik).
  destruct (leapfrog_ok (S (total_rows (it0 :: rest))) (it0 :: rest) mk buf) as (out & Hout & Hso & _ & Hperm);
    [done|done| |done|rewrite H3; lia| |].
  { apply Forall_forall. intros x Hx n Hlt. rewrite Forall_forall in HP. rewrite (HP x Hx) in Hlt. lia. }
  { pose proof (mu_total (it0 :: rest) (rank ty mk) HW). lia. }
  exists it0, rest, (sorted it0 !!! 0 !!! key_col it0), mk, out. split_and!; [done..|].
  rewrite Hperm, <- (join_perm _ _ H1 H2). f_equiv. unfold remaining. apply reflexive_eq, filter_all, Forall_forall.
  intros t Ht. pose proof (proj1 (Forall_lookup _ _) HW i it Hi) as W.
  destruct (join_component _ t i it Ht Hi W) as (n & Hlt & Hkey). pose proof (ikey_mono it 0 n W ltac:(lia)). lia.
Qed.

End Join.
(** ** The join *)

(** The memory contract of a call. *)
Record call_ok (mem : memory) (buf : Z -> row) (ins : list input) : Prop := {
  co_shaped : Forall shaped ins;
  co_scratch : forall j inp, ins !! j = Some inp -> scratch_ok mem j inp;
  co_buf : forall n, (0 <= n)%Z -> length (buf n) = Z.to_nat n }.

Definition output_width (ins : list input) : Z := (1 + Z.of_nat (sum_list (in_width <$> ins)))%Z.

Definition bad_arguments (ty : column_type) (ins : list input) : Prop :=
  ~ (2 <= length ins <= 64) \/ (UINT32_MAX < output_width ins)%Z \/ Exists (fun inp => ~ keys_ok ty inp) ins.

Definition out_of_memory (mem : memory) (ins : list input) : Prop :=
  m_iters mem = false \/ m_buffers mem = false \/
  exists j, j < length ins /\ (m_copy mem j = false \/ m_scratch mem j = None).

Definition join_output (ty : column_type) (ins : list input) : list row :=
  render ty (tab_in <$> ins) <$> nested_join ty (tab_in <$> ins).

Lemma shaped_not_bad ins : Forall shaped ins -> existsb bad_input ins = false.
Proof.
  intros Hs. apply not_true_iff_false. rewrite existsb_exists. intros (inp & Hin & Hb).
  apply list_elem_of_In in Hin. rewrite Forall_forall in Hs. destruct (Hs inp Hin) as [Hl Hk _].
  unfold bad_input in Hb. destruct (Nat.eqb_spec (in_ncols inp) 0); [lia|].
  destruct (Nat.leb_spec (in_ncols inp) (in_key inp)); [lia|]. cbn [orb] in Hb.
  apply andb_true_iff in Hb as [H1%Nat.ltb_lt H2]. apply bool_decide_eq_true in H2. unfold rows_of in Hl. rewrite H2 in Hl.
  cbn in Hl. lia.
Qed.

Lemma join_total ty mem buf ins : call_ok mem buf ins ->
  exists rc out, lftj_join_typed mem buf ins ty = Some (rc, out) /\
    (rc = 0%Z /\ norm ty <$> out ≡ₚ join_output ty ins /\ in_key_order (norm ty <$> out) \/
     rc = EINVAL /\ out = [] /\ bad_arguments ty ins \/
     rc = ENOMEM /\ out = [] /\ out_of_memory mem ins).
Proof.
  intros [Hs Hm Hb]. unfold lftj_join_typed.
  destruct (Nat.ltb_spec (length ins) 2) as [|H2]; cbn [orb].
  { do 2 eexists. split; [done|]. right. left. split_and!; [done..|]. left. lia. }
  destruct (Nat.ltb_spec WL_LFTJ_MAX_K (length ins)) as [HK|HK]; unfold WL_LFTJ_MAX_K in HK.
  { do 2 eexists. split; [done|]. right. left. split_and!; [done..|]. left. lia. }
  rewrite shaped_not_bad by done. pose proof (total_columns_ok ins 1 Hs) as Htot.
  destruct (total_columns ins 1) as [total|].
  2: { do 2 eexists. split; [done|]. right. left. split_and!; [done..|]. right. by left. }
  destruct (m_iters mem) eqn:Ei; cbn [negb].
  2: { do 2 eexists. split; [done|]. right. right. split_and!; [done..|]. by left. }
  destruct (init_iters_ok ty mem ins 0 Hs Hm) as (rc & its & -> & [(-> & HF & Hk)|[(-> & Hbad)|(-> & Hf)]]);
    cbn [mbind option_bind Z.eqb negb].
  2: { do 2 eexists. split; [done|]. right. left. split_and!; [done..|]. right. by right. }
  2: { do 2 eexists. split; [done|]. right. right. split_and!; [done..|]. right. by right. }
  destruct (existsb lftj_at_end its) eqn:He.
  { do 2 eexists. split; [done|]. left. split; [done|]. split; [|constructor].
    destruct (iters_for_tabs ty _ _ HF) as (HW & HP & H1 & H3 & _). unfold join_output.
    rewrite <- (join_perm ty _ _ H1 H3). apply existsb_exists in He as (it & Hin & Hend).
    apply list_elem_of_In, list_elem_of_lookup_1 in Hin as [i Hi].
    pose proof (proj1 (Forall_lookup _ _) HW i it Hi) as W. pose proof (proj1 (Forall_lookup _ _) HP i it Hi) as P.
    unfold lftj_at_end in Hend. apply Nat.leb_le in Hend. cbn in P.
    destruct (nested_join ty (tab_of <$> its)) as [|t l] eqn:E; [done|].
    destruct (join_component ty its t i it) as (n & Hn & _); [rewrite E; left|done|done|lia]. }
  destruct (m_buffers mem) eqn:Eb; cbn [negb].
  2: { do 2 eexists. split; [done|]. right. right. split_and!; [done..|]. right. by left. }
  destruct (loop_ok ty ins its (buf total) HF H2 He) as (it0 & rest & k0 & mk & out & -> & -> & Hmk & Hout & Hso & Hperm).
  { rewrite Hb by lia. rewrite Htot. lia. }
  cbn [mbind option_bind]. rewrite Hmk. cbn [mbind option_bind]. rewrite Hout. cbn [mbind option_bind].
  do 2 eexists. split; [done|]. by left.
Qed.

(** ** Properties *)

(** C24: The typed leapfrog join is total and correct.  Whatever allocations
    succeed, the call stays inside its buffers, terminates, and either returns
    0 having emitted exactly the rows of the nested-loop join, as a multiset and
    in the order of their keys (keys compared and reported by rank, so that the
    two float zeros agree), or
    emits nothing and returns EINVAL for bad arguments or ENOMEM for a failed
    allocation. *)
Theorem lftj_join_typed_correct (ty : column_type) (mem : memory) (buf : Z -> row) (ins : list input)
  (H : call_ok mem buf ins) :
  exists rc out, lftj_join_typed mem buf ins ty = Some (rc, out) /\
    (rc = 0%Z /\ norm ty <$> out ≡ₚ join_output ty ins /\ in_key_order (norm ty <$> out) \/
     rc = EINVAL /\ out = [] /\ bad_arguments ty ins \/
     rc = ENOMEM /\ out = [] /\ out_of_memory mem ins).
Proof. by apply join_total. Qed.

Definition join_a : input := Input (Some [[3; 30]; [1; 10]; [3; 31]]%Z) 3 2 0.
Definition join_b : input := Input (Some [[7; 3]; [8; 2]; [9; 3]]%Z) 3 2 1.
Definition zeros (n : Z) : row := replicate (Z.to_nat n) 0%Z.

Lemma join_ab_ok : call_ok (enough [join_a; join_b]) zeros [join_a; join_b].
Proof.
  split.
  - repeat constructor; vm_compute; congruence.
  - intros [|[|j]] inp Hj t Ht; cbn in *; simplify_eq; done.
  - intros n Hn. unfold zeros. apply length_replicate.
Qed.

Lemma lftj_join_typed_correct_witness :
  exists rc out, lftj_join_typed (enough [join_a; join_b]) zeros [join_a; join_b] TYPE_INT64 = Some (rc, out) /\
    (rc = 0%Z /\ norm TYPE_INT64 <$> out ≡ₚ join_output TYPE_INT64 [join_a; join_b] /\ in_key_order (norm TYPE_INT64 <$> out) \/
     rc = EINVAL /\ out = [] /\ bad_arguments TYPE_INT64 [join_a; join_b] \/
     rc = ENOMEM /\ out = [] /\ out_of_memory (enough [join_a; join_b]) [join_a; join_b]).
Proof.
  apply (lftj_join_typed_correct TYPE_INT64 (enough [join_a; join_b]) zeros [join_a; join_b] join_ab_ok).
Defined.

(** The public integer join, with memory and 2 to 64 well-formed inputs
    whose output fits 32-bit column counts, returns 0 and emits, as a multiset,
    one row per tuple of input rows with equal keys: the key followed by the
    other cells of each row. *)
Theorem lftj_join_correct (mem : memory) (buf : Z -> row) (ins : list input)
  (H : call_ok mem buf ins) (Hk : 2 <= length ins <= 64) (Hw : (output_width ins <= UINT32_MAX)%Z)
  (Hm : m_iters mem = true /\ m_buffers mem = true /\
        forall j, m_copy mem j = true /\ (j < length ins -> m_scratch mem j <> None)) :
  exists out, lftj_join mem buf ins = Some (0%Z, out) /\ out ≡ₚ join_output TYPE_INT64 ins.
Proof.
  destruct (join_total TYPE_INT64 mem buf ins H) as (rc & out & E & Hor). unfold lftj_join. rewrite E.
  assert (Hn : norm TYPE_INT64 <$> out = out).
  { rewrite <- (list_fmap_id out) at 2. apply list_fmap_ext. intros i r _. by destruct r. }
  destruct Hor as [(-> & Hp & _)|[(_ & _ & Hbad)|(_ & _ & Hoom)]].
  - exists out. split; [done|]. by rewrite Hn in Hp.
  - exfalso. destruct Hbad as [?|[?|Hex]]; [lia|lia|]. apply Exists_exists in Hex as (inp & Hin & Hno). apply Hno.
    pose proof (co_shaped _ _ _ H) as Hs. rewrite Forall_forall in Hs. eapply Forall_impl; [apply (Hs inp Hin)|].
    intros r [_ Hr]. by split.
  - exfalso. destruct Hm as (Hi & Hb & Hc). destruct Hoom as [?|[?|(j & Hj & [Hx|Hx])]]; [congruence|congruence|..];
      destruct (Hc j) as [Hcp Hsc]; [congruence|by apply Hsc].
Qed.

Lemma lftj_join_correct_witness :
  exists out, lftj_join (enough [join_a; join_b]) zeros [join_a; join_b] = Some (0%Z, out) /\
    out ≡ₚ join_output TYPE_INT64 [join_a; join_b].
Proof.
  apply (lftj_join_correct (enough [join_a; join_b]) zeros [join_a; join_b] join_ab_ok);
    [cbn; lia|by vm_compute|done].
Defined.

End LftjProof.
