(* ===== verification/Frontier.v ===== *)
(** * Affected strata and rules, frontiers, worker progress

    wirelog/columnar/frontier.c: which strata and rules an insertion reaches,
    as a 64-bit mask computed by a fixed-point loop; frontier_epoch.c and
    diff_vtable.c: the two implementations of the frontier vtable; progress.c:
    the table of per-worker convergence reports. *)
From stdpp Require Import relations.
From S2P Require Import Prelude.

(** ** Masks *)

Module Mask.

(** [__builtin_ctzll] of a non-zero word. *)
Fixpoint ctz_pos (p : positive) : nat :=
  match p with xO p' => S (ctz_pos p') | _ => O end.
Definition ctz (z : Z) : nat := match z with Zpos p => ctz_pos p | _ => O end.

(** [bitmask_or_simd] *)
Definition bitmask_or (dst src : Z) : Z := Z.lor dst src.

Definition bit (i : nat) : Z := Z.shiftl 1 (Z.of_nat i).

Definition has (m : Z) (i : nat) : bool := Z.testbit m (Z.of_nat i).

(** pending &= pending - 1 *)
Definition clear_lowest (m : Z) : Z := Z.land m (m - 1).

Lemma has_0 i : has 0 i = false.
Proof. apply Z.bits_0. Qed.

Lemma has_bit i j : has (bit i) j = bool_decide (j = i).
Proof.
  unfold has, bit. rewrite Z.shiftl_1_l. case_bool_decide.
  - subst. apply Z.pow2_bits_true. lia.
  - apply Z.pow2_bits_false. lia.
Qed.

Lemma has_or a b i : has (bitmask_or a b) i = has a i || has b i.
Proof. apply Z.lor_spec. Qed.

Lemma has_ctz m : 0 < m -> has m (ctz m) = true.
Proof.
  destruct m as [|p|p]; [lia| |lia]. intros _. unfold has, ctz. induction p as [p IH|p IH|]; [done| |done].
  cbn [ctz_pos]. rewrite Nat2Z.inj_succ. change (Z.pos p~0) with (2 * Z.pos p).
  by rewrite Z.double_bits_succ.
Qed.

Lemma clear_lowest_spec m : 0 < m ->
  0 <= clear_lowest m < m /\ forall i, has (clear_lowest m) i = has m i && negb (bool_decide (i = ctz m)).
Proof.
  destruct m as [|p|p]; [lia| |lia]. intros _. unfold clear_lowest, has, ctz.
  induction p as [p IH|p IH|].
  - assert (E : Z.land (Z.pos p~1) (Z.pos p~1 - 1) = 2 * Z.pos p).
    { apply Z.bits_inj'. intros n Hn. rewrite Z.land_spec. replace (Z.pos p~1 - 1) with (2 * Z.pos p) by lia.
      change (Z.pos p~1) with (2 * Z.pos p + 1). destruct (decide (n = 0)) as [->|].
      - by rewrite Z.testbit_odd_0, Z.testbit_even_0.
      - replace n with (Z.succ (n - 1)) by lia. rewrite Z.testbit_odd_succ, Z.double_bits_succ by lia.
        apply andb_diag. }
    rewrite E. split; [lia|]. intros i. cbn [ctz_pos]. destruct i as [|i].
    + rewrite bool_decide_true by done. cbn. done.
    + rewrite bool_decide_false by done. rewrite andb_true_r, Nat2Z.inj_succ.
      change (Z.pos p~1) with (2 * Z.pos p + 1). by rewrite Z.testbit_odd_succ, Z.double_bits_succ by lia.
  - assert (E : Z.land (Z.pos p~0) (Z.pos p~0 - 1) = 2 * Z.land (Z.pos p) (Z.pos p - 1)).
    { apply Z.bits_inj'. intros n Hn. rewrite Z.land_spec.
      replace (Z.pos p~0 - 1) with (2 * (Z.pos p - 1) + 1) by lia. change (Z.pos p~0) with (2 * Z.pos p).
      destruct (decide (n = 0)) as [->|].
      - by rewrite !Z.testbit_even_0.
      - replace n with (Z.succ (n - 1)) by lia. rewrite Z.testbit_odd_succ, !Z.double_bits_succ by lia.
        by rewrite Z.land_spec. }
    rewrite E. destruct IH as [IH1 IH2]. split; [lia|]. intros i. cbn [ctz_pos].
    change (Z.pos p~0) with (2 * Z.pos p). destruct i as [|i].
    + by rewrite !Z.testbit_even_0.
    + rewrite Nat2Z.inj_succ, !Z.double_bits_succ. rewrite IH2. f_equal. f_equal.
      apply bool_decide_ext. split; congruence.
  - split; [by split|]. intros i. cbn [ctz_pos]. destruct i as [|i]; [done|].
    rewrite bool_decide_false by done. rewrite andb_true_r, Nat2Z.inj_succ.
    transitivity false; [apply Z.bits_0|]. symmetry. change 1 with (2 * 0 + 1).
    rewrite Z.testbit_odd_succ by lia. apply Z.bits_0.
Qed.

(** A mask within [n] bits. *)
Definition within (n : nat) (m : Z) : Prop := 0 <= m /\ forall i, has m i = true -> (i < n)%nat.

Lemma mask_ext a b : 0 <= a -> 0 <= b -> (forall i, has a i = has b i) -> a = b.
Proof.
  intros Ha Hb H. apply Z.bits_inj'. intros n Hn. specialize (H (Z.to_nat n)). unfold has in H.
  by rewrite Z2Nat.id in H by done.
Qed.

End Mask.

Module Affected.
Import Mask.

Definition MAX_RULES : nat := 64.

(** wl_plan_op_type_t *)
Inductive op_type :=
  | OP_VARIABLE | OP_MAP | OP_FILTER | OP_JOIN | OP_ANTIJOIN | OP_REDUCE | OP_CONCAT
  | OP_CONSOLIDATE | OP_SEMIJOIN | OP_K_FUSION | OP_LFTJ | OP_EXCHANGE.

(** The parts of the plan that the search reads. *)
Record plan_op := Op { op : op_type; relation_name : option string; right_relation : option string }.
Record plan_relation := Relation { name : option string; ops : list plan_op }.
Record plan_stratum := Stratum {
  relations : list plan_relation;
  rule_refs : option (list (list (option string))) }.
Abbreviation plan := (list plan_stratum).

Definition refset_names_relation (rs : list (option string)) (rel : string) : bool :=
  existsb (fun n => bool_decide (n = Some rel)) rs.

Definition is_join (t : op_type) : bool :=
  match t with OP_JOIN | OP_ANTIJOIN | OP_SEMIJOIN => true | _ => false end.

Definition ops_reference_relation (pr : plan_relation) (rel : string) : bool :=
  existsb (fun o =>
    match op o with OP_VARIABLE => bool_decide (relation_name o = Some rel) | _ => false end
    || is_join (op o) && bool_decide (right_relation o = Some rel)) (ops pr).

Definition rule_references_relation (sp : plan_stratum) (ri : nat) (rel : string) : option bool :=
  named ← match rule_refs sp with
          | None => Some false
          | Some rr => rs ← rd rr ri; Some (refset_names_relation rs rel)
          end;
  if named : bool then Some true else pr ← rd (relations sp) ri; Some (ops_reference_relation pr rel).

(** The loop over the rules of a stratum, from rule [ri] on. *)
Fixpoint any_rule_references (sp : plan_stratum) (ris : list nat) (rel : string) : option bool :=
  match ris with
  | [] => Some false
  | ri :: rest =>
      b ← rule_references_relation sp ri rel;
      if b : bool then Some true else any_rule_references sp rest rel
  end.

Definition stratum_references_relation (sp : plan_stratum) (rel : string) : option bool :=
  any_rule_references sp (seq 0 (length (relations sp))) rel.

(** ** The fixed-point search *)

(** Mark the nodes [js] that are not marked and that [refs] selects. *)
Fixpoint mark (refs : nat -> option bool) (js : list nat) (affected : Z) : option Z :=
  match js with
  | [] => Some affected
  | j :: rest =>
      if has affected j then mark refs rest affected
      else
        b ← refs j;
        mark refs rest (if b : bool then bitmask_or affected (bit j) else affected)
  end.

(** while (pending) { i = ctz(pending); pending &= pending - 1; ... } *)
Fixpoint drain (fuel n : nat) (expand : nat -> Z -> option Z) (pending affected : Z) : option Z :=
  if pending =? 0 then Some affected
  else
    match fuel with
    | O => None
    | S fuel' =>
        let i := ctz pending in
        if (n <=? i)%nat then Some affected
        else a ← expand i affected; drain fuel' n expand (clear_lowest pending) a
    end.

(** while (prev != affected) *)
Fixpoint saturate (fuel n : nat) (expand : nat -> Z -> option Z) (prev affected : Z) : option Z :=
  if prev =? affected then Some affected
  else
    match fuel with
    | O => None
    | S fuel' => a ← drain 64 n expand affected affected; saturate fuel' n expand affected a
    end.

(** Enough for a mask that grows by a bit in every round. *)
Definition rounds : nat := 66.

(** Pass 1 over the nodes: no node is marked yet. *)
Fixpoint seed (refs : nat -> option bool) (js : list nat) (affected : Z) : option Z :=
  match js with
  | [] => Some affected
  | j :: rest =>
      b ← refs j; seed refs rest (if b : bool then bitmask_or affected (bit j) else affected)
  end.

(** [col_compute_affected_strata] *)
Definition full_mask (n : nat) : Z := if (n =? 64)%nat then UINT64_MAX else bit n - 1.

Definition expand_stratum (p : plan) (n si : nat) (affected : Z) : option Z :=
  src ← rd p si;
  foldl (fun acc r =>
    a ← acc;
    match name r with
    | None => Some a
    | Some produced => mark (fun sj => sp ← rd p sj; stratum_references_relation sp produced) (seq 0 n) a
    end) (Some affected) (relations src).

(** The session and its plan may be NULL, and so may the relation name. *)
Definition compute_affected_strata (session : option (option plan)) (inserted_relation : option string) : option Z :=
  match session, inserted_relation with
  | Some (Some p), Some inserted =>
      if (length p =? 0)%nat then Some 0
      else
        let n := Nat.min (length p) 64 in
        affected ← seed (fun si => sp ← rd p si; stratum_references_relation sp inserted) (seq 0 n) 0;
        if affected =? full_mask n then Some affected
        else saturate rounds n (expand_stratum p n) 0 affected
  | _, _ => Some 0
  end.

(** [col_compute_affected_rules]: nrules, clamped stratum by stratum; the sum
    is a uint32_t. *)
Definition count_rules (p : plan) : Z :=
  foldl (fun nrules sp =>
    if nrules <? Z.of_nat MAX_RULES then
      let rc := Z.of_nat (length (relations sp)) in
      nrules + (if Z.of_nat MAX_RULES <? u32 (nrules + rc) then Z.of_nat MAX_RULES - nrules else rc)
    else nrules) 0 p.

(** The loops that fill rule_si and rule_ri. *)
Fixpoint index_stratum (si : nat) (ris : list nat) (idx : list (nat * nat)) : list (nat * nat) :=
  match ris with
  | [] => idx
  | ri :: rest => if (length idx <? MAX_RULES)%nat then index_stratum si rest (idx ++ [(si, ri)]) else idx
  end.
Fixpoint index_strata (si : nat) (sps : plan) (idx : list (nat * nat)) : list (nat * nat) :=
  match sps with
  | [] => idx
  | sp :: rest =>
      if (length idx <? MAX_RULES)%nat then
        index_strata (S si) rest (index_stratum si (seq 0 (length (relations sp))) idx)
      else idx
  end.

Definition rule_refs_at (p : plan) (idx : list (nat * nat)) (rel : string) (i : nat) : option bool :=
  '(si, ri) ← rd idx i; sp ← rd p si; rule_references_relation sp ri rel.

Definition expand_rule (p : plan) (idx : list (nat * nat)) (n i : nat) (affected : Z) : option Z :=
  '(si, ri) ← rd idx i;
  sp ← rd p si;
  r ← rd (relations sp) ri;
  match name r with
  | None => Some affected
  | Some head => mark (rule_refs_at p idx head) (seq 0 n) affected
  end.

Definition compute_affected_rules (session : option (option plan)) (inserted_relation : option string) : option Z :=
  match session, inserted_relation with
  | Some (Some p), Some inserted =>
      if (length p =? 0)%nat then Some 0
      else
        let n := Z.to_nat (count_rules p) in
        if (n =? 0)%nat then Some 0
        else
          let idx := index_strata 0 p [] in
          affected ← seed (rule_refs_at p idx inserted) (seq 0 n) 0;
          saturate rounds n (expand_rule p idx n) 0 affected
  | _, _ => Some 0
  end.

(** ** What the search computes *)

Section Search.
Variables (n : nat) (expand : nat -> Z -> option Z) (succ : nat -> nat -> Prop).
Hypothesis Hn : (n <= 64)%nat.
Hypothesis expand_ok : forall i aff, (i < n)%nat -> within n aff ->
  exists a, expand i aff = Some a /\ within n a /\
    forall j, has a j = true <-> has aff j = true \/ (j < n)%nat /\ succ i j.

Definition popcount (m : Z) : nat := length (filter (fun i => has m i = true) (seq 0 n)).

Lemma popcount_le m : (popcount m <= n)%nat.
Proof. unfold popcount. rewrite <- (length_seq n 0) at 2. apply length_filter. Qed.

Lemma filter_length_lt (P Q : nat -> Prop) `{forall x, Decision (P x)} `{forall x, Decision (Q x)} (l : list nat) k :
  (forall x, x ∈ l -> P x -> Q x) -> k ∈ l -> Q k -> ~ P k -> (length (filter P l) < length (filter Q l))%nat.
Proof.
  assert (Hle : forall l, (forall x, x ∈ l -> P x -> Q x) -> (length (filter P l) <= length (filter Q l))%nat).
  { clear. induction l as [|x l IH]; intros HPQ; [done|]. rewrite !filter_cons.
    specialize (IH ltac:(intros; apply HPQ; [by right|done])). pose proof (HPQ x ltac:(left)).
    repeat case_decide; cbn; tauto || lia. }
  intros HPQ Hk HQ HP. apply list_elem_of_split in Hk as (a & b & ->).
  rewrite !filter_app, !filter_cons, decide_False, decide_True, !length_app by done. cbn.
  pose proof (Hle a ltac:(set_solver)). pose proof (Hle b ltac:(set_solver)). lia.
Qed.

Lemma within_pos m : within n m -> m <> 0 -> 0 < m /\ (ctz m < n)%nat /\ has m (ctz m) = true.
Proof.
  intros [H0 Hb] Hne. assert (0 < m) by lia. pose proof (has_ctz m ltac:(lia)) as Hc. auto.
Qed.

Lemma drain_ok fuel : forall pending aff, within n pending -> within n aff -> (popcount pending <= fuel)%nat ->
  exists a, drain fuel n expand pending aff = Some a /\ within n a /\
    forall j, has a j = true <-> has aff j = true \/
      (exists i, has pending i = true /\ (j < n)%nat /\ succ i j).
Proof.
  induction fuel as [|fuel IH]; intros pending aff Hp Ha Hf; cbn [drain];
    destruct (Z.eqb_spec pending 0) as [->|Hne].
  1, 3: exists aff; split_and!; [done|done|]; intros j; split; [by left|];
    intros [?|(i & Hi & _)]; [done|by rewrite has_0 in Hi].
  - exfalso. destruct (within_pos _ Hp Hne) as (_ & Hlt & Hc). unfold popcount in Hf.
    assert (Hin : ctz pending ∈ filter (fun i => has pending i = true) (seq 0 n))
      by (apply list_elem_of_filter; split; [done|apply elem_of_seq; lia]).
    destruct (filter _ _); [by apply not_elem_of_nil in Hin|cbn in Hf; lia].
  - destruct (within_pos _ Hp Hne) as (H0 & Hlt & Hc). destruct (Nat.leb_spec n (ctz pending)); [lia|].
    destruct (expand_ok (ctz pending) aff Hlt Ha) as (a & -> & Ha' & Hspec). cbn [mbind option_bind].
    destruct (clear_lowest_spec pending H0) as [Hr Hcl].
    assert (Hp' : within n (clear_lowest pending)).
    { split; [lia|]. intros i Hi. rewrite Hcl in Hi. apply andb_true_iff in Hi as [Hi _]. by apply Hp. }
    destruct (IH (clear_lowest pending) a Hp' Ha') as (a2 & -> & Ha2 & Hspec2).
    { enough (popcount (clear_lowest pending) < popcount pending)%nat by lia.
      apply filter_length_lt with (k := ctz pending); [|apply elem_of_seq; lia|done|].
      - intros x _. rewrite Hcl. by intros [? _]%andb_true_iff.
      - rewrite Hcl, bool_decide_true by done. by rewrite andb_false_r. }
    exists a2. split_and!; [done|done|]. intros j. rewrite Hspec2, Hspec. setoid_rewrite Hcl.
    split.
    + intros [[?|[Hj Hs]]|(i & Hi & Hj & Hs)]; [by left|right; eauto|].
      apply andb_true_iff in Hi as [Hi _]. right. eauto.
    + intros [?|(i & Hi & Hj & Hs)]; [by left; left|]. destruct (decide (i = ctz pending)) as [->|].
      * left. right. done.
      * right. exists i. rewrite bool_decide_false by done. by rewrite andb_true_r.
Qed.

(** The nodes reachable from the seeds inside the mask. *)
Definition step (i j : nat) : Prop := succ i j /\ (j < n)%nat.
Definition reached (from : nat -> Prop) (j : nat) : Prop := exists i, (i < n)%nat /\ from i /\ rtc step i j.

Lemma saturate_ok (from : nat -> Prop) : forall fuel prev aff, within n aff -> 0 <= prev ->
  (forall i, (i < n)%nat -> from i -> has aff i = true) ->
  (forall j, has aff j = true -> reached from j) ->
  (forall i j, has prev i = true -> step i j -> has aff j = true) ->
  (n - popcount aff + 1 <= fuel)%nat ->
  exists a, saturate fuel n expand prev aff = Some a /\ within n a /\
    forall j, has a j = true <-> reached from j.
Proof.
  induction fuel as [|fuel IH]; intros prev aff Ha Hp Hs Hr Hc Hf; [lia|]. cbn [saturate].
  destruct (Z.eqb_spec prev aff) as [->|Hne].
  - exists aff. split_and!; [done|done|]. intros j. split; [apply Hr|].
    intros (i & Hi & Hfr & Hst). specialize (Hs i Hi Hfr). clear Hfr Hi.
    induction Hst as [|i k j Hik _ IHs]; [done|]. apply IHs. by apply (Hc i k).
  - pose proof (popcount_le aff).
    destruct (drain_ok 64 aff aff Ha Ha) as (a & -> & Ha' & Hspec); [lia|]. cbn [mbind option_bind].
    assert (Hsub : forall j, has aff j = true -> has a j = true) by (intros j Hj; apply Hspec; by left).
    destruct (decide (aff = a)) as [<-|Hna].
    + exists aff. split.
      { destruct fuel; cbn [saturate]; by rewrite Z.eqb_refl. }
      split; [done|]. intros j. split; [apply Hr|]. intros (i & Hi & Hfr & Hst). specialize (Hs i Hi Hfr).
      clear Hfr Hi. induction Hst as [|i k j [Hik Hk] _ IHs]; [done|]. apply IHs, Hspec. right. eauto.
    + apply IH; [done|apply Ha| | |intros i j Hi [Hij Hj]; apply Hspec; right; eauto|].
      * intros i Hi Hfr. by apply Hsub, Hs.
      * intros j [Hj|(i & Hi & Hj & Hij)]%Hspec; [by apply Hr|].
        destruct (Hr i Hi) as (i0 & Hi0 & Hfr & Hst). exists i0. split_and!; [done..|]. by eapply rtc_r.
      * enough (popcount aff < popcount a)%nat by (pose proof (popcount_le a); lia).
        assert (exists k, has a k = true /\ has aff k = false) as (k & Hk1 & Hk2).
        { destruct (decide (Forall (fun k => has a k = has aff k) (seq 0 n))) as [Hall|Hall].
          - exfalso. apply Hna. symmetry. apply mask_ext; [apply Ha'|apply Ha|]. intros i.
            destruct (decide (i < n)%nat).
            + rewrite Forall_forall in Hall. apply Hall, elem_of_seq. lia.
            + destruct (has a i) eqn:E1; [apply Ha' in E1; lia|]. destruct (has aff i) eqn:E2; [apply Ha in E2; lia|done].
          - apply not_Forall_Exists in Hall; [|apply _]. apply Exists_exists in Hall as (k & _ & Hk). exists k.
            cbn in Hk. specialize (Hsub k). destruct (has a k), (has aff k); try done. by specialize (Hsub eq_refl). }
        apply filter_length_lt with (k := k); [auto|apply elem_of_seq; apply Ha' in Hk1; lia|done|congruence].
Qed.

End Search.

(** ** What the plan says

    A rule reads a relation when the set recorded for it at lowering names it,
    or when one of its operators does. *)
Definition rule_reads (sp : plan_stratum) (ri : nat) (rel : string) : Prop :=
  (exists rr rs, rule_refs sp = Some rr /\ rr !! ri = Some rs /\ Some rel ∈ rs) \/
  (exists pr o, relations sp !! ri = Some pr /\ o ∈ ops pr /\
    (op o = OP_VARIABLE /\ relation_name o = Some rel \/
     is_join (op o) = true /\ right_relation o = Some rel)).

Definition stratum_reads (p : plan) (si : nat) (rel : string) : Prop :=
  exists sp ri, p !! si = Some sp /\ (ri < length (relations sp))%nat /\ rule_reads sp ri rel.

(** Stratum [si] produces a relation that stratum [sj] reads. *)
Definition stratum_feeds (p : plan) (si sj : nat) : Prop :=
  exists sp r produced, p !! si = Some sp /\ r ∈ relations sp /\ name r = Some produced /\
    stratum_reads p sj produced.

(** The rules of the plan in declaration order. *)
Definition all_rules (p : plan) : list (nat * nat) :=
  concat (imap (fun si sp => (fun ri => (si, ri)) <$> seq 0 (length (relations sp))) p).

Definition nth_rule_reads (p : plan) (i : nat) (rel : string) : Prop :=
  exists si ri sp, all_rules p !! i = Some (si, ri) /\ p !! si = Some sp /\ rule_reads sp ri rel.

Definition rule_feeds (p : plan) (i j : nat) : Prop :=
  exists si ri sp r head, all_rules p !! i = Some (si, ri) /\ p !! si = Some sp /\
    relations sp !! ri = Some r /\ name r = Some head /\ nth_rule_reads p j head.

(** rule_refs, where present, has an entry per rule; the counts are far from
    2^32. *)
Definition wf_plan (p : plan) : Prop :=
  Forall (fun sp =>
    match rule_refs sp with None => True | Some rr => length rr = length (relations sp) end /\
    Z.of_nat (length (relations sp)) <= UINT32_MAX - 64) p.

Lemma refset_names_spec rs rel : refset_names_relation rs rel = true <-> Some rel ∈ rs.
Proof.
  unfold refset_names_relation. rewrite existsb_exists. split.
  - intros (x & Hx & E%bool_decide_eq_true). subst. by apply list_elem_of_In.
  - intros H. exists (Some rel). split; [by apply list_elem_of_In|by apply bool_decide_eq_true].
Qed.

Lemma ops_reference_spec pr rel : ops_reference_relation pr rel = true <->
  exists o, o ∈ ops pr /\ (op o = OP_VARIABLE /\ relation_name o = Some rel \/
     is_join (op o) = true /\ right_relation o = Some rel).
Proof.
  unfold ops_reference_relation. rewrite existsb_exists. setoid_rewrite list_elem_of_In. f_equiv. intros o.
  rewrite orb_true_iff, andb_true_iff, bool_decide_eq_true. destruct (op o); cbn; rewrite ?bool_decide_eq_true;
    intuition congruence.
Qed.

Lemma rule_references_spec p si sp ri rel :
  wf_plan p -> p !! si = Some sp -> (ri < length (relations sp))%nat ->
  exists b, rule_references_relation sp ri rel = Some b /\ (b = true <-> rule_reads sp ri rel).
Proof.
  intros Hwf Hsp Hri. assert (Hl := Forall_lookup_1 _ _ _ _ Hwf Hsp). destruct Hl as [Hl _].
  unfold rule_references_relation, rule_reads. destruct (lookup_lt_is_Some_2 _ _ Hri) as [pr Hpr].
  pose proof (ops_reference_spec pr rel) as Ho. unfold rd. rewrite Hpr. cbn [mbind option_bind].
  assert (Hor : ops_reference_relation pr rel = true <->
    exists pr0 o, Some pr = Some pr0 /\ o ∈ ops pr0 /\ (op o = OP_VARIABLE /\ relation_name o = Some rel \/
     is_join (op o) = true /\ right_relation o = Some rel)).
  { rewrite Ho. split; [naive_solver|]. intros (? & o & [= <-] & ?). eauto. }
  destruct (rule_refs sp) as [rr|].
  - destruct (lookup_lt_is_Some_2 rr ri ltac:(lia)) as [rs Hrs]. rewrite Hrs. cbn [mbind option_bind].
    pose proof (refset_names_spec rs rel) as Hr. destruct (refset_names_relation rs rel).
    + exists true. split; [done|]. split; [|done]. intros _. left. exists rr, rs. tauto.
    + eexists. split; [done|]. rewrite Hor. split; [by right|]. intros [(? & ? & [= <-] & ? & Hin)|?]; [|done].
      simplify_eq. by apply Hr in Hin.
  - cbn [mbind option_bind]. eexists. split; [done|]. rewrite Hor. split; [by right|].
    by intros [(? & ? & ? & _)|?].
Qed.

Lemma any_rule_spec p si sp rel ris :
  wf_plan p -> p !! si = Some sp -> Forall (fun ri => (ri < length (relations sp))%nat) ris ->
  exists b, any_rule_references sp ris rel = Some b /\
    (b = true <-> exists ri, ri ∈ ris /\ rule_reads sp ri rel).
Proof.
  intros Hwf Hsp. induction 1 as [|ri ris Hri _ IH]; cbn [any_rule_references].
  - exists false. split; [done|]. split; [done|]. intros (ri & Hin & _). by apply not_elem_of_nil in Hin.
  - destruct (rule_references_spec p si sp ri rel Hwf Hsp Hri) as (b & -> & Hb). cbn [mbind option_bind].
    setoid_rewrite elem_of_cons. destruct b.
    + exists true. split; [done|]. split; [|done]. intros _. exists ri. tauto.
    + destruct IH as (b & -> & Hb'). exists b. split; [done|]. rewrite Hb'. split.
      * intros (r & ? & ?). eauto.
      * intros (r & [->|?] & Hr); [by apply Hb in Hr|eauto].
Qed.

Lemma stratum_references_spec p si rel : wf_plan p -> (si < length p)%nat ->
  exists b, (sp ← rd p si; stratum_references_relation sp rel) = Some b /\ (b = true <-> stratum_reads p si rel).
Proof.
  intros Hwf Hsi. destruct (lookup_lt_is_Some_2 _ _ Hsi) as [sp Hsp]. unfold rd. rewrite Hsp. cbn [mbind option_bind].
  destruct (any_rule_spec p si sp rel (seq 0 (length (relations sp))) Hwf Hsp) as (b & Hb & Hs).
  { apply Forall_forall. intros ri. rewrite elem_of_seq. lia. }
  exists b. split; [done|]. rewrite Hs. unfold stratum_reads. split.
  - intros (ri & Hin%elem_of_seq & Hr). exists sp, ri. split_and!; [done|lia|done].
  - intros (sp' & ri & E & Hri & Hr). rewrite Hsp in E. injection E as <-. exists ri.
    split; [apply elem_of_seq; lia|done].
Qed.

(** ** The passes over a list of nodes *)

Section Marking.
Variables (n : nat) (refs : nat -> option bool) (R : nat -> Prop).
Hypothesis refs_ok : forall j, (j < n)%nat -> exists b, refs j = Some b /\ (b = true <-> R j).

Lemma has_or_bit (a : Z) (b : bool) i j :
  has (if b then bitmask_or a (bit i) else a) j = true <-> has a j = true \/ j = i /\ b = true.
Proof.
  destruct b; [|intuition congruence]. rewrite has_or, has_bit, orb_true_iff, bool_decide_eq_true. tauto.
Qed.

Lemma or_bit_nonneg (a : Z) (b : bool) i : 0 <= a -> 0 <= (if b then bitmask_or a (bit i) else a).
Proof.
  intros. destruct b; [|done]. unfold bitmask_or, bit. apply Z.lor_nonneg. split; [done|].
  apply Z.shiftl_nonneg. lia.
Qed.

Lemma mark_ok js : Forall (fun j => (j < n)%nat) js -> forall aff, 0 <= aff ->
  exists a, mark refs js aff = Some a /\ 0 <= a /\
    forall j, has a j = true <-> has aff j = true \/ j ∈ js /\ R j.
Proof.
  induction 1 as [|i js Hi _ IH]; intros aff Ha; cbn [mark].
  - exists aff. split_and!; [done|done|]. set_solver.
  - setoid_rewrite elem_of_cons. destruct (has aff i) eqn:E.
    + destruct (IH aff Ha) as (a & -> & Ha' & Hs). exists a. split_and!; [done|done|].
      intros j. rewrite Hs. naive_solver.
    + destruct (refs_ok i Hi) as (b & -> & Hb). cbn [mbind option_bind].
      destruct (IH _ (or_bit_nonneg aff b i Ha)) as (a & -> & Ha' & Hs). exists a. split_and!; [done|done|].
      intros j. rewrite Hs, has_or_bit. naive_solver.
Qed.

Lemma seed_ok js : Forall (fun j => (j < n)%nat) js -> forall aff, 0 <= aff ->
  exists a, seed refs js aff = Some a /\ 0 <= a /\
    forall j, has a j = true <-> has aff j = true \/ j ∈ js /\ R j.
Proof.
  induction 1 as [|i js Hi _ IH]; intros aff Ha; cbn [seed].
  - exists aff. split_and!; [done|done|]. set_solver.
  - setoid_rewrite elem_of_cons. destruct (refs_ok i Hi) as (b & -> & Hb). cbn [mbind option_bind].
    destruct (IH _ (or_bit_nonneg aff b i Ha)) as (a & -> & Ha' & Hs). exists a. split_and!; [done|done|].
    intros j. rewrite Hs, has_or_bit. naive_solver.
Qed.

Lemma seq_below : Forall (fun j => (j < n)%nat) (seq 0 n).
Proof. apply Forall_forall. intros j. rewrite elem_of_seq. lia. Qed.

Lemma mark_all aff : within n aff -> exists a, mark refs (seq 0 n) aff = Some a /\ within n a /\
  forall j, has a j = true <-> has aff j = true \/ (j < n)%nat /\ R j.
Proof.
  intros [Ha Hw]. destruct (mark_ok _ seq_below aff Ha) as (a & -> & Ha' & Hs). setoid_rewrite elem_of_seq in Hs.
  exists a. split_and!; [done|split; [done|]|].
  - intros i [?|[? _]]%Hs; [by apply Hw|lia].
  - intros j. rewrite Hs. intuition lia.
Qed.

Lemma seed_all : exists a, seed refs (seq 0 n) 0 = Some a /\ within n a /\
  forall j, has a j = true <-> (j < n)%nat /\ R j.
Proof.
  destruct (seed_ok _ seq_below 0 ltac:(lia)) as (a & -> & Ha' & Hs). setoid_rewrite elem_of_seq in Hs.
  setoid_rewrite has_0 in Hs. exists a. split_and!; [done|split; [done|]|].
  - intros i [?|[? _]]%Hs; [done|lia].
  - intros j. rewrite Hs. intuition lia.
Qed.

End Marking.

(** A mask of [n] bits equal to [full_mask n] has them all. *)
Lemma full_mask_has n i : (n <= 64)%nat -> (i < n)%nat -> has (full_mask n) i = true.
Proof.
  intros Hn Hi. assert (E : full_mask n = Z.ones (Z.of_nat n)).
  { unfold full_mask, bit. destruct (Nat.eqb_spec n 64) as [->|]; [done|].
    rewrite Z.shiftl_1_l, Z.ones_equiv. lia. }
  rewrite E. unfold has. rewrite Z.testbit_ones_nonneg by lia. apply Z.ltb_lt. lia.
Qed.

(** Reachability from the seeds by [feeds], inside the first [n] nodes. *)
Lemma reached_lt n feeds from j : reached n feeds from j -> (j < n)%nat.
Proof. intros (i & Hi & _ & Hst). induction Hst as [|i k j [_ Hk] _ IH]; auto. Qed.

(** The whole search: seed, then saturate. *)
Lemma search_ok n refs R expand succ : (n <= 64)%nat ->
  (forall j, (j < n)%nat -> exists b, refs j = Some b /\ (b = true <-> R j)) ->
  (forall i aff, (i < n)%nat -> within n aff -> exists a, expand i aff = Some a /\ within n a /\
    forall j, has a j = true <-> has aff j = true \/ (j < n)%nat /\ succ i j) ->
  exists s a, seed refs (seq 0 n) 0 = Some s /\ (forall j, has s j = true -> reached n succ R j) /\
    saturate rounds n expand 0 s = Some a /\ within n a /\ forall j, has a j = true <-> reached n succ R j.
Proof.
  intros Hn Hrefs Hexp. destruct (seed_all n refs R Hrefs) as (s & Hs & Hw & Hspec).
  assert (Hsr : forall j, has s j = true -> reached n succ R j).
  { intros j [Hj HR]%Hspec. exists j. split_and!; [done|done|apply rtc_refl]. }
  destruct (saturate_ok n expand succ Hn Hexp R rounds 0 s Hw) as (a & Ha & Hwa & Hra); [lia| |done| | |].
  - intros i Hi HR. by apply Hspec.
  - intros i j Hi. by rewrite has_0 in Hi.
  - unfold rounds. lia.
  - exists s, a. done.
Qed.

(** ** Strata *)

Lemma expand_stratum_ok p n : wf_plan p -> (n <= length p)%nat -> forall si aff, (si < n)%nat -> within n aff ->
  exists a, expand_stratum p n si aff = Some a /\ within n a /\
    forall j, has a j = true <-> has aff j = true \/ (j < n)%nat /\ stratum_feeds p si j.
Proof.
  intros Hwf Hn si aff Hsi Hw. destruct (lookup_lt_is_Some_2 p si ltac:(lia)) as [sp Hsp].
  unfold expand_stratum. change (rd p si) with (p !! si). rewrite Hsp. cbn [mbind option_bind].
  unfold stratum_feeds.
  rewrite Hsp.
  assert (Hrs : forall rs aff, within n aff -> exists a,
    foldl (fun acc r => a ← acc; match name r with None => Some a
      | Some produced => mark (fun sj => sp ← rd p sj; stratum_references_relation sp produced) (seq 0 n) a end)
      (Some aff) rs = Some a /\ within n a /\
    forall j, has a j = true <-> has aff j = true \/ (j < n)%nat /\
      exists r produced, r ∈ rs /\ name r = Some produced /\ stratum_reads p j produced).
  { clear aff Hw. induction rs as [|r rs IH]; intros aff Hw; cbn [foldl mbind option_bind].
    - exists aff. split_and!; [done|done|]. set_solver.
    - setoid_rewrite elem_of_cons. destruct (name r) as [produced|] eqn:Er.
      + destruct (mark_all n (fun sj => sp ← rd p sj; stratum_references_relation sp produced)
          (fun j => stratum_reads p j produced)) with (aff := aff) as (a & -> & Hwa & Ha); [|done|].
        { intros j Hj. apply stratum_references_spec; [done|lia]. }
        destruct (IH a Hwa) as (a2 & -> & Hwa2 & Ha2). exists a2. split_and!; [done|done|].
        intros j. rewrite Ha2, Ha. split.
        * intros [[?|[? ?]]|(? & r' & pr & ? & ? & ?)]; [by left|right; split; [done|]; eauto 8..].
        * intros [?|(? & r' & pr & [->|?] & ? & ?)]; [by left; left| |right; eauto 8]. simplify_eq. left. by right.
      + destruct (IH aff Hw) as (a2 & -> & Hwa2 & Ha2). exists a2. split_and!; [done|done|].
        intros j. rewrite Ha2. split.
        * intros [?|(? & r' & pr & ? & ? & ?)]; [by left|right; split; [done|]; eauto 8].
        * intros [?|(? & r' & pr & [->|?] & ? & ?)]; [by left|congruence|right; eauto 8]. }
  destruct (Hrs (relations sp) aff Hw) as (a & -> & Hwa & Ha). exists a. split_and!; [done|done|].
  intros j. rewrite Ha. split; (intros [?|[Hj Hf]]; [by left|right; split; [done|]]).
  - destruct Hf as (r & pr & ? & ? & ?). by exists sp, r, pr.
  - destruct Hf as (? & r & pr & [= <-] & ? & ? & ?). by exists r, pr.
Qed.

(** The strata reachable from those that read [rel]. *)
Definition affected_stratum (p : plan) (rel : string) (j : nat) : Prop :=
  reached (Nat.min (length p) 64) (stratum_feeds p) (fun i => stratum_reads p i rel) j.

Lemma within_uint64 n m : (n <= 64)%nat -> within n m -> is_uint64 m.
Proof.
  intros Hn [H0 Hb]. split; [done|]. enough (m < 2 ^ 64) by mi.
  destruct (decide (m = 0)); [lia|]. apply Z.log2_lt_pow2; [lia|].
  specialize (Hb (Z.to_nat (Z.log2 m))). unfold has in Hb. rewrite Z2Nat.id in Hb by apply Z.log2_nonneg.
  specialize (Hb (Z.bit_log2 m ltac:(lia))). lia.
Qed.

Lemma within_0 n : within n 0.
Proof. split; [lia|]. intros i. by rewrite has_0. Qed.

Lemma stratum_reads_lt p i rel : stratum_reads p i rel -> (i < length p)%nat.
Proof. intros (sp & ri & E & _). by eapply lookup_lt_Some. Qed.

(** With every node inside the mask, [reached] is plain reachability. *)
Lemma reached_all n feeds (from : nat -> Prop) : (forall i, from i -> (i < n)%nat) ->
  (forall i j, feeds i j -> (j < n)%nat) ->
  forall j, reached n feeds from j <-> exists i, from i /\ rtc feeds i j.
Proof.
  intros Hf Hs j. split.
  - intros (i & Hi & Hfr & Hst). exists i. split; [done|].
    eapply (rtc_subrel (step n feeds)); [|done]. by intros ?? [? _].
  - intros (i & Hfr & Hst). exists i. split_and!; [by apply Hf|done|].
    eapply (rtc_subrel feeds); [|done]. intros ?? Hxy. split; [done|]. by eapply Hs.
Qed.

(** ** Rules *)

Lemma take_snoc_over {A} n (l : list A) x k : (n <= length l)%nat -> take n (l ++ x :: k) = take n l.
Proof. intros. by rewrite take_app_le. Qed.

Lemma index_stratum_take si ris : forall idx, (length idx <= MAX_RULES)%nat ->
  index_stratum si ris idx = take MAX_RULES (idx ++ ((fun ri => (si, ri)) <$> ris)).
Proof.
  induction ris as [|ri ris IH]; intros idx Hi; cbn [index_stratum fmap list_fmap].
  - rewrite app_nil_r. by rewrite take_ge.
  - destruct (Nat.ltb_spec (length idx) MAX_RULES).
    + rewrite IH by (rewrite length_app; cbn; lia). by rewrite <- app_assoc.
    + rewrite take_snoc_over, take_ge by lia. done.
Qed.

Lemma index_strata_take sps : forall si idx, (length idx <= MAX_RULES)%nat ->
  index_strata si sps idx = take MAX_RULES (idx ++
    concat (imap (fun k sp => (fun ri => ((si + k)%nat, ri)) <$> seq 0 (length (relations sp))) sps)).
Proof.
  induction sps as [|sp sps IH]; intros si idx Hi; cbn [index_strata imap concat].
  - rewrite app_nil_r. by rewrite take_ge.
  - destruct (Nat.ltb_spec (length idx) MAX_RULES).
    + rewrite index_stratum_take, IH by (rewrite ?length_take; lia).
      rewrite app_assoc. set (l := idx ++ _). set (k := concat _).
      replace (concat _) with k; [|].
      * rewrite Nat.add_0_r. fold l. destruct (decide (length l <= MAX_RULES)%nat).
        -- by rewrite (take_ge l) by done.
        -- rewrite !take_app_le by (rewrite ?length_take; lia). by rewrite take_take, Nat.min_id.
      * subst k. f_equal. apply imap_ext. intros k' sp' _. cbn. by rewrite Nat.add_succ_r.
    + rewrite take_app_le, take_ge by lia. done.
Qed.

Lemma count_rules_from p : wf_plan p -> forall c, 0 <= c <= Z.of_nat MAX_RULES ->
  foldl (fun nrules sp =>
    if nrules <? Z.of_nat MAX_RULES then
      let rc := Z.of_nat (length (relations sp)) in
      nrules + (if Z.of_nat MAX_RULES <? u32 (nrules + rc) then Z.of_nat MAX_RULES - nrules else rc)
    else nrules) c p = Z.min (Z.of_nat MAX_RULES) (c + Z.of_nat (sum_list ((fun sp => length (relations sp)) <$> p))).
Proof.
  change (Z.of_nat MAX_RULES) with 64. induction 1 as [|sp p [_ Hc] _ IH]; intros c Hr; cbn [foldl fmap list_fmap sum_list sum_list_with].
  - change (sum_list []) with 0%nat. lia.
  - cbv zeta. rewrite (u32_small (c + _)) by mi. cbn. 
    destruct (Z.ltb_spec c 64); [|rewrite IH; lia].
    destruct (Z.ltb_spec 64 (c + Z.of_nat (length (relations sp)))); rewrite IH; lia.
Qed.

Lemma length_all_rules p : length (all_rules p) = sum_list ((fun sp => length (relations sp)) <$> p).
Proof.
  unfold all_rules. rewrite length_concat. f_equal. rewrite fmap_imap.
  apply list_eq. intros i. rewrite list_lookup_imap, list_lookup_fmap. destruct (p !! i); cbn; [|done].
  by rewrite length_fmap, length_seq.
Qed.

Lemma count_rules_length p : wf_plan p -> Z.to_nat (count_rules p) = length (take MAX_RULES (all_rules p)).
Proof.
  intros Hwf. unfold count_rules. rewrite count_rules_from by (done || (unfold MAX_RULES; lia)).
  rewrite length_take, length_all_rules. lia.
Qed.

(** Every entry of the enumeration is a rule of the plan. *)
Lemma all_rules_lookup p i si ri : all_rules p !! i = Some (si, ri) ->
  exists sp, p !! si = Some sp /\ (ri < length (relations sp))%nat.
Proof.
  intros Hi. apply list_elem_of_lookup_2 in Hi. unfold all_rules in Hi.
  apply list_elem_of_In, in_concat in Hi as (l & Hl & Hin). apply list_elem_of_In in Hl, Hin.
  apply elem_of_lookup_imap_1 in Hl as (k & sp & -> & Hk).
  apply list_elem_of_fmap in Hin as (ri' & [= -> ->] & Hr%elem_of_seq). exists sp. split; [done|lia].
Qed.

Lemma index_strata_all p : index_strata 0 p [] = take MAX_RULES (all_rules p).
Proof. rewrite index_strata_take by (cbn; lia). done. Qed.

Section Rules.
Variable p : plan.
Hypothesis Hwf : wf_plan p.

Let idx := take MAX_RULES (all_rules p).

Lemma nth_rule i : (i < length idx)%nat -> exists si ri sp,
  rd idx i = Some (si, ri) /\ all_rules p !! i = Some (si, ri) /\ p !! si = Some sp /\ (ri < length (relations sp))%nat.
Proof.
  intros Hi. destruct (lookup_lt_is_Some_2 _ _ Hi) as [[si ri] E]. pose proof E as E'.
  subst idx. apply lookup_take_Some in E' as [E' _]. destruct (all_rules_lookup _ _ _ _ E') as (sp & Hsp & Hri).
  exists si, ri, sp. done.
Qed.

Lemma rule_refs_at_ok rel i : (i < length idx)%nat ->
  exists b, rule_refs_at p idx rel i = Some b /\ (b = true <-> nth_rule_reads p i rel).
Proof.
  intros Hi. destruct (nth_rule i Hi) as (si & ri & sp & E1 & E2 & Hsp & Hri).
  unfold rule_refs_at. rewrite E1. cbn [mbind option_bind]. change (rd p si) with (p !! si). rewrite Hsp.
  cbn [mbind option_bind]. destruct (rule_references_spec p si sp ri rel Hwf Hsp Hri) as (b & -> & Hb).
  exists b. split; [done|]. rewrite Hb. split.
  - intros Hr. by exists si, ri, sp.
  - intros (si' & ri' & sp' & E & Hsp' & Hr). rewrite E2 in E. injection E as <- <-.
    rewrite Hsp in Hsp'. by injection Hsp' as <-.
Qed.

Lemma expand_rule_ok i aff : (i < length idx)%nat -> within (length idx) aff ->
  exists a, expand_rule p idx (length idx) i aff = Some a /\ within (length idx) a /\
    forall j, has a j = true <-> has aff j = true \/ (j < length idx)%nat /\ rule_feeds p i j.
Proof.
  intros Hi Hw. destruct (nth_rule i Hi) as (si & ri & sp & E1 & E2 & Hsp & Hri).
  destruct (lookup_lt_is_Some_2 _ _ Hri) as [r Hr].
  unfold expand_rule. rewrite E1. cbn [mbind option_bind]. change (rd p si) with (p !! si). rewrite Hsp.
  cbn [mbind option_bind]. change (rd (relations sp) ri) with (relations sp !! ri). rewrite Hr. cbn [mbind option_bind].
  assert (Hfeeds : forall j, rule_feeds p i j <-> exists head, name r = Some head /\ nth_rule_reads p j head).
  { intros j. split.
    - intros (si' & ri' & sp' & r' & head & E & Hsp' & Hr' & Hh & Hj). rewrite E2 in E. injection E as <- <-.
      rewrite Hsp in Hsp'. injection Hsp' as <-. rewrite Hr in Hr'. injection Hr' as <-. eauto.
    - intros (head & Hh & Hj). by exists si, ri, sp, r, head. }
  setoid_rewrite Hfeeds. destruct (name r) as [head|].
  - destruct (mark_all (length idx) (rule_refs_at p idx head) (fun j => nth_rule_reads p j head)
      (rule_refs_at_ok head) aff Hw) as (a & -> & Hwa & Ha).
    exists a. split_and!; [done|done|]. intros j. rewrite Ha. naive_solver.
  - exists aff. split_and!; [done|done|]. intros j. naive_solver.
Qed.

End Rules.

(** The rules reachable from those that read [rel], among the first 64. *)
Definition affected_rule (p : plan) (rel : string) (j : nat) : Prop :=
  reached (Nat.min MAX_RULES (length (all_rules p))) (rule_feeds p) (fun i => nth_rule_reads p i rel) j.

Lemma nth_rule_reads_lt p i rel : nth_rule_reads p i rel -> (i < length (all_rules p))%nat.
Proof. intros (si & ri & sp & E & _). by eapply lookup_lt_Some. Qed.

(** C33: [col_compute_affected_strata] returns, for every well-formed plan and
    every relation, a 64-bit mask in which bit j is set exactly when stratum j
    is among the first 64 and depends on the relation: it, or a stratum from
    which a chain of produced and read relations leads to it inside the first
    64 strata, reads the relation. For a plan of at most 64 strata that is
    plain reachability, so no dependent stratum is missed. *)
Theorem affected_strata_exact (p : plan) (rel : string) : wf_plan p -> exists m,
  compute_affected_strata (Some (Some p)) (Some rel) = Some m /\ is_uint64 m /\
  (forall j, has m j = true <-> affected_stratum p rel j) /\
  ((length p <= 64)%nat -> forall j, affected_stratum p rel j <->
    exists i, stratum_reads p i rel /\ rtc (stratum_feeds p) i j).
Proof.
  intros Hwf. assert (Hall : (length p <= 64)%nat -> forall j, affected_stratum p rel j <->
    exists i, stratum_reads p i rel /\ rtc (stratum_feeds p) i j).
  { intros Hl. apply reached_all; rewrite Nat.min_l by done; [intros i; apply stratum_reads_lt|].
    intros i j (? & ? & ? & _ & _ & _ & Hr). by eapply stratum_reads_lt. } unfold compute_affected_strata, affected_stratum. destruct (Nat.eqb_spec (length p) 0) as [E|E].
  { exists 0. split_and!; [done|mi| |done]. intros j. rewrite has_0. split; [done|].
    intros Hr%reached_lt. lia. }
  set (n := Nat.min (length p) 64). assert (Hn : (n <= 64)%nat) by lia.
  destruct (search_ok n (fun si => sp ← rd p si; stratum_references_relation sp rel) (fun i => stratum_reads p i rel)
    (expand_stratum p n) (stratum_feeds p) Hn) as (s & a & Hs & Hsr & Ha & Hw & Hra).
  { intros j Hj. apply stratum_references_spec; [done|lia]. }
  { intros i aff. apply expand_stratum_ok; [done|lia]. }
  cbv zeta. rewrite Hs. cbn [mbind option_bind]. destruct (Z.eqb_spec s (full_mask n)) as [->|].
  - exists (full_mask n). split_and!; [done| | |done].
    + apply (within_uint64 n); [done|]. split; [unfold full_mask, bit; case_match; [mi|]; rewrite Z.shiftl_1_l; lia|].
      intros i Hi. by eapply reached_lt, Hsr.
    + intros j. split; [apply Hsr|]. intros Hj%reached_lt. by apply full_mask_has.
  - exists a. split_and!; [done|by apply (within_uint64 n)|done|done].
Qed.

(** [col_compute_affected_rules] returns, for every well-formed plan and
    every relation, a 64-bit mask in which bit j is set exactly when the j-th
    rule of the plan in declaration order is among the first 64 and reads the
    relation, or the head of a rule that depends on it, transitively. For a
    plan of at most 64 rules that is plain reachability over rules. *)
Theorem affected_rules_exact (p : plan) (rel : string) : wf_plan p -> exists m,
  compute_affected_rules (Some (Some p)) (Some rel) = Some m /\ is_uint64 m /\
  (forall j, has m j = true <-> affected_rule p rel j) /\
  ((length (all_rules p) <= MAX_RULES)%nat -> forall j, affected_rule p rel j <->
    exists i, nth_rule_reads p i rel /\ rtc (rule_feeds p) i j).
Proof.
  intros Hwf. assert (Hall : (length (all_rules p) <= MAX_RULES)%nat -> forall j, affected_rule p rel j <->
    exists i, nth_rule_reads p i rel /\ rtc (rule_feeds p) i j).
  { intros Hl. apply reached_all; rewrite Nat.min_r by done; [intros i; apply nth_rule_reads_lt|].
    intros i j (? & ? & ? & ? & ? & _ & _ & _ & _ & Hr). by eapply nth_rule_reads_lt. }
  unfold compute_affected_rules. cbv zeta. rewrite count_rules_length, index_strata_all by done.
  unfold affected_rule. rewrite <- length_take. unfold affected_rule in Hall. rewrite <- length_take in Hall.
  set (idx := take MAX_RULES (all_rules p)) in *.
  assert (Hn : (length idx <= 64)%nat) by (subst idx; rewrite length_take; unfold MAX_RULES; lia).
  assert (Hz : length idx = 0%nat -> exists m, Some 0 = Some m /\ is_uint64 m /\
    (forall j, has m j = true <-> reached (length idx) (rule_feeds p) (fun i => nth_rule_reads p i rel) j) /\
    ((length (all_rules p) <= MAX_RULES)%nat -> forall j,
      reached (length idx) (rule_feeds p) (fun i => nth_rule_reads p i rel) j <->
      exists i, nth_rule_reads p i rel /\ rtc (rule_feeds p) i j)).
  { intros E. exists 0. split_and!; [done|mi| |done]. intros j. rewrite has_0. split; [done|].
    intros Hr%reached_lt. lia. }
  destruct (Nat.eqb_spec (length p) 0) as [E|_].
  { apply Hz. subst idx. by destruct p. }
  destruct (Nat.eqb_spec (length idx) 0) as [E|_]; [by apply Hz|].
  destruct (search_ok (length idx) (rule_refs_at p idx rel) (fun i => nth_rule_reads p i rel)
    (expand_rule p idx (length idx)) (rule_feeds p) Hn) as (s & a & -> & _ & Ha & Hw & Hra).
  { intros j. by apply rule_refs_at_ok. }
  { intros i aff. by apply expand_rule_ok. }
  cbn [mbind option_bind]. exists a. split_and!; [done|by apply (within_uint64 (length idx))|done|done].
Qed.

(** edge -> (path, path) -> reach, with the fused rule's reads recorded only in
    its reference set, and a stratum that reads none of them. *)
Definition sample_plan : plan :=
  [Stratum [Relation (Some "path"%string) [Op OP_VARIABLE (Some "edge"%string) None];
            Relation (Some "path"%string) [Op OP_K_FUSION None None]]
     (Some [[Some "edge"%string]; [Some "path"%string; Some "edge"%string]]);
   Stratum [Relation (Some "node"%string) [Op OP_VARIABLE (Some "vertex"%string) None]] None;
   Stratum [Relation (Some "reach"%string) [Op OP_VARIABLE (Some "node"%string) None;
                                     Op OP_JOIN None (Some "path"%string)]] None].

Lemma sample_plan_wf : wf_plan sample_plan.
Proof. repeat constructor; done. Qed.

Lemma affected_strata_exact_witness : wf_plan sample_plan /\
  compute_affected_strata (Some (Some sample_plan)) (Some "edge"%string) = Some 5 /\
  exists m, compute_affected_strata (Some (Some sample_plan)) (Some "edge"%string) = Some m /\
    forall j, has m j = true <-> exists i, stratum_reads sample_plan i "edge" /\ rtc (stratum_feeds sample_plan) i j.
Proof.
  split; [exact sample_plan_wf|]. split; [vm_compute; reflexivity|].
  destruct (affected_strata_exact sample_plan "edge" sample_plan_wf) as (m & Hm & _ & Hj & Hr).
  exists m. split; [exact Hm|]. intros j. rewrite Hj. apply Hr. cbn. lia.
Defined.

Lemma affected_rules_exact_witness : wf_plan sample_plan /\
  compute_affected_rules (Some (Some sample_plan)) (Some "edge"%string) = Some 11 /\
  exists m, compute_affected_rules (Some (Some sample_plan)) (Some "edge"%string) = Some m /\
    forall j, has m j = true <-> exists i, nth_rule_reads sample_plan i "edge" /\ rtc (rule_feeds sample_plan) i j.
Proof.
  split; [exact sample_plan_wf|]. split; [vm_compute; reflexivity|].
  destruct (affected_rules_exact sample_plan "edge" sample_plan_wf) as (m & Hm & _ & Hj & Hr).
  exists m. split; [exact Hm|]. intros j. rewrite Hj. apply Hr. vm_compute. lia.
Defined.

End Affected.
