(* ===== verification/Progress.v ===== *)
(** * Frontier vtables and worker progress

    wirelog/columnar/frontier_epoch.c and diff_vtable.c implement the vtable
    [col_frontier_ops_t] (columnar/internal.h) in two ways: [Vtable]. The table
    of per-worker convergence reports is wirelog/columnar/progress.c:
    [Progress]. Both are related to abstract maps. *)
From S2P Require Import Prelude.

Module Vtable.

Definition MAX_STRATA : nat := 32.
Definition MAX_RULES : nat := 64.

(** col_frontier_2d_t *)
Record frontier_2d := Frontier { outer_epoch : Z; iteration : Z }.

(** The fields of wl_col_session_t that the vtables use; the two arrays have
    MAX_STRATA and MAX_RULES cells. *)
Record session := Session { epoch : Z; frontiers : list frontier_2d; rule_frontiers : list frontier_2d }.

Definition set_frontiers (f : list frontier_2d) (s : session) : session := Session (epoch s) f (rule_frontiers s).
Definition set_rule_frontiers (f : list frontier_2d) (s : session) : session := Session (epoch s) (frontiers s) f.

(** col_frontier_ops_t; [None] is an access outside an array. *)
Record frontier_ops := FrontierOps {
  should_skip_iteration : session -> nat -> Z -> option bool;
  should_skip_rule : session -> nat -> Z -> option bool;
  record_stratum_convergence : session -> nat -> Z -> Z -> option session;
  record_rule_convergence : session -> nat -> Z -> Z -> option session;
  reset_stratum_frontier : session -> nat -> Z -> option session;
  reset_rule_frontier : session -> nat -> Z -> option session;
  init_stratum : session -> nat -> option session }.

(** ** frontier_epoch.c *)

Definition epoch_should_skip_iteration (sess : session) (stratum_idx : nat) (eff_iter : Z) : option bool :=
  if (MAX_STRATA <=? stratum_idx)%nat then Some false
  else
    f ← rd (frontiers sess) stratum_idx;
    let same_epoch := epoch sess =? outer_epoch f in
    let beyond := iteration f <? eff_iter in
    Some (same_epoch && beyond).

Definition epoch_should_skip_rule (sess : session) (rule_id : nat) (eff_iter : Z) : option bool :=
  if (MAX_RULES <=? rule_id)%nat then Some false
  else
    f ← rd (rule_frontiers sess) rule_id;
    let same_epoch := outer_epoch f =? epoch sess in
    let beyond := iteration f <? eff_iter in
    Some (same_epoch && beyond).

Definition epoch_record_stratum_convergence (sess : session) (stratum_idx : nat) (oe it : Z) : option session :=
  if (MAX_STRATA <=? stratum_idx)%nat then Some sess
  else a ← wr (frontiers sess) stratum_idx (Frontier oe it); Some (set_frontiers a sess).

Definition epoch_record_rule_convergence (sess : session) (rule_id : nat) (oe it : Z) : option session :=
  if (MAX_RULES <=? rule_id)%nat then Some sess
  else a ← wr (rule_frontiers sess) rule_id (Frontier oe it); Some (set_rule_frontiers a sess).

Definition epoch_reset_stratum_frontier (sess : session) (stratum_idx : nat) (oe : Z) : option session :=
  if (MAX_STRATA <=? stratum_idx)%nat then Some sess
  else a ← wr (frontiers sess) stratum_idx (Frontier oe UINT32_MAX); Some (set_frontiers a sess).

Definition epoch_reset_rule_frontier (sess : session) (rule_id : nat) (oe : Z) : option session :=
  if (MAX_RULES <=? rule_id)%nat then Some sess
  else a ← wr (rule_frontiers sess) rule_id (Frontier oe UINT32_MAX); Some (set_rule_frontiers a sess).

Definition epoch_init_stratum (sess : session) (stratum_idx : nat) : option session :=
  if (MAX_STRATA <=? stratum_idx)%nat then Some sess
  else
    f ← rd (frontiers sess) stratum_idx;
    if iteration f =? 0 then
      a ← wr (frontiers sess) stratum_idx (Frontier (outer_epoch f) UINT32_MAX); Some (set_frontiers a sess)
    else Some sess.

Definition col_frontier_epoch_ops : frontier_ops :=
  FrontierOps epoch_should_skip_iteration epoch_should_skip_rule
    epoch_record_stratum_convergence epoch_record_rule_convergence
    epoch_reset_stratum_frontier epoch_reset_rule_frontier epoch_init_stratum.

(** ** diff_vtable.c *)

Definition diff_should_skip_iteration (sess : session) (stratum_idx : nat) (eff_iter : Z) : option bool :=
  if (MAX_STRATA <=? stratum_idx)%nat then Some false
  else
    f ← rd (frontiers sess) stratum_idx;
    let valid := negb (iteration f =? UINT32_MAX) in
    let beyond := iteration f <? eff_iter in
    Some (valid && beyond).

Definition diff_should_skip_rule (sess : session) (rule_id : nat) (eff_iter : Z) : option bool :=
  if (MAX_RULES <=? rule_id)%nat then Some false
  else
    f ← rd (rule_frontiers sess) rule_id;
    let valid := negb (iteration f =? UINT32_MAX) in
    let beyond := iteration f <? eff_iter in
    Some (valid && beyond).

Definition diff_record_stratum_convergence (sess : session) (stratum_idx : nat) (oe it : Z) : option session :=
  if (MAX_STRATA <=? stratum_idx)%nat then Some sess
  else a ← wr (frontiers sess) stratum_idx (Frontier oe it); Some (set_frontiers a sess).

Definition diff_record_rule_convergence (sess : session) (rule_id : nat) (oe it : Z) : option session :=
  if (MAX_RULES <=? rule_id)%nat then Some sess
  else a ← wr (rule_frontiers sess) rule_id (Frontier oe it); Some (set_rule_frontiers a sess).

(** The reset keeps the iteration. *)
Definition diff_reset_stratum_frontier (sess : session) (stratum_idx : nat) (oe : Z) : option session :=
  if (MAX_STRATA <=? stratum_idx)%nat then Some sess
  else
    f ← rd (frontiers sess) stratum_idx;
    a ← wr (frontiers sess) stratum_idx (Frontier oe (iteration f)); Some (set_frontiers a sess).

Definition diff_reset_rule_frontier (sess : session) (rule_id : nat) (oe : Z) : option session :=
  if (MAX_RULES <=? rule_id)%nat then Some sess
  else
    f ← rd (rule_frontiers sess) rule_id;
    a ← wr (rule_frontiers sess) rule_id (Frontier oe (iteration f)); Some (set_rule_frontiers a sess).

Definition diff_init_stratum (sess : session) (stratum_idx : nat) : option session :=
  if (MAX_STRATA <=? stratum_idx)%nat then Some sess
  else
    f ← rd (frontiers sess) stratum_idx;
    if iteration f =? 0 then
      a ← wr (frontiers sess) stratum_idx (Frontier (outer_epoch f) UINT32_MAX); Some (set_frontiers a sess)
    else Some sess.

Definition col_frontier_diff_ops : frontier_ops :=
  FrontierOps diff_should_skip_iteration diff_should_skip_rule
    diff_record_stratum_convergence diff_record_rule_convergence
    diff_reset_stratum_frontier diff_reset_rule_frontier diff_init_stratum.

(** ** Traces: the calls that eval and session make *)

Inductive event :=
  | RecordStratum (s : nat) (oe it : Z)
  | RecordRule (r : nat) (oe it : Z)
  | ResetStratum (s : nat) (oe : Z)
  | ResetRule (r : nat) (oe : Z)
  | InitStratum (s : nat)
  | NextEpoch.  (* sess->outer_epoch++ *)

Definition next_epoch (sess : session) : session :=
  Session (u32 (epoch sess + 1)) (frontiers sess) (rule_frontiers sess).

Definition apply (ops : frontier_ops) (sess : session) (ev : event) : option session :=
  match ev with
  | RecordStratum s oe it => record_stratum_convergence ops sess s oe it
  | RecordRule r oe it => record_rule_convergence ops sess r oe it
  | ResetStratum s oe => reset_stratum_frontier ops sess s oe
  | ResetRule r oe => reset_rule_frontier ops sess r oe
  | InitStratum s => init_stratum ops sess s
  | NextEpoch => Some (next_epoch sess)
  end.

Fixpoint run (ops : frontier_ops) (trace : list event) (sess : session) : option session :=
  match trace with
  | [] => Some sess
  | ev :: rest => sess' ← apply ops sess ev; run ops rest sess'
  end.

(** ** The contract

    An abstract frontier maps a stratum or a rule to the point at which it is
    known to have converged; an absent key is one that must be evaluated. *)
Abbreviation points := (gmap nat (Z * Z)).
Record abstract := Abstract { now : Z; strata : points; rules : points }.

(** What the two models differ in: whether a reset keeps the point, and
    whether a point of another epoch counts. *)
Class Model := { keeps : bool; any_epoch : bool }.

Definition spec_record (bound k : nat) (oe it : Z) (m : points) : points :=
  if (bound <=? k)%nat then m else if it =? UINT32_MAX then delete k m else <[k := (oe, it)]> m.

Definition spec_reset `{Model} (k : nat) (oe : Z) (m : points) : points :=
  if keeps then alter (fun p => (oe, p.2)) k m else delete k m.

Definition spec_init (k : nat) (m : points) : points :=
  match m !! k with Some (_, it) => if it =? 0 then delete k m else m | None => m end.

Definition spec_skip `{Model} (e : Z) (m : points) (k : nat) (eff : Z) : bool :=
  match m !! k with
  | Some (oe, it) => (any_epoch || (oe =? e)) && (it <? eff)
  | None => false
  end.

Definition spec_apply `{Model} (a : abstract) (ev : event) : abstract :=
  match ev with
  | RecordStratum s oe it => Abstract (now a) (spec_record MAX_STRATA s oe it (strata a)) (rules a)
  | RecordRule r oe it => Abstract (now a) (strata a) (spec_record MAX_RULES r oe it (rules a))
  | ResetStratum s oe => Abstract (now a) (spec_reset s oe (strata a)) (rules a)
  | ResetRule r oe => Abstract (now a) (strata a) (spec_reset r oe (rules a))
  | InitStratum s => Abstract (now a) (spec_init s (strata a)) (rules a)
  | NextEpoch => Abstract (u32 (now a + 1)) (strata a) (rules a)
  end.

Definition epoch_model : Model := {| keeps := false; any_epoch := false |}.
Definition diff_model : Model := {| keeps := true; any_epoch := true |}.

(** An array of frontiers represents a map of points. *)
Definition repr (bound : nat) (f : list frontier_2d) (m : points) : Prop :=
  length f = bound /\ forall k, m !! k =
    match f !! k with
    | Some p => if iteration p =? UINT32_MAX then None else Some (outer_epoch p, iteration p)
    | None => None
    end.

Definition refines (s : session) (a : abstract) : Prop :=
  epoch s = now a /\ repr MAX_STRATA (frontiers s) (strata a) /\ repr MAX_RULES (rule_frontiers s) (rules a).

(** What a vtable promises to the evaluator. *)
Class FrontierRefines (ops : frontier_ops) `{Model} := {
  apply_refines : forall s a ev, refines s a ->
    exists s', apply ops s ev = Some s' /\ refines s' (spec_apply a ev);
  skip_iteration_refines : forall s a k eff, refines s a -> is_uint32 eff ->
    should_skip_iteration ops s k eff = Some (spec_skip (now a) (strata a) k eff);
  skip_rule_refines : forall s a k eff, refines s a -> is_uint32 eff ->
    should_skip_rule ops s k eff = Some (spec_skip (now a) (rules a) k eff) }.

(** *** Arrays of frontiers *)

Lemma repr_out bound f m k : repr bound f m -> (bound <= k)%nat -> m !! k = None.
Proof. intros [Hl Hm] Hk. rewrite Hm, lookup_ge_None_2; [done|lia]. Qed.

Lemma repr_get bound f m k : repr bound f m -> (k < bound)%nat -> exists p, f !! k = Some p /\
  m !! k = if iteration p =? UINT32_MAX then None else Some (outer_epoch p, iteration p).
Proof.
  intros [Hl Hm] Hk. destruct (lookup_lt_is_Some_2 f k ltac:(lia)) as [p Hp]. exists p.
  split; [done|]. by rewrite Hm, Hp.
Qed.

(** Writing a cell changes the point of that key only. *)
Lemma repr_write bound f m k p m' : repr bound f m -> (k < bound)%nat ->
  m' !! k = (if iteration p =? UINT32_MAX then None else Some (outer_epoch p, iteration p)) ->
  (forall j, j <> k -> m' !! j = m !! j) ->
  exists f', wr f k p = Some f' /\ repr bound f' m'.
Proof.
  intros [Hl Hm] Hk Hat Hne. exists (<[k := p]> f). split; [apply wr_lt; lia|].
  split; [by rewrite length_insert|]. intros j. destruct (decide (j = k)) as [->|Hjk].
  - rewrite list_lookup_insert_eq by lia. done.
  - rewrite list_lookup_insert_ne by done. rewrite Hne by done. apply Hm.
Qed.

Lemma record_repr bound f m k oe it : repr bound f m -> (k < bound)%nat ->
  exists f', wr f k (Frontier oe it) = Some f' /\ repr bound f' (spec_record bound k oe it m).
Proof.
  intros Hr Hk. unfold spec_record. rewrite (proj2 (Nat.leb_gt _ _) Hk).
  destruct (it =? UINT32_MAX) eqn:E; (eapply repr_write; [done|done|..]); cbn [iteration outer_epoch]; rewrite ?E; intros;
    by rewrite ?lookup_delete_eq, ?lookup_delete_ne, ?lookup_insert_eq, ?lookup_insert_ne.
Qed.

Lemma record_out bound k oe it m : (bound <= k)%nat -> spec_record bound k oe it m = m.
Proof. intros Hk. unfold spec_record. by rewrite (proj2 (Nat.leb_le _ _) Hk). Qed.
Lemma clear_repr bound f m k oe : repr bound f m -> (k < bound)%nat ->
  exists f', wr f k (Frontier oe UINT32_MAX) = Some f' /\ repr bound f' (delete k m).
Proof. intros Hr Hk. eapply repr_write; [done|done|..]; cbn [iteration outer_epoch]; intros; by rewrite ?lookup_delete_eq, ?lookup_delete_ne. Qed.

Lemma stamp_repr bound f m k oe p : repr bound f m -> (k < bound)%nat -> f !! k = Some p ->
  exists f', wr f k (Frontier oe (iteration p)) = Some f' /\ repr bound f' (alter (fun q => (oe, q.2)) k m).
Proof.
  intros Hr Hk Hp. pose proof Hr as [Hl Hm].
  eapply repr_write; [done|done|..]; cbn [iteration outer_epoch].
  - rewrite lookup_alter_eq, Hm, Hp. by case_match.
  - intros j Hj. by rewrite lookup_alter_ne.
Qed.

Lemma out_reset `{Model} bound f m k oe : repr bound f m -> (bound <= k)%nat -> spec_reset k oe m = m.
Proof.
  intros Hr Hk. pose proof (repr_out _ _ _ _ Hr Hk) as Hn. unfold spec_reset. destruct keeps.
  - apply map_eq. intros j. destruct (decide (j = k)) as [->|]; [by rewrite lookup_alter_eq, Hn|by rewrite lookup_alter_ne].
  - by apply delete_id.
Qed.

Lemma out_init bound f m k : repr bound f m -> (bound <= k)%nat -> spec_init k m = m.
Proof. intros Hr Hk. unfold spec_init. by rewrite (repr_out _ _ _ _ Hr Hk). Qed.

Lemma out_skip `{Model} bound f m k e eff : repr bound f m -> (bound <= k)%nat -> spec_skip e m k eff = false.
Proof. intros Hr Hk. unfold spec_skip. by rewrite (repr_out _ _ _ _ Hr Hk). Qed.

(** init_stratum, the same in the two vtables. *)
Lemma init_refines s a k : refines s a -> exists s', epoch_init_stratum s k = Some s' /\
  refines s' (Abstract (now a) (spec_init k (strata a)) (rules a)).
Proof.
  intros (He & Hs & Hr). unfold epoch_init_stratum. destruct (Nat.leb_spec MAX_STRATA k) as [Hk|Hk].
  { exists s. split; [done|]. rewrite (out_init _ _ _ _ Hs Hk). done. }
  destruct (repr_get _ _ _ _ Hs Hk) as (p & Hp & Hm). unfold rd. rewrite Hp. cbn [mbind option_bind].
  unfold spec_init. rewrite Hm. destruct (Z.eqb_spec (iteration p) 0) as [E|E].
  - rewrite E. cbn. destruct (clear_repr _ _ _ k (outer_epoch p) Hs Hk) as (f & -> & Hf). by eexists.
  - exists s. split; [done|]. destruct (iteration p =? UINT32_MAX); [done|].
    by rewrite (proj2 (Z.eqb_neq _ _) E).
Qed.

Ltac vt_in Hrepr Hk :=
  match goal with
  | |- context [wr _ _ (Frontier ?oe UINT32_MAX)] => destruct (clear_repr _ _ _ _ oe Hrepr Hk) as (? & -> & ?)
  | |- context [wr _ _ (Frontier ?oe ?it)] => destruct (record_repr _ _ _ _ oe it Hrepr Hk) as (? & -> & ?)
  end.

(** A guarded write: outside the bound nothing changes, inside [vt_in]. *)
Ltac vt_write Hrepr :=
  match goal with |- context [(?b <=? ?k)%nat] =>
    destruct (Nat.leb_spec b k) as [Hk|Hk];
    [rewrite ?(out_reset _ _ _ _ _ Hrepr Hk), ?(record_out _ _ _ _ _ Hk); by eexists
    |vt_in Hrepr Hk; by eexists] end.

#[export] Instance epoch_refines : FrontierRefines col_frontier_epoch_ops (H := epoch_model).
Proof.
  split.
  - intros s a ev Hra. pose proof Hra as (He & Hs & Hr).
    destruct ev; cbn [apply col_frontier_epoch_ops record_stratum_convergence record_rule_convergence
      reset_stratum_frontier reset_rule_frontier init_stratum spec_apply].
    + unfold epoch_record_stratum_convergence. vt_write Hs.
    + unfold epoch_record_rule_convergence. vt_write Hr.
    + unfold epoch_reset_stratum_frontier. vt_write Hs.
    + unfold epoch_reset_rule_frontier. vt_write Hr.
    + by apply init_refines.
    + eexists. split; [done|]. unfold next_epoch. rewrite He. done.
  - intros s a k eff (He & Hs & Hr) Heff. cbn. unfold epoch_should_skip_iteration.
    destruct (Nat.leb_spec MAX_STRATA k) as [Hk|Hk]; [by rewrite (out_skip _ _ _ _ _ _ Hs Hk)|].
    destruct (repr_get _ _ _ _ Hs Hk) as (p & Hp & Hm). unfold rd. rewrite Hp. cbn [mbind option_bind].
    unfold spec_skip. rewrite Hm, He. cbn [any_epoch epoch_model orb]. rewrite Z.eqb_sym.
    destruct (Z.eqb_spec (iteration p) UINT32_MAX) as [E|E]; [|done].
    rewrite E, (proj2 (Z.ltb_ge _ _)), andb_false_r by mi. done.
  - intros s a k eff (He & Hs & Hr) Heff. cbn. unfold epoch_should_skip_rule.
    destruct (Nat.leb_spec MAX_RULES k) as [Hk|Hk]; [by rewrite (out_skip _ _ _ _ _ _ Hr Hk)|].
    destruct (repr_get _ _ _ _ Hr Hk) as (p & Hp & Hm). unfold rd. rewrite Hp. cbn [mbind option_bind].
    unfold spec_skip. rewrite Hm, He. cbn [any_epoch epoch_model orb].
    destruct (Z.eqb_spec (iteration p) UINT32_MAX) as [E|E]; [|done].
    rewrite E, (proj2 (Z.ltb_ge _ _)), andb_false_r by mi. done.
Qed.

#[export] Instance diff_refines : FrontierRefines col_frontier_diff_ops (H := diff_model).
Proof.
  split.
  - intros s a ev Hra. pose proof Hra as (He & Hs & Hr).
    destruct ev as [| |k oe|k oe| |]; cbn [apply col_frontier_diff_ops record_stratum_convergence record_rule_convergence
      reset_stratum_frontier reset_rule_frontier init_stratum spec_apply].
    + unfold diff_record_stratum_convergence. vt_write Hs.
    + unfold diff_record_rule_convergence. vt_write Hr.
    + unfold diff_reset_stratum_frontier. destruct (Nat.leb_spec MAX_STRATA k) as [Hk|Hk].
      { rewrite (out_reset _ _ _ _ _ Hs Hk). by eexists. }
      destruct (repr_get _ _ _ _ Hs Hk) as (p & Hp & Hm). unfold rd. rewrite Hp. cbn [mbind option_bind].
      destruct (stamp_repr _ _ _ _ oe p Hs Hk Hp) as (f & -> & Hf). by eexists.
    + unfold diff_reset_rule_frontier. destruct (Nat.leb_spec MAX_RULES k) as [Hk|Hk].
      { rewrite (out_reset _ _ _ _ _ Hr Hk). by eexists. }
      destruct (repr_get _ _ _ _ Hr Hk) as (p & Hp & Hm). unfold rd. rewrite Hp. cbn [mbind option_bind].
      destruct (stamp_repr _ _ _ _ oe p Hr Hk Hp) as (f & -> & Hf). by eexists.
    + by apply init_refines.
    + eexists. split; [done|]. unfold next_epoch. rewrite He. done.
  - intros s a k eff (He & Hs & Hr) Heff. cbn. unfold diff_should_skip_iteration.
    destruct (Nat.leb_spec MAX_STRATA k) as [Hk|Hk]; [by rewrite (out_skip _ _ _ _ _ _ Hs Hk)|].
    destruct (repr_get _ _ _ _ Hs Hk) as (p & Hp & Hm). unfold rd. rewrite Hp. cbn [mbind option_bind].
    unfold spec_skip. rewrite Hm. by destruct (iteration p =? UINT32_MAX).
  - intros s a k eff (He & Hs & Hr) Heff. cbn. unfold diff_should_skip_rule.
    destruct (Nat.leb_spec MAX_RULES k) as [Hk|Hk]; [by rewrite (out_skip _ _ _ _ _ _ Hr Hk)|].
    destruct (repr_get _ _ _ _ Hr Hk) as (p & Hp & Hm). unfold rd. rewrite Hp. cbn [mbind option_bind].
    unfold spec_skip. rewrite Hm. by destruct (iteration p =? UINT32_MAX).
Qed.

(** ** The evaluator's side, against the interface *)

Section Client.
Context (ops : frontier_ops) {M : Model} {FR : FrontierRefines ops}.

Lemma run_refines trace : forall s a, refines s a ->
  exists s', run ops trace s = Some s' /\ refines s' (foldl spec_apply a trace).
Proof.
  induction trace as [|ev trace IH]; intros s a Hr; cbn [run foldl]; [by eexists|].
  destruct (apply_refines s a ev Hr) as (s' & -> & Hr'). cbn [mbind option_bind]. by apply IH.
Qed.

(** [ev] neither records stratum [k] anew nor, where resets forget, resets it. *)
Definition leaves (k : nat) (ev : event) : Prop :=
  match ev with
  | RecordStratum s _ _ => s <> k
  | ResetStratum s _ => s <> k \/ keeps = true
  | _ => True
  end.

(** A point in the abstract frontier comes from the last record of its key. *)
Lemma point_recorded a k trace oe it : (k < MAX_STRATA)%nat -> strata a !! k = None ->
  strata (foldl spec_apply a trace) !! k = Some (oe, it) ->
  exists t1 oe' t2, trace = t1 ++ RecordStratum k oe' it :: t2 /\ Forall (leaves k) t2 /\
    (keeps = false -> oe' = oe).
Proof.
  intros Hk Ha. revert oe. induction trace as [|ev trace IH] using rev_ind; intros oe Hm.
  { by cbn in Hm; rewrite Ha in Hm. }
  rewrite foldl_snoc in Hm. set (b := foldl spec_apply a trace) in *.
  assert (Hext : forall oe0, strata b !! k = Some (oe0, it) -> (keeps = false -> oe0 = oe) -> leaves k ev ->
    exists t1 oe' t2, trace ++ [ev] = t1 ++ RecordStratum k oe' it :: t2 /\ Forall (leaves k) t2 /\
      (keeps = false -> oe' = oe)).
  { intros oe0 Hb Heq Hl. destruct (IH oe0 Hb) as (t1 & oe' & t2 & -> & Ht2 & Hoe).
    exists t1, oe', (t2 ++ [ev]). split; [by rewrite <- app_assoc|]. split; [by apply Forall_app_2; [|constructor]|].
    intros E. rewrite Hoe, Heq by done. done. }
  destruct ev as [s o i| |s o| |s|]; cbn [spec_apply strata] in Hm; try (by apply (Hext oe)).
  - unfold spec_record in Hm. destruct (decide (s = k)) as [->|Hs].
    + rewrite (proj2 (Nat.leb_gt _ _) Hk) in Hm. destruct (i =? UINT32_MAX); [by rewrite lookup_delete_eq in Hm|].
      rewrite lookup_insert_eq in Hm. injection Hm as -> ->. by exists trace, oe, [].
    + apply (Hext oe); [|done|done]. repeat case_match; [done|by rewrite lookup_delete_ne in Hm|by rewrite lookup_insert_ne in Hm].
  - unfold spec_reset in Hm. destruct keeps eqn:Ek.
    + destruct (decide (s = k)) as [->|Hs]; [|rewrite lookup_alter_ne in Hm by done; apply (Hext oe); [done|done|by left]].
      rewrite lookup_alter_eq in Hm. destruct (strata b !! k) as [[o' i']|] eqn:Eb; [|done]. cbn in Hm. simplify_eq.
      apply (Hext o'); [done|done|by right].
    + destruct (decide (s = k)) as [->|Hs]; [by rewrite lookup_delete_eq in Hm|].
      rewrite lookup_delete_ne in Hm by done. apply (Hext oe); [done|done|by left].
  - apply (Hext oe); [|done|done]. unfold spec_init in Hm. repeat case_match; try done.
    destruct (decide (s = k)) as [->|Hs]; [by rewrite lookup_delete_eq in Hm|by rewrite lookup_delete_ne in Hm].
Qed.

Lemma skip_recorded s a trace s' k eff : refines s a -> strata a !! k = None -> is_uint32 eff ->
  run ops trace s = Some s' -> should_skip_iteration ops s' k eff = Some true ->
  exists t1 oe it t2, trace = t1 ++ RecordStratum k oe it :: t2 /\ Forall (leaves k) t2 /\ it < eff /\
    (keeps = false -> any_epoch = false -> oe = epoch s').
Proof.
  intros Hr Ha Heff Hrun Hskip. destruct (run_refines trace s a Hr) as (s2 & Hrun2 & Hr2).
  rewrite Hrun in Hrun2. injection Hrun2 as <-. rewrite (skip_iteration_refines _ _ _ _ Hr2 Heff) in Hskip.
  injection Hskip as Hskip. destruct Hr2 as (He & Hs & _). destruct (decide (k < MAX_STRATA)%nat) as [Hk|Hk].
  - unfold spec_skip in Hskip. destruct (strata (foldl spec_apply a trace) !! k) as [[oe it]|] eqn:Em; [|done].
    apply andb_true_iff in Hskip as [Hep Hlt%Z.ltb_lt].
    destruct (point_recorded a k trace oe it Hk Ha Em) as (t1 & oe' & t2 & -> & Ht2 & Hoe).
    exists t1, oe', it, t2. split_and!; [done|done|done|]. intros E1 E2. rewrite E2 in Hep. apply Z.eqb_eq in Hep.
    rewrite Hoe, He by done. done.
  - apply Nat.nlt_ge in Hk. by rewrite (out_skip _ _ _ _ _ _ Hs Hk) in Hskip.
Qed.

End Client.

(** ** The two vtables *)

Inductive vtable := Epoch | Diff.
Definition ops_of (v : vtable) : frontier_ops :=
  match v with Epoch => col_frontier_epoch_ops | Diff => col_frontier_diff_ops end.
Definition model_of (v : vtable) : Model := match v with Epoch => epoch_model | Diff => diff_model end.

#[export] Instance vtable_refines v : FrontierRefines (ops_of v) (H := model_of v).
Proof. destruct v; apply _. Qed.

(** C38: both implementations of the frontier vtable refine the same abstract
    object, a partial map from strata and from rules to convergence points: for
    every sequence of record, reset, init and epoch steps the calls stay
    inside the arrays, the arrays still represent the map, and the two
    should_skip queries answer from the map alone (a converged key, a later
    iteration and, for the epoch vtable, the current epoch). The vtables
    differ in the map operations only: a reset deletes the point in one and
    keeps its iteration in the other. *)
Theorem frontier_vtables_refine (v : vtable) (trace : list event) (s : session) (a : abstract) : refines s a ->
  exists s', run (ops_of v) trace s = Some s' /\
    let a' := foldl (spec_apply (H := model_of v)) a trace in
    refines s' a' /\
    forall k eff, is_uint32 eff ->
      should_skip_iteration (ops_of v) s' k eff = Some (spec_skip (H := model_of v) (now a') (strata a') k eff) /\
      should_skip_rule (ops_of v) s' k eff = Some (spec_skip (H := model_of v) (now a') (rules a') k eff).
Proof.
  intros Hr. destruct (run_refines (ops_of v) (M := model_of v) trace s a Hr) as (s' & Hrun & Hr').
  exists s'. split; [done|]. split; [done|]. intros k eff Heff. split.
  - by apply skip_iteration_refines.
  - by apply skip_rule_refines.
Qed.

(** an iteration of a stratum is skipped only on the word of a convergence
    record: from a session in which the stratum has no convergence point,
    after any sequence of steps, a true answer for effective iteration [eff]
    means that the last record for the stratum gave an iteration below [eff];
    with the epoch vtable it was made for the current epoch and no reset of
    the stratum came after it. *)
Theorem skip_has_record (v : vtable) (trace : list event) (s s' : session) (a : abstract) (k : nat) (eff : Z) :
  refines s a -> strata a !! k = None -> is_uint32 eff ->
  run (ops_of v) trace s = Some s' -> should_skip_iteration (ops_of v) s' k eff = Some true ->
  exists t1 oe it t2, trace = t1 ++ RecordStratum k oe it :: t2 /\ it < eff /\
    Forall (fun ev => match ev with
                   | RecordStratum s _ _ => s <> k
                   | ResetStratum s _ => s <> k \/ v = Diff
                   | _ => True end) t2 /\
    (v = Epoch -> oe = epoch s').
Proof.
  intros Hr Ha Heff Hrun Hskip.
  destruct (skip_recorded (ops_of v) (M := model_of v) s a trace s' k eff Hr Ha Heff Hrun Hskip)
    as (t1 & oe & it & t2 & Et & Ht2 & Hlt & Hoe).
  exists t1, oe, it, t2. split_and!; [done|done| |intros ->; by apply Hoe].
  eapply Forall_impl; [exact Ht2|]. intros [| |x ?| | |] Hl; try done. cbn in Hl. destruct Hl; [by left|right].
  by destruct v.
Qed.

(** A session of which no stratum and no rule has converged. *)
Definition unset : session :=
  Session 0 (replicate MAX_STRATA (Frontier 0 UINT32_MAX)) (replicate MAX_RULES (Frontier 0 UINT32_MAX)).

Lemma unset_refines : refines unset (Abstract 0 ∅ ∅).
Proof.
  assert (Hr : forall n, repr n (replicate n (Frontier 0 UINT32_MAX)) ∅).
  { intros n. split; [apply length_replicate|]. intros k. rewrite lookup_empty.
    destruct (_ !! k) eqn:E; [|done]. by apply lookup_replicate in E as [-> _]. }
  split; [done|]. split; apply Hr.
Qed.

Definition sample_trace : list event := [RecordStratum 3 0 7; RecordRule 5 0 7; ResetRule 5 0].

Lemma frontier_vtables_refine_witness : refines unset (Abstract 0 ∅ ∅) /\ exists s',
  run (ops_of Diff) sample_trace unset = Some s' /\
  refines s' (foldl (spec_apply (H := diff_model)) (Abstract 0 ∅ ∅) sample_trace).
Proof.
  split; [exact unset_refines|].
  destruct (frontier_vtables_refine Diff sample_trace unset _ unset_refines) as (s' & Hrun & Hr & _).
  exists s'. split; [exact Hrun|exact Hr].
Defined.

Lemma skip_has_record_witness : exists s' t1 oe it t2,
  run (ops_of Epoch) sample_trace unset = Some s' /\ should_skip_iteration (ops_of Epoch) s' 3 8 = Some true /\
  sample_trace = t1 ++ RecordStratum 3 oe it :: t2 /\ it < 8 /\ oe = epoch s'.
Proof.
  destruct (run (ops_of Epoch) sample_trace unset) as [s'|] eqn:E; [|vm_compute in E; discriminate].
  assert (Hs : should_skip_iteration (ops_of Epoch) s' 3 8 = Some true).
  { vm_compute in E. injection E as <-. reflexivity. }
  destruct (skip_has_record Epoch sample_trace unset s' _ 3 8 unset_refines eq_refl ltac:(mi) E Hs)
    as (t1 & oe & it & t2 & Et & Hlt & _ & Hoe).
  exists s', t1, oe, it, t2. split_and!; [reflexivity|exact Hs|exact Et|exact Hlt|exact (Hoe eq_refl)].
Defined.

End Vtable.

(** ** Worker progress *)

Module Progress.

(** wl_worker_frontier_entry_t *)
Record entry := Entry { outer_epoch : Z; iteration : Z }.

(** wl_frontier_progress_t; [entries] is [None] for the NULL pointer. *)
Record progress := Tracker { entries : option (list entry); num_workers : Z; num_strata : Z }.

Definition entry_slot (p : progress) (stratum_idx worker_id : Z) : Z :=
  u32 (u32 (stratum_idx * num_workers p) + worker_id).

(** [alloc] is whether calloc succeeds. A [None] tracker argument is NULL. *)
Definition init (alloc : bool) (p : option progress) (nworkers nstrata : Z) : Z * option progress :=
  match p with
  | None => (EINVAL, p)
  | Some q =>
      if (nworkers =? 0) || (nstrata =? 0) then (EINVAL, p)
      else
        let count := u32 (nstrata * nworkers) in
        if alloc then
          (0, Some (Tracker (Some (replicate (Z.to_nat count) (Entry 0 UINT32_MAX))) nworkers nstrata))
        else (ENOMEM, Some (Tracker None (num_workers q) (num_strata q)))
  end.

Definition destroy (p : option progress) : option progress :=
  match p with None => None | Some _ => Some (Tracker None 0 0) end.

(** The outer option is an access outside the array. *)
Definition record (p : option progress) (worker_id stratum_idx oe it : Z) : option (option progress) :=
  match p with
  | None => Some p
  | Some q =>
      match entries q with
      | None => Some p
      | Some es =>
          if (num_workers q <=? worker_id) || (num_strata q <=? stratum_idx) then Some p
          else
            es' ← wr es (Z.to_nat (entry_slot q stratum_idx worker_id)) (Entry oe it);
            Some (Some (Tracker (Some es') (num_workers q) (num_strata q)))
      end
  end.

(** for (wi = 0; wi < num_workers; wi++) *)
Definition workers (q : progress) : list Z := Z.of_nat <$> seq 0 (Z.to_nat (num_workers q)).

Fixpoint min_loop (q : progress) (es : list entry) (stratum_idx oe : Z) (ws : list Z) (min_iter : Z) : option Z :=
  match ws with
  | [] => Some min_iter
  | wi :: rest =>
      e ← rd es (Z.to_nat (entry_slot q stratum_idx wi));
      if negb (outer_epoch e =? oe) then min_loop q es stratum_idx oe rest min_iter
      else min_loop q es stratum_idx oe rest (if iteration e <? min_iter then iteration e else min_iter)
  end.

Definition min_iteration (p : option progress) (stratum_idx oe : Z) : option Z :=
  match p with
  | None => Some UINT32_MAX
  | Some q =>
      match entries q with
      | None => Some UINT32_MAX
      | Some es =>
          if num_strata q <=? stratum_idx then Some UINT32_MAX
          else min_loop q es stratum_idx oe (workers q) UINT32_MAX
      end
  end.

Fixpoint converged_loop (q : progress) (es : list entry) (stratum_idx oe : Z) (ws : list Z) : option bool :=
  match ws with
  | [] => Some true
  | wi :: rest =>
      e ← rd es (Z.to_nat (entry_slot q stratum_idx wi));
      if negb (outer_epoch e =? oe) || (iteration e =? UINT32_MAX) then Some false
      else converged_loop q es stratum_idx oe rest
  end.

Definition all_converged (p : option progress) (stratum_idx oe : Z) : option bool :=
  match p with
  | None => Some false
  | Some q =>
      match entries q with
      | None => Some false
      | Some es =>
          if (num_strata q <=? stratum_idx) || (num_workers q =? 0) then Some false
          else converged_loop q es stratum_idx oe (workers q)
      end
  end.

Fixpoint reset_loop (q : progress) (stratum_idx new_epoch : Z) (ws : list Z) (es : list entry) : option (list entry) :=
  match ws with
  | [] => Some es
  | wi :: rest =>
      es' ← wr es (Z.to_nat (entry_slot q stratum_idx wi)) (Entry new_epoch UINT32_MAX);
      reset_loop q stratum_idx new_epoch rest es'
  end.

Definition reset_stratum (p : option progress) (stratum_idx new_epoch : Z) : option (option progress) :=
  match p with
  | None => Some p
  | Some q =>
      match entries q with
      | None => Some p
      | Some es =>
          if num_strata q <=? stratum_idx then Some p
          else
            es' ← reset_loop q stratum_idx new_epoch (workers q) es;
            Some (Some (Tracker (Some es') (num_workers q) (num_strata q)))
      end
  end.

(** ** A run of the protocol *)

Inductive event := Record_ (worker_id stratum_idx oe it : Z) | Reset (stratum_idx new_epoch : Z).

Definition apply (p : option progress) (ev : event) : option (option progress) :=
  match ev with
  | Record_ w s oe it => record p w s oe it
  | Reset s e => reset_stratum p s e
  end.

Fixpoint run (p : option progress) (evs : list event) : option (option progress) :=
  match evs with
  | [] => Some p
  | ev :: rest => p' ← apply p ev; run p' rest
  end.

(** The report of worker [w] on stratum [s] that the events, oldest first,
    leave standing. *)
Definition report1 (s w : Z) (cur : Z * Z) (ev : event) : Z * Z :=
  match ev with
  | Record_ w' s' oe it => if bool_decide (s' = s /\ w' = w) then (oe, it) else cur
  | Reset s' e => if bool_decide (s' = s) then (e, UINT32_MAX) else cur
  end.
Definition report (evs : list event) (s w : Z) : Z * Z := foldl (report1 s w) (0, UINT32_MAX) evs.

Definition valid_event (ev : event) : Prop :=
  match ev with
  | Record_ w s oe it => is_uint32 w /\ is_uint32 s /\ is_uint32 oe /\ is_uint32 it
  | Reset s e => is_uint32 s /\ is_uint32 e
  end.

(** A tracker whose table holds [f stratum worker] in every slot. *)
Definition holds (nw ns : Z) (f : Z -> Z -> Z * Z) (p : option progress) : Prop :=
  exists es, p = Some (Tracker (Some es) nw ns) /\ Z.of_nat (length es) = ns * nw /\
    forall s w, 0 <= s < ns -> 0 <= w < nw ->
      es !! Z.to_nat (s * nw + w) = Some (Entry (f s w).1 (f s w).2).

Section Table.
Variables nw ns : Z.
Hypothesis Hnw : 0 < nw.
Hypothesis Hns : 0 < ns.
Hypothesis Hcount : ns * nw <= UINT32_MAX.

Lemma slot_exact es s w : 0 <= s < ns -> 0 <= w < nw -> entry_slot (Tracker es nw ns) s w = s * nw + w /\
  0 <= s * nw + w < ns * nw.
Proof.
  intros Hs Hw. assert (0 <= s * nw + w < ns * nw) by nia. assert (0 <= s * nw < ns * nw) by nia. unfold entry_slot. cbn [num_workers].
  rewrite (u32_small (s * nw)) by mi. rewrite u32_small by mi. done.
Qed.

Lemma slot_inj s w s' w' : 0 <= w < nw -> 0 <= w' < nw ->
  s * nw + w = s' * nw + w' -> s = s' /\ w = w'.
Proof. intros Hw Hw' E. assert (s = s') by nia. subst. split; [done|lia]. Qed.

Lemma init_holds q : init true (Some q) nw ns = (0, snd (init true (Some q) nw ns)) /\
  holds nw ns (fun _ _ => (0, UINT32_MAX)) (snd (init true (Some q) nw ns)).
Proof.
  unfold init. rewrite (proj2 (Z.eqb_neq nw 0)), (proj2 (Z.eqb_neq ns 0)) by lia. cbn [orb snd].
  split; [done|]. assert (0 < ns * nw) by nia. rewrite u32_small by mi. eexists. split; [done|].
  rewrite length_replicate. split; [lia|]. intros s w Hs Hw. apply lookup_replicate. split; [done|]. nia.
Qed.

(** Writing one slot. *)
Lemma write_slot es f s w oe it : Z.of_nat (length es) = ns * nw -> 0 <= s < ns -> 0 <= w < nw ->
  (forall s w, 0 <= s < ns -> 0 <= w < nw -> es !! Z.to_nat (s * nw + w) = Some (Entry (f s w).1 (f s w).2)) ->
  exists es', wr es (Z.to_nat (s * nw + w)) (Entry oe it) = Some es' /\ Z.of_nat (length es') = ns * nw /\
    forall s' w', 0 <= s' < ns -> 0 <= w' < nw -> es' !! Z.to_nat (s' * nw + w') =
      Some (if bool_decide (s = s' /\ w = w') then Entry oe it else Entry (f s' w').1 (f s' w').2).
Proof.
  intros Hl Hs Hw Hes. assert (0 <= s * nw + w < ns * nw) by nia. eexists. split; [apply wr_lt; lia|].
  split; [by rewrite length_insert|]. intros s' w' Hs' Hw'. assert (0 <= s' * nw + w' < ns * nw) by nia. case_bool_decide as E.
  - destruct E as [-> ->]. apply list_lookup_insert_eq. lia.
  - rewrite list_lookup_insert_ne; [by apply Hes|]. intros Heq. apply E, slot_inj; lia.
Qed.

Lemma holds_ext f g p : (forall s w, 0 <= s < ns -> 0 <= w < nw -> f s w = g s w) -> holds nw ns f p -> holds nw ns g p.
Proof.
  intros Hfg (es & -> & Hl & Hes). exists es. split_and!; [done|done|]. intros s w Hs Hw.
  rewrite <- (Hfg s w Hs Hw). by apply Hes.
Qed.

Lemma record_holds f p w s oe it : holds nw ns f p -> is_uint32 w -> is_uint32 s ->
  exists p', record p w s oe it = Some p' /\
    holds nw ns (fun s' w' => report1 s' w' (f s' w') (Record_ w s oe it)) p'.
Proof.
  intros (es & -> & Hl & Hes) Hw Hs. cbn [record entries num_workers num_strata report1].
  destruct (Z.leb_spec nw w) as [Hw'|Hw']; cbn [orb].
  { eexists. split; [done|]. apply (holds_ext f); [|by exists es]. intros s' w' ? ?.
    rewrite bool_decide_false by lia. done. }
  destruct (Z.leb_spec ns s) as [Hs'|Hs'].
  { eexists. split; [done|]. apply (holds_ext f); [|by exists es]. intros s' w' ? ?.
    rewrite bool_decide_false by lia. done. }
  destruct (slot_exact (Some es) s w ltac:(mi) ltac:(mi)) as [-> _].
  destruct (write_slot es f s w oe it Hl ltac:(mi) ltac:(mi) Hes) as (es' & -> & Hl' & Hes').
  cbn [mbind option_bind]. eexists. split; [done|]. exists es'. split_and!; [done|done|].
  intros s' w' Hs'' Hw''. rewrite Hes' by done. by case_bool_decide.
Qed.

Lemma reset_loop_ok o s e ws : 0 <= s < ns -> Forall (fun w => 0 <= w < nw) ws -> forall es f,
  Z.of_nat (length es) = ns * nw ->
  (forall s w, 0 <= s < ns -> 0 <= w < nw -> es !! Z.to_nat (s * nw + w) = Some (Entry (f s w).1 (f s w).2)) ->
  exists es', reset_loop (Tracker o nw ns) s e ws es = Some es' /\ Z.of_nat (length es') = ns * nw /\
    forall s' w', 0 <= s' < ns -> 0 <= w' < nw -> es' !! Z.to_nat (s' * nw + w') =
      Some (if bool_decide (s = s' /\ w' ∈ ws) then Entry e UINT32_MAX else Entry (f s' w').1 (f s' w').2).
Proof.
  intros Hs. induction 1 as [|w ws Hw _ IH]; intros es f Hl Hes; cbn [reset_loop].
  - exists es. split_and!; [done|done|]. intros s' w' Hs' Hw'. rewrite bool_decide_false by set_solver. by apply Hes.
  - destruct (slot_exact o s w Hs Hw) as [-> _].
    destruct (write_slot es f s w e UINT32_MAX Hl Hs Hw Hes) as (es1 & -> & Hl1 & Hes1). cbn [mbind option_bind].
    destruct (IH es1 (fun s' w' => if bool_decide (s = s' /\ w = w') then (e, UINT32_MAX) else f s' w') Hl1)
      as (es2 & -> & Hl2 & Hes2).
    { intros s' w' Hs' Hw'. rewrite Hes1 by done. by case_bool_decide. }
    exists es2. split_and!; [done|done|]. intros s' w' Hs' Hw'. rewrite Hes2 by done.
    repeat case_bool_decide; try done; set_solver.
Qed.

Lemma workers_in o w : w ∈ workers (Tracker o nw ns) <-> 0 <= w < nw.
Proof.
  unfold workers. cbn [num_workers]. rewrite list_elem_of_fmap. setoid_rewrite elem_of_seq. split.
  - intros (k & -> & ?). lia.
  - intros. exists (Z.to_nat w). lia.
Qed.

Lemma workers_all o : Forall (fun w => 0 <= w < nw) (workers (Tracker o nw ns)).
Proof. apply Forall_forall. intros w. apply workers_in. Qed.

Lemma reset_holds f p s e : holds nw ns f p -> is_uint32 s ->
  exists p', reset_stratum p s e = Some p' /\ holds nw ns (fun s' w' => report1 s' w' (f s' w') (Reset s e)) p'.
Proof.
  intros (es & -> & Hl & Hes) Hs. cbn [reset_stratum entries num_workers num_strata report1].
  destruct (Z.leb_spec ns s) as [Hs'|Hs'].
  { eexists. split; [done|]. apply (holds_ext f); [|by exists es]. intros s' w' ? ?.
    rewrite bool_decide_false by lia. done. }
  destruct (reset_loop_ok (Some es) s e (workers (Tracker (Some es) nw ns)) ltac:(mi) (workers_all _) es f Hl Hes)
    as (es' & -> & Hl' & Hes').
  cbn [mbind option_bind]. eexists. split; [done|]. exists es'. split_and!; [done|done|].
  intros s' w' Hs'' Hw''. rewrite Hes' by done. pose proof (proj2 (workers_in (Some es) w') Hw'').
  repeat case_bool_decide; try done; exfalso; tauto.
Qed.

Lemma run_holds evs : Forall valid_event evs -> forall f p, holds nw ns f p ->
  exists p', run p evs = Some p' /\ holds nw ns (fun s w => foldl (report1 s w) (f s w) evs) p'.
Proof.
  induction 1 as [|ev evs Hev _ IH]; intros f p Hp; cbn [run foldl]; [by eexists|].
  assert (exists p', apply p ev = Some p' /\ holds nw ns (fun s' w' => report1 s' w' (f s' w') ev) p') as (p' & -> & Hp').
  { destruct ev as [w s oe it|s e]; cbn in Hev; [apply record_holds|apply reset_holds]; tauto || done. }
  cbn [mbind option_bind]. apply (IH _ _ Hp').
Qed.

Lemma min_loop_ok o es f s oe ws : 0 <= s < ns -> Forall (fun w => 0 <= w < nw) ws ->
  (forall s w, 0 <= s < ns -> 0 <= w < nw -> es !! Z.to_nat (s * nw + w) = Some (Entry (f s w).1 (f s w).2)) ->
  forall m, exists m', min_loop (Tracker o nw ns) es s oe ws m = Some m' /\ m' <= m /\
    (forall w, w ∈ ws -> (f s w).1 = oe -> m' <= (f s w).2) /\
    (m' = m \/ exists w, w ∈ ws /\ f s w = (oe, m')).
Proof.
  intros Hs Hws Hes. induction Hws as [|w ws Hw _ IH]; intros m; cbn [min_loop].
  { exists m. split_and!; [done|lia|set_solver|by left]. }
  destruct (slot_exact o s w Hs Hw) as [-> _]. unfold rd. rewrite Hes by done. cbn [mbind option_bind outer_epoch iteration].
  setoid_rewrite elem_of_cons.
  destruct (Z.eqb_spec (f s w).1 oe) as [E|E]; cbn [negb].
  - destruct (IH (if (f s w).2 <? m then (f s w).2 else m)) as (m' & -> & Hle & Hall & Hor).
    destruct (Z.ltb_spec (f s w).2 m); exists m'; (split_and!; [done|lia| |]).
    1, 3: intros w' [->|?] ?; [lia|auto].
    + right. destruct Hor as [->|(w' & ? & ?)]; [exists w; split; [by left|]; by rewrite <- E, <- surjective_pairing|eauto].
    + destruct Hor as [->|(w' & ? & ?)]; [by left|right; eauto].
  - destruct (IH m) as (m' & -> & Hle & Hall & Hor). exists m'. split_and!; [done|done| |].
    + intros w' [->|?] ?; [done|auto].
    + destruct Hor as [->|(w' & ? & ?)]; [by left|right; eauto].
Qed.

Lemma converged_loop_ok o es f s oe ws : 0 <= s < ns -> Forall (fun w => 0 <= w < nw) ws ->
  (forall s w, 0 <= s < ns -> 0 <= w < nw -> es !! Z.to_nat (s * nw + w) = Some (Entry (f s w).1 (f s w).2)) ->
  exists b, converged_loop (Tracker o nw ns) es s oe ws = Some b /\
    (b = true <-> forall w, w ∈ ws -> (f s w).1 = oe /\ (f s w).2 <> UINT32_MAX).
Proof.
  intros Hs Hws Hes. induction Hws as [|w ws Hw _ IH]; cbn [converged_loop].
  { exists true. split; [done|]. set_solver. }
  destruct (slot_exact o s w Hs Hw) as [-> _]. unfold rd. rewrite Hes by done. cbn [mbind option_bind outer_epoch iteration].
  setoid_rewrite elem_of_cons.
  destruct (Z.eqb_spec (f s w).1 oe) as [E|E]; cbn [negb orb].
  - destruct (Z.eqb_spec (f s w).2 UINT32_MAX) as [E2|E2].
    + exists false. split; [done|]. split; [done|]. intros Ha. by destruct (Ha w ltac:(by left)).
    + destruct IH as (b & -> & Hb). exists b. split; [done|]. rewrite Hb. split; [intros Ha w' [->|?]; auto|auto].
  - exists false. split; [done|]. split; [done|]. intros Ha. by destruct (Ha w ltac:(by left)).
Qed.

End Table.

(** the tracker, initialised for [nw] workers and [ns] strata whose
    product fits 32 bits, answers every query from the standing reports: after
    any sequence of records and resets, no call having left the table, the
    minimum for a stratum and epoch is the least iteration that a worker whose
    standing report is for that epoch reported, or UINT32_MAX, and
    all_converged holds exactly when every worker's standing report is for
    that epoch and is not the sentinel. Records of one worker or stratum never
    disturb those of another. *)
Theorem progress_answers (nw ns : Z) (q : progress) (evs : list event) :
  0 < nw -> 0 < ns -> ns * nw <= UINT32_MAX -> Forall valid_event evs ->
  exists p, run (init true (Some q) nw ns).2 evs = Some p /\
    forall s oe, 0 <= s < ns ->
      (exists m, min_iteration p s oe = Some m /\
        (forall w, 0 <= w < nw -> (report evs s w).1 = oe -> m <= (report evs s w).2) /\
        (m = UINT32_MAX \/ exists w, 0 <= w < nw /\ report evs s w = (oe, m))) /\
      (exists b, all_converged p s oe = Some b /\
        (b = true <-> forall w, 0 <= w < nw -> (report evs s w).1 = oe /\ (report evs s w).2 <> UINT32_MAX)).
Proof.
  intros Hnw Hns Hc Hev. destruct (init_holds nw ns Hnw Hns Hc q) as [_ Hi].
  destruct (run_holds nw ns Hnw Hns Hc evs Hev _ _ Hi) as (p & Hrun & (es & -> & Hl & Hes)).
  eexists. split; [exact Hrun|]. intros s oe Hs. cbn [min_iteration all_converged entries num_strata num_workers].
  rewrite (proj2 (Z.leb_gt ns s)), (proj2 (Z.eqb_neq nw 0)) by lia. cbn [orb].
  pose proof (workers_all nw ns Hnw Hns (Some es)) as Hws.
  pose proof (fun w => workers_in nw ns Hnw Hns (Some es) w) as Hin. split.
  - destruct (min_loop_ok nw ns Hnw Hns Hc (Some es) es (report evs) s oe _ Hs Hws Hes UINT32_MAX)
      as (m & -> & _ & Hall & Hor).
    setoid_rewrite Hin in Hall. setoid_rewrite Hin in Hor. by exists m.
  - destruct (converged_loop_ok nw ns Hnw Hns Hc (Some es) es (report evs) s oe _ Hs Hws Hes) as (b & -> & Hb).
    setoid_rewrite Hin in Hb. by exists b.
Qed.

Lemma progress_answers_witness : exists p,
  run (init true (Some (Tracker None 0 0)) 2 3).2 [Record_ 0 1 4 9; Record_ 1 1 4 6; Reset 2 5] = Some p /\
  min_iteration p 1 4 = Some 6 /\ all_converged p 1 4 = Some true.
Proof.
  destruct (progress_answers 2 3 (Tracker None 0 0) [Record_ 0 1 4 9; Record_ 1 1 4 6; Reset 2 5]) as (p & Hrun & _);
    [lia|lia|mi|repeat constructor; mi|].
  exists p. split; [exact Hrun|]. vm_compute in Hrun. injection Hrun as <-. split; reflexivity.
Defined.

(** init multiplies the two counts in 32 bits: for 6,700,417 workers and
    641 strata, both valid arguments, the product wraps to 1, the table gets a
    single entry, and the report of worker 1 on stratum 0, an index in range,
    is written outside it. *)
Theorem progress_count_wraps (q : progress) :
  (init true (Some q) 6700417 641).1 = 0 /\
  match (init true (Some q) 6700417 641).2 with
  | Some p => match entries p with Some es => length es = 1%nat | None => False end
  | None => False
  end /\
  record (init true (Some q) 6700417 641).2 1 0 0 0 = None.
Proof. split_and!; reflexivity. Qed.

End Progress.
