(* ===== verification/Governor.v ===== *)
(** * Memory governor

    wirelog/columnar/memory_governor.c. [Budget]: the budget that a session
    resolves from the environment or from the host limits. [Reserve]: the
    reservation tokens, as a machine whose steps are the atomic accesses of the
    source, so that calls of several threads interleave. *)
From S2P Require Import Prelude.

(** ** The budget *)

Module Budget.

Definition MIN_BUDGET : Z := 256 * 1024 * 1024.
Definition HEADROOM_CAP : Z := 256 * 1024 * 1024.

Inductive mode_t := ADVISORY | ENFORCING.
Inductive source_t := SRC_NONE | SRC_ENV | SRC_CGROUP_V2 | SRC_CGROUP_V1 | SRC_RLIMIT_AS | SRC_WINDOWS_JOB.
Inductive status_t := MEM_OK | MEM_INVALID | MEM_UNAVAILABLE | MEM_OVERFLOW.

#[export] Instance source_eq : EqDecision source_t.
Proof. solve_decision. Defined.

(** wl_columnar_memory_sources_t: [None] is an unavailable source. *)
Record sources := Sources {
  cgroup_v2_limit : option Z; cgroup_v1_limit : option Z; rlimit_as_limit : option Z; windows_job_limit : option Z }.

(** wl_columnar_memory_resolution_t *)
Record resolution := Resolution {
  budget_bytes : Z; headroom_bytes : Z; usable_bytes : Z; mode : mode_t; source : source_t; status : status_t }.

(** memset(out, 0, ...) *)
Definition zeroed (s : status_t) : resolution := Resolution 0 0 0 ADVISORY SRC_NONE s.

Definition headroom_for (budget : Z) : Z :=
  let headroom := budget / 20 in
  let headroom := if HEADROOM_CAP <? headroom then HEADROOM_CAP else headroom in
  if budget / 2 <? headroom then budget / 2 else headroom.

Definition finite_limit (value : Z) : bool := negb (value =? 0) && negb (value =? UINT64_MAX).

Definition finite_source_limit (src : source_t) (value : Z) : bool :=
  if finite_limit value then negb (bool_decide (src = SRC_CGROUP_V1)) || (value <? 2 ^ 62) else false.

Definition set_resolution (budget : Z) (m : mode_t) (src : source_t) : resolution :=
  let headroom := match m with ENFORCING => headroom_for budget | ADVISORY => 0 end in
  Resolution budget headroom (match m with ENFORCING => budget - headroom | ADVISORY => UINT64_MAX end) m src MEM_OK.

Inductive parse_result := PARSE_INVALID | PARSE_VALID (value : Z) | PARSE_OVERFLOW.

(** The loop over a NUL-terminated text; a char is a byte. *)
Fixpoint parse_loop (text : list Z) (value : Z) : parse_result :=
  match text with
  | [] => PARSE_VALID value
  | c :: rest =>
      if (c <? 48) || (57 <? c) then PARSE_INVALID
      else
        let digit := c - 48 in
        if (UINT64_MAX - digit) / 10 <? value then PARSE_OVERFLOW
        else parse_loop rest (u64 (u64 (value * 10) + digit))
  end.

Definition parse_decimal_bytes (text : list Z) : parse_result :=
  match text with [] => PARSE_INVALID | _ => parse_loop text 0 end.

(** One source of wl_columnar_memory_resolve. *)
Definition consider (src : source_t) (limit : option Z) (acc : Z * source_t) : Z * source_t :=
  match limit with
  | Some l => if finite_source_limit src l && (l <? acc.1) then (l, src) else acc
  | None => acc
  end.

(** [probed] is what wl_columnar_memory_probe_sources yields, [None] when it
    fails; it is consulted when the caller passes no sources. *)
Definition resolve (env_value : option (list Z)) (srcs probed : option sources) : status_t * resolution :=
  match env_value with
  | Some text =>
      match parse_decimal_bytes text with
      | PARSE_OVERFLOW => (MEM_OVERFLOW, zeroed MEM_OVERFLOW)
      | PARSE_INVALID => (MEM_INVALID, zeroed MEM_INVALID)
      | PARSE_VALID value =>
          if value <? MIN_BUDGET then (MEM_INVALID, zeroed MEM_INVALID)
          else (MEM_OK, set_resolution value ENFORCING SRC_ENV)
      end
  | None =>
      match (match srcs with Some s => Some s | None => probed end) with
      | None => (MEM_UNAVAILABLE, zeroed MEM_INVALID)
      | Some s =>
          let '(best, src) :=
            consider SRC_WINDOWS_JOB (windows_job_limit s)
              (consider SRC_RLIMIT_AS (rlimit_as_limit s)
                (consider SRC_CGROUP_V1 (cgroup_v1_limit s)
                  (consider SRC_CGROUP_V2 (cgroup_v2_limit s) (UINT64_MAX, SRC_NONE)))) in
          if bool_decide (src = SRC_NONE) then (MEM_OK, set_resolution 0 ADVISORY SRC_NONE)
          else if best <? MIN_BUDGET then (MEM_INVALID, zeroed MEM_INVALID)
          else (MEM_OK, set_resolution best ENFORCING src)
      end
  end.

(** *** What is resolved *)

Lemma headroom_bounds b : 0 <= b -> 0 <= headroom_for b /\ 20 * headroom_for b <= b /\ headroom_for b <= HEADROOM_CAP.
Proof.
  intros. unfold headroom_for, HEADROOM_CAP. cbv zeta.
  destruct (Z.ltb_spec (256 * 1024 * 1024) (b / 20)); match goal with |- context [if ?x <? ?y then _ else _] => destruct (Z.ltb_spec x y) end;
    Z.div_mod_to_equations; lia.
Qed.

(** The number that a list of digits denotes. *)
Definition denotes (text : list Z) (value : Z) : Z := foldl (fun v c => v * 10 + (c - 48)) value text.

Lemma denotes_ge text v : Forall (fun c => 48 <= c <= 57) text -> 0 <= v -> v <= denotes text v.
Proof.
  intros H. revert v. induction H as [|c text Hc _ IH]; intros v Hv; cbn [denotes foldl]; [lia|].
  specialize (IH (v * 10 + (c - 48)) ltac:(lia)). unfold denotes in IH. lia.
Qed.

Lemma parse_loop_exact text : Forall (fun c => 48 <= c <= 57) text -> forall v, is_uint64 v ->
  parse_loop text v = if denotes text v <=? UINT64_MAX then PARSE_VALID (denotes text v) else PARSE_OVERFLOW.
Proof.
  induction 1 as [|c text Hc Ht IH]; intros v Hv; cbn [parse_loop denotes foldl].
  - by rewrite (proj2 (Z.leb_le v UINT64_MAX)) by mi.
  - rewrite (proj2 (Z.ltb_ge c 48)), (proj2 (Z.ltb_ge 57 c)) by lia. cbn [orb]. cbv zeta.
    fold (denotes text (v * 10 + (c - 48))).
    pose proof (denotes_ge text (v * 10 + (c - 48)) Ht ltac:(mi)).
    assert (Hiff : (UINT64_MAX - (c - 48)) / 10 < v <-> UINT64_MAX < v * 10 + (c - 48)) by mi_divmod.
    destruct (Z.ltb_spec ((UINT64_MAX - (c - 48)) / 10) v).
    + rewrite (proj2 (Z.leb_gt _ _)); [done|]. lia.
    + rewrite (u64_small (v * 10)) by mi. rewrite u64_small by mi. rewrite IH by mi. done.
Qed.

(** The sources in the order in which they are considered. *)
Definition candidates (s : sources) : list (source_t * option Z) :=
  [(SRC_CGROUP_V2, cgroup_v2_limit s); (SRC_CGROUP_V1, cgroup_v1_limit s);
   (SRC_RLIMIT_AS, rlimit_as_limit s); (SRC_WINDOWS_JOB, windows_job_limit s)].

(** [src] yields the finite limit [l]. *)
Definition yields (cs : list (source_t * option Z)) (src : source_t) (l : Z) : Prop :=
  (src, Some l) ∈ cs /\ finite_source_limit src l = true.

Definition valid_sources (s : sources) : Prop :=
  Forall (fun c => match c.2 with Some l => is_uint64 l | None => True end) (candidates s).

Lemma consider_all cs : Forall (fun c => c.1 <> SRC_NONE /\ match c.2 with Some l => is_uint64 l | None => True end) cs ->
  let acc := foldl (fun acc c => consider c.1 c.2 acc) (UINT64_MAX, SRC_NONE) cs in
  (acc = (UINT64_MAX, SRC_NONE) /\ (forall src l, ~ yields cs src l) \/
   yields cs acc.2 acc.1 /\ acc.2 <> SRC_NONE /\ acc.1 < UINT64_MAX) /\
  forall src l, yields cs src l -> acc.1 <= l.
Proof.
  induction cs as [|[src lim] cs IH] using rev_ind; intros Hcs; cbv zeta.
  { split; [left; split; [done|]|]; intros ? ? [H _]; by apply not_elem_of_nil in H. }
  apply Forall_app in Hcs as [Hcs Hc]. inversion_clear Hc as [|? ? [Hsrc Hl] _]. cbn in Hsrc, Hl.
  rewrite foldl_snoc. specialize (IH Hcs). cbv zeta in IH.
  destruct (foldl _ _ cs) as [best bsrc]. cbn [fst snd] in IH. unfold consider. cbn [fst snd].
  assert (Hsnoc : forall s l, yields (cs ++ [(src, lim)]) s l <->
    yields cs s l \/ s = src /\ lim = Some l /\ finite_source_limit s l = true).
  { intros s l. unfold yields. rewrite elem_of_app, list_elem_of_singleton. naive_solver. }
  destruct IH as [IH Hmin]. destruct lim as [l|]; [|].
  - destruct (finite_source_limit src l) eqn:Ef.
    + cbn [andb]. assert (l < UINT64_MAX).
      { unfold finite_source_limit, finite_limit in Ef. destruct (Z.eqb_spec l UINT64_MAX); [by rewrite andb_false_r in Ef|mi]. }
      destruct (Z.ltb_spec l best); cbn [andb fst snd].
      * split; [right; split_and!; [apply Hsnoc; by right|done|done]|].
        intros s' l' [Hy|(-> & [= <-] & _)]%Hsnoc; [specialize (Hmin _ _ Hy); lia|lia].
      * split; [|intros s' l' [Hy|(-> & [= <-] & _)]%Hsnoc; [by apply (Hmin s')|lia]].
        destruct IH as [[[= -> ->] _]|(Hy & ? & ?)]; [lia|]. right. split_and!; [apply Hsnoc; by left|done|done].
    + cbn [andb]. split; [|intros s' l' [Hy|(-> & [= <-] & ?)]%Hsnoc; [by apply (Hmin s')|congruence]].
      destruct IH as [[E Hn]|(Hy & ? & ?)]; [left; split; [done|]|right; split_and!; [apply Hsnoc; by left|done|done]].
      intros s' l' [Hy|(-> & [= <-] & ?)]%Hsnoc; [by eapply Hn|congruence].
  - split; [|intros s' l' [Hy|(-> & [=] & ?)]%Hsnoc; by apply (Hmin s')].
    destruct IH as [[E Hn]|(Hy & ? & ?)]; [left; split; [done|]|right; split_and!; [apply Hsnoc; by left|done|done]].
    intros s' l' [Hy|(-> & [=] & ?)]%Hsnoc. by eapply Hn.
Qed.

Definition enforced (budget : Z) (src : source_t) (r : status_t * resolution) : Prop :=
  r.1 = MEM_OK /\ budget_bytes r.2 = budget /\ mode r.2 = ENFORCING /\ source r.2 = src /\
  usable_bytes r.2 + headroom_bytes r.2 = budget /\
  0 <= headroom_bytes r.2 <= HEADROOM_CAP /\ 20 * headroom_bytes r.2 <= budget.

Lemma set_resolution_enforced b src : 0 <= b -> enforced b src (MEM_OK, set_resolution b ENFORCING src).
Proof. intros Hb. pose proof (headroom_bounds b Hb). unfold enforced, set_resolution. cbn -[headroom_for]. split_and!; try done; lia. Qed.

(** [wl_columnar_memory_resolve]. An environment value made of digits is
    read as the number it denotes: beyond 64 bits it is an overflow, below
    256 MiB invalid, and otherwise the budget. Without an environment value
    the budget is the least finite limit among the sources (advisory and
    unbounded when there is none, invalid below 256 MiB), from the source it
    names. An enforced budget is split into usable bytes and a headroom of at
    most a twentieth of it and at most 256 MiB. *)
Theorem resolve_exact (text : list Z) (s : sources) (probed : option sources) :
  Forall (fun c => 48 <= c <= 57) text -> text <> [] -> valid_sources s ->
  (let r := resolve (Some text) (Some s) probed in
   let v := denotes text 0 in
   if UINT64_MAX <? v then r = (MEM_OVERFLOW, zeroed MEM_OVERFLOW)
   else if v <? MIN_BUDGET then r = (MEM_INVALID, zeroed MEM_INVALID)
   else enforced v SRC_ENV r) /\
  (let r := resolve None (Some s) probed in
   (forall src l, ~ yields (candidates s) src l) /\
     r = (MEM_OK, Resolution 0 0 UINT64_MAX ADVISORY SRC_NONE MEM_OK) \/
   exists src l, yields (candidates s) src l /\ (forall src' l', yields (candidates s) src' l' -> l <= l') /\
     if l <? MIN_BUDGET then r = (MEM_INVALID, zeroed MEM_INVALID) else enforced l src r).
Proof.
  intros Ht Hne Hs. split; cbv zeta.
  - unfold resolve, parse_decimal_bytes. destruct text as [|c text]; [done|].
    pose proof (denotes_ge _ 0 Ht ltac:(lia)). rewrite parse_loop_exact by (done || mi).
    rewrite Z.leb_antisym. destruct (UINT64_MAX <? denotes (c :: text) 0); cbn [negb]; [done|].
    destruct (denotes (c :: text) 0 <? MIN_BUDGET); [done|]. by apply set_resolution_enforced.
  - assert (Hcs : Forall (fun c => c.1 <> SRC_NONE /\ match c.2 with Some l => is_uint64 l | None => True end) (candidates s)).
    { unfold valid_sources in Hs. rewrite Forall_forall in Hs |- *. intros c Hc. split; [|by apply Hs].
      unfold candidates in Hc. rewrite !elem_of_cons in Hc.
      destruct Hc as [->|[->|[->|[->|Hc]]]]; try done. by apply not_elem_of_nil in Hc. }
    pose proof (consider_all _ Hcs) as Hall. unfold resolve. unfold candidates in Hall at 1. cbn [foldl fst snd] in Hall.
    destruct (consider SRC_WINDOWS_JOB _ _) as [best src]. cbn [fst snd] in Hall.
    destruct Hall as [[[[= -> ->] Hn]|(Hy & Hsrc & Hlt)] Hmin].
    + left. split; [done|]. by rewrite bool_decide_true.
    + right. exists src, best. split_and!; [done|done|]. rewrite bool_decide_false by done.
      destruct (best <? MIN_BUDGET); [done|]. apply set_resolution_enforced.
      destruct Hy as [Hin _]. rewrite Forall_forall in Hcs. specialize (Hcs _ Hin). cbn in Hcs. mi.
Qed.

Lemma resolve_exact_witness :
  let s := Sources (Some 8589934592) (Some (2 ^ 63)) None (Some UINT64_MAX) in
  (* "536870912" *)
  enforced 536870912 SRC_ENV (resolve (Some [53; 51; 54; 56; 55; 48; 57; 49; 50]) (Some s) None) /\
  enforced 8589934592 SRC_CGROUP_V2 (resolve None (Some s) None).
Proof.
  set (s := Sources (Some 8589934592) (Some (2 ^ 63)) None (Some UINT64_MAX)). cbv zeta.
  destruct (resolve_exact [53; 51; 54; 56; 55; 48; 57; 49; 50] s None) as [H1 [[Hn _]|(src & l & Hy & Hmin & H2)]].
  - repeat constructor; lia.
  - done.
  - unfold valid_sources, candidates, s. repeat apply Forall_cons_2; try apply Forall_nil_2; cbn; exact I || mi.
  - exfalso. apply (Hn SRC_CGROUP_V2 8589934592). split; [left|vm_compute; reflexivity].
  - split; [exact H1|]. vm_compute. split_and!; reflexivity || discriminate.
Defined.

End Budget.

(** ** Reservations *)

Module Reserve.

(** wl_columnar_memory_reservation_state_t *)
Inductive rstate := EMPTY | RESERVED | COMMITTED | RELEASED | CLAIMED | COMMITTING | TRANSFERRING.
#[export] Instance rstate_eq : EqDecision rstate.
Proof. solve_decision. Defined.

Inductive admission := ADM_OK | ADM_ADVISORY | ADM_INVALID | ADM_OVERFLOW | ADM_DENIED.

(** wl_columnar_memory_governor_t; only reserved_bytes changes after the
    initialisation. *)
Record governor_t := Governor {
  usable_bytes : Z; reserved_bytes : Z; budget_bytes : Z; headroom_bytes : Z;
  gmode : Budget.mode_t; gsource : Budget.source_t }.

(** wl_columnar_memory_reservation_t; pointers are positions in the arrays of
    the machine. *)
Record token := Token { governor : option nat; bytes : Z; owner_bits : Z; state : rstate; identity : nat }.

Record machine := Machine { governors : list governor_t; tokens : list token }.

Definition set_state (s : rstate) (k : token) : token := Token (governor k) (bytes k) (owner_bits k) s (identity k).
Definition set_owner (o : Z) (k : token) : token := Token (governor k) (bytes k) o (state k) (identity k).
Definition set_bytes (b : Z) (k : token) : token := Token (governor k) b (owner_bits k) (state k) (identity k).
Definition set_governor (g : option nat) (k : token) : token := Token g (bytes k) (owner_bits k) (state k) (identity k).
Definition set_reserved (r : Z) (g : governor_t) : governor_t := 
  Governor (usable_bytes g) r (budget_bytes g) (headroom_bytes g) (gmode g) (gsource g).

(** [None] is the NULL resolution; the governor is written on success only. *)
Definition governor_init (res : option Budget.resolution) : Budget.status_t * option governor_t :=
  match res with
  | Some r =>
      match Budget.status r with
      | Budget.MEM_OK =>
          (Budget.MEM_OK, Some (Governor (Budget.usable_bytes r) 0 (Budget.budget_bytes r) (Budget.headroom_bytes r)
                                  (Budget.mode r) (Budget.source r)))
      | _ => (Budget.MEM_INVALID, None)
      end
  | None => (Budget.MEM_INVALID, None)
  end.

Definition reservation_init (self : nat) : token := Token None 0 0 EMPTY self.

Definition reservation_identity_valid (m : machine) (t : option nat) : option bool :=
  match t with
  | None => Some false
  | Some i => k ← rd (tokens m) i; Some (bool_decide (identity k = i))
  end.

(** *** Calls as threads

    A thread is at the next atomic access it makes. The names say the
    function: R reserve_internal, G reserve_growth, C commit, T transfer,
    F finish_reservation (its [retry] is release's second attempt). *)
Inductive result := Status (a : admission) | Flag (b : bool).

Inductive thread :=
  | Done (r : result)
  | G_load (g : nat) (old_bytes new_bytes : Z) (t : nat)
  | R_claim (g : nat) (b : Z) (t : nat) (from : rstate)
  | R_governor (g : nat) (b : Z) (t : nat)
  | R_bytes (g : nat) (b : Z) (t : nat)
  | R_owner (g : nat) (b : Z) (t : nat)
  | R_load (g : nat) (b : Z) (t : nat)
  | R_try (g : nat) (b : Z) (t : nat) (old : Z)
  | R_drop (t : nat) (verdict : admission)
  | R_publish (g : nat) (b : Z) (t : nat)
  | C_claim (t : nat) (o : Z)
  | C_owner (t : nat) (o : Z)
  | C_publish (t : nat)
  | T_load (t : nat) (o : Z)
  | T_claim (t : nat) (o : Z) (s : rstate)
  | T_owner (t : nat) (o : Z) (s : rstate)
  | T_publish (t : nat) (s : rstate)
  | F_governor (t : nat) (rollback retry : bool)
  | F_bytes (t : nat) (g : nat) (rollback retry : bool)
  | F_load (t : nat) (g : nat) (b : Z) (retry : bool)
  | F_move (t : nat) (g : nat) (b : Z) (from : rstate) (retry : bool)
  | F_old (g : nat) (b : Z) (t : nat) (retry : bool)
  | F_try (g : nat) (b : Z) (old : Z) (t : nat) (retry : bool).

Inductive call :=
  | Reserve (g : option nat) (b : Z) (t : option nat)
  | ReserveGrowth (g : option nat) (old_bytes new_bytes : Z) (t : option nat)
  | Commit (t : option nat) (o : Z)
  | Transfer (t : option nat) (o : Z)
  | Rollback (t : option nat)
  | Release (t : option nat).

(** reserve_internal's entry, which reserve and reserve_checked share. *)
Definition enter_reserve (m : machine) (g : option nat) (b : Z) (t : option nat) : option thread :=
  ok ← reservation_identity_valid m t;
  match g, t with
  | Some g, Some t => if ok : bool then if b =? 0 then Some (Done (Status ADM_INVALID)) else Some (R_claim g b t EMPTY)
                      else Some (Done (Status ADM_INVALID))
  | _, _ => Some (Done (Status ADM_INVALID))
  end.

Definition enter_finish (m : machine) (t : option nat) (rollback retry : bool) : option thread :=
  ok ← reservation_identity_valid m t;
  match t with
  | Some t => Some (if ok : bool then F_governor t rollback retry else Done (Flag false))
  | None => Some (Done (Flag false))
  end.

Definition enter (m : machine) (c : call) : option thread :=
  match c with
  | Reserve g b t => enter_reserve m g b t
  | ReserveGrowth g old new t =>
      ok ← reservation_identity_valid m t;
      match g, t with
      | Some g, Some t => Some (if (ok : bool) && (old <=? new) then G_load g old new t else Done (Status ADM_INVALID))
      | _, _ => Some (Done (Status ADM_INVALID))
      end
  | Commit t o =>
      ok ← reservation_identity_valid m t;
      match t with Some t => Some (if ok : bool then C_claim t o else Done (Flag false)) | None => Some (Done (Flag false)) end
  | Transfer t o =>
      ok ← reservation_identity_valid m t;
      match t with Some t => Some (if ok : bool then T_load t o else Done (Flag false)) | None => Some (Done (Flag false)) end
  | Rollback t => enter_finish m t true false
  | Release t => enter_finish m t false true
  end.

(** A failing finish_reservation: release tries once more, as a rollback. *)
Definition finish_fail (t : nat) (retry : bool) : thread :=
  if retry then F_governor t true false else Done (Flag false).

(** Reading and writing through pointers. *)
Definition get_token (m : machine) (t : nat) : option token := rd (tokens m) t.
Definition put_token (m : machine) (t : nat) (k : token) : option machine :=
  ts ← wr (tokens m) t k; Some (Machine (governors m) ts).
Definition get_governor (m : machine) (g : nat) : option governor_t := rd (governors m) g.
Definition put_governor (m : machine) (g : nat) (x : governor_t) : option machine :=
  gs ← wr (governors m) g x; Some (Machine gs (tokens m)).

(** transition_reservation and claim_reservation_state have the same body: a
    weak compare-and-swap that is repeated when it fails spuriously. *)
Definition cas_state (m : machine) (spurious : bool) (t : nat) (from to : rstate) (again yes no : thread) :
    option (machine * thread) :=
  k ← get_token m t;
  if bool_decide (state k = from) then
    if spurious then Some (m, again) else m' ← put_token m t (set_state to k); Some (m', yes)
  else Some (m, no).

(** One atomic access of a thread; [spurious] is the failure that a weak
    compare-and-swap may report. *)

(** reserve_internal *)
Definition step_reserve (m : machine) (spurious : bool) (p : thread) : option (machine * thread) :=
  match p with
  | R_claim g b t from =>
      cas_state m spurious t from CLAIMED (R_claim g b t from) (R_governor g b t)
        (if bool_decide (from = EMPTY) then R_claim g b t RELEASED else Done (Status ADM_INVALID))
  | R_governor g b t => k ← get_token m t; m' ← put_token m t (set_governor (Some g) k); Some (m', R_bytes g b t)
  | R_bytes g b t => k ← get_token m t; m' ← put_token m t (set_bytes b k); Some (m', R_owner g b t)
  | R_owner g b t => k ← get_token m t; m' ← put_token m t (set_owner 0 k); Some (m', R_load g b t)
  | R_load g b t => x ← get_governor m g; Some (m, R_try g b t (reserved_bytes x))
  | R_try g b t old =>
      x ← get_governor m g;
      let swapped := negb spurious && (reserved_bytes x =? old) in
      if UINT64_MAX - old <? b then
        if swapped then Some (m, R_drop t ADM_OVERFLOW) else Some (m, R_try g b t (reserved_bytes x))
      else
        let next := u64 (old + b) in
        if usable_bytes x <? next then Some (m, R_drop t ADM_DENIED)
        else if swapped then m' ← put_governor m g (set_reserved next x); Some (m', R_publish g b t)
        else Some (m, R_try g b t (reserved_bytes x))
  | R_drop t verdict => k ← get_token m t; m' ← put_token m t (set_state RELEASED k); Some (m', Done (Status verdict))
  | R_publish g b t =>
      k ← get_token m t; x ← get_governor m g; m' ← put_token m t (set_state RESERVED k);
      Some (m', Done (Status (match gmode x with Budget.ADVISORY => ADM_ADVISORY | Budget.ENFORCING => ADM_OK end)))
  | _ => None
  end.

(** wl_columnar_memory_reserve_growth, which goes on as reserve_checked. *)
Definition step_growth (m : machine) (spurious : bool) (p : thread) : option (machine * thread) :=
  match p with
  | G_load g old new t =>
      k ← get_token m t;
      let invalid := Done (Status ADM_INVALID) in
      if old =? new then
        if bool_decide (state k = RESERVED) || bool_decide (state k = COMMITTED) then Some (m, invalid)
        else if negb (bool_decide (state k = EMPTY)) && negb (bool_decide (state k = RELEASED)) then Some (m, invalid)
        else p' ← enter_reserve m (Some g) new (Some t); Some (m, p')
      else if bool_decide (state k = RESERVED) || bool_decide (state k = COMMITTED) then Some (m, invalid)
      else p' ← enter_reserve m (Some g) new (Some t); Some (m, p')
  | _ => None
  end.

(** wl_columnar_memory_commit *)
Definition step_commit (m : machine) (spurious : bool) (p : thread) : option (machine * thread) :=
  match p with
  | C_claim t o => cas_state m spurious t RESERVED COMMITTING (C_claim t o) (C_owner t o) (Done (Flag false))
  | C_owner t o => k ← get_token m t; m' ← put_token m t (set_owner o k); Some (m', C_publish t)
  | C_publish t => k ← get_token m t; m' ← put_token m t (set_state COMMITTED k); Some (m', Done (Flag true))
  | _ => None
  end.

(** wl_columnar_memory_transfer *)
Definition step_transfer (m : machine) (spurious : bool) (p : thread) : option (machine * thread) :=
  match p with
  | T_load t o =>
      k ← get_token m t;
      if negb (bool_decide (state k = RESERVED)) && negb (bool_decide (state k = COMMITTED)) then Some (m, Done (Flag false))
      else Some (m, T_claim t o (state k))
  | T_claim t o s => cas_state m spurious t s TRANSFERRING (T_claim t o s) (T_owner t o s) (Done (Flag false))
  | T_owner t o s => k ← get_token m t; m' ← put_token m t (set_owner o k); Some (m', T_publish t s)
  | T_publish t s => k ← get_token m t; m' ← put_token m t (set_state s k); Some (m', Done (Flag true))
  | _ => None
  end.

(** finish_reservation *)
Definition step_finish (m : machine) (spurious : bool) (p : thread) : option (machine * thread) :=
  match p with
  | F_governor t rollback retry =>
      k ← get_token m t;
      match governor k with
      | None => Some (m, finish_fail t retry)
      | Some g => Some (m, F_bytes t g rollback retry)
      end
  | F_bytes t g rollback retry =>
      k ← get_token m t;
      if bytes k =? 0 then Some (m, finish_fail t retry)
      else Some (m, if rollback : bool then F_move t g (bytes k) RESERVED retry else F_load t g (bytes k) retry)
  | F_load t g b retry =>
      k ← get_token m t;
      if negb (bool_decide (state k = RESERVED)) && negb (bool_decide (state k = COMMITTED)) then Some (m, finish_fail t retry)
      else Some (m, F_move t g b (state k) retry)
  | F_move t g b from retry =>
      cas_state m spurious t from RELEASED (F_move t g b from retry) (F_old g b t retry) (finish_fail t retry)
  | F_old g b t retry => x ← get_governor m g; Some (m, F_try g b (reserved_bytes x) t retry)
  | F_try g b old t retry =>
      x ← get_governor m g;
      if old <? b then Some (m, finish_fail t retry)
      else if negb spurious && (reserved_bytes x =? old) then
        m' ← put_governor m g (set_reserved (u64 (old - b)) x); Some (m', Done (Flag true))
      else Some (m, F_try g b (reserved_bytes x) t retry)
  | _ => None
  end.

Definition step (m : machine) (spurious : bool) (p : thread) : option (machine * thread) :=
  match p with
  | Done _ => None
  | G_load _ _ _ _ => step_growth m spurious p
  | R_claim _ _ _ _ | R_governor _ _ _ | R_bytes _ _ _ | R_owner _ _ _ | R_load _ _ _ | R_try _ _ _ _ | R_drop _ _
  | R_publish _ _ _ => step_reserve m spurious p
  | C_claim _ _ | C_owner _ _ | C_publish _ => step_commit m spurious p
  | T_load _ _ | T_claim _ _ _ | T_owner _ _ _ | T_publish _ _ => step_transfer m spurious p
  | F_governor _ _ _ | F_bytes _ _ _ _ | F_load _ _ _ _ | F_move _ _ _ _ _ | F_old _ _ _ _ | F_try _ _ _ _ _ =>
      step_finish m spurious p
  end.

(** wl_columnar_memory_reservation_move; it uses no compare-and-swap. *)
Definition reservation_move (m : machine) (dst src : option nat) : option (machine * bool) :=
  match dst, src with
  | Some d, Some s =>
      if bool_decide (d = s) then Some (m, false)
      else
        okd ← reservation_identity_valid m dst; oks ← reservation_identity_valid m src;
        if negb (okd && oks) then Some (m, false)
        else
          kd ← get_token m d; ks ← get_token m s;
          if negb (bool_decide (state kd = EMPTY)) && negb (bool_decide (state kd = RELEASED)) then Some (m, false)
          else if negb (bool_decide (state ks = RESERVED)) && negb (bool_decide (state ks = COMMITTED)) then Some (m, false)
          else
            m1 ← put_token m d (Token (governor ks) (bytes ks) (owner_bits ks) (state ks) d);
            m2 ← put_token m1 s (Token None 0 0 EMPTY s);
            Some (m2, true)
  | _, _ => Some (m, false)
  end.

Definition size_add (left right : Z) : option Z := if UINT64_MAX - right <? left then None else Some (u64 (left + right)).
Definition size_mul (left right : Z) : option Z :=
  if negb (left =? 0) && (UINT64_MAX / left <? right) then None else Some (u64 (left * right)).

(** The bool that wl_columnar_memory_reserve makes of the status. *)
Definition reserve_ok (a : admission) : bool := match a with ADM_OK | ADM_ADVISORY => true | _ => false end.

Definition reserved (m : machine) (g : option nat) : option Z :=
  match g with None => Some 0 | Some g => x ← get_governor m g; Some (reserved_bytes x) end.

(** *** Interleavings *)

Record config := Config { mach : machine; threads : list thread }.

(** The token whose transient state the thread holds. *)
Definition locks (p : thread) : option nat :=
  match p with
  | R_governor _ _ t | R_bytes _ _ t | R_owner _ _ t | R_load _ _ t | R_try _ _ t _ | R_drop t _ | R_publish _ _ t
  | C_owner t _ | C_publish t | T_owner t _ _ | T_publish t _ => Some t
  | _ => None
  end.

(** The token that a thread is reserving, and the one it is about to finish. *)
Definition reserving (p : thread) : option nat :=
  match p with
  | G_load _ _ _ t | R_claim _ _ t _ | R_governor _ _ t | R_bytes _ _ t | R_owner _ _ t | R_load _ _ t | R_try _ _ t _
  | R_drop t _ | R_publish _ _ t => Some t
  | _ => None
  end.
Definition finishing (p : thread) : option nat :=
  match p with
  | F_governor t _ _ | F_bytes t _ _ _ | F_load t _ _ _ | F_move t _ _ _ _ => Some t
  | _ => None
  end.

Definition uses (p : thread) : option nat :=
  match p with
  | C_claim t _ | T_load t _ | T_claim t _ _ | C_owner t _ | C_publish t | T_owner t _ _ | T_publish t _ => Some t
  | _ => match reserving p with Some t => Some t | None => finishing p end
  end.

(** reserve writes the token's plain fields, rollback and release read them:
    the caller keeps the two apart. *)
Definition allowed (ths : list thread) (c : call) : Prop :=
  match c with
  | Reserve _ _ (Some t) | ReserveGrowth _ _ _ (Some t) => Forall (fun p => finishing p <> Some t) ths
  | Rollback (Some t) | Release (Some t) => Forall (fun p => reserving p <> Some t) ths
  | _ => True
  end.

(** Arguments: sizes fit 64 bits and pointers point at live objects. *)
Definition valid_ptr (n : nat) (q : option nat) : Prop := match q with Some i => (i < n)%nat | None => True end.
Definition valid_call (m : machine) (c : call) : Prop :=
  match c with
  | Reserve g b t => is_uint64 b /\ valid_ptr (length (governors m)) g /\ valid_ptr (length (tokens m)) t
  | ReserveGrowth g old new t =>
      is_uint64 old /\ is_uint64 new /\ valid_ptr (length (governors m)) g /\ valid_ptr (length (tokens m)) t
  | Commit t _ | Transfer t _ | Rollback t | Release t => valid_ptr (length (tokens m)) t
  end.

Definition held (s : rstate) : bool :=
  match s with RESERVED | COMMITTED | COMMITTING | TRANSFERRING => true | _ => false end.
(** Token [t] accounts for its bytes; a copy, whose identity is another
    address, does not. *)
Definition charged (t : nat) (k : token) : bool := bool_decide (identity k = t) && held (state k).

(** Nobody works on the token. *)
Definition unused (ths : list thread) (t : nat) : Prop := Forall (fun p => uses p <> Some t) ths.

Inductive reach : config -> Prop :=
  | reach_start gs nt nth :
      Forall (fun x => exists r, governor_init (Some r) = (Budget.MEM_OK, Some x) /\ is_uint64 (Budget.usable_bytes r)) gs ->
      reach (Config (Machine gs (imap (fun t _ => reservation_init t) (replicate nt tt)))
               (replicate nth (Done (Flag false))))
  | reach_call c i r cl p :
      reach c -> threads c !! i = Some (Done r) -> valid_call (mach c) cl -> allowed (threads c) cl ->
      enter (mach c) cl = Some p -> reach (Config (mach c) (<[i := p]> (threads c)))
  | reach_step c i p spurious m' p' :
      reach c -> threads c !! i = Some p -> step (mach c) spurious p = Some (m', p') ->
      reach (Config m' (<[i := p']> (threads c)))
  | reach_move c d s m' b :
      reach c -> unused (threads c) d -> unused (threads c) s ->
      reservation_move (mach c) (Some d) (Some s) = Some (m', b) -> reach (Config m' (threads c))
  | reach_init c t k m' :
      reach c -> unused (threads c) t -> get_token (mach c) t = Some k -> charged t k = false ->
      put_token (mach c) t (reservation_init t) = Some m' -> reach (Config m' (threads c))
  | reach_copy c d s kd ks m' :  (* *d = *s *)
      reach c -> unused (threads c) d -> get_token (mach c) d = Some kd -> charged d kd = false ->
      get_token (mach c) s = Some ks -> identity ks <> d ->
      put_token (mach c) d ks = Some m' -> reach (Config m' (threads c)).

(** *** Accounting *)

Fixpoint isum {A} (f : nat -> A -> Z) (k : nat) (l : list A) : Z :=
  match l with [] => 0 | x :: l => f k x + isum f (S k) l end.

Definition charge (g t : nat) (k : token) : Z :=
  if charged t k && bool_decide (governor k = Some g) then bytes k else 0.
(** Bytes that are in reserved_bytes but that no token shows: between the
    exchange on the total and the store of the state, or after the state
    changed and before the total does. *)
Definition owes (g : nat) (p : thread) : Z :=
  match p with
  | R_publish g' b _ | F_old g' b _ _ | F_try g' b _ _ _ => if bool_decide (g' = g) then b else 0
  | _ => 0
  end.

Definition accounted (c : config) (g : nat) : Z :=
  isum (charge g) 0 (tokens (mach c)) + isum (fun _ => owes g) 0 (threads c).

Lemma isum_insert {A} (f : nat -> A -> Z) l x y : forall k i, l !! i = Some x ->
  isum f k (<[i := y]> l) = isum f k l - f (k + i)%nat x + f (k + i)%nat y.
Proof.
  induction l as [|z l IH]; intros k i Hi; [done|]. destruct i as [|i].
  - injection Hi as ->. change (<[0%nat := y]> (x :: l)) with (y :: l). cbn [isum]. rewrite Nat.add_0_r. lia.
  - change (<[S i := y]> (z :: l)) with (z :: <[i := y]> l). cbn [isum]. rewrite (IH (S k) i Hi).
    rewrite Nat.add_succ_r. cbn [Nat.add]. lia.
Qed.

Lemma isum_nonneg {A} (f : nat -> A -> Z) l : forall k, (forall i x, l !! i = Some x -> 0 <= f (k + i)%nat x) -> 0 <= isum f k l.
Proof.
  induction l as [|z l IH]; intros k H; cbn [isum]; [lia|]. pose proof (H 0%nat z eq_refl) as H0. rewrite Nat.add_0_r in H0.
  enough (0 <= isum f (S k) l) by lia. apply IH. intros i x Hi. specialize (H (S i) x Hi).
  by rewrite Nat.add_succ_r in H.
Qed.

Lemma isum_zero {A} (f : nat -> A -> Z) l : forall k, (forall i x, l !! i = Some x -> f (k + i)%nat x = 0) -> isum f k l = 0.
Proof.
  induction l as [|z l IH]; intros k H; cbn [isum]; [done|]. pose proof (H 0%nat z eq_refl) as H0. rewrite Nat.add_0_r in H0.
  rewrite H0, IH; [done|]. intros i x Hi. specialize (H (S i) x Hi). by rewrite Nat.add_succ_r in H.
Qed.

Lemma isum_ge {A} (f : nat -> A -> Z) l x : forall k i, (forall i x, l !! i = Some x -> 0 <= f (k + i)%nat x) ->
  l !! i = Some x -> f (k + i)%nat x <= isum f k l.
Proof.
  induction l as [|z l IH]; intros k i H Hi; [done|]. cbn [isum].
  assert (Htl : forall i x, l !! i = Some x -> 0 <= f (S k + i)%nat x).
  { intros j y Hj. specialize (H (S j) y Hj). by rewrite Nat.add_succ_r in H. }
  destruct i as [|i].
  - injection Hi as ->. rewrite Nat.add_0_r. pose proof (isum_nonneg f l (S k) Htl). lia.
  - specialize (IH (S k) i Htl Hi). rewrite Nat.add_succ_r. specialize (H 0%nat z eq_refl). rewrite Nat.add_0_r in H. cbn in IH. lia.
Qed.

End Reserve.
