(* ===== verification/GovernorProof.v ===== *)
(** * The memory governor under interleavings

    An invariant of [Reserve.reach]: every governor's total is the sum of what
    the tokens charged to it show and of what the threads between two atomic
    accesses owe it, and never exceeds the usable bytes. *)
From S2P Require Import Prelude Governor.

Module GovernorProof.
Import Reserve.

(** ** What a thread knows of its token *)

Definition needs (p : thread) (k : token) : Prop :=
  match p with
  | G_load _ _ _ t | R_claim _ _ t _ | C_claim t _ | T_load t _ | T_claim t _ _ | F_governor t _ _ => identity k = t
  | R_governor _ _ t | R_drop t _ => identity k = t /\ state k = CLAIMED
  | R_bytes g _ t => identity k = t /\ state k = CLAIMED /\ governor k = Some g
  | R_owner g b t | R_load g b t | R_try g b t _ | R_publish g b t =>
      identity k = t /\ state k = CLAIMED /\ governor k = Some g /\ bytes k = b
  | C_owner t _ | C_publish t => identity k = t /\ state k = COMMITTING
  | T_owner t _ _ | T_publish t _ => identity k = t /\ state k = TRANSFERRING
  | F_bytes t g _ _ => identity k = t /\ governor k = Some g
  | F_load t g b _ | F_move t g b _ _ => identity k = t /\ governor k = Some g /\ bytes k = b
  | Done _ | F_old _ _ _ _ | F_try _ _ _ _ _ => True
  end.

Definition live (s : rstate) : Prop := s = RESERVED \/ s = COMMITTED.

(** What a thread knows of its own values; [ng] governors exist. *)
Definition values (ng : nat) (p : thread) : Prop :=
  let size b := 0 < b <= UINT64_MAX in
  match p with
  | G_load g old new _ => (g < ng)%nat /\ is_uint64 old /\ is_uint64 new
  | R_claim g b _ from => (g < ng)%nat /\ size b /\ (from = EMPTY \/ from = RELEASED)
  | R_governor g b _ | R_bytes g b _ | R_owner g b _ | R_load g b _ | R_publish g b _ => (g < ng)%nat /\ size b
  | R_try g b _ old => (g < ng)%nat /\ size b /\ is_uint64 old
  | T_claim _ _ s | T_owner _ _ s | T_publish _ s => live s
  | F_bytes _ g _ _ => (g < ng)%nat
  | F_load _ g b _ | F_old g b _ _ => (g < ng)%nat /\ size b
  | F_move _ g b from _ => (g < ng)%nat /\ size b /\ live from
  | F_try g b old _ _ => (g < ng)%nat /\ size b /\ b <= old /\ is_uint64 old
  | _ => True
  end.

Definition thread_ok (m : machine) (p : thread) : Prop :=
  values (length (governors m)) p /\
  forall t, uses p = Some t -> exists k, tokens m !! t = Some k /\ needs p k.

Definition token_ok (m : machine) (k : token) : Prop :=
  is_uint64 (bytes k) /\ forall g, governor k = Some g -> (g < length (governors m))%nat.

Record inv (c : config) : Prop := Inv {
  inv_total : forall g x, governors (mach c) !! g = Some x ->
    reserved_bytes x = accounted c g /\ reserved_bytes x <= usable_bytes x <= UINT64_MAX;
  inv_token : forall t k, tokens (mach c) !! t = Some k -> token_ok (mach c) k;
  inv_thread : forall i p, threads c !! i = Some p -> thread_ok (mach c) p;
  inv_lock : forall i j p q t, i <> j -> threads c !! i = Some p -> threads c !! j = Some q ->
    locks p = Some t -> locks q <> Some t;
  inv_apart : forall i j p q t, threads c !! i = Some p -> threads c !! j = Some q ->
    reserving p = Some t -> finishing q <> Some t }.

(** ** Charges *)

Lemma charge_nonneg m g t k : token_ok m k -> 0 <= charge g t k.
Proof. intros [Hb _]. unfold charge. case_match; mi. Qed.

Lemma owes_nonneg m g p : thread_ok m p -> 0 <= owes g p.
Proof. intros [Hv _]. destruct p; cbn in *; try lia; case_bool_decide; lia. Qed.

Lemma total_bounds c g x : inv c -> governors (mach c) !! g = Some x -> is_uint64 (reserved_bytes x) /\
  forall i p, threads c !! i = Some p -> owes g p <= reserved_bytes x.
Proof.
  intros Hi Hx. destruct (inv_total c Hi g x Hx) as [Ht Hu]. unfold accounted in Ht.
  assert (H1 : 0 <= isum (charge g) 0 (tokens (mach c))).
  { apply isum_nonneg. intros t k Hk. eapply charge_nonneg, (inv_token c Hi), Hk. }
  assert (Hn : forall i p, threads c !! i = Some p -> 0 <= owes g p).
  { intros i p Hp. eapply owes_nonneg, (inv_thread c Hi), Hp. }
  assert (H2 : 0 <= isum (fun _ => owes g) 0 (threads c)) by (apply isum_nonneg; intros i p; apply Hn).
  split; [mi|]. intros i p Hp. pose proof (isum_ge (fun _ => owes g) (threads c) p 0 i Hn Hp) as Hge.
  cbn beta in Hge. lia.
Qed.

(** ** The three kinds of step *)

Section Steps.
Variables (c : config) (i : nat) (p p' : thread).
Hypothesis Hinv : inv c.
Hypothesis Hp : threads c !! i = Some p.

#[local] Abbreviation m := (mach c).

(** The thread's claims on tokens do not grow, or nobody else has them. *)
Definition lock_free (t : nat) : Prop := forall j q, j <> i -> threads c !! j = Some q -> locks q <> Some t.
Hypothesis Hlock : forall t, locks p' = Some t -> locks p = Some t \/ lock_free t.
Hypothesis Hreserving : forall t, reserving p' = Some t -> reserving p = Some t \/
  (forall j q, threads c !! j = Some q -> finishing q <> Some t) /\ finishing p' <> Some t.
Hypothesis Hfinishing : forall t, finishing p' = Some t -> finishing p = Some t \/
  (forall j q, threads c !! j = Some q -> reserving q <> Some t) /\ reserving p' <> Some t.

Lemma lookup_after j q : <[i := p']> (threads c) !! j = Some q -> j = i /\ q = p' \/ j <> i /\ threads c !! j = Some q.
Proof. intros [(-> & -> & _)|[? ?]]%list_lookup_insert_Some; [by left|right; done]. Qed.

Lemma locks_after : forall k j a b t, k <> j -> <[i := p']> (threads c) !! k = Some a ->
  <[i := p']> (threads c) !! j = Some b -> locks a = Some t -> locks b <> Some t.
Proof.
  intros k j a b t Hkj [[-> ->]|[Hk Ha]]%lookup_after [[-> ->]|[Hj Hb]]%lookup_after Hla; try done.
  - destruct (Hlock t Hla) as [Hl|Hl]; [by apply (inv_lock c Hinv i j p b t)|by apply (Hl j)].
  - intros Hlb. destruct (Hlock t Hlb) as [Hl|Hl].
    + by apply (inv_lock c Hinv k i a p t Hk Ha Hp Hla).
    + by apply (Hl k a Hk Ha).
  - by apply (inv_lock c Hinv k j a b t).
Qed.

Lemma apart_after : forall k j a b t, <[i := p']> (threads c) !! k = Some a ->
  <[i := p']> (threads c) !! j = Some b -> reserving a = Some t -> finishing b <> Some t.
Proof.
  intros k j a b t [[-> ->]|[Hk Ha]]%lookup_after [[-> ->]|[Hj Hb]]%lookup_after Hra Hfb.
  - by destruct p'.
  - destruct (Hreserving t Hra) as [Hr|[Hr _]]; [by apply (inv_apart c Hinv i j p b t)|by apply (Hr j b)].
  - destruct (Hfinishing t Hfb) as [Hf|[Hf _]]; [by apply (inv_apart c Hinv k i a p t)|by apply (Hf k a)].
  - by apply (inv_apart c Hinv k j a b t).
Qed.

Lemma threads_sum g : isum (fun _ => owes g) 0 (<[i := p']> (threads c)) =
  isum (fun _ => owes g) 0 (threads c) - owes g p + owes g p'.
Proof. exact (isum_insert (fun _ => owes g) (threads c) p p' 0 i Hp). Qed.

(** No memory changes. *)
Lemma step_local : thread_ok m p' -> (forall g, owes g p' = owes g p) -> inv (Config m (<[i := p']> (threads c))).
Proof.
  intros Hok Ho. split; cbn [mach threads].
  - intros g x Hx. destruct (inv_total c Hinv g x Hx) as [Ht Hu]. split; [|done].
    unfold accounted in *. cbn [mach threads]. rewrite threads_sum, Ho. lia.
  - apply (inv_token c Hinv).
  - intros j q [[-> ->]|[Hj Hq]]%lookup_after; [done|]. by apply (inv_thread c Hinv j).
  - exact locks_after.
  - exact apart_after.
Qed.

(** A token changes; its charge may move between it and the thread. *)
Lemma step_token t k k' : tokens m !! t = Some k ->
  token_ok m k' ->
  (forall g, charge g t k' + owes g p' = charge g t k + owes g p) ->
  values (length (governors m)) p' -> (forall u, uses p' = Some u -> u = t /\ needs p' k') ->
  (forall j q, j <> i -> threads c !! j = Some q -> uses q = Some t -> needs q k -> needs q k') ->
  inv (Config (Machine (governors m) (<[t := k']> (tokens m))) (<[i := p']> (threads c))).
Proof.
  intros Hk Hk' Hcharge Hv Hn Hframe. pose proof (lookup_lt_Some _ _ _ Hk) as Hlt. split; cbn [mach threads].
  - intros g x Hx. destruct (inv_total c Hinv g x Hx) as [Ht Hu]. split; [|done].
    unfold accounted in *. cbn [mach threads tokens]. rewrite threads_sum.
    rewrite (isum_insert (charge g) (tokens m) k k' 0 t Hk). specialize (Hcharge g). cbn [Nat.add]. lia.
  - intros u ku [(-> & -> & _)|[_ Hu]]%list_lookup_insert_Some; [done|]. by apply (inv_token c Hinv u).
  - intros j q [[-> ->]|[Hj Hq]]%lookup_after.
    + split; [done|]. intros u Hu. destruct (Hn u Hu) as [-> Hneeds]. exists k'. cbn [tokens].
      split; [by apply list_lookup_insert_eq|done].
    + destruct (inv_thread c Hinv j q Hq) as [Hvq Hnq]. split; [done|]. intros u Hu. cbn [tokens].
      destruct (Hnq u Hu) as (ku & Hku & Hneeds). destruct (decide (u = t)) as [->|Hne].
      * exists k'. split; [by apply list_lookup_insert_eq|]. rewrite Hk in Hku. injection Hku as <-. by apply (Hframe j).
      * exists ku. by rewrite list_lookup_insert_ne.
  - exact locks_after.
  - exact apart_after.
Qed.

(** A governor's total changes by what the thread then owes. *)
Lemma step_governor g x r : governors m !! g = Some x ->
  r = reserved_bytes x - owes g p + owes g p' -> r <= usable_bytes x ->
  (forall g', g' <> g -> owes g' p' = owes g' p) -> thread_ok m p' ->
  inv (Config (Machine (<[g := set_reserved r x]> (governors m)) (tokens m)) (<[i := p']> (threads c))).
Proof.
  intros Hx Hr Hle Ho Hok. pose proof (lookup_lt_Some _ _ _ Hx) as Hlt. split; cbn [mach threads].
  - intros g' x' [(-> & <- & _)|[Hne Hx']]%list_lookup_insert_Some; cbn [set_reserved reserved_bytes usable_bytes].
    + destruct (inv_total c Hinv g' x Hx) as [Ht Hu]. unfold accounted in *. cbn [mach threads tokens].
      rewrite threads_sum.
      lia.
    + destruct (inv_total c Hinv g' x' Hx') as [Ht Hu]. split; [|done]. unfold accounted in *. cbn [mach threads tokens].
      rewrite threads_sum, Ho by done. lia.
  - intros t k Hk. destruct (inv_token c Hinv t k Hk) as [Hb Hg]. split; [done|]. cbn [governors].
    by rewrite length_insert.
  - intros j q Hq. assert (Hq' : thread_ok m q).
    { apply lookup_after in Hq as [[-> ->]|[Hj Hq]]; [done|]. by apply (inv_thread c Hinv j). }
    destruct Hq' as [Hv Hn]. split; [|done]. cbn [governors]. by rewrite length_insert.
  - exact locks_after.
  - exact apart_after.
Qed.

End Steps.

(** ** Frames: what other threads know survives *)

Lemma locked_transient q t k : locks q = Some t -> needs q k ->
  state k = CLAIMED \/ state k = COMMITTING \/ state k = TRANSFERRING.
Proof. destruct q; cbn; intros; try done; intuition. Qed.

Lemma needs_state q t k s : uses q = Some t -> locks q <> Some t -> needs q k -> needs q (set_state s k).
Proof. destruct q; cbn; intros Hu Hl Hn; try done; by injection Hu as <-. Qed.

Lemma needs_owner q k o : needs q k -> needs q (set_owner o k).
Proof. by destruct q. Qed.

Lemma needs_fields q t k k' : uses q = Some t -> locks q <> Some t -> finishing q <> Some t ->
  identity k' = identity k -> needs q k -> needs q k'.
Proof. destruct q; cbn; intros Hu Hl Hf Hid Hn; try done; try congruence; injection Hu as <-; congruence. Qed.

(** ** Every atomic access preserves the invariant *)

Ltac subclaim := intros ? E; cbn in E |- *; first [discriminate E | by left].
Ltac token_of Hok k Hk Hn :=
  destruct Hok as [Hv Hn]; destruct (Hn _ eq_refl) as (k & Hk & Hn'); clear Hn; rename Hn' into Hn.

Section Preserve.
Variables (c : config) (i : nat) (p : thread).
Hypothesis Hinv : inv c.
Hypothesis Hp : threads c !! i = Some p.

#[local] Abbreviation m := (mach c).

(** [p'] claims no token that [p] does not claim. *)
Definition follows (p' : thread) : Prop :=
  (forall t, locks p' = Some t -> locks p = Some t) /\
  (forall t, reserving p' = Some t -> reserving p = Some t) /\
  (forall t, finishing p' = Some t -> finishing p = Some t).

Lemma local_inv p' : follows p' -> thread_ok m p' -> (forall g, owes g p' = owes g p) ->
  inv (Config m (<[i := p']> (threads c))).
Proof.
  intros (Hl & Hr & Hf) Hok Ho. apply (step_local c i p p'); try done; intros t Ht; left; auto.
Qed.

(** A store by the thread that holds the token's transient state. *)
Lemma store_inv p' t k k' m' : follows p' -> locks p = Some t -> tokens m !! t = Some k ->
  put_token m t k' = Some m' -> identity k' = identity k ->
  (reserving p = Some t \/ k' = set_state (state k') k \/ k' = set_owner (owner_bits k') k) ->
  token_ok m k' -> (forall g, charge g t k' + owes g p' = charge g t k + owes g p) ->
  values (length (governors m)) p' -> (forall u, uses p' = Some u -> u = t /\ needs p' k') ->
  inv (Config m' (<[i := p']> (threads c))).
Proof.
  intros (Hl & Hr & Hf) Hlock Hk Hput Hid Hkind Hk' Hc Hv Hn. unfold put_token in Hput.
  rewrite wr_lt in Hput by (by eapply lookup_lt_Some). cbn in Hput. injection Hput as <-.
  apply (step_token c i p p') with (k := k); try done; [intros u Hu; left; auto..|].
  intros j q Hj Hq Hu Hnq. pose proof (inv_lock c Hinv i j p q t (not_eq_sym Hj) Hp Hq Hlock) as Hlq.
  destruct Hkind as [Hres|[->| ->]].
  - apply (needs_fields q t k); try done. by apply (inv_apart c Hinv i j p q t).
  - by apply (needs_state q t).
  - by apply needs_owner.
Qed.

Definition steady (s : rstate) : Prop := s <> CLAIMED /\ s <> COMMITTING /\ s <> TRANSFERRING.

(** A compare-and-swap on the state of a token that the thread may not hold. *)
Lemma cas_inv spurious t from to again yes no m' p' : thread_ok m p -> uses p = Some t -> steady from ->
  cas_state m spurious t from to again yes no = Some (m', p') ->
  again = p -> (follows no /\ thread_ok m no /\ forall g, owes g no = owes g p) ->
  (forall u, reserving yes = Some u -> reserving p = Some u) ->
  (forall u, finishing yes = Some u -> finishing p = Some u) ->
  (forall u, locks yes = Some u -> u = t) -> values (length (governors m)) yes ->
  (forall k, state k = from -> needs p k -> forall u, uses yes = Some u -> u = t /\ needs yes (set_state to k)) ->
  (forall k g, state k = from -> needs p k -> charge g t (set_state to k) + owes g yes = charge g t k + owes g p) ->
  inv (Config m' (<[i := p']> (threads c))).
Proof.
  intros [Hv Hn] Hu Hst Hcas -> (Hfn & Hokn & Hon) Hry Hfy Hly Hvy Hny Hcy. destruct (Hn t Hu) as (k & Hk & Hneeds).
  unfold cas_state, get_token, rd in Hcas. rewrite Hk in Hcas. cbn [mbind option_bind] in Hcas.
  case_bool_decide as Hfrom; [destruct spurious|].
  - injection Hcas as <- <-. rewrite list_insert_id by done. destruct c. done.
  - unfold put_token in Hcas. rewrite wr_lt in Hcas by (by eapply lookup_lt_Some). cbn in Hcas. injection Hcas as <- <-.
    assert (Hfree : lock_free c i t).
    { intros j q Hj Hq Hl. destruct (inv_thread c Hinv j q Hq) as [_ Hnq].
      destruct (Hnq t) as (k2 & Hk2 & Hn2); [by destruct q|]. rewrite Hk in Hk2. injection Hk2 as <-.
      destruct Hst as (H1 & H2 & H3). rewrite <- Hfrom in H1, H2, H3.
      by destruct (locked_transient q t k Hl Hn2) as [|[|]]. }
    apply (step_token c i p yes) with (k := k); try done.
    + intros u Hl. right. by rewrite (Hly u Hl).
    + intros u Hr. left. auto.
    + intros u Hf. left. auto.
    + destruct (inv_token c Hinv t k Hk) as [Hb Hg]. done.
    + intros g. by apply (Hcy k g).
    + by apply (Hny k).
    + intros j q Hj Hq Huq. apply needs_state with (t := t); [done|]. by apply (Hfree j).
  - injection Hcas as <- <-. by apply local_inv.
Qed.

End Preserve.

Ltac follow := split; [|split]; intros ? E; cbn in E |- *; congruence.

(** The thread after a failing finish, and after a load. *)
Lemma fail_inv c i p t retry : inv c -> threads c !! i = Some p -> finishing p = Some t ->
  (forall g, owes g p = 0) -> thread_ok (mach c) p -> (forall k, needs p k -> identity k = t) ->
  inv (Config (mach c) (<[i := finish_fail t retry]> (threads c))).
Proof.
  intros Hinv Hp Hf Ho [_ Hn] Hid. apply (local_inv c i p Hinv Hp); destruct retry; cbn [finish_fail];
    try follow; try (intros g; by rewrite Ho).
  - split; [done|]. intros u [= <-]. destruct (Hn t) as (k & Hk & Hnk); [by destruct p|].
    exists k. split; [done|]. by apply Hid.
  - done.
Qed.

Lemma enter_reserve_cases m g b t p : enter_reserve m (Some g) b (Some t) = Some p ->
  (exists a, p = Done a) \/ p = R_claim g b t EMPTY /\ b <> 0 /\ exists k, tokens m !! t = Some k /\ identity k = t.
Proof.
  unfold enter_reserve, reservation_identity_valid, rd. destruct (tokens m !! t) as [k|] eqn:Ek; [|done].
  cbn [mbind option_bind]. case_bool_decide; [|intros [= <-]; by left; eexists].
  destruct (Z.eqb_spec b 0); intros [= <-]; [by left; eexists|]. right. eauto.
Qed.

Lemma claim_inv c i p g b t p' : inv c -> threads c !! i = Some p -> is_uint64 b -> (g < length (governors (mach c)))%nat ->
  reserving p = Some t -> (forall g, owes g p = 0) ->
  enter_reserve (mach c) (Some g) b (Some t) = Some p' -> inv (Config (mach c) (<[i := p']> (threads c))).
Proof.
  intros Hinv Hp Hb Hg Hr Ho [[a ->]|(-> & Hb0 & k & Hk & Hid)]%enter_reserve_cases; 
    (apply (local_inv c i p Hinv Hp); [follow| |intros g'; by rewrite Ho]).
  - done.
  - split; [split; [done|]; split; [mi|by left]|]. intros u [= <-]. exists k. done.
Qed.

(** The steps that load the total or exchange it. *)
Lemma reserve_try_inv c i g b t old spurious m' p' : inv c -> threads c !! i = Some (R_try g b t old) ->
  step (mach c) spurious (R_try g b t old) = Some (m', p') -> inv (Config m' (<[i := p']> (threads c))).
Proof.
  intros Hinv Hp Hs. pose proof (inv_thread c Hinv i _ Hp) as [(Hg & Hb & Hold) Hn].
  destruct (Hn t eq_refl) as (k & Hk & Hid & Hst & Hgk & Hbk).
  cbn [step step_reserve step_growth step_commit step_transfer step_finish] in Hs. unfold get_governor, rd in Hs.
  destruct (governors (mach c) !! g) as [x|] eqn:Hx; [|done]. cbn [mbind option_bind] in Hs. cbv zeta in Hs.
  destruct (total_bounds c g x Hinv Hx) as [Hr _]. destruct (inv_total c Hinv g x Hx) as [_ Hu].
  assert (Hretry : inv (Config (mach c) (<[i := R_try g b t (reserved_bytes x)]> (threads c)))).
  { apply (local_inv c i _ Hinv Hp); [follow| |done]. split; [done|]. intros u [= <-]. by exists k. }
  assert (Hdrop : forall v, inv (Config (mach c) (<[i := R_drop t v]> (threads c)))).
  { intros v. apply (local_inv c i _ Hinv Hp); [follow| |done]. split; [done|]. intros u [= <-]. by exists k. }
  destruct (Z.ltb_spec (UINT64_MAX - old) b).
  - destruct (negb spurious && _); injection Hs as <- <-; auto.
  - rewrite u64_small in Hs by mi. destruct (Z.ltb_spec (usable_bytes x) (old + b)); [injection Hs as <- <-; auto|].
    destruct (negb spurious && _) eqn:Esw; [|injection Hs as <- <-; auto].
    apply andb_true_iff in Esw as [_ Heq%Z.eqb_eq]. unfold put_governor in Hs.
    rewrite wr_lt in Hs by (by eapply lookup_lt_Some). cbn in Hs. injection Hs as <- <-.
    apply (step_governor c i (R_try g b t old)); try done; try subclaim.
    + cbn. rewrite bool_decide_true by done. lia.
    + intros g' Hne. cbn. by rewrite bool_decide_false.
Qed.

Lemma finish_try_inv c i g b old t retry spurious m' p' : inv c -> threads c !! i = Some (F_try g b old t retry) ->
  step (mach c) spurious (F_try g b old t retry) = Some (m', p') -> inv (Config m' (<[i := p']> (threads c))).
Proof.
  intros Hinv Hp Hs. pose proof (inv_thread c Hinv i _ Hp) as [(Hg & Hb & Hle & Hold) _].
  cbn [step step_reserve step_growth step_commit step_transfer step_finish] in Hs. unfold get_governor, rd in Hs.
  destruct (governors (mach c) !! g) as [x|] eqn:Hx; [|done]. cbn [mbind option_bind] in Hs.
  destruct (total_bounds c g x Hinv Hx) as [Hr Howe]. destruct (inv_total c Hinv g x Hx) as [_ Hu].
  specialize (Howe i _ Hp). cbn in Howe. rewrite bool_decide_true in Howe by done.
  rewrite (proj2 (Z.ltb_ge old b)) in Hs by lia. destruct (negb spurious && _) eqn:Esw.
  - apply andb_true_iff in Esw as [_ Heq%Z.eqb_eq]. rewrite u64_small in Hs by mi. unfold put_governor in Hs.
    rewrite wr_lt in Hs by (by eapply lookup_lt_Some). cbn in Hs. injection Hs as <- <-.
    apply (step_governor c i (F_try g b old t retry)); try done; try subclaim.
    + cbn. rewrite bool_decide_true by done. lia.
    + lia.
    + intros g' Hne. cbn. by rewrite bool_decide_false.
  - injection Hs as <- <-. apply (local_inv c i _ Hinv Hp); [follow| |done]. done.
Qed.

Lemma charge_free g t k : held (state k) = false -> charge g t k = 0.
Proof. intros H. unfold charge, charged. by rewrite H, andb_false_r. Qed.

Lemma charge_held g t k : identity k = t -> held (state k) = true ->
  charge g t k = if bool_decide (governor k = Some g) then bytes k else 0.
Proof. intros Hid H. unfold charge, charged. by rewrite H, bool_decide_true. Qed.

Lemma live_held s : live s -> held s = true.
Proof. by intros [-> | ->]. Qed.

Lemma live_steady s : live s -> steady s.
Proof. by intros [-> | ->]. Qed.

Lemma not_live s : negb (bool_decide (s = RESERVED)) && negb (bool_decide (s = COMMITTED)) = false -> live s.
Proof. destruct s; cbn; intros; try done; [by left|by right]. Qed.

(** Opens the token of a thread at [Hp], in the step [Hs]. *)
Ltac open_token Hinv Hp Hs :=
  let Hv := fresh "Hv" in let Hn := fresh "Hn" in
  pose proof (inv_thread _ Hinv _ _ Hp) as [Hv Hn];
  destruct (Hn _ eq_refl) as (k & Hk & Hneeds); cbn [values needs] in Hv, Hneeds;
  cbn [step step_reserve step_growth step_commit step_transfer step_finish] in Hs; unfold get_token, rd in Hs; rewrite Hk in Hs; cbn [mbind option_bind] in Hs.

Lemma reserve_inv c i p spurious m' p' : inv c -> threads c !! i = Some p -> reserving p <> None ->
  step (mach c) spurious p = Some (m', p') -> inv (Config m' (<[i := p']> (threads c))).
Proof.
  intros Hinv Hp Hr Hs. destruct p as [|g old new t|g b t from|g b t|g b t|g b t|g b t|g b t old|t v|g b t| | | | | | | | | | | | | ]; try done.
  - open_token Hinv Hp Hs. destruct Hv as (Hg & _ & Hnew).
    assert (Hinvalid : inv (Config (mach c) (<[i := Done (Status ADM_INVALID)]> (threads c)))).
    { apply (local_inv c i _ Hinv Hp); [follow|done|done]. }
    assert (Hgo : forall q, enter_reserve (mach c) (Some g) new (Some t) = Some q -> inv (Config (mach c) (<[i := q]> (threads c)))).
    { intros q Hq. by apply (claim_inv c i _ g new t q Hinv Hp Hnew Hg). }
    destruct (enter_reserve (mach c) (Some g) new (Some t)) as [q|]; cbn [mbind option_bind] in Hs;
      repeat case_match; simplify_eq; auto.
  - pose proof (inv_thread c Hinv i _ Hp) as Hok. pose proof Hok as [(Hg & Hb & Hfrom) Hn].
    destruct (Hn t eq_refl) as (k0 & Hk0 & Hid0). cbn [needs] in Hid0.
    eapply (cas_inv c i _ Hinv Hp); [exact Hok|reflexivity| |exact Hs|reflexivity|..].
    + by destruct Hfrom as [-> | ->].
    + destruct Hfrom as [-> | ->]; [rewrite bool_decide_true by done|rewrite bool_decide_false by done];
        (split; [follow|split; [|done]]); [|done].
      split; [split; [done|split; [done|by right]]|]. intros u [= <-]. by exists k0.
    + done.
    + done.
    + by intros u [= <-].
    + done.
    + intros k Hk Hid u [= <-]. done.
    + intros k g' Hk Hid. rewrite !charge_free; [done|..]; [|done]. by destruct Hfrom as [-> | ->]; rewrite Hk.
  - open_token Hinv Hp Hs. destruct Hneeds as [Hid Hst]. destruct (put_token _ _ _) eqn:Hput; [|done]. injection Hs as <- <-.
    eapply (store_inv c i _ Hinv Hp); [follow|done|exact Hk|exact Hput|done|by left| | |done|].
    + destruct (inv_token c Hinv t k Hk) as [? _]. split; [done|]. cbn. intros g' [= <-]. by destruct Hv.
    + intros g'. by rewrite !charge_free by (cbn; by rewrite Hst).
    + by intros u [= <-].
  - open_token Hinv Hp Hs. destruct Hneeds as (Hid & Hst & Hg). destruct (put_token _ _ _) eqn:Hput; [|done]. injection Hs as <- <-.
    eapply (store_inv c i _ Hinv Hp); [follow|done|exact Hk|exact Hput|done|by left| | |done|].
    + destruct (inv_token c Hinv t k Hk) as [_ ?]. split; [cbn; destruct Hv; mi|done].
    + intros g'. by rewrite !charge_free by (cbn; by rewrite Hst).
    + by intros u [= <-].
  - open_token Hinv Hp Hs. destruct (put_token _ _ _) eqn:Hput; [|done]. injection Hs as <- <-.
    eapply (store_inv c i _ Hinv Hp); [follow|done|exact Hk|exact Hput|done|by right; right|by apply (inv_token c Hinv t k Hk)|done|done|].
    by intros u [= <-].
  - pose proof (inv_thread c Hinv i _ Hp) as [Hv Hn]. cbn [step step_reserve step_growth step_commit step_transfer step_finish] in Hs. unfold get_governor, rd in Hs.
    destruct (governors (mach c) !! g) as [x|] eqn:Hx; [|done]. cbn in Hs. injection Hs as <- <-.
    destruct (total_bounds c g x Hinv Hx) as [Hrx _].
    apply (local_inv c i _ Hinv Hp); [follow|split; [|done]|done]. destruct Hv. done.
  - by eapply reserve_try_inv.
  - open_token Hinv Hp Hs. destruct Hneeds as [Hid Hst]. destruct (put_token _ _ _) eqn:Hput; [|done]. injection Hs as <- <-.
    eapply (store_inv c i _ Hinv Hp); [follow|done|exact Hk|exact Hput|done|by right; left|by apply (inv_token c Hinv t k Hk)| |done|done].
    intros g'. by rewrite !charge_free by (cbn; by rewrite ?Hst).
  - open_token Hinv Hp Hs. destruct Hneeds as (Hid & Hst & Hg & Hb). destruct (get_governor _ _); [|done]. cbn in Hs.
    destruct (put_token _ _ _) eqn:Hput; [|done]. injection Hs as <- <-.
    eapply (store_inv c i _ Hinv Hp); [follow|done|exact Hk|exact Hput|done|by right; left|by apply (inv_token c Hinv t k Hk)| |done|done].
    intros g'. rewrite (charge_free _ _ k) by (by rewrite Hst). rewrite charge_held by done. cbn. rewrite Hg, Hb.
    repeat case_bool_decide; simplify_eq; lia.
Qed.

(** Moving a charged token between held states keeps its charge. *)
Lemma charge_kept g t k s : identity k = t -> held (state k) = true -> held s = true ->
  charge g t (set_state s k) = charge g t k.
Proof. intros Hid H1 H2. by rewrite !charge_held. Qed.

Lemma owner_inv c i p spurious m' p' : inv c -> threads c !! i = Some p ->
  match p with C_claim _ _ | C_owner _ _ | C_publish _ | T_load _ _ | T_claim _ _ _ | T_owner _ _ _ | T_publish _ _ => True
    | _ => False end ->
  step (mach c) spurious p = Some (m', p') -> inv (Config m' (<[i := p']> (threads c))).
Proof.
  intros Hinv Hp Hr Hs. destruct p as [| | | | | | | | | |t o|t o|t|t o|t o s|t o s|t s| | | | | | ]; try done; clear Hr.
  - pose proof (inv_thread c Hinv i _ Hp) as Hok.
    eapply (cas_inv c i _ Hinv Hp); [exact Hok|reflexivity| |exact Hs|reflexivity| |done|done| | | |].
    + done.
    + split; [follow|done].
    + by intros u [= <-].
    + done.
    + by intros k Hk Hid u [= <-].
    + intros k g Hk Hid. cbn [needs] in Hid. rewrite charge_kept; rewrite ?Hk; done.
  - open_token Hinv Hp Hs. destruct (put_token _ _ _) eqn:Hput; [|done]. injection Hs as <- <-.
    eapply (store_inv c i _ Hinv Hp); [follow|done|exact Hk|exact Hput|done|by right; right|by apply (inv_token c Hinv t k Hk)|done|done|].
    by intros u [= <-].
  - open_token Hinv Hp Hs. destruct Hneeds as [Hid Hst]. destruct (put_token _ _ _) eqn:Hput; [|done]. injection Hs as <- <-.
    eapply (store_inv c i _ Hinv Hp); [follow|done|exact Hk|exact Hput|done|by right; left|by apply (inv_token c Hinv t k Hk)| |done|done].
    intros g'. rewrite charge_kept; rewrite ?Hst; done.
  - open_token Hinv Hp Hs. destruct (negb _ && _) eqn:El; injection Hs as <- <-;
      (apply (local_inv c i _ Hinv Hp); [follow| |done]); [done|].
    split; [by apply not_live|]. intros u [= <-]. by exists k.
  - pose proof (inv_thread c Hinv i _ Hp) as Hok. pose proof Hok as [Hlive _]. cbn [values] in Hlive.
    eapply (cas_inv c i _ Hinv Hp); [exact Hok|reflexivity| |exact Hs|reflexivity| |done|done| | | |].
    + by apply live_steady.
    + split; [follow|done].
    + by intros u [= <-].
    + done.
    + by intros k Hk Hid u [= <-].
    + intros k g Hk Hid. cbn [needs] in Hid. rewrite charge_kept; [done|done| |done]. rewrite Hk. by apply live_held.
  - open_token Hinv Hp Hs. destruct (put_token _ _ _) eqn:Hput; [|done]. injection Hs as <- <-.
    eapply (store_inv c i _ Hinv Hp); [follow|done|exact Hk|exact Hput|done|by right; right|by apply (inv_token c Hinv t k Hk)|done|done|].
    by intros u [= <-].
  - open_token Hinv Hp Hs. destruct Hneeds as [Hid Hst]. destruct (put_token _ _ _) eqn:Hput; [|done]. injection Hs as <- <-.
    eapply (store_inv c i _ Hinv Hp); [follow|done|exact Hk|exact Hput|done|by right; left|by apply (inv_token c Hinv t k Hk)| |done|done].
    intros g'. rewrite charge_kept; [done|done|by rewrite Hst|by apply live_held].
Qed.

Lemma finish_inv c i p spurious m' p' : inv c -> threads c !! i = Some p ->
  match p with F_governor _ _ _ | F_bytes _ _ _ _ | F_load _ _ _ _ | F_move _ _ _ _ _ | F_old _ _ _ _ | F_try _ _ _ _ _ => True
    | _ => False end ->
  step (mach c) spurious p = Some (m', p') -> inv (Config m' (<[i := p']> (threads c))).
Proof.
  intros Hinv Hp Hr Hs. pose proof (inv_thread c Hinv i _ Hp) as Hok.
  destruct p as [| | | | | | | | | | | | | | | | |t rb rt|t g rb rt|t g b rt|t g b from rt|g b t rt|g b old t rt]; try done; clear Hr.
  - open_token Hinv Hp Hs. destruct (governor k) as [g|] eqn:Eg; injection Hs as <- <-.
    + apply (local_inv c i _ Hinv Hp); [follow| |done]. split; [by apply (inv_token c Hinv t k Hk)|].
      intros u [= <-]. by exists k.
    + by apply (fail_inv c i _ t rt Hinv Hp).
  - open_token Hinv Hp Hs. destruct Hneeds as [Hid Hg]. pose proof (inv_token c Hinv t k Hk) as [Hb _].
    destruct (Z.eqb_spec (bytes k) 0); injection Hs as <- <-.
    + apply (fail_inv c i _ t rt Hinv Hp); try done. by intros k' [? _].
    + apply (local_inv c i _ Hinv Hp); destruct rb; try follow; try done;
        (split; [|intros u [= <-]; by exists k]); (split; [done|]); [split; [mi|by left]|mi].
  - open_token Hinv Hp Hs. destruct Hneeds as (Hid & Hg & Hb). destruct (negb _ && _) eqn:El; injection Hs as <- <-.
    + apply (fail_inv c i _ t rt Hinv Hp); try done. by intros k' [? _].
    + apply (local_inv c i _ Hinv Hp); [follow| |done]. destruct Hv. split; [split; [done|split; [done|by apply not_live]]|].
      intros u [= <-]. by exists k.
  - pose proof Hok as [(Hg & Hb & Hlive) Hn]. cbn [step step_reserve step_growth step_commit step_transfer step_finish] in Hs.
    destruct (Hn t eq_refl) as (k0 & Hk0 & Hid0 & _).
    eapply (cas_inv c i _ Hinv Hp); [exact Hok|reflexivity| |exact Hs|reflexivity| |done|done| | | |].
    + by apply live_steady.
    + destruct rt; cbn [finish_fail]; (split; [follow|split; [|done]]); [|done].
      split; [done|]. intros u [= <-]. by exists k0.
    + done.
    + done.
    + done.
    + intros k g' Hk (Hid & Hgk & Hbk). rewrite (charge_free _ _ (set_state _ _)) by done.
      rewrite charge_held by (rewrite ?Hk; by auto using live_held). cbn [owes]. rewrite Hgk, Hbk.
      repeat case_bool_decide; simplify_eq; lia.
  - pose proof Hok as [Hv _]. cbn [step step_reserve step_growth step_commit step_transfer step_finish] in Hs. unfold get_governor, rd in Hs.
    destruct (governors (mach c) !! g) as [x|] eqn:Hx; [|done]. cbn in Hs. injection Hs as <- <-.
    destruct (total_bounds c g x Hinv Hx) as [Hrx Howe]. specialize (Howe i _ Hp). cbn in Howe, Hv.
    rewrite bool_decide_true in Howe by done.
    apply (local_inv c i _ Hinv Hp); [follow|split; [|done]|done]. cbn. tauto.
  - by eapply finish_try_inv.
Qed.

Lemma step_inv c i p spurious m' p' : inv c -> threads c !! i = Some p ->
  step (mach c) spurious p = Some (m', p') -> inv (Config m' (<[i := p']> (threads c))).
Proof.
  intros Hinv Hp Hs. destruct p; first
    [discriminate Hs | by eapply reserve_inv | by eapply owner_inv | by eapply finish_inv].
Qed.

(** ** Calls, moves, copies *)

Lemma identity_cases m t b : reservation_identity_valid m (Some t) = Some b ->
  exists k, tokens m !! t = Some k /\ (b = true -> identity k = t).
Proof.
  unfold reservation_identity_valid, rd. destruct (tokens m !! t) as [k|]; [|done]. cbn. intros [= <-].
  exists k. split; [done|]. apply bool_decide_eq_true.
Qed.

(** A call enters with a thread that locks nothing and owes nothing. *)
Lemma call_inv c i r cl p : inv c -> threads c !! i = Some (Done r) -> valid_call (mach c) cl ->
  allowed (threads c) cl -> enter (mach c) cl = Some p -> inv (Config (mach c) (<[i := p]> (threads c))).
Proof.
  intros Hinv Hi Hv Ha He.
  assert (Hgo : forall q, locks q = None -> (forall g, owes g q = 0) -> thread_ok (mach c) q ->
    (forall t, reserving q = Some t -> Forall (fun p => finishing p <> Some t) (threads c)) ->
    (forall t, finishing q = Some t -> Forall (fun p => reserving p <> Some t) (threads c)) ->
    inv (Config (mach c) (<[i := q]> (threads c)))).
  { intros q Hl Ho Hok Hr Hf. apply (step_local c i (Done r)); try done.
    - intros t E. congruence.
    - intros t E. right. split; [|by destruct q]. intros j q' Hj. by apply (Forall_lookup_1 _ _ _ _ (Hr t E) Hj).
    - intros t E. right. split; [|by destruct q]. intros j q' Hj. by apply (Forall_lookup_1 _ _ _ _ (Hf t E) Hj). }
  assert (Hdone : forall a, inv (Config (mach c) (<[i := Done a]> (threads c)))) by (intros a; by apply Hgo).
  assert (Hfin : forall rb rt t, Forall (fun p => reserving p <> Some t) (threads c) ->
    enter_finish (mach c) (Some t) rb rt = Some p -> inv (Config (mach c) (<[i := p]> (threads c)))).
  { intros rb rt t Hall Hq. unfold enter_finish in Hq. destruct (reservation_identity_valid _ _) as [b|] eqn:Eid; [|done].
    destruct (identity_cases _ _ _ Eid) as (k & Hk & Hid). cbn in Hq. destruct b; injection Hq as <-; [|done].
    apply Hgo; try done; [|by intros u [= <-]]. split; [done|]. intros u [= <-]. exists k. split; [done|by apply Hid]. }
  destruct cl as [g b t|g old new t|t o|t o|t|t]; cbn [enter valid_call allowed] in *.
  - destruct Hv as (Hb & Hg & _). destruct g as [g|], t as [t|]; cbn in Hg.
    { apply enter_reserve_cases in He as [[a ->]|(-> & Hb0 & k & Hk & Hid)]; [done|].
      apply Hgo; try done; [|by intros u [= <-]]. split; [split; [done|split; [mi|by left]]|]. intros u [= <-]. by exists k. }
    all: unfold enter_reserve in He; destruct (reservation_identity_valid _ _); [|done]; injection He as <-; done.
  - destruct Hv as (Hold & Hnew & Hg & _). destruct (reservation_identity_valid _ _) as [b|] eqn:Eid; [|done].
    destruct g as [g|], t as [t|]; cbn in He; injection He as <-; try done.
    destruct (identity_cases _ _ _ Eid) as (k & Hk & Hid). destruct b; cbn; [|done].
    destruct (old <=? new); [|done]. apply Hgo; try done; [|by intros u [= <-]].
    split; [done|]. intros u [= <-]. exists k. split; [done|by apply Hid].
  - destruct (reservation_identity_valid _ _) as [b|] eqn:Eid; [|done]. destruct t as [t|]; cbn in He; injection He as <-; [|done].
    destruct (identity_cases _ _ _ Eid) as (k & Hk & Hid). destruct b; [|done]. apply Hgo; try done.
    split; [done|]. intros u [= <-]. exists k. split; [done|by apply Hid].
  - destruct (reservation_identity_valid _ _) as [b|] eqn:Eid; [|done]. destruct t as [t|]; cbn in He; injection He as <-; [|done].
    destruct (identity_cases _ _ _ Eid) as (k & Hk & Hid). destruct b; [|done]. apply Hgo; try done.
    split; [done|]. intros u [= <-]. exists k. split; [done|by apply Hid].
  - destruct t as [t|]; [by apply (Hfin true false t)|]. cbn in He. by injection He as <-.
  - destruct t as [t|]; [by apply (Hfin false true t)|]. cbn in He. by injection He as <-.
Qed.

(** Replacing tokens that no thread uses, the charges being conserved. *)
Lemma tokens_inv c ts : inv c ->
  (forall g, isum (charge g) 0 ts = isum (charge g) 0 (tokens (mach c))) ->
  (forall t k, ts !! t = Some k -> token_ok (mach c) k) ->
  (forall t, ~ unused (threads c) t -> ts !! t = tokens (mach c) !! t) ->
  inv (Config (Machine (governors (mach c)) ts) (threads c)).
Proof.
  intros Hinv Hsum Hok Hsame. split; cbn [mach threads].
  - intros g x Hx. destruct (inv_total c Hinv g x Hx) as [Ht Hu]. split; [|done]. unfold accounted in *.
    cbn [mach threads tokens]. by rewrite Hsum.
  - intros t k Hk. destruct (Hok t k Hk). done.
  - intros i p Hp. destruct (inv_thread c Hinv i p Hp) as [Hv Hn]. split; [done|]. intros t Ht.
    destruct (Hn t Ht) as (k & Hk & Hnk). exists k. split; [|done]. cbn [tokens]. rewrite Hsame; [done|].
    intros Hu. by apply (Forall_lookup_1 _ _ _ _ Hu Hp).
  - exact (inv_lock c Hinv).
  - exact (inv_apart c Hinv).
Qed.

Lemma put_token_some m t k m' : put_token m t k = Some m' ->
  (t < length (tokens m))%nat /\ m' = Machine (governors m) (<[t := k]> (tokens m)).
Proof.
  unfold put_token, wr. case_decide; [|done]. cbn. by intros [= <-].
Qed.

(** Overwriting a token that is charged neither before nor after. *)
Lemma overwrite_inv c t k k' m' : inv c -> unused (threads c) t -> tokens (mach c) !! t = Some k ->
  charged t k = false -> charged t k' = false -> token_ok (mach c) k' ->
  put_token (mach c) t k' = Some m' -> inv (Config m' (threads c)).
Proof.
  intros Hinv Hu Hk Hc Hc' Hok [Hlt ->]%put_token_some. apply tokens_inv; try done.
  - intros g. rewrite (isum_insert (charge g) _ k k' 0 t Hk). unfold charge. cbn [Nat.add]. rewrite Hc, Hc'. cbn. lia.
  - intros u ku [(-> & -> & _)|[_ H]]%list_lookup_insert_Some; [done|]. by apply (inv_token c Hinv u).
  - intros u Hnu. rewrite list_lookup_insert_ne; [done|]. by intros ->.
Qed.

Lemma move_inv c d s m' b : inv c -> unused (threads c) d -> unused (threads c) s ->
  reservation_move (mach c) (Some d) (Some s) = Some (m', b) -> inv (Config m' (threads c)).
Proof.
  intros Hinv Hud Hus Hm. unfold reservation_move in Hm. case_bool_decide as Hds.
  { injection Hm as <- <-. by destruct c. }
  destruct (reservation_identity_valid _ (Some d)) as [okd|] eqn:Ed; [|done].
  destruct (reservation_identity_valid _ (Some s)) as [oks|] eqn:Es; [|done]. cbn in Hm.
  destruct (identity_cases _ _ _ Ed) as (kd & Hkd & Hidd). destruct (identity_cases _ _ _ Es) as (ks & Hks & Hids).
  destruct okd, oks; cbn in Hm; try (injection Hm as <- <-; by destruct c).
  unfold get_token, rd in Hm. rewrite Hkd, Hks in Hm. cbn [mbind option_bind] in Hm.
  specialize (Hidd eq_refl). specialize (Hids eq_refl).
  destruct (negb (bool_decide (state kd = EMPTY)) && _) eqn:Efree; [injection Hm as <- <-; by destruct c|].
  destruct (negb (bool_decide (state ks = RESERVED)) && _) eqn:Elive; [injection Hm as <- <-; by destruct c|]. apply not_live in Elive.
  assert (Hfree : held (state kd) = false) by (destruct (state kd); done).
  destruct (put_token (mach c) d _) as [m1|] eqn:E1; [|done]. cbn in Hm.
  destruct (put_token m1 s _) as [m2|] eqn:E2; [|done]. cbn in Hm. injection Hm as <- <-.
  apply put_token_some in E1 as [Hd ->]. apply put_token_some in E2 as [Hs ->]. cbn [governors tokens].
  assert (Hks' : <[d := Token (governor ks) (bytes ks) (owner_bits ks) (state ks) d]> (tokens (mach c)) !! s = Some ks)
    by (by rewrite list_lookup_insert_ne).
  apply tokens_inv; try done.
  - intros g. rewrite (isum_insert (charge g) _ ks _ 0 s Hks'), (isum_insert (charge g) _ kd _ 0 d Hkd). cbn [Nat.add].
    rewrite (charge_free g d kd), (charge_free g s (Token _ _ _ EMPTY _)) by done.
    rewrite (charge_held g s ks), charge_held by (done || by apply live_held). cbn. lia.
  - pose proof (inv_token c Hinv s ks Hks) as [Hb Hg].
    intros u ku [(-> & <- & _)|[_ [(-> & <- & _)|[_ H]]%list_lookup_insert_Some]]%list_lookup_insert_Some; [| |by apply (inv_token c Hinv u)].
    + split; [cbn; mi|done].
    + by split.
  - intros u Hnu. rewrite !list_lookup_insert_ne; [done|..]; by intros ->.
Qed.

(** ** Reachable states *)

Lemma governor_init_fresh r x : governor_init (Some r) = (Budget.MEM_OK, Some x) ->
  reserved_bytes x = 0 /\ usable_bytes x = Budget.usable_bytes r.
Proof. cbn. destruct (Budget.status r); try done. by intros [= <-]. Qed.

Lemma start_inv gs nt nth :
  Forall (fun x => exists r, governor_init (Some r) = (Budget.MEM_OK, Some x) /\ is_uint64 (Budget.usable_bytes r)) gs ->
  inv (Config (Machine gs (imap (fun t _ => reservation_init t) (replicate nt tt))) (replicate nth (Done (Flag false)))).
Proof.
  intros Hgs.
  assert (Htok : forall t k, imap (fun t _ => reservation_init t) (replicate nt tt) !! t = Some k -> k = reservation_init t).
  { intros t k. rewrite list_lookup_imap. destruct (_ !! t); [|done]. by intros [= <-]. }
  assert (Hthr : forall i p, replicate nth (Done (Flag false)) !! i = Some p -> p = Done (Flag false)).
  { intros i p [-> _]%lookup_replicate. done. }
  split; cbn [mach threads governors tokens].
  - intros g x Hx. destruct (Forall_lookup_1 _ _ _ _ Hgs Hx) as (r & Hr & Hu).
    apply governor_init_fresh in Hr as [Hr Hur]. rewrite <- Hur in Hu. split; [|mi]. unfold accounted.
    cbn [mach threads tokens]. rewrite !isum_zero; [lia|..].
    + intros i p ->%Hthr. done.
    + intros t k ->%Htok. by apply charge_free.
  - intros t k ->%Htok. split; [cbn; mi|done].
  - intros i p ->%Hthr. done.
  - intros i j p q t _ ->%Hthr. done.
  - intros i j p q t ->%Hthr. done.
Qed.

Lemma reach_inv c : reach c -> inv c.
Proof.
  induction 1 as [gs nt nth Hgs|c i r cl p _ IH Hi Hv Ha He|c i p sp m' p' _ IH Hi Hs|c d s m' b _ IH Hd Hs Hm
    |c t k m' _ IH Hu Hk Hc Hput|c d s kd ks m' _ IH Hu Hkd Hc Hks Hid Hput].
  - by apply start_inv.
  - by apply (call_inv c i r cl).
  - by apply (step_inv c i p sp).
  - by apply (move_inv c d s m' b).
  - apply (overwrite_inv c t k (reservation_init t) m' IH Hu Hk Hc); [|split; [cbn; mi|done]|done].
    unfold charged. cbn. apply andb_false_r.
  - apply (overwrite_inv c d kd ks m' IH Hu Hkd Hc); [|by apply (inv_token c IH s)|done].
    unfold charged. by rewrite bool_decide_false.
Qed.

(** No thread is ever stuck before it returns. *)
Lemma progress c i p spurious : inv c -> threads c !! i = Some p -> (forall r, p <> Done r) ->
  exists m' p', step (mach c) spurious p = Some (m', p').
Proof.
  intros Hinv Hp Hnd. pose proof (inv_thread c Hinv i p Hp) as [Hv Hn].
  assert (Htok : forall t, uses p = Some t -> exists k, get_token (mach c) t = Some k /\
    (forall k', exists m', put_token (mach c) t k' = Some m') /\
    forall g b, exists q, enter_reserve (mach c) (Some g) b (Some t) = Some q).
  { intros t Ht. destruct (Hn t Ht) as (k & Hk & _). exists k. split; [done|]. split.
    - intros k'. unfold put_token. rewrite wr_lt by (by eapply lookup_lt_Some). by eexists.
    - intros g b. unfold enter_reserve, reservation_identity_valid, rd. rewrite Hk. cbn. repeat case_match; by eexists. }
  assert (Hgov : forall g, (g < length (governors (mach c)))%nat -> exists x, get_governor (mach c) g = Some x /\
    forall x', exists m', put_governor (mach c) g x' = Some m').
  { intros g Hg. destruct (lookup_lt_is_Some_2 _ _ Hg) as [x Hx]. exists x. split; [done|]. intros x'.
    unfold put_governor. rewrite wr_lt by done. by eexists. }
  destruct p; cbn [values uses reserving finishing] in *; try (by destruct (Hnd r));
    try (destruct (Htok _ eq_refl) as (k & Hk & Hput & Hent)); clear Htok Hn Hnd;
    try (first [destruct (Hgov _ (proj1 Hv)) as (x & Hx & Hputg)|destruct (Hgov _ Hv) as (x & Hx & Hputg)]); clear Hgov;
    unfold step, step_reserve, step_growth, step_commit, step_transfer, step_finish, cas_state; cbv zeta; rewrite ?Hk, ?Hx; cbn [mbind option_bind];
    repeat match goal with
      | |- context [put_token ?m ?t ?k] => destruct (Hput k) as [? ->]
      | |- context [put_governor ?m ?g ?x] => destruct (Hputg x) as [? ->]
      | |- context [enter_reserve ?m (Some ?g) ?b ?t] => destruct (Hent g b) as [? ->]
      end; cbn [mbind option_bind]; repeat case_match; by eauto.
Qed.

(** C25: the governor's accounting is exact and bounded under every
    interleaving in which no reserve overlaps a rollback or a release of the
    same token, no token is moved, overwritten by a copy or initialised while a
    call uses it, and none that holds a reservation is overwritten, nor any by
    an old copy of itself. In every state that calls of any number of threads reach so,
    atomic access by atomic access and with spurious failures of the weak
    exchanges, with tokens moved, copied and initialised again in between:
    each governor's reserved_bytes is the sum of the bytes of the tokens that
    hold a reservation with it and of the bytes in transit in a thread, and
    never exceeds its usable bytes; once every call has returned it is the sum
    over the tokens alone, so a reservation is given back exactly once; and no
    call is ever stuck or reaches outside its objects. *)
Theorem governor_accounting (c : config) : reach c ->
  (forall g x, governors (mach c) !! g = Some x ->
    reserved_bytes x = accounted c g /\ 0 <= reserved_bytes x <= usable_bytes x /\
    (Forall (fun p => exists r, p = Done r) (threads c) ->
      reserved_bytes x = isum (charge g) 0 (tokens (mach c)))) /\
  (forall i p spurious, threads c !! i = Some p -> (forall r, p <> Done r) ->
    exists m' p', step (mach c) spurious p = Some (m', p')).
Proof.
  intros Hinv%reach_inv. split; [|intros i p sp; by apply progress]. intros g x Hx.
  destruct (inv_total c Hinv g x Hx) as [Ht Hu]. destruct (total_bounds c g x Hinv Hx) as [Hr _].
  split; [done|]. split; [mi|]. intros Hd. rewrite Ht. unfold accounted.
  rewrite (isum_zero (fun _ => owes g) (threads c)); [lia|].
  intros i p Hp. by destruct (Forall_lookup_1 _ _ _ _ Hd Hp) as [r ->].
Qed.

(** ** Schedules *)

Inductive action := Invoke (i : nat) (cl : call) | Advance (i : nat) (spurious : bool).

Definition act (c : config) (a : action) : option config :=
  match a with
  | Invoke i cl =>
      match threads c !! i with
      | Some (Done _) => p ← enter (mach c) cl; Some (Config (mach c) (<[i := p]> (threads c)))
      | _ => None
      end
  | Advance i spurious =>
      p ← threads c !! i; '(m', p') ← step (mach c) spurious p; Some (Config m' (<[i := p']> (threads c)))
  end.
Fixpoint play (c : config) (s : list action) : option config :=
  match s with [] => Some c | a :: s => c' ← act c a; play c' s end.

(** One governor with 100 usable bytes, one token, two threads. *)
Definition small : config :=
  Config (Machine [Governor 100 0 105 5 Budget.ENFORCING Budget.SRC_ENV] [reservation_init 0]) [Done (Flag false); Done (Flag false)].

Lemma small_reach : reach small.
Proof.
  apply (reach_start [Governor 100 0 105 5 Budget.ENFORCING Budget.SRC_ENV] 1 2). constructor; [|done].
  exists (Budget.Resolution 105 5 100 Budget.ENFORCING Budget.SRC_ENV Budget.MEM_OK). split; [done|cbn; mi].
Qed.

Lemma advance_reach i s c c' : reach c -> play c ((fun b => Advance i b) <$> s) = Some c' -> reach c'.
Proof.
  revert c. induction s as [|b s IH]; intros c Hc Hs; cbn in Hs; [by injection Hs as <-|].
  destruct (threads c !! i) as [p|] eqn:Hp; [|done]. cbn in Hs.
  destruct (step (mach c) b p) as [[m' p']|] eqn:Hst; [|done]. cbn in Hs. eapply IH; [|exact Hs].
  by eapply reach_step.
Qed.

(** Thread 0 has exchanged the total and not yet published its token. *)
Lemma governor_accounting_witness : exists c,
  play small (Invoke 0 (Reserve (Some 0%nat) 10 (Some 0%nat)) :: ((fun b => Advance 0 b) <$> [true; false; false; false; false; false; true; false])) = Some c /\
  threads c !! 0%nat = Some (R_publish 0 10 0) /\
  (forall g x, governors (mach c) !! g = Some x -> reserved_bytes x = accounted c g).
Proof.
  assert (H1 : reach (Config (mach small) (<[0%nat := R_claim 0 10 0 EMPTY]> (threads small)))).
  { apply (reach_call small 0 (Flag false) (Reserve (Some 0%nat) 10 (Some 0%nat)));
      [exact small_reach|reflexivity|cbn; split_and!; [mi|lia|lia]|repeat constructor; discriminate|reflexivity]. }
  destruct (play small (Invoke 0 (Reserve (Some 0%nat) 10 (Some 0%nat)) :: ((fun b => Advance 0 b) <$> [true; false; false; false; false; false; true; false])))
    as [c|] eqn:E; [|vm_compute in E; discriminate].
  exists c. split; [reflexivity|]. split; [vm_compute in E; injection E as <-; reflexivity|].
  intros g x Hx. apply (proj1 (governor_accounting c (advance_reach 0 [true; false; false; false; false; false; true; false] _ c H1 E)) g x Hx).
Defined.

(** a release that has read the token's size and then loses the race to
    another release and to a fresh reservation of the same token still
    succeeds, and gives back the old size for the new reservation: the token
    ends released, every call returns true, and 10 bytes stay reserved for
    good. The schedule breaks the rule that reserve and release of a token do
    not overlap, which the interface does not state. *)
Theorem stale_release_leaks :
  exists c, play small
    (Invoke 1 (Reserve (Some 0%nat) 10 (Some 0%nat)) :: replicate 7 (Advance 1 false) ++
     (* thread 0 reads governor, bytes and state, and stops before its exchange *)
     Invoke 0 (Release (Some 0%nat)) :: replicate 3 (Advance 0 false) ++
     Invoke 1 (Release (Some 0%nat)) :: replicate 6 (Advance 1 false) ++
     Invoke 1 (Reserve (Some 0%nat) 20 (Some 0%nat)) :: replicate 8 (Advance 1 false) ++
     replicate 3 (Advance 0 false)) = Some c /\
  threads c = [Done (Flag true); Done (Status ADM_OK)] /\
  state <$> tokens (mach c) = [RELEASED] /\
  reserved_bytes <$> governors (mach c) = [10].
Proof. eexists. split; [vm_compute; reflexivity|]. split_and!; reflexivity. Qed.

(** ** A call that runs alone *)

Fixpoint alone (fuel : nat) (m : machine) (p : thread) : option (machine * result) :=
  match p with
  | Done r => Some (m, r)
  | _ => match fuel with O => None | S f => '(m', p') ← step m false p; alone f m' p' end
  end.

Section Alone.
Variables (gs : list governor_t) (ts : list token) (g t : nat).
Hypothesis Hg : (g < length gs)%nat.
Hypothesis Ht : (t < length ts)%nat.

(** The machine with governor [g] and token [t] set. *)
Definition at_ (x : governor_t) (k : token) : machine := Machine (<[g := x]> gs) (<[t := k]> ts).

Lemma get_token_at x k : get_token (at_ x k) t = Some k.
Proof. by apply list_lookup_insert_eq. Qed.
Lemma get_governor_at x k : get_governor (at_ x k) g = Some x.
Proof. by apply list_lookup_insert_eq. Qed.
Lemma put_token_at x k k' : put_token (at_ x k) t k' = Some (at_ x k').
Proof. unfold put_token, at_. cbn [tokens governors]. rewrite wr_lt by (by rewrite length_insert). cbn. by rewrite list_insert_insert_eq. Qed.
Lemma put_governor_at x k x' : put_governor (at_ x k) g x' = Some (at_ x' k).
Proof. unfold put_governor, at_. cbn [tokens governors]. rewrite wr_lt by (by rewrite length_insert). cbn. by rewrite list_insert_insert_eq. Qed.

Lemma alone_step f m p m' p' : step m false p = Some (m', p') -> alone (S f) m p = alone f m' p'.
Proof. intros Hs. destruct p; try done; cbn [alone]; by rewrite Hs. Qed.

Lemma alone_done f m r : alone f m (Done r) = Some (m, r).
Proof. by destruct f. Qed.

(** Unfolds one step at the machine [at_]. *)
Ltac at_step := cbn [step step_reserve step_growth step_commit step_transfer step_finish]; unfold cas_state; cbv zeta;
  rewrite ?get_token_at, ?get_governor_at; cbn [mbind option_bind];
  rewrite ?put_token_at, ?put_governor_at; cbn [mbind option_bind]; reflexivity.
Ltac go := erewrite alone_step by at_step.

(** The decision on the total. *)
Lemma try_alone fuel x k b : 0 < b <= UINT64_MAX -> 0 <= reserved_bytes x <= usable_bytes x -> usable_bytes x <= UINT64_MAX ->
  alone (2 + fuel) (at_ x k) (R_try g b t (reserved_bytes x)) =
  if reserved_bytes x + b <=? usable_bytes x then
    Some (at_ (set_reserved (reserved_bytes x + b) x) (set_state RESERVED k),
          Status (match gmode x with Budget.ADVISORY => ADM_ADVISORY | Budget.ENFORCING => ADM_OK end))
  else
    Some (at_ x (set_state RELEASED k),
          Status (if UINT64_MAX <? reserved_bytes x + b then ADM_OVERFLOW else ADM_DENIED)).
Proof.
  intros Hb Hr Hu. cbn [Nat.add].
  assert (Hs : step (at_ x k) false (R_try g b t (reserved_bytes x)) =
    if reserved_bytes x + b <=? usable_bytes x then Some (at_ (set_reserved (reserved_bytes x + b) x) k, R_publish g b t)
    else Some (at_ x k, R_drop t (if UINT64_MAX <? reserved_bytes x + b then ADM_OVERFLOW else ADM_DENIED))).
  { cbn [step step_reserve step_growth step_commit step_transfer step_finish]. rewrite get_governor_at. cbn [mbind option_bind]. cbv zeta. rewrite Z.eqb_refl. cbn [negb andb].
    destruct (Z.ltb_spec (UINT64_MAX - reserved_bytes x) b).
    - by rewrite (proj2 (Z.leb_gt _ _)), (proj2 (Z.ltb_lt UINT64_MAX _)) by lia.
    - rewrite u64_small by mi. rewrite (proj2 (Z.ltb_ge UINT64_MAX _)) by lia.
      destruct (Z.ltb_spec (usable_bytes x) (reserved_bytes x + b)).
      + by rewrite (proj2 (Z.leb_gt _ _)) by lia.
      + rewrite (proj2 (Z.leb_le _ _)) by lia. by rewrite put_governor_at. }
  destruct (reserved_bytes x + b <=? usable_bytes x); erewrite alone_step by exact Hs; go; apply alone_done.
Qed.

(** From the claimed token to the verdict. *)
Lemma reserve_claimed fuel x k b : 0 < b <= UINT64_MAX -> 0 <= reserved_bytes x <= usable_bytes x -> usable_bytes x <= UINT64_MAX ->
  alone (6 + fuel) (at_ x (set_state CLAIMED k)) (R_governor g b t) =
  if reserved_bytes x + b <=? usable_bytes x then
    Some (at_ (set_reserved (reserved_bytes x + b) x) (Token (Some g) b 0 RESERVED (identity k)),
          Status (match gmode x with Budget.ADVISORY => ADM_ADVISORY | Budget.ENFORCING => ADM_OK end))
  else
    Some (at_ x (Token (Some g) b 0 RELEASED (identity k)),
          Status (if UINT64_MAX <? reserved_bytes x + b then ADM_OVERFLOW else ADM_DENIED)).
Proof.
  intros Hb Hr Hu. change (6 + fuel)%nat with (S (S (S (S (2 + fuel))))). do 4 go. rewrite try_alone by done.
  reflexivity.
Qed.

Lemma claim_alone fuel x k b : state k = EMPTY \/ state k = RELEASED ->
  alone (2 + fuel) (at_ x k) (R_claim g b t EMPTY) =
  alone (if bool_decide (state k = EMPTY) then S fuel else fuel) (at_ x (set_state CLAIMED k)) (R_governor g b t).
Proof.
  assert (Hs : forall from, step (at_ x k) false (R_claim g b t from) =
    if bool_decide (state k = from) then Some (at_ x (set_state CLAIMED k), R_governor g b t)
    else Some (at_ x k, if bool_decide (from = EMPTY) then R_claim g b t RELEASED else Done (Status ADM_INVALID))).
  { intros from. cbn [step step_reserve step_growth step_commit step_transfer step_finish]. unfold cas_state. rewrite get_token_at. cbn [mbind option_bind]. by rewrite put_token_at. }
  intros [E|E]; cbn [Nat.add]; rewrite E.
  - rewrite bool_decide_true by done. apply alone_step. by rewrite Hs, E.
  - rewrite bool_decide_false by done. rewrite (alone_step _ _ _ (at_ x k) (R_claim g b t RELEASED)) by (by rewrite Hs, E).
    apply alone_step. by rewrite Hs, E.
Qed.

Lemma release_alone fuel x k : state k = RESERVED \/ state k = COMMITTED -> governor k = Some g ->
  0 < bytes k <= reserved_bytes x -> reserved_bytes x <= UINT64_MAX ->
  alone (6 + fuel) (at_ x k) (F_governor t false true) =
  Some (at_ (set_reserved (reserved_bytes x - bytes k) x) (set_state RELEASED k), Flag true).
Proof.
  intros Hst Hgk Hb Hr. cbn [Nat.add].
  rewrite (alone_step _ _ _ (at_ x k) (F_bytes t g false true)) by (cbn [step step_reserve step_growth step_commit step_transfer step_finish]; rewrite get_token_at; cbn; by rewrite Hgk).
  rewrite (alone_step _ _ _ (at_ x k) (F_load t g (bytes k) true))
    by (cbn [step step_reserve step_growth step_commit step_transfer step_finish]; rewrite get_token_at; cbn; by rewrite (proj2 (Z.eqb_neq (bytes k) 0)) by lia).
  rewrite (alone_step _ _ _ (at_ x k) (F_move t g (bytes k) (state k) true))
    by (cbn [step step_reserve step_growth step_commit step_transfer step_finish]; rewrite get_token_at; cbn; by destruct Hst as [-> | ->]).
  rewrite (alone_step _ _ _ (at_ x (set_state RELEASED k)) (F_old g (bytes k) t true))
    by (cbn [step step_reserve step_growth step_commit step_transfer step_finish]; unfold cas_state; rewrite get_token_at; cbn [mbind option_bind]; rewrite bool_decide_true by done; by rewrite put_token_at).
  go. rewrite (alone_step _ _ _ (at_ (set_reserved (reserved_bytes x - bytes k) x) (set_state RELEASED k)) (Done (Flag true))).
  - apply alone_done.
  - cbn [step step_reserve step_growth step_commit step_transfer step_finish]. rewrite get_governor_at. cbn [mbind option_bind]. rewrite (proj2 (Z.ltb_ge _ _)), Z.eqb_refl by lia.
    cbn [negb andb]. rewrite u64_small by mi. by rewrite put_governor_at.
Qed.

End Alone.

(** a reserve that runs without interference returns within eight atomic
    accesses: it is admitted exactly when the request fits in what is left
    of the usable bytes, and then adds exactly its size to the total and
    publishes the token; otherwise it reports overflow or denial, changes no
    total and leaves the token reusable. Releasing an admitted token takes six
    accesses, returns true, and restores the total. *)
Theorem reserve_release_alone (m : machine) (g t : nat) (x : governor_t) (k : token) (b : Z) :
  governors m !! g = Some x -> tokens m !! t = Some k -> identity k = t -> state k = EMPTY \/ state k = RELEASED ->
  0 < b <= UINT64_MAX -> 0 <= reserved_bytes x <= usable_bytes x -> usable_bytes x <= UINT64_MAX ->
  exists p, enter m (Reserve (Some g) b (Some t)) = Some p /\
  if reserved_bytes x + b <=? usable_bytes x then
    exists m1, alone 8 m p = Some (m1, Status (match gmode x with Budget.ADVISORY => ADM_ADVISORY | Budget.ENFORCING => ADM_OK end)) /\
      governors m1 = <[g := set_reserved (reserved_bytes x + b) x]> (governors m) /\
      tokens m1 = <[t := Token (Some g) b 0 RESERVED t]> (tokens m) /\
      exists q m2, enter m1 (Release (Some t)) = Some q /\ alone 6 m1 q = Some (m2, Flag true) /\
        governors m2 = governors m /\ tokens m2 = <[t := Token (Some g) b 0 RELEASED t]> (tokens m)
  else
    exists m1, alone 8 m p = Some (m1, Status (if UINT64_MAX <? reserved_bytes x + b then ADM_OVERFLOW else ADM_DENIED)) /\
      governors m1 = governors m /\ tokens m1 = <[t := Token (Some g) b 0 RELEASED t]> (tokens m).
Proof.
  intros Hx Hk Hid Hst Hb Hr Hu. destruct m as [gs ts]. cbn [governors tokens] in *.
  pose proof (lookup_lt_Some _ _ _ Hx) as Hg. pose proof (lookup_lt_Some _ _ _ Hk) as Ht.
  exists (R_claim g b t EMPTY). split.
  { cbn [enter]. unfold enter_reserve, reservation_identity_valid, rd. cbn [tokens]. rewrite Hk. cbn [mbind option_bind].
    rewrite bool_decide_true by done. by rewrite (proj2 (Z.eqb_neq b 0)) by lia. }
  assert (E0 : Machine gs ts = at_ gs ts g t x k) by (unfold at_; by rewrite !list_insert_id).
  assert (Hrun : exists f, alone 8 (Machine gs ts) (R_claim g b t EMPTY) = alone (6 + f) (at_ gs ts g t x (set_state CLAIMED k)) (R_governor g b t)).
  { rewrite E0, (claim_alone gs ts g t Ht 6) by done. case_bool_decide; [by exists 1%nat|by exists 0%nat]. }
  destruct Hrun as [f Hrun]. rewrite (reserve_claimed gs ts g t Hg Ht f x k b Hb Hr Hu), Hid in Hrun.
  destruct (Z.leb_spec (reserved_bytes x + b) (usable_bytes x)).
  - eexists. split; [exact Hrun|]. split; [done|]. split; [done|].
    exists (F_governor t false true). eexists. split.
    { cbn [enter]. unfold enter_finish, reservation_identity_valid, rd, at_. cbn [tokens].
      rewrite list_lookup_insert_eq by done. cbn [mbind option_bind identity]. by rewrite bool_decide_true. }
    rewrite (release_alone gs ts g t Hg Ht 0); [|by left|done|cbn; lia|cbn; lia]. split; [done|].
    unfold at_. cbn [governors tokens set_reserved reserved_bytes usable_bytes gmode bytes]. split; [|done].
    replace (reserved_bytes x + b - b) with (reserved_bytes x) by lia. apply list_insert_id. by destruct x.
  - eexists. split; [exact Hrun|]. unfold at_. cbn [governors tokens]. split; [by apply list_insert_id|done].
Qed.

Lemma reserve_release_alone_witness : exists p m1,
  enter (mach small) (Reserve (Some 0%nat) 60 (Some 0%nat)) = Some p /\
  alone 8 (mach small) p = Some (m1, Status ADM_OK) /\ reserved m1 (Some 0%nat) = Some 60.
Proof.
  destruct (reserve_release_alone (mach small) 0 0 (Governor 100 0 105 5 Budget.ENFORCING Budget.SRC_ENV) (reservation_init 0) 60) as (p & Hp & H);
    [reflexivity|reflexivity|reflexivity|by left|mi|cbn; lia|cbn; mi|].
  exists p. destruct H as (m1 & Ha & Hg & _). exists m1. split; [exact Hp|]. split; [exact Ha|].
  unfold reserved, get_governor, rd. rewrite Hg. reflexivity.
Defined.

End GovernorProof.
