(* ===== verification/Crc32.v ===== *)
(** * CRC-32

    wirelog/crc32.c: the two table-driven checksums, with their lazily built
    static tables and the hardware path of the Castagnoli variant. The CRC32
    instruction and the processor's feature bit are parameters. *)
From S2P Require Import Prelude.

Module Crc.

Definition ETHERNET_POLY : Z := 3988292384.   (* 0xEDB88320 *)
Definition CASTAGNOLI_POLY : Z := 2197175160. (* 0x82F63B78 *)
Definition ONES : Z := 4294967295.            (* 0xFFFFFFFF *)

(** The file's static variables; a table starts zeroed. [hw_cached] is
    g_hw_crc32_available, [None] for -1. *)
Record statics := Statics {
  ethernet_table : list Z; ethernet_table_ready : bool;
  castagnoli_table : list Z; castagnoli_table_ready : bool;
  hw_cached : option bool }.

Definition fresh_statics : statics := Statics (replicate 256 0) false (replicate 256 0) false None.

(** The body of the inner loop of the two init functions. *)
Definition shift (poly crc : Z) : Z :=
  if Z.land crc 1 =? 1 then Z.lxor (Z.shiftr crc 1) poly else Z.shiftr crc 1.
Fixpoint shifts (n : nat) (poly crc : Z) : Z :=
  match n with O => crc | S n' => shifts n' poly (shift poly crc) end.

Definition make_table (poly : Z) : list Z := (fun i => shifts 8 poly (Z.of_nat i)) <$> seq 0 256.

Definition ethernet_crc32_init (s : statics) : statics :=
  Statics (make_table ETHERNET_POLY) true (castagnoli_table s) (castagnoli_table_ready s) (hw_cached s).
Definition castagnoli_crc32_init (s : statics) : statics :=
  Statics (ethernet_table s) (ethernet_table_ready s) (make_table CASTAGNOLI_POLY) true (hw_cached s).

(** crc = (crc >> 8) ^ table[(crc ^ data[i]) & 0xFF] over the data. *)
Fixpoint table_loop (table : list Z) (data : list Z) (crc : Z) : option Z :=
  match data with
  | [] => Some crc
  | d :: rest =>
      e ← rd table (Z.to_nat (Z.land (Z.lxor crc d) 255));
      table_loop table rest (Z.lxor (Z.shiftr crc 8) e)
  end.

Definition ethernet_crc32 (s : statics) (data : list Z) : option (statics * Z) :=
  let s := if ethernet_table_ready s then s else ethernet_crc32_init s in
  crc ← table_loop (ethernet_table s) data ONES;
  Some (s, Z.lxor crc ONES).

(** [intrinsics]: the build has one of the CRC32 instructions; [available]:
    what the run-time detection answers; [hw_u8]: the instruction. *)
Definition hw_crc32_check (available : bool) (s : statics) : statics * bool :=
  match hw_cached s with
  | Some b => (s, b)
  | None => (Statics (ethernet_table s) (ethernet_table_ready s) (castagnoli_table s) (castagnoli_table_ready s)
               (Some available), available)
  end.

Definition castagnoli_crc32 (intrinsics available : bool) (hw_u8 : Z -> Z -> Z) (s : statics) (data : list Z) :
    option (statics * Z) :=
  let '(s, hw) := if intrinsics then hw_crc32_check available s else (s, false) in
  if hw : bool then Some (s, Z.lxor (foldl hw_u8 ONES data) ONES)
  else
    let s := if castagnoli_table_ready s then s else castagnoli_crc32_init s in
    crc ← table_loop (castagnoli_table s) data ONES;
    Some (s, Z.lxor crc ONES).

(** ** The reference: polynomial division, a message bit at a time *)

Definition bit_in (poly crc b : Z) : Z := shift poly (Z.lxor crc b).
Definition byte_in (poly crc byte : Z) : Z :=
  foldl (fun c j => bit_in poly c (Z.land (Z.shiftr byte (Z.of_nat j)) 1)) crc (seq 0 8).
Definition crc_reference (poly : Z) (data : list Z) : Z := Z.lxor (foldl (byte_in poly) ONES data) ONES.

Definition is_byte (b : Z) : Prop := 0 <= b < 256.
Definition is_word (w : Z) : Prop := 0 <= w < 2 ^ 32.

(** A table that says it is ready holds its entries. *)
Definition statics_ok (s : statics) : Prop :=
  (ethernet_table_ready s = true -> ethernet_table s = make_table ETHERNET_POLY) /\
  (castagnoli_table_ready s = true -> castagnoli_table s = make_table CASTAGNOLI_POLY).

(** ** The shift is linear over GF(2) *)

Lemma land1_testbit c : (Z.land c 1 =? 1) = Z.testbit c 0.
Proof.
  change 1 with (Z.ones 1) at 1. rewrite Z.land_ones by lia. rewrite Z.bit0_odd, Zodd_mod. done.
Qed.

Lemma shift_lxor poly a b : shift poly (Z.lxor a b) = Z.lxor (shift poly a) (shift poly b).
Proof.
  unfold shift. rewrite !land1_testbit, Z.lxor_spec, Z.shiftr_lxor.
  destruct (Z.testbit a 0), (Z.testbit b 0); cbn [xorb]; apply Z.bits_inj'; intros n Hn; rewrite ?Z.lxor_spec;
    by destruct (Z.testbit (Z.shiftr a 1) n), (Z.testbit (Z.shiftr b 1) n), (Z.testbit poly n).
Qed.

Lemma shifts_lxor n poly : forall a b, shifts n poly (Z.lxor a b) = Z.lxor (shifts n poly a) (shifts n poly b).
Proof. induction n as [|n IH]; intros a b; cbn [shifts]; [done|]. by rewrite shift_lxor, IH. Qed.

Lemma shifts_add m n poly : forall c, shifts (m + n) poly c = shifts n poly (shifts m poly c).
Proof. induction m as [|m IH]; intros c; cbn [shifts Nat.add]; [done|]. apply IH. Qed.

(** Low zero bits are only shifted out. *)
Lemma shift_even poly y : shift poly (2 * y) = y.
Proof.
  unfold shift. rewrite land1_testbit, Z.testbit_even_0. rewrite <- Z.div2_spec. rewrite Z.div2_div.
  rewrite Z.mul_comm. by apply Z.div_mul.
Qed.

Lemma shifts_shiftl n poly : forall y, shifts n poly (Z.shiftl y (Z.of_nat n)) = y.
Proof.
  induction n as [|n IH]; intros y; cbn [shifts]; [apply Z.shiftl_0_r|].
  replace (Z.shiftl y (Z.of_nat (S n))) with (2 * Z.shiftl y (Z.of_nat n)).
  - by rewrite shift_even.
  - rewrite !Z.shiftl_mul_pow2 by lia. rewrite Nat2Z.inj_succ, Z.pow_succ_r by lia. lia.
Qed.

(** The low [n + 1] bits: the lowest one and [n] above it. *)
Lemma split_low x n : 0 <= n ->
  Z.land x (Z.ones (Z.succ n)) = Z.lxor (Z.land x 1) (2 * Z.land (Z.shiftr x 1) (Z.ones n)).
Proof.
  intros Hn. apply Z.bits_inj'. intros i Hi. rewrite Z.lxor_spec, !Z.land_spec.
  change (Z.testbit 1 i) with (Z.testbit (Z.ones 1) i). rewrite !Z.testbit_ones_nonneg by lia.
  destruct (decide (i = 0)) as [->|].
  - rewrite Z.testbit_even_0. rewrite (proj2 (Z.ltb_lt 0 (Z.succ n))) by lia. by destruct (Z.testbit x 0).
  - replace i with (Z.succ (i - 1)) by lia. rewrite Z.double_bits_succ, Z.land_spec, Z.shiftr_spec by lia.
    rewrite Z.testbit_ones_nonneg by lia. rewrite (proj2 (Z.ltb_ge (Z.succ (i - 1)) 1)), andb_false_r by lia.
    replace (i - 1 + 1) with (Z.succ (i - 1)) by lia.
    replace (Z.succ (i - 1) <? Z.succ n) with (i - 1 <? n); [by destruct (_ && _)|].
    destruct (Z.ltb_spec (i - 1) n), (Z.ltb_spec (Z.succ (i - 1)) (Z.succ n)); lia || done.
Qed.

(** Feeding [n] message bits one at a time, or all at once. *)
Lemma bits_at_once poly byte n : forall k crc,
  foldl (fun c j => bit_in poly c (Z.land (Z.shiftr byte (Z.of_nat j)) 1)) crc (seq k n) =
  shifts n poly (Z.lxor crc (Z.land (Z.shiftr byte (Z.of_nat k)) (Z.ones (Z.of_nat n)))).
Proof.
  induction n as [|n IH]; intros k crc; cbn [seq foldl shifts].
  - change (Z.ones (Z.of_nat 0)) with 0. by rewrite Z.land_0_r, Z.lxor_0_r.
  - rewrite IH, !Nat2Z.inj_succ, split_low by lia. unfold bit_in.
    rewrite <- Z.lxor_assoc, (shift_lxor poly (Z.lxor crc _)), shift_even.
    rewrite Z.shiftr_shiftr by lia. done.
Qed.

Lemma byte_in_shifts poly crc byte : is_byte byte -> byte_in poly crc byte = shifts 8 poly (Z.lxor crc byte).
Proof.
  intros Hb. unfold byte_in. rewrite bits_at_once, Z.shiftr_0_r. do 2 f_equal. rewrite Z.land_ones by lia.
  apply Z.mod_small. unfold is_byte in Hb. lia.
Qed.

(** ** The table *)

Lemma split_byte x : 0 <= x -> x = Z.lxor (Z.land x 255) (Z.shiftl (Z.shiftr x 8) 8).
Proof.
  intros Hx. apply Z.bits_inj'. intros i Hi. rewrite Z.lxor_spec, Z.land_spec. change 255 with (Z.ones 8).
  rewrite Z.testbit_ones_nonneg by lia. destruct (Z.ltb_spec i 8).
  - rewrite Z.shiftl_spec_low by lia. by rewrite andb_true_r, xorb_false_r.
  - rewrite Z.shiftl_spec_high, Z.shiftr_spec by lia. rewrite andb_false_r, xorb_false_l. f_equal. lia.
Qed.

Lemma byte_land x : 0 <= Z.land x 255 < 256.
Proof. change 255 with (Z.ones 8). rewrite Z.land_ones by lia. by apply Z.mod_pos_bound. Qed.

Lemma table_entry poly x : 0 <= x < 256 -> rd (make_table poly) (Z.to_nat x) = Some (shifts 8 poly x).
Proof.
  intros Hx. unfold rd, make_table. rewrite list_lookup_fmap, lookup_seq_lt by lia. cbn [fmap option_fmap option_map].
  do 2 f_equal. lia.
Qed.

Lemma byte_shiftr b : is_byte b -> Z.shiftr b 8 = 0.
Proof. intros Hb. rewrite Z.shiftr_div_pow2 by lia. apply Z.div_small. exact Hb. Qed.

Lemma lxor_nonneg a b : 0 <= a -> 0 <= b -> 0 <= Z.lxor a b.
Proof. intros. apply Z.lxor_nonneg. tauto. Qed.

(** One step of the table loop divides by eight bits. *)
Lemma table_step poly crc d : 0 <= crc -> is_byte d ->
  Z.lxor (Z.shiftr crc 8) (shifts 8 poly (Z.land (Z.lxor crc d) 255)) = shifts 8 poly (Z.lxor crc d).
Proof.
  intros Hc Hd. rewrite (split_byte (Z.lxor crc d)) at 2 by (apply lxor_nonneg; [done|apply Hd]).
  rewrite shifts_lxor.
  pose proof (shifts_shiftl 8 poly (Z.shiftr (Z.lxor crc d) 8)) as E. change (Z.of_nat 8) with 8 in E. rewrite E. clear E.
  rewrite Z.shiftr_lxor, (byte_shiftr d Hd), Z.lxor_0_r. apply Z.lxor_comm.
Qed.

Lemma is_word_bits a : is_word a <-> 0 <= a /\ forall i, 32 <= i -> Z.testbit a i = false.
Proof.
  unfold is_word. split.
  - intros [H0 H1]. split; [done|]. intros i Hi. destruct (decide (a = 0)) as [->|]; [apply Z.bits_0|].
    apply Z.bits_above_log2; [done|]. enough (Z.log2 a < 32) by lia. apply Z.log2_lt_pow2; lia.
  - intros [H0 H1]. split; [done|]. destruct (decide (a = 0)) as [->|]; [lia|]. apply Z.log2_lt_pow2; [lia|].
    apply Z.nle_gt. intros Hle. specialize (H1 _ Hle). by rewrite Z.bit_log2 in H1 by lia.
Qed.

Lemma lxor_word a b : is_word a -> is_word b -> is_word (Z.lxor a b).
Proof.
  rewrite !is_word_bits. intros [Ha Hab] [Hb Hbb]. split; [by apply lxor_nonneg|]. intros i Hi.
  by rewrite Z.lxor_spec, Hab, Hbb.
Qed.

Lemma byte_word b : is_byte b -> is_word b.
Proof. unfold is_byte, is_word. lia. Qed.

Lemma shift_word poly c : is_word poly -> is_word c -> is_word (shift poly c).
Proof.
  intros Hp Hc. assert (Hs : is_word (Z.shiftr c 1)).
  { rewrite is_word_bits in Hc |- *. destruct Hc as [Hc Hb]. split; [by apply Z.shiftr_nonneg|]. intros i Hi.
    rewrite Z.shiftr_spec by lia. apply Hb. lia. }
  unfold shift. destruct (_ =? _); [by apply lxor_word|done].
Qed.

Lemma shifts_word n poly : is_word poly -> forall c, is_word c -> is_word (shifts n poly c).
Proof. intros Hp. induction n as [|n IH]; intros c Hc; cbn [shifts]; [done|]. by apply IH, shift_word. Qed.

Lemma byte_in_word poly c d : is_word poly -> is_word c -> is_byte d -> is_word (byte_in poly c d).
Proof. intros. rewrite byte_in_shifts by done. by apply shifts_word; [|apply lxor_word; [|apply byte_word]]. Qed.

Lemma table_loop_ok poly data : is_word poly -> Forall is_byte data -> forall crc, is_word crc ->
  table_loop (make_table poly) data crc = Some (foldl (byte_in poly) crc data).
Proof.
  intros Hp. induction 1 as [|d data Hd _ IH]; intros crc Hc; cbn [table_loop foldl]; [done|].
  rewrite table_entry by apply byte_land. cbn [mbind option_bind]. rewrite table_step by (done || apply Hc).
  rewrite <- byte_in_shifts by done. apply IH. by apply byte_in_word.
Qed.

Lemma hw_loop_ok poly hw data : is_word poly -> Forall is_byte data ->
  (forall crc b, is_word crc -> is_byte b -> hw crc b = byte_in poly crc b) ->
  forall crc, is_word crc -> foldl hw crc data = foldl (byte_in poly) crc data.
Proof.
  intros Hp Hd Hhw. induction Hd as [|d data Hb _ IH]; intros crc Hc; cbn [foldl]; [done|].
  rewrite Hhw by done. apply IH. by apply byte_in_word.
Qed.

Lemma ethernet_ok s data : statics_ok s -> Forall is_byte data ->
  exists s', ethernet_crc32 s data = Some (s', crc_reference ETHERNET_POLY data) /\ statics_ok s'.
Proof.
  intros Hs Hd. pose proof Hs as [He Hc]. unfold ethernet_crc32. cbv zeta.
  assert (Ht : ethernet_table (if ethernet_table_ready s then s else ethernet_crc32_init s) = make_table ETHERNET_POLY /\
    statics_ok (if ethernet_table_ready s then s else ethernet_crc32_init s)).
  { destruct (ethernet_table_ready s) eqn:E; split; [by apply He|done|done|by split]. }
  destruct Ht as [-> Hok]. rewrite table_loop_ok by (done || (unfold is_word, ETHERNET_POLY, ONES; lia)).
  cbn [mbind option_bind]. by eexists.
Qed.

Lemma castagnoli_ok intrinsics available hw_u8 s data : statics_ok s -> Forall is_byte data ->
  (forall crc b, is_word crc -> is_byte b -> hw_u8 crc b = byte_in CASTAGNOLI_POLY crc b) ->
  exists s', castagnoli_crc32 intrinsics available hw_u8 s data = Some (s', crc_reference CASTAGNOLI_POLY data) /\ statics_ok s'.
Proof.
  intros Hs Hd Hhw. unfold castagnoli_crc32.
  set (p := if intrinsics then hw_crc32_check available s else (s, false)).
  assert (Hp : statics_ok p.1). { subst p. destruct intrinsics; [|done]. unfold hw_crc32_check. by destruct (hw_cached s). }
  destruct p as [s1 hw]. cbn [fst] in Hp. assert (is_word CASTAGNOLI_POLY /\ is_word ONES) as [Hw Ho].
  { unfold is_word, CASTAGNOLI_POLY, ONES. lia. }
  destruct hw.
  - exists s1. split; [|done]. unfold crc_reference. by rewrite (hw_loop_ok CASTAGNOLI_POLY).
  - cbv zeta. assert (Ht : castagnoli_table (if castagnoli_table_ready s1 then s1 else castagnoli_crc32_init s1) = make_table CASTAGNOLI_POLY /\
      statics_ok (if castagnoli_table_ready s1 then s1 else castagnoli_crc32_init s1)).
    { pose proof Hp as [He Hc]. destruct (castagnoli_table_ready s1) eqn:E; split; [by apply Hc|done|done|by split]. }
    destruct Ht as [-> Hok]. rewrite table_loop_ok by done. cbn [mbind option_bind]. by eexists.
Qed.

(** for every message of bytes and every state of the static tables, both
    checksums compute the reference, the reflected polynomial division that
    takes the message a bit at a time: with the table built on first use or
    already there, and for the Castagnoli variant in every dispatch to the
    CRC32 instruction or to the table, given that the instruction divides one
    byte in. The tables stay well-formed. *)
Theorem crc32_exact (intrinsics available : bool) (hw_u8 : Z -> Z -> Z) (s : statics) (data : list Z) :
  statics_ok s -> Forall is_byte data ->
  (forall crc b, is_word crc -> is_byte b -> hw_u8 crc b = byte_in CASTAGNOLI_POLY crc b) ->
  (exists s', ethernet_crc32 s data = Some (s', crc_reference ETHERNET_POLY data) /\ statics_ok s') /\
  (exists s', castagnoli_crc32 intrinsics available hw_u8 s data = Some (s', crc_reference CASTAGNOLI_POLY data) /\
     statics_ok s').
Proof. intros Hs Hd Hhw. split; [by apply ethernet_ok|by apply castagnoli_ok]. Qed.

(** ** Error detection *)

Lemma shift_inj poly a b : Z.testbit poly 31 = true -> is_word a -> is_word b -> shift poly a = shift poly b -> a = b.
Proof.
  intros Hp Ha Hb E.
  assert (Hbit : forall c, is_word c -> Z.testbit (shift poly c) 31 = Z.testbit c 0).
  { intros c Hc. unfold shift. rewrite land1_testbit. rewrite is_word_bits in Hc. destruct Hc as [_ Hc].
    assert (H31 : Z.testbit (Z.shiftr c 1) 31 = false) by (rewrite Z.shiftr_spec by lia; apply Hc; lia).
    destruct (Z.testbit c 0); [by rewrite Z.lxor_spec, H31, Hp|done]. }
  assert (H0 : Z.testbit a 0 = Z.testbit b 0) by (rewrite <- (Hbit a), <- (Hbit b), E; done).
  assert (Hs : Z.shiftr a 1 = Z.shiftr b 1).
  { unfold shift in E. rewrite !land1_testbit, H0 in E. destruct (Z.testbit b 0); [|done].
    apply (f_equal (fun x => Z.lxor x poly)) in E. by rewrite !Z.lxor_assoc, Z.lxor_nilpotent, !Z.lxor_0_r in E. }
  apply Z.bits_inj'. intros i Hi. destruct (decide (i = 0)) as [->|]; [done|].
  replace i with (i - 1 + 1) by lia. by rewrite <- !(Z.shiftr_spec _ 1 (i - 1)), Hs by lia.
Qed.

Lemma shifts_inj poly n : is_word poly -> Z.testbit poly 31 = true -> forall a b, is_word a -> is_word b ->
  shifts n poly a = shifts n poly b -> a = b.
Proof.
  intros Hw Hp. induction n as [|n IH]; intros a b Ha Hb E; cbn [shifts] in E; [done|].
  apply (shift_inj poly); try done. apply IH; [by apply shift_word..|done].
Qed.

(** A window of bytes as one little-endian number. *)
Fixpoint le (bs : list Z) : Z := match bs with [] => 0 | b :: bs => Z.lxor b (Z.shiftl (le bs) 8) end.

Lemma window poly bs : Forall is_byte bs -> forall c,
  foldl (byte_in poly) c bs = shifts (8 * length bs) poly (Z.lxor c (le bs)).
Proof.
  induction 1 as [|b bs Hb _ IH]; intros c; cbn [foldl le length].
  - by rewrite Z.lxor_0_r.
  - rewrite IH, byte_in_shifts by done. replace (8 * S (length bs))%nat with (8 + 8 * length bs)%nat by lia.
    rewrite shifts_add, <- Z.lxor_assoc, (shifts_lxor 8 poly (Z.lxor c b)).
    pose proof (shifts_shiftl 8 poly (le bs)) as E. change (Z.of_nat 8) with 8 in E. by rewrite E.
Qed.

Lemma le_bits bs : Forall is_byte bs -> 0 <= le bs /\ forall i, 8 * Z.of_nat (length bs) <= i -> Z.testbit (le bs) i = false.
Proof.
  induction 1 as [|b bs Hb _ [IH0 IH]]; cbn [le length]; [split; [done|intros; apply Z.bits_0]|].
  split; [apply lxor_nonneg; [apply Hb|by apply Z.shiftl_nonneg]|]. intros i Hi.
  rewrite Z.lxor_spec, Z.shiftl_spec_high by lia. rewrite IH by lia.
  replace i with (i - 8 + 8) by lia. by rewrite <- Z.shiftr_spec, (byte_shiftr b Hb), Z.bits_0 by lia.
Qed.

Lemma le_word bs : Forall is_byte bs -> (length bs <= 4)%nat -> is_word (le bs).
Proof. intros Hb Hl. apply is_word_bits. destruct (le_bits bs Hb) as [H0 H]. split; [done|]. intros i Hi. apply H. lia. Qed.

Lemma le_inj bs : Forall is_byte bs -> forall cs, Forall is_byte cs -> length bs = length cs -> le bs = le cs -> bs = cs.
Proof.
  induction 1 as [|b bs Hb _ IH]; intros cs Hcs Hl E; [by destruct cs|]. destruct Hcs as [|c cs Hc Hcs]; [done|].
  cbn [le] in E.
  assert (Hlow : forall x y, is_byte x -> Z.land (Z.lxor x (Z.shiftl y 8)) 255 = x /\ Z.shiftr (Z.lxor x (Z.shiftl y 8)) 8 = y).
  { intros x y Hx. split.
    - change 255 with (Z.ones 8). apply Z.bits_inj'. intros i Hi. rewrite Z.land_spec, Z.lxor_spec, Z.testbit_ones_nonneg by lia.
      destruct (Z.ltb_spec i 8); [rewrite Z.shiftl_spec_low by lia; by rewrite xorb_false_r, andb_true_r|].
      rewrite andb_false_r. replace i with (i - 8 + 8) by lia. by rewrite <- Z.shiftr_spec, (byte_shiftr x Hx), Z.bits_0 by lia.
    - rewrite Z.shiftr_lxor, (byte_shiftr x Hx), Z.lxor_0_l, Z.shiftr_shiftl_l, Z.shiftl_0_r by lia. done. }
  destruct (Hlow b (le bs) Hb) as [E1 E2]. destruct (Hlow c (le cs) Hc) as [E3 E4].
  rewrite E in E1, E2. f_equal; [congruence|]. apply IH; [done|by injection Hl|congruence].
Qed.

Lemma fold_word poly data : is_word poly -> Forall is_byte data -> forall c, is_word c -> is_word (foldl (byte_in poly) c data).
Proof. intros Hp. induction 1 as [|d data Hd _ IH]; intros c Hc; cbn [foldl]; [done|]. apply IH. by apply byte_in_word. Qed.

Lemma fold_inj poly data : is_word poly -> Z.testbit poly 31 = true -> Forall is_byte data -> forall a b, is_word a -> is_word b ->
  foldl (byte_in poly) a data = foldl (byte_in poly) b data -> a = b.
Proof.
  intros Hp H31. induction 1 as [|d data Hd _ IH]; intros a b Ha Hb E; cbn [foldl] in E; [done|].
  apply IH in E; [|by apply byte_in_word..]. rewrite !byte_in_shifts in E by done.
  apply shifts_inj in E; [|done|done|by apply lxor_word; [|apply byte_word]..].
  apply (f_equal (fun x => Z.lxor x d)) in E. by rewrite !Z.lxor_assoc, Z.lxor_nilpotent, !Z.lxor_0_r in E.
Qed.

Lemma reference_detects poly pre w1 w2 post : is_word poly -> Z.testbit poly 31 = true ->
  Forall is_byte pre -> Forall is_byte w1 -> Forall is_byte w2 -> Forall is_byte post ->
  length w1 = length w2 -> (length w1 <= 4)%nat -> w1 <> w2 ->
  crc_reference poly (pre ++ w1 ++ post) <> crc_reference poly (pre ++ w2 ++ post).
Proof.
  intros Hp H31 Hpre H1 H2 Hpost Hl H4 Hne E. unfold crc_reference in E.
  apply (f_equal (fun x => Z.lxor x ONES)) in E. rewrite !Z.lxor_assoc, Z.lxor_nilpotent, !Z.lxor_0_r in E.
  rewrite !foldl_app in E. assert (Hw : is_word (foldl (byte_in poly) ONES pre)).
  { apply fold_word; [done|done|]. unfold is_word, ONES. lia. }
  apply fold_inj in E; [|done|done|done|by apply fold_word..]. set (c := foldl (byte_in poly) ONES pre) in *.
  rewrite !window, <- Hl in E by done.
  apply shifts_inj in E; [|done|done|apply lxor_word; [done|apply le_word; [done|lia]]..].
  apply (f_equal (Z.lxor c)) in E.
  rewrite <- !Z.lxor_assoc, Z.lxor_nilpotent, !Z.lxor_0_l in E. by apply Hne, le_inj.
Qed.

(** both checksums detect every burst of at most four bytes: two messages
    that differ only inside a window of up to four consecutive bytes never
    have the same checksum. *)
Theorem crc32_detects_bursts (intrinsics available : bool) (hw_u8 : Z -> Z -> Z) (s : statics)
    (pre w1 w2 post : list Z) :
  (forall crc b, is_word crc -> is_byte b -> hw_u8 crc b = byte_in CASTAGNOLI_POLY crc b) ->
  statics_ok s -> Forall is_byte pre -> Forall is_byte w1 -> Forall is_byte w2 -> Forall is_byte post ->
  length w1 = length w2 -> (length w1 <= 4)%nat -> w1 <> w2 ->
  (exists s1 s2 c1 c2, ethernet_crc32 s (pre ++ w1 ++ post) = Some (s1, c1) /\
    ethernet_crc32 s (pre ++ w2 ++ post) = Some (s2, c2) /\ c1 <> c2) /\
  (exists s1 s2 c1 c2, castagnoli_crc32 intrinsics available hw_u8 s (pre ++ w1 ++ post) = Some (s1, c1) /\
    castagnoli_crc32 intrinsics available hw_u8 s (pre ++ w2 ++ post) = Some (s2, c2) /\ c1 <> c2).
Proof.
  intros Hhw Hs Hpre H1 H2 Hpost Hl H4 Hne.
  assert (Hd1 : Forall is_byte (pre ++ w1 ++ post)) by (by repeat apply Forall_app_2).
  assert (Hd2 : Forall is_byte (pre ++ w2 ++ post)) by (by repeat apply Forall_app_2). split.
  - destruct (ethernet_ok s _ Hs Hd1) as (s1 & -> & _). destruct (ethernet_ok s _ Hs Hd2) as (s2 & -> & _).
    do 4 eexists. split; [done|]. split; [done|]. by apply reference_detects.
  - destruct (castagnoli_ok intrinsics available hw_u8 s _ Hs Hd1 Hhw) as (s1 & -> & _).
    destruct (castagnoli_ok intrinsics available hw_u8 s _ Hs Hd2 Hhw) as (s2 & -> & _).
    do 4 eexists. split; [done|]. split; [done|]. by apply reference_detects.
Qed.

Lemma statics_fresh_ok : statics_ok fresh_statics.
Proof. by split. Qed.

(** "123456789", whose checksums the two standards list. *)
Definition check_input : list Z := [49; 50; 51; 52; 53; 54; 55; 56; 57].

Lemma crc32_exact_witness :
  crc_reference ETHERNET_POLY check_input = 3421780262 /\ crc_reference CASTAGNOLI_POLY check_input = 3808858755 /\
  (exists s', ethernet_crc32 fresh_statics check_input = Some (s', 3421780262)) /\
  (exists s', castagnoli_crc32 true true (byte_in CASTAGNOLI_POLY) fresh_statics check_input = Some (s', 3808858755)).
Proof.
  split; [vm_compute; reflexivity|]. split; [vm_compute; reflexivity|].
  destruct (crc32_exact true true (byte_in CASTAGNOLI_POLY) fresh_statics check_input) as [(s1 & E1 & _) (s2 & E2 & _)];
    [exact statics_fresh_ok|repeat constructor; discriminate|intros; reflexivity|].
  split; [exists s1; exact E1|exists s2; exact E2].
Defined.

Lemma crc32_detects_bursts_witness : exists s1 s2 c1 c2,
  ethernet_crc32 fresh_statics ([1] ++ [2; 3] ++ [4]) = Some (s1, c1) /\
  ethernet_crc32 fresh_statics ([1] ++ [3; 2] ++ [4]) = Some (s2, c2) /\ c1 <> c2.
Proof.
  apply (crc32_detects_bursts true true (byte_in CASTAGNOLI_POLY) fresh_statics [1] [2; 3] [3; 2] [4]);
    [intros; reflexivity|exact statics_fresh_ok|repeat constructor; discriminate..|reflexivity|cbn; lia|discriminate].
Defined.

End Crc.
