(* ===== verification/LockfreeQueue.v ===== *)
(** * The lock-free delta queue (src/wirelog/util/lockfree_queue.c)

    Worker threads hand delta relations to the coordinator through one
    single-producer single-consumer ring each.  The state of a ring keeps, for
    both cursors, every value stored so far in modification order: an acquire
    load of the peer's cursor returns any store not older than the last one the
    thread has seen, which is what the C11 orderings of the code promise, and a
    relaxed load of the thread's own cursor returns its last store.  Slots are
    ordinary memory; that no two threads ever touch one at the same time is a
    theorem. *)

From S2P Require Import Prelude.

Module Queue.

(** ** Data *)

Record msg := Msg {
  delta : Z; stratum : Z; worker_id : Z; rel_idx : Z; epoch : Z; flags : Z; rc : Z }.

Definition zero_msg : msg := Msg 0 0 0 0 0 0 0.

#[export] Instance msg_eq_dec : EqDecision msg.
Proof. solve_decision. Defined.
#[export] Instance msg_inhabited : Inhabited msg := populate zero_msg.

Record ring := Ring {
  slots : list msg;
  capacity : Z;
  mask : Z;
  tails : list Z;
  heads : list Z }.

#[export] Instance ring_inhabited : Inhabited ring := populate (Ring [] 0 0 [] []).

Record queue := Q {
  workers : list ring;
  num_workers : Z;
  dequeue_idx : Z;
  destroy_payload : bool }.

(** What the queue allocates. *)
Inductive block := BQueue | BWorkers | BSlots (i : nat).

#[export] Instance block_eq_dec : EqDecision block.
Proof. solve_decision. Defined.

(** free() of the blocks [bs]. *)
Definition free (bs live : list block) : list block := filter (fun b => b ∉ bs) live.

(** ** Creation *)

Definition next_pow2 (v : Z) : Z :=
  let v := if v <? 2 then 2 else v in
  if UINT32_MAX / 2 + 1 <? v then 0
  else u32 (smear 16 (smear 8 (smear 4 (smear 2 (smear 1 (v - 1))))) + 1).

(** spsc_init: [None] is the -1 return. *)
Definition spsc_init (slots_ok : bool) (capacity : Z) : option ring :=
  let capacity := next_pow2 capacity in
  if capacity =? 0 then None
  else if negb slots_ok then None
  else Some (Ring (replicate (Z.to_nat capacity) zero_msg) capacity (capacity - 1) [0] [0]).

(** The loop over the workers, from worker [i] on; [made] holds the rings
    already made, which a failure destroys. *)
Fixpoint init_workers (slots_ok : nat -> bool) (capacity : Z) (n i : nat) (made : list ring)
    (live : list block) : option (list ring) * list block :=
  match n with
  | O => (Some made, live)
  | S n' =>
      match spsc_init (slots_ok i) capacity with
      | Some r => init_workers slots_ok capacity n' (S i) (made ++ [r]) (BSlots i :: live)
      | None => (None, free ((BSlots <$> seq 0 i) ++ [BWorkers; BQueue]) live)
      end
  end.

(** wl_mpsc_queue_create_with_destructor, with the blocks that stay allocated. *)
Definition create_with_destructor (queue_ok workers_ok : bool) (slots_ok : nat -> bool)
    (num_workers capacity : Z) (destroy_payload : bool) : option queue * list block :=
  if (num_workers =? 0) || (capacity <? 2) then (None, [])
  else if negb queue_ok then (None, [])
  else if negb workers_ok then (None, free [BQueue] [BQueue])
  else
    let '(rings, live) :=
      init_workers slots_ok capacity (Z.to_nat num_workers) 0 [] [BWorkers; BQueue] in
    match rings with
    | Some rs => (Some (Q rs num_workers 0 destroy_payload), live)
    | None => (None, live)
    end.

Definition create (queue_ok workers_ok : bool) (slots_ok : nat -> bool) (num_workers capacity : Z) :=
  create_with_destructor queue_ok workers_ok slots_ok num_workers capacity false.

Definition sizeof_queue : Z := 24.
Definition sizeof_ring : Z := 192.
Definition sizeof_msg : Z := 32.

Definition footprint_bytes (q : option queue) : Z :=
  match q with
  | None => 0
  | Some q =>
      foldl (fun bytes r => u64 (bytes + u64 (capacity r * sizeof_msg)))
        (u64 (sizeof_queue + u64 (num_workers q * sizeof_ring))) (workers q)
  end.

(** ** The two ring operations, one atomic access per step

    [k] is the store the acquire load of this step reads from, counted in
    modification order, and [seen] the newest one the thread has read. *)

Definition load_peer (stores : list Z) (seen k : nat) : option Z :=
  if (seen <=? k)%nat then stores !! k else None.

Inductive enq :=
| E_tail (item : msg)
| E_head (item : msg) (tail : Z)
| E_write (item : msg) (tail : Z)
| E_publish (item : msg) (tail : Z).

Definition slot_of (r : ring) (cursor : Z) : nat := Z.to_nat (Z.land cursor (mask r)).

(** spsc_enqueue; [inr] is its return value. *)
Definition spsc_enqueue (r : ring) (seen k : nat) (e : enq) : option (ring * nat * (enq + Z)) :=
  match e with
  | E_tail item => tail ← last (tails r); Some (r, seen, inl (E_head item tail))
  | E_head item tail =>
      head ← load_peer (heads r) seen k;
      if capacity r <=? u32 (tail - head) then Some (r, k, inr (-1))
      else Some (r, k, inl (E_write item tail))
  | E_write item tail =>
      slots' ← wr (slots r) (slot_of r tail) item;
      Some (Ring slots' (capacity r) (mask r) (tails r) (heads r), seen, inl (E_publish item tail))
  | E_publish item tail =>
      Some (Ring (slots r) (capacity r) (mask r) (tails r ++ [u32 (tail + 1)]) (heads r), seen, inr 0)
  end.

Inductive deq :=
| D_head
| D_tail (head : Z)
| D_read (head : Z)
| D_publish (head : Z) (out : msg).

(** spsc_dequeue; [inr None] is the return 0, [inr (Some m)] the return 1 with
    [m] in [*out]. *)
Definition spsc_dequeue (r : ring) (seen k : nat) (d : deq) : option (ring * nat * (deq + option msg)) :=
  match d with
  | D_head => head ← last (heads r); Some (r, seen, inl (D_tail head))
  | D_tail head =>
      tail ← load_peer (tails r) seen k;
      if head =? tail then Some (r, k, inr None) else Some (r, k, inl (D_read head))
  | D_read head => m ← rd (slots r) (slot_of r head); Some (r, seen, inl (D_publish head m))
  | D_publish head m =>
      Some (Ring (slots r) (capacity r) (mask r) (tails r) (heads r ++ [u32 (head + 1)]), seen, inr (Some m))
  end.

(** ** The threads *)

(** A worker between calls has no [enq]; the coordinator is between calls,
    inside wl_mpsc_dequeue at loop index [i], or inside wl_mpsc_dequeue_all at
    worker [w] with [buf] filled so far. *)
Inductive coord :=
| C_idle
| C_one (i idx : Z) (d : deq)
| C_all (w buf_len : Z) (buf : list msg) (d : deq).

Record producer := Prod { pc : option enq; p_seen : nat }.

Record machine := M {
  mq : queue;
  prods : list producer;
  co : coord;
  c_seen : list nat }.

Inductive event :=
| Sent (w : nat) (m : msg)
| Refused (w : nat)
| Got (w : nat) (m : msg)
| Returned (found : bool)
| Returned_all (buf : list msg).

Inductive choice :=
| Call_enqueue (w : nat) (delta stratum rel_idx : Z)
| Call_dequeue
| Call_dequeue_all (buf_len : Z)
| Producer (w k : nat)
| Consumer (k : nat).

Definition set_ring (m : machine) (w : nat) (r : ring) : option machine :=
  rs ← wr (workers (mq m)) w r;
  Some (M (Q rs (num_workers (mq m)) (dequeue_idx (mq m)) (destroy_payload (mq m))) (prods m) (co m) (c_seen m)).

Definition set_prod (m : machine) (w : nat) (p : producer) : option machine :=
  ps ← wr (prods m) w p; Some (M (mq m) ps (co m) (c_seen m)).

Definition set_co (m : machine) (c : coord) : machine := M (mq m) (prods m) c (c_seen m).

Definition set_seen (m : machine) (w seen : nat) : option machine :=
  ss ← wr (c_seen m) w seen; Some (M (mq m) (prods m) (co m) ss).

Definition set_idx (m : machine) (i : Z) : machine :=
  M (Q (workers (mq m)) (num_workers (mq m)) i (destroy_payload (mq m))) (prods m) (co m) (c_seen m).

(** wl_mpsc_enqueue up to the call of spsc_enqueue. *)
Definition call_enqueue (m : machine) (w : nat) (d s r : Z) : option (machine * list event) :=
  if num_workers (mq m) <=? Z.of_nat w then Some (m, [Refused w])
  else
    p ← prods m !! w;
    match pc p with
    | Some _ => None
    | None =>
        m' ← set_prod m w (Prod (Some (E_tail (Msg d s (Z.of_nat w) r 0 0 0))) (p_seen p));
        Some (m', [])
    end.

(** The head of the loop of wl_mpsc_dequeue at index [i]. *)
Definition one_loop (m : machine) (i : Z) : machine * list event :=
  if i <? num_workers (mq m) then
    (set_co m (C_one i (u32 (dequeue_idx (mq m) + i) mod num_workers (mq m)) D_head), [])
  else (set_co m C_idle, [Returned false]).

(** The heads of the two loops of wl_mpsc_dequeue_all at worker [w]. *)
Definition all_loop (m : machine) (w buf_len : Z) (buf : list msg) : machine * list event :=
  if (w <? num_workers (mq m)) && (Z.of_nat (length buf) <? buf_len) then
    (set_co m (C_all w buf_len buf D_head), [])
  else (set_co m C_idle, [Returned_all buf]).

Definition step_producer (m : machine) (w k : nat) : option (machine * list event) :=
  p ← prods m !! w;
  e ← pc p;
  r ← workers (mq m) !! w;
  '(r', seen, res) ← spsc_enqueue r (p_seen p) k e;
  m1 ← set_ring m w r';
  match res with
  | inl e' => m2 ← set_prod m1 w (Prod (Some e') seen); Some (m2, [])
  | inr v =>
      m2 ← set_prod m1 w (Prod None seen);
      Some (m2, match e with E_publish item _ => [Sent w item] | _ => [Refused w] end)
  end.

(** One step of the coordinator inside the ring of worker [w]: the result of
    spsc_dequeue is handed to [cont]. *)
Definition ring_step (m : machine) (w k : nat) (d : deq) (running : deq -> coord)
    (cont : machine -> option msg -> machine * list event) : option (machine * list event) :=
  r ← workers (mq m) !! w;
  seen ← c_seen m !! w;
  '(r', seen', res) ← spsc_dequeue r seen k d;
  m1 ← set_ring m w r';
  m2 ← set_seen m1 w seen';
  match res with
  | inl d' => Some (set_co m2 (running d'), [])
  | inr out =>
      let '(m3, ev) := cont m2 out in
      Some (m3, match out with Some x => Got w x :: ev | None => ev end)
  end.

Definition step_consumer (m : machine) (k : nat) : option (machine * list event) :=
  match co m with
  | C_idle => None
  | C_one i idx d =>
      ring_step m (Z.to_nat idx) k d (C_one i idx) (fun m' out =>
        match out with
        | Some _ =>
            (set_co (set_idx m' (u32 (idx + 1) mod num_workers (mq m'))) C_idle, [Returned true])
        | None => one_loop m' (u32 (i + 1))
        end)
  | C_all w buf_len buf d =>
      ring_step m (Z.to_nat w) k d (C_all w buf_len buf) (fun m' out =>
        match out with
        | Some x =>
            if Z.of_nat (length (buf ++ [x])) <? buf_len
            then (set_co m' (C_all w buf_len (buf ++ [x]) D_head), [])
            else all_loop m' (u32 (w + 1)) buf_len (buf ++ [x])
        | None => all_loop m' (u32 (w + 1)) buf_len buf
        end)
  end.

Definition step (m : machine) (c : choice) : option (machine * list event) :=
  match c with
  | Call_enqueue w d s r => call_enqueue m w d s r
  | Call_dequeue => if co m is C_idle then Some (one_loop m 0) else None
  | Call_dequeue_all buf_len =>
      if co m is C_idle then
        if buf_len =? 0 then Some (m, [Returned_all []]) else Some (all_loop m 0 buf_len [])
      else None
  | Producer w k => step_producer m w k
  | Consumer k => step_consumer m k
  end.

Fixpoint run (m : machine) (sched : list choice) : option (machine * list event) :=
  match sched with
  | [] => Some (m, [])
  | c :: rest =>
      '(m1, ev) ← step m c;
      '(m2, evs) ← run m1 rest;
      Some (m2, ev ++ evs)
  end.

(** The machine around a queue nobody uses yet. *)
Definition start (q : queue) : machine :=
  M q (replicate (length (workers q)) (Prod None 0)) C_idle (replicate (length (workers q)) 0%nat).

(** ** The operations without concurrency

    wl_mpsc_queue_destroy runs when every thread has stopped; the loads then
    read the last store.  The same reading gives the operations as the
    coordinator and one worker taking turns see them. *)

Definition newest (stores : list Z) : nat := pred (length stores).

Fixpoint enqueue_alone (fuel : nat) (r : ring) (e : enq) : option (ring * Z) :=
  match fuel with
  | O => None
  | S fuel' =>
      '(r', _, res) ← spsc_enqueue r 0 (newest (heads r)) e;
      match res with inl e' => enqueue_alone fuel' r' e' | inr v => Some (r', v) end
  end.

Fixpoint dequeue_alone (fuel : nat) (r : ring) (d : deq) : option (ring * option msg) :=
  match fuel with
  | O => None
  | S fuel' =>
      '(r', _, res) ← spsc_dequeue r 0 (newest (tails r)) d;
      match res with inl d' => dequeue_alone fuel' r' d' | inr out => Some (r', out) end
  end.

Definition put_ring (q : queue) (w : nat) (r : ring) : option queue :=
  rs ← wr (workers q) w r; Some (Q rs (num_workers q) (dequeue_idx q) (destroy_payload q)).

(** wl_mpsc_enqueue *)
Definition enqueue (q : queue) (w : nat) (delta stratum rel_idx : Z) : option (queue * Z) :=
  if num_workers q <=? Z.of_nat w then Some (q, -1)
  else
    r ← workers q !! w;
    '(r', v) ← enqueue_alone 4 r (E_tail (Msg delta stratum (Z.of_nat w) rel_idx 0 0 0));
    q' ← put_ring q w r';
    Some (q', v).

(** The loop of wl_mpsc_dequeue with [n] rounds left, at index [i]. *)
Fixpoint dequeue_loop (n : nat) (q : queue) (i : Z) : option (queue * option msg) :=
  match n with
  | O => Some (q, None)
  | S n' =>
      let idx := u32 (dequeue_idx q + i) mod num_workers q in
      r ← workers q !! Z.to_nat idx;
      '(r', out) ← dequeue_alone 4 r D_head;
      q' ← put_ring q (Z.to_nat idx) r';
      match out with
      | Some m =>
          Some (Q (workers q') (num_workers q') (u32 (idx + 1) mod num_workers q') (destroy_payload q'), Some m)
      | None => dequeue_loop n' q' (u32 (i + 1))
      end
  end.

Definition dequeue (q : queue) : option (queue * option msg) :=
  dequeue_loop (Z.to_nat (num_workers q)) q 0.

(** while (wl_mpsc_dequeue(q, &item)) if (item.delta) q->destroy_payload(item.delta); *)
Fixpoint drain (fuel : nat) (q : queue) : option (queue * list Z) :=
  match fuel with
  | O => None
  | S fuel' =>
      '(q', out) ← dequeue q;
      match out with
      | None => Some (q', [])
      | Some m =>
          '(q'', ds) ← drain fuel' q';
          Some (q'', if delta m =? 0 then ds else delta m :: ds)
      end
  end.

(** No more messages than slots can be queued. *)
Definition drain_fuel (q : queue) : nat := S (sum_list_with (fun r => length (slots r)) (workers q)).

(** wl_mpsc_queue_destroy: the payloads handed to the destructor, in order,
    and the blocks left. *)
Definition destroy (q : option queue) (live : list block) : option (list Z * list block) :=
  match q with
  | None => Some ([], live)
  | Some q =>
      '(_, ds) ← (if destroy_payload q then drain (drain_fuel q) q else Some (q, []));
      Some (ds, free ((BSlots <$> seq 0 (length (workers q))) ++ [BWorkers; BQueue]) live)
  end.

Definition spsc_size (r : ring) : option Z :=
  tail ← last (tails r); head ← last (heads r); Some (u32 (tail - head)).

Fixpoint size_loop (rs : list ring) (total : Z) : option Z :=
  match rs with
  | [] => Some total
  | r :: rest => s ← spsc_size r; size_loop rest (u32 (total + s))
  end.

Definition size (q : option queue) : option Z :=
  match q with None => Some 0 | Some q => size_loop (workers q) 0 end.

End Queue.
