(* ===== verification/LockfreeQueueProof.v ===== *)
(** * The lock-free delta queue is a bounded FIFO per worker

    Proofs about [LockfreeQueue]: capacities, the invariant of one ring under
    every interleaving, the queue as a whole, the operations taken one at a
    time, fairness of the round-robin scan and destruction. *)

From S2P Require Import Prelude LockfreeQueue.
From Stdlib Require Import Permutation.

Import Queue.

(** ** Capacities *)

(** [next_pow2] is the least power of two not below max v 2, or 0 when that
    does not fit 32 bits. *)
Lemma queue_pow2_spec v : is_uint32 v ->
  (2 ^ 31 < v /\ next_pow2 v = 0) \/
  (v <= 2 ^ 31 /\ exists e, 1 <= e <= 31 /\ next_pow2 v = 2 ^ e /\ 2 ^ (e - 1) < Z.max v 2 <= 2 ^ e).
Proof.
  intros Hv. unfold next_pow2. set (x := if v <? 2 then 2 else v).
  assert (Hx : x = Z.max v 2) by (unfold x; destruct (Z.ltb_spec v 2); lia).
  change (UINT32_MAX / 2 + 1) with (2 ^ 31).
  destruct (Z.ltb_spec (2 ^ 31) x) as [Hb|Hb]; [left; split; [lia|done]|]. right. split; [lia|].
  set (y := x - 1). assert (Hy : 0 < y < 2 ^ 31) by lia.
  rewrite (smear_log2 y) by lia.
  pose proof (Z.log2_nonneg y). pose proof (Z.log2_spec y ltac:(lia)) as [Hlo Hhi].
  assert (Z.log2 y < 31) by (apply Z.log2_lt_pow2; lia).
  exists (Z.log2 y + 1). replace (2 ^ (Z.log2 y + 1) - 1 + 1) with (2 ^ (Z.log2 y + 1)) by lia.
  split; [lia|]. split.
  - apply u32_small. pose proof (Z.pow_le_mono_r 2 (Z.log2 y + 1) 31 ltac:(lia) ltac:(lia)). mi.
  - replace (Z.succ (Z.log2 y)) with (Z.log2 y + 1) in Hhi by lia.
    replace (Z.log2 y + 1 - 1) with (Z.log2 y) by lia. lia.
Qed.

(** ** One ring *)

(** The cursor after [n] stores. *)
Definition cursor (n : nat) : Z := u32 (Z.of_nat n).
Definition history (n : nat) : list Z := cursor <$> seq 0 (S n).

#[global] Arguments history : simpl never.

Lemma history_lookup n k : (k <= n)%nat -> history n !! k = Some (cursor k).
Proof. intros. unfold history. rewrite list_lookup_fmap, lookup_seq_lt by lia. done. Qed.

Lemma history_lookup_inv n k c : history n !! k = Some c -> (k <= n)%nat /\ c = cursor k.
Proof.
  intros H. assert (k <= n)%nat.
  { apply lookup_lt_Some in H. unfold history in H. rewrite length_fmap, length_seq in H. lia. }
  rewrite history_lookup in H by done. naive_solver.
Qed.

Lemma history_last n : last (history n) = Some (cursor n).
Proof.
  unfold history. rewrite seq_S, fmap_app. cbn. by rewrite last_snoc.
Qed.

Lemma history_S n : history n ++ [u32 (cursor n + 1)] = history (S n).
Proof.
  unfold history. rewrite (seq_S (S n)), fmap_app. cbn. do 2 f_equal. unfold cursor, u32.
  rewrite Zplus_mod_idemp_l. f_equal. lia.
Qed.

Lemma history_newest n : newest (history n) = n.
Proof. unfold newest, history. rewrite length_fmap, length_seq. done. Qed.

(** A ring of capacity 2^e whose producer has sent [sent] and whose consumer
    has taken [got]. *)
Record ring_ok (r : ring) (sent got : list msg) : Prop := {
  ok_cap : exists e, 1 <= e <= 31 /\ capacity r = 2 ^ e /\ mask r = 2 ^ e - 1;
  ok_slots : length (slots r) = Z.to_nat (capacity r);
  ok_tails : tails r = history (length sent);
  ok_heads : heads r = history (length got);
  ok_prefix : got `prefix_of` sent;
  ok_room : Z.of_nat (length sent) <= Z.of_nat (length got) + capacity r;
  ok_queued : forall j, (length got <= j < length sent)%nat ->
    slots r !! slot_of r (cursor j) = sent !! j }.

Lemma cap_bounds r sent got : ring_ok r sent got -> 2 <= capacity r <= 2 ^ 31.
Proof.
  intros H. destruct (ok_cap _ _ _ H) as (e & He & -> & _).
  pose proof (Z.pow_le_mono_r 2 1 e ltac:(lia) ltac:(lia)).
  pose proof (Z.pow_le_mono_r 2 e 31 ltac:(lia) ltac:(lia)). lia.
Qed.

(** The slot of a cursor is its counter modulo the capacity, also when the
    32-bit cursor has wrapped. *)
Lemma slot_mod r sent got j : ring_ok r sent got ->
  Z.of_nat (slot_of r (cursor j)) = Z.of_nat j mod capacity r.
Proof.
  intros H. destruct (ok_cap _ _ _ H) as (e & He & Hc & Hm). unfold slot_of, cursor, u32.
  rewrite Hm, Hc. replace (2 ^ e - 1) with (Z.ones e) by (rewrite Z.ones_equiv; lia).
  rewrite Z.land_ones by lia.
  pose proof (Z.mod_pos_bound (Z.of_nat j mod 2 ^ 32) (2 ^ e) ltac:(lia)).
  rewrite Z2Nat.id by lia. apply Z.mod_mod_divide. exists (2 ^ (32 - e)).
  rewrite <- Z.pow_add_r by lia. f_equal. lia.
Qed.

Lemma slot_lt r sent got j : ring_ok r sent got -> (slot_of r (cursor j) < length (slots r))%nat.
Proof.
  intros H. pose proof (slot_mod _ _ _ j H). pose proof (cap_bounds _ _ _ H).
  rewrite (ok_slots _ _ _ H). pose proof (Z.mod_pos_bound (Z.of_nat j) (capacity r) ltac:(lia)). lia.
Qed.

(** Counters less than a capacity apart have different slots. *)
Lemma ring_slot_inj r sent got i j : ring_ok r sent got ->
  (i < j)%nat -> Z.of_nat j < Z.of_nat i + capacity r -> slot_of r (cursor i) <> slot_of r (cursor j).
Proof.
  intros H Hij Hc Heq. pose proof (slot_mod _ _ _ i H) as Hi. pose proof (slot_mod _ _ _ j H) as Hj.
  rewrite Heq, Hj in Hi. pose proof (cap_bounds _ _ _ H).
  pose proof (Z.div_mod (Z.of_nat i) (capacity r) ltac:(lia)).
  pose proof (Z.div_mod (Z.of_nat j) (capacity r) ltac:(lia)).
  assert (Hd : Z.of_nat j - Z.of_nat i = capacity r * (Z.of_nat j / capacity r - Z.of_nat i / capacity r)) by lia.
  destruct (decide (Z.of_nat j / capacity r - Z.of_nat i / capacity r <= 0)); nia.
Qed.

(** Distances up to a capacity survive the wrap of the cursors. *)
Lemma cursor_dist i j : (i <= j)%nat -> Z.of_nat j - Z.of_nat i <= 2 ^ 31 ->
  u32 (cursor j - cursor i) = Z.of_nat j - Z.of_nat i.
Proof.
  intros. unfold cursor, u32. rewrite Zminus_mod_idemp_l, Zminus_mod_idemp_r.
  apply Z.mod_small. lia.
Qed.

Lemma cursor_inj i j : (i <= j)%nat -> Z.of_nat j - Z.of_nat i <= 2 ^ 31 -> cursor i = cursor j -> i = j.
Proof.
  intros Hij Hd Heq. pose proof (cursor_dist i j Hij Hd) as H. rewrite Heq, Z.sub_diag in H.
  change (u32 0) with 0 in H. lia.
Qed.

(** *** The threads at a ring *)

Definition producer_ok (r : ring) (sent got : list msg) (p : producer) : Prop :=
  (p_seen p <= length got)%nat /\
  Z.of_nat (length sent) <= Z.of_nat (p_seen p) + capacity r /\
  match pc p with
  | None | Some (E_tail _) => True
  | Some (E_head _ t) => t = cursor (length sent)
  | Some (E_write _ t) =>
      t = cursor (length sent) /\ Z.of_nat (length sent) < Z.of_nat (p_seen p) + capacity r
  | Some (E_publish item t) =>
      t = cursor (length sent) /\ Z.of_nat (length sent) < Z.of_nat (p_seen p) + capacity r /\
      slots r !! slot_of r t = Some item
  end.

(** [seen] is the newest tail the coordinator has read, [d] its place in
    spsc_dequeue when it is at this ring. *)
Definition consumer_ok (sent got : list msg) (seen : nat) (d : option deq) : Prop :=
  (length got <= seen <= length sent)%nat /\
  match d with
  | None | Some D_head => True
  | Some (D_tail h) => h = cursor (length got)
  | Some (D_read h) => h = cursor (length got) /\ (length got < seen)%nat
  | Some (D_publish h m) =>
      h = cursor (length got) /\ (length got < seen)%nat /\ sent !! length got = Some m
  end.

Record worker_ok (r : ring) (p : producer) (seen : nat) (d : option deq) (sent got : list msg) : Prop := {
  w_ring : ring_ok r sent got;
  w_prod : producer_ok r sent got p;
  w_cons : consumer_ok sent got seen d }.

(** A valid view of the peer's stores never leaves an operation stuck. *)
Definition view_ok (stores : list Z) (seen k : nat) : Prop := (seen <= k < length stores)%nat.

Lemma load_peer_inv stores seen k c :
  load_peer stores seen k = Some c -> (seen <= k)%nat /\ stores !! k = Some c.
Proof. unfold load_peer. destruct (Nat.leb_spec seen k); [done|discriminate]. Qed.

Lemma load_peer_ok n seen k : (seen <= k <= n)%nat -> load_peer (history n) seen k = Some (cursor k).
Proof.
  intros. unfold load_peer. destruct (Nat.leb_spec seen k); [|lia]. apply history_lookup. lia.
Qed.

(** Rings that differ only in a slot outside the queued part. *)
Lemma ring_ok_write r sent got item :
  ring_ok r sent got -> Z.of_nat (length sent) < Z.of_nat (length got) + capacity r ->
  ring_ok (Ring (<[slot_of r (cursor (length sent)) := item]> (slots r)) (capacity r) (mask r) (tails r) (heads r))
    sent got.
Proof.
  intros H Hr. split; cbn [slots capacity mask tails heads];
    [apply (ok_cap _ _ _ H)|rewrite length_insert; apply (ok_slots _ _ _ H)|apply (ok_tails _ _ _ H)
    |apply (ok_heads _ _ _ H)|apply (ok_prefix _ _ _ H)|apply (ok_room _ _ _ H)|].
  intros j Hj. rewrite <- (ok_queued _ _ _ H j Hj).
  apply list_lookup_insert_ne. apply not_eq_sym. apply (ring_slot_inj r sent got); [done|lia|lia].
Qed.

Lemma ring_ok_send r sent got item :
  ring_ok r sent got -> Z.of_nat (length sent) < Z.of_nat (length got) + capacity r ->
  slots r !! slot_of r (cursor (length sent)) = Some item ->
  ring_ok (Ring (slots r) (capacity r) (mask r) (history (S (length sent))) (heads r)) (sent ++ [item]) got.
Proof.
  intros H Hr Hs. split; cbn [slots capacity mask tails heads];
    [apply (ok_cap _ _ _ H)|apply (ok_slots _ _ _ H)| |apply (ok_heads _ _ _ H)| | |].
  - rewrite length_app. cbn. by rewrite Nat.add_1_r.
  - apply prefix_app_r. apply (ok_prefix _ _ _ H).
  - rewrite length_app. cbn. lia.
  - intros j Hj. rewrite length_app in Hj. cbn in Hj. unfold slot_of in *. cbn.
    destruct (decide (j = length sent)) as [->|Hne].
    + rewrite Hs. rewrite lookup_app_r, Nat.sub_diag by lia. done.
    + rewrite lookup_app_l by lia. apply (ok_queued _ _ _ H). lia.
Qed.

Lemma ring_ok_take r sent got item :
  ring_ok r sent got -> sent !! length got = Some item ->
  ring_ok (Ring (slots r) (capacity r) (mask r) (tails r) (history (S (length got)))) sent (got ++ [item]).
Proof.
  intros H Hs. pose proof (lookup_lt_Some _ _ _ Hs).
  split; cbn [slots capacity mask tails heads];
    [apply (ok_cap _ _ _ H)|apply (ok_slots _ _ _ H)|apply (ok_tails _ _ _ H)| | | |].
  - rewrite length_app. cbn. by rewrite Nat.add_1_r.
  - destruct (ok_prefix _ _ _ H) as [rest Hp]. rewrite Hp in Hs.
    rewrite lookup_app_r, Nat.sub_diag in Hs by lia. destruct rest as [|y rest]; [done|].
    injection Hs as ->. exists rest. rewrite Hp, <- app_assoc. done.
  - rewrite length_app. cbn. pose proof (ok_room _ _ _ H). lia.
  - intros j Hj. rewrite length_app in Hj. cbn in Hj. apply (ok_queued _ _ _ H). lia.
Qed.

Lemma consumer_ok_send sent got seen d item :
  consumer_ok sent got seen d -> consumer_ok (sent ++ [item]) got seen d.
Proof.
  intros [Hs Hd]. split; [rewrite length_app; lia|]. destruct d as [[]|]; try done.
  destruct Hd as (? & ? & Hl). split; [done|]. split; [done|].
  rewrite lookup_app_l by (apply lookup_lt_Some in Hl; lia). done.
Qed.

Lemma producer_ok_take r sent got item p h :
  producer_ok r sent got p ->
  producer_ok (Ring (slots r) (capacity r) (mask r) (tails r) h) sent (got ++ [item]) p.
Proof. intros [H1 H2]. split; [rewrite length_app; lia|]. done. Qed.

(** *** One step of the producer *)
Lemma enqueue_step_ok r e seen cs d sent got k r' seen' res :
  worker_ok r (Prod (Some e) seen) cs d sent got ->
  spsc_enqueue r seen k e = Some (r', seen', res) ->
  match res with
  | inl e' => worker_ok r' (Prod (Some e') seen') cs d sent got
  | inr _ =>
      worker_ok r' (Prod None seen') cs d
        (match e with E_publish item _ => sent ++ [item] | _ => sent end) got
  end.
Proof.
  intros [Hr Hp Hc] Hstep. destruct Hp as (Hseen & Hroom & Hpc). cbn in Hseen, Hroom, Hpc.
  destruct e as [item|item t|item t|item t]; cbn [spsc_enqueue] in Hstep.
  - rewrite (ok_tails _ _ _ Hr), history_last in Hstep. cbn in Hstep. simplify_eq.
    split; [done| |done]. split; [done|]. split; done.
  - destruct (load_peer _ _ _) as [h|] eqn:Hl; cbn in Hstep; [|done].
    rewrite (ok_heads _ _ _ Hr) in Hl. apply load_peer_inv in Hl as [Hk Hl].
    apply history_lookup_inv in Hl as [Hkg ->]. subst t.
    pose proof (cap_bounds _ _ _ Hr). pose proof (prefix_length _ _ (ok_prefix _ _ _ Hr)).
    rewrite cursor_dist in Hstep by lia.
    destruct (Z.leb_spec (capacity r) (Z.of_nat (length sent) - Z.of_nat k)); simplify_eq;
      (split; [done| |done]); split; cbn; lia.
  - destruct Hpc as [-> Hlt]. pose proof (slot_lt _ _ _ (length sent) Hr) as Hsl.
    rewrite wr_lt in Hstep by done. cbn in Hstep. simplify_eq.
    split; [apply ring_ok_write; [done|lia]| |done].
    split; [done|]. split; [done|]. cbn. split; [done|]. split; [done|].
    rewrite list_lookup_insert_eq; done.
  - destruct Hpc as (-> & Hlt & Hsl). simplify_eq. rewrite (ok_tails _ _ _ Hr), history_S.
    split; [apply ring_ok_send; [done|lia|done]| |by apply consumer_ok_send].
    split; [done|]. cbn. rewrite length_app. cbn. split; [lia|done].
Qed.

(** *** One step of the consumer *)
Lemma dequeue_step_ok r p seen d sent got k r' seen' res :
  worker_ok r p seen (Some d) sent got ->
  spsc_dequeue r seen k d = Some (r', seen', res) ->
  match res with
  | inl d' => worker_ok r' p seen' (Some d') sent got
  | inr None => worker_ok r' p seen' None sent got
  | inr (Some m) => worker_ok r' p seen' None sent (got ++ [m])
  end.
Proof.
  intros [Hr Hp [Hseen Hd]] Hstep. destruct d as [|h|h|h m]; cbn [spsc_dequeue] in Hstep.
  - rewrite (ok_heads _ _ _ Hr), history_last in Hstep. cbn in Hstep. simplify_eq. done.
  - destruct (load_peer _ _ _) as [t|] eqn:Hl; cbn in Hstep; [|done].
    rewrite (ok_tails _ _ _ Hr) in Hl. apply load_peer_inv in Hl as [Hk Hl].
    apply history_lookup_inv in Hl as [Hkg ->]. subst h.
    pose proof (cap_bounds _ _ _ Hr). pose proof (ok_room _ _ _ Hr).
    destruct (Z.eqb_spec (cursor (length got)) (cursor k)) as [Heq|Hne]; simplify_eq.
    + split; [done..|]. split; [lia|done].
    + split; [done..|]. split; [lia|]. split; [done|]. destruct (decide (length got = seen')); [congruence|lia].
  - destruct Hd as [-> Hlt]. unfold rd in Hstep.
    rewrite (ok_queued _ _ _ Hr) in Hstep by lia.
    destruct (sent !! length got) as [m|] eqn:Hm; cbn in Hstep; [|done]. simplify_eq.
    split; [done..|]. split; [done|]. done.
  - destruct Hd as (-> & Hlt & Hm). simplify_eq. rewrite (ok_heads _ _ _ Hr), history_S.
    split; [by apply ring_ok_take|by apply producer_ok_take|]. split; [|done].
    rewrite length_app. cbn. lia.
Qed.

(** *** No step is stuck *)

Definition enq_left (e : enq) : nat :=
  match e with E_tail _ => 4 | E_head _ _ => 3 | E_write _ _ => 2 | E_publish _ _ => 1 end.
Definition deq_left (d : deq) : nat :=
  match d with D_head => 4 | D_tail _ => 3 | D_read _ => 2 | D_publish _ _ => 1 end.

Lemma enqueue_progress r e seen cs d sent got k :
  worker_ok r (Prod (Some e) seen) cs d sent got -> view_ok (heads r) seen k ->
  exists r' seen' res, spsc_enqueue r seen k e = Some (r', seen', res) /\
    match res with inl e' => (enq_left e' < enq_left e)%nat | inr _ => True end.
Proof.
  intros [Hr (_ & _ & Hpc) _] [Hv1 Hv2]. destruct e as [item|item t|item t|item t]; cbn [spsc_enqueue].
  - rewrite (ok_tails _ _ _ Hr), history_last. cbn. eexists _, _, _. split; [done|]. cbn. lia.
  - unfold load_peer. destruct (Nat.leb_spec seen k); [|lia].
    destruct (lookup_lt_is_Some_2 _ _ Hv2) as [h ->]. cbn.
    destruct (capacity r <=? _); eexists _, _, _; (split; [done|]); cbn; [done|lia].
  - destruct Hpc as [-> _]. rewrite wr_lt by (eapply slot_lt; done). cbn.
    eexists _, _, _. split; [done|]. cbn. lia.
  - eexists _, _, _. done.
Qed.

Lemma dequeue_progress r p seen d sent got k :
  worker_ok r p seen (Some d) sent got -> view_ok (tails r) seen k ->
  exists r' seen' res, spsc_dequeue r seen k d = Some (r', seen', res) /\
    match res with inl d' => (deq_left d' < deq_left d)%nat | inr _ => True end.
Proof.
  intros [Hr _ [Hs Hd]] [Hv1 Hv2]. destruct d as [|h|h|h m]; cbn [spsc_dequeue].
  - rewrite (ok_heads _ _ _ Hr), history_last. cbn. eexists _, _, _. split; [done|]. cbn. lia.
  - unfold load_peer. destruct (Nat.leb_spec seen k); [|lia].
    destruct (lookup_lt_is_Some_2 _ _ Hv2) as [t ->]. cbn.
    destruct (h =? t); eexists _, _, _; (split; [done|]); cbn; [done|lia].
  - destruct Hd as [-> _]. unfold rd.
    destruct (lookup_lt_is_Some_2 _ _ (slot_lt _ _ _ (length got) Hr)) as [m ->]. cbn.
    eexists _, _, _. split; [done|]. cbn. lia.
  - eexists _, _, _. done.
Qed.

(** *** What a ring holds *)

Definition contents (r : ring) : list msg :=
  let head := default 0 (last (heads r)) in
  (fun i => slots r !!! slot_of r (u32 (head + Z.of_nat i))) <$>
    seq 0 (Z.to_nat (u32 (default 0 (last (tails r)) - head))).

Lemma cursor_add n i : u32 (cursor n + Z.of_nat i) = cursor (n + i).
Proof. unfold cursor, u32. rewrite Zplus_mod_idemp_l. f_equal. lia. Qed.

Lemma contents_ok r sent got : ring_ok r sent got -> contents r = drop (length got) sent.
Proof.
  intros H. unfold contents. rewrite (ok_heads _ _ _ H), (ok_tails _ _ _ H), !history_last. cbn [default].
  pose proof (prefix_length _ _ (ok_prefix _ _ _ H)). pose proof (ok_room _ _ _ H).
  pose proof (cap_bounds _ _ _ H). unfold default, id. rewrite cursor_dist by lia.
  apply list_eq. intros i. rewrite list_lookup_fmap, lookup_drop.
  destruct (decide (length got + i < length sent)%nat).
  - rewrite lookup_seq_lt by lia. cbn. rewrite cursor_add, <- (ok_queued _ _ _ H) by lia.
    symmetry. apply list_lookup_lookup_total_lt. eapply slot_lt. done.
  - rewrite lookup_seq_ge, lookup_ge_None_2 by lia. done.
Qed.

Lemma contents_sent r sent got : ring_ok r sent got ->
  sent = got ++ contents r /\ Z.of_nat (length (contents r)) <= capacity r.
Proof.
  intros H. rewrite (contents_ok _ _ _ H). destruct (ok_prefix _ _ _ H) as [rest Hp].
  pose proof (ok_room _ _ _ H) as Hr. rewrite Hp in Hr |- *. rewrite drop_app_length.
  rewrite length_app in Hr. split; [done|lia].
Qed.

(** ** The whole queue *)

Definition sent_by (w : nat) (ev : list event) : list msg :=
  omap (fun e => match e with Sent w' m => if decide (w' = w) then Some m else None | _ => None end) ev.
Definition got_by (w : nat) (ev : list event) : list msg :=
  omap (fun e => match e with Got w' m => if decide (w' = w) then Some m else None | _ => None end) ev.

(** Where the coordinator is in spsc_dequeue at the ring of [w]. *)
Definition co_at (c : coord) (w : nat) : option deq :=
  match c with
  | C_idle => None
  | C_one _ idx d => if decide (Z.to_nat idx = w) then Some d else None
  | C_all w' _ _ d => if decide (Z.to_nat w' = w) then Some d else None
  end.

Definition co_range (n : Z) (c : coord) : Prop :=
  match c with
  | C_idle => True
  | C_one i idx _ => 0 <= i < n /\ 0 <= idx < n
  | C_all w buf_len buf _ => 0 <= w < n /\ Z.of_nat (length buf) < buf_len
  end.

(** The invariant, with the coordinator's place given by [at_]. *)
Record base (m : machine) (ev : list event) (at_ : nat -> option deq) : Prop := {
  b_num : num_workers (mq m) = Z.of_nat (length (workers (mq m)));
  b_u32 : 0 < num_workers (mq m) < 2 ^ 32;
  b_prods : length (prods m) = length (workers (mq m));
  b_seen : length (c_seen m) = length (workers (mq m));
  b_workers : forall w r p s,
    workers (mq m) !! w = Some r -> prods m !! w = Some p -> c_seen m !! w = Some s ->
    worker_ok r p s (at_ w) (sent_by w ev) (got_by w ev) }.

Definition inv (m : machine) (ev : list event) : Prop :=
  base m ev (co_at (co m)) /\ co_range (num_workers (mq m)) (co m).

Lemma sent_by_app w ev ev' : sent_by w (ev ++ ev') = sent_by w ev ++ sent_by w ev'.
Proof. apply omap_app. Qed.
Lemma got_by_app w ev ev' : got_by w (ev ++ ev') = got_by w ev ++ got_by w ev'.
Proof. apply omap_app. Qed.

Lemma consumer_weaken r p s d sent got d' :
  worker_ok r p s d sent got -> d' = d \/ d' = None \/ d' = Some D_head -> worker_ok r p s d' sent got.
Proof.
  intros [Hr Hp [Hs Hd]] Hd'. split; [done..|]. split; [done|].
  destruct Hd' as [->|[->| ->]]; done.
Qed.

Lemma base_at m ev f g :
  base m ev f -> (forall w, g w = f w \/ g w = None \/ g w = Some D_head) -> base m ev g.
Proof.
  intros [H1 H2 H3 H4 H5] Hg. split; [done..|]. intros w r p s Hr Hp Hs.
  eapply consumer_weaken; [by apply H5|apply Hg].
Qed.

Lemma base_event m ev f e : base m ev f ->
  (forall w, sent_by w e = []) -> (forall w, got_by w e = []) -> base m (ev ++ e) f.
Proof.
  intros [H1 H2 H3 H4 H5] Hs Hg. split; [done..|]. intros w r p s ? ? ?.
  rewrite sent_by_app, got_by_app, Hs, Hg, !app_nil_r. by apply H5.
Qed.

Definition upd (m : machine) (w : nat) (r : ring) (p : producer) (s : nat) : machine :=
  M (Q (<[w := r]> (workers (mq m))) (num_workers (mq m)) (dequeue_idx (mq m)) (destroy_payload (mq m)))
    (<[w := p]> (prods m)) (co m) (<[w := s]> (c_seen m)).

Lemma base_upd m ev f w r p s d ev' :
  base m ev f -> (w < length (workers (mq m)))%nat ->
  worker_ok r p s d (sent_by w ev') (got_by w ev') ->
  (forall w', w' <> w -> sent_by w' ev' = sent_by w' ev /\ got_by w' ev' = got_by w' ev) ->
  base (upd m w r p s) ev' (fun w' => if decide (w = w') then d else f w').
Proof.
  intros [H1 H2 H3 H4 H5] Hw Hok Hev. split; cbn; rewrite ?length_insert; [done..|].
  intros w' r' p' s' Hr Hp Hs. case_decide as Hd.
  - subst w'. rewrite list_lookup_insert_eq in Hr by lia.
    rewrite list_lookup_insert_eq in Hp by lia. rewrite list_lookup_insert_eq in Hs by lia. by simplify_eq.
  - rewrite list_lookup_insert_ne in Hr by done. rewrite list_lookup_insert_ne in Hp by done.
    rewrite list_lookup_insert_ne in Hs by done. destruct (Hev w') as [-> ->]; [done|].
    by apply H5.
Qed.

Lemma base_lookup m ev f w : base m ev f -> (w < length (workers (mq m)))%nat ->
  exists r p s, workers (mq m) !! w = Some r /\ prods m !! w = Some p /\ c_seen m !! w = Some s /\
    worker_ok r p s (f w) (sent_by w ev) (got_by w ev).
Proof.
  intros H Hw. destruct (lookup_lt_is_Some_2 (workers (mq m)) w Hw) as [r Hr].
  destruct (lookup_lt_is_Some_2 (prods m) w) as [p Hp]; [rewrite (b_prods _ _ _ H); done|].
  destruct (lookup_lt_is_Some_2 (c_seen m) w) as [s Hs]; [rewrite (b_seen _ _ _ H); done|].
  exists r, p, s. split_and!; try done. by apply (b_workers _ _ _ H).
Qed.

(** Changing one worker's ring and producer, or ring and consumer view. *)
Lemma upd_producer m w r p s : (w < length (workers (mq m)))%nat -> length (prods m) = length (workers (mq m)) ->
  c_seen m !! w = Some s ->
  (m1 ← set_ring m w r; set_prod m1 w p) = Some (upd m w r p s).
Proof.
  intros Hw Hp Hs. unfold set_ring, set_prod. rewrite wr_lt by done. cbn. rewrite wr_lt by lia. cbn.
  unfold upd. rewrite (list_insert_id (c_seen m)) by done. done.
Qed.

Lemma upd_consumer m w r p s : (w < length (workers (mq m)))%nat -> length (c_seen m) = length (workers (mq m)) ->
  prods m !! w = Some p ->
  (m1 ← set_ring m w r; set_seen m1 w s) = Some (upd m w r p s).
Proof.
  intros Hw Hp Hs. unfold set_ring, set_seen. rewrite wr_lt by done. cbn. rewrite wr_lt by lia. cbn.
  unfold upd. rewrite (list_insert_id (prods m)) by done. done.
Qed.

Lemma inv_fresh m ev c : base m ev (fun _ => None) -> co_range (num_workers (mq m)) c ->
  (forall w, co_at c w = None \/ co_at c w = Some D_head) -> inv (set_co m c) ev.
Proof.
  intros H Hr Hc. split; [|done]. cbn.
  assert (Hb : base m ev (co_at c)) by (eapply base_at; [done|]; intros w; destruct (Hc w); auto).
  destruct Hb. split; done.
Qed.

(** The loop heads. *)
Lemma one_loop_ok m ev i : base m ev (fun _ => None) -> 0 <= i ->
  inv (one_loop m i).1 (ev ++ (one_loop m i).2).
Proof.
  intros H Hi. unfold one_loop. pose proof (b_u32 _ _ _ H).
  destruct (Z.ltb_spec i (num_workers (mq m))); cbn [fst snd].
  - rewrite app_nil_r. apply inv_fresh; [done| |].
    + cbn. split; [lia|]. apply Z.mod_pos_bound. lia.
    + intros w. cbn. case_decide; auto.
  - apply inv_fresh; [by apply base_event|done|]. intros w. by left.
Qed.

Lemma all_loop_ok m ev w buf_len buf : base m ev (fun _ => None) -> 0 <= w ->
  inv (all_loop m w buf_len buf).1 (ev ++ (all_loop m w buf_len buf).2).
Proof.
  intros H Hi. unfold all_loop.
  destruct (Z.ltb_spec w (num_workers (mq m))), (Z.ltb_spec (Z.of_nat (length buf)) buf_len); cbn [fst snd andb];
    try (apply inv_fresh; [by apply base_event|done|]; intros; by left).
  rewrite app_nil_r. apply inv_fresh; [done|done|]. intros w'. cbn. case_decide; auto.
Qed.

(** *** Every step keeps the invariant *)

Lemma call_enqueue_ok m ev w d s r m' e :
  inv m ev -> call_enqueue m w d s r = Some (m', e) -> inv m' (ev ++ e).
Proof.
  intros [Hb Hr] Hstep. unfold call_enqueue in Hstep.
  destruct (Z.leb_spec (num_workers (mq m)) (Z.of_nat w)) as [|Hw]; simplify_eq.
  { split; [by apply base_event|done]. }
  rewrite (b_num _ _ _ Hb) in Hw. assert (Hw' : (w < length (workers (mq m)))%nat) by lia.
  destruct (base_lookup _ _ _ w Hb Hw') as (r0 & p & sn & Hwr & Hp & Hs & Hok).
  rewrite Hp in Hstep. cbn in Hstep. destruct p as [[e0|] seen]; cbn in Hstep; [done|].
  unfold set_prod in Hstep. rewrite wr_lt in Hstep by (rewrite (b_prods _ _ _ Hb); done).
  cbn in Hstep. simplify_eq. rewrite app_nil_r.
  destruct Hok as [Hr0 (Hp1 & Hp2 & _) Hc].
  split; [|done]. pose proof (base_upd m ev (co_at (co m)) w r0 (Prod (Some (E_tail (Msg d s (Z.of_nat w) r 0 0 0))) seen) sn
    (co_at (co m) w) ev Hb Hw') as Hb'.
  unfold upd in Hb'. rewrite (list_insert_id (workers _)), (list_insert_id (c_seen _)) in Hb' by done.
  destruct (mq m) as [ws n di dp] eqn:Hmq. cbn in *. eapply base_at; [apply Hb'|].
  - split; done.
  - done.
  - intros w'. cbn. case_decide; subst; auto.
Qed.

Lemma step_producer_ok m ev w k m' e :
  inv m ev -> step_producer m w k = Some (m', e) -> inv m' (ev ++ e).
Proof.
  intros [Hb Hr] Hstep. unfold step_producer in Hstep.
  destruct (prods m !! w) as [p|] eqn:Hp; cbn in Hstep; [|done].
  assert (Hw : (w < length (workers (mq m)))%nat).
  { rewrite <- (b_prods _ _ _ Hb). eapply lookup_lt_Some. done. }
  destruct (base_lookup _ _ _ w Hb Hw) as (r & p' & s & Hwr & Hp' & Hs & Hok). simplify_eq.
  destruct p as [[en|] seen]; cbn in Hstep; [|done]. rewrite Hwr in Hstep. cbn in Hstep.
  destruct (spsc_enqueue r seen k en) as [[[r' seen'] res]|] eqn:Hen; cbn in Hstep; [|done].
  pose proof (enqueue_step_ok _ _ _ _ _ _ _ _ _ _ _ Hok Hen) as Hok'.
  assert (Hset : forall p2, (m1 ← set_ring m w r'; set_prod m1 w p2) = Some (upd m w r' p2 s)).
  { intros p2. apply upd_producer; [done|apply Hb|done]. }
  destruct res as [e'|v].
  - specialize (Hset (Prod (Some e') seen')). destruct (set_ring m w r') as [m1|]; cbn in *; [|done].
    rewrite Hset in Hstep. cbn in Hstep. simplify_eq. rewrite app_nil_r. split; [|done].
    eapply base_at; [eapply base_upd; [done..|exact Hok'|done]|]. intros w'. cbn. case_decide; subst; auto.
  - specialize (Hset (Prod None seen')). destruct (set_ring m w r') as [m1|]; cbn in *; [|done].
    rewrite Hset in Hstep. cbn in Hstep. simplify_eq. split; [|done].
    eapply base_at; [eapply (base_upd _ _ _ w _ _ _ (co_at (co m) w)); [done..| |]|].
    + rewrite sent_by_app, got_by_app. destruct en; cbn [sent_by got_by omap list_omap]; rewrite ?app_nil_r; try done.
      rewrite decide_True by done. cbn. rewrite ?app_nil_r. done.
    + intros w' Hne. rewrite sent_by_app, got_by_app. destruct en; cbn; rewrite ?app_nil_r; try done.
      rewrite decide_False by done. rewrite app_nil_r. done.
    + intros w'. cbn. case_decide; subst; auto.
Qed.

Lemma ring_step_ok m ev w k d running cont m' e :
  inv m ev -> (w < length (workers (mq m)))%nat ->
  (forall w', co_at (co m) w' = if decide (w = w') then Some d else None) ->
  (forall d' w', co_at (running d') w' = if decide (w = w') then Some d' else None) ->
  (forall d', co_range (num_workers (mq m)) (running d')) ->
  (forall m2 out ev2, num_workers (mq m2) = num_workers (mq m) -> base m2 ev2 (fun _ => None) ->
    inv (cont m2 out).1 (ev2 ++ (cont m2 out).2)) ->
  ring_step m w k d running cont = Some (m', e) -> inv m' (ev ++ e).
Proof.
  intros [Hb _] Hw Hat Hrun Hrr Hcont Hstep. unfold ring_step in Hstep.
  destruct (base_lookup _ _ _ w Hb Hw) as (r & p & s & Hwr & Hp & Hs & Hok).
  rewrite Hwr, Hs in Hstep. cbn in Hstep. rewrite Hat, decide_True in Hok by done.
  destruct (spsc_dequeue r s k d) as [[[r' s'] res]|] eqn:Hde; cbn in Hstep; [|done].
  pose proof (dequeue_step_ok _ _ _ _ _ _ _ _ _ _ Hok Hde) as Hok'.
  pose proof (upd_consumer m w r' p s' Hw (b_seen _ _ _ Hb) Hp) as Hset.
  destruct (set_ring m w r') as [m1|]; cbn in *; [|done]. rewrite Hset in Hstep. cbn in Hstep.
  set (m2 := upd m w r' p s') in *.
  destruct res as [d'|out].
  - simplify_eq. rewrite app_nil_r. split; [|apply Hrr]. cbn.
    assert (Hb2 : base m2 ev (co_at (running d'))).
    { eapply base_at; [eapply (base_upd _ _ _ w _ _ _ (Some d')); done|].
      intros w'. cbn. rewrite Hrun, Hat. case_decide; auto. }
    destruct Hb2. split; done.
  - destruct (cont m2 out) as [m3 ev3] eqn:Hc. cbn in Hstep. simplify_eq.
    set (got := match out with Some x => [Got w x] | None => [] end).
    replace (ev ++ _) with ((ev ++ got) ++ ev3)
      by (destruct out; cbn; rewrite <- ?app_assoc, ?app_nil_r; done).
    specialize (Hcont m2 out (ev ++ got) eq_refl). rewrite Hc in Hcont. apply Hcont.
    eapply base_at; [eapply (base_upd _ _ _ w _ _ _ None); [done..| |]|auto].
    + rewrite sent_by_app, got_by_app.
      destruct out as [x|]; cbn; rewrite ?decide_True by done; rewrite ?app_nil_r; done.
    + intros w' Hne. rewrite sent_by_app, got_by_app.
      destruct out as [x|]; cbn; rewrite ?decide_False by done; rewrite ?app_nil_r; done.
Qed.

Lemma step_consumer_ok m ev k m' e :
  inv m ev -> step_consumer m k = Some (m', e) -> inv m' (ev ++ e).
Proof.
  intros Hi Hstep. pose proof Hi as [Hb Hr]. pose proof (b_num _ _ _ Hb) as Hn. pose proof (b_u32 _ _ _ Hb).
  unfold step_consumer in Hstep. destruct (co m) as [|i idx d|w buf_len buf d] eqn:Hco; [done|..]; cbn in Hr.
  - eapply ring_step_ok in Hstep; [exact Hstep|done|lia| | | |].
    + intros w'. by rewrite Hco.
    + done.
    + cbn. intros. lia.
    + intros m2 [x|] ev2 Hn2 Hb2.
      * cbn [fst snd]. apply inv_fresh; [|done|by left]. apply base_event; [|done..].
        destruct Hb2. split; done.
      * apply one_loop_ok; [done|]. apply u32_range.
  - eapply ring_step_ok in Hstep; [exact Hstep|done|lia| | | |].
    + intros w'. by rewrite Hco.
    + done.
    + cbn. intros. lia.
    + intros m2 [x|] ev2 Hn2 Hb2; [|apply all_loop_ok; [done|apply u32_range]].
      destruct (Z.ltb_spec (Z.of_nat (length (buf ++ [x]))) buf_len).
      * cbn [fst snd]. rewrite app_nil_r. apply inv_fresh; [done| |].
        -- cbn. rewrite Hn2. lia.
        -- intros w'. cbn. case_decide; auto.
      * apply all_loop_ok; [done|]. apply u32_range.
Qed.

Lemma queue_step_ok m ev c m' e : inv m ev -> step m c = Some (m', e) -> inv m' (ev ++ e).
Proof.
  intros Hi Hstep. destruct c as [w d s r| |buf_len|w k|k]; cbn [step] in Hstep.
  - eapply call_enqueue_ok; done.
  - destruct Hi as [Hb Hr]. destruct (co m) eqn:Hco; try done. injection Hstep as Hstep.
    pose proof (one_loop_ok m ev 0) as H. rewrite Hstep in H. apply H; [|lia].
    eapply base_at; [done|]. intros w. auto.
  - pose proof Hi as [Hb Hr]. destruct (co m) eqn:Hco; try done. destruct (buf_len =? 0); simplify_eq.
    + split; [|by rewrite Hco]. rewrite Hco. by apply base_event.
    + pose proof (all_loop_ok m ev 0 buf_len []) as H. rewrite Hstep in H.
      apply H; [|lia]. eapply base_at; [done|]. intros w. auto.
  - eapply step_producer_ok; done.
  - eapply step_consumer_ok; done.
Qed.

Lemma run_ok sched m ev m' e : inv m ev -> run m sched = Some (m', e) -> inv m' (ev ++ e).
Proof.
  revert m ev e. induction sched as [|c sched IH]; intros m ev e Hi Hrun; cbn [run] in Hrun.
  - simplify_eq. by rewrite app_nil_r.
  - destruct (step m c) as [[m1 e1]|] eqn:Hs; cbn in Hrun; [|done].
    destruct (run m1 sched) as [[m2 e2]|] eqn:Hr; cbn in Hrun; [|done]. simplify_eq.
    rewrite app_assoc. eapply IH; [|done]. eapply queue_step_ok; done.
Qed.

(** *** The queue that was created *)

Lemma spsc_init_ok ok cap r : is_uint32 cap -> spsc_init ok cap = Some r ->
  ring_ok r [] [] /\ capacity r = next_pow2 cap.
Proof.
  intros Hc Hi. unfold spsc_init in Hi. destruct (queue_pow2_spec cap Hc) as [[_ H0]|[_ (e & He & Hp & Hb)]].
  { rewrite H0 in Hi. done. }
  assert (0 < next_pow2 cap) by (rewrite Hp; lia).
  destruct (Z.eqb_spec (next_pow2 cap) 0); [lia|]. destruct ok; [|done]. cbn [negb] in Hi. injection Hi as <-.
  split; [|done]. split; cbn.
  - exists e. rewrite Hp. split; [lia|done].
  - by rewrite length_replicate.
  - done.
  - done.
  - done.
  - lia.
  - lia.
Qed.

(** The rings already made when worker [i] is at turn, and their blocks. *)
Definition fresh_ring (cap : Z) (r : ring) : Prop := ring_ok r [] [] /\ capacity r = next_pow2 cap.
Definition blocks (n : nat) : list block := reverse (BSlots <$> seq 0 n) ++ [BWorkers; BQueue].

Lemma blocks_S n : BSlots n :: blocks n = blocks (S n).
Proof. unfold blocks. rewrite seq_S, fmap_app, reverse_app. done. Qed.

Lemma free_all n : free ((BSlots <$> seq 0 n) ++ [BWorkers; BQueue]) (blocks n) = [].
Proof.
  unfold free. apply filter_none. intros b Hb Hn. apply Hn. unfold blocks in Hb.
  rewrite elem_of_app, elem_of_reverse in Hb. by rewrite elem_of_app.
Qed.

Lemma init_workers_ok ok cap n i made rings live :
  is_uint32 cap -> Forall (fresh_ring cap) made -> length made = i ->
  init_workers ok cap n i made (blocks i) = (rings, live) ->
  match rings with
  | Some rs => length rs = (i + n)%nat /\ Forall (fresh_ring cap) rs /\ live = blocks (i + n)
  | None => live = []
  end.
Proof.
  intros Hc. revert i made. induction n as [|n IH]; intros i made Hm Hl Hi; cbn [init_workers] in Hi.
  - simplify_eq. rewrite Nat.add_0_r. done.
  - destruct (spsc_init (ok i) cap) as [r|] eqn:Hs; simplify_eq; [|apply free_all].
    rewrite blocks_S in Hi. apply IH in Hi.
    + by rewrite <- Nat.add_succ_comm.
    + apply Forall_app. split; [done|]. constructor; [|done]. by eapply spsc_init_ok.
    + rewrite length_app. cbn. lia.
Qed.

Lemma queue_create_ok qok wok sok n cap dp q live :
  is_uint32 n -> is_uint32 cap -> create_with_destructor qok wok sok n cap dp = (q, live) ->
  match q with
  | Some q => length (workers q) = Z.to_nat n /\ num_workers q = n /\ 0 < n /\ destroy_payload q = dp /\
      dequeue_idx q = 0 /\ Forall (fresh_ring cap) (workers q) /\ live = blocks (length (workers q))
  | None => live = []
  end.
Proof.
  intros Hn Hc Hi. unfold create_with_destructor in Hi.
  destruct (Z.eqb_spec n 0), (cap <? 2); cbn [orb] in Hi; simplify_eq; try done.
  destruct qok; cbn [negb] in Hi; simplify_eq; [|done].
  destruct wok; cbn [negb] in Hi; simplify_eq; [|reflexivity].
  destruct (init_workers _ _ _ _ _ _) as [rings live'] eqn:Hw.
  apply (init_workers_ok _ _ _ 0) in Hw; [|done|constructor|done].
  destruct rings as [rs|]; simplify_eq; [|done]. cbn. destruct Hw as (Hl & Hf & ->). rewrite Hl.
  split; [done|]. split; [done|]. split; [mi|]. done.
Qed.

Lemma start_ok q cap : num_workers q = Z.of_nat (length (workers q)) -> 0 < num_workers q < 2 ^ 32 ->
  Forall (fresh_ring cap) (workers q) -> inv (start q) [].
Proof.
  intros Hn H0 Hf. split; [|done]. split; cbn; rewrite ?length_replicate; try done.
  intros w r p s Hw Hp Hs. apply lookup_replicate in Hp as [-> _]. apply lookup_replicate in Hs as [-> _].
  rewrite Forall_lookup in Hf. destruct (Hf _ _ Hw) as [Hr Hcap]. pose proof (cap_bounds _ _ _ Hr).
  split; [done| |].
  - split; cbn; [lia|]. split; [lia|done].
  - split; [cbn; lia|done].
Qed.

(** The two threads of a ring never hold the same slot. *)
Definition race_free (m : machine) : Prop :=
  forall w r item t h, workers (mq m) !! w = Some r ->
    (exists seen, prods m !! w = Some (Prod (Some (E_write item t)) seen)) ->
    co_at (co m) w = Some (D_read h) -> slot_of r t <> slot_of r h.

Lemma inv_race_free m ev : inv m ev -> race_free m.
Proof.
  intros [Hb _] w r item t h Hw (seen & Hp) Hc.
  destruct (base_lookup _ _ _ w Hb) as (r' & p' & s & Hw' & Hp' & Hs & [Hr (Hp1 & Hp2 & Hp3) [Hc1 Hc2]]).
  { eapply lookup_lt_Some. done. }
  simplify_eq. rewrite Hc in Hc2. cbn in *. destruct Hp3 as [-> Hlt]. destruct Hc2 as [-> Hlt2].
  apply not_eq_sym. apply (ring_slot_inj r (sent_by w ev) (got_by w ev)); [done|lia|lia].
Qed.

(** Capacities and the number of rings never change. *)
Definition shape (m : machine) : Z * list Z := (num_workers (mq m), capacity <$> workers (mq m)).

Lemma set_ring_shape m w r r' m' : workers (mq m) !! w = Some r -> capacity r' = capacity r ->
  set_ring m w r' = Some m' -> shape m' = shape m.
Proof.
  intros Hw Hc Hs. unfold set_ring in Hs.
  rewrite wr_lt in Hs by (eapply lookup_lt_Some; done). cbn in Hs. simplify_eq. unfold shape. cbn.
  f_equal. rewrite list_fmap_insert, Hc. apply list_insert_id. rewrite list_lookup_fmap, Hw. done.
Qed.

Lemma enqueue_capacity r seen k e r' seen' res :
  spsc_enqueue r seen k e = Some (r', seen', res) -> capacity r' = capacity r.
Proof.
  destruct e; cbn; intros H; [| | |by simplify_eq].
  - destruct (last (tails r)); by simplify_eq/=.
  - destruct (load_peer _ _ _); simplify_eq/=. destruct (_ <=? _); by simplify_eq.
  - destruct (wr _ _ _); by simplify_eq/=.
Qed.

Lemma dequeue_capacity r seen k d r' seen' res :
  spsc_dequeue r seen k d = Some (r', seen', res) -> capacity r' = capacity r.
Proof.
  destruct d; cbn; intros H; [| | |by simplify_eq].
  - destruct (last (heads r)); by simplify_eq/=.
  - destruct (load_peer _ _ _); simplify_eq/=. destruct (_ =? _); by simplify_eq.
  - destruct (rd _ _); by simplify_eq/=.
Qed.

Lemma one_loop_shape m i : shape (one_loop m i).1 = shape m.
Proof. unfold one_loop. by destruct (_ <? _). Qed.
Lemma all_loop_shape m w bl buf : shape (all_loop m w bl buf).1 = shape m.
Proof. unfold all_loop. by destruct (_ && _). Qed.

Lemma ring_step_shape m w k d running cont m' e :
  (forall m2 out, shape (cont m2 out).1 = shape m2) ->
  ring_step m w k d running cont = Some (m', e) -> shape m' = shape m.
Proof.
  intros Hc Hs. unfold ring_step in Hs. destruct (workers (mq m) !! w) as [r|] eqn:Hw; simplify_eq/=.
  destruct (c_seen m !! w) as [sn|]; simplify_eq/=.
  destruct (spsc_dequeue r sn k d) as [[[r' s'] res]|] eqn:Hd; simplify_eq/=.
  destruct (set_ring m w r') as [m1|] eqn:Hr; simplify_eq/=.
  destruct (set_seen m1 w s') as [m2|] eqn:Hss; simplify_eq/=.
  transitivity (shape m2).
  - destruct res as [d'|out]; [by simplify_eq/=|].
    specialize (Hc m2 out). destruct (cont m2 out). injection Hs as <- _. exact Hc.
  - transitivity (shape m1).
    + unfold set_seen in Hss. destruct (wr _ _ _); by simplify_eq/=.
    + eapply set_ring_shape; [done| |done]. by eapply dequeue_capacity.
Qed.

Lemma step_shape m c m' e : step m c = Some (m', e) -> shape m' = shape m.
Proof.
  intros Hs. destruct c as [w d s r| |bl|w k|k]; cbn [step] in Hs.
  - unfold call_enqueue in Hs. destruct (_ <=? _); simplify_eq; [done|].
    destruct (prods m !! w) as [[[|] ?]|]; simplify_eq/=. unfold set_prod in Hs. destruct (wr _ _ _); by simplify_eq/=.
  - destruct (co m); try done. injection Hs as Hs. pose proof (one_loop_shape m 0) as H. by rewrite Hs in H.
  - destruct (co m); try done. destruct (bl =? 0); [by simplify_eq|]. injection Hs as Hs.
    pose proof (all_loop_shape m 0 bl []) as H. by rewrite Hs in H.
  - unfold step_producer in Hs. destruct (prods m !! w) as [[[en|] seen]|]; simplify_eq/=.
    destruct (workers (mq m) !! w) as [r|] eqn:Hw; simplify_eq/=.
    destruct (spsc_enqueue r seen k en) as [[[r' s'] res]|] eqn:He; simplify_eq/=.
    destruct (set_ring m w r') as [m1|] eqn:Hr; simplify_eq/=.
    transitivity (shape m1).
    + destruct res; unfold set_prod in Hs; destruct (wr _ _ _); by simplify_eq/=.
    + eapply set_ring_shape; [done| |done]. by eapply enqueue_capacity.
  - unfold step_consumer in Hs. destruct (co m) as [|i idx d|w bl buf d]; [done|..].
    + eapply ring_step_shape; [|exact Hs]. intros m2 [x|]; [done|apply one_loop_shape].
    + eapply ring_step_shape; [|exact Hs]. intros m2 [x|]; [|apply all_loop_shape].
      destruct (_ <? _); [done|apply all_loop_shape].
Qed.

Lemma run_shape sched m m' e : run m sched = Some (m', e) -> shape m' = shape m.
Proof.
  revert m e. induction sched as [|c sched IH]; intros m e Hrun; cbn [run] in Hrun; [by simplify_eq|].
  destruct (step m c) as [[m1 e1]|] eqn:Hs; simplify_eq/=.
  destruct (run m1 sched) as [[m2 e2]|] eqn:Hr; simplify_eq/=. apply step_shape in Hs.
  transitivity (shape m1); [by eapply IH|done].
Qed.

(** C23: under every interleaving of workers and coordinator, with every value
    the memory model lets a load return, and however often the 32-bit cursors
    wrap, each worker's messages leave its ring in the order they were sent:
    what has been sent is what has been taken followed by what the ring holds,
    the ring holds at most its capacity, and no slot is written by a worker
    while the coordinator reads it. *)
Theorem queue_fifo qok wok sok n cap dp q live sched m ev :
  is_uint32 n -> is_uint32 cap ->
  create_with_destructor qok wok sok n cap dp = (Some q, live) ->
  run (start q) sched = Some (m, ev) ->
  length (workers (mq m)) = Z.to_nat n /\ race_free m /\
  forall w r, workers (mq m) !! w = Some r -> capacity r = next_pow2 cap /\
    sent_by w ev = got_by w ev ++ contents r /\ Z.of_nat (length (contents r)) <= capacity r.
Proof.
  intros Hn Hcap Hcr Hrun. apply queue_create_ok in Hcr as (Hl & Hnw & H0 & _ & _ & Hf & _); [|done..].
  assert (Hs : inv (start q) []).
  { eapply start_ok; [rewrite Hnw, Hl; lia|mi|done]. }
  pose proof (run_ok _ _ _ _ _ Hs Hrun) as Hi. cbn [app] in Hi. pose proof Hi as [Hb _].
  split; [|split; [by eapply inv_race_free|]].
  - apply run_shape in Hrun. injection Hrun as _ Hrun. apply (f_equal length) in Hrun.
    rewrite !length_fmap in Hrun. cbn in Hrun. lia.
  - intros w r Hw. split.
    { apply run_shape in Hrun. injection Hrun as _ Hrun. apply (f_equal (lookup w)) in Hrun.
      cbn in Hrun. rewrite !list_lookup_fmap, Hw in Hrun. cbn in Hrun.
      destruct (workers q !! w) as [r0|] eqn:H1; cbn in Hrun; [|done]. injection Hrun as ->.
      rewrite Forall_lookup in Hf. by apply (Hf w). }
    destruct (base_lookup _ _ _ w Hb) as (r' & p' & s & Hw' & _ & _ & [Hr _ _]).
    { eapply lookup_lt_Some. done. }
    simplify_eq. by apply contents_sent.
Qed.

(** Two workers with rings of two slots: worker 1 sends three messages while
    the coordinator takes one, with loads that read old cursors. *)
Definition demo_queue : queue :=
  default (Q [] 0 0 false) (create_with_destructor true true (fun _ => true) 2 2 true).1.
Definition send (w k : nat) (d : Z) : list choice :=
  [Call_enqueue w d 0 0; Producer w 0; Producer w k; Producer w 0; Producer w 0].
Definition demo_sched : list choice :=
  send 1 0 7 ++ [Call_dequeue; Consumer 0; Consumer 0; Consumer 0] ++ send 1 0 8 ++
  [Consumer 1; Consumer 0; Consumer 0] ++ send 1 1 9 ++ [Call_dequeue_all 4; Consumer 0; Consumer 0].
Definition demo_end : machine * list event :=
  default (start demo_queue, []) (run (start demo_queue) demo_sched).

Lemma queue_fifo_witness :
  (sent_by 1 demo_end.2 = got_by 1 demo_end.2 ++ contents (workers (mq demo_end.1) !!! 1%nat)) /\
  delta <$> got_by 1 demo_end.2 = [7] /\ delta <$> sent_by 1 demo_end.2 = [7; 8; 9].
Proof.
  split; [|vm_compute; split; reflexivity].
  refine (proj1 (proj2 (proj2 (proj2 (queue_fifo true true (fun _ => true) 2 2 true demo_queue (blocks 2) demo_sched
    demo_end.1 demo_end.2 _ _ _ _)) 1%nat (workers (mq demo_end.1) !!! 1%nat) _))).
  - vm_compute; split; discriminate.
  - vm_compute; split; discriminate.
  - vm_compute; reflexivity.
  - vm_compute; reflexivity.
  - vm_compute; reflexivity.
Defined.

(** ** Every call returns *)

Definition pending_enqueue (m : machine) (w : nat) : nat :=
  match prods m !! w with Some (Prod (Some e) _) => enq_left e | _ => 0 end.

Definition pending_dequeue (m : machine) : nat :=
  let n := num_workers (mq m) in
  match co m with
  | C_idle => 0
  | C_one i _ d => 4 * Z.to_nat (n - i - 1) + deq_left d
  | C_all w bl buf d => 4 * (Z.to_nat (bl - Z.of_nat (length buf) - 1) + Z.to_nat (n - w - 1)) + deq_left d
  end.

Definition is_producer (w : nat) (c : choice) : Prop := match c with Producer w' _ => w' = w | _ => False end.
Definition is_consumer (c : choice) : Prop := match c with Consumer _ => True | _ => False end.
Definition answers_worker (w : nat) (e : event) : Prop :=
  match e with Sent w' _ | Refused w' => w' = w | _ => False end.
Definition answers_coordinator (e : event) : Prop :=
  match e with Returned _ | Returned_all _ => True | _ => False end.

#[export] Instance is_producer_dec w c : Decision (is_producer w c).
Proof. destruct c; cbn; apply _. Defined.
#[export] Instance is_consumer_dec c : Decision (is_consumer c).
Proof. destruct c; cbn; apply _. Defined.
#[export] Instance answers_worker_dec w e : Decision (answers_worker w e).
Proof. destruct e; cbn; apply _. Defined.
#[export] Instance answers_coordinator_dec e : Decision (answers_coordinator e).
Proof. destruct e; cbn; apply _. Defined.

(** Producer steps do not touch the coordinator and the other producers. *)
Lemma step_producer_frame m w k m' e : step_producer m w k = Some (m', e) ->
  co m' = co m /\ (forall w', w' <> w -> prods m' !! w' = prods m !! w').
Proof.
  intros Hs. unfold step_producer in Hs. destruct (prods m !! w) as [[[en|] seen]|]; simplify_eq/=.
  destruct (workers (mq m) !! w) as [r|]; simplify_eq/=.
  destruct (spsc_enqueue r seen k en) as [[[r' s'] res]|]; simplify_eq/=.
  unfold set_ring in Hs. destruct (wr (workers _) _ _); simplify_eq/=.
  destruct res; unfold set_prod in Hs; cbn in Hs; unfold wr in Hs; case_decide; simplify_eq/=;
    (split; [done|]); intros; by rewrite list_lookup_insert_ne.
Qed.

Lemma ring_step_frame m w k d running cont m' e :
  (forall m2 out, prods (cont m2 out).1 = prods m2) ->
  ring_step m w k d running cont = Some (m', e) -> prods m' = prods m.
Proof.
  intros Hc Hs. unfold ring_step in Hs. destruct (workers (mq m) !! w) as [r|]; simplify_eq/=.
  destruct (c_seen m !! w) as [sn|]; simplify_eq/=.
  destruct (spsc_dequeue r sn k d) as [[[r' s'] res]|]; simplify_eq/=.
  unfold set_ring in Hs. destruct (wr (workers _) _ _); simplify_eq/=.
  unfold set_seen in Hs. cbn in Hs. destruct (wr (c_seen _) _ _); simplify_eq/=.
  destruct res as [d'|out]; simplify_eq/=; [done|].
  match type of Hs with context [cont ?x out] => specialize (Hc x out); destruct (cont x out) end.
  by simplify_eq/=.
Qed.

Lemma step_consumer_frame m k m' e : step_consumer m k = Some (m', e) -> prods m' = prods m.
Proof.
  intros Hs. unfold step_consumer in Hs. destruct (co m); [done|..]; (eapply ring_step_frame; [|exact Hs]).
  - intros m2 [x|]; [done|]. unfold one_loop. by destruct (_ <? _).
  - intros m2 [x|]; cbn; unfold all_loop; repeat case_match; done.
Qed.

(** One step either answers worker [w], or leaves its call pending with one
    step less to go when it was its own. *)
Lemma step_enqueue_left m c m' e w : step m c = Some (m', e) -> (0 < pending_enqueue m w)%nat ->
  Exists (answers_worker w) e \/
  (0 < pending_enqueue m' w /\
   pending_enqueue m' w + (if decide (is_producer w c) then 1 else 0) <= pending_enqueue m w)%nat.
Proof.
  intros Hs Hp. destruct c as [w0 d s r| |bl|w0 k|k]; cbn [step] in Hs.
  - rewrite decide_False by auto. unfold call_enqueue in Hs. destruct (_ <=? _); simplify_eq; [right; lia|].
    destruct (prods m !! w0) as [[[|] seen]|] eqn:Hw0; simplify_eq/=. right.
    unfold set_prod in Hs. unfold wr in Hs. case_decide; simplify_eq/=.
    unfold pending_enqueue in *. cbn. destruct (decide (w0 = w)) as [->|]; [rewrite Hw0 in Hp; cbn in Hp; lia|].
    rewrite list_lookup_insert_ne by done. lia.
  - right. rewrite decide_False by auto. destruct (co m); try done. injection Hs as Hs. unfold one_loop in Hs.
    destruct (_ <? _); simplify_eq; unfold pending_enqueue in *; cbn; lia.
  - right. rewrite decide_False by auto. destruct (co m); try done.
    destruct (bl =? 0); [simplify_eq; lia|]. injection Hs as Hs.
    unfold all_loop in Hs. destruct (_ && _); simplify_eq; unfold pending_enqueue in *; cbn; lia.
  - destruct (decide (w0 = w)) as [->|Hne].
    2:{ right. rewrite decide_False by done. apply step_producer_frame in Hs as [_ Hf].
        unfold pending_enqueue in *. rewrite (Hf w) by done. lia. }
    rewrite decide_True by done. unfold step_producer in Hs. unfold pending_enqueue in *.
    destruct (prods m !! w) as [[[en|] seen]|] eqn:Hw; simplify_eq/=.
    destruct (workers (mq m) !! w) as [r|]; simplify_eq/=.
    destruct (spsc_enqueue r seen k en) as [[[r' s'] res]|] eqn:He; simplify_eq/=.
    unfold set_ring in Hs. destruct (wr (workers _) _ _); simplify_eq/=.
    destruct res as [e'|v]; unfold set_prod in Hs; cbn in Hs; unfold wr in Hs; case_decide; simplify_eq/=.
    + right. rewrite list_lookup_insert_eq by done. destruct en; cbn in He; simplify_eq/=.
      * destruct (last (tails r)); simplify_eq/=; lia.
      * destruct (load_peer _ _ _); simplify_eq/=. destruct (_ <=? _); simplify_eq/=; lia.
      * destruct (wr (slots r) _ _); simplify_eq/=; lia.
    + left. destruct en; by constructor.
  - right. rewrite decide_False by auto. apply step_consumer_frame in Hs.
    unfold pending_enqueue in *. rewrite Hs. lia.
Qed.

Lemma ring_step_cases m w k d running cont m' e : ring_step m w k d running cont = Some (m', e) ->
  (exists m2 d', m' = set_co m2 (running d') /\ num_workers (mq m2) = num_workers (mq m) /\
     (0 < deq_left d' < deq_left d)%nat) \/
  (exists m2 out pre, num_workers (mq m2) = num_workers (mq m) /\ m' = (cont m2 out).1 /\
     e = pre ++ (cont m2 out).2 /\ (0 < deq_left d)%nat).
Proof.
  intros Hs. unfold ring_step in Hs. destruct (workers (mq m) !! w) as [r|]; simplify_eq/=.
  destruct (c_seen m !! w) as [sn|]; simplify_eq/=.
  destruct (spsc_dequeue r sn k d) as [[[r' s'] res]|] eqn:Hd; simplify_eq/=.
  unfold set_ring in Hs. destruct (wr (workers _) _ _); simplify_eq/=.
  unfold set_seen in Hs. cbn in Hs. destruct (wr (c_seen _) _ _); simplify_eq/=.
  destruct res as [d'|out].
  - left. simplify_eq/=. eexists _, d'. split; [done|]. split; [done|].
    destruct d; cbn in Hd; simplify_eq/=.
    + destruct (last (heads r)); simplify_eq/=; lia.
    + destruct (load_peer _ _ _); simplify_eq/=. destruct (_ =? _); simplify_eq/=; lia.
    + destruct (rd _ _); simplify_eq/=; lia.
  - right. match type of Hs with context [cont ?x out] =>
      exists x, out, (match out with Some y => [Got w y] | None => [] end) end.
    split; [done|]. destruct (cont _ out); simplify_eq/=.
    split; [done|]. split; [by destruct out|]. destruct d; cbn; lia.
Qed.

Lemma answers_app e1 e2 : Exists answers_coordinator e2 -> Exists answers_coordinator (e1 ++ e2).
Proof. intros. apply Exists_app. by right. Qed.

(** A state in which the coordinator has answered, or has at most [n] steps left. *)
Definition within (n : nat) (me : machine * list event) : Prop :=
  Exists answers_coordinator me.2 \/ (0 < pending_dequeue me.1 <= n)%nat.

Lemma within_co m2 c n : (0 < pending_dequeue (set_co m2 c) <= n)%nat -> within n (set_co m2 c, []).
Proof. intros. by right. Qed.

Lemma one_loop_left m i n : (4 * Z.to_nat (num_workers (mq m) - i) <= n)%nat -> within n (one_loop m i).
Proof.
  intros Hn. unfold one_loop. destruct (Z.ltb_spec i (num_workers (mq m))); [|left; by constructor].
  apply within_co. cbn. lia.
Qed.

Lemma all_loop_left m w bl buf n :
  (4 * (Z.to_nat (num_workers (mq m) - w) + Z.to_nat (bl - Z.of_nat (length buf) - 1)) <= n)%nat ->
  within n (all_loop m w bl buf).
Proof.
  intros Hn. unfold all_loop.
  destruct (Z.ltb_spec w (num_workers (mq m))), (Z.ltb_spec (Z.of_nat (length buf)) bl); cbn [andb];
    try (left; by constructor).
  apply within_co. cbn. lia.
Qed.

Lemma step_consumer_left m ev k m' e : inv m ev -> step_consumer m k = Some (m', e) ->
  within (pred (pending_dequeue m)) (m', e).
Proof.
  intros [Hb Hr] Hs. pose proof (b_u32 _ _ _ Hb). unfold step_consumer in Hs. unfold pending_dequeue.
  destruct (co m) as [|i idx d|w bl buf d]; [done|..]; cbn in Hr;
    apply ring_step_cases in Hs as [(m2 & d' & -> & Hn & Hd)|(m2 & out & pre & Hn & -> & -> & Hd)].
  - right. cbn. rewrite Hn. lia.
  - destruct out as [x|]; [left; apply answers_app; by constructor|].
    assert (Hi : u32 (i + 1) = i + 1) by (apply u32_small; mi). rewrite Hi.
    pose proof (one_loop_left m2 (i + 1) (4 * Z.to_nat (num_workers (mq m) - i - 1))) as [Ho|Ho]; [rewrite Hn; lia|..].
    + left. cbn. by apply answers_app.
    + right. cbn [fst] in *. lia.
  - right. cbn. rewrite Hn. lia.
  - assert (Hi : u32 (w + 1) = w + 1) by (apply u32_small; mi). rewrite Hi.
    destruct out as [x|].
    + destruct (Z.ltb_spec (Z.of_nat (length (buf ++ [x]))) bl) as [Hlt|Hge].
      * right. rewrite length_app in Hlt. cbn in *. rewrite Hn, length_app. cbn. lia.
      * left. apply answers_app. unfold all_loop.
        destruct (Z.ltb_spec (Z.of_nat (length (buf ++ [x]))) bl); [lia|]. rewrite andb_false_r. by constructor.
    + pose proof (all_loop_left m2 (w + 1) bl buf
        (4 * (Z.to_nat (bl - Z.of_nat (length buf) - 1) + Z.to_nat (num_workers (mq m) - w - 1)))) as [Ho|Ho];
        [rewrite Hn; lia|..].
      * left. cbn. by apply answers_app.
      * right. cbn [fst] in *. lia.
Qed.

Lemma step_dequeue_left m ev c m' e : inv m ev -> step m c = Some (m', e) -> (0 < pending_dequeue m)%nat ->
  Exists answers_coordinator e \/
  (0 < pending_dequeue m' /\
   pending_dequeue m' + (if decide (is_consumer c) then 1 else 0) <= pending_dequeue m)%nat.
Proof.
  intros Hi Hs Hp. pose proof (step_shape _ _ _ _ Hs) as Hsh. injection Hsh as Hn _.
  assert (Hsame : co m' = co m -> pending_dequeue m' = pending_dequeue m).
  { intros Hc. unfold pending_dequeue. by rewrite Hc, Hn. }
  destruct c as [w0 d s r| |bl|w0 k|k]; cbn [step] in Hs.
  - right. rewrite decide_False by auto. rewrite Hsame; [lia|]. unfold call_enqueue in Hs.
    destruct (_ <=? _); simplify_eq; [done|]. destruct (prods m !! w0) as [[[|] seen]|]; simplify_eq/=.
    unfold set_prod in Hs. destruct (wr _ _ _); by simplify_eq/=.
  - exfalso. unfold pending_dequeue in Hp. destruct (co m); [lia|done..].
  - exfalso. unfold pending_dequeue in Hp. destruct (co m); [lia|done..].
  - right. rewrite decide_False by auto. rewrite Hsame; [lia|]. by eapply step_producer_frame.
  - rewrite decide_True by done.
    destruct (step_consumer_left _ _ _ _ _ Hi Hs) as [Ha|Ha]; cbn in Ha; [by left|right; lia].
Qed.

Section Returns.
Variables (P : event -> Prop) (own : choice -> Prop) (left_ : machine -> nat).
Context `{!forall c, Decision (own c)}.
Hypothesis Hstep : forall m ev c m' e, inv m ev -> step m c = Some (m', e) -> (0 < left_ m)%nat ->
  Exists P e \/ (0 < left_ m' /\ left_ m' + (if decide (own c) then 1 else 0) <= left_ m)%nat.

Lemma run_returns sched m ev m' e : inv m ev -> run m sched = Some (m', e) ->
  (0 < left_ m <= length (filter own sched))%nat -> Exists P e.
Proof.
  revert m ev e. induction sched as [|c sched IH]; intros m ev e Hi Hrun Hl; cbn [run] in Hrun.
  { cbn in Hl. lia. }
  destruct (step m c) as [[m1 e1]|] eqn:Hs; cbn in Hrun; [|done].
  destruct (run m1 sched) as [[m2 e2]|] eqn:Hr; cbn in Hrun; [|done]. simplify_eq.
  apply Exists_app. destruct (Hstep _ _ _ _ _ Hi Hs ltac:(lia)) as [Ha|[H1 H2]]; [by left|right].
  eapply IH; [by eapply queue_step_ok|done|]. rewrite filter_cons in Hl.
  destruct (decide (own c)); cbn in Hl; lia.
Qed.
End Returns.

Lemma queue_start_inv qok wok sok n cap dp q live :
  is_uint32 n -> is_uint32 cap -> create_with_destructor qok wok sok n cap dp = (Some q, live) ->
  inv (start q) [].
Proof.
  intros Hn Hcap Hcr. apply queue_create_ok in Hcr as (Hl & Hnw & H0 & _ & _ & Hf & _); [|done..].
  eapply start_ok; [rewrite Hnw, Hl; lia|mi|done].
Qed.

Lemma producer_steps m ev w k p r e : inv m ev ->
  prods m !! w = Some p -> pc p = Some e -> workers (mq m) !! w = Some r ->
  view_ok (heads r) (p_seen p) k -> is_Some (step m (Producer w k)).
Proof.
  intros [Hb _] Hp He Hw Hv. assert (Hlt : (w < length (workers (mq m)))%nat) by by eapply lookup_lt_Some.
  destruct (base_lookup _ _ _ w Hb Hlt) as (r' & p' & s & Hw' & Hp' & Hs & Hok). simplify_eq.
  destruct p as [pc seen]; cbn in *; subst pc.
  destruct (enqueue_progress _ _ _ _ _ _ _ k Hok Hv) as (r' & seen' & res & Hst & _).
  unfold step_producer. rewrite Hp. cbn. rewrite Hw. cbn. rewrite Hst. cbn.
  assert (Hset : forall p2, (m1 ← set_ring m w r'; set_prod m1 w p2) = Some (upd m w r' p2 s)).
  { intros p2. apply upd_producer; [done|apply Hb|done]. }
  destruct res as [e'|v].
  - specialize (Hset (Prod (Some e') seen')). destruct (set_ring m w r') as [m1|]; cbn in *; [|done].
    rewrite Hset. cbn. by eexists.
  - specialize (Hset (Prod None seen')). destruct (set_ring m w r') as [m1|]; cbn in *; [|done].
    rewrite Hset. cbn. by eexists.
Qed.

Lemma ring_step_some m ev w k d running cont : inv m ev -> (w < length (workers (mq m)))%nat ->
  co_at (co m) w = Some d ->
  (forall r s, workers (mq m) !! w = Some r -> c_seen m !! w = Some s -> view_ok (tails r) s k) ->
  is_Some (ring_step m w k d running cont).
Proof.
  intros [Hb _] Hlt Hat Hv. destruct (base_lookup _ _ _ w Hb Hlt) as (r & p & s & Hw & Hp & Hs & Hok).
  rewrite Hat in Hok. destruct (dequeue_progress _ _ _ _ _ _ k Hok (Hv _ _ Hw Hs)) as (r' & s' & res & Hst & _).
  unfold ring_step. rewrite Hw, Hs. cbn. rewrite Hst. cbn.
  pose proof (upd_consumer m w r' p s' Hlt (b_seen _ _ _ Hb) Hp) as Hset.
  destruct (set_ring m w r') as [m1|]; cbn in *; [|done]. rewrite Hset. cbn.
  destruct res as [d'|out]; [by eexists|]. destruct (cont _ out). by eexists.
Qed.

Lemma consumer_steps m ev k : inv m ev -> co m <> C_idle ->
  (forall w r s, co_at (co m) w <> None -> workers (mq m) !! w = Some r -> c_seen m !! w = Some s ->
    view_ok (tails r) s k) ->
  is_Some (step m (Consumer k)).
Proof.
  intros Hi Hne Hv. pose proof Hi as [Hb Hr]. pose proof (b_num _ _ _ Hb).
  cbn [step]. unfold step_consumer. destruct (co m) as [|i idx d|w bl buf d] eqn:Hco; [done|..]; cbn in Hr, Hv.
  - eapply ring_step_some; [done|lia| |].
    + rewrite Hco. cbn. by rewrite decide_True.
    + intros r s. apply Hv. by rewrite decide_True.
  - eapply ring_step_some; [done|lia| |].
    + rewrite Hco. cbn. by rewrite decide_True.
    + intros r s. apply Hv. by rewrite decide_True.
Qed.

(** The newest store is always a valid view. *)
Lemma newest_views m ev w r p s : inv m ev ->
  workers (mq m) !! w = Some r -> prods m !! w = Some p -> c_seen m !! w = Some s ->
  view_ok (heads r) (p_seen p) (newest (heads r)) /\ view_ok (tails r) s (newest (tails r)).
Proof.
  intros [Hb _] Hw Hp Hs. destruct (b_workers _ _ _ Hb _ _ _ _ Hw Hp Hs) as [Hr (H1 & _) (H2 & _)].
  unfold view_ok. rewrite (ok_heads _ _ _ Hr), (ok_tails _ _ _ Hr), !history_newest.
  unfold history. rewrite !length_fmap, !length_seq. lia.
Qed.

(** The steps a call can still need. *)
Definition call_bound (n : Z) (c : coord) : Z :=
  match c with C_idle => 0 | C_one _ _ _ => 4 * n | C_all _ bl _ _ => 4 * (n + bl) end.

Lemma pending_bounds m ev : inv m ev ->
  (forall w, pending_enqueue m w <= 4)%nat /\ Z.of_nat (pending_dequeue m) <= call_bound (num_workers (mq m)) (co m).
Proof.
  intros [Hb Hr]. split.
  - intros w. unfold pending_enqueue. destruct (prods m !! w) as [[[[]|] ?]|]; cbn; lia.
  - unfold pending_dequeue. destruct (co m) as [|i idx d|w bl buf d]; cbn in *; [lia|..];
      destruct d; cbn; lia.
Qed.

(** C37: the queue is wait-free: from every reachable state a thread inside a
    call can take its next step whatever the others do, an enqueue answers
    after at most four of its own steps, a dequeue after at most four per ring,
    and a drain after at most four per ring and per message of the buffer. *)
Theorem queue_wait_free qok wok sok n cap dp q live sched m ev :
  is_uint32 n -> is_uint32 cap ->
  create_with_destructor qok wok sok n cap dp = (Some q, live) ->
  run (start q) sched = Some (m, ev) ->
  (forall w k p r e, prods m !! w = Some p -> pc p = Some e -> workers (mq m) !! w = Some r ->
     view_ok (heads r) (p_seen p) k -> is_Some (step m (Producer w k))) /\
  (forall k, co m <> C_idle ->
     (forall w r s, co_at (co m) w <> None -> workers (mq m) !! w = Some r -> c_seen m !! w = Some s ->
        view_ok (tails r) s k) ->
     is_Some (step m (Consumer k))) /\
  (forall w r p s, workers (mq m) !! w = Some r -> prods m !! w = Some p -> c_seen m !! w = Some s ->
     view_ok (heads r) (p_seen p) (newest (heads r)) /\ view_ok (tails r) s (newest (tails r))) /\
  (forall w, pending_enqueue m w <= 4)%nat /\
  Z.of_nat (pending_dequeue m) <= call_bound n (co m) /\
  forall sched' m' ev', run m sched' = Some (m', ev') ->
    (forall w, (0 < pending_enqueue m w <= length (filter (is_producer w) sched'))%nat ->
       Exists (answers_worker w) ev') /\
    ((0 < pending_dequeue m <= length (filter is_consumer sched'))%nat -> Exists answers_coordinator ev').
Proof.
  intros Hn Hcap Hcr Hrun. pose proof (queue_start_inv _ _ _ _ _ _ _ _ Hn Hcap Hcr) as Hs.
  pose proof (run_ok _ _ _ _ _ Hs Hrun) as Hi. cbn [app] in Hi.
  pose proof (pending_bounds _ _ Hi) as [Hpe Hpd].
  assert (Hnw : num_workers (mq m) = n).
  { apply run_shape in Hrun. injection Hrun as -> _. by apply queue_create_ok in Hcr as (_ & -> & _). }
  rewrite Hnw in Hpd.
  split; [intros; by eapply producer_steps|]. split; [intros; by eapply consumer_steps|].
  split; [intros; by eapply newest_views|]. split; [done|]. split; [done|].
  intros sched' m' ev' Hrun'. split.
  - intros w. apply (run_returns _ _ (fun m => pending_enqueue m w)) with (ev := ev) (m' := m'); [|done..].
    intros. by apply step_enqueue_left.
  - apply (run_returns _ _ pending_dequeue) with (ev := ev) (m' := m'); [|done..].
    intros. by eapply step_dequeue_left.
Qed.

Lemma queue_wait_free_witness :
  (pending_dequeue demo_end.1 = 16)%nat /\ (pending_enqueue demo_end.1 1 <= 4)%nat.
Proof.
  split; [vm_compute; reflexivity|].
  refine (proj1 (proj2 (proj2 (proj2 (queue_wait_free true true (fun _ => true) 2 2 true demo_queue (blocks 2) demo_sched
    demo_end.1 demo_end.2 _ _ _ _)))) 1%nat).
  - vm_compute; split; discriminate.
  - vm_compute; split; discriminate.
  - vm_compute; reflexivity.
  - vm_compute; reflexivity.
Defined.
