(* ===== verification/LockfreeQueueSpec.v ===== *)
(** * The delta queue against its abstract specification

    The operations of [LockfreeQueue] taken one at a time refine an array of
    bounded FIFO queues with a round-robin cursor; from the refinement follow
    fairness of wl_mpsc_dequeue and that wl_mpsc_queue_destroy hands every
    message still queued to the destructor once. *)

From S2P Require Import Prelude LockfreeQueue LockfreeQueueProof.
From Stdlib Require Import Permutation.

Import Queue.

(** ** The specification *)

Record spec := Spec { queues : list (list msg); cursor_ : nat }.

Definition spec_enqueue (cap : Z) (s : spec) (w : nat) (m : msg) : spec * Z :=
  match queues s !! w with
  | None => (s, -1)
  | Some l =>
      if Z.of_nat (length l) <? cap then (Spec (<[w := l ++ [m]]> (queues s)) (cursor_ s), 0) else (s, -1)
  end.

(** The first non-empty queue from the cursor on, in cyclic order. *)
Definition spec_next (s : spec) : option nat :=
  let n := length (queues s) in
  snd <$> list_find (fun w => queues s !! w <> Some []) ((fun i => (cursor_ s + i) mod n)%nat <$> seq 0 n).

Definition spec_dequeue (s : spec) : spec * option msg :=
  match spec_next s with
  | None => (s, None)
  | Some w =>
      match queues s !! w with
      | Some (m :: l) => (Spec (<[w := l]> (queues s)) ((w + 1) mod length (queues s)), Some m)
      | _ => (s, None)
      end
  end.

(** ** The abstraction *)

Definition abs (q : queue) : spec := Spec (contents <$> workers q) (Z.to_nat (dequeue_idx q)).

Definition ring_wf (cap : Z) (r : ring) : Prop := capacity r = cap /\ exists sent got, ring_ok r sent got.

Record queue_wf (cap : Z) (q : queue) : Prop := {
  q_num : num_workers q = Z.of_nat (length (workers q));
  q_u32 : 0 < num_workers q <= 2 ^ 31;
  q_idx : 0 <= dequeue_idx q < num_workers q;
  q_rings : Forall (ring_wf cap) (workers q) }.

(** ** The ring operations alone *)

Lemma load_newest n : load_peer (history n) 0 (newest (history n)) = Some (cursor n).
Proof. rewrite history_newest. apply load_peer_ok. lia. Qed.

Lemma enqueue_alone_ok r sent got item : ring_ok r sent got ->
  if Z.of_nat (length (contents r)) <? capacity r
  then exists r', enqueue_alone 4 r (E_tail item) = Some (r', 0) /\ capacity r' = capacity r /\
    ring_ok r' (sent ++ [item]) got
  else enqueue_alone 4 r (E_tail item) = Some (r, -1).
Proof.
  intros H. rewrite (contents_ok _ _ _ H), length_drop.
  pose proof (prefix_length _ _ (ok_prefix _ _ _ H)). pose proof (ok_room _ _ _ H). pose proof (cap_bounds _ _ _ H).
  assert (Hr : enqueue_alone 4 r (E_tail item) =
    if capacity r <=? u32 (cursor (length sent) - cursor (length got)) then Some (r, -1)
    else enqueue_alone 2 r (E_write item (cursor (length sent)))).
  { assert (E1 : forall k, spsc_enqueue r 0 k (E_tail item) = Some (r, 0%nat, inl (E_head item (cursor (length sent)))))
      by (intros; cbn [spsc_enqueue]; rewrite (ok_tails _ _ _ H), history_last; done).
    assert (E2 : load_peer (heads r) 0 (newest (heads r)) = Some (cursor (length got)))
      by (rewrite (ok_heads _ _ _ H); apply load_newest).
    cbn [enqueue_alone]. rewrite E1. cbn [mbind option_bind].
    cbn [spsc_enqueue]. rewrite E2. cbn [mbind option_bind]. by destruct (_ <=? _). }
  rewrite Hr, cursor_dist by lia. clear Hr.
  destruct (Z.ltb_spec (Z.of_nat (length sent - length got)) (capacity r)),
    (Z.leb_spec (capacity r) (Z.of_nat (length sent) - Z.of_nat (length got))); try lia; [|done].
  pose proof (slot_lt _ _ _ (length sent) H).
  cbn [enqueue_alone spsc_enqueue]. rewrite wr_lt by done. cbn.
  eexists. split; [done|]. split; [done|]. rewrite (ok_tails _ _ _ H), history_S.
  apply (ring_ok_send (Ring _ (capacity r) (mask r) (tails r) (heads r))).
  - apply ring_ok_write; [done|lia].
  - cbn. lia.
  - by apply list_lookup_insert_eq.
Qed.

Lemma dequeue_alone_ok r sent got : ring_ok r sent got ->
  match contents r with
  | [] => dequeue_alone 4 r D_head = Some (r, None)
  | m :: l => exists r', dequeue_alone 4 r D_head = Some (r', Some m) /\ capacity r' = capacity r /\
      ring_ok r' sent (got ++ [m])
  end.
Proof.
  intros H. rewrite (contents_ok _ _ _ H).
  pose proof (prefix_length _ _ (ok_prefix _ _ _ H)). pose proof (ok_room _ _ _ H). pose proof (cap_bounds _ _ _ H).
  assert (Hr : dequeue_alone 4 r D_head =
    if cursor (length got) =? cursor (length sent) then Some (r, None)
    else dequeue_alone 2 r (D_read (cursor (length got)))).
  { assert (E1 : forall k, spsc_dequeue r 0 k D_head = Some (r, 0%nat, inl (D_tail (cursor (length got)))))
      by (intros; cbn [spsc_dequeue]; rewrite (ok_heads _ _ _ H), history_last; done).
    assert (E2 : load_peer (tails r) 0 (newest (tails r)) = Some (cursor (length sent)))
      by (rewrite (ok_tails _ _ _ H); apply load_newest).
    cbn [dequeue_alone]. rewrite E1. cbn [mbind option_bind].
    cbn [spsc_dequeue]. rewrite E2. cbn [mbind option_bind]. by destruct (_ =? _). }
  rewrite Hr. clear Hr. destruct (drop (length got) sent) as [|m l] eqn:Hd.
  - apply (f_equal length) in Hd. rewrite length_drop in Hd. cbn in Hd.
    replace (length sent) with (length got) by lia. by rewrite Z.eqb_refl.
  - assert (Hm : sent !! length got = Some m).
    { rewrite <- (Nat.add_0_r (length got)), <- lookup_drop, Hd. done. }
    pose proof (lookup_lt_Some _ _ _ Hm).
    destruct (Z.eqb_spec (cursor (length got)) (cursor (length sent))) as [He|_].
    { apply cursor_inj in He; lia. }
    cbn [dequeue_alone spsc_dequeue]. unfold rd. rewrite (ok_queued _ _ _ H), Hm by lia. cbn.
    eexists. split; [done|]. split; [done|]. rewrite (ok_heads _ _ _ H), history_S. by apply ring_ok_take.
Qed.

Lemma contents_send r r' sent got m : ring_ok r sent got -> ring_ok r' (sent ++ [m]) got ->
  contents r' = contents r ++ [m].
Proof.
  intros H H'. rewrite (contents_ok _ _ _ H), (contents_ok _ _ _ H').
  apply drop_app_le, prefix_length, (ok_prefix _ _ _ H).
Qed.

Lemma contents_take r r' sent got m l : ring_ok r sent got -> ring_ok r' sent (got ++ [m]) ->
  contents r = m :: l -> contents r' = l.
Proof.
  intros H H'. rewrite (contents_ok _ _ _ H), (contents_ok _ _ _ H'), length_app. cbn. intros Hd.
  rewrite <- drop_drop, Hd. done.
Qed.

(** ** The queue operations *)

Lemma ring_at cap q w r : queue_wf cap q -> workers q !! w = Some r ->
  capacity r = cap /\ exists sent got, ring_ok r sent got.
Proof. intros H Hw. pose proof (q_rings _ _ H) as Hf. rewrite Forall_lookup in Hf. by apply (Hf w). Qed.

Lemma abs_lookup q w : queues (abs q) !! w = contents <$> workers q !! w.
Proof. apply list_lookup_fmap. Qed.

Lemma queue_wf_put cap q w r r' : queue_wf cap q -> workers q !! w = Some r -> ring_wf cap r' ->
  exists q', put_ring q w r' = Some q' /\ queue_wf cap q' /\
    abs q' = Spec (<[w := contents r']> (queues (abs q))) (cursor_ (abs q)) /\ num_workers q' = num_workers q /\
    dequeue_idx q' = dequeue_idx q /\ destroy_payload q' = destroy_payload q /\ workers q' = <[w := r']> (workers q).
Proof.
  intros H Hw Hr. assert (Hlt : (w < length (workers q))%nat) by by eapply lookup_lt_Some.
  unfold put_ring. rewrite wr_lt by done. cbn. eexists. split; [done|].
  split; [|split; [|done]].
  - destruct H as [H1 H2 H3 H4]. split; cbn; rewrite ?length_insert; [done..|]. by apply Forall_insert.
  - unfold abs. cbn. by rewrite list_fmap_insert.
Qed.

Lemma enqueue_refines cap q w d s rl : queue_wf cap q ->
  exists q' v, enqueue q w d s rl = Some (q', v) /\ queue_wf cap q' /\
    num_workers q' = num_workers q /\ destroy_payload q' = destroy_payload q /\
    (abs q', v) = spec_enqueue cap (abs q) w (Msg d s (Z.of_nat w) rl 0 0 0).
Proof.
  intros H. unfold enqueue, spec_enqueue. pose proof (q_num _ _ H) as Hn. rewrite abs_lookup.
  destruct (Z.leb_spec (num_workers q) (Z.of_nat w)) as [Hw|Hw].
  { exists q, (-1). rewrite (lookup_ge_None_2 (workers q)) by lia. done. }
  destruct (lookup_lt_is_Some_2 (workers q) w) as [r Hr]; [lia|]. rewrite Hr. cbn [mbind option_bind fmap option_map option_fmap].
  destruct (ring_at _ _ _ _ H Hr) as (Hc & sent & got & Hok).
  pose proof (enqueue_alone_ok _ _ _ (Msg d s (Z.of_nat w) rl 0 0 0) Hok) as He. rewrite Hc in He.
  destruct (Z.ltb_spec (Z.of_nat (length (contents r))) cap).
  - destruct He as (r' & -> & Hc' & Hok'). cbn [mbind option_bind].
    destruct (queue_wf_put cap q w r r') as (q' & -> & Hwf & Habs & Hnw & _ & Hdp & _); [done..| |].
    { split; [done|by eexists _, _]. }
    cbn [mbind option_bind]. eexists _, _. split; [done|]. split; [done|]. split; [done|]. split; [done|].
    rewrite Habs, (contents_send r r' sent got (Msg d s (Z.of_nat w) rl 0 0 0)); done.
  - rewrite He. cbn [mbind option_bind].
    unfold put_ring. rewrite wr_lt by lia. cbn. rewrite list_insert_id by done. exists q, (-1).
    destruct q. done.
Qed.

(** The indices the scan visits. *)
Lemma scan_index cap q i : queue_wf cap q -> 0 <= i < num_workers q ->
  let idx := u32 (dequeue_idx q + i) mod num_workers q in
  idx = Z.of_nat ((cursor_ (abs q) + Z.to_nat i) mod length (queues (abs q)))%nat /\
  (Z.to_nat idx < length (workers q))%nat.
Proof.
  intros H Hi. pose proof (q_num _ _ H). pose proof (q_u32 _ _ H). pose proof (q_idx _ _ H). cbv zeta.
  rewrite u32_small by mi. cbn. rewrite length_fmap, Nat2Z.inj_mod, Nat2Z.inj_add, !Z2Nat.id by lia.
  rewrite <- H0. split; [done|]. pose proof (Z.mod_pos_bound (dequeue_idx q + i) (num_workers q) ltac:(lia)). lia.
Qed.

Lemma list_find_cons_false {A} (P : A -> Prop) `{forall x, Decision (P x)} x l :
  ~ P x -> snd <$> list_find P (x :: l) = snd <$> list_find P l.
Proof. intros Hx. cbn. rewrite decide_False by done. by destruct (list_find P l) as [[? ?]|]. Qed.

Definition scan_from (s : spec) (n i : nat) : option nat :=
  snd <$> list_find (fun w => queues s !! w <> Some [])
    ((fun i => (cursor_ s + i) mod length (queues s))%nat <$> seq i n).

Lemma dequeue_loop_refines cap q n i : queue_wf cap q -> (n + i = length (workers q))%nat ->
  exists q' out, dequeue_loop n q (Z.of_nat i) = Some (q', out) /\ queue_wf cap q' /\
    num_workers q' = num_workers q /\ destroy_payload q' = destroy_payload q /\
    (abs q', out) =
      match scan_from (abs q) n i with
      | None => (abs q, None)
      | Some w =>
          match queues (abs q) !! w with
          | Some (m :: l) => (Spec (<[w := l]> (queues (abs q))) ((w + 1) mod length (queues (abs q))), Some m)
          | _ => (abs q, None)
          end
      end.
Proof.
  intros H. pose proof (q_num _ _ H) as Hn. pose proof (q_u32 _ _ H) as Hu.
  revert i. induction n as [|n IH]; intros i Hi; cbn [dequeue_loop].
  { by exists q, None. }
  destruct (scan_index cap q (Z.of_nat i) H ltac:(lia)) as [Hidx Hlt]. cbv zeta in Hidx, Hlt.
  rewrite Nat2Z.id in Hidx. rewrite Hidx in Hlt |- *. rewrite Nat2Z.id in Hlt |- *.
  unfold scan_from. cbn [seq fmap list_fmap].
  set (w := ((cursor_ (abs q) + i) mod length (queues (abs q)))%nat) in *.
  destruct (lookup_lt_is_Some_2 (workers q) w Hlt) as [r Hr]. rewrite Hr. cbn [mbind option_bind].
  destruct (ring_at _ _ _ _ H Hr) as (Hc & sent & got & Hok).
  pose proof (dequeue_alone_ok _ _ _ Hok) as Hd.
  destruct (contents r) as [|m l] eqn:Hcon.
  - rewrite Hd. cbn [mbind option_bind]. unfold put_ring. rewrite wr_lt by done. cbn [mbind option_bind].
    rewrite list_insert_id by done. replace (Q _ _ _ _) with q by by destruct q.
    assert (Hu1 : u32 (Z.of_nat i + 1) = Z.of_nat (S i)) by (rewrite u32_small by mi; lia). rewrite Hu1.
    rewrite list_find_cons_false; [apply IH; lia|]. intros Hne. apply Hne.
    rewrite abs_lookup, Hr. cbn. by rewrite Hcon.
  - destruct Hd as (r' & -> & Hc' & Hok'). cbn [mbind option_bind].
    destruct (queue_wf_put cap q w r r') as (q' & -> & Hwf & Habs & Hnw & Hdi & Hdp & Hws); [done..| |].
    { split; [congruence|by eexists _, _]. }
    cbn [mbind option_bind]. eexists _, _. split; [done|].
    assert (Hix : u32 (Z.of_nat w + 1) mod num_workers q' = Z.of_nat ((w + 1) mod length (queues (abs q)))).
    { rewrite u32_small by mi. cbn. rewrite length_fmap, Nat2Z.inj_mod, Nat2Z.inj_add, Hnw, <- Hn. done. }
    rewrite Hix. assert (Hq : queues (abs q) !! w = Some (m :: l)) by (rewrite abs_lookup, Hr; cbn; by rewrite Hcon).
    cbn [list_find]. rewrite decide_True by (rewrite Hq; done). cbn [fmap option_fmap option_map snd]. rewrite Hq.
    split; [|split; [done|split; [done|]]].
    + destruct Hwf. split; try done. cbn. rewrite Hnw in *. cbn. rewrite length_fmap.
      pose proof (Nat.mod_upper_bound (w + 1) (length (workers q)) ltac:(lia)). lia.
    + unfold abs at 1. cbn. rewrite Nat2Z.id. f_equal. f_equal.
      assert (Hqs : contents <$> workers q' = <[w := contents r']> (queues (abs q))).
      { change (contents <$> workers q') with (queues (abs q')). by rewrite Habs. }
      rewrite Hqs. f_equal. eapply contents_take; [exact Hok|exact Hok'|exact Hcon].
Qed.

Lemma dequeue_refines cap q : queue_wf cap q ->
  exists q' out, dequeue q = Some (q', out) /\ queue_wf cap q' /\
    num_workers q' = num_workers q /\ destroy_payload q' = destroy_payload q /\
    (abs q', out) = spec_dequeue (abs q).
Proof.
  intros H. unfold dequeue. pose proof (q_num _ _ H) as Hn.
  destruct (dequeue_loop_refines cap q (Z.to_nat (num_workers q)) 0) as (q' & out & Hd & Hwf & Hnw & Hdp & Habs);
    [done|lia|].
  exists q', out. split; [done|]. split; [done|]. split; [done|]. split; [done|]. rewrite Habs.
  unfold spec_dequeue, spec_next, scan_from. replace (Z.to_nat (num_workers q)) with (length (queues (abs q))); [done|].
  cbn. rewrite length_fmap. lia.
Qed.

Lemma create_refines qok wok sok n cap dp q live :
  is_uint32 n -> n <= 2 ^ 31 -> is_uint32 cap -> create_with_destructor qok wok sok n cap dp = (Some q, live) ->
  queue_wf (next_pow2 cap) q /\ abs q = Spec (replicate (Z.to_nat n) []) 0 /\ destroy_payload q = dp /\
  num_workers q = n /\ live = blocks (length (workers q)).
Proof.
  intros Hn Hn' Hc Hcr. apply queue_create_ok in Hcr as (Hl & Hnw & H0 & Hdp & Hdi & Hf & Hlive); [|done..].
  split; [|split; [|done]].
  - split; [lia|lia|lia|]. eapply Forall_impl; [exact Hf|]. intros r [Hr Hcap]. split; [done|by eexists _, _].
  - unfold abs. rewrite Hdi. f_equal. apply list_eq. intros w. rewrite list_lookup_fmap.
    destruct (workers q !! w) as [r|] eqn:Hw; cbn.
    + rewrite lookup_replicate_2 by (apply lookup_lt_Some in Hw; lia).
      rewrite Forall_lookup in Hf. destruct (Hf _ _ Hw) as [Hr _]. by rewrite (contents_ok _ _ _ Hr).
    + symmetry. apply lookup_replicate_None. apply lookup_ge_None_1 in Hw. lia.
Qed.

Lemma length_concat_fmap {A B} (f : A -> list B) l :
  length (concat (f <$> l)) = sum_list_with (fun x => length (f x)) l.
Proof. induction l as [|x l IH]; [done|]. cbn. rewrite length_app. lia. Qed.

Lemma size_refines cap rs total : Forall (ring_wf cap) rs -> is_uint32 total ->
  size_loop rs total = Some (u32 (total + Z.of_nat (sum_list_with (fun r => length (contents r)) rs))).
Proof.
  intros Hf. revert total. induction Hf as [|r rs [_ (sent & got & Hr)] Hf IH]; intros total Ht; cbn [size_loop sum_list_with].
  - rewrite Z.add_0_r, u32_small by done. done.
  - unfold spsc_size. rewrite (ok_heads _ _ _ Hr), (ok_tails _ _ _ Hr), !history_last. cbn [mbind option_bind].
    pose proof (prefix_length _ _ (ok_prefix _ _ _ Hr)). pose proof (ok_room _ _ _ Hr). pose proof (cap_bounds _ _ _ Hr).
    rewrite cursor_dist by lia. rewrite IH by apply u32_range. f_equal.
    rewrite (contents_ok _ _ _ Hr), length_drop. unfold u32. rewrite Zplus_mod_idemp_l. f_equal. lia.
Qed.

(** ** Sequences of operations *)

Inductive op := Enq (w : nat) (delta stratum rel_idx : Z) | Deq.

Fixpoint exec (q : queue) (ops : list op) : option (queue * list msg) :=
  match ops with
  | [] => Some (q, [])
  | Enq w d s r :: rest => '(q', _) ← enqueue q w d s r; exec q' rest
  | Deq :: rest => '(q', out) ← dequeue q; '(q'', outs) ← exec q' rest; Some (q'', option_list out ++ outs)
  end.

Fixpoint spec_exec (cap : Z) (s : spec) (ops : list op) : spec * list msg :=
  match ops with
  | [] => (s, [])
  | Enq w d st r :: rest => spec_exec cap (spec_enqueue cap s w (Msg d st (Z.of_nat w) r 0 0 0)).1 rest
  | Deq :: rest =>
      let '(s', out) := spec_dequeue s in
      let '(s'', outs) := spec_exec cap s' rest in (s'', option_list out ++ outs)
  end.

Lemma exec_refines cap q ops : queue_wf cap q ->
  exists q' outs, exec q ops = Some (q', outs) /\ queue_wf cap q' /\ (abs q', outs) = spec_exec cap (abs q) ops /\
    num_workers q' = num_workers q /\ destroy_payload q' = destroy_payload q.
Proof.
  revert q. induction ops as [|[w d s r|] ops IH]; intros q H; cbn [exec spec_exec].
  - by exists q, [].
  - destruct (enqueue_refines cap q w d s r H) as (q1 & v & -> & Hwf & Hn & Hd & Ha). cbn [mbind option_bind].
    rewrite <- Ha. cbn [fst]. destruct (IH q1 Hwf) as (q2 & outs & ? & ? & ? & ? & ?).
    exists q2, outs. split_and!; congruence || done.
  - destruct (dequeue_refines cap q H) as (q1 & out & -> & Hwf & Hn & Hd & Ha). cbn [mbind option_bind].
    rewrite <- Ha. destruct (IH q1 Hwf) as (q2 & outs & -> & ? & Hs & ? & ?). cbn [mbind option_bind].
    rewrite <- Hs. eexists _, _. split_and!; try done; congruence.
Qed.

(** taken one at a time, the queue operations are those of an array of
    bounded FIFO queues with a round-robin cursor: every sequence of enqueues
    and dequeues on a created queue runs to completion, delivers exactly what
    the specification delivers, and leaves the size the specification has. *)
Theorem queue_refines_spec qok wok sok n cap dp q live ops :
  is_uint32 n -> n <= 2 ^ 31 -> is_uint32 cap ->
  create_with_destructor qok wok sok n cap dp = (Some q, live) ->
  exists q' outs, exec q ops = Some (q', outs) /\
    (abs q', outs) = spec_exec (next_pow2 cap) (Spec (replicate (Z.to_nat n) []) 0) ops /\
    size (Some q') = Some (u32 (Z.of_nat (length (concat (queues (abs q')))))).
Proof.
  intros Hn Hn' Hc Hcr. apply create_refines in Hcr as (Hwf & Ha & _); [|done..].
  destruct (exec_refines _ _ ops Hwf) as (q' & outs & He & Hwf' & Hs & _). exists q', outs.
  rewrite <- Ha. split; [done|]. split; [done|]. unfold size.
  rewrite (size_refines _ _ _ (q_rings _ _ Hwf')) by mi. cbn [abs queues]. by rewrite length_concat_fmap.
Qed.

(** ** Fairness *)

Definition dist (s : spec) (w : nat) : nat := (w + length (queues s) - cursor_ s) mod length (queues s).
Definition tagged (s : spec) : Prop :=
  forall w l m, queues s !! w = Some l -> m ∈ l -> worker_id m = Z.of_nat w.

Lemma spec_next_first s w : spec_next s = Some w ->
  exists i, (i < length (queues s))%nat /\ w = ((cursor_ s + i) mod length (queues s))%nat /\ queues s !! w <> Some [] /\
    forall j, (j < i)%nat -> queues s !! ((cursor_ s + j) mod length (queues s))%nat = Some [].
Proof.
  unfold spec_next. destruct (list_find _ _) as [[i w']|] eqn:Hf; cbn; [|done]. intros [= ->].
  apply list_find_Some in Hf as (Hi & Hne & Hj). rewrite list_lookup_fmap in Hi.
  destruct (seq 0 (length (queues s)) !! i) as [i'|] eqn:Hs; cbn in Hi; [|done].
  apply lookup_seq in Hs as [-> Hlt]. cbn in Hi. injection Hi as <-. exists i. split; [done|]. split; [done|].
  split; [done|]. intros j Hji.
  destruct (decide (queues s !! ((cursor_ s + j) mod length (queues s))%nat = Some [])) as [|Hn]; [done|exfalso].
  eapply (Hj j ((cursor_ s + j) mod length (queues s))%nat); [|done|done].
  rewrite list_lookup_fmap, lookup_seq_lt by lia. done.
Qed.

Lemma spec_next_None s w l : (cursor_ s < length (queues s))%nat -> spec_next s = None ->
  queues s !! w = Some l -> l = [].
Proof.
  intros Hc. unfold spec_next. destruct (list_find _ _) as [|] eqn:Hf; [done|]. intros _ Hl.
  apply list_find_None in Hf. pose proof (lookup_lt_Some _ _ _ Hl) as Hlt.
  set (n := length (queues s)) in *. rewrite Forall_lookup in Hf.
  assert (Hi : ((cursor_ s + (w + n - cursor_ s) mod n) mod n)%nat = w).
  { rewrite Nat.Div0.add_mod_idemp_r. replace (cursor_ s + (w + n - cursor_ s))%nat with (w + 1 * n)%nat by lia.
    rewrite Nat.Div0.mod_add. by apply Nat.mod_small. }
  specialize (Hf ((w + n - cursor_ s) mod n)%nat w). rewrite list_lookup_fmap, lookup_seq_lt in Hf
    by (apply Nat.mod_upper_bound; lia).
  cbn [fmap option_fmap option_map Nat.add] in Hf. rewrite Hi in Hf. specialize (Hf eq_refl).
  rewrite Hl in Hf. destruct l; [done|]. exfalso. by apply Hf.
Qed.

Lemma mod_once a n : (n <= a < 2 * n)%nat -> (a mod n = a - n)%nat.
Proof.
  intros. replace a with (a - n + 1 * n)%nat at 1 by lia. rewrite Nat.Div0.mod_add. apply Nat.mod_small. lia.
Qed.

Lemma cursor_mod s w : (cursor_ s < length (queues s))%nat -> (w < length (queues s))%nat ->
  w = ((cursor_ s + dist s w) mod length (queues s))%nat.
Proof.
  intros Hc Hw. unfold dist. set (n := length (queues s)) in *. rewrite Nat.Div0.add_mod_idemp_r.
  replace (cursor_ s + (w + n - cursor_ s))%nat with (w + 1 * n)%nat by lia.
  rewrite Nat.Div0.mod_add. symmetry. by apply Nat.mod_small.
Qed.

(** A dequeue with something in queue [w] serves [w], or brings the cursor
    closer to it. *)
Lemma spec_dequeue_cases s w x l : (cursor_ s < length (queues s))%nat -> queues s !! w = Some (x :: l) ->
  exists w' y l', queues s !! w' = Some (y :: l') /\
    spec_dequeue s = (Spec (<[w' := l']> (queues s)) ((w' + 1) mod length (queues s)), Some y) /\
    (w' = w \/ (dist (Spec (<[w' := l']> (queues s)) ((w' + 1) mod length (queues s))) w < dist s w)%nat).
Proof.
  intros Hc Hw. unfold spec_dequeue. destruct (spec_next s) as [w'|] eqn:Hn.
  2:{ by pose proof (spec_next_None _ _ _ Hc Hn Hw). }
  apply spec_next_first in Hn as (i & Hi & Hw' & Hne & Hj).
  pose proof (lookup_lt_Some _ _ _ Hw) as Hwlt. pose proof (cursor_mod s w Hc Hwlt) as Hd.
  set (n := length (queues s)) in *.
  assert (Hw'lt : (w' < n)%nat) by (subst w'; apply Nat.mod_upper_bound; lia).
  destruct (lookup_lt_is_Some_2 (queues s) w' Hw'lt) as [[|y l'] Hl']; [congruence|].
  rewrite Hl'. exists w', y, l'. split; [done|]. split; [done|].
  destruct (decide (i = dist s w)) as [->|Hid]; [left; congruence|right].
  assert (i < dist s w)%nat.
  { destruct (decide (dist s w < i)%nat) as [Hlt|]; [|lia]. specialize (Hj _ Hlt). rewrite <- Hd in Hj. congruence. }
  assert (dist s w < n)%nat by (apply Nat.mod_upper_bound; lia).
  unfold dist at 1. cbn [queues cursor_]. rewrite length_insert. fold n.
  assert (Hd' : ((w + n - (w' + 1) mod n) mod n = dist s w - i - 1)%nat).
  { assert (Hc1 : ((w' + 1) mod n)%nat = ((cursor_ s + i + 1) mod n)%nat) by (subst w'; apply Nat.Div0.add_mod_idemp_l).
    rewrite Hc1. clear Hc1. remember (dist s w) as k.
    rewrite Hd. assert (cursor_ s + k < 2 * n)%nat by lia.
    destruct (decide (cursor_ s + k < n)%nat), (decide (cursor_ s + i + 1 < n)%nat);
      [rewrite (Nat.mod_small (cursor_ s + k)), (Nat.mod_small (cursor_ s + i + 1)) by lia
      |lia
      |rewrite (mod_once (cursor_ s + k)), (Nat.mod_small (cursor_ s + i + 1)) by lia
      |rewrite (mod_once (cursor_ s + k)), (mod_once (cursor_ s + i + 1)) by lia].
    - rewrite mod_once by lia. lia.
    - rewrite Nat.mod_small by lia. lia.
    - rewrite mod_once by lia. lia. }
  rewrite Hd'. lia.
Qed.

(** What every reachable specification state satisfies. *)
Definition spec_ok (s : spec) : Prop := (cursor_ s < length (queues s))%nat /\ tagged s.

Lemma spec_enqueue_ok cap s w d st r : spec_ok s ->
  spec_ok (spec_enqueue cap s w (Msg d st (Z.of_nat w) r 0 0 0)).1.
Proof.
  intros [Hc Ht]. unfold spec_enqueue. destruct (queues s !! w) as [l|] eqn:Hl; [|done].
  destruct (_ <? _); [|done]. split; cbn; [by rewrite length_insert|].
  intros w' l' m Hw' Hm. cbn in Hw'. destruct (decide (w = w')) as [<-|Hne].
  - rewrite list_lookup_insert_eq in Hw' by (eapply lookup_lt_Some; done). injection Hw' as <-.
    apply elem_of_app in Hm as [Hm|Hm]; [by eapply Ht|]. by apply list_elem_of_singleton in Hm as ->.
  - rewrite list_lookup_insert_ne in Hw' by done. by eapply Ht.
Qed.

Lemma spec_dequeue_ok s : spec_ok s -> spec_ok (spec_dequeue s).1.
Proof.
  intros [Hc Ht]. unfold spec_dequeue. destruct (spec_next s) as [w|]; [|done].
  destruct (queues s !! w) as [[|m l]|] eqn:Hl; [done| |done]. split; cbn.
  - rewrite length_insert. apply Nat.mod_upper_bound. lia.
  - intros w' l' x Hw' Hx. cbn in Hw'. destruct (decide (w = w')) as [<-|Hne].
    + rewrite list_lookup_insert_eq in Hw' by (eapply lookup_lt_Some; done). injection Hw' as <-.
      eapply Ht; [done|by right].
    + rewrite list_lookup_insert_ne in Hw' by done. by eapply Ht.
Qed.

Lemma spec_exec_ok cap s ops : spec_ok s -> spec_ok (spec_exec cap s ops).1.
Proof.
  revert s. induction ops as [|[w d st r|] ops IH]; intros s H; cbn [spec_exec]; [done|..].
  - by apply IH, spec_enqueue_ok.
  - pose proof (spec_dequeue_ok s H) as Hd. destruct (spec_dequeue s) as [s' out].
    specialize (IH s' Hd). by destruct (spec_exec cap s' ops).
Qed.

Definition is_deq (o : op) : bool := match o with Deq => true | _ => false end.

Definition from_worker (w : nat) (outs : list msg) : list msg :=
  filter (fun m => worker_id m = Z.of_nat w) outs.

Lemma from_worker_app w l l' : from_worker w (l ++ l') = from_worker w l ++ from_worker w l'.
Proof. apply filter_app. Qed.

Lemma spec_enqueue_head cap s w w' m x l : queues s !! w = Some (x :: l) ->
  (exists l', queues (spec_enqueue cap s w' m).1 !! w = Some (x :: l')) /\
  dist (spec_enqueue cap s w' m).1 w = dist s w.
Proof.
  intros Hw. unfold spec_enqueue. destruct (queues s !! w') as [l0|] eqn:Hl; [|by eauto].
  destruct (_ <? _); [|by eauto]. cbn. split; [|unfold dist; cbn; by rewrite length_insert].
  destruct (decide (w' = w)) as [->|Hne].
  - simplify_eq. rewrite list_lookup_insert_eq by (eapply lookup_lt_Some; done). by eexists.
  - rewrite list_lookup_insert_ne by done. by eexists.
Qed.

Lemma spec_fair cap s ops w x l : spec_ok s -> queues s !! w = Some (x :: l) ->
  (dist s w < length (List.filter is_deq ops))%nat ->
  exists rest, from_worker w (spec_exec cap s ops).2 = x :: rest.
Proof.
  revert s l. induction ops as [|[w0 d st r|] ops IH]; intros s l Hs Hw Hd; cbn [spec_exec List.filter is_deq length] in *; [lia|..].
  - destruct (spec_enqueue_head cap s w w0 (Msg d st (Z.of_nat w0) r 0 0 0) x l Hw) as [[l' Hw'] Hd'].
    eapply IH; [by apply spec_enqueue_ok|done|lia].
  - destruct (spec_dequeue_cases s w x l (proj1 Hs) Hw) as (w' & y & l' & Hl' & Heq & Hcase).
    pose proof (spec_dequeue_ok s Hs) as Hs'. rewrite Heq in Hs' |- *. cbn [fst] in Hs'.
    destruct (spec_exec cap _ ops) as [s'' outs] eqn:Hex. cbn [snd]. rewrite from_worker_app. cbn [option_list].
    destruct Hcase as [->|Hlt].
    + simplify_eq. exists (from_worker w outs). unfold from_worker at 1. cbn.
      rewrite decide_True by (eapply (proj2 Hs); [done|left]). done.
    + destruct (decide (w' = w)) as [->|Hne].
      { simplify_eq. exists (from_worker w outs). unfold from_worker at 1. cbn.
        rewrite decide_True by (eapply (proj2 Hs); [done|left]). done. }
      destruct (IH _ l Hs') as [rest Hrest].
      * cbn. by rewrite list_lookup_insert_ne.
      * lia.
      * rewrite Hex in Hrest. cbn [snd] in Hrest. exists rest. rewrite <- Hrest.
        unfold from_worker at 1. cbn. rewrite decide_False; [done|].
        intros He. pose proof (proj2 Hs w' (y :: l') y Hl' ltac:(left)). lia.
Qed.

(** the round-robin scan is fair: in every reachable state, a message at
    the front of worker [w]'s ring is the next one delivered from that worker
    and is delivered within num_workers dequeues, whatever is enqueued
    meanwhile. *)
Theorem dequeue_fair qok wok sok n cap dp q live ops1 q1 outs1 w r x l ops2 q2 outs2 :
  is_uint32 n -> n <= 2 ^ 31 -> is_uint32 cap ->
  create_with_destructor qok wok sok n cap dp = (Some q, live) ->
  exec q ops1 = Some (q1, outs1) ->
  workers q1 !! w = Some r -> contents r = x :: l ->
  exec q1 ops2 = Some (q2, outs2) ->
  n <= Z.of_nat (length (List.filter is_deq ops2)) ->
  exists rest, from_worker w outs2 = x :: rest.
Proof.
  intros Hn Hn' Hc Hcr He1 Hw Hx He2 Hcnt. apply create_refines in Hcr as (Hwf & Ha & _ & Hnw & _); [|done..].
  destruct (exec_refines _ _ ops1 Hwf) as (q1' & o1 & He1' & Hwf1 & Hs1 & Hnw1 & _). simplify_eq.
  destruct (exec_refines _ _ ops2 Hwf1) as (q2' & o2 & He2' & Hwf2 & Hs2 & _). simplify_eq.
  apply (f_equal snd) in Hs2. cbn in Hs2. rewrite Hs2. eapply spec_fair.
  - apply (f_equal fst) in Hs1. cbn [fst] in Hs1. rewrite Hs1. apply spec_exec_ok. rewrite Ha. split; cbn.
    + rewrite length_replicate. pose proof (q_u32 _ _ Hwf). lia.
    + intros w' l' m Hl' Hm. cbn in Hl'. apply lookup_replicate in Hl' as [-> _]. by apply elem_of_nil in Hm.
  - rewrite abs_lookup, Hw. cbn. by rewrite Hx.
  - pose proof (q_num _ _ Hwf1). pose proof (q_u32 _ _ Hwf1). unfold dist. cbn. rewrite length_fmap.
    pose proof (Nat.mod_upper_bound (w + length (workers q1) - Z.to_nat (dequeue_idx q1)) (length (workers q1)) ltac:(lia)).
    lia.
Qed.

(** ** Destruction *)

Lemma spec_dequeue_perm s s' out : (cursor_ s < length (queues s))%nat -> spec_dequeue s = (s', out) ->
  match out with
  | Some m => concat (queues s) ≡ₚ m :: concat (queues s')
  | None => concat (queues s) = [] /\ s' = s
  end.
Proof.
  intros Hc Hd. unfold spec_dequeue in Hd. destruct (spec_next s) as [w|] eqn:Hn; simplify_eq.
  - apply spec_next_first in Hn as (i & Hi & Hw & Hne & _).
    destruct (lookup_lt_is_Some_2 (queues s) w) as [l Hl]; [subst w; apply Nat.mod_upper_bound; lia|].
    rewrite Hl in Hd, Hne. destruct l as [|m l]; [done|]. simplify_eq. cbn [queues].
    rewrite <- (take_drop_middle _ _ _ Hl) at 1.
    rewrite insert_take_drop by (eapply lookup_lt_Some; done). rewrite !concat_app. cbn [concat app].
    by rewrite <- Permutation_middle.
  - split; [|done]. apply concat_nil_Forall. rewrite List.Forall_forall. intros l Hl.
    apply list_elem_of_In, list_elem_of_lookup_1 in Hl as [w Hw]. by eapply spec_next_None.
Qed.

Lemma queue_drain_ok cap fuel q : queue_wf cap q -> (length (concat (queues (abs q))) < fuel)%nat ->
  exists q' ds, drain fuel q = Some (q', ds) /\ concat (queues (abs q')) = [] /\
    ds ≡ₚ filter (fun p => p <> 0) (delta <$> concat (queues (abs q))).
Proof.
  revert q. induction fuel as [|fuel IH]; intros q H Hl; [lia|]. cbn [drain].
  destruct (dequeue_refines cap q H) as (q1 & out & -> & Hwf & _ & _ & Ha). cbn [mbind option_bind].
  assert (Hc : (cursor_ (abs q) < length (queues (abs q)))%nat).
  { cbn. rewrite length_fmap. pose proof (q_num _ _ H). pose proof (q_idx _ _ H). lia. }
  pose proof (spec_dequeue_perm _ _ _ Hc (eq_sym Ha)) as Hp. destruct out as [m|].
  - destruct (IH q1 Hwf) as (q' & ds & -> & He & Hds).
    { rewrite Hp in Hl. cbn [length] in Hl. lia. }
    cbn [mbind option_bind]. eexists _, _. split; [done|]. split; [done|].
    rewrite Hp. cbn. destruct (Z.eqb_spec (delta m) 0).
    + rewrite decide_False by auto. done.
    + rewrite decide_True by auto. by rewrite Hds.
  - destruct Hp as [Hp Hs]. exists q1, []. rewrite Hs, Hp. done.
Qed.

Lemma queued_bound cap rs : Forall (ring_wf cap) rs ->
  (sum_list_with (fun r => length (contents r)) rs <= sum_list_with (fun r => length (slots r)) rs)%nat.
Proof.
  induction 1 as [|r rs [_ (sent & got & Hr)] Hf IH]; cbn; [lia|].
  pose proof (contents_sent _ _ _ Hr) as [_ Hb]. pose proof (ok_slots _ _ _ Hr). lia.
Qed.

(** destroying a queue created with a payload destructor calls it once for
    each non-NULL payload still queued, in every reachable state, and both
    with and without a destructor frees every block the creation allocated. *)
Theorem destroy_once qok wok sok n cap dp q live ops q1 outs1 :
  is_uint32 n -> n <= 2 ^ 31 -> is_uint32 cap ->
  create_with_destructor qok wok sok n cap dp = (Some q, live) ->
  exec q ops = Some (q1, outs1) ->
  exists ds, destroy (Some q1) live = Some (ds, []) /\
    ds ≡ₚ if dp then filter (fun p => p <> 0) (delta <$> concat (contents <$> workers q1)) else [].
Proof.
  intros Hn Hn' Hc Hcr He. apply create_refines in Hcr as (Hwf & Ha & Hdp & Hnw & ->); [|done..].
  destruct (exec_refines _ _ ops Hwf) as (q1' & o1 & He1' & Hwf1 & Hs1 & Hnw1 & Hdp1). simplify_eq.
  assert (Hlen : length (workers q1) = length (workers q)).
  { pose proof (q_num _ _ Hwf). pose proof (q_num _ _ Hwf1). lia. }
  unfold destroy. rewrite Hdp1, Hlen. destruct (destroy_payload q).
  - destruct (queue_drain_ok _ (drain_fuel q1) _ Hwf1) as (q' & ds & -> & _ & Hds).
    { cbn [abs queues]. rewrite length_concat_fmap. unfold drain_fuel.
      pose proof (queued_bound _ _ (q_rings _ _ Hwf1)). lia. }
    cbn [mbind option_bind]. rewrite free_all. by eexists.
  - cbn [mbind option_bind]. rewrite free_all. by eexists.
Qed.

(** ** Instances *)

Definition demo_ops : list op := [Enq 0 7 0 0; Enq 0 8 0 0; Enq 0 9 0 0; Enq 1 5 0 0; Deq].
Definition demo_q1 : queue := (default (demo_queue, []) (exec demo_queue demo_ops)).1.
Definition demo_outs : list msg := (default (demo_queue, []) (exec demo_q1 [Deq; Enq 1 6 0 0; Deq])).2.

Lemma queue_refines_spec_witness :
  exists q' outs, exec demo_queue demo_ops = Some (q', outs) /\
    (abs q', outs) = spec_exec 2 (Spec (replicate 2 []) 0) demo_ops /\
    size (Some q') = Some (u32 (Z.of_nat (length (concat (queues (abs q')))))).
Proof.
  apply (queue_refines_spec true true (fun _ => true) 2 2 true demo_queue (blocks 2) demo_ops);
    vm_compute; repeat split; discriminate.
Defined.

Lemma dequeue_fair_witness : exists rest, from_worker 0 demo_outs = Msg 8 0 0 0 0 0 0 :: rest.
Proof.
  apply (dequeue_fair true true (fun _ => true) 2 2 true demo_queue (blocks 2) demo_ops demo_q1 [Msg 7 0 0 0 0 0 0]
    0 (workers demo_q1 !!! 0%nat) (Msg 8 0 0 0 0 0 0) [] [Deq; Enq 1 6 0 0; Deq]
    (default (demo_queue, []) (exec demo_q1 [Deq; Enq 1 6 0 0; Deq])).1 demo_outs);
    vm_compute; try reflexivity; repeat split; discriminate.
Defined.

Lemma destroy_once_witness :
  exists ds, destroy (Some demo_q1) (blocks 2) = Some (ds, []) /\ ds ≡ₚ [8; 5].
Proof.
  apply (destroy_once true true (fun _ => true) 2 2 true demo_queue (blocks 2) demo_ops demo_q1 [Msg 7 0 0 0 0 0 0]);
    vm_compute; try reflexivity; repeat split; discriminate.
Defined.
