(* ===== verification/MemLedger.v ===== *)
(** * The memory ledger (src/wirelog/columnar/mem_ledger.c)

    Per-subsystem byte counters with their high-water marks, a total, a budget
    and a table of reclaim callbacks.  The counters are updated by
    compare-and-swap loops from several threads: a call is a list of tasks, one
    step of a thread is one atomic access, and a schedule interleaves threads
    and lets any weak compare-exchange fail spuriously. *)

From S2P Require Import Prelude.

Module Ledger.

Definition ENOSPC : Z := 28.
Definition SUBSYS_COUNT : nat := 8.
Definition MAX_RECLAIMERS : nat := 8.

(** Budget fractions in percent. *)
Definition subsys_pct : list Z := [50; 10; 10; 10; 5; 5; 5; 5].

Record slot := Slot { fn : option Z; owner : Z; handle : Z; active : bool }.
Definition no_slot : slot := Slot None 0 0 false.
#[export] Instance slot_inhabited : Inhabited slot := populate no_slot.

Record ledger := L {
  total_budget : Z;
  current_bytes : Z;
  peak_bytes : Z;
  subsys_bytes : list Z;
  subsys_peak : list Z;
  reclaimers : list slot;
  next_reclaimer_handle : Z }.

(** wl_mem_ledger_init *)
Definition init (budget : Z) : ledger :=
  L budget 0 0 (replicate SUBSYS_COUNT 0) (replicate SUBSYS_COUNT 0) (replicate MAX_RECLAIMERS no_slot) 0.

(** ** Counters *)

(** The counters, each with its high-water mark: the total and one per
    subsystem. *)
Inductive counter := Total | Sub (s : nat).

#[export] Instance counter_eq_dec : EqDecision counter.
Proof. solve_decision. Defined.

Definition get (l : ledger) (c : counter) : option Z :=
  match c with Total => Some (current_bytes l) | Sub s => rd (subsys_bytes l) s end.
Definition get_peak (l : ledger) (c : counter) : option Z :=
  match c with Total => Some (peak_bytes l) | Sub s => rd (subsys_peak l) s end.
Definition put (l : ledger) (c : counter) (v : Z) : option ledger :=
  match c with
  | Total => Some (L (total_budget l) v (peak_bytes l) (subsys_bytes l) (subsys_peak l) (reclaimers l) (next_reclaimer_handle l))
  | Sub s =>
      a ← wr (subsys_bytes l) s v;
      Some (L (total_budget l) (current_bytes l) (peak_bytes l) a (subsys_peak l) (reclaimers l) (next_reclaimer_handle l))
  end.
Definition put_peak (l : ledger) (c : counter) (v : Z) : option ledger :=
  match c with
  | Total => Some (L (total_budget l) (current_bytes l) v (subsys_bytes l) (subsys_peak l) (reclaimers l) (next_reclaimer_handle l))
  | Sub s =>
      a ← wr (subsys_peak l) s v;
      Some (L (total_budget l) (current_bytes l) (peak_bytes l) (subsys_bytes l) a (reclaimers l) (next_reclaimer_handle l))
  end.

(** ** The atomic steps

    saturating_add followed by update_peak of the same counter, which is how
    every caller uses them; counter_sub_clamped; the exchange of set_gauge. *)
Inductive task :=
| Add_load (c : counter) (bytes : Z)
| Add_cas (c : counter) (bytes old : Z)
| Peak_load (c : counter) (new_val : Z)
| Peak_cas (c : counter) (new_val old : Z)
| Sub_load (c : counter) (bytes : Z)
| Sub_cas (c : counter) (bytes old : Z)
| Exchange (s : nat) (bytes : Z).

(** What a step stored, and whether it cut a value off. *)
Inductive event := Stored (c : counter) (v : Z) | Saturated | Clamped.

Definition saturated_sum (old bytes : Z) : Z :=
  if UINT64_MAX - old <? bytes then UINT64_MAX else u64 (old + bytes).

Definition step_task (l : ledger) (spurious : bool) (t : task) : option (ledger * list task * list event) :=
  match t with
  | Add_load c b => old ← get l c; Some (l, [Add_cas c b old], [])
  | Add_cas c b old =>
      cur ← get l c;
      let next := saturated_sum old b in
      if negb spurious && (cur =? old) then
        l' ← put l c next;
        Some (l', [Peak_load c next], Stored c next :: (if UINT64_MAX - old <? b then [Saturated] else []))
      else Some (l, [Add_cas c b cur], [])
  | Peak_load c v => old ← get_peak l c; Some (l, (if old <? v then [Peak_cas c v old] else []), [])
  | Peak_cas c v old =>
      cur ← get_peak l c;
      if negb spurious && (cur =? old) then l' ← put_peak l c v; Some (l', [], [])
      else Some (l, (if cur <? v then [Peak_cas c v cur] else []), [])
  | Sub_load c b => old ← get l c; Some (l, [Sub_cas c b old], [])
  | Sub_cas c b old =>
      cur ← get l c;
      let updated := if old <? b then 0 else old - b in
      if negb spurious && (cur =? old) then
        l' ← put l c updated;
        Some (l', [], Stored c updated :: (if old <? b then [Clamped] else []))
      else Some (l, [Sub_cas c b cur], [])
  | Exchange s b =>
      old ← get l (Sub s);
      l' ← put l (Sub s) b;
      Some (l', Peak_load (Sub s) b ::
                (if old <? b then [Add_load Total (b - old)]
                 else if b <? old then [Sub_load Total (old - b)] else []),
            [Stored (Sub s) b])
  end.

(** ** The calls *)

Definition subsys_ok (s : Z) : bool := (0 <=? s) && (s <? Z.of_nat SUBSYS_COUNT).

(** wl_mem_ledger_alloc *)
Definition alloc (s bytes : Z) : list task :=
  if (bytes =? 0) || negb (subsys_ok s) then []
  else [Add_load (Sub (Z.to_nat s)) bytes; Add_load Total bytes].

(** wl_mem_ledger_free *)
Definition free (s bytes : Z) : list task :=
  if (bytes =? 0) || negb (subsys_ok s) then []
  else [Sub_load (Sub (Z.to_nat s)) bytes; Sub_load Total bytes].

(** wl_mem_ledger_set_gauge *)
Definition set_gauge (s bytes : Z) : list task :=
  if negb (subsys_ok s) then [] else [Exchange (Z.to_nat s) bytes].

Inductive call := Alloc (s bytes : Z) | Free (s bytes : Z) | Gauge (s bytes : Z).

Definition tasks_of (c : call) : list task :=
  match c with Alloc s b => alloc s b | Free s b => free s b | Gauge s b => set_gauge s b end.

Record machine := M { led : ledger; threads : list (list task) }.

Inductive choice := Begin (i : nat) (c : call) | Run (i : nat) (spurious : bool).

Definition step (m : machine) (ch : choice) : option (machine * list event) :=
  match ch with
  | Begin i c =>
      ts ← threads m !! i;
      match ts with
      | [] => ths ← wr (threads m) i (tasks_of c); Some (M (led m) ths, [])
      | _ => None
      end
  | Run i spurious =>
      ts ← threads m !! i;
      match ts with
      | [] => None
      | t :: rest =>
          '(l', new, ev) ← step_task (led m) spurious t;
          ths ← wr (threads m) i (new ++ rest);
          Some (M l' ths, ev)
      end
  end.

Fixpoint run (m : machine) (sched : list choice) : option (machine * list event) :=
  match sched with
  | [] => Some (m, [])
  | c :: rest => '(m1, ev) ← step m c; '(m2, evs) ← run m1 rest; Some (m2, ev ++ evs)
  end.

Definition start (budget : Z) (n : nat) : machine := M (init budget) (replicate n []).

(** ** Queries *)

Definition percent_of (value percentage : Z) : Z :=
  u64 (u64 (value / 100 * percentage) + u64 (value mod 100 * percentage) / 100).

Definition over_budget (l : option ledger) : bool :=
  match l with
  | None => false
  | Some l => if total_budget l =? 0 then false else total_budget l <? current_bytes l
  end.

Definition subsys_over_budget (l : option ledger) (s : Z) : option bool :=
  match l with
  | None => Some false
  | Some l =>
      if negb (subsys_ok s) then Some false
      else if total_budget l =? 0 then Some false
      else
        pct ← rd subsys_pct (Z.to_nat s);
        cur ← rd (subsys_bytes l) (Z.to_nat s);
        Some (percent_of (total_budget l) pct <? cur)
  end.

Definition should_backpressure (l : option ledger) (s threshold_pct : Z) : option bool :=
  match l with
  | None => Some false
  | Some l =>
      if negb (subsys_ok s) then Some false
      else if total_budget l =? 0 then Some false
      else
        pct ← rd subsys_pct (Z.to_nat s);
        let cap := percent_of (total_budget l) pct in
        if cap =? 0 then Some false
        else if 100 <? threshold_pct then Some false
        else
          cur ← rd (subsys_bytes l) (Z.to_nat s);
          Some (percent_of cap threshold_pct <=? cur)
  end.

Definition bytes_remaining (l : option ledger) : Z :=
  match l with
  | None => UINT64_MAX
  | Some l =>
      if total_budget l =? 0 then UINT64_MAX
      else if total_budget l <=? current_bytes l then 0 else total_budget l - current_bytes l
  end.

(** ** Reclaimers *)

Definition set_slots (l : ledger) (ss : list slot) (next : Z) : ledger :=
  L (total_budget l) (current_bytes l) (peak_bytes l) (subsys_bytes l) (subsys_peak l) ss next.

(** wl_mem_ledger_register_reclaimer from slot [i] on, with [n] slots left;
    the result is (return value, *out, ledger), with [None] for an [*out] left
    as it was. *)
Fixpoint register_loop (n i : nat) (l : ledger) (f o : Z) : option (Z * option Z * ledger) :=
  match n with
  | O => Some (ENOSPC, Some 0, l)
  | S n' =>
      s ← rd (reclaimers l) i;
      if active s then register_loop n' (S i) l f o
      else
        let h1 := u64 (next_reclaimer_handle l + 1) in
        let h := if h1 =? 0 then u64 (h1 + 1) else h1 in
        ss ← wr (reclaimers l) i (Slot (Some f) o h true);
        Some (0, Some h, set_slots l ss h)
  end.

Definition register_reclaimer (l : ledger) (f : option Z) (o : Z) : option (Z * option Z * ledger) :=
  match f with
  | None => Some (EINVAL, None, l)
  | Some f => register_loop MAX_RECLAIMERS 0 l f o
  end.

Fixpoint unregister_loop (n i : nat) (l : ledger) (h : Z) : option ledger :=
  match n with
  | O => Some l
  | S n' =>
      s ← rd (reclaimers l) i;
      if negb (active s) || negb (handle s =? h) then unregister_loop n' (S i) l h
      else ss ← wr (reclaimers l) i no_slot; Some (set_slots l ss (next_reclaimer_handle l))
  end.

Definition unregister_reclaimer (l : ledger) (h : Z) : option ledger :=
  if h =? 0 then Some l else unregister_loop MAX_RECLAIMERS 0 l h.

Section Reclaim.

(** The callbacks: what the function [f] returns for an owner, and what it does
    to the ledger it may unregister itself from. *)
Variable callback : Z -> Z -> ledger -> (Z * Z) * ledger.

Definition add_result (total result : Z * Z) : Z * Z :=
  (if UINT64_MAX - total.1 <? result.1 then UINT64_MAX else u64 (total.1 + result.1),
   if UINT32_MAX - total.2 <? result.2 then UINT32_MAX else u32 (total.2 + result.2)).

(** wl_mem_ledger_reclaim: the total, the ledger and the calls made. *)
Fixpoint reclaim_loop (n i : nat) (l : ledger) (total : Z * Z) : option ((Z * Z) * ledger * list (Z * Z)) :=
  match n with
  | O => Some (total, l, [])
  | S n' =>
      s ← rd (reclaimers l) i;
      match (if active s then fn s else None) with
      | None => reclaim_loop n' (S i) l total
      | Some f =>
          let '(result, l') := callback f (owner s) l in
          '(t, l'', calls) ← reclaim_loop n' (S i) l' (add_result total result);
          Some (t, l'', (f, owner s) :: calls)
      end
  end.

Definition reclaim (l : option ledger) : option ((Z * Z) * option ledger * list (Z * Z)) :=
  match l with
  | None => Some ((0, 0), None, [])
  | Some l => '(t, l', calls) ← reclaim_loop MAX_RECLAIMERS 0 l (0, 0); Some (t, Some l', calls)
  end.

End Reclaim.

(** wl_mem_ledger_snapshot: the counters of a ledger nobody updates. *)
Record snapshot_t := Snapshot {
  s_total_budget : Z; s_current_bytes : Z; s_peak_bytes : Z;
  s_subsys_bytes : list Z; s_subsys_peak : list Z }.

Definition snapshot (l : option ledger) : snapshot_t :=
  match l with
  | None => Snapshot 0 0 0 (replicate SUBSYS_COUNT 0) (replicate SUBSYS_COUNT 0)
  | Some l => Snapshot (total_budget l) (current_bytes l) (peak_bytes l) (subsys_bytes l) (subsys_peak l)
  end.

End Ledger.
