(* ===== verification/MemLedgerProof.v ===== *)
(** * The memory ledger: exact high-water marks, exact totals, the budget
    queries and the reclaimer table

    Proofs about [MemLedger]. *)

From S2P Require Import Prelude MemLedger.

Import Ledger.

(** ** Counters of a well-formed ledger *)

Definition counter_ok (c : counter) : Prop := match c with Total => True | Sub s => (s < SUBSYS_COUNT)%nat end.

Record ledger_wf (l : ledger) : Prop := {
  wf_bytes : length (subsys_bytes l) = SUBSYS_COUNT;
  wf_peak : length (subsys_peak l) = SUBSYS_COUNT }.

Definition value (l : ledger) (c : counter) : Z := match get l c with Some v => v | None => 0 end.
Definition peak (l : ledger) (c : counter) : Z := match get_peak l c with Some v => v | None => 0 end.

Lemma get_value l c : ledger_wf l -> counter_ok c -> get l c = Some (value l c) /\ get_peak l c = Some (peak l c).
Proof.
  intros [Hb Hp] Hc. unfold value, peak. destruct c as [|s]; [done|]. cbn in *. unfold rd.
  destruct (lookup_lt_is_Some_2 (subsys_bytes l) s) as [x ->]; [lia|].
  destruct (lookup_lt_is_Some_2 (subsys_peak l) s) as [y ->]; [lia|]. done.
Qed.

Lemma put_value l c v : ledger_wf l -> counter_ok c ->
  exists l', put l c v = Some l' /\ ledger_wf l' /\
    (forall c', value l' c' = if decide (c' = c) then v else value l c') /\ (forall c', peak l' c' = peak l c').
Proof.
  intros [Hb Hp] Hc. destruct c as [|s]; cbn in *.
  - eexists. split; [done|]. split; [done|]. split; [|done]. intros [|s]; [by rewrite decide_True|by rewrite decide_False].
  - rewrite wr_lt by lia. cbn. eexists. split; [done|]. split; [split; [cbn; by rewrite length_insert|done]|].
    split; [|done]. intros [|s']; [by rewrite decide_False|]. unfold value. cbn. unfold rd.
    destruct (decide (s' = s)) as [->|Hne].
    + rewrite decide_True by done. by rewrite list_lookup_insert_eq by lia.
    + rewrite decide_False by congruence. by rewrite list_lookup_insert_ne.
Qed.

Lemma put_peak_value l c v : ledger_wf l -> counter_ok c ->
  exists l', put_peak l c v = Some l' /\ ledger_wf l' /\
    (forall c', peak l' c' = if decide (c' = c) then v else peak l c') /\ (forall c', value l' c' = value l c').
Proof.
  intros [Hb Hp] Hc. destruct c as [|s]; cbn in *.
  - eexists. split; [done|]. split; [done|]. split; [|done]. intros [|s]; [by rewrite decide_True|by rewrite decide_False].
  - rewrite wr_lt by lia. cbn. eexists. split; [done|]. split; [split; [done|cbn; by rewrite length_insert]|].
    split; [|done]. intros [|s']; [by rewrite decide_False|]. unfold peak. cbn. unfold rd.
    destruct (decide (s' = s)) as [->|Hne].
    + rewrite decide_True by done. by rewrite list_lookup_insert_eq by lia.
    + rewrite decide_False by congruence. by rewrite list_lookup_insert_ne.
Qed.

(** ** High-water marks *)

(** The largest value a counter has held. *)
Fixpoint high (c : counter) (ev : list event) : Z :=
  match ev with
  | [] => 0
  | Stored c' v :: rest => if decide (c' = c) then Z.max v (high c rest) else high c rest
  | _ :: rest => high c rest
  end.

Lemma high_nonneg c ev : 0 <= high c ev.
Proof. induction ev as [|[c' v| |] ev IH]; cbn; try case_decide; lia. Qed.

Lemma high_app c ev ev' : high c (ev ++ ev') = Z.max (high c ev) (high c ev').
Proof.
  induction ev as [|[c' v| |] ev IH]; cbn; try done.
  - pose proof (high_nonneg c ev'). lia.
  - case_decide; lia.
Qed.

Definition raises (c : counter) (v : Z) (t : task) : Prop :=
  match t with Peak_load c' v' => c' = c /\ v' = v | Peak_cas c' v' old => c' = c /\ v' = v /\ old < v' | _ => False end.

(** Tasks only name existing counters, and a pending compare-exchange of a
    peak is one that would raise it. *)
Definition task_ok (t : task) : Prop :=
  match t with
  | Add_load c b => counter_ok c /\ is_uint64 b
  | Add_cas c b old => counter_ok c /\ is_uint64 b /\ is_uint64 old
  | Peak_load c v => counter_ok c
  | Peak_cas c v old => counter_ok c /\ old < v
  | Sub_load c b | Sub_cas c b _ => counter_ok c /\ is_uint64 b
  | Exchange s b => (s < SUBSYS_COUNT)%nat /\ is_uint64 b
  end.

Definition pending (ths : list (list task)) (t : task) : Prop := exists i ts, ths !! i = Some ts /\ t ∈ ts.

Lemma pending_back ths i t rest new x : ths !! i = Some (t :: rest) ->
  pending (<[i := new ++ rest]> ths) x -> x ∈ new \/ pending ths x.
Proof.
  intros Hi (j & ts & Hj & Hx). destruct (decide (j = i)) as [->|Hne].
  - rewrite list_lookup_insert_eq in Hj by (eapply lookup_lt_Some; done). injection Hj as <-.
    apply elem_of_app in Hx as [Hx|Hx]; [by left|right]. exists i, (t :: rest). split; [done|by right].
  - rewrite list_lookup_insert_ne in Hj by done. right. by exists j, ts.
Qed.

Lemma pending_forth ths i t rest new x : ths !! i = Some (t :: rest) ->
  x ∈ new \/ pending ths x -> x = t \/ pending (<[i := new ++ rest]> ths) x.
Proof.
  intros Hi [Hx|(j & ts & Hj & Hx)].
  - right. exists i, (new ++ rest). rewrite list_lookup_insert_eq by (eapply lookup_lt_Some; done).
    split; [done|]. apply elem_of_app. by left.
  - destruct (decide (j = i)) as [->|Hne].
    + rewrite Hi in Hj. injection Hj as <-. apply elem_of_cons in Hx as [->|Hx]; [by left|right].
      exists i, (new ++ rest). rewrite list_lookup_insert_eq by (eapply lookup_lt_Some; done).
      split; [done|]. apply elem_of_app. by right.
    + right. exists j, ts. by rewrite list_lookup_insert_ne.
Qed.

Record inv (m : machine) (ev : list event) : Prop := {
  i_wf : ledger_wf (led m);
  i_u64 : forall c, is_uint64 (value (led m) c);
  i_tasks : forall t, pending (threads m) t -> task_ok t;
  i_value : forall c, value (led m) c <= high c ev;
  i_peak : forall c, peak (led m) c <= high c ev;
  i_below : forall c v t, pending (threads m) t -> raises c v t -> v <= high c ev;
  i_high : forall c, high c ev <= peak (led m) c \/ exists t, pending (threads m) t /\ raises c (high c ev) t }.

(** A step of one task, seen as a change of values, peaks and pending tasks. *)
Lemma step_task_total l sp t : ledger_wf l -> task_ok t -> (forall c, is_uint64 (value l c)) ->
  exists l' new ev, step_task l sp t = Some (l', new, ev) /\ ledger_wf l' /\
    Forall task_ok new /\ (forall c, is_uint64 (value l' c)).
Proof.
  intros Hwf Ht Hu. destruct t as [c b|c b old|c v|c v old|c b|c b old|s b]; cbn [step_task task_ok] in *.
  - destruct Ht as [Hc Hb]. rewrite (proj1 (get_value l c Hwf Hc)). cbn. eexists _, _, _. split; [done|].
    split; [done|]. split; [|done]. apply Forall_singleton; cbn; auto.
  - destruct Ht as (Hc & Hb & Ho). rewrite (proj1 (get_value l c Hwf Hc)). cbn.
    destruct (negb sp && (value l c =? old)).
    + destruct (put_value l c (saturated_sum old b) Hwf Hc) as (l' & -> & Hwf' & Hv & _). cbn.
      eexists _, _, _. split; [done|]. split; [done|]. split; [by apply Forall_singleton|].
      intros c'. rewrite Hv. case_decide; [|done]. unfold saturated_sum. destruct (_ <? _); [mi|apply u64_range].
    + eexists _, _, _. split; [done|]. split; [done|]. split; [|done]. apply Forall_singleton; cbn; auto.
  - rewrite (proj2 (get_value l c Hwf Ht)). cbn. eexists _, _, _. split; [done|]. split; [done|]. split; [|done].
    destruct (Z.ltb_spec (peak l c) v); [by apply Forall_singleton|done].
  - destruct Ht as [Hc Hlt]. rewrite (proj2 (get_value l c Hwf Hc)). cbn.
    destruct (negb sp && (peak l c =? old)).
    + destruct (put_peak_value l c v Hwf Hc) as (l' & -> & Hwf' & _ & Hv). cbn.
      eexists _, _, _. split; [done|]. split; [done|]. split; [done|]. intros c'. by rewrite Hv.
    + eexists _, _, _. split; [done|]. split; [done|]. split; [|done].
      destruct (Z.ltb_spec (peak l c) v); [by apply Forall_singleton|done].
  - destruct Ht as [Hc Hb]. rewrite (proj1 (get_value l c Hwf Hc)). cbn. eexists _, _, _. split; [done|].
    split; [done|]. split; [|done]. by apply Forall_singleton.
  - destruct Ht as [Hc Hb]. rewrite (proj1 (get_value l c Hwf Hc)). cbn.
    destruct (sp); cbn [negb andb].
    { eexists _, _, _. split; [done|]. split; [done|]. split; [|done]. by apply Forall_singleton. }
    destruct (Z.eqb_spec (value l c) old) as [<-|].
    + destruct (put_value l c (if value l c <? b then 0 else value l c - b) Hwf Hc) as (l' & -> & Hwf' & Hv & _). cbn.
      eexists _, _, _. split; [done|]. split; [done|]. split; [done|].
      intros c'. rewrite Hv. case_decide; [|done]. pose proof (Hu c). destruct (Z.ltb_spec (value l c) b); mi.
    + eexists _, _, _. split; [done|]. split; [done|]. split; [|done]. by apply Forall_singleton.
  - destruct Ht as [Hs Hb]. rewrite (proj1 (get_value l (Sub s) Hwf Hs)). cbn [mbind option_bind].
    destruct (put_value l (Sub s) b Hwf Hs) as (l' & -> & Hwf' & Hv & _). cbn [mbind option_bind].
    eexists _, _, _. split; [done|]. split; [done|]. pose proof (Hu (Sub s)). split.
    + constructor; [done|]. destruct (Z.ltb_spec (value l (Sub s)) b), (Z.ltb_spec b (value l (Sub s)));
        try (apply Forall_singleton; split; [done|mi]); done.
    + intros c'. rewrite Hv. case_decide; [done|apply Hu].
Qed.

(** What a step can do to values, peaks and the raises under way. *)
Record effect (l : ledger) (t : task) (l' : ledger) (new : list task) (ev : list event) : Prop := {
  e_value : forall c, value l' c <= Z.max (value l c) (high c ev);
  e_up : forall c, peak l c <= peak l' c;
  e_peak : forall c, peak l' c = peak l c \/ raises c (peak l' c) t;
  e_new : forall c v x, x ∈ new -> raises c v x -> raises c v t \/ v <= high c ev;
  e_done : forall c v, raises c v t -> v <= peak l' c \/ Exists (raises c v) new;
  e_high : forall c, high c ev <= value l c \/ Exists (raises c (high c ev)) new }.

Lemma effect_quiet l t new : (forall c, 0 <= value l c) ->
  (forall c v x, x ∈ new -> raises c v x -> raises c v t) ->
  (forall c v, raises c v t -> v <= peak l c \/ Exists (raises c v) new) -> effect l t l new [].
Proof.
  intros Hp Hn Hd. split; cbn; intros; auto; try lia. left. by eapply Hn.
Qed.

Lemma effect_store l t l' c v new ev : (forall c, 0 <= value l c) ->
  (forall c', value l' c' = if decide (c' = c) then v else value l c') -> (forall c', peak l' c' = peak l c') ->
  (forall c', high c' ev = if decide (c' = c) then Z.max v 0 else 0) ->
  (forall c' v' x, x ∈ new -> raises c' v' x -> c' = c /\ v' <= v) -> (forall c' v', ~ raises c' v' t) ->
  (v <= value l c \/ Exists (raises c v) new /\ 0 <= v) -> effect l t l' new ev.
Proof.
  intros Hp Hv Hk Hh Hn Ht Hr. split.
  - intros c'. rewrite Hv, Hh. pose proof (Hp c'). case_decide; lia.
  - intros c'. rewrite Hk. lia.
  - intros c'. left. apply Hk.
  - intros c' v' x Hx Hr'. right. destruct (Hn _ _ _ Hx Hr') as [-> Hle]. rewrite Hh, decide_True by done. lia.
  - intros c' v' H. by apply Ht in H.
  - intros c'. rewrite Hh. pose proof (Hp c'). case_decide; [subst|left; lia].
    destruct Hr as [Hr|[Hr H0]]; [left; lia|right]. by rewrite Z.max_l.
Qed.

Lemma step_effect l sp t l' new ev : ledger_wf l -> task_ok t -> (forall c, is_uint64 (value l c)) ->
  step_task l sp t = Some (l', new, ev) -> effect l t l' new ev.
Proof.
  intros Hwf Ht Hu Hs. assert (Hp : forall c, 0 <= value l c) by (intros c; pose proof (Hu c); mi).
  assert (Hone : forall (x y : task), x ∈ [y] -> x = y) by (intros ? ? ?%list_elem_of_singleton; done).
  destruct t as [c b|c b old|c v|c v old|c b|c b old|s b]; cbn [step_task task_ok] in *.
  - destruct Ht as [Hc Hb]. rewrite (proj1 (get_value l c Hwf Hc)) in Hs. cbn in Hs. simplify_eq.
    apply effect_quiet; [done|intros ? ? ? ->%Hone; done|done].
  - destruct Ht as (Hc & Hb & Ho). rewrite (proj1 (get_value l c Hwf Hc)) in Hs. cbn in Hs.
    destruct (negb sp && (value l c =? old)).
    + destruct (put_value l c (saturated_sum old b) Hwf Hc) as (l1 & Hput & _ & Hv & Hk).
      rewrite Hput in Hs. cbn in Hs. simplify_eq. set (x := saturated_sum old b) in *.
      assert (0 <= x) by (unfold x, saturated_sum; destruct (_ <? _); [mi|pose proof (u64_range (old + b)); mi]).
      apply (effect_store l _ l' c x); [done|done|done| |intros ? ? ? ->%Hone [<- <-]; split; [done|lia]|by intros ? ? []|].
      * intros c'. cbn [high]. replace (high c' (if _ <? _ then _ else _)) with 0 by (by destruct (_ <? _)).
        destruct (decide (c = c')), (decide (c' = c)); congruence || done.
      * right. split; [by repeat constructor|done].
    + simplify_eq. apply effect_quiet; [done|intros ? ? ? ->%Hone; done|done].
  - rewrite (proj2 (get_value l c Hwf Ht)) in Hs. cbn in Hs. simplify_eq.
    destruct (Z.ltb_spec (peak l' c) v).
    + apply effect_quiet; [done|intros ? ? ? ->%Hone [-> [-> _]]; done|].
      intros c' v' [-> ->]. right. by repeat constructor.
    + apply effect_quiet; [done|intros ? ? ? []%elem_of_nil|]. intros c' v' [-> ->]. left. lia.
  - destruct Ht as [Hc Hlt]. rewrite (proj2 (get_value l c Hwf Hc)) in Hs. cbn in Hs.
    destruct (negb sp && (peak l c =? old)) eqn:Hcas.
    + apply andb_true_iff in Hcas as [_ Heq%Z.eqb_eq].
      destruct (put_peak_value l c v Hwf Hc) as (l1 & Hput & _ & Hk & Hv). rewrite Hput in Hs. cbn in Hs. simplify_eq.
      split; cbn.
      * intros c'. rewrite Hv. pose proof (Hp c'). lia.
      * intros c'. rewrite Hk. case_decide; subst; lia.
      * intros c'. rewrite Hk. case_decide as Hd; [right; subst; done|by left].
      * intros ? ? ? []%elem_of_nil.
      * intros c' v' (-> & -> & _). left. rewrite Hk, decide_True by done. lia.
      * intros c'. left. apply Hp.
    + simplify_eq. destruct (Z.ltb_spec (peak l' c) v).
      * apply effect_quiet; [done|intros ? ? ? ->%Hone (-> & -> & _); done|].
        intros c' v' (-> & -> & _). right. by repeat constructor.
      * apply effect_quiet; [done|intros ? ? ? []%elem_of_nil|]. intros c' v' (-> & -> & _). left. lia.
  - destruct Ht as [Hc Hb]. rewrite (proj1 (get_value l c Hwf Hc)) in Hs. cbn in Hs. simplify_eq.
    apply effect_quiet; [done|intros ? ? ? ->%Hone; done|done].
  - destruct Ht as [Hc Hb]. rewrite (proj1 (get_value l c Hwf Hc)) in Hs. cbn in Hs.
    destruct (negb sp && (value l c =? old)) eqn:Hcas.
    + apply andb_true_iff in Hcas as [_ Heq%Z.eqb_eq]. subst old.
      destruct (put_value l c (if value l c <? b then 0 else value l c - b) Hwf Hc) as (l1 & Hput & _ & Hv & Hk).
      rewrite Hput in Hs. cbn in Hs. simplify_eq. pose proof (Hu c).
      eapply effect_store; [done|exact Hv|done| |intros ? ? ? []%elem_of_nil|by intros ? ? []|].
      * intros c'. cbn [high]. replace (high c' (if _ <? _ then _ else _)) with 0 by (by destruct (_ <? _)).
        destruct (decide (c = c')), (decide (c' = c)); congruence || done.
      * left. destruct (Z.ltb_spec (value l c) b); mi.
    + simplify_eq. apply effect_quiet; [done|intros ? ? ? ->%Hone; done|done].
  - destruct Ht as [Hsb Hb]. rewrite (proj1 (get_value l (Sub s) Hwf Hsb)) in Hs.
    cbn [mbind option_bind] in Hs. destruct (put_value l (Sub s) b Hwf Hsb) as (l1 & Hput & _ & Hv & Hk).
    rewrite Hput in Hs. cbn [mbind option_bind] in Hs. simplify_eq.
    apply (effect_store l _ l' (Sub s) b); [done|done|done| | |by intros ? ? []|].
    + intros c'. cbn. destruct (decide (Sub s = c')), (decide (c' = Sub s)); try congruence; done.
    + intros c' v' x [->|Hx]%elem_of_cons Hr; [destruct Hr as [-> ->]; split; [done|lia]|exfalso].
      destruct (value l (Sub s) <? b); [apply Hone in Hx; subst x; done|].
      destruct (b <? value l (Sub s)); [apply Hone in Hx; subst x; done|by apply elem_of_nil in Hx].
    + right. split; [by constructor|mi].
Qed.

Definition call_ok (c : call) : Prop :=
  match c with Alloc _ b | Free _ b | Gauge _ b => is_uint64 b end.
Definition choice_ok (ch : choice) : Prop := match ch with Begin _ c => call_ok c | Run _ _ => True end.

Lemma subsys_ok_lt s : subsys_ok s = true -> (Z.to_nat s < SUBSYS_COUNT)%nat.
Proof.
  unfold subsys_ok. rewrite andb_true_iff, Z.leb_le, Z.ltb_lt. unfold SUBSYS_COUNT. lia.
Qed.

Lemma tasks_of_ok c : call_ok c -> Forall task_ok (tasks_of c) /\ (forall x k v, x ∈ tasks_of c -> ~ raises k v x).
Proof.
  intros Hc. assert (H : Forall (fun x => task_ok x /\ forall k v, ~ raises k v x) (tasks_of c)).
  { destruct c as [s b|s b|s b]; cbn [tasks_of call_ok] in *; unfold alloc, free, set_gauge;
      destruct (subsys_ok s) eqn:Hs; cbn [negb]; rewrite ?orb_true_r, ?orb_false_r;
      try apply Forall_nil_2; apply subsys_ok_lt in Hs; try (destruct (b =? 0); [apply Forall_nil_2|]);
      repeat apply Forall_cons_2; try apply Forall_nil_2; (split; [split; [exact Hs || exact I|exact Hc]|by intros ? ? []]). }
  rewrite Forall_forall in H. split; [apply Forall_forall|]; intros; by apply H.
Qed.

Lemma ledger_step_inv m ev ch m' e : inv m ev -> choice_ok ch -> step m ch = Some (m', e) -> inv m' (ev ++ e).
Proof.
  intros Hi Hok Hs. destruct ch as [i c|i sp]; cbn [step] in Hs;
    destruct (threads m !! i) as [[|t rest]|] eqn:Ht; cbn in Hs; try done.
  - destruct (tasks_of_ok c Hok) as [Hto Hnr].
    rewrite wr_lt in Hs by (eapply lookup_lt_Some; done). cbn in Hs. simplify_eq. rewrite app_nil_r.
    assert (Hback : forall x, pending (<[i:=tasks_of c]> (threads m)) x -> x ∈ tasks_of c \/ pending (threads m) x).
    { intros x (j & ts & Hj & Hx). destruct (decide (j = i)) as [->|Hne].
      - rewrite list_lookup_insert_eq in Hj by (eapply lookup_lt_Some; done). left. congruence.
      - rewrite list_lookup_insert_ne in Hj by done. right. by exists j, ts. }
    destruct Hi as [H1 H2 H3 H4 H5 H6 H7]. split; cbn; try done.
    + intros x [Hx|Hx]%Hback; [|by apply H3]. rewrite Forall_forall in Hto. by apply Hto.
    + intros k v x [Hx|Hx]%Hback Hr; [by apply Hnr in Hr|by eapply H6].
    + intros k. destruct (H7 k) as [|(x & (j & ts & Hj & Hx) & Hr)]; [by left|right].
      exists x. split; [|done]. exists j, ts. split; [|done]. rewrite list_lookup_insert_ne; [done|].
      intros ->. rewrite Ht in Hj. injection Hj as <-. by apply elem_of_nil in Hx.
  - destruct (step_task (led m) sp t) as [[[l' new] ev']|] eqn:Hst; cbn in Hs; [|done].
    rewrite wr_lt in Hs by (eapply lookup_lt_Some; done). cbn in Hs. simplify_eq.
    destruct Hi as [H1 H2 H3 H4 H5 H6 H7].
    assert (Hpt : pending (threads m) t) by (exists i, (t :: rest); split; [done|left]).
    pose proof (step_effect _ _ _ _ _ _ H1 (H3 _ Hpt) H2 Hst) as [E1 E2 E3 E4 E5 E6].
    destruct (step_task_total (led m) sp t H1 (H3 _ Hpt) H2) as (l1 & n1 & e1 & Hst1 & Hwf & Hnew & Hu).
    simplify_eq. rewrite Forall_forall in Hnew.
    assert (Hnews : forall x, x ∈ new -> pending (<[i:=new ++ rest]> (threads m)) x).
    { intros x Hx. exists i, (new ++ rest). rewrite list_lookup_insert_eq by (eapply lookup_lt_Some; done).
      split; [done|]. apply elem_of_app. by left. }
    split; cbn; try done.
    + intros x Hx. destruct (pending_back _ _ _ _ _ _ Ht Hx); auto.
    + intros c. rewrite high_app. specialize (E1 c). specialize (H4 c). lia.
    + intros c. rewrite high_app. specialize (H5 c). destruct (E3 c) as [->|Hr]; [lia|].
      pose proof (H6 _ _ _ Hpt Hr). lia.
    + intros c v x Hx Hr. rewrite high_app. destruct (pending_back _ _ _ _ _ _ Ht Hx) as [Hn|Ho].
      * destruct (E4 _ _ _ Hn Hr) as [Hr'|Hle]; [|lia]. pose proof (H6 _ _ _ Hpt Hr'). lia.
      * pose proof (H6 _ _ _ Ho Hr). lia.
    + intros c. rewrite high_app. destruct (decide (high c e <= high c ev)) as [Hle|Hgt].
      * rewrite Z.max_l by done. destruct (H7 c) as [Hk|(x & Hx & Hr)]; [left; specialize (E2 c); lia|].
        destruct (pending_forth _ _ _ _ new x Ht (or_intror Hx)) as [->|Hx']; [|right; by exists x].
        destruct (E5 _ _ Hr) as [|Hex]; [by left|right]. apply Exists_exists in Hex as (y & Hy & Hry).
        exists y. auto.
      * rewrite Z.max_r by lia. right. destruct (E6 c) as [Hv|Hex]; [specialize (H4 c); lia|].
        apply Exists_exists in Hex as (y & Hy & Hry). exists y. auto.
Qed.

Lemma run_inv sched m ev m' e : inv m ev -> Forall choice_ok sched -> run m sched = Some (m', e) -> inv m' (ev ++ e).
Proof.
  revert m ev e. induction sched as [|c sched IH]; intros m ev e Hi Hok Hr; cbn [run] in Hr.
  - simplify_eq. by rewrite app_nil_r.
  - apply Forall_cons in Hok as [Hc Hok]. destruct (step m c) as [[m1 e1]|] eqn:Hs; cbn in Hr; [|done].
    destruct (run m1 sched) as [[m2 e2]|] eqn:Hr2; cbn in Hr; [|done]. simplify_eq.
    rewrite app_assoc. eapply IH; [|done|done]. by eapply ledger_step_inv.
Qed.

Lemma no_pending n x : ~ pending (replicate n []) x.
Proof. intros (i & ts & Hi & Hx). apply lookup_replicate in Hi as [-> _]. by apply elem_of_nil in Hx. Qed.

Lemma ledger_start_inv b n : inv (start b n) [].
Proof.
  assert (Hv : forall c, value (init b) c = 0 /\ peak (init b) c = 0).
  { intros [|s]; [done|]. unfold value, peak, init, get, get_peak, rd. cbn [subsys_bytes subsys_peak].
    destruct (decide (s < SUBSYS_COUNT)%nat).
    - rewrite !lookup_replicate_2 by done. done.
    - rewrite !lookup_ge_None_2 by (rewrite length_replicate; lia). done. }
  split; cbn [led threads start]; try (intros x Hx; by apply no_pending in Hx).
  - done.
  - intros c. rewrite (proj1 (Hv c)). mi.
  - intros c. rewrite (proj1 (Hv c)). done.
  - intros c. rewrite (proj2 (Hv c)). done.
  - intros c v t Ht. by apply no_pending in Ht.
  - intros c. left. rewrite (proj2 (Hv c)). done.
Qed.

(** Nobody is inside a call. *)
Definition quiet (m : machine) : Prop := Forall (fun ts => ts = []) (threads m).

Lemma quiet_pending m t : quiet m -> ~ pending (threads m) t.
Proof.
  intros Hq (i & ts & Hi & Ht). unfold quiet in Hq. rewrite Forall_lookup in Hq. rewrite (Hq _ _ Hi) in Ht.
  by apply elem_of_nil in Ht.
Qed.

(** C34: under every interleaving of allocations, frees and gauge updates from
    any number of threads, with compare-exchanges failing spuriously, no thread
    is ever stuck, no counter exceeds its high-water mark's history, a peak
    never exceeds the largest value its counter has held, and once all calls
    have returned every peak is exactly that value. *)
Theorem ledger_peaks_exact budget n sched m ev :
  Forall choice_ok sched -> run (start budget n) sched = Some (m, ev) ->
  (forall i t rest sp, threads m !! i = Some (t :: rest) -> is_Some (step m (Run i sp))) /\
  (forall c, value (led m) c <= high c ev /\ peak (led m) c <= high c ev) /\
  (quiet m -> forall c, peak (led m) c = high c ev).
Proof.
  intros Hok Hr. pose proof (run_inv _ _ _ _ _ (ledger_start_inv budget n) Hok Hr) as Hi. cbn [app] in Hi.
  destruct Hi as [H1 H2 H3 H4 H5 H6 H7]. split; [|split].
  - intros i t rest sp Ht. cbn [step]. rewrite Ht. cbn [mbind option_bind].
    destruct (step_task_total (led m) sp t H1) as (l' & new & e & -> & _); [|done|].
    { apply H3. exists i, (t :: rest). split; [done|left]. }
    cbn [mbind option_bind]. rewrite wr_lt by (eapply lookup_lt_Some; done). by eexists.
  - auto.
  - intros Hq c. destruct (H7 c) as [Hh|(t & Ht & _)]; [specialize (H5 c); lia|].
    by apply quiet_pending in Ht.
Qed.

(** ** The total *)

Fixpoint zsum (l : list Z) : Z := match l with [] => 0 | x :: rest => x + zsum rest end.

Lemma zsum_app l l' : zsum (l ++ l') = zsum l + zsum l'.
Proof. induction l as [|x l IH]; [done|]. cbn [app zsum]. lia. Qed.

Lemma zsum_insert l i x y : l !! i = Some x -> zsum (<[i := y]> l) = zsum l - x + y.
Proof.
  intros Hi. rewrite insert_take_drop by (eapply lookup_lt_Some; done).
  rewrite <- (take_drop_middle l i x Hi) at 3. rewrite !zsum_app. cbn [zsum]. lia.
Qed.

(** What a task still has to add to the subsystem counters, less what it still
    has to add to the total. *)
Definition weight (t : task) : Z :=
  match t with
  | Add_load (Sub _) b | Add_cas (Sub _) b _ | Sub_load Total b | Sub_cas Total b _ => b
  | Add_load Total b | Add_cas Total b _ | Sub_load (Sub _) b | Sub_cas (Sub _) b _ => - b
  | _ => 0
  end.
Definition weights (ts : list task) : Z := zsum (weight <$> ts).

Lemma weights_cons t ts : weights (t :: ts) = weight t + weights ts.
Proof. done. Qed.
Lemma weights_nil : weights [] = 0.
Proof. done. Qed.

Definition imbalance (l : ledger) : Z := zsum (subsys_bytes l) - current_bytes l.

(** No step has cut a value off. *)
Definition uncut (ev : list event) : Prop := Forall (fun e => e <> Saturated /\ e <> Clamped) ev.

Lemma put_imbalance l c v l' : ledger_wf l -> counter_ok c -> put l c v = Some l' ->
  imbalance l' = imbalance l + (v - value l c) * (if c is Total then -1 else 1).
Proof.
  intros Hwf Hc Hp. destruct c as [|s]; cbn [put] in Hp.
  - simplify_eq. unfold imbalance, value. cbn.
    lia.
  - cbn in Hc. destruct Hwf as [Hb _]. rewrite wr_lt in Hp by lia. cbn in Hp. simplify_eq. unfold imbalance, value. cbn.
    destruct (lookup_lt_is_Some_2 (subsys_bytes l) s) as [x Hx]; [lia|]. unfold rd. rewrite (zsum_insert _ _ x) by done.
    rewrite Hx. cbn. lia.
Qed.

Lemma step_imbalance l sp t l' new ev : ledger_wf l -> task_ok t -> (forall c, is_uint64 (value l c)) ->
  step_task l sp t = Some (l', new, ev) -> uncut ev -> imbalance l' + weights new = imbalance l + weight t.
Proof.
  intros Hwf Ht Hu Hs Hex. assert (Hput := fun c v l' H => put_imbalance l c v l' Hwf H).
  destruct t as [c b|c b old|c v|c v old|c b|c b old|s b]; cbn [step_task task_ok] in *.
  - destruct Ht as [Hc Hb]. rewrite (proj1 (get_value l c Hwf Hc)) in Hs. cbn in Hs. simplify_eq.
    rewrite ?weights_cons, ?weights_nil; destruct c; cbn [weight]; lia.
  - destruct Ht as (Hc & Hb & Ho). rewrite (proj1 (get_value l c Hwf Hc)) in Hs. cbn [mbind option_bind] in Hs.
    destruct (negb sp && (value l c =? old)) eqn:Hcas; [|simplify_eq; rewrite ?weights_cons, ?weights_nil; destruct c; cbn [weight]; lia].
    apply andb_true_iff in Hcas as [_ <-%Z.eqb_eq].
    destruct (put l c _) as [l1|] eqn:Hp; cbn in Hs; [|done]. simplify_eq. rewrite (Hput _ _ _ Hc Hp).
    unfold saturated_sum. apply Forall_cons in Hex as [_ Hex]. destruct (Z.ltb_spec (UINT64_MAX - value l c) b).
    { apply Forall_cons in Hex as [[? _] _]. congruence. }
    rewrite u64_small by (pose proof (Hu c); mi). rewrite ?weights_cons, ?weights_nil; destruct c; cbn [weight]; lia.
  - rewrite (proj2 (get_value l c Hwf Ht)) in Hs. cbn in Hs. simplify_eq. destruct (_ <? _); rewrite ?weights_cons, ?weights_nil; cbn [weight]; lia.
  - destruct Ht as [Hc Hlt]. rewrite (proj2 (get_value l c Hwf Hc)) in Hs. cbn in Hs.
    destruct (negb sp && _); [|simplify_eq; destruct (_ <? _); rewrite ?weights_cons, ?weights_nil; cbn [weight]; lia].
    destruct c as [|s]; cbn [put_peak] in Hs; [simplify_eq/=; rewrite weights_nil; unfold imbalance; cbn; lia|].
    destruct (wr _ _ _); simplify_eq/=. rewrite weights_nil. unfold imbalance. cbn. lia.
  - destruct Ht as [Hc Hb]. rewrite (proj1 (get_value l c Hwf Hc)) in Hs. cbn in Hs. simplify_eq.
    rewrite ?weights_cons, ?weights_nil; destruct c; cbn [weight]; lia.
  - destruct Ht as [Hc Hb]. rewrite (proj1 (get_value l c Hwf Hc)) in Hs. cbn [mbind option_bind] in Hs.
    destruct (negb sp && (value l c =? old)) eqn:Hcas; [|simplify_eq; rewrite ?weights_cons, ?weights_nil; destruct c; cbn [weight]; lia].
    apply andb_true_iff in Hcas as [_ <-%Z.eqb_eq].
    destruct (put l c _) as [l1|] eqn:Hp; cbn in Hs; [|done]. simplify_eq. rewrite (Hput _ _ _ Hc Hp).
    apply Forall_cons in Hex as [_ Hex]. destruct (Z.ltb_spec (value l c) b).
    { apply Forall_cons in Hex as [[_ ?] _]. congruence. }
    rewrite ?weights_cons, ?weights_nil; destruct c; cbn [weight]; lia.
  - destruct Ht as [Hsb Hb]. rewrite (proj1 (get_value l (Sub s) Hwf Hsb)) in Hs. cbn [mbind option_bind] in Hs.
    destruct (put l (Sub s) b) as [l1|] eqn:Hp; cbn [mbind option_bind] in Hs; [|done]. simplify_eq.
    rewrite (Hput (Sub s) _ _ Hsb Hp).
    destruct (Z.ltb_spec (value l (Sub s)) b); [rewrite !weights_cons, weights_nil; cbn [weight]; lia|].
    destruct (Z.ltb_spec b (value l (Sub s))); rewrite ?weights_cons, ?weights_nil; cbn [weight]; lia.
Qed.

Definition all_weights (ths : list (list task)) : Z := zsum (weights <$> ths).

Lemma weights_app ts ts' : weights (ts ++ ts') = weights ts + weights ts'.
Proof. unfold weights. by rewrite fmap_app, zsum_app. Qed.

Lemma all_weights_insert ths i ts ts' : ths !! i = Some ts ->
  all_weights (<[i := ts']> ths) = all_weights ths - weights ts + weights ts'.
Proof.
  intros Hi. unfold all_weights. rewrite list_fmap_insert. apply zsum_insert. by rewrite list_lookup_fmap, Hi.
Qed.

Lemma tasks_of_weight c : weights (tasks_of c) = 0.
Proof.
  destruct c as [s b|s b|s b]; cbn [tasks_of]; unfold alloc, free, set_gauge.
  - destruct (_ || _); cbn; lia.
  - destruct (_ || _); cbn; lia.
  - destruct (negb _); cbn; lia.
Qed.

Lemma run_imbalance sched m ev m' e : inv m ev -> Forall choice_ok sched -> run m sched = Some (m', e) -> uncut e ->
  imbalance (led m') + all_weights (threads m') = imbalance (led m) + all_weights (threads m).
Proof.
  revert m ev e. induction sched as [|c sched IH]; intros m ev e Hi Hok Hr Hex; cbn [run] in Hr; [by simplify_eq|].
  apply Forall_cons in Hok as [Hc Hok]. destruct (step m c) as [[m1 e1]|] eqn:Hs; cbn in Hr; [|done].
  destruct (run m1 sched) as [[m2 e2]|] eqn:Hr2; cbn in Hr; [|done]. simplify_eq.
  apply Forall_app in Hex as [Hex1 Hex2]. pose proof (ledger_step_inv _ _ _ _ _ Hi Hc Hs) as Hi1.
  rewrite (IH _ _ _ Hi1 Hok Hr2 Hex2). destruct c as [i c|i sp]; cbn [step] in Hs;
    destruct (threads m !! i) as [[|t rest]|] eqn:Ht; cbn in Hs; try done.
  - rewrite wr_lt in Hs by (eapply lookup_lt_Some; done). cbn in Hs. simplify_eq. cbn [led threads].
    rewrite (all_weights_insert _ _ [] _ Ht), tasks_of_weight, weights_nil. lia.
  - destruct (step_task (led m) sp t) as [[[l' new] ev']|] eqn:Hst; cbn in Hs; [|done].
    rewrite wr_lt in Hs by (eapply lookup_lt_Some; done). cbn in Hs. simplify_eq. cbn [led threads].
    destruct Hi as [H1 H2 H3 _ _ _ _].
    assert (Hto : task_ok t) by (apply H3; exists i, (t :: rest); split; [done|left]).
    pose proof (step_imbalance _ _ _ _ _ _ H1 Hto H2 Hst Hex1).
    rewrite (all_weights_insert _ _ (t :: rest) _ Ht), weights_app.
    change (weights (t :: rest)) with (weight t + weights rest). lia.
Qed.

Lemma quiet_weights ths : Forall (fun ts => ts = []) ths -> all_weights ths = 0.
Proof. induction 1 as [|ts ths -> Hq IH]; [done|]. exact IH. Qed.

(** as long as no counter has been cut off at zero or at the maximum, the
    total is exactly the sum of the subsystem counters whenever no call is
    under way, whatever the interleaving of the calls was. *)
Theorem ledger_total_exact budget n sched m ev :
  Forall choice_ok sched -> run (start budget n) sched = Some (m, ev) -> uncut ev -> quiet m ->
  current_bytes (led m) = zsum (subsys_bytes (led m)).
Proof.
  intros Hok Hr Hex Hq. pose proof (run_imbalance _ _ _ _ _ (ledger_start_inv budget n) Hok Hr Hex) as H.
  assert (Hw : all_weights (threads m) = 0) by by apply quiet_weights.
  assert (Hw0 : all_weights (threads (start budget n)) = 0)
    by (apply quiet_weights; by apply Forall_replicate).
  rewrite Hw, Hw0 in H. unfold imbalance in H. cbn [led start init subsys_bytes current_bytes] in H.
  replace (zsum (replicate SUBSYS_COUNT 0)) with 0 in H by reflexivity. lia.
Qed.

(** Two threads: an allocation of 5 bytes interleaved with a gauge of 7. *)
Definition demo_sched : list choice :=
  [Begin 0 (Alloc 1 5); Begin 1 (Gauge 6 7); Run 0 false; Run 1 false; Run 0 false; Run 1 false; Run 0 false;
   Run 1 false; Run 0 true; Run 0 false; Run 0 true; Run 0 false; Run 0 false; Run 1 false; Run 1 true; Run 1 false;
   Run 1 false; Run 1 false; Run 0 false].
Definition demo_end : machine * list event := default (start 100 2, []) (run (start 100 2) demo_sched).

Lemma demo_run_ok : Forall choice_ok demo_sched.
Proof. repeat apply Forall_cons_2; try exact I; try (cbn; mi). apply Forall_nil_2. Qed.

Lemma ledger_peaks_exact_witness : peak (led demo_end.1) Total = high Total demo_end.2 /\ high Total demo_end.2 = 12.
Proof.
  split; [|vm_compute; reflexivity].
  apply (proj2 (proj2 (ledger_peaks_exact 100 2 demo_sched demo_end.1 demo_end.2 demo_run_ok
    ltac:(vm_compute; reflexivity)))).
  vm_compute. repeat constructor.
Defined.

Lemma ledger_total_exact_witness : current_bytes (led demo_end.1) = zsum (subsys_bytes (led demo_end.1)).
Proof.
  apply (ledger_total_exact 100 2 demo_sched demo_end.1 demo_end.2 demo_run_ok ltac:(vm_compute; reflexivity)).
  - vm_compute. repeat constructor; discriminate.
  - vm_compute. repeat constructor.
Defined.

(** Two gauge updates of one subsystem, up and down again, overtaking each
    other between the exchange and the update of the total. *)
Definition overtaking : list choice :=
  [Begin 0 (Gauge 6 10); Run 0 false; Begin 1 (Gauge 6 0)] ++ replicate 4 (Run 1 false) ++ replicate 6 (Run 0 false).

(** when one thread's gauge update overtakes another's between the exchange
    of the subsystem counter and the update of the total, the subtraction is
    cut off at zero and the addition that follows it stays: every call has
    returned, all subsystem counters are 0 and the total is 10 for good. *)
Theorem gauge_updates_drift :
  exists m ev, run (start 0 2) overtaking = Some (m, ev) /\ quiet m /\
    zsum (subsys_bytes (led m)) = 0 /\ current_bytes (led m) = 10.
Proof.
  eexists _, _. split; [vm_compute; reflexivity|]. split; [vm_compute; repeat constructor|].
  split; vm_compute; reflexivity.
Qed.

(** ** Budget queries *)

Lemma percent_of_exact v p : is_uint64 v -> 0 <= p <= 100 -> percent_of v p = v * p / 100.
Proof.
  intros Hv Hp. unfold percent_of.
  pose proof (Z.div_mod v 100 ltac:(lia)). pose proof (Z.mod_pos_bound v 100 ltac:(lia)).
  set (q := v / 100) in *. set (r := v mod 100) in *.
  assert (0 <= q) by (unfold q; apply Z.div_pos; mi).
  rewrite (u64_small (q * p)) by (mi_unfold; nia). rewrite (u64_small (r * p)) by (mi_unfold; nia).
  assert (Hd : v * p / 100 = q * p + r * p / 100).
  { replace (v * p) with (r * p + q * p * 100) by nia. rewrite Z.div_add by lia. lia. }
  rewrite <- Hd. apply u64_small. split; [apply Z.div_pos; mi|].
  apply Z.le_trans with (v * 100 / 100); [apply Z.div_le_mono; nia|]. rewrite Z.div_mul by lia. mi.
Qed.

Definition cap (budget : Z) (s : nat) : Z := budget * (subsys_pct !!! s) / 100.

Lemma pct_lookup s : (s < SUBSYS_COUNT)%nat ->
  rd subsys_pct s = Some (subsys_pct !!! s) /\ 0 <= subsys_pct !!! s <= 100.
Proof.
  intros Hs. assert (Hf : Forall (fun p => 0 <= p <= 100) subsys_pct) by (repeat constructor; lia).
  pose proof (rd_total subsys_pct s ltac:(exact Hs)) as Hr. split; [done|].
  rewrite Forall_lookup in Hf. by apply (Hf s).
Qed.

Lemma cap_range b s : is_uint64 b -> (s < SUBSYS_COUNT)%nat -> is_uint64 (cap b s).
Proof.
  intros Hb Hs. destruct (pct_lookup s Hs) as [_ Hp]. unfold cap. split; [apply Z.div_pos; mi|].
  apply Z.le_trans with (b * 100 / 100); [apply Z.div_le_mono; mi_unfold; nia|]. rewrite Z.div_mul by lia. mi.
Qed.

(** the budget queries are exact over the whole 64-bit range: a subsystem's
    cap is the floor of its percentage of the budget, computed without
    overflow, the caps together never exceed the budget, and the over-budget,
    back-pressure and remaining-bytes answers are the comparisons with those
    caps that the interface documents, with a budget of 0 meaning unlimited. *)
Theorem ledger_queries_exact l s t :
  ledger_wf l -> is_uint64 (total_budget l) -> (forall c, is_uint64 (value l c)) -> 0 <= t ->
  (s < SUBSYS_COUNT)%nat -> total_budget l <> 0 ->
  zsum (cap (total_budget l) <$> seq 0 SUBSYS_COUNT) <= total_budget l /\
  over_budget (Some l) = bool_decide (total_budget l < current_bytes l) /\
  bytes_remaining (Some l) = Z.max 0 (total_budget l - current_bytes l) /\
  subsys_over_budget (Some l) (Z.of_nat s) = Some (bool_decide (cap (total_budget l) s < value l (Sub s))) /\
  should_backpressure (Some l) (Z.of_nat s) t =
    Some (bool_decide (cap (total_budget l) s <> 0 /\ t <= 100 /\ cap (total_budget l) s * t / 100 <= value l (Sub s))).
Proof.
  intros Hwf Hb Hu Ht Hs H0. destruct (pct_lookup s Hs) as [Hr Hp].
  assert (Hso : subsys_ok (Z.of_nat s) = true).
  { unfold subsys_ok. apply andb_true_iff. rewrite Z.leb_le, Z.ltb_lt. lia. }
  assert (Hne : (total_budget l =? 0) = false) by (by apply Z.eqb_neq).
  assert (Hv : rd (subsys_bytes l) s = Some (value l (Sub s))) by apply (proj1 (get_value l (Sub s) Hwf Hs)).
  assert (Hc : percent_of (total_budget l) (subsys_pct !!! s) = cap (total_budget l) s)
    by (by apply percent_of_exact).
  split; [|split; [|split; [|split]]].
  - unfold cap. cbn. pose proof (proj1 Hb). Z.div_mod_to_equations. lia.
  - unfold over_budget. rewrite Hne. destruct (Z.ltb_spec (total_budget l) (current_bytes l)); case_bool_decide; lia || done.
  - unfold bytes_remaining. rewrite Hne. destruct (Z.leb_spec (total_budget l) (current_bytes l)); lia.
  - unfold subsys_over_budget. rewrite Hso, Hne, Nat2Z.id. cbn [negb]. rewrite Hr, Hv. cbn. rewrite Hc.
    f_equal. destruct (Z.ltb_spec (cap (total_budget l) s) (value l (Sub s))); case_bool_decide; lia || done.
  - unfold should_backpressure. rewrite Hso, Hne, Nat2Z.id. cbn [negb]. rewrite Hr. cbn [mbind option_bind]. rewrite Hc.
    destruct (Z.eqb_spec (cap (total_budget l) s) 0); [f_equal; case_bool_decide; naive_solver|].
    destruct (Z.ltb_spec 100 t); [f_equal; case_bool_decide; [lia|done]|].
    rewrite Hv. cbn [mbind option_bind]. f_equal. rewrite percent_of_exact by (try lia; by apply cap_range).
    destruct (Z.leb_spec (cap (total_budget l) s * t / 100) (value l (Sub s))); case_bool_decide; try done; lia.
Qed.

Definition full_ledger : ledger := L UINT64_MAX UINT64_MAX UINT64_MAX (replicate 8 UINT64_MAX) (replicate 8 0) [] 0.

Lemma ledger_queries_exact_witness :
  should_backpressure (Some full_ledger) 0 100 =
    Some (bool_decide (cap UINT64_MAX 0 <> 0 /\ 100 <= 100 /\ cap UINT64_MAX 0 * 100 / 100 <= value full_ledger (Sub 0))).
Proof.
  refine (proj2 (proj2 (proj2 (proj2 (ledger_queries_exact full_ledger 0 100 _ _ _ _ _ _))))).
  - split; reflexivity.
  - split; discriminate.
  - intros [|s]; [split; discriminate|]. unfold value, get, rd.
    destruct (subsys_bytes full_ledger !! s) as [x|] eqn:Hx; [|split; discriminate].
    apply lookup_replicate in Hx as [-> _]. split; discriminate.
  - discriminate.
  - unfold SUBSYS_COUNT. lia.
  - discriminate.
Defined.

(** ** The reclaimer table *)

Definition entry (s : slot) : option (Z * (Z * Z)) :=
  if active s then f ← fn s; Some (handle s, (f, owner s)) else None.
Definition entries (ss : list slot) : list (Z * (Z * Z)) := omap entry ss.

(** The registered callbacks by handle. *)
Definition table (l : ledger) : gmap Z (Z * Z) := list_to_map (entries (reclaimers l)).

Record table_wf (l : ledger) : Prop := {
  t_slots : length (reclaimers l) = MAX_RECLAIMERS;
  t_next : is_uint64 (next_reclaimer_handle l);
  t_fn : Forall (fun s => active s = true -> is_Some (fn s)) (reclaimers l);
  t_range : Forall (fun e => 0 < e.1 <= next_reclaimer_handle l) (entries (reclaimers l));
  t_nodup : NoDup (entries (reclaimers l)).*1 }.

Lemma entries_app a b : entries (a ++ b) = entries a ++ entries b.
Proof. apply omap_app. Qed.

(** Replacing a slot replaces its entry. *)
Lemma entries_insert ss i s s' : ss !! i = Some s ->
  exists a b, entries ss = a ++ option_list (entry s) ++ b /\
    entries (<[i := s']> ss) = a ++ option_list (entry s') ++ b.
Proof.
  intros Hi. exists (entries (take i ss)), (entries (drop (S i) ss)).
  rewrite insert_take_drop by (eapply lookup_lt_Some; done). rewrite <- (take_drop_middle ss i s Hi) at 1.
  rewrite !entries_app. split; f_equal; unfold entries; cbn; by destruct (entry _).
Qed.

Lemma register_loop_spec n i l f o : length (reclaimers l) = (n + i)%nat ->
  (register_loop n i l f o = Some (ENOSPC, Some 0, l) /\ forall j s, (i <= j)%nat -> reclaimers l !! j = Some s -> active s = true) \/
  exists j s, reclaimers l !! j = Some s /\ active s = false /\
    register_loop n i l f o =
      let h1 := u64 (next_reclaimer_handle l + 1) in
      let h := if h1 =? 0 then u64 (h1 + 1) else h1 in
      Some (0, Some h, set_slots l (<[j := Slot (Some f) o h true]> (reclaimers l)) h).
Proof.
  revert i. induction n as [|n IH]; intros i Hl; cbn [register_loop].
  - left. split; [done|]. intros j s Hj Hs. apply lookup_lt_Some in Hs. lia.
  - destruct (lookup_lt_is_Some_2 (reclaimers l) i) as [s Hs]; [lia|]. unfold rd. rewrite Hs. cbn [mbind option_bind].
    destruct (active s) eqn:Ha.
    + destruct (IH (S i)) as [[Hr Hall]|(j & s' & Hj & Ha' & Hr)]; [lia| |].
      * left. split; [done|]. intros j s' Hij Hj. destruct (decide (j = i)) as [->|]; [by simplify_eq|].
        apply (Hall j); [lia|done].
      * right. by exists j, s'.
    + right. exists i, s. split; [done|]. split; [done|]. rewrite wr_lt by (eapply lookup_lt_Some; done). done.
Qed.

Lemma length_omap_le {A B} (f : A -> option B) l : (length (omap f l) <= length l)%nat.
Proof. induction l as [|x l IH]; [done|]. change (omap f (x :: l)) with (match f x with Some y => y :: omap f l | None => omap f l end).
  destruct (f x); cbn [length]; lia. Qed.

Lemma register_spec l f o : table_wf l -> next_reclaimer_handle l < UINT64_MAX ->
  if decide (size (table l) = MAX_RECLAIMERS)
  then register_reclaimer l (Some f) o = Some (ENOSPC, Some 0, l)
  else let h := next_reclaimer_handle l + 1 in exists l', register_reclaimer l (Some f) o = Some (0, Some h, l') /\
    table l !! h = None /\ table l' = <[h := (f, o)]> (table l) /\ table_wf l' /\ next_reclaimer_handle l' = h.
Proof.
  intros [H1 H2 H3 H4 H5] Hlt. unfold register_reclaimer.
  assert (Hsz : size (table l) = length (entries (reclaimers l))).
  { unfold table. by rewrite map_size_list_to_map. }
  destruct (register_loop_spec MAX_RECLAIMERS 0 l f o) as [[Hr Hall]|(j & s & Hj & Ha & Hr)]; [rewrite H1; lia|..].
  - rewrite decide_True; [done|]. rewrite Hsz, <- H1. unfold entries. clear - Hall H3.
    assert (Hf : Forall (fun s => is_Some (entry s)) (reclaimers l)).
    { rewrite Forall_lookup in *. intros i s Hs. pose proof (Hall i s ltac:(lia) Hs) as Ha.
      destruct (H3 i s Hs Ha) as [f Hf]. unfold entry. rewrite Ha, Hf. by eexists. }
    induction Hf as [|s ss [e He] Hf IH]; [done|]. cbn. rewrite He. cbn. f_equal. apply IH.
    + rewrite Forall_lookup in *. intros i. apply (H3 (S i)).
    + intros j s' Hj. apply (Hall (S j)). lia.
  - cbv zeta in Hr. rewrite (u64_small (next_reclaimer_handle l + 1)) in Hr by mi.
    destruct (Z.eqb_spec (next_reclaimer_handle l + 1) 0); [mi|].
    destruct (entries_insert (reclaimers l) j s (Slot (Some f) o (next_reclaimer_handle l + 1) true) Hj)
      as (a & b & He & He'). set (h := next_reclaimer_handle l + 1) in *.
    assert (Hes : entry s = None) by (unfold entry; by rewrite Ha). rewrite Hes in He. cbn in He.
    change (entry (Slot (Some f) o h true)) with (Some (h, (f, o))) in He'. cbn [option_list app] in He'.
    assert (Hfresh : h ∉ (entries (reclaimers l)).*1).
    { intros (e & Heq & Hin)%list_elem_of_fmap. rewrite Forall_forall in H4. specialize (H4 _ Hin). unfold h in Heq. lia. }
    assert (Hlen : (length (a ++ b) < MAX_RECLAIMERS)%nat).
    { rewrite <- He, <- H1. rewrite <- (take_drop_middle _ _ _ Hj) at 1. rewrite entries_app.
      unfold entries. cbn. rewrite Hes, length_app.
      pose proof (length_omap_le entry (take j (reclaimers l))). pose proof (length_omap_le entry (drop (S j) (reclaimers l))).
      pose proof (lookup_lt_Some _ _ _ Hj). rewrite length_take in *. rewrite length_drop in *. lia. }
    rewrite decide_False by (rewrite Hsz, He; lia). cbv zeta. eexists. split; [exact Hr|].
    assert (Hperm : entries (<[j:=Slot (Some f) o h true]> (reclaimers l)) ≡ₚ (h, (f, o)) :: entries (reclaimers l)).
    { rewrite He', He. symmetry. apply Permutation_middle. }
    assert (Hnd : NoDup (entries (<[j:=Slot (Some f) o h true]> (reclaimers l))).*1)
      by (rewrite Hperm; cbn; by apply NoDup_cons).
    split; [|split; [|split; [|done]]].
    + apply not_elem_of_list_to_map_1. done.
    + unfold table. cbn [set_slots reclaimers]. by rewrite (list_to_map_proper _ _ Hnd Hperm).
    + split; cbn [set_slots reclaimers next_reclaimer_handle].
      * by rewrite length_insert.
      * unfold h. mi.
      * apply Forall_insert; [done|]. by eexists.
      * rewrite Hperm. apply Forall_cons. split; [cbn; unfold h; mi|]. eapply Forall_impl; [exact H4|]. cbn. unfold h. lia.
      * done.
Qed.

Lemma unregister_loop_spec n i l h : length (reclaimers l) = (n + i)%nat ->
  (unregister_loop n i l h = Some l /\
   forall j s, (i <= j)%nat -> reclaimers l !! j = Some s -> active s = true -> handle s <> h) \/
  exists j s, reclaimers l !! j = Some s /\ active s = true /\ handle s = h /\
    unregister_loop n i l h = Some (set_slots l (<[j := no_slot]> (reclaimers l)) (next_reclaimer_handle l)).
Proof.
  revert i. induction n as [|n IH]; intros i Hl; cbn [unregister_loop].
  - left. split; [done|]. intros j s Hj Hs. apply lookup_lt_Some in Hs. lia.
  - destruct (lookup_lt_is_Some_2 (reclaimers l) i) as [s Hs]; [lia|]. unfold rd. rewrite Hs. cbn [mbind option_bind].
    destruct (active s && (handle s =? h)) eqn:Ha.
    + apply andb_true_iff in Ha as [Ha Hh]. rewrite Ha, Hh. apply Z.eqb_eq in Hh. cbn [negb orb]. right. exists i, s.
      rewrite wr_lt by (eapply lookup_lt_Some; done). done.
    + rewrite <- negb_andb, Ha. cbn [negb].
      destruct (IH (S i)) as [[Hr Hall]|(j & s' & Hj & Ha' & Hh & Hr)]; [lia| |].
      * left. split; [done|]. intros j s' Hij Hj Hact. destruct (decide (j = i)) as [->|]; [|apply (Hall j); [lia|done..]].
        simplify_eq. rewrite Hact in Ha. cbn in Ha. by apply Z.eqb_neq.
      * right. by exists j, s'.
Qed.

Lemma unregister_spec l h : table_wf l -> exists l', unregister_reclaimer l h = Some l' /\
  table l' = delete h (table l) /\ table_wf l' /\ next_reclaimer_handle l' = next_reclaimer_handle l.
Proof.
  intros Hwf. pose proof Hwf as [H1 H2 H3 H4 H5]. unfold unregister_reclaimer.
  assert (Hnone : h ∉ (entries (reclaimers l)).*1 -> table l = delete h (table l)).
  { intros Hn. symmetry. apply delete_id. by apply not_elem_of_list_to_map_1. }
  assert (Hin : forall e, e ∈ entries (reclaimers l) -> exists j s, reclaimers l !! j = Some s /\ active s = true /\ handle s = e.1).
  { intros e (s & Hs & He)%list_elem_of_omap. apply list_elem_of_lookup_1 in Hs as [j Hj]. exists j, s. split; [done|].
    unfold entry in He. destruct (active s); [|done]. destruct (fn s); simplify_eq/=. done. }
  destruct (Z.eqb_spec h 0) as [->|Hne].
  { exists l. split; [done|]. split; [|done]. apply Hnone. intros (e & Heq & He)%list_elem_of_fmap.
    rewrite Forall_forall in H4. specialize (H4 _ He). lia. }
  destruct (unregister_loop_spec MAX_RECLAIMERS 0 l h) as [[Hr Hall]|(j & s & Hj & Ha & Hh & Hr)]; [rewrite H1; lia|..].
  - exists l. split; [done|]. split; [|done]. apply Hnone. intros (e & Heq & He)%list_elem_of_fmap.
    destruct (Hin _ He) as (j & s & Hj & Ha & Hh). apply (Hall j s); [lia|done|done|congruence].
  - eexists. split; [exact Hr|].
    destruct (entries_insert (reclaimers l) j s no_slot Hj) as (a & b & He & He'). cbn [entry no_slot active option_list app] in He'.
    assert (Hf : is_Some (fn s)) by (rewrite Forall_lookup in H3; by apply (H3 j)). destruct Hf as [f Hf].
    assert (Hes : entry s = Some (h, (f, owner s))) by (unfold entry; rewrite Ha, Hf; cbn; by rewrite Hh).
    rewrite Hes in He. cbn [option_list app] in He.
    assert (Hperm : entries (reclaimers l) ≡ₚ (h, (f, owner s)) :: entries (<[j:=no_slot]> (reclaimers l))).
    { rewrite He, He'. symmetry. apply Permutation_middle. }
    assert (Hnd : NoDup (((h, (f, owner s)) :: entries (<[j:=no_slot]> (reclaimers l))).*1)) by (by rewrite <- Hperm).
    pose proof Hnd as Hnd'. cbn in Hnd'. apply NoDup_cons in Hnd' as [Hnin Hnd'].
    split; [|split; [|done]].
    + unfold table. cbn [set_slots reclaimers]. rewrite (list_to_map_proper _ _ H5 Hperm). cbn.
      rewrite delete_insert_id; [done|]. by apply not_elem_of_list_to_map_1.
    + split; cbn [set_slots reclaimers next_reclaimer_handle]; [by rewrite length_insert|done| | |done].
      * by apply Forall_insert.
      * rewrite Hperm in H4. by apply Forall_cons in H4 as [_ H4].
Qed.

Inductive rop := Register (f o : Z) | Unregister (h : Z).

Fixpoint rexec (l : ledger) (ops : list rop) : option (ledger * list (Z * option Z)) :=
  match ops with
  | [] => Some (l, [])
  | Register f o :: rest =>
      '(rc, out, l1) ← register_reclaimer l (Some f) o; '(l2, res) ← rexec l1 rest; Some (l2, (rc, out) :: res)
  | Unregister h :: rest => l1 ← unregister_reclaimer l h; rexec l1 rest
  end.

(** The table as a map from handles to callbacks, with the last handle given
    out. *)
Fixpoint rspec (t : gmap Z (Z * Z)) (last : Z) (ops : list rop) : gmap Z (Z * Z) * list (Z * option Z) :=
  match ops with
  | [] => (t, [])
  | Register f o :: rest =>
      if decide (size t = MAX_RECLAIMERS) then let '(t', res) := rspec t last rest in (t', (ENOSPC, Some 0) :: res)
      else let '(t', res) := rspec (<[last + 1 := (f, o)]> t) (last + 1) rest in (t', (0, Some (last + 1)) :: res)
  | Unregister h :: rest => rspec (delete h t) last rest
  end.

Lemma rexec_refines ops l : table_wf l -> next_reclaimer_handle l + Z.of_nat (length ops) <= UINT64_MAX ->
  exists l' res, rexec l ops = Some (l', res) /\ (table l', res) = rspec (table l) (next_reclaimer_handle l) ops /\ table_wf l'.
Proof.
  revert l. induction ops as [|[f o|h] ops IH]; intros l Hwf Hle; cbn [rexec rspec length] in *.
  - by exists l, [].
  - pose proof (register_spec l f o Hwf ltac:(lia)) as Hr.
    destruct (decide (size (table l) = MAX_RECLAIMERS)).
    + rewrite Hr. cbn [mbind option_bind]. destruct (IH l Hwf ltac:(lia)) as (l' & res & -> & Hs & Hwf').
      cbn [mbind option_bind]. rewrite <- Hs. by eexists _, _.
    + cbv zeta in Hr. destruct Hr as (l1 & -> & _ & Ht & Hwf1 & Hn). cbn [mbind option_bind].
      destruct (IH l1 Hwf1 ltac:(lia)) as (l' & res & -> & Hs & Hwf'). cbn [mbind option_bind].
      rewrite Ht, Hn in Hs. rewrite <- Hs. by eexists _, _.
  - destruct (unregister_spec l h Hwf) as (l1 & -> & Ht & Hwf1 & Hn). cbn [mbind option_bind].
    destruct (IH l1 Hwf1 ltac:(lia)) as (l' & res & -> & Hs & Hwf'). rewrite Ht, Hn in Hs. by eexists _, _.
Qed.

Lemma init_table b : table_wf (init b) /\ table (init b) = ∅.
Proof.
  split; [|done]. split; cbn; [done|mi| |done|apply NoDup_nil_2]. by repeat constructor.
Qed.

(** Callbacks that leave the ledger's table alone. *)
Section Reclaim.
Variable callback : Z -> Z -> ledger -> (Z * Z) * ledger.
Hypothesis callback_table : forall f o l, reclaimers (callback f o l).2 = reclaimers l.
Variable amount : Z -> Z -> Z * Z.
Hypothesis callback_result : forall f o l, (callback f o l).1 = amount f o.
Hypothesis amount_range : forall f o, is_uint64 (amount f o).1 /\ is_uint32 (amount f o).2.

Definition sum_capped (max acc : Z) (l : list Z) : Z := Z.min max (acc + zsum l).

Lemma add_result_capped t r rest1 rest2 : is_uint64 t.1 -> is_uint32 t.2 -> is_uint64 r.1 -> is_uint32 r.2 ->
  Forall (fun x => 0 <= x) rest1 -> Forall (fun x => 0 <= x) rest2 ->
  is_uint64 (add_result t r).1 /\ is_uint32 (add_result t r).2 /\
  sum_capped UINT64_MAX (add_result t r).1 rest1 = sum_capped UINT64_MAX t.1 (r.1 :: rest1) /\
  sum_capped UINT32_MAX (add_result t r).2 rest2 = sum_capped UINT32_MAX t.2 (r.2 :: rest2).
Proof.
  intros H1 H2 H3 H4 Hf1 Hf2. assert (Hz : forall l, Forall (fun x => 0 <= x) l -> 0 <= zsum l).
  { induction 1; cbn; lia. }
  apply Hz in Hf1, Hf2. unfold add_result, sum_capped. cbn [fst snd zsum].
  destruct (Z.ltb_spec (UINT64_MAX - t.1) r.1), (Z.ltb_spec (UINT32_MAX - t.2) r.2);
    rewrite ?u64_small, ?u32_small by mi; split_and!; mi.
Qed.

Lemma reclaim_loop_spec n i l total : length (reclaimers l) = (n + i)%nat -> is_uint64 total.1 -> is_uint32 total.2 ->
  let es := entries (drop i (reclaimers l)) in
  exists l', reclaim_loop callback n i l total =
    Some ((sum_capped UINT64_MAX total.1 ((fun e => (amount e.2.1 e.2.2).1) <$> es),
           sum_capped UINT32_MAX total.2 ((fun e => (amount e.2.1 e.2.2).2) <$> es)), l', snd <$> es).
Proof.
  revert i l total. induction n as [|n IH]; intros i l total Hl H1 H2; cbv zeta; cbn [reclaim_loop].
  - rewrite drop_ge by lia. exists l. cbn. unfold sum_capped. cbn. do 3 f_equal. destruct total; cbn in *. f_equal; mi.
  - destruct (lookup_lt_is_Some_2 (reclaimers l) i) as [s Hs]; [lia|]. unfold rd. rewrite Hs. cbn [mbind option_bind].
    assert (He : entries (drop i (reclaimers l)) =
      match entry s with Some e => e :: entries (drop (S i) (reclaimers l)) | None => entries (drop (S i) (reclaimers l)) end).
    { rewrite (drop_S _ s) by done. done. }
    rewrite He. unfold entry. destruct (active s); [|apply IH; [lia|done..]].
    destruct (fn s) as [f|]; cbn [mbind option_bind]; [|apply IH; [lia|done..]].
    pose proof (callback_table f (owner s) l) as Hct. pose proof (callback_result f (owner s) l) as Hcr.
    destruct (callback f (owner s) l) as [r l1]. cbn [fst snd] in Hct, Hcr. subst r.
    destruct (amount_range f (owner s)) as [Ha1 Ha2].
    assert (Hf1 : Forall (fun x => 0 <= x) ((fun e => (amount e.2.1 e.2.2).1) <$> entries (drop (S i) (reclaimers l)))).
    { apply Forall_fmap, Forall_true. intros e. apply amount_range. }
    assert (Hf2 : Forall (fun x => 0 <= x) ((fun e => (amount e.2.1 e.2.2).2) <$> entries (drop (S i) (reclaimers l)))).
    { apply Forall_fmap, Forall_true. intros e. apply amount_range. }
    destruct (add_result_capped total _ _ _ H1 H2 Ha1 Ha2 Hf1 Hf2) as (Hu1 & Hu2 & Hs1 & Hs2).
    destruct (IH (S i) l1 (add_result total (amount f (owner s)))) as [l' Hl']; [rewrite Hct; lia|done..|].
    rewrite Hl'. cbn [mbind option_bind]. rewrite Hct, Hs1, Hs2. by eexists.
Qed.

(** after any sequence of registrations and unregistrations that does not
    exhaust the handles, the table holds exactly the callbacks registered and
    not unregistered, under pairwise different non-zero handles; a
    registration is refused with ENOSPC exactly when eight are registered;
    and a reclaim calls each registered callback once and returns the sums of
    their results, capped at the type's maximum. *)
Theorem reclaimers_refine b ops : Z.of_nat (length ops) <= UINT64_MAX ->
  exists l res, rexec (init b) ops = Some (l, res) /\ (table l, res) = rspec ∅ 0 ops /\
    exists total l' calls, reclaim callback (Some l) = Some (total, Some l', calls) /\
      calls ≡ₚ (map_to_list (table l)).*2 /\
      total = (Z.min UINT64_MAX (zsum ((fun c => (amount c.1 c.2).1) <$> calls)),
               Z.min UINT32_MAX (zsum ((fun c => (amount c.1 c.2).2) <$> calls))).
Proof.
  intros Hlen. destruct (init_table b) as [Hwf Ht].
  destruct (rexec_refines ops (init b) Hwf) as (l & res & He & Hs & Hwf'); [cbn; lia|].
  exists l, res. split; [done|]. rewrite Ht in Hs. split; [done|].
  destruct (reclaim_loop_spec MAX_RECLAIMERS 0 l (0, 0)) as [l' Hl'];
    [rewrite (t_slots _ Hwf'); lia|cbn; mi|cbn; mi|].
  eexists _, l', _. unfold reclaim. rewrite Hl'. cbn [mbind option_bind]. split; [done|]. rewrite drop_0. split.
  - apply fmap_Permutation. unfold table. symmetry. apply map_to_list_to_map, (t_nodup _ Hwf').
  - rewrite <- !list_fmap_compose. done.
Qed.
End Reclaim.

(** Callbacks that release 2^63 bytes each. *)
Definition big (f o : Z) : Z * Z := (2 ^ 63, 1).

Lemma reclaimers_refine_witness :
  exists l res, rexec (init 0) [Register 1 10; Register 2 20; Unregister 1; Register 3 30] = Some (l, res) /\
    (table l, res) = rspec ∅ 0 [Register 1 10; Register 2 20; Unregister 1; Register 3 30] /\
    exists total l' calls, reclaim (fun f o l => (big f o, l)) (Some l) = Some (total, Some l', calls) /\
      calls ≡ₚ (map_to_list (table l)).*2 /\
      total = (Z.min UINT64_MAX (zsum ((fun c => (big c.1 c.2).1) <$> calls)),
               Z.min UINT32_MAX (zsum ((fun c => (big c.1 c.2).2) <$> calls))).
Proof.
  apply (reclaimers_refine (fun f o l => (big f o, l)) (fun _ _ _ => eq_refl) big (fun _ _ _ => eq_refl)).
  - intros f o. unfold big. cbn [fst snd]. split; split; discriminate.
  - cbn. discriminate.
Defined.
