(* ===== verification/Parser.v ===== *)
(** * Parser (src/wirelog/parser/parser.c, ast.h)

    The recursive-descent parser over a stream of tokens.  The parser's state is
    threaded through a small state monad [M]; a C function that returns a node
    or NULL returns an [option], and the outer [None] of the monad is a loop or
    recursion that has not ended within its fuel.  The lexer is one instance of
    the stream interface [TokenStream], a list of tokens another.  Allocation
    succeeds throughout; what the program does with a failed one is not
    modelled. *)

From Stdlib Require Import Ascii.
From S2P Require Import Prelude Lexer.

Module Parser.

Import Lexer.

(** ** Tokens and streams *)

(** A token with its text: [ttext] is the copy of token_to_name, [tstr] the
    decoded value of wl_parser_lexer_token_to_string, and [tmsg] the lexer's
    error message when the token is an error. *)
Record tok := Tok {
  ttype : token_type;
  ttext : list Z;
  tstr : list Z;
  tpos : nat;
  tlen : Z;
  tkline : Z;
  tkcol : Z;
  tint : Z;
  tuint : Z;
  tfloat : Z;
  tmsg : string }.

Definition zero_tok : tok := Tok TOK_IDENT [] [] 0 0 0 0 0 0 0 "".

Class TokenStream (S : Type) := next : S -> option (tok * S).

Definition of_token (src : list Z) (t : token) (msg : string) : tok :=
  Tok (type t) (token_text src t) (token_to_string src t) (tstart t) (length t) (tline t) (tcol t)
    (int_value t) (uint_value t) (float_value t) (if bool_decide (type t = TOK_ERROR) then msg else "").

(** wl_parser_lexer_next_token as a stream. *)
Definition lexer_next (strtod : list Z -> option (nat * Z * Z)) (lx : lexer) : option (tok * lexer) :=
  '(t, lx') ← next_token strtod true lx; Some (of_token (source lx) t (error_msg lx'), lx').

(** A list of tokens as a stream; its end is the EOF token. *)
Definition eof_tok : tok := Tok TOK_EOF [] [] 0 0 0 0 0 0 0 "".
#[export] Instance list_stream : TokenStream (list tok) := fun l =>
  match l with [] => Some (eof_tok, []) | t :: l' => Some (t, l') end.

(** ** Trees *)

Inductive node_type :=
  | PROGRAM | DECL | INPUT | OUTPUT | PRINTSIZE | RULE | HEAD | ATOM | NEGATION | COMPARISON | BOOLEAN
  | VARIABLE | INTEGER | FLOAT | STRING | WILDCARD | AGGREGATE | COMPOUND_TERM | BINARY_EXPR | STR_FUNCTION
  | EXTENSION_CALL | FACT | TYPED_PARAM | INPUT_PARAM | OUTPUT_PARAM | QUERY.

Inductive cmp_op := CMP_EQ | CMP_NEQ | CMP_LT | CMP_GT | CMP_LTE | CMP_GTE.

Inductive arith_op :=
  | ADD | SUB | MUL | DIV | MOD | BAND | BOR | BXOR | BNOT | SHL | SHR | HASH | CRC32_ETH | CRC32_CAST
  | MD5 | SHA1 | SHA256 | SHA512 | HMAC_SHA256 | UUID4 | UUID5.

Inductive agg_fn := AGG_COUNT | AGG_SUM | AGG_MIN | AGG_MAX | AGG_AVG.

Inductive str_fn :=
  | FN_STRLEN | FN_CAT | FN_SUBSTR | FN_CONTAINS | FN_STR_PREFIX | FN_STR_SUFFIX | FN_STR_ORD | FN_TO_UPPER
  | FN_TO_LOWER | FN_STR_REPLACE | FN_TRIM | FN_TO_STRING | FN_TO_NUMBER | FN_UUID5_RFC.

#[export] Instance node_type_eq_dec : EqDecision node_type.
Proof. solve_decision. Defined.
#[export] Instance cmp_op_eq_dec : EqDecision cmp_op.
Proof. solve_decision. Defined.
#[export] Instance arith_op_eq_dec : EqDecision arith_op.
Proof. solve_decision. Defined.
#[export] Instance agg_fn_eq_dec : EqDecision agg_fn.
Proof. solve_decision. Defined.
#[export] Instance str_fn_eq_dec : EqDecision str_fn.
Proof. solve_decision. Defined.

(** The fields of wl_parser_ast_node but its children. *)
Record info := Info {
  ntype : node_type;
  nline : Z;
  ncol : Z;
  name : option (list Z);
  ival : Z;
  fval : Z;
  sval : option (list Z);
  bval : bool;
  is_planning : bool;
  cmp : cmp_op;
  arith : arith_op;
  agg : agg_fn;
  strf : str_fn;
  type_name : option (list Z);
  query_arity : Z }.

Inductive ast := Node (i : info) (children : list ast).

Definition info_of (a : ast) : info := let 'Node i _ := a in i.
Definition children (a : ast) : list ast := let 'Node _ cs := a in cs.

(** wl_parser_ast_node_create: a zeroed node. *)
Definition create (ty : node_type) (line col : Z) : info :=
  Info ty line col None 0 0 None false false CMP_EQ ADD AGG_COUNT FN_STRLEN None 0.

Definition with_name (n : list Z) (i : info) : info :=
  Info (ntype i) (nline i) (ncol i) (Some n) (ival i) (fval i) (sval i) (bval i) (is_planning i) (cmp i) (arith i)
    (agg i) (strf i) (type_name i) (query_arity i).
Definition with_int (v : Z) (i : info) : info :=
  Info (ntype i) (nline i) (ncol i) (name i) v (fval i) (sval i) (bval i) (is_planning i) (cmp i) (arith i)
    (agg i) (strf i) (type_name i) (query_arity i).
Definition with_float (v : Z) (i : info) : info :=
  Info (ntype i) (nline i) (ncol i) (name i) (ival i) v (sval i) (bval i) (is_planning i) (cmp i) (arith i)
    (agg i) (strf i) (type_name i) (query_arity i).
Definition with_str (v : list Z) (i : info) : info :=
  Info (ntype i) (nline i) (ncol i) (name i) (ival i) (fval i) (Some v) (bval i) (is_planning i) (cmp i) (arith i)
    (agg i) (strf i) (type_name i) (query_arity i).
Definition with_bool (v : bool) (i : info) : info :=
  Info (ntype i) (nline i) (ncol i) (name i) (ival i) (fval i) (sval i) v (is_planning i) (cmp i) (arith i)
    (agg i) (strf i) (type_name i) (query_arity i).
Definition with_planning (v : bool) (i : info) : info :=
  Info (ntype i) (nline i) (ncol i) (name i) (ival i) (fval i) (sval i) (bval i) v (cmp i) (arith i)
    (agg i) (strf i) (type_name i) (query_arity i).
Definition with_cmp (v : cmp_op) (i : info) : info :=
  Info (ntype i) (nline i) (ncol i) (name i) (ival i) (fval i) (sval i) (bval i) (is_planning i) v (arith i)
    (agg i) (strf i) (type_name i) (query_arity i).
Definition with_arith (v : arith_op) (i : info) : info :=
  Info (ntype i) (nline i) (ncol i) (name i) (ival i) (fval i) (sval i) (bval i) (is_planning i) (cmp i) v
    (agg i) (strf i) (type_name i) (query_arity i).
Definition with_agg (v : agg_fn) (i : info) : info :=
  Info (ntype i) (nline i) (ncol i) (name i) (ival i) (fval i) (sval i) (bval i) (is_planning i) (cmp i) (arith i)
    v (strf i) (type_name i) (query_arity i).
Definition with_strf (v : str_fn) (i : info) : info :=
  Info (ntype i) (nline i) (ncol i) (name i) (ival i) (fval i) (sval i) (bval i) (is_planning i) (cmp i) (arith i)
    (agg i) v (type_name i) (query_arity i).
Definition with_type (v : list Z) (i : info) : info :=
  Info (ntype i) (nline i) (ncol i) (name i) (ival i) (fval i) (sval i) (bval i) (is_planning i) (cmp i) (arith i)
    (agg i) (strf i) (Some v) (query_arity i).
Definition with_arity (v : Z) (i : info) : info :=
  Info (ntype i) (nline i) (ncol i) (name i) (ival i) (fval i) (sval i) (bval i) (is_planning i) (cmp i) (arith i)
    (agg i) (strf i) (type_name i) v.

(** ** Tables *)

Definition token_to_str_fn (t : token_type) : str_fn :=
  match t with
  | TOK_STRLEN => FN_STRLEN | TOK_CAT => FN_CAT | TOK_SUBSTR => FN_SUBSTR | TOK_CONTAINS => FN_CONTAINS
  | TOK_STR_PREFIX => FN_STR_PREFIX | TOK_STR_SUFFIX => FN_STR_SUFFIX | TOK_STR_ORD => FN_STR_ORD
  | TOK_TO_UPPER => FN_TO_UPPER | TOK_TO_LOWER => FN_TO_LOWER | TOK_STR_REPLACE => FN_STR_REPLACE
  | TOK_TRIM => FN_TRIM | TOK_TO_STRING => FN_TO_STRING | TOK_TO_NUMBER => FN_TO_NUMBER
  | TOK_UUID5_RFC => FN_UUID5_RFC | _ => FN_STRLEN
  end.

Definition is_string_fn_token (t : token_type) : bool :=
  match t with
  | TOK_STRLEN | TOK_CAT | TOK_SUBSTR | TOK_CONTAINS | TOK_STR_PREFIX | TOK_STR_SUFFIX | TOK_STR_ORD | TOK_TO_UPPER
  | TOK_TO_LOWER | TOK_STR_REPLACE | TOK_TRIM | TOK_TO_STRING | TOK_TO_NUMBER | TOK_UUID5_RFC => true
  | _ => false
  end.

Definition token_to_arith_op (t : token_type) : arith_op :=
  match t with
  | TOK_PLUS => ADD | TOK_MINUS => SUB | TOK_STAR => MUL | TOK_SLASH => DIV | TOK_PERCENT => MOD | _ => ADD
  end.

Definition is_multiplicative_op (t : token_type) : bool :=
  match t with TOK_STAR | TOK_SLASH | TOK_PERCENT => true | _ => false end.

Definition is_additive_op (t : token_type) : bool :=
  match t with TOK_PLUS | TOK_MINUS => true | _ => false end.

Definition is_bitwise_token (t : token_type) : bool :=
  match t with
  | TOK_BAND | TOK_BOR | TOK_BXOR | TOK_BNOT | TOK_BSHL | TOK_BSHR | TOK_HASH | TOK_MD5 | TOK_SHA1 | TOK_SHA256
  | TOK_SHA512 | TOK_HMAC_SHA256 | TOK_UUID4 | TOK_UUID5 | TOK_CRC32_ETH | TOK_CRC32_CAST => true
  | _ => false
  end.

(** The function-call branches of parse_factor: the operator and the number of
    arguments a token stands for, and how messages name it. *)
Definition call_op (t : token_type) : option (arith_op * nat * string) :=
  match t with
  | TOK_BAND => Some (BAND, 2%nat, "bitwise operator") | TOK_BOR => Some (BOR, 2%nat, "bitwise operator")
  | TOK_BXOR => Some (BXOR, 2%nat, "bitwise operator") | TOK_BSHL => Some (SHL, 2%nat, "bitwise operator")
  | TOK_BSHR => Some (SHR, 2%nat, "bitwise operator") | TOK_BNOT => Some (BNOT, 1%nat, "bnot")
  | TOK_HASH => Some (HASH, 1%nat, "hash") | TOK_MD5 => Some (MD5, 1%nat, "md5") | TOK_SHA1 => Some (SHA1, 1%nat, "sha1")
  | TOK_SHA256 => Some (SHA256, 1%nat, "sha256") | TOK_SHA512 => Some (SHA512, 1%nat, "sha512")
  | TOK_HMAC_SHA256 => Some (HMAC_SHA256, 2%nat, "hmac_sha256")
  | TOK_CRC32_ETH => Some (CRC32_ETH, 1%nat, "crc32_ethernet")
  | TOK_CRC32_CAST => Some (CRC32_CAST, 1%nat, "crc32_castagnoli")
  | TOK_UUID4 => Some (UUID4, 0%nat, "uuid4") | TOK_UUID5 => Some (UUID5, 2%nat, "uuid5")
  | _ => None
  end.

Definition token_to_agg_fn (t : token_type) : agg_fn :=
  match t with
  | TOK_COUNT => AGG_COUNT | TOK_SUM => AGG_SUM | TOK_MIN => AGG_MIN | TOK_MAX => AGG_MAX | TOK_AVG => AGG_AVG
  | _ => AGG_COUNT
  end.

Definition is_aggregate_token (t : token_type) : bool :=
  match t with TOK_COUNT | TOK_SUM | TOK_MIN | TOK_MAX | TOK_AVG => true | _ => false end.

Definition is_compare_op (t : token_type) : bool :=
  match t with TOK_EQ | TOK_NEQ | TOK_LT | TOK_GT | TOK_LTE | TOK_GTE => true | _ => false end.

Definition token_to_cmp_op (t : token_type) : cmp_op :=
  match t with
  | TOK_EQ => CMP_EQ | TOK_NEQ => CMP_NEQ | TOK_LT => CMP_LT | TOK_GT => CMP_GT | TOK_LTE => CMP_LTE
  | TOK_GTE => CMP_GTE | _ => CMP_EQ
  end.

(** ** Parser state *)

(** What parser_error formats: position, message and the current token's type. *)
Record perror := PError { e_line : Z; e_col : Z; e_msg : string; e_type : token_type }.

Record parser (S : Type) := P { stream : S; current : tok; previous : tok; err : option perror }.
Arguments P {S} _ _ _ _.
Arguments stream {S} _.
Arguments current {S} _.
Arguments previous {S} _.
Arguments err {S} _.

Definition COMPOUND_INLINE_MAX_ARITY : Z := 4.
Definition COMPOUND_MAX_DEPTH : Z := 64.

Section Parse.
Context {S : Type} `{!TokenStream S}.

Definition M (A : Type) : Type := parser S -> option (A * parser S).

#[global] Instance M_ret : MRet M := fun A x p => Some (x, p).
#[global] Instance M_bind : MBind M := fun A B f m p => match m p with Some (x, p') => f x p' | None => None end.

(** A NULL result is passed on. *)
Notation "x ←? m ; k" := (mbind (fun o => match o with Some x => k | None => mret None end) m)
  (at level 20, m at level 100, k at level 200, right associativity).
(** A false result returns NULL. *)
Notation "'need' m ; k" := (mbind (fun b : bool => if b then k else mret None) m)
  (at level 20, m at level 100, k at level 200, right associativity).

Definition out_of_fuel {A} : M A := fun _ => None.
Definition cur : M tok := fun p => Some (current p, p).
Definition prev : M tok := fun p => Some (previous p, p).
Definition had_error : M bool := fun p => Some (if err p then true else false, p).

Definition parser_error (msg : string) : M unit := fun p =>
  match err p with
  | Some _ => Some (tt, p)
  | None =>
      Some (tt, P (stream p) (current p) (previous p)
                  (Some (PError (tkline (current p)) (tkcol (current p)) msg (ttype (current p)))))
  end.

Definition parser_advance : M unit := fun p =>
  '(t, s') ← next (stream p);
  let p' := P s' t (current p) (err p) in
  if bool_decide (ttype t = TOK_ERROR) then parser_error (tmsg t) p' else Some (tt, p').

Definition parser_check (ty : token_type) : M bool := c ← cur; mret (bool_decide (ttype c = ty)).

Definition parser_match (ty : token_type) : M bool :=
  b ← parser_check ty; if b : bool then _ ← parser_advance; mret true else mret false.

Definition parser_consume (ty : token_type) (msg : string) : M bool :=
  b ← parser_check ty; if b : bool then _ ← parser_advance; mret true else _ ← parser_error msg; mret false.

(** wl_parser_lexer_peek_token: the type of the token after the current one. *)
Definition peek_type : M token_type := fun p => '(t, _) ← next (stream p); Some (ttype t, p).

(** parser_error and return NULL *)
Definition fail_with {A} (msg : string) : M (option A) := _ ← parser_error msg; mret None.

Definition tokens_are_adjacent (l r : tok) : bool := Z.of_nat (tpos l) + tlen l =? Z.of_nat (tpos r).

(** ** Literals *)

(** parse_integer_literal from the INTEGER token on. *)
Definition parse_magnitude (negative : bool) (line col : Z) : M (option ast) :=
  need parser_consume TOK_INTEGER "expected integer literal";
  t ← prev;
  let magnitude := tuint t in
  if negative then
    if INT64_MAX + 1 <? magnitude then fail_with "integer literal below INT64_MIN"
    else mret (Some (Node (with_int (if magnitude =? INT64_MAX + 1 then INT64_MIN else - magnitude)
                             (create INTEGER line col)) []))
  else if INT64_MAX <? magnitude then fail_with "integer literal above INT64_MAX"
  else mret (Some (Node (with_int magnitude (create INTEGER line col)) [])).

Definition parse_integer_literal : M (option ast) :=
  c ← cur;
  m ← parser_match TOK_MINUS;
  if m : bool then
    minus ← prev;
    b ← parser_check TOK_INTEGER;
    if b : bool then
      c1 ← cur;
      if negb (tokens_are_adjacent minus c1) then fail_with "expected integer immediately after '-'"
      else parse_magnitude true (tkline minus) (tkcol minus)
    else fail_with "expected integer immediately after '-'"
  else parse_magnitude false (tkline c) (tkcol c).

Definition parse_float_literal : M (option ast) :=
  minus ← cur;
  negative ← parser_match TOK_MINUS;
  need parser_consume TOK_FLOAT "expected float literal";
  t ← prev;
  let value := if negative : bool then Z.lxor (tfloat t) (2 ^ 63) else tfloat t in
  if negb (bits_finite value) then fail_with "float literal is not finite after negation"
  else
    let at_ := if negative : bool then minus else t in
    mret (Some (Node (with_float (if bits_zero value then 0 else value) (create FLOAT (tkline at_) (tkcol at_))) [])).

(** ** Declared types *)

(** "%u" *)
Fixpoint digits (fuel : nat) (n : Z) (acc : list Z) : list Z :=
  match fuel with
  | O => acc
  | Datatypes.S fuel' =>
      let acc' := (48 + n mod 10) :: acc in if n <? 10 then acc' else digits fuel' (n / 10) acc'
  end.
Definition decimal_u32 (n : Z) : list Z := digits 10 n [].

Definition scalar_types : list (token_type * string) :=
  [(TOK_INT32, "int32"); (TOK_INT64, "int64"); (TOK_STRING_TYPE, "string"); (TOK_SYMBOL_TYPE, "symbol");
   (TOK_FLOAT_TYPE, "float")].

(** The chain of parser_match over the scalar types. *)
Fixpoint match_scalar (l : list (token_type * string)) : M (option string) :=
  match l with
  | [] => mret None
  | (ty, nm) :: rest => b ← parser_match ty; if b : bool then mret (Some nm) else match_scalar rest
  end.

(** do ... while (parser_match(COMMA)) over the slot types *)
Fixpoint slot_types (fuel : nat) (acc : list string) : M (option (list string)) :=
  match fuel with
  | O => out_of_fuel
  | Datatypes.S fuel' =>
      t ← match_scalar scalar_types;
      match t with
      | None =>
          fail_with "expected a slot type (int32, int64, string, symbol, float) in a compound type list"
      | Some t =>
          if (4 <=? List.length acc)%nat then fail_with "compound type list exceeds maximum arity 4"
          else
            b ← parser_match TOK_COMMA;
            if b : bool then slot_types fuel' (acc ++ [t]) else mret (Some (acc ++ [t]))
      end
  end.

Definition slots_buf (slots : list string) : list Z :=
  match slots with
  | [] => []
  | s :: rest => bytes "<" ++ bytes s ++ concat ((fun t => bytes "," ++ bytes t) <$> rest) ++ bytes ">"
  end.

(** The optional modifier of a compound type. *)
Definition parse_modifier : M (option (option string)) :=
  b ← parser_check TOK_IDENT;
  if b : bool then
    p ← prev; c ← cur;
    if tokens_are_adjacent p c then fail_with "expected whitespace before compound modifier"
    else if bool_decide (ttext c = bytes "inline") then _ ← parser_advance; mret (Some (Some "inline"))
    else if bool_decide (ttext c = bytes "side") then _ ← parser_advance; mret (Some (Some "side"))
    else fail_with "expected compound modifier 'inline' or 'side'"
  else mret (Some None).

Definition parse_declaration_type (fuel : nat) : M (option (list Z)) :=
  t ← match_scalar scalar_types;
  match t with
  | Some nm => mret (Some (bytes nm))
  | None =>
      need parser_consume TOK_IDENT
        "expected type (int32, int64, string, symbol, float, or compound functor/arity)";
      f ← prev;
      slots_arity ←?
        (b ← parser_match TOK_LPAREN;
         if b : bool then
           slots ←? slot_types fuel [];
           need parser_consume TOK_RPAREN "expected ')' after compound type list";
           mret (Some (slots, Z.of_nat (List.length slots)))
         else
           need parser_consume TOK_SLASH "expected '/' or '(' in compound type";
           need parser_consume TOK_INTEGER "expected compound arity after '/'";
           a ← prev;
           mret (Some ([], tint a)));
      let '(slots, arity) := slots_arity in
      if (arity <=? 0) || (UINT32_MAX <? arity) then fail_with "compound arity must be a positive uint32"
      else
        modifier ←? parse_modifier;
        if bool_decide (modifier = Some "inline") && (COMPOUND_INLINE_MAX_ARITY <? arity)
        then fail_with "inline compound arity exceeds maximum arity 4"
        else
          mret (Some (ttext f ++ bytes "/" ++ decimal_u32 arity ++ slots_buf slots ++
                      match modifier with Some m => bytes " " ++ bytes m | None => [] end))
  end.

(** ** Lists of arguments *)

(** while (parser_match(COMMA)) { item; add }, after the items [acc] *)
Fixpoint comma_list (fuel : nat) (item : M (option ast)) (acc : list ast) : M (option (list ast)) :=
  match fuel with
  | O => out_of_fuel
  | Datatypes.S fuel' =>
      b ← parser_match TOK_COMMA;
      if b : bool then x ←? item; comma_list fuel' item (acc ++ [x]) else mret (Some acc)
  end.

(** One item and those after commas. *)
Definition items (fuel : nat) (item : M (option ast)) : M (option (list ast)) :=
  x ←? item; comma_list fuel item [x].

(** The items up to a closing parenthesis, possibly none. *)
Definition opt_items (fuel : nat) (item : M (option ast)) : M (option (list ast)) :=
  b ← parser_check TOK_RPAREN; if b : bool then mret (Some []) else items fuel item.

(** ** Expressions *)

Section Factor.
Variable fuel : nat.
Variable expr : M (option ast).

Definition parse_string_fn_expr : M (option ast) :=
  c ← cur;
  let fn := token_to_str_fn (ttype c) in
  _ ← parser_advance;
  need parser_consume TOK_LPAREN "expected '(' after string function";
  args ←? opt_items fuel expr;
  need parser_consume TOK_RPAREN "expected ')' after string function arguments";
  if bool_decide (fn = FN_UUID5_RFC) && negb (List.length args =? 2)%nat
  then fail_with "uuid5_rfc expects namespace and name"
  else mret (Some (Node (with_strf fn (create STR_FUNCTION (tkline c) (tkcol c))) args)).

(** The [n] arguments of a built-in function, separated by commas. *)
Fixpoint call_args (n : nat) (first : bool) (comma_msg : string) : M (option (list ast)) :=
  match n with
  | O => mret (Some [])
  | Datatypes.S n' =>
      need (if first then mret true else parser_consume TOK_COMMA comma_msg);
      x ←? expr; xs ←? call_args n' false comma_msg; mret (Some (x :: xs))
  end.

Definition parse_call (op : arith_op) (n : nat) (what : string) : M (option ast) :=
  c ← cur;
  _ ← parser_advance;
  need parser_consume TOK_LPAREN ("expected '(' after " +:+ what);
  args ←? call_args n true
    (if bool_decide (what = "bitwise operator") then "expected ',' in bitwise binary operator"
     else "expected ',' between " +:+ what +:+ " arguments");
  need parser_consume TOK_RPAREN
    ("expected ')' after " +:+ what +:+ match n with O => "" | 1%nat => " argument" | _ => " arguments" end);
  mret (Some (Node (with_arith op (create BINARY_EXPR (tkline c) (tkcol c))) args)).

(** The numeric literals an operand can start with. *)
Definition parse_number : M (option (option ast)) :=
  c ← cur;
  if bool_decide (ttype c = TOK_FLOAT) then r ← parse_float_literal; mret (Some r)
  else
    f ← (if bool_decide (ttype c = TOK_MINUS) then t ← peek_type; mret (bool_decide (t = TOK_FLOAT)) else mret false);
    if f : bool then r ← parse_float_literal; mret (Some r)
    else if bool_decide (ttype c = TOK_INTEGER) || bool_decide (ttype c = TOK_MINUS)
    then r ← parse_integer_literal; mret (Some r)
    else mret None.

Definition parse_factor : M (option ast) :=
  e ← had_error;
  if e : bool then mret None
  else
    c ← cur;
    b ← parser_match TOK_IDENT;
    if b : bool then
      t ← prev; mret (Some (Node (with_name (ttext t) (create VARIABLE (tkline c) (tkcol c))) []))
    else
      num ← parse_number;
      match num with
      | Some r => mret r
      | None =>
          b2 ← parser_match TOK_STRING;
          if b2 : bool then
            t ← prev; mret (Some (Node (with_str (tstr t) (create STRING (tkline c) (tkcol c))) []))
          else
            match call_op (ttype c) with
            | Some (op, n, what) => parse_call op n what
            | None =>
                if is_string_fn_token (ttype c) then parse_string_fn_expr
                else fail_with "expected variable, number, or string"
            end
      end.

End Factor.

(** The loop of parse_arithmetic_level after its first operand. *)
Fixpoint level_loop (fuel : nat) (is_op : token_type -> bool) (operand : M (option ast)) (left : ast) : M (option ast) :=
  match fuel with
  | O => out_of_fuel
  | Datatypes.S fuel' =>
      c ← cur;
      if is_op (ttype c) then
        _ ← parser_advance;
        right ←? operand;
        e ← had_error;
        if e : bool then mret None
        else
          level_loop fuel' is_op operand
            (Node (with_arith (token_to_arith_op (ttype c)) (create BINARY_EXPR (tkline c) (tkcol c))) [left; right])
      else mret (Some left)
  end.

Definition parse_arithmetic_level (fuel : nat) (is_op : token_type -> bool) (operand : M (option ast)) : M (option ast) :=
  left ←? operand;
  e ← had_error;
  if e : bool then mret None else level_loop fuel is_op operand left.

Fixpoint parse_arithmetic_expr (fuel : nat) : M (option ast) :=
  match fuel with
  | O => out_of_fuel
  | Datatypes.S fuel' =>
      parse_arithmetic_level fuel' is_additive_op
        (parse_arithmetic_level fuel' is_multiplicative_op (parse_factor fuel' (parse_arithmetic_expr fuel')))
  end.

Definition parse_aggregate_expr (fuel : nat) : M (option ast) :=
  c ← cur;
  _ ← parser_advance;
  need parser_consume TOK_LPAREN "expected '(' after aggregate";
  e ←? parse_arithmetic_expr fuel;
  need parser_consume TOK_RPAREN "expected ')' after aggregate expr";
  mret (Some (Node (with_agg (token_to_agg_fn (ttype c)) (create AGGREGATE (tkline c) (tkcol c))) [e])).

(** ** Atoms *)

(** parse_compound_term after its functor [f], given the parser of arguments
    one level down. *)
Definition parse_compound_term (fuel : nat) (arg : M (option ast)) : M (option ast) :=
  f ← prev;
  need parser_consume TOK_LPAREN "expected '(' after compound functor";
  b ← parser_check TOK_RPAREN;
  if b : bool then fail_with "compound term requires at least one argument"
  else
    args ←? items fuel arg;
    need parser_consume TOK_RPAREN "expected ')' after compound arguments";
    mret (Some (Node (with_name (ttext f) (create COMPOUND_TERM (tkline f) (tkcol f))) args)).

Fixpoint parse_atom_arg_at_depth (fuel : nat) (depth : Z) : M (option ast) :=
  match fuel with
  | O => out_of_fuel
  | Datatypes.S fuel' =>
      c ← cur;
      if COMPOUND_MAX_DEPTH <? depth then fail_with "compound term nesting too deep"
      else
        b ← parser_match TOK_UNDERSCORE;
        if b : bool then mret (Some (Node (create WILDCARD (tkline c) (tkcol c)) []))
        else
          b1 ← parser_match TOK_IDENT;
          if b1 : bool then
            b2 ← parser_check TOK_LPAREN;
            if b2 : bool then parse_compound_term fuel' (parse_atom_arg_at_depth fuel' (depth + 1))
            else t ← prev; mret (Some (Node (with_name (ttext t) (create VARIABLE (tkline c) (tkcol c))) []))
          else
            num ← parse_number;
            match num with
            | Some r => mret r
            | None =>
                b2 ← parser_match TOK_STRING;
                if b2 : bool then
                  t ← prev; mret (Some (Node (with_str (tstr t) (create STRING (tkline c) (tkcol c))) []))
                else fail_with "expected atom argument"
            end
  end.

Definition parse_atom_arg (fuel : nat) : M (option ast) := parse_atom_arg_at_depth fuel 0.

Definition is_trim_space (c : Z) : bool :=
  (c =? 32) || (c =? 9) || (c =? 10) || (c =? 13) || (c =? 12) || (c =? 11).

Fixpoint drop_space (l : list Z) : list Z :=
  match l with c :: l' => if is_trim_space c then drop_space l' else l | [] => [] end.

Definition trim_ascii_whitespace (l : list Z) : list Z := reverse (drop_space (reverse (drop_space l))).

(** The loop of valid_extension_name: (saw_dot, segment_has_char). *)
Fixpoint extension_scan (l : list Z) (saw_dot segment_has_char : bool) : bool :=
  match l with
  | [] => saw_dot && segment_has_char
  | c :: l' =>
      if isalnum c || (c =? chr "_") then extension_scan l' saw_dot true
      else if (c =? chr ".") && segment_has_char then extension_scan l' true false
      else false
  end.

Definition valid_extension_name (l : list Z) : bool := match l with [] => false | _ => extension_scan l false false end.

Definition parse_extension_call_after_lparen (fuel : nat) (line col : Z) : M (option ast) :=
  b ← parser_match TOK_STRING;
  if b : bool then
    t ← prev;
    let nm := trim_ascii_whitespace (tstr t) in
    if (255 <? List.length nm)%nat || negb (valid_extension_name nm) then
      fail_with "extension function name must be namespace.name using ASCII letters, digits, and underscores"
    else
      args ←? (b2 ← parser_check TOK_RPAREN;
               if b2 : bool then mret (Some [])
               else need parser_consume TOK_COMMA "expected ',' after extension function name";
                    items fuel (parse_atom_arg fuel));
      need parser_consume TOK_RPAREN "expected ')' after extension call";
      mret (Some (Node (with_name nm (create EXTENSION_CALL line col)) args))
  else fail_with "extension call requires a quoted function name as its first argument".

Definition parse_atom (fuel : nat) : M (option ast) :=
  t ← prev;
  need parser_consume TOK_LPAREN "expected '(' after relation name";
  args ←? opt_items fuel (parse_atom_arg fuel);
  need parser_consume TOK_RPAREN "expected ')' after arguments";
  mret (Some (Node (with_name (ttext t) (create ATOM (tkline t) (tkcol t))) args)).

(** ** Predicates *)

(** The marker after '@'; [bang] is "!" for a negated call. *)
Definition parse_call_marker (fuel : nat) (bang : string) (line col : Z) : M (option ast) :=
  need parser_consume TOK_IDENT ("expected 'call' after '" +:+ bang +:+ "@'");
  t ← prev;
  if negb (bool_decide (ttext t = bytes "call"))
  then fail_with ("expected '" +:+ bang +:+ "@call' extension marker")
  else
    need parser_consume TOK_LPAREN ("expected '(' after '" +:+ bang +:+ "@call'");
    parse_extension_call_after_lparen fuel line col.

(** The right-hand side of a comparison whose operator is the current token. *)
Definition parse_compare_rest (fuel : nat) (left : ast) : M (option ast) :=
  c ← cur;
  _ ← parser_advance;
  right ←? parse_arithmetic_expr fuel;
  mret (Some (Node (with_cmp (token_to_cmp_op (ttype c)) (create COMPARISON (tkline c) (tkcol c))) [left; right])).

Definition parse_comparison (fuel : nat) (msg : string) : M (option ast) :=
  left ←? parse_arithmetic_expr fuel;
  c ← cur;
  if negb (is_compare_op (ttype c)) then fail_with msg else parse_compare_rest fuel left.

Definition parse_negation (fuel : nat) (line col : Z) : M (option ast) :=
  atom ←? (b ← parser_match TOK_AT;
           if b : bool then parse_call_marker fuel "!" line col
           else need parser_consume TOK_IDENT "expected relation name after '!'"; parse_atom fuel);
  mret (Some (Node (create NEGATION line col) [atom])).

Definition parse_predicate (fuel : nat) : M (option ast) :=
  e ← had_error;
  if e : bool then mret None
  else
    c ← cur;
    b ← parser_match TOK_AT;
    if b : bool then parse_call_marker fuel "" (tkline c) (tkcol c)
    else
      b ← parser_match TOK_TRUE;
      if b : bool then mret (Some (Node (with_bool true (create BOOLEAN (tkline c) (tkcol c))) []))
      else
        b ← parser_match TOK_FALSE;
        if b : bool then mret (Some (Node (with_bool false (create BOOLEAN (tkline c) (tkcol c))) []))
        else
          b ← parser_match TOK_BANG;
          if b : bool then parse_negation fuel (tkline c) (tkcol c)
          else if bool_decide (ttype c = TOK_IDENT) then
            t ← peek_type;
            if bool_decide (t = TOK_LPAREN) then _ ← parser_advance; parse_atom fuel
            else parse_comparison fuel "expected comparison operator"
          else if is_bitwise_token (ttype c) then
            parse_comparison fuel "expected comparison operator after bitwise expression"
          else if bool_decide (ttype c = TOK_FLOAT) || bool_decide (ttype c = TOK_MINUS)
                  || bool_decide (ttype c = TOK_INTEGER) then
            parse_comparison fuel "expected comparison operator"
          else if is_string_fn_token (ttype c) then
            left ←? parse_arithmetic_expr fuel;
            c2 ← cur;
            if is_compare_op (ttype c2) then parse_compare_rest fuel left else mret (Some left)
          else fail_with "expected predicate".

(** ** Heads, facts and rules *)

Definition parse_head_arg (fuel : nat) : M (option ast) :=
  c ← cur;
  if is_aggregate_token (ttype c) then parse_aggregate_expr fuel
  else if bool_decide (ttype c = TOK_AT) then parse_predicate fuel
  else parse_arithmetic_expr fuel.

Definition parse_head (fuel : nat) : M (option ast) :=
  c ← cur;
  need parser_consume TOK_IDENT "expected relation name in head";
  t ← prev;
  need parser_consume TOK_LPAREN "expected '(' after head name";
  args ←? opt_items fuel (parse_head_arg fuel);
  need parser_consume TOK_RPAREN "expected ')' in head";
  mret (Some (Node (with_name (ttext t) (create HEAD (tkline c) (tkcol c))) args)).

Definition is_constant (a : ast) : bool :=
  match ntype (info_of a) with INTEGER | FLOAT | STRING => true | _ => false end.

Definition parse_fact (head : ast) : M (option ast) :=
  let 'Node i args := head in
  let fact := Node (Info FACT (nline i) (ncol i) (name i) 0 0 None false false CMP_EQ ADD AGG_COUNT FN_STRLEN None 0) args in
  if negb (forallb is_constant args) then fail_with "fact arguments must be constants (number or string)"
  else
    need parser_consume TOK_DOT "expected '.' at end of fact";
    mret (Some fact).

Definition parse_rule_or_fact (fuel : nat) : M (option ast) :=
  c ← cur;
  head ←? parse_head fuel;
  b ← parser_check TOK_DOT;
  if b : bool then parse_fact head
  else
    need parser_consume TOK_HORN "expected ':-' or '.' after head";
    preds ←? items fuel (parse_predicate fuel);
    need parser_consume TOK_DOT "expected '.' at end of rule";
    plan ← parser_match TOK_PLAN;
    mret (Some (Node (with_planning plan (create RULE (tkline c) (tkcol c))) (head :: preds))).

(** ** Declarations and directives *)

(** The loop over the attributes of a declaration. *)
Fixpoint decl_params (fuel : nat) (acc : list ast) : M (option (list ast)) :=
  match fuel with
  | O => out_of_fuel
  | Datatypes.S fuel' =>
      c ← cur;
      need parser_consume TOK_IDENT "expected attribute name";
      a ← prev;
      need parser_consume TOK_COLON "expected ':' after attribute name";
      ty ←? parse_declaration_type fuel';
      let param := Node (with_type ty (with_name (ttext a) (create TYPED_PARAM (tkline c) (tkcol c)))) [] in
      b ← parser_match TOK_COMMA;
      if b : bool then decl_params fuel' (acc ++ [param]) else mret (Some (acc ++ [param]))
  end.

Definition parse_declaration (fuel : nat) : M (option ast) :=
  d ← prev;
  need parser_consume TOK_IDENT "expected relation name after .decl";
  t ← prev;
  need parser_consume TOK_LPAREN "expected '(' after .decl name";
  ps ←? (b ← parser_check TOK_RPAREN; if b : bool then mret (Some []) else decl_params fuel []);
  need parser_consume TOK_RPAREN "expected ')' after .decl";
  mret (Some (Node (with_name (ttext t) (create DECL (tkline d) (tkcol d))) ps)).

(** The loop over key=value parameters of a directive. *)
Fixpoint kv_params (fuel : nat) (ty : node_type) (acc : list ast) : M (option (list ast)) :=
  match fuel with
  | O => out_of_fuel
  | Datatypes.S fuel' =>
      c ← cur;
      need parser_consume TOK_IDENT "expected parameter name";
      k ← prev;
      need parser_consume TOK_EQ "expected '=' after parameter name";
      need parser_consume TOK_STRING "expected string value";
      v ← prev;
      let param := Node (with_str (tstr v) (with_name (ttext k) (create ty (tkline c) (tkcol c)))) [] in
      b ← parser_match TOK_COMMA;
      if b : bool then kv_params fuel' ty (acc ++ [param]) else mret (Some (acc ++ [param]))
  end.

(** The parameters between the parentheses: a positional file name, key=value
    pairs, or the one before the others. *)
Definition io_params (fuel : nat) (ty : node_type) : M (option (list ast)) :=
  b ← parser_check TOK_RPAREN;
  if b : bool then mret (Some [])
  else
    c ← cur;
    if bool_decide (ttype c = TOK_STRING) then
      _ ← parser_advance;
      v ← prev;
      let param := Node (with_str (tstr v) (with_name (bytes "filename") (create ty (tkline c) (tkcol c)))) [] in
      m ← parser_match TOK_COMMA;
      if m : bool then
        r ← parser_check TOK_RPAREN;
        if r : bool then mret (Some [param]) else kv_params fuel ty [param]
      else mret (Some [param])
    else kv_params fuel ty [].

Definition parse_input_directive (fuel : nat) : M (option ast) :=
  d ← prev;
  need parser_consume TOK_IDENT "expected relation name after .input";
  t ← prev;
  need parser_consume TOK_LPAREN "expected '(' after .input name";
  ps ←? io_params fuel INPUT_PARAM;
  need parser_consume TOK_RPAREN "expected ')' after .input params";
  mret (Some (Node (with_name (ttext t) (create INPUT (tkline d) (tkcol d))) ps)).

Definition parse_output_directive (fuel : nat) : M (option ast) :=
  d ← prev;
  need parser_consume TOK_IDENT "expected relation name after .output";
  t ← prev;
  ps ←? (b ← parser_match TOK_LPAREN;
         if b : bool then
           ps ←? io_params fuel OUTPUT_PARAM;
           need parser_consume TOK_RPAREN "expected ')' after .output params";
           mret (Some ps)
         else mret (Some []));
  mret (Some (Node (with_name (ttext t) (create OUTPUT (tkline d) (tkcol d))) ps)).

Definition parse_printsize_directive : M (option ast) :=
  d ← prev;
  need parser_consume TOK_IDENT "expected relation name after .printsize";
  t ← prev;
  mret (Some (Node (with_name (ttext t) (create PRINTSIZE (tkline d) (tkcol d))) [])).

(** The loop over the adornments: (bound_mask, position). *)
Fixpoint adornments (fuel : nat) (mask position : Z) : M (option (Z * Z)) :=
  match fuel with
  | O => out_of_fuel
  | Datatypes.S fuel' =>
      need parser_consume TOK_IDENT "expected 'b' or 'f' adornment";
      if 64 <=? position then fail_with "maximum 64 adornments supported"
      else
        t ← prev;
        mask' ←? (if bool_decide (ttext t = bytes "b") then mret (Some (Z.lor mask (Z.shiftl 1 position)))
                  else if bool_decide (ttext t = bytes "f") then mret (Some mask)
                  else fail_with "adornment must be 'b' (bound) or 'f' (free)");
        b ← parser_match TOK_COMMA;
        if b : bool then adornments fuel' mask' (position + 1) else mret (Some (mask', position + 1))
  end.

Definition parse_query_directive (fuel : nat) : M (option ast) :=
  d ← prev;
  need parser_consume TOK_IDENT "expected relation name after .query";
  t ← prev;
  need parser_consume TOK_LPAREN "expected '(' after .query relation name";
  mp ←? (b ← parser_check TOK_RPAREN; if b : bool then mret (Some (0, 0)) else adornments fuel 0 0);
  need parser_consume TOK_RPAREN "expected ')' after .query adornments";
  need parser_consume TOK_DOT "expected '.' after .query directive";
  mret (Some (Node (with_arity mp.2 (with_int (i64 mp.1) (with_name (ttext t) (create QUERY (tkline d) (tkcol d))))) [])).

(** ** Programs *)

(** One round of the loop of parse_program. *)
Definition parse_item (fuel : nat) : M (option ast) :=
  b ← parser_match TOK_DECL;
  if b : bool then parse_declaration fuel
  else b ← parser_match TOK_INPUT;
  if b : bool then parse_input_directive fuel
  else b ← parser_match TOK_OUTPUT;
  if b : bool then parse_output_directive fuel
  else b ← parser_match TOK_PRINTSIZE;
  if b : bool then parse_printsize_directive
  else b ← parser_match TOK_QUERY;
  if b : bool then parse_query_directive fuel
  else b ← parser_check TOK_IDENT;
  if b : bool then parse_rule_or_fact fuel
  else fail_with "expected declaration, directive, or rule".

Fixpoint program_loop (fuel : nat) (acc : list ast) : M (option ast) :=
  match fuel with
  | O => out_of_fuel
  | Datatypes.S fuel' =>
      eof ← parser_check TOK_EOF;
      e ← had_error;
      if eof || e then
        if e : bool then mret None else mret (Some (Node (create PROGRAM 1 1) acc))
      else
        node ← parse_item fuel';
        match node with
        | Some n => program_loop fuel' (acc ++ [n])
        | None => e2 ← had_error; if e2 : bool then mret None else program_loop fuel' acc
        end
  end.

Definition parse_program (fuel : nat) : M (option ast) := program_loop fuel [].

(** wl_parser_parse_string over the stream [s]: the tree or NULL, and the
    error copied to error_buf. *)
Definition parse_stream (fuel : nat) (s : S) : option (option ast * option perror) :=
  '(_, p) ← parser_advance (P s zero_tok zero_tok None);
  '(r, p') ← parse_program fuel p;
  Some (r, err p').

End Parse.

(** wl_parser_parse_string; more fuel than the text has tokens. *)
Definition parse_fuel (src : list Z) : nat := 4 + List.length src.

Definition parse_string (strtod : list Z -> option (nat * Z * Z)) (src : list Z) :
    option (option ast * option perror) :=
  @parse_stream lexer (lexer_next strtod) (parse_fuel src) (lexer_init src).

(** ** Examples *)

Definition parse_text (s : string) : option (option ast * option perror) := parse_string no_strtod (bytes s).

(** The shape of a tree, for the examples. *)
Fixpoint outline (fuel : nat) (a : ast) : list (node_type * nat) :=
  match fuel with
  | O => []
  | Datatypes.S fuel' => let 'Node i cs := a in (ntype i, List.length cs) :: concat (outline fuel' <$> cs)
  end.

Example parse_rule :
  option_map (fun r => option_map (outline 9) r.1) (parse_text "r(x, sum(y*2+1)) :- e(x, f(_, -3)), !n(x), y > band(x, 7). .plan") =
  Some (Some [(PROGRAM, 1%nat); (RULE, 4%nat); (HEAD, 2%nat); (VARIABLE, 0%nat); (AGGREGATE, 1%nat);
    (BINARY_EXPR, 2%nat); (BINARY_EXPR, 2%nat); (VARIABLE, 0%nat); (INTEGER, 0%nat); (INTEGER, 0%nat);
    (ATOM, 2%nat); (VARIABLE, 0%nat); (COMPOUND_TERM, 2%nat); (WILDCARD, 0%nat); (INTEGER, 0%nat);
    (NEGATION, 1%nat); (ATOM, 1%nat); (VARIABLE, 0%nat); (COMPARISON, 2%nat); (VARIABLE, 0%nat);
    (BINARY_EXPR, 2%nat); (VARIABLE, 0%nat); (INTEGER, 0%nat)]).
Proof. by vm_compute. Qed.

Example parse_error_position :
  option_map snd (parse_text "p(x) :- q(x)") = Some (Some (PError 1 13 "expected '.' at end of rule" TOK_EOF)).
Proof. by vm_compute. Qed.

End Parser.
