(* ===== verification/ParserProof.v ===== *)
(** * The parser terminates, reports every failure and builds well-typed trees

    Proofs about [Parser], against the stream interface [LawfulStream], which
    the lexer and lists of tokens implement. *)

From S2P Require Import Prelude Lexer LexerProof Parser.

Import Lexer LexerProof Parser.

(** ** The stream interface *)

(** What the parser relies on: a stream always has a next token, every token but
    the end of input uses up some of it, and what [t_ok] says of tokens, among
    it that the magnitude of a literal is not negative. *)
Class LawfulStream (S : Type) `{!TokenStream S} := {
  s_ok : S -> Prop;
  s_left : S -> nat;
  t_ok : tok -> Prop;
  t_magnitude : forall t, t_ok t -> 0 <= tuint t;
  next_lawful : forall s, s_ok s -> exists t s', next s = Some (t, s') /\ s_ok s' /\ t_ok t /\
    (s_left s' <= s_left s)%nat /\ (ttype t <> TOK_EOF -> (s_left s' < s_left s)%nat) }.

(** ** The shape of trees *)

(** The number of operands of an operator. *)
Definition arity_of (op : arith_op) : nat :=
  match op with
  | UUID4 => 0
  | BNOT | HASH | CRC32_ETH | CRC32_CAST | MD5 | SHA1 | SHA256 | SHA512 => 1
  | _ => 2
  end.

Definition is_additive (op : arith_op) : bool := match op with ADD | SUB => true | _ => false end.
Definition is_multiplicative (op : arith_op) : bool := match op with MUL | DIV | MOD => true | _ => false end.

Definition int64_ok (v : Z) : bool := bool_decide (is_int64 v).

(** An expression of level 0 (sum), 1 (product) or 2 (factor): sums are chains
    of products to the left, products chains of factors to the left, and every
    operator has its number of operands. *)
Fixpoint expr_at (lvl : nat) (a : ast) : bool :=
  let 'Node i cs := a in
  match ntype i with
  | VARIABLE => bool_decide (name i <> None) && bool_decide (cs = [])
  | INTEGER => int64_ok (ival i) && bool_decide (cs = [])
  | FLOAT => bits_finite (fval i) && bool_decide (cs = [])
  | STRING => bool_decide (sval i <> None) && bool_decide (cs = [])
  | BINARY_EXPR =>
      if is_additive (arith i) then
        match cs with [l; r] => (lvl =? 0)%nat && expr_at 0 l && expr_at 1 r | _ => false end
      else if is_multiplicative (arith i) then
        match cs with [l; r] => (lvl <=? 1)%nat && expr_at 1 l && expr_at 2 r | _ => false end
      else (List.length cs =? arity_of (arith i))%nat && forallb (expr_at 0) cs
  | STR_FUNCTION =>
      forallb (expr_at 0) cs && (negb (bool_decide (strf i = FN_UUID5_RFC)) || (List.length cs =? 2)%nat)
  | _ => false
  end.

(** The nesting of compound terms. *)
Fixpoint term_depth (a : ast) : nat :=
  let 'Node i cs := a in
  match ntype i with COMPOUND_TERM => S (foldr (fun c n => Nat.max (term_depth c) n) 0 cs)%nat | _ => 0%nat end.

(** An argument of an atom. *)
Fixpoint is_term (a : ast) : bool :=
  let 'Node i cs := a in
  match ntype i with
  | VARIABLE => bool_decide (name i <> None) && bool_decide (cs = [])
  | WILDCARD => bool_decide (cs = [])
  | INTEGER => int64_ok (ival i) && bool_decide (cs = [])
  | FLOAT => bits_finite (fval i) && bool_decide (cs = [])
  | STRING => bool_decide (sval i <> None) && bool_decide (cs = [])
  | COMPOUND_TERM => bool_decide (name i <> None) && negb (bool_decide (cs = [])) && forallb is_term cs
  | _ => false
  end.

Definition arg_ok (a : ast) : Prop := is_term a = true /\ (term_depth a <= 64)%nat.
Definition expr_ok (a : ast) : Prop := expr_at 0 a = true.

Definition node_is (ty : node_type) (a : ast) : Prop := ntype (info_of a) = ty.
Definition named (a : ast) : Prop := is_Some (name (info_of a)).

Definition atom_ok (a : ast) : Prop := node_is ATOM a /\ named a /\ Forall arg_ok (children a).
Definition call_ok (a : ast) : Prop :=
  node_is EXTENSION_CALL a /\ Forall arg_ok (children a) /\
  exists n, name (info_of a) = Some n /\ valid_extension_name n = true /\ (List.length n <= 255)%nat.

(** What an expression starts with. *)
Fixpoint leftmost (a : ast) : node_type :=
  let 'Node i cs := a in
  match ntype i, cs with
  | BINARY_EXPR, l :: _ => if is_additive (arith i) || is_multiplicative (arith i) then leftmost l else BINARY_EXPR
  | ty, _ => ty
  end.

Inductive pred_ok : ast -> Prop :=
| pred_atom a : atom_ok a -> pred_ok a
| pred_call a : call_ok a -> pred_ok a
| pred_neg i a : ntype i = NEGATION -> atom_ok a \/ call_ok a -> pred_ok (Node i [a])
| pred_bool i : ntype i = BOOLEAN -> pred_ok (Node i [])
| pred_cmp i l r : ntype i = COMPARISON -> expr_ok l -> expr_ok r -> pred_ok (Node i [l; r])
| pred_string a : expr_ok a -> pred_ok a.

Inductive head_arg_ok : ast -> Prop :=
| head_agg i a : ntype i = AGGREGATE -> expr_ok a -> head_arg_ok (Node i [a])
| head_call a : call_ok a -> head_arg_ok a
| head_expr a : expr_ok a -> head_arg_ok a.

Definition head_ok (a : ast) : Prop := node_is HEAD a /\ named a /\ Forall head_arg_ok (children a).

(** Declared types: a scalar, or a compound with its arity, slot types and
    modifier. *)
Inductive type_ok : list Z -> Prop :=
| type_scalar ty nm : (ty, nm) ∈ scalar_types -> type_ok (bytes nm)
| type_compound f arity slots m :
    1 <= arity <= UINT32_MAX -> (m = Some "inline" -> arity <= 4) -> m ∈ [None; Some "inline"; Some "side"] ->
    (slots = [] \/ Z.of_nat (List.length slots) = arity /\ arity <= 4) ->
    Forall (fun s => s ∈ scalar_types.*2) slots ->
    type_ok (f ++ bytes "/" ++ decimal_u32 arity ++ slots_buf slots ++
             match m with Some m => bytes " " ++ bytes m | None => [] end).

Definition param_ok (a : ast) : Prop :=
  node_is TYPED_PARAM a /\ named a /\ children a = [] /\ exists t, type_name (info_of a) = Some t /\ type_ok t.
Definition io_param_ok (ty : node_type) (a : ast) : Prop :=
  node_is ty a /\ named a /\ is_Some (sval (info_of a)) /\ children a = [].

Inductive item_ok : ast -> Prop :=
| item_decl a : node_is DECL a -> named a -> Forall param_ok (children a) -> item_ok a
| item_input a : node_is INPUT a -> named a -> Forall (io_param_ok INPUT_PARAM) (children a) -> item_ok a
| item_output a : node_is OUTPUT a -> named a -> Forall (io_param_ok OUTPUT_PARAM) (children a) -> item_ok a
| item_printsize a : node_is PRINTSIZE a -> named a -> children a = [] -> item_ok a
| item_query a : node_is QUERY a -> named a -> children a = [] ->
    0 <= query_arity (info_of a) <= 64 -> 0 <= u64 (ival (info_of a)) < 2 ^ query_arity (info_of a) -> item_ok a
| item_fact a : node_is FACT a -> named a -> Forall (fun c => head_arg_ok c /\ is_constant c = true) (children a) -> item_ok a
| item_rule i h ps : ntype i = RULE -> head_ok h -> ps <> [] -> Forall pred_ok ps -> item_ok (Node i (h :: ps)).

Definition program_ok (a : ast) : Prop := node_is PROGRAM a /\ Forall item_ok (children a).

(** ** Computations *)

Section Spec.
Context {S : Type} `{LawfulStream S}.
Implicit Types p : parser S.

Definition left_of p : nat :=
  (s_left (stream p) + (if bool_decide (ttype (current p) = TOK_EOF) then 0 else 1))%nat.

(** An error is at a token of the stream. *)
Definition e_ok (e : perror) : Prop :=
  exists t, t_ok t /\ e_line e = tkline t /\ e_col e = tkcol t /\ e_type e = ttype t.

(** The state before and after the first token is read. *)
Definition p_pre p : Prop := s_ok (stream p) /\ 0 <= tuint (current p) /\ forall e, err p = Some e -> e_ok e.

Definition p_ok p : Prop :=
  s_ok (stream p) /\ t_ok (current p) /\ 0 <= tuint (previous p) /\ forall e, err p = Some e -> e_ok e.

Lemma p_ok_pre p : p_ok p -> p_pre p.
Proof. intros (Hs & Ht & _ & He). split; [done|]. split; [by apply t_magnitude|done]. Qed.

(** The state [p'] comes after [p]: input may have been used up, and the first
    error stays. *)
Record ext p p' : Prop := {
  x_ok : p_ok p';
  x_left : (left_of p' <= left_of p)%nat;
  x_err : forall e, err p = Some e -> err p' = Some e }.

Lemma ext_refl p : p_ok p -> ext p p.
Proof. by split. Qed.

Lemma ext_trans p1 p2 p3 : ext p1 p2 -> ext p2 p3 -> ext p1 p3.
Proof. intros [H1 H2 H3] [K1 K2 K3]. split; [done|lia|auto]. Qed.

(** From [p], the computation ends after [p0], with a result that satisfies [G]
    and less than [n] of the input left, or with NULL and an error. *)
Definition yields {A} p0 (n : nat) (G : A -> Prop) (m : M (S := S) (option A)) p : Prop :=
  exists r p', m p = Some (r, p') /\ ext p0 p' /\
    match r with Some x => G x /\ (left_of p' < n)%nat | None => is_Some (err p') end.

Lemma yields_ret {A} p0 n (G : A -> Prop) x p : ext p0 p -> G x -> (left_of p < n)%nat -> yields p0 n G (mret (Some x)) p.
Proof. intros. by exists (Some x), p. Qed.

Lemma yields_null {A} p0 n (G : A -> Prop) p : ext p0 p -> is_Some (err p) -> yields p0 n G (mret None) p.
Proof. intros. by exists None, p. Qed.

Lemma yields_bind {A B} p0 n (G : A -> Prop) n1 (G1 : B -> Prop) (m : M (option B)) (k : B -> M (option A)) p :
  ext p0 p -> yields p n1 G1 m p ->
  (forall x p', ext p0 p' -> ext p p' -> (left_of p' < n1)%nat -> G1 x -> yields p0 n G (k x) p') ->
  yields p0 n G (mbind (fun o => match o with Some x => k x | None => mret None end) m) p.
Proof.
  intros H0 (r & p' & Hm & He & Hr) Hk. unfold yields, mbind, M_bind. rewrite Hm.
  pose proof (ext_trans _ _ _ H0 He) as H0'. destruct r as [x|].
  - destruct Hr as [HG Hl]. by apply Hk.
  - exists None, p'. done.
Qed.

Lemma yields_weaken {A} p0 n n' (G G' : A -> Prop) m p :
  yields p0 n G m p -> (n <= n')%nat -> (forall x, G x -> G' x) -> yields p0 n' G' m p.
Proof. intros (r & p' & Hm & He & Hr) Hn HG. exists r, p'. split; [done|]. split; [done|]. destruct r; [|done]. destruct Hr. split; [by apply HG|lia]. Qed.

(** A call whose result is returned. *)
Lemma yields_tail {A} p0 n n' (G G' : A -> Prop) m p :
  ext p0 p -> yields p n' G' m p -> (n' <= n)%nat -> (forall x, G' x -> G x) -> yields p0 n G m p.
Proof.
  intros H0 (r & p' & Hm & He & Hr) Hn HG. exists r, p'. split; [done|]. split; [by eapply ext_trans|].
  destruct r; [|done]. destruct Hr. split; [by apply HG|lia].
Qed.

(** *** Primitives *)

Lemma error_ext msg p p' : p_ok p -> parser_error msg p = Some (tt, p') -> ext p p' /\ is_Some (err p') /\
  previous p' = previous p /\ current p' = current p.
Proof.
  intros Hok Hm. unfold parser_error in Hm. destruct (err p) as [e|] eqn:He; simplify_eq.
  - split; [by apply ext_refl|]. split; [by eexists|done].
  - split; [|done]. destruct Hok as (Hs & Ht & Hp & _). split; [|done|intros e He'; congruence].
    split_and!; [done..|]. cbn. intros e [= <-]. by exists (current p).
Qed.

Lemma error_total msg p : exists p', parser_error msg p = Some (tt, p').
Proof. unfold parser_error. destruct (err p); by eexists. Qed.

Lemma yields_fail {A} p0 n (G : A -> Prop) msg p : ext p0 p -> yields p0 n G (fail_with msg) p.
Proof.
  intros He. destruct (error_total msg p) as [p' Hp]. destruct (error_ext _ _ _ (x_ok _ _ He) Hp) as (He' & Herr & _).
  exists None, p'. unfold fail_with, mbind, M_bind. rewrite Hp. split; [done|]. split; [by eapply ext_trans|done].
Qed.

Lemma advance_ext p : p_pre p -> exists p', parser_advance p = Some (tt, p') /\ ext p p' /\ previous p' = current p /\
  (ttype (current p) <> TOK_EOF -> (left_of p' < left_of p)%nat).
Proof.
  intros (Hs & Hc & Her). destruct (next_lawful _ Hs) as (t & s' & Hn & Hs' & Ht & Hle & Hlt).
  unfold parser_advance. rewrite Hn. cbn [mbind option_bind].
  set (p1 := P s' t (current p) (err p)).
  assert (Hok1 : p_ok p1) by done.
  assert (Hl : (left_of p1 <= s_left (stream p))%nat).
  { unfold left_of, p1. cbn. case_bool_decide; [lia|]. specialize (Hlt ltac:(done)). lia. }
  assert (He1 : ext p p1).
  { split; [done| |done]. unfold left_of at 2. case_bool_decide; lia. }
  assert (Hst : ttype (current p) <> TOK_EOF -> (left_of p1 < left_of p)%nat).
  { intros Hne. unfold left_of at 2. rewrite bool_decide_false by done. lia. }
  case_bool_decide as Herr.
  - destruct (error_total (tmsg t) p1) as [p' Hp']. destruct (error_ext _ _ _ Hok1 Hp') as (He & _ & Hpr & _).
    exists p'. split; [done|]. split; [by eapply ext_trans|]. split; [done|]. intros Hne. pose proof (x_left _ _ He).
    specialize (Hst Hne). lia.
  - by exists p1.
Qed.

(** Rules for sequencing. *)
Lemma yields_advance {A} p0 n (G : A -> Prop) (k : unit -> M (option A)) p :
  ext p0 p -> (forall p', ext p0 p' -> ext p p' -> previous p' = current p ->
    (ttype (current p) <> TOK_EOF -> (left_of p' < left_of p)%nat) -> yields p0 n G (k tt) p') ->
  yields p0 n G (mbind k parser_advance) p.
Proof.
  intros He Hk. destruct (advance_ext p (p_ok_pre _ (x_ok _ _ He))) as (p' & Hp & He' & Hpr & Hl).
  unfold yields, mbind, M_bind. rewrite Hp. apply Hk; [by eapply ext_trans|done..].
Qed.

Lemma yields_consume {A} p0 n (G : A -> Prop) ty msg (k : M (option A)) p :
  ty <> TOK_EOF -> ext p0 p -> (forall p', ext p0 p' -> ext p p' -> previous p' = current p -> ttype (current p) = ty ->
    (left_of p' < left_of p)%nat -> yields p0 n G k p') ->
  yields p0 n G (mbind (fun b : bool => if b then k else mret None) (parser_consume ty msg)) p.
Proof.
  intros Hty He Hk. unfold yields, parser_consume, parser_check, cur, mbind, mret, M_bind, M_ret.
  case_bool_decide as Hc.
  - destruct (advance_ext p (p_ok_pre _ (x_ok _ _ He))) as (p' & Hp & He' & Hpr & Hl). rewrite Hp.
    apply Hk; [by eapply ext_trans|done|done|done|]. apply Hl. congruence.
  - destruct (error_total msg p) as [p' Hp]. rewrite Hp.
    destruct (error_ext _ _ _ (x_ok _ _ He) Hp) as (He' & Herr & _). exists None, p'. split; [done|].
    split; [by eapply ext_trans|done].
Qed.

Lemma yields_match {A} p0 n (G : A -> Prop) ty (kt kf : M (option A)) p :
  ty <> TOK_EOF -> ext p0 p ->
  (forall p', ext p0 p' -> ext p p' -> previous p' = current p -> ttype (current p) = ty ->
    (left_of p' < left_of p)%nat -> yields p0 n G kt p') ->
  (ttype (current p) <> ty -> yields p0 n G kf p) ->
  yields p0 n G (mbind (fun b : bool => if b then kt else kf) (parser_match ty)) p.
Proof.
  intros Hty He Hk Hf. unfold yields, parser_match, parser_check, cur, mbind, mret, M_bind, M_ret.
  case_bool_decide as Hc.
  - destruct (advance_ext p (p_ok_pre _ (x_ok _ _ He))) as (p' & Hp & He' & Hpr & Hl). rewrite Hp.
    apply Hk; [by eapply ext_trans|done|done|done|]. apply Hl. congruence.
  - by apply Hf.
Qed.

Lemma yields_flag {A} p0 n (G : A -> Prop) ty (k : bool -> M (option A)) p :
  ty <> TOK_EOF -> ext p0 p -> (forall b p', ext p0 p' -> ext p p' -> yields p0 n G (k b) p') ->
  yields p0 n G (mbind k (parser_match ty)) p.
Proof.
  intros Hty He Hk. unfold yields, parser_match, parser_check, cur, mbind, mret, M_bind, M_ret. case_bool_decide as Hc.
  - destruct (advance_ext p (p_ok_pre _ (x_ok _ _ He))) as (p' & Hp & He' & _). rewrite Hp. apply Hk; [by eapply ext_trans|done].
  - apply Hk; [done|]. apply ext_refl, (x_ok _ _ He).
Qed.

Lemma yields_check {A} p0 n (G : A -> Prop) ty (kt kf : M (option A)) p :
  (ttype (current p) = ty -> yields p0 n G kt p) -> (ttype (current p) <> ty -> yields p0 n G kf p) ->
  yields p0 n G (mbind (fun b : bool => if b then kt else kf) (parser_check ty)) p.
Proof.
  intros Ht Hf. unfold yields, parser_check, cur, mbind, mret, M_bind, M_ret. case_bool_decide; [by apply Ht|by apply Hf].
Qed.

Lemma yields_peek {A} p0 n (G : A -> Prop) (k : token_type -> M (option A)) p :
  ext p0 p -> (forall ty, yields p0 n G (k ty) p) -> yields p0 n G (mbind k peek_type) p.
Proof.
  intros He Hk. destruct (x_ok _ _ He) as (Hs & _). destruct (next_lawful _ Hs) as (t & s' & Hn & _).
  unfold yields, peek_type, mbind, M_bind. rewrite Hn. cbn. apply Hk.
Qed.

Lemma yields_error_check {A} p0 n (G : A -> Prop) (k : M (option A)) p :
  ext p0 p -> (err p = None -> yields p0 n G k p) ->
  yields p0 n G (mbind (fun e : bool => if e then mret None else k) had_error) p.
Proof.
  intros He Hk. unfold had_error. destruct (err p) as [e|] eqn:Herr.
  - exists None, p. unfold mbind, M_bind. rewrite Herr. done.
  - unfold yields, mbind, M_bind. rewrite Herr. by apply Hk.
Qed.

Lemma yields_cur {A} p0 n (G : A -> Prop) (k : tok -> M (option A)) p :
  yields p0 n G (k (current p)) p -> yields p0 n G (mbind k cur) p.
Proof. done. Qed.

Lemma yields_prev {A} p0 n (G : A -> Prop) (k : tok -> M (option A)) p :
  yields p0 n G (k (previous p)) p -> yields p0 n G (mbind k prev) p.
Proof. done. Qed.

End Spec.

(** [pstep] runs one primitive; [pgo] runs until a choice or a call. *)
Ltac pstep :=
  lazymatch goal with
  | |- yields _ _ _ (mbind _ cur) _ => apply yields_cur; cbv beta
  | |- yields _ _ _ (mbind _ prev) _ => apply yields_prev; cbv beta
  | |- yields _ _ _ (mbind _ had_error) _ =>
      apply yields_error_check; [assumption|let H := fresh "Hnoerr" in intros H]
  | |- yields _ _ _ (fail_with _) _ => apply yields_fail; assumption
  | |- yields _ _ _ (mbind _ (parser_consume _ _)) _ =>
      apply yields_consume; [discriminate|assumption|
        let p := fresh "p" in let H0 := fresh "H0" in let He := fresh "He" in let Hpr := fresh "Hpr" in
        let Hty := fresh "Hty" in let Hl := fresh "Hl" in intros p H0 He Hpr Hty Hl]
  | |- yields _ _ _ (mbind _ (parser_match _)) _ =>
      apply yields_match; [discriminate|assumption|
        let p := fresh "p" in let H0 := fresh "H0" in let He := fresh "He" in let Hpr := fresh "Hpr" in
        let Hty := fresh "Hty" in let Hl := fresh "Hl" in intros p H0 He Hpr Hty Hl
        |let Hty := fresh "Hnty" in intros Hty]
  | |- yields _ _ _ (mbind _ (parser_check _)) _ =>
      apply yields_check; [let Hty := fresh "Hty" in intros Hty|let Hty := fresh "Hnty" in intros Hty]
  | |- yields _ _ _ (mbind _ peek_type) _ => apply yields_peek; [assumption|let t := fresh "t" in intros t]
  | |- yields _ _ _ (mbind _ parser_advance) _ =>
      apply yields_advance; [assumption|
        let p := fresh "p" in let H0 := fresh "H0" in let He := fresh "He" in let Hpr := fresh "Hpr" in
        let Hl := fresh "Hl" in intros p H0 He Hpr Hl; cbv beta]
  end.

(** A call whose specification is [L]. *)
Ltac pcall L :=
  eapply yields_bind; [eassumption|L|
    let x := fresh "x" in let p := fresh "p" in let H0 := fresh "H0" in let He := fresh "He" in
    let Hl := fresh "Hl" in let HG := fresh "HG" in intros x p H0 He Hl HG; cbv beta].

Section Functions.
Context {S : Type} `{LawfulStream S}.
Implicit Types p : parser S.

Lemma ext_ok p p' : ext p p' -> p_ok p'.
Proof. apply x_ok. Qed.

(** *** Literals *)

Definition literal_ok (a : ast) : Prop :=
  match a with
  | Node i [] =>
      match ntype i with INTEGER => int64_ok (ival i) = true | FLOAT => bits_finite (fval i) = true | _ => False end
  | _ => False
  end.

Lemma magnitude_ok neg line col p0 p n : ext p0 p -> (left_of p <= n)%nat ->
  yields p0 n literal_ok (parse_magnitude neg line col) p.
Proof.
  intros H0 Hn. unfold parse_magnitude. pstep. pstep. cbv zeta.
  assert (Ht : 0 <= tuint (previous p1)) by apply (ext_ok _ _ He).
  destruct neg.
  - destruct (Z.ltb_spec (INT64_MAX + 1) (tuint (previous p1))); [pstep|].
    apply yields_ret; [done| |lia]. cbn. apply bool_decide_eq_true.
    destruct (Z.eqb_spec (tuint (previous p1)) (INT64_MAX + 1)); mi.
  - destruct (Z.ltb_spec INT64_MAX (tuint (previous p1))); [pstep|].
    apply yields_ret; [done| |lia]. cbn. apply bool_decide_eq_true. mi.
Qed.

Lemma integer_literal_ok p : p_ok p -> yields p (left_of p) literal_ok parse_integer_literal p.
Proof.
  intros Hok. pose proof (ext_refl p Hok) as H0. unfold parse_integer_literal. do 2 pstep.
  - pstep. pstep; [|pstep]. pstep. destruct (tokens_are_adjacent _ _); cbn [negb]; [|pstep].
    apply magnitude_ok; [done|lia].
  - by apply magnitude_ok.
Qed.

Lemma float_literal_ok p : p_ok p -> yields p (left_of p) literal_ok parse_float_literal p.
Proof.
  intros Hok. pose proof (ext_refl p Hok) as H0. unfold parse_float_literal. pstep.
  apply yields_flag; [done..|]. intros neg p1 H1 _. pose proof (x_left _ _ H1). pstep. pstep. cbv zeta.
  set (v := if neg then _ else _). destruct (bits_finite v) eqn:Hf; cbn [negb]; [|pstep].
  apply yields_ret; [done| |lia]. cbn. destruct (bits_zero v); done.
Qed.

Lemma number_cases p : p_ok p ->
  (exists m, yields p (left_of p) literal_ok m p /\ parse_number p = mbind (fun r => mret (Some r)) m p) \/
  parse_number p = Some (None, p).
Proof.
  intros Hok. destruct (next_lawful _ (proj1 Hok)) as (t & s' & Hn & _).
  assert (Hpk : peek_type p = Some (ttype t, p)) by (unfold peek_type; by rewrite Hn).
  pose proof (float_literal_ok p Hok) as Hf. pose proof (integer_literal_ok p Hok) as Hi.
  unfold parse_number, mbind, mret, M_bind, M_ret, cur.
  destruct (bool_decide (ttype (current p) = TOK_FLOAT)); [left; eexists; split; [exact Hf|done]|].
  destruct (bool_decide (ttype (current p) = TOK_MINUS)); [rewrite orb_true_r|rewrite orb_false_r].
  - rewrite Hpk. case_bool_decide; left; eexists; [split; [exact Hf|done]|split; [exact Hi|done]].
  - destruct (bool_decide (ttype (current p) = TOK_INTEGER)); [left; eexists; split; [exact Hi|done]|by right].
Qed.

Lemma yields_number p0 n (G : ast -> Prop) k p : ext p0 p -> (left_of p <= n)%nat ->
  (forall a, literal_ok a -> G a) -> yields p0 n G k p ->
  yields p0 n G (mbind (fun num => match num with Some r => mret r | None => k end) parse_number) p.
Proof.
  intros H0 Hn HG Hk. pose proof (ext_ok _ _ H0) as Hok.
  destruct (number_cases p Hok) as [(m & (r & p' & Hm & He & Hr) & Heq)|Heq];
    unfold yields, mbind at 1, M_bind at 1; rewrite Heq; [|exact Hk].
  unfold mbind, mret, M_bind, M_ret. rewrite Hm. exists r, p'. split; [done|].
  split; [by eapply ext_trans|]. destruct r; [|done]. destruct Hr. split; [by apply HG|lia].
Qed.

(** *** Lists *)

Section Lists.
Context (G : ast -> Prop) (item : M (S := S) (option ast)) (N : nat).
Hypothesis Hitem : forall p, p_ok p -> (left_of p <= N)%nat -> yields p (left_of p) G item p.

Lemma comma_list_ok fuel acc p : p_ok p -> (left_of p < fuel)%nat -> (left_of p <= N)%nat -> Forall G acc ->
  yields p (Datatypes.S (left_of p)) (fun l => Forall G l /\ acc `prefix_of` l) (comma_list fuel item acc) p.
Proof.
  revert acc p. induction fuel as [|fuel IH]; intros acc p Hok Hf HN Hacc; [lia|]. cbn [comma_list].
  pose proof (ext_refl p Hok) as H0. pstep.
  - pcall ltac:(apply Hitem; [by eapply ext_ok|lia]).
    eapply yields_tail; [done|apply (IH (acc ++ [x])); [by eapply ext_ok|lia|lia|by apply Forall_app; auto]|lia|].
    intros l [Hl' Hp]. split; [done|]. eapply prefix_app_l. exact Hp.
  - apply yields_ret; [done|done|lia].
Qed.

Lemma items_ok fuel p : p_ok p -> (left_of p <= fuel)%nat -> (left_of p <= N)%nat ->
  yields p (left_of p) (fun l => Forall G l /\ l <> []) (items fuel item) p.
Proof.
  intros Hok Hf HN. pose proof (ext_refl p Hok) as H0. unfold items.
  pcall ltac:(apply Hitem; [done|lia]).
  eapply yields_tail; [done|apply comma_list_ok; [by eapply ext_ok|lia|lia|by constructor]|lia|].
  intros l [Hr [k ->]]. done.
Qed.

Lemma opt_items_ok fuel p : p_ok p -> (left_of p <= fuel)%nat -> (left_of p <= N)%nat ->
  yields p (Datatypes.S (left_of p)) (Forall G) (opt_items fuel item) p.
Proof.
  intros Hok Hf HN. pose proof (ext_refl p Hok) as H0. unfold opt_items. pstep.
  - apply yields_ret; [done|constructor|lia].
  - eapply yields_weaken; [by apply items_ok|lia|]. by intros l [? _].
Qed.
End Lists.

(** *** Expressions *)

Lemma literal_expr lvl a : literal_ok a -> expr_at lvl a = true.
Proof.
  destruct a as [i [|]]; cbn; [|done]. by destruct (ntype i); try done; intros ->.
Qed.

Lemma expr_lower lvl a : expr_at (Datatypes.S lvl) a = true -> expr_at lvl a = true.
Proof.
  destruct a as [i cs]. cbn. destruct (ntype i); try done.
  destruct (is_additive _); [destruct cs as [|? [|? [|]]]; done|].
  destruct (is_multiplicative _); [|done].
  destruct cs as [|l [|r [|]]]; try done. rewrite !andb_true_iff, !Nat.leb_le. intuition lia.
Qed.

Section Factor.
Context (fuel N : nat) (expr : M (S := S) (option ast)).
Hypothesis Hexpr : forall p, p_ok p -> (left_of p < N)%nat -> yields p (left_of p) expr_ok expr p.
Hypothesis HN : (N <= fuel)%nat.

Lemma string_fn_ok p : p_ok p -> (left_of p <= N)%nat -> is_string_fn_token (ttype (current p)) = true ->
  yields p (left_of p) (fun a => expr_at 2 a = true) (parse_string_fn_expr fuel expr) p.
Proof.
  intros Hok Hl Hty. pose proof (ext_refl p Hok) as H0. unfold parse_string_fn_expr. pstep. cbv zeta. pstep.
  assert (Hne : ttype (current p) <> TOK_EOF) by (intros Heq; by rewrite Heq in Hty). specialize (Hl0 Hne).
  pstep. pcall ltac:(eapply (opt_items_ok expr_ok expr (pred N)); [intros; apply Hexpr; [done|lia]|by eapply ext_ok|lia|lia]).
  pstep. set (fn := token_to_str_fn _). destruct (bool_decide (fn = FN_UUID5_RFC) && _) eqn:Hb; [pstep|].
  apply yields_ret; [done| |lia]. cbn. apply andb_true_iff. split.
  - apply forallb_forall. intros y Hy. rewrite List.Forall_forall in HG. by apply HG.
  - apply andb_false_iff in Hb as [->|Hb]; [done|]. apply negb_false_iff in Hb. by rewrite Hb, orb_true_r.
Qed.

Lemma call_args_ok n first msg p : p_ok p -> (left_of p < N)%nat ->
  yields p (Datatypes.S (left_of p)) (fun l => Forall expr_ok l /\ List.length l = n) (call_args expr n first msg) p.
Proof.
  revert first p. induction n as [|n IH]; intros first p Hok Hl; cbn [call_args]; pose proof (ext_refl p Hok) as H0.
  { apply yields_ret; [done|done|lia]. }
  assert (Hrest : forall p1, ext p p1 -> yields p (Datatypes.S (left_of p)) (fun l => Forall expr_ok l /\ List.length l = Datatypes.S n)
    (mbind (fun o => match o with Some x =>
       mbind (fun o => match o with Some xs => mret (Some (x :: xs)) | None => mret None end) (call_args expr n false msg)
       | None => mret None end) expr) p1).
  { intros p1 H1. pose proof (x_left _ _ H1). pcall ltac:(apply Hexpr; [by eapply ext_ok|lia]).
    pcall ltac:(apply (IH false); [by eapply ext_ok|lia]).
    apply yields_ret; [done| |lia]. destruct HG0 as [Hf Hlen]. split; [by constructor|]. cbn. by f_equal. }
  destruct first; [by apply Hrest|]. pstep. by apply Hrest.
Qed.

Lemma call_op_arity ty op n what : call_op ty = Some (op, n, what) ->
  arity_of op = n /\ is_additive op = false /\ is_multiplicative op = false /\ ty <> TOK_EOF.
Proof. destruct ty; cbn; intros; simplify_eq; done. Qed.

Lemma call_ok' op n what p : p_ok p -> (left_of p <= N)%nat -> call_op (ttype (current p)) = Some (op, n, what) ->
  yields p (left_of p) (fun a => expr_at 2 a = true) (parse_call expr op n what) p.
Proof.
  intros Hok Hl Hop. destruct (call_op_arity _ _ _ _ Hop) as (Har & Hadd & Hmul & Hne).
  pose proof (ext_refl p Hok) as H0. unfold parse_call. pstep. pstep. specialize (Hl0 Hne). pstep.
  pcall ltac:(apply call_args_ok; [by eapply ext_ok|lia]). pstep.
  apply yields_ret; [done| |lia]. destruct HG as [Hf Hlen]. cbn. rewrite Hadd, Hmul, Har, Hlen, Nat.eqb_refl. cbn.
  apply forallb_forall. intros y Hy. rewrite List.Forall_forall in Hf. by apply Hf.
Qed.

Lemma factor_ok p : p_ok p -> (left_of p <= N)%nat ->
  yields p (left_of p) (fun a => expr_at 2 a = true) (parse_factor fuel expr) p.
Proof.
  intros Hok Hl. pose proof (ext_refl p Hok) as H0. unfold parse_factor. pstep. pstep. pstep.
  - pstep. apply yields_ret; [done| |lia]. cbn. done.
  - apply yields_number; [done|lia|intros; by apply literal_expr|]. pstep.
    + pstep. apply yields_ret; [done| |lia]. cbn. done.
    + destruct (call_op (ttype (current p))) as [[[op n] what]|] eqn:Hop; [by apply call_ok'|].
      destruct (is_string_fn_token (ttype (current p))) eqn:Hs; [by apply string_fn_ok|pstep].
Qed.
End Factor.

Section Level.
Context (lvl N fuel : nat) (is_op : token_type -> bool) (operand : M (S := S) (option ast)).
Hypothesis Hlvl : (lvl <= 1)%nat.
Hypothesis Hop : forall ty, is_op ty = true -> ty <> TOK_EOF /\
  (if (lvl =? 0)%nat then is_additive (token_to_arith_op ty) = true
   else is_additive (token_to_arith_op ty) = false /\ is_multiplicative (token_to_arith_op ty) = true).
Hypothesis Hoperand : forall p, p_ok p -> (left_of p <= N)%nat ->
  yields p (left_of p) (fun a => expr_at (Datatypes.S lvl) a = true) operand p.

Lemma level_loop_ok left p f : p_ok p -> (left_of p < f)%nat -> (left_of p <= N)%nat -> expr_at lvl left = true ->
  yields p (Datatypes.S (left_of p)) (fun a => expr_at lvl a = true) (level_loop f is_op operand left) p.
Proof.
  revert left p. induction f as [|f IH]; intros left p Hok Hf HN Hleft; [lia|]. cbn [level_loop].
  pose proof (ext_refl p Hok) as H0. pstep. destruct (is_op (ttype (current p))) eqn:Ho.
  - destruct (Hop _ Ho) as [Hne Hal]. pstep. specialize (Hl Hne).
    pcall ltac:(apply Hoperand; [by eapply ext_ok|lia]). pstep.
    eapply yields_tail; [done|apply IH; [by eapply ext_ok|lia|lia|]|lia|done].
    destruct lvl as [|[|]]; cbn in Hal |- *; [rewrite Hal|destruct Hal as [-> ->]|lia]; cbn; by rewrite Hleft, HG.
  - apply yields_ret; [done|done|lia].
Qed.

Lemma level_ok p : p_ok p -> (left_of p <= fuel)%nat -> (left_of p <= N)%nat ->
  yields p (left_of p) (fun a => expr_at lvl a = true) (parse_arithmetic_level fuel is_op operand) p.
Proof.
  intros Hok Hf HN. pose proof (ext_refl p Hok) as H0. unfold parse_arithmetic_level.
  pcall ltac:(apply Hoperand; [done|lia]). pstep.
  eapply yields_tail; [done|apply level_loop_ok; [by eapply ext_ok|lia|lia|by apply expr_lower]|lia|done].
Qed.
End Level.

Lemma expr_ok_spec fuel p : p_ok p -> (left_of p < fuel)%nat -> yields p (left_of p) expr_ok (parse_arithmetic_expr fuel) p.
Proof.
  revert p. induction fuel as [|fuel IH]; intros p Hok Hf; [lia|]. cbn [parse_arithmetic_expr].
  apply (level_ok 0 fuel); [lia|by intros []| |done|lia|lia].
  intros p1 Hok1 Hl1. apply (level_ok 1 fuel); [lia|by intros []| |done|lia|lia].
  intros p2 Hok2 Hl2. apply (factor_ok fuel fuel); [|lia|done|lia]. intros p3 Hok3 Hl3. by apply IH.
Qed.

Lemma aggregate_ok fuel p : p_ok p -> (left_of p <= fuel)%nat -> is_aggregate_token (ttype (current p)) = true ->
  yields p (left_of p) head_arg_ok (parse_aggregate_expr fuel) p.
Proof.
  intros Hok Hf Hty. pose proof (ext_refl p Hok) as H0. unfold parse_aggregate_expr. pstep. pstep.
  assert (Hne : ttype (current p) <> TOK_EOF) by (intros Heq; by rewrite Heq in Hty). specialize (Hl Hne).
  pstep. pcall ltac:(apply expr_ok_spec; [by eapply ext_ok|lia]). pstep.
  apply yields_ret; [done|by apply head_agg|lia].
Qed.

(** *** Atoms and calls *)

Definition term_at (depth : Z) (a : ast) : Prop := is_term a = true /\ Z.of_nat (term_depth a) + depth <= COMPOUND_MAX_DEPTH.

Lemma literal_term depth a : depth <= COMPOUND_MAX_DEPTH -> literal_ok a -> term_at depth a.
Proof.
  intros Hd. destruct a as [i [|]]; cbn; [|done]. unfold term_at. cbn. destruct (ntype i); try done; intros ->; by split.
Qed.

Lemma compound_depth depth i args : ntype i = COMPOUND_TERM -> name i <> None -> args <> [] ->
  Forall (term_at (depth + 1)) args -> term_at depth (Node i args).
Proof.
  intros Hty Hn Hne Hargs. unfold term_at. cbn. rewrite Hty. split.
  - rewrite !bool_decide_true, bool_decide_false by done. cbn. apply forallb_forall. intros y Hy.
    rewrite List.Forall_forall in Hargs. by apply Hargs.
  - assert (Hmax : Z.of_nat (foldr (fun c n => Nat.max (term_depth c) n) 0%nat args) + (depth + 1) <= COMPOUND_MAX_DEPTH).
    { destruct args as [|x args]; [done|]. clear Hne. revert x Hargs. induction args as [|y args IH]; intros x Hargs.
      - apply Forall_inv in Hargs. destruct Hargs. cbn in *. lia.
      - pose proof (Forall_inv Hargs) as [_ Hx]. apply Forall_inv_tail in Hargs. specialize (IH _ Hargs). cbn in *. lia. }
    lia.
Qed.

Lemma atom_arg_at_ok fuel depth p : p_ok p -> (left_of p < fuel)%nat ->
  yields p (left_of p) (term_at depth) (parse_atom_arg_at_depth fuel depth) p.
Proof.
  revert depth p. induction fuel as [|fuel IH]; intros depth p Hok Hf; [lia|]. cbn [parse_atom_arg_at_depth].
  pose proof (ext_refl p Hok) as H0. pstep. destruct (Z.ltb_spec COMPOUND_MAX_DEPTH depth); [pstep|].
  pstep; [apply yields_ret; [done|by split|lia]|]. pstep.
  - pstep.
    + unfold parse_compound_term. pstep. pstep. pstep; [pstep|].
      pcall ltac:(apply (items_ok (term_at (depth + 1)) _ (pred fuel)); [intros; apply IH; [done|lia]|by eapply ext_ok|lia|lia]).
      pstep. destruct HG. apply yields_ret; [done|by apply compound_depth|lia].
    + pstep. apply yields_ret; [done|by split|lia].
  - apply yields_number; [done|lia|intros; by apply literal_term|]. pstep.
    + pstep. apply yields_ret; [done|by split|lia].
    + pstep.
Qed.

Lemma atom_arg_ok fuel p : p_ok p -> (left_of p < fuel)%nat -> yields p (left_of p) arg_ok (parse_atom_arg fuel) p.
Proof.
  intros Hok Hf. eapply yields_weaken; [by apply atom_arg_at_ok|lia|]. intros a [Ht Hd]. split; [done|].
  unfold COMPOUND_MAX_DEPTH in Hd. lia.
Qed.

Lemma atom_ok_spec fuel p : p_ok p -> (left_of p <= fuel)%nat -> yields p (left_of p) atom_ok (parse_atom fuel) p.
Proof.
  intros Hok Hf. pose proof (ext_refl p Hok) as H0. unfold parse_atom. pstep. pstep.
  pcall ltac:(apply (opt_items_ok arg_ok _ (pred fuel)); [intros; apply atom_arg_ok; [done|lia]|by eapply ext_ok|lia|lia]).
  pstep. apply yields_ret; [done| |lia]. by split; [|split; [eexists|]].
Qed.

Lemma extension_call_ok fuel line col p : p_ok p -> (left_of p <= fuel)%nat ->
  yields p (left_of p) call_ok (parse_extension_call_after_lparen fuel line col) p.
Proof.
  intros Hok Hf. pose proof (ext_refl p Hok) as H0. unfold parse_extension_call_after_lparen. pstep; [|pstep].
  pstep. cbv zeta. set (nm := trim_ascii_whitespace _).
  destruct ((255 <? List.length nm)%nat || negb (valid_extension_name nm)) eqn:Hbad; [pstep|].
  apply orb_false_iff in Hbad as [Hlen Hval]. apply Nat.ltb_ge in Hlen. apply negb_false_iff in Hval.
  eapply yields_bind with (G1 := Forall arg_ok) (n1 := Datatypes.S (left_of p0)); [done| |].
  - pose proof (ext_ok _ _ He) as Hok1. clear H1. pose proof (ext_refl p0 Hok1) as H1. pstep.
    + apply yields_ret; [done|constructor|lia].
    + pstep. eapply yields_tail; [done|apply (items_ok arg_ok _ (pred fuel)); [intros; apply atom_arg_ok; [done|lia]|by eapply ext_ok|lia|lia]|lia|].
      by intros l [? _].
  - intros args p1 H2 He1 Hl1 Hargs. pstep. apply yields_ret; [done| |lia].
    split; [done|]. split; [done|]. by eexists.
Qed.

Lemma call_marker_ok fuel bang line col p : p_ok p -> (left_of p <= fuel)%nat ->
  yields p (left_of p) call_ok (parse_call_marker fuel bang line col) p.
Proof.
  intros Hok Hf. pose proof (ext_refl p Hok) as H0. unfold parse_call_marker. pstep. pstep.
  destruct (bool_decide _); cbn [negb]; [|pstep]. pstep.
  eapply yields_tail; [done|apply extension_call_ok; [by eapply ext_ok|lia]|lia|done].
Qed.

(** *** Predicates *)

Lemma is_compare_not_eof ty : is_compare_op ty = true -> ty <> TOK_EOF.
Proof. by destruct ty. Qed.

Lemma compare_rest_ok fuel left p : p_ok p -> (left_of p <= fuel)%nat -> is_compare_op (ttype (current p)) = true ->
  expr_ok left -> yields p (left_of p) pred_ok (parse_compare_rest fuel left) p.
Proof.
  intros Hok Hf Hty Hleft. pose proof (ext_refl p Hok) as H0. unfold parse_compare_rest. pstep. pstep.
  specialize (Hl (is_compare_not_eof _ Hty)). pcall ltac:(apply expr_ok_spec; [by eapply ext_ok|lia]).
  apply yields_ret; [done|by apply pred_cmp|lia].
Qed.

Lemma comparison_ok fuel msg p : p_ok p -> (left_of p < fuel)%nat ->
  yields p (left_of p) pred_ok (parse_comparison fuel msg) p.
Proof.
  intros Hok Hf. pose proof (ext_refl p Hok) as H0. unfold parse_comparison.
  pcall ltac:(apply expr_ok_spec; [by eapply ext_ok|lia]). pstep.
  destruct (is_compare_op _) eqn:Hc; cbn [negb]; [|pstep].
  eapply yields_tail; [done|apply compare_rest_ok; [by eapply ext_ok|lia|done|done]|lia|done].
Qed.

Lemma negation_ok fuel line col p : p_ok p -> (left_of p <= fuel)%nat ->
  yields p (left_of p) pred_ok (parse_negation fuel line col) p.
Proof.
  intros Hok Hf. pose proof (ext_refl p Hok) as H0. unfold parse_negation.
  eapply yields_bind with (G1 := fun a => atom_ok a \/ call_ok a) (n1 := left_of p); [done| |].
  - pstep.
    + eapply yields_tail; [done|apply call_marker_ok; [by eapply ext_ok|lia]|lia|auto].
    + pstep. eapply yields_tail; [done|apply atom_ok_spec; [by eapply ext_ok|lia]|lia|auto].
  - intros a p1 H1 He1 Hl1 Ha. apply yields_ret; [done|by apply pred_neg|lia].
Qed.

Lemma predicate_ok fuel p : p_ok p -> (left_of p < fuel)%nat -> yields p (left_of p) pred_ok (parse_predicate fuel) p.
Proof.
  intros Hok Hf. pose proof (ext_refl p Hok) as H0. unfold parse_predicate. pstep. pstep. pstep.
  { eapply yields_tail; [done|apply call_marker_ok; [by eapply ext_ok|lia]|lia|apply pred_call]. }
  do 2 (pstep; [apply yields_ret; [done|by apply pred_bool|lia]|]). pstep.
  { eapply yields_tail; [done|apply negation_ok; [by eapply ext_ok|lia]|lia|done]. }
  case_bool_decide as Hid.
  { pstep. case_bool_decide; [|by apply comparison_ok]. pstep.
    eapply yields_tail; [done|apply atom_ok_spec; [by eapply ext_ok|]| |apply pred_atom]; pose proof (x_left _ _ He); lia. }
  destruct (is_bitwise_token _); [by apply comparison_ok|].
  destruct (bool_decide _ || _ || _); [by apply comparison_ok|].
  destruct (is_string_fn_token _); [|pstep].
  pcall ltac:(apply expr_ok_spec; [by eapply ext_ok|lia]). pstep. destruct (is_compare_op _) eqn:Hc.
  - eapply yields_tail; [done|apply compare_rest_ok; [by eapply ext_ok|lia|done|done]|lia|done].
  - apply yields_ret; [done|by apply pred_string|lia].
Qed.

(** *** Heads, facts and rules *)

Lemma at_predicate_ok fuel p : p_ok p -> (left_of p < fuel)%nat -> ttype (current p) = TOK_AT ->
  yields p (left_of p) call_ok (parse_predicate fuel) p.
Proof.
  intros Hok Hf Hty. pose proof (ext_refl p Hok) as H0. unfold parse_predicate. pstep. pstep. pstep; [|done].
  eapply yields_tail; [done|apply call_marker_ok; [by eapply ext_ok|lia]|lia|done].
Qed.

Lemma head_arg_ok_spec fuel p : p_ok p -> (left_of p < fuel)%nat ->
  yields p (left_of p) head_arg_ok (parse_head_arg fuel) p.
Proof.
  intros Hok Hf. unfold parse_head_arg. pstep. destruct (is_aggregate_token _) eqn:Ha.
  { apply aggregate_ok; [done|lia|done]. }
  case_bool_decide as Hat.
  - eapply yields_weaken; [by apply at_predicate_ok|lia|apply head_call].
  - eapply yields_weaken; [by apply expr_ok_spec|lia|apply head_expr].
Qed.

Lemma head_ok_spec fuel p : p_ok p -> (left_of p <= fuel)%nat -> yields p (left_of p) head_ok (parse_head fuel) p.
Proof.
  intros Hok Hf. pose proof (ext_refl p Hok) as H0. unfold parse_head. pstep. pstep. pstep. pstep.
  pcall ltac:(apply (opt_items_ok head_arg_ok _ (pred fuel)); [intros; apply head_arg_ok_spec; [done|lia]|by eapply ext_ok|lia|lia]).
  pstep. apply yields_ret; [done| |lia]. by split; [|split; [eexists|]].
Qed.

Lemma fact_ok head p : p_ok p -> head_ok head -> yields p (left_of p) item_ok (parse_fact head) p.
Proof.
  intros Hok (Hty & Hn & Hargs). pose proof (ext_refl p Hok) as H0. destruct head as [i args]. unfold parse_fact.
  destruct (forallb is_constant args) eqn:Hc; cbn [negb]; [|pstep]. pstep.
  apply yields_ret; [done| |lia]. apply item_fact; [done|done|].
  apply Forall_and. split; [done|]. apply List.Forall_forall. by apply forallb_forall.
Qed.

Lemma rule_or_fact_ok fuel p : p_ok p -> (left_of p <= fuel)%nat ->
  yields p (left_of p) item_ok (parse_rule_or_fact fuel) p.
Proof.
  intros Hok Hf. pose proof (ext_refl p Hok) as H0. unfold parse_rule_or_fact. pstep.
  pcall ltac:(apply head_ok_spec; [done|lia]). pstep.
  { eapply yields_tail; [done|apply fact_ok; [by eapply ext_ok|done]|lia|done]. }
  pstep. pcall ltac:(apply (items_ok pred_ok _ (pred fuel)); [intros; apply predicate_ok; [done|lia]|by eapply ext_ok|lia|lia]).
  destruct HG0 as [Hps Hne]. pstep. apply yields_flag; [done..|]. intros plan q Hq0 Hq.
  pose proof (x_left _ _ Hq). apply yields_ret; [done|by apply item_rule|lia].
Qed.

(** *** Declarations and directives *)

Lemma scalar_ok {A} p0 n (G : A -> Prop) (k : option string -> M (option A)) l p : ext p0 p ->
  Forall (fun e : token_type * string => e.1 <> TOK_EOF) l ->
  (forall ty nm p', (ty, nm) ∈ l -> ext p0 p' -> ext p p' -> (left_of p' < left_of p)%nat -> yields p0 n G (k (Some nm)) p') ->
  yields p0 n G (k None) p -> yields p0 n G (mbind k (match_scalar l)) p.
Proof.
  intros H0 Hl. induction Hl as [|[ty nm] l Hty Hl IH]; intros Hs Hn; cbn [match_scalar]; [exact Hn|].
  assert (Hassoc : forall q, mbind k (mbind (fun b : bool => if b then mret (Some nm) else match_scalar l) (parser_match ty)) q =
    mbind (fun b : bool => if b then k (Some nm) else mbind k (match_scalar l)) (parser_match ty) q).
  { intros q. unfold mbind, M_bind. destruct (parser_match ty q) as [[[] ?]|]; done. }
  unfold yields. rewrite Hassoc. apply (yields_match p0 n G ty (k (Some nm)) (mbind k (match_scalar l))); [done|done| |].
  - intros p' H1 He _ _ Hlt. apply (Hs ty); [by left|done..].
  - intros _. apply IH; [|done]. intros ty' nm' p' Hin. apply (Hs ty'). by right.
Qed.

Lemma scalar_types_tokens : Forall (fun e : token_type * string => e.1 <> TOK_EOF) scalar_types.
Proof. by repeat constructor. Qed.

Lemma slot_types_ok fuel acc p : p_ok p -> (left_of p < fuel)%nat -> (List.length acc <= 4)%nat ->
  Forall (fun s => s ∈ scalar_types.*2) acc ->
  yields p (Datatypes.S (left_of p)) (fun l => (List.length l <= 4)%nat /\ Forall (fun s => s ∈ scalar_types.*2) l)
    (slot_types fuel acc) p.
Proof.
  revert acc p. induction fuel as [|fuel IH]; intros acc p Hok Hf Hlen Hacc; [lia|]. cbn [slot_types].
  pose proof (ext_refl p Hok) as H0. apply scalar_ok; [done|apply scalar_types_tokens| |pstep].
  intros ty nm p1 Hin H1 _ Hl1. destruct (Nat.leb_spec 4 (List.length acc)); [pstep|].
  assert (Hacc' : Forall (fun s => s ∈ scalar_types.*2) (acc ++ [nm])).
  { apply Forall_app. split; [done|]. constructor; [|constructor]. apply list_elem_of_fmap. by exists (ty, nm). }
  pstep.
  - eapply yields_tail; [done|apply IH; [by eapply ext_ok|lia|rewrite length_app; cbn; lia|done]|lia|done].
  - apply yields_ret; [done| |lia]. split; [rewrite length_app; cbn; lia|done].
Qed.

Lemma modifier_ok p : p_ok p ->
  yields p (Datatypes.S (left_of p)) (fun m => m ∈ [None; Some "inline"; Some "side"]) parse_modifier p.
Proof.
  intros Hok. pose proof (ext_refl p Hok) as H0. unfold parse_modifier. pstep.
  - pstep. pstep. destruct (tokens_are_adjacent _ _); [pstep|].
    do 2 (case_bool_decide; [pstep; pose proof (x_left _ _ He); apply yields_ret; [done|set_solver|lia]|]). pstep.
  - apply yields_ret; [done|set_solver|lia].
Qed.

Lemma declaration_type_ok fuel p : p_ok p -> (left_of p < fuel)%nat ->
  yields p (left_of p) type_ok (parse_declaration_type fuel) p.
Proof.
  intros Hok Hf. pose proof (ext_refl p Hok) as H0. unfold parse_declaration_type.
  apply scalar_ok; [done|apply scalar_types_tokens| |].
  { intros ty nm p1 Hin H1 _ Hl1. apply yields_ret; [done|by eapply type_scalar|lia]. }
  pstep. pstep.
  eapply yields_bind with (n1 := left_of p)
    (G1 := fun sa : list string * Z => (sa.1 = [] \/ Z.of_nat (List.length sa.1) = sa.2 /\ sa.2 <= 4) /\
             Forall (fun s => s ∈ scalar_types.*2) sa.1); [done| |].
  - pose proof (ext_ok _ _ He) as Hok1. clear H1. pose proof (ext_refl _ Hok1) as H1. pstep.
    + pcall ltac:(apply slot_types_ok; [by eapply ext_ok|lia|cbn; lia|constructor]). pstep.
      apply yields_ret; [done| |lia]. destruct HG as [HG1 HG2]. cbn. split; [right; lia|done].
    + pstep. pstep. pstep. apply yields_ret; [done| |lia]. cbn. auto.
  - intros [slots arity] p1 H2 He1 Hl1 [Hsl Htys]. cbn in Hsl, Htys.
    destruct ((arity <=? 0) || (UINT32_MAX <? arity)) eqn:Hr; [pstep|].
    apply orb_false_iff in Hr as [Hr1%Z.leb_gt Hr2%Z.ltb_ge].
    pcall ltac:(apply modifier_ok; by eapply ext_ok).
    destruct (bool_decide (x = Some "inline") && (COMPOUND_INLINE_MAX_ARITY <? arity)) eqn:Hin; [pstep|].
    apply yields_ret; [done| |lia]. apply type_compound; [lia| |done|done|done].
    intros ->. cbn in Hin. apply Z.ltb_ge in Hin. exact Hin.
Qed.

Lemma decl_params_ok fuel acc p : p_ok p -> (left_of p < fuel)%nat -> Forall param_ok acc ->
  yields p (left_of p) (Forall param_ok) (decl_params fuel acc) p.
Proof.
  revert acc p. induction fuel as [|fuel IH]; intros acc p Hok Hf Hacc; [lia|]. cbn [decl_params].
  pose proof (ext_refl p Hok) as H0. pstep. pstep. pstep. pstep.
  pcall ltac:(apply declaration_type_ok; [by eapply ext_ok|lia]). cbv zeta.
  match goal with |- context [acc ++ [?q]] => assert (Hacc' : Forall param_ok (acc ++ [q])) end.
  { apply Forall_app. split; [done|]. constructor; [|constructor]. split; [done|]. split; [by eexists|]. split; [done|]. by eexists. }
  pstep.
  - eapply yields_tail; [done|apply IH; [by eapply ext_ok|lia|done]|lia|done].
  - apply yields_ret; [done|done|lia].
Qed.

Lemma declaration_ok fuel p : p_ok p -> (left_of p <= fuel)%nat -> yields p (left_of p) item_ok (parse_declaration fuel) p.
Proof.
  intros Hok Hf. pose proof (ext_refl p Hok) as H0. unfold parse_declaration. pstep. pstep. pstep. pstep.
  eapply yields_bind with (G1 := Forall param_ok) (n1 := Datatypes.S (left_of p1)); [done| |].
  - pose proof (ext_ok _ _ He0) as Hok1. clear H1 H2. pose proof (ext_refl _ Hok1) as H1. pstep.
    + apply yields_ret; [done|constructor|lia].
    + eapply yields_weaken; [apply decl_params_ok; [done|lia|constructor]|lia|done].
  - intros ps q Hq0 Hq Hlq Hps. pstep. apply yields_ret; [done| |lia]. apply item_decl; [done|by eexists|done].
Qed.

Lemma kv_params_ok fuel ty acc p : p_ok p -> (left_of p < fuel)%nat -> Forall (io_param_ok ty) acc ->
  yields p (left_of p) (Forall (io_param_ok ty)) (kv_params fuel ty acc) p.
Proof.
  revert acc p. induction fuel as [|fuel IH]; intros acc p Hok Hf Hacc; [lia|]. cbn [kv_params].
  pose proof (ext_refl p Hok) as H0. do 6 pstep. cbv zeta.
  match goal with |- context [acc ++ [?q]] => assert (Hacc' : Forall (io_param_ok ty) (acc ++ [q])) end.
  { apply Forall_app. split; [done|]. constructor; [|constructor]. by repeat split; eexists. }
  pstep.
  - eapply yields_tail; [done|apply IH; [by eapply ext_ok|lia|done]|lia|done].
  - apply yields_ret; [done|done|lia].
Qed.

Lemma io_params_ok fuel ty p : p_ok p -> (left_of p < fuel)%nat ->
  yields p (Datatypes.S (left_of p)) (Forall (io_param_ok ty)) (io_params fuel ty) p.
Proof.
  intros Hok Hf. pose proof (ext_refl p Hok) as H0. unfold io_params. pstep.
  { apply yields_ret; [done|constructor|lia]. }
  pstep. case_bool_decide as Hs; [|eapply yields_weaken; [apply kv_params_ok; [done|lia|constructor]|lia|done]].
  pstep. specialize (Hl ltac:(by rewrite Hs)). pstep. cbv zeta.
  match goal with |- context [Some [?q]] => assert (Hq : Forall (io_param_ok ty) [q]) end.
  { constructor; [|constructor]. by repeat split; eexists. }
  pstep; [pstep|]; [apply yields_ret; [done|done|lia]| |apply yields_ret; [done|done|lia]].
  eapply yields_tail; [done|apply kv_params_ok; [by eapply ext_ok|lia|done]|lia|done].
Qed.

Lemma input_ok fuel p : p_ok p -> (left_of p <= fuel)%nat -> yields p (left_of p) item_ok (parse_input_directive fuel) p.
Proof.
  intros Hok Hf. pose proof (ext_refl p Hok) as H0. unfold parse_input_directive. do 4 pstep.
  pcall ltac:(apply io_params_ok; [by eapply ext_ok|lia]). pstep.
  apply yields_ret; [done| |lia]. apply item_input; [done|by eexists|done].
Qed.

Lemma output_ok fuel p : p_ok p -> (left_of p <= fuel)%nat -> yields p (left_of p) item_ok (parse_output_directive fuel) p.
Proof.
  intros Hok Hf. pose proof (ext_refl p Hok) as H0. unfold parse_output_directive. do 3 pstep.
  eapply yields_bind with (G1 := Forall (io_param_ok OUTPUT_PARAM)) (n1 := Datatypes.S (left_of p0)); [done| |].
  - pose proof (ext_ok _ _ He) as Hok1. clear H1. pose proof (ext_refl _ Hok1) as H1. pstep.
    + pcall ltac:(apply io_params_ok; [by eapply ext_ok|lia]). pstep. apply yields_ret; [done|done|lia].
    + apply yields_ret; [done|constructor|lia].
  - intros ps q Hq0 Hq Hlq Hps. apply yields_ret; [done| |lia]. apply item_output; [done|by eexists|done].
Qed.

Lemma printsize_ok p : p_ok p -> yields p (left_of p) item_ok parse_printsize_directive p.
Proof.
  intros Hok. pose proof (ext_refl p Hok) as H0. unfold parse_printsize_directive. do 3 pstep.
  apply yields_ret; [done| |lia]. apply item_printsize; [done|by eexists|done].
Qed.

(** A mask with bits only below [n]. *)
Lemma mask_bound mask n : 0 <= n -> 0 <= mask < 2 ^ n -> 0 <= Z.lor mask (Z.shiftl 1 n) < 2 ^ (n + 1).
Proof.
  intros Hn [Hm1 Hm2]. rewrite Z.shiftl_1_l. split; [apply Z.lor_nonneg; lia|].
  assert (Hd : Z.land mask (2 ^ n) = 0).
  { apply Z.bits_inj_0. intros k. rewrite Z.land_spec. destruct (Z.eqb_spec k n) as [->|Hne].
    - destruct (Z.eq_dec mask 0) as [->|]; [by rewrite Z.bits_0|].
      rewrite Z.bits_above_log2; [done|lia|]. apply Z.log2_lt_pow2; lia.
    - rewrite Z.pow2_bits_false by done. apply andb_false_r. }
  rewrite <-Z.lxor_lor by done. rewrite <-Z.add_nocarry_lxor by done. rewrite Z.pow_add_r; lia.
Qed.

Lemma adornments_ok fuel mask position p : p_ok p -> (left_of p < fuel)%nat -> 0 <= position <= 64 ->
  0 <= mask < 2 ^ position ->
  yields p (left_of p) (fun mp : Z * Z => 0 <= mp.2 <= 64 /\ 0 <= mp.1 < 2 ^ mp.2) (adornments fuel mask position) p.
Proof.
  revert mask position p. induction fuel as [|fuel IH]; intros mask position p Hok Hf Hpos Hmask; [lia|]. cbn [adornments].
  pose proof (ext_refl p Hok) as H0. pstep. destruct (Z.leb_spec 64 position); [pstep|]. pstep.
  eapply yields_bind with (G1 := fun m : Z => 0 <= m < 2 ^ (position + 1)) (n1 := Datatypes.S (left_of p0)); [done| |].
  - pose proof (ext_refl _ (ext_ok _ _ He)) as Hr. clear H1. case_bool_decide.
    { apply yields_ret; [done|apply mask_bound; lia|lia]. }
    case_bool_decide; [|by apply yields_fail]. apply yields_ret; [done| |lia]. rewrite Z.pow_add_r; lia.
  - intros m q Hq0 Hq Hlq Hm. pstep.
    + eapply yields_tail; [done|apply IH; [by eapply ext_ok|lia|lia|done]|lia|done].
    + apply yields_ret; [done|cbn; split; [lia|done]|lia].
Qed.

Lemma query_ok fuel p : p_ok p -> (left_of p <= fuel)%nat -> yields p (left_of p) item_ok (parse_query_directive fuel) p.
Proof.
  intros Hok Hf. pose proof (ext_refl p Hok) as H0. unfold parse_query_directive. do 4 pstep.
  eapply yields_bind with (G1 := fun mp : Z * Z => 0 <= mp.2 <= 64 /\ 0 <= mp.1 < 2 ^ mp.2) (n1 := Datatypes.S (left_of p1)); [done| |].
  - pose proof (ext_refl _ (ext_ok _ _ He0)) as Hr. clear H1 H2. apply yields_check; intros.
    + apply yields_ret; [done|cbn; lia|lia].
    + eapply yields_weaken; [apply adornments_ok; [by eapply ext_ok|lia|lia|lia]|lia|done].
  - intros [mask pos] q Hq0 Hq Hlq [Hp Hm]. do 2 pstep. apply yields_ret; [done| |lia].
    apply item_query; [done|by eexists|done|done|]. cbn in *. rewrite u64_i64, u64_small; [done|].
    pose proof (Z.pow_le_mono_r 2 pos 64). mi.
Qed.

(** *** Programs *)

Lemma item_ok_spec fuel p : p_ok p -> (left_of p <= fuel)%nat -> yields p (left_of p) item_ok (parse_item fuel) p.
Proof.
  intros Hok Hf. pose proof (ext_refl p Hok) as H0. unfold parse_item.
  pstep; [eapply yields_tail; [done|apply declaration_ok; [by eapply ext_ok|lia]|lia|done]|].
  pstep; [eapply yields_tail; [done|apply input_ok; [by eapply ext_ok|lia]|lia|done]|].
  pstep; [eapply yields_tail; [done|apply output_ok; [by eapply ext_ok|lia]|lia|done]|].
  pstep; [eapply yields_tail; [done|apply printsize_ok; by eapply ext_ok|lia|done]|].
  pstep; [eapply yields_tail; [done|apply query_ok; [by eapply ext_ok|lia]|lia|done]|].
  pstep; [by apply rule_or_fact_ok|pstep].
Qed.

Lemma program_loop_ok fuel acc p : p_ok p -> (left_of p < fuel)%nat -> Forall item_ok acc ->
  exists r p', program_loop fuel acc p = Some (r, p') /\ ext p p' /\
    match r with Some a => program_ok a /\ err p' = None | None => is_Some (err p') end.
Proof.
  revert acc p. induction fuel as [|fuel IH]; intros acc p Hok Hf Hacc; [lia|]. cbn [program_loop].
  unfold parser_check, had_error, cur. unfold mbind, mret, M_bind, M_ret.
  pose proof (ext_refl p Hok) as H0. destruct (err p) as [e|] eqn:Herr.
  { rewrite orb_true_r. exists None, p. by rewrite Herr. }
  rewrite orb_false_r. case_bool_decide as Heof; [by exists (Some (Node (create PROGRAM 1 1) acc)), p|].
  destruct (item_ok_spec fuel p Hok ltac:(lia)) as (r & p1 & Hi & He & Hr). rewrite Hi. destruct r as [n|].
  - destruct Hr as [Hn Hl]. destruct (IH (acc ++ [n]) p1) as (r & p' & Hp & He' & Hr); [by eapply ext_ok|lia|by apply Forall_app; auto|].
    exists r, p'. split; [done|]. split; [by eapply ext_trans|done].
  - destruct Hr as [e He1]. exists None, p1. rewrite He1. by eauto.
Qed.

Lemma stream_ok fuel s : s_ok s -> (s_left s < fuel)%nat ->
  exists r e, parse_stream fuel s = Some (r, e) /\ match r with Some a => program_ok a /\ e = None | None => exists x, e = Some x /\ e_ok x end.
Proof.
  intros Hs Hf. set (p0 := P s zero_tok zero_tok None). assert (Hok : p_pre p0) by done.
  unfold parse_stream. destruct (advance_ext p0 Hok) as (p & Hp & He & _ & Hlt). fold p0. rewrite Hp. cbn [mbind option_bind].
  assert (Hl : (left_of p <= s_left s)%nat) by (specialize (Hlt ltac:(done)); change (left_of p0) with (s_left s + 1)%nat in Hlt; lia).
  destruct (program_loop_ok fuel [] p) as (r & p' & Hr & Hex & Hres); [by eapply ext_ok|lia|constructor|].
  unfold parse_program. rewrite Hr. cbn [mbind option_bind]. exists r, (err p'). split; [done|].
  destruct r; [done|]. destruct Hres as [x Hx]. exists x. split; [done|]. by apply (ext_ok _ _ Hex).
Qed.

End Functions.

(** ** The lexer as a stream *)

(** Where a token or an error is in the text. *)
Definition place_in (src : list Z) (l c : Z) : Prop :=
  exists k, (k <= List.length src)%nat /\ l = line_of (take k src) /\ c = col_of (take k src).

Lemma decimal_nonneg l : 0 <= decimal l.
Proof.
  unfold decimal. destruct l as [|c l _] using rev_ind; [done|]. rewrite foldl_app. cbn. apply u64_range.
Qed.

Definition counts (r : option (token * lexer)) : Prop := forall t lx, r = Some (t, lx) -> 0 <= uint_value t.

Lemma counts_bind {A} (m : option A) f : (forall x, counts (f x)) -> counts (mbind f m).
Proof. intros Hf. destruct m; [apply Hf|done]. Qed.

Lemma counts_some t lx : 0 <= uint_value t -> counts (Some (t, lx)).
Proof. by intros ? ? ? [= <- <-]. Qed.

Ltac counts :=
  repeat first [apply counts_bind; intros | case_match | progress cbv zeta | done | apply counts_some];
  try done; try apply decimal_nonneg.

Lemma token_magnitude strtod alloc lx : counts (next_token strtod alloc lx).
Proof.
  unfold next_token, scan_token, scan_identifier, scan_string, scan_directive, scan_punct, scan_number, scan_float,
    scan_integer, make_error. counts.
Qed.

#[export] Instance lexer_stream strtod : TokenStream lexer := lexer_next strtod.

#[export] Program Instance lexer_lawful strtod (src : list Z) : LawfulStream lexer (TokenStream0 := lexer_stream strtod) := {
  s_ok lx := wf lx /\ source lx = src;
  s_left lx := List.length (drop (Lexer.current lx) (source lx));
  t_ok t := 0 <= tuint t /\ place_in src (tkline t) (tkcol t) }.
Next Obligation. by intros strtod src t [? _]. Qed.
Next Obligation.
  intros strtod src lx [W Hsrc]. destruct (next_token_ok strtod true lx W) as (t & lx' & pre & body & l' & Hn & W' & S).
  exists (of_token (source lx) t (error_msg lx')), lx'. unfold next, lexer_stream, lexer_next. rewrite Hn.
  split; [done|]. split; [by rewrite (sc_source _ _ _ _ _ _ S)|]. split.
  { split; [by eapply token_magnitude|]. exists (tstart t). cbn. rewrite <-Hsrc.
    split; [|split; apply S]. rewrite (sc_start _ _ _ _ _ _ S). pose proof (wf_cur _ W') as Hc.
    rewrite (sc_current _ _ _ _ _ _ S), (sc_source _ _ _ _ _ _ S) in Hc. lia. }
  rewrite !length_drop, (sc_current _ _ _ _ _ _ S), (sc_source _ _ _ _ _ _ S). split; [lia|].
  cbn. intros Hne. destruct (sc_eof _ _ _ _ _ _ S) as [(Ht & _)|(_ & Hb)]; [done|].
  pose proof (sc_text _ _ _ _ _ _ S) as Htx. apply (f_equal List.length) in Htx.
  rewrite length_drop, !length_app in Htx. destruct body; [done|]. cbn in *. lia.
Qed.

(** ** Properties *)

Lemma parse_string_ok strtod src : text_ok src -> exists r e, parse_string strtod src = Some (r, e) /\
  match r with
  | Some a => program_ok a /\ e = None
  | None => exists x, e = Some x /\ place_in src (e_line x) (e_col x)
  end.
Proof.
  intros [Hp Hl]. destruct (stream_ok (H := lexer_lawful strtod src) (parse_fuel src) (lexer_init src))
    as (r & e & Hr & Hres).
  - split; [by apply wf_init|done].
  - cbn. rewrite drop_0. unfold parse_fuel. lia.
  - exists r, e. split; [exact Hr|]. destruct r; [done|]. destruct Hres as (x & -> & t & [_ Ht] & Hx1 & Hx2 & _).
    exists x. by rewrite Hx1, Hx2.
Qed.

(** C27: The parser always returns: for every text, every loop and recursion of
    the recursive descent ends within one step per character, and it returns
    NULL exactly when it has recorded an error. *)
Theorem parse_total (strtod : list Z -> option (nat * Z * Z)) (src : list Z) (Hs : text_ok src) :
  exists r e, parse_string strtod src = Some (r, e) /\ (r = None <-> is_Some e).
Proof.
  destruct (parse_string_ok strtod src Hs) as (r & e & Hr & Hres). exists r, e. split; [done|]. destruct r.
  - destruct Hres as [_ ->]. split; [done|]. by intros [].
  - destruct Hres as (x & -> & _). by split.
Qed.

Lemma parse_total_witness :
  text_ok sample /\ exists r e, parse_string no_strtod sample = Some (r, e) /\ (r = None <-> is_Some e).
Proof. split; [apply sample_ok|]. apply (parse_total no_strtod sample sample_ok). Defined.

(** C26: The tree the parser returns is well typed: declarations have typed
    parameters with arities in range, facts hold constants, rules a head and at
    least one predicate, arithmetic is nested by precedence and to the left with
    the arity of each operator, integers fit int64_t, floats are finite, compound
    terms nest at most 64 deep and extension names are valid; the masks of
    queries fit their arities. *)
Theorem parse_well_typed (strtod : list Z -> option (nat * Z * Z)) (src : list Z) (a : ast) (e : option perror)
  (Hs : text_ok src) (Hp : parse_string strtod src = Some (Some a, e)) : program_ok a.
Proof.
  destruct (parse_string_ok strtod src Hs) as (r & e' & Hr & Hres). rewrite Hp in Hr. simplify_eq. by destruct Hres.
Qed.

Lemma parse_well_typed_witness : exists a, parse_string no_strtod sample = Some (Some a, None) /\ program_ok a.
Proof.
  assert (Hp : exists a, parse_string no_strtod sample = Some (Some a, None)) by (vm_compute; by eexists).
  destruct Hp as [a Hp]. exists a. split; [exact Hp|]. exact (parse_well_typed no_strtod sample a None sample_ok Hp).
Defined.

(** C39: The diagnostic of a rejected text has the line and column of a place in
    that text. *)
Theorem parse_error_located (strtod : list Z -> option (nat * Z * Z)) (src : list Z) (r : option ast) (x : perror)
  (Hs : text_ok src) (Hp : parse_string strtod src = Some (r, Some x)) : r = None /\ place_in src (e_line x) (e_col x).
Proof.
  destruct (parse_string_ok strtod src Hs) as (r' & e' & Hr & Hres). rewrite Hp in Hr. simplify_eq. destruct r'.
  - by destruct Hres.
  - destruct Hres as (y & [= <-] & Hpl). done.
Qed.

Definition bad_sample : list Z := bytes "p(x) :- q(x)".

Lemma parse_error_located_witness :
  parse_string no_strtod bad_sample = Some (None, Some (PError 1 13 "expected '.' at end of rule" TOK_EOF)) /\
  place_in bad_sample 1 13.
Proof.
  assert (Hp : parse_string no_strtod bad_sample = Some (None, Some (PError 1 13 "expected '.' at end of rule" TOK_EOF)))
    by (by vm_compute).
  split; [exact Hp|].
  exact (proj2 (parse_error_located no_strtod bad_sample None _ ltac:(split; [apply plain_dec; by vm_compute|by vm_compute]) Hp)).
Defined.
