(* ===== verification/ParserGrammar.v ===== *)
(** * The grammar of programs, and the parser accepts every program of it

    The grammar as relations between token lists and trees, independent of how
    the parser looks for them, and the proof that the recursive descent over a
    list of tokens returns the tree of every program the grammar derives. *)

From S2P Require Import Prelude Lexer LexerProof Parser.

Import Lexer Parser.

Module Grammar.

(** ** The grammar *)

Abbreviation grammar := (list tok -> ast -> Prop).

Definition node (mk : info -> info) (ty : node_type) (t : tok) (cs : list ast) : ast :=
  Node (mk (create ty (tkline t) (tkcol t))) cs.

(** One or more items between commas. *)
Inductive Sep (G : grammar) : list tok -> list ast -> Prop :=
| Sep_one ts a : G ts a -> Sep G ts [a]
| Sep_cons ts a c ts' args : G ts a -> ttype c = TOK_COMMA -> Sep G ts' args -> Sep G (ts ++ c :: ts') (a :: args).

Inductive OptSep (G : grammar) : list tok -> list ast -> Prop :=
| Opt_none : OptSep G [] []
| Opt_some ts args : Sep G ts args -> OptSep G ts args.

Definition zero_float (b : Z) : Z := if bits_zero b then 0 else b.
Definition flip (b : Z) : Z := Z.lxor b (2 ^ 63).

Inductive Num : grammar :=
| N_int t : ttype t = TOK_INTEGER -> tuint t <= INT64_MAX -> Num [t] (node (with_int (tuint t)) INTEGER t [])
| N_neg m t : ttype m = TOK_MINUS -> ttype t = TOK_INTEGER -> tokens_are_adjacent m t = true ->
    tuint t <= INT64_MAX + 1 -> Num [m; t] (node (with_int (- tuint t)) INTEGER m [])
| N_float t : ttype t = TOK_FLOAT -> bits_finite (tfloat t) = true ->
    Num [t] (node (with_float (zero_float (tfloat t))) FLOAT t [])
| N_neg_float m t : ttype m = TOK_MINUS -> ttype t = TOK_FLOAT -> bits_finite (flip (tfloat t)) = true ->
    Num [m; t] (node (with_float (zero_float (flip (tfloat t)))) FLOAT m []).

(** The operators of sums and products, the comparisons, the aggregates and the
    string functions, with their tokens. *)
Definition binary_ops (lvl : nat) : list (token_type * arith_op) :=
  match lvl with
  | O => [(TOK_PLUS, ADD); (TOK_MINUS, SUB)]
  | S O => [(TOK_STAR, MUL); (TOK_SLASH, DIV); (TOK_PERCENT, MOD)]
  | _ => []
  end.

Definition compare_ops : list (token_type * cmp_op) :=
  [(TOK_EQ, CMP_EQ); (TOK_NEQ, CMP_NEQ); (TOK_LT, CMP_LT); (TOK_GT, CMP_GT); (TOK_LTE, CMP_LTE); (TOK_GTE, CMP_GTE)].

Definition aggregates : list (token_type * agg_fn) :=
  [(TOK_COUNT, AGG_COUNT); (TOK_SUM, AGG_SUM); (TOK_MIN, AGG_MIN); (TOK_MAX, AGG_MAX); (TOK_AVG, AGG_AVG)].

Definition string_fns : list (token_type * str_fn) :=
  [(TOK_STRLEN, FN_STRLEN); (TOK_CAT, FN_CAT); (TOK_SUBSTR, FN_SUBSTR); (TOK_CONTAINS, FN_CONTAINS);
   (TOK_STR_PREFIX, FN_STR_PREFIX); (TOK_STR_SUFFIX, FN_STR_SUFFIX); (TOK_STR_ORD, FN_STR_ORD);
   (TOK_TO_UPPER, FN_TO_UPPER); (TOK_TO_LOWER, FN_TO_LOWER); (TOK_STR_REPLACE, FN_STR_REPLACE); (TOK_TRIM, FN_TRIM);
   (TOK_TO_STRING, FN_TO_STRING); (TOK_TO_NUMBER, FN_TO_NUMBER); (TOK_UUID5_RFC, FN_UUID5_RFC)].

(** Sums (level 0), products (1) and factors (2). *)
Inductive Expr : nat -> grammar :=
| E_var t : ttype t = TOK_IDENT -> Expr 2 [t] (node (with_name (ttext t)) VARIABLE t [])
| E_num ts a : Num ts a -> Expr 2 ts a
| E_str t : ttype t = TOK_STRING -> Expr 2 [t] (node (with_str (tstr t)) STRING t [])
| E_call t lp ts rp op n what args : call_op (ttype t) = Some (op, n, what) -> ttype lp = TOK_LPAREN ->
    ttype rp = TOK_RPAREN -> OptSep (Expr 0) ts args -> List.length args = n ->
    Expr 2 (t :: lp :: ts ++ [rp]) (node (with_arith op) BINARY_EXPR t args)
| E_fn t lp ts rp fn args : (ttype t, fn) ∈ string_fns -> ttype lp = TOK_LPAREN -> ttype rp = TOK_RPAREN ->
    OptSep (Expr 0) ts args -> (fn = FN_UUID5_RFC -> List.length args = 2%nat) ->
    Expr 2 (t :: lp :: ts ++ [rp]) (node (with_strf fn) STR_FUNCTION t args)
| E_up lvl ts a : (lvl <= 1)%nat -> Expr (S lvl) ts a -> Expr lvl ts a
| E_op lvl ts1 a1 t op ts2 a2 : (lvl <= 1)%nat -> (ttype t, op) ∈ binary_ops lvl -> Expr lvl ts1 a1 -> Expr (S lvl) ts2 a2 ->
    Expr lvl (ts1 ++ t :: ts2) (node (with_arith op) BINARY_EXPR t [a1; a2]).

(** Arguments of atoms, at a nesting depth. *)
Inductive Term : Z -> grammar :=
| T_wild d t : d <= COMPOUND_MAX_DEPTH -> ttype t = TOK_UNDERSCORE -> Term d [t] (node id WILDCARD t [])
| T_var d t : d <= COMPOUND_MAX_DEPTH -> ttype t = TOK_IDENT -> Term d [t] (node (with_name (ttext t)) VARIABLE t [])
| T_num d ts a : d <= COMPOUND_MAX_DEPTH -> Num ts a -> Term d ts a
| T_str d t : d <= COMPOUND_MAX_DEPTH -> ttype t = TOK_STRING -> Term d [t] (node (with_str (tstr t)) STRING t [])
| T_compound d t lp ts rp args : d <= COMPOUND_MAX_DEPTH -> ttype t = TOK_IDENT -> ttype lp = TOK_LPAREN ->
    ttype rp = TOK_RPAREN -> Sep (Term (d + 1)) ts args ->
    Term d (t :: lp :: ts ++ [rp]) (node (with_name (ttext t)) COMPOUND_TERM t args).

Inductive Atom : grammar :=
| Atom_intro t lp ts rp args : ttype t = TOK_IDENT -> ttype lp = TOK_LPAREN -> ttype rp = TOK_RPAREN ->
    OptSep (Term 0) ts args -> Atom (t :: lp :: ts ++ [rp]) (node (with_name (ttext t)) ATOM t args).

(** An extension call after its '@' or '!', at the position of [at_]. *)
Inductive Call (at_ : tok) : grammar :=
| Call_plain c lp s rp : ttype c = TOK_IDENT -> ttext c = bytes "call" -> ttype lp = TOK_LPAREN -> ttype s = TOK_STRING ->
    ttype rp = TOK_RPAREN -> (List.length (trim_ascii_whitespace (tstr s)) <= 255)%nat ->
    valid_extension_name (trim_ascii_whitespace (tstr s)) = true ->
    Call at_ [c; lp; s; rp] (node (with_name (trim_ascii_whitespace (tstr s))) EXTENSION_CALL at_ [])
| Call_args c lp s cm ts rp args : ttype c = TOK_IDENT -> ttext c = bytes "call" -> ttype lp = TOK_LPAREN ->
    ttype s = TOK_STRING -> ttype cm = TOK_COMMA -> ttype rp = TOK_RPAREN ->
    (List.length (trim_ascii_whitespace (tstr s)) <= 255)%nat ->
    valid_extension_name (trim_ascii_whitespace (tstr s)) = true -> Sep (Term 0) ts args ->
    Call at_ (c :: lp :: s :: cm :: ts ++ [rp]) (node (with_name (trim_ascii_whitespace (tstr s))) EXTENSION_CALL at_ args).

(** What a string predicate starts with. *)
Definition starts_with (p : token_type -> bool) (ts : list tok) : Prop :=
  match ts with t :: _ => p (ttype t) = true | [] => False end.

Definition starts_comparison (ty : token_type) : bool :=
  match ty with TOK_IDENT | TOK_FLOAT | TOK_MINUS | TOK_INTEGER => true | _ => is_bitwise_token ty || is_string_fn_token ty end.

Inductive Pred : grammar :=
| P_atom ts a : Atom ts a -> Pred ts a
| P_call t ts a : ttype t = TOK_AT -> Call t ts a -> Pred (t :: ts) a
| P_true t : ttype t = TOK_TRUE -> Pred [t] (node (with_bool true) BOOLEAN t [])
| P_false t : ttype t = TOK_FALSE -> Pred [t] (node (with_bool false) BOOLEAN t [])
| P_neg t ts a : ttype t = TOK_BANG -> Atom ts a -> Pred (t :: ts) (node id NEGATION t [a])
| P_neg_call t t' ts a : ttype t = TOK_BANG -> ttype t' = TOK_AT -> Call t ts a -> Pred (t :: t' :: ts) (node id NEGATION t [a])
| P_cmp ts1 l t op ts2 r : starts_with starts_comparison ts1 -> Expr 0 ts1 l -> (ttype t, op) ∈ compare_ops -> Expr 0 ts2 r ->
    Pred (ts1 ++ t :: ts2) (node (with_cmp op) COMPARISON t [l; r])
| P_string ts a : starts_with is_string_fn_token ts -> Expr 0 ts a -> Pred ts a.

Inductive HeadArg : grammar :=
| HA_agg t lp ts rp fn a : (ttype t, fn) ∈ aggregates -> ttype lp = TOK_LPAREN -> ttype rp = TOK_RPAREN -> Expr 0 ts a ->
    HeadArg (t :: lp :: ts ++ [rp]) (node (with_agg fn) AGGREGATE t [a])
| HA_call t ts a : ttype t = TOK_AT -> Call t ts a -> HeadArg (t :: ts) a
| HA_expr ts a : Expr 0 ts a -> HeadArg ts a.

Inductive Head : grammar :=
| Head_intro t lp ts rp args : ttype t = TOK_IDENT -> ttype lp = TOK_LPAREN -> ttype rp = TOK_RPAREN ->
    OptSep HeadArg ts args -> Head (t :: lp :: ts ++ [rp]) (node (with_name (ttext t)) HEAD t args).

(** Declared types. *)
Inductive SlotList : list tok -> list string -> Prop :=
| Slot_one t nm : (ttype t, nm) ∈ scalar_types -> SlotList [t] [nm]
| Slot_cons t nm c ts l : (ttype t, nm) ∈ scalar_types -> ttype c = TOK_COMMA -> SlotList ts l -> SlotList (t :: c :: ts) (nm :: l).

(** The arity: slot types, or a number; [last] is the last token. *)
Inductive Arity : list tok -> list string -> Z -> tok -> Prop :=
| Ar_slots lp ts rp l : ttype lp = TOK_LPAREN -> ttype rp = TOK_RPAREN -> SlotList ts l -> (List.length l <= 4)%nat ->
    Arity (lp :: ts ++ [rp]) l (Z.of_nat (List.length l)) rp
| Ar_num sl n : ttype sl = TOK_SLASH -> ttype n = TOK_INTEGER -> Arity [sl; n] [] (tint n) n.

Inductive Modifier (last : tok) : list tok -> option string -> Prop :=
| Mod_none : Modifier last [] None
| Mod_some t m : ttype t = TOK_IDENT -> tokens_are_adjacent last t = false -> m ∈ ["inline"; "side"] -> ttext t = bytes m ->
    Modifier last [t] (Some m).

Inductive Type_ : list tok -> list Z -> Prop :=
| Ty_scalar t nm : (ttype t, nm) ∈ scalar_types -> Type_ [t] (bytes nm)
| Ty_compound f ts slots arity last ms m : ttype f = TOK_IDENT -> Arity ts slots arity last -> 0 < arity <= UINT32_MAX ->
    Modifier last ms m -> (m = Some "inline" -> arity <= COMPOUND_INLINE_MAX_ARITY) ->
    Type_ (f :: ts ++ ms) (ttext f ++ bytes "/" ++ decimal_u32 arity ++ slots_buf slots ++
                          match m with Some m => bytes " " ++ bytes m | None => [] end).

Inductive Param : grammar :=
| Param_intro t c ts ty : ttype t = TOK_IDENT -> ttype c = TOK_COLON -> Type_ ts ty ->
    Param (t :: c :: ts) (node (fun i => with_type ty (with_name (ttext t) i)) TYPED_PARAM t []).

Inductive KeyValue (ty : node_type) : grammar :=
| KV_intro k e v : ttype k = TOK_IDENT -> ttype e = TOK_EQ -> ttype v = TOK_STRING ->
    KeyValue ty [k; e; v] (node (fun i => with_str (tstr v) (with_name (ttext k) i)) ty k []).

Definition file_param (ty : node_type) (v : tok) : ast :=
  node (fun i => with_str (tstr v) (with_name (bytes "filename") i)) ty v [].

Inductive IoParams (ty : node_type) : list tok -> list ast -> Prop :=
| Io_none : IoParams ty [] []
| Io_kvs ts ps : Sep (KeyValue ty) ts ps -> IoParams ty ts ps
| Io_file v : ttype v = TOK_STRING -> IoParams ty [v] [file_param ty v]
| Io_file_comma v c : ttype v = TOK_STRING -> ttype c = TOK_COMMA -> IoParams ty [v; c] [file_param ty v]
| Io_file_kvs v c ts ps : ttype v = TOK_STRING -> ttype c = TOK_COMMA -> Sep (KeyValue ty) ts ps ->
    IoParams ty (v :: c :: ts) (file_param ty v :: ps).

(** Adornments: from the mask and position so far to the final ones. *)
Definition adorn (t : tok) (mask pos : Z) : option Z :=
  if bool_decide (ttext t = bytes "b") then Some (Z.lor mask (Z.shiftl 1 pos))
  else if bool_decide (ttext t = bytes "f") then Some mask else None.

Inductive Adorn : Z -> Z -> list tok -> Z -> Z -> Prop :=
| Ad_one t mask pos mask' : ttype t = TOK_IDENT -> pos < 64 -> adorn t mask pos = Some mask' -> Adorn mask pos [t] mask' (pos + 1)
| Ad_cons t c ts mask pos mask1 mask' pos' : ttype t = TOK_IDENT -> ttype c = TOK_COMMA -> pos < 64 ->
    adorn t mask pos = Some mask1 -> Adorn mask1 (pos + 1) ts mask' pos' -> Adorn mask pos (t :: c :: ts) mask' pos'.

Inductive Item : grammar :=
| I_decl d t lp ts rp ps : ttype d = TOK_DECL -> ttype t = TOK_IDENT -> ttype lp = TOK_LPAREN -> ttype rp = TOK_RPAREN ->
    OptSep Param ts ps -> Item (d :: t :: lp :: ts ++ [rp]) (node (with_name (ttext t)) DECL d ps)
| I_input d t lp ts rp ps : ttype d = TOK_INPUT -> ttype t = TOK_IDENT -> ttype lp = TOK_LPAREN -> ttype rp = TOK_RPAREN ->
    IoParams INPUT_PARAM ts ps -> Item (d :: t :: lp :: ts ++ [rp]) (node (with_name (ttext t)) INPUT d ps)
| I_output d t : ttype d = TOK_OUTPUT -> ttype t = TOK_IDENT -> Item [d; t] (node (with_name (ttext t)) OUTPUT d [])
| I_output_ps d t lp ts rp ps : ttype d = TOK_OUTPUT -> ttype t = TOK_IDENT -> ttype lp = TOK_LPAREN -> ttype rp = TOK_RPAREN ->
    IoParams OUTPUT_PARAM ts ps -> Item (d :: t :: lp :: ts ++ [rp]) (node (with_name (ttext t)) OUTPUT d ps)
| I_printsize d t : ttype d = TOK_PRINTSIZE -> ttype t = TOK_IDENT -> Item [d; t] (node (with_name (ttext t)) PRINTSIZE d [])
| I_query0 d t lp rp dot : ttype d = TOK_QUERY -> ttype t = TOK_IDENT -> ttype lp = TOK_LPAREN -> ttype rp = TOK_RPAREN ->
    ttype dot = TOK_DOT -> Item [d; t; lp; rp; dot] (node (fun i => with_arity 0 (with_int (i64 0) (with_name (ttext t) i))) QUERY d [])
| I_query d t lp ts rp dot mask n : ttype d = TOK_QUERY -> ttype t = TOK_IDENT -> ttype lp = TOK_LPAREN -> ttype rp = TOK_RPAREN ->
    ttype dot = TOK_DOT -> Adorn 0 0 ts mask n ->
    Item (d :: t :: lp :: ts ++ [rp; dot]) (node (fun i => with_arity n (with_int (i64 mask) (with_name (ttext t) i))) QUERY d [])
| I_fact t lp ts rp dot args : ttype t = TOK_IDENT -> ttype lp = TOK_LPAREN -> ttype rp = TOK_RPAREN -> ttype dot = TOK_DOT ->
    OptSep HeadArg ts args -> forallb is_constant args = true ->
    Item (t :: lp :: ts ++ [rp; dot]) (node (with_name (ttext t)) FACT t args)
| I_rule hs h hn ps preds dot t : Head hs h -> ttype hn = TOK_HORN -> Sep Pred ps preds -> ttype dot = TOK_DOT -> head hs = Some t ->
    Item (hs ++ hn :: ps ++ [dot]) (node (with_planning false) RULE t (h :: preds))
| I_rule_plan hs h hn ps preds dot plan t : Head hs h -> ttype hn = TOK_HORN -> Sep Pred ps preds -> ttype dot = TOK_DOT ->
    ttype plan = TOK_PLAN -> head hs = Some t ->
    Item (hs ++ hn :: ps ++ [dot; plan]) (node (with_planning true) RULE t (h :: preds)).

Inductive Items : list tok -> list ast -> Prop :=
| Is_nil : Items [] []
| Is_cons ts a ts' l : Item ts a -> Items ts' l -> Items (ts ++ ts') (a :: l).

(** A program up to the end of input. *)
Definition Program (ts : list tok) (a : ast) : Prop := exists l, Items ts l /\ a = Node (create PROGRAM 1 1) l.

(** ** Runs of the parser over a list of tokens *)

Definition hd_ty (l : list tok) : token_type := match l with [] => TOK_EOF | t :: _ => ttype t end.

Definition clean (l : list tok) : Prop := Forall (fun t => ttype t <> TOK_ERROR) l.

Lemma clean_app l1 l2 : clean (l1 ++ l2) -> clean l2.
Proof. intros H. by apply Forall_app in H as [_ ?]. Qed.

Lemma clean_cons t l : clean (t :: l) -> clean l.
Proof. apply Forall_inv_tail. Qed.

Section Stream.
Context {T : Type} `{!TokenStream T}.
Implicit Types p : parser T.

(** The stream's tokens up to the end of input. *)
Fixpoint gives (s : T) (l : list tok) : Prop :=
  match l with
  | [] => exists t s', next s = Some (t, s') /\ ttype t = TOK_EOF
  | t :: l' => exists s', next s = Some (t, s') /\ gives s' l'
  end.

(** The parser at the first token of [l], after [pv]. *)
Definition at_ (l : list tok) (pv : tok) p : Prop :=
  previous p = pv /\ err p = None /\
  match l with [] => ttype (current p) = TOK_EOF | t :: l' => current p = t /\ gives (stream p) l' end.

(** [m] reads the tokens of [l] up to [rest], the last of them [pv'], and
    returns [x]. *)
Definition reads {A} (m : M (S := T) A) (l : list tok) (pv : tok) (x : A) (rest : list tok) (pv' : tok) : Prop :=
  forall p, at_ l pv p -> exists p', m p = Some (x, p') /\ at_ rest pv' p'.

Definition runs {A} (m : M (S := T) (option A)) (l : list tok) (pv : tok) (x : A) (rest : list tok) : Prop :=
  clean l -> exists pv', reads m l pv (Some x) rest pv'.

Lemma cur_at l pv p : at_ l pv p -> ttype (current p) = hd_ty l.
Proof. intros (_ & _ & Hl). destruct l; [done|]. by destruct Hl as [-> _]. Qed.

Lemma reads_bind {A B} (m : M B) (f : B -> M A) l pv y l1 pv1 x rest pv' :
  reads m l pv y l1 pv1 -> reads (f y) l1 pv1 x rest pv' -> reads (mbind f m) l pv x rest pv'.
Proof. intros Hm Hf p Hp. destruct (Hm p Hp) as (p1 & Hp1 & H1). unfold mbind, M_bind. rewrite Hp1. by apply Hf. Qed.

Lemma reads_ret {A} (x : A) l pv : reads (mret x) l pv x l pv.
Proof. intros p Hp. by exists p. Qed.

Lemma reads_advance t l pv : clean l -> reads parser_advance (t :: l) pv tt l t.
Proof.
  intros Hc p (Hpv & He & Hcur & Hg). unfold parser_advance. destruct l as [|t' l].
  - destruct Hg as (e & s' & -> & Het). cbn [mbind option_bind]. rewrite Het. eexists. split; [done|]. by split.
  - destruct Hg as (s' & -> & Hg). cbn [mbind option_bind]. rewrite bool_decide_false; [|by apply Forall_inv in Hc].
    eexists. split; [done|]. by split.
Qed.

Lemma reads_check ty l pv : reads (parser_check ty) l pv (bool_decide (hd_ty l = ty)) l pv.
Proof. intros p Hp. exists p. unfold parser_check, cur, mbind, mret, M_bind, M_ret. by rewrite (cur_at _ _ _ Hp). Qed.

Lemma reads_match_yes ty t l pv : clean l -> ttype t = ty -> reads (parser_match ty) (t :: l) pv true l t.
Proof.
  intros Hc Ht. unfold parser_match. eapply reads_bind; [apply reads_check|]. cbn [hd_ty]. rewrite bool_decide_true by done.
  eapply reads_bind; [by apply reads_advance|apply reads_ret].
Qed.

Lemma reads_match_no ty l pv : hd_ty l <> ty -> reads (parser_match ty) l pv false l pv.
Proof.
  intros Ht. unfold parser_match. eapply reads_bind; [apply reads_check|]. rewrite bool_decide_false by done. apply reads_ret.
Qed.

Lemma reads_consume ty msg t l pv : clean l -> ttype t = ty -> reads (parser_consume ty msg) (t :: l) pv true l t.
Proof.
  intros Hc Ht. unfold parser_consume. eapply reads_bind; [apply reads_check|]. cbn [hd_ty]. rewrite bool_decide_true by done.
  eapply reads_bind; [by apply reads_advance|apply reads_ret].
Qed.

Lemma reads_prev l pv : reads prev l pv pv l pv.
Proof. intros p Hp. exists p. split; [|done]. destruct Hp as [<- _]. done. Qed.

Lemma reads_error l pv : reads had_error l pv false l pv.
Proof. intros p Hp. exists p. split; [|done]. destruct Hp as (_ & He & _). unfold had_error. by rewrite He. Qed.

Lemma reads_cur t l pv : reads cur (t :: l) pv t (t :: l) pv.
Proof. intros p Hp. exists p. split; [|done]. destruct Hp as (_ & _ & <- & _). done. Qed.

Lemma reads_peek t l pv : reads peek_type (t :: l) pv (hd_ty l) (t :: l) pv.
Proof.
  intros p Hp. exists p. split; [|done]. destruct Hp as (_ & _ & _ & Hg). unfold peek_type. destruct l as [|t' l].
  - destruct Hg as (e & s' & -> & He). cbn. by rewrite He.
  - by destruct Hg as (s' & -> & _).
Qed.

Section Rules.
Context {A : Type}.
Implicit Types (x : A) (k : M (S := T) (option A)) (l rest : list tok).

Lemma runs_ret x l pv : runs (mret (Some x)) l pv x l.
Proof. intros _. exists pv. apply reads_ret. Qed.

(** What a step that leaves the parser at [l1] needs of the rest. *)
Lemma runs_step {B} (m : M B) (f : B -> M (option A)) y l pv l1 pv1 x rest :
  (clean l -> clean l1) -> (clean l -> reads m l pv y l1 pv1) -> runs (f y) l1 pv1 x rest -> runs (mbind f m) l pv x rest.
Proof.
  intros Hcl Hm Hf Hc. destruct (Hf (Hcl Hc)) as [pv' Hpv]. exists pv'. eapply reads_bind; [by apply Hm|exact Hpv].
Qed.

Lemma runs_bind {B} (m : M (option B)) (f : B -> M (option A)) y x ts l1 rest pv :
  runs m (ts ++ l1) pv y l1 -> (forall pv', runs (f y) l1 pv' x rest) ->
  runs (mbind (fun o => match o with Some y => f y | None => mret None end) m) (ts ++ l1) pv x rest.
Proof.
  intros Hm Hf Hc. destruct (Hm Hc) as [pv1 Hpv1]. destruct (Hf pv1 (clean_app _ _ Hc)) as [pv2 Hpv2]. exists pv2.
  by eapply reads_bind.
Qed.

Lemma runs_bind_eq {B} (m : M (option B)) (f : B -> M (option A)) y x ts l l1 rest pv : l = ts ++ l1 ->
  runs m l pv y l1 -> (forall pv', runs (f y) l1 pv' x rest) ->
  runs (mbind (fun o => match o with Some y => f y | None => mret None end) m) l pv x rest.
Proof. intros ->. apply runs_bind. Qed.

Lemma runs_consume ty msg k t l rest pv x : ttype t = ty -> runs k l t x rest ->
  runs (mbind (fun b : bool => if b then k else mret None) (parser_consume ty msg)) (t :: l) pv x rest.
Proof. intros Hty Hk. eapply runs_step; [apply clean_cons|intros Hc; apply reads_consume; [by eapply clean_cons|done]|exact Hk]. Qed.

Lemma runs_advance (f : unit -> M (option A)) t l rest pv x : runs (f tt) l t x rest ->
  runs (mbind f parser_advance) (t :: l) pv x rest.
Proof. intros Hk. eapply runs_step; [apply clean_cons|intros Hc; apply reads_advance; by eapply clean_cons|exact Hk]. Qed.

Lemma runs_match_yes ty (f : bool -> M (option A)) t l rest pv x : ttype t = ty -> runs (f true) l t x rest ->
  runs (mbind f (parser_match ty)) (t :: l) pv x rest.
Proof. intros Hty Hk. eapply runs_step; [apply clean_cons|intros Hc; apply reads_match_yes; [by eapply clean_cons|done]|exact Hk]. Qed.

Lemma runs_match_no ty (f : bool -> M (option A)) l rest pv x : hd_ty l <> ty -> runs (f false) l pv x rest ->
  runs (mbind f (parser_match ty)) l pv x rest.
Proof. intros Hty Hk. eapply runs_step; [done|intros _; by apply reads_match_no|exact Hk]. Qed.

Lemma runs_check ty (kt kf : M (option A)) l rest pv x :
  runs (if bool_decide (hd_ty l = ty) then kt else kf) l pv x rest ->
  runs (mbind (fun b : bool => if b then kt else kf) (parser_check ty)) l pv x rest.
Proof. intros Hk. eapply runs_step; [done|intros _; apply reads_check|]. by destruct (bool_decide _). Qed.

Lemma runs_cur (f : tok -> M (option A)) t l rest pv x : runs (f t) (t :: l) pv x rest -> runs (mbind f cur) (t :: l) pv x rest.
Proof. intros Hk. eapply runs_step; [done|intros _; apply reads_cur|exact Hk]. Qed.

Lemma runs_prev (f : tok -> M (option A)) l rest pv x : runs (f pv) l pv x rest -> runs (mbind f prev) l pv x rest.
Proof. intros Hk. eapply runs_step; [done|intros _; apply reads_prev|exact Hk]. Qed.

Lemma runs_error_check k l rest pv x : runs k l pv x rest ->
  runs (mbind (fun e : bool => if e then mret None else k) had_error) l pv x rest.
Proof. intros Hk. eapply runs_step; [done|intros _; apply reads_error|exact Hk]. Qed.

Lemma runs_peek (f : token_type -> M (option A)) t l rest pv x : runs (f (hd_ty l)) (t :: l) pv x rest ->
  runs (mbind f peek_type) (t :: l) pv x rest.
Proof. intros Hk. eapply runs_step; [done|intros _; apply reads_peek|exact Hk]. Qed.

Lemma runs_cur_any (f : tok -> M (option A)) l rest pv x : l <> [] ->
  (forall t, ttype t = hd_ty l -> runs (f t) l pv x rest) -> runs (mbind f cur) l pv x rest.
Proof. destruct l; [done|]. intros _ Hf. apply runs_cur. by apply Hf. Qed.

(** A result that is passed on. *)
Lemma runs_map {B} (g : option B -> option A) (m : M (option B)) y x l rest pv :
  runs m l pv y rest -> g (Some y) = Some x -> runs (mbind (fun r => mret (g r)) m) l pv x rest.
Proof. intros Hm Hg Hc. destruct (Hm Hc) as [pv' Hpv]. exists pv'. eapply reads_bind; [exact Hpv|]. cbv beta. rewrite Hg. apply reads_ret. Qed.

End Rules.

(** The comparison of two token types, one of them known through a hypothesis. *)
Ltac ty_dec := cbn [hd_ty app]; first [done | congruence |
  let H := fresh in intros H; match goal with H' : _ = _ |- _ => rewrite H in H'; discriminate end].

Ltac rstep :=
  lazymatch goal with
  | |- runs (mbind _ cur) _ _ _ _ => apply runs_cur; cbv beta
  | |- runs (mbind _ prev) _ _ _ _ => apply runs_prev; cbv beta
  | |- runs (mbind _ had_error) _ _ _ _ => apply runs_error_check
  | |- runs (mbind _ peek_type) _ _ _ _ => apply runs_peek; cbv beta; cbn [hd_ty app]
  | |- runs (mbind _ parser_advance) _ _ _ _ => apply runs_advance; cbv beta
  | |- runs (mbind _ (parser_consume _ _)) _ _ _ _ => apply runs_consume; [ty_dec|]
  | |- runs (mbind _ (parser_match _)) _ _ _ _ =>
      first [apply runs_match_yes; [ty_dec|] | apply runs_match_no; [ty_dec|]]; cbv beta iota
  | |- runs (mbind _ (parser_check _)) _ _ _ _ =>
      apply runs_check; first [rewrite bool_decide_true by ty_dec | rewrite bool_decide_false by ty_dec]
  | |- runs (if bool_decide _ then _ else _) _ _ _ _ =>
      first [rewrite bool_decide_true by ty_dec | rewrite bool_decide_false by ty_dec]
  end.

Ltac flat := cbn [app]; rewrite <-?app_assoc; cbn [app]; rewrite <-?app_assoc; cbn [app].

(** *** Numbers *)

Lemma integer_runs t rest pv : ttype t = TOK_INTEGER -> tuint t <= INT64_MAX ->
  runs parse_integer_literal (t :: rest) pv (node (with_int (tuint t)) INTEGER t []) rest.
Proof.
  intros Ht Hv. unfold parse_integer_literal, parse_magnitude. do 4 rstep. cbv zeta.
  rewrite (proj2 (Z.ltb_ge _ _)) by done. apply runs_ret.
Qed.

Lemma negative_runs m t rest pv : ttype m = TOK_MINUS -> ttype t = TOK_INTEGER -> tokens_are_adjacent m t = true ->
  tuint t <= INT64_MAX + 1 -> runs parse_integer_literal (m :: t :: rest) pv (node (with_int (- tuint t)) INTEGER m []) rest.
Proof.
  intros Hm Ht Had Hv. unfold parse_integer_literal, parse_magnitude. do 5 rstep. rewrite Had. cbn [negb]. do 2 rstep. cbv zeta.
  rewrite (proj2 (Z.ltb_ge _ _)) by done.
  replace (if tuint t =? INT64_MAX + 1 then INT64_MIN else - tuint t) with (- tuint t);
    [apply runs_ret|destruct (Z.eqb_spec (tuint t) (INT64_MAX + 1)); mi].
Qed.

Lemma number_runs ts a rest pv : Num ts a -> runs parse_number (ts ++ rest) pv (Some a) rest.
Proof.
  intros [t Ht Hv|m t Hm Ht Had Hv|t Ht Hf|m t Hm Ht Hf]; unfold parse_number; cbn [app]; rstep.
  - rewrite Ht. change (bool_decide (TOK_INTEGER = TOK_FLOAT)) with false. change (bool_decide (TOK_INTEGER = TOK_MINUS)) with false.
    cbv iota. eapply runs_step; [done|intros _; apply reads_ret|]. cbv iota.
    eapply (runs_map (fun r => Some r)); [by apply integer_runs|done].
  - rewrite Hm. change (bool_decide (TOK_MINUS = TOK_FLOAT)) with false. change (bool_decide (TOK_MINUS = TOK_MINUS)) with true.
    cbv iota. eapply runs_step; [done|intros _; eapply reads_bind; [apply reads_peek|apply reads_ret]|]. cbv beta. cbn [hd_ty].
    rewrite Ht. change (bool_decide (TOK_INTEGER = TOK_FLOAT)) with false. rewrite orb_true_r. cbv iota.
    eapply (runs_map (fun r => Some r)); [by apply negative_runs|done].
  - rstep. eapply (runs_map (fun r => Some r)); [|done].
    unfold parse_float_literal. do 4 rstep. cbv zeta. rewrite Hf. apply runs_ret.
  - rewrite Hm. change (bool_decide (TOK_MINUS = TOK_FLOAT)) with false. change (bool_decide (TOK_MINUS = TOK_MINUS)) with true.
    cbv iota. eapply runs_step; [done|intros _; eapply reads_bind; [apply reads_peek|apply reads_ret]|]. cbv beta. cbn [hd_ty].
    rewrite bool_decide_true by done. cbv iota. eapply (runs_map (fun r => Some r)); [|done].
    unfold parse_float_literal. do 4 rstep. cbv zeta. unfold flip in Hf. rewrite Hf. apply runs_ret.
Qed.

Lemma num_runs ts a rest pv (k : M (option ast)) : Num ts a ->
  runs (mbind (fun num => match num with Some r => mret r | None => k end) parse_number) (ts ++ rest) pv a rest.
Proof.
  intros Hn Hc. destruct (number_runs ts a rest pv Hn Hc) as [pv' Hpv]. exists pv'. eapply reads_bind; [exact Hpv|apply reads_ret].
Qed.

Lemma number_skip (k : M (option ast)) l rest pv a : l <> [] -> hd_ty l <> TOK_FLOAT -> hd_ty l <> TOK_MINUS -> hd_ty l <> TOK_INTEGER ->
  runs k l pv a rest ->
  runs (mbind (fun num => match num with Some r => mret r | None => k end) parse_number) l pv a rest.
Proof.
  intros Hl H1 H2 H3 Hk. refine (runs_step parse_number _ None l pv l pv a rest _ _ Hk); [done|]. intros _. unfold parse_number. destruct l as [|t l]; [done|].
  eapply reads_bind; [apply reads_cur|]. cbn [hd_ty] in *. rewrite !bool_decide_false by done.
  eapply reads_bind; apply reads_ret.
Qed.

Lemma num_first ts a rest : Num ts a -> hd_ty (ts ++ rest) = TOK_INTEGER \/ hd_ty (ts ++ rest) = TOK_MINUS \/ hd_ty (ts ++ rest) = TOK_FLOAT.
Proof. intros []; cbn; auto. Qed.

(** *** Lists *)

Lemma snoc_app {A} (acc : list A) a l : acc ++ a :: l = (acc ++ [a]) ++ l.
Proof. by rewrite <-app_assoc. Qed.

Section Lists.
Context (G : grammar) (stop : list tok -> Prop) (item : M (S := T) (option ast)) (N : nat).
Hypothesis Hitem : forall ts a rest pv, G ts a -> (List.length ts <= N)%nat -> stop rest -> runs item (ts ++ rest) pv a rest.
Hypothesis Hcomma : forall c l, ttype c = TOK_COMMA -> stop (c :: l).

Lemma comma_list_runs fuel ts args c rest pv acc : Sep G ts args -> ttype c = TOK_COMMA -> (List.length ts <= N)%nat ->
  (S (List.length ts) < fuel)%nat -> stop rest -> hd_ty rest <> TOK_COMMA ->
  runs (comma_list fuel item acc) (c :: ts ++ rest) pv (acc ++ args) rest.
Proof.
  intros Hs. revert fuel c pv acc. induction Hs as [ts a Ha|ts a c' ts' args Ha Hc' Hs IH]; intros fuel c pv acc Hc HN Hf Hst Hr;
    (destruct fuel as [|fuel]; [lia|]); cbn [comma_list].
  - rstep. eapply runs_bind; [by apply Hitem|]. intros pv1. destruct fuel as [|fuel]; [lia|]. cbn [comma_list]. rstep. apply runs_ret.
  - flat. rstep. rewrite length_app in HN, Hf. cbn in HN, Hf. eapply runs_bind; [apply Hitem; [done|lia|by apply Hcomma]|].
    intros pv1. rewrite (snoc_app acc _ args). apply IH; [done|lia|lia|done|done].
Qed.

Lemma items_runs fuel ts args rest pv : Sep G ts args -> (List.length ts <= N)%nat -> (List.length ts < fuel)%nat ->
  stop rest -> hd_ty rest <> TOK_COMMA -> runs (items fuel item) (ts ++ rest) pv args rest.
Proof.
  intros Hs HN Hf Hst Hr. unfold items. destruct Hs as [ts a Ha|ts a c ts' args Ha Hc Hs].
  - eapply runs_bind; [by apply Hitem|]. intros pv1. destruct fuel as [|fuel]; [lia|]. cbn [comma_list]. rstep. apply runs_ret.
  - flat. rewrite length_app in HN, Hf. cbn in HN, Hf. eapply runs_bind; [apply Hitem; [done|lia|by apply Hcomma]|].
    intros pv1. apply (comma_list_runs fuel ts' args c rest pv1 [a]); [done|done|lia|lia|done|done].
Qed.

Hypothesis Hfirst : forall ts a rest, G ts a -> hd_ty (ts ++ rest) <> TOK_RPAREN.

Lemma sep_first ts args rest : Sep G ts args -> hd_ty (ts ++ rest) <> TOK_RPAREN.
Proof. intros Hs. destruct Hs; [by eapply Hfirst|]. flat. by eapply Hfirst. Qed.

Lemma opt_items_runs fuel ts args rp rest pv : OptSep G ts args -> (List.length ts <= N)%nat -> (List.length ts < fuel)%nat ->
  (forall l, stop (rp :: l)) -> ttype rp = TOK_RPAREN -> runs (opt_items fuel item) (ts ++ rp :: rest) pv args (rp :: rest).
Proof.
  intros Hs HN Hf Hst Hrp. unfold opt_items. apply runs_check. destruct Hs as [|ts args Hs].
  - rewrite bool_decide_true by done. apply runs_ret.
  - rewrite bool_decide_false by (by eapply sep_first). apply items_runs; [done..|]. cbn. congruence.
Qed.
End Lists.

(** *** Expressions *)

Definition level_op (lvl : nat) : token_type -> bool :=
  match lvl with O => is_additive_op | _ => is_multiplicative_op end.

(** The parser's tables are those of the grammar. *)
Lemma binary_op_spec lvl ty op : (ty, op) ∈ binary_ops lvl -> level_op lvl ty = true /\ token_to_arith_op ty = op.
Proof. intros Hin. destruct lvl as [|[|]]; cbn in Hin; rewrite ?elem_of_cons, elem_of_nil in Hin; by destruct_or! Hin; simplify_eq. Qed.

Lemma string_fn_spec ty fn : (ty, fn) ∈ string_fns -> is_string_fn_token ty = true /\ token_to_str_fn ty = fn.
Proof. intros Hin. unfold string_fns in Hin. rewrite !elem_of_cons, elem_of_nil in Hin. by destruct_or! Hin; simplify_eq. Qed.

Lemma compare_op_spec ty op : (ty, op) ∈ compare_ops -> is_compare_op ty = true /\ token_to_cmp_op ty = op.
Proof. intros Hin. unfold compare_ops in Hin. rewrite !elem_of_cons, elem_of_nil in Hin. by destruct_or! Hin; simplify_eq. Qed.

Lemma aggregate_spec ty fn : (ty, fn) ∈ aggregates -> is_aggregate_token ty = true /\ token_to_agg_fn ty = fn.
Proof. intros Hin. unfold aggregates in Hin. rewrite !elem_of_cons, elem_of_nil in Hin. by destruct_or! Hin; simplify_eq. Qed.

Definition not_op (lvl : nat) (ty : token_type) : Prop :=
  match lvl with
  | O => is_additive_op ty = false /\ is_multiplicative_op ty = false
  | S O => is_multiplicative_op ty = false
  | _ => True
  end.

Definition ends_expr (lvl : nat) (rest : list tok) : Prop := not_op lvl (hd_ty rest).

(** What an expression can start with. *)
Definition starts_expr (ty : token_type) : bool :=
  match ty with
  | TOK_IDENT | TOK_INTEGER | TOK_MINUS | TOK_FLOAT | TOK_STRING => true
  | _ => is_bitwise_token ty || is_string_fn_token ty
  end.

Lemma call_op_bitwise ty : is_bitwise_token ty = match call_op ty with Some _ => true | None => false end.
Proof. by destruct ty. Qed.

Lemma expr_first lvl ts a : Expr lvl ts a -> exists t ts', ts = t :: ts' /\ starts_expr (ttype t) = true.
Proof.
  induction 1 as [t Ht|ts a Hn|t Ht|t lp ts rp op n what args Hop|t lp ts rp fn args Hfn|lvl ts a _ _ IH|lvl ts1 a1 t op ts2 a2 _ _ _ IH _ _];
    [| |..|exact IH|].
  - exists t, []. by rewrite Ht.
  - destruct Hn as [t Ht|m t Hm|t Ht|m t Hm]; [exists t, []; by rewrite Ht|exists m, [t]; by rewrite Hm
      |exists t, []; by rewrite Ht|exists m, [t]; by rewrite Hm].
  - exists t, []. by rewrite Ht.
  - eexists t, _. split; [done|]. pose proof (call_op_bitwise (ttype t)) as Hb. rewrite Hop in Hb.
    unfold starts_expr. rewrite Hb. by destruct (ttype t).
  - eexists t, _. split; [done|]. apply string_fn_spec in Hfn as [Hfn _]. unfold starts_expr. rewrite Hfn, orb_true_r. by destruct (ttype t).
  - destruct IH as (t1 & ts' & -> & Ht1). by eexists t1, _.
Qed.

Lemma expr_not_rparen lvl ts a rest : Expr lvl ts a -> hd_ty (ts ++ rest) <> TOK_RPAREN.
Proof. intros He. destruct (expr_first _ _ _ He) as (t & ts' & -> & Ht). cbn. by intros Hr; rewrite Hr in Ht. Qed.

Definition closes (ty : token_type) : bool := match ty with TOK_COMMA | TOK_RPAREN | TOK_DOT => true | _ => false end.

Lemma closes_expr lvl c l : closes (ttype c) = true -> ends_expr lvl (c :: l).
Proof. unfold ends_expr. cbn [hd_ty]. by destruct (ttype c), lvl as [|[|]]. Qed.

Section Factor.
Context (fuel N : nat) (expr : M (S := T) (option ast)).
Hypothesis Hexpr : forall ts a rest pv, Expr 0 ts a -> (List.length ts <= N)%nat -> ends_expr 0 rest ->
  runs expr (ts ++ rest) pv a rest.
Hypothesis HN : (N < fuel)%nat.

Lemma args_runs ts args rp rest pv : OptSep (Expr 0) ts args -> (List.length ts <= N)%nat -> ttype rp = TOK_RPAREN ->
  runs (opt_items fuel expr) (ts ++ rp :: rest) pv args (rp :: rest).
Proof.
  intros Ho Hl Hrp. apply (opt_items_runs (Expr 0) (ends_expr 0) expr N Hexpr); [|by intros; eapply expr_not_rparen|done|done|lia| |done].
  - intros c l Hc. apply closes_expr. by rewrite Hc.
  - intros l. apply closes_expr. by rewrite Hrp.
Qed.

Lemma sep_call_args ts args rp rest pv msg first c : Sep (Expr 0) ts args -> (List.length ts <= N)%nat ->
  ttype rp = TOK_RPAREN -> ttype c = TOK_COMMA ->
  runs (call_args expr (List.length args) first msg) (if first : bool then ts ++ rp :: rest else c :: ts ++ rp :: rest) pv args (rp :: rest).
Proof.
  intros Hs Hl Hrp. revert first pv c. induction Hs as [ts a Ha|ts a c' ts' args Ha Hc' Hs IH]; intros first pv c Hc; cbn [List.length call_args].
  - match goal with |- runs (mbind (fun b : bool => if b then ?m else _) _) _ _ _ _ =>
      assert (Hbody : forall pv', runs m (ts ++ rp :: rest) pv' [a] (rp :: rest)) end.
    { intros pv'. eapply runs_bind; [apply Hexpr; [done|done|apply closes_expr; by rewrite Hrp]|]. intros pv1.
      eapply (runs_bind _ _ [] _ []); [apply runs_ret|]. intros pv2. apply runs_ret. }
    destruct first; [apply Hbody|]. rstep. apply Hbody.
  - rewrite length_app in Hl. cbn in Hl. flat.
    match goal with |- runs (mbind (fun b : bool => if b then ?m else _) _) _ _ _ _ =>
      assert (Hbody : forall pv', runs m (ts ++ c' :: ts' ++ rp :: rest) pv' (a :: args) (rp :: rest)) end.
    { intros pv'. eapply runs_bind; [apply Hexpr; [done|lia|apply closes_expr; by rewrite Hc']|]. intros pv1.
      eapply (runs_bind _ _ args _ (c' :: ts')); [apply (IH ltac:(lia) false pv1 c' Hc')|]. intros pv2. apply runs_ret. }
    destruct first; [apply Hbody|]. rstep. apply Hbody.
Qed.

Lemma call_args_runs ts args rp rest pv msg : OptSep (Expr 0) ts args -> (List.length ts <= N)%nat -> ttype rp = TOK_RPAREN ->
  runs (call_args expr (List.length args) true msg) (ts ++ rp :: rest) pv args (rp :: rest).
Proof.
  intros [|ts' args' Hs] Hl Hrp; [apply runs_ret|].
  apply (sep_call_args ts' args' rp rest pv msg true (Tok TOK_COMMA [] [] 0 0 0 0 0 0 0 "") Hs Hl Hrp eq_refl).
Qed.

Lemma factor_runs ts a rest pv : Expr 2 ts a -> (List.length ts <= S N)%nat -> runs (parse_factor fuel expr) (ts ++ rest) pv a rest.
Proof.
  intros He Hl. unfold parse_factor. rstep. remember 2%nat as lvl eqn:Hlvl.
  destruct He as [t Ht|ts a Hn|t Ht|t lp ts rp op n what args Hop Hlp Hrp Ho Hlen|t lp ts rp fn args Hfn Hlp Hrp Ho Hlen|lvl ts a Hle _|lvl ts1 a1 t op ts2 a2 Hle _ _ _];
    [| | | | |lia|lia].
  - cbn [app]. do 3 rstep. apply runs_ret.
  - apply runs_cur_any; [by destruct Hn|]. intros t Ht. apply runs_match_no; [|by apply num_runs].
    destruct (num_first ts a rest Hn) as [->|[->| ->]]; done.
  - cbn [app]. rstep. rstep. apply number_skip; [done|ty_dec..|]. do 2 rstep. apply runs_ret.
  - cbn [app]. rstep. rstep. apply number_skip; [done|ty_dec..|]. rstep. rewrite Hop.
    unfold parse_call. cbn in Hl. rewrite length_app in Hl. cbn in Hl. flat. do 3 rstep. rewrite <-Hlen.
    eapply runs_bind; [apply call_args_runs; [done|lia|done]|]. intros pv1. rstep. apply runs_ret.
  - apply string_fn_spec in Hfn as [Hfn <-]. cbn [app]. rstep. rstep. apply number_skip; [done|ty_dec..|]. rstep.
    assert (Hop : call_op (ttype t) = None) by (by destruct (ttype t)). rewrite Hop, Hfn.
    unfold parse_string_fn_expr. cbn in Hl. rewrite length_app in Hl. cbn in Hl. flat. do 2 rstep. cbv zeta. rstep.
    eapply runs_bind; [apply args_runs; [done|lia|done]|]. intros pv1. rstep.
    replace (_ && _) with false; [apply runs_ret|]. symmetry. apply andb_false_iff.
    case_bool_decide as Hu; [right|by left]. by rewrite Hlen.
Qed.
End Factor.

Lemma op_ends lvl t l : level_op lvl (ttype t) = true -> ends_expr (S lvl) (t :: l).
Proof. unfold ends_expr. cbn [hd_ty]. destruct lvl as [|[|]]; cbn; by destruct (ttype t). Qed.

Section Level.
Context (lvl N : nat) (operand : M (S := T) (option ast)).
Hypothesis Hlvl : (lvl <= 1)%nat.
Hypothesis Hoperand : forall ts a rest pv, Expr (S lvl) ts a -> (List.length ts <= N)%nat -> ends_expr (S lvl) rest ->
  runs operand (ts ++ rest) pv a rest.

(** After the expression, the level's loop is where the operand would continue. *)
Lemma level_reach f ts a rest pv : Expr lvl ts a -> (List.length ts <= N)%nat -> (List.length ts <= f)%nat ->
  ends_expr (S lvl) rest -> clean (ts ++ rest) -> exists f' pv', (f < f' + List.length ts)%nat /\
    forall x rest' pv'', reads (level_loop f' (level_op lvl) operand a) rest pv' (Some x) rest' pv'' ->
      reads (parse_arithmetic_level f (level_op lvl) operand) (ts ++ rest) pv (Some x) rest' pv''.
Proof.
  intros He. remember lvl as lvl' eqn:Hlv. revert rest. induction He as [| | | | |l ts a Hle He _|l ts1 a1 t op ts2 a2 Hle Hop He1 IH He2 _];
    intros rest HN Hf Hst Hc; [lia..| |]; subst l.
  - destruct (Hoperand _ _ _ pv He HN Hst Hc) as [pv' Hpv]. exists f, pv'.
    destruct (expr_first _ _ _ He) as (t & ts' & -> & _). split; [cbn; lia|]. intros x rest' pv'' Hr.
    unfold parse_arithmetic_level. eapply reads_bind; [exact Hpv|]. eapply reads_bind; [apply reads_error|]. exact Hr.
  - apply binary_op_spec in Hop as [Hop <-].
    rewrite length_app in HN, Hf. cbn in HN, Hf. rewrite <-app_assoc in Hc |- *. cbn [app] in *.
    destruct (IH eq_refl Hle Hoperand (t :: ts2 ++ rest)) as (f1 & pv1 & Hf1 & Hr1); [lia|lia|by apply op_ends|done|].
    destruct f1 as [|f1]; [lia|]. exists f1. apply clean_app in Hc. pose proof (clean_cons _ _ Hc) as Hc'.
    destruct (Hoperand _ _ _ t He2 ltac:(lia) Hst Hc') as [pv2 Hpv2]. exists pv2.
    split; [rewrite length_app; cbn; lia|]. intros x rest' pv'' Hr. apply Hr1. cbn [level_loop].
    eapply reads_bind; [apply reads_cur|]. rewrite Hop. eapply reads_bind; [by apply reads_advance|].
    eapply reads_bind; [exact Hpv2|]. eapply reads_bind; [apply reads_error|]. exact Hr.
Qed.

Lemma level_runs f ts a rest pv : Expr lvl ts a -> (List.length ts <= N)%nat -> (List.length ts <= f)%nat ->
  ends_expr (S lvl) rest -> level_op lvl (hd_ty rest) = false ->
  runs (parse_arithmetic_level f (level_op lvl) operand) (ts ++ rest) pv a rest.
Proof.
  intros He HN Hf Hst Hop Hc. destruct (level_reach f ts a rest pv He HN Hf Hst Hc) as (f' & pv' & Hf' & Hr).
  destruct f' as [|f']; [lia|]. exists pv'. apply Hr. cbn [level_loop]. intros p Hp. exists p.
  unfold mbind, M_bind, cur. by rewrite (cur_at _ _ _ Hp), Hop.
Qed.
End Level.

Lemma expr_runs fuel ts a rest pv : Expr 0 ts a -> (List.length ts < fuel)%nat -> ends_expr 0 rest ->
  runs (parse_arithmetic_expr fuel) (ts ++ rest) pv a rest.
Proof.
  revert ts a rest pv. induction fuel as [|fuel IH]; intros ts a rest pv He Hf [H1 H2]; [lia|]. cbn [parse_arithmetic_expr].
  apply (level_runs 0 fuel); [lia| |done|lia|lia|done|done].
  intros ts1 a1 rest1 pv1 He1 Hl1 Hst1. apply (level_runs 1 fuel); [lia| |done|lia|lia|done|done].
  intros ts2 a2 rest2 pv2 He2 Hl2 _. assert (Hpos : (0 < fuel)%nat).
  { destruct (expr_first _ _ _ He2) as (t & ts' & -> & _). cbn in Hl2. lia. }
  apply (factor_runs fuel (pred fuel)); [|lia|done|lia].
  intros ts3 a3 rest3 pv3 He3 Hl3 Hst3. apply IH; [done|lia|done].
Qed.

(** *** Atoms and calls *)

Definition ends_term (rest : list tok) : Prop := hd_ty rest <> TOK_LPAREN.

Lemma closes_term c l : closes (ttype c) = true -> ends_term (c :: l).
Proof. unfold ends_term. cbn [hd_ty]. by destruct (ttype c). Qed.

Lemma term_not_rparen d ts a rest : Term d ts a -> hd_ty (ts ++ rest) <> TOK_RPAREN.
Proof.
  intros []; cbn; try congruence. destruct (num_first ts0 a0 rest) as [->|[->| ->]]; done.
Qed.

Lemma term_runs fuel d ts a rest pv : Term d ts a -> (List.length ts < fuel)%nat -> ends_term rest ->
  runs (parse_atom_arg_at_depth fuel d) (ts ++ rest) pv a rest.
Proof.
  revert d ts a rest pv. induction fuel as [|fuel IH]; intros d ts a rest pv Ht Hf Hst; [lia|]. cbn [parse_atom_arg_at_depth].
  destruct Ht as [d t Hd Ht|d t Hd Ht|d ts a Hd Hn|d t Hd Ht|d t lp ts rp args Hd Ht Hlp Hrp Hs]; cbn [app].
  - rstep. rewrite (proj2 (Z.ltb_ge _ _)) by done. rstep. apply runs_ret.
  - rstep. rewrite (proj2 (Z.ltb_ge _ _)) by done. do 2 rstep. apply runs_check. rewrite bool_decide_false by done. rstep. apply runs_ret.
  - apply runs_cur_any; [by destruct Hn|]. intros t Ht. rewrite (proj2 (Z.ltb_ge _ _)) by done. pose proof (num_first ts a rest Hn) as Hfst.
    do 2 (apply runs_match_no; [destruct Hfst as [->|[->| ->]]; done|]). by apply num_runs.
  - rstep. rewrite (proj2 (Z.ltb_ge _ _)) by done. do 2 rstep. apply number_skip; [done|ty_dec..|]. do 2 rstep. apply runs_ret.
  - cbn in Hf. rewrite length_app in Hf. cbn in Hf. flat. rstep. rewrite (proj2 (Z.ltb_ge _ _)) by done. do 3 rstep.
    unfold parse_compound_term. do 2 rstep. apply runs_check.
    rewrite bool_decide_false by (eapply sep_first; [by intros; eapply term_not_rparen|done]).
    eapply runs_bind; [apply (items_runs (Term (d + 1)) ends_term _ (pred fuel)); [| |done|lia|lia| |ty_dec]|].
    + intros. apply IH; [done|lia|done].
    + intros c l Hc. apply closes_term. by rewrite Hc.
    + apply closes_term. by rewrite Hrp.
    + intros pv1. rstep. apply runs_ret.
Qed.

Lemma terms_runs fuel ts args rp rest pv : OptSep (Term 0) ts args -> (List.length ts < fuel)%nat -> ttype rp = TOK_RPAREN ->
  runs (opt_items fuel (parse_atom_arg fuel)) (ts ++ rp :: rest) pv args (rp :: rest).
Proof.
  intros Ho Hf Hrp. apply (opt_items_runs (Term 0) ends_term _ (pred fuel)); [| |by intros; eapply term_not_rparen|done|lia|lia| |done].
  - intros. apply term_runs; [done|lia|done].
  - intros c l Hc. apply closes_term. by rewrite Hc.
  - intros l. apply closes_term. by rewrite Hrp.
Qed.

Lemma sep_terms_runs fuel ts args rp rest pv : Sep (Term 0) ts args -> (List.length ts < fuel)%nat -> ttype rp = TOK_RPAREN ->
  runs (items fuel (parse_atom_arg fuel)) (ts ++ rp :: rest) pv args (rp :: rest).
Proof.
  intros Ho Hf Hrp. apply (items_runs (Term 0) ends_term _ (pred fuel)); [| |done|lia|lia| |ty_dec].
  - intros. apply term_runs; [done|lia|done].
  - intros c l Hc. apply closes_term. by rewrite Hc.
  - apply closes_term. by rewrite Hrp.
Qed.

(** After the relation's name. *)
Lemma atom_runs fuel t ts a rest : Atom (t :: ts) a -> (List.length ts < fuel)%nat -> runs (parse_atom fuel) (ts ++ rest) t a rest.
Proof.
  intros Ha Hf. inversion Ha as [t' lp ts' rp args Ht Hlp Hrp Ho]; subst. cbn in Hf. rewrite length_app in Hf. cbn in Hf.
  flat. unfold parse_atom. do 2 rstep. eapply runs_bind; [apply terms_runs; [done|lia|done]|]. intros pv1. rstep. apply runs_ret.
Qed.

Lemma call_runs fuel bang at_ ts a rest pv : Call at_ ts a -> (List.length ts < fuel)%nat ->
  runs (parse_call_marker fuel bang (tkline at_) (tkcol at_)) (ts ++ rest) pv a rest.
Proof.
  intros Hcall Hf. unfold parse_call_marker, parse_extension_call_after_lparen.
  destruct Hcall as [c lp s rp Hc Htx Hlp Hs Hrp Hlen Hval|c lp s cm ts rp args Hc Htx Hlp Hs Hcm Hrp Hlen Hval Hargs].
  - cbn [app]. do 2 rstep. rewrite bool_decide_true by done. cbn [negb]. do 3 rstep. cbv zeta.
    rewrite Hval, (proj2 (Nat.ltb_ge _ _)) by done. cbn [orb negb].
    eapply (runs_bind _ _ [] _ []); [cbn [app]; rstep; apply runs_ret|]. intros pv1. rstep. apply runs_ret.
  - cbn in Hf. rewrite length_app in Hf. cbn in Hf. flat.
    do 2 rstep. rewrite bool_decide_true by done. cbn [negb]. do 3 rstep. cbv zeta.
    rewrite Hval, (proj2 (Nat.ltb_ge _ _)) by done. cbn [orb negb].
    eapply (runs_bind _ _ args _ (cm :: ts)); [cbn [app]; do 2 rstep; apply sep_terms_runs; [done|lia|done]|].
    intros pv1. rstep. apply runs_ret.
Qed.

(** *** Predicates *)

Lemma compare_ends_expr t l : is_compare_op (ttype t) = true -> ends_expr 0 (t :: l).
Proof. unfold ends_expr. cbn [hd_ty]. by destruct (ttype t). Qed.

Lemma compare_rest_runs fuel t ts l r rest pv : is_compare_op (ttype t) = true -> Expr 0 ts r -> (List.length ts < fuel)%nat ->
  ends_expr 0 rest -> runs (parse_compare_rest fuel l) (t :: ts ++ rest) pv (node (with_cmp (token_to_cmp_op (ttype t))) COMPARISON t [l; r]) rest.
Proof.
  intros Hop He Hf Hst. unfold parse_compare_rest. do 2 rstep.
  eapply runs_bind; [by apply expr_runs|]. intros pv1. apply runs_ret.
Qed.

Lemma comparison_runs fuel msg ts1 l t ts2 r rest pv : Expr 0 ts1 l -> is_compare_op (ttype t) = true -> Expr 0 ts2 r ->
  (List.length ts1 < fuel)%nat -> (List.length ts2 < fuel)%nat -> ends_expr 0 rest ->
  runs (parse_comparison fuel msg) (ts1 ++ t :: ts2 ++ rest) pv (node (with_cmp (token_to_cmp_op (ttype t))) COMPARISON t [l; r]) rest.
Proof.
  intros Hl Hop Hr Hf1 Hf2 Hst. unfold parse_comparison.
  eapply runs_bind; [apply expr_runs; [done|done|by apply compare_ends_expr]|]. intros pv1. rstep. rewrite Hop. cbn [negb].
  by apply compare_rest_runs.
Qed.

(** The token after a leading variable is not a parenthesis. *)
Lemma expr_second lvl t ts a rest : Expr lvl (t :: ts) a -> ttype t = TOK_IDENT -> hd_ty rest <> TOK_LPAREN ->
  hd_ty (ts ++ rest) <> TOK_LPAREN.
Proof.
  intros He Ht. remember (t :: ts) as l eqn:Hl. revert ts rest Hl.
  induction He as [|l a Hn|t1 Ht1|t1 lp ts1 rp op n what args Hop|t1 lp ts1 rp fn args Hfn|lvl l a _ _ IH|lvl ts1 a1 o op ts2 a2 _ Hop He1 IH _ _];
    intros ts rest Hl Hr; simplify_eq; [done| | | | |by apply IH|].
  - inversion Hn; congruence.
  - congruence.
  - by rewrite Ht in Hop.
  - apply string_fn_spec in Hfn as [Hfn _]. by rewrite Ht in Hfn.
  - destruct ts1 as [|t1 ts1]; cbn in Hl; simplify_eq; [exfalso|].
    + by destruct (expr_first _ _ _ He1) as (? & ? & ? & _).
    + flat. apply IH; [done|]. apply binary_op_spec in Hop as [Hop _]. cbn. intros Heq. rewrite Heq in Hop. by destruct lvl.
Qed.

Definition ends_pred (rest : list tok) : Prop := closes (hd_ty rest) = true.

Lemma ends_pred_expr rest : ends_pred rest -> ends_expr 0 rest.
Proof. unfold ends_pred, ends_expr. by destruct (hd_ty rest). Qed.

Lemma negation_runs fuel t ts m a rest pv :
  (forall pv, runs (mbind (fun b : bool => if b then parse_call_marker fuel "!" (tkline t) (tkcol t)
           else mbind (fun b : bool => if b then parse_atom fuel else mret None)
                  (parser_consume TOK_IDENT "expected relation name after '!'")) (parser_match TOK_AT)) (ts ++ rest) pv m rest) ->
  a = node id NEGATION t [m] -> runs (parse_negation fuel (tkline t) (tkcol t)) (ts ++ rest) pv a rest.
Proof. intros Hm ->. unfold parse_negation. eapply runs_bind; [apply Hm|]. intros pv1. apply runs_ret. Qed.

Lemma pred_cmp_runs fuel ts1 l t ts2 r rest pv : starts_with starts_comparison ts1 -> Expr 0 ts1 l -> is_compare_op (ttype t) = true ->
  Expr 0 ts2 r -> (List.length ts1 < fuel)%nat -> (List.length ts2 < fuel)%nat -> ends_expr 0 rest ->
  runs (parse_predicate fuel) (ts1 ++ t :: ts2 ++ rest) pv (node (with_cmp (token_to_cmp_op (ttype t))) COMPARISON t [l; r]) rest.
Proof.
  intros Hs Hl Hop Hr Hf1 Hf2 Hst. destruct ts1 as [|t0 ts1]; [done|]. cbn in Hs. unfold parse_predicate. cbn [app]. do 6 rstep.
  pose proof (fun msg pv => comparison_runs fuel msg (t0 :: ts1) l t ts2 r rest pv Hl Hop Hr Hf1 Hf2 Hst) as Hcmp. cbn [app] in Hcmp.
  case_bool_decide as Hid.
  { rstep. rewrite bool_decide_false; [apply Hcmp|]. eapply expr_second; [exact Hl|done|]. cbn. intros Heq. by rewrite Heq in Hop. }
  destruct (is_bitwise_token (ttype t0)) eqn:Hb; [apply Hcmp|].
  destruct (bool_decide (ttype t0 = TOK_FLOAT) || bool_decide (ttype t0 = TOK_MINUS) || bool_decide (ttype t0 = TOK_INTEGER)) eqn:Hn; [apply Hcmp|].
  assert (Hfn : is_string_fn_token (ttype t0) = true) by (by destruct (ttype t0)). rewrite Hfn.
  apply (runs_bind _ _ l _ (t0 :: ts1) (t :: ts2 ++ rest)); [apply expr_runs; [done|done|by apply compare_ends_expr]|].
  intros pv1. rstep. rewrite Hop. by apply compare_rest_runs.
Qed.

Lemma pred_string_runs fuel ts a rest pv : starts_with is_string_fn_token ts -> Expr 0 ts a -> (List.length ts < fuel)%nat ->
  ends_pred rest -> runs (parse_predicate fuel) (ts ++ rest) pv a rest.
Proof.
  intros Hs He Hf Hst. destruct ts as [|t ts]; [done|]. cbn in Hs. unfold parse_predicate. cbn [app]. do 6 rstep. rstep.
  assert (Hb : is_bitwise_token (ttype t) = false) by (by destruct (ttype t)). rewrite Hb, Hs, !bool_decide_false by ty_dec. cbn [orb].
  apply (runs_bind _ _ a _ (t :: ts) rest); [apply expr_runs; [done|done|by apply ends_pred_expr]|].
  intros pv1. apply runs_cur_any; [by destruct rest|]. intros c Hc. rewrite Hc.
  replace (is_compare_op (hd_ty rest)) with false by (unfold ends_pred in Hst; by destruct (hd_ty rest)). apply runs_ret.
Qed.

Lemma pred_runs fuel ts a rest pv : Pred ts a -> (List.length ts < fuel)%nat -> ends_pred rest ->
  runs (parse_predicate fuel) (ts ++ rest) pv a rest.
Proof.
  intros Hp Hf Hst.
  destruct Hp as [ts a Ha|t ts a Ht Hc|t Ht|t Ht|t ts a Ht Ha|t t' ts a Ht Ht' Hc|ts1 l t op ts2 r Hs Hl Hop Hr|ts a Hs He].
  - unfold parse_predicate. destruct ts as [|t [|lp ts]]; [inversion Ha..|]. cbn in Hf. pose proof (atom_runs fuel t (lp :: ts) a rest Ha ltac:(cbn; lia)) as Hr.
    inversion Ha; subst. cbn [app]. do 10 rstep. exact Hr.
  - unfold parse_predicate. flat. do 3 rstep. cbn in Hf. apply call_runs; [done|lia].
  - unfold parse_predicate. flat. do 4 rstep. apply runs_ret.
  - unfold parse_predicate. flat. do 5 rstep. apply runs_ret.
  - unfold parse_predicate. flat. do 6 rstep. cbn in Hf. eapply negation_runs; [|done]. intros pv1.
    destruct ts as [|n ts]; [inversion Ha|]. pose proof (atom_runs fuel n ts a rest Ha ltac:(cbn in Hf; lia)) as Hr.
    inversion Ha; subst. cbn [app]. do 2 rstep. exact Hr.
  - unfold parse_predicate. flat. do 6 rstep. cbn in Hf. apply (negation_runs fuel t (t' :: ts) a); [|done]. intros pv1. flat. rstep.
    apply call_runs; [done|lia].
  - apply compare_op_spec in Hop as [Hop <-]. rewrite length_app in Hf. cbn in Hf. flat. apply pred_cmp_runs; [done..|lia|lia|by apply ends_pred_expr].
  - by apply pred_string_runs.
Qed.

(** *** Heads *)

Lemma head_arg_runs fuel ts a rest pv : HeadArg ts a -> (List.length ts < fuel)%nat -> ends_pred rest ->
  runs (parse_head_arg fuel) (ts ++ rest) pv a rest.
Proof.
  intros Hh Hf Hst. unfold parse_head_arg. destruct Hh as [t lp ts rp fn a Hagg Hlp Hrp He|t ts a Ht Hc|ts a He].
  - apply aggregate_spec in Hagg as [Hagg <-]. cbn in Hf. rewrite length_app in Hf. cbn in Hf. flat. rstep. rewrite Hagg. unfold parse_aggregate_expr. do 3 rstep.
    eapply runs_bind; [apply expr_runs; [done|lia|apply closes_expr; by rewrite Hrp]|]. intros pv1. rstep. apply runs_ret.
  - pose proof (pred_runs fuel (t :: ts) a rest pv (P_call t ts a Ht Hc) Hf Hst) as Hr. flat. rstep.
    rewrite Ht. cbn [is_aggregate_token]. exact Hr.
  - destruct (expr_first _ _ _ He) as (t & ts' & -> & Ht). cbn [app]. rstep.
    replace (is_aggregate_token (ttype t)) with false by (by destruct (ttype t)).
    rewrite bool_decide_false by ty_dec. apply (expr_runs fuel (t :: ts')); [done|done|by apply ends_pred_expr].
Qed.

Lemma head_arg_not_rparen ts a rest : HeadArg ts a -> hd_ty (ts ++ rest) <> TOK_RPAREN.
Proof.
  intros [t lp ts' rp fn a' Hagg|t ts' a' Ht|ts' a' He]; cbn; [|congruence|by eapply expr_not_rparen].
  apply aggregate_spec in Hagg as [Hagg _]. intros Heq. by rewrite Heq in Hagg.
Qed.

Lemma head_args_runs fuel ts args rp rest pv : OptSep HeadArg ts args -> (List.length ts < fuel)%nat -> ttype rp = TOK_RPAREN ->
  runs (opt_items fuel (parse_head_arg fuel)) (ts ++ rp :: rest) pv args (rp :: rest).
Proof.
  intros Ho Hf Hrp. apply (opt_items_runs HeadArg ends_pred _ (pred fuel)); [| |apply head_arg_not_rparen|done|lia|lia| |done].
  - intros. apply head_arg_runs; [done|lia|done].
  - intros c l Hc. unfold ends_pred. cbn. by rewrite Hc.
  - intros l. unfold ends_pred. cbn. by rewrite Hrp.
Qed.

Lemma head_runs fuel ts a rest pv : Head ts a -> (List.length ts < fuel)%nat -> runs (parse_head fuel) (ts ++ rest) pv a rest.
Proof.
  intros [t lp ts' rp args Ht Hlp Hrp Ho] Hf. cbn in Hf. rewrite length_app in Hf. cbn in Hf. flat. unfold parse_head. do 4 rstep.
  eapply runs_bind; [apply head_args_runs; [done|lia|done]|]. intros pv1. rstep. apply runs_ret.
Qed.

(** *** Declarations *)

Lemma match_scalar_hit tbl t nm l pv : clean l -> NoDup tbl.*1 -> (ttype t, nm) ∈ tbl ->
  reads (match_scalar tbl) (t :: l) pv (Some nm) l t.
Proof.
  intros Hc. induction tbl as [|[ty nm'] tbl IH]; cbn [match_scalar fmap list_fmap]; intros Hnd Hin; [by apply not_elem_of_nil in Hin|].
  apply NoDup_cons in Hnd as [Hni Hnd]. destruct (decide (ttype t = ty)) as [Ht|Ht].
  - eapply reads_bind; [by apply reads_match_yes|]. cbv iota.
    apply elem_of_cons in Hin as [[= _ ->]|Hin]; [apply reads_ret|]. destruct Hni. rewrite <-Ht. apply list_elem_of_fmap. by exists (ttype t, nm).
  - eapply reads_bind; [by apply reads_match_no|]. apply elem_of_cons in Hin as [[= Heq _]|Hin]; [done|]. by apply IH.
Qed.

Lemma match_scalar_miss tbl l pv : hd_ty l ∉ tbl.*1 -> reads (match_scalar tbl) l pv None l pv.
Proof.
  induction tbl as [|[ty nm'] tbl IH]; cbn [match_scalar fmap list_fmap]; intros Hin; [apply reads_ret|].
  apply not_elem_of_cons in Hin as [Hne Hin]. eapply reads_bind; [by apply reads_match_no|]. by apply IH.
Qed.

Lemma scalar_nodup : NoDup scalar_types.*1.
Proof. apply (bool_decide_unpack _). by vm_compute. Qed.

Lemma scalar_runs {A} (f : option string -> M (option A)) t nm l rest pv x : (ttype t, nm) ∈ scalar_types ->
  runs (f (Some nm)) l t x rest -> runs (mbind f (match_scalar scalar_types)) (t :: l) pv x rest.
Proof.
  intros Hin Hk. eapply runs_step; [apply clean_cons|intros Hc; apply match_scalar_hit; [by eapply clean_cons|apply scalar_nodup|done]|exact Hk].
Qed.

Lemma scalar_skip {A} (f : option string -> M (option A)) t l rest pv x : ttype t = TOK_IDENT ->
  runs (f None) (t :: l) pv x rest -> runs (mbind f (match_scalar scalar_types)) (t :: l) pv x rest.
Proof.
  intros Ht Hk. eapply runs_step; [done|intros _; apply match_scalar_miss|exact Hk]. cbn [hd_ty]. rewrite Ht.
  apply (bool_decide_unpack _). by vm_compute.
Qed.

Lemma slots_runs fuel ts l rp rest pv acc : SlotList ts l -> (List.length ts < fuel)%nat -> (List.length acc + List.length l <= 4)%nat ->
  ttype rp = TOK_RPAREN -> runs (slot_types fuel acc) (ts ++ rp :: rest) pv (acc ++ l) (rp :: rest).
Proof.
  intros Hs. revert fuel pv acc. induction Hs as [t nm Ht|t nm c ts l Ht Hc Hs IH]; intros fuel pv acc Hf Hlen Hrp;
    (destruct fuel as [|fuel]; [lia|]); cbn in Hf, Hlen; cbn [slot_types app]; (eapply scalar_runs; [done|]);
    rewrite (proj2 (Nat.leb_gt _ _)) by lia.
  - rstep. apply runs_ret.
  - rstep. rewrite (snoc_app acc _ l).
    apply IH; [lia|rewrite length_app; cbn; lia|done].
Qed.

Lemma modifier_runs last ms m rest : Modifier last ms m -> hd_ty rest <> TOK_IDENT -> runs parse_modifier (ms ++ rest) last m rest.
Proof.
  intros [|t m' Ht Had Hin Htx] Hr; unfold parse_modifier; cbn [app].
  - rstep. apply runs_ret.
  - rstep. do 2 rstep. rewrite Had. rewrite !elem_of_cons in Hin. destruct Hin as [->|[->|[]%not_elem_of_nil]].
    + rewrite bool_decide_true by done. rstep. apply runs_ret.
    + rewrite Htx. rstep. rewrite bool_decide_true by done. rstep. apply runs_ret.
Qed.

Lemma type_runs fuel ts ty rest pv : Type_ ts ty -> (List.length ts < fuel)%nat -> hd_ty rest <> TOK_IDENT ->
  runs (parse_declaration_type fuel) (ts ++ rest) pv ty rest.
Proof.
  intros Hty Hf Hr. unfold parse_declaration_type.
  destruct Hty as [t nm Ht|f ts slots arity last ms m Hfn Har Hrange Hmod Hin].
  { cbn [app]. eapply scalar_runs; [done|]. apply runs_ret. }
  cbn in Hf. rewrite length_app in Hf. flat. apply scalar_skip; [done|]. do 2 rstep.
  eapply (runs_step _ _ (Some (slots, arity)) _ _ (ms ++ rest) last); [apply clean_app| |].
  { intros Hc. destruct Har as [lp ts rp l Hlp Hrp Hs Hlen|sl n Hsl Hn]; cbn in Hf.
    - rewrite length_app in Hf. cbn in Hf. cbn [app] in Hc |- *. rewrite <-app_assoc in Hc |- *. cbn [app] in Hc |- *.
      apply clean_cons in Hc. eapply reads_bind; [by apply reads_match_yes|]. cbv iota.
      destruct (slots_runs fuel ts l rp (ms ++ rest) lp [] Hs ltac:(lia) ltac:(cbn; lia) Hrp Hc) as [pv1 Hpv].
      eapply reads_bind; [exact Hpv|]. eapply reads_bind; [apply reads_consume; [|done]; by eapply clean_cons, clean_app|apply reads_ret].
    - cbn [app] in Hc |- *. apply clean_cons in Hc as Hc1. apply clean_cons in Hc1 as Hc2.
      eapply reads_bind; [apply reads_match_no; ty_dec|]. cbv iota. eapply reads_bind; [by apply reads_consume|].
      eapply reads_bind; [by apply reads_consume|]. eapply reads_bind; [apply reads_prev|apply reads_ret]. }
  cbv beta iota. rewrite (proj2 (Z.leb_gt _ _)), (proj2 (Z.ltb_ge _ _)) by lia. cbn [orb].
  eapply runs_bind; [by apply modifier_runs|]. intros pv1.
  replace (bool_decide (m = Some "inline") && (COMPOUND_INLINE_MAX_ARITY <? arity)) with false; [apply runs_ret|].
  symmetry. case_bool_decide; [|done]. cbn. apply Z.ltb_ge. by apply Hin.
Qed.

Lemma decl_params_runs fuel ts ps rp rest pv acc : Sep Param ts ps -> (List.length ts < fuel)%nat -> ttype rp = TOK_RPAREN ->
  runs (decl_params fuel acc) (ts ++ rp :: rest) pv (acc ++ ps) (rp :: rest).
Proof.
  intros Hs. revert fuel pv acc. induction Hs as [ts a Ha|ts a c ts' args Ha Hc Hs IH]; intros fuel pv acc Hf Hrp;
    (destruct fuel as [|fuel]; [lia|]); cbn [decl_params]; destruct Ha as [t co ts ty Ht Hco Hty]; flat; do 4 rstep.
  - cbn in Hf. eapply runs_bind; [apply type_runs; [done|lia|ty_dec]|]. intros pv1. cbv zeta. rstep. apply runs_ret.
  - cbn in Hf. rewrite length_app in Hf. cbn in Hf.
    eapply runs_bind; [apply type_runs; [done|lia|ty_dec]|]. intros pv1. cbv zeta. rstep.
    rewrite (snoc_app acc _ args). apply IH; [lia|done].
Qed.

(** *** Directives *)

Lemma kv_params_runs fuel ty ts ps rp rest pv acc : Sep (KeyValue ty) ts ps -> (List.length ts < fuel)%nat -> ttype rp = TOK_RPAREN ->
  runs (kv_params fuel ty acc) (ts ++ rp :: rest) pv (acc ++ ps) (rp :: rest).
Proof.
  intros Hs. revert fuel pv acc. induction Hs as [ts a Ha|ts a c ts' args Ha Hc Hs IH]; intros fuel pv acc Hf Hrp;
    (destruct fuel as [|fuel]; [lia|]); cbn [kv_params]; destruct Ha as [k e v Hk He Hv]; cbn in Hf; flat; do 6 rstep; cbv zeta; rstep.
  - apply runs_ret.
  - rewrite (snoc_app acc _ args). apply IH; [lia|done].
Qed.

Lemma io_params_runs fuel ty ts ps rp rest pv : IoParams ty ts ps -> (List.length ts < fuel)%nat -> ttype rp = TOK_RPAREN ->
  runs (io_params fuel ty) (ts ++ rp :: rest) pv ps (rp :: rest).
Proof.
  intros Hio Hf Hrp. unfold io_params. destruct Hio as [|ts ps Hs|v Hv|v c Hv Hc|v c ts ps Hv Hc Hs]; cbn [app].
  - rstep. apply runs_ret.
  - assert (Hhd : hd_ty (ts ++ rp :: rest) = TOK_IDENT) by (destruct Hs as [? ? []|? ? ? ? ? []]; done).
    apply runs_check. rewrite Hhd. rstep. apply runs_cur_any; [by destruct ts|]. intros t Ht. rewrite Ht, Hhd. rstep.
    by apply (kv_params_runs fuel ty ts ps rp rest pv []).
  - do 5 rstep. cbv zeta. rstep. apply runs_ret.
  - do 5 rstep. cbv zeta. do 2 rstep. apply runs_ret.
  - assert (Hhd : hd_ty (ts ++ rp :: rest) = TOK_IDENT) by (destruct Hs as [? ? []|? ? ? ? ? []]; done).
    do 5 rstep. cbv zeta. rstep. apply runs_check. rewrite Hhd. rstep. cbn in Hf.
    apply (kv_params_runs fuel ty ts ps rp rest c [file_param ty v]); [done|lia|done].
Qed.

Lemma adornments_runs fuel mask pos ts mask' pos' rp rest pv : Adorn mask pos ts mask' pos' -> (List.length ts < fuel)%nat ->
  ttype rp = TOK_RPAREN -> runs (adornments fuel mask pos) (ts ++ rp :: rest) pv (mask', pos') (rp :: rest).
Proof.
  intros Ha. revert fuel pv. induction Ha as [t mask pos mask' Ht Hp Had|t c ts mask pos mask1 mask' pos' Ht Hc Hp Had Ha IH];
    intros fuel pv Hf Hrp; (destruct fuel as [|fuel]; [lia|]); cbn [adornments app]; rstep; rewrite (proj2 (Z.leb_gt _ _)) by lia; rstep;
    unfold adorn in Had; cbn in Hf.
  - eapply (runs_bind _ _ mask' _ []).
    { repeat case_bool_decide; simplify_eq; apply runs_ret. }
    intros pv1. cbn [app]. rstep. apply runs_ret.
  - eapply (runs_bind _ _ mask1 _ []).
    { repeat case_bool_decide; simplify_eq; apply runs_ret. }
    intros pv1. cbn [app]. rstep. apply IH; [lia|done].
Qed.

(** *** Items and programs *)

Definition starts_item (ty : token_type) : bool :=
  match ty with TOK_DECL | TOK_INPUT | TOK_OUTPUT | TOK_PRINTSIZE | TOK_QUERY | TOK_IDENT | TOK_EOF => true | _ => false end.

Lemma rule_runs fuel hs h hn ps preds dot (plan : option tok) t rest pv : Head hs h -> ttype hn = TOK_HORN -> Sep Pred ps preds ->
  ttype dot = TOK_DOT -> head hs = Some t -> (List.length hs < fuel)%nat -> (List.length ps < fuel)%nat -> starts_item (hd_ty rest) = true ->
  match plan with Some tp => ttype tp = TOK_PLAN | None => True end ->
  runs (parse_rule_or_fact fuel) (hs ++ hn :: ps ++ dot :: match plan with Some tp => [tp] | None => [] end ++ rest) pv
    (node (with_planning (if plan then true else false)) RULE t (h :: preds)) rest.
Proof.
  intros Hh Hhn Hs Hdot Ht Hf1 Hf2 Hst Hplan. unfold parse_rule_or_fact.
  destruct hs as [|t' hs]; [done|]. cbn in Ht. simplify_eq. cbn [app]. rstep.
  apply (runs_bind _ _ h _ (t :: hs)); [by apply head_runs|]. intros pv1. rstep. rstep.
  eapply runs_bind; [apply (items_runs Pred ends_pred _ (pred fuel)); [| |done|lia|lia| |ty_dec]|].
  - intros. apply pred_runs; [done|lia|done].
  - intros c l Hc. unfold ends_pred. cbn. by rewrite Hc.
  - unfold ends_pred. cbn. by rewrite Hdot.
  - intros pv2. rstep. destruct plan as [tp|]; cbn [app]; [rstep; apply runs_ret|].
    apply runs_match_no; [by intros Heq; rewrite Heq in Hst|apply runs_ret].
Qed.

Lemma fact_runs fuel t lp ts rp dot args rest pv : ttype t = TOK_IDENT -> ttype lp = TOK_LPAREN -> ttype rp = TOK_RPAREN ->
  ttype dot = TOK_DOT -> OptSep HeadArg ts args -> forallb is_constant args = true -> (List.length ts + 3 < fuel)%nat ->
  runs (parse_rule_or_fact fuel) (t :: lp :: ts ++ rp :: dot :: rest) pv (node (with_name (ttext t)) FACT t args) rest.
Proof.
  intros Ht Hlp Hrp Hdot Ho Hconst Hf. unfold parse_rule_or_fact. rstep.
  pose proof (head_runs fuel (t :: lp :: ts ++ [rp]) _ (dot :: rest) pv (Head_intro t lp ts rp args Ht Hlp Hrp Ho)
    ltac:(cbn; rewrite length_app; cbn; lia)) as Hh.
  revert Hh. flat. intros Hh. eapply (runs_bind_eq _ _ _ _ (t :: lp :: ts ++ [rp])); [by flat|exact Hh|]. intros pv1. rstep. unfold parse_fact, node at 1. cbv beta iota. rewrite Hconst. cbn [negb]. rstep. apply runs_ret.
Qed.

Lemma params_runs fuel ts ps rp rest pv : OptSep Param ts ps -> (List.length ts < fuel)%nat -> ttype rp = TOK_RPAREN ->
  runs (mbind (fun b : bool => if b then mret (Some []) else decl_params fuel []) (parser_check TOK_RPAREN))
    (ts ++ rp :: rest) pv ps (rp :: rest).
Proof.
  intros [|ts' ps' Hs] Hf Hrp; apply runs_check; [cbn [app]; rstep; apply runs_ret|].
  rewrite bool_decide_false; [by apply (decl_params_runs fuel ts' ps' rp rest pv [])|].
  destruct Hs as [? ? []|? ? ? ? ? []]; cbn; congruence.
Qed.

Lemma item_runs fuel ts a rest pv : Item ts a -> (List.length ts < fuel)%nat -> starts_item (hd_ty rest) = true ->
  runs (parse_item fuel) (ts ++ rest) pv a rest.
Proof.
  intros Hi Hf Hst. unfold parse_item. destruct Hi; cbn in Hf; repeat (rewrite length_app in Hf; cbn in Hf).
  - flat. rstep. unfold parse_declaration. do 4 rstep. eapply runs_bind; [apply params_runs; [done|lia|done]|].
    intros pv1. rstep. apply runs_ret.
  - flat. do 2 rstep. unfold parse_input_directive. do 4 rstep. eapply runs_bind; [apply io_params_runs; [done|lia|done]|].
    intros pv1. rstep. apply runs_ret.
  - flat. do 3 rstep. unfold parse_output_directive. do 3 rstep. eapply (runs_bind _ _ [] _ []).
    { cbn [app]. apply runs_match_no; [by intros Heq; rewrite Heq in Hst|apply runs_ret]. }
    intros pv1. apply runs_ret.
  - flat. do 3 rstep. unfold parse_output_directive. do 3 rstep. apply (runs_bind_eq _ _ ps _ (lp :: ts ++ [rp]) _ rest); [by flat| |].
    { rstep. eapply runs_bind; [apply io_params_runs; [done|lia|done]|]. intros pv1. rstep. apply runs_ret. }
    intros pv1. apply runs_ret.
  - flat. do 4 rstep. unfold parse_printsize_directive. do 3 rstep. apply runs_ret.
  - flat. do 5 rstep. unfold parse_query_directive. do 4 rstep. eapply (runs_bind _ _ (0, 0) _ []).
    { cbn [app]. rstep. apply runs_ret. }
    intros pv1. do 2 rstep. apply runs_ret.
  - flat. do 5 rstep. unfold parse_query_directive. do 4 rstep.
    match goal with H : Adorn _ _ _ _ _ |- _ => rename H into Had end.
    eapply (runs_bind _ _ _ _ ts).
    { apply runs_check. rewrite bool_decide_false by (destruct Had; cbn; congruence). apply adornments_runs; [done|lia|done]. }
    intros pv1. do 2 rstep. apply runs_ret.
  - flat. do 6 rstep. apply fact_runs; [done..|lia].
  - assert (Hhd : hd_ty (hs ++ hn :: ps ++ dot :: rest) = TOK_IDENT) by (match goal with H : Head _ _ |- _ => destruct H end; done).
    flat. do 5 (apply runs_match_no; [by rewrite Hhd|]). apply runs_check. rewrite Hhd. rstep.
    apply (rule_runs fuel hs h hn ps preds dot None); done || lia.
  - assert (Hhd : hd_ty (hs ++ hn :: ps ++ dot :: plan :: rest) = TOK_IDENT) by (match goal with H : Head _ _ |- _ => destruct H end; done).
    flat. do 5 (apply runs_match_no; [by rewrite Hhd|]). apply runs_check. rewrite Hhd. rstep.
    apply (rule_runs fuel hs h hn ps preds dot (Some plan)); done || lia.
Qed.

Lemma item_first ts a rest : Item ts a -> hd_ty (ts ++ rest) <> TOK_EOF /\ starts_item (hd_ty (ts ++ rest)) = true.
Proof.
  intros Hi. destruct Hi; cbn; try (match goal with H : ttype ?t = _ |- context [ttype ?t] => rewrite H end; done);
    match goal with H : Head _ _ |- _ => destruct H as [? ? ? ? ? Ht] end; cbn; by rewrite Ht.
Qed.

Lemma items_first ts l : Items ts l -> starts_item (hd_ty ts) = true.
Proof. intros [|ts' a ts'' l' Hi _]; [done|]. by destruct (item_first ts' a ts'' Hi). Qed.

Lemma program_runs fuel ts l pv acc : Items ts l -> (S (List.length ts) < fuel)%nat -> clean ts ->
  exists pv', reads (program_loop fuel acc) ts pv (Some (Node (create PROGRAM 1 1) (acc ++ l))) [] pv'.
Proof.
  intros Hs. revert fuel pv acc. induction Hs as [|ts a ts' l Hi Hs IH]; intros fuel pv acc Hf Hc;
    (destruct fuel as [|fuel]; [lia|]); cbn [program_loop].
  - exists pv. eapply reads_bind; [apply reads_check|]. eapply reads_bind; [apply reads_error|].
    rewrite app_nil_r. apply reads_ret.
  - destruct (item_first ts a ts' Hi) as [Hne _].
    assert (Hpos : (0 < List.length ts)%nat) by (destruct Hi; cbn; rewrite ?length_app; cbn; lia).
    rewrite length_app in Hf.
    destruct (item_runs fuel ts a ts' pv Hi ltac:(lia) (items_first _ _ Hs) Hc) as [pv1 Hpv1].
    destruct (IH fuel pv1 (acc ++ [a]) ltac:(lia) (clean_app _ _ Hc)) as [pv2 Hpv2]. exists pv2.
    eapply reads_bind; [apply reads_check|]. rewrite bool_decide_false by done. eapply reads_bind; [apply reads_error|].
    cbn [orb]. eapply reads_bind; [exact Hpv1|]. cbv beta iota. by rewrite (snoc_app acc _ l).
Qed.

Lemma stream_runs fuel s ts a : gives s ts -> Program ts a -> clean ts -> (S (List.length ts) < fuel)%nat ->
  parse_stream fuel s = Some (Some a, None).
Proof.
  intros Hg (l & Hs & ->) Hc Hf. unfold parse_stream, parser_advance. cbn [stream].
  assert (Hst : exists t s', next s = Some (t, s') /\ ttype t <> TOK_ERROR /\ at_ ts zero_tok (P s' t zero_tok None)).
  { destruct ts as [|t ts]; cbn in Hg.
    - destruct Hg as (t & s' & Hn & Ht). exists t, s'. split; [done|]. split; [congruence|done].
    - destruct Hg as (s' & Hn & Hg). exists t, s'. split; [done|]. apply Forall_inv in Hc. by split. }
  destruct Hst as (t & s' & -> & Ht & Hat). cbn [mbind option_bind current err]. rewrite bool_decide_false by done.
  destruct (program_runs fuel ts l zero_tok [] Hs Hf Hc) as [pv' Hr]. destruct (Hr _ Hat) as (p' & Hp' & _ & He & _).
  cbn [mbind option_bind]. unfold parse_program. rewrite Hp'. cbn [mbind option_bind]. by rewrite He.
Qed.

End Stream.

(** ** The tokens of a text *)

Definition token_of (src : list Z) (t : token) : tok := of_token src t "".

Lemma token_of_msg src t msg : type t <> TOK_ERROR -> of_token src t msg = token_of src t.
Proof. intros Ht. unfold token_of, of_token. by rewrite !bool_decide_false by done. Qed.

Lemma tokens_not_nil strtod fuel lx : tokens strtod fuel lx <> Some [].
Proof.
  destruct fuel as [|fuel]; [done|]. cbn [tokens]. destruct (next_token strtod true lx) as [[t lx']|]; cbn [mbind option_bind]; [|done].
  case_bool_decide; [done|]. by destruct (tokens strtod fuel lx').
Qed.

Lemma lexer_gives strtod fuel lx ts e : LexerProof.wf lx -> tokens strtod fuel lx = Some (ts ++ [e]) ->
  Forall (fun t => type t <> TOK_ERROR) ts -> @gives _ (lexer_next strtod) lx (token_of (source lx) <$> ts) /\ (List.length ts < fuel)%nat.
Proof.
  intros W Ht. revert lx ts W Ht. induction fuel as [|fuel IH]; intros lx ts W Ht Hc; [done|]. cbn [tokens] in Ht.
  destruct (LexerProof.next_token_ok strtod true lx W) as (t & lx' & pre & body & l' & Hn & W' & Sc).
  rewrite Hn in Ht. cbn [mbind option_bind] in Ht. case_bool_decide as Heof.
  - destruct ts as [|t1 [|]]; simplify_eq. split; [|cbn; lia]. cbn [fmap list_fmap gives]. unfold next, lexer_next. rewrite Hn. by eexists _, _.
  - destruct (tokens strtod fuel lx') as [ts'|] eqn:Ht'; cbn in Ht; [|done]. destruct ts as [|t1 ts]; cbn in Ht; simplify_eq.
    { by apply tokens_not_nil in Ht'. }
    pose proof (Forall_inv Hc) as Hc1. apply Forall_inv_tail in Hc. destruct (IH lx' ts W' Ht' Hc) as [Hg Hl]. split; [|cbn; lia].
    cbn [fmap list_fmap gives]. exists lx'. unfold next, lexer_next. rewrite Hn. cbn [mbind option_bind]. rewrite token_of_msg by done.
    split; [done|]. by rewrite (LexerProof.sc_source _ _ _ _ _ _ Sc) in Hg.
Qed.

(** C22: The parser accepts the whole grammar: when the tokens of a text derive a
    tree in the grammar, the parser returns that very tree, with the positions,
    names and values of the tokens it stands for, and records no error. *)
Theorem parse_complete (strtod : list Z -> option (nat * Z * Z)) (src : list Z) (ts : list token) (e : token) (a : ast)
  (Hs : LexerProof.text_ok src) (Ht : tokens strtod (S (List.length src)) (lexer_init src) = Some (ts ++ [e]))
  (Hc : Forall (fun t => type t <> TOK_ERROR) ts) (Hp : Program (token_of src <$> ts) a) :
  parse_string strtod src = Some (Some a, None).
Proof.
  destruct Hs as [Hpl Hlen]. destruct (lexer_gives strtod _ _ ts e (LexerProof.wf_init src Hpl Hlen) Ht Hc) as [Hg Hl].
  unfold parse_string. eapply (@stream_runs _ (lexer_next strtod)); [exact Hg|exact Hp| |].
  - apply Forall_fmap. eapply Forall_impl; [exact Hc|]. done.
  - rewrite length_fmap. unfold parse_fuel. lia.
Qed.

(** The derivation for the sample text [p(x) :- q(x). # c]. *)
Definition sample_tokens : list token :=
  match tokens no_strtod 18 (lexer_init LexerProof.sample) with Some ts => removelast ts | None => [] end.

Definition sample_tree : ast :=
  match parse_string no_strtod LexerProof.sample with Some (Some a, _) => a | _ => Node (create PROGRAM 0 0) [] end.

Lemma sample_program : Program (token_of LexerProof.sample <$> sample_tokens) sample_tree.
Proof.
  exists (children sample_tree). split; [|by vm_compute].
  let t := eval vm_compute in (children sample_tree) in change (children sample_tree) with t.
  let l := eval vm_compute in (token_of LexerProof.sample <$> sample_tokens) in
  change (token_of LexerProof.sample <$> sample_tokens) with l.
  match goal with |- Items [?p; ?lp; ?x; ?rp; ?hn; ?q; ?lq; ?y; ?rq; ?dot] _ =>
    apply (Is_cons ([p; lp; x; rp] ++ hn :: [q; lq; y; rq] ++ [dot]) _ []); [|apply Is_nil];
    eapply (I_rule [p; lp; x; rp] _ hn [q; lq; y; rq] _ dot p); [|done| |done|done];
    [apply (Head_intro p lp [x] rp); [done..|]; apply Opt_some, Sep_one, HA_expr, E_up; [lia|]; apply E_up; [lia|]; by apply E_var|];
    apply Sep_one, P_atom; apply (Atom_intro q lq [y] rq); [done..|]; apply Opt_some, Sep_one; by apply T_var end.
Qed.

Lemma parse_complete_witness : parse_string no_strtod LexerProof.sample = Some (Some sample_tree, None).
Proof.
  apply (parse_complete no_strtod LexerProof.sample sample_tokens (Token TOK_EOF 17 0 1 18 0 0 0) sample_tree).
  - apply LexerProof.sample_ok.
  - by vm_compute.
  - apply (bool_decide_unpack _). by vm_compute.
  - apply sample_program.
Defined.

End Grammar.
