(* ===== verification/Intern.v ===== *)
(** * Symbol intern table (src/wirelog/intern.c)

    The open-addressing table from strings to sequential ids, the segmented
    storage from ids back to strings, and the footprint that is reserved with
    the memory governor.  A string is its bytes without the terminator.  The
    writer's last stores are a list, so that a lock-free reader can be placed
    between any two of them.  Which allocations succeed, and how the governor
    answers, are inputs of an operation. *)

From S2P Require Import Prelude Governor.

Module Intern.

Import Governor.Reserve.

Definition EINVAL : Z := 22.
Definition ENOMEM : Z := 12.
Definition EBUSY : Z := 16.
Definition EALREADY : Z := 114.
Definition EOVERFLOW : Z := 75.

Definition INTERN_INITIAL_CAP : Z := 64.
Definition INTERN_LOAD_FACTOR_NUM : Z := 3.
Definition INTERN_LOAD_FACTOR_DEN : Z := 4.
Definition SLOT_EMPTY : Z := UINT32_MAX.
Definition INTERN_SEG0_SHIFT : Z := 6.
Definition INTERN_SEG0 : Z := Z.shiftl 1 INTERN_SEG0_SHIFT.
Definition INTERN_MAX_SEGMENTS : nat := 26.
Definition INTERN_MAX_STRINGS : Z := u32 (UINT32_MAX - INTERN_SEG0 + 1).
Definition sizeof_slot : Z := 4.
Definition sizeof_ptr : Z := 8.

Abbreviation str := (list Z).

(** struct wl_intern; a segment is NULL or an array of pointers to strings. *)
Record intern := I {
  segments : list (option (list (option str)));
  count : Z;
  slots : list Z;
  slot_capacity : Z;
  memory_governor : option nat;
  reserved_bytes : Z }.

(** ** Hash and segments *)

Definition fnv1a (s : str) : Z := foldl (fun hash c => u32 (Z.lxor hash c * 16777619)) 2166136261 s.

(** while (v > 1) { v >>= 1; r++; } *)
Fixpoint ilog2_loop (fuel : nat) (v r : Z) : option Z :=
  match fuel with
  | O => None
  | S fuel' => if 1 <? v then ilog2_loop fuel' (Z.shiftr v 1) (r + 1) else Some r
  end.
Definition intern_ilog2 (v : Z) : option Z := ilog2_loop 32 v 0.

Definition intern_seg_of (id : Z) : option Z := intern_ilog2 (u32 (Z.shiftr id INTERN_SEG0_SHIFT + 1)).
Definition intern_seg_base (seg : Z) : Z := u32 (u32 (Z.shiftl INTERN_SEG0 seg) - INTERN_SEG0).
Definition intern_seg_size (seg : Z) : Z := u32 (Z.shiftl INTERN_SEG0 seg).

(** The outer [None]: an access outside an array or through NULL. *)
Definition intern_string_at (segs : list (option (list (option str)))) (id : Z) : option str :=
  seg ← intern_seg_of id;
  l ← rd segs (Z.to_nat seg);
  l ← l;
  e ← rd l (Z.to_nat (u32 (id - intern_seg_base seg)));
  e.

(** ** Retained bytes *)

(** A step of the saturating sums: [None] returns UINT64_MAX. *)
Definition add_bytes (total bytes : Z) : option Z := if UINT64_MAX - total <? bytes then None else Some (total + bytes).

Fixpoint segment_bytes (segs : list (option (list (option str)))) (seg total : Z) : option Z :=
  match segs with
  | [] => Some total
  | None :: segs' => segment_bytes segs' (seg + 1) total
  | Some _ :: segs' =>
      total' ← add_bytes total (intern_seg_size seg * sizeof_ptr); segment_bytes segs' (seg + 1) total'
  end.

(** for (i = 0; i < count; i++), from [i] with [n] left *)
Fixpoint string_bytes (n : nat) (t : intern) (i total : Z) : option (option Z) :=
  match n with
  | O => Some (Some total)
  | S n' =>
      s ← intern_string_at (segments t) i;
      let len := Z.of_nat (length s) in
      if len =? SIZE_MAX then Some None
      else match add_bytes total (len + 1) with
           | None => Some None
           | Some total' => string_bytes n' t (i + 1) total'
           end
  end.

Definition intern_retained_bytes_locked (t : intern) : option Z :=
  let total := u64 (slot_capacity t * sizeof_slot) in
  match segment_bytes (segments t) 0 total with
  | None => Some UINT64_MAX
  | Some total => r ← string_bytes (Z.to_nat (count t)) t 0 total; Some (default UINT64_MAX r)
  end.

(** ** The slot table *)

(** while (slots[h] != SLOT_EMPTY) h = (h + 1) & mask *)
Fixpoint find_empty (fuel : nat) (sl : list Z) (mask h : Z) : option Z :=
  match fuel with
  | O => None
  | S fuel' =>
      sid ← rd sl (Z.to_nat h);
      if sid =? SLOT_EMPTY then Some h else find_empty fuel' sl mask (Z.land (u32 (h + 1)) mask)
  end.

(** intern_lookup_locked: the id, or the empty slot the probe stopped on. *)
Fixpoint lookup_loop (fuel : nat) (t : intern) (s : str) (mask h : Z) : option (Z + Z) :=
  match fuel with
  | O => None
  | S fuel' =>
      sid ← rd (slots t) (Z.to_nat h);
      if sid =? SLOT_EMPTY then Some (inr h)
      else
        x ← intern_string_at (segments t) sid;
        if bool_decide (x = s) then Some (inl sid) else lookup_loop fuel' t s mask (Z.land (u32 (h + 1)) mask)
  end.
Definition intern_lookup_locked (t : intern) (s : str) : option (Z + Z) :=
  let mask := u32 (slot_capacity t - 1) in
  lookup_loop (Z.to_nat (slot_capacity t)) t s mask (Z.land (fnv1a s) mask).

(** Re-insert the entries from [i] on, [n] of them. *)
Fixpoint reinsert (n : nat) (t : intern) (i : Z) (new_slots : list Z) (new_cap : Z) : option (list Z) :=
  match n with
  | O => Some new_slots
  | S n' =>
      s ← intern_string_at (segments t) i;
      let mask := u32 (new_cap - 1) in
      h ← find_empty (Z.to_nat new_cap) new_slots mask (Z.land (fnv1a s) mask);
      new_slots' ← wr new_slots (Z.to_nat h) i;
      reinsert n' t (i + 1) new_slots' new_cap
  end.

Definition intern_resize_prepare (slots_ok : bool) (t : intern) : option (option (list Z * Z)) :=
  if UINT32_MAX / 2 <? slot_capacity t then Some None
  else
    let new_cap := u32 (slot_capacity t * 2) in
    if negb slots_ok then Some None
    else
      new_slots ← reinsert (Z.to_nat (count t)) t 0 (replicate (Z.to_nat new_cap) SLOT_EMPTY) new_cap;
      Some (Some (new_slots, new_cap)).

(** ** Operations *)

Definition create (calloc_ok mutex_ok slots_ok : bool) : option intern :=
  if calloc_ok && mutex_ok && slots_ok then
    Some (I (replicate INTERN_MAX_SEGMENTS None) 0 (replicate (Z.to_nat INTERN_INITIAL_CAP) SLOT_EMPTY)
            INTERN_INITIAL_CAP None 0)
  else None.

(** What a put meets: its allocations, the governor's answer to growing from
    the old to the new footprint, and whether the reservation is committed. *)
Record env := Env {
  copy_ok : bool;
  segment_ok : bool;
  slots_ok : bool;
  growth : Z -> Z -> admission;
  publish_ok : bool }.

(** The stores that publish a new entry, in order. *)
Inductive store :=
| St_reserved (bytes : Z)
| St_slots (new_slots : list Z) (new_cap : Z)
| St_segment (seg : Z) (l : list (option str))
| St_entry (seg i : Z) (s : str)
| St_slot (h id : Z)
| St_count (n : Z).

Definition apply_store (t : intern) (st : store) : option intern :=
  match st with
  | St_reserved bytes => Some (I (segments t) (count t) (slots t) (slot_capacity t) (memory_governor t) bytes)
  | St_slots sl cap => Some (I (segments t) (count t) sl cap (memory_governor t) (reserved_bytes t))
  | St_segment seg l =>
      segs ← wr (segments t) (Z.to_nat seg) (Some l);
      Some (I segs (count t) (slots t) (slot_capacity t) (memory_governor t) (reserved_bytes t))
  | St_entry seg i s =>
      l ← rd (segments t) (Z.to_nat seg); l ← l;
      l' ← wr l (Z.to_nat i) (Some s);
      segs ← wr (segments t) (Z.to_nat seg) (Some l');
      Some (I segs (count t) (slots t) (slot_capacity t) (memory_governor t) (reserved_bytes t))
  | St_slot h id =>
      sl ← wr (slots t) (Z.to_nat h) id;
      Some (I (segments t) (count t) sl (slot_capacity t) (memory_governor t) (reserved_bytes t))
  | St_count n => Some (I (segments t) n (slots t) (slot_capacity t) (memory_governor t) (reserved_bytes t))
  end.

(** The states after each store. *)
Fixpoint apply_stores (t : intern) (l : list store) : option (list intern) :=
  match l with
  | [] => Some []
  | st :: l' => t' ← apply_store t st; ts ← apply_stores t' l'; Some (t' :: ts)
  end.

(** The footprint after the put, while the old one is still held; [None] is
    goto fail. *)
Definition retained_after (t : intern) (needs_segment needs_resize : bool) (seg new_cap copy_bytes : Z) : option Z :=
  freed ← (if needs_resize then size_mul (slot_capacity t) sizeof_slot else Some 0);
  slot_bytes ← (if needs_resize then size_mul new_cap sizeof_slot else Some 0);
  seg_bytes ← (if needs_segment then size_mul (intern_seg_size seg) sizeof_ptr else Some 0);
  if reserved_bytes t <? freed then None
  else
    r ← size_add (reserved_bytes t - freed) copy_bytes;
    r ← size_add r seg_bytes;
    size_add r slot_bytes.

(** The reservation: [None] fails, [Some l] goes on with the store of the new
    footprint, if the table is governed. *)
Definition put_reservation (e : env) (t : intern) (needs_segment needs_resize : bool) (seg new_cap copy_bytes : Z) : option (list store) :=
  match memory_governor t with
  | None => Some []
  | Some _ =>
      after ← retained_after t needs_segment needs_resize seg new_cap copy_bytes;
      if reserve_ok (growth e (reserved_bytes t) after) then Some [St_reserved after] else None
  end.

(** wl_intern_put up to the point where nothing can fail any more: the value
    it returns and the stores that publish the entry. *)
Definition put_plan (e : env) (t : intern) (s : str) : option (Z * list store) :=
  let slen := Z.of_nat (length s) in
  if slen =? SIZE_MAX then Some (-1, [])
  else if negb (copy_ok e) then Some (-1, [])
  else
    found ← intern_lookup_locked t s;
    match found with
    | inl existing => Some (existing, [])
    | inr h =>
        let new_id := count t in
        if INTERN_MAX_STRINGS <=? new_id then Some (-1, [])
        else
          seg ← intern_seg_of new_id;
          segment ← rd (segments t) (Z.to_nat seg);
          let needs_segment := bool_decide (segment = None) in
          let needs_resize :=
            slot_capacity t * INTERN_LOAD_FACTOR_NUM <? u32 (new_id + 1) * INTERN_LOAD_FACTOR_DEN in
          if needs_resize && (UINT32_MAX / 2 <? slot_capacity t) then Some (-1, [])
          else
            let new_cap := if needs_resize then u32 (slot_capacity t * 2) else slot_capacity t in
            match put_reservation e t needs_segment needs_resize seg new_cap (slen + 1) with
            | None => Some (-1, [])
            | Some reserved =>
                if needs_segment && negb (segment_ok e) then Some (-1, [])
                else
                  resized ← (if needs_resize then intern_resize_prepare (slots_ok e) t else Some (Some (slots t, slot_capacity t)));
                  match resized with
                  | None => Some (-1, [])
                  | Some (new_slots, cap) =>
                      if negb (bool_decide (reserved = [])) && negb (publish_ok e) then Some (-1, [])
                      else
                        let mask := u32 (cap - 1) in
                        h ← (if needs_resize then find_empty (Z.to_nat cap) new_slots mask (Z.land (fnv1a s) mask) else Some h);
                        Some (new_id,
                          reserved ++ (if needs_resize then [St_slots new_slots cap] else []) ++
                          (if needs_segment then [St_segment seg (replicate (Z.to_nat (intern_seg_size seg)) None)] else []) ++
                          [St_entry seg (u32 (new_id - intern_seg_base seg)) s; St_slot h new_id; St_count (u32 (new_id + 1))])
                  end
            end
    end.

(** The states a put goes through, and what it returns. *)
Definition put_states (e : env) (t : intern) (s : str) : option (list intern * Z) :=
  '(id, stores) ← put_plan e t s; ts ← apply_stores t stores; Some (ts, id).

Definition put (e : env) (t : intern) (s : str) : option (intern * Z) :=
  '(ts, id) ← put_states e t s; Some (List.last ts t, id).

Definition get (t : intern) (s : str) : option Z :=
  found ← intern_lookup_locked t s; Some (match found with inl id => id | inr _ => -1 end).

(** wl_intern_reverse with the count it has loaded and the segments it reads;
    NULL is the inner [None]. *)
Definition reverse_from (loaded : Z) (segs : list (option (list (option str)))) (id : Z) : option (option str) :=
  if id <? 0 then Some None
  else if (UINT32_MAX <? id) || (loaded <=? u32 id) then Some None
  else s ← intern_string_at segs (u32 id); Some (Some s).

Definition reverse (t : intern) (id : Z) : option (option str) := reverse_from (count t) (segments t) id.

(** The governor's answer to the whole footprint, and its commit. *)
Definition attach (checked : Z -> admission) (commit_ok : bool) (ref : nat) (alive : bool) (t : intern) : option (intern * Z) :=
  match memory_governor t with
  | Some r => Some (t, if (r =? ref)%nat then EALREADY else EBUSY)
  | None =>
      bytes ← intern_retained_bytes_locked t;
      if negb alive || (bytes =? UINT64_MAX) then Some (t, ENOMEM)
      else if negb (reserve_ok (checked bytes)) then
        Some (t, match checked bytes with ADM_DENIED => ENOMEM | _ => EOVERFLOW end)
      else if negb commit_ok then Some (t, ENOMEM)
      else Some (I (segments t) (count t) (slots t) (slot_capacity t) (Some ref) bytes, 0)
  end.

Definition detach (ref : nat) (t : intern) : intern * Z :=
  match memory_governor t with
  | None => (t, 0)
  | Some r =>
      if (r =? ref)%nat then (I (segments t) (count t) (slots t) (slot_capacity t) None 0, 0) else (t, EBUSY)
  end.

(** ** Sequences of calls *)

Inductive op :=
| Put (e : env) (s : str)
| Get (s : str)
| Reverse (id : Z)
| Attach (checked : Z -> admission) (commit_ok : bool) (ref : nat) (alive : bool)
| Detach (ref : nat).

Inductive answer := A_id (id : Z) | A_str (s : option str) | A_rc (rc : Z).

(** The states a call goes through, and its answer. *)
Definition step (t : intern) (o : op) : option (list intern * answer) :=
  match o with
  | Put e s => '(ts, id) ← put_states e t s; Some (ts, A_id id)
  | Get s => id ← get t s; Some ([], A_id id)
  | Reverse id => r ← reverse t id; Some ([], A_str r)
  | Attach checked commit_ok ref alive => '(t', rc) ← attach checked commit_ok ref alive t; Some ([t'], A_rc rc)
  | Detach ref => let '(t', rc) := detach ref t in Some ([t'], A_rc rc)
  end.

Fixpoint run (t : intern) (ops : list op) : option (list intern * list answer) :=
  match ops with
  | [] => Some ([], [])
  | o :: ops' =>
      '(ts, a) ← step t o;
      '(ts', l) ← run (List.last ts t) ops';
      Some (ts ++ ts', a :: l)
  end.

(** ** An example *)

Definition free_env : env := Env true true true (fun _ _ => ADM_OK) true.

Definition put_all (e : env) (l : list str) (t : intern) : option (intern * list Z) :=
  foldl (fun acc s => '(t, ids) ← acc; '(t', id) ← put e t s; Some (t', ids ++ [id])) (Some (t, [])) l.

Example put_twice :
  (t ← create true true true; '(t', ids) ← put_all free_env [[97]; [98]; [97]; []] t;
   r ← reverse t' 1; Some (ids, r, count t')) = Some ([0; 1; 0; 2], Some [98], 3).
Proof. by vm_compute. Qed.

End Intern.
