(* ===== verification/InternProof.v ===== *)
(** * Correctness of the intern table

    The table refines a list of distinct strings: an id is a position.  The
    invariant [ok] relates the two, for the slots by probe paths and for the
    segments by position; lock-free readers and the reserved footprint follow
    from the effect of each store. *)

From S2P Require Import Prelude Governor Intern.

Import Intern.

(** ** Segments *)

Lemma ilog2_loop_spec fuel v r : 1 <= v < 2 ^ Z.of_nat fuel -> ilog2_loop fuel v r = Some (r + Z.log2 v).
Proof.
  revert v r. induction fuel as [|fuel IH]; intros v r Hv; [cbn in Hv; lia|]. cbn [ilog2_loop].
  destruct (Z.ltb_spec 1 v) as [Hgt|Hle].
  - rewrite Nat2Z.inj_succ, Z.pow_succ_r in Hv by lia. rewrite IH.
    + rewrite Z.log2_shiftr by lia. pose proof (Z.log2_pos v Hgt). f_equal. lia.
    + rewrite Z.shiftr_div_pow2 by lia. change (2 ^ 1) with 2.
      split; [apply Z.div_le_lower_bound; lia|apply Z.div_lt_upper_bound; lia].
  - replace v with 1 by lia. f_equal. cbn. lia.
Qed.

Definition seg_base (s : nat) : Z := 64 * 2 ^ Z.of_nat s - 64.
Definition seg_size (s : nat) : Z := 64 * 2 ^ Z.of_nat s.

Lemma pow_small s : (s <= 25)%nat -> 1 <= 2 ^ Z.of_nat s <= 2 ^ 25.
Proof. intros Hs. split; [|apply Z.pow_le_mono_r; lia]. pose proof (Z.pow_pos_nonneg 2 (Z.of_nat s)). lia. Qed.

Lemma seg_size_spec s : (s <= 25)%nat -> intern_seg_size (Z.of_nat s) = seg_size s.
Proof.
  intros Hs. pose proof (pow_small s Hs). unfold intern_seg_size, seg_size. rewrite Z.shiftl_mul_pow2 by lia.
  change INTERN_SEG0 with 64. apply u32_small. mi.
Qed.

Lemma seg_base_spec s : (s <= 25)%nat -> intern_seg_base (Z.of_nat s) = seg_base s.
Proof.
  intros Hs. pose proof (pow_small s Hs). pose proof (seg_size_spec s Hs) as Hsz. unfold intern_seg_base. fold (intern_seg_size (Z.of_nat s)).
  rewrite Hsz. unfold seg_size, seg_base. change INTERN_SEG0 with 64. apply u32_small. mi.
Qed.

(** An id has one segment and one place in it. *)
Lemma seg_of_spec id : 0 <= id < INTERN_MAX_STRINGS -> exists s, (s <= 25)%nat /\ intern_seg_of id = Some (Z.of_nat s) /\
  seg_base s <= id < seg_base s + seg_size s.
Proof.
  change INTERN_MAX_STRINGS with 4294967232. intros Hid. unfold intern_seg_of, intern_ilog2. change INTERN_SEG0_SHIFT with 6.
  rewrite Z.shiftr_div_pow2 by lia. change (2 ^ 6) with 64. set (v := id / 64 + 1).
  assert (Hv : 1 <= v <= 67108863) by (unfold v; Z.div_mod_to_equations; lia).
  rewrite u32_small by mi. rewrite ilog2_loop_spec by (split; [lia|]; cbn; lia).
  pose proof (Z.log2_spec v ltac:(lia)) as [Hlo Hhi]. pose proof (Z.log2_nonneg v).
  assert (Hl : Z.log2 v <= 25) by (apply Z.log2_le_pow2 in Hlo as Hx; [|lia]; assert (Z.log2 v < 26) by (apply Z.log2_lt_pow2; lia); lia).
  exists (Z.to_nat (Z.log2 v)). unfold seg_base, seg_size. rewrite Z2Nat.id by lia. split; [lia|]. split; [by f_equal|].
  rewrite Z.pow_succ_r in Hhi by lia. unfold v in *. Z.div_mod_to_equations. lia.
Qed.

Lemma seg_unique id s s' : seg_base s <= id < seg_base s + seg_size s -> seg_base s' <= id < seg_base s' + seg_size s' -> s = s'.
Proof.
  unfold seg_base, seg_size. intros H1 H2. destruct (lt_eq_lt_dec s s') as [[Hlt| ->]|Hlt]; [|done|]; exfalso.
  - assert (2 ^ (Z.of_nat s + 1) <= 2 ^ Z.of_nat s') by (apply Z.pow_le_mono_r; lia). rewrite Z.pow_add_r in * by lia. lia.
  - assert (2 ^ (Z.of_nat s' + 1) <= 2 ^ Z.of_nat s) by (apply Z.pow_le_mono_r; lia). rewrite Z.pow_add_r in * by lia. lia.
Qed.

Lemma string_at_eq segs id s : (s <= 25)%nat -> intern_seg_of id = Some (Z.of_nat s) -> seg_base s <= id < seg_base s + seg_size s ->
  0 <= id < INTERN_MAX_STRINGS ->
  intern_string_at segs id = (l ← segs !! s; l ← l; e ← l !! Z.to_nat (id - seg_base s); e).
Proof.
  intros Hs Hof Hin Hid. unfold intern_string_at. rewrite Hof. cbn [mbind option_bind]. unfold rd. rewrite Nat2Z.id, seg_base_spec by done.
  rewrite u32_small; [done|]. change INTERN_MAX_STRINGS with 4294967232 in Hid. pose proof (pow_small s Hs). unfold seg_base, seg_size in *. mi.
Qed.

(** Every segment has its size, and the strings are where their ids say. *)
Record segs_ok (segs : list (option (list (option str)))) (strs : list str) : Prop := {
  sg_len : length segs = INTERN_MAX_SEGMENTS;
  sg_size : forall s l, segs !! s = Some (Some l) -> Z.of_nat (length l) = seg_size s;
  sg_at : forall i x, strs !! i = Some x -> intern_string_at segs (Z.of_nat i) = Some x }.

Lemma segs_ok_prefix segs strs strs' : strs `prefix_of` strs' -> segs_ok segs strs' -> segs_ok segs strs.
Proof. intros [k ->] [H1 H2 H3]. split; [done..|]. intros i x Hi. apply H3. by apply lookup_app_l_Some. Qed.

Lemma segs_new_segment segs strs s : segs_ok segs strs -> segs !! s = Some None -> (s <= 25)%nat ->
  Z.of_nat (length strs) <= INTERN_MAX_STRINGS ->
  segs_ok (<[s := Some (replicate (Z.to_nat (seg_size s)) None)]> segs) strs.
Proof.
  intros [H1 H2 H3] Hs Hle Hmax. split.
  - by rewrite length_insert.
  - intros s' l Hl. destruct (decide (s = s')) as [<-|Hne].
    + rewrite list_lookup_insert_eq in Hl by (by eapply lookup_lt_Some). simplify_eq. rewrite length_replicate.
      pose proof (pow_small s Hle). unfold seg_size. lia.
    + rewrite list_lookup_insert_ne in Hl by done. by apply H2.
  - intros i x Hi. specialize (H3 i x Hi). apply lookup_lt_Some in Hi.
    destruct (seg_of_spec (Z.of_nat i) ltac:(lia)) as (si & Hsi & Hof & Hin).
    rewrite (string_at_eq _ _ si) in H3 by (done || lia). rewrite (string_at_eq _ _ si) by (done || lia). destruct (decide (s = si)) as [<-|Hne].
    + by rewrite Hs in H3.
    + by rewrite list_lookup_insert_ne.
Qed.

Lemma segs_new_entry segs strs s l x : segs_ok segs strs -> segs !! s = Some (Some l) -> (s <= 25)%nat ->
  seg_base s <= Z.of_nat (length strs) < seg_base s + seg_size s -> Z.of_nat (length strs) < INTERN_MAX_STRINGS ->
  segs_ok (<[s := Some (<[Z.to_nat (Z.of_nat (length strs) - seg_base s) := Some x]> l)]> segs) (strs ++ [x]).
Proof.
  intros [H1 H2 H3] Hs Hle Hin Hmax. pose proof (H2 _ _ Hs) as Hlen. pose proof (lookup_lt_Some _ _ _ Hs) as Hslt. split.
  - by rewrite length_insert.
  - intros s' l' Hl. destruct (decide (s = s')) as [<-|Hne].
    + rewrite list_lookup_insert_eq in Hl by done. simplify_eq. by rewrite length_insert.
    + rewrite list_lookup_insert_ne in Hl by done. by apply H2.
  - intros i y Hi. assert (Hi' : (i <= length strs)%nat) by (apply lookup_lt_Some in Hi; rewrite length_app in Hi; cbn in Hi; lia).
    destruct (seg_of_spec (Z.of_nat i) ltac:(lia)) as (si & Hsi & Hof & Hini). rewrite (string_at_eq _ _ si) by (done || lia).
    apply lookup_snoc_Some in Hi as [[Hlt Hi]|[-> ->]].
    + specialize (H3 i y Hi). rewrite (string_at_eq _ _ si) in H3 by (done || lia). destruct (decide (s = si)) as [<-|Hne].
      * rewrite list_lookup_insert_eq by done. rewrite Hs in H3. cbn in H3 |- *. rewrite list_lookup_insert_ne by lia. exact H3.
      * by rewrite list_lookup_insert_ne.
    + rewrite (seg_unique _ _ _ Hini Hin). rewrite list_lookup_insert_eq by done. cbn.
      rewrite list_lookup_insert_eq by lia. done.
Qed.

(** ** Slots *)

Definition slot_at (sl : list Z) (i : Z) : Z := default SLOT_EMPTY (sl !! Z.to_nat i).
Definition home (k : Z) (s : str) : Z := fnv1a s mod 2 ^ k.

Lemma mask_mod x k : 0 <= k <= 31 -> Z.land x (u32 (2 ^ k - 1)) = x mod 2 ^ k.
Proof.
  intros Hk. assert (2 ^ k <= 2 ^ 31) by (apply Z.pow_le_mono_r; lia). assert (0 < 2 ^ k) by (apply Z.pow_pos_nonneg; lia).
  rewrite u32_small by mi. rewrite <-Z.land_ones by lia. f_equal. rewrite Z.ones_equiv. lia.
Qed.

Lemma step_mod i j n : 0 < n -> ((i + 1) mod n + j) mod n = (i + (j + 1)) mod n.
Proof. intros. rewrite Zplus_mod_idemp_l. f_equal. lia. Qed.

Lemma rd_slot sl i : 0 <= i < Z.of_nat (length sl) -> rd sl (Z.to_nat i) = Some (slot_at sl i).
Proof.
  intros Hi. unfold rd, slot_at. destruct (sl !! Z.to_nat i) as [x|] eqn:Hx; [done|]. apply lookup_ge_None in Hx. lia.
Qed.

(** The ids below [n] in a table of [2 ^ k] slots. *)
Record table_ok (strs : list str) (n : nat) (k : Z) (sl : list Z) : Prop := {
  tb_k : 6 <= k <= 31;
  tb_len : Z.of_nat (length sl) = 2 ^ k;
  tb_ids : forall i, slot_at sl i <> SLOT_EMPTY -> 0 <= slot_at sl i < Z.of_nat n;
  tb_path : forall i s, (i < n)%nat -> strs !! i = Some s -> exists d, 0 <= d < 2 ^ k /\
    slot_at sl ((home k s + d) mod 2 ^ k) = Z.of_nat i /\
    forall j, 0 <= j < d -> slot_at sl ((home k s + j) mod 2 ^ k) <> SLOT_EMPTY;
  tb_used : length (filter (fun x => x <> SLOT_EMPTY) sl) = n }.

Lemma next_slot k h : 6 <= k <= 31 -> 0 <= h < 2 ^ k -> Z.land (u32 (h + 1)) (u32 (2 ^ k - 1)) = (h + 1) mod 2 ^ k.
Proof.
  intros Hk Hh. assert (2 ^ k <= 2 ^ 31) by (apply Z.pow_le_mono_r; lia). rewrite mask_mod by lia. by rewrite u32_small by mi.
Qed.

(** A probe loop stops at the first place where it can. *)
Section Probe.
Context (k : Z) (sl : list Z).
Hypothesis Hk : 6 <= k <= 31.
Hypothesis Hlen : Z.of_nat (length sl) = 2 ^ k.

Lemma find_empty_first fuel h : 0 <= h < 2 ^ k ->
  (exists j, 0 <= j < Z.of_nat fuel /\ slot_at sl ((h + j) mod 2 ^ k) = SLOT_EMPTY) ->
  exists j, 0 <= j < Z.of_nat fuel /\ find_empty fuel sl (u32 (2 ^ k - 1)) h = Some ((h + j) mod 2 ^ k) /\
    slot_at sl ((h + j) mod 2 ^ k) = SLOT_EMPTY /\
    forall j', 0 <= j' < j -> slot_at sl ((h + j') mod 2 ^ k) <> SLOT_EMPTY.
Proof.
  revert h. induction fuel as [|fuel IH]; intros h Hh (j & Hj & Hs); [lia|]. cbn [find_empty].
  rewrite rd_slot by lia. cbn [mbind option_bind]. destruct (Z.eqb_spec (slot_at sl h) SLOT_EMPTY) as [He|Hne].
  - exists 0. rewrite Z.add_0_r, Z.mod_small by lia. split_and!; [lia|lia|done|done|lia].
  - rewrite next_slot by done. destruct (IH ((h + 1) mod 2 ^ k)) as (j1 & Hj1 & Hp & Hst & Hbefore).
    { apply Z.mod_pos_bound. lia. }
    { exists (j - 1). rewrite step_mod by lia. destruct (decide (j = 0)) as [->|].
      - rewrite Z.add_0_r, Z.mod_small in Hs by lia. done.
      - split; [lia|]. by replace (j - 1 + 1) with j by lia. }
    rewrite step_mod in Hp, Hst by lia. exists (j1 + 1). split_and!; [lia|lia|done|done|].
    intros j' Hj'. destruct (decide (j' = 0)) as [->|]; [by rewrite Z.add_0_r, Z.mod_small by lia|].
    specialize (Hbefore (j' - 1) ltac:(lia)). rewrite step_mod in Hbefore by lia. by replace (j' - 1 + 1) with j' in Hbefore by lia.
Qed.

End Probe.

Lemma reach_slot n h i : 0 < n -> 0 <= i < n -> exists j, 0 <= j < n /\ (h + j) mod n = i.
Proof.
  intros Hn Hi. exists ((i - h) mod n). split; [by apply Z.mod_pos_bound|]. rewrite Zplus_mod_idemp_r.
  replace (h + (i - h)) with i by lia. by apply Z.mod_small.
Qed.

Lemma slot_home_range k s : 6 <= k <= 31 -> 0 <= home k s < 2 ^ k.
Proof. intros Hk. apply Z.mod_pos_bound. apply Z.pow_pos_nonneg; lia. Qed.

Lemma free_slot_exists k sl h n : 6 <= k <= 31 -> Z.of_nat (length sl) = 2 ^ k -> length (filter (fun x => x <> SLOT_EMPTY) sl) = n ->
  Z.of_nat n < 2 ^ k -> exists j, 0 <= j < 2 ^ k /\ slot_at sl ((h + j) mod 2 ^ k) = SLOT_EMPTY.
Proof.
  intros Hk Hlen Hused Hn. assert (He : exists i, 0 <= i < 2 ^ k /\ slot_at sl i = SLOT_EMPTY).
  { destruct (decide (Exists (fun x => x = SLOT_EMPTY) sl)) as [He|Hno].
    - apply Exists_exists in He as (x & Hx & ->). apply list_elem_of_lookup in Hx as [i Hi]. exists (Z.of_nat i).
      pose proof (lookup_lt_Some _ _ _ Hi). split; [lia|]. unfold slot_at. by rewrite Nat2Z.id, Hi.
    - apply not_Exists_Forall in Hno; [|apply _]. rewrite filter_all in Hused by done. lia. }
  destruct He as (i & Hi & Hs). destruct (reach_slot (2 ^ k) h i ltac:(lia) Hi) as (j & Hj & Heq). exists j. by rewrite Heq.
Qed.

(** Writing a new id into the slot where its probe stopped. *)
Lemma table_insert strs n k sl s j : table_ok strs n k sl -> strs !! n = Some s -> Z.of_nat n < SLOT_EMPTY ->
  0 <= j < 2 ^ k -> slot_at sl ((home k s + j) mod 2 ^ k) = SLOT_EMPTY ->
  (forall j', 0 <= j' < j -> slot_at sl ((home k s + j') mod 2 ^ k) <> SLOT_EMPTY) ->
  table_ok strs (S n) k (<[Z.to_nat ((home k s + j) mod 2 ^ k) := Z.of_nat n]> sl).
Proof.
  intros [Hk Hlen Hids Hpath Hused] Hs Hn Hj He Hbefore. set (h := (home k s + j) mod 2 ^ k) in *.
  assert (Hh : 0 <= h < 2 ^ k) by (apply Z.mod_pos_bound; lia).
  assert (Hat : forall i, slot_at (<[Z.to_nat h := Z.of_nat n]> sl) i = if decide (Z.to_nat i = Z.to_nat h) then Z.of_nat n else slot_at sl i).
  { intros i. unfold slot_at. case_decide as Hi; [rewrite Hi, list_lookup_insert_eq by lia; done|by rewrite list_lookup_insert_ne]. }
  assert (Hkeep : forall i, slot_at sl i <> SLOT_EMPTY -> slot_at (<[Z.to_nat h := Z.of_nat n]> sl) i <> SLOT_EMPTY).
  { intros i Hi. rewrite Hat. case_decide; [lia|done]. }
  split; [done| | | |].
  - by rewrite length_insert.
  - intros i. rewrite Hat. case_decide as Hi; [lia|]. intros Hi'. specialize (Hids i Hi'). lia.
  - intros i x Hi Hx. destruct (decide (i = n)) as [->|Hne].
    + simplify_eq. exists j. split; [done|]. split; [fold h; rewrite Hat; by case_decide|]. intros j' Hj'. by apply Hkeep, Hbefore.
    + destruct (Hpath i x ltac:(lia) Hx) as (d & Hd & Hsd & Hp). exists d. split; [done|]. split.
      * rewrite Hat. case_decide as Hi'; [|done]. exfalso.
        assert ((home k x + d) mod 2 ^ k = h) as Heq by (pose proof (Z.mod_pos_bound (home k x + d) (2 ^ k) ltac:(lia)); lia).
        rewrite Heq in Hsd. lia.
      * intros j' Hj'. by apply Hkeep, Hp.
  - rewrite length_filter_insert with (x := SLOT_EMPTY); [by rewrite Hused| |by intros []|lia].
    unfold slot_at in He. destruct (sl !! Z.to_nat h) eqn:Hl; [cbn in He; by subst|]. apply lookup_ge_None in Hl. lia.
Qed.

Lemma table_empty strs k : 6 <= k <= 31 -> table_ok strs 0 k (replicate (Z.to_nat (2 ^ k)) SLOT_EMPTY).
Proof.
  intros Hk. assert (0 < 2 ^ k) by (apply Z.pow_pos_nonneg; lia).
  assert (Hat : forall i, slot_at (replicate (Z.to_nat (2 ^ k)) SLOT_EMPTY) i = SLOT_EMPTY).
  { intros i. unfold slot_at. destruct (_ !! _) eqn:Hl; [|done]. by apply lookup_replicate in Hl as [-> _]. }
  split; [done|rewrite length_replicate; lia| |lia|].
  - intros i Hi. by rewrite Hat in Hi.
  - clear Hat. induction (Z.to_nat (2 ^ k)) as [|m IH]; [done|]. cbn [replicate]. by rewrite filter_cons, decide_False by (by intros []).
Qed.

Lemma find_slot strs n k sl s : table_ok strs n k sl -> Z.of_nat n < 2 ^ k -> exists j, 0 <= j < 2 ^ k /\
  find_empty (Z.to_nat (2 ^ k)) sl (u32 (2 ^ k - 1)) (Z.land (fnv1a s) (u32 (2 ^ k - 1))) = Some ((home k s + j) mod 2 ^ k) /\
  slot_at sl ((home k s + j) mod 2 ^ k) = SLOT_EMPTY /\
  forall j', 0 <= j' < j -> slot_at sl ((home k s + j') mod 2 ^ k) <> SLOT_EMPTY.
Proof.
  intros T Hn. pose proof (tb_k _ _ _ _ T) as Hk. pose proof (slot_home_range k s Hk) as Hh.
  destruct (free_slot_exists k sl (home k s) n Hk (tb_len _ _ _ _ T) (tb_used _ _ _ _ T) Hn) as (j & Hj & He).
  rewrite mask_mod by lia. fold (home k s).
  destruct (find_empty_first k sl Hk (tb_len _ _ _ _ T) (Z.to_nat (2 ^ k)) (home k s) Hh) as (j1 & Hj1 & Hf & He1 & Hb).
  { exists j. split; [lia|done]. }
  exists j1. split_and!; [lia|lia|done|done|done].
Qed.

Lemma intern_reinsert_ok t strs k : segs_ok (segments t) strs -> 6 <= k <= 31 -> Z.of_nat (length strs) < 2 ^ k -> 2 ^ k <= 2 ^ 31 ->
  forall m n sl, (n + m = length strs)%nat -> table_ok strs n k sl ->
  exists sl', reinsert m t (Z.of_nat n) sl (2 ^ k) = Some sl' /\ table_ok strs (length strs) k sl'.
Proof.
  intros Hsg Hk Hlt H31. induction m as [|m IH]; intros n sl Hn T; cbn [reinsert].
  { exists sl. split; [done|]. by replace (length strs) with n by lia. }
  destruct (lookup_lt_is_Some_2 strs n ltac:(lia)) as [s Hs]. rewrite (sg_at _ _ Hsg n s Hs). cbn [mbind option_bind].
  destruct (find_slot strs n k sl s T ltac:(lia)) as (j & Hj & -> & He & Hb). cbn [mbind option_bind].
  pose proof (tb_len _ _ _ _ T). pose proof (Z.mod_pos_bound (home k s + j) (2 ^ k) ltac:(lia)).
  rewrite wr_lt by lia. cbn [mbind option_bind]. replace (Z.of_nat n + 1) with (Z.of_nat (S n)) by lia.
  apply IH; [lia|]. apply table_insert; try done. change SLOT_EMPTY with 4294967295. change (2 ^ 31) with 2147483648 in H31. lia.
Qed.

(** ** The invariant *)

Record ok (t : intern) (strs : list str) : Prop := {
  o_count : count t = Z.of_nat (length strs);
  o_nodup : NoDup strs;
  o_segs : segs_ok (segments t) strs;
  o_slots : exists k, slot_capacity t = 2 ^ k /\ table_ok strs (length strs) k (slots t);
  o_load : Z.of_nat (length strs) * INTERN_LOAD_FACTOR_DEN <= slot_capacity t * INTERN_LOAD_FACTOR_NUM }.

Lemma cap_bound k : 6 <= k <= 31 -> 64 <= 2 ^ k <= 2147483648.
Proof.
  intros Hk. split; [change 64 with (2 ^ 6)|change 2147483648 with (2 ^ 31)]; apply Z.pow_le_mono_r; lia.
Qed.

Lemma ok_small t strs : ok t strs -> Z.of_nat (length strs) <= 1610612736 /\ Z.of_nat (length strs) < slot_capacity t.
Proof.
  intros [_ _ _ (k & Hcap & T) Hload]. pose proof (cap_bound k (tb_k _ _ _ _ T)). rewrite Hcap in *.
  unfold INTERN_LOAD_FACTOR_DEN, INTERN_LOAD_FACTOR_NUM in Hload. lia.
Qed.

Lemma lookup_first t strs k s fuel h : segs_ok (segments t) strs -> table_ok strs (length strs) k (slots t) -> 0 <= h < 2 ^ k ->
  (exists j, 0 <= j < Z.of_nat fuel /\ (slot_at (slots t) ((h + j) mod 2 ^ k) = SLOT_EMPTY \/
     exists i, strs !! i = Some s /\ slot_at (slots t) ((h + j) mod 2 ^ k) = Z.of_nat i)) ->
  exists j, 0 <= j < Z.of_nat fuel /\ (forall j', 0 <= j' < j -> slot_at (slots t) ((h + j') mod 2 ^ k) <> SLOT_EMPTY /\
      forall i, strs !! i = Some s -> slot_at (slots t) ((h + j') mod 2 ^ k) <> Z.of_nat i) /\
    (slot_at (slots t) ((h + j) mod 2 ^ k) = SLOT_EMPTY /\ lookup_loop fuel t s (u32 (2 ^ k - 1)) h = Some (inr ((h + j) mod 2 ^ k)) \/
     exists i, strs !! i = Some s /\ slot_at (slots t) ((h + j) mod 2 ^ k) = Z.of_nat i /\
       lookup_loop fuel t s (u32 (2 ^ k - 1)) h = Some (inl (Z.of_nat i))).
Proof.
  intros Hsg T. pose proof (tb_k _ _ _ _ T) as Hk. pose proof (tb_len _ _ _ _ T) as Hlen.
  revert h. induction fuel as [|fuel IH]; intros h Hh (j & Hj & Hs); [lia|]. cbn [lookup_loop].
  rewrite rd_slot by lia. cbn [mbind option_bind]. destruct (Z.eqb_spec (slot_at (slots t) h) SLOT_EMPTY) as [He|Hne].
  { exists 0. rewrite Z.add_0_r, Z.mod_small by lia. split_and!; [lia|lia|lia|]. by left. }
  pose proof (tb_ids _ _ _ _ T h Hne) as Hid. destruct (lookup_lt_is_Some_2 strs (Z.to_nat (slot_at (slots t) h)) ltac:(lia)) as [x Hx].
  pose proof (sg_at _ _ Hsg _ _ Hx) as Hat. rewrite Z2Nat.id in Hat by lia. rewrite Hat. cbn [mbind option_bind]. case_bool_decide as Hxs.
  { subst x. exists 0. rewrite Z.add_0_r, Z.mod_small by lia. split_and!; [lia|lia|lia|]. right. exists (Z.to_nat (slot_at (slots t) h)).
    rewrite Z2Nat.id by lia. done. }
  rewrite next_slot by done. destruct (IH ((h + 1) mod 2 ^ k)) as (j1 & Hj1 & Hbefore & Hres).
  { apply Z.mod_pos_bound. lia. }
  { exists (j - 1). rewrite step_mod by lia. destruct (decide (j = 0)) as [->|].
    - rewrite Z.add_0_r, Z.mod_small in Hs by lia. exfalso. destruct Hs as [|(i & Hi & Heq)]; [done|].
      rewrite Heq, Nat2Z.id in Hx. congruence.
    - split; [lia|]. by replace (j - 1 + 1) with j by lia. }
  rewrite step_mod in Hres by lia. exists (j1 + 1). split; [lia|]. split; [|exact Hres].
  intros j' Hj'. destruct (decide (j' = 0)) as [->|].
  { rewrite Z.add_0_r, Z.mod_small by lia. split; [done|]. intros i Hi Heq. rewrite Heq, Nat2Z.id in Hx. congruence. }
  specialize (Hbefore (j' - 1) ltac:(lia)). rewrite step_mod in Hbefore by lia. by replace (j' - 1 + 1) with j' in Hbefore by lia.
Qed.

(** The lookup finds the position of the string, or the slot for it. *)
Lemma intern_lookup_ok t strs s : ok t strs ->
  (forall i, strs !! i = Some s -> intern_lookup_locked t s = Some (inl (Z.of_nat i))) /\
  (s ∉ strs -> forall k, slot_capacity t = 2 ^ k -> table_ok strs (length strs) k (slots t) -> exists j, 0 <= j < 2 ^ k /\
     intern_lookup_locked t s = Some (inr ((home k s + j) mod 2 ^ k)) /\ slot_at (slots t) ((home k s + j) mod 2 ^ k) = SLOT_EMPTY /\
     forall j', 0 <= j' < j -> slot_at (slots t) ((home k s + j') mod 2 ^ k) <> SLOT_EMPTY).
Proof.
  intros O. pose proof (ok_small t strs O) as [Hmax Hcap]. pose proof (o_nodup _ _ O) as Hnd. pose proof (o_segs _ _ O) as Hsg.
  assert (Hgo : forall k, slot_capacity t = 2 ^ k -> table_ok strs (length strs) k (slots t) ->
    intern_lookup_locked t s = lookup_loop (Z.to_nat (2 ^ k)) t s (u32 (2 ^ k - 1)) (home k s)).
  { intros k Hk T. unfold intern_lookup_locked. rewrite Hk. cbv zeta. pose proof (tb_k _ _ _ _ T). by rewrite mask_mod by lia. }
  split.
  - intros i Hi. destruct (o_slots _ _ O) as (k & Hk & T). rewrite (Hgo k Hk T). pose proof (cap_bound k (tb_k _ _ _ _ T)).
    destruct (tb_path _ _ _ _ T i s) as (d & Hd & Hsd & Hp); [by eapply lookup_lt_Some|done|].
    destruct (lookup_first t strs k s (Z.to_nat (2 ^ k)) (home k s) Hsg T (slot_home_range k s (tb_k _ _ _ _ T))) as (j & Hj & Hb & Hres).
    { exists d. split; [lia|]. right. eauto. }
    destruct Hres as [[He _]|(i' & Hi' & _ & ->)]; [exfalso|by rewrite (NoDup_lookup _ _ _ _ Hnd Hi Hi')].
    destruct (Z.lt_trichotomy j d) as [Hlt|[->|Hlt]].
    + by apply (Hp j ltac:(lia)).
    + rewrite He in Hsd. change SLOT_EMPTY with 4294967295 in Hsd. apply lookup_lt_Some in Hi. lia.
    + by apply (proj2 (Hb d ltac:(lia)) i).
  - intros Hni k Hk T. rewrite (Hgo k Hk T). pose proof (cap_bound k (tb_k _ _ _ _ T)).
    destruct (free_slot_exists k (slots t) (home k s) _ (tb_k _ _ _ _ T) (tb_len _ _ _ _ T) (tb_used _ _ _ _ T) ltac:(lia)) as (j0 & Hj0 & He0).
    destruct (lookup_first t strs k s (Z.to_nat (2 ^ k)) (home k s) Hsg T (slot_home_range k s (tb_k _ _ _ _ T))) as (j & Hj & Hb & Hres).
    { exists j0. split; [lia|]. by left. }
    destruct Hres as [[He ->]|(i' & Hi' & _)]; [|destruct Hni; by eapply list_elem_of_lookup_2].
    exists j. split_and!; [lia|lia|done|done|]. intros j' Hj'. by apply Hb.
Qed.

(** ** Stores *)

(** What a lock-free reader relies on. *)
Definition vis (strs : list str) (t : intern) : Prop := count t = Z.of_nat (length strs) /\ segs_ok (segments t) strs.

Lemma ok_vis t strs : ok t strs -> vis strs t.
Proof. intros O. split; apply O. Qed.

Lemma last_step {A} (x d : A) l : List.last (x :: l) d = List.last l x.
Proof.
  revert x d. induction l as [|y l IH]; intros x d; [done|]. change (List.last (x :: y :: l) d) with (List.last (y :: l) d).
  by rewrite !IH.
Qed.

Lemma last_app' {A} (l1 l2 : list A) d : List.last (l1 ++ l2) d = List.last l2 (List.last l1 d).
Proof. revert d. induction l1 as [|x l1 IH]; intros d; [done|]. cbn [app]. by rewrite !last_step. Qed.

Lemma apply_stores_app t l1 l2 ts1 : apply_stores t l1 = Some ts1 ->
  apply_stores t (l1 ++ l2) = (ts2 ← apply_stores (List.last ts1 t) l2; Some (ts1 ++ ts2)).
Proof.
  revert t ts1. induction l1 as [|st l1 IH]; intros t ts1 H; cbn [apply_stores app] in *.
  - simplify_eq. cbn. by destruct (apply_stores t l2).
  - destruct (apply_store t st) as [t'|]; [|done]. cbn [mbind option_bind] in *. destruct (apply_stores t' l1) as [ts|] eqn:Hts; [|done].
    cbn in H. simplify_eq. rewrite (IH t' ts Hts), last_step. by destruct (apply_stores (List.last ts t') l2).
Qed.

(** The last three stores publish the string. *)
Lemma publish_entry t0 strs s k j seg l : vis strs t0 -> NoDup (strs ++ [s]) -> slot_capacity t0 = 2 ^ k ->
  table_ok (strs ++ [s]) (length strs) k (slots t0) -> segments t0 !! seg = Some (Some l) -> (seg <= 25)%nat ->
  seg_base seg <= Z.of_nat (length strs) < seg_base seg + seg_size seg -> Z.of_nat (length strs) < INTERN_MAX_STRINGS ->
  0 <= j < 2 ^ k -> slot_at (slots t0) ((home k s + j) mod 2 ^ k) = SLOT_EMPTY ->
  (forall j', 0 <= j' < j -> slot_at (slots t0) ((home k s + j') mod 2 ^ k) <> SLOT_EMPTY) ->
  Z.of_nat (length (strs ++ [s])) * INTERN_LOAD_FACTOR_DEN <= slot_capacity t0 * INTERN_LOAD_FACTOR_NUM ->
  exists t1 t2 t3, apply_stores t0 [St_entry (Z.of_nat seg) (u32 (Z.of_nat (length strs) - intern_seg_base (Z.of_nat seg))) s;
      St_slot ((home k s + j) mod 2 ^ k) (Z.of_nat (length strs)); St_count (u32 (Z.of_nat (length strs) + 1))] = Some [t1; t2; t3] /\
    vis strs t1 /\ vis strs t2 /\ ok t3 (strs ++ [s]) /\
    memory_governor t3 = memory_governor t0 /\ reserved_bytes t3 = reserved_bytes t0 /\ slot_capacity t3 = slot_capacity t0 /\
    segments t3 = <[seg := Some (<[Z.to_nat (Z.of_nat (length strs) - seg_base seg) := Some s]> l)]> (segments t0).
Proof.
  intros [Hct Hsg] Hnd Hcap T Hseg Hle Hin Hmax Hj He Hb Hload. set (n := length strs) in *.
  pose proof (sg_size _ _ Hsg _ _ Hseg) as Hlen. pose proof (lookup_lt_Some _ _ _ Hseg) as Hsl.
  pose proof (tb_len _ _ _ _ T) as Htl. pose proof (Z.mod_pos_bound (home k s + j) (2 ^ k) ltac:(lia)) as Hh.
  pose proof (segs_new_entry _ _ seg l s Hsg Hseg Hle Hin Hmax) as Hsg'. fold n in Hsg'.
  assert (Hn : u32 (Z.of_nat n - intern_seg_base (Z.of_nat seg)) = Z.of_nat n - seg_base seg).
  { rewrite seg_base_spec by done. pose proof (pow_small seg Hle). apply u32_small. unfold seg_base, seg_size in Hin |- *. mi. }
  rewrite Hn. change INTERN_MAX_STRINGS with 4294967232 in Hmax. rewrite (u32_small (Z.of_nat n + 1)) by mi.
  cbn [apply_stores apply_store]. unfold rd. rewrite Nat2Z.id, Hseg. cbn [mbind option_bind].
  rewrite (wr_lt l) by lia. cbn [mbind option_bind]. rewrite wr_lt by done. cbn [mbind option_bind slots segments count].
  rewrite wr_lt by lia. cbn [mbind option_bind]. eexists _, _, _. split; [done|].
  assert (Hpre : segs_ok (<[seg := Some (<[Z.to_nat (Z.of_nat n - seg_base seg) := Some s]> l)]> (segments t0)) strs).
  { eapply segs_ok_prefix; [|exact Hsg']. by exists [s]. }
  split; [by split|]. split; [by split|]. split; [|done]. split; cbn.
  - rewrite length_app. cbn. fold n. lia.
  - done.
  - exact Hsg'.
  - exists k. split; [done|]. rewrite length_app. cbn. replace (length strs + 1)%nat with (S n) by (unfold n; lia).
    apply table_insert; [done| |change SLOT_EMPTY with 4294967295; lia|done|done|done].
    rewrite lookup_app_r by (unfold n; lia). by rewrite Nat.sub_diag.
  - exact Hload.
Qed.

(** The stores before: footprint, slot table, segment. *)
Definition pre_stores (r : option Z) (resized : option (list Z * Z)) (new_segment : bool) (seg : nat) : list store :=
  match r with Some b => [St_reserved b] | None => [] end ++
  match resized with Some (sl, cap) => [St_slots sl cap] | None => [] end ++
  (if new_segment then [St_segment (Z.of_nat seg) (replicate (Z.to_nat (seg_size seg)) None)] else []).

Lemma pre_ok t strs r resized new_segment seg : vis strs t -> (seg <= 25)%nat -> Z.of_nat (length strs) <= INTERN_MAX_STRINGS ->
  (new_segment = true -> segments t !! seg = Some None) ->
  exists ts, apply_stores t (pre_stores r resized new_segment seg) = Some ts /\ Forall (vis strs) ts /\ vis strs (List.last ts t) /\
    List.last ts t = I (if new_segment then <[seg := Some (replicate (Z.to_nat (seg_size seg)) None)]> (segments t) else segments t) (count t)
      (match resized with Some (sl, _) => sl | None => slots t end) (match resized with Some (_, cap) => cap | None => slot_capacity t end)
      (memory_governor t) (default (reserved_bytes t) r).
Proof.
  intros [Hct Hsg] Hle Hmax Hseg. pose proof (sg_len _ _ Hsg) as Hlen.
  assert (Hv : forall sl cap g b, vis strs (I (segments t) (count t) sl cap g b)) by (by split).
  destruct new_segment.
  - assert (Hv' : forall sl cap g b, vis strs (I (<[seg := Some (replicate (Z.to_nat (seg_size seg)) None)]> (segments t)) (count t) sl cap g b)).
    { split; [done|]. by apply segs_new_segment; [|apply Hseg|..]. }
    assert (Hw : forall x, wr (segments t) seg x = Some (<[seg := x]> (segments t))) by (intros x; apply wr_lt; rewrite Hlen; unfold INTERN_MAX_SEGMENTS; lia).
    destruct r as [b|], resized as [[sl cap]|]; cbn [pre_stores app apply_stores apply_store mbind option_bind segments count slots slot_capacity memory_governor reserved_bytes];
      rewrite Nat2Z.id, Hw; cbn [mbind option_bind]; eexists; (split; [done|]); split_and!; cbn [List.last]; auto.
  - destruct t as [segs ct sl0 cap0 g0 b0]. destruct r as [b|], resized as [[sl cap]|]; cbn [pre_stores app apply_stores apply_store mbind option_bind segments count slots slot_capacity memory_governor reserved_bytes];
      eexists; (split; [done|]); split_and!; cbn [List.last]; auto.
Qed.

(** ** The footprint *)

Fixpoint seg_total (segs : list (option (list (option str)))) (s : nat) : Z :=
  match segs with
  | [] => 0
  | None :: segs' => seg_total segs' (S s)
  | Some _ :: segs' => seg_size s * sizeof_ptr + seg_total segs' (S s)
  end.

Fixpoint str_total (strs : list str) : Z :=
  match strs with [] => 0 | s :: strs' => Z.of_nat (length s) + 1 + str_total strs' end.

Definition footprint (cap : Z) (segs : list (option (list (option str)))) (strs : list str) : Z :=
  cap * sizeof_slot + seg_total segs 0 + str_total strs.

Lemma seg_total_insert segs s l off : (s < length segs)%nat ->
  seg_total (<[s := Some l]> segs) off =
  seg_total segs off + match segs !! s with Some None => seg_size (off + s) * sizeof_ptr | _ => 0 end.
Proof.
  revert s off. induction segs as [|x segs IH]; intros s off Hs; [cbn in Hs; lia|]. destruct s as [|s].
  - cbn. rewrite Nat.add_0_r. destruct x; lia.
  - cbn in Hs. change (<[S s := Some l]> (x :: segs)) with (x :: <[s := Some l]> segs). cbn [seg_total lookup list_lookup].
    rewrite IH by lia. rewrite Nat.add_succ_comm. unfold sizeof_ptr. destruct x, (segs !! s) as [[|]|]; lia.
Qed.

Lemma str_total_app l1 l2 : str_total (l1 ++ l2) = str_total l1 + str_total l2.
Proof. induction l1 as [|s l1 IH]; cbn; lia. Qed.

Lemma str_total_nonneg l : 0 <= str_total l.
Proof. induction l; cbn; lia. Qed.

Lemma seg_total_nonneg segs off : 0 <= seg_total segs off.
Proof.
  revert off. induction segs as [|[x|] segs IH]; intros off; cbn; [lia| |apply IH].
  pose proof (IH (S off)). unfold seg_size, sizeof_ptr. pose proof (Z.pow_nonneg 2 (Z.of_nat off)). lia.
Qed.

(** The governed footprint is the one reserved. *)
Definition accounted (t : intern) (strs : list str) : Prop :=
  memory_governor t = None \/
  reserved_bytes t = footprint (slot_capacity t) (segments t) strs /\ reserved_bytes t <= UINT64_MAX.

Lemma size_mul_small a b : 0 <= a -> 0 <= b -> a * b <= UINT64_MAX -> Reserve.size_mul a b = Some (a * b).
Proof.
  intros Ha Hb Hab. unfold Reserve.size_mul. destruct (Z.eqb_spec a 0) as [->|Hne]; cbn [negb andb]; [done|].
  rewrite (proj2 (Z.ltb_ge _ _)); [f_equal; apply u64_small; mi_unfold; nia|]. apply Z.div_le_lower_bound; lia.
Qed.

Lemma size_add_spec a b : 0 <= a -> 0 <= b -> Reserve.size_add a b = if a + b <=? UINT64_MAX then Some (a + b) else None.
Proof.
  intros Ha Hb. unfold Reserve.size_add. destruct (Z.leb_spec (a + b) UINT64_MAX).
  - rewrite (proj2 (Z.ltb_ge _ _)) by lia. f_equal. apply u64_small. mi.
  - by rewrite (proj2 (Z.ltb_lt _ _)) by lia.
Qed.

Definition grown (t : intern) (ns nr : bool) (seg : nat) (new_cap copy : Z) : Z :=
  reserved_bytes t - (if nr then slot_capacity t * sizeof_slot else 0) + copy +
  (if ns then seg_size seg * sizeof_ptr else 0) + (if nr then new_cap * sizeof_slot else 0).

Lemma retained_after_spec t strs ns nr seg new_cap copy : reserved_bytes t = footprint (slot_capacity t) (segments t) strs ->
  (seg <= 25)%nat -> 0 <= slot_capacity t <= 2147483648 -> 0 <= new_cap <= 2147483648 -> 0 <= copy ->
  retained_after t ns nr (Z.of_nat seg) new_cap copy =
  if grown t ns nr seg new_cap copy <=? UINT64_MAX then Some (grown t ns nr seg new_cap copy) else None.
Proof.
  intros Hres Hseg Hcap Hnew Hcopy. pose proof (pow_small seg Hseg). pose proof (seg_total_nonneg (segments t) 0).
  pose proof (str_total_nonneg strs).
  unfold retained_after, grown. rewrite seg_size_spec by done.
  assert (Hf : (if nr then Reserve.size_mul (slot_capacity t) sizeof_slot else Some 0) = Some (if nr then slot_capacity t * sizeof_slot else 0)).
  { destruct nr; [|done]. apply size_mul_small; unfold sizeof_slot; mi. }
  assert (Hs : (if nr then Reserve.size_mul new_cap sizeof_slot else Some 0) = Some (if nr then new_cap * sizeof_slot else 0)).
  { destruct nr; [|done]. apply size_mul_small; unfold sizeof_slot; mi. }
  assert (Hg : (if ns then Reserve.size_mul (seg_size seg) sizeof_ptr else Some 0) = Some (if ns then seg_size seg * sizeof_ptr else 0)).
  { destruct ns; [|done]. apply size_mul_small; unfold sizeof_ptr, seg_size; mi. }
  rewrite Hf, Hs, Hg. cbn [mbind option_bind].
  set (f := if nr then slot_capacity t * sizeof_slot else 0). set (g := if ns then _ else _). set (sb := if nr then new_cap * _ else _).
  assert (0 <= f <= reserved_bytes t) by (rewrite Hres; unfold f, footprint, sizeof_slot; destruct nr; lia).
  assert (0 <= g) by (unfold g, seg_size, sizeof_ptr; destruct ns; lia).
  assert (0 <= sb) by (unfold sb, sizeof_slot; destruct nr; lia).
  rewrite (proj2 (Z.ltb_ge _ _)) by lia. rewrite size_add_spec by lia.
  destruct (Z.leb_spec (reserved_bytes t - f + copy) UINT64_MAX); cbn [mbind option_bind];
    [|by rewrite (proj2 (Z.leb_gt _ _)) by lia].
  rewrite size_add_spec by lia. destruct (Z.leb_spec (reserved_bytes t - f + copy + g) UINT64_MAX); cbn [mbind option_bind];
    [|by rewrite (proj2 (Z.leb_gt _ _)) by lia].
  by rewrite size_add_spec by lia.
Qed.

Lemma table_more strs s n k sl : (n <= length strs)%nat -> table_ok strs n k sl -> table_ok (strs ++ [s]) n k sl.
Proof.
  intros Hn [H1 H2 H3 H4 H5]. split; [done..| |done]. intros i x Hi Hx. apply H4; [done|]. by rewrite lookup_app_l in Hx by lia.
Qed.

Lemma resize_ok t strs k : ok t strs -> slot_capacity t = 2 ^ k -> table_ok strs (length strs) k (slots t) -> k <= 30 ->
  exists sl, intern_resize_prepare true t = Some (Some (sl, 2 ^ (k + 1))) /\ table_ok strs (length strs) (k + 1) sl.
Proof.
  intros O Hcap T Hk. pose proof (tb_k _ _ _ _ T). pose proof (ok_small t strs O) as [Hmax Hlt].
  assert (Hp : 2 ^ (k + 1) = 2 * 2 ^ k) by (rewrite Z.pow_add_r; lia).
  assert (Hb : 2 ^ (k + 1) <= 2 ^ 31) by (apply Z.pow_le_mono_r; lia). change (2 ^ 31) with 2147483648 in Hb.
  unfold intern_resize_prepare. rewrite Hcap. change (UINT32_MAX / 2) with 2147483647. rewrite (proj2 (Z.ltb_ge _ _)) by lia.
  replace (u32 (2 ^ k * 2)) with (2 ^ (k + 1)) by (rewrite u32_small by mi; lia). cbn [negb]. cbv zeta.
  destruct (intern_reinsert_ok t strs (k + 1) (o_segs _ _ O) ltac:(lia) ltac:(lia) Hb (length strs) 0 (replicate (Z.to_nat (2 ^ (k + 1))) SLOT_EMPTY))
    as (sl & Hsl & Tsl); [lia|by apply table_empty; lia|].
  rewrite (o_count _ _ O), Nat2Z.id. change 0 with (Z.of_nat 0). rewrite Hsl. by exists sl.
Qed.

(** All stores of a put, for each way it can go. *)
Lemma publish_new t strs s r resized ns seg k j : ok t strs -> s ∉ strs ->
  (seg <= 25)%nat -> seg_base seg <= Z.of_nat (length strs) < seg_base seg + seg_size seg ->
  (if ns : bool then segments t !! seg = Some None else exists l, segments t !! seg = Some (Some l)) ->
  let sl := match resized with Some (sl, _) => sl | None => slots t end in
  let cap := match resized with Some (_, cap) => cap | None => slot_capacity t end in
  cap = 2 ^ k -> table_ok strs (length strs) k sl -> 0 <= j < 2 ^ k -> slot_at sl ((home k s + j) mod 2 ^ k) = SLOT_EMPTY ->
  (forall j', 0 <= j' < j -> slot_at sl ((home k s + j') mod 2 ^ k) <> SLOT_EMPTY) ->
  Z.of_nat (length strs + 1) * INTERN_LOAD_FACTOR_DEN <= cap * INTERN_LOAD_FACTOR_NUM ->
  exists pre t', apply_stores t (pre_stores r resized ns seg ++
      [St_entry (Z.of_nat seg) (u32 (Z.of_nat (length strs) - intern_seg_base (Z.of_nat seg))) s;
       St_slot ((home k s + j) mod 2 ^ k) (Z.of_nat (length strs)); St_count (u32 (Z.of_nat (length strs) + 1))]) = Some (pre ++ [t']) /\
    Forall (vis strs) pre /\ ok t' (strs ++ [s]) /\ memory_governor t' = memory_governor t /\
    reserved_bytes t' = default (reserved_bytes t) r /\ slot_capacity t' = cap /\
    seg_total (segments t') 0 = seg_total (segments t) 0 + (if ns then seg_size seg * sizeof_ptr else 0).
Proof.
  intros O Hni Hseg Hin Hns sl cap Hcap T Hj He Hb Hload. pose proof (ok_small t strs O) as [Hmax _].
  assert (Hlen : (seg < length (segments t))%nat) by (rewrite (sg_len _ _ (o_segs _ _ O)); unfold INTERN_MAX_SEGMENTS; lia).
  destruct (pre_ok t strs r resized ns seg (ok_vis _ _ O) Hseg) as (ts & Hts & Hvis & Hlast & Heq).
  { change INTERN_MAX_STRINGS with 4294967232. lia. }
  { by intros ->. }
  set (t0 := List.last ts t) in *.
  assert (Hl : exists l, segments t0 !! seg = Some (Some l) /\
    seg_total (<[seg := Some (<[Z.to_nat (Z.of_nat (length strs) - seg_base seg) := Some s]> l)]> (segments t0)) 0 =
    seg_total (segments t) 0 + (if ns then seg_size seg * sizeof_ptr else 0)).
  { rewrite Heq. cbn [segments]. destruct ns.
    - eexists. rewrite list_lookup_insert_eq by done. split; [done|]. rewrite list_insert_insert_eq.
      rewrite seg_total_insert, Hns by done. done.
    - destruct Hns as [l Hl]. exists l. split; [done|]. by rewrite seg_total_insert, Hl by done. }
  destruct Hl as (l & Hl & Htot).
  assert (Hnd : NoDup (strs ++ [s])) by (apply NoDup_app; split_and!; [apply O|set_solver|apply NoDup_singleton]).
  assert (Hsl0 : slots t0 = sl) by (by rewrite Heq). assert (Hcap0 : slot_capacity t0 = cap) by (by rewrite Heq).
  destruct (publish_entry t0 strs s k j seg l Hlast Hnd) as (t1 & t2 & t3 & Hap & H1 & H2 & H3 & Hg & Hr & Hc & Hsegs).
  all: rewrite ?Hsl0, ?Hcap0; try done.
  - apply table_more; [lia|done].
  - change INTERN_MAX_STRINGS with 4294967232. lia.
  - rewrite length_app. exact Hload.
  - rewrite (apply_stores_app _ _ _ ts Hts). fold t0. rewrite Hap. cbn [mbind option_bind]. exists (ts ++ [t1; t2]), t3.
    rewrite <-app_assoc. split; [done|]. split; [apply Forall_app; auto|]. split; [done|].
    rewrite Hg, Hr, Hc, Hcap0, Hsegs, Htot. rewrite Heq. by split_and!.
Qed.

Definition may_fail (e : env) (t : intern) (strs : list str) (s : str) : Prop :=
  Z.of_nat (length s) = SIZE_MAX \/ copy_ok e = false \/
  s ∉ strs /\ (segment_ok e = false \/ slots_ok e = false \/ Z.of_nat (length strs) = 1610612736 \/
    memory_governor t <> None /\
      (publish_ok e = false \/ (exists b, Reserve.reserve_ok (growth e (reserved_bytes t) b) = false) \/
       2 ^ 64 <= reserved_bytes t + Z.of_nat (length s) + 2 ^ 35)).

Definition put_outcome (e : env) (t : intern) (strs : list str) (s : str) (id : Z) (ts : list intern) : Prop :=
  (exists i, strs !! i = Some s /\ id = Z.of_nat i /\ ts = []) \/
  (id = -1 /\ ts = [] /\ may_fail e t strs s) \/
  (s ∉ strs /\ id = Z.of_nat (length strs) /\ exists pre t', ts = pre ++ [t'] /\ Forall (vis strs) pre /\
     ok t' (strs ++ [s]) /\ accounted t' (strs ++ [s]) /\ memory_governor t' = memory_governor t).

(** A put that fails stores nothing. *)
Lemma put_fails e t strs s : may_fail e t strs s ->
  exists ts, apply_stores t [] = Some ts /\ put_outcome e t strs s (-1) ts.
Proof. intros Hf. exists []. split; [done|]. by right; left. Qed.

Lemma reservation_cases e t strs s ns nr seg new_cap : accounted t strs -> s ∉ strs ->
  (seg <= 25)%nat -> 0 <= slot_capacity t <= 2147483648 -> 0 <= new_cap <= 2147483648 ->
  let b := grown t ns nr seg new_cap (Z.of_nat (length s) + 1) in
  put_reservation e t ns nr (Z.of_nat seg) new_cap (Z.of_nat (length s) + 1) = None /\ may_fail e t strs s \/
  put_reservation e t ns nr (Z.of_nat seg) new_cap (Z.of_nat (length s) + 1) = Some [] /\ memory_governor t = None \/
  put_reservation e t ns nr (Z.of_nat seg) new_cap (Z.of_nat (length s) + 1) = Some [St_reserved b] /\ memory_governor t <> None /\
    b <= UINT64_MAX /\ reserved_bytes t = footprint (slot_capacity t) (segments t) strs.
Proof.
  intros Hacc Hni Hseg Hcap Hnew b. unfold put_reservation. destruct (memory_governor t) as [g|] eqn:Hg; [|by right; left].
  destruct Hacc as [Hacc|[Hres Hle]]; [congruence|].
  rewrite (retained_after_spec t strs) by (done || lia). fold b. destruct (Z.leb_spec b UINT64_MAX) as [Hb|Hb]; cbn [mbind option_bind].
  - destruct (Reserve.reserve_ok _) eqn:Hok; [by right; right|]. left. split; [done|]. right; right. split; [done|]. right; right; right.
    rewrite Hg. split; [done|]. right; left. by eexists.
  - left. split; [done|]. right; right. split; [done|]. right; right; right. rewrite Hg. split; [done|]. right; right.
    pose proof (pow_small seg Hseg). unfold b, grown, seg_size, sizeof_slot, sizeof_ptr in Hb. destruct ns, nr; mi.
Qed.

(** A new string whose put gets as far as its reservation: the slots it will
    be entered in are [sl], of the size [cap], new ones when it resizes. *)
Section Publish.
Context (e : env) (t : intern) (strs : list str) (s : str) (resized : option (list Z * Z)) (ns : bool) (seg : nat) (k j : Z).
Let sl := match resized with Some (sl, _) => sl | None => slots t end.
Let cap := match resized with Some (_, cap) => cap | None => slot_capacity t end.
Let copy := Z.of_nat (length s) + 1.
Let last_stores :=
  [St_entry (Z.of_nat seg) (u32 (Z.of_nat (length strs) - intern_seg_base (Z.of_nat seg))) s;
   St_slot ((home k s + j) mod 2 ^ k) (Z.of_nat (length strs)); St_count (u32 (Z.of_nat (length strs) + 1))].
Hypothesis O : ok t strs.
Hypothesis Hacc : accounted t strs.
Hypothesis Hni : s ∉ strs.
Hypothesis Hseg : (seg <= 25)%nat.
Hypothesis Hin : seg_base seg <= Z.of_nat (length strs) < seg_base seg + seg_size seg.
Hypothesis Hns : if ns then segments t !! seg = Some None else exists l, segments t !! seg = Some (Some l).
Hypothesis Hcap : cap = 2 ^ k.
Hypothesis T : table_ok strs (length strs) k sl.
Hypothesis Hj : 0 <= j < 2 ^ k.
Hypothesis He : slot_at sl ((home k s + j) mod 2 ^ k) = SLOT_EMPTY.
Hypothesis Hb : forall j', 0 <= j' < j -> slot_at sl ((home k s + j') mod 2 ^ k) <> SLOT_EMPTY.
Hypothesis Hload : Z.of_nat (length strs + 1) * INTERN_LOAD_FACTOR_DEN <= cap * INTERN_LOAD_FACTOR_NUM.

Let reserves (r : option Z) : Prop :=
  memory_governor t = None /\ r = None \/
  let b := grown t ns (bool_decide (is_Some resized)) seg cap copy in
  r = Some b /\ b <= UINT64_MAX /\ reserved_bytes t = footprint (slot_capacity t) (segments t) strs.

Lemma put_published r : reserves r -> exists ts, apply_stores t (pre_stores r resized ns seg ++ last_stores) = Some ts /\ put_outcome e t strs s (Z.of_nat (length strs)) ts.
Proof.
  intros Hr. destruct (publish_new t strs s r resized ns seg k j) as (pre & t' & Hap & Hpre & Ho & Hg & Hres & Hc & Htot); try done.
  exists (pre ++ [t']). split; [done|]. right; right. split; [done|]. split; [done|]. exists pre, t'. split_and!; try done.
  destruct Hr as [[Hnone ->]|(-> & Hle & Hfp)]; [left; congruence|]. right. rewrite Hres, Hc. cbn [default]. split; [|done].
  unfold footprint in Hfp |- *. rewrite Htot, str_total_app. cbn [str_total]. unfold grown. rewrite Hfp. unfold cap, copy.
  destruct resized as [[sl' cap']|]; [rewrite bool_decide_eq_true_2 by eauto|rewrite bool_decide_eq_false_2 by (by intros [])];
    unfold id; destruct ns; lia.
Qed.

Lemma put_tail : exists id stores ts,
  match put_reservation e t ns (bool_decide (is_Some resized)) (Z.of_nat seg) cap copy with
  | None => Some (-1, [])
  | Some reserved =>
      if ns && negb (segment_ok e) then Some (-1, [])
      else if negb (bool_decide (reserved = [])) && negb (publish_ok e) then Some (-1, [])
      else Some (Z.of_nat (length strs), reserved ++ match resized with Some (sl, cap) => [St_slots sl cap] | None => [] end ++
             (if ns then [St_segment (Z.of_nat seg) (replicate (Z.to_nat (seg_size seg)) None)] else []) ++ last_stores)
  end = Some (id, stores) /\ apply_stores t stores = Some ts /\ put_outcome e t strs s id ts.
Proof.
  assert (Hfail : may_fail e t strs s -> exists id stores ts, Some (-1, []) = Some (id, stores) /\ apply_stores t stores = Some ts /\ put_outcome e t strs s id ts).
  { intros Hf. destruct (put_fails e t strs s Hf) as (ts & H1 & H2). by exists (-1), [], ts. }
  destruct (o_slots _ _ O) as (k0 & Hk0 & T0). pose proof (cap_bound k0 (tb_k _ _ _ _ T0)). pose proof (cap_bound k (tb_k _ _ _ _ T)).
  assert (Hgo : forall r, reserves r -> exists id stores ts, Some (Z.of_nat (length strs),
      match r with Some b => [St_reserved b] | None => [] end ++ match resized with Some (sl, cap) => [St_slots sl cap] | None => [] end ++
      (if ns then [St_segment (Z.of_nat seg) (replicate (Z.to_nat (seg_size seg)) None)] else []) ++ last_stores) = Some (id, stores) /\
      apply_stores t stores = Some ts /\ put_outcome e t strs s id ts).
  { intros r Hr. destruct (put_published r Hr) as (ts & H1 & H2). eexists _, _, ts. split; [done|]. split; [|done].
    unfold pre_stores in H1. by rewrite <-!app_assoc in H1. }
  change copy with (Z.of_nat (length s) + 1).
  destruct (reservation_cases e t strs s ns (bool_decide (is_Some resized)) seg cap Hacc Hni Hseg) as [[-> Hm]|Hres]; [lia..|by apply Hfail|].
  destruct (ns && negb (segment_ok e)) eqn:Hsok.
  { destruct Hres as [[-> _]|[-> _]]; apply Hfail; right; right; (split; [done|]); left; by destruct ns, (segment_ok e). }
  destruct Hres as [[-> Hg]|(-> & Hg & Hle & Hfp)].
  - rewrite bool_decide_eq_true_2 by done. cbn [negb andb]. apply (Hgo None). by left.
  - rewrite bool_decide_eq_false_2 by done. cbn [negb andb]. destruct (publish_ok e) eqn:Hpub; cbn [negb].
    + apply (Hgo (Some _)). by right.
    + apply Hfail. right; right. split; [done|]. right; right; right. by split; [|left].
Qed.

End Publish.

(** The put of a new string, behind the lookup. *)
Lemma put_new e t strs s : ok t strs -> accounted t strs -> s ∉ strs -> Z.of_nat (length s) <> SIZE_MAX -> copy_ok e = true ->
  exists id stores ts, put_plan e t s = Some (id, stores) /\ apply_stores t stores = Some ts /\ put_outcome e t strs s id ts.
Proof.
  intros O Hacc Hni Hslen Hcopy. pose proof (ok_small t strs O) as [Hmax Hlt]. destruct (o_slots _ _ O) as (k & Hk & T).
  pose proof (cap_bound k (tb_k _ _ _ _ T)) as Hcb.
  destruct (proj2 (intern_lookup_ok t strs s O) Hni k Hk T) as (j & Hj & Hlook & He & Hb).
  assert (Hfail : slots_ok e = false \/ Z.of_nat (length strs) = 1610612736 ->
    exists id stores ts, Some (-1, []) = Some (id, stores) /\ apply_stores t stores = Some ts /\ put_outcome e t strs s id ts).
  { intros Hf. destruct (put_fails e t strs s) as (ts & H1 & H2); [unfold may_fail; naive_solver|]. by exists (-1), [], ts. }
  unfold put_plan. rewrite (proj2 (Z.eqb_neq _ _) Hslen), Hcopy, Hlook. cbn [negb mbind option_bind]. rewrite (o_count _ _ O).
  change INTERN_MAX_STRINGS with 4294967232. rewrite (proj2 (Z.leb_gt _ _)) by lia.
  destruct (seg_of_spec (Z.of_nat (length strs))) as (seg & Hseg & -> & Hin); [change INTERN_MAX_STRINGS with 4294967232; lia|].
  cbn [mbind option_bind]. unfold rd. rewrite Nat2Z.id.
  destruct (lookup_lt_is_Some_2 (segments t) seg) as [segment Hsegm]; [rewrite (sg_len _ _ (o_segs _ _ O)); unfold INTERN_MAX_SEGMENTS; lia|].
  rewrite Hsegm. cbn [mbind option_bind]. rewrite seg_size_spec by done. set (ns := bool_decide (segment = None)).
  assert (Hns : if ns then segments t !! seg = Some None else exists l, segments t !! seg = Some (Some l)).
  { unfold ns. case_bool_decide; [by subst|]. destruct segment as [l|]; [by exists l|done]. }
  clearbody ns. change (UINT32_MAX / 2) with 2147483647.
  destruct (Z.ltb_spec (slot_capacity t * INTERN_LOAD_FACTOR_NUM) (u32 (Z.of_nat (length strs) + 1) * INTERN_LOAD_FACTOR_DEN)) as [Hnr|Hnr]; cbn [andb];
    rewrite u32_small in Hnr by mi; unfold INTERN_LOAD_FACTOR_NUM, INTERN_LOAD_FACTOR_DEN in Hnr.
  - destruct (Z.ltb_spec 2147483647 (slot_capacity t)) as [Hbig|Hsmall]; [apply Hfail; lia|].
    assert (k <= 30) by (destruct (decide (k <= 30)); [done|]; assert (2147483648 <= 2 ^ k) by (change 2147483648 with (2 ^ 31); apply Z.pow_le_mono_r; lia); lia).
    pose proof (tb_k _ _ _ _ T).
    assert (Hp : u32 (slot_capacity t * 2) = 2 ^ (k + 1)) by (rewrite Hk, u32_small by mi; rewrite Z.pow_add_r; lia). rewrite Hp.
    destruct (resize_ok t strs k O Hk T) as (sl & Hsl & Tsl); [done|].
    destruct (slots_ok e) eqn:Hso; cycle 1.
    { unfold intern_resize_prepare. change (UINT32_MAX / 2) with 2147483647. rewrite (proj2 (Z.ltb_ge _ _) Hsmall). cbn [negb mbind option_bind].
      destruct (put_reservation _ _ _ _ _ _ _); [destruct (_ && _)|]; by apply Hfail; left. }
    assert (Hpow : 2 ^ (k + 1) = 2 * 2 ^ k) by (rewrite Z.pow_add_r; lia).
    destruct (find_slot strs _ (k + 1) sl s Tsl ltac:(lia)) as (j1 & Hj1 & Hfe & He1 & Hb1).
    rewrite Hsl. cbn [mbind option_bind]. rewrite Hfe. cbn [mbind option_bind].
    apply (put_tail e t strs s (Some (sl, 2 ^ (k + 1))) ns seg (k + 1) j1); try done.
    unfold INTERN_LOAD_FACTOR_NUM, INTERN_LOAD_FACTOR_DEN. lia.
  - cbn [mbind option_bind]. apply (put_tail e t strs s None ns seg k j); try done.
    unfold INTERN_LOAD_FACTOR_NUM, INTERN_LOAD_FACTOR_DEN. lia.
Qed.

(** Every put returns, in one of the three ways. *)
Lemma intern_put_ok e t strs s : ok t strs -> accounted t strs ->
  exists ts id, put_states e t s = Some (ts, id) /\ put_outcome e t strs s id ts.
Proof.
  intros O Hacc. unfold put_states.
  assert (Hnone : may_fail e t strs s -> put_plan e t s = Some (-1, []) -> exists ts id, put_states e t s = Some (ts, id) /\ put_outcome e t strs s id ts).
  { intros Hf Hp. unfold put_states. rewrite Hp. destruct (put_fails e t strs s Hf) as (ts & Hts & Ho). cbn [mbind option_bind]. rewrite Hts. by exists ts, (-1). }
  destruct (decide (Z.of_nat (length s) = SIZE_MAX)) as [Hlen|Hlen].
  { apply Hnone; [by left|]. unfold put_plan. by rewrite (proj2 (Z.eqb_eq _ _) Hlen). }
  destruct (copy_ok e) eqn:Hcopy; cycle 1.
  { apply Hnone; [by right; left|]. unfold put_plan. by rewrite (proj2 (Z.eqb_neq _ _) Hlen), Hcopy. }
  destruct (decide (s ∈ strs)) as [Hs|Hni].
  - apply list_elem_of_lookup in Hs as [i Hi]. unfold put_plan. rewrite (proj2 (Z.eqb_neq _ _) Hlen), Hcopy, (proj1 (intern_lookup_ok t strs s O) i Hi).
    cbn. eexists _, _. split; [done|]. left. eauto.
  - destruct (put_new e t strs s O Hacc Hni Hlen Hcopy) as (id & stores & ts & -> & H1 & H2). cbn. rewrite H1. cbn. by exists ts, id.
Qed.

(** ** The footprint, scanned *)

Lemma add_bytes_spec total bytes : add_bytes total bytes = if total + bytes <=? UINT64_MAX then Some (total + bytes) else None.
Proof. unfold add_bytes. destruct (Z.leb_spec (total + bytes) UINT64_MAX), (Z.ltb_spec (UINT64_MAX - total) bytes); (done || lia). Qed.

Lemma segment_bytes_spec segs s total : (s + length segs <= 26)%nat -> total <= UINT64_MAX ->
  segment_bytes segs (Z.of_nat s) total = if total + seg_total segs s <=? UINT64_MAX then Some (total + seg_total segs s) else None.
Proof.
  revert s total. induction segs as [|[l|] segs IH]; intros s total Hs Ht; cbn [segment_bytes seg_total length] in *.
  - rewrite Z.add_0_r. by rewrite (proj2 (Z.leb_le _ _) Ht).
  - rewrite seg_size_spec, add_bytes_spec by lia. replace (Z.of_nat s + 1) with (Z.of_nat (S s)) by lia. rewrite Z.add_assoc.
    pose proof (seg_total_nonneg segs (S s)). destruct (Z.leb_spec (total + seg_size s * sizeof_ptr) UINT64_MAX); cbn [mbind option_bind].
    + by apply IH; lia.
    + by rewrite (proj2 (Z.leb_gt _ _)) by lia.
  - replace (Z.of_nat s + 1) with (Z.of_nat (S s)) by lia. by apply IH; lia.
Qed.

Lemma string_bytes_spec t strs n i total : segs_ok (segments t) strs -> (i + n = length strs)%nat -> 0 <= total <= UINT64_MAX ->
  string_bytes n t (Z.of_nat i) total =
  Some (if total + str_total (drop i strs) <=? UINT64_MAX then Some (total + str_total (drop i strs)) else None).
Proof.
  intros Hsg. revert i total. induction n as [|n IH]; intros i total Hi Ht; cbn [string_bytes].
  - rewrite drop_ge by lia. cbn [str_total]. rewrite Z.add_0_r. by rewrite (proj2 (Z.leb_le _ _)) by lia.
  - destruct (lookup_lt_is_Some_2 strs i ltac:(lia)) as [s Hs]. rewrite (sg_at _ _ Hsg i s Hs). cbn [mbind option_bind].
    rewrite (drop_S strs s i Hs). cbn [str_total]. pose proof (str_total_nonneg (drop (S i) strs)).
    destruct (Z.eqb_spec (Z.of_nat (length s)) SIZE_MAX) as [Hm|Hm].
    { by rewrite (proj2 (Z.leb_gt _ _)) by mi. }
    rewrite add_bytes_spec. replace (Z.of_nat i + 1) with (Z.of_nat (S i)) by lia. rewrite (Z.add_assoc total (Z.of_nat (length s) + 1)).
    destruct (Z.leb_spec (total + (Z.of_nat (length s) + 1)) UINT64_MAX).
    + by apply IH; lia.
    + by rewrite (proj2 (Z.leb_gt _ _)) by lia.
Qed.

(** What attach counts, and what the table has reserved when governed. *)
Lemma retained_bytes_spec t strs : ok t strs ->
  intern_retained_bytes_locked t = Some (Z.min UINT64_MAX (footprint (slot_capacity t) (segments t) strs)).
Proof.
  intros O. destruct (o_slots _ _ O) as (k & Hk & T). pose proof (cap_bound k (tb_k _ _ _ _ T)). pose proof (o_segs _ _ O) as Hsg.
  unfold intern_retained_bytes_locked, footprint. cbv zeta. rewrite (u64_small (slot_capacity t * sizeof_slot)) by (unfold sizeof_slot; mi).
  rewrite (segment_bytes_spec _ 0) by (rewrite ?(sg_len _ _ Hsg); unfold INTERN_MAX_SEGMENTS, sizeof_slot; mi).
  pose proof (str_total_nonneg strs). pose proof (seg_total_nonneg (segments t) 0). unfold sizeof_slot.
  destruct (Z.leb_spec (slot_capacity t * 4 + seg_total (segments t) 0) UINT64_MAX); [|f_equal; lia].
  rewrite (o_count _ _ O), Nat2Z.id, (string_bytes_spec t strs _ 0) by (done || lia). rewrite drop_0. cbn [mbind option_bind]. f_equal.
  destruct (Z.leb_spec (slot_capacity t * 4 + seg_total (segments t) 0 + str_total strs) UINT64_MAX); cbn; lia.
Qed.

(** ** The abstract table *)

(** The strings in the order of their ids, and the governor attached. *)
Module Spec.

Record state := T { strings : list str; governed : option nat }.

(** Why a put may fail. *)
Definition put_fails (e : env) (a : state) (s : str) : Prop :=
  Z.of_nat (length s) = SIZE_MAX \/ copy_ok e = false \/
  s ∉ strings a /\ (segment_ok e = false \/ slots_ok e = false \/ Z.of_nat (length (strings a)) = 1610612736 \/
    governed a <> None /\
      (publish_ok e = false \/ (exists old new, Reserve.reserve_ok (growth e old new) = false) \/
       2 ^ 64 <= str_total (strings a) + Z.of_nat (length s) + 2 ^ 37)).

Inductive step : state -> op -> answer -> state -> Prop :=
| s_put_old e s a i : strings a !! i = Some s -> step a (Put e s) (A_id (Z.of_nat i)) a
| s_put_new e s a : s ∉ strings a ->
    step a (Put e s) (A_id (Z.of_nat (length (strings a)))) (T (strings a ++ [s]) (governed a))
| s_put_fail e s a : put_fails e a s -> step a (Put e s) (A_id (-1)) a
| s_get s a i : strings a !! i = Some s -> step a (Get s) (A_id (Z.of_nat i)) a
| s_get_none s a : s ∉ strings a -> step a (Get s) (A_id (-1)) a
| s_reverse id a : step a (Reverse id) (A_str (if id <? 0 then None else strings a !! Z.to_nat id)) a
| s_attached checked commit_ok ref alive a r : governed a = Some r ->
    step a (Attach checked commit_ok ref alive) (A_rc (if (r =? ref)%nat then EALREADY else EBUSY)) a
| s_attach checked ref a bytes : governed a = None -> str_total (strings a) <= bytes < UINT64_MAX ->
    Reserve.reserve_ok (checked bytes) = true ->
    step a (Attach checked true ref true) (A_rc 0) (T (strings a) (Some ref))
| s_attach_fail checked commit_ok ref alive a rc : governed a = None -> rc = ENOMEM \/ rc = EOVERFLOW ->
    alive = false \/ commit_ok = false \/ (exists bytes, Reserve.reserve_ok (checked bytes) = false) \/
      2 ^ 64 <= str_total (strings a) + 2 ^ 37 ->
    step a (Attach checked commit_ok ref alive) (A_rc rc) a
| s_detach_none ref a : governed a = None -> step a (Detach ref) (A_rc 0) a
| s_detach ref a : governed a = Some ref -> step a (Detach ref) (A_rc 0) (T (strings a) None)
| s_detach_busy ref r a : governed a = Some r -> r <> ref -> step a (Detach ref) (A_rc EBUSY) a.

Inductive run : state -> list op -> list answer -> state -> Prop :=
| r_nil a : run a [] [] a
| r_cons a o x a1 ops l a2 : step a o x a1 -> run a1 ops l a2 -> run a (o :: ops) (x :: l) a2.

End Spec.

(** What the readers see over a sequence of states: lists of strings that only grow. *)
Inductive evolves : list str -> list intern -> list str -> Prop :=
| ev_nil strs : evolves strs [] strs
| ev_cons strs strs1 t ts strs2 : strs `prefix_of` strs1 -> vis strs1 t -> evolves strs1 ts strs2 -> evolves strs (t :: ts) strs2.

Lemma evolves_app strs1 ts1 strs2 ts2 strs3 : evolves strs1 ts1 strs2 -> evolves strs2 ts2 strs3 -> evolves strs1 (ts1 ++ ts2) strs3.
Proof. induction 1; [done|]. intros. cbn. econstructor; eauto. Qed.

Lemma evolves_const strs ts : Forall (vis strs) ts -> evolves strs ts strs.
Proof. induction 1; econstructor; eauto. Qed.

Lemma evolves_prefix strs ts strs' : evolves strs ts strs' -> strs `prefix_of` strs'.
Proof. induction 1; [done|]. by etrans. Qed.

Lemma evolves_at strs ts strs' k t : evolves strs ts strs' -> ts !! k = Some t ->
  exists l, vis l t /\ strs `prefix_of` l /\ l `prefix_of` strs'.
Proof.
  intros H. revert k. induction H as [|strs strs1 t0 ts strs2 Hp Hv H IH]; intros k Hk; [done|]. destruct k as [|k]; cbn in Hk.
  - simplify_eq. exists strs1. split_and!; [done..|]. by eapply evolves_prefix.
  - destruct (IH k Hk) as (l & H1 & H2 & H3). exists l. split_and!; [done| |done]. by etrans.
Qed.

Lemma evolves_two strs ts strs' j k tj tk : evolves strs ts strs' -> ts !! j = Some tj -> ts !! k = Some tk -> (j <= k)%nat ->
  exists lj lk, vis lj tj /\ vis lk tk /\ lj `prefix_of` lk /\ lk `prefix_of` strs'.
Proof.
  intros H. revert j k. induction H as [|strs strs1 t0 ts strs2 Hp Hv H IH]; intros j k Hj Hk Hle; [done|]. destruct j as [|j]; cbn in Hj.
  - simplify_eq. destruct k as [|k]; cbn in Hk.
    + simplify_eq. exists strs1, strs1. split_and!; [done..|]. by eapply evolves_prefix.
    + destruct (evolves_at _ _ _ k tk H Hk) as (l & H1 & H2 & H3). by exists strs1, l.
  - destruct k as [|k]; [lia|]. cbn in Hk. by apply (IH j k); [..|lia].
Qed.

Lemma seg_total_bound segs s : seg_total segs s <= 512 * (2 ^ Z.of_nat (s + length segs) - 2 ^ Z.of_nat s).
Proof.
  revert s. induction segs as [|x segs IH]; intros s; cbn [seg_total length]; [rewrite Nat.add_0_r; lia|].
  specialize (IH (S s)). replace (s + S (length segs))%nat with (S s + length segs)%nat by lia.
  assert (2 ^ Z.of_nat (S s) = 2 * 2 ^ Z.of_nat s) by (rewrite Nat2Z.inj_succ, Z.pow_succ_r; lia).
  pose proof (Z.pow_nonneg 2 (Z.of_nat s)). unfold seg_size, sizeof_ptr. destruct x; lia.
Qed.

Lemma footprint_bounds t strs : ok t strs ->
  str_total strs <= footprint (slot_capacity t) (segments t) strs <= str_total strs + 2 ^ 36.
Proof.
  intros O. destruct (o_slots _ _ O) as (k & Hk & T). pose proof (cap_bound k (tb_k _ _ _ _ T)). unfold footprint, sizeof_slot.
  pose proof (seg_total_bound (segments t) 0) as Hs. pose proof (seg_total_nonneg (segments t) 0).
  rewrite (sg_len _ _ (o_segs _ _ O)) in Hs. change (2 ^ Z.of_nat (0 + INTERN_MAX_SEGMENTS)) with 67108864 in Hs.
  change (2 ^ Z.of_nat 0) with 1 in Hs. change (2 ^ 36) with 68719476736. lia.
Qed.

(** The table and the abstract one. *)
Record sim (t : intern) (a : Spec.state) : Prop := {
  sim_ok : ok t (Spec.strings a);
  sim_acc : accounted t (Spec.strings a);
  sim_gov : memory_governor t = Spec.governed a }.

Definition simulated (t : intern) (a : Spec.state) (o : op) : Prop :=
  exists ts x a', step t o = Some (ts, x) /\ Spec.step a o x a' /\ sim (List.last ts t) a' /\
    evolves (Spec.strings a) ts (Spec.strings a').

Lemma put_sim e s t a : sim t a -> simulated t a (Put e s).
Proof.
  intros [O Hacc Hg]. unfold simulated. cbn [step]. destruct (intern_put_ok e t _ s O Hacc) as (ts & id & -> & [Hold|[Hfail|Hnew]]); cbn [mbind option_bind].
  - destruct Hold as (i & Hi & -> & ->). exists [], (A_id (Z.of_nat i)), a. split_and!; [done|by constructor|by split|constructor].
  - destruct Hfail as (-> & -> & Hf). exists [], (A_id (-1)), a. split_and!; [done| |by split|constructor]. constructor.
    pose proof (footprint_bounds t _ O) as Hb. change (2 ^ 36) with 68719476736 in Hb. unfold may_fail in Hf. unfold Spec.put_fails. rewrite <-Hg.
    change (2 ^ 37) with 137438953472. change (2 ^ 35) with 34359738368 in Hf.
    destruct Hf as [?|[?|(Hni & [?|[?|[?|(Hgov & [?|[[b Hd]|Hbig]])]]])]]; [tauto..| |].
    + right; right. split; [done|]. right; right; right. split; [done|]. right; left. by exists (reserved_bytes t), b.
    + right; right. split; [done|]. right; right; right. split; [done|]. right; right.
      destruct Hacc as [|[Hacc _]]; [done|]. lia.
  - destruct Hnew as (Hni & -> & pre & t' & -> & Hpre & O' & Hacc' & Hg').
    eexists _, _, (Spec.T (Spec.strings a ++ [s]) (Spec.governed a)). split; [done|]. split; [by constructor|]. rewrite last_app'. split.
    + split; [done..|]. cbn; congruence.
    + eapply evolves_app; [by apply evolves_const|]. eapply ev_cons; [|by apply ok_vis|constructor]. by exists [s].
Qed.

Lemma get_sim s t a : sim t a -> simulated t a (Get s).
Proof.
  intros S. pose proof (sim_ok _ _ S) as O. unfold simulated. cbn [step]. unfold get. destruct (decide (s ∈ Spec.strings a)) as [Hs|Hni].
  - apply list_elem_of_lookup in Hs as [i Hi]. rewrite (proj1 (intern_lookup_ok t _ s O) i Hi). cbn.
    eexists [], _, a. split; [done|]. split; [by apply Spec.s_get|]. split; [done|constructor].
  - destruct (o_slots _ _ O) as (k & Hk & T). destruct (proj2 (intern_lookup_ok t _ s O) Hni k Hk T) as (j & _ & -> & _). cbn.
    eexists [], _, a. split; [done|]. split; [by apply Spec.s_get_none|]. split; [done|constructor].
Qed.

Lemma reverse_vis strs strs' t segs id : vis strs t -> segs_ok segs strs' -> strs `prefix_of` strs' -> Z.of_nat (length strs) <= UINT32_MAX ->
  reverse_from (count t) segs id = Some (if id <? 0 then None else strs !! Z.to_nat id).
Proof.
  intros [Hct _] Hsg Hp Hmax. unfold reverse_from. rewrite Hct. destruct (Z.ltb_spec id 0) as [|Hid]; [done|].
  destruct (Z.ltb_spec UINT32_MAX id); cbn [orb]; [by rewrite lookup_ge_None_2 by lia|]. rewrite u32_small by mi.
  destruct (Z.leb_spec (Z.of_nat (length strs)) id); [by rewrite lookup_ge_None_2 by lia|].
  destruct (lookup_lt_is_Some_2 strs (Z.to_nat id) ltac:(lia)) as [x Hx]. rewrite Hx.
  pose proof (sg_at _ _ Hsg _ _ (prefix_lookup_Some _ _ _ _ Hx Hp)) as Hat. rewrite Z2Nat.id in Hat by lia. by rewrite Hat.
Qed.

Lemma reverse_sim id t a : sim t a -> simulated t a (Reverse id).
Proof.
  intros S. pose proof (sim_ok _ _ S) as O. pose proof (ok_small _ _ O) as [Hmax _]. unfold simulated. cbn [step]. unfold reverse.
  rewrite (reverse_vis (Spec.strings a) (Spec.strings a)) by (first [by apply ok_vis|apply O|done|mi]). cbn.
  eexists [], _, a. split; [done|]. split; [constructor|]. split; [done|constructor].
Qed.

Lemma ok_governor t strs g b : ok t strs -> ok (I (segments t) (count t) (slots t) (slot_capacity t) g b) strs.
Proof. intros [H1 H2 H3 H4 H5]. by split. Qed.

Lemma attach_sim checked commit_ok ref alive t a : sim t a -> simulated t a (Attach checked commit_ok ref alive).
Proof.
  intros S. pose proof (sim_ok _ _ S) as O. pose proof (sim_gov _ _ S) as Hg. unfold simulated. cbn [step]. unfold attach.
  destruct (memory_governor t) as [r|] eqn:Hgov; cbn [mbind option_bind].
  { eexists [t], _, a. split; [done|]. split; [by apply Spec.s_attached|]. split; [done|]. apply evolves_const. constructor; [by apply ok_vis|done]. }
  rewrite (retained_bytes_spec t _ O). cbn [mbind option_bind]. pose proof (footprint_bounds t _ O) as Hb.
  set (fp := footprint _ _ _) in *. change (2 ^ 36) with 68719476736 in Hb.
  assert (Hfail : forall rc, rc = ENOMEM \/ rc = EOVERFLOW -> (alive = false \/ commit_ok = false \/ (exists bytes, Reserve.reserve_ok (checked bytes) = false) \/
      2 ^ 64 <= str_total (Spec.strings a) + 2 ^ 37) ->
    exists ts x a', Some ([t], A_rc rc) = Some (ts, x) /\ Spec.step a (Attach checked commit_ok ref alive) x a' /\ sim (List.last ts t) a' /\
      evolves (Spec.strings a) ts (Spec.strings a')).
  { intros rc Hrc Hwhy. eexists [t], _, a. split; [done|]. split; [by apply Spec.s_attach_fail|]. split; [done|].
    apply evolves_const. constructor; [by apply ok_vis|done]. }
  destruct alive; cbn [negb orb mbind option_bind]; [|apply Hfail; auto].
  destruct (Z.eqb_spec (Z.min UINT64_MAX fp) UINT64_MAX) as [Hmax|Hmax]; cbn [mbind option_bind].
  { apply Hfail; [by left|]. right; right; right. change (2 ^ 37) with 137438953472. mi. }
  destruct (Reserve.reserve_ok (checked (Z.min UINT64_MAX fp))) eqn:Hres; cbn [negb mbind option_bind].
  2:{ apply Hfail; [destruct (checked _); auto|]. right; right; left. by eexists. }
  destruct commit_ok; cbn [negb mbind option_bind]; [|apply Hfail; auto].
  rewrite Z.min_r in Hres |- * by lia. eexists [_], _, (Spec.T (Spec.strings a) (Some ref)). split; [done|]. split; [by apply (Spec.s_attach checked ref a fp); [|lia|]|].
  split.
  - split; [by apply ok_governor| |done]. right. cbn. split; [done|lia].
  - apply evolves_const. constructor; [by apply ok_vis, ok_governor|done].
Qed.

Lemma detach_sim ref t a : sim t a -> simulated t a (Detach ref).
Proof.
  intros S. pose proof (sim_ok _ _ S) as O. pose proof (sim_gov _ _ S) as Hg. unfold simulated. cbn [step]. unfold detach.
  assert (Hv : forall t', ok t' (Spec.strings a) -> evolves (Spec.strings a) [t'] (Spec.strings a)).
  { intros t' O'. apply evolves_const. constructor; [by apply ok_vis|done]. }
  destruct (memory_governor t) as [r|] eqn:Hgov.
  - destruct (Nat.eqb_spec r ref) as [->|Hne].
    + eexists [_], _, (Spec.T (Spec.strings a) None). split; [done|]. split; [by constructor|].
      assert (O' := ok_governor _ _ None 0 O). split; [|by apply Hv]. split; [done|by left|done].
    + eexists [_], _, a. split; [done|]. split; [by eapply Spec.s_detach_busy|]. split; [done|by apply Hv].
  - eexists [_], _, a. split; [done|]. split; [by apply Spec.s_detach_none|]. split; [done|by apply Hv].
Qed.

Lemma run_sim ops t a : sim t a -> exists ts l a', run t ops = Some (ts, l) /\ Spec.run a ops l a' /\ sim (List.last ts t) a' /\
  evolves (Spec.strings a) ts (Spec.strings a').
Proof.
  revert t a. induction ops as [|o ops IH]; intros t a S; cbn [run].
  { eexists [], [], a. split; [done|]. split; [constructor|]. split; [done|constructor]. }
  assert (simulated t a o) as (ts & x & a1 & -> & Hs & S1 & Hev).
  { destruct o; [by apply put_sim|by apply get_sim|by apply reverse_sim|by apply attach_sim|by apply detach_sim]. }
  cbn [mbind option_bind]. destruct (IH _ a1 S1) as (ts2 & l & a2 & -> & Hr & S2 & Hev2). cbn [mbind option_bind].
  eexists _, _, a2. split; [done|]. split; [by econstructor|]. split; [by rewrite last_app'|]. by eapply evolves_app.
Qed.

Lemma create_sim : exists t, create true true true = Some t /\ sim t (Spec.T [] None).
Proof.
  eexists. split; [done|]. split; [|by left|done]. split; cbn [count segments slots slot_capacity].
  - done.
  - constructor.
  - split; [by rewrite length_replicate| |done]. intros s l Hl. by apply lookup_replicate in Hl as [? _].
  - exists 6. split; [done|]. by apply (table_empty [] 6).
  - done.
Qed.

(** ** The theorems *)

(** C28: Any sequence of calls on a new table returns, and each call answers as
    the abstract table does, a list of distinct strings whose ids are their
    positions: a put finds the string, appends it, or fails for a stated
    reason and leaves the list alone; get and reverse are the two directions
    of the list; attaching and detaching the governor never change it. *)
Theorem intern_refines ops :
  exists t ts l a, create true true true = Some t /\ run t ops = Some (ts, l) /\ Spec.run (Spec.T [] None) ops l a /\
    NoDup (Spec.strings a) /\ count (List.last ts t) = Z.of_nat (length (Spec.strings a)).
Proof.
  destruct create_sim as (t & Hc & S). destruct (run_sim ops t _ S) as (ts & l & a & Hr & Hs & [O _ _] & _).
  exists t, ts, l, a. split_and!; [done..|apply O|apply O].
Qed.

Definition demo_ops : list op :=
  [Put free_env [97]; Attach (fun _ => Reserve.ADM_OK) true 0 true; Put free_env [98]; Put free_env [97]; Get [98]; Reverse 1].

(** An id that a put returned is reversed to the put string, and get finds
    it, after any further calls. *)
Theorem intern_roundtrip ops1 e s ops2 t ts1 l1 tsp id ts2 l2 :
  create true true true = Some t -> run t ops1 = Some (ts1, l1) ->
  put_states e (List.last ts1 t) s = Some (tsp, id) -> 0 <= id ->
  run (List.last tsp (List.last ts1 t)) ops2 = Some (ts2, l2) ->
  let t' := List.last ts2 (List.last tsp (List.last ts1 t)) in
  reverse t' id = Some (Some s) /\ get t' s = Some id.
Proof.
  intros Hc Hr1 Hput Hid Hr2 t'. destruct create_sim as (t0 & Hc0 & S). rewrite Hc in Hc0. simplify_eq.
  destruct (run_sim ops1 t0 _ S) as (ts1' & l1' & a1 & Hr1' & _ & S1 & _). rewrite Hr1 in Hr1'. simplify_eq.
  assert (Hput' : exists a2 i, id = Z.of_nat i /\ Spec.strings a2 !! i = Some s /\ sim (List.last tsp (List.last ts1' t0)) a2).
  { destruct (put_sim e s _ a1 S1) as (ts & x & a2 & Hst & Hs & S2 & _). cbn [step] in Hst. rewrite Hput in Hst. cbn in Hst. simplify_eq.
    exists a2, (Z.to_nat id). rewrite Z2Nat.id by lia. split; [done|]. split; [|done].
    inversion Hs; subst; cbn [Spec.strings]; [by rewrite Nat2Z.id| |lia]. rewrite Nat2Z.id, lookup_app_r by lia. by rewrite Nat.sub_diag. }
  destruct Hput' as (a2 & i & -> & Hi & S2).
  destruct (run_sim ops2 _ a2 S2) as (ts2' & l2' & a3 & Hr2' & _ & S3 & Hev). rewrite Hr2 in Hr2'. simplify_eq. fold t' in S3.
  assert (Hi3 : Spec.strings a3 !! i = Some s) by (eapply prefix_lookup_Some; [done|by eapply evolves_prefix]).
  pose proof (sim_ok _ _ S3) as O. pose proof (ok_small _ _ O) as [Hmax _]. split.
  - unfold reverse. rewrite (reverse_vis (Spec.strings a3) (Spec.strings a3)) by (first [by apply ok_vis|apply O|done|mi]).
    rewrite (proj2 (Z.ltb_ge _ _)) by lia. by rewrite Nat2Z.id, Hi3.
  - unfold get. by rewrite (proj1 (intern_lookup_ok _ _ s O) i Hi3).
Qed.

Lemma intern_roundtrip_witness : exists t ts1 l1 tsp ts2 l2,
  create true true true = Some t /\ run t demo_ops = Some (ts1, l1) /\
  put_states free_env (List.last ts1 t) [99] = Some (tsp, 2) /\
  run (List.last tsp (List.last ts1 t)) demo_ops = Some (ts2, l2) /\
  reverse (List.last ts2 (List.last tsp (List.last ts1 t))) 2 = Some (Some [99]) /\
  get (List.last ts2 (List.last tsp (List.last ts1 t))) [99] = Some 2.
Proof.
  do 6 eexists. do 4 (split; [vm_compute; reflexivity|]).
  eapply (intern_roundtrip demo_ops free_env [99] demo_ops); [vm_compute; reflexivity..|lia|vm_compute; reflexivity].
Defined.

(** C29: A lock-free reader may load the count in any state the writers pass
    through, between any two stores, and the segments in any later one: it
    gets NULL or exactly the string of the id, never an unset entry or an
    access outside a segment. *)
Theorem intern_readers ops t ts l j k tj tk id :
  create true true true = Some t -> run t ops = Some (ts, l) ->
  (t :: ts) !! j = Some tj -> (t :: ts) !! k = Some tk -> (j <= k)%nat ->
  exists a, Spec.run (Spec.T [] None) ops l a /\
    reverse_from (count tj) (segments tk) id =
    Some (if (id <? 0) || (count tj <=? id) then None else Spec.strings a !! Z.to_nat id).
Proof.
  intros Hc Hr Hj Hk Hle. destruct create_sim as (t0 & Hc0 & S). rewrite Hc in Hc0. simplify_eq.
  destruct (run_sim ops t0 _ S) as (ts' & l' & a & Hr' & Hs & S' & Hev). rewrite Hr in Hr'. simplify_eq. exists a. split; [done|].
  assert (Hev' : evolves [] (t0 :: ts') (Spec.strings a)) by (eapply ev_cons; [done|apply ok_vis, S|done]).
  destruct (evolves_two _ _ _ j k tj tk Hev' Hj Hk Hle) as (lj & lk & Hvj & Hvk & Hp & Hpa).
  pose proof (ok_small _ _ (sim_ok _ _ S')) as [Hmax _]. pose proof (prefix_length _ _ Hp). pose proof (prefix_length _ _ Hpa).
  rewrite (reverse_vis lj lk) by (done || apply Hvk || mi). rewrite (proj1 Hvj). f_equal.
  destruct (Z.ltb_spec id 0); [done|]. cbn [orb]. destruct (Z.leb_spec (Z.of_nat (length lj)) id).
  - by rewrite lookup_ge_None_2 by lia.
  - destruct (lookup_lt_is_Some_2 lj (Z.to_nat id) ltac:(lia)) as [x Hx]. rewrite Hx. symmetry.
    by apply (prefix_lookup_Some lj); [|etrans].
Qed.

Lemma intern_readers_witness : exists t ts l tj tk a,
  create true true true = Some t /\ run t demo_ops = Some (ts, l) /\
  (t :: ts) !! 3%nat = Some tj /\ (t :: ts) !! 7%nat = Some tk /\ Spec.run (Spec.T [] None) demo_ops l a /\
  reverse_from (count tj) (segments tk) 0 = Some (if (0 <? 0) || (count tj <=? 0) then None else Spec.strings a !! 0%nat).
Proof.
  do 5 eexists. edestruct (intern_readers demo_ops) with (j := 3%nat) (k := 7%nat) (id := 0) as (a & H1 & H2);
    [vm_compute; reflexivity..|lia|]. exists a. do 4 (split; [vm_compute; reflexivity|]). split; [exact H1|exact H2].
Defined.

(** The footprint a governed table has reserved is, after any calls, exactly
    what scanning the table would find: no put needs to scan. *)
Theorem intern_accounting ops t ts l r :
  create true true true = Some t -> run t ops = Some (ts, l) -> memory_governor (List.last ts t) = Some r ->
  intern_retained_bytes_locked (List.last ts t) = Some (reserved_bytes (List.last ts t)).
Proof.
  intros Hc Hr Hg. destruct create_sim as (t0 & Hc0 & S). rewrite Hc in Hc0. simplify_eq.
  destruct (run_sim ops t0 _ S) as (ts' & l' & a & Hr' & _ & [O Hacc _] & _). rewrite Hr in Hr'. simplify_eq.
  destruct Hacc as [|[Hres Hle]]; [congruence|]. rewrite (retained_bytes_spec _ _ O), <-Hres. f_equal. lia.
Qed.

Lemma intern_accounting_witness : exists t ts l,
  create true true true = Some t /\ run t demo_ops = Some (ts, l) /\ memory_governor (List.last ts t) = Some 0%nat /\
  intern_retained_bytes_locked (List.last ts t) = Some (reserved_bytes (List.last ts t)).
Proof.
  do 3 eexists. do 3 (split; [vm_compute; reflexivity|]).
  eapply (intern_accounting demo_ops); vm_compute; reflexivity.
Defined.
