(* ===== verification/StringOps.v ===== *)
(** * String operations on interned symbols (src/wirelog/string_ops.c)

    The UTF-8 walk and the operations that take intern ids and return an id,
    a number or a truth value.  A C string is its bytes without the
    terminator; a pointer into one is an offset, and reading it includes the
    terminator and nothing after it.  The intern table is an interface: the
    operations are written against it, and the table of Intern.v is one
    instance.  Memory from malloc has unknown contents. *)

From S2P Require Import Prelude Intern.

Module StringOps.

Abbreviation str := (list Z).

(** What the operations use of their surroundings: wl_intern_reverse (the
    inner [None] is NULL), wl_intern_put and malloc (the bytes it returns, or
    NULL).  The outer [None] is undefined behaviour. *)
Class Interner (T : Type) := {
  reverse : T -> Z -> option (option str);
  put : T -> str -> option (T * Z);
  malloc : T -> nat -> T * option (list Z) }.

(** ** C strings and buffers *)

Definition byte_at (s : str) (p : nat) : option Z := rd (s ++ [0]) p.

(** memcpy of [n] bytes out of a string, and into a buffer. *)
Definition read_range (s : str) (p n : nat) : option (list Z) :=
  if decide (p + n <= S (length s))%nat then Some (take n (drop p (s ++ [0]))) else None.
Definition memcpy (buf : list Z) (off : nat) (src : list Z) : option (list Z) :=
  if decide (off + length src <= length buf)%nat then Some (take off buf ++ src ++ drop (off + length src) buf) else None.

(** The string a buffer holds: up to its first NUL. *)
Fixpoint c_str (buf : list Z) : option str :=
  match buf with
  | [] => None
  | b :: buf' => if b =? 0 then Some [] else s ← c_str buf'; Some (b :: s)
  end.

Fixpoint starts_with (pat s : str) : bool :=
  match pat, s with
  | [], _ => true
  | _ :: _, [] => false
  | x :: pat', y :: s' => (x =? y) && starts_with pat' s'
  end.

(** strstr(s + p, pat), as an offset from [s]. *)
Fixpoint find_sub (pat s : str) : option nat :=
  if starts_with pat s then Some O
  else match s with [] => None | _ :: s' => S <$> find_sub pat s' end.
Definition strstr (s pat : str) (p : nat) : option nat := (fun k => (p + k)%nat) <$> find_sub pat (drop p s).

(** strcmp and strncmp; only the sign is defined. *)
Fixpoint strcmp (a b : str) : Z :=
  match a, b with
  | [], [] => 0
  | [], y :: _ => - y
  | x :: _, [] => x
  | x :: a', y :: b' => if x =? y then strcmp a' b' else x - y
  end.
Definition strncmp (a b : str) (n : nat) : Z := strcmp (take n a) (take n b).

(** isspace in the C locale *)
Definition isspace (c : Z) : bool := (c =? 32) || ((9 <=? c) && (c <=? 13)).
Definition isdigit (c : Z) : bool := (48 <=? c) && (c <=? 57).

(** ** UTF-8 *)

(** for (i = 1; i < len; i++), [n] bytes left *)
Fixpoint continuation (n : nat) (s : str) (p i : nat) (cp : Z) : option (nat * Z) :=
  match n with
  | O => Some ((p + i)%nat, cp)
  | S n' =>
      b ← byte_at s (p + i);
      if negb (Z.land b 0xC0 =? 0x80) then Some ((p + i)%nat, -1)
      else continuation n' s p (S i) (Z.lor (Z.shiftl cp 6) (Z.land b 0x3F))
  end.

(** string_ops_utf8_next: the next position and the code point, or NULL. *)
Definition utf8_next (s : str) (p : nat) : option (option (nat * Z)) :=
  c ← byte_at s p;
  if c =? 0 then Some None
  else if c <? 0x80 then Some <$> continuation 0 s p 1 c
  else if Z.land c 0xE0 =? 0xC0 then Some <$> continuation 1 s p 1 (Z.land c 0x1F)
  else if Z.land c 0xF0 =? 0xE0 then Some <$> continuation 2 s p 1 (Z.land c 0x0F)
  else if Z.land c 0xF8 =? 0xF0 then Some <$> continuation 3 s p 1 (Z.land c 0x07)
  else Some (Some (S p, -1)).

(** while *p is not NUL { next; count++; } *)
Fixpoint strlen_loop (fuel : nat) (s : str) (p : nat) (count : Z) : option Z :=
  match fuel with
  | O => None
  | S fuel' =>
      next ← utf8_next s p;
      match next with
      | None => Some count
      | Some (p', _) => strlen_loop fuel' s p' (u64 (count + 1))
      end
  end.
Definition utf8_strlen (s : str) : option Z := strlen_loop (S (length s)) s 0 0.

(** while ( *p && i < n) { next; i++; } from [p]: the position and [i]. *)
Fixpoint walk (fuel : nat) (s : str) (p : nat) (i n : Z) : option (nat * Z) :=
  match fuel with
  | O => None
  | S fuel' =>
      if n <=? i then Some (p, i)
      else
        next ← utf8_next s p;
        match next with
        | None => Some (p, i)
        | Some (p', _) => walk fuel' s p' (i + 1) n
        end
  end.

(** [None] inside: (size_t)-1. *)
Definition utf8_byte_offset (s : str) (cp_index : Z) : option (option nat) :=
  if cp_index <? 0 then Some None
  else
    '(p, i) ← walk (S (length s)) s 0 0 cp_index;
    Some (if i <? cp_index then None else Some p).

(** ** Numbers *)

(** snprintf(buf, 24, "%" PRId64, num), digits from the last on. *)
Fixpoint digits_loop (fuel : nat) (n : Z) (acc : str) : str :=
  match fuel with
  | O => acc
  | S fuel' => if n <? 10 then (48 + n) :: acc else digits_loop fuel' (n / 10) ((48 + n mod 10) :: acc)
  end.
Definition print_int64 (n : Z) : str := if n <? 0 then 45 :: digits_loop 20 (- n) [] else digits_loop 20 n [].

Fixpoint skip_space (s : str) : str :=
  match s with c :: s' => if isspace c then skip_space s' else s | [] => [] end.

(** The value of the leading digits, and how many there are. *)
Fixpoint scan_digits (s : str) (acc : Z) (n : nat) : Z * nat :=
  match s with
  | c :: s' => if isdigit c then scan_digits s' (acc * 10 + (c - 48)) (S n) else (acc, n)
  | [] => (acc, n)
  end.

(** strtoimax and strtoll, base 10: the saturated value and whether it was
    out of range; [None] when there is no number ([endptr == str]). *)
Definition strtoll (s : str) : option (Z * bool) :=
  let s := skip_space s in
  let '(neg, s) := match s with c :: s' => if c =? 45 then (true, s') else if c =? 43 then (false, s') else (false, s) | [] => (false, []) end in
  let '(v, n) := scan_digits s 0 0 in
  if (n =? 0)%nat then None
  else
    let v := if neg then - v else v in
    Some (if v <? INT64_MIN then (INT64_MIN, true) else if INT64_MAX <? v then (INT64_MAX, true) else (v, false)).

(** ** The operations *)

Section Ops.

Context {T : Type} `{!Interner T}.

(** The allocated buffer is filled, put and freed; -1 without memory. *)
Definition with_buffer (t : T) (n : nat) (fill : list Z -> option (list Z)) : option (T * Z) :=
  match malloc t n with
  | (t', None) => Some (t', -1)
  | (t', Some buf) => buf' ← fill buf; s ← c_str buf'; put t' s
  end.

Definition terminate (buf : list Z) (n : nat) : option (list Z) := wr buf n 0.

Definition strlen (intern : option T) (id : Z) : option Z :=
  match intern with
  | None => Some (-1)
  | Some t => r ← reverse t id; match r with None => Some (-1) | Some s => i64 <$> utf8_strlen s end
  end.

(** [NULL] tables return -1 and stay NULL. *)
Definition on_table (intern : option T) (f : T -> option (T * Z)) : option (option T * Z) :=
  match intern with
  | None => Some (None, -1)
  | Some t => '(t', v) ← f t; Some (Some t', v)
  end.

(** A size_t computation that reaches malloc. *)
Definition size_of (z : Z) : nat := Z.to_nat (u64 z).

Definition cat (intern : option T) (id1 id2 : Z) : option (option T * Z) :=
  on_table intern (fun t =>
    s1 ← reverse t id1; s2 ← reverse t id2;
    match s1, s2 with
    | Some s1, Some s2 =>
        let len1 := length s1 in let len2 := length s2 in
        with_buffer t (size_of (Z.of_nat len1 + Z.of_nat len2 + 1)) (fun buf =>
          buf ← memcpy buf 0 s1; buf ← memcpy buf len1 s2; terminate buf (len1 + len2))
    | _, _ => Some (t, -1)
    end).

Definition substr (intern : option T) (id start len : Z) : option (option T * Z) :=
  match intern with
  | None => Some (None, -1)
  | Some t =>
      if (start <? 0) || (len <? 0) then Some (Some t, -1)
      else
        on_table intern (fun t =>
          r ← reverse t id;
          match r with
          | None => Some (t, -1)
          | Some s =>
              off ← utf8_byte_offset s start;
              match off with
              | None => Some (t, -1)
              | Some byte_start =>
                  '(p, _) ← walk (S (length s)) s byte_start 0 len;
                  let byte_len := (p - byte_start)%nat in
                  with_buffer t (size_of (Z.of_nat byte_len + 1)) (fun buf =>
                    src ← read_range s byte_start byte_len; buf ← memcpy buf 0 src; terminate buf byte_len)
              end
          end)
  end.

(** The string predicates: false for a NULL table or an unknown id. *)
Definition on_pair (intern : option T) (id1 id2 : Z) (f : str -> str -> option bool) : option bool :=
  match intern with
  | None => Some false
  | Some t =>
      s1 ← reverse t id1; s2 ← reverse t id2;
      match s1, s2 with Some s1, Some s2 => f s1 s2 | _, _ => Some false end
  end.

Definition contains (intern : option T) (id sub_id : Z) : option bool :=
  on_pair intern id sub_id (fun s sub => Some (bool_decide (strstr s sub 0 <> None))).

Definition str_prefix (intern : option T) (id prefix_id : Z) : option bool :=
  on_pair intern id prefix_id (fun s prefix => Some (strncmp s prefix (length prefix) =? 0)).

Definition str_suffix (intern : option T) (id suffix_id : Z) : option bool :=
  on_pair intern id suffix_id (fun s suffix =>
    if (length s <? length suffix)%nat then Some false
    else x ← read_range s (length s - length suffix) (length suffix); Some (bool_decide (x = suffix))).

Definition str_ord (intern : option T) (id : Z) : option Z :=
  match intern with
  | None => Some (-1)
  | Some t =>
      r ← reverse t id;
      match r with
      | None => Some (-1)
      | Some s => next ← utf8_next s 0; Some (match next with None => -1 | Some (_, cp) => cp end)
      end
  end.

(** for (i = 0; i <= len; i++) buf[i] = f(str[i]), [n] bytes left *)
Fixpoint map_bytes (n : nat) (f : Z -> Z) (s : str) (i : nat) (buf : list Z) : option (list Z) :=
  match n with
  | O => Some buf
  | S n' => c ← byte_at s i; buf' ← wr buf i (f c); map_bytes n' f s (S i) buf'
  end.

Definition map_string (f : Z -> Z) (intern : option T) (id : Z) : option (option T * Z) :=
  on_table intern (fun t =>
    r ← reverse t id;
    match r with
    | None => Some (t, -1)
    | Some s => let len := length s in
        with_buffer t (size_of (Z.of_nat len + 1)) (map_bytes (S len) f s 0)
    end).

Definition upper_byte (c : Z) : Z := if (97 <=? c) && (c <=? 122) then c - 32 else c.
Definition lower_byte (c : Z) : Z := if (65 <=? c) && (c <=? 90) then c + 32 else c.

Definition to_upper : option T -> Z -> option (option T * Z) := map_string upper_byte.
Definition to_lower : option T -> Z -> option (option T * Z) := map_string lower_byte.

(** while ((p = strstr(p, old)) != NULL) { count++; p += old_len; } *)
Fixpoint count_loop (fuel : nat) (s old : str) (p : nat) (count : Z) : option Z :=
  match fuel with
  | O => None
  | S fuel' =>
      match strstr s old p with
      | None => Some count
      | Some m => count_loop fuel' s old (m + length old) (u64 (count + 1))
      end
  end.

(** The copying loop: the buffer, [dst] and [p]. *)
Fixpoint replace_loop (fuel : nat) (s old new : str) (p dst : nat) (buf : list Z) : option (list Z * nat * nat) :=
  match fuel with
  | O => None
  | S fuel' =>
      match strstr s old p with
      | None => Some (buf, dst, p)
      | Some m =>
          let prefix_len := (m - p)%nat in
          src ← read_range s p prefix_len;
          buf ← memcpy buf dst src;
          buf ← memcpy buf (dst + prefix_len) new;
          replace_loop fuel' s old new (m + length old) (dst + prefix_len + length new) buf
      end
  end.

Definition result_size (str_len count old_len new_len : Z) : Z :=
  if old_len <=? new_len then u64 (str_len + u64 (count * (new_len - old_len)) + 1)
  else u64 (u64 (str_len - u64 (count * (old_len - new_len))) + 1).

Definition str_replace (intern : option T) (id old_id new_id : Z) : option (option T * Z) :=
  on_table intern (fun t =>
    s ← reverse t id; old ← reverse t old_id; new ← reverse t new_id;
    match s, old, new with
    | Some s, Some old, Some new =>
        let old_len := length old in
        if (old_len =? 0)%nat then Some (t, id)
        else
          let new_len := length new in
          let str_len := length s in
          count ← count_loop (S str_len) s old 0 0;
          if count =? 0 then Some (t, id)
          else
            with_buffer t (Z.to_nat (result_size (Z.of_nat str_len) count (Z.of_nat old_len) (Z.of_nat new_len))) (fun buf =>
              '(buf, dst, p) ← replace_loop (S str_len) s old new 0 0 buf;
              tail ← read_range s p (str_len - p);
              buf ← memcpy buf dst tail;
              terminate buf (dst + length tail))
    | _, _, _ => Some (t, -1)
    end).

(** while ( *start && isspace( *start)) start++ *)
Fixpoint trim_start (fuel : nat) (s : str) (start : nat) : option nat :=
  match fuel with
  | O => None
  | S fuel' => c ← byte_at s start; if negb (c =? 0) && isspace c then trim_start fuel' s (S start) else Some start
  end.

(** while (end > start && isspace(end[-1])) end-- *)
Fixpoint trim_end (s : str) (start e : nat) : option nat :=
  match e with
  | O => Some O
  | S e' => if (start <? e)%nat then c ← byte_at s e'; if isspace c then trim_end s start e' else Some e else Some e
  end.

Definition trim (intern : option T) (id : Z) : option (option T * Z) :=
  on_table intern (fun t =>
    r ← reverse t id;
    match r with
    | None => Some (t, -1)
    | Some s =>
        start ← trim_start (S (length s)) s 0;
        e ← trim_end s start (length s);
        let len := (e - start)%nat in
        with_buffer t (size_of (Z.of_nat len + 1)) (fun buf =>
          src ← read_range s start len; buf ← memcpy buf 0 src; terminate buf len)
    end).

(** char buf[24]; snprintf cuts what does not fit and says so. *)
Definition to_string (intern : option T) (num : Z) : option (option T * Z) :=
  on_table intern (fun t =>
    let written := length (print_int64 num) in
    if (24 <=? written)%nat then Some (t, -1) else put t (print_int64 num)).

(** The return code and *out. *)
Definition to_number_checked (intern : option T) (id : Z) : option (Z * Z) :=
  match intern with
  | None => Some (EINVAL, 0)
  | Some t =>
      r ← reverse t id;
      match r with
      | None | Some [] => Some (0, 0)
      | Some s =>
          Some (match strtoll s with
                | None => (0, 0)
                | Some (_, true) => (ERANGE, 0)
                | Some (v, false) => (0, v)
                end)
      end
  end.

Definition to_number (intern : option T) (id : Z) : option Z :=
  match intern with
  | None => Some 0
  | Some t =>
      r ← reverse t id;
      match r with
      | None | Some [] => Some 0
      | Some s => Some (match strtoll s with None => 0 | Some (v, _) => v end)
      end
  end.

End Ops.

(** ** The table of intern.c as the interner

    What its puts meet and what malloc returns is given call by call. *)

Record host := H { table : Intern.intern; tick : nat }.

Record surroundings := Sur { envs : nat -> Intern.env; mallocs : nat -> nat -> option (list Z) }.

Definition host_reverse (t : host) (id : Z) : option (option str) := Intern.reverse (table t) id.
Definition host_put (sur : surroundings) (t : host) (s : str) : option (host * Z) :=
  '(t', id) ← Intern.put (envs sur (tick t)) (table t) s; Some (H t' (S (tick t)), id).
Definition host_malloc (sur : surroundings) (t : host) (n : nat) : host * option (list Z) :=
  (H (table t) (S (tick t)), mallocs sur (tick t) n).

#[export] Instance host_interner (sur : surroundings) : Interner host :=
  {| reverse := host_reverse; put := host_put sur; malloc := host_malloc sur |}.

End StringOps.
