(* ===== verification/StringOpsProof.v ===== *)
(** * Proofs about the string operations

    The laws of an interner (a list of distinct strings and their positions),
    a reference decoder that cuts a byte string into characters, the walk of
    string_ops.c against it, and the result of every operation over any lawful
    interner. *)

From S2P Require Import Prelude Intern InternProof StringOps.

Module StringOpsProof.

Import StringOps.

(** A C string in memory: no NUL inside, and no object is larger than
    PTRDIFF_MAX bytes. *)
Definition is_byte (b : Z) : Prop := 1 <= b <= 255.
Definition c_string (s : str) : Prop := Forall is_byte s /\ Z.of_nat (length s) < INT64_MAX.

(** What a table promises: a list of distinct strings with their ids; a put
    that succeeds only adds to it. *)
Class InternerLaws (T : Type) `{!Interner T} := {
  view : T -> list str -> Prop;
  view_c_string t l : view t l -> Forall c_string l;
  view_distinct t l : view t l -> NoDup l;
  reverse_view t l id : view t l -> reverse t id = Some (if id <? 0 then None else l !! Z.to_nat id);
  put_view t l s : view t l -> c_string s -> exists t' id l', put t s = Some (t', id) /\ view t' l' /\
    (id = -1 /\ l' = l \/ 0 <= id /\ l `prefix_of` l' /\ l' !! Z.to_nat id = Some s);
  malloc_view t l n t' r : view t l -> malloc t n = (t', r) ->
    view t' l /\ (forall buf, r = Some buf -> length buf = n /\ Z.of_nat n <= INT64_MAX) }.

(** ** C strings and buffers *)

Lemma byte_at_lt s p : (p < length s)%nat -> byte_at s p = s !! p.
Proof. intros. unfold byte_at, rd. by rewrite lookup_app_l. Qed.

Lemma byte_at_end s : byte_at s (length s) = Some 0.
Proof. unfold byte_at, rd. by rewrite lookup_app_r, Nat.sub_diag by lia. Qed.

Lemma read_range_in s p n : (p + n <= length s)%nat -> read_range s p n = Some (take n (drop p s)).
Proof.
  intros. unfold read_range. rewrite decide_True by lia. f_equal.
  rewrite drop_app_le by lia. rewrite take_app_le; [done|]. rewrite length_drop. lia.
Qed.

Lemma memcpy_in buf off src : (off + length src <= length buf)%nat ->
  memcpy buf off src = Some (take off buf ++ src ++ drop (off + length src) buf).
Proof. intros. unfold memcpy. by rewrite decide_True. Qed.

Lemma memcpy_length buf off src buf' : memcpy buf off src = Some buf' -> length buf' = length buf.
Proof.
  unfold memcpy. case_decide; [|done]. intros [= <-]. rewrite !length_app, length_take, length_drop. lia.
Qed.

(** Appending at the end of what is already written. *)
Lemma memcpy_append done src buf : take (length done) buf = done -> (length done + length src <= length buf)%nat ->
  exists buf', memcpy buf (length done) src = Some buf' /\ take (length (done ++ src)) buf' = done ++ src /\ length buf' = length buf.
Proof.
  intros Hd Hl. eexists. rewrite memcpy_in by done. split; [done|]. rewrite Hd. split.
  - rewrite app_assoc. apply take_app_length.
  - rewrite !length_app, length_drop. lia.
Qed.

Lemma c_str_terminated s rest : Forall is_byte s -> c_str (s ++ 0 :: rest) = Some s.
Proof.
  induction 1 as [|b s Hb _ IH]; [done|]. cbn [app c_str]. destruct (Z.eqb_spec b 0) as [->|_]; [unfold is_byte in Hb; lia|].
  by rewrite IH.
Qed.

(** A terminated buffer holds what was written before the terminator. *)
Lemma terminate_c_str s buf : Forall is_byte s -> take (length s) buf = s -> (length s < length buf)%nat ->
  exists buf', terminate buf (length s) = Some buf' /\ c_str buf' = Some s.
Proof.
  intros Hb Ht Hl. unfold terminate. rewrite wr_lt by done. eexists. split; [done|].
  rewrite insert_take_drop by done. rewrite Ht. by apply c_str_terminated.
Qed.

Lemma size_of_small n : Z.of_nat n <= SIZE_MAX -> size_of (Z.of_nat n) = n.
Proof. intros. unfold size_of. rewrite u64_small by mi. lia. Qed.

(** ** Search and comparison *)

Lemma starts_with_spec pat s : starts_with pat s = true <-> pat `prefix_of` s.
Proof.
  revert s. induction pat as [|x pat IH]; intros [|y s]; cbn [starts_with].
  - split; [intros; apply prefix_nil|done].
  - split; [intros; apply prefix_nil|done].
  - split; [done|]. intros H. by apply prefix_nil_not in H.
  - rewrite andb_true_iff, Z.eqb_eq, IH. split; [intros [-> ?]; by apply prefix_cons|].
    intros H. split; [by eapply prefix_cons_inv_1|by eapply prefix_cons_inv_2].
Qed.

Lemma find_sub_some pat s k : find_sub pat s = Some k -> (k + length pat <= length s)%nat /\ pat `prefix_of` drop k s /\
  forall j, (j < k)%nat -> ~ pat `prefix_of` drop j s.
Proof.
  revert k. induction s as [|x s IH]; intros k Hk; cbn [find_sub] in Hk.
  - destruct (starts_with pat []) eqn:Hs; [|done]. injection Hk as <-. apply starts_with_spec in Hs.
    split_and!; [by apply prefix_length in Hs|done|lia].
  - destruct (starts_with pat (x :: s)) eqn:Hs.
    + injection Hk as <-. apply starts_with_spec in Hs. split_and!; [by apply prefix_length in Hs|done|lia].
    + destruct (find_sub pat s) as [k'|]; [|done]. injection Hk as <-. destruct (IH k' eq_refl) as (H1 & H2 & H3).
      split_and!; [cbn; lia|done|]. intros [|j] Hj.
      * intros Hp. change (drop 0 (x :: s)) with (x :: s) in Hp. apply starts_with_spec in Hp. congruence.
      * apply H3. lia.
Qed.

Lemma find_sub_none pat s : find_sub pat s = None -> forall j, ~ pat `prefix_of` drop j s.
Proof.
  induction s as [|x s IH]; intros Hk j; cbn [find_sub] in Hk; destruct (starts_with pat _) eqn:Hs; try done;
    assert (Hp : forall s', starts_with pat s' = false -> ~ pat `prefix_of` s') by (intros s' Hf Hp; apply starts_with_spec in Hp; congruence).
  - rewrite drop_nil. by apply Hp.
  - destruct (find_sub pat s) as [k'|]; [done|]. destruct j as [|j]; [by apply Hp|]. by apply IH.
Qed.

Lemma contains_spec pat s : find_sub pat s <> None <-> exists a b, s = a ++ pat ++ b.
Proof.
  split.
  - destruct (find_sub pat s) as [k|] eqn:Hk; [intros _|done]. destruct (find_sub_some _ _ _ Hk) as (_ & [b Hb] & _).
    exists (take k s), b. by rewrite <-Hb, take_drop.
  - intros (a & b & ->) Hn. apply (find_sub_none _ _ Hn (length a)). rewrite drop_app_length. by exists b.
Qed.

Lemma strcmp_eq a b : Forall is_byte a -> Forall is_byte b -> strcmp a b = 0 <-> a = b.
Proof.
  intros Ha. revert b. induction Ha as [|x a Hx _ IH]; intros b Hb; destruct Hb as [|y b Hy Hb]; cbn [strcmp].
  - done.
  - unfold is_byte in Hy. split; [lia|done].
  - unfold is_byte in Hx. split; [lia|done].
  - destruct (Z.eqb_spec x y) as [->|Hne]; [rewrite IH by done; split; congruence|]. split; [lia|]. intros [= ??]. done.
Qed.

(** ** UTF-8 against a decoder on lists *)

Definition continues (b : Z) : bool := Z.land b 0xC0 =? 0x80.

(** The leading byte: how many bytes follow, and its own bits. *)
Definition lead (c : Z) : option (nat * Z) :=
  if c <? 0x80 then Some (0%nat, c)
  else if Z.land c 0xE0 =? 0xC0 then Some (1%nat, Z.land c 0x1F)
  else if Z.land c 0xF0 =? 0xE0 then Some (2%nat, Z.land c 0x0F)
  else if Z.land c 0xF8 =? 0xF0 then Some (3%nat, Z.land c 0x07)
  else None.

Fixpoint follow (n : nat) (l : str) (i : nat) (cp : Z) : nat * Z :=
  match n, l with
  | O, _ => (i, cp)
  | S n', b :: l' => if continues b then follow n' l' (S i) (Z.lor (Z.shiftl cp 6) (Z.land b 0x3F)) else (i, -1)
  | S n', [] => (i, -1)
  end.

(** The length and the code point of the first character. *)
Definition decode1 (l : str) : nat * Z :=
  match l with
  | [] => (0%nat, -1)
  | c :: l' => match lead c with Some (n, cp) => follow n l' 1 cp | None => (1%nat, -1) end
  end.

Lemma follow_length n l i cp : (i <= (follow n l i cp).1 <= i + length l)%nat.
Proof.
  revert l i cp. induction n as [|n IH]; intros [|b l] i cp; cbn [follow]; [cbn; lia..|].
  destruct (continues b); [|cbn; lia]. pose proof (IH l (S i) (Z.lor (Z.shiftl cp 6) (Z.land b 63))). cbn [length]. lia.
Qed.

Lemma decode1_length l : l <> [] -> (1 <= (decode1 l).1 <= length l)%nat.
Proof.
  destruct l as [|c l]; [done|]. intros _. cbn [decode1 length]. destruct (lead c) as [[n cp]|]; [|cbn; lia].
  pose proof (follow_length n l 1 cp). lia.
Qed.

Lemma continuation_follow n s p i cp : (p + i <= length s)%nat ->
  continuation n s p i cp = Some ((fun '(k, c) => ((p + k)%nat, c)) (follow n (drop (p + i) s) i cp)).
Proof.
  revert i cp. induction n as [|n IH]; intros i cp Hp; [done|]. cbn [continuation follow].
  destruct (decide (p + i = length s)%nat) as [He|].
  - rewrite He, byte_at_end, drop_all. cbn. by rewrite He.
  - rewrite byte_at_lt by lia. destruct (lookup_lt_is_Some_2 s (p + i) ltac:(lia)) as [b Hb]. rewrite Hb, (drop_S _ _ _ Hb).
    cbn [mbind option_bind]. fold (continues b). destruct (continues b); [|done]. cbn [negb].
    rewrite IH by lia. by replace (p + S i)%nat with (S (p + i)) by lia.
Qed.

(** A character that starts inside the string ends inside it. *)
Lemma utf8_next_decode s p : Forall is_byte s -> (p < length s)%nat ->
  utf8_next s p = Some (Some ((p + (decode1 (drop p s)).1)%nat, (decode1 (drop p s)).2)).
Proof.
  intros Hs Hp. unfold utf8_next. destruct (lookup_lt_is_Some_2 s p Hp) as [c Hc].
  rewrite byte_at_lt, Hc by done. rewrite (drop_S _ _ _ Hc). cbn [mbind option_bind decode1].
  pose proof (Forall_lookup_1 _ _ _ _ Hs Hc) as Hb. unfold is_byte in Hb.
  destruct (Z.eqb_spec c 0) as [|_]; [lia|]. unfold lead.
  assert (Hf : forall n cp, Some <$> continuation n s p 1 cp = Some (Some ((p + (follow n (drop (S p) s) 1 cp).1)%nat, (follow n (drop (S p) s) 1 cp).2))).
  { intros n cp. rewrite continuation_follow by lia. rewrite Nat.add_1_r. by destruct (follow _ _ _ _). }
  destruct (c <? 0x80); [apply Hf|]. destruct (_ =? 0xC0); [apply Hf|]. destruct (_ =? 0xE0); [apply Hf|]. destruct (_ =? 0xF0); [apply Hf|].
  cbn. by rewrite Nat.add_1_r.
Qed.

Lemma utf8_next_end s : utf8_next s (length s) = Some None.
Proof. unfold utf8_next. by rewrite byte_at_end. Qed.

(** The characters of a string, invalid bytes included: pieces that make up
    the string again. *)
Fixpoint chars_fuel (fuel : nat) (l : str) : list str :=
  match fuel, l with
  | O, _ | _, [] => []
  | S fuel', _ => let n := (decode1 l).1 in take n l :: chars_fuel fuel' (drop n l)
  end.
Definition chars (l : str) : list str := chars_fuel (length l) l.

Lemma chars_fuel_enough f1 f2 l : (length l <= f1)%nat -> (length l <= f2)%nat -> chars_fuel f1 l = chars_fuel f2 l.
Proof.
  revert f2 l. induction f1 as [|f1 IH]; intros [|f2] [|c l] H1 H2; cbn [length] in *; try lia; try done. cbn [chars_fuel].
  pose proof (decode1_length (c :: l) ltac:(done)). f_equal. apply IH; rewrite length_drop; cbn [length]; lia.
Qed.

Lemma chars_cons l : l <> [] -> chars l = take (decode1 l).1 l :: chars (drop (decode1 l).1 l).
Proof.
  intros Hl. unfold chars. destruct l as [|c l]; [done|]. cbn [length chars_fuel]. f_equal.
  pose proof (decode1_length (c :: l) Hl). apply chars_fuel_enough; rewrite length_drop; cbn [length]; lia.
Qed.

Lemma chars_ind (P : str -> Prop) : P [] -> (forall l, l <> [] -> P (drop (decode1 l).1 l) -> P l) -> forall l, P l.
Proof.
  intros H0 H1 l. remember (length l) as n eqn:Hn. revert l Hn. induction (lt_wf n) as [n _ IH]. intros [|c l] ->; [done|].
  apply H1; [done|]. pose proof (decode1_length (c :: l) ltac:(done)). eapply IH; [|done]. rewrite length_drop. lia.
Qed.

Lemma chars_concat l : concat (chars l) = l.
Proof.
  induction l as [|l Hl IH] using chars_ind; [done|]. rewrite chars_cons by done. cbn [concat]. by rewrite IH, take_drop.
Qed.

Lemma chars_length l : (length (chars l) <= length l)%nat.
Proof.
  induction l as [|l Hl IH] using chars_ind; [done|]. rewrite chars_cons by done. cbn [length].
  pose proof (decode1_length l Hl). rewrite length_drop in IH. lia.
Qed.

Lemma chars_drop k l : chars (drop (length (concat (take k (chars l)))) l) = drop k (chars l).
Proof.
  revert l. induction k as [|k IH]; intros l; [by rewrite take_0, !drop_0|]. destruct (decide (l = [])) as [->|Hl]; [done|].
  rewrite (chars_cons l) by done. cbn [firstn List.concat skipn]. rewrite length_app.
  pose proof (decode1_length l Hl). rewrite length_take, Nat.min_l by lia. rewrite <-drop_drop. apply IH.
Qed.

Lemma chars_take k l : take (length (concat (take k (chars l)))) l = concat (take k (chars l)).
Proof.
  rewrite <-(chars_concat l) at 2. rewrite <-(take_drop k (chars l)) at 2. rewrite concat_app. apply take_app_length.
Qed.

Lemma chars_take_le k l : (length (concat (take k (chars l))) <= length l)%nat.
Proof. rewrite <-(chars_concat l) at 2. rewrite <-(take_drop k (chars l)) at 2. rewrite concat_app, length_app. lia. Qed.

(** The walk steps over characters: from the start of one it reaches the
    start of the one [n - i] later, or the end. *)
Lemma walk_chars fuel s p i n k : Forall is_byte s -> (p <= length s)%nat -> (length s - p < fuel)%nat -> 0 <= i <= n ->
  k = Z.to_nat (n - i) ->
  walk fuel s p i n = Some ((p + length (concat (take k (chars (drop p s)))))%nat,
    i + Z.of_nat (Nat.min k (length (chars (drop p s))))).
Proof.
  intros Hs. revert p i k. induction fuel as [|fuel IH]; intros p i k Hp Hf Hi Hk; [lia|]. cbn [walk]. destruct (Z.leb_spec n i).
  { assert (k = 0%nat) as -> by lia. rewrite take_0. cbn [List.concat length Nat.min]. f_equal. f_equal; lia. }
  destruct (decide (p = length s)) as [->|].
  { rewrite utf8_next_end, drop_all. change (chars []) with (@nil str). rewrite take_nil, Nat.min_0_r. cbn [mbind option_bind List.concat length]. f_equal. f_equal; lia. }
  rewrite utf8_next_decode by (done || lia). cbn [mbind option_bind].
  assert (Hne : drop p s <> []) by (intros He%(f_equal length); rewrite length_drop in He; cbn in He; lia).
  pose proof (decode1_length _ Hne) as Hd. rewrite length_drop in Hd. destruct k as [|k]; [lia|]. rewrite (IH _ _ k) by lia. rewrite <-drop_drop.
  rewrite (chars_cons (drop p s)) by done.
  cbn [firstn List.concat length Nat.min]. rewrite length_app, length_take, length_drop. f_equal. f_equal; lia.
Qed.

Lemma strlen_chars fuel s p c : Forall is_byte s -> (p <= length s)%nat -> (length s - p < fuel)%nat -> 0 <= c -> c + Z.of_nat (length s - p) <= SIZE_MAX ->
  strlen_loop fuel s p c = Some (c + Z.of_nat (length (chars (drop p s)))).
Proof.
  intros Hs. revert p c. induction fuel as [|fuel IH]; intros p c Hp Hf Hc Hm; [lia|]. cbn [strlen_loop].
  destruct (decide (p = length s)) as [->|].
  { rewrite utf8_next_end, drop_all. cbn [mbind option_bind chars chars_fuel length]. f_equal. lia. }
  rewrite utf8_next_decode by (done || lia). cbn [mbind option_bind].
  assert (Hne : drop p s <> []) by (intros He%(f_equal length); rewrite length_drop in He; cbn in He; lia).
  pose proof (decode1_length _ Hne) as Hd. rewrite length_drop in Hd. rewrite u64_small by mi. rewrite IH by lia. rewrite <-drop_drop.
  rewrite (chars_cons (drop p s)) by done. cbn [length]. f_equal. lia.
Qed.

(** Lengths count characters. *)
Lemma utf8_strlen_chars s : c_string s -> utf8_strlen s = Some (Z.of_nat (length (chars s))).
Proof.
  intros [Hs Hl]. unfold utf8_strlen. rewrite strlen_chars by (done || lia || mi). by rewrite drop_0, Z.add_0_l.
Qed.

(** *** Code points and their bytes (RFC 3629) *)

Definition is_code_point (cp : Z) : Prop := 1 <= cp <= 0x10FFFF.

Definition encode1 (cp : Z) : str :=
  if cp <? 0x80 then [cp]
  else if cp <? 0x800 then [0xC0 + cp / 64; 0x80 + cp mod 64]
  else if cp <? 0x10000 then [0xE0 + cp / 4096; 0x80 + (cp / 64) mod 64; 0x80 + cp mod 64]
  else [0xF0 + cp / 262144; 0x80 + (cp / 4096) mod 64; 0x80 + (cp / 64) mod 64; 0x80 + cp mod 64].
Definition encode (cps : list Z) : str := concat (encode1 <$> cps).

(** Facts about one byte, by looking at all of them. *)
Lemma all_bytes (f : Z -> bool) : forallb f (seqZ 0 256) = true -> forall b, 0 <= b < 256 -> f b = true.
Proof. rewrite forallb_forall. intros H b Hb. apply H, list_elem_of_In, elem_of_seqZ. lia. Qed.

Lemma continues_byte x : 0 <= x < 64 -> continues (0x80 + x) = true /\ Z.land (0x80 + x) 0x3F = x.
Proof.
  intros Hx. pose proof (all_bytes (fun b => negb (b <? 64) || (continues (0x80 + b) && (Z.land (0x80 + b) 0x3F =? b))) ltac:(done) x ltac:(lia)) as H.
  cbv beta in H. rewrite (proj2 (Z.ltb_lt _ _)) in H by lia. cbn [negb orb] in H. apply andb_true_iff in H as [H1 H2]. by apply Z.eqb_eq in H2.
Qed.

Lemma lead_byte x : 0 <= x < 256 ->
  (x < 0x80 -> lead x = Some (0%nat, x)) /\ (x < 32 -> lead (0xC0 + x) = Some (1%nat, x)) /\
  (x < 16 -> lead (0xE0 + x) = Some (2%nat, x)) /\ (x < 8 -> lead (0xF0 + x) = Some (3%nat, x)).
Proof.
  intros Hx. pose proof (all_bytes (fun x =>
    (negb (x <? 0x80) || bool_decide (lead x = Some (0%nat, x))) && (negb (x <? 32) || bool_decide (lead (0xC0 + x) = Some (1%nat, x))) &&
    (negb (x <? 16) || bool_decide (lead (0xE0 + x) = Some (2%nat, x))) && (negb (x <? 8) || bool_decide (lead (0xF0 + x) = Some (3%nat, x)))) ltac:(by vm_compute) x Hx) as H.
  cbv beta in H. rewrite !andb_true_iff, !orb_true_iff, !negb_true_iff, !Z.ltb_ge, !bool_decide_eq_true in H.
  destruct H as [[[H1 H2] H3] H4]. split_and!; intros; [destruct H1|destruct H2|destruct H3|destruct H4]; (lia || done).
Qed.

Lemma lor_low a x : 0 <= x < 64 -> Z.lor (Z.shiftl a 6) x = a * 64 + x.
Proof. intros. by apply (lor_shiftl_low 6). Qed.

Lemma follow_step n x l i cp : 0 <= x < 64 -> follow (S n) (0x80 + x :: l) i cp = follow n l (S i) (cp * 64 + x).
Proof. intros Hx. cbn [follow]. destruct (continues_byte x Hx) as [-> ->]. by rewrite lor_low. Qed.

(** The decoder reads back the encoded code point, whatever follows. *)
Lemma decode1_encode cp l : is_code_point cp -> decode1 (encode1 cp ++ l) = (length (encode1 cp), cp).
Proof.
  unfold is_code_point. intros Hcp. unfold encode1.
  destruct (Z.ltb_spec cp 0x80); [|destruct (Z.ltb_spec cp 0x800); [|destruct (Z.ltb_spec cp 0x10000)]]; cbn [app decode1 length].
  - destruct (lead_byte cp ltac:(lia)) as (-> & _); [done|lia].
  - destruct (lead_byte (cp / 64) ltac:(Z.div_mod_to_equations; lia)) as (_ & -> & _); [|Z.div_mod_to_equations; lia].
    rewrite follow_step by (Z.div_mod_to_equations; lia). cbn [follow]. f_equal. Z.div_mod_to_equations; lia.
  - destruct (lead_byte (cp / 4096) ltac:(Z.div_mod_to_equations; lia)) as (_ & _ & -> & _); [|Z.div_mod_to_equations; lia].
    rewrite !follow_step by (Z.div_mod_to_equations; lia). cbn [follow]. f_equal. Z.div_mod_to_equations; lia.
  - destruct (lead_byte (cp / 262144) ltac:(Z.div_mod_to_equations; lia)) as (_ & _ & _ & ->); [|Z.div_mod_to_equations; lia].
    rewrite !follow_step by (Z.div_mod_to_equations; lia). cbn [follow]. f_equal. Z.div_mod_to_equations; lia.
Qed.

Lemma encode1_bytes cp : is_code_point cp -> Forall is_byte (encode1 cp) /\ encode1 cp <> [].
Proof.
  unfold is_code_point. intros Hcp. unfold encode1, is_byte.
  repeat case_match; (split; [|done]); repeat constructor; Z.div_mod_to_equations; lia.
Qed.

Lemma encode_bytes cps : Forall is_code_point cps -> Forall is_byte (encode cps).
Proof.
  induction 1 as [|cp cps Hcp _ IH]; [constructor|]. unfold encode. cbn [fmap list_fmap concat]. apply Forall_app.
  split; [by apply encode1_bytes|done].
Qed.

(** The characters of an encoded text are its encoded code points. *)
Lemma chars_encode cps : Forall is_code_point cps -> chars (encode cps) = encode1 <$> cps.
Proof.
  induction 1 as [|cp cps Hcp _ IH]; [done|]. unfold encode. cbn [fmap list_fmap concat]. fold (encode cps).
  destruct (encode1_bytes cp Hcp) as [_ Hne]. rewrite chars_cons by (intros [? _]%app_eq_nil; done).
  rewrite decode1_encode by done. cbn [fst]. by rewrite take_app_length, drop_app_length, IH.
Qed.

(** ** Replacement *)

(** [replaced old new n s r]: cutting [n] leftmost occurrences that do not
    overlap out of [s], the last one with none after it, and putting [new] in
    their places gives [r]. *)
Inductive replaced (old new : str) : nat -> str -> str -> Prop :=
| rp_none s : (forall a b, s <> a ++ old ++ b) -> replaced old new 0 s s
| rp_hit n a b r : (forall a' b', a ++ old ++ b = a' ++ old ++ b' -> (length a <= length a')%nat) ->
    replaced old new n b r -> replaced old new (S n) (a ++ old ++ b) (a ++ new ++ r).

Lemma replaced_length old new n s r : replaced old new n s r ->
  (length r + n * length old = length s + n * length new)%nat.
Proof. induction 1; [lia|]. rewrite !length_app. lia. Qed.

Lemma replaced_count old new n s r : old <> [] -> replaced old new n s r -> (n <= length s)%nat.
Proof.
  intros Ho. assert (length old <> 0)%nat by (by destruct old). induction 1; [lia|]. rewrite !length_app. lia.
Qed.

Lemma replaced_bytes old new n s r : Forall is_byte new -> replaced old new n s r -> Forall is_byte s -> Forall is_byte r.
Proof.
  intros Hn. induction 1 as [|n a b r Hf _ IH]; [done|]. rewrite !Forall_app. tauto.
Qed.

(** Every string has its replacement. *)
Lemma find_sub_split old s k : find_sub old s = Some k ->
  s = take k s ++ old ++ drop (k + length old) s /\ (k + length old <= length s)%nat /\
  forall a' b', s = a' ++ old ++ b' -> (k <= length a')%nat.
Proof.
  intros Hk. destruct (find_sub_some _ _ _ Hk) as (Hl & [b Hb] & Hf). split_and!; [|done|].
  - rewrite <-drop_drop, Hb, drop_app_length, <-Hb. by rewrite take_drop.
  - intros a' b' ->. destruct (decide (k <= length a')%nat) as [|Hlt]; [done|]. exfalso. apply (Hf (length a') ltac:(lia)).
    rewrite drop_app_length. by exists b'.
Qed.

Lemma find_sub_absent old s : find_sub old s = None -> forall a b, s <> a ++ old ++ b.
Proof. intros Hn a b ->. apply (find_sub_none _ _ Hn (length a)). rewrite drop_app_length. by exists b. Qed.

Lemma replaced_exists old new s : old <> [] -> exists n r, replaced old new n s r.
Proof.
  intros Ho. remember (length s) as m eqn:Hm. revert s Hm. induction (lt_wf m) as [m _ IH]. intros s ->.
  destruct (find_sub old s) as [k|] eqn:Hk.
  - destruct (find_sub_split _ _ _ Hk) as (Hs & Hl & Hf).
    assert (length old <> 0)%nat by (by destruct old).
    destruct (IH (length (drop (k + length old) s)) ltac:(rewrite length_drop; lia) _ eq_refl) as (n & r & Hr).
    exists (S n), (take k s ++ new ++ r). rewrite Hs at 1. constructor; [|done]. rewrite <-Hs. intros a' b' He.
    rewrite length_take. pose proof (Hf _ _ He). lia.
  - exists 0%nat, s. constructor. by apply find_sub_absent.
Qed.

Lemma replaced_det old new n s r n' r' : replaced old new n s r -> replaced old new n' s r' -> n = n' /\ r = r'.
Proof.
  intros H. revert n' r'. induction H as [s Hs|n a b r Hf _ IH]; intros n' r' H'.
  - inversion H' as [|n1 a' b' r1 Hf' Hr']; subst; [done|]. by edestruct Hs.
  - inversion H' as [s' Hs'|n1 a' b' r1 Hf' Hr' Heq]; subst; [by edestruct Hs'|].
    pose proof (Hf a' b' (eq_sym H0)). pose proof (Hf' a b H0).
    apply app_inj_1 in H0 as [-> [_ ->]%app_inj_1]; [|done|lia]. destruct (IH _ _ Hr') as [-> ->]. done.
Qed.

(** strstr from [p] on, when the rest of the string is known. *)
Lemma strstr_first s old p a b : drop p s = a ++ old ++ b ->
  (forall a' b', a ++ old ++ b = a' ++ old ++ b' -> (length a <= length a')%nat) -> strstr s old p = Some (p + length a)%nat.
Proof.
  intros Hd Hf. unfold strstr. rewrite Hd. destruct (find_sub old (a ++ old ++ b)) as [k|] eqn:Hk.
  - destruct (find_sub_split _ _ _ Hk) as (Hs & Hl & Hmin). cbn. do 2 f_equal. pose proof (Hmin a b eq_refl).
    pose proof (Hf _ _ Hs) as Ha. rewrite length_take in Ha. lia.
  - by destruct (find_sub_absent _ _ Hk a b).
Qed.

Lemma strstr_absent s old p : (forall a b, drop p s <> a ++ old ++ b) -> strstr s old p = None.
Proof.
  intros Hn. unfold strstr. destruct (find_sub old (drop p s)) as [k|] eqn:Hk; [|done].
  destruct (find_sub_split _ _ _ Hk) as (Hs & _). by destruct (Hn _ _ Hs).
Qed.

(** What is left behind the first occurrence. *)
Lemma drop_behind {A} (s a o b : list A) p : drop p s = a ++ o ++ b -> drop (p + length a + length o) s = b.
Proof.
  intros Hd. replace (p + length a + length o)%nat with (p + (length a + length o))%nat by lia.
  rewrite <-drop_drop, Hd, app_assoc, <-length_app. apply drop_app_length.
Qed.

Lemma count_loop_spec old new n rest r : old <> [] -> replaced old new n rest r -> forall fuel s p c, drop p s = rest ->
  (length s - p < fuel)%nat -> 0 <= c -> c + Z.of_nat n <= SIZE_MAX -> count_loop fuel s old p c = Some (c + Z.of_nat n).
Proof.
  intros Ho. induction 1 as [rest Hs|n a b r Hf Hr IH]; intros [|fuel] s p c Hd Hfuel Hc Hm; try lia; cbn [count_loop].
  - rewrite strstr_absent by (by rewrite Hd). f_equal. lia.
  - rewrite (strstr_first s old p a b) by done. pose proof (drop_behind _ _ _ _ _ Hd) as Hb.
    assert (length old <> 0)%nat by (by destruct old).
    assert (p < length s)%nat. { apply (f_equal length) in Hd. rewrite length_drop, !length_app in Hd. lia. }
    rewrite u64_small by mi. rewrite IH; [f_equal; lia|done|lia|lia|lia].
Qed.

(** The copying loop writes the replacement of what is left, up to the tail it
    leaves for the last copy. *)
Lemma replace_loop_spec old new n rest r : old <> [] -> replaced old new n rest r -> forall fuel s p written buf, drop p s = rest ->
  (p <= length s)%nat -> (length s - p < fuel)%nat -> take (length written) buf = written -> (length written + length r <= length buf)%nat ->
  exists buf' p' x, replace_loop fuel s old new p (length written) buf = Some (buf', length (written ++ x), p') /\
    take (length (written ++ x)) buf' = written ++ x /\ r = x ++ drop p' s /\ (p' <= length s)%nat /\ length buf' = length buf.
Proof.
  intros Ho. induction 1 as [rest Hs|n a b r Hf Hr IH]; intros [|fuel] s p written buf Hd Hp Hfuel Hw Hl; try lia; cbn [replace_loop].
  - rewrite strstr_absent by (by rewrite Hd). exists buf, p, []. by rewrite !app_nil_r.
  - rewrite (strstr_first s old p a b) by done. pose proof (drop_behind _ _ _ _ _ Hd) as Hb.
    assert (length old <> 0)%nat by (by destruct old). rewrite !length_app in Hl.
    assert (Hpl : (length s = p + length a + length old + length b)%nat).
    { apply (f_equal length) in Hd. rewrite length_drop, !length_app in Hd. lia. }
    replace (p + length a - p)%nat with (length a) by lia. rewrite read_range_in by lia. rewrite Hd, take_app_length. cbn [mbind option_bind].
    destruct (memcpy_append written a buf Hw ltac:(lia)) as (b1 & -> & Hw1 & Hl1). cbn [mbind option_bind]. rewrite <-length_app.
    destruct (memcpy_append (written ++ a) new b1 Hw1 ltac:(rewrite length_app; lia)) as (b2 & -> & Hw2 & Hl2). cbn [mbind option_bind].
    rewrite <-length_app. destruct (IH fuel s (p + length a + length old)%nat ((written ++ a) ++ new) b2) as (b3 & p' & x & -> & H1 & -> & H2 & H3);
      [done|lia|lia|done|rewrite !length_app; lia|]. exists b3, p', (a ++ new ++ x). rewrite !app_assoc in *. split_and!; try done. lia.
Qed.

Lemma result_size_spec old new n s r : replaced old new n s r -> Z.of_nat (length r) + 1 <= SIZE_MAX ->
  result_size (Z.of_nat (length s)) (Z.of_nat n) (Z.of_nat (length old)) (Z.of_nat (length new)) = Z.of_nat (length r) + 1.
Proof.
  intros Hr%replaced_length Hm. unfold result_size.
  assert (Hz : Z.of_nat (length r) = Z.of_nat (length s) + Z.of_nat n * (Z.of_nat (length new) - Z.of_nat (length old))) by nia.
  destruct (Z.leb_spec (Z.of_nat (length old)) (Z.of_nat (length new))).
  - rewrite <-(u64_small (Z.of_nat (length r) + 1)) by mi. rewrite Hz. unfold u64.
    rewrite <-(Z.add_assoc _ _ 1), (Z.add_comm _ 1), Z.add_assoc, Zplus_mod_idemp_r. f_equal. lia.
  - rewrite <-(u64_small (Z.of_nat (length r) + 1)) by mi. rewrite Hz. unfold u64.
    rewrite Zplus_mod_idemp_l. rewrite Z.add_comm, Z.add_sub_assoc, Zminus_mod_idemp_r. f_equal. lia.
Qed.

(** ** Numbers *)

Lemma digits_loop_spec fuel n acc : 0 <= n < 10 ^ Z.of_nat fuel -> (0 < fuel)%nat -> exists d, digits_loop fuel n acc = d ++ acc /\ d <> [] /\
  (length d <= fuel)%nat /\ Forall (fun c => 48 <= c <= 57) d /\
  forall rest a m, scan_digits (d ++ rest) a m = scan_digits rest (a * 10 ^ Z.of_nat (length d) + n) (m + length d).
Proof.
  revert n acc. induction fuel as [|fuel IH]; intros n acc Hn Hf; [lia|]. cbn [digits_loop]. destruct (Z.ltb_spec n 10).
  - exists [48 + n]. split_and!; [done..|cbn; lia|repeat constructor; lia|]. intros rest a m. cbn [app scan_digits length]. unfold isdigit.
    rewrite (proj2 (Z.leb_le 48 (48 + n))), (proj2 (Z.leb_le (48 + n) 57)) by lia. cbn [andb]. f_equal; lia.
  - rewrite Nat2Z.inj_succ, Z.pow_succ_r in Hn by lia. assert (0 < fuel)%nat by (destruct fuel; cbn in Hn; lia).
    destruct (IH (n / 10) ((48 + n mod 10) :: acc)) as (d & -> & Hd & Hl & Hdig & Hs); [|done|].
    { split; [apply Z.div_pos; lia|]. apply Z.div_lt_upper_bound; lia. }
    pose proof (Z.mod_pos_bound n 10 ltac:(lia)). exists (d ++ [48 + n mod 10]). rewrite <-app_assoc, length_app. cbn [length].
    split_and!; [done|by destruct d|lia|apply Forall_app; split; [done|repeat constructor; lia]|].
    intros rest a m. rewrite <-app_assoc, Hs. cbn [app scan_digits]. unfold isdigit.
    rewrite (proj2 (Z.leb_le 48 _)), (proj2 (Z.leb_le _ 57)) by lia. cbn [andb]. rewrite Nat2Z.inj_add, Z.pow_add_r by lia.
    change (10 ^ Z.of_nat 1) with 10. f_equal; [|lia]. pose proof (Z.div_mod n 10). nia.
Qed.

Lemma pow10_20 : 10 ^ Z.of_nat 20 = 100000000000000000000.
Proof. done. Qed.

(** Printed numbers are read back. *)
Lemma strtoll_print n : is_int64 n -> strtoll (print_int64 n) = Some (n, false).
Proof.
  intros Hn. unfold print_int64. assert (Hd : exists d, digits_loop 20 (Z.abs n) [] = d /\ d <> [] /\ Forall (fun c => 48 <= c <= 57) d /\
    scan_digits d 0 0 = (Z.abs n, length d)).
  { destruct (digits_loop_spec 20 (Z.abs n) []) as (d & -> & Hd & _ & Hdig & Hs); [rewrite pow10_20; mi|lia|].
    exists d. rewrite app_nil_r. split_and!; try done. specialize (Hs [] 0 0%nat). rewrite app_nil_r in Hs. rewrite Hs. cbn. f_equal. }
  destruct Hd as (d & Hdl & Hne & Hdig & Hs). destruct d as [|c d]; [done|]. apply Forall_cons in Hdig as [Hc Hdig].
  assert (Hsp : isspace c = false) by (unfold isspace; destruct (Z.eqb_spec c 32), (Z.leb_spec 9 c), (Z.leb_spec c 13); (lia || done)).
  destruct (Z.ltb_spec n 0).
  - rewrite Z.abs_neq in * by lia. rewrite Hdl. unfold strtoll. cbn [skip_space]. change (isspace 45) with false. cbn [Z.eqb]. cbn [Pos.eqb].
    rewrite Hs. cbn [length Nat.eqb]. rewrite Z.opp_involutive.
    destruct (Z.ltb_spec n INT64_MIN); [mi|]. destruct (Z.ltb_spec INT64_MAX n); [mi|done].
  - rewrite Z.abs_eq in * by lia. rewrite Hdl. unfold strtoll. cbn [skip_space]. rewrite Hsp.
    destruct (Z.eqb_spec c 45); [lia|]. destruct (Z.eqb_spec c 43); [lia|]. rewrite Hs. cbn [length Nat.eqb].
    destruct (Z.ltb_spec n INT64_MIN); [mi|]. destruct (Z.ltb_spec INT64_MAX n); [mi|done].
Qed.

Lemma print_int64_bytes n : is_int64 n -> Forall is_byte (print_int64 n) /\ (1 <= length (print_int64 n) <= 21)%nat.
Proof.
  intros Hn. unfold print_int64, is_byte. destruct (Z.ltb_spec n 0).
  - destruct (digits_loop_spec 20 (- n) []) as (d & -> & Hd & Hl & Hdig & _); [rewrite pow10_20; mi|lia|]. rewrite app_nil_r. cbn [length].
    split; [|lia]. constructor; [lia|]. eapply Forall_impl; [done|]. cbn. lia.
  - destruct (digits_loop_spec 20 n []) as (d & -> & Hd & Hl & Hdig & _); [rewrite pow10_20; mi|lia|]. rewrite app_nil_r.
    split; [eapply Forall_impl; [done|]; cbn; lia|]. destruct d; [done|cbn in *; lia].
Qed.

(** ** Trimming *)

Lemma trim_start_spec fuel s p : Forall is_byte s -> (p <= length s)%nat -> (length s - p < fuel)%nat ->
  exists q, trim_start fuel s p = Some q /\ (p <= q <= length s)%nat /\ Forall (fun c => isspace c = true) (take (q - p) (drop p s)) /\
    (forall c, s !! q = Some c -> isspace c = false).
Proof.
  intros Hs. revert p. induction fuel as [|fuel IH]; intros p Hp Hf; [lia|]. cbn [trim_start].
  destruct (decide (p = length s)) as [->|].
  { rewrite byte_at_end. cbn. exists (length s). rewrite Nat.sub_diag, take_0. split_and!; [done|lia..|constructor|].
    intros c Hc. apply lookup_lt_Some in Hc. lia. }
  destruct (lookup_lt_is_Some_2 s p ltac:(lia)) as [c Hc]. rewrite byte_at_lt, Hc by lia. cbn [mbind option_bind].
  pose proof (Forall_lookup_1 _ _ _ _ Hs Hc) as Hb. unfold is_byte in Hb. destruct (Z.eqb_spec c 0); [lia|]. cbn [negb andb].
  destruct (isspace c) eqn:Hsp.
  - destruct (IH (S p) ltac:(lia) ltac:(lia)) as (q & -> & Hq & Hall & Hend). exists q. split_and!; [done|lia..| |done].
    rewrite (drop_S _ _ _ Hc). replace (q - p)%nat with (S (q - S p)) by lia. cbn [firstn]. by constructor.
  - exists p. rewrite Nat.sub_diag, take_0. split_and!; [done|lia..|constructor|]. intros c' Hc'. congruence.
Qed.

Lemma trim_end_spec s start e : (start <= e <= length s)%nat ->
  exists q, trim_end s start e = Some q /\ (start <= q <= e)%nat /\ Forall (fun c => isspace c = true) (take (e - q) (drop q s)) /\
    (forall c, (start < q)%nat -> s !! (q - 1)%nat = Some c -> isspace c = false).
Proof.
  induction e as [|e IH]; intros He; cbn [trim_end].
  - exists 0%nat. rewrite take_0. split_and!; [done|lia..|constructor|lia].
  - destruct (Nat.ltb_spec start (S e)).
    + destruct (lookup_lt_is_Some_2 s e ltac:(lia)) as [c Hc]. rewrite byte_at_lt, Hc by lia. cbn [mbind option_bind].
      destruct (isspace c) eqn:Hsp.
      * destruct (IH ltac:(lia)) as (q & -> & Hq & Hall & Hend). exists q. split_and!; [done|lia..| |done].
        replace (S e - q)%nat with (S (e - q)) by lia. rewrite (take_S_r _ _ c); [apply Forall_app; split; [done|by repeat constructor]|].
        rewrite lookup_drop. by replace (q + (e - q))%nat with e by lia.
      * exists (S e). rewrite Nat.sub_diag, take_0. split_and!; [done|lia..|constructor|]. intros c' _ Hc'.
        replace (S e - 1)%nat with e in Hc' by lia. congruence.
    + exists (S e). rewrite Nat.sub_diag, take_0. split_and!; [done|lia..|constructor|lia].
Qed.

(** [trimmed s r]: [r] is [s] without the whitespace at its ends. *)
Definition trimmed (s r : str) : Prop :=
  exists a b, s = a ++ r ++ b /\ Forall (fun c => isspace c = true) a /\ Forall (fun c => isspace c = true) b /\
    (forall c, head r = Some c -> isspace c = false) /\ (forall c, last r = Some c -> isspace c = false).

(** ** The operations over a lawful interner *)

Section Ops.

Context {T : Type} `{!Interner T} `{!InternerLaws T}.

(** An operation that puts [s] returns its id in a table that only grew, or -1
    with the strings as they were. *)
Definition puts (l : list str) (r : option (T * Z)) (s : str) : Prop :=
  exists t' v l', r = Some (t', v) /\ view t' l' /\ (v = -1 /\ l' = l \/ 0 <= v /\ l `prefix_of` l' /\ l' !! Z.to_nat v = Some s).
Definition returns (l : list str) (r : option (option T * Z)) (s : str) : Prop :=
  exists t' v l', r = Some (Some t', v) /\ view t' l' /\ (v = -1 /\ l' = l \/ 0 <= v /\ l `prefix_of` l' /\ l' !! Z.to_nat v = Some s).

Lemma on_table_puts t l f s : puts l (f t) s -> returns l (on_table (Some t) f) s.
Proof. intros (t' & v & l' & Hr & H). exists t', v, l'. unfold on_table. by rewrite Hr. Qed.

Lemma reverse_id t l i s : view t l -> l !! i = Some s -> reverse t (Z.of_nat i) = Some (Some s).
Proof. intros Hv Hi. rewrite (reverse_view t l) by done. destruct (Z.ltb_spec (Z.of_nat i) 0); [lia|]. by rewrite Nat2Z.id, Hi. Qed.

Lemma view_string t l i s : view t l -> l !! i = Some s -> c_string s.
Proof. intros Hv Hi. by apply (Forall_lookup_1 _ _ _ _ (view_c_string t l Hv) Hi). Qed.

Lemma with_buffer_puts t l n fill s : view t l -> Forall is_byte s -> n = S (length s) ->
  (forall buf, length buf = n -> exists buf', fill buf = Some buf' /\ c_str buf' = Some s) -> puts l (with_buffer t n fill) s.
Proof.
  intros Hv Hs -> Hfill. unfold with_buffer. destruct (malloc t (S (length s))) as [t' [buf|]] eqn:Hm;
    destruct (malloc_view _ _ _ _ _ Hv Hm) as [Hv' Hb].
  - destruct (Hb buf eq_refl) as [Hl Hmax]. destruct (Hfill buf Hl) as (buf' & -> & Hc). cbn [mbind option_bind]. rewrite Hc. cbn [mbind option_bind].
    destruct (put_view t' l s Hv') as (t2 & id & l' & -> & Hv2 & H); [split; [done|lia]|]. by exists t2, id, l'.
  - exists t', (-1), l. split_and!; [done..|by left].
Qed.

(** Copying a piece and terminating it. *)
Lemma copy_fill src buf : Forall is_byte src -> length buf = S (length src) ->
  exists buf', (buf ← memcpy buf 0 src; terminate buf (length src)) = Some buf' /\ c_str buf' = Some src.
Proof.
  intros Hs Hl. destruct (memcpy_append [] src buf ltac:(done) ltac:(cbn; lia)) as (b1 & H1 & Ht & Hl1). cbn [length app] in H1, Ht.
  rewrite H1. cbn [mbind option_bind]. apply terminate_c_str; [done..|lia].
Qed.

Lemma cat_puts t l i j s1 s2 : view t l -> l !! i = Some s1 -> l !! j = Some s2 ->
  returns l (cat (Some t) (Z.of_nat i) (Z.of_nat j)) (s1 ++ s2).
Proof.
  intros Hv Hi Hj. apply on_table_puts. rewrite (reverse_id t l i s1), (reverse_id t l j s2) by done. cbn [mbind option_bind].
  destruct (view_string _ _ _ _ Hv Hi) as [Hs1 Hl1], (view_string _ _ _ _ Hv Hj) as [Hs2 Hl2].
  apply with_buffer_puts; [done|by apply Forall_app| |].
  - rewrite <-Nat2Z.inj_add, <-(Nat2Z.inj_add _ 1), size_of_small by mi. rewrite length_app. lia.
  - rewrite <-Nat2Z.inj_add, <-(Nat2Z.inj_add _ 1), size_of_small by mi. intros buf Hb.
    destruct (memcpy_append [] s1 buf ltac:(done) ltac:(cbn; lia)) as (b1 & H1 & Ht & Hb1). cbn [length app] in H1, Ht. rewrite H1. cbn [mbind option_bind].
    destruct (memcpy_append s1 s2 b1 Ht ltac:(lia)) as (b2 & -> & Ht2 & Hb2). cbn [mbind option_bind]. rewrite <-length_app.
    apply terminate_c_str; [by apply Forall_app|done|rewrite length_app; lia].
Qed.

(** The piece of [s] between two offsets, put. *)
Lemma piece_puts t l s p n : view t l -> c_string s -> (p + n <= length s)%nat ->
  puts l (with_buffer t (size_of (Z.of_nat n + 1)) (fun buf => src ← read_range s p n; buf ← memcpy buf 0 src; terminate buf n)) (take n (drop p s)).
Proof.
  intros Hv [Hs Hl] Hp. assert (Hlen : length (take n (drop p s)) = n) by (rewrite length_take, length_drop; lia).
  rewrite <-(Nat2Z.inj_add _ 1), size_of_small by mi. apply with_buffer_puts; [done|by apply Forall_take, Forall_drop|lia|].
  intros buf Hb. rewrite read_range_in by done. cbn [mbind option_bind]. pose proof (copy_fill (take n (drop p s)) buf) as Hc.
  rewrite Hlen in Hc. apply Hc; [by apply Forall_take, Forall_drop|lia].
Qed.

(** A slice by characters. *)
Lemma substr_puts t l i s start len : view t l -> l !! i = Some s -> 0 <= start <= Z.of_nat (length (chars s)) -> 0 <= len ->
  returns l (substr (Some t) (Z.of_nat i) start len) (concat (take (Z.to_nat len) (drop (Z.to_nat start) (chars s)))).
Proof.
  intros Hv Hi Hst Hlen. unfold substr. destruct (Z.ltb_spec start 0); [lia|]. destruct (Z.ltb_spec len 0); [lia|]. cbn [orb].
  apply on_table_puts. rewrite (reverse_id t l i s) by done. cbn [mbind option_bind].
  pose proof (view_string _ _ _ _ Hv Hi) as Hc. destruct Hc as [Hs Hl] eqn:HE. clear HE. unfold utf8_byte_offset.
  destruct (Z.ltb_spec start 0); [lia|]. rewrite (walk_chars _ s 0 0 start (Z.to_nat start)) by (done || lia || (f_equal; lia)).
  rewrite drop_0. cbn [mbind option_bind]. rewrite Nat.min_l by lia. rewrite Nat.add_0_l.
  destruct (Z.ltb_spec (0 + Z.of_nat (Z.to_nat start)) start); [lia|]. cbn [mbind option_bind].
  pose proof (chars_take_le (Z.to_nat start) s) as Hle. set (off := length (concat (take (Z.to_nat start) (chars s)))) in *.
  assert (Hch : chars (drop off s) = drop (Z.to_nat start) (chars s)) by apply chars_drop. clearbody off.
  pose proof (chars_take_le (Z.to_nat len) (drop off s)) as Hle2. pose proof (chars_take (Z.to_nat len) (drop off s)) as Ht.
  rewrite (walk_chars _ s off 0 len (Z.to_nat len)) by (done || lia || (f_equal; lia)). cbn [mbind option_bind].
  rewrite Hch in *. rewrite length_drop in Hle2. rewrite Nat.add_comm, Nat.add_sub. rewrite <-Ht at 2. apply piece_puts; [done..|lia].
Qed.

(** Outside the string: -1, and nothing is put. *)
Lemma substr_outside t l i s start len : view t l -> l !! i = Some s ->
  start < 0 \/ len < 0 \/ Z.of_nat (length (chars s)) < start -> substr (Some t) (Z.of_nat i) start len = Some (Some t, -1).
Proof.
  intros Hv Hi Ho. unfold substr. destruct (Z.ltb_spec start 0); [done|]. destruct (Z.ltb_spec len 0); [done|]. cbn [orb on_table].
  rewrite (reverse_id t l i s) by done. cbn [mbind option_bind]. destruct (view_string _ _ _ _ Hv Hi) as [Hs Hl]. unfold utf8_byte_offset.
  destruct (Z.ltb_spec start 0); [lia|]. rewrite (walk_chars _ s 0 0 start (Z.to_nat start)) by (done || lia || (f_equal; lia)).
  rewrite drop_0. cbn [mbind option_bind]. rewrite Nat.min_r by lia. by destruct (Z.ltb_spec (0 + Z.of_nat (length (chars s))) start); [|lia].
Qed.

Lemma map_bytes_spec f s n i buf : (i + n = S (length s))%nat -> length buf = S (length s) ->
  take i buf = take i (f <$> (s ++ [0])) -> map_bytes n f s i buf = Some (f <$> (s ++ [0])).
Proof.
  revert i buf. induction n as [|n IH]; intros i buf Hn Hl Ht; cbn [map_bytes].
  - rewrite !take_ge in Ht by (rewrite ?length_fmap, ?length_app; cbn; lia). by rewrite Ht.
  - unfold byte_at, rd. destruct (lookup_lt_is_Some_2 (s ++ [0]) i) as [c Hc]; [rewrite length_app; cbn; lia|]. rewrite Hc. cbn [mbind option_bind].
    rewrite wr_lt by lia. cbn [mbind option_bind]. apply IH; [lia|by rewrite length_insert|].
    rewrite (take_S_r _ _ (f c)) by (rewrite list_lookup_insert_eq; [done|lia]). rewrite take_insert_ge by lia.
    rewrite Ht. rewrite (take_S_r _ _ (f c)); [done|]. by rewrite list_lookup_fmap, Hc.
Qed.

Lemma map_string_puts f t l i s : view t l -> l !! i = Some s -> f 0 = 0 -> (forall b, is_byte b -> is_byte (f b)) ->
  returns l (map_string f (Some t) (Z.of_nat i)) (f <$> s).
Proof.
  intros Hv Hi Hf0 Hf. apply on_table_puts. rewrite (reverse_id t l i s) by done. cbn [mbind option_bind].
  destruct (view_string _ _ _ _ Hv Hi) as [Hs Hl]. rewrite <-(Nat2Z.inj_add _ 1), size_of_small by mi.
  assert (Hfs : Forall is_byte (f <$> s)) by (apply Forall_fmap; eapply Forall_impl; [done|]; auto).
  apply with_buffer_puts; [done|done|rewrite length_fmap; lia|]. intros buf Hb. rewrite map_bytes_spec by (lia || by rewrite !take_0).
  eexists. split; [done|]. rewrite fmap_app. cbn [fmap list_fmap]. rewrite Hf0. by apply c_str_terminated.
Qed.

(** Replacement, when the result fits in memory. *)
Lemma str_replace_puts t l i j k s old new n r : view t l -> l !! i = Some s -> l !! j = Some old -> l !! k = Some new ->
  old <> [] -> replaced old new n s r -> Z.of_nat (length r) + 1 <= SIZE_MAX ->
  if decide (n = 0%nat) then str_replace (Some t) (Z.of_nat i) (Z.of_nat j) (Z.of_nat k) = Some (Some t, Z.of_nat i)
  else returns l (str_replace (Some t) (Z.of_nat i) (Z.of_nat j) (Z.of_nat k)) r.
Proof.
  intros Hv Hi Hj Hk Ho Hr Hm. destruct (view_string _ _ _ _ Hv Hi) as [Hs Hl], (view_string _ _ _ _ Hv Hk) as [Hn _].
  assert (Hlo : length old <> 0%nat) by (by destruct old).
  assert (Hcount : Z.of_nat n <= Z.of_nat (length s)) by (pose proof (replaced_count _ _ _ _ _ Ho Hr); lia).
  pose proof (count_loop_spec old new n s r Ho Hr (S (length s)) s 0 0 ltac:(by rewrite drop_0) ltac:(lia) ltac:(lia) ltac:(mi)) as Hcl.
  assert (Hgo : forall f, puts l (f t) r -> returns l (on_table (Some t) f) r) by (intros; by apply on_table_puts).
  case_decide as Hn0.
  - unfold str_replace, on_table. rewrite (reverse_id t l i s), (reverse_id t l j old), (reverse_id t l k new) by done. cbn [mbind option_bind].
    destruct (Nat.eqb_spec (length old) 0); [done|]. rewrite Hcl, Hn0. done.
  - apply on_table_puts. rewrite (reverse_id t l i s), (reverse_id t l j old), (reverse_id t l k new) by done. cbn [mbind option_bind].
    destruct (Nat.eqb_spec (length old) 0); [done|]. rewrite Hcl. cbn [mbind option_bind]. rewrite Z.add_0_l.
    destruct (Z.eqb_spec (Z.of_nat n) 0); [lia|]. rewrite (result_size_spec old new n s r) by done.
    apply with_buffer_puts; [done|by eapply replaced_bytes|lia|]. intros buf Hb.
    destruct (replace_loop_spec old new n s r Ho Hr (S (length s)) s 0 [] buf) as (b1 & p' & x & Hrl & Ht & -> & Hp & Hb1);
      [by rewrite drop_0|lia|lia|done|cbn; lia|]. cbn [length app] in Hrl, Ht. rewrite Hrl. cbn [mbind option_bind].
    rewrite read_range_in by lia. rewrite take_ge by (rewrite length_drop; lia). cbn [mbind option_bind]. rewrite length_app in Hb.
    destruct (memcpy_append x (drop p' s) b1 Ht ltac:(lia)) as (b2 & -> & Ht2 & Hb2). cbn [mbind option_bind]. rewrite <-length_app.
    apply terminate_c_str; [by eapply replaced_bytes|done|rewrite length_app; lia].
Qed.

Lemma trim_puts t l i s : view t l -> l !! i = Some s -> exists r, trimmed s r /\ returns l (trim (Some t) (Z.of_nat i)) r.
Proof.
  intros Hv Hi. pose proof (view_string _ _ _ _ Hv Hi) as Hc. destruct (Hc) as [Hs Hl].
  destruct (trim_start_spec (S (length s)) s 0 Hs ltac:(lia) ltac:(lia)) as (p & Hp & Hpl & Ha & Hhead).
  destruct (trim_end_spec s p (length s) ltac:(lia)) as (q & Hq & Hql & Hb & Hlast).
  exists (take (q - p) (drop p s)). split.
  - exists (take p s), (drop q s). rewrite Nat.sub_0_r, drop_0 in Ha. rewrite take_ge in Hb by (rewrite length_drop; lia). split_and!; [|done..| |].
    + assert (Hd : drop q s = drop (q - p) (drop p s)) by (rewrite drop_drop; f_equal; lia). by rewrite Hd, take_drop, take_drop.
    + intros c Hh. apply Hhead. destruct (decide (q = p)) as [->|]; [by rewrite Nat.sub_diag, take_0 in Hh|].
      rewrite head_lookup, lookup_take_lt, lookup_drop in Hh by lia. by rewrite Nat.add_0_r in Hh.
    + intros c Hh. destruct (decide (q = p)) as [->|]; [by rewrite Nat.sub_diag, take_0 in Hh|]. apply Hlast; [lia|].
      rewrite last_lookup, length_take, length_drop in Hh. rewrite lookup_take_lt, lookup_drop in Hh by lia.
      by replace (p + pred (Nat.min (q - p) (length s - p)))%nat with (q - 1)%nat in Hh by lia.
  - apply on_table_puts. rewrite (reverse_id t l i s) by done. cbn [mbind option_bind]. rewrite Hp. cbn [mbind option_bind]. rewrite Hq. cbn [mbind option_bind].
    apply piece_puts; [done..|lia].
Qed.

Lemma to_string_puts t l n : view t l -> is_int64 n -> returns l (to_string (Some t) n) (print_int64 n).
Proof.
  intros Hv Hn. destruct (print_int64_bytes n Hn) as [Hb Hl]. apply on_table_puts. cbv zeta. destruct (Nat.leb_spec 24 (length (print_int64 n))); [lia|].
  destruct (put_view t l (print_int64 n) Hv) as (t' & id & l' & Hp & Hv' & H'); [split; [done|mi]|]. by exists t', id, l'.
Qed.

Lemma to_number_print t l i n : view t l -> is_int64 n -> l !! i = Some (print_int64 n) ->
  to_number_checked (Some t) (Z.of_nat i) = Some (0, n) /\ to_number (Some t) (Z.of_nat i) = Some n.
Proof.
  intros Hv Hn Hi. destruct (print_int64_bytes n Hn) as [_ Hl]. pose proof (strtoll_print n Hn) as Hr. unfold to_number_checked, to_number.
  rewrite (reverse_id t l i _ Hv Hi). cbn [mbind option_bind]. destruct (print_int64 n); [cbn in Hl; lia|]. by rewrite Hr.
Qed.

(** The predicates and the numbers read from a string. *)
Lemma on_pair_strings t l i j s1 s2 f : view t l -> l !! i = Some s1 -> l !! j = Some s2 ->
  on_pair (Some t) (Z.of_nat i) (Z.of_nat j) f = f s1 s2.
Proof. intros Hv Hi Hj. unfold on_pair. by rewrite (reverse_id t l i s1 Hv Hi), (reverse_id t l j s2 Hv Hj). Qed.

Lemma contains_strings t l i j s1 s2 : view t l -> l !! i = Some s1 -> l !! j = Some s2 ->
  exists b, contains (Some t) (Z.of_nat i) (Z.of_nat j) = Some b /\ (b = true <-> exists x y, s1 = x ++ s2 ++ y).
Proof.
  intros Hv Hi Hj. unfold contains. rewrite (on_pair_strings t l i j s1 s2) by done. eexists. split; [done|]. rewrite bool_decide_eq_true, <-contains_spec.
  unfold strstr. rewrite drop_0. by destruct (find_sub s2 s1).
Qed.

Lemma prefix_strings t l i j s1 s2 : view t l -> l !! i = Some s1 -> l !! j = Some s2 ->
  exists b, str_prefix (Some t) (Z.of_nat i) (Z.of_nat j) = Some b /\ (b = true <-> s2 `prefix_of` s1).
Proof.
  intros Hv Hi Hj. destruct (view_string _ _ _ _ Hv Hi) as [Hs1 _], (view_string _ _ _ _ Hv Hj) as [Hs2 _]. unfold str_prefix.
  rewrite (on_pair_strings t l i j s1 s2) by done. eexists. split; [done|].
  unfold strncmp. rewrite Z.eqb_eq, strcmp_eq by (by apply Forall_take). rewrite (take_ge s2) by lia. split.
  - intros He. exists (drop (length s2) s1). by rewrite <-He at 1; rewrite take_drop.
  - intros [x ->]. apply take_app_length.
Qed.

Lemma suffix_strings t l i j s1 s2 : view t l -> l !! i = Some s1 -> l !! j = Some s2 ->
  exists b, str_suffix (Some t) (Z.of_nat i) (Z.of_nat j) = Some b /\ (b = true <-> s2 `suffix_of` s1).
Proof.
  intros Hv Hi Hj. unfold str_suffix. rewrite (on_pair_strings t l i j s1 s2) by done. destruct (Nat.ltb_spec (length s1) (length s2)).
  - eexists. split; [done|]. split; [done|]. intros Hsf%suffix_length. lia.
  - rewrite read_range_in by lia. cbn [mbind option_bind]. eexists. split; [done|]. rewrite bool_decide_eq_true.
    rewrite take_ge by (rewrite length_drop; lia). split.
    + intros He. exists (take (length s1 - length s2) s1). by rewrite <-He at 2; rewrite take_drop.
    + intros [x ->]. rewrite length_app. replace (length x + length s2 - length s2)%nat with (length x) by lia. apply drop_app_length.
Qed.

Lemma str_ord_string t l i s : view t l -> l !! i = Some s -> s <> [] -> str_ord (Some t) (Z.of_nat i) = Some (decode1 s).2.
Proof.
  intros Hv Hi Hne. destruct (view_string _ _ _ _ Hv Hi) as [Hs _]. unfold str_ord. rewrite (reverse_id t l i s Hv Hi). cbn [mbind option_bind].
  rewrite utf8_next_decode by (done || (destruct s; [done|cbn; lia])). cbn [mbind option_bind]. by rewrite drop_0.
Qed.

Lemma strlen_string t l i s : view t l -> l !! i = Some s -> strlen (Some t) (Z.of_nat i) = Some (Z.of_nat (length (chars s))).
Proof.
  intros Hv Hi. pose proof (view_string _ _ _ _ Hv Hi) as Hc. unfold strlen. rewrite (reverse_id t l i s Hv Hi). cbn [mbind option_bind].
  rewrite utf8_strlen_chars by done. cbn. pose proof (chars_length s). destruct Hc. rewrite i64_small by mi. done.
Qed.

(** Any id and any argument: nothing is read or written out of bounds, and the
    strings of the table stay where they are. *)
Definition grows (l : list str) (r : option (option T * Z)) : Prop :=
  exists t' v l', r = Some (Some t', v) /\ view t' l' /\ l `prefix_of` l'.

Lemma returns_grows l r s : returns l r s -> grows l r.
Proof. intros (t' & v & l' & -> & Hv & [[_ ->]|(_ & Hp & _)]); by eexists t', v, _. Qed.

Lemma stays_grows t l v : view t l -> grows l (Some (Some t, v)).
Proof. by exists t, v, l. Qed.

(** An id is known or not. *)
Lemma reverse_cases t l id : view t l ->
  reverse t id = Some None \/ exists i s, id = Z.of_nat i /\ l !! i = Some s /\ reverse t id = Some (Some s).
Proof.
  intros Hv. rewrite (reverse_view t l id Hv). destruct (Z.ltb_spec id 0); [by left|]. destruct (l !! Z.to_nat id) as [s|] eqn:Hs; [|by left].
  right. exists (Z.to_nat id), s. rewrite Z2Nat.id by lia. done.
Qed.

Lemma safe_reads t l a : view t l ->
  (exists v, strlen (Some t) a = Some v) /\ (exists v, str_ord (Some t) a = Some v) /\ (exists v, to_number (Some t) a = Some v) /\
  (exists v, to_number_checked (Some t) a = Some v).
Proof.
  intros Hv. destruct (reverse_cases t l a Hv) as [Ha|(i & s & -> & Hi & Ha)].
  - unfold strlen, str_ord, to_number, to_number_checked. rewrite Ha. cbn. eauto 10.
  - split_and!; [by rewrite (strlen_string t l i s) by done; eauto| |unfold to_number|unfold to_number_checked];
      [|rewrite Ha; destruct s; cbn; eauto..].
    destruct s as [|c s]; [|by rewrite (str_ord_string t l i (c :: s)) by done; eauto]. unfold str_ord. rewrite Ha. cbn. eauto.
Qed.

Lemma safe_tests t l a b : view t l ->
  (exists v, contains (Some t) a b = Some v) /\ (exists v, str_prefix (Some t) a b = Some v) /\ (exists v, str_suffix (Some t) a b = Some v).
Proof.
  intros Hv. destruct (reverse_cases t l a Hv) as [Ha|(i & s & -> & Hi & Ha)], (reverse_cases t l b Hv) as [Hb|(j & s2 & -> & Hj & Hb)].
  1-3: by unfold contains, str_prefix, str_suffix, on_pair; rewrite Ha, Hb; cbn; eauto 10.
  destruct (contains_strings t l i j s s2 Hv Hi Hj) as (? & ? & _), (prefix_strings t l i j s s2 Hv Hi Hj) as (? & ? & _),
    (suffix_strings t l i j s s2 Hv Hi Hj) as (? & ? & _). eauto 10.
Qed.

Lemma upper_byte_ok b : is_byte b -> is_byte (upper_byte b).
Proof. unfold is_byte, upper_byte. destruct (Z.leb_spec 97 b), (Z.leb_spec b 122); cbn [andb]; lia. Qed.
Lemma lower_byte_ok b : is_byte b -> is_byte (lower_byte b).
Proof. unfold is_byte, lower_byte. destruct (Z.leb_spec 65 b), (Z.leb_spec b 90); cbn [andb]; lia. Qed.

Lemma safe_puts t l a b c : view t l ->
  grows l (cat (Some t) a b) /\ grows l (substr (Some t) a b c) /\ grows l (to_upper (Some t) a) /\ grows l (to_lower (Some t) a) /\
  grows l (trim (Some t) a) /\ (is_int64 a -> grows l (to_string (Some t) a)).
Proof.
  intros Hv. assert (Hn : is_int64 a -> grows l (to_string (Some t) a)) by (intros; by eapply returns_grows, to_string_puts).
  destruct (reverse_cases t l a Hv) as [Ha|(i & s & -> & Hi & Ha)].
  - destruct (reverse_cases t l b Hv) as [Hb|(? & ? & _ & _ & Hb)]; (split_and!; [| | | | |done]);
      unfold cat, substr, to_upper, to_lower, map_string, trim, on_table; rewrite ?Ha, ?Hb; cbn; try case_match; by apply stays_grows.
  - split_and!; [| | | | |done].
    + destruct (reverse_cases t l b Hv) as [Hb|(j & s2 & -> & Hj & Hb)]; [|by eapply returns_grows, cat_puts].
      unfold cat, on_table. rewrite Ha, Hb. cbn. by apply stays_grows.
    + destruct (decide (0 <= b <= Z.of_nat (length (chars s)) /\ 0 <= c)) as [[? ?]|].
      * by eapply returns_grows, substr_puts.
      * rewrite (substr_outside t l i s) by (done || lia). by apply stays_grows.
    + eapply returns_grows, map_string_puts; [done..|apply upper_byte_ok].
    + eapply returns_grows, map_string_puts; [done..|apply lower_byte_ok].
    + destruct (trim_puts t l i s Hv Hi) as (r & _ & Hr). by eapply returns_grows.
Qed.

End Ops.

(** ** The table of intern.c is lawful *)

(** malloc gives objects of the size asked for, none larger than PTRDIFF_MAX. *)
Definition malloc_ok (sur : surroundings) : Prop :=
  forall k n buf, mallocs sur k n = Some buf -> length buf = n /\ Z.of_nat n <= INT64_MAX.

Definition host_view (t : host) (l : list str) : Prop :=
  InternProof.ok (table t) l /\ InternProof.accounted (table t) l /\ Forall c_string l.

Lemma host_put_view sur t l s : host_view t l -> c_string s -> exists t' id l', host_put sur t s = Some (t', id) /\ host_view t' l' /\
  (id = -1 /\ l' = l \/ 0 <= id /\ l `prefix_of` l' /\ l' !! Z.to_nat id = Some s).
Proof.
  intros (Ho & Ha & Hc) Hs. unfold host_put, Intern.put.
  destruct (InternProof.intern_put_ok (envs sur (tick t)) (table t) l s Ho Ha) as (ts & id & -> & [Hold|[Hfail|Hnew]]); cbn [mbind option_bind].
  - destruct Hold as (i & Hi & -> & ->). eexists _, _, l. split; [done|]. split; [done|]. right. rewrite Nat2Z.id. split_and!; [lia|done..].
  - destruct Hfail as (-> & -> & _). eexists _, _, l. split; [done|]. split; [done|]. by left.
  - destruct Hnew as (Hni & -> & pre & t' & -> & _ & Ho' & Ha' & _). eexists _, _, (l ++ [s]). split; [done|].
    rewrite InternProof.last_app'. split.
    + split_and!; [done..|apply Forall_app_2; [done|by apply Forall_singleton]].
    + right. rewrite Nat2Z.id. split_and!; [lia|by exists [s]|]. by rewrite lookup_app_r, Nat.sub_diag by lia.
Qed.

#[export] Instance host_laws sur (Hm : malloc_ok sur) : @InternerLaws host (host_interner sur).
Proof.
  refine (Build_InternerLaws host (host_interner sur) host_view _ _ _ _ _).
  - by intros t l (_ & _ & Hc).
  - intros t l (Ho & _ & _). apply Ho.
  - intros t l id (Ho & _ & _). apply (InternProof.reverse_vis l l (table t)); [by apply InternProof.ok_vis|apply Ho|done|].
    pose proof (InternProof.ok_small _ _ Ho). mi.
  - apply host_put_view.
  - intros t l n t' r Hv [= <- <-]. split; [done|]. intros buf Hb. by apply (Hm (tick t)).
Defined.

Lemma host_new : exists t, Intern.create true true true = Some t /\ host_view (H t 0) [].
Proof.
  destruct InternProof.create_sim as (t & Hc & [Ho Ha _]). exists t. split; [done|]. split_and!; [done..|constructor].
Qed.

(** ** The theorems *)

(** The simplest interner: the list itself, with memory for small strings. *)
Definition list_put (l : list str) (s : str) : list str * Z :=
  match list_find (fun x => x = s) l with Some (i, _) => (l, Z.of_nat i) | None => (l ++ [s], Z.of_nat (length l)) end.

#[export] Instance list_interner : Interner (list str) :=
  {| reverse := fun l id => Some (if id <? 0 then None else l !! Z.to_nat id);
     put := fun l s => Some (list_put l s);
     malloc := fun l n => (l, if (n <=? 1000)%nat then Some (replicate n 170) else None) |}.

Definition list_view (t l : list str) : Prop := t = l /\ NoDup l /\ Forall c_string l.

#[export] Instance list_laws : InternerLaws (list str).
Proof.
  refine (Build_InternerLaws (list str) list_interner list_view _ _ _ _ _).
  - by intros t l (_ & _ & H).
  - by intros t l (_ & H & _).
  - by intros t l id (-> & _ & _).
  - intros t l s (-> & Hn & Hc) Hs. unfold put, list_interner, list_put. destruct (list_find _ l) as [[i x]|] eqn:Hf.
    + apply list_find_Some in Hf as (Hi & -> & _). eexists _, _, l. split; [done|]. split; [done|]. right. rewrite Nat2Z.id. split_and!; [lia|done..].
    + apply list_find_None in Hf. eexists _, _, _. split; [done|]. split; [split; [done|]|].
      * split; [|by apply Forall_app_2; [|apply Forall_singleton]]. apply NoDup_app. split_and!; [done| |apply NoDup_singleton].
        intros x Hx ->%list_elem_of_singleton. rewrite Forall_forall in Hf. by apply (Hf s).
      * right. rewrite Nat2Z.id. split_and!; [lia|by exists [s]|]. by rewrite lookup_app_r, Nat.sub_diag by lia.
  - intros t l n t' r Hv [= <- <-]. split; [done|]. intros buf. destruct (Nat.leb_spec n 1000); [|done]. intros [= <-].
    rewrite length_replicate. split; [done|mi].
Defined.

(** A decidable form of the view, for examples. *)
Lemma list_view_check (l : list str) : bool_decide (NoDup l) && forallb (fun s => forallb (fun b => (1 <=? b) && (b <=? 255)) s && (length s <? 1000)%nat) l = true ->
  list_view l l.
Proof.
  intros [Hn Hf]%andb_true_iff. apply bool_decide_eq_true in Hn. split_and!; [done..|]. apply Forall_forall. intros s Hs.
  rewrite forallb_forall in Hf. apply list_elem_of_In in Hs. apply Hf in Hs. apply andb_true_iff in Hs as [Hb Hl]. apply Nat.ltb_lt in Hl.
  split; [|mi]. apply Forall_forall. intros b Hin. rewrite forallb_forall in Hb. apply list_elem_of_In in Hin.
  apply Hb in Hin. apply andb_true_iff in Hin as [H1 H2]. unfold is_byte. lia.
Qed.

(** On text that encodes code points in UTF-8, strlen counts the code
    points, substr returns the slice of code points, and str_ord is the first
    code point; over any lawful intern table. *)
Theorem substr_code_points {T} `{!Interner T} `{!InternerLaws T} (t : T) l i cps start len :
  view t l -> Forall is_code_point cps -> l !! i = Some (encode cps) -> 0 <= start <= Z.of_nat (length cps) -> 0 <= len ->
  strlen (Some t) (Z.of_nat i) = Some (Z.of_nat (length cps)) /\
  returns l (substr (Some t) (Z.of_nat i) start len) (encode (take (Z.to_nat len) (drop (Z.to_nat start) cps))) /\
  (forall cp, head cps = Some cp -> str_ord (Some t) (Z.of_nat i) = Some cp).
Proof.
  intros Hv Hcp Hi Hst Hlen. pose proof (chars_encode cps Hcp) as Hch. split_and!.
  - rewrite (strlen_string t l i _ Hv Hi), Hch, length_fmap. done.
  - pose proof (substr_puts t l i _ start len Hv Hi) as Hs. rewrite Hch, length_fmap in Hs.
    unfold encode. rewrite fmap_take, fmap_drop. by apply Hs.
  - intros cp Hh. destruct cps as [|cp' cps]; [done|]. injection Hh as ->. apply Forall_cons in Hcp as [Hcp _]. unfold encode in Hi.
    cbn [fmap list_fmap concat] in Hi. destruct (encode1_bytes cp Hcp) as [_ Hne]. pose proof (decode1_encode cp (concat (encode1 <$> cps)) Hcp) as Hd.
    rewrite (str_ord_string t l i _ Hv Hi); [by rewrite Hd|]. by intros [? _]%app_eq_nil.
Qed.

(** "aé€😀" without its first and last character *)
Lemma substr_code_points_witness :
  returns [encode [97; 233; 8364; 128512]] (substr (Some [encode [97; 233; 8364; 128512]]) 0 1 2) (encode [233; 8364]) /\
  strlen (Some [encode [97; 233; 8364; 128512]]) 0 = Some 4.
Proof.
  destruct (substr_code_points [encode [97; 233; 8364; 128512]] [encode [97; 233; 8364; 128512]] 0 [97; 233; 8364; 128512] 1 2) as (H1 & H2 & _).
  - apply list_view_check. vm_compute. reflexivity.
  - repeat constructor; unfold is_code_point; lia.
  - reflexivity.
  - cbn. lia.
  - lia.
  - split; [exact H2|exact H1].
Defined.

(** C30: str_replace: for a nonempty pattern there is exactly one result of
    replacing its leftmost occurrences that do not overlap; when its size is a
    size_t, the occurrences counted are those replaced, the size computed for
    the buffer is that of the result and its terminator, no copy leaves it, and
    the call returns the id of that result, -1 when the table or the buffer
    cannot be had, or the original id when nothing occurs. *)
Theorem str_replace_exact {T} `{!Interner T} `{!InternerLaws T} (t : T) l i j k s old new :
  view t l -> l !! i = Some s -> l !! j = Some old -> l !! k = Some new -> old <> [] ->
  exists n r, replaced old new n s r /\ (forall n' r', replaced old new n' s r' -> n' = n /\ r' = r) /\
    (Z.of_nat (length r) < SIZE_MAX ->
       count_loop (S (length s)) s old 0 0 = Some (Z.of_nat n) /\
       result_size (Z.of_nat (length s)) (Z.of_nat n) (Z.of_nat (length old)) (Z.of_nat (length new)) = Z.of_nat (length r) + 1 /\
       if decide (n = 0%nat) then str_replace (Some t) (Z.of_nat i) (Z.of_nat j) (Z.of_nat k) = Some (Some t, Z.of_nat i)
       else returns l (str_replace (Some t) (Z.of_nat i) (Z.of_nat j) (Z.of_nat k)) r).
Proof.
  intros Hv Hi Hj Hk Ho. destruct (replaced_exists old new s Ho) as (n & r & Hr). exists n, r. split; [done|]. split.
  - intros n' r' Hr'. by destruct (replaced_det _ _ _ _ _ _ _ Hr Hr') as [-> ->].
  - intros Hm. destruct (view_string _ _ _ _ Hv Hi) as [Hs Hl]. pose proof (replaced_count _ _ _ _ _ Ho Hr). split_and!.
    + by rewrite (count_loop_spec old new n s r Ho Hr (S (length s)) s 0 0 ltac:(by rewrite drop_0) ltac:(lia) ltac:(lia) ltac:(mi)), Z.add_0_l.
    + apply result_size_spec; [done|lia].
    + apply (str_replace_puts t l i j k s old new n r); [done..|lia].
Qed.

(** "aaa" with "aa" replaced by "xyz" is "xyza". *)
Lemma str_replace_exact_witness :
  exists n r, replaced [97; 97] [120; 121; 122] n [97; 97; 97] r /\
    str_replace (Some [[97; 97; 97]; [97; 97]; [120; 121; 122]]) 0 1 2 = Some (Some [[97; 97; 97]; [97; 97]; [120; 121; 122]; [120; 121; 122; 97]], 3).
Proof.
  destruct (str_replace_exact [[97; 97; 97]; [97; 97]; [120; 121; 122]] [[97; 97; 97]; [97; 97]; [120; 121; 122]] 0 1 2 [97; 97; 97] [97; 97] [120; 121; 122]) as (n & r & H & _).
  - apply list_view_check. vm_compute. reflexivity.
  - reflexivity.
  - reflexivity.
  - reflexivity.
  - discriminate.
  - exists n, r. split; [exact H|]. vm_compute. reflexivity.
Defined.

(** A number printed by to_string is read back by to_number, on the intern
    table of intern.c itself: whatever its allocations and its governor
    answer, the call returns -1 or an id that both readers turn into the
    number. *)
Theorem number_round_trip sur (Hm : malloc_ok sur) t l n : host_view t l -> is_int64 n ->
  exists t' id, to_string (Interner0 := host_interner sur) (Some t) n = Some (Some t', id) /\
    (id = -1 \/ 0 <= id /\ to_number_checked (Interner0 := host_interner sur) (Some t') id = Some (0, n) /\
                to_number (Interner0 := host_interner sur) (Some t') id = Some n).
Proof.
  intros Hv Hn. destruct (to_string_puts (InternerLaws0 := host_laws sur Hm) t l n Hv Hn) as (t' & id & l' & -> & Hv' & H'). exists t', id. split; [done|].
  destruct H' as [[-> _]|(Hid & _ & Hl)]; [by left|right]. split; [done|]. rewrite <-(Z2Nat.id id) by done.
  by apply (to_number_print (InternerLaws0 := host_laws sur Hm) t' l').
Qed.

Definition example_surroundings : surroundings := Sur (fun _ => Intern.free_env) (fun _ _ => None).

(** INT64_MIN through a new table *)
Lemma number_round_trip_witness : exists t, Intern.create true true true = Some t /\
  exists t' id, to_string (Interner0 := host_interner example_surroundings) (Some (H t 0)) INT64_MIN = Some (Some t', id) /\
    (id = -1 \/ 0 <= id /\ to_number_checked (Interner0 := host_interner example_surroundings) (Some t') id = Some (0, INT64_MIN) /\
                to_number (Interner0 := host_interner example_surroundings) (Some t') id = Some INT64_MIN).
Proof.
  destruct host_new as (t & Hc & Hv). exists t. split; [exact Hc|].
  apply (number_round_trip example_surroundings) with (l := []); [|exact Hv|unfold is_int64, INT64_MIN, INT64_MAX; lia].
  intros k n buf Hb. discriminate Hb.
Defined.

(** Whatever ids and arguments they are given, the string operations read
    and write inside their strings and buffers and return, and the strings
    already in the table keep their ids. *)
Theorem string_ops_safe {T} `{!Interner T} `{!InternerLaws T} (t : T) l a b c : view t l ->
  ((exists v, strlen (Some t) a = Some v) /\ (exists v, str_ord (Some t) a = Some v) /\ (exists v, to_number (Some t) a = Some v) /\
   (exists v, to_number_checked (Some t) a = Some v)) /\
  ((exists v, contains (Some t) a b = Some v) /\ (exists v, str_prefix (Some t) a b = Some v) /\ (exists v, str_suffix (Some t) a b = Some v)) /\
  (grows l (cat (Some t) a b) /\ grows l (substr (Some t) a b c) /\ grows l (to_upper (Some t) a) /\ grows l (to_lower (Some t) a) /\
   grows l (trim (Some t) a) /\ (is_int64 a -> grows l (to_string (Some t) a))).
Proof. intros Hv. split_and!; [eapply safe_reads|eapply safe_reads|eapply safe_reads|eapply safe_reads|eapply safe_tests|eapply safe_tests|eapply safe_tests|eapply safe_puts..]; done. Qed.

Lemma string_ops_safe_witness : list_view [[97]] [[97]] /\ grows [[97]] (substr (Some [[97]]) 0 1 (-1)) /\ (exists v, str_ord (Some [[97]]) 7 = Some v).
Proof.
  assert (Hv : list_view [[97]] [[97]]) by (apply list_view_check; vm_compute; reflexivity). split; [exact Hv|]. split.
  - apply (string_ops_safe (InternerLaws0 := list_laws) [[97]] [[97]] 0 1 (-1) Hv).
  - apply (string_ops_safe (InternerLaws0 := list_laws) [[97]] [[97]] 7 0 0 Hv).
Defined.

(** Concatenation, ASCII case, trimming and the substring tests are exact:
    each call returns the id of the string it promises (or -1 with the strings
    unchanged), and each test is true exactly when its relation holds. *)
Theorem string_ops_exact {T} `{!Interner T} `{!InternerLaws T} (t : T) l i j s1 s2 :
  view t l -> l !! i = Some s1 -> l !! j = Some s2 ->
  returns l (cat (Some t) (Z.of_nat i) (Z.of_nat j)) (s1 ++ s2) /\
  returns l (to_upper (Some t) (Z.of_nat i)) (upper_byte <$> s1) /\
  returns l (to_lower (Some t) (Z.of_nat i)) (lower_byte <$> s1) /\
  (exists r, trimmed s1 r /\ returns l (trim (Some t) (Z.of_nat i)) r) /\
  (exists b, contains (Some t) (Z.of_nat i) (Z.of_nat j) = Some b /\ (b = true <-> exists x y, s1 = x ++ s2 ++ y)) /\
  (exists b, str_prefix (Some t) (Z.of_nat i) (Z.of_nat j) = Some b /\ (b = true <-> s2 `prefix_of` s1)) /\
  (exists b, str_suffix (Some t) (Z.of_nat i) (Z.of_nat j) = Some b /\ (b = true <-> s2 `suffix_of` s1)).
Proof.
  intros Hv Hi Hj. split_and!.
  - by apply cat_puts.
  - apply map_string_puts; [done..|apply upper_byte_ok].
  - apply map_string_puts; [done..|apply lower_byte_ok].
  - by apply trim_puts.
  - by apply (contains_strings t l).
  - by apply (prefix_strings t l).
  - by apply (suffix_strings t l).
Qed.

Lemma string_ops_exact_witness : returns [[97; 98]; [98]] (cat (Some [[97; 98]; [98]]) 0 1) [97; 98; 98] /\
  returns [[97; 98]; [98]] (to_upper (Some [[97; 98]; [98]]) 0) [65; 66].
Proof.
  assert (Hv : list_view [[97; 98]; [98]] [[97; 98]; [98]]) by (apply list_view_check; vm_compute; reflexivity).
  split; apply (string_ops_exact (InternerLaws0 := list_laws) [[97; 98]; [98]] [[97; 98]; [98]] 0 1 [97; 98] [98] Hv eq_refl eq_refl).
Defined.


End StringOpsProof.
