(* ===== verification/Floats.v ===== *)
(** * Binary64 lanes (src/wirelog/columnar/expr.c)

    A float column stores the bits of a double in an int64 lane.  The value is
    the Standard Library's specification of IEEE 754 numbers, read from and
    written to those bits. *)

From Stdlib Require Import SpecFloat.
From S2P Require Import Prelude.

Module Floats.

Definition prec : Z := 53.
Definition emax : Z := 1024.
Definition HIDDEN : Z := 4503599627370496. (* 2^52 *)

Definition sign_of (bits : Z) : bool := Z.testbit (u64 bits) 63.
Definition exponent_of (bits : Z) : Z := Z.land (Z.shiftr (u64 bits) 52) 0x7ff.
Definition mantissa_of (bits : Z) : Z := Z.land (u64 bits) (HIDDEN - 1).

(** memcpy(&value, &lane, 8) *)
Definition of_bits (bits : Z) : spec_float :=
  let s := sign_of bits in
  let e := exponent_of bits in
  let m := mantissa_of bits in
  if e =? 0x7ff then if m =? 0 then S754_infinity s else S754_nan
  else
    match (if e =? 0 then m else m + HIDDEN) with
    | Zpos p => S754_finite s p (Z.max e 1 - 1075)
    | _ => S754_zero s
    end.

(** memcpy(&lane, &value, 8); a NaN has the quiet default bits. *)
Definition to_bits (f : spec_float) : Z :=
  let pack (s : bool) (e m : Z) : Z := i64 ((if s then 2 ^ 63 else 0) + e * HIDDEN + m) in
  match f with
  | S754_zero s => pack s 0 0
  | S754_infinity s => pack s 0x7ff 0
  | S754_nan => pack false 0x7ff (2 ^ 51)
  | S754_finite s m e => if Zpos m <? HIDDEN then pack s 0 (Zpos m) else pack s (e + 1075) (Zpos m - HIDDEN)
  end.

Definition isfinite (f : spec_float) : bool :=
  match f with S754_zero _ | S754_finite _ _ _ => true | _ => false end.

(** value == 0.0 *)
Definition is_zero (f : spec_float) : bool := match f with S754_zero _ => true | _ => false end.

(** The lane's value, when it is finite. *)
Definition expr_float_load (lane : Z) : option spec_float :=
  let f := of_bits lane in if isfinite f then Some f else None.

(** The lane of a finite value, -0.0 stored as 0.0. *)
Definition expr_float_store (value : spec_float) : option Z :=
  if negb (isfinite value) then None
  else Some (to_bits (if is_zero value then S754_zero false else value)).

Definition fadd : spec_float -> spec_float -> spec_float := SFadd prec emax.
Definition fsub : spec_float -> spec_float -> spec_float := SFsub prec emax.
Definition fmul : spec_float -> spec_float -> spec_float := SFmul prec emax.
Definition fdiv : spec_float -> spec_float -> spec_float := SFdiv prec emax.

Definition feq : spec_float -> spec_float -> bool := SFeqb.
Definition flt : spec_float -> spec_float -> bool := SFltb.
Definition fle : spec_float -> spec_float -> bool := SFleb.

(** 1.5 + 2.25 = 3.75, and the division by zero that is refused. *)
Example float_sum :
  (a ← expr_float_load 4609434218613702656; b ← expr_float_load 4612248968380809216; expr_float_store (fadd a b)) = Some 4615626668101337088.
Proof. by vm_compute. Qed.
Example float_div_zero :
  (a ← expr_float_load 4609434218613702656; b ← expr_float_load 0; expr_float_store (fdiv a b)) = None.
Proof. by vm_compute. Qed.

End Floats.
