(* ===== verification/Expr.v ===== *)
(** * Expressions: the postfix interpreter (src/wirelog/columnar/expr.c)

    A filter or map expression is a buffer of postfix bytecode; the
    interpreter runs it against a row on a stack of 64 values.  A push on a
    full stack is dropped and a pop of an empty one gives 0, as in the source.
    Outcomes are a status and the value; the outer [None] is undefined
    behaviour (a read outside the buffer or the row).  The intern table, the
    hash and crypto libraries, the extension registry and the callbacks are an
    interface. *)

From S2P Require Import Prelude Arithmetic Crc32 StringOps Floats.

Module Expr.

Import StringOps.

(** ** Opcodes *)

Inductive arith_op := ADD | SUB | MUL | DIV | MOD | BAND | BOR | BXOR | SHL | SHR.
Inductive float_op := FADD | FSUB | FMUL | FDIV.
Inductive cmp_op := EQ | NEQ | LT | GT | LTE | GTE.
Inductive agg_op := COUNT | SUM | MIN | MAX | AVG.
Inductive alg := MD5 | SHA1 | SHA256 | SHA512.
Inductive digest_fn := HASH | CRC32_ETH | CRC32_CAST | PSA (a : alg).
Inductive str_fn :=
| STRLEN | CAT | SUBSTR | CONTAINS | STR_PREFIX | STR_SUFFIX | STR_ORD | TO_UPPER | TO_LOWER
| STR_REPLACE | TRIM | TO_STRING | TO_NUMBER | UUID5_RFC.

(** wl_plan_expr_tag_t; a digest opcode says which operands are symbols. *)
Inductive tag :=
| VAR | CONST_INT | CONST_STR | BOOL | VAR_FLOAT | CONST_FLOAT | VAR_STRING
| EXTENSION_CALL (abi : bool)
| ARITH (op : arith_op) | ARITH_BNOT | ARITH_FLOAT (op : float_op)
| DIGEST (fn : digest_fn) (symbol : bool)
| HMAC_SHA256 (msg key : bool) | UUID4 | UUID5 (ns name : bool)
| CMP (op : cmp_op) | CMP_FLOAT (op : cmp_op) | CMP_STR (op : cmp_op)
| AGG (op : agg_op) | STR_FN (fn : str_fn).

Definition tag_table : list (Z * tag) :=
  [(0x01, VAR); (0x02, CONST_INT); (0x03, CONST_STR); (0x04, BOOL); (0x05, VAR_FLOAT); (0x06, CONST_FLOAT); (0x07, VAR_STRING);
   (0x80, EXTENSION_CALL false); (0x81, EXTENSION_CALL true);
   (0x10, ARITH ADD); (0x11, ARITH SUB); (0x12, ARITH MUL); (0x13, ARITH DIV); (0x14, ARITH MOD);
   (0x15, ARITH BAND); (0x16, ARITH BOR); (0x17, ARITH BXOR); (0x18, ARITH SHL); (0x19, ARITH SHR);
   (0x70, ARITH_FLOAT FADD); (0x71, ARITH_FLOAT FSUB); (0x72, ARITH_FLOAT FMUL); (0x73, ARITH_FLOAT FDIV);
   (0x1A, ARITH_BNOT); (0x1B, DIGEST HASH false); (0x1C, DIGEST CRC32_ETH false); (0x1D, DIGEST CRC32_CAST false);
   (0x1E, DIGEST (PSA MD5) false); (0x1F, DIGEST (PSA SHA1) false); (0x20, DIGEST (PSA SHA256) false); (0x21, DIGEST (PSA SHA512) false);
   (0x28, HMAC_SHA256 false false); (0x29, UUID4); (0x2A, UUID5 false false);
   (0x22, CMP EQ); (0x23, CMP NEQ); (0x24, CMP LT); (0x25, CMP GT); (0x26, CMP LTE); (0x27, CMP GTE);
   (0x74, CMP_FLOAT EQ); (0x75, CMP_FLOAT NEQ); (0x76, CMP_FLOAT LT); (0x77, CMP_FLOAT GT); (0x78, CMP_FLOAT LTE); (0x79, CMP_FLOAT GTE);
   (0x30, AGG COUNT); (0x31, AGG SUM); (0x32, AGG MIN); (0x33, AGG MAX); (0x34, AGG AVG);
   (0x40, STR_FN STRLEN); (0x41, STR_FN CAT); (0x42, STR_FN SUBSTR); (0x43, STR_FN CONTAINS); (0x44, STR_FN STR_PREFIX);
   (0x45, STR_FN STR_SUFFIX); (0x46, STR_FN STR_ORD); (0x47, STR_FN TO_UPPER); (0x48, STR_FN TO_LOWER); (0x49, STR_FN STR_REPLACE);
   (0x4A, STR_FN TRIM); (0x4B, STR_FN TO_STRING); (0x4C, STR_FN TO_NUMBER); (0x4D, STR_FN UUID5_RFC);
   (0x50, CMP_STR EQ); (0x51, CMP_STR NEQ); (0x52, CMP_STR LT); (0x53, CMP_STR GT); (0x54, CMP_STR LTE); (0x55, CMP_STR GTE);
   (0x60, DIGEST HASH true); (0x61, DIGEST CRC32_ETH true); (0x62, DIGEST CRC32_CAST true);
   (0x63, DIGEST (PSA MD5) true); (0x64, DIGEST (PSA SHA1) true); (0x65, DIGEST (PSA SHA256) true); (0x66, DIGEST (PSA SHA512) true);
   (0x67, HMAC_SHA256 true true); (0x68, HMAC_SHA256 true false); (0x69, HMAC_SHA256 false true);
   (0x6A, UUID5 true true); (0x6B, UUID5 true false); (0x6C, UUID5 false true)].

#[export] Instance alg_eq_dec : EqDecision alg.
Proof. solve_decision. Defined.
#[export] Instance arith_op_eq_dec : EqDecision arith_op.
Proof. solve_decision. Defined.
#[export] Instance float_op_eq_dec : EqDecision float_op.
Proof. solve_decision. Defined.
#[export] Instance cmp_op_eq_dec : EqDecision cmp_op.
Proof. solve_decision. Defined.
#[export] Instance agg_op_eq_dec : EqDecision agg_op.
Proof. solve_decision. Defined.
#[export] Instance digest_fn_eq_dec : EqDecision digest_fn.
Proof. solve_decision. Defined.
#[export] Instance str_fn_eq_dec : EqDecision str_fn.
Proof. solve_decision. Defined.
#[export] Instance tag_eq_dec : EqDecision tag.
Proof. solve_decision. Defined.

(** (wl_plan_expr_tag_t)byte, and the byte of a tag. *)
Definition tag_of_byte (b : Z) : option tag := snd <$> (snd <$> list_find (fun p => p.1 = b) tag_table).
Definition byte_of_tag (t : tag) : option Z := fst <$> (snd <$> list_find (fun p => p.2 = t) tag_table).

(** ** Status and stack *)

Definition OK : Z := 0.
Definition MALFORMED : Z := 1.
Definition EXTENSION_MALFORMED : Z := 2.
Definition MISSING_EXTENSION : Z := 3.
Definition ARITY_MISMATCH : Z := 4.
Definition TYPE_MISMATCH : Z := 5.
Definition CALLBACK_FAILURE : Z := 6.
Definition INVALID_RESULT : Z := 7.
Definition ALLOCATION_FAILURE : Z := 8.
Definition EXTENSION_ABI_MISMATCH : Z := 9.
Definition CALLBACK_POLICY : Z := 10.
Definition CALLBACK_REENTRANT : Z := 11.

Definition VALUE_INT64 : Z := 1.
Definition VALUE_BOOL : Z := 2.
Definition VALUE_STRING : Z := 3.

Definition COL_FILTER_STACK : nat := 64.

(** One entry of the parallel arrays of expr_stack_t: the value, its type, and
    the bytes of a string (none for NULL). *)
Record item := It { val : Z; type : Z; string : option (list Z) }.

(** The stack, top first. *)
Definition push_item (s : list item) (x : item) : list item := if (length s <? COL_FILTER_STACK)%nat then x :: s else s.
Definition expr_push (s : list item) (v : Z) : list item := push_item s (It v VALUE_INT64 None).
Definition expr_push_typed (s : list item) (v ty : Z) : list item := push_item s (It v ty None).
Definition expr_push_string (s : list item) (v : Z) (data : list Z) : list item := push_item s (It v VALUE_STRING (Some data)).
Definition expr_pop (s : list item) : Z * list item := match s with [] => (0, []) | x :: s' => (val x, s') end.

(** b = pop, a = pop *)
Definition pop2 (s : list item) : Z * Z * list item :=
  let '(b, s) := expr_pop s in let '(a, s) := expr_pop s in (a, b, s).
Definition pop3 (s : list item) : Z * Z * Z * list item :=
  let '(c, s) := expr_pop s in let '(b, s) := expr_pop s in let '(a, s) := expr_pop s in (a, b, c, s).

(** ** Reading the buffer *)

Definition byte (buf : list Z) (i : Z) : option Z := rd buf (Z.to_nat i).

(** [n] bytes from [i] on. *)
Fixpoint bytes_at (n : nat) (buf : list Z) (i : Z) : option (list Z) :=
  match n with
  | O => Some []
  | S n' => b ← byte buf i; l ← bytes_at n' buf (i + 1); Some (b :: l)
  end.

(** A little-endian number, and its two's complement reading. *)
Fixpoint le (l : list Z) : Z := match l with [] => 0 | b :: l' => b + 256 * le l' end.
Definition le_uint (n : nat) (buf : list Z) (i : Z) : option Z := le <$> bytes_at n buf i.
Definition le_int64 (buf : list Z) (i : Z) : option Z := i64 <$> le_uint 8 buf i.

(** The n little-endian bytes of a number. *)
Fixpoint to_le (n : nat) (z : Z) : list Z := match n with O => [] | S n' => z mod 256 :: to_le n' (z / 256) end.

(** The column of a name "colN": strtol over at most 15 bytes, else 0. *)
Definition name_col (buf : list Z) (i nlen : Z) : option Z :=
  if 3 <? nlen then
    b0 ← byte buf i;
    if negb (b0 =? 99) then Some 0
    else
      b1 ← byte buf (i + 1);
      if negb (b1 =? 111) then Some 0
      else
        b2 ← byte buf (i + 2);
        if negb (b2 =? 108) then Some 0
        else
          let cplen := if nlen - 3 <? 15 then nlen - 3 else 15 in
          digits ← bytes_at (Z.to_nat cplen) buf (i + 3);
          tmp ← c_str (digits ++ [0]);
          Some (default 0 (fst <$> strtoll tmp))
  else Some 0.

(** ** The surroundings *)

(** What a callback receives, and the result it leaves: type, size and the
    eight bytes of its union. *)
Inductive payload := P_int64 (v : Z) | P_bool (b : bool) | P_string (data : option (list Z)) (length : Z).
Record ext_value := Val { v_type : Z; v_size : Z; v_as : payload }.
Record ext_result := Res { r_type : Z; r_size : Z; r_word : Z }.

Definition THREAD_SAFE : Z := 1.
Definition REENTRANT : Z := 8.

(** wirelog_extension_descriptor_t; a callback runs in the world and sees the
    sessions it is nested in. *)
Record descriptor (W : Type) := Desc {
  arity : Z;
  argument_types : option (list Z);
  result_type : Z;
  invoke : option (W -> list Z -> list ext_value -> W * Z * ext_result);
  addon_abi_identity : Z;
  addon_abi_version : Z;
  callback_policy : Z }.
Arguments arity {W} _.
Arguments argument_types {W} _.
Arguments result_type {W} _.
Arguments invoke {W} _.
Arguments addon_abi_identity {W} _.
Arguments addon_abi_version {W} _.
Arguments callback_policy {W} _.

(** The intern table, the CRC tables, XXH3, the PSA crypto calls (failure is
    false or [None]) and the callback leases of the extension registry. *)
Class Host (W : Type) := {
  #[global] host_table :: Interner W;
  crc_statics : W -> Crc.statics;
  set_crc_statics : W -> Crc.statics -> W;
  crc_intrinsics : bool;
  crc_available : bool;
  crc_hw_u8 : Z -> Z -> Z;
  XXH3_64bits : list Z -> Z;
  mbedtls : bool;
  psa_crypto_init : W -> W * bool;
  psa_hash_compute : W -> alg -> list Z -> W * option (list Z);
  psa_hash_setup : W -> alg -> W * bool;
  psa_hash_update : W -> list Z -> W * bool;
  psa_hash_finish : W -> W * option (list Z);
  psa_hash_abort : W -> W;
  psa_import_key : W -> list Z -> W * option Z;
  psa_mac_compute : W -> Z -> list Z -> W * option (list Z);
  psa_destroy_key : W -> Z -> W * bool;
  psa_generate_random : W -> nat -> W * option (list Z);
  lease_acquire : W -> str -> W * bool;
  lease_release : W -> str -> W }.

Section Eval.

Context {W : Type} `{!Host W}.

(** wl_columnar_expr_context_t: whether the intern pointer is set, the
    snapshot (a lookup by name), and the callback context. *)
Record context := Ctx {
  intern : bool;
  extensions : option (str -> option (descriptor W));
  allow_extension_scalar_result : bool;
  active_worker_count : Z;
  parallel_execution : bool;
  session_key : option Z }.

(** ** Digests *)

Definition digest_len (a : alg) : nat := match a with MD5 => 16 | SHA1 => 20 | SHA256 => 32 | SHA512 => 64 end.

Definition exact_length (n : nat) (d : option (list Z)) : option (list Z) :=
  l ← d; if (length l =? n)%nat then Some l else None.

Definition psa_hash_bytes (w : W) (a : alg) (data : list Z) : W * option (list Z) :=
  let '(w, ok) := psa_crypto_init w in
  if negb ok then (w, None)
  else let '(w, d) := psa_hash_compute w a data in (w, exact_length (digest_len a) d).

Definition DIGEST_TAG_SYMBOL : Z := 83.
Definition DIGEST_TAG_INT64 : Z := 73.

(** The header of a framed operand. *)
Definition frame_header (tg : Z) (len : Z) : list Z := tg :: to_le 8 (u64 len).

Definition psa_hash_frame (w : W) (tg : Z) (len : Z) : W * bool := psa_hash_update w (frame_header tg len).

(** The updates in order, until one fails. *)
Fixpoint updates (w : W) (l : list (list Z)) : W * bool :=
  match l with
  | [] => (w, true)
  | d :: l' => let '(w, ok) := psa_hash_update w d in if ok : bool then updates w l' else (w, false)
  end.

(** The byte strings a pair of operands is hashed as. *)
Definition pair_parts (framed : bool) (first_tag : Z) (first : list Z) (second_tag : Z) (second : list Z) : list (list Z) :=
  if framed then
    [frame_header first_tag (Z.of_nat (length first)); first; frame_header second_tag (Z.of_nat (length second)); second]
  else [first; second].

Definition psa_hash_pair (w : W) (a : alg) (framed : bool) (first_tag : Z) (first : list Z) (second_tag : Z) (second : list Z) : W * option (list Z) :=
  let '(w, ok) := psa_crypto_init w in
  if negb ok then (w, None)
  else
    let '(w, ok) := psa_hash_setup w a in
    if negb ok then (psa_hash_abort w, None)
    else
      let '(w, ok) := updates w (pair_parts framed first_tag first second_tag second) in
      if negb ok then (psa_hash_abort w, None)
      else
        let '(w, d) := psa_hash_finish w in
        match exact_length (digest_len a) d with
        | None => (psa_hash_abort w, None)
        | Some d => (w, Some d)
        end.

Definition psa_hmac_sha256 (w : W) (msg key : list Z) : W * option (list Z) :=
  let '(w, ok) := psa_crypto_init w in
  if negb ok then (w, None)
  else
    let key := if bool_decide (key = []) then [0] else key in
    match psa_import_key w key with
    | (w, None) => (w, None)
    | (w, Some id) =>
        let '(w, d) := psa_mac_compute w id msg in
        let '(w, destroyed) := psa_destroy_key w id in
        (w, if destroyed : bool then exact_length (digest_len SHA256) d else None)
    end.

(** The bytes of an operand, and whether they are a symbol's. *)
Definition filt_digest_bytes (ctx : context) (w : W) (v : Z) (as_symbol : bool) : option (list Z * bool) :=
  s ← (if as_symbol && intern ctx then reverse w v else Some None);
  Some (match s with Some s => (s, true) | None => (to_le 8 (u64 v), false) end).

(** The version and variant bits of an RFC 4122 identifier. *)
Definition stamp (version : Z) (d : list Z) : option (list Z) :=
  b6 ← rd d 6; d ← wr d 6 (Z.lor (Z.land b6 0x0F) version);
  b8 ← rd d 8; wr d 8 (Z.lor (Z.land b8 0x3F) 0x80).

Definition first_int64 (d : list Z) : Z := i64 (le (take 8 d)).

(** *** Canonical UUID text *)

Definition hex_nibble (c : Z) : option Z :=
  if (48 <=? c) && (c <=? 57) then Some (c - 48)
  else if (97 <=? c) && (c <=? 102) then Some (c - 97 + 10)
  else if (65 <=? c) && (c <=? 70) then Some (c - 65 + 10)
  else None.

Definition is_hyphen (i : nat) : bool := (i =? 8)%nat || (i =? 13)%nat || (i =? 18)%nat || (i =? 23)%nat.

(** for (i = 0; i < 36; i++), [n] characters left; [None] inside: return -1 *)
Fixpoint parse_uuid_loop (n : nat) (text : str) (i pos : nat) (uuid : list Z) : option (option (list Z)) :=
  match n with
  | O => Some (if (pos =? 32)%nat then Some uuid else None)
  | S n' =>
      c ← byte_at text i;
      if is_hyphen i then if negb (c =? 45) then Some None else parse_uuid_loop n' text (S i) pos uuid
      else
        match hex_nibble c with
        | None => Some None
        | Some nibble =>
            let k := (pos / 2)%nat in
            uuid' ← (if Nat.even pos then wr uuid k (u8 (Z.shiftl nibble 4))
                     else old ← rd uuid k; wr uuid k (Z.lor old nibble));
            parse_uuid_loop n' text (S i) (S pos) uuid'
        end
  end.
Definition parse_uuid (text : option str) : option (option (list Z)) :=
  match text with
  | None => Some None
  | Some s => if negb (length s =? 36)%nat then Some None else parse_uuid_loop 36 s 0 0 (replicate 16 0)
  end.

Definition hex_digit (n : Z) : Z := if n <? 10 then 48 + n else 87 + n.

(** The text of the bytes from [i] on. *)
Fixpoint uuid_text (i : nat) (uuid : list Z) : str :=
  match uuid with
  | [] => []
  | b :: uuid' =>
      hex_digit (Z.shiftr b 4) :: hex_digit (Z.land b 0x0f) ::
      (if (i =? 3)%nat || (i =? 5)%nat || (i =? 7)%nat || (i =? 9)%nat then [45] else []) ++ uuid_text (S i) uuid'
  end.
Definition format_uuid (w : W) (uuid : list Z) : option (W * Z) := put w (uuid_text 0 (take 16 uuid)).

(** ** Operators *)

(** The [int64_t v;] a checked operation writes when it succeeds. *)
Definition checked (o : option Arith.outcome) : option (option Z) :=
  o ← o; Some (if Arith.rc o =? 0 then Some (Arith.out o) else None).

(** The inner [None]: goto bad. *)
Definition run_arith (op : arith_op) (a b : Z) : option (option Z) :=
  match op with
  | ADD => checked (Some (Arith.checked_add_int64_builtin a b))
  | SUB => checked (Some (Arith.checked_sub_int64_builtin a b))
  | MUL => checked (Some (Arith.checked_mul_int64_builtin a b))
  | DIV => checked (Arith.checked_div_int64 a b 0)
  | MOD => checked (Arith.checked_mod_int64 a b 0)
  | BAND => Some (Some (Z.land a b))
  | BOR => Some (Some (Z.lor a b))
  | BXOR => Some (Some (Z.lxor a b))
  | SHL => checked (Some (Arith.checked_shl_int64 a b 0))
  | SHR => checked (Some (Arith.checked_shr_int64 a b 0))
  end.

Definition run_float (op : float_op) (abits bbits : Z) : option Z :=
  a ← Floats.expr_float_load abits;
  b ← Floats.expr_float_load bbits;
  Floats.expr_float_store
    (match op with FADD => Floats.fadd a b | FSUB => Floats.fsub a b | FMUL => Floats.fmul a b | FDIV => Floats.fdiv a b end).

Definition run_cmp (op : cmp_op) (a b : Z) : Z :=
  Z.b2z (match op with EQ => a =? b | NEQ => negb (a =? b) | LT => a <? b | GT => b <? a | LTE => a <=? b | GTE => b <=? a end).

Definition run_cmp_float (op : cmp_op) (abits bbits : Z) : option Z :=
  a ← Floats.expr_float_load abits;
  b ← Floats.expr_float_load bbits;
  Some (Z.b2z (match op with
    | EQ => Floats.feq a b | NEQ => negb (Floats.feq a b) | LT => Floats.flt a b
    | GT => Floats.flt b a | LTE => Floats.fle a b | GTE => Floats.fle b a end)).

Definition run_cmp_str (ctx : context) (w : W) (op : cmp_op) (a b : Z) : option Z :=
  sa ← (if intern ctx then reverse w a else Some None);
  sb ← (if intern ctx then reverse w b else Some None);
  Some (Z.b2z (match sa, sb with
    | Some sa, Some sb =>
        let c := strcmp sa sb in
        match op with EQ => c =? 0 | NEQ => negb (c =? 0) | LT => c <? 0 | GT => 0 <? c | LTE => c <=? 0 | GTE => 0 <=? c end
    | _, _ => match op with EQ => a =? b | NEQ => negb (a =? b) | _ => false end
    end)).

(** What an instruction leaves: the stack, or the status of goto bad. *)
Definition stepped : Type := option (W * (list item + Z)).
Definition ok (w : W) (s : list item) : stepped := Some (w, inl s).
Definition bad (w : W) (status : Z) : stepped := Some (w, inr status).
Definition push_opt (w : W) (s : list item) (v : option Z) : stepped :=
  match v with Some v => ok w (expr_push s v) | None => bad w MALFORMED end.

Definition run_digest (ctx : context) (w : W) (fn : digest_fn) (symbol : bool) (s : list item) : stepped :=
  let '(a, s) := expr_pop s in
  match fn with
  | HASH => '(m, _) ← filt_digest_bytes ctx w a symbol; ok w (expr_push s (i64 (XXH3_64bits m)))
  | CRC32_ETH =>
      '(m, _) ← filt_digest_bytes ctx w a symbol;
      '(st, c) ← Crc.ethernet_crc32 (crc_statics w) m;
      ok (set_crc_statics w st) (expr_push s c)
  | CRC32_CAST =>
      '(m, _) ← filt_digest_bytes ctx w a symbol;
      '(st, c) ← Crc.castagnoli_crc32 crc_intrinsics crc_available crc_hw_u8 (crc_statics w) m;
      ok (set_crc_statics w st) (expr_push s c)
  | PSA alg =>
      if mbedtls then
        '(m, _) ← filt_digest_bytes ctx w a symbol;
        match psa_hash_bytes w alg m with
        | (w, None) => bad w MALFORMED
        | (w, Some d) => ok w (expr_push s (i64 (XXH3_64bits d)))
        end
      else bad w MALFORMED
  end.

Definition run_hmac (ctx : context) (w : W) (msg_sym key_sym : bool) (s : list item) : stepped :=
  if mbedtls then
    let '(msg_val, key_val, s) := pop2 s in
    '(m, _) ← filt_digest_bytes ctx w msg_val msg_sym;
    '(k, _) ← filt_digest_bytes ctx w key_val key_sym;
    match psa_hmac_sha256 w m k with
    | (w, None) => bad w MALFORMED
    | (w, Some d) => ok w (expr_push s (i64 (XXH3_64bits d)))
    end
  else bad w MALFORMED.

Definition run_uuid4 (w : W) (s : list item) : stepped :=
  if mbedtls then
    let '(w, init) := psa_crypto_init w in
    if negb init then bad w MALFORMED
    else match psa_generate_random w 16 with
         | (w, None) => bad w MALFORMED
         | (w, Some uuid) => uuid ← stamp 0x40 uuid; ok w (expr_push s (first_int64 uuid))
         end
  else bad w MALFORMED.

Definition operand_tag (is_symbol : bool) : Z := if is_symbol then DIGEST_TAG_SYMBOL else DIGEST_TAG_INT64.

Definition run_uuid5 (ctx : context) (w : W) (ns_sym name_sym : bool) (s : list item) : stepped :=
  if mbedtls then
    let '(ns, name, s) := pop2 s in
    '(nsb, ns_is) ← filt_digest_bytes ctx w ns ns_sym;
    '(nmb, nm_is) ← filt_digest_bytes ctx w name name_sym;
    match psa_hash_pair w SHA1 (ns_sym || name_sym) (operand_tag ns_is) nsb (operand_tag nm_is) nmb with
    | (w, None) => bad w MALFORMED
    | (w, Some d) => d ← stamp 0x50 d; ok w (expr_push s (first_int64 d))
    end
  else bad w MALFORMED.

Definition run_uuid5_rfc (ctx : context) (w : W) (s : list item) : stepped :=
  if mbedtls then
    let '(namespace_id, name_id, s) := pop2 s in
    namespace_text ← (if intern ctx then reverse w namespace_id else Some None);
    name ← (if intern ctx then reverse w name_id else Some None);
    match name with
    | None => bad w MALFORMED
    | Some name =>
        uuid ← parse_uuid namespace_text;
        match uuid with
        | None => bad w MALFORMED
        | Some uuid =>
            match psa_hash_pair w SHA1 false 0 uuid 0 name with
            | (w, None) => bad w MALFORMED
            | (w, Some d) =>
                d ← stamp 0x50 d;
                '(w, r) ← format_uuid w d;
                if r <? 0 then bad w MALFORMED else ok w (expr_push s r)
            end
        end
    end
  else bad w MALFORMED.

(** The calls of string_ops.c made from the interpreter: the value pushed
    without a table is given. *)
Definition call (ctx : context) (w : W) (s : list item) (without : Z) (f : option W -> option (option W * Z)) : stepped :=
  if intern ctx then '(w', v) ← f (Some w); ok (default w w') (expr_push s v) else ok w (expr_push s without).
Definition call_read (ctx : context) (w : W) (s : list item) (f : option W -> option Z) : stepped :=
  if intern ctx then v ← f (Some w); ok w (expr_push s v) else ok w (expr_push s 0).
Definition call_test (ctx : context) (w : W) (s : list item) (f : option W -> option bool) : stepped :=
  if intern ctx then v ← f (Some w); ok w (expr_push s (Z.b2z v)) else ok w (expr_push s 0).

Definition run_str_fn (ctx : context) (w : W) (fn : str_fn) (s : list item) : stepped :=
  match fn with
  | STRLEN => let '(a, s) := expr_pop s in call_read ctx w s (fun t => strlen t a)
  | CAT => let '(a, b, s) := pop2 s in call ctx w s 0 (fun t => cat t a b)
  | SUBSTR => let '(a, b, c, s) := pop3 s in call ctx w s 0 (fun t => substr t a b c)
  | CONTAINS => let '(a, b, s) := pop2 s in call_test ctx w s (fun t => contains t a b)
  | STR_PREFIX => let '(a, b, s) := pop2 s in call_test ctx w s (fun t => str_prefix t a b)
  | STR_SUFFIX => let '(a, b, s) := pop2 s in call_test ctx w s (fun t => str_suffix t a b)
  | STR_ORD => let '(a, s) := expr_pop s in call_read ctx w s (fun t => str_ord t a)
  | TO_UPPER => let '(a, s) := expr_pop s in call ctx w s a (fun t => to_upper t a)
  | TO_LOWER => let '(a, s) := expr_pop s in call ctx w s a (fun t => to_lower t a)
  | STR_REPLACE => let '(a, b, c, s) := pop3 s in call ctx w s a (fun t => str_replace t a b c)
  | TRIM => let '(a, s) := expr_pop s in call ctx w s a (fun t => trim t a)
  | TO_STRING => let '(a, s) := expr_pop s in call ctx w s 0 (fun t => to_string t a)
  | TO_NUMBER =>
      let '(a, s) := expr_pop s in
      if intern ctx then
        '(rc, v) ← to_number_checked (Some w) a;
        if negb (rc =? 0) then bad w MALFORMED else ok w (expr_push s v)
      else bad w MALFORMED
  | UUID5_RFC => run_uuid5_rfc ctx w s
  end.

(** ** Extension calls *)

(** The name, arity and ABI pair of a call, and the position after it;
    [None] inside: the payload is malformed. *)
Record call_site := Site { s_name : str; s_nargs : Z; s_identity : Z; s_version : Z }.

Definition read_call (buf : list Z) (size i : Z) (abi : bool) : option (option (call_site * Z)) :=
  if (size <? i) || (size - i <? 2) then Some None
  else
    name_len ← le_uint 2 buf i;
    let i := i + 2 in
    if (name_len =? 0) || (256 <=? name_len) || (size <? i) || (size - i <? name_len) || (size - i - name_len <? 4) then Some None
    else
      name ← bytes_at (Z.to_nat name_len) buf i;
      name ← c_str (name ++ [0]);
      let i := i + name_len in
      nargs ← le_uint 4 buf i;
      let i := i + 4 in
      if abi then
        if size - i <? 12 then Some None
        else
          identity ← le_uint 8 buf i;
          version ← le_uint 4 buf (i + 8);
          Some (Some (Site name nargs identity version, i + 12))
      else Some (Some (Site name nargs 0 0, i)).

(** The argument [x] against the type the descriptor declares for it. *)
Definition marshal (expected : Z) (x : item) : option ext_value :=
  if negb (expected =? 0) && negb (type x =? expected) then None
  else
    Some (if type x =? VALUE_BOOL then Val (type x) 1 (P_bool (negb (val x =? 0)))
          else if type x =? VALUE_STRING then
            let n := Z.of_nat (length (default [] (string x))) in Val (type x) n (P_string (string x) n)
          else Val (type x) 8 (P_int64 (val x))).

(** for (arg = 0; arg < nargs; arg++); [None] inside: a type mismatch *)
Fixpoint marshal_args (types : option (list Z)) (arg : nat) (xs : list item) : option (option (list ext_value)) :=
  match xs with
  | [] => Some (Some [])
  | x :: xs' =>
      expected ← (match types with None => Some 0 | Some l => rd l arg end);
      match marshal expected x with
      | None => Some None
      | Some v =>
          rest ← marshal_args types (S arg) xs';
          Some (match rest with None => None | Some l => Some (v :: l) end)
      end
  end.

(** The checks before the arguments are read, in order. *)
Definition check_call (ctx : context) (sessions : list Z) (abi : bool) (site : call_site) (d : descriptor W) (top : Z) : option Z :=
  if abi && (negb (s_identity site =? addon_abi_identity d) || negb (s_version site =? addon_abi_version d)) then Some EXTENSION_ABI_MISMATCH
  else if parallel_execution ctx && (1 <? active_worker_count ctx) && (Z.land (callback_policy d) THREAD_SAFE =? 0) then Some CALLBACK_POLICY
  else if (Z.land (callback_policy d) REENTRANT =? 0) && (match session_key ctx with Some k => bool_decide (k ∈ sessions) | None => false end)
       then Some CALLBACK_REENTRANT
  else if negb (s_nargs site =? arity d) || (top <? s_nargs site) || (Z.of_nat COL_FILTER_STACK <? s_nargs site) then Some ARITY_MISMATCH
  else if negb (result_type d =? VALUE_BOOL) && (negb (allow_extension_scalar_result ctx) || negb (result_type d =? VALUE_INT64))
       then Some INVALID_RESULT
  else None.

Definition WL_CALLBACK_SESSION_STACK_MAX : nat := 64.

(** The callback itself, under its lease and with its session on the stack. *)
Definition invoke_call (ctx : context) (sessions : list Z) (w : W) (name : str) (d : descriptor W) (args : list ext_value) (s : list item) : stepped :=
  if (match session_key ctx with Some _ => true | None => false end) && (WL_CALLBACK_SESSION_STACK_MAX <=? length sessions)%nat
  then bad w CALLBACK_REENTRANT
  else
    let nested := match session_key ctx with Some k => sessions ++ [k] | None => sessions end in
    let '(w, leased) := lease_acquire w name in
    if negb leased then bad w MISSING_EXTENSION
    else
      let '(w, rc, r) := match invoke d with Some f => f w nested args | None => (w, -1, Res 0 0 0) end in
      let w := lease_release w name in
      if negb (rc =? 0) then bad w CALLBACK_FAILURE
      else if r_type r =? VALUE_BOOL then
        if negb (r_size r =? 1) then bad w INVALID_RESULT
        else ok w (expr_push_typed s (Z.b2z (negb (u8 (r_word r) =? 0))) VALUE_BOOL)
      else if allow_extension_scalar_result ctx && (r_type r =? VALUE_INT64) && (r_size r =? 8) then
        ok w (expr_push_typed s (i64 (r_word r)) VALUE_INT64)
      else bad w INVALID_RESULT.

Definition run_call (ctx : context) (sessions : list Z) (w : W) (abi : bool) (site : call_site) (s : list item) : stepped :=
  match extensions ctx with
  | None => bad w MISSING_EXTENSION
  | Some find =>
      match find (s_name site) with
      | None => bad w MISSING_EXTENSION
      | Some d =>
          match check_call ctx sessions abi site d (Z.of_nat (length s)) with
          | Some status => bad w status
          | None =>
              let n := Z.to_nat (s_nargs site) in
              args ← marshal_args (argument_types d) 0 (rev (take n s));
              match args with
              | None => bad w TYPE_MISMATCH
              | Some args => invoke_call ctx sessions w (s_name site) d args (drop n s)
              end
          end
      end
  end.

(** ** One instruction *)

(** The next position with what the instruction leaves. *)
Definition next : Type := option (W * (Z * list item + Z)).
Definition at_pos (i : Z) (r : stepped) : next :=
  '(w, r) ← r; Some (w, match r with inl s => inl (i, s) | inr st => inr st end).
Definition malformed (w : W) : next := Some (w, inr MALFORMED).

Definition step_var (buf : list Z) (size i : Z) (row : list Z) (ncols : Z) (w : W) (s : list item) : next :=
  if (size <? i) || (size - i <? 2) then malformed w
  else
    nlen ← le_uint 2 buf i;
    let i := u32 (i + 2) in
    if size <? u32 (i + nlen) then malformed w
    else
      col ← name_col buf i nlen;
      v ← (if (0 <=? col) && (u32 col <? ncols) then rd row (Z.to_nat col) else Some 0);
      at_pos (u32 (i + nlen)) (ok w (expr_push s v)).

Definition step_var_string (ctx : context) (buf : list Z) (size i : Z) (row : list Z) (ncols : Z) (w : W) (s : list item) : next :=
  if (size <? i) || (size - i <? 2) then malformed w
  else
    nlen ← le_uint 2 buf i;
    let i := u32 (i + 2) in
    if size <? u32 (i + nlen) then malformed w
    else
      col ← name_col buf i nlen;
      if negb (intern ctx) || (col <? 0) || (ncols <=? u32 col) then malformed w
      else
        id ← rd row (Z.to_nat col);
        value ← reverse w id;
        match value with
        | None => malformed w
        | Some v => at_pos (u32 (i + nlen)) (ok w (expr_push_string s id (take (Z.to_nat (u32 (Z.of_nat (length v)))) v)))
        end.

Definition step_var_float (buf : list Z) (size i : Z) (row : list Z) (ncols : Z) (w : W) (s : list item) : next :=
  if size <? u32 (i + 2) then malformed w
  else
    nlen ← le_uint 2 buf i;
    let i := u32 (i + 2) in
    if size <? u32 (i + nlen) then malformed w
    else
      col ← name_col buf i nlen;
      if (col <? 0) || (ncols <=? u32 col) then malformed w
      else
        v ← rd row (Z.to_nat col);
        match Floats.expr_float_load v with
        | None => malformed w
        | Some _ => at_pos (u32 (i + nlen)) (ok w (expr_push s v))
        end.

Definition step_const_str (ctx : context) (buf : list Z) (size i : Z) (w : W) (s : list item) : next :=
  if size <? u32 (i + 2) then malformed w
  else
    slen ← le_uint 2 buf i;
    let i := u32 (i + 2) in
    if size <? u32 (i + slen) then malformed w
    else
      data ← bytes_at (Z.to_nat slen) buf i;
      if intern ctx then
        match malloc w (S (Z.to_nat slen)) with
        | (w, None) => Some (w, inr ALLOCATION_FAILURE)
        | (w, Some tmp) =>
            tmp ← memcpy tmp 0 data;
            tmp ← wr tmp (Z.to_nat slen) 0;
            text ← c_str tmp;
            '(w, value) ← put w text;
            at_pos (u32 (i + slen)) (ok w (expr_push_string s value data))
        end
      else at_pos (u32 (i + slen)) (ok w (expr_push_string s 0 data)).

(** One turn of the loop; [i] is the position after the opcode [tg]. *)
Definition step (ctx : context) (sessions : list Z) (buf : list Z) (size : Z) (row : list Z) (ncols : Z) (tg : tag) (i : Z) (w : W) (s : list item) : next :=
  match tg with
  | VAR => step_var buf size i row ncols w s
  | VAR_STRING => step_var_string ctx buf size i row ncols w s
  | VAR_FLOAT => step_var_float buf size i row ncols w s
  | CONST_INT => if size <? u32 (i + 8) then malformed w else v ← le_int64 buf i; at_pos (u32 (i + 8)) (ok w (expr_push s v))
  | CONST_FLOAT =>
      if size <? u32 (i + 8) then malformed w
      else
        bits ← le_int64 buf i;
        match Floats.expr_float_load bits with
        | None => malformed w
        | Some _ => at_pos (u32 (i + 8)) (ok w (expr_push s bits))
        end
  | BOOL => if size <? u32 (i + 1) then malformed w else b ← byte buf i; at_pos (u32 (i + 1)) (ok w (expr_push_typed s (Z.b2z (negb (b =? 0))) VALUE_BOOL))
  | CONST_STR => step_const_str ctx buf size i w s
  | EXTENSION_CALL abi =>
      site ← read_call buf size i abi;
      match site with
      | None => Some (w, inr EXTENSION_MALFORMED)
      | Some (site, i) => at_pos i (run_call ctx sessions w abi site s)
      end
  | ARITH op => let '(a, b, s) := pop2 s in v ← run_arith op a b; at_pos i (push_opt w s v)
  | ARITH_BNOT => let '(a, s) := expr_pop s in at_pos i (ok w (expr_push s (Z.lnot a)))
  | ARITH_FLOAT op => let '(a, b, s) := pop2 s in at_pos i (push_opt w s (run_float op a b))
  | DIGEST fn symbol => at_pos i (run_digest ctx w fn symbol s)
  | HMAC_SHA256 m k => at_pos i (run_hmac ctx w m k s)
  | UUID4 => at_pos i (run_uuid4 w s)
  | UUID5 ns name => at_pos i (run_uuid5 ctx w ns name s)
  | CMP op => let '(a, b, s) := pop2 s in at_pos i (ok w (expr_push s (run_cmp op a b)))
  | CMP_FLOAT op => let '(a, b, s) := pop2 s in at_pos i (push_opt w s (run_cmp_float op a b))
  | CMP_STR op => let '(a, b, s) := pop2 s in v ← run_cmp_str ctx w op a b; at_pos i (ok w (expr_push s v))
  | AGG AVG => malformed w
  | AGG _ => at_pos i (ok w s)
  | STR_FN fn => at_pos i (run_str_fn ctx w fn s)
  end.

(** while (i < size): the status and the value. *)
Fixpoint run_loop (fuel : nat) (ctx : context) (sessions : list Z) (buf : list Z) (size : Z) (row : list Z) (ncols : Z) (i : Z) (w : W) (s : list item) :
    option (W * Z * Z) :=
  match fuel with
  | O => None
  | S fuel' =>
      if i <? size then
        b ← byte buf i;
        match tag_of_byte b with
        | None => Some (w, MALFORMED, 0)
        | Some tg =>
            '(w, r) ← step ctx sessions buf size row ncols tg (u32 (i + 1)) w s;
            match r with
            | inl (i, s) => run_loop fuel' ctx sessions buf size row ncols i w s
            | inr status => Some (w, status, 0)
            end
        end
      else Some (w, OK, match s with [] => 0 | x :: _ => val x end)
  end.

Definition eval_run_ctx (ctx : context) (sessions : list Z) (buf : list Z) (row : list Z) (ncols : Z) (w : W) : option (W * Z * Z) :=
  run_loop (S (length buf)) ctx sessions buf (Z.of_nat (length buf)) row ncols 0 w [].

Definition eval_run (table : bool) (sessions : list Z) (buf : list Z) (row : list Z) (ncols : Z) (w : W) : option (W * Z * Z) :=
  '(w, status, v) ← eval_run_ctx (Ctx table None false 1 false None) sessions buf row ncols w;
  Some (w, if status =? OK then 0 else 1, v).

Definition filter_row (table : bool) (sessions : list Z) (buf : list Z) (row : list Z) (ncols : Z) (w : W) : option (W * Z) :=
  '(w, err, v) ← eval_run table sessions buf row ncols w;
  Some (w, if negb (err =? 0) then 0 else Z.b2z (negb (v =? 0))).

Definition eval_i64 : bool -> list Z -> list Z -> list Z -> Z -> W -> option (W * Z * Z) := eval_run.

End Eval.

End Expr.
