(* ===== verification/ExprCompile.v ===== *)
(** * Expressions: the pre-compiled evaluator (src/wirelog/columnar/expr.c)

    The bytecode is decoded once into instructions whose variables are column
    numbers; the per-row evaluator then runs those.  Expressions it cannot
    decode go to the interpreter of Expr.v.  The two evaluators are written
    separately in the source, and here. *)

From S2P Require Import Prelude Arithmetic StringOps Floats Expr.

Module ExprCompile.

Import StringOps Expr.

(** ** Decoding *)

(** for (d = 0; d < digits; d++): the column, or false *)
Fixpoint digits_loop (n : nat) (buf : list Z) (i : Z) (col : Z) : option (option Z) :=
  match n with
  | O => Some (Some col)
  | S n' =>
      ch ← byte buf i;
      if (ch <? 48) || (57 <? ch) then Some None
      else digits_loop n' buf (i + 1) (u32 (col * 10 + (ch - 48)))
  end.

(** *pos and *col_out; [None] inside: false *)
Definition parse_var_col (buf : list Z) (size pos : Z) : option (option (Z * Z)) :=
  if size <=? pos then Some None
  else
    b ← byte buf pos;
    if negb (b =? 1) then Some None
    else
      let i := u32 (pos + 1) in
      if size <? u32 (i + 2) then Some None
      else
        nlen ← le_uint 2 buf i;
        let i := u32 (i + 2) in
        if size <? u32 (i + nlen) then Some None
        else if nlen <? 4 then Some None
        else
          b0 ← byte buf i;
          if negb (b0 =? 99) then Some None
          else
            b1 ← byte buf (i + 1);
            if negb (b1 =? 111) then Some None
            else
              b2 ← byte buf (i + 2);
              if negb (b2 =? 108) then Some None
              else
                let digits := nlen - 3 in
                if (digits =? 0) || (9 <? digits) then Some None
                else
                  col ← digits_loop (Z.to_nat digits) buf (i + 3) 0;
                  Some (col ← col; Some (u32 (i + nlen), col)).

(** The opcodes without payload the compiled evaluator knows. *)
Definition operator (tg : tag) : bool :=
  match tg with
  | ARITH _ | ARITH_BNOT | ARITH_FLOAT _ | CMP _ | CMP_FLOAT _ | CMP_STR _ => true
  | AGG COUNT | AGG SUM | AGG MIN | AGG MAX => true
  | _ => false
  end.

(** Pass 1, one instruction: the position after it; [None] inside: return NULL *)
Definition validate (buf : list Z) (size i : Z) (tg : option tag) : option (option Z) :=
  match tg with
  | Some VAR | Some VAR_FLOAT => r ← parse_var_col buf size i; Some (match r with Some (pos, _) => Some pos | None => None end)
  | Some CONST_INT | Some CONST_FLOAT =>
      let i := u32 (i + 1) in Some (if size <? u32 (i + 8) then None else Some (u32 (i + 8)))
  | Some BOOL => let i := u32 (i + 1) in Some (if size <? u32 (i + 1) then None else Some (u32 (i + 1)))
  | Some tg => Some (if operator tg then Some (u32 (i + 1)) else None)
  | None => Some None
  end.

Fixpoint count_loop (fuel : nat) (buf : list Z) (size i : Z) (ninstr : Z) : option (option Z) :=
  match fuel with
  | O => None
  | S fuel' =>
      if i <? size then
        b ← byte buf i;
        r ← validate buf size i (tag_of_byte b);
        match r with
        | None => Some None
        | Some i => count_loop fuel' buf size i (u32 (ninstr + 1))
        end
      else Some (Some ninstr)
  end.

Record instr := In { op : Z; iarg : Z; larg : Z }.

(** Pass 2, one instruction. *)
Definition decode (buf : list Z) (size i : Z) : option (instr * Z) :=
  b ← byte buf i;
  match tag_of_byte b with
  | Some VAR | Some VAR_FLOAT =>
      r ← parse_var_col buf size i;
      Some (match r with Some (pos, col) => (In b col 0, pos) | None => (In b 0 0, i) end)
  | Some CONST_INT | Some CONST_FLOAT =>
      let i := u32 (i + 1) in v ← le_int64 buf i; Some (In b 0 v, u32 (i + 8))
  | Some BOOL => let i := u32 (i + 1) in v ← byte buf i; Some (In b 0 (Z.b2z (negb (v =? 0))), u32 (i + 1))
  | _ => Some (In b 0 0, u32 (i + 1))
  end.

(** while (i < size && j < ninstr), [n] instructions left *)
Fixpoint fill_loop (n : nat) (buf : list Z) (size i : Z) : option (list instr) :=
  match n with
  | O => Some []
  | S n' =>
      if i <? size then '(x, i) ← decode buf size i; l ← fill_loop n' buf size i; Some (x :: l)
      else Some []
  end.

(** wl_columnar_expr_compiled: the instructions and whether there is a table. *)
Record compiled := C { instrs : list instr; c_intern : bool }.

Definition compile (malloc1 malloc2 : bool) (buf : list Z) (table : bool) : option (option compiled) :=
  let size := Z.of_nat (length buf) in
  if size =? 0 then Some None
  else
    n ← count_loop (S (length buf)) buf size 0 0;
    match n with
    | None => Some None
    | Some n =>
        if n =? 0 then Some None
        else if negb malloc1 then Some None
        else if negb malloc2 then Some None
        else l ← fill_loop (Z.to_nat n) buf size 0; Some (Some (C l table))
    end.

(** ** Evaluation *)

Section Eval.

Context {W : Type} `{!Host W}.

Definition compiled_cmp_str (table : bool) (w : W) (op : cmp_op) (a b : Z) : option Z :=
  sa ← (if table then reverse w a else Some None);
  sb ← (if table then reverse w b else Some None);
  Some (Z.b2z (match op with
    | EQ => match sa, sb with Some sa, Some sb => strcmp sa sb =? 0 | _, _ => a =? b end
    | NEQ => match sa, sb with Some sa, Some sb => negb (strcmp sa sb =? 0) | _, _ => negb (a =? b) end
    | LT => match sa, sb with Some sa, Some sb => strcmp sa sb <? 0 | _, _ => false end
    | GT => match sa, sb with Some sa, Some sb => 0 <? strcmp sa sb | _, _ => false end
    | LTE => match sa, sb with Some sa, Some sb => strcmp sa sb <=? 0 | _, _ => false end
    | GTE => match sa, sb with Some sa, Some sb => 0 <=? strcmp sa sb | _, _ => false end
    end)).

Definition compiled_arith (op : arith_op) (a b : Z) : option (option Z) :=
  match op with
  | ADD => checked (Some (Arith.checked_add_int64_builtin a b))
  | SUB => checked (Some (Arith.checked_sub_int64_builtin a b))
  | MUL => checked (Some (Arith.checked_mul_int64_builtin a b))
  | DIV => checked (Arith.checked_div_int64 a b 0)
  | MOD => checked (Arith.checked_mod_int64 a b 0)
  | BAND => Some (Some (Z.land a b))
  | BOR => Some (Some (Z.lor a b))
  | BXOR => Some (Some (Z.lxor a b))
  | SHL => checked (Some (Arith.checked_shl_int64 a b 0))
  | SHR => checked (Some (Arith.checked_shr_int64 a b 0))
  end.

Definition compiled_float (op : float_op) (abits bbits : Z) : option Z :=
  a ← Floats.expr_float_load abits;
  b ← Floats.expr_float_load bbits;
  Floats.expr_float_store
    (match op with FADD => Floats.fadd a b | FSUB => Floats.fsub a b | FMUL => Floats.fmul a b | FDIV => Floats.fdiv a b end).

Definition compiled_cmp (op : cmp_op) (a b : Z) : bool :=
  match op with EQ => a =? b | NEQ => negb (a =? b) | LT => a <? b | GT => b <? a | LTE => a <=? b | GTE => b <=? a end.

Definition compiled_cmp_float (op : cmp_op) (abits bbits : Z) : option bool :=
  a ← Floats.expr_float_load abits;
  b ← Floats.expr_float_load bbits;
  Some (match op with
    | EQ => Floats.feq a b | NEQ => negb (Floats.feq a b) | LT => Floats.flt a b
    | GT => Floats.flt b a | LTE => Floats.fle a b | GTE => Floats.fle b a end).

(** One instruction; [None] inside: *out_val = 0, return 1 *)
Definition exec (c_intern : bool) (row : list Z) (ncols : Z) (w : W) (x : instr) (s : list item) : option (option (list item)) :=
  match tag_of_byte (op x) with
  | Some VAR => v ← (if iarg x <? ncols then rd row (Z.to_nat (iarg x)) else Some 0); Some (Some (expr_push s v))
  | Some VAR_FLOAT =>
      v ← (if iarg x <? ncols then rd row (Z.to_nat (iarg x)) else Some 0);
      Some (if ncols <=? iarg x then None
            else match Floats.expr_float_load v with None => None | Some _ => Some (expr_push s v) end)
  | Some (CMP_STR op) => let '(a, b, s) := pop2 s in v ← compiled_cmp_str c_intern w op a b; Some (Some (expr_push s v))
  | Some CONST_INT | Some BOOL => Some (Some (expr_push s (larg x)))
  | Some CONST_FLOAT => Some (match Floats.expr_float_load (larg x) with None => None | Some _ => Some (expr_push s (larg x)) end)
  | Some (ARITH_FLOAT op) => let '(a, b, s) := pop2 s in Some (v ← compiled_float op a b; Some (expr_push s v))
  | Some (ARITH op) => let '(a, b, s) := pop2 s in v ← compiled_arith op a b; Some (v ← v; Some (expr_push s v))
  | Some ARITH_BNOT => let '(a, s) := expr_pop s in Some (Some (expr_push s (Z.lnot a)))
  | Some (CMP op) => let '(a, b, s) := pop2 s in Some (Some (expr_push s (if compiled_cmp op a b then 1 else 0)))
  | Some (CMP_FLOAT op) => let '(a, b, s) := pop2 s in Some (r ← compiled_cmp_float op a b; Some (expr_push s (if r : bool then 1 else 0)))
  | Some (AGG COUNT) | Some (AGG SUM) | Some (AGG MIN) | Some (AGG MAX) => Some (Some s)
  | _ => Some None
  end.

(** The return code and *out_val. *)
Fixpoint exec_loop (c_intern : bool) (row : list Z) (ncols : Z) (w : W) (l : list instr) (s : list item) : option (Z * Z) :=
  match l with
  | [] => Some (0, match s with [] => 0 | x :: _ => val x end)
  | x :: l' =>
      r ← exec c_intern row ncols w x s;
      match r with
      | None => Some (1, 0)
      | Some s => exec_loop c_intern row ncols w l' s
      end
  end.

Definition eval_compiled (c : compiled) (row : list Z) (ncols : Z) (w : W) : option (Z * Z) :=
  exec_loop (c_intern c) row ncols w (instrs c) [].

End Eval.

End ExprCompile.
