(* ===== verification/ExprProof.v ===== *)
(** * The compiled evaluator and the interpreter agree

    Every instruction that compiles does to the values on the stack what the
    interpreter does for the bytecode it came from; the two stacks differ only
    in the types the interpreter keeps for extension calls. *)

From S2P Require Import Prelude Arithmetic Crc32 StringOps StringOpsProof Floats Expr ExprCompile.

Module ExprProof.

Import StringOps Expr ExprCompile.

Definition is_buffer (buf : list Z) : Prop := Forall (fun b => 0 <= b <= 255) buf /\ Z.of_nat (length buf) < 2 ^ 31.

(** ** Reading *)

Lemma byte_in buf i : 0 <= i < Z.of_nat (length buf) -> exists b, byte buf i = Some b /\ buf !! Z.to_nat i = Some b.
Proof. intros Hi. unfold byte, rd. destruct (lookup_lt_is_Some_2 buf (Z.to_nat i)) as [b Hb]; [lia|]. by exists b. Qed.

Lemma byte_range buf i b : is_buffer buf -> byte buf i = Some b -> 0 <= b <= 255.
Proof. intros [Hb _] H. by apply (Forall_lookup_1 _ _ _ _ Hb H). Qed.

Lemma bytes_at_in n buf i : 0 <= i -> i + Z.of_nat n <= Z.of_nat (length buf) ->
  bytes_at n buf i = Some (take n (drop (Z.to_nat i) buf)).
Proof.
  revert i. induction n as [|n IH]; intros i Hi Hn; cbn [bytes_at]; [by rewrite take_0|].
  destruct (byte_in buf i ltac:(lia)) as (b & -> & Hb). cbn [mbind option_bind]. rewrite IH by lia. cbn [mbind option_bind].
  rewrite (drop_S _ _ _ Hb). cbn [firstn]. by replace (Z.to_nat (i + 1)) with (S (Z.to_nat i)) by lia.
Qed.

Lemma le_range l : Forall (fun b => 0 <= b <= 255) l -> 0 <= le l < 256 ^ Z.of_nat (length l).
Proof.
  induction 1 as [|b l Hb _ IH]; cbn [le length]; [lia|]. rewrite Nat2Z.inj_succ, Z.pow_succ_r by lia. lia.
Qed.

Lemma le_uint_in n buf i : is_buffer buf -> 0 <= i -> i + Z.of_nat n <= Z.of_nat (length buf) ->
  exists v, le_uint n buf i = Some v /\ 0 <= v < 256 ^ Z.of_nat n.
Proof.
  intros [Hb _] Hi Hn. unfold le_uint. rewrite bytes_at_in by done. eexists. split; [done|].
  pose proof (le_range (take n (drop (Z.to_nat i) buf)) ltac:(by apply Forall_take, Forall_drop)) as Hr.
  rewrite length_take, length_drop, Nat.min_l in Hr by lia. done.
Qed.

Lemma le_int64_in buf i : is_buffer buf -> 0 <= i -> i + 8 <= Z.of_nat (length buf) -> exists v, le_int64 buf i = Some v.
Proof. intros Hb Hi Hn. unfold le_int64. destruct (le_uint_in 8 buf i Hb Hi ltac:(lia)) as (v & -> & _). cbn. eauto. Qed.

(** Positions do not wrap. *)
Lemma u32_pos z : 0 <= z < 2 ^ 32 -> u32 z = z.
Proof. intros. apply u32_small. mi. Qed.

(** ** Column names *)

Lemma digits_loop_scan n buf i c col m : 0 <= i -> 0 <= c -> (c + 1) * 10 ^ Z.of_nat n <= 2 ^ 32 ->
  digits_loop n buf i c = Some (Some col) ->
  exists l, bytes_at n buf i = Some l /\ length l = n /\ Forall (fun b => 48 <= b <= 57) l /\ scan_digits l c m = (col, (m + n)%nat) /\
    0 <= col < 2 ^ 32 /\ col < (c + 1) * 10 ^ Z.of_nat n.
Proof.
  revert i c m. induction n as [|n IH]; intros i c m Hi Hc Hm; cbn [digits_loop bytes_at].
  - intros [= ->]. exists []. rewrite Nat.add_0_r. cbn in *. split_and!; (done || lia || constructor).
  - destruct (byte buf i) as [ch|] eqn:Hch; [|done]. cbn [mbind option_bind].
    destruct (Z.ltb_spec ch 48), (Z.ltb_spec 57 ch); cbn [orb]; try done. intros Hd.
    rewrite Nat2Z.inj_succ, Z.pow_succ_r in Hm |- * by lia. pose proof (Z.pow_pos_nonneg 10 (Z.of_nat n) ltac:(lia) ltac:(lia)).
    assert (Hs : u32 (c * 10 + (ch - 48)) = c * 10 + (ch - 48)) by (apply u32_pos; change (2 ^ 32) with 4294967296 in *; nia).
    rewrite Hs in Hd. destruct (IH (i + 1) (c * 10 + (ch - 48)) (S m) ltac:(lia) ltac:(lia) ltac:(nia) Hd) as (l & -> & Hl & Hf & Hsc & Hr & H3).
    exists (ch :: l). cbn [mbind option_bind length scan_digits]. unfold isdigit. rewrite (proj2 (Z.leb_le 48 ch)), (proj2 (Z.leb_le ch 57)) by lia.
    cbn [andb]. rewrite Hsc. split_and!; [done|by f_equal|by constructor|f_equal; lia|lia|lia|nia].
Qed.

Lemma c_str_bytes l : Forall (fun b => 48 <= b <= 57) l -> c_str (l ++ [0]) = Some l.
Proof.
  intros Hl. apply StringOpsProof.c_str_terminated. eapply Forall_impl; [done|]. unfold StringOpsProof.is_byte. cbn. lia.
Qed.

Lemma strtoll_digits l v : l <> [] -> Forall (fun b => 48 <= b <= 57) l -> scan_digits l 0 0 = (v, length l) -> 0 <= v <= INT64_MAX ->
  strtoll l = Some (v, false).
Proof.
  intros Hne Hd Hs Hv. destruct l as [|c l]; [done|]. apply Forall_cons in Hd as [Hc _]. unfold strtoll. cbn [skip_space].
  assert (Hsp : isspace c = false) by (unfold isspace; destruct (Z.eqb_spec c 32), (Z.leb_spec 9 c), (Z.leb_spec c 13); (lia || done)).
  rewrite Hsp. destruct (Z.eqb_spec c 45); [lia|]. destruct (Z.eqb_spec c 43); [lia|]. rewrite Hs. cbn [length Nat.eqb].
  destruct (Z.ltb_spec v INT64_MIN); [mi|]. destruct (Z.ltb_spec INT64_MAX v); [mi|done].
Qed.

(** A variable token that parses: its name is read the same way by both. *)
Lemma parse_var_col_some buf i pos col : is_buffer buf -> 0 <= i ->
  parse_var_col buf (Z.of_nat (length buf)) i = Some (Some (pos, col)) ->
  byte buf i = Some 1 /\ exists nlen, le_uint 2 buf (i + 1) = Some nlen /\ pos = i + 3 + nlen /\ i + 3 <= pos <= Z.of_nat (length buf) /\
    name_col buf (i + 3) nlen = Some col /\ 0 <= col < 2 ^ 32 /\ i < Z.of_nat (length buf).
Proof.
  intros Hb Hi. assert (Hlen := proj2 Hb). change (2 ^ 31) with 2147483648 in Hlen. unfold parse_var_col.
  destruct (Z.leb_spec (Z.of_nat (length buf)) i); [done|]. destruct (byte buf i) as [b|] eqn:Hop; [|done]. cbn [mbind option_bind].
  destruct (Z.eqb_spec b 1) as [->|]; [|done]. cbn [negb]. rewrite (u32_pos (i + 1)) by lia.
  rewrite (u32_pos (i + 1 + 2)) by lia. destruct (Z.ltb_spec (Z.of_nat (length buf)) (i + 1 + 2)); [done|].
  destruct (le_uint_in 2 buf (i + 1) Hb ltac:(lia) ltac:(lia)) as (nlen & Hn & Hr). rewrite Hn. cbn [mbind option_bind].
  change (256 ^ Z.of_nat 2) with 65536 in Hr. rewrite (u32_pos (i + 1 + 2 + nlen)) by lia.
  destruct (Z.ltb_spec (Z.of_nat (length buf)) (i + 1 + 2 + nlen)); [done|]. destruct (Z.ltb_spec nlen 4); [done|].
  replace (i + 1 + 2) with (i + 3) by lia. intros Hrest. split; [done|]. exists nlen. split; [done|].
  unfold name_col. destruct (Z.ltb_spec 3 nlen); [|lia].
  destruct (byte buf (i + 3)) as [b0|]; [|done]. cbn [mbind option_bind] in *. destruct (negb (b0 =? 99)); [done|].
  destruct (byte buf (i + 3 + 1)) as [b1|]; [|done]. cbn [mbind option_bind] in *. destruct (negb (b1 =? 111)); [done|].
  destruct (byte buf (i + 3 + 2)) as [b2|]; [|done]. cbn [mbind option_bind] in *. destruct (negb (b2 =? 108)); [done|].
  destruct (Z.eqb_spec (nlen - 3) 0); [lia|]. destruct (Z.ltb_spec 9 (nlen - 3)); [done|]. cbn [orb] in Hrest.
  destruct (digits_loop (Z.to_nat (nlen - 3)) buf (i + 3 + 3) 0) as [[c|]|] eqn:Hd; [|done..]. cbn in Hrest. injection Hrest as <- <-.
  assert (Hpow : 10 ^ Z.of_nat (Z.to_nat (nlen - 3)) <= 10 ^ 9) by (apply Z.pow_le_mono_r; lia). change (10 ^ 9) with 1000000000 in Hpow.
  destruct (digits_loop_scan (Z.to_nat (nlen - 3)) buf (i + 3 + 3) 0 c 0 ltac:(lia) ltac:(lia) ltac:(change (2 ^ 32) with 4294967296; lia) Hd) as (l & Hl & Hll & Hf & Hs & Hcr & Hcb).
  destruct (Z.ltb_spec (nlen - 3) 15); [|lia]. rewrite Hl. cbn [mbind option_bind]. rewrite c_str_bytes by done. cbn [mbind option_bind].
  rewrite (strtoll_digits l c); [|by intros ->; cbn in Hll; lia|done|rewrite Hs; f_equal; lia|mi]. cbn. split_and!; (done || lia).
Qed.

Lemma bytes_at_total n buf i : 0 <= i -> i + Z.of_nat n <= Z.of_nat (length buf) -> exists l, bytes_at n buf i = Some l.
Proof. intros. rewrite bytes_at_in by done. eauto. Qed.

Lemma digits_loop_total n buf i c : 0 <= i -> i + Z.of_nat n <= Z.of_nat (length buf) -> exists r, digits_loop n buf i c = Some r.
Proof.
  revert i c. induction n as [|n IH]; intros i c Hi Hn; cbn [digits_loop]; [eauto|]. destruct (byte_in buf i ltac:(lia)) as (b & -> & _).
  cbn [mbind option_bind]. destruct (_ || _); [eauto|]. apply IH; lia.
Qed.

Lemma parse_var_col_total buf i : is_buffer buf -> 0 <= i -> exists r, parse_var_col buf (Z.of_nat (length buf)) i = Some r.
Proof.
  intros Hb Hi. assert (Hlen := proj2 Hb). change (2 ^ 31) with 2147483648 in Hlen. unfold parse_var_col.
  destruct (Z.leb_spec (Z.of_nat (length buf)) i); [eauto|]. destruct (byte_in buf i ltac:(lia)) as (b & -> & _). cbn [mbind option_bind].
  destruct (negb (b =? 1)); [eauto|]. rewrite (u32_pos (i + 1)) by lia. rewrite (u32_pos (i + 1 + 2)) by lia.
  destruct (Z.ltb_spec (Z.of_nat (length buf)) (i + 1 + 2)); [eauto|].
  destruct (le_uint_in 2 buf (i + 1) Hb ltac:(lia) ltac:(lia)) as (nlen & Hn & Hr). rewrite Hn. cbn [mbind option_bind].
  change (256 ^ Z.of_nat 2) with 65536 in Hr. rewrite (u32_pos (i + 1 + 2 + nlen)) by lia.
  destruct (Z.ltb_spec (Z.of_nat (length buf)) (i + 1 + 2 + nlen)); [eauto|]. destruct (Z.ltb_spec nlen 4); [eauto|].
  destruct (byte_in buf (i + 1 + 2) ltac:(lia)) as (b0 & -> & _). cbn [mbind option_bind]. destruct (negb (b0 =? 99)); [eauto|].
  destruct (byte_in buf (i + 1 + 2 + 1) ltac:(lia)) as (b1 & -> & _). cbn [mbind option_bind]. destruct (negb (b1 =? 111)); [eauto|].
  destruct (byte_in buf (i + 1 + 2 + 2) ltac:(lia)) as (b2 & -> & _). cbn [mbind option_bind]. destruct (negb (b2 =? 108)); [eauto|].
  destruct (_ || _); [eauto|]. destruct (digits_loop_total (Z.to_nat (nlen - 3)) buf (i + 1 + 2 + 3) 0 ltac:(lia) ltac:(lia)) as (r & ->). cbn. eauto.
Qed.

(** ** Instructions *)

Section Agree.

Context {W : Type} `{!Host W}.

Definition vals (s : list item) : list Z := val <$> s.

Lemma vals_push s s' x x' : vals s = vals s' -> val x = val x' -> vals (push_item s x) = vals (push_item s' x').
Proof.
  intros Hs Hx. unfold push_item. assert (length s = length s') as <- by (apply (f_equal length) in Hs; unfold vals in Hs; by rewrite !length_fmap in Hs).
  destruct (_ <? _)%nat; [|done]. unfold vals in *. cbn. by f_equal.
Qed.

Lemma vals_pop s s' : vals s = vals s' -> (expr_pop s).1 = (expr_pop s').1 /\ vals (expr_pop s).2 = vals (expr_pop s').2.
Proof. unfold vals. destruct s, s'; cbn; intros; simplify_eq; done. Qed.

Lemma vals_pop2 s s' : vals s = vals s' -> exists a b t t', pop2 s = (a, b, t) /\ pop2 s' = (a, b, t') /\ vals t = vals t'.
Proof.
  intros Hs. unfold pop2. destruct (vals_pop _ _ Hs) as [Hb Ht]. destruct (expr_pop s) as [b t], (expr_pop s') as [b' t']. cbn in *. subst b'.
  destruct (vals_pop _ _ Ht) as [Ha Hu]. destruct (expr_pop t) as [a u], (expr_pop t') as [a' u']. cbn in *. subst a'. by exists a, b, u, u'.
Qed.

Lemma vals_expr_push s s' v v' : vals s = vals s' -> v = v' -> vals (expr_push s v) = vals (expr_push s' v').
Proof. intros. by apply vals_push. Qed.

#[local] Hint Resolve vals_expr_push : core.

(** An interpreter step and a compiled instruction that do the same. *)
Definition agree (w : W) (i : Z) (r : next) (r' : option (option (list item))) : Prop :=
  match r, r' with
  | Some (w', inl (i', s)), Some (Some s') => w' = w /\ i' = i /\ vals s = vals s'
  | Some (w', inr st), Some None => w' = w /\ st = MALFORMED
  | None, None => True
  | _, _ => False
  end.

Lemma operator_agree ctx sessions buf size row ncols tg i w x s s' : operator tg = true -> tag_of_byte (op x) = Some tg -> vals s = vals s' ->
  agree w i (step ctx sessions buf size row ncols tg i w s) (exec (intern ctx) row ncols w x s').
Proof.
  intros Ho Hx Hs. unfold exec. rewrite Hx. destruct (vals_pop2 s s' Hs) as (a & b & t & t' & Hp & Hp' & Ht).
  destruct tg as [| | | | | | | |op| |op| | | | |op|op|op|op|]; try done; cbn [step].
  - rewrite Hp, Hp'. change (compiled_arith op a b) with (run_arith op a b). destruct (run_arith op a b) as [[v|]|]; cbn; auto.
  - destruct (vals_pop _ _ Hs) as [Ha Hu]. destruct (expr_pop s) as [c u], (expr_pop s') as [c' u']. cbn in *. subst. auto.
  - rewrite Hp, Hp'. change (compiled_float op a b) with (run_float op a b). destruct (run_float op a b); cbn; auto.
  - rewrite Hp, Hp'. cbn. split_and!; [done..|]. apply vals_expr_push; [done|]. unfold run_cmp, compiled_cmp. by destruct op; case_match.
  - rewrite Hp, Hp'. unfold run_cmp_float, compiled_cmp_float.
    destruct (Floats.expr_float_load a) as [fa|]; [|done]. destruct (Floats.expr_float_load b) as [fb|]; [|done]. cbn [mbind option_bind push_opt].
    cbn. split_and!; [done..|]. apply vals_expr_push; [done|]. by destruct op; case_match.
  - rewrite Hp, Hp'. unfold run_cmp_str, compiled_cmp_str.
    destruct (if intern ctx then reverse w a else Some None) as [sa|]; [|done]. destruct (if intern ctx then reverse w b else Some None) as [sb|]; [|done].
    cbn. split_and!; [done..|]. apply vals_expr_push; [done|]. by destruct sa, sb, op.
  - destruct op; try done; cbn; auto.
Qed.

(** What passes validation decodes, and the decoded instruction agrees. *)
Lemma instruction_agree buf i b i' : is_buffer buf -> 0 <= i < Z.of_nat (length buf) -> byte buf i = Some b ->
  validate buf (Z.of_nat (length buf)) i (tag_of_byte b) = Some (Some i') ->
  exists tg x, tag_of_byte b = Some tg /\ decode buf (Z.of_nat (length buf)) i = Some (x, i') /\ i < i' <= Z.of_nat (length buf) /\
    forall ctx sessions row ncols w s s', vals s = vals s' ->
      agree w i' (step ctx sessions buf (Z.of_nat (length buf)) row ncols tg (u32 (i + 1)) w s) (exec (intern ctx) row ncols w x s').
Proof.
  intros Hbuf Hi Hb. assert (Hlen := proj2 Hbuf). change (2 ^ 31) with 2147483648 in Hlen. unfold decode. rewrite Hb. cbn [mbind option_bind].
  unfold validate. rewrite (u32_pos (i + 1)) by lia. destruct (tag_of_byte b) as [tg|] eqn:Htg; [|done]. intros Hv. exists tg.
  destruct (operator tg) eqn:Ho.
  { assert (Hi' : Some (Some (i + 1)) = Some (Some i')) by (by destruct tg). injection Hi' as <-. exists (In b 0 0).
    split_and!; [done|by destruct tg|lia..|]. intros. by apply operator_agree. }
  destruct tg; try discriminate.
  - destruct (parse_var_col buf _ i) as [[[pos col]|]|] eqn:Hp; [|done..]. cbn in Hv. injection Hv as <-.
    destruct (parse_var_col_some _ _ _ _ Hbuf (proj1 Hi) Hp) as (_ & nlen & Hn & Hpos & Hr & Hname & Hcol & _). exists (In b col 0).
    split_and!; [done..|lia|lia|]. intros. cbn [step]. unfold step_var, exec. cbn [op iarg]. rewrite Htg.
    destruct (Z.ltb_spec (Z.of_nat (length buf)) (i + 1)); [lia|]. destruct (Z.ltb_spec (Z.of_nat (length buf) - (i + 1)) 2); [lia|]. cbn [orb].
    rewrite Hn. cbn [mbind option_bind]. rewrite (u32_pos (i + 1 + 2)) by lia. replace (i + 1 + 2) with (i + 3) by lia.
    rewrite !(u32_pos (i + 3 + nlen)) by lia. destruct (Z.ltb_spec (Z.of_nat (length buf)) (i + 3 + nlen)); [lia|]. rewrite Hname. cbn [mbind option_bind].
    rewrite (u32_pos col) by lia. destruct (Z.leb_spec 0 col); [|lia]. cbn [andb].
    destruct (if col <? ncols then rd row (Z.to_nat col) else Some 0) as [v|]; cbn; [|done]. auto.
  - rewrite u32_pos in * by lia. destruct (Z.ltb_spec (Z.of_nat (length buf)) (i + 1 + 8)); [done|]. injection Hv as <-.
    destruct (le_int64_in buf (i + 1) Hbuf ltac:(lia) ltac:(lia)) as (v & Hlv). rewrite Hlv. exists (In b 0 v). split_and!; [done..|lia|lia|].
    intros. cbn [step]. unfold exec. cbn [op larg]. rewrite Htg. rewrite !u32_pos by lia. destruct (Z.ltb_spec (Z.of_nat (length buf)) (i + 1 + 8)); [lia|].
    rewrite Hlv. cbn. auto.
  - rewrite u32_pos in * by lia. destruct (Z.ltb_spec (Z.of_nat (length buf)) (i + 1 + 1)); [done|]. injection Hv as <-.
    destruct (byte_in buf (i + 1) ltac:(lia)) as (v & Hlv & _). rewrite Hlv. exists (In b 0 (Z.b2z (negb (v =? 0)))). split_and!; [done..|lia|lia|].
    intros. cbn [step]. unfold exec. cbn [op larg]. rewrite Htg. rewrite !u32_pos by lia. destruct (Z.ltb_spec (Z.of_nat (length buf)) (i + 1 + 1)); [lia|].
    rewrite Hlv. cbn. split_and!; [done..|]. by apply vals_push.
  - destruct (parse_var_col buf _ i) as [[[pos col]|]|] eqn:Hp; [|done..].
    destruct (parse_var_col_some _ _ _ _ Hbuf (proj1 Hi) Hp) as (Hone & _). rewrite Hb in Hone. injection Hone as ->. discriminate Htg.
  - rewrite u32_pos in * by lia. destruct (Z.ltb_spec (Z.of_nat (length buf)) (i + 1 + 8)); [done|]. injection Hv as <-.
    destruct (le_int64_in buf (i + 1) Hbuf ltac:(lia) ltac:(lia)) as (v & Hlv). rewrite Hlv. exists (In b 0 v). split_and!; [done..|lia|lia|].
    intros. cbn [step]. unfold exec. cbn [op larg]. rewrite Htg. rewrite !u32_pos by lia. destruct (Z.ltb_spec (Z.of_nat (length buf)) (i + 1 + 8)); [lia|].
    rewrite Hlv. cbn [mbind option_bind]. destruct (Floats.expr_float_load v); cbn; auto.
Qed.

Lemma validate_total buf i b : is_buffer buf -> 0 <= i < Z.of_nat (length buf) -> exists r, validate buf (Z.of_nat (length buf)) i (tag_of_byte b) = Some r.
Proof.
  intros Hb Hi. destruct (parse_var_col_total buf i Hb ltac:(lia)) as (r & Hr). unfold validate. destruct (tag_of_byte b) as [[]|]; eauto;
    rewrite Hr; cbn; eauto.
Qed.

(** ** Expressions *)

(** What the interpreter returns, from what the compiled evaluator returns. *)
Definition result (w : W) (r : option (Z * Z)) : option (W * Z * Z) := '(rc, v) ← r; Some (w, rc, v).

Lemma loop_agree buf : is_buffer buf -> forall fuel i n0, 0 <= i <= Z.of_nat (length buf) -> 0 <= n0 -> n0 <= i -> (Z.to_nat (Z.of_nat (length buf) - i) < fuel)%nat ->
  exists r, count_loop fuel buf (Z.of_nat (length buf)) i n0 = Some r /\ forall n, r = Some n ->
    n0 <= n <= Z.of_nat (length buf) /\ exists l, fill_loop (Z.to_nat (n - n0)) buf (Z.of_nat (length buf)) i = Some l /\ 
    forall ctx sessions row ncols w s s' fuel', vals s = vals s' -> (Z.to_nat (Z.of_nat (length buf) - i) < fuel')%nat ->
      run_loop fuel' ctx sessions buf (Z.of_nat (length buf)) row ncols i w s = result w (exec_loop (intern ctx) row ncols w l s').
Proof.
  intros Hbuf. assert (Hlen := proj2 Hbuf). change (2 ^ 31) with 2147483648 in Hlen.
  induction fuel as [|fuel IH]; intros i n0 Hi Hn0 Hni Hf; [lia|]. cbn [count_loop]. destruct (Z.ltb_spec i (Z.of_nat (length buf))).
  - destruct (byte_in buf i ltac:(lia)) as (b & Hb & _). rewrite Hb. cbn [mbind option_bind].
    destruct (validate_total buf i b Hbuf ltac:(lia)) as ([i'|] & Hv); rewrite Hv; cbn [mbind option_bind]; [|by eexists].
    destruct (instruction_agree buf i b i' Hbuf ltac:(lia) Hb Hv) as (tg & x & Htg & Hd & Hi' & Hag). rewrite (u32_pos (n0 + 1)) by lia.
    destruct (IH i' (n0 + 1) ltac:(lia) ltac:(lia) ltac:(lia) ltac:(lia)) as (r & -> & Hr). eexists. split; [done|]. intros n ->.
    destruct (Hr n eq_refl) as (Hn & l & Hl & Hrun). split; [lia|]. exists (x :: l).
    replace (Z.to_nat (n - n0)) with (S (Z.to_nat (n - (n0 + 1)))) by lia. cbn [fill_loop]. destruct (Z.ltb_spec i (Z.of_nat (length buf))); [|lia].
    rewrite Hd. cbn [mbind option_bind]. rewrite Hl. split; [done|]. intros ctx sessions row ncols w s s' [|fuel'] Hs Hf'; [lia|].
    cbn [run_loop exec_loop]. destruct (Z.ltb_spec i (Z.of_nat (length buf))); [|lia]. rewrite Hb. cbn [mbind option_bind]. rewrite Htg.
    specialize (Hag ctx sessions row ncols w s s' Hs). unfold agree in Hag.
    destruct (step _ _ _ _ _ _ _ _ _ _) as [[w' [[j t]|st]]|], (exec _ _ _ _ _ _) as [[t'|]|]; cbn [mbind option_bind]; try done.
    + destruct Hag as (-> & -> & Ht). apply Hrun; [done|lia].
    + destruct Hag as (-> & ->). done.
  - eexists. split; [done|]. intros n [= <-]. split; [lia|]. exists []. rewrite Z.sub_diag. split; [done|].
    intros ctx sessions row ncols w s s' [|fuel'] Hs Hf'; [lia|]. cbn [run_loop exec_loop]. destruct (Z.ltb_spec i (Z.of_nat (length buf))); [lia|].
    unfold vals in Hs. destruct s as [|x s], s' as [|x' s']; [done|discriminate Hs|discriminate Hs|]. injection Hs as Hx _. cbn. by rewrite Hx.
Qed.

Lemma exec_rc table row ncols w l s rc v : exec_loop table row ncols w l s = Some (rc, v) -> rc = 0 \/ rc = 1.
Proof.
  revert s. induction l as [|x l IH]; intros s; cbn [exec_loop]; [intros [= <- _]; by left|].
  destruct (exec _ _ _ _ _ _) as [[t|]|]; cbn [mbind option_bind]; [apply IH|intros [= <- _]; by right|done].
Qed.

Lemma eval_compiled_rc c row ncols w rc v : eval_compiled c row ncols w = Some (rc, v) -> rc = 0 \/ rc = 1.
Proof. apply exec_rc. Qed.

(** In any context with the same table. *)
Lemma compile_agrees_ctx malloc1 malloc2 buf table : is_buffer buf -> exists r, compile malloc1 malloc2 buf table = Some r /\
  forall c, r = Some c -> forall ctx sessions row ncols (w : W), intern ctx = table ->
    eval_run_ctx ctx sessions buf row ncols w = result w (eval_compiled c row ncols w).
Proof.
  intros Hbuf. unfold compile. destruct (Z.eqb_spec (Z.of_nat (length buf)) 0); [by eexists|].
  destruct (loop_agree buf Hbuf (S (length buf)) 0 0 ltac:(lia) ltac:(lia) ltac:(lia) ltac:(lia)) as ([n'|] & -> & Hr); cbn [mbind option_bind]; [|by eexists].
  destruct (Hr n' eq_refl) as (Hn & l & Hl & Hrun). destruct (Z.eqb_spec n' 0); [by eexists|]. destruct malloc1; [|by eexists]. destruct malloc2; [|by eexists]. cbn [negb].
  rewrite Z.sub_0_r in Hl. rewrite Hl. cbn [mbind option_bind]. eexists. split; [done|]. intros c [= <-] ctx sessions row ncols w <-.
  unfold eval_run_ctx. by rewrite (Hrun _ _ _ _ _ [] []) by (done || lia).
Qed.

Lemma compile_agrees malloc1 malloc2 buf table : is_buffer buf -> exists r, compile malloc1 malloc2 buf table = Some r /\
  forall c, r = Some c -> forall sessions row ncols (w : W),
    eval_run table sessions buf row ncols w = result w (eval_compiled c row ncols w).
Proof.
  intros Hbuf. destruct (compile_agrees_ctx malloc1 malloc2 buf table Hbuf) as (r & Hr & Hc). exists r. split; [done|]. intros c Hrc sessions row ncols w.
  unfold eval_run. rewrite (Hc c Hrc) by done. destruct (eval_compiled c row ncols w) as [[rc v]|] eqn:He; [|done]. cbn.
  by destruct (eval_compiled_rc _ _ _ _ _ _ He) as [->| ->].
Qed.

End Agree.

(** ** The theorems *)

(** C7: Compiling a buffer never reads outside it, and whenever it yields
    code, the compiled evaluator returns for every row, with every table, the
    code and the value the interpreter returns for the bytecode: the filters
    and maps that take the fast path compute what the slow path would. *)
Theorem compile_correct {W} `{!Host W} malloc1 malloc2 buf table : is_buffer buf ->
  exists r, compile malloc1 malloc2 buf table = Some r /\
    forall c, r = Some c -> forall sessions row ncols (w : W),
      eval_run table sessions buf row ncols w = result w (eval_compiled c row ncols w).
Proof. apply compile_agrees. Qed.

(** A host for examples: the list of strings as the table, no crypto. *)
#[export] Instance list_host : Host (list str) :=
  {| host_table := StringOpsProof.list_interner;
     crc_statics := fun _ => Crc.fresh_statics; set_crc_statics := fun w _ => w;
     crc_intrinsics := false; crc_available := false; crc_hw_u8 := fun _ _ => 0; XXH3_64bits := fun _ => 0; mbedtls := false;
     psa_crypto_init := fun w => (w, false); psa_hash_compute := fun w _ _ => (w, None); psa_hash_setup := fun w _ => (w, false);
     psa_hash_update := fun w _ => (w, false); psa_hash_finish := fun w => (w, None); psa_hash_abort := fun w => w;
     psa_import_key := fun w _ => (w, None); psa_mac_compute := fun w _ _ => (w, None); psa_destroy_key := fun w _ => (w, false);
     psa_generate_random := fun w _ => (w, None); lease_acquire := fun w _ => (w, true); lease_release := fun w _ => w |}.

(** col0 < col1 *)
Definition lt_buf : list Z := [1; 4; 0; 99; 111; 108; 48; 1; 4; 0; 99; 111; 108; 49; 0x24].

Lemma lt_buf_ok : is_buffer lt_buf.
Proof. split; [repeat constructor; lia|]. vm_compute. reflexivity. Qed.

Lemma compile_correct_witness : exists c, compile true true lt_buf false = Some (Some c) /\
  eval_run false [] lt_buf [3; 5] 2 ([] : list str) = result [] (eval_compiled c [3; 5] 2 ([] : list str)) /\
  eval_run false [] lt_buf [3; 5] 2 ([] : list str) = Some ([], 0, 1).
Proof.
  destruct (compile_correct (W := list str) true true lt_buf false lt_buf_ok) as (r & Hc & Hr).
  vm_compute in Hc. injection Hc as <-. eexists. split; [vm_compute; reflexivity|]. split; [apply Hr; reflexivity|vm_compute; reflexivity].
Defined.

(** A float variable is never compiled: the parser of variables wants the
    opcode of an untyped one. *)
Example float_variable_not_compiled : compile true true [5; 4; 0; 99; 111; 108; 48] false = Some None.
Proof. reflexivity. Qed.

(** Unlike what the plan generator expects, a string comparison is compiled. *)
Example string_comparison_compiled : is_Some (c ← compile true true [1; 4; 0; 99; 111; 108; 48; 1; 4; 0; 99; 111; 108; 49; 0x52] true; c).
Proof. vm_compute. eauto. Qed.

(** col4294967296 passes the bounds test of a row with one column. *)
Example wide_column_overruns :
  eval_run false [] [1; 13; 0; 99; 111; 108; 52; 50; 57; 52; 57; 54; 55; 50; 57; 54] [7] 1 ([] : list str) = None.
Proof. lazy. reflexivity. Qed.

(** The other aggregates are skipped. *)
Example average_refused :
  (eval_run false [] [4; 1; 0x33] [] 0 ([] : list str), eval_run false [] [4; 1; 0x34] [] 0 ([] : list str)) = (Some ([], 0, 1), Some ([], 1, 0)).
Proof. vm_compute. reflexivity. Qed.

End ExprProof.
