(* ===== verification/FloatsProof.v ===== *)
(** * The order of binary64 lanes

    The comparisons an expression makes on decoded doubles agree with the
    comparison of the bits by which float columns are sorted. *)

From Stdlib Require Import SpecFloat.
From S2P Require Import Prelude RadixSort Floats Expr.

Module FloatsProof.

Import Floats.
Import Keys.

(** ** The fields of a lane *)

Definition magnitude (k : Z) : Z := k mod 2 ^ 63.
Definition exp_field (k : Z) : Z := magnitude k / 2 ^ 52.
Definition man_field (k : Z) : Z := magnitude k mod 2 ^ 52.

Lemma u64_fields k : is_int64 k -> u64 k = (if k <? 0 then 2 ^ 63 else 0) + magnitude k /\ 0 <= magnitude k < 2 ^ 63.
Proof.
  intros Hk. unfold magnitude, u64. pose proof (Z.mod_pos_bound k (2 ^ 63) ltac:(lia)). split; [|done].
  destruct (Z.ltb_spec k 0).
  - rewrite <-(Z.mod_add k 1 (2 ^ 64)), <-(Z.mod_add k 1 (2 ^ 63)) by lia. rewrite !Z.mod_small by mi. lia.
  - rewrite !Z.mod_small by mi. lia.
Qed.

Lemma fields_split k : magnitude k = exp_field k * 2 ^ 52 + man_field k.
Proof. unfold exp_field, man_field. pose proof (Z.div_mod (magnitude k) (2 ^ 52)). lia. Qed.

Lemma fields_range k : is_int64 k -> 0 <= exp_field k < 2048 /\ 0 <= man_field k < 2 ^ 52.
Proof.
  intros Hk. destruct (u64_fields k Hk) as [_ Hm]. unfold exp_field, man_field. pose proof (Z.mod_pos_bound (magnitude k) (2 ^ 52) ltac:(lia)).
  split; [|done]. split; [apply Z.div_pos; lia|]. apply Z.div_lt_upper_bound; lia.
Qed.

Lemma sign_of_eq k : is_int64 k -> sign_of k = (k <? 0).
Proof.
  intros Hk. unfold sign_of. destruct (u64_fields k Hk) as [-> Hm]. rewrite Z.testbit_odd, Z.shiftr_div_pow2 by lia.
  destruct (Z.ltb_spec k 0).
  - replace ((2 ^ 63 + magnitude k) / 2 ^ 63) with 1; [done|]. apply (Z.div_unique_pos _ _ _ (magnitude k)); lia.
  - replace ((0 + magnitude k) / 2 ^ 63) with 0; [done|]. apply (Z.div_unique_pos _ _ _ (magnitude k)); lia.
Qed.

Lemma exponent_of_eq k : is_int64 k -> exponent_of k = exp_field k.
Proof.
  intros Hk. unfold exponent_of. change 0x7ff with (Z.ones 11). rewrite Z.land_ones, Z.shiftr_div_pow2 by lia.
  pose proof (fields_range k Hk) as [He Hm]. destruct (u64_fields k Hk) as [-> _]. rewrite fields_split. change (2 ^ 11) with 2048.
  destruct (Z.ltb_spec k 0).
  - replace (2 ^ 63 + (exp_field k * 2 ^ 52 + man_field k)) with (man_field k + (2048 + exp_field k) * 2 ^ 52) by lia.
    rewrite Z.div_add, (Z.div_small (man_field k)) by lia. rewrite Z.add_0_l. rewrite Z.add_comm. rewrite <-(Z.mul_1_l 2048) at 1. rewrite Z.mod_add by lia. by apply Z.mod_small.
  - rewrite Z.add_0_l, Z.add_comm, Z.div_add, (Z.div_small (man_field k)) by lia. rewrite Z.add_0_l. by apply Z.mod_small.
Qed.

Lemma mantissa_of_eq k : is_int64 k -> mantissa_of k = man_field k.
Proof.
  intros Hk. unfold mantissa_of. change (HIDDEN - 1) with (Z.ones 52). rewrite Z.land_ones by lia.
  pose proof (fields_range k Hk) as [He Hm]. destruct (u64_fields k Hk) as [-> _]. rewrite fields_split.
  destruct (Z.ltb_spec k 0).
  - replace (2 ^ 63 + (exp_field k * 2 ^ 52 + man_field k)) with (man_field k + (2048 + exp_field k) * 2 ^ 52) by lia.
    rewrite Z.mod_add by lia. by apply Z.mod_small.
  - rewrite Z.add_0_l, Z.add_comm, Z.mod_add by lia. by apply Z.mod_small.
Qed.

Lemma valid_exponent k : is_int64 k -> float_bits_valid k = negb (exp_field k =? 0x7ff).
Proof.
  intros Hk. unfold float_bits_valid. f_equal. rewrite <-exponent_of_eq by done. unfold exponent_of, EXPONENT.
  assert (H : Z.land (u64 k) 0x7ff0000000000000 = Z.shiftl (Z.land (Z.shiftr (u64 k) 52) 0x7ff) 52).
  { change 0x7ff0000000000000 with (Z.shiftl 0x7ff 52). apply Z.bits_inj'. intros n Hn. rewrite Z.land_spec, !Z.shiftl_spec, Z.land_spec by lia.
    destruct (decide (n < 52)); [rewrite !(Z.testbit_neg_r _ (n - 52)) by lia; by rewrite andb_false_r|]. rewrite Z.shiftr_spec by lia. by replace (n - 52 + 52) with n by lia. }
  rewrite H. rewrite Z.shiftl_mul_pow2 by lia. change 0x7ff0000000000000 with (0x7ff * 2 ^ 52).
  destruct (Z.eqb_spec (Z.land (Z.shiftr (u64 k) 52) 0x7ff) 0x7ff) as [->|Hne]; [done|]. apply Z.eqb_neq. lia.
Qed.

(** ** The decoded value *)

(** Sign, exponent and significand of a finite value that is not zero. *)
Definition sig (k : Z) : Z := if exp_field k =? 0 then man_field k else man_field k + HIDDEN.
Definition expo (k : Z) : Z := Z.max (exp_field k) 1 - 1075.

Lemma of_bits_eq k : is_int64 k -> exp_field k <> 0x7ff ->
  (magnitude k = 0 /\ of_bits k = S754_zero (k <? 0)) \/
  (0 < magnitude k /\ exists p, Zpos p = sig k /\ of_bits k = S754_finite (k <? 0) p (expo k)).
Proof.
  intros Hk Hv. unfold of_bits. rewrite sign_of_eq, exponent_of_eq, mantissa_of_eq by done. rewrite (proj2 (Z.eqb_neq _ _) Hv). fold (sig k).
  pose proof (fields_range k Hk) as [He Hm]. pose proof (fields_split k) as Hs. change (2 ^ 52) with HIDDEN in *. unfold sig, HIDDEN in *.
  destruct (Z.eqb_spec (exp_field k) 0) as [E|E].
  - destruct (man_field k) as [|p|p] eqn:Hmf; [left; split; [lia|done]| |lia]. right. split; [lia|]. by exists p.
  - destruct (man_field k + 4503599627370496) as [|p|p] eqn:Hmf; [lia| |lia]. right. split; [lia|]. by exists p.
Qed.

(** Exponent and significand order magnitudes. *)
Lemma magnitude_lex a b : is_int64 a -> is_int64 b ->
  (magnitude a ?= magnitude b) = match expo a ?= expo b with Eq => sig a ?= sig b | c => c end.
Proof.
  intros Ha Hb. pose proof (fields_range a Ha) as [Ea Ma]. pose proof (fields_range b Hb) as [Eb Mb].
  pose proof (fields_split a) as Sa. pose proof (fields_split b) as Sb. unfold expo, sig, HIDDEN. change (2 ^ 52) with 4503599627370496 in *.
  destruct (Z.compare_spec (Z.max (exp_field a) 1 - 1075) (Z.max (exp_field b) 1 - 1075)) as [E|E|E].
  - destruct (Z.eqb_spec (exp_field a) 0), (Z.eqb_spec (exp_field b) 0); [| | |];
      match goal with |- _ = (?x ?= ?y) => destruct (Z.compare_spec x y), (Z.compare_spec (magnitude a) (magnitude b)); (done || lia) end.
  - apply Z.compare_lt_iff. nia.
  - apply Z.compare_gt_iff. nia.
Qed.

Lemma expr_float_load_eq k : is_int64 k -> float_bits_valid k = true -> expr_float_load k = Some (of_bits k) /\ exp_field k <> 0x7ff.
Proof.
  intros Hk Hv. rewrite valid_exponent in Hv by done. apply negb_true_iff, Z.eqb_neq in Hv. split; [|done].
  unfold expr_float_load. by destruct (of_bits_eq k Hk Hv) as [[_ ->]|(_ & p & _ & ->)].
Qed.

Lemma i64_of_u64 k : is_int64 k -> i64 ((if k <? 0 then 2 ^ 63 else 0) + magnitude k) = k.
Proof.
  intros Hk. unfold i64, magnitude. destruct (Z.ltb_spec k 0).
  - rewrite <-(Z.mod_add k 1 (2 ^ 63)), (Z.mod_small (k + 1 * 2 ^ 63)) by mi. replace (2 ^ 63 + (k + 1 * 2 ^ 63) + 2 ^ 63) with (k + 2 ^ 63 + 1 * 2 ^ 64) by lia.
    rewrite Z.mod_add by lia. rewrite Z.mod_small by mi. lia.
  - rewrite (Z.mod_small k) by mi. rewrite Z.mod_small by mi. lia.
Qed.

(** Decoding loses nothing of a finite lane. *)
Lemma to_bits_of_bits k : is_int64 k -> exp_field k <> 0x7ff -> to_bits (of_bits k) = k.
Proof.
  intros Hk Hv. pose proof (fields_range k Hk) as [He Hm]. pose proof (fields_split k) as Hs. rewrite <-(i64_of_u64 k Hk) at 2.
  destruct (of_bits_eq k Hk Hv) as [[H0 ->]|(H0 & p & Hp & ->)]; cbn [to_bits].
  - rewrite H0. f_equal. by destruct (k <? 0).
  - rewrite Hp. unfold sig, expo, HIDDEN in *. change (2 ^ 52) with 4503599627370496 in *. destruct (Z.eqb_spec (exp_field k) 0) as [E|E].
    + rewrite (proj2 (Z.ltb_lt _ _)) by lia. f_equal. lia.
    + rewrite (proj2 (Z.ltb_ge _ _)) by lia. f_equal. lia.
Qed.

Lemma expr_float_load_none k : is_int64 k -> float_bits_valid k = false -> expr_float_load k = None.
Proof.
  intros Hk Hv. rewrite valid_exponent in Hv by done. apply negb_false_iff, Z.eqb_eq in Hv. unfold expr_float_load, of_bits.
  rewrite exponent_of_eq, Hv by done. cbn [Z.eqb Pos.eqb]. by destruct (mantissa_of k =? 0).
Qed.

(** The rank of a lane, from its sign and magnitude. *)
Lemma rank_eq k : is_int64 k -> rank TYPE_FLOAT k = if magnitude k =? 0 then 2 ^ 63 else if k <? 0 then 2 ^ 63 - 1 - magnitude k else 2 ^ 63 + magnitude k.
Proof.
  intros Hk. unfold rank, Keys.is_float. rewrite bool_decide_true by done. rewrite float_bits_zero_iff, float_ordered_eq by done.
  destruct (u64_fields k Hk) as [Hu Hm]. unfold u64 in Hu. unfold magnitude in *.
  destruct (Z.ltb_spec k 0).
  - assert (k mod 2 ^ 63 = k + 2 ^ 63) as -> by (rewrite <-(Z.mod_add k 1 (2 ^ 63)) by lia; rewrite Z.mod_small; mi).
    destruct (Z.eqb_spec k 0), (Z.eqb_spec k (- 2 ^ 63)), (Z.eqb_spec (k + 2 ^ 63) 0); cbn [orb]; lia.
  - assert (k mod 2 ^ 63 = k) as -> by (apply Z.mod_small; mi). destruct (Z.eqb_spec k 0), (Z.eqb_spec k (- 2 ^ 63)); cbn [orb]; lia.
Qed.

(** The comparison of the decoded values is that of the ranks. *)
Lemma SFcompare_rank a b : is_int64 a -> is_int64 b -> exp_field a <> 0x7ff -> exp_field b <> 0x7ff ->
  SFcompare (of_bits a) (of_bits b) = Some (rank TYPE_FLOAT a ?= rank TYPE_FLOAT b).
Proof.
  intros Ha Hb Va Vb. rewrite !rank_eq by done. pose proof (magnitude_lex a b Ha Hb) as Hlex.
  destruct (u64_fields a Ha) as [_ Ma], (u64_fields b Hb) as [_ Mb].
  destruct (of_bits_eq a Ha Va) as [[Za ->]|(Pa & p & Hp & ->)], (of_bits_eq b Hb Vb) as [[Zb ->]|(Pb & q & Hq & ->)].
  - rewrite Za, Zb. done.
  - rewrite Za. cbn [Z.eqb]. destruct (Z.eqb_spec (magnitude b) 0); [lia|]. cbn. f_equal. symmetry.
    destruct (Z.ltb_spec b 0); [apply Z.compare_gt_iff|apply Z.compare_lt_iff]; lia.
  - rewrite Zb. cbn [Z.eqb]. destruct (Z.eqb_spec (magnitude a) 0); [lia|]. cbn. f_equal. symmetry.
    destruct (Z.ltb_spec a 0); [apply Z.compare_lt_iff|apply Z.compare_gt_iff]; lia.
  - destruct (Z.eqb_spec (magnitude a) 0); [lia|]. destruct (Z.eqb_spec (magnitude b) 0); [lia|]. cbn [SFcompare].
    assert (Hpq : (Zpos p ?= Zpos q) = Pos.compare_cont Eq p q) by done. rewrite Hp, Hq in Hpq.
    destruct (Z.ltb_spec a 0), (Z.ltb_spec b 0).
    + replace (2 ^ 63 - 1 - magnitude a ?= 2 ^ 63 - 1 - magnitude b) with (CompOpp (magnitude a ?= magnitude b)).
      2:{ destruct (Z.compare_spec (magnitude a) (magnitude b)); symmetry; [apply Z.compare_eq_iff|apply Z.compare_gt_iff|apply Z.compare_lt_iff]; lia. }
      rewrite Hlex, Hpq. by destruct (expo a ?= expo b).
    + f_equal. symmetry. apply Z.compare_lt_iff. lia.
    + f_equal. symmetry. apply Z.compare_gt_iff. lia.
    + replace (2 ^ 63 + magnitude a ?= 2 ^ 63 + magnitude b) with (magnitude a ?= magnitude b).
      2:{ destruct (Z.compare_spec (magnitude a) (magnitude b)); symmetry; [apply Z.compare_eq_iff|apply Z.compare_lt_iff|apply Z.compare_gt_iff]; lia. }
      rewrite Hlex, Hpq. by destruct (expo a ?= expo b).
Qed.

(** ** The theorem *)

(** The sign of a three-way comparison, tested as an operator. *)
Definition tests (op : Expr.cmp_op) (c : Z) : bool :=
  match op with Expr.EQ => c =? 0 | Expr.NEQ => negb (c =? 0) | Expr.LT => c <? 0 | Expr.GT => 0 <? c | Expr.LTE => c <=? 0 | Expr.GTE => 0 <=? c end.

(** On lanes that hold finite values, a float comparison of an expression
    decodes two doubles and answers exactly what the bit comparison that
    sorts float columns answers: a filter and the sorted storage never
    disagree on the order of two floats, the two zeros included. *)
Theorem float_filter_order op a b : valid_key TYPE_FLOAT a -> valid_key TYPE_FLOAT b ->
  Expr.run_cmp_float op a b = Some (Z.b2z (tests op (float_compare_bits a b))).
Proof.
  intros HA HB. rewrite (cmp_rank a b HA HB). destruct HA as [Ha Va], HB as [Hb Vb]. specialize (Va eq_refl). specialize (Vb eq_refl).
  destruct (expr_float_load_eq a Ha Va) as [La Ea], (expr_float_load_eq b Hb Vb) as [Lb Eb]. unfold Expr.run_cmp_float. rewrite La, Lb. cbn [mbind option_bind].
  pose proof (SFcompare_rank a b Ha Hb Ea Eb) as Hc. pose proof (SFcompare_rank b a Hb Ha Eb Ea) as Hc'. unfold feq, flt, fle, SFeqb, SFltb, SFleb. rewrite Hc, Hc'.
  unfold three_way. destruct (Z.compare_spec (rank TYPE_FLOAT a) (rank TYPE_FLOAT b)), (Z.compare_spec (rank TYPE_FLOAT b) (rank TYPE_FLOAT a)),
    (Z.ltb_spec (rank TYPE_FLOAT a) (rank TYPE_FLOAT b)), (Z.ltb_spec (rank TYPE_FLOAT b) (rank TYPE_FLOAT a)); try lia; by destruct op.
Qed.

(** -1.5 and -0.0 *)
Lemma float_filter_order_witness :
  Expr.run_cmp_float Expr.LT (-4613937818241073152) (-9223372036854775808) = Some (Z.b2z (tests Expr.LT (float_compare_bits (-4613937818241073152) (-9223372036854775808)))) /\
  Expr.run_cmp_float Expr.LT (-4613937818241073152) (-9223372036854775808) = Some 1.
Proof. split; [apply (float_filter_order Expr.LT); (split; [mi|done])|vm_compute; reflexivity]. Defined.

End FloatsProof.
