(* ===== verification/DigestProof.v ===== *)
(** * Digest operands and UUID text

    The framed encoding of uuid5's operands determines them, and the text of a
    UUID is parsed back to its bytes. *)

From S2P Require Import Prelude StringOps StringOpsProof Expr.

Module DigestProof.

Import StringOps Expr.

(** ** Frames *)

Lemma to_le_length n z : length (to_le n z) = n.
Proof. revert z. induction n as [|n IH]; intros z; cbn; [done|]. by rewrite IH. Qed.

Lemma to_le_inj n a b : 0 <= a < 256 ^ Z.of_nat n -> 0 <= b < 256 ^ Z.of_nat n -> to_le n a = to_le n b -> a = b.
Proof.
  revert a b. induction n as [|n IH]; intros a b Ha Hb; [cbn in *; lia|]. rewrite Nat2Z.inj_succ, Z.pow_succ_r in Ha, Hb by lia. cbn [to_le].
  intros [= Hm Hd]. apply IH in Hd; [pose proof (Z.div_mod a 256); pose proof (Z.div_mod b 256); lia|..];
    (split; [apply Z.div_pos; lia|apply Z.div_lt_upper_bound; lia]).
Qed.

(** A frame is a prefix code: what follows it is determined. *)
Lemma frame_inj tg tg' x x' rest rest' : Z.of_nat (length x) < 2 ^ 64 -> Z.of_nat (length x') < 2 ^ 64 ->
  frame_header tg (Z.of_nat (length x)) ++ x ++ rest = frame_header tg' (Z.of_nat (length x')) ++ x' ++ rest' -> tg = tg' /\ x = x' /\ rest = rest'.
Proof.
  intros Hx Hx' H. apply app_inj_1 in H as [Hh H]; [|unfold frame_header; cbn [length]; by rewrite !to_le_length].
  unfold frame_header in Hh. remember (to_le 8 (u64 (Z.of_nat (length x)))) as l eqn:Hl. remember (to_le 8 (u64 (Z.of_nat (length x')))) as l' eqn:Hl'.
  injection Hh as -> ->. rewrite Hl in Hl'. split; [done|]. rewrite !u64_small in Hl' by (unfold is_uint64, UINT64_MAX; lia).
  apply to_le_inj in Hl'; [|change (256 ^ Z.of_nat 8) with (2 ^ 64); lia..]. apply app_inj_1 in H as [-> ->]; [done|lia].
Qed.

(** The framed input of a uuid5 digest determines the two operands, their
    types included, and is never as short as the unframed input of two
    integers: different typed operands never feed the hash the same bytes. *)
Theorem uuid5_frames_injective t1 x1 t2 y1 t1' x1' t2' y1' :
  Z.of_nat (length x1) < 2 ^ 64 -> Z.of_nat (length y1) < 2 ^ 64 -> Z.of_nat (length x1') < 2 ^ 64 -> Z.of_nat (length y1') < 2 ^ 64 ->
  (concat (pair_parts true t1 x1 t2 y1) = concat (pair_parts true t1' x1' t2' y1') -> t1 = t1' /\ x1 = x1' /\ t2 = t2' /\ y1 = y1') /\
  (forall u v, concat (pair_parts true t1 x1 t2 y1) <> concat (pair_parts false 0 (to_le 8 u) 0 (to_le 8 v))).
Proof.
  intros Hx Hy Hx' Hy'. unfold pair_parts. cbn [concat]. rewrite !app_nil_r. split.
  - intros H. apply frame_inj in H as (-> & -> & H); [|done..]. pose proof (frame_inj t2 t2' y1 y1' [] []) as Hf. rewrite !app_nil_r in Hf.
    destruct (Hf Hy Hy' H) as (-> & -> & _). done.
  - intros u v H%(f_equal length). unfold frame_header in H. rewrite !length_app, !to_le_length in H. cbn [length] in H. rewrite !to_le_length in H. lia.
Qed.

Lemma uuid5_frames_injective_witness :
  concat (pair_parts true 83 [97; 98] 83 [99]) <> concat (pair_parts true 83 [97] 83 [98; 99]).
Proof.
  intros H. apply (uuid5_frames_injective 83 [97; 98] 83 [99] 83 [97] 83 [98; 99]) in H; [|reflexivity..]. destruct H as (_ & H & _). discriminate H.
Defined.

(** ** UUID text *)

Lemma hex_nibble_digit n : 0 <= n < 16 -> hex_nibble (hex_digit n) = Some n.
Proof.
  intros Hn. unfold hex_digit. destruct (Z.ltb_spec n 10).
  - unfold hex_nibble. rewrite (proj2 (Z.leb_le 48 (48 + n))), (proj2 (Z.leb_le (48 + n) 57)) by lia. cbn [andb]. f_equal. lia.
  - unfold hex_nibble. rewrite (proj2 (Z.leb_le 48 (87 + n))), (proj2 (Z.leb_gt (87 + n) 57)), (proj2 (Z.leb_le 97 (87 + n))), (proj2 (Z.leb_le (87 + n) 102)) by lia.
    cbn [andb]. f_equal. lia.
Qed.

Lemma nibbles b : 0 <= b <= 255 -> 0 <= Z.shiftr b 4 < 16 /\ 0 <= Z.land b 15 < 16 /\ Z.lor (u8 (Z.shiftl (Z.shiftr b 4) 4)) (Z.land b 15) = b.
Proof.
  intros Hb. pose proof (fun f H => StringOpsProof.all_bytes f H b ltac:(lia)) as H.
  specialize (H (fun b => (0 <=? Z.shiftr b 4) && (Z.shiftr b 4 <? 16) && (0 <=? Z.land b 15) && (Z.land b 15 <? 16) && (Z.lor (u8 (Z.shiftl (Z.shiftr b 4) 4)) (Z.land b 15) =? b)) ltac:(by vm_compute)).
  cbv beta in H. rewrite !andb_true_iff in H. lia.
Qed.

(** One step of the parser at a hexadecimal digit. *)
Lemma parse_digit n text i pos uuid c v x : byte_at text i = Some c -> is_hyphen i = false -> hex_nibble c = Some v ->
  (if Nat.even pos then wr uuid (pos / 2)%nat (u8 (Z.shiftl v 4)) else old ← rd uuid (pos / 2)%nat; wr uuid (pos / 2)%nat (Z.lor old v)) = Some x ->
  parse_uuid_loop (S n) text i pos uuid = parse_uuid_loop n text (S i) (S pos) x.
Proof. intros Hc Hh Hv Hx. cbn [parse_uuid_loop]. rewrite Hc. cbn [mbind option_bind]. rewrite Hh, Hv, Hx. done. Qed.

Lemma parse_hyphen n text i pos uuid : byte_at text i = Some 45 -> is_hyphen i = true ->
  parse_uuid_loop (S n) text i pos uuid = parse_uuid_loop n text (S i) pos uuid.
Proof. intros Hc Hh. cbn [parse_uuid_loop]. rewrite Hc. cbn [mbind option_bind]. by rewrite Hh. Qed.

(** Two digits at an even position fill one byte. *)
Lemma parse_byte k n text i p uuid b : byte_at text i = Some (hex_digit (Z.shiftr b 4)) -> byte_at text (S i) = Some (hex_digit (Z.land b 15)) ->
  p = (2 * k)%nat -> is_hyphen i = false -> is_hyphen (S i) = false -> (k < length uuid)%nat -> 0 <= b <= 255 ->
  parse_uuid_loop (S (S n)) text i p uuid = parse_uuid_loop n text (S (S i)) (2 + p) (<[k := b]> uuid).
Proof.
  intros H0 H1 -> Hh0 Hh1 Hk Hb. destruct (nibbles b Hb) as (N0 & N1 & Hlor).
  assert (D0 : (2 * k / 2 = k)%nat) by (rewrite Nat.mul_comm; by apply Nat.div_mul).
  assert (D1 : (S (2 * k) / 2 = k)%nat) by (symmetry; apply (Nat.div_unique _ _ k 1); lia).
  rewrite (parse_digit _ _ _ _ _ _ _ (<[k := u8 (Z.shiftl (Z.shiftr b 4) 4)]> uuid) H0 Hh0 (hex_nibble_digit _ N0)).
  2:{ rewrite (proj2 (Nat.even_spec _)) by (by exists k). rewrite D0. by apply wr_lt. }
  rewrite (parse_digit _ _ _ _ _ _ _ (<[k := b]> uuid) H1 Hh1 (hex_nibble_digit _ N1)).
  2:{ rewrite Nat.even_succ, <-Nat.negb_even, (proj2 (Nat.even_spec (2 * k))) by (by exists k). cbn [negb]. rewrite D1. unfold rd.
      rewrite list_lookup_insert_eq by done. cbn [mbind option_bind]. rewrite wr_lt by (by rewrite length_insert). rewrite Hlor. by rewrite list_insert_insert_eq. }
  done.
Qed.

Ltac parse_one k := eapply eq_trans; [eapply (parse_byte k); [reflexivity|reflexivity|reflexivity|reflexivity|reflexivity|cbn; lia|done]|cbn [Nat.add insert list_insert replicate]].
Ltac parse_dash := rewrite parse_hyphen by done.

(** The text of sixteen bytes is a canonical UUID that parses back to
    them, so the result of uuid5_rfc can be used as the namespace of another. *)
Theorem uuid_round_trip u : length u = 16%nat -> Forall (fun b => 0 <= b <= 255) u -> parse_uuid (Some (uuid_text 0 u)) = Some (Some u).
Proof.
  intros Hl Hu. do 17 (destruct u as [|? u]; [try discriminate Hl|]); [|discriminate Hl]. repeat (apply Forall_cons in Hu as [? Hu]).
  unfold parse_uuid. change (length _ =? 36)%nat with true. cbn [negb]. cbn [uuid_text Nat.eqb orb app].
  parse_one 0%nat. parse_one 1%nat. parse_one 2%nat. parse_one 3%nat. parse_dash. parse_one 4%nat. parse_one 5%nat. parse_dash.
  parse_one 6%nat. parse_one 7%nat. parse_dash. parse_one 8%nat. parse_one 9%nat. parse_dash.
  parse_one 10%nat. parse_one 11%nat. parse_one 12%nat. parse_one 13%nat. parse_one 14%nat. parse_one 15%nat. reflexivity.
Qed.

Lemma uuid_round_trip_witness : parse_uuid (Some (uuid_text 0 (seqZ 240 16))) = Some (Some (seqZ 240 16)).
Proof. apply (uuid_round_trip (seqZ 240 16)); [reflexivity|]. repeat constructor; lia. Defined.

End DigestProof.
