(* ===== verification/ExprGen.v ===== *)
(** * Expressions: from the IR to bytecode (src/wirelog/exec_plan_gen.c)

    The growable byte buffer, the column layout a variable is resolved
    against, the typing that selects opcodes, and the serialiser that walks an
    IR expression and emits postfix bytecode.  A NULL expression is a
    constructor of its own; which reallocations succeed is an input. *)

From S2P Require Import Prelude StringOps Floats Expr.

Module ExprGen.

Import StringOps Expr.

(** ** IR expressions *)

Inductive coltype := T_UNKNOWN | T_SCALAR | T_STRING | T_FLOAT.

#[export] Instance coltype_eq_dec : EqDecision coltype.
Proof. solve_decision. Defined.

(** wirelog_arith_op_t *)
Inductive ir_arith := IA_bin (op : arith_op) | IA_bnot | IA_digest (fn : digest_fn) | IA_hmac | IA_uuid4 | IA_uuid5.

(** wl_ir_expr_t; a float is its bits. *)
Inductive expr :=
| E_null
| E_var (name : option str)
| E_int (v : Z)
| E_float (bits : Z)
| E_str (s : option str)
| E_bool (b : bool)
| E_arith (op : ir_arith) (children : list expr)
| E_cmp (op : cmp_op) (children : list expr)
| E_agg (fn : agg_op) (children : list expr)
| E_str_fn (fn : str_fn) (children : list expr)
| E_extension (name : option str) (children : list expr).

Definition children_of (e : expr) : list expr :=
  match e with E_arith _ l | E_cmp _ l | E_agg _ l | E_str_fn _ l | E_extension _ l => l | _ => [] end.

(** ** The byte buffer *)

(** expr_buf_t: the bytes written so far ([size] of them) and the capacity. *)
Record expr_buf := Buf { data : list Z; capacity : Z }.

Definition size (b : expr_buf) : Z := Z.of_nat (length (data b)).

(** A call returns 0 with the buffer, or -1; the outer [None] is a write
    outside the allocation or a loop that does not end. *)
Definition ser : Type := option (option expr_buf).
Definition fail : ser := Some None.
Definition and_then (r : ser) (f : expr_buf -> ser) : ser :=
  match r with Some (Some b) => f b | _ => r end.

Definition expr_buf_init (malloc_ok : bool) : ser := if malloc_ok then Some (Some (Buf [] 64)) else fail.

(** while (cap < need) cap *= 2 *)
Fixpoint double_loop (fuel : nat) (cap need : Z) : option Z :=
  match fuel with
  | O => None
  | S fuel' => if cap <? need then double_loop fuel' (u32 (cap * 2)) need else Some cap
  end.

Section Buffer.

(** Whether a reallocation to so many bytes succeeds. *)
Variable realloc_ok : Z -> bool.

Definition expr_buf_ensure (b : expr_buf) (extra : Z) : ser :=
  let need := u32 (size b + extra) in
  if need <=? capacity b then Some (Some b)
  else cap ← double_loop 64 (capacity b) need; Some (if realloc_ok cap then Some (Buf (data b) cap) else None).

(** buf->data[buf->size++] = v *)
Definition store (b : expr_buf) (v : Z) : ser :=
  if size b <? capacity b then Some (Some (Buf (data b ++ [v]) (capacity b))) else None.

Fixpoint stores (b : expr_buf) (l : list Z) : ser :=
  match l with [] => Some (Some b) | v :: l' => and_then (store b v) (fun b => stores b l') end.

Definition expr_buf_push_u8 (b : expr_buf) (v : Z) : ser := and_then (expr_buf_ensure b 1) (fun b => store b (u8 v)).
Definition expr_buf_push_u16 (b : expr_buf) (v : Z) : ser :=
  and_then (expr_buf_ensure b 2) (fun b => stores b [Z.land v 0xFF; Z.land (Z.shiftr v 8) 0xFF]).

(** n bytes, the lowest first, shifting by eight *)
Fixpoint shifted (n : nat) (u : Z) : list Z := match n with O => [] | S n' => Z.land u 0xFF :: shifted n' (Z.shiftr u 8) end.

Definition expr_buf_push_u32 (b : expr_buf) (v : Z) : ser := and_then (expr_buf_ensure b 4) (fun b => stores b (shifted 4 v)).
Definition expr_buf_push_i64 (b : expr_buf) (v : Z) : ser := and_then (expr_buf_ensure b 8) (fun b => stores b (shifted 8 (u64 v))).
Definition expr_buf_push_f64 (b : expr_buf) (bits : Z) : ser := expr_buf_push_i64 b bits.
Definition expr_buf_push_bytes (b : expr_buf) (src : list Z) : ser :=
  and_then (expr_buf_ensure b (Z.of_nat (length src))) (fun b =>
    if size b + Z.of_nat (length src) <=? capacity b then Some (Some (Buf (data b ++ src) (capacity b))) else None).

(** ** The column layout *)

(** The pinned snapshot: the ABI identity and version of a name. *)
Record col_ctx := Cols {
  names : option (list (option str));
  types : option (list coltype);
  count : nat;
  snapshot : option (str -> option (Z * Z)) }.

Definition col_ctx_type_at (ctx : option col_ctx) (idx : nat) : option coltype :=
  match ctx with
  | None => Some T_UNKNOWN
  | Some c => match types c with
              | None => Some T_UNKNOWN
              | Some l => if (count c <=? idx)%nat then Some T_UNKNOWN else rd l idx
              end
  end.

(** The first column with this name, from [c] on, [n] columns left. *)
Fixpoint find_name (n : nat) (l : list (option str)) (name : str) (c : nat) : option (option nat) :=
  match n with
  | O => Some None
  | S n' => x ← rd l c; if bool_decide (x = Some name) then Some (Some c) else find_name n' l name (S c)
  end.

Definition lookup_name (c : col_ctx) (name : str) : option (option nat) :=
  match names c with None => Some None | Some l => find_name (count c) l name 0 end.

(** "col" and a number that ends the name: strtoul of the rest. *)
Definition positional (name : str) : option Z :=
  match name with
  | 99 :: 111 :: 108 :: rest =>
      let '(v, n) := scan_digits rest 0 0 in
      if (n =? 0)%nat || negb (n =? length rest)%nat then None else Some (Z.min v UINT64_MAX)
  | _ => None
  end.

Definition col_ctx_lookup_type (ctx : option col_ctx) (name : option str) : option coltype :=
  match ctx, name with
  | Some c, Some name =>
      found ← lookup_name c name;
      match found with
      | Some i => col_ctx_type_at ctx i
      | None =>
          match positional name with
          | Some idx => if idx <? Z.of_nat (count c) then col_ctx_type_at ctx (Z.to_nat (u32 idx)) else Some T_UNKNOWN
          | None => Some T_UNKNOWN
          end
      end
  | _, _ => Some T_UNKNOWN
  end.

(** ** Typing and opcode selection *)

Definition is_string (t : coltype) : bool := bool_decide (t = T_STRING).
Definition is_float (t : coltype) : bool := bool_decide (t = T_FLOAT).

Definition arith_op_is_digest (op : ir_arith) : bool :=
  match op with IA_digest _ | IA_hmac | IA_uuid5 => true | _ => false end.

Definition arith_digest_tag (op : ir_arith) (t0 t1 : coltype) : tag :=
  let s0 := is_string t0 in
  let s1 := is_string t1 in
  match op with
  | IA_digest fn => if s0 then DIGEST fn true else DIGEST fn false
  | IA_hmac =>
      if s0 && s1 then HMAC_SHA256 true true else if s0 then HMAC_SHA256 true false
      else if s1 then HMAC_SHA256 false true else HMAC_SHA256 false false
  | IA_uuid5 =>
      if s0 && s1 then UUID5 true true else if s0 then UUID5 true false
      else if s1 then UUID5 false true else UUID5 false false
  | _ => ARITH ADD
  end.

(** [None]: the tag 0, which the caller refuses. *)
Definition arith_to_tag (op : ir_arith) (t0 t1 : coltype) : option tag :=
  if arith_op_is_digest op then Some (arith_digest_tag op t0 t1)
  else if is_float t0 && is_float t1 then
    match op with
    | IA_bin ADD => Some (ARITH_FLOAT FADD)
    | IA_bin SUB => Some (ARITH_FLOAT FSUB)
    | IA_bin MUL => Some (ARITH_FLOAT FMUL)
    | IA_bin DIV => Some (ARITH_FLOAT FDIV)
    | _ => None
    end
  else
    Some (match op with
          | IA_bin op => ARITH op
          | IA_bnot => ARITH_BNOT
          | IA_digest fn => DIGEST fn false
          | IA_hmac => HMAC_SHA256 false false
          | IA_uuid4 => UUID4
          | IA_uuid5 => UUID5 false false
          end).

Definition str_fn_to_tag (fn : str_fn) : tag := STR_FN fn.

Definition cmp_to_tag (op : cmp_op) (lhs rhs : coltype) : tag :=
  match op with
  | EQ => CMP EQ
  | NEQ => CMP NEQ
  | _ => if is_string lhs && is_string rhs then CMP_STR op else CMP op
  end.

Definition agg_to_tag (fn : agg_op) : tag := AGG fn.

(** The float comparison of the serialiser. *)
Definition cmp_float_tag (op : cmp_op) : tag := CMP_FLOAT op.

Fixpoint expr_result_type (ctx : option col_ctx) (e : expr) : option coltype :=
  match e with
  | E_null => Some T_UNKNOWN
  | E_var name => col_ctx_lookup_type ctx name
  | E_str _ => Some T_STRING
  | E_int _ | E_bool _ | E_cmp _ _ | E_agg _ _ | E_extension _ _ => Some T_SCALAR
  | E_float _ => Some T_FLOAT
  | E_arith _ children =>
      (fix scan (l : list expr) (saw_float saw_nonfloat : bool) : option coltype :=
         match l with
         | [] => Some (if saw_float && negb saw_nonfloat then T_FLOAT else T_SCALAR)
         | x :: l' => t ← expr_result_type ctx x; scan l' (saw_float || is_float t) (saw_nonfloat || negb (is_float t))
         end) children false false
  | E_str_fn fn _ =>
      Some (match fn with
            | CAT | SUBSTR | TO_UPPER | TO_LOWER | STR_REPLACE | TRIM | TO_STRING | UUID5_RFC => T_STRING
            | _ => T_SCALAR
            end)
  end.

(** children[i], when there is one *)
Definition child_type (ctx : option col_ctx) (l : list expr) (i : nat) : option coltype :=
  match l !! i with Some e => expr_result_type ctx e | None => Some T_UNKNOWN end.

Fixpoint expr_contains_extension_call (e : expr) : bool :=
  match e with
  | E_extension _ _ => true
  | E_arith _ l | E_cmp _ l | E_agg _ l | E_str_fn _ l =>
      (fix any (l : list expr) : bool := match l with [] => false | x :: l' => expr_contains_extension_call x || any l' end) l
  | _ => false
  end.

Definition expr_is_direct_extension_call (e : expr) : bool :=
  match e with E_extension _ l => negb (existsb expr_contains_extension_call l) | _ => false end.

(** wl_plan_agg_operand_t has the same four domains. *)
Definition agg_operand_from_coltype (t : coltype) : coltype :=
  match t with T_SCALAR => T_SCALAR | T_FLOAT => T_FLOAT | T_STRING => T_STRING | T_UNKNOWN => T_UNKNOWN end.

(** ** The serialiser *)

Definition push_tag (b : expr_buf) (t : tag) : ser :=
  v ← byte_of_tag t; expr_buf_push_u8 b v.

(** snprintf(resolved, 32, "col%u", c) *)
Definition col_name (c : nat) : str := [99; 111; 108] ++ digits_loop 20 (Z.of_nat c) [].

(** A two-byte length and the bytes it counts; a longer string is cut. *)
Definition push_counted (b : expr_buf) (s : str) : ser :=
  let len := Z.of_nat (length s) mod 65536 in
  and_then (expr_buf_push_u16 b len) (fun b => expr_buf_push_bytes b (take (Z.to_nat len) s)).

Definition serialize_var (b : expr_buf) (ctx : option col_ctx) (name : option str) (extension_arg : bool) : ser :=
  match name with
  | None => fail
  | Some var_name =>
      found ← (match ctx with Some c => lookup_name c var_name | None => Some None end);
      let emit_name := match found with Some c => col_name c | None => var_name end in
      var_type ← col_ctx_lookup_type ctx name;
      let var_tag := if is_float var_type then VAR_FLOAT else if extension_arg && is_string var_type then VAR_STRING else VAR in
      and_then (push_tag b var_tag) (fun b => push_counted b emit_name)
  end.

(** The opcode of a call and its ABI pair; [None] inside: return -1 *)
Definition call_abi (ctx : option col_ctx) (name : str) : option (option (Z * Z)) :=
  match ctx with
  | Some c =>
      match snapshot c with
      | None => Some None
      | Some find =>
          match find name with
          | None => None
          | Some (identity, version) =>
              if negb (Bool.eqb (identity =? 0) (version =? 0)) then None
              else Some (if identity =? 0 then None else Some (identity, version))
          end
      end
  | None => Some None
  end.

Definition push_call (b : expr_buf) (ctx : option col_ctx) (name : str) (nargs : nat) : ser :=
  match call_abi ctx name with
  | None => fail
  | Some abi =>
      let tail := match abi with Some _ => true | None => false end in
      and_then (push_tag b (EXTENSION_CALL tail)) (fun b =>
      and_then (expr_buf_push_u16 b (Z.of_nat (length name))) (fun b =>
      and_then (expr_buf_push_bytes b name) (fun b =>
      and_then (expr_buf_push_u32 b (Z.of_nat nargs)) (fun b =>
      match abi with
      | None => Some (Some b)
      | Some (identity, version) => and_then (expr_buf_push_i64 b identity) (fun b => expr_buf_push_u32 b version)
      end))))
  end.

Fixpoint serialize_expr (b : expr_buf) (e : expr) (ctx : option col_ctx) (extension_arg : bool) : ser :=
  let fix children (b : expr_buf) (l : list expr) (ext : bool) : ser :=
    match l with [] => Some (Some b) | x :: l' => and_then (serialize_expr b x ctx ext) (fun b => children b l' ext) end in
  match e with
  | E_null => fail
  | E_var name => serialize_var b ctx name extension_arg
  | E_int v => and_then (push_tag b CONST_INT) (fun b => expr_buf_push_i64 b v)
  | E_float bits => and_then (push_tag b CONST_FLOAT) (fun b => expr_buf_push_f64 b bits)
  | E_str None => fail
  | E_str (Some s) => and_then (push_tag b CONST_STR) (fun b => push_counted b s)
  | E_bool v => and_then (push_tag b BOOL) (fun b => expr_buf_push_u8 b (if v then 1 else 0))
  | E_extension None _ => fail
  | E_extension (Some name) l =>
      if 65535 <? Z.of_nat (length name) then fail
      else and_then (children b l true) (fun b => push_call b ctx name (length l))
  | E_arith op l =>
      t0 ← child_type ctx l 0;
      t1 ← child_type ctx l 1;
      if negb (Bool.eqb (is_float t0) (is_float t1)) then fail
      else
        and_then (children b l false) (fun b =>
          match arith_to_tag op t0 t1 with None => fail | Some t => push_tag b t end)
  | E_cmp op l =>
      t0 ← child_type ctx l 0;
      t1 ← child_type ctx l 1;
      if negb (Bool.eqb (is_float t0) (is_float t1)) then fail
      else
        and_then (children b l false) (fun b =>
          if is_float t0 && is_float t1 then push_tag b (cmp_float_tag op) else push_tag b (cmp_to_tag op t0 t1))
  | E_agg fn l => and_then (children b l false) (fun b => push_tag b (agg_to_tag fn))
  | E_str_fn fn l => and_then (children b l false) (fun b => push_tag b (str_fn_to_tag fn))
  end.

(** The plan's buffer: empty for no expression. *)
Definition serialize_expr_to_buffer_ctx (malloc_ok : bool) (e : expr) (ctx : option col_ctx) : option (option (list Z)) :=
  match e with
  | E_null => Some (Some [])
  | _ =>
      match and_then (expr_buf_init malloc_ok) (fun b => serialize_expr b e ctx false) with
      | Some (Some b) => Some (Some (data b))
      | Some None => Some None
      | None => None
      end
  end.

End Buffer.

End ExprGen.
