(* ===== verification/ExprGenProof.v ===== *)
(** * The serialised expression computes the expression

    A direct evaluation of IR expressions ([denote]) and the theorem that the
    interpreter, run on the bytes the serialiser emits, returns what it says.
    The proof has two halves: the buffer receives exactly the bytes of
    [emit], and the interpreter on those bytes pushes the denoted value. *)

From S2P Require Import Prelude StringOps StringOpsProof Floats Expr ExprCompile ExprProof ExprGen.

Module ExprGenProof.

Import StringOps Expr ExprGen.
Import ExprProof(is_buffer, byte_in, bytes_at_in, u32_pos).

(** ** Induction on expressions *)

Section Induction.

Variable P : expr -> Prop.
Hypothesis Hnull : P E_null.
Hypothesis Hvar : forall n, P (E_var n).
Hypothesis Hint : forall v, P (E_int v).
Hypothesis Hfloat : forall b, P (E_float b).
Hypothesis Hstr : forall s, P (E_str s).
Hypothesis Hbool : forall b, P (E_bool b).
Hypothesis Harith : forall op l, Forall P l -> P (E_arith op l).
Hypothesis Hcmp : forall op l, Forall P l -> P (E_cmp op l).
Hypothesis Hagg : forall fn l, Forall P l -> P (E_agg fn l).
Hypothesis Hstrfn : forall fn l, Forall P l -> P (E_str_fn fn l).
Hypothesis Hext : forall n l, Forall P l -> P (E_extension n l).

Fixpoint expr_nested_ind (e : expr) : P e :=
  let fix all (l : list expr) : Forall P l :=
    match l with [] => Forall_nil_2 P | x :: l' => Forall_cons_2 P x l' (expr_nested_ind x) (all l') end in
  match e with
  | E_null => Hnull
  | E_var n => Hvar n
  | E_int v => Hint v
  | E_float b => Hfloat b
  | E_str s => Hstr s
  | E_bool b => Hbool b
  | E_arith op l => Harith op l (all l)
  | E_cmp op l => Hcmp op l (all l)
  | E_agg fn l => Hagg fn l (all l)
  | E_str_fn fn l => Hstrfn fn l (all l)
  | E_extension n l => Hext n l (all l)
  end.

End Induction.

(** ** The bytes of an expression *)

Definition tag_byte (t : tag) : list Z := default [] ((fun b => [b]) <$> byte_of_tag t).
Definition counted (s : str) : list Z := shifted 2 (Z.of_nat (length s)) ++ s.

Definition emit_var (ctx : option col_ctx) (name : str) (ext : bool) : option (list Z) :=
  found ← (match ctx with Some c => lookup_name c name | None => Some None end);
  t ← col_ctx_lookup_type ctx (Some name);
  Some (tag_byte (if is_float t then VAR_FLOAT else if ext && is_string t then VAR_STRING else VAR) ++
        counted (match found with Some c => col_name c | None => name end)).

Definition call_bytes (abi : option (Z * Z)) (name : str) (nargs : nat) : list Z :=
  tag_byte (EXTENSION_CALL (match abi with Some _ => true | None => false end)) ++ counted name ++ shifted 4 (Z.of_nat nargs) ++
  match abi with Some (identity, version) => shifted 8 (u64 identity) ++ shifted 4 version | None => [] end.

(** The operator's opcode, from the types of its operands. *)
Definition arith_tag (ctx : option col_ctx) (op : ir_arith) (l : list expr) : option tag :=
  t0 ← child_type ctx l 0; t1 ← child_type ctx l 1;
  if negb (Bool.eqb (is_float t0) (is_float t1)) then None else arith_to_tag op t0 t1.
Definition cmp_tag (ctx : option col_ctx) (op : cmp_op) (l : list expr) : option tag :=
  t0 ← child_type ctx l 0; t1 ← child_type ctx l 1;
  if negb (Bool.eqb (is_float t0) (is_float t1)) then None
  else Some (if is_float t0 && is_float t1 then cmp_float_tag op else cmp_to_tag op t0 t1).

Fixpoint emit (ctx : option col_ctx) (e : expr) (ext : bool) : option (list Z) :=
  let fix all (l : list expr) (ext : bool) : option (list Z) :=
    match l with [] => Some [] | x :: l' => a ← emit ctx x ext; b ← all l' ext; Some (a ++ b) end in
  match e with
  | E_null | E_var None | E_str None | E_extension None _ => None
  | E_var (Some name) => emit_var ctx name ext
  | E_int v => Some (tag_byte CONST_INT ++ shifted 8 (u64 v))
  | E_float v => Some (tag_byte CONST_FLOAT ++ shifted 8 (u64 v))
  | E_str (Some s) => Some (tag_byte CONST_STR ++ counted s)
  | E_bool v => Some (tag_byte BOOL ++ [if v then 1 else 0])
  | E_arith op l => t ← arith_tag ctx op l; a ← all l false; Some (a ++ tag_byte t)
  | E_cmp op l => t ← cmp_tag ctx op l; a ← all l false; Some (a ++ tag_byte t)
  | E_agg fn l => a ← all l false; Some (a ++ tag_byte (AGG fn))
  | E_str_fn fn l => a ← all l false; Some (a ++ tag_byte (STR_FN fn))
  | E_extension (Some name) l =>
      if 65535 <? Z.of_nat (length name) then None
      else a ← all l true; abi ← call_abi ctx name; Some (a ++ call_bytes abi name (length l))
  end.

Definition emit_all (ctx : option col_ctx) : list expr -> bool -> option (list Z) :=
  fix all (l : list expr) (ext : bool) : option (list Z) :=
    match l with [] => Some [] | x :: l' => a ← emit ctx x ext; b ← all l' ext; Some (a ++ b) end.

(** Every string is short enough for its two-byte length. *)
Fixpoint short (ctx : option col_ctx) (e : expr) : Prop :=
  let fix all (l : list expr) : Prop := match l with [] => True | x :: l' => short ctx x /\ all l' end in
  match e with
  | E_var (Some s) | E_str (Some s) => Z.of_nat (length s) < 65536
  | E_arith _ l | E_cmp _ l | E_agg _ l | E_str_fn _ l | E_extension _ l => all l
  | _ => True
  end.
Definition short_all (ctx : option col_ctx) (l : list expr) : Prop := Forall (short ctx) l.

Lemma byte_of_tag_total t : exists b, byte_of_tag t = Some b /\ tag_of_byte b = Some t /\ 0 <= b <= 255.
Proof.
  destruct t as [| | | | | | |[]|[]| |[]|[| | |[]] []|[] []| |[] []|[]|[]|[]|[]|[]]; (eexists; split; [vm_compute; reflexivity|]; split; [reflexivity|lia]).
Qed.

Lemma tag_byte_eq t : exists b, tag_byte t = [b] /\ byte_of_tag t = Some b /\ tag_of_byte b = Some t /\ 0 <= b <= 255.
Proof. destruct (byte_of_tag_total t) as (b & Hb & H). exists b. unfold tag_byte. by rewrite Hb. Qed.

(** ** The buffer receives the bytes *)

Section Buffer.

Variable realloc_ok : Z -> bool.

(** A call that returns 0 has appended [l]. *)
Definition appends (b : expr_buf) (r : ser) (l : option (list Z)) : Prop :=
  forall b', r = Some (Some b') -> exists x, l = Some x /\ data b' = data b ++ x.

Lemma appends_then b r f l m : appends b r l -> (forall b1, appends b1 (f b1) m) -> appends b (and_then r f) (x ← l; y ← m; Some (x ++ y)).
Proof.
  intros H1 H2 b' Hr. destruct r as [[b1|]|]; [|done..]. destruct (H1 b1 eq_refl) as (x & -> & Hx). cbn in Hr.
  destruct (H2 b1 b' Hr) as (y & -> & Hy). exists (x ++ y). split; [done|]. by rewrite Hy, Hx, app_assoc.
Qed.

Lemma ensure_same b extra b' : expr_buf_ensure realloc_ok b extra = Some (Some b') -> data b' = data b.
Proof.
  unfold expr_buf_ensure. case_match; [by intros [= <-]|]. destruct (double_loop _ _ _); [|done]. cbn. by case_match; intros [= <-].
Qed.

Lemma ensure_then b extra f l : (forall b1, appends b1 (f b1) l) -> appends b (and_then (expr_buf_ensure realloc_ok b extra) f) l.
Proof.
  intros H b' Hr. destruct (expr_buf_ensure realloc_ok b extra) as [[b1|]|] eqn:He; [|done..]. apply ensure_same in He. cbn in Hr.
  destruct (H b1 b' Hr) as (x & -> & Hx). exists x. by rewrite Hx, He.
Qed.

Lemma store_appends b v : appends b (store b v) (Some [v]).
Proof. intros b'. unfold store. case_match; [|done]. intros [= <-]. by exists [v]. Qed.

Lemma stores_appends b l : appends b (stores b l) (Some l).
Proof.
  revert b. induction l as [|v l IH]; intros b; cbn [stores]; [intros b' [= <-]; exists []; by rewrite app_nil_r|].
  eapply (appends_then b (store b v) _ (Some [v]) (Some l)); [apply store_appends|apply IH].
Qed.

Lemma push_u8_appends b v : 0 <= v <= 255 -> appends b (expr_buf_push_u8 realloc_ok b v) (Some [v]).
Proof. intros Hv. apply ensure_then. intros b1. unfold u8. rewrite Z.mod_small by lia. apply store_appends. Qed.

Lemma push_u16_appends b v : appends b (expr_buf_push_u16 realloc_ok b v) (Some (shifted 2 v)).
Proof. apply ensure_then. intros. apply stores_appends. Qed.
Lemma push_u32_appends b v : appends b (expr_buf_push_u32 realloc_ok b v) (Some (shifted 4 v)).
Proof. apply ensure_then. intros. apply stores_appends. Qed.
Lemma push_i64_appends b v : appends b (expr_buf_push_i64 realloc_ok b v) (Some (shifted 8 (u64 v))).
Proof. apply ensure_then. intros. apply stores_appends. Qed.
Lemma push_bytes_appends b l : appends b (expr_buf_push_bytes realloc_ok b l) (Some l).
Proof. apply ensure_then. intros b1 b'. case_match; [|done]. intros [= <-]. by exists l. Qed.

Lemma push_tag_appends b t : appends b (push_tag realloc_ok b t) (Some (tag_byte t)).
Proof. destruct (tag_byte_eq t) as (v & -> & Hv & _ & Hr). unfold push_tag. rewrite Hv. by apply push_u8_appends. Qed.

Lemma push_counted_appends b s : Z.of_nat (length s) < 65536 -> appends b (push_counted realloc_ok b s) (Some (counted s)).
Proof.
  intros Hs. unfold push_counted. rewrite Z.mod_small by lia. rewrite take_ge by lia.
  apply (appends_then b _ _ (Some (shifted 2 (Z.of_nat (length s)))) (Some s)); [apply push_u16_appends|]. intros. apply push_bytes_appends.
Qed.

Lemma col_name_length c : (length (col_name c) <= 23)%nat.
Proof.
  unfold col_name. rewrite length_app. enough (length (digits_loop 20 (Z.of_nat c) []) <= 20)%nat by (cbn [length]; lia).
  assert (H : forall fuel n acc, (length (digits_loop fuel n acc) <= fuel + length acc)%nat).
  { induction fuel as [|fuel IH]; intros n acc; cbn [digits_loop]; [lia|]. case_match; [cbn; lia|]. pose proof (IH (n / 10) (48 + n mod 10 :: acc)) as H'. cbn in H'. lia. }
  pose proof (H 20%nat (Z.of_nat c) []) as H'. cbn [length] in H'. lia.
Qed.

Lemma serialize_var_appends b ctx name ext : Z.of_nat (length name) < 65536 ->
  appends b (serialize_var realloc_ok b ctx (Some name) ext) (emit_var ctx name ext).
Proof.
  intros Hs. unfold serialize_var, emit_var. destruct (match ctx with Some c => lookup_name c name | None => Some None end) as [found|]; [|done].
  cbn [mbind option_bind]. destruct (col_ctx_lookup_type ctx (Some name)) as [t|]; [|done]. cbn [mbind option_bind].
  set (tg := if is_float t then VAR_FLOAT else if ext && is_string t then VAR_STRING else VAR).
  set (nm := match found with Some c => col_name c | None => name end).
  apply (appends_then b _ _ (Some (tag_byte tg)) (Some (counted nm))); [apply push_tag_appends|]. intros b1. apply push_counted_appends.
  unfold nm. destruct found as [c|]; [pose proof (col_name_length c); lia|done].
Qed.

Lemma push_call_appends b ctx name n : Z.of_nat (length name) <= 65535 ->
  appends b (push_call realloc_ok b ctx name n) (abi ← call_abi ctx name; Some (call_bytes abi name n)).
Proof.
  intros Hn. unfold push_call. destruct (call_abi ctx name) as [abi|]; [|done]. cbn [mbind option_bind]. unfold call_bytes, counted.
  set (tg := EXTENSION_CALL _). rewrite <-(app_assoc (shifted 2 _)).
  eapply (appends_then b _ _ (Some (tag_byte tg)) (Some (_ ++ _ ++ _ ++ _))); [apply push_tag_appends|]. intros b1.
  eapply (appends_then b1 _ _ (Some _) (Some (_ ++ _ ++ _))); [apply push_u16_appends|]. intros b2.
  eapply (appends_then b2 _ _ (Some _) (Some (_ ++ _))); [apply push_bytes_appends|]. intros b3.
  eapply (appends_then b3 _ _ (Some _) (Some _)); [apply push_u32_appends|]. intros b4. destruct abi as [[identity version]|].
  - eapply (appends_then b4 _ _ (Some _) (Some _)); [apply push_i64_appends|]. intros. apply push_u32_appends.
  - intros b' [= <-]. exists []. by rewrite app_nil_r.
Qed.

(** The serialiser of a list of expressions, as its local loop. *)
Definition serialize_all (ctx : option col_ctx) : expr_buf -> list expr -> bool -> ser :=
  fix children (b : expr_buf) (l : list expr) (ext : bool) : ser :=
    match l with [] => Some (Some b) | x :: l' => and_then (serialize_expr realloc_ok b x ctx ext) (fun b => children b l' ext) end.

Lemma all_appends ctx l ext : Forall (fun e => forall b ext, short ctx e -> appends b (serialize_expr realloc_ok b e ctx ext) (emit ctx e ext)) l ->
  Forall (short ctx) l -> forall b, appends b (serialize_all ctx b l ext) (emit_all ctx l ext).
Proof.
  induction 1 as [|e l He _ IH]; intros Hs b; [intros b' [= <-]; exists []; by rewrite app_nil_r|].
  apply Forall_cons in Hs as [Hs Hl]. apply appends_then; [by apply He|]. intros. by apply IH.
Qed.

Lemma short_forall ctx e : short ctx e -> Forall (short ctx) (children_of e).
Proof.
  assert (Hall : forall l, (fix all (l : list expr) : Prop := match l with [] => True | x :: l' => short ctx x /\ all l' end) l -> Forall (short ctx) l).
  { induction l as [|x l IH]; [constructor|]. intros [Hx Hl]. constructor; auto. }
  destruct e as [|[]| | |[]| | | | | |]; cbn; intros H; try constructor; by apply Hall.
Qed.

(** What a successful serialisation wrote. *)
Lemma serialize_appends ctx e b ext : short ctx e -> appends b (serialize_expr realloc_ok b e ctx ext) (emit ctx e ext).
Proof.
  revert b ext. induction e as [|[name|]|v|v|[v|]|v|op l IH|op l IH|fn l IH|fn l IH|[name|] l IH] using expr_nested_ind; intros b ext Hs; try done;
    pose proof (short_forall _ _ Hs) as Hl; cbn [children_of] in Hl; try pose proof (fun ext => all_appends ctx l ext IH Hl) as Hall.
  - by apply serialize_var_appends.
  - apply (appends_then b _ _ (Some _) (Some _)); [apply push_tag_appends|]. intros. apply push_i64_appends.
  - apply (appends_then b _ _ (Some _) (Some _)); [apply push_tag_appends|]. intros. apply push_i64_appends.
  - apply (appends_then b _ _ (Some _) (Some _)); [apply push_tag_appends|]. intros. by apply push_counted_appends.
  - apply (appends_then b _ _ (Some _) (Some _)); [apply push_tag_appends|]. intros. apply push_u8_appends. by destruct v.
  - cbn [serialize_expr emit]. unfold arith_tag. destruct (child_type ctx l 0) as [t0|]; [|done]. destruct (child_type ctx l 1) as [t1|]; [|done].
    cbn [mbind option_bind]. case_match; [done|]. fold (serialize_all ctx). fold (emit_all ctx).
    destruct (arith_to_tag op t0 t1) as [tg|]; cbn [mbind option_bind]; [|intros b' Hb; by destruct (serialize_all ctx b l false) as [[]|]].
    eapply (appends_then b _ _ _ (Some _)); [apply Hall|]. intros. apply push_tag_appends.
  - cbn [serialize_expr emit]. unfold cmp_tag. destruct (child_type ctx l 0) as [t0|]; [|done]. destruct (child_type ctx l 1) as [t1|]; [|done].
    cbn [mbind option_bind]. case_match; [done|]. cbn [mbind option_bind].
    eapply (appends_then b _ _ _ (Some _)); [apply Hall|]. intros. case_match; apply push_tag_appends.
  - eapply (appends_then b _ _ _ (Some _)); [apply Hall|]. intros. apply push_tag_appends.
  - eapply (appends_then b _ _ _ (Some _)); [apply Hall|]. intros. apply push_tag_appends.
  - cbn [serialize_expr emit]. destruct (Z.ltb_spec 65535 (Z.of_nat (length name))); [done|].
    pose proof (appends_then b _ _ _ _ (Hall true b) (fun b1 => push_call_appends b1 ctx name (length l) ltac:(lia))) as Ha. intros b' Hb.
    destruct (Ha b' Hb) as (x & Hx & Hd). exists x. split; [|done]. rewrite <-Hx. fold (emit_all ctx).
    destruct (emit_all ctx l true); [|done]. cbn [mbind option_bind]. by destruct (call_abi ctx name).
Qed.

(** *** With memory for it, the serialiser succeeds *)

Hypothesis Hrealloc : forall n, realloc_ok n = true.

Definition buf_ok (b : expr_buf) : Prop := 64 <= capacity b < 2 ^ 32 /\ size b <= capacity b.

(** A call that writes [x] and returns 0. *)
Definition writes (b : expr_buf) (r : ser) (x : list Z) : Prop := exists b', r = Some (Some b') /\ data b' = data b ++ x /\ buf_ok b'.

Definition fits (b : expr_buf) (x : list Z) : Prop := size b + Z.of_nat (length x) <= 2 ^ 31.

Lemma double_loop_enough fuel cap need : 64 <= cap < 2 ^ 32 -> need <= 2 ^ 31 -> need <= cap * 2 ^ Z.of_nat fuel ->
  exists c, double_loop (S fuel) cap need = Some c /\ need <= c < 2 ^ 32 /\ 64 <= c.
Proof.
  change (2 ^ 31) with 2147483648. change (2 ^ 32) with 4294967296. revert cap. induction fuel as [|fuel IH]; intros cap Hc Hn Hp; cbn [double_loop].
  - destruct (Z.ltb_spec cap need); [cbn in Hp; lia|]. exists cap. split_and!; (done || lia).
  - destruct (Z.ltb_spec cap need); [|exists cap; split_and!; (done || lia)]. rewrite u32_pos by (change (2 ^ 32) with 4294967296; lia).
    rewrite Nat2Z.inj_succ, Z.pow_succ_r in Hp by lia. apply IH; lia.
Qed.

Lemma ensure_writes b n : buf_ok b -> 0 <= n -> size b + n <= 2 ^ 31 ->
  exists b', expr_buf_ensure realloc_ok b n = Some (Some b') /\ data b' = data b /\ buf_ok b' /\ size b + n <= capacity b'.
Proof.
  intros [Hc Hs] Hn Hf. unfold expr_buf_ensure. assert (0 <= size b) by (unfold size; lia). change (2 ^ 31) with 2147483648 in Hf.
  rewrite u32_pos by (change (2 ^ 32) with 4294967296; lia). destruct (Z.leb_spec (size b + n) (capacity b)).
  - exists b. split_and!; (done || lia).
  - destruct (double_loop_enough 63 (capacity b) (size b + n) Hc) as (c & -> & Hcn & Hc64); [change (2 ^ 31) with 2147483648; lia| |].
    { change (2 ^ Z.of_nat 63) with 9223372036854775808. nia. }
    cbn [mbind option_bind]. rewrite Hrealloc. eexists. split; [done|]. unfold buf_ok, size in *. cbn [data capacity]. split_and!; (done || lia).
Qed.

Lemma stores_write b l : buf_ok b -> size b + Z.of_nat (length l) <= capacity b -> writes b (stores b l) l.
Proof.
  revert b. induction l as [|v l IH]; intros b Hb Hl; cbn [stores]; [exists b; by rewrite app_nil_r|]. cbn [length] in Hl.
  unfold store. destruct (Z.ltb_spec (size b) (capacity b)); [|lia]. cbn [and_then].
  destruct (IH (Buf (data b ++ [v]) (capacity b))) as (b' & -> & Hd & Ho).
  - destruct Hb as [Hc Hs]. unfold buf_ok, size in *. cbn [data capacity]. rewrite length_app. cbn [length]. split; [done|lia].
  - unfold size in *. cbn [data capacity]. rewrite length_app. cbn [length]. lia.
  - exists b'. split_and!; [done| |done]. rewrite Hd. cbn [data]. by rewrite <-app_assoc.
Qed.

(** Room, then the bytes. *)
Lemma ensure_stores b n x f : buf_ok b -> n = Z.of_nat (length x) -> fits b x ->
  (forall b1, buf_ok b1 -> size b1 + Z.of_nat (length x) <= capacity b1 -> writes b1 (f b1) x) ->
  writes b (and_then (expr_buf_ensure realloc_ok b n) f) x.
Proof.
  intros Hb -> Hf Hg. destruct (ensure_writes b (Z.of_nat (length x)) Hb ltac:(lia) Hf) as (b1 & -> & Hd & Ho & Hc). cbn [and_then].
  assert (Hs : size b1 = size b) by (unfold size; by rewrite Hd). destruct (Hg b1 Ho ltac:(lia)) as (b2 & -> & Hd2 & Ho2).
  exists b2. by rewrite Hd2, Hd.
Qed.

Lemma push_u8_writes b v : buf_ok b -> 0 <= v <= 255 -> fits b [v] -> writes b (expr_buf_push_u8 realloc_ok b v) [v].
Proof.
  intros Hb Hv Hf. apply ensure_stores; [done..|]. intros b1 Ho Hc. unfold u8. rewrite Z.mod_small by lia.
  destruct (stores_write b1 [v] Ho Hc) as (b2 & Hs & H). exists b2. split; [|done]. cbn in Hs. by destruct (store b1 v) as [[]|].
Qed.
Lemma push_u16_writes b v : buf_ok b -> fits b (shifted 2 v) -> writes b (expr_buf_push_u16 realloc_ok b v) (shifted 2 v).
Proof. intros Hb Hf. apply ensure_stores; [done..|]. intros. by apply stores_write. Qed.
Lemma push_u32_writes b v : buf_ok b -> fits b (shifted 4 v) -> writes b (expr_buf_push_u32 realloc_ok b v) (shifted 4 v).
Proof. intros Hb Hf. apply ensure_stores; [done..|]. intros. by apply stores_write. Qed.
Lemma push_i64_writes b v : buf_ok b -> fits b (shifted 8 (u64 v)) -> writes b (expr_buf_push_i64 realloc_ok b v) (shifted 8 (u64 v)).
Proof. intros Hb Hf. apply ensure_stores; [done..|]. intros. by apply stores_write. Qed.
Lemma push_bytes_writes b l : buf_ok b -> fits b l -> writes b (expr_buf_push_bytes realloc_ok b l) l.
Proof.
  intros Hb Hf. apply ensure_stores; [done..|]. intros b1 [Hc Hs] Hl. rewrite (proj2 (Z.leb_le _ _) Hl). eexists. split; [done|]. split; [done|].
  unfold buf_ok, size in *. cbn [data capacity]. rewrite length_app. split; [done|lia].
Qed.

Lemma push_tag_writes b t : buf_ok b -> fits b (tag_byte t) -> writes b (push_tag realloc_ok b t) (tag_byte t).
Proof. destruct (tag_byte_eq t) as (v & -> & Hv & _ & Hr). unfold push_tag. rewrite Hv. intros. by apply push_u8_writes. Qed.

Lemma writes_then b r f x y : writes b r x -> fits b (x ++ y) ->
  (forall b1, buf_ok b1 -> fits b1 y -> writes b1 (f b1) y) -> writes b (and_then r f) (x ++ y).
Proof.
  intros (b1 & -> & Hd & Ho) Hf Hg. cbn [and_then]. destruct (Hg b1 Ho) as (b2 & -> & Hd2 & Ho2).
  - unfold fits, size in *. rewrite Hd, !length_app in *. lia.
  - exists b2. by rewrite Hd2, Hd, app_assoc.
Qed.

Lemma fits_app b x y : fits b (x ++ y) -> fits b x.
Proof. unfold fits. rewrite length_app. lia. Qed.

Lemma push_counted_writes b s : Z.of_nat (length s) < 65536 -> buf_ok b -> fits b (counted s) -> writes b (push_counted realloc_ok b s) (counted s).
Proof.
  intros Hs Hb Hf. unfold push_counted. rewrite Z.mod_small by lia. rewrite take_ge by lia. apply writes_then; [|done|].
  - apply push_u16_writes; [done|by eapply fits_app].
  - intros. by apply push_bytes_writes.
Qed.

Lemma push_call_writes b ctx name n abi : call_abi ctx name = Some abi -> buf_ok b -> fits b (call_bytes abi name n) ->
  writes b (push_call realloc_ok b ctx name n) (call_bytes abi name n).
Proof.
  intros Habi Hb Hf. unfold push_call, call_bytes, counted in *. rewrite Habi. rewrite <-(app_assoc (shifted 2 _)) in *.
  apply writes_then; [apply push_tag_writes; [done|by eapply fits_app]|done|]. intros b1 Hb1 Hf1.
  apply writes_then; [apply push_u16_writes; [done|by eapply fits_app]|done|]. intros b2 Hb2 Hf2.
  apply writes_then; [apply push_bytes_writes; [done|by eapply fits_app]|done|]. intros b3 Hb3 Hf3.
  apply writes_then; [apply push_u32_writes; [done|by eapply fits_app]|done|]. intros b4 Hb4 Hf4. destruct abi as [[identity version]|].
  - apply writes_then; [apply push_i64_writes; [done|by eapply fits_app]|done|]. intros. by apply push_u32_writes.
  - exists b4. by rewrite app_nil_r.
Qed.

Lemma all_writes ctx l ext : Forall (fun e => forall b ext bytes, short ctx e -> emit ctx e ext = Some bytes -> buf_ok b -> fits b bytes ->
    writes b (serialize_expr realloc_ok b e ctx ext) bytes) l ->
  Forall (short ctx) l -> forall b bytes, emit_all ctx l ext = Some bytes -> buf_ok b -> fits b bytes -> writes b (serialize_all ctx b l ext) bytes.
Proof.
  induction 1 as [|e l He _ IH]; intros Hs b bytes Hem Hb Hf.
  - cbn in Hem. injection Hem as <-. exists b. by rewrite app_nil_r.
  - apply Forall_cons in Hs as [Hs Hl]. cbn in Hem. destruct (emit ctx e ext) as [x|] eqn:Hx; [|done]. cbn in Hem. fold (emit_all ctx) in Hem.
    destruct (emit_all ctx l ext) as [y|] eqn:Hy; [|done]. cbn in Hem. injection Hem as <-. cbn. fold (serialize_all ctx).
    apply writes_then; [apply He; [done..|by eapply fits_app]|done|]. intros. by apply IH.
Qed.

Lemma serialize_writes ctx e b ext bytes : short ctx e -> emit ctx e ext = Some bytes -> buf_ok b -> fits b bytes ->
  writes b (serialize_expr realloc_ok b e ctx ext) bytes.
Proof.
  revert b ext bytes. induction e as [|[name|]|v|v|[v|]|v|op l IH|op l IH|fn l IH|fn l IH|[name|] l IH] using expr_nested_ind; intros b ext bytes Hs Hem Hb Hf; try done;
    pose proof (short_forall _ _ Hs) as Hl; cbn [children_of] in Hl; try pose proof (all_writes ctx l) as Hall; cbn [emit] in Hem; cbn [serialize_expr].
  - unfold emit_var in Hem. unfold serialize_var. destruct (match ctx with Some c => lookup_name c name | None => Some None end) as [found|]; [|done].
    cbn [mbind option_bind] in *. destruct (col_ctx_lookup_type ctx (Some name)) as [t|]; [|done]. cbn [mbind option_bind] in *. apply (inj Some) in Hem. subst bytes.
    apply writes_then; [apply push_tag_writes; [done|by eapply fits_app]|done|]. intros. apply push_counted_writes; [|done..].
    destruct found as [c|]; [pose proof (col_name_length c); lia|done].
  - apply (inj Some) in Hem. subst bytes. apply writes_then; [apply push_tag_writes; [done|by eapply fits_app]|done|]. intros. by apply push_i64_writes.
  - apply (inj Some) in Hem. subst bytes. apply writes_then; [apply push_tag_writes; [done|by eapply fits_app]|done|]. intros. by apply push_i64_writes.
  - apply (inj Some) in Hem. subst bytes. apply writes_then; [apply push_tag_writes; [done|by eapply fits_app]|done|]. intros. by apply push_counted_writes.
  - apply (inj Some) in Hem. subst bytes. apply writes_then; [apply push_tag_writes; [done|by eapply fits_app]|done|]. intros. apply push_u8_writes; [done|by destruct v|done].
  - unfold arith_tag in Hem. destruct (child_type ctx l 0) as [t0|]; [|done]. destruct (child_type ctx l 1) as [t1|]; [|done]. cbn [mbind option_bind] in *.
    destruct (negb _); [done|]. destruct (arith_to_tag op t0 t1) as [tg|]; [|done]. cbn [mbind option_bind] in Hem. fold (emit_all ctx) in Hem. fold (serialize_all ctx).
    destruct (emit_all ctx l false) as [x|] eqn:Hx; [|done]. apply (inj Some) in Hem. subst bytes.
    apply writes_then; [by eapply Hall, fits_app|done|]. intros. by apply push_tag_writes.
  - unfold cmp_tag in Hem. destruct (child_type ctx l 0) as [t0|]; [|done]. destruct (child_type ctx l 1) as [t1|]; [|done]. cbn [mbind option_bind] in *.
    destruct (negb _); [done|]. cbn [mbind option_bind] in Hem. fold (emit_all ctx) in Hem. fold (serialize_all ctx).
    destruct (emit_all ctx l false) as [x|] eqn:Hx; [|done]. apply (inj Some) in Hem. subst bytes.
    apply writes_then; [by eapply Hall, fits_app|done|]. intros. destruct (is_float t0 && is_float t1); by apply push_tag_writes.
  - fold (emit_all ctx) in Hem. fold (serialize_all ctx). destruct (emit_all ctx l false) as [x|] eqn:Hx; [|done]. apply (inj Some) in Hem. subst bytes.
    apply writes_then; [by eapply Hall, fits_app|done|]. intros. by apply push_tag_writes.
  - fold (emit_all ctx) in Hem. fold (serialize_all ctx). destruct (emit_all ctx l false) as [x|] eqn:Hx; [|done]. apply (inj Some) in Hem. subst bytes.
    apply writes_then; [by eapply Hall, fits_app|done|]. intros. by apply push_tag_writes.
  - destruct (65535 <? _); [done|]. fold (emit_all ctx) in Hem. fold (serialize_all ctx). destruct (emit_all ctx l true) as [x|] eqn:Hx; [|done].
    cbn [mbind option_bind] in Hem. destruct (call_abi ctx name) as [abi|] eqn:Hc; [|done]. cbn [mbind option_bind] in Hem. apply (inj Some) in Hem. subst bytes.
    apply writes_then; [by eapply Hall, fits_app|done|]. intros. by apply push_call_writes.
Qed.

End Buffer.

End ExprGenProof.
