(* ===== verification/ExprSpec.v ===== *)
(** * What an expression means, and that its bytecode computes it

    [denote] evaluates an IR expression directly, operand by operand from the
    left; the interpreter of Expr.v run on the serialised bytes returns the
    same status, value and effects. *)

From S2P Require Import Prelude StringOps StringOpsProof Floats Expr ExprCompile ExprProof ExprGen ExprGenProof.

Module ExprSpec.

Import StringOps Expr ExprGen ExprGenProof.
Import ExprProof(is_buffer, byte_in, bytes_at_in, u32_pos).

Section Denote.

Context {W : Type} `{!Host W}.
Variables (ectx : context (W := W)) (sessions : list Z) (ctx : option col_ctx) (row : list Z).

(** A typed value or an error status, and the world after it. *)
Definition res : Type := option (W * (item + Z)).
Definition value (w : W) (v : Z) : res := Some (w, inl (It v VALUE_INT64 None)).
Definition error (w : W) : res := Some (w, inr MALFORMED).
Definition value_or_error (w : W) (v : option Z) : res := match v with Some v => value w v | None => error w end.

(** An operator of Expr.v applied to its operands alone. *)
Definition on_stack (r : stepped (W := W)) : res :=
  match r with
  | Some (w, inl [x]) => Some (w, inl x)
  | Some (w, inl _) => None
  | Some (w, inr st) => Some (w, inr st)
  | None => None
  end.

(** Column [c] of the row, read as its declared type. *)
Definition denote_var (c : nat) (t : coltype) (ext : bool) (w : W) : res :=
  if is_float t then
    match row !! c with
    | Some v => match Floats.expr_float_load v with Some _ => value w v | None => error w end
    | None => error w
    end
  else if ext && is_string t then
    match row !! c with
    | Some id =>
        if intern ectx then
          s ← reverse w id;
          match s with Some s => Some (w, inl (It id VALUE_STRING (Some (take (Z.to_nat (u32 (Z.of_nat (length s)))) s)))) | None => error w end
        else error w
    | None => error w
    end
  else value w (default 0 (row !! c)).

(** A string constant: interned when there is a table. *)
Definition denote_str (s : str) (w : W) : res :=
  if intern ectx then
    match malloc w (S (length s)) with
    | (w, None) => Some (w, inr ALLOCATION_FAILURE)
    | (w, Some _) => '(w, id) ← put w s; Some (w, inl (It id VALUE_STRING (Some s)))
    end
  else Some (w, inl (It 0 VALUE_STRING (Some s))).

(** Arithmetic on floats when both operands are floats, else on integers;
    digests read strings where the operand is one. *)
Definition denote_arith (op : ir_arith) (t0 t1 : coltype) (args : list item) (w : W) : res :=
  match op, args with
  | IA_bin op, [a; b] =>
      if is_float t0 && is_float t1 then
        match op with
        | ADD => value_or_error w (run_float FADD (val a) (val b))
        | SUB => value_or_error w (run_float FSUB (val a) (val b))
        | MUL => value_or_error w (run_float FMUL (val a) (val b))
        | DIV => value_or_error w (run_float FDIV (val a) (val b))
        | _ => None
        end
      else v ← run_arith op (val a) (val b); value_or_error w v
  | IA_bnot, [a] => value w (Z.lnot (val a))
  | IA_digest fn, [a] => on_stack (run_digest ectx w fn (is_string t0) [a])
  | IA_hmac, [a; b] => on_stack (run_hmac ectx w (is_string t0) (is_string t1) [b; a])
  | IA_uuid4, [] => on_stack (run_uuid4 w [])
  | IA_uuid5, [a; b] => on_stack (run_uuid5 ectx w (is_string t0) (is_string t1) [b; a])
  | _, _ => None
  end.

(** Floats compare as floats, two strings are ordered as strings, the rest as
    integers; equality is always by lane unless both are floats. *)
Definition denote_cmp (op : cmp_op) (t0 t1 : coltype) (args : list item) (w : W) : res :=
  match args with
  | [a; b] =>
      if is_float t0 && is_float t1 then value_or_error w (run_cmp_float op (val a) (val b))
      else if is_string t0 && is_string t1 && negb (bool_decide (op = EQ)) && negb (bool_decide (op = NEQ)) then
        v ← run_cmp_str ectx w op (val a) (val b); value w v
      else value w (run_cmp op (val a) (val b))
  | _ => None
  end.

(** An aggregate is its operand; the row evaluator refuses an average. *)
Definition denote_agg (fn : agg_op) (args : list item) (w : W) : res :=
  match args with [a] => if bool_decide (fn = AVG) then error w else Some (w, inl a) | _ => None end.

Definition str_arity (fn : str_fn) : nat :=
  match fn with
  | STRLEN | STR_ORD | TO_UPPER | TO_LOWER | TRIM | TO_STRING | TO_NUMBER => 1%nat
  | CAT | CONTAINS | STR_PREFIX | STR_SUFFIX | UUID5_RFC => 2%nat
  | SUBSTR | STR_REPLACE => 3%nat
  end.

Definition denote_str_fn (fn : str_fn) (args : list item) (w : W) : res :=
  if (length args =? str_arity fn)%nat then on_stack (run_str_fn ectx w fn (rev args)) else None.

Definition denote_call (name : str) (args : list item) (w : W) : res :=
  abi ← call_abi ctx name;
  on_stack (match abi with
            | Some (identity, version) => run_call ectx sessions w true (Site name (Z.of_nat (length args)) identity version) (rev args)
            | None => run_call ectx sessions w false (Site name (Z.of_nat (length args)) 0 0) (rev args)
            end).

(** The operands first, from the left; the first error ends it. *)
Fixpoint denote (e : expr) (ext : bool) (w : W) : res :=
  let fix all (l : list expr) (ext : bool) (w : W) : option (W * (list item + Z)) :=
    match l with
    | [] => Some (w, inl [])
    | x :: l' =>
        '(w, r) ← denote x ext w;
        match r with
        | inr st => Some (w, inr st)
        | inl v => '(w, r) ← all l' ext w; Some (w, match r with inl vs => inl (v :: vs) | inr st => inr st end)
        end
    end in
  let apply (l : list expr) (ext : bool) (f : list item -> W -> res) : res :=
    '(w, r) ← all l ext w; match r with inl args => f args w | inr st => Some (w, inr st) end in
  match e with
  | E_null | E_var None | E_str None | E_extension None _ => None
  | E_var (Some name) =>
      found ← (match ctx with Some c => lookup_name c name | None => Some None end);
      c ← found; t ← col_ctx_lookup_type ctx (Some name); denote_var c t ext w
  | E_int v => value w v
  | E_float v => match Floats.expr_float_load v with Some _ => value w v | None => error w end
  | E_str (Some s) => denote_str s w
  | E_bool b => Some (w, inl (It (Z.b2z b) VALUE_BOOL None))
  | E_arith op l => t0 ← child_type ctx l 0; t1 ← child_type ctx l 1; apply l false (denote_arith op t0 t1)
  | E_cmp op l => t0 ← child_type ctx l 0; t1 ← child_type ctx l 1; apply l false (denote_cmp op t0 t1)
  | E_agg fn l => apply l false (denote_agg fn)
  | E_str_fn fn l => apply l false (denote_str_fn fn)
  | E_extension (Some name) l => apply l true (denote_call name)
  end.

Definition denote_all : list expr -> bool -> W -> option (W * (list item + Z)) :=
  fix all (l : list expr) (ext : bool) (w : W) : option (W * (list item + Z)) :=
    match l with
    | [] => Some (w, inl [])
    | x :: l' =>
        '(w, r) ← denote x ext w;
        match r with
        | inr st => Some (w, inr st)
        | inl v => '(w, r) ← all l' ext w; Some (w, match r with inl vs => inl (v :: vs) | inr st => inr st end)
        end
    end.

Lemma denote_all_length l ext w w' vs : denote_all l ext w = Some (w', inl vs) -> length vs = length l.
Proof.
  revert w vs. induction l as [|e l IH]; intros w vs; cbn; [by intros [= _ <-]|]. destruct (denote e ext w) as [[w1 [x|st]]|]; cbn; [|done..].
  fold denote_all. destruct (denote_all l ext w1) as [[w2 [xs|st]]|] eqn:Hd; cbn; [|done..]. intros [= <- <-]. cbn. f_equal. by eapply IH.
Qed.

(** ** Well-formed expressions *)

Definition is_text (s : str) : bool := forallb (fun b => (1 <=? b) && (b <=? 255)) s.

Definition arith_arity (op : ir_arith) : nat := (match op with IA_bin _ | IA_hmac | IA_uuid5 => 2 | IA_bnot | IA_digest _ => 1 | IA_uuid4 => 0 end)%nat.

Definition wf_call (name : str) : bool :=
  (1 <=? Z.of_nat (length name)) && (Z.of_nat (length name) <? 256) && is_text name &&
  match call_abi ctx name with
  | Some (Some (identity, version)) => (0 <=? identity) && (identity <=? UINT64_MAX) && (0 <=? version) && (version <=? UINT32_MAX)
  | _ => true
  end.

(** Variables resolve, constants fit their encodings, operators have their
    operands. *)
Fixpoint wf (e : expr) : bool :=
  let fix all (l : list expr) : bool := match l with [] => true | x :: l' => wf x && all l' end in
  match e with
  | E_null | E_var None | E_str None | E_extension None _ => false
  | E_var (Some name) =>
      match ctx with
      | Some c => match lookup_name c name with Some (Some i) => Z.of_nat i <? 2 ^ 32 | _ => false end
      | None => false
      end && (Z.of_nat (length name) <? 65536)
  | E_int v | E_float v => bool_decide (is_int64 v)
  | E_str (Some s) => is_text s && (Z.of_nat (length s) <? 65536)
  | E_bool _ => true
  | E_arith op l => (length l =? arith_arity op)%nat && all l
  | E_cmp _ l => (length l =? 2)%nat && all l
  | E_agg _ l => (length l =? 1)%nat && all l
  | E_str_fn fn l => (length l =? str_arity fn)%nat && all l
  | E_extension (Some name) l => wf_call name && (length l <=? 64)%nat && all l
  end.

(** The stack an expression needs: its operands pile up from the left. *)
Fixpoint need (e : expr) : nat :=
  let fix pile (l : list expr) (k : nat) : nat := match l with [] => 1%nat | x :: l' => Nat.max (k + need x) (pile l' (S k)) end in
  match e with
  | E_arith _ l | E_cmp _ l | E_agg _ l | E_str_fn _ l | E_extension _ l => pile l 0%nat
  | _ => 1%nat
  end.
Definition pile : list expr -> nat -> nat :=
  fix pile (l : list expr) (k : nat) : nat := match l with [] => 1%nat | x :: l' => Nat.max (k + need x) (pile l' (S k)) end.

(** The instructions of an expression. *)
Fixpoint ninstr (e : expr) : nat :=
  let fix sum (l : list expr) : nat := match l with [] => 0%nat | x :: l' => (ninstr x + sum l')%nat end in
  match e with
  | E_arith _ l | E_cmp _ l | E_agg _ l | E_str_fn _ l | E_extension _ l => S (sum l)
  | _ => 1%nat
  end.
Definition ninstrs : list expr -> nat :=
  fix sum (l : list expr) : nat := match l with [] => 0%nat | x :: l' => (ninstr x + sum l')%nat end.

(** ** Operators leave what is below their operands alone *)

Definition lift (s : list item) (r : res) : stepped (W := W) :=
  match r with Some (w, inl x) => Some (w, inl (x :: s)) | Some (w, inr st) => Some (w, inr st) | None => None end.

Lemma push_room s x : (length s < 64)%nat -> push_item s x = x :: s.
Proof. intros Hs. unfold push_item, COL_FILTER_STACK. by rewrite (proj2 (Nat.ltb_lt _ _) Hs). Qed.

(** Both sides make the same choices; the pushes have room. *)
Ltac framed :=
  repeat first
    [ progress cbn [mbind option_bind on_stack lift expr_pop pop2 pop3 val ok bad push_opt]
    | progress unfold ok, bad
    | rewrite push_room by (cbn [length]; lia)
    | match goal with |- context [mbind _ ?x] => destruct x eqn:? end
    | case_match; simplify_eq ]; try done.

Lemma run_digest_frame w fn sym x s : (length s < 64)%nat ->
  run_digest ectx w fn sym (x :: s) = lift s (on_stack (run_digest ectx w fn sym [x])).
Proof. intros Hs. unfold run_digest, expr_push. destruct fn; framed. Qed.

Lemma run_hmac_frame w m k a b s : (length s < 64)%nat -> run_hmac ectx w m k (b :: a :: s) = lift s (on_stack (run_hmac ectx w m k [b; a])).
Proof. intros Hs. unfold run_hmac, expr_push. framed. Qed.

Lemma run_uuid4_frame w s : (length s < 64)%nat -> run_uuid4 w s = lift s (on_stack (run_uuid4 w [])).
Proof. intros Hs. unfold run_uuid4, expr_push. framed. Qed.

Lemma run_uuid5_frame w m k a b s : (length s < 64)%nat -> run_uuid5 ectx w m k (b :: a :: s) = lift s (on_stack (run_uuid5 ectx w m k [b; a])).
Proof. intros Hs. unfold run_uuid5, expr_push. framed. Qed.

Lemma run_uuid5_rfc_frame w a b s : (length s < 64)%nat -> run_uuid5_rfc ectx w (b :: a :: s) = lift s (on_stack (run_uuid5_rfc ectx w [b; a])).
Proof. intros Hs. unfold run_uuid5_rfc, expr_push. framed. Qed.

Lemma run_str_fn_frame w fn args s : length args = str_arity fn -> (length s < 64)%nat ->
  run_str_fn ectx w fn (args ++ s) = lift s (on_stack (run_str_fn ectx w fn args)).
Proof.
  intros Ha Hs. destruct fn; cbn [str_arity] in Ha; (destruct args as [|c [|b [|a [|? ?]]]]; try discriminate Ha); cbn [app run_str_fn];
    try (by apply run_uuid5_rfc_frame); unfold call, call_read, call_test, expr_push; framed.
Qed.

Lemma invoke_call_frame w name d args s : (length s < 64)%nat ->
  invoke_call ectx sessions w name d args s = lift s (on_stack (invoke_call ectx sessions w name d args [])).
Proof. intros Hs. unfold invoke_call, expr_push_typed. framed. Qed.

Lemma check_call_frame abi site d n m : s_nargs site = Z.of_nat n -> (n <= m)%nat ->
  check_call ectx sessions abi site d (Z.of_nat m) = check_call ectx sessions abi site d (Z.of_nat n).
Proof.
  intros Hn Hm. unfold check_call. rewrite Hn. destruct (Z.ltb_spec (Z.of_nat m) (Z.of_nat n)); [lia|].
  by destruct (Z.ltb_spec (Z.of_nat n) (Z.of_nat n)); [lia|].
Qed.

Lemma run_call_frame w abi site args s : s_nargs site = Z.of_nat (length args) -> (length s < 64)%nat ->
  run_call ectx sessions w abi site (args ++ s) = lift s (on_stack (run_call ectx sessions w abi site args)).
Proof.
  intros Hn Hs. unfold run_call. destruct (extensions ectx) as [find|]; [|done]. destruct (find (s_name site)) as [d|]; [|done].
  rewrite (check_call_frame abi site d (length args) (length (args ++ s)) Hn) by (rewrite length_app; lia).
  destruct (check_call _ _ _ _ _ _); [done|]. rewrite Hn, Nat2Z.id, take_app_length, drop_app_length, (take_ge args), (drop_ge args) by lia.
  destruct (marshal_args _ _ _) as [[a|]|]; cbn [mbind option_bind]; [|done..]. by apply invoke_call_frame.
Qed.

(** ** Reading the payloads back *)

Lemma shifted_le n u : 0 <= u < 256 ^ Z.of_nat n -> le (shifted n u) = u.
Proof.
  revert u. induction n as [|n IH]; intros u Hu; [cbn in *; lia|]. cbn [shifted le]. rewrite Nat2Z.inj_succ, Z.pow_succ_r in Hu by lia.
  rewrite Z.shiftr_div_pow2 by lia. change 0xFF with (Z.ones 8). rewrite Z.land_ones by lia. change (2 ^ 8) with 256.
  rewrite IH; [pose proof (Z.div_mod u 256); lia|]. split; [apply Z.div_pos; lia|]. apply Z.div_lt_upper_bound; lia.
Qed.

Lemma shifted_length n u : length (shifted n u) = n.
Proof. revert u. induction n as [|n IH]; intros u; cbn; [done|]. by rewrite IH. Qed.

Lemma shifted_bytes n u : Forall (fun b => 0 <= b <= 255) (shifted n u).
Proof.
  revert u. induction n as [|n IH]; intros u; cbn [shifted]; [constructor|]. constructor; [|apply IH].
  change (0 <= Z.land u (Z.ones 8) <= 255). rewrite Z.land_ones by lia. pose proof (Z.mod_pos_bound u (2 ^ 8) ltac:(lia)). lia.
Qed.

(** [l] lies in the buffer at position [i]. *)
Definition at_ (buf l : list Z) (i : Z) : Prop := exists pre post, buf = pre ++ l ++ post /\ i = Z.of_nat (length pre).

Lemma at_app buf l m i : at_ buf (l ++ m) i -> at_ buf l i /\ at_ buf m (i + Z.of_nat (length l)).
Proof.
  intros (pre & post & -> & ->). split.
  - exists pre, (m ++ post). by rewrite <-!app_assoc.
  - exists (pre ++ l), post. rewrite <-!app_assoc, length_app. split; [done|lia].
Qed.

Lemma at_bound buf l i : at_ buf l i -> 0 <= i /\ i + Z.of_nat (length l) <= Z.of_nat (length buf).
Proof. intros (pre & post & -> & ->). rewrite !length_app. lia. Qed.

Lemma at_bytes buf l i : at_ buf l i -> bytes_at (length l) buf i = Some l.
Proof.
  intros Ha. pose proof (at_bound _ _ _ Ha) as Hb. rewrite bytes_at_in by lia. destruct Ha as (pre & post & -> & ->).
  by rewrite Nat2Z.id, drop_app_length, take_app_length.
Qed.

Lemma at_byte buf b l i : at_ buf (b :: l) i -> byte buf i = Some b /\ at_ buf l (i + 1) /\ 0 <= i < Z.of_nat (length buf).
Proof.
  intros Ha. change (b :: l) with ([b] ++ l) in Ha. apply at_app in Ha as [Hb Hl]. pose proof (at_bound _ _ _ Hb) as Hr. cbn [length] in Hr.
  apply at_bytes in Hb. cbn in Hb. destruct (byte buf i); [|done]. injection Hb as ->. split_and!; (done || lia).
Qed.

Lemma at_uint buf n u i : at_ buf (shifted n u) i -> 0 <= u < 256 ^ Z.of_nat n -> le_uint n buf i = Some u.
Proof.
  intros Ha Hu. unfold le_uint. apply at_bytes in Ha. rewrite shifted_length in Ha. rewrite Ha. cbn. by rewrite shifted_le.
Qed.

Lemma digits_loop_fuel k fuel n acc : 0 <= n < 10 ^ Z.of_nat k -> (0 < k <= fuel)%nat -> digits_loop fuel n acc = digits_loop k n acc.
Proof.
  revert fuel n acc. induction k as [|k IH]; intros [|fuel] n acc Hn Hk; try lia. cbn [digits_loop]. destruct (Z.ltb_spec n 10); [done|].
  rewrite Nat2Z.inj_succ, Z.pow_succ_r in Hn by lia. destruct k as [|k]; [cbn in Hn; lia|].
  apply IH; [|lia]. split; [apply Z.div_pos; lia|]. apply Z.div_lt_upper_bound; lia.
Qed.

(** The column name of the serialiser is read back as the column. *)
Lemma name_col_name buf i c : at_ buf (col_name c) i -> Z.of_nat c < 2 ^ 32 -> name_col buf i (Z.of_nat (length (col_name c))) = Some (Z.of_nat c).
Proof.
  intros Ha Hc. change (2 ^ 32) with 4294967296 in Hc. unfold col_name in *. rewrite (digits_loop_fuel 10) in * by (change (10 ^ Z.of_nat 10) with 10000000000; lia).
  destruct (StringOpsProof.digits_loop_spec 10 (Z.of_nat c) []) as (d & Hd & Hne & Hl & Hdig & Hscan); [change (10 ^ Z.of_nat 10) with 10000000000; lia|lia|].
  rewrite Hd, app_nil_r in *. assert (Hd0 : length d <> 0%nat) by (by destruct d). cbn [app] in Ha |- *. cbn [length].
  apply at_byte in Ha as (H0 & Ha & _). apply at_byte in Ha as (H1 & Ha & _). apply at_byte in Ha as (H2 & Ha & _).
  unfold name_col. destruct (Z.ltb_spec 3 (Z.of_nat (S (S (S (length d)))))); [|lia]. rewrite H0. cbn [mbind option_bind]. rewrite H1. cbn [mbind option_bind].
  replace (i + 1 + 1) with (i + 2) in H2, Ha by lia. rewrite H2. cbn [mbind option_bind Z.eqb Pos.eqb negb].
  replace (Z.of_nat (S (S (S (length d)))) - 3) with (Z.of_nat (length d)) by lia. destruct (Z.ltb_spec (Z.of_nat (length d)) 15); [|lia].
  rewrite Nat2Z.id. replace (i + 2 + 1) with (i + 3) in Ha by lia. rewrite (at_bytes _ _ _ Ha). cbn [mbind option_bind].
  rewrite ExprProof.c_str_bytes by done. cbn [mbind option_bind]. specialize (Hscan [] 0 0%nat). rewrite app_nil_r in Hscan.
  rewrite (ExprProof.strtoll_digits d (Z.of_nat c)) by (done || (rewrite Hscan; cbn [scan_digits]; f_equal; lia) || mi). done.
Qed.

(** ** Operators *)

Lemma arith_step buf size ncols op t0 t1 tg args s i w : arith_to_tag op t0 t1 = Some tg -> length args = arith_arity op -> (length s < 64)%nat ->
  step ectx sessions buf size row ncols tg i w (rev args ++ s) = at_pos i (lift s (denote_arith op t0 t1 args w)).
Proof.
  intros Htg Ha Hs. unfold arith_to_tag in Htg.
  destruct op as [op| |fn| | |]; cbn [arith_arity] in Ha; (destruct args as [|a [|b [|? ?]]]; try discriminate Ha); cbn [rev app denote_arith arith_op_is_digest] in *.
  - destruct (is_float t0 && is_float t1).
    + destruct op; simplify_eq; cbn [step pop2 expr_pop]; unfold push_opt, expr_push; destruct (run_float _ _ _); cbn; by rewrite ?push_room.
    + injection Htg as <-. cbn [step pop2 expr_pop]. destruct (run_arith op (val a) (val b)) as [[v|]|]; cbn; unfold expr_push; by rewrite ?push_room.
  - destruct (is_float t0 && is_float t1); [done|]. injection Htg as <-. cbn. unfold expr_push. by rewrite push_room.
  - injection Htg as <-. unfold arith_digest_tag. destruct (is_string t0); cbn [step]; by rewrite run_digest_frame.
  - injection Htg as <-. unfold arith_digest_tag. destruct (is_string t0), (is_string t1); cbn [step andb]; by rewrite run_hmac_frame.
  - destruct (is_float t0 && is_float t1); [done|]. injection Htg as <-. cbn [step]. by rewrite run_uuid4_frame.
  - injection Htg as <-. unfold arith_digest_tag. destruct (is_string t0), (is_string t1); cbn [step andb]; by rewrite run_uuid5_frame.
Qed.

Lemma cmp_step buf size ncols op t0 t1 args s i w : length args = 2%nat -> (length s < 64)%nat ->
  step ectx sessions buf size row ncols (if is_float t0 && is_float t1 then cmp_float_tag op else cmp_to_tag op t0 t1) i w (rev args ++ s) =
  at_pos i (lift s (denote_cmp op t0 t1 args w)).
Proof.
  intros Ha Hs. destruct args as [|a [|b [|? ?]]]; try discriminate Ha. cbn [rev app denote_cmp].
  destruct (is_float t0 && is_float t1).
  - cbn. destruct (run_cmp_float op (val a) (val b)); cbn; unfold expr_push; by rewrite ?push_room.
  - unfold cmp_to_tag. destruct op, (is_string t0 && is_string t1); cbn; unfold expr_push; rewrite ?push_room by done; try done;
      destruct (run_cmp_str _ _ _ _ _); cbn; by rewrite ?push_room.
Qed.

Lemma agg_step buf size ncols fn args s i w : length args = 1%nat -> (length s < 64)%nat ->
  step ectx sessions buf size row ncols (AGG fn) i w (rev args ++ s) = at_pos i (lift s (denote_agg fn args w)).
Proof. intros Ha Hs. destruct args as [|a [|? ?]]; try discriminate Ha. by destruct fn. Qed.

Lemma str_fn_step buf size ncols fn args s i w : length args = str_arity fn -> (length s < 64)%nat ->
  step ectx sessions buf size row ncols (STR_FN fn) i w (rev args ++ s) = at_pos i (lift s (denote_str_fn fn args w)).
Proof.
  intros Ha Hs. cbn [step]. rewrite run_str_fn_frame by (rewrite ?length_rev; done). unfold denote_str_fn. by rewrite Ha, Nat.eqb_refl.
Qed.

(** ** Leaves and calls *)

Lemma is_text_bytes l : is_text l = true -> Forall StringOpsProof.is_byte l.
Proof.
  intros H. apply Forall_forall. intros b Hb. unfold is_text in H. rewrite forallb_forall in H. apply list_elem_of_In in Hb. apply H in Hb.
  apply andb_true_iff in Hb as [H1 H2]. unfold StringOpsProof.is_byte. lia.
Qed.

(** The host's malloc gives the size asked for. *)
Definition exact_malloc : Prop := forall (w : W) n w' tmp, malloc w n = (w', Some tmp) -> length tmp = n.

Section Run.

Variable buf : list Z.
Hypothesis Hbuf : is_buffer buf.
Hypothesis Hmalloc : exact_malloc.

Let size := Z.of_nat (length buf).
Let ncols := Z.of_nat (length row).

Lemma size_small : size < 2147483648.
Proof. apply Hbuf. Qed.

Lemma counted_at l i : at_ buf (counted l) i -> Z.of_nat (length l) < 65536 ->
  le_uint 2 buf i = Some (Z.of_nat (length l)) /\ at_ buf l (i + 2) /\ 0 <= i /\ i + 2 + Z.of_nat (length l) <= size.
Proof.
  intros Ha Hl. unfold counted in Ha. pose proof (at_bound _ _ _ Ha) as Hb. apply at_app in Ha as [H1 H2]. rewrite shifted_length in H2.
  rewrite length_app, shifted_length in Hb. split_and!; [apply at_uint; [done|]; change (256 ^ Z.of_nat 2) with 65536; lia|done|lia|unfold size; lia].
Qed.

Lemma length_counted l : Z.of_nat (length (counted l)) = 2 + Z.of_nat (length l).
Proof. unfold counted. rewrite length_app, shifted_length. lia. Qed.

(** A position inside the buffer does not wrap. *)
Ltac pos := rewrite !u32_pos by (pose proof size_small; unfold size in *; change (2 ^ 32) with 4294967296; lia).

Lemma var_step t ext c i w s : at_ buf (counted (col_name c)) i -> Z.of_nat c < 2 ^ 32 -> (length s < 64)%nat ->
  step ectx sessions buf size row ncols (if is_float t then VAR_FLOAT else if ext && is_string t then VAR_STRING else VAR) i w s =
  at_pos (i + Z.of_nat (length (counted (col_name c)))) (lift s (denote_var c t ext w)).
Proof.
  intros Ha Hc Hs. pose proof (col_name_length c) as Hcl. destruct (counted_at _ _ Ha ltac:(lia)) as (Hlen & Hn & Hi & Hb).
  pose proof (name_col_name buf (i + 2) c Hn Hc) as Hcol. rewrite length_counted. set (n := Z.of_nat (length (col_name c))) in *.
  pose proof size_small as Hsz. assert (Hu2 : u32 (i + 2) = i + 2) by (apply u32_pos; change (2 ^ 32) with 4294967296; lia).
  assert (Hun : u32 (i + 2 + n) = i + (2 + n)) by (rewrite u32_pos; [lia|change (2 ^ 32) with 4294967296; lia]).
  assert (Huc : u32 (Z.of_nat c) = Z.of_nat c) by (apply u32_pos; lia).
  assert (Hrow : (if ncols <=? Z.of_nat c then None else row !! c) = row !! c).
  { unfold ncols. destruct (Z.leb_spec (Z.of_nat (length row)) (Z.of_nat c)); [|done]. by rewrite lookup_ge_None_2 by lia. }
  unfold denote_var. destruct (is_float t); [|destruct (ext && is_string t)]; cbn [step].
  - unfold step_var_float. rewrite Hu2. destruct (Z.ltb_spec size (i + 2)); [lia|]. rewrite Hlen. cbn [mbind option_bind]. fold n. rewrite Hun.
    destruct (Z.ltb_spec size (i + (2 + n))); [lia|]. rewrite Hcol. cbn [mbind option_bind]. rewrite Huc, Nat2Z.id. unfold rd.
    destruct (Z.ltb_spec (Z.of_nat c) 0); [lia|]. cbn [orb]. rewrite <-Hrow. destruct (ncols <=? Z.of_nat c) eqn:Hle; [done|].
    destruct (row !! c) as [v|] eqn:Hv; [|apply Z.leb_gt in Hle; apply lookup_ge_None_1 in Hv; unfold ncols in Hle; lia]. cbn [mbind option_bind].
    destruct (Floats.expr_float_load v); cbn; [|done]. unfold expr_push. by rewrite push_room.
  - unfold step_var_string. rewrite Hu2. destruct (Z.ltb_spec size i); [lia|]. destruct (Z.ltb_spec (size - i) 2); [lia|]. cbn [orb].
    rewrite Hlen. cbn [mbind option_bind]. fold n. rewrite Hun. destruct (Z.ltb_spec size (i + (2 + n))); [lia|]. rewrite Hcol. cbn [mbind option_bind].
    rewrite Huc, Nat2Z.id. unfold rd. destruct (Z.ltb_spec (Z.of_nat c) 0); [lia|]. rewrite <-Hrow. destruct (intern ectx); cbn [negb orb];
      (destruct (ncols <=? Z.of_nat c) eqn:Hle; [done|]); (destruct (row !! c) as [v|] eqn:Hv; [|apply Z.leb_gt in Hle; apply lookup_ge_None_1 in Hv; unfold ncols in Hle; lia]); [|done].
    cbn [mbind option_bind]. destruct (reverse w v) as [[x|]|]; cbn; [|done..]. unfold expr_push_string. by rewrite push_room.
  - unfold step_var. rewrite Hu2. destruct (Z.ltb_spec size i); [lia|]. destruct (Z.ltb_spec (size - i) 2); [lia|]. cbn [orb].
    rewrite Hlen. cbn [mbind option_bind]. fold n. rewrite Hun. destruct (Z.ltb_spec size (i + (2 + n))); [lia|]. rewrite Hcol. cbn [mbind option_bind].
    rewrite Huc, Nat2Z.id. unfold rd. destruct (Z.leb_spec 0 (Z.of_nat c)); [|lia]. cbn [andb]. rewrite <-Hrow.
    unfold ncols. destruct (Z.ltb_spec (Z.of_nat c) (Z.of_nat (length row))), (Z.leb_spec (Z.of_nat (length row)) (Z.of_nat c)); try lia.
    + destruct (lookup_lt_is_Some_2 row c ltac:(lia)) as [v ->]. cbn. unfold expr_push. by rewrite push_room.
    + cbn. unfold expr_push. by rewrite push_room.
Qed.

Lemma int64_at v i : at_ buf (shifted 8 (u64 v)) i -> is_int64 v -> le_int64 buf i = Some v.
Proof.
  intros Ha Hv. unfold le_int64. rewrite (at_uint _ _ _ _ Ha); [|pose proof (u64_range v); change (256 ^ Z.of_nat 8) with 18446744073709551616; mi].
  cbn. by rewrite i64_u64, i64_small.
Qed.

Lemma int_step v i w s : at_ buf (shifted 8 (u64 v)) i -> is_int64 v -> (length s < 64)%nat ->
  step ectx sessions buf size row ncols CONST_INT i w s = at_pos (i + 8) (lift s (value w v)) /\
  step ectx sessions buf size row ncols CONST_FLOAT i w s =
    at_pos (i + 8) (lift s (match Floats.expr_float_load v with Some _ => value w v | None => error w end)).
Proof.
  intros Ha Hv Hs. pose proof (at_bound _ _ _ Ha) as Hb. rewrite shifted_length in Hb. cbn [step]. pos.
  destruct (Z.ltb_spec size (i + 8)); [unfold size in *; lia|]. rewrite (int64_at v i Ha Hv). cbn [mbind option_bind]. split.
  - cbn. unfold expr_push. by rewrite push_room.
  - destruct (Floats.expr_float_load v); cbn; [|done]. unfold expr_push. by rewrite push_room.
Qed.

Lemma bool_step (b : bool) i w s : at_ buf [if b then 1 else 0] i -> (length s < 64)%nat ->
  step ectx sessions buf size row ncols BOOL i w s = at_pos (i + 1) (lift s (Some (w, inl (It (Z.b2z b) VALUE_BOOL None)))).
Proof.
  intros Ha Hs. apply at_byte in Ha as (Hb & _ & Hi). cbn [step]. pos. destruct (Z.ltb_spec size (i + 1)); [unfold size in *; lia|].
  rewrite Hb. cbn [mbind option_bind]. unfold expr_push_typed. rewrite push_room by done. by destruct b.
Qed.

Lemma str_step l i w s : at_ buf (counted l) i -> is_text l = true -> Z.of_nat (length l) < 65536 -> (length s < 64)%nat ->
  step ectx sessions buf size row ncols CONST_STR i w s = at_pos (i + Z.of_nat (length (counted l))) (lift s (denote_str l w)).
Proof.
  intros Ha Ht Hl Hs. destruct (counted_at _ _ Ha Hl) as (Hlen & Hn & Hi & Hb). rewrite length_counted. pose proof size_small as Hsz.
  cbn [step]. unfold step_const_str. rewrite (u32_pos (i + 2)) by (change (2 ^ 32) with 4294967296; lia). destruct (Z.ltb_spec size (i + 2)); [lia|].
  rewrite Hlen. cbn [mbind option_bind]. rewrite (u32_pos (i + 2 + _)) by (change (2 ^ 32) with 4294967296; lia).
  destruct (Z.ltb_spec size (i + 2 + Z.of_nat (length l))); [lia|]. rewrite Nat2Z.id, (at_bytes _ _ _ Hn). cbn [mbind option_bind].
  replace (i + 2 + Z.of_nat (length l)) with (i + (2 + Z.of_nat (length l))) by lia. unfold denote_str. destruct (intern ectx).
  - destruct (malloc w (S (length l))) as [w1 [tmp|]] eqn:Hm; [|done].
    destruct (StringOpsProof.copy_fill l tmp (is_text_bytes l Ht) (Hmalloc _ _ _ _ Hm)) as (tmp2 & Hf & Hc).
    unfold terminate in Hf. destruct (memcpy tmp 0 l) as [tmp1|]; [|done]. cbn [mbind option_bind] in Hf |- *. rewrite Hf. cbn [mbind option_bind]. rewrite Hc.
    cbn [mbind option_bind]. destruct (put w1 l) as [[w2 id]|]; cbn; [|done]. unfold expr_push_string. by rewrite push_room.
  - cbn. unfold expr_push_string. by rewrite push_room.
Qed.

Lemma call_step abi name args i w s :
  let site := match abi with Some (identity, version) => Site name (Z.of_nat (length args)) identity version | None => Site name (Z.of_nat (length args)) 0 0 end in
  let has := match abi with Some _ => true | None => false end in
  let payload := counted name ++ shifted 4 (Z.of_nat (length args)) ++ match abi with Some (identity, version) => shifted 8 (u64 identity) ++ shifted 4 version | None => [] end in
  at_ buf payload i -> 1 <= Z.of_nat (length name) < 256 -> is_text name = true -> (length args <= 64)%nat -> (length s < 64)%nat ->
  (forall identity version, abi = Some (identity, version) -> is_uint64 identity /\ is_uint32 version) ->
  step ectx sessions buf size row ncols (EXTENSION_CALL has) i w (rev args ++ s) =
    at_pos (i + Z.of_nat (length payload)) (lift s (on_stack (run_call ectx sessions w has site (rev args)))).
Proof.
  cbv zeta. intros Ha Hname Ht Hn Hs Habi. pose proof (at_bound _ _ _ Ha) as Hb. pose proof size_small as Hsz.
  apply at_app in Ha as [Hcn Ha]. rewrite length_counted in Ha. apply at_app in Ha as [Hna Ha]. rewrite shifted_length in Ha.
  destruct (counted_at _ _ Hcn ltac:(lia)) as (Hlen & Hnm & Hi & _). pose proof (at_bound _ _ _ Hna) as Hb2. rewrite shifted_length in Hb2.
  set (n := Z.of_nat (length name)) in *. set (tail := match abi with Some _ => _ | None => _ end) in *.
  assert (Htl : Z.of_nat (length tail) = if match abi with Some _ => true | None => false end then 12 else 0).
  { unfold tail. destruct abi as [[identity version]|]; [|done]. rewrite length_app, !shifted_length. done. }
  assert (Hpl : Z.of_nat (length (counted name ++ shifted 4 (Z.of_nat (length args)) ++ tail)) = 2 + n + 4 + Z.of_nat (length tail)).
  { rewrite !length_app, !Nat2Z.inj_add, length_counted, shifted_length. fold n. lia. }
  rewrite Hpl in *. assert (Hrc : read_call buf size i (match abi with Some _ => true | None => false end) =
    Some (Some (match abi with Some (identity, version) => Site name (Z.of_nat (length args)) identity version | None => Site name (Z.of_nat (length args)) 0 0 end,
      i + (2 + n + 4 + Z.of_nat (length tail))))).
  { unfold read_call. destruct (Z.ltb_spec size i); [unfold size in *; lia|]. destruct (Z.ltb_spec (size - i) 2); [unfold size in *; lia|]. cbn [orb].
    rewrite Hlen. cbn [mbind option_bind]. fold n.
    destruct (Z.eqb_spec n 0); [lia|]. destruct (Z.leb_spec 256 n); [lia|]. destruct (Z.ltb_spec size (i + 2)); [unfold size in *; lia|].
    destruct (Z.ltb_spec (size - (i + 2)) n); [unfold size in *; lia|]. destruct (Z.ltb_spec (size - (i + 2) - n) 4); [unfold size in *; lia|]. cbn [orb].
    assert (Z.to_nat n = length name) as -> by (unfold n; lia). rewrite (at_bytes _ _ _ Hnm). cbn [mbind option_bind]. rewrite StringOpsProof.c_str_terminated by (by apply is_text_bytes).
    cbn [mbind option_bind]. replace (i + 2 + n) with (i + (2 + n)) by lia. rewrite (at_uint _ _ _ _ Hna) by (change (256 ^ Z.of_nat 4) with 4294967296; lia).
    cbn [mbind option_bind]. destruct abi as [[identity version]|]; [|rewrite Htl; do 2 f_equal; f_equal; lia].
    destruct (Z.ltb_spec (size - (i + (2 + n) + 4)) 12); [unfold size in *; lia|]. unfold tail in Ha. apply at_app in Ha as [HA HB]. rewrite shifted_length in HB.
    destruct (Habi identity version eq_refl) as [Hid Hver]. rewrite u64_small in HA by done. replace (i + (2 + n) + Z.of_nat 4) with (i + (2 + n) + 4) in HA, HB by lia.
    rewrite (at_uint _ _ _ _ HA) by (change (256 ^ Z.of_nat 8) with 18446744073709551616; mi). cbn [mbind option_bind].
    replace (i + (2 + n) + 4 + Z.of_nat 8) with (i + (2 + n) + 4 + 8) in HB by lia.
    rewrite (at_uint _ _ _ _ HB) by (change (256 ^ Z.of_nat 4) with 4294967296; mi). cbn [mbind option_bind]. rewrite Htl. do 2 f_equal. f_equal. lia. }
  cbn [step]. rewrite Hrc. cbn [mbind option_bind]. rewrite run_call_frame; [done| |done]. rewrite length_rev. by destruct abi as [[? ?]|].
Qed.

(** ** The run of an expression *)

(** Going on behind an expression, with its value pushed. *)
Definition resume (fuel : nat) (i : Z) (s : list item) (r : res) : option (W * Z * Z) :=
  match r with
  | Some (w, inl x) => run_loop fuel ectx sessions buf size row ncols i w (x :: s)
  | Some (w, inr st) => Some (w, st, 0)
  | None => None
  end.

Lemma run_instr tg payload f i w st s r : at_ buf (tag_byte tg ++ payload) i ->
  step ectx sessions buf size row ncols tg (i + 1) w st = at_pos (i + 1 + Z.of_nat (length payload)) (lift s r) ->
  run_loop (S f) ectx sessions buf size row ncols i w st = resume f (i + Z.of_nat (length (tag_byte tg ++ payload))) s r.
Proof.
  intros Ha Hst. destruct (tag_byte_eq tg) as (b & Hb & _ & Htb & _). rewrite Hb in *. cbn [app] in Ha.
  apply at_byte in Ha as (Hby & _ & Hi). cbn [run_loop]. destruct (Z.ltb_spec i size); [|unfold size in *; lia].
  rewrite Hby. cbn [mbind option_bind]. rewrite Htb. pos. rewrite Hst. cbn [app length].
  replace (i + Z.of_nat (S (length payload))) with (i + 1 + Z.of_nat (length payload)) by lia.
  destruct r as [[w' [x|x]]|]; done.
Qed.

(** An operator without payload. *)
Lemma run_operator tg f i w st s r : at_ buf (tag_byte tg) i ->
  step ectx sessions buf size row ncols tg (i + 1) w st = at_pos (i + 1) (lift s r) ->
  run_loop (S f) ectx sessions buf size row ncols i w st = resume f (i + Z.of_nat (length (tag_byte tg))) s r.
Proof.
  intros Ha Hst. rewrite <-(app_nil_r (tag_byte tg)) in *. apply run_instr; [done|]. cbn [length]. by rewrite Z.add_0_r.
Qed.

Definition runs (e : expr) : Prop := forall ext w s i bytes f, emit ctx e ext = Some bytes -> wf e = true -> (length s + need e <= 64)%nat -> at_ buf bytes i ->
  run_loop (ninstr e + f) ectx sessions buf size row ncols i w s = resume f (i + Z.of_nat (length bytes)) s (denote e ext w).

Definition wf_all : list expr -> bool := fix all (l : list expr) : bool := match l with [] => true | x :: l' => wf x && all l' end.

(** The operands, one above the other. *)
Lemma runs_all l : Forall runs l -> forall ext w a s i bytes f, emit_all ctx l ext = Some bytes -> wf_all l = true ->
  (length s + pile l (length a) <= 64)%nat -> at_ buf bytes i ->
  run_loop (ninstrs l + f) ectx sessions buf size row ncols i w (a ++ s) =
    match denote_all l ext w with
    | Some (w', inl vs) => run_loop f ectx sessions buf size row ncols (i + Z.of_nat (length bytes)) w' (rev vs ++ a ++ s)
    | Some (w', inr st) => Some (w', st, 0)
    | None => None
    end.
Proof.
  induction 1 as [|e l He _ IH]; intros ext w a s i bytes f Hem Hwf Hn Ha.
  { cbn in Hem. injection Hem as <-. cbn. by rewrite Z.add_0_r. }
  cbn in Hem, Hwf, Hn |- *. destruct (emit ctx e ext) as [b1|] eqn:H1; [|done]. cbn in Hem. destruct (emit_all ctx l ext) as [b2|] eqn:H2; [|done].
  cbn in Hem. injection Hem as <-. apply andb_true_iff in Hwf as [Hwe Hwl]. apply at_app in Ha as [Ha1 Ha2].
  fold pile in Hn. fold ninstrs. fold denote_all. rewrite <-Nat.add_assoc, (He ext w (a ++ s) i b1 (ninstrs l + f)%nat H1 Hwe) by (rewrite ?length_app; lia || done).
  destruct (denote e ext w) as [[w' [x|st]]|]; cbn [resume mbind option_bind]; [|done..].
  change (x :: a ++ s) with ((x :: a) ++ s). rewrite (IH ext w' (x :: a) s _ b2 f H2 Hwl) by (cbn [length]; lia || done).
  destruct (denote_all l ext w') as [[w2 [vs|st]]|]; cbn [mbind option_bind]; [|done..]. rewrite length_app, Nat2Z.inj_add, Z.add_assoc. cbn [rev].
  by rewrite <-!app_assoc.
Qed.

Lemma wf_children e : wf e = true -> wf_all (children_of e) = true.
Proof.
  destruct e as [|[]| | |[]| | | | | |[]]; cbn; try done; try (by intros [_ H]%andb_true_iff).
Qed.

(** Operands, then the operator on their values. *)
Lemma run_node l tg payload (g : list item -> W -> res) ext w s i bytes f : Forall runs l -> emit_all ctx l ext = Some bytes -> wf_all l = true ->
  (length s + pile l 0 <= 64)%nat -> at_ buf (bytes ++ tag_byte tg ++ payload) i ->
  (forall w args j, length args = length l -> at_ buf payload (j + 1) ->
     step ectx sessions buf size row ncols tg (j + 1) w (rev args ++ s) = at_pos (j + 1 + Z.of_nat (length payload)) (lift s (g args w))) ->
  run_loop (S (ninstrs l) + f) ectx sessions buf size row ncols i w s =
    resume f (i + Z.of_nat (length (bytes ++ tag_byte tg ++ payload))) s
      ('(w, r) ← denote_all l ext w; match r with inl args => g args w | inr st => Some (w, inr st) end).
Proof.
  intros Hl Hem Hwf Hn Ha Hst. apply at_app in Ha as [Ha1 Ha2]. replace (S (ninstrs l) + f)%nat with (ninstrs l + S f)%nat by lia.
  pose proof (runs_all l Hl ext w [] s i bytes (S f) Hem Hwf Hn Ha1) as Hr. cbn [app] in Hr. rewrite Hr.
  destruct (denote_all l ext w) as [[w' [args|st]]|] eqn:Hd; cbn [mbind option_bind]; [|done..].
  rewrite length_app, Nat2Z.inj_add, Z.add_assoc. apply run_instr; [done|]. apply Hst; [by eapply denote_all_length|].
  apply at_app in Ha2 as [Ht Hp]. destruct (tag_byte_eq tg) as (b & Hb & _). rewrite Hb in Hp. done.
Qed.

Lemma payload_at tg payload i : at_ buf (tag_byte tg ++ payload) i -> at_ buf payload (i + 1).
Proof. intros Ha. destruct (tag_byte_eq tg) as (b & Hb & _). rewrite Hb in Ha. by apply at_app in Ha as [_ Ha]. Qed.

Lemma node_room l k : (1 <= pile l k)%nat.
Proof. revert k. induction l as [|e l IH]; intros k; cbn; [lia|]. fold pile. pose proof (IH (S k)). lia. Qed.

Lemma runs_expr e : runs e.
Proof.
  induction e as [|[name|]|v|v|[v|]|v|op l IH|op l IH|fn l IH|fn l IH|[name|] l IH] using expr_nested_ind; intros ext w s i bytes f Hem Hwf Hn Ha; try done;
    try (assert (Hs : (length s < 64)%nat) by (cbn in Hn; lia)); try (pose proof (wf_children _ Hwf) as Hwl; cbn [children_of] in Hwl).
  - cbn [wf] in Hwf. cbn [emit] in Hem. unfold emit_var in Hem. apply andb_true_iff in Hwf as [Hwf _]. destruct ctx as [c|] eqn:Hctx; [|done].
    destruct (lookup_name c name) as [[k|]|] eqn:Hk; try done. apply Z.ltb_lt in Hwf. cbn [mbind option_bind] in Hem.
    cbn [denote]. rewrite Hctx, Hk. cbn [mbind option_bind]. destruct (col_ctx_lookup_type (Some c) (Some name)) as [t|]; [|done]. cbn [mbind option_bind] in Hem |- *.
    cbn [emit mbind option_bind] in Hem. apply (inj Some) in Hem. subst bytes. cbn [ninstr Nat.add]. eapply run_instr; [done|]. apply var_step; [by eapply payload_at|done..].
  - cbn [wf] in Hwf. apply bool_decide_eq_true in Hwf. cbn [emit mbind option_bind] in Hem. apply (inj Some) in Hem. subst bytes. cbn [ninstr Nat.add denote].
    eapply run_instr; [done|]. rewrite shifted_length. by apply int_step; [eapply payload_at| |].
  - cbn [wf] in Hwf. apply bool_decide_eq_true in Hwf. cbn [emit mbind option_bind] in Hem. apply (inj Some) in Hem. subst bytes. cbn [ninstr Nat.add denote].
    eapply run_instr; [done|]. rewrite shifted_length. by apply int_step; [eapply payload_at| |].
  - cbn [wf] in Hwf. apply andb_true_iff in Hwf as [Ht Hl]. apply Z.ltb_lt in Hl. cbn [emit mbind option_bind] in Hem. apply (inj Some) in Hem. subst bytes. cbn [ninstr Nat.add denote].
    eapply run_instr; [done|]. apply str_step; [by eapply payload_at|done..].
  - cbn [emit mbind option_bind] in Hem. apply (inj Some) in Hem. subst bytes. cbn [ninstr Nat.add denote]. eapply run_instr; [done|]. cbn [length]. apply bool_step; [by eapply payload_at|done].
  - cbn [wf] in Hwf. apply andb_true_iff in Hwf as [Hl _]. apply Nat.eqb_eq in Hl. cbn [emit] in Hem. fold (emit_all ctx) in Hem. unfold arith_tag in Hem.
    cbn [denote]. fold denote_all. destruct (child_type ctx l 0) as [t0|]; [|done]. destruct (child_type ctx l 1) as [t1|]; [|done]. cbn [mbind option_bind] in Hem |- *.
    destruct (negb _); [done|]. destruct (arith_to_tag op t0 t1) as [tg|] eqn:Htg; [|done]. cbn [mbind option_bind] in Hem.
    destruct (emit_all ctx l false) as [b|] eqn:Hb; [|done]. cbn [emit mbind option_bind] in Hem. apply (inj Some) in Hem. subst bytes. rewrite <-(app_nil_r (tag_byte tg)) in Ha |- *.
    apply (run_node l tg [] (denote_arith op t0 t1) false); try done. intros w' args j Hargs _. cbn [length]. rewrite Z.add_0_r.
    apply arith_step; [done|lia|]. pose proof (node_room l 0). cbn in Hn. fold pile in Hn. lia.
  - cbn [wf] in Hwf. apply andb_true_iff in Hwf as [Hl _]. apply Nat.eqb_eq in Hl. cbn [emit] in Hem. fold (emit_all ctx) in Hem. unfold cmp_tag in Hem.
    cbn [denote]. fold denote_all. destruct (child_type ctx l 0) as [t0|]; [|done]. destruct (child_type ctx l 1) as [t1|]; [|done]. cbn [mbind option_bind] in Hem |- *.
    destruct (negb _); [done|]. cbn [mbind option_bind] in Hem. set (tg := if is_float t0 && is_float t1 then _ else _) in Hem.
    destruct (emit_all ctx l false) as [b|] eqn:Hb; [|done]. cbn [emit mbind option_bind] in Hem. apply (inj Some) in Hem. subst bytes. rewrite <-(app_nil_r (tag_byte tg)) in Ha |- *.
    apply (run_node l tg [] (denote_cmp op t0 t1) false); try done. intros w' args j Hargs _. cbn [length]. rewrite Z.add_0_r.
    apply cmp_step; [lia|]. pose proof (node_room l 0). cbn in Hn. fold pile in Hn. lia.
  - cbn [wf] in Hwf. apply andb_true_iff in Hwf as [Hl _]. apply Nat.eqb_eq in Hl. cbn [emit] in Hem. fold (emit_all ctx) in Hem. cbn [denote]. fold denote_all.
    destruct (emit_all ctx l false) as [b|] eqn:Hb; [|done]. cbn [emit mbind option_bind] in Hem. apply (inj Some) in Hem. subst bytes. rewrite <-(app_nil_r (tag_byte (AGG fn))) in Ha |- *.
    apply (run_node l (AGG fn) [] (denote_agg fn) false); try done. intros w' args j Hargs _. cbn [length]. rewrite Z.add_0_r.
    apply agg_step; [lia|]. pose proof (node_room l 0). cbn in Hn. fold pile in Hn. lia.
  - cbn [wf] in Hwf. apply andb_true_iff in Hwf as [Hl _]. apply Nat.eqb_eq in Hl. cbn [emit] in Hem. fold (emit_all ctx) in Hem. cbn [denote]. fold denote_all.
    destruct (emit_all ctx l false) as [b|] eqn:Hb; [|done]. cbn [emit mbind option_bind] in Hem. apply (inj Some) in Hem. subst bytes. rewrite <-(app_nil_r (tag_byte (STR_FN fn))) in Ha |- *.
    apply (run_node l (STR_FN fn) [] (denote_str_fn fn) false); try done. intros w' args j Hargs _. cbn [length]. rewrite Z.add_0_r.
    apply str_fn_step; [lia|]. pose proof (node_room l 0). cbn in Hn. fold pile in Hn. lia.
  - cbn [wf] in Hwf. apply andb_true_iff in Hwf as [Hw _]. apply andb_true_iff in Hw as [Hw Hl]. apply Nat.leb_le in Hl.
    unfold wf_call in Hw. apply andb_true_iff in Hw as [Hw Habi]. apply andb_true_iff in Hw as [Hw Ht]. apply andb_true_iff in Hw as [H1 H2].
    apply Z.leb_le in H1. apply Z.ltb_lt in H2. cbn [emit] in Hem. fold (emit_all ctx) in Hem. cbn [denote]. fold denote_all.
    destruct (65535 <? _); [done|]. destruct (emit_all ctx l true) as [b|] eqn:Hb; [|done]. cbn [mbind option_bind] in Hem. unfold denote_call.
    destruct (call_abi ctx name) as [abi|] eqn:Hcall; [|done]. cbn [emit mbind option_bind] in Hem. apply (inj Some) in Hem. subst bytes. unfold call_bytes in Ha |- *.
    pose proof (run_node l _ _ (fun args w => on_stack (run_call ectx sessions w (match abi with Some _ => true | None => false end)
      (match abi with Some (identity, version) => Site name (Z.of_nat (length args)) identity version | None => Site name (Z.of_nat (length args)) 0 0 end) (rev args)))
      true w s i b f IH Hb Hwl ltac:(exact Hn) Ha) as Hrun. cbn [ninstr]. fold ninstrs. rewrite Hrun.
    + f_equal. destruct (denote_all l true w) as [[w' [args|st]]|]; [|done..]. cbn. by destruct abi as [[? ?]|].
    + intros w' args j Hargs Hp. rewrite <-Hargs in *. pose proof (node_room l 0). cbn in Hn. fold pile in Hn.
      apply call_step; try done; try lia. intros identity version ->. rewrite !andb_true_iff, !Z.leb_le in Habi. unfold is_uint64, is_uint32. lia.
Qed.

End Run.

(** ** The bytes of a well-formed expression *)

Lemma wf_short e : wf e = true -> short ctx e.
Proof.
  assert (Hall : forall l, Forall (fun e => wf e = true -> short ctx e) l -> wf_all l = true ->
    (fix all (l : list expr) : Prop := match l with [] => True | x :: l' => short ctx x /\ all l' end) l).
  { induction 1 as [|x l Hx _ IH]; cbn; [done|]. intros [H1 H2]%andb_true_iff. split; [by apply Hx|by apply IH]. }
  induction e as [|[name|]|v|v|[v|]|v|op l IH|op l IH|fn l IH|fn l IH|[name|] l IH] using expr_nested_ind; intros Hwf; try done;
    try (pose proof (wf_children _ Hwf) as Hwl; cbn [children_of] in Hwl; by apply Hall).
  - cbn [wf] in Hwf. apply andb_true_iff in Hwf as [_ H]. cbn. lia.
  - cbn [wf] in Hwf. apply andb_true_iff in Hwf as [_ H]. cbn. lia.
Qed.

Definition code_ok (e : expr) : Prop := forall ext bytes, wf e = true -> emit ctx e ext = Some bytes ->
  Forall (fun b => 0 <= b <= 255) bytes /\ (ninstr e <= length bytes)%nat.

Lemma tag_ok t : Forall (fun b => 0 <= b <= 255) (tag_byte t) /\ length (tag_byte t) = 1%nat.
Proof. destruct (tag_byte_eq t) as (b & -> & _ & _ & Hb). split; [by apply Forall_singleton|done]. Qed.

Lemma counted_ok l : Forall (fun b => 0 <= b <= 255) l -> Forall (fun b => 0 <= b <= 255) (counted l).
Proof. intros Hl. unfold counted. apply Forall_app_2; [apply shifted_bytes|done]. Qed.

Lemma text_ok l : is_text l = true -> Forall (fun b => 0 <= b <= 255) l.
Proof. intros H%is_text_bytes. eapply Forall_impl; [done|]. unfold StringOpsProof.is_byte. cbn. lia. Qed.

Lemma col_name_ok c : Z.of_nat c < 2 ^ 32 -> Forall (fun b => 0 <= b <= 255) (col_name c).
Proof.
  intros Hc. change (2 ^ 32) with 4294967296 in Hc. unfold col_name.
  destruct (StringOpsProof.digits_loop_spec 20 (Z.of_nat c) []) as (d & -> & _ & _ & Hd & _); [rewrite StringOpsProof.pow10_20; lia|lia|].
  rewrite app_nil_r. apply Forall_app_2; [repeat constructor; lia|]. eapply Forall_impl; [done|]. cbn. lia.
Qed.

Lemma all_code_ok l ext bytes : Forall code_ok l -> wf_all l = true -> emit_all ctx l ext = Some bytes ->
  Forall (fun b => 0 <= b <= 255) bytes /\ (ninstrs l <= length bytes)%nat.
Proof.
  intros H. revert bytes. induction H as [|e l He _ IH]; intros bytes Hwf Hem; [cbn in Hem; injection Hem as <-; by split|].
  cbn in Hwf, Hem. apply andb_true_iff in Hwf as [H1 H2]. destruct (emit ctx e ext) as [x|] eqn:Hx; [|done]. cbn in Hem. fold (emit_all ctx) in Hem.
  destruct (emit_all ctx l ext) as [y|] eqn:Hy; [|done]. cbn in Hem. injection Hem as <-. destruct (He _ _ H1 Hx) as [Hb Hn], (IH y H2 eq_refl) as [Hb2 Hn2].
  split; [by apply Forall_app_2|]. rewrite length_app. cbn. fold ninstrs. lia.
Qed.

(** Operands and an operator with its payload. *)
Lemma node_code_ok l ext b tg payload : Forall code_ok l -> wf_all l = true -> emit_all ctx l ext = Some b -> Forall (fun b => 0 <= b <= 255) payload ->
  Forall (fun b => 0 <= b <= 255) (b ++ tag_byte tg ++ payload) /\ (S (ninstrs l) <= length (b ++ tag_byte tg ++ payload))%nat.
Proof.
  intros Hl Hwf Hem Hp. destruct (all_code_ok l ext b Hl Hwf Hem) as [Hb Hn], (tag_ok tg) as [Ht Htl]. split; [by repeat apply Forall_app_2|].
  rewrite !length_app, Htl. lia.
Qed.

Lemma leaf_code_ok tg payload : Forall (fun b => 0 <= b <= 255) payload ->
  Forall (fun b => 0 <= b <= 255) (tag_byte tg ++ payload) /\ (1 <= length (tag_byte tg ++ payload))%nat.
Proof. intros Hp. destruct (tag_ok tg) as [Ht Htl]. split; [by apply Forall_app_2|]. rewrite length_app, Htl. lia. Qed.

Lemma emit_code_ok e : code_ok e.
Proof.
  induction e as [|[name|]|v|v|[v|]|v|op l IH|op l IH|fn l IH|fn l IH|[name|] l IH] using expr_nested_ind; intros ext bytes Hwf Hem; try done;
    pose proof (wf_children _ Hwf) as Hwl; cbn [children_of] in Hwl; cbn [emit] in Hem; fold (emit_all ctx) in Hem; cbn [ninstr]; fold ninstrs.
  - cbn [wf] in Hwf. unfold emit_var in Hem. apply andb_true_iff in Hwf as [Hwf _]. destruct ctx as [c|]; [|done]. destruct (lookup_name c name) as [[k|]|]; try done.
    apply Z.ltb_lt in Hwf. cbn [mbind option_bind] in Hem. destruct (col_ctx_lookup_type _ _) as [t|]; [|done]. apply (inj Some) in Hem. subst bytes.
    by apply leaf_code_ok, counted_ok, col_name_ok.
  - apply (inj Some) in Hem. subst bytes. apply leaf_code_ok, shifted_bytes.
  - apply (inj Some) in Hem. subst bytes. apply leaf_code_ok, shifted_bytes.
  - apply (inj Some) in Hem. subst bytes. cbn [wf] in Hwf. apply andb_true_iff in Hwf as [Ht _]. by apply leaf_code_ok, counted_ok, text_ok.
  - apply (inj Some) in Hem. subst bytes. apply leaf_code_ok, Forall_singleton. by destruct v.
  - destruct (arith_tag ctx op l) as [tg|]; [|done]. cbn [mbind option_bind] in Hem. destruct (emit_all ctx l false) as [b|] eqn:Hb; [|done].
    apply (inj Some) in Hem. subst bytes. rewrite <-(app_nil_r (tag_byte tg)). by eapply node_code_ok.
  - destruct (cmp_tag ctx op l) as [tg|]; [|done]. cbn [mbind option_bind] in Hem. destruct (emit_all ctx l false) as [b|] eqn:Hb; [|done].
    apply (inj Some) in Hem. subst bytes. rewrite <-(app_nil_r (tag_byte tg)). by eapply node_code_ok.
  - destruct (emit_all ctx l false) as [b|] eqn:Hb; [|done]. apply (inj Some) in Hem. subst bytes. rewrite <-(app_nil_r (tag_byte (AGG fn))). by eapply node_code_ok.
  - destruct (emit_all ctx l false) as [b|] eqn:Hb; [|done]. apply (inj Some) in Hem. subst bytes. rewrite <-(app_nil_r (tag_byte (STR_FN fn))). by eapply node_code_ok.
  - destruct (65535 <? _); [done|]. destruct (emit_all ctx l true) as [b|] eqn:Hb; [|done]. cbn [mbind option_bind] in Hem.
    destruct (call_abi ctx name) as [abi|]; [|done]. apply (inj Some) in Hem. subst bytes. eapply node_code_ok; [done..|].
    cbn [wf] in Hwf. apply andb_true_iff in Hwf as [Hw _]. apply andb_true_iff in Hw as [Hw _]. unfold wf_call in Hw. rewrite !andb_true_iff in Hw.
    repeat apply Forall_app_2; [apply shifted_bytes|apply text_ok; tauto|apply shifted_bytes|].
    destruct abi as [[? ?]|]; [apply Forall_app_2; apply shifted_bytes|constructor].
Qed.

(** What the evaluator returns for a denoted result. *)
Definition returned (r : res) : option (W * Z * Z) :=
  '(w, r) ← r; Some (match r with inl x => (w, OK, val x) | inr st => (w, st, 0) end).

Lemma emitted_runs e bytes w : exact_malloc -> wf e = true -> (need e <= 64)%nat -> emit ctx e false = Some bytes -> Z.of_nat (length bytes) < 2 ^ 31 ->
  eval_run_ctx ectx sessions bytes row (Z.of_nat (length row)) w = returned (denote e false w).
Proof.
  intros Hm Hwf Hn Hem Hlen. destruct (emit_code_ok e false bytes Hwf Hem) as [Hb Hni]. unfold eval_run_ctx.
  replace (S (length bytes)) with (ninstr e + S (length bytes - ninstr e))%nat by lia.
  assert (Hat : at_ bytes bytes 0) by (exists [], []; by rewrite app_nil_r).
  rewrite (runs_expr bytes (conj Hb Hlen) Hm e false w [] 0 bytes _ Hem Hwf ltac:(cbn; lia) Hat). unfold resume, returned.
  destruct (denote e false w) as [[w' [x|st]]|]; [|done..]. cbn [run_loop mbind option_bind]. rewrite Z.add_0_l.
  by destruct (Z.ltb_spec (Z.of_nat (length bytes)) (Z.of_nat (length bytes))); [lia|].
Qed.


End Denote.

(** ** Typing *)

(** Operands are both floats or neither, floats only meet the four float
    operations, and called extensions are in the snapshot. *)
Definition arith_typed (ctx : option col_ctx) (op : ir_arith) (l : list expr) : bool :=
  match child_type ctx l 0, child_type ctx l 1 with
  | Some t0, Some t1 =>
      Bool.eqb (is_float t0) (is_float t1) &&
      (negb (is_float t0) || arith_op_is_digest op || match op with IA_bin ADD | IA_bin SUB | IA_bin MUL | IA_bin DIV => true | _ => false end)
  | _, _ => false
  end.
Definition cmp_typed (ctx : option col_ctx) (l : list expr) : bool :=
  match child_type ctx l 0, child_type ctx l 1 with Some t0, Some t1 => Bool.eqb (is_float t0) (is_float t1) | _, _ => false end.

Fixpoint well_typed (ctx : option col_ctx) (e : expr) : bool :=
  let fix all (l : list expr) : bool := match l with [] => true | x :: l' => well_typed ctx x && all l' end in
  match e with
  | E_var name => match col_ctx_lookup_type ctx name with Some _ => true | None => false end
  | E_arith op l => arith_typed ctx op l && all l
  | E_cmp op l => cmp_typed ctx l && all l
  | E_agg _ l | E_str_fn _ l => all l
  | E_extension name l => match name with Some n => match call_abi ctx n with Some _ => true | None => false end | None => false end && all l
  | _ => true
  end.

Definition all_typed (ctx : option col_ctx) : list expr -> bool :=
  fix all (l : list expr) : bool := match l with [] => true | x :: l' => well_typed ctx x && all l' end.

Lemma arith_typed_tag ctx op l : arith_typed ctx op l = true -> exists t, arith_tag ctx op l = Some t.
Proof.
  unfold arith_typed, arith_tag. destruct (child_type ctx l 0) as [t0|]; [|done]. destruct (child_type ctx l 1) as [t1|]; [|done]. cbn [mbind option_bind].
  intros [-> H]%andb_true_iff. cbn [negb]. unfold arith_to_tag. destruct (arith_op_is_digest op); [eauto|]. destruct (is_float t0), (is_float t1); cbn in *; eauto.
  destruct op as [[]| | | | |]; try done; eauto.
Qed.

Lemma all_emit ctx l ext : Forall (fun e => forall ext, wf ctx e = true -> well_typed ctx e = true -> exists bytes, emit ctx e ext = Some bytes) l ->
  wf_all ctx l = true -> all_typed ctx l = true -> exists bytes, emit_all ctx l ext = Some bytes.
Proof.
  induction 1 as [|e l He _ IH]; cbn; [eauto|]. intros [H1 H2]%andb_true_iff [T1 T2]%andb_true_iff. destruct (He ext H1 T1) as (x & ->). cbn.
  fold (emit_all ctx). destruct (IH H2 T2) as (y & ->). cbn. eauto.
Qed.

(** Well-typed expressions have code. *)
Lemma typed_emit ctx e ext : wf ctx e = true -> well_typed ctx e = true -> exists bytes, emit ctx e ext = Some bytes.
Proof.
  revert ext. induction e as [|[name|]|v|v|[v|]|v|op l IH|op l IH|fn l IH|fn l IH|[name|] l IH] using expr_nested_ind; intros ext Hwf Hty; try done; eauto;
    pose proof (wf_children ctx _ Hwf) as Hwl; cbn [children_of] in Hwl; cbn [well_typed] in Hty; cbn [emit]; fold (emit_all ctx).
  - unfold emit_var. cbn [wf] in Hwf. destruct (col_ctx_lookup_type ctx (Some name)) as [t|]; [|done]. destruct ctx as [c|]; [|done].
    destruct (lookup_name c name) as [[k|]|]; try done. cbn. eauto.
  - apply andb_true_iff in Hty as [Ht Hl]. destruct (arith_typed_tag _ _ _ Ht) as (t & ->). cbn [mbind option_bind]. destruct (all_emit ctx l false IH Hwl Hl) as (x & ->). cbn. eauto.
  - apply andb_true_iff in Hty as [Ht Hl]. unfold cmp_typed in Ht. unfold cmp_tag. destruct (child_type ctx l 0) as [t0|]; [|done]. destruct (child_type ctx l 1) as [t1|]; [|done].
    cbn [mbind option_bind]. rewrite Ht. cbn [negb mbind option_bind]. destruct (all_emit ctx l false IH Hwl Hl) as (x & ->). cbn. eauto.
  - destruct (all_emit ctx l false IH Hwl Hty) as (x & ->). cbn. eauto.
  - destruct (all_emit ctx l false IH Hwl Hty) as (x & ->). cbn. eauto.
  - apply andb_true_iff in Hty as [Ht Hl]. destruct (all_emit ctx l true IH Hwl Hl) as (x & ->). destruct (call_abi ctx name) as [abi|]; [|done].
    cbn [wf] in Hwf. apply andb_true_iff in Hwf as [Hw _]. apply andb_true_iff in Hw as [Hw _]. unfold wf_call in Hw. rewrite !andb_true_iff in Hw.
    destruct (Z.ltb_spec 65535 (Z.of_nat (length name))); [lia|]. cbn. eauto.
Qed.

(** ** The theorem *)

Lemma serialized_bytes ctx e realloc_ok malloc_ok bytes : wf ctx e = true ->
  serialize_expr_to_buffer_ctx realloc_ok malloc_ok e ctx = Some (Some bytes) -> emit ctx e false = Some bytes.
Proof.
  intros Hwf. pose proof (serialize_appends realloc_ok ctx e (Buf [] 64) false (wf_short ctx e Hwf)) as Ha. unfold serialize_expr_to_buffer_ctx, expr_buf_init.
  destruct malloc_ok; [|by destruct e]. destruct e; [done|..]; cbn [and_then];
    (destruct (serialize_expr _ _ _ _ _) as [[buf|]|]; [|done..]; intros [= <-]; destruct (Ha buf eq_refl) as (x & -> & ->); done).
Qed.


#[local] Existing Instance ExprProof.list_host.

(** x + strlen(y) < 7 over the columns x (a number) and y (a string) *)
Definition demo_ctx : option col_ctx := Some (Cols (Some [Some [120]; Some [121]]) (Some [T_SCALAR; T_STRING]) 2 None).
Definition demo_expr : expr :=
  E_cmp LT [E_arith (IA_bin ADD) [E_var (Some [120]); E_str_fn STRLEN [E_var (Some [121])]]; E_int 7].


(** A constant of 65536 bytes is serialised as the empty string. *)
Example long_constant_cut :
  serialize_expr_to_buffer_ctx (fun _ => true) true (E_str (Some (replicate (Z.to_nat 65536) 97))) None = Some (Some [3; 0; 0]).
Proof. vm_compute. reflexivity. Qed.

End ExprSpec.
