(* ===== verification/EvalStack.v ===== *)
(** * The operator stack (src/wirelog/columnar/eval_stack.c) and the
    concatenation operator (src/wirelog/columnar/merge.c)

    Operators pop their inputs from a stack of relations and push their
    result.  An entry owns its relation or borrows it, and owns the segment
    boundaries that a concatenation attaches to it.  What an operation frees is
    part of its result, so that leaks and double frees are visible. *)

From S2P Require Import Prelude RadixSort Relation Consolidate.

Module EvalStack.

Import Keys Rel Consolidate.

Definition ENOTSUP : Z := 95.
Definition ENOBUFS : Z := 105.
Definition COL_STACK_MAX : nat := 32.
Definition ENTRY_RELATION : Z := 0.
Definition ENTRY_CONTINUATION : Z := 1.

Section Stack.

(** Suspended producers; only their identity matters here. *)
Context {K : Type}.

(** What is freed. *)
Inductive resource := F_relation (r : rel) | F_segments (l : list nat) | F_continuation (k : K).

(** eval_entry_t; a NULL pointer is [None]. *)
Record entry := En {
  e_rel : option rel;
  owned : bool;
  is_delta : bool;
  seg_boundaries : option (list nat);
  seg_count : nat;
  kind : Z;
  continuation : option K }.

(** The entry of zeros. *)
Definition no_entry : entry := En None false false None 0 ENTRY_RELATION None.

(** eval_stack_t: the items below [top], the last one first. *)
Definition stack : Type := list entry.

Definition eval_stack_init : stack := [].

Definition eval_stack_push (s : stack) (r : option rel) (own : bool) : stack * Z :=
  if (COL_STACK_MAX <=? length s)%nat then (s, ENOBUFS)
  else (En r own false None 0 ENTRY_RELATION None :: s, 0).

Definition eval_stack_push_continuation (s : stack) (k : option K) : stack * Z :=
  match k with
  | None => (s, EINVAL)
  | Some _ =>
      if (COL_STACK_MAX <=? length s)%nat then (s, ENOBUFS)
      else (En None true false None 0 ENTRY_CONTINUATION k :: s, 0)
  end.

Definition set_delta (d : bool) (e : entry) : entry :=
  En (e_rel e) (owned e) d (seg_boundaries e) (seg_count e) (kind e) (continuation e).
Definition set_segments (l : option (list nat)) (n : nat) (e : entry) : entry :=
  En (e_rel e) (owned e) (is_delta e) l n (kind e) (continuation e).

(** items[top - 1] of a nonempty stack is changed. *)
Definition on_top (f : entry -> entry) (s : stack) : stack := match s with [] => [] | e :: s' => f e :: s' end.

Definition eval_stack_push_delta (s : stack) (r : option rel) (own delta : bool) : stack * Z :=
  let '(s, rc) := eval_stack_push s r own in
  ((if rc =? 0 then on_top (set_delta delta) s else s), rc).

Definition eval_stack_pop (s : stack) : entry * stack := match s with [] => (no_entry, []) | e :: s' => (e, s') end.

(** free, col_rel_destroy and the destructor of continuations do nothing on
    NULL. *)
Definition eval_entry_dispose (e : entry) : list resource :=
  match seg_boundaries e with Some l => [F_segments l] | None => [] end ++
  (if kind e =? ENTRY_CONTINUATION then match continuation e with Some k => [F_continuation k] | None => [] end
   else if owned e then match e_rel e with Some r => [F_relation r] | None => [] end
   else []).

(** The stack, the code, the entry and what was freed. *)
Definition eval_stack_pop_relation (s : stack) : stack * Z * entry * list resource :=
  match s with
  | [] => (s, EINVAL, no_entry, [])
  | _ =>
      let '(e, s) := eval_stack_pop s in
      if kind e =? ENTRY_CONTINUATION then (s, ENOTSUP, no_entry, eval_entry_dispose e)
      else if negb (kind e =? ENTRY_RELATION) then (s, EINVAL, no_entry, eval_entry_dispose e)
      else match e_rel e with None => (s, EINVAL, no_entry, eval_entry_dispose e) | Some _ => (s, 0, e, []) end
  end.

(** while (s->top > 0) *)
Fixpoint eval_stack_drain (s : stack) : list resource :=
  match s with [] => [] | e :: s' => eval_entry_dispose e ++ eval_stack_drain s' end.

(** ** Concatenation *)

(** Float lanes take only float lanes. *)
Fixpoint lanes_compatible (n c : nat) (dst src : shape) : option bool :=
  match n with
  | O => Some true
  | S n' =>
      dt ← column_type_at dst c; st ← column_type_at src c;
      if (is_float dt || is_float st) && negb (bool_decide (dt = st)) then Some false else lanes_compatible n' (S c) dst src
  end.

Definition set_types (ts : option (list column_type)) (r : rel) : rel :=
  R (Sh (ncols r) ts) (rows r) (nrows r) (capacity r) (sorted_nrows r) (merge_columns r) (merge_buf_cap r) (timestamps r) (run_count r) (run_ends r).

(** The checks of col_rel_append_all on the lanes; an untyped destination takes
    the types of the source when the append succeeds.  [types_ok]: the types
    could be copied. *)
Definition append_checked (types_ok grow_ok : bool) (dst src : rel) : option (rel * Z) :=
  if negb (ncols dst =? ncols src)%nat then Some (dst, EINVAL)
  else if (nrows src =? 0)%nat then Some (dst, 0)
  else
    compatible ← lanes_compatible (ncols dst) 0 dst src;
    if negb compatible then Some (dst, EINVAL)
    else
      valid ← float_values_valid src;
      if negb valid then Some (dst, EINVAL)
      else
        let typed := match column_types dst, column_types src with None, Some _ => true | _, _ => false end in
        if typed && (UINT32_MAX - Z.of_nat (nrows dst) <? Z.of_nat (nrows src)) then Some (dst, EOVERFLOW)
        else if typed && negb types_ok then Some (dst, ENOMEM)
        else
          '(d, rc) ← col_rel_append_all grow_ok (if typed then set_types (column_types src) dst else dst) src;
          Some (if rc =? 0 then d else dst, rc).

(** The outcomes of its allocations. *)
Record concat_env := Cenv { out_ok : bool; types_ok : bool; grow1_ok : bool; grow2_ok : bool; bounds_malloc_ok : bool }.

(** out_boundaries[off + i] = src[i] + add for i <= n *)
Fixpoint copy_bounds (n : nat) (src : list nat) (add : nat) (i : nat) (dst : list nat) (off : nat) : option (list nat) :=
  match n with
  | O => Some dst
  | S n' => x ← rd src i; dst ← wr dst (off + i) (x + add)%nat; copy_bounds n' src add (S i) dst off
  end.

(** The boundaries of the left segments, then those of the right ones. *)
Definition concat_bounds (ea eb : entry) (na nout : nat) : option (list nat * nat) :=
  let left_segs := if (0 <? seg_count ea)%nat then seg_count ea else 1%nat in
  let right_segs := if (0 <? seg_count eb)%nat then seg_count eb else 1%nat in
  let total := (left_segs + right_segs)%nat in
  let l := replicate (total + 1) 0%nat in
  l ← (match seg_boundaries ea with
       | Some src => copy_bounds (left_segs + 1) src 0 0 l 0
       | None => l ← wr l 0 0%nat; wr l 1 na
       end);
  l ← (match seg_boundaries eb with
       | Some src => copy_bounds (right_segs + 1) src na 0 l left_segs
       | None => l ← wr l left_segs na; wr l (left_segs + 1) nout
       end);
  Some (l, total).

(** The stack, the code and what was freed. *)
Definition col_op_concat (e : concat_env) (s : stack) : option (stack * Z * list resource) :=
  if (length s <? 2)%nat then Some (s, 0, [])
  else
    let '(s, rc, eb, f1) := eval_stack_pop_relation s in
    if negb (rc =? 0) then Some (s, rc, f1)
    else
      let '(s, rc, ea, f2) := eval_stack_pop_relation s in
      if negb (rc =? 0) then Some (s, rc, f2 ++ eval_entry_dispose eb)
      else
        let both := eval_entry_dispose ea ++ eval_entry_dispose eb in
        match e_rel ea, e_rel eb with
        | Some a, Some b =>
            if negb (ncols a =? ncols b)%nat then Some (s, EINVAL, both)
            else if negb (out_ok e) then Some (s, ENOMEM, both)
            else
              '(out, rc) ← append_checked (types_ok e) (grow1_ok e) (new_like a) a;
              '(out, rc) ← (if rc =? 0 then append_checked (types_ok e) (grow2_ok e) out b else Some (out, rc));
              if negb (rc =? 0) then Some (s, rc, both ++ [F_relation out])
              else if negb (bounds_malloc_ok e) then Some (s, ENOMEM, both ++ [F_relation out])
              else
                '(l, total) ← concat_bounds ea eb (nrows a) (nrows out);
                let '(s, rc) := eval_stack_push s (Some out) true in
                if negb (rc =? 0) then Some (s, rc, both ++ [F_segments l; F_relation out])
                else Some (on_top (set_segments (Some l) total) s, 0, both)
        | _, _ => Some (s, EINVAL, both)
        end.

End Stack.

Arguments resource : clear implicits.
Arguments entry : clear implicits.
Arguments stack : clear implicits.

End EvalStack.
