(* ===== verification/Filter.v ===== *)
(** * The filter operator (src/wirelog/columnar/filter.c)

    A filter reads a relation from the stack and pushes the rows that a
    serialised predicate accepts.  A comparison of a column with a column or a
    constant takes a fast path: with AVX2, eight rows at a time are compared
    and the numbers of the passing ones are packed through a table, a tile of
    1024 rows after the other; otherwise the rows are compared one by one.  Any
    other predicate is compiled or, failing that, interpreted row by row.  The
    filters of join inputs have a cache of filtered relations. *)

From S2P Require Import Prelude Relation Consolidate StringOps Expr ExprCompile EvalStack.

Module Filter.

Import Rel Consolidate StringOps.StringOps Expr.Expr ExprCompile.ExprCompile EvalStack.

(** ** Simple comparisons *)

(** simple_filter_cmp_t *)
Record simple_cmp := Simple { col_a : Z; b_is_const : bool; col_b : Z; const_b : Z; cmp_tag : tag }.

(** [None] inside: false *)
Definition filter_is_simple_cmp (buf : list Z) : option (option simple_cmp) :=
  let size := Z.of_nat (length buf) in
  if size =? 0 then Some None
  else
    a ← parse_var_col buf size 0;
    match a with
    | None => Some None
    | Some (pos, col_a) =>
        second ←
          (if pos <? size then
             b ← byte buf pos;
             if b =? 2 then
               let pos := u32 (pos + 1) in
               if size <? u32 (pos + 8) then Some None
               else k ← le_int64 buf pos; Some (Some (u32 (pos + 8), true, 0, k))
             else if b =? 1 then
               r ← parse_var_col buf size pos;
               Some (match r with None => None | Some (pos, col_b) => Some (pos, false, col_b, 0) end)
             else Some None
           else Some None);
        match second with
        | None => Some None
        | Some (pos, b_is_const, col_b, const_b) =>
            if size <=? pos then Some None
            else
              t ← byte buf pos;
              match tag_of_byte t with
              | Some (CMP op) => Some (if u32 (pos + 1) =? size then Some (Simple col_a b_is_const col_b const_b (CMP op)) else None)
              | _ => Some None
              end
        end
    end.

(** An unrecognised opcode rejects the row. *)
Definition col_filter_cmp_scalar (a b : Z) (t : tag) : bool :=
  match t with
  | CMP EQ => a =? b
  | CMP NEQ => negb (a =? b)
  | CMP LT => a <? b
  | CMP LTE => a <=? b
  | CMP GT => b <? a
  | CMP GTE => b <=? a
  | _ => false
  end.

Definition col_filter_cmp_row (row : list Z) (ncols : Z) (c : simple_cmp) : option bool :=
  if ncols <=? col_a c then Some false
  else
    a ← rd row (Z.to_nat (col_a c));
    b ← (if b_is_const c then Some (const_b c) else if col_b c <? ncols then rd row (Z.to_nat (col_b c)) else Some 0);
    Some (col_filter_cmp_scalar a b (cmp_tag c)).

(** ** The selection kernel *)

Definition COL_FILTER_TILE : nat := 1024.
Definition COL_FILTER_SEL_SLACK : nat := 8.

(** For the mask m, entry j is the number of the j-th set bit of m. *)
Definition col_filter_leftpack_lut : list (list nat) := [
  [0; 0; 0; 0; 0; 0; 0; 0]; [0; 0; 0; 0; 0; 0; 0; 0]; [1; 0; 0; 0; 0; 0; 0; 0]; [0; 1; 0; 0; 0; 0; 0; 0];
  [2; 0; 0; 0; 0; 0; 0; 0]; [0; 2; 0; 0; 0; 0; 0; 0]; [1; 2; 0; 0; 0; 0; 0; 0]; [0; 1; 2; 0; 0; 0; 0; 0];
  [3; 0; 0; 0; 0; 0; 0; 0]; [0; 3; 0; 0; 0; 0; 0; 0]; [1; 3; 0; 0; 0; 0; 0; 0]; [0; 1; 3; 0; 0; 0; 0; 0];
  [2; 3; 0; 0; 0; 0; 0; 0]; [0; 2; 3; 0; 0; 0; 0; 0]; [1; 2; 3; 0; 0; 0; 0; 0]; [0; 1; 2; 3; 0; 0; 0; 0];
  [4; 0; 0; 0; 0; 0; 0; 0]; [0; 4; 0; 0; 0; 0; 0; 0]; [1; 4; 0; 0; 0; 0; 0; 0]; [0; 1; 4; 0; 0; 0; 0; 0];
  [2; 4; 0; 0; 0; 0; 0; 0]; [0; 2; 4; 0; 0; 0; 0; 0]; [1; 2; 4; 0; 0; 0; 0; 0]; [0; 1; 2; 4; 0; 0; 0; 0];
  [3; 4; 0; 0; 0; 0; 0; 0]; [0; 3; 4; 0; 0; 0; 0; 0]; [1; 3; 4; 0; 0; 0; 0; 0]; [0; 1; 3; 4; 0; 0; 0; 0];
  [2; 3; 4; 0; 0; 0; 0; 0]; [0; 2; 3; 4; 0; 0; 0; 0]; [1; 2; 3; 4; 0; 0; 0; 0]; [0; 1; 2; 3; 4; 0; 0; 0];
  [5; 0; 0; 0; 0; 0; 0; 0]; [0; 5; 0; 0; 0; 0; 0; 0]; [1; 5; 0; 0; 0; 0; 0; 0]; [0; 1; 5; 0; 0; 0; 0; 0];
  [2; 5; 0; 0; 0; 0; 0; 0]; [0; 2; 5; 0; 0; 0; 0; 0]; [1; 2; 5; 0; 0; 0; 0; 0]; [0; 1; 2; 5; 0; 0; 0; 0];
  [3; 5; 0; 0; 0; 0; 0; 0]; [0; 3; 5; 0; 0; 0; 0; 0]; [1; 3; 5; 0; 0; 0; 0; 0]; [0; 1; 3; 5; 0; 0; 0; 0];
  [2; 3; 5; 0; 0; 0; 0; 0]; [0; 2; 3; 5; 0; 0; 0; 0]; [1; 2; 3; 5; 0; 0; 0; 0]; [0; 1; 2; 3; 5; 0; 0; 0];
  [4; 5; 0; 0; 0; 0; 0; 0]; [0; 4; 5; 0; 0; 0; 0; 0]; [1; 4; 5; 0; 0; 0; 0; 0]; [0; 1; 4; 5; 0; 0; 0; 0];
  [2; 4; 5; 0; 0; 0; 0; 0]; [0; 2; 4; 5; 0; 0; 0; 0]; [1; 2; 4; 5; 0; 0; 0; 0]; [0; 1; 2; 4; 5; 0; 0; 0];
  [3; 4; 5; 0; 0; 0; 0; 0]; [0; 3; 4; 5; 0; 0; 0; 0]; [1; 3; 4; 5; 0; 0; 0; 0]; [0; 1; 3; 4; 5; 0; 0; 0];
  [2; 3; 4; 5; 0; 0; 0; 0]; [0; 2; 3; 4; 5; 0; 0; 0]; [1; 2; 3; 4; 5; 0; 0; 0]; [0; 1; 2; 3; 4; 5; 0; 0];
  [6; 0; 0; 0; 0; 0; 0; 0]; [0; 6; 0; 0; 0; 0; 0; 0]; [1; 6; 0; 0; 0; 0; 0; 0]; [0; 1; 6; 0; 0; 0; 0; 0];
  [2; 6; 0; 0; 0; 0; 0; 0]; [0; 2; 6; 0; 0; 0; 0; 0]; [1; 2; 6; 0; 0; 0; 0; 0]; [0; 1; 2; 6; 0; 0; 0; 0];
  [3; 6; 0; 0; 0; 0; 0; 0]; [0; 3; 6; 0; 0; 0; 0; 0]; [1; 3; 6; 0; 0; 0; 0; 0]; [0; 1; 3; 6; 0; 0; 0; 0];
  [2; 3; 6; 0; 0; 0; 0; 0]; [0; 2; 3; 6; 0; 0; 0; 0]; [1; 2; 3; 6; 0; 0; 0; 0]; [0; 1; 2; 3; 6; 0; 0; 0];
  [4; 6; 0; 0; 0; 0; 0; 0]; [0; 4; 6; 0; 0; 0; 0; 0]; [1; 4; 6; 0; 0; 0; 0; 0]; [0; 1; 4; 6; 0; 0; 0; 0];
  [2; 4; 6; 0; 0; 0; 0; 0]; [0; 2; 4; 6; 0; 0; 0; 0]; [1; 2; 4; 6; 0; 0; 0; 0]; [0; 1; 2; 4; 6; 0; 0; 0];
  [3; 4; 6; 0; 0; 0; 0; 0]; [0; 3; 4; 6; 0; 0; 0; 0]; [1; 3; 4; 6; 0; 0; 0; 0]; [0; 1; 3; 4; 6; 0; 0; 0];
  [2; 3; 4; 6; 0; 0; 0; 0]; [0; 2; 3; 4; 6; 0; 0; 0]; [1; 2; 3; 4; 6; 0; 0; 0]; [0; 1; 2; 3; 4; 6; 0; 0];
  [5; 6; 0; 0; 0; 0; 0; 0]; [0; 5; 6; 0; 0; 0; 0; 0]; [1; 5; 6; 0; 0; 0; 0; 0]; [0; 1; 5; 6; 0; 0; 0; 0];
  [2; 5; 6; 0; 0; 0; 0; 0]; [0; 2; 5; 6; 0; 0; 0; 0]; [1; 2; 5; 6; 0; 0; 0; 0]; [0; 1; 2; 5; 6; 0; 0; 0];
  [3; 5; 6; 0; 0; 0; 0; 0]; [0; 3; 5; 6; 0; 0; 0; 0]; [1; 3; 5; 6; 0; 0; 0; 0]; [0; 1; 3; 5; 6; 0; 0; 0];
  [2; 3; 5; 6; 0; 0; 0; 0]; [0; 2; 3; 5; 6; 0; 0; 0]; [1; 2; 3; 5; 6; 0; 0; 0]; [0; 1; 2; 3; 5; 6; 0; 0];
  [4; 5; 6; 0; 0; 0; 0; 0]; [0; 4; 5; 6; 0; 0; 0; 0]; [1; 4; 5; 6; 0; 0; 0; 0]; [0; 1; 4; 5; 6; 0; 0; 0];
  [2; 4; 5; 6; 0; 0; 0; 0]; [0; 2; 4; 5; 6; 0; 0; 0]; [1; 2; 4; 5; 6; 0; 0; 0]; [0; 1; 2; 4; 5; 6; 0; 0];
  [3; 4; 5; 6; 0; 0; 0; 0]; [0; 3; 4; 5; 6; 0; 0; 0]; [1; 3; 4; 5; 6; 0; 0; 0]; [0; 1; 3; 4; 5; 6; 0; 0];
  [2; 3; 4; 5; 6; 0; 0; 0]; [0; 2; 3; 4; 5; 6; 0; 0]; [1; 2; 3; 4; 5; 6; 0; 0]; [0; 1; 2; 3; 4; 5; 6; 0];
  [7; 0; 0; 0; 0; 0; 0; 0]; [0; 7; 0; 0; 0; 0; 0; 0]; [1; 7; 0; 0; 0; 0; 0; 0]; [0; 1; 7; 0; 0; 0; 0; 0];
  [2; 7; 0; 0; 0; 0; 0; 0]; [0; 2; 7; 0; 0; 0; 0; 0]; [1; 2; 7; 0; 0; 0; 0; 0]; [0; 1; 2; 7; 0; 0; 0; 0];
  [3; 7; 0; 0; 0; 0; 0; 0]; [0; 3; 7; 0; 0; 0; 0; 0]; [1; 3; 7; 0; 0; 0; 0; 0]; [0; 1; 3; 7; 0; 0; 0; 0];
  [2; 3; 7; 0; 0; 0; 0; 0]; [0; 2; 3; 7; 0; 0; 0; 0]; [1; 2; 3; 7; 0; 0; 0; 0]; [0; 1; 2; 3; 7; 0; 0; 0];
  [4; 7; 0; 0; 0; 0; 0; 0]; [0; 4; 7; 0; 0; 0; 0; 0]; [1; 4; 7; 0; 0; 0; 0; 0]; [0; 1; 4; 7; 0; 0; 0; 0];
  [2; 4; 7; 0; 0; 0; 0; 0]; [0; 2; 4; 7; 0; 0; 0; 0]; [1; 2; 4; 7; 0; 0; 0; 0]; [0; 1; 2; 4; 7; 0; 0; 0];
  [3; 4; 7; 0; 0; 0; 0; 0]; [0; 3; 4; 7; 0; 0; 0; 0]; [1; 3; 4; 7; 0; 0; 0; 0]; [0; 1; 3; 4; 7; 0; 0; 0];
  [2; 3; 4; 7; 0; 0; 0; 0]; [0; 2; 3; 4; 7; 0; 0; 0]; [1; 2; 3; 4; 7; 0; 0; 0]; [0; 1; 2; 3; 4; 7; 0; 0];
  [5; 7; 0; 0; 0; 0; 0; 0]; [0; 5; 7; 0; 0; 0; 0; 0]; [1; 5; 7; 0; 0; 0; 0; 0]; [0; 1; 5; 7; 0; 0; 0; 0];
  [2; 5; 7; 0; 0; 0; 0; 0]; [0; 2; 5; 7; 0; 0; 0; 0]; [1; 2; 5; 7; 0; 0; 0; 0]; [0; 1; 2; 5; 7; 0; 0; 0];
  [3; 5; 7; 0; 0; 0; 0; 0]; [0; 3; 5; 7; 0; 0; 0; 0]; [1; 3; 5; 7; 0; 0; 0; 0]; [0; 1; 3; 5; 7; 0; 0; 0];
  [2; 3; 5; 7; 0; 0; 0; 0]; [0; 2; 3; 5; 7; 0; 0; 0]; [1; 2; 3; 5; 7; 0; 0; 0]; [0; 1; 2; 3; 5; 7; 0; 0];
  [4; 5; 7; 0; 0; 0; 0; 0]; [0; 4; 5; 7; 0; 0; 0; 0]; [1; 4; 5; 7; 0; 0; 0; 0]; [0; 1; 4; 5; 7; 0; 0; 0];
  [2; 4; 5; 7; 0; 0; 0; 0]; [0; 2; 4; 5; 7; 0; 0; 0]; [1; 2; 4; 5; 7; 0; 0; 0]; [0; 1; 2; 4; 5; 7; 0; 0];
  [3; 4; 5; 7; 0; 0; 0; 0]; [0; 3; 4; 5; 7; 0; 0; 0]; [1; 3; 4; 5; 7; 0; 0; 0]; [0; 1; 3; 4; 5; 7; 0; 0];
  [2; 3; 4; 5; 7; 0; 0; 0]; [0; 2; 3; 4; 5; 7; 0; 0]; [1; 2; 3; 4; 5; 7; 0; 0]; [0; 1; 2; 3; 4; 5; 7; 0];
  [6; 7; 0; 0; 0; 0; 0; 0]; [0; 6; 7; 0; 0; 0; 0; 0]; [1; 6; 7; 0; 0; 0; 0; 0]; [0; 1; 6; 7; 0; 0; 0; 0];
  [2; 6; 7; 0; 0; 0; 0; 0]; [0; 2; 6; 7; 0; 0; 0; 0]; [1; 2; 6; 7; 0; 0; 0; 0]; [0; 1; 2; 6; 7; 0; 0; 0];
  [3; 6; 7; 0; 0; 0; 0; 0]; [0; 3; 6; 7; 0; 0; 0; 0]; [1; 3; 6; 7; 0; 0; 0; 0]; [0; 1; 3; 6; 7; 0; 0; 0];
  [2; 3; 6; 7; 0; 0; 0; 0]; [0; 2; 3; 6; 7; 0; 0; 0]; [1; 2; 3; 6; 7; 0; 0; 0]; [0; 1; 2; 3; 6; 7; 0; 0];
  [4; 6; 7; 0; 0; 0; 0; 0]; [0; 4; 6; 7; 0; 0; 0; 0]; [1; 4; 6; 7; 0; 0; 0; 0]; [0; 1; 4; 6; 7; 0; 0; 0];
  [2; 4; 6; 7; 0; 0; 0; 0]; [0; 2; 4; 6; 7; 0; 0; 0]; [1; 2; 4; 6; 7; 0; 0; 0]; [0; 1; 2; 4; 6; 7; 0; 0];
  [3; 4; 6; 7; 0; 0; 0; 0]; [0; 3; 4; 6; 7; 0; 0; 0]; [1; 3; 4; 6; 7; 0; 0; 0]; [0; 1; 3; 4; 6; 7; 0; 0];
  [2; 3; 4; 6; 7; 0; 0; 0]; [0; 2; 3; 4; 6; 7; 0; 0]; [1; 2; 3; 4; 6; 7; 0; 0]; [0; 1; 2; 3; 4; 6; 7; 0];
  [5; 6; 7; 0; 0; 0; 0; 0]; [0; 5; 6; 7; 0; 0; 0; 0]; [1; 5; 6; 7; 0; 0; 0; 0]; [0; 1; 5; 6; 7; 0; 0; 0];
  [2; 5; 6; 7; 0; 0; 0; 0]; [0; 2; 5; 6; 7; 0; 0; 0]; [1; 2; 5; 6; 7; 0; 0; 0]; [0; 1; 2; 5; 6; 7; 0; 0];
  [3; 5; 6; 7; 0; 0; 0; 0]; [0; 3; 5; 6; 7; 0; 0; 0]; [1; 3; 5; 6; 7; 0; 0; 0]; [0; 1; 3; 5; 6; 7; 0; 0];
  [2; 3; 5; 6; 7; 0; 0; 0]; [0; 2; 3; 5; 6; 7; 0; 0]; [1; 2; 3; 5; 6; 7; 0; 0]; [0; 1; 2; 3; 5; 6; 7; 0];
  [4; 5; 6; 7; 0; 0; 0; 0]; [0; 4; 5; 6; 7; 0; 0; 0]; [1; 4; 5; 6; 7; 0; 0; 0]; [0; 1; 4; 5; 6; 7; 0; 0];
  [2; 4; 5; 6; 7; 0; 0; 0]; [0; 2; 4; 5; 6; 7; 0; 0]; [1; 2; 4; 5; 6; 7; 0; 0]; [0; 1; 2; 4; 5; 6; 7; 0];
  [3; 4; 5; 6; 7; 0; 0; 0]; [0; 3; 4; 5; 6; 7; 0; 0]; [1; 3; 4; 5; 6; 7; 0; 0]; [0; 1; 3; 4; 5; 6; 7; 0];
  [2; 3; 4; 5; 6; 7; 0; 0]; [0; 2; 3; 4; 5; 6; 7; 0]; [1; 2; 3; 4; 5; 6; 7; 0]; [0; 1; 2; 3; 4; 5; 6; 7]
]%nat.

(** Four or eight consecutive lanes. *)
Fixpoint lanes_at (n : nat) (col : list Z) (r : nat) : option (list Z) :=
  match n with O => Some [] | S n' => x ← rd col r; l ← lanes_at n' col (S r); Some (x :: l) end.

(** _mm256_cmpeq_epi64 and _mm256_cmpgt_epi64: all ones where it holds. *)
Definition cmp_lanes (use_eq : bool) (x y : list Z) : list Z :=
  zip_with (fun a b => if (if use_eq then a =? b else b <? a) then -1 else 0) x y.

(** _mm256_movemask_pd: the sign bits, lane 0 lowest. *)
Fixpoint movemask (l : list Z) : Z := match l with [] => 0 | x :: l' => Z.b2z (x <? 0) + 2 * movemask l' end.

(** __builtin_popcount of a mask of [n] bits *)
Fixpoint popcount (n : nat) (m : Z) : nat := match n with O => O | S n' => ((if Z.odd m then 1 else 0) + popcount n' (Z.div2 m))%nat end.

Section Select.

Context (col_a : list Z) (col_b : option (list Z)) (const_b : Z) (nrows : nat) (t : tag).

(** The eight rows from [r] on, as a mask. *)
Definition block_mask (r : nat) : option Z :=
  let use_eq := match t with CMP EQ | CMP NEQ => true | _ => false end in
  let swap := match t with CMP LT | CMP GTE => true | _ => false end in
  let invert := match t with CMP NEQ | CMP GTE | CMP LTE => true | _ => false end in
  a0 ← lanes_at 4 col_a r;
  a1 ← lanes_at 4 col_a (r + 4);
  b0 ← (match col_b with Some c => lanes_at 4 c r | None => Some (replicate 4 const_b) end);
  b1 ← (match col_b with Some c => lanes_at 4 c (r + 4) | None => Some (replicate 4 const_b) end);
  let m0 := if swap then cmp_lanes use_eq b0 a0 else cmp_lanes use_eq a0 b0 in
  let m1 := if swap then cmp_lanes use_eq b1 a1 else cmp_lanes use_eq a1 b1 in
  let inv := fun m => if invert then (fun x => Z.lxor x (-1)) <$> m else m in
  Some (Z.lor (movemask (inv m0)) (Z.shiftl (movemask (inv m1)) 4)).

(** The row numbers from [r] on, permuted by the table. *)
Definition packed (r : nat) (mask : Z) : option (list nat) :=
  perm ← rd col_filter_leftpack_lut (Z.to_nat mask);
  mapM (fun j => rd (seq r 8) j) perm.

(** Storing into the selection vector: outside of it there is nothing. *)
Definition store_at (sel : list nat) (off : nat) (l : list nat) : option (list nat) :=
  if decide (off + length l <= length sel)%nat then Some (take off sel ++ l ++ drop (off + length l) sel) else None.

(** for (; nrows >= 8 && r <= nrows - 8; r += 8), [n] turns of fuel *)
Fixpoint avx_loop (n : nat) (r out : nat) (sel : list nat) : option (nat * nat * list nat) :=
  if (8 <=? nrows)%nat && (r <=? nrows - 8)%nat then
    match n with
    | O => None
    | S n' =>
        mask ← block_mask r;
        if mask =? 0 then avx_loop n' (r + 8) out sel
        else
          l ← packed r mask;
          sel ← store_at sel out l;
          avx_loop n' (r + 8) (out + popcount 8 mask) sel
    end
  else Some (r, out, sel).

(** for (; r < nrows; r++), [n] rows left *)
Fixpoint tail_loop (n : nat) (r out : nat) (sel : list nat) : option (nat * list nat) :=
  match n with
  | O => Some (out, sel)
  | S n' =>
      b ← (match col_b with Some c => rd c r | None => Some const_b end);
      a ← rd col_a r;
      if col_filter_cmp_scalar a b t then sel ← wr sel out r; tail_loop n' (S r) (S out) sel
      else tail_loop n' (S r) out sel
  end.

(** The number of passing rows and the selection vector. *)
Definition col_filter_select_rows (avx2 : bool) (sel : list nat) : option (nat * list nat) :=
  if (nrows =? 0)%nat then Some (O, sel)
  else
    match t with
    | CMP _ =>
        '(r, out, sel) ← (if avx2 then avx_loop nrows 0 0 sel else Some (O, O, sel));
        tail_loop (nrows - r) r out sel
    | _ => Some (O, sel)
    end.

End Select.

(** ** The operator *)

Section Operator.

Context {W : Type} `{!Host W} {K : Type}.

(** What the operator reads of the session. *)
Record session := Sess {
  s_intern : bool;
  s_extensions : option (str -> option (descriptor W));
  s_workers : Z;
  s_parallel : bool;
  s_key : option Z }.

Definition expr_ctx (ss : session) : context := Ctx (s_intern ss) (s_extensions ss) false (s_workers ss) (s_parallel ss) (s_key ss).

(** The build and the outcomes of the allocations; appending the i-th row may
    have to grow the output. *)
Record filter_env := Fenv {
  avx2 : bool;
  out_alloc : bool;
  tmp_alloc : bool;
  sel_alloc : bool;
  compile_alloc : bool;
  instrs_alloc : bool;
  row_alloc : bool;
  grow_alloc : nat -> bool }.

(** columns[c]: the cells of the rows there are. *)
Definition column (r : rel) (c : nat) : option (list Z) := mapM (fun x => rd x c) (take (nrows r) (rows r)).

(** for (c < ncols) tmp[off + c] = columns[c][src], [n] cells left *)
Fixpoint copy_cells (n : nat) (x : row) (c : nat) (tmp : list Z) (off : nat) : option (list Z) :=
  match n with
  | O => Some tmp
  | S n' => v ← rd x c; tmp ← wr tmp (off + c) v; copy_cells n' x (S c) tmp off
  end.

Definition copy_row (r : rel) (src nout : nat) (tmp : list Z) : option (list Z) :=
  x ← rd (rows r) src; copy_cells (ncols r) x 0 tmp (nout * ncols r).

(** The selected rows of a tile, [n] of them left. *)
Fixpoint materialize (n : nat) (r : rel) (sel : list nat) (base i nout : nat) (tmp : list Z) : option (nat * list Z) :=
  match n with
  | O => Some (nout, tmp)
  | S n' =>
      k ← rd sel i;
      tmp ← copy_row r (base + k) nout tmp;
      materialize n' r sel base (S i) (S nout) tmp
  end.

Definition b_column (r : rel) (c : simple_cmp) : option (option (list Z)) :=
  if negb (b_is_const c) && (col_b c <? Z.of_nat (ncols r)) then Some <$> column r (Z.to_nat (col_b c)) else Some None.

(** Tile by tile; [None] inside: the first tile asks for the fused loop. *)
Fixpoint tile_loop (fuel : nat) (e : filter_env) (r : rel) (c : simple_cmp) (ca : list Z) (cb : option (list Z))
    (sel : list nat) (base nout : nat) (tmp : list Z) : option (option (nat * list Z)) :=
  match fuel with
  | O => None
  | S fuel' =>
      if (base <? nrows r)%nat then
        let chunk := if (COL_FILTER_TILE <? nrows r - base)%nat then COL_FILTER_TILE else (nrows r - base)%nat in
        '(nsel, sel) ← col_filter_select_rows (drop base ca) (drop base <$> cb) (const_b c) chunk (cmp_tag c) (avx2 e) sel;
        if (base =? 0)%nat && (chunk - chunk / 8 <? nsel)%nat then Some None
        else
          '(nout, tmp) ← materialize nsel r sel base 0 nout tmp;
          tile_loop fuel' e r c ca cb sel (base + chunk) nout tmp
      else Some (Some (nout, tmp))
  end.

(** Row by row, [n] rows left. *)
Fixpoint fused_loop (n : nat) (r : rel) (c : simple_cmp) (ca : list Z) (cb : option (list Z)) (i nout : nat) (tmp : list Z) : option (nat * list Z) :=
  match n with
  | O => Some (nout, tmp)
  | S n' =>
      b ← (match cb with Some l => rd l i | None => Some (const_b c) end);
      a ← rd ca i;
      if col_filter_cmp_scalar a b (cmp_tag c) then tmp ← copy_row r i nout tmp; fused_loop n' r c ca cb (S i) (S nout) tmp
      else fused_loop n' r c ca cb (S i) nout tmp
  end.

(** The rows of [tmp] are appended, [n] of them left. *)
Fixpoint append_loop (n : nat) (e : filter_env) (nc : nat) (tmp : list Z) (i : nat) (out : rel) : option (rel * Z) :=
  match n with
  | O => Some (out, 0)
  | S n' =>
      '(out, rc) ← col_rel_append_row (grow_alloc e (nrows out)) out (take nc (drop (i * nc) tmp));
      if negb (rc =? 0) then Some (out, rc) else append_loop n' e nc tmp (S i) out
  end.

(** [None] inside: a buffer could not be allocated. *)
Definition fast_rows (e : filter_env) (r : rel) (c : simple_cmp) : option (option (nat * list Z)) :=
  ca ← column r (Z.to_nat (col_a c));
  cb ← b_column r c;
  let tmp := replicate (nrows r * ncols r) 0 in
  if negb (tmp_alloc e) then Some None
  else if avx2 e && negb (sel_alloc e) then Some None
  else
    tiled ← (if avx2 e then tile_loop (S (nrows r)) e r c ca cb (replicate (COL_FILTER_TILE + COL_FILTER_SEL_SLACK) O) 0 0 tmp else Some None);
    match tiled with
    | Some x => Some (Some x)
    | None => x ← fused_loop (nrows r) r c ca cb 0 0 tmp; Some (Some x)
    end.

(** What a row gives: 1 to keep it, 0 to drop it, or a status that ends the
    operator. *)
Definition row_passes (ss : session) (sessions : list Z) (buf : list Z) (ce : option compiled) (x : row) (nc : Z) (w : W) : option (W * (bool + Z)) :=
  if (length buf =? 0)%nat then Some (w, inl true)
  else
    match ce with
    | Some ce => '(rc, v) ← eval_compiled ce x nc w; Some (w, inl ((rc =? 0) && negb (v =? 0)))
    | None =>
        '(w, err, v) ← eval_run_ctx (expr_ctx ss) sessions buf x nc w;
        Some (w, if negb (err =? OK) && (EXTENSION_MALFORMED <=? err) then inr err else inl ((err =? OK) && negb (v =? 0)))
    end.

(** [n] rows left; the status, if one ends the loop. *)
Fixpoint slow_loop (n : nat) (e : filter_env) (ss : session) (sessions : list Z) (buf : list Z) (ce : option compiled) (r : rel) (i : nat) (out : rel) (w : W) :
    option (W * rel * Z * option Z) :=
  match n with
  | O => Some (w, out, 0, None)
  | S n' =>
      x ← rd (rows r) i;
      x ← lanes_at (ncols r) x 0;
      '(w, p) ← row_passes ss sessions buf ce x (Z.of_nat (ncols r)) w;
      match p with
      | inr st => Some (w, out, st, Some st)
      | inl pass =>
          '(out, rc) ← (if pass : bool then col_rel_append_row (grow_alloc e (nrows out)) out x else Some (out, 0));
          if negb (rc =? 0) then Some (w, out, rc, None)
          else slow_loop n' e ss sessions buf ce r (S i) out w
      end
  end.

(** The output is pushed, or destroyed with its code; the input is destroyed
    when it was owned. *)
Definition finish (s : stack K) (en : entry K) (r out : rel) (rc : Z) : stack K * Z * list (resource K) :=
  let input := if owned en then [F_relation r] else [] in
  if negb (rc =? 0) then (s, rc, F_relation out :: input)
  else let '(s, rc) := eval_stack_push s (Some out) true in (s, rc, input).

(** Whether the fast path applies, and its predicate. *)
Definition fast_cmp (buf : list Z) (r : rel) : option (option simple_cmp) :=
  if (length buf =? 0)%nat || (nrows r =? 0)%nat then Some None
  else
    c ← filter_is_simple_cmp buf;
    Some (c ← c;
      if (col_a c <? Z.of_nat (ncols r)) && (b_is_const c || (col_b c <? Z.of_nat (ncols r))) then Some c else None).

(** The world, the stack, the code, what was freed, and the status stored in
    the session. *)
Definition filter_op (e : filter_env) (ss : session) (sessions : list Z) (buf : list Z) (s : stack K) (w : W) :
    option (W * stack K * Z * list (resource K) * option Z) :=
  let '(s, pop_rc, en, freed) := eval_stack_pop_relation s in
  if negb (pop_rc =? 0) then Some (w, s, pop_rc, freed, None)
  else
    match e_rel en with
    | None => None
    | Some r =>
        let input := if owned en then [F_relation r] else [] in
        if negb (out_alloc e) then Some (w, s, ENOMEM, input, None)
        else
          let out := new_like r in
          fast ← fast_cmp buf r;
          match fast with
          | Some c =>
              rows ← fast_rows e r c;
              match rows with
              | None => Some (w, s, ENOMEM, F_relation out :: input, None)
              | Some (nout, tmp) =>
                  '(out, rc) ← append_loop nout e (ncols r) tmp 0 out;
                  let '(s, rc, freed) := finish s en r out rc in Some (w, s, rc, freed, None)
              end
          | None =>
              ce ← (if (length buf =? 0)%nat then Some None else compile (compile_alloc e) (instrs_alloc e) buf (s_intern ss));
              if negb ((ncols r <=? 32)%nat || row_alloc e) then Some (w, s, ENOMEM, F_relation out :: input, None)
              else
                '(w, out, rc, st) ← slow_loop (nrows r) e ss sessions buf ce r 0 out w;
                let '(s, rc, freed) := finish s en r out rc in Some (w, s, rc, freed, st)
          end
    end.

(** ** Filters of join inputs *)

Fixpoint fill_simple (n : nat) (e : filter_env) (c : simple_cmp) (r : rel) (i : nat) (out : rel) : option (rel * Z) :=
  match n with
  | O => Some (out, 0)
  | S n' =>
      x ← rd (rows r) i;
      x ← lanes_at (ncols r) x 0;
      pass ← col_filter_cmp_row x (Z.of_nat (ncols r)) c;
      '(out, rc) ← (if pass : bool then col_rel_append_row (grow_alloc e (nrows out)) out x else Some (out, 0));
      if negb (rc =? 0) then Some (out, ENOMEM) else fill_simple n' e c r (S i) out
  end.

(** A row on which the predicate fails is dropped. *)
Definition fill_passes (table : bool) (sessions : list Z) (buf : list Z) (ce : option compiled) (x : row) (nc : Z) (w : W) : option (W * bool) :=
  match ce with
  | Some ce => '(rc, v) ← eval_compiled ce x nc w; Some (w, (rc =? 0) && negb (v =? 0))
  | None => '(w, err, v) ← eval_run table sessions buf x nc w; Some (w, (err =? 0) && negb (v =? 0))
  end.

Fixpoint fill_loop (n : nat) (e : filter_env) (table : bool) (sessions : list Z) (buf : list Z) (ce : option compiled) (r : rel) (i : nat) (out : rel) (w : W) :
    option (W * rel * Z) :=
  match n with
  | O => Some (w, out, 0)
  | S n' =>
      x ← rd (rows r) i;
      x ← lanes_at (ncols r) x 0;
      '(w, pass) ← fill_passes table sessions buf ce x (Z.of_nat (ncols r)) w;
      '(out, rc) ← (if pass : bool then col_rel_append_row (grow_alloc e (nrows out)) out x else Some (out, 0));
      if negb (rc =? 0) then Some (w, out, ENOMEM) else fill_loop n' e table sessions buf ce r (S i) out w
  end.

Definition fill_filtered_rel (e : filter_env) (table : bool) (sessions : list Z) (buf : list Z) (r out : rel) (w : W) : option (W * rel * Z) :=
  if negb ((ncols r <=? 32)%nat || row_alloc e) then Some (w, out, ENOMEM)
  else
    simple ← filter_is_simple_cmp buf;
    match simple with
    | Some c => '(out, rc) ← fill_simple (nrows r) e c r 0 out; Some (w, out, rc)
    | None =>
        ce ← compile (compile_alloc e) (instrs_alloc e) buf table;
        fill_loop (nrows r) e table sessions buf ce r 0 out w
    end.

(** [None] inside: NULL *)
Definition apply_right_filter (e : filter_env) (table : bool) (sessions : list Z) (buf : list Z) (r : rel) (w : W) : option (W * option rel) :=
  if negb (out_alloc e) then Some (w, None)
  else
    '(w, out, rc) ← fill_filtered_rel e table sessions buf r (new_like r) w;
    Some (w, if negb (rc =? 0) then None else Some out).

(** *** The cache *)

(** col_relation_snapshot_t *)
Record snapshot := Snap { relation_identity : Z; view_generation : Z; storage_generation : Z }.

Definition snapshot_valid (x : snapshot) : bool :=
  negb (relation_identity x =? 0) && negb (view_generation x =? UINT64_MAX) && negb (storage_generation x =? UINT64_MAX).
Definition snapshot_equal (x y : snapshot) : bool :=
  snapshot_valid x && snapshot_valid y && (relation_identity x =? relation_identity y) &&
  (view_generation x =? view_generation y) && (storage_generation x =? storage_generation y).

(** col_filt_cache_entry_t *)
Record cached := Cached {
  rel_name : str;
  filter_hash : Z;
  filter_data : list Z;
  source_nrows : nat;
  source_snapshot : snapshot;
  filtered : option rel }.

(** The entries and the capacity of the array. *)
Record cache := Cache { entries : list cached; filt_cache_cap : Z }.

(** The outcomes of the allocations of a miss. *)
Record cache_env := Kenv { realloc_ok : bool; strdup_ok : bool; data_ok : bool }.

Definition fnv1a_hash (buf : list Z) : Z := foldl (fun h b => u64 (Z.lxor h b * 1099511628211)) 14695981039346656037 buf.

(** The first entry with this key, from [i] on. *)
Fixpoint find_entry (l : list cached) (name : str) (buf : list Z) (h : Z) (i : nat) : option nat :=
  match l with
  | [] => None
  | x :: l' =>
      if negb (filter_hash x =? h) then find_entry l' name buf h (S i)
      else if negb (bool_decide (rel_name x = name)) then find_entry l' name buf h (S i)
      else if negb (length (filter_data x) =? length buf)%nat || negb (bool_decide (filter_data x = buf)) then find_entry l' name buf h (S i)
      else Some i
  end.

Definition set_filtered (f : option rel) (x : cached) : cached :=
  Cached (rel_name x) (filter_hash x) (filter_data x) (source_nrows x) (source_snapshot x) f.
Definition stamped (n : nat) (sn : snapshot) (f : option rel) (x : cached) : cached :=
  Cached (rel_name x) (filter_hash x) (filter_data x) n sn f.

(** The world, the cache and the relation returned. *)
Definition apply_right_filter_cached (e : filter_env) (ke : cache_env) (table : bool) (sessions : list Z) (buf : list Z) (name : str)
    (r : rel) (sn : snapshot) (c : cache) (w : W) : option (W * cache * option rel) :=
  let h := fnv1a_hash buf in
  match find_entry (entries c) name buf h 0 with
  | Some i =>
      x ← rd (entries c) i;
      if snapshot_equal (source_snapshot x) sn && (source_nrows x =? nrows r)%nat then Some (w, c, filtered x)
      else if negb (out_alloc e) then
        l ← wr (entries c) i (set_filtered None x); Some (w, Cache l (filt_cache_cap c), None)
      else
        '(w, out, rc) ← fill_filtered_rel e table sessions buf r (new_like r) w;
        if negb (rc =? 0) then l ← wr (entries c) i (set_filtered None x); Some (w, Cache l (filt_cache_cap c), None)
        else l ← wr (entries c) i (stamped (nrows r) sn (Some out) x); Some (w, Cache l (filt_cache_cap c), Some out)
  | None =>
      let count := Z.of_nat (length (entries c)) in
      let full := count =? filt_cache_cap c in
      let new_cap := if filt_cache_cap c =? 0 then 4 else u32 (filt_cache_cap c * 2) in
      if full && negb (realloc_ok ke) then Some (w, c, None)
      else
        let cap := if full then new_cap else filt_cache_cap c in
        if cap <=? count then None
        else if negb (strdup_ok ke) || negb (data_ok ke) || negb (out_alloc e) then Some (w, Cache (entries c) cap, None)
        else
          let x := Cached name h buf 0 (Snap 0 0 0) None in
          '(w, out, rc) ← fill_filtered_rel e table sessions buf r (new_like r) w;
          if negb (rc =? 0) then Some (w, Cache (entries c ++ [x]) cap, None)
          else Some (w, Cache (entries c ++ [stamped (nrows r) sn (Some out) x]) cap, Some out)
  end.

End Operator.

(** ** Sizes of hash tables *)

Definition next_pow2 (n : Z) : Z :=
  if n <? 16 then 16
  else if UINT32_MAX / 2 + 1 <? n then 0
  else
    let n := u32 (n - 1) in
    let n := Z.lor n (Z.shiftr n 1) in
    let n := Z.lor n (Z.shiftr n 2) in
    let n := Z.lor n (Z.shiftr n 4) in
    let n := Z.lor n (Z.shiftr n 8) in
    let n := Z.lor n (Z.shiftr n 16) in
    u32 (n + 1).

End Filter.
