(* ===== verification/FilterProof.v ===== *)
(** * The filter operator keeps exactly the accepted rows

    First the selection kernel: the mask of eight rows, the packing table and
    the tail give the numbers of the passing rows in order.  Then the operator:
    whichever path it takes, its output is that of interpreting the predicate
    row by row, the reference [accepted].  Last the filtered join inputs and
    their cache. *)

From S2P Require Import Prelude Relation RelSort Consolidate ConsolidateProof StringOps Expr ExprCompile ExprProof EvalStack Filter.

Module FilterProof.

Import Rel Consolidate ConsolidateProof StringOps.StringOps Expr.Expr ExprCompile.ExprCompile EvalStack.EvalStack Filter.Filter.

(** ** The packing table *)

(** The numbers of the set bits, from [i] on. *)
Fixpoint positions (i : nat) (bs : list bool) : list nat :=
  match bs with [] => [] | b :: bs' => (if b then [i] else []) ++ positions (S i) bs' end.

Fixpoint bitsum (bs : list bool) : Z := match bs with [] => 0 | b :: bs' => Z.b2z b + 2 * bitsum bs' end.

Fixpoint all_bools (n : nat) : list (list bool) :=
  match n with O => [[]] | S n' => (cons true <$> all_bools n') ++ (cons false <$> all_bools n') end.

Lemma all_bools_in bs : bs ∈ all_bools (length bs).
Proof.
  induction bs as [|b bs IH]; cbn [all_bools length]; [by apply list_elem_of_singleton|]. apply elem_of_app.
  destruct b; [left|right]; apply list_elem_of_fmap; eauto.
Qed.

Definition entry_ok (bs : list bool) : bool :=
  match col_filter_leftpack_lut !! Z.to_nat (bitsum bs) with
  | None => false
  | Some perm =>
      (length perm =? 8)%nat && forallb (fun j => j <? 8)%nat perm && (popcount 8 (bitsum bs) =? length (positions 0 bs))%nat &&
      bool_decide (take (popcount 8 (bitsum bs)) perm = positions 0 bs)
  end.

Lemma table_checked : forallb entry_ok (all_bools 8) = true.
Proof. vm_compute. reflexivity. Qed.

(** The entry of a mask lists its set bits first. *)
Lemma table_ok bs : length bs = 8%nat -> exists perm, col_filter_leftpack_lut !! Z.to_nat (bitsum bs) = Some perm /\ length perm = 8%nat /\
  Forall (fun j => j < 8)%nat perm /\ popcount 8 (bitsum bs) = length (positions 0 bs) /\ take (length (positions 0 bs)) perm = positions 0 bs.
Proof.
  intros Hl. pose proof table_checked as H. rewrite forallb_forall in H. specialize (H bs). rewrite <-Hl in H.
  specialize (H (proj1 (list_elem_of_In _ _) (all_bools_in bs))). unfold entry_ok in H. destruct (_ !! _) as [perm|]; [|done].
  rewrite !andb_true_iff, !Nat.eqb_eq, bool_decide_eq_true, forallb_forall in H. destruct H as [[[H1 H2] H3] H4]. exists perm.
  rewrite <-H3. split_and!; try done. apply Forall_forall. intros j Hj%list_elem_of_In. by apply Nat.ltb_lt, H2.
Qed.

Lemma positions_shift bs i r : positions (r + i) bs = (fun j => (r + j)%nat) <$> positions i bs.
Proof.
  revert i. induction bs as [|b bs IH]; intros i; cbn [positions]; [done|]. rewrite fmap_app, <-IH. f_equal; [by destruct b|]. f_equal. lia.
Qed.

Lemma positions_filter (p : nat -> bool) n r : positions r (p <$> seq r n) = filter (fun i => p i = true) (seq r n).
Proof.
  revert r. induction n as [|n IH]; intros r; [done|]. cbn [seq fmap list_fmap positions]. rewrite filter_cons, <-IH. by destruct (p r); case_decide.
Qed.

Lemma bitsum_zero bs : bitsum bs = 0 -> positions 0 bs = [].
Proof.
  assert (H : forall bs, 0 <= bitsum bs) by (clear; intros bs; induction bs as [|[] bs IH]; cbn [bitsum Z.b2z]; lia).
  generalize 0%nat. induction bs as [|[] bs IH]; intros i; cbn [bitsum positions Z.b2z]; [done| |]; intros Hs; pose proof (H bs); [lia|]. apply IH. lia.
Qed.

(** ** The kernel *)

Section Kernel.

Context (col_a : list Z) (col_b : option (list Z)) (const_b : Z) (nrows : nat) (op : cmp_op).

(** Row [i] passes. *)
Definition passes (i : nat) : bool :=
  col_filter_cmp_scalar (col_a !!! i) (match col_b with Some c => c !!! i | None => const_b end) (CMP op).

Definition columns_cover : Prop := (nrows <= length col_a)%nat /\ (forall c, col_b = Some c -> nrows <= length c)%nat.

Hypothesis Hcols : columns_cover.

Lemma lanes_at_ok n (col : list Z) r : (r + n <= length col)%nat -> lanes_at n col r = Some ((fun i => col !!! i) <$> seq r n).
Proof.
  revert r. induction n as [|n IH]; intros r Hr; cbn [lanes_at]; [done|]. unfold rd. rewrite list_lookup_lookup_total_lt by lia. cbn [mbind option_bind].
  by rewrite IH by lia.
Qed.

(** Operand b of row [i]. *)
Definition operand (i : nat) : Z := match col_b with Some c => c !!! i | None => const_b end.

Lemma b_lanes_ok n r : (r + n <= nrows)%nat ->
  match col_b with Some c => lanes_at n c r | None => Some (replicate n const_b) end = Some (operand <$> seq r n).
Proof.
  intros Hr. destruct Hcols as [_ Hb]. unfold operand. destruct col_b as [c|]; [apply lanes_at_ok; specialize (Hb c eq_refl); lia|].
  f_equal. clear Hr. revert r. induction n as [|n IH]; intros r; [done|]. cbn. by rewrite <-IH.
Qed.

(** A lane of the comparison, negated or not, is negative where the row passes. *)
Definition lane (use_eq swap invert : bool) (i : nat) : Z :=
  let x := if swap then operand i else col_a !!! i in
  let y := if swap then col_a !!! i else operand i in
  let m := if (if use_eq then x =? y else y <? x) then -1 else 0 in
  if invert then Z.lxor m (-1) else m.

Definition use_eq : bool := match CMP op with CMP EQ | CMP NEQ => true | _ => false end.
Definition swap : bool := match CMP op with CMP LT | CMP GTE => true | _ => false end.
Definition invert : bool := match CMP op with CMP NEQ | CMP GTE | CMP LTE => true | _ => false end.

Lemma lane_passes i : (lane use_eq swap invert i <? 0) = passes i.
Proof.
  unfold lane, passes, use_eq, swap, invert. fold (operand i). set (a := col_a !!! i). set (b := operand i). clearbody a b.
  destruct op; cbn [col_filter_cmp_scalar];
    repeat match goal with |- context [?x =? ?y] => destruct (Z.eqb_spec x y) | |- context [?x <=? ?y] => destruct (Z.leb_spec x y)
      | |- context [if ?x <? ?y then _ else _] => destruct (Z.ltb_spec x y) | |- context [?x <? ?y] => destruct (Z.ltb_spec x y) end;
    cbn in *; lia || done.
Qed.

Lemma cmp_lanes_seq l :
  (if invert then (fun x => Z.lxor x (-1)) <$> (if swap then cmp_lanes use_eq (operand <$> l) ((fun i => col_a !!! i) <$> l) else cmp_lanes use_eq ((fun i => col_a !!! i) <$> l) (operand <$> l))
   else (if swap then cmp_lanes use_eq (operand <$> l) ((fun i => col_a !!! i) <$> l) else cmp_lanes use_eq ((fun i => col_a !!! i) <$> l) (operand <$> l)))
  = lane use_eq swap invert <$> l.
Proof.
  unfold lane. induction l as [|i l IH]; [by destruct invert, swap|]. destruct invert, swap; unfold cmp_lanes in *; cbn; f_equal; exact IH.
Qed.

Lemma movemask_bits (f : nat -> Z) l : movemask (f <$> l) = bitsum ((fun i => f i <? 0) <$> l).
Proof. induction l as [|i l IH]; [done|]. cbn. by rewrite IH. Qed.

Lemma bitsum_range bs : 0 <= bitsum bs < 2 ^ Z.of_nat (length bs).
Proof. induction bs as [|b bs IH]; cbn [bitsum length]; [lia|]. rewrite Nat2Z.inj_succ, Z.pow_succ_r by lia. destruct b; cbn [Z.b2z]; lia. Qed.

Lemma bitsum_app bs1 bs2 : bitsum (bs1 ++ bs2) = bitsum bs1 + 2 ^ Z.of_nat (length bs1) * bitsum bs2.
Proof. induction bs1 as [|b bs IH]; cbn [bitsum app length]; [lia|]. rewrite IH, Nat2Z.inj_succ, Z.pow_succ_r by lia. lia. Qed.

Lemma block_mask_ok r : (r + 8 <= nrows)%nat -> block_mask col_a col_b const_b (CMP op) r = Some (bitsum (passes <$> seq r 8)).
Proof.
  intros Hr. pose proof Hcols as [Ha _]. unfold block_mask. rewrite !(lanes_at_ok 4 col_a), !b_lanes_ok by lia. cbn [mbind option_bind]. f_equal.
  fold use_eq swap invert. rewrite !cmp_lanes_seq, !movemask_bits.
  assert (He : forall l, (fun i => lane use_eq swap invert i <? 0) <$> l = passes <$> l) by (intros l; apply list_fmap_ext; intros ? i _; apply lane_passes).
  rewrite !He. change (seq r 8) with (seq r (4 + 4)). rewrite seq_app, fmap_app, bitsum_app, length_fmap, length_seq. change (2 ^ Z.of_nat 4) with (2 ^ 4).
  set (lo := bitsum (passes <$> seq r 4)). set (hi := bitsum (passes <$> seq (r + 4) 4)).
  assert (Hlo : 0 <= lo < 2 ^ 4) by (pose proof (bitsum_range (passes <$> seq r 4)) as H; by rewrite length_fmap, length_seq in H).
  clearbody lo hi. rewrite Z.lor_comm, lor_shiftl_low by lia. lia.
Qed.

(** The table packs the passing rows of the block to the front. *)
Lemma packed_ok r : (r + 8 <= nrows)%nat -> let l := filter (fun i => passes i = true) (seq r 8) in
  exists p, packed r (bitsum (passes <$> seq r 8)) = Some p /\ length p = 8%nat /\ take (length l) p = l /\ popcount 8 (bitsum (passes <$> seq r 8)) = length l.
Proof.
  intros Hr l. destruct (table_ok (passes <$> seq r 8)) as (perm & Hp & Hlen & Hlt & Hpop & Htake); [done|]. unfold packed. assert (rd col_filter_leftpack_lut (Z.to_nat (bitsum (passes <$> seq r 8))) = Some perm) as -> by exact Hp. cbn [mbind option_bind].
  assert (Hpos : (fun j => (r + j)%nat) <$> positions 0 (passes <$> seq r 8) = l) by (rewrite <-positions_shift, Nat.add_0_r; apply positions_filter).
  exists ((fun j => (r + j)%nat) <$> perm). split; [|rewrite length_fmap, <-Hpos, length_fmap; split; [done|]; split; [rewrite <-fmap_take; by rewrite Htake|done]].
  apply mapM_Some_2. clear -Hlt. induction Hlt as [|j perm Hj _ IH]; constructor; [|done]. unfold rd. by rewrite lookup_seq_lt.
Qed.

(** The selection vector starts with the passing rows below [r]. *)
Definition selected (r out : nat) (sel : list nat) : Prop :=
  out = length (filter (fun i => passes i = true) (seq 0 r)) /\ take out sel = filter (fun i => passes i = true) (seq 0 r).

Lemma selected_bound r out sel : selected r out sel -> (out <= r)%nat.
Proof. intros [-> _]. pose proof (length_filter (fun i => passes i = true) (seq 0 r)) as H. by rewrite length_seq in H. Qed.

Lemma filter_seq_app r n : filter (fun i => passes i = true) (seq 0 (r + n)) = filter (fun i => passes i = true) (seq 0 r) ++ filter (fun i => passes i = true) (seq r n).
Proof. by rewrite seq_app, filter_app. Qed.

Lemma selected_store r out sel l p : selected r out sel -> l = filter (fun i => passes i = true) (seq r 8) -> take (length l) p = l -> (out <= length sel)%nat ->
  selected (r + 8) (out + length l) (take out sel ++ p ++ drop (out + length p) sel).
Proof.
  intros [Ho Ht] Hl Hp Hs. unfold selected. rewrite filter_seq_app, length_app, <-Hl, <-Ho. split; [done|]. rewrite <-Ht.
  assert (Hpl : (length l <= length p)%nat) by (apply (f_equal length) in Hp; rewrite length_take in Hp; lia).
  rewrite take_app, length_take, Nat.min_l by done. rewrite (take_ge (take out sel)) by (rewrite length_take; lia). f_equal.
  replace (out + length l - out)%nat with (length l) by lia. rewrite take_app_le by done. done.
Qed.

Lemma avx_loop_ok n r out sel : selected r out sel -> (r <= nrows)%nat -> (nrows + 8 <= length sel)%nat -> (nrows - r <= n)%nat ->
  exists r' out' sel', avx_loop col_a col_b const_b nrows (CMP op) n r out sel = Some (r', out', sel') /\ selected r' out' sel' /\
    (r' <= nrows)%nat /\ length sel' = length sel.
Proof.
  revert r out sel. induction n as [|n IH]; intros r out sel Hsel Hr Hlen Hn; cbn [avx_loop].
  - destruct (_ && _) eqn:Hc; [apply andb_true_iff in Hc as [H1%Nat.leb_le H2%Nat.leb_le]; lia|]. by exists r, out, sel.
  - destruct (_ && _) eqn:Hc; [|by exists r, out, sel]. apply andb_true_iff in Hc as [H1%Nat.leb_le H2%Nat.leb_le].
    rewrite block_mask_ok by lia. cbn [mbind option_bind]. destruct (packed_ok r ltac:(lia)) as (p & Hp & Hpl & Ht & Hpop).
    destruct (Z.eqb_spec (bitsum (passes <$> seq r 8)) 0) as [Hz|_].
    + apply IH; try lia. destruct Hsel as [Ho Hs]. apply bitsum_zero in Hz.
      pose proof (positions_shift (passes <$> seq r 8) 0 r) as Hsh. rewrite Nat.add_0_r, Hz, positions_filter in Hsh. cbn [fmap list_fmap] in Hsh.
      unfold selected. by rewrite filter_seq_app, Hsh, app_nil_r.
    + rewrite Hp. cbn [mbind option_bind]. unfold store_at. pose proof (selected_bound _ _ _ Hsel). rewrite decide_True by lia. cbn [mbind option_bind]. rewrite Hpop.
      set (l := filter _ (seq r 8)) in *.
      destruct (IH (r + 8)%nat (out + length l)%nat (take out sel ++ p ++ drop (out + length p) sel)) as (r' & o' & s' & -> & Hs' & Hr' & Hl').
      * apply selected_store; done || lia.
      * lia.
      * rewrite !length_app, length_take, length_drop. lia.
      * lia.
      * exists r', o', s'. split_and!; try done. rewrite Hl', !length_app, length_take, length_drop. lia.
Qed.

Lemma tail_loop_ok n r out sel : selected r out sel -> (r + n = nrows)%nat -> (nrows <= length sel)%nat ->
  exists out' sel', tail_loop col_a col_b const_b (CMP op) n r out sel = Some (out', sel') /\ selected nrows out' sel' /\ length sel' = length sel.
Proof.
  revert r out sel. induction n as [|n IH]; intros r out sel Hsel Hr Hlen; cbn [tail_loop].
  { replace nrows with r by lia. by exists out, sel. }
  assert (Hb : match col_b with Some c => rd c r | None => Some const_b end = Some (operand r)).
  { destruct Hcols as [_ Hb]. unfold operand, rd. destruct col_b as [c|]; [|done]. apply list_lookup_lookup_total_lt. specialize (Hb c eq_refl). lia. }
  rewrite Hb. cbn [mbind option_bind]. unfold rd. rewrite list_lookup_lookup_total_lt by (destruct Hcols; lia). cbn [mbind option_bind].
  fold (passes r). pose proof (selected_bound _ _ _ Hsel) as Hout. destruct Hsel as [Ho Ht].
  assert (Hstep : filter (fun i => passes i = true) (seq 0 (S r)) = filter (fun i => passes i = true) (seq 0 r) ++ (if passes r then [r] else [])).
  { rewrite <-Nat.add_1_r, filter_seq_app. f_equal. cbn [seq]. rewrite filter_cons. by destruct (passes r); case_decide. }
  change (col_filter_cmp_scalar _ _ _) with (passes r). destruct (passes r).
  - rewrite wr_lt by lia. cbn [mbind option_bind]. destruct (IH (S r) (S out) (<[out := r]> sel)) as (o' & s' & -> & Hs' & Hl'); [|lia|by rewrite length_insert|].
    + unfold selected. rewrite Hstep, length_app, <-Ho, <-Ht. cbn [length]. split; [lia|]. rewrite (take_S_r _ _ r) by (rewrite list_lookup_insert_eq by lia; done).
      by rewrite take_insert_ge by lia.
    + exists o', s'. by rewrite Hl', length_insert.
  - apply IH; [|lia|done]. unfold selected. rewrite Hstep, app_nil_r. done.
Qed.

(** With or without vectors the kernel returns the numbers of the passing rows,
    in order. *)
Lemma select_rows_ok avx sel : (nrows + 8 <= length sel)%nat ->
  exists n sel', col_filter_select_rows col_a col_b const_b nrows (CMP op) avx sel = Some (n, sel') /\ length sel' = length sel /\ selected nrows n sel'.
Proof.
  intros Hlen. unfold col_filter_select_rows. destruct (Nat.eqb_spec nrows 0) as [->|Hn]; [exists O, sel; done|].
  assert (H0 : exists r out sel', (if avx then avx_loop col_a col_b const_b nrows (CMP op) nrows 0 0 sel else Some (O, O, sel)) = Some (r, out, sel') /\
    selected r out sel' /\ (r <= nrows)%nat /\ length sel' = length sel).
  { destruct avx; [apply avx_loop_ok; done || lia|]. exists O, O, sel. split_and!; done || lia. }
  destruct H0 as (r & out & sel1 & -> & Hs & Hr & Hl). cbn [mbind option_bind].
  destruct (tail_loop_ok (nrows - r) r out sel1 Hs ltac:(lia) ltac:(lia)) as (o' & s' & -> & Hs' & Hl'). exists o', s'. by rewrite Hl'.
Qed.

End Kernel.


(** ** The fast path *)

(** The predicate of a simple comparison on a row. *)
Definition simple_holds (c : simple_cmp) (x : row) : bool :=
  col_filter_cmp_scalar (x !!! Z.to_nat (col_a c)) (if b_is_const c then const_b c else x !!! Z.to_nat (col_b c)) (cmp_tag c).

(** Its columns exist in rows of [nc] cells, and it is a comparison. *)
Definition simple_fits (c : simple_cmp) (nc : nat) : Prop :=
  0 <= col_a c < Z.of_nat nc /\ (b_is_const c = false -> 0 <= col_b c < Z.of_nat nc) /\ exists op, cmp_tag c = CMP op.

Lemma fmap_cell (l : list row) a k : ((fun x => x !!! a) <$> l) !!! k = (l !!! k) !!! a.
Proof.
  rewrite (list_lookup_total_alt l), (list_lookup_total_alt (_ <$> l)), list_lookup_fmap.
  destruct (l !! k); cbn; [done|].
  done.
Qed.

(** The rows with the numbers that pass are the rows that pass. *)
Lemma rows_of_numbers (P : row -> bool) (l : list row) n : (n <= length l)%nat ->
  (fun k => l !!! k) <$> filter (fun k => P (l !!! k) = true) (seq 0 n) = filter (fun x => P x = true) (take n l).
Proof.
  induction n as [|n IH]; intros Hn; [done|]. rewrite seq_S, filter_app, fmap_app, IH by lia.
  rewrite (take_S_r l n (l !!! n)) by (apply list_lookup_lookup_total_lt; lia). rewrite filter_app. f_equal. cbn [Nat.add].
  rewrite !filter_cons. by case_decide.
Qed.

(** The rows are there, each with its lanes. *)
Definition readable (r : rel) : Prop := fits r /\ Forall (row_ok r) (stored r).

(** [nout] rows lie in the flat buffer. *)
Definition holds (nc nout : nat) (tmp : list Z) (l : list row) : Prop := nout = length l /\ Forall (fun x => length x = nc) l /\ take (nout * nc) tmp = concat l.

Lemma copy_cells_ok n x c tmp off : (c + n = length x)%nat -> (off + length x <= length tmp)%nat ->
  copy_cells n x c tmp off = Some (take (off + c) tmp ++ drop c x ++ drop (off + length x) tmp).
Proof.
  revert c tmp. induction n as [|n IH]; intros c tmp Hc Hlen; cbn [copy_cells].
  { rewrite Nat.add_0_r in Hc. subst c. rewrite drop_all. cbn [app]. by rewrite take_drop. }
  unfold rd. destruct (lookup_lt_is_Some_2 x c ltac:(lia)) as [v Hv]. rewrite Hv. cbn [mbind option_bind]. rewrite wr_lt by lia. cbn [mbind option_bind].
  rewrite IH by (rewrite ?length_insert; lia). f_equal. rewrite (drop_S x v c Hv). rewrite drop_insert_lt by lia.
  replace (off + S c)%nat with (S (off + c)) by lia. rewrite (take_S_r _ _ v) by (rewrite list_lookup_insert_eq by lia; done). rewrite take_insert_ge by lia.
  by rewrite <-app_assoc.
Qed.

Section Fast.

Context (e : filter_env) (r : rel) (c : simple_cmp) (Hwf : readable r) (Hc : simple_fits c (ncols r)).

#[local] Abbreviation nc := (ncols r).
#[local] Abbreviation P := (fun x => simple_holds c x = true).

Lemma stored_row i : (i < nrows r)%nat -> rows r !! i = Some (stored r !!! i) /\ length (stored r !!! i) = nc.
Proof.
  intros Hi. destruct Hwf as [Hf Hok]. pose proof (length_stored r Hf) as Hl.
  assert (Hs : stored r !! i = Some (stored r !!! i)) by (apply list_lookup_lookup_total_lt; lia). split.
  - unfold stored in Hs at 1. by rewrite lookup_take_lt in Hs.
  - by apply (rk_len _ _ (Forall_lookup_1 _ _ _ _ Hok Hs)).
Qed.

Lemma copy_row_ok i nout tmp l : (i < nrows r)%nat -> holds nc nout tmp l -> (S nout * nc <= length tmp)%nat ->
  exists tmp', copy_row r i nout tmp = Some tmp' /\ length tmp' = length tmp /\ holds nc (S nout) tmp' (l ++ [stored r !!! i]).
Proof.
  intros Hi (Hn & Hl & Ht) Hlen. destruct (stored_row i Hi) as [Hr Hx]. unfold copy_row, rd. rewrite Hr. cbn [mbind option_bind].
  set (x := stored r !!! i) in *. clearbody x. rewrite copy_cells_ok by lia. eexists. split; [done|]. rewrite Nat.add_0_r, Hx, drop_0. split.
  - rewrite !length_app, length_take, length_drop. lia.
  - split; [rewrite length_app; cbn; lia|]. split; [apply Forall_app_2; [done|by apply Forall_singleton]|]. rewrite Ht, concat_app. cbn [concat]. rewrite app_nil_r, app_assoc.
    rewrite take_app_le by (rewrite length_app, <-Ht, length_take; lia). apply take_ge. rewrite length_app, <-Ht, length_take. lia.
Qed.

Lemma materialize_ok sel base n i nout tmp l ks : take n (drop i sel) = ks -> length ks = n -> Forall (fun k => base + k < nrows r)%nat ks ->
  holds nc nout tmp l -> ((nout + n) * nc <= length tmp)%nat ->
  exists tmp', materialize n r sel base i nout tmp = Some ((nout + n)%nat, tmp') /\ length tmp' = length tmp /\
    holds nc (nout + n) tmp' (l ++ ((fun k => stored r !!! (base + k)%nat) <$> ks)).
Proof.
  revert i nout tmp l ks. induction n as [|n IH]; intros i nout tmp l ks Hks Hkl Hlt Hh Hlen; cbn [materialize].
  { destruct ks; [|done]. exists tmp. cbn. by rewrite Nat.add_0_r, app_nil_r. }
  destruct ks as [|k ks]; [done|]. apply Forall_cons in Hlt as [Hk Hlt]. injection Hkl as Hkl.
  destruct (drop i sel) as [|k' rest] eqn:Hd; [done|]. cbn [take firstn] in Hks. injection Hks as -> Hks.
  assert (Hi : sel !! i = Some k) by (rewrite <-(Nat.add_0_r i), <-lookup_drop, Hd; done). unfold rd. rewrite Hi. cbn [mbind option_bind].
  destruct (copy_row_ok (base + k) nout tmp l Hk Hh) as (t1 & -> & Hl1 & Hh1); [lia|]. cbn [mbind option_bind].
  destruct (IH (S i) (S nout) t1 (l ++ [stored r !!! (base + k)%nat]) ks) as (t2 & -> & Hl2 & Hh2); [|done|done|done|lia|].
  - rewrite <-Hks. f_equal. replace (S i) with (i + 1)%nat by lia. rewrite <-drop_drop, Hd. done.
  - exists t2. replace (nout + S n)%nat with (S nout + n)%nat by lia. split; [done|]. split; [lia|]. cbn [fmap list_fmap]. by rewrite <-app_assoc in Hh2.
Qed.

Lemma column_ok a : (a < nc)%nat -> column r a = Some ((fun x => x !!! a) <$> stored r).
Proof.
  intros Ha. destruct Hwf as [_ Hok]. unfold column. fold (stored r). apply mapM_Some_2. induction Hok as [|x l Hx _ IH]; constructor; [|done].
  apply list_lookup_lookup_total_lt. by rewrite (rk_len _ _ Hx).
Qed.

(** The operands as the loops read them. *)
Definition col_a_cells : list Z := (fun x => x !!! Z.to_nat (col_a c)) <$> stored r.
Definition col_b_cells : option (list Z) := if b_is_const c then None else Some ((fun x => x !!! Z.to_nat (col_b c)) <$> stored r).

Lemma columns_ok : column r (Z.to_nat (col_a c)) = Some col_a_cells /\ b_column r c = Some col_b_cells.
Proof.
  destruct Hc as (Ha & Hb & _). split; [apply column_ok; lia|]. unfold b_column, col_b_cells. destruct (b_is_const c); [done|]. cbn [negb andb].
  specialize (Hb eq_refl). rewrite (proj2 (Z.ltb_lt _ _)) by lia. by rewrite column_ok by lia.
Qed.

Lemma cover base n : (base + n <= nrows r)%nat -> columns_cover (drop base col_a_cells) (drop base <$> col_b_cells) n.
Proof.
  intros Hn. destruct Hwf as [Hf _]. pose proof (length_stored r Hf) as Hl. unfold col_a_cells, col_b_cells. split; [rewrite length_drop, length_fmap; lia|].
  intros l Heq. destruct (b_is_const c); [done|]. injection Heq as <-. rewrite length_drop, length_fmap. lia.
Qed.

Lemma passes_row base op k : cmp_tag c = CMP op ->
  passes (drop base col_a_cells) (drop base <$> col_b_cells) (const_b c) op k = simple_holds c (drop base (stored r) !!! k).
Proof.
  intros Ht. unfold passes, simple_holds, col_a_cells, col_b_cells. rewrite Ht. destruct (b_is_const c); cbn [fmap option_fmap option_map].
  - by rewrite <-fmap_drop, fmap_cell.
  - by rewrite <-!fmap_drop, !fmap_cell.
Qed.

Lemma selected_rows base n op ks : cmp_tag c = CMP op -> (base + n <= nrows r)%nat ->
  ks = filter (fun i => passes (drop base col_a_cells) (drop base <$> col_b_cells) (const_b c) op i = true) (seq 0 n) ->
  (fun k => stored r !!! (base + k)%nat) <$> ks = filter P (take n (drop base (stored r))) /\ Forall (fun k => base + k < nrows r)%nat ks.
Proof.
  intros Ht Hn ->. destruct Hwf as [Hf _]. pose proof (length_stored r Hf) as Hl. split.
  - rewrite <-(rows_of_numbers (simple_holds c)) by (rewrite length_drop; lia).
    rewrite (list_filter_iff _ (fun k => simple_holds c (drop base (stored r) !!! k) = true)) by (intros k; by rewrite passes_row).
    apply list_fmap_ext. intros ? k _. by rewrite lookup_total_drop.
  - apply Forall_forall. intros k [_ Hk]%list_elem_of_filter. apply elem_of_seq in Hk. lia.
Qed.

Lemma filter_bound (l : list row) : (length (filter P l) <= length l)%nat.
Proof. apply length_filter. Qed.

Lemma tile_loop_ok fuel sel base nout tmp : (base <= nrows r)%nat -> (nrows r - base < fuel)%nat -> (COL_FILTER_TILE + 8 <= length sel)%nat -> length tmp = (nrows r * nc)%nat ->
  holds nc nout tmp (filter P (take base (stored r))) ->
  exists x, tile_loop fuel e r c col_a_cells col_b_cells sel base nout tmp = Some x /\
    forall n t, x = Some (n, t) -> holds nc n t (filter P (stored r)).
Proof.
  revert sel base nout tmp. induction fuel as [|fuel IH]; intros sel base nout tmp Hb Hfuel Hsel Hlen Hh; [lia|]. cbn [tile_loop].
  pose proof Hwf as [Hf _]. pose proof (length_stored r Hf) as Hl. destruct (Nat.ltb_spec base (nrows r)) as [Hlt|Hge].
  2: { eexists. split; [done|]. intros n t [= <- <-]. by rewrite take_ge in Hh by lia. }
  set (chunk := if _ : bool then _ else _).
  assert (Hchunk : (0 < chunk <= COL_FILTER_TILE /\ base + chunk <= nrows r)%nat)
    by (unfold chunk; destruct (Nat.ltb_spec COL_FILTER_TILE (nrows r - base)); unfold COL_FILTER_TILE in *; lia).
  clearbody chunk. destruct Hc as (_ & _ & op & Hop). rewrite Hop.
  destruct (select_rows_ok (drop base col_a_cells) (drop base <$> col_b_cells) (const_b c) chunk op ltac:(apply cover; lia) (avx2 e) sel ltac:(lia))
    as (nsel & sel' & -> & Hls & Hn & Hks). cbn [mbind option_bind]. destruct (_ && _); [by eexists|].
  destruct (selected_rows base chunk op _ Hop ltac:(lia) Hks) as [Hrows Hks_lt]. assert (Hkl : length (take nsel sel') = nsel) by (rewrite Hks, Hn at 1; done).
  assert (Hlen2 : (length (filter P (take base (stored r))) + nsel <= base + chunk)%nat).
  { pose proof (filter_bound (take base (stored r))) as H1. rewrite length_take in H1. rewrite Hn.
    pose proof (length_filter (fun i => passes (drop base col_a_cells) (drop base <$> col_b_cells) (const_b c) op i = true) (seq 0 chunk)) as H2. rewrite length_seq in H2. lia. }
  destruct (materialize_ok sel' base nsel 0 nout tmp _ (take nsel sel') ltac:(by rewrite drop_0) Hkl Hks_lt Hh) as (t1 & -> & Hl1 & Hh1).
  { destruct Hh as (-> & _). rewrite Hlen. apply Nat.mul_le_mono_r. lia. }
  cbn [mbind option_bind]. apply IH; [lia|lia|lia|lia|]. rewrite Hrows, <-filter_app in Hh1. by rewrite take_take_drop in Hh1.
Qed.

Lemma fused_loop_ok n i nout tmp : (i + n = nrows r)%nat -> length tmp = (nrows r * nc)%nat -> holds nc nout tmp (filter P (take i (stored r))) ->
  exists n' t', fused_loop n r c col_a_cells col_b_cells i nout tmp = Some (n', t') /\ holds nc n' t' (filter P (stored r)).
Proof.
  revert i nout tmp. pose proof Hwf as [Hf _]. pose proof (length_stored r Hf) as Hl.
  induction n as [|n IH]; intros i nout tmp Hi Hlen Hh; cbn [fused_loop]; [exists nout, tmp; by rewrite take_ge in Hh by lia|].
  destruct Hc as (_ & _ & op & Hop). pose proof (cover 0 (nrows r) ltac:(lia)) as [Hca Hcb]. rewrite drop_0 in Hca.
  assert (Hb : match col_b_cells with Some l => rd l i | None => Some (const_b c) end = Some (match col_b_cells with Some l => l !!! i | None => const_b c end)).
  { destruct col_b_cells as [l|]; [|done]. specialize (Hcb _ eq_refl). cbn in Hcb. rewrite drop_0 in Hcb. apply list_lookup_lookup_total_lt. lia. }
  rewrite Hb. cbn [mbind option_bind]. unfold rd. rewrite list_lookup_lookup_total_lt by lia. cbn [mbind option_bind].
  assert (Hp : col_filter_cmp_scalar (col_a_cells !!! i) (match col_b_cells with Some l => l !!! i | None => const_b c end) (cmp_tag c) = simple_holds c (stored r !!! i)).
  { rewrite Hop. pose proof (passes_row 0 op i Hop) as Hq. unfold passes in Hq. rewrite !drop_0 in Hq. rewrite <-Hq. by destruct col_b_cells. }
  rewrite Hp. assert (Hs : filter P (take (S i) (stored r)) = filter P (take i (stored r)) ++ (if simple_holds c (stored r !!! i) then [stored r !!! i] else [])).
  { rewrite (take_S_r _ i (stored r !!! i)) by (apply list_lookup_lookup_total_lt; lia). rewrite filter_app, filter_cons. by destruct (simple_holds c _); case_decide. }
  destruct (simple_holds c (stored r !!! i)).
  - destruct (copy_row_ok i nout tmp _ ltac:(lia) Hh) as (t1 & -> & Hl1 & Hh1).
    { destruct Hh as (-> & _). pose proof (filter_bound (take i (stored r))) as H1. rewrite length_take in H1. rewrite Hlen. apply Nat.mul_le_mono_r. lia. }
    cbn [mbind option_bind]. apply IH; [lia|lia|]. by rewrite Hs.
  - apply IH; [lia|lia|]. by rewrite Hs, app_nil_r.
Qed.

(** The fast path leaves the passing rows in the buffer, unless it could not be
    allocated. *)
Lemma fast_rows_ok : exists x, fast_rows e r c = Some x /\
  match x with Some (n, t) => holds nc n t (filter P (stored r)) | None => tmp_alloc e = false \/ sel_alloc e = false end.
Proof.
  destruct columns_ok as [Ha Hb]. unfold fast_rows. rewrite Ha, Hb. cbn [mbind option_bind]. destruct (tmp_alloc e) eqn:Ht; cbn [negb]; [|eexists; split; [done|by left]].
  destruct (avx2 e && negb (sel_alloc e)) eqn:Hs.
  { apply andb_true_iff in Hs as [_ Hs%negb_true_iff]. eexists. split; [done|by right]. }
  assert (H0 : holds nc 0 (replicate (nrows r * nc) 0) (filter P (take 0 (stored r)))) by (split_and!; done).
  assert (Hfused : exists x, (x ← fused_loop (nrows r) r c col_a_cells col_b_cells 0 0 (replicate (nrows r * nc) 0); Some (Some x)) = Some x /\
    match x with Some (n, t) => holds nc n t (filter P (stored r)) | None => tmp_alloc e = false \/ sel_alloc e = false end).
  { destruct (fused_loop_ok (nrows r) 0 0 (replicate (nrows r * nc) 0)) as (n & t & -> & Hh); [lia|by rewrite length_replicate|done|]. by exists (Some (n, t)). }
  rewrite Ht in Hfused. destruct (avx2 e); [|exact Hfused].
  destruct (tile_loop_ok (S (nrows r)) (replicate (COL_FILTER_TILE + COL_FILTER_SEL_SLACK) O) 0 0 (replicate (nrows r * nc) 0)) as ([[n t]|] & -> & Hx);
    [lia|lia|by rewrite length_replicate|by rewrite length_replicate|done| |]; cbn [mbind option_bind]; [|exact Hfused].
  exists (Some (n, t)). split; [done|]. by apply Hx.
Qed.

End Fast.


(** ** Simple comparisons are interpreted as such *)

Section Simple.

Context {W : Type} `{!Host W}.

Lemma run_var fuel ctx sessions buf row ncols i pos col (w : W) s : ExprProof.is_buffer buf -> 0 <= i -> parse_var_col buf (Z.of_nat (length buf)) i = Some (Some (pos, col)) ->
  run_loop (S fuel) ctx sessions buf (Z.of_nat (length buf)) row ncols i w s =
    (v ← (if col <? ncols then rd row (Z.to_nat col) else Some 0); run_loop fuel ctx sessions buf (Z.of_nat (length buf)) row ncols pos w (expr_push s v)).
Proof.
  intros Hbuf Hi Hp. destruct (ExprProof.parse_var_col_some _ _ _ _ Hbuf Hi Hp) as (Hb & nlen & Hn & Hpos & Hr & Hname & Hcol & Hlt).
  assert (Hlen := proj2 Hbuf). change (2 ^ 31) with 2147483648 in Hlen. cbn [run_loop]. rewrite (proj2 (Z.ltb_lt _ _)) by lia. rewrite Hb. cbn [mbind option_bind].
  change (tag_of_byte 1) with (Some VAR). cbn [step]. unfold step_var. rewrite (ExprProof.u32_pos (i + 1)) by lia.
  destruct (Z.ltb_spec (Z.of_nat (length buf)) (i + 1)); [lia|]. destruct (Z.ltb_spec (Z.of_nat (length buf) - (i + 1)) 2); [lia|]. cbn [orb].
  rewrite Hn. cbn [mbind option_bind]. rewrite (ExprProof.u32_pos (i + 1 + 2)) by lia. replace (i + 1 + 2) with (i + 3) by lia.
  rewrite !(ExprProof.u32_pos (i + 3 + nlen)) by lia. destruct (Z.ltb_spec (Z.of_nat (length buf)) (i + 3 + nlen)); [lia|]. rewrite Hname. cbn [mbind option_bind].
  rewrite (ExprProof.u32_pos col) by lia. destruct (Z.leb_spec 0 col); [|lia]. cbn [andb]. rewrite Hpos.
  by destruct (if col <? ncols then rd row (Z.to_nat col) else Some 0).
Qed.

Lemma run_const fuel ctx sessions buf row ncols i v (w : W) s : ExprProof.is_buffer buf -> 0 <= i -> i + 9 <= Z.of_nat (length buf) -> byte buf i = Some 2 -> le_int64 buf (i + 1) = Some v ->
  run_loop (S fuel) ctx sessions buf (Z.of_nat (length buf)) row ncols i w s = run_loop fuel ctx sessions buf (Z.of_nat (length buf)) row ncols (i + 9) w (expr_push s v).
Proof.
  intros Hbuf Hi Hn Hb Hv. assert (Hlen := proj2 Hbuf). change (2 ^ 31) with 2147483648 in Hlen. cbn [run_loop]. rewrite (proj2 (Z.ltb_lt _ _)) by lia. rewrite Hb. cbn [mbind option_bind].
  change (tag_of_byte 2) with (Some CONST_INT). cbn [step]. rewrite (ExprProof.u32_pos (i + 1)) by lia. rewrite (ExprProof.u32_pos (i + 1 + 8)) by lia.
  destruct (Z.ltb_spec (Z.of_nat (length buf)) (i + 1 + 8)); [lia|]. rewrite Hv. cbn. by replace (i + 1 + 8) with (i + 9) by lia.
Qed.

Lemma run_last fuel ctx sessions buf row ncols i t op (w : W) a b : ExprProof.is_buffer buf -> 0 <= i -> i + 1 = Z.of_nat (length buf) -> byte buf i = Some t -> tag_of_byte t = Some (CMP op) ->
  run_loop (S (S fuel)) ctx sessions buf (Z.of_nat (length buf)) row ncols i w (expr_push (expr_push [] a) b) =
  Some (w, OK, Z.b2z (col_filter_cmp_scalar a b (CMP op))).
Proof.
  intros Hbuf Hi Hn Hb Ht. assert (Hlen := proj2 Hbuf). change (2 ^ 31) with 2147483648 in Hlen. cbn [run_loop]. rewrite (proj2 (Z.ltb_lt i _)) by lia. rewrite Hb. cbn [mbind option_bind].
  rewrite Ht. cbn [step]. rewrite (ExprProof.u32_pos (i + 1)) by lia. cbn. rewrite (proj2 (Z.ltb_ge (i + 1) _)) by lia. by destruct op.
Qed.

Lemma simple_cmp_runs buf : ExprProof.is_buffer buf -> exists r, filter_is_simple_cmp buf = Some r /\ forall c, r = Some c ->
  0 <= col_a c /\ 0 <= col_b c /\ (exists op, cmp_tag c = CMP op) /\
  forall ctx sessions row ncols (w : W), eval_run_ctx ctx sessions buf row ncols w =
    (a ← (if col_a c <? ncols then rd row (Z.to_nat (col_a c)) else Some 0);
     b ← (if b_is_const c then Some (const_b c) else if col_b c <? ncols then rd row (Z.to_nat (col_b c)) else Some 0);
     Some (w, OK, Z.b2z (col_filter_cmp_scalar a b (cmp_tag c)))).
Proof.
  intros Hbuf. assert (Hlen := proj2 Hbuf). change (2 ^ 31) with 2147483648 in Hlen. unfold filter_is_simple_cmp.
  destruct (Z.eqb_spec (Z.of_nat (length buf)) 0); [by eexists|]. destruct (ExprProof.parse_var_col_total buf 0 Hbuf ltac:(lia)) as ([[p1 ca]|] & Hp1); rewrite Hp1; cbn [mbind option_bind]; [|by eexists].
  destruct (ExprProof.parse_var_col_some buf 0 p1 ca Hbuf ltac:(lia) Hp1) as (_ & _ & _ & _ & Hr1 & _ & Hc1 & _).
  destruct (Z.ltb_spec p1 (Z.of_nat (length buf))) as [Hlt|]; [|by eexists]. destruct (ExprProof.byte_in buf p1 ltac:(lia)) as (b & Hb & _). rewrite Hb. cbn [mbind option_bind].
  assert (Hlast : forall p cst cb k, p1 + 3 <= p <= Z.of_nat (length buf) -> 0 <= cb ->
    (forall fuel ctx sessions row ncols (w : W) s, run_loop (S fuel) ctx sessions buf (Z.of_nat (length buf)) row ncols p1 w s =
      (v ← (if cst : bool then Some k else if cb <? ncols then rd row (Z.to_nat cb) else Some 0); run_loop fuel ctx sessions buf (Z.of_nat (length buf)) row ncols p w (expr_push s v))) ->
    exists r, (if Z.of_nat (length buf) <=? p then Some None else
       t ← byte buf p;
       match tag_of_byte t with
       | Some (CMP op) => Some (if u32 (p + 1) =? Z.of_nat (length buf) then Some (Simple ca cst cb k (CMP op)) else None)
       | _ => Some None
       end) = Some r /\ forall c, r = Some c ->
      0 <= col_a c /\ 0 <= col_b c /\ (exists op, cmp_tag c = CMP op) /\
      forall ctx sessions row ncols (w : W), eval_run_ctx ctx sessions buf row ncols w =
        (a ← (if col_a c <? ncols then rd row (Z.to_nat (col_a c)) else Some 0);
         b ← (if b_is_const c then Some (const_b c) else if col_b c <? ncols then rd row (Z.to_nat (col_b c)) else Some 0);
         Some (w, OK, Z.b2z (col_filter_cmp_scalar a b (cmp_tag c))))).
  { intros p cst cb k Hp Hcb Hrun. destruct (Z.leb_spec (Z.of_nat (length buf)) p); [by eexists|]. destruct (ExprProof.byte_in buf p ltac:(lia)) as (t & Ht & _). rewrite Ht. cbn [mbind option_bind].
    destruct (tag_of_byte t) as [[]|] eqn:Htag; try by eexists. rewrite ExprProof.u32_pos by lia. destruct (Z.eqb_spec (p + 1) (Z.of_nat (length buf))); [|by eexists].
    eexists. split; [done|]. intros c [= <-]. cbn [col_a col_b b_is_const const_b cmp_tag]. split; [lia|]. split; [lia|]. split; [by eexists|].
    intros ctx sessions row ncols w. unfold eval_run_ctx. assert (Hfu : S (length buf) = S (S (S (S (length buf - 3))))) by lia. rewrite Hfu. clear Hfu.
    rewrite (run_var _ _ _ _ _ _ _ _ _ _ _ Hbuf (Z.le_refl 0) Hp1). destruct (if ca <? ncols then _ else _) as [a|]; [|done]. cbn [mbind option_bind].
    rewrite Hrun. destruct (if cst then _ else _) as [b'|]; [|done]. cbn [mbind option_bind]. eapply run_last; (done || lia). }
  destruct (Z.eqb_spec b 2) as [->|].
  - rewrite (ExprProof.u32_pos (p1 + 1)) by lia. rewrite (ExprProof.u32_pos (p1 + 1 + 8)) by lia. destruct (Z.ltb_spec (Z.of_nat (length buf)) (p1 + 1 + 8)); [by eexists|].
    destruct (ExprProof.le_int64_in buf (p1 + 1) Hbuf ltac:(lia) ltac:(lia)) as (v & Hv). rewrite Hv. cbn [mbind option_bind]. replace (p1 + 1 + 8) with (p1 + 9) by lia.
    apply Hlast; [lia|lia|]. intros. by rewrite (run_const _ _ _ _ _ _ _ v) by (done || lia).
  - destruct (Z.eqb_spec b 1) as [->|]; [|by eexists].
    destruct (ExprProof.parse_var_col_total buf p1 Hbuf ltac:(lia)) as ([[p2 cb]|] & Hp2); rewrite Hp2; cbn [mbind option_bind]; [|by eexists].
    destruct (ExprProof.parse_var_col_some buf p1 p2 cb Hbuf ltac:(lia) Hp2) as (_ & _ & _ & _ & Hr2 & _ & Hc2 & _).
    apply Hlast; [lia|lia|]. intros. by apply run_var; [|lia|].
Qed.

End Simple.


(** ** Appending the output *)

(** Every allocation succeeds, but for the compiled predicate, which is only an
    optimisation. *)
Definition roomy (e : filter_env) : Prop :=
  out_alloc e = true /\ tmp_alloc e = true /\ sel_alloc e = true /\ row_alloc e = true /\ forall i, grow_alloc e i = true.

Lemma append_row_code b d x d' rc : fits d -> row_ok d x -> col_rel_append_row b d x = Some (d', rc) -> rc = 0 \/ rc = ENOMEM.
Proof.
  intros Hf Hx Ha. destruct (append_row_exact b d x Hf Hx) as (d1 & rc1 & Ha1 & _ & _ & H). rewrite Ha in Ha1. injection Ha1 as <- <-. destruct H as [[-> _]|[-> _]]; auto.
Qed.

(** One row more, or no memory for it. *)
Lemma append_one e out x : fits out -> row_ok out x ->
  exists out' rc, col_rel_append_row (grow_alloc e (nrows out)) out x = Some (out', rc) /\ lanes out' = lanes out /\ fits out' /\
    ((rc = 0 /\ grew out out' [x]) \/ (rc = ENOMEM /\ (roomy e -> 2 ^ 31 <= Z.of_nat (nrows out)))).
Proof.
  intros Hf Hx. destruct (append_row_ok (grow_alloc e (nrows out)) out x Hf Hx) as (d & rc & Ha & Hk & Hfd & H0 & H1). exists d, rc.
  split; [done|]. split; [apply Hk|]. split; [done|]. destruct (append_row_code _ _ _ _ _ Hf Hx Ha) as [->| ->]; [left; auto|right]. split; [done|].
  intros (_ & _ & _ & _ & Hg). by apply H1.
Qed.

(** The rows [l] were appended to [out], or memory ran out. *)
Definition appended (e : filter_env) (out out' : rel) (rc : Z) (l : list row) : Prop :=
  lanes out' = lanes out /\ fits out' /\
  ((rc = 0 /\ grew out out' l) \/ (rc = ENOMEM /\ (roomy e -> 2 ^ 31 < Z.of_nat (nrows out + length l)))).

Lemma appended_nil e out : fits out -> appended e out out 0 [].
Proof. intros Hf. split; [done|]. split; [done|]. left. split; [done|]. split; [cbn; lia|]. exists []. by rewrite app_nil_r. Qed.

Lemma appended_cons e out out1 out2 x rc l : lanes out1 = lanes out -> grew out out1 [x] -> appended e out1 out2 rc l -> appended e out out2 rc (x :: l).
Proof.
  intros Hl Hg (Hl2 & Hf2 & H). split; [by rewrite Hl2|]. split; [done|]. destruct H as [[-> H]|[-> H]]; [left|right].
  - split; [done|]. by apply (grew_app out out1 out2 [x] l).
  - split; [done|]. intros Hr. specialize (H Hr). destruct Hg as [Hn _]. cbn [length] in *. lia.
Qed.

Lemma appended_full e out out' x l : lanes out' = lanes out -> fits out' -> (roomy e -> 2 ^ 31 <= Z.of_nat (nrows out)) -> appended e out out' ENOMEM (x :: l).
Proof. intros Hl Hf H. split; [done|]. split; [done|]. right. split; [done|]. intros Hr. specialize (H Hr). cbn [length]. lia. Qed.

Lemma holds_row nc n tmp l i x : holds nc n tmp l -> l !! i = Some x -> take nc (drop (i * nc) tmp) = x.
Proof.
  intros (-> & Hl & Ht) Hi. pose proof (Forall_lookup_1 _ _ _ _ Hl Hi) as Hx. cbn in Hx. pose proof (lookup_lt_Some _ _ _ Hi) as Hlt.
  assert (Hd : drop (i * nc) (concat l) = concat (drop i l)).
  { clear -Hl. revert i. induction Hl as [|y l Hy _ IH]; intros [|i]; cbn [concat]; rewrite ?drop_nil; [done..|]. cbn [drop skipn]. rewrite <-IH.
    rewrite drop_app_ge by (rewrite Hy; cbn; lia). rewrite Hy. f_equal. cbn. lia. }
  rewrite <-Ht in Hd. rewrite (drop_S l x i Hi) in Hd. cbn [concat] in Hd. rewrite skipn_firstn_comm in Hd.
  apply (f_equal (take nc)) in Hd. rewrite take_take, Nat.min_l in Hd by nia. rewrite Hd, <-Hx. by apply take_app_length.
Qed.

Lemma append_loop_ok e nc tmp l n i out : holds nc (length l) tmp l -> (i + n = length l)%nat -> fits out -> Forall (row_ok out) l ->
  exists out' rc, append_loop n e nc tmp i out = Some (out', rc) /\ appended e out out' rc (drop i l).
Proof.
  intros Hh. revert i out. induction n as [|n IH]; intros i out Hi Hf Hok; cbn [append_loop].
  { exists out, 0. split; [done|]. rewrite drop_ge by lia. by apply appended_nil. }
  destruct (lookup_lt_is_Some_2 l i ltac:(lia)) as [x Hx]. rewrite (holds_row _ _ _ _ _ _ Hh Hx), (drop_S l x i Hx). pose proof (Forall_lookup_1 _ _ _ _ Hok Hx) as Hxok.
  destruct (append_one e out x Hf Hxok) as (o1 & rc & -> & Hl1 & Hf1 & [[-> Hg]|[-> Hg]]); cbn [mbind option_bind Z.eqb negb ENOMEM].
  - destruct (IH (S i) o1) as (o2 & rc & -> & Ha); [lia|done|by rewrite Hl1|]. exists o2, rc. split; [done|]. by apply (appended_cons e out o1).
  - exists o1, ENOMEM. split; [done|]. by apply appended_full.
Qed.


(** ** The operator *)

Section Operator.

Context {W : Type} `{!Host W} {K : Type}.

(** What the interpreter says of a row: keep it, drop it (also when the
    predicate fails), or the status of a failed extension call. *)
Definition verdict (ss : session) (sessions buf : list Z) (nc : nat) (x : row) (w : W) : option (W * (bool + Z)) :=
  if (length buf =? 0)%nat then Some (w, inl true)
  else
    '(w, status, v) ← eval_run_ctx (expr_ctx ss) sessions buf x (Z.of_nat nc) w;
    Some (w, if EXTENSION_MALFORMED <=? status then inr status else inl ((status =? OK) && negb (v =? 0))).

(** The rows kept, until a status ends the scan. *)
Fixpoint accepted (ss : session) (sessions buf : list Z) (nc : nat) (l : list row) (w : W) : option (W * list row * option Z) :=
  match l with
  | [] => Some (w, [], None)
  | x :: l' =>
      '(w, p) ← verdict ss sessions buf nc x w;
      match p with
      | inr st => Some (w, [], Some st)
      | inl keep => '(w, out, st) ← accepted ss sessions buf nc l' w; Some (w, if keep : bool then x :: out else out, st)
      end
  end.

Lemma row_passes_verdict e ss sessions buf ce x nc (w : W) : ExprProof.is_buffer buf ->
  (if (length buf =? 0)%nat then Some None else compile (compile_alloc e) (instrs_alloc e) buf (s_intern ss)) = Some ce ->
  row_passes ss sessions buf ce x (Z.of_nat nc) w = verdict ss sessions buf nc x w.
Proof.
  intros Hbuf Hce. unfold row_passes, verdict. destruct (length buf =? 0)%nat; [done|].
  assert (Hst : forall err : Z, negb (err =? OK) && (EXTENSION_MALFORMED <=? err) = (EXTENSION_MALFORMED <=? err)).
  { intros err. unfold OK, EXTENSION_MALFORMED. destruct (Z.eqb_spec err 0), (Z.leb_spec 2 err); (done || lia). }
  destruct ce as [c|].
  - destruct (ExprProof.compile_agrees_ctx (compile_alloc e) (instrs_alloc e) buf (s_intern ss) Hbuf) as (r & Hr & Hc). rewrite Hce in Hr. injection Hr as <-.
    rewrite (Hc c eq_refl) by done. unfold ExprProof.result. destruct (eval_compiled c x (Z.of_nat nc) w) as [[rc v]|] eqn:He; [|done]. cbn [mbind option_bind].
    by destruct (ExprProof.eval_compiled_rc _ _ _ _ _ _ He) as [->| ->].
  - destruct (eval_run_ctx _ _ _ _ _ _) as [[[w' err] v]|]; [|done]. cbn [mbind option_bind]. by rewrite Hst.
Qed.

Lemma lanes_whole (x : row) n : length x = n -> lanes_at n x 0 = Some x.
Proof.
  intros <-. rewrite lanes_at_ok by lia. f_equal. apply list_eq. intros j. rewrite list_lookup_fmap. destruct (decide (j < length x)%nat).
  - rewrite lookup_seq_lt by done. cbn. symmetry. by apply list_lookup_lookup_total_lt.
  - rewrite lookup_seq_ge by lia. symmetry. apply lookup_ge_None. lia.
Qed.

(** The row that a scan is at. *)
Lemma scan_row (r : rel) i : readable r -> (i < nrows r)%nat -> exists x, rd (rows r) i = Some x /\ lanes_at (ncols r) x 0 = Some x /\ length x = ncols r /\
  row_ok r x /\ drop i (stored r) = x :: drop (S i) (stored r).
Proof.
  intros Hr Hi. pose proof Hr as [Hf Hok]. pose proof (length_stored r Hf) as Hls. destruct (stored_row r Hr i Hi) as [Hx Hxl]. exists (stored r !!! i).
  assert (Hs : stored r !! i = Some (stored r !!! i)) by (apply list_lookup_lookup_total_lt; lia). split_and!; [done|by apply lanes_whole|done|by apply (Forall_lookup_1 _ _ _ _ Hok Hs)|by apply drop_S].
Qed.

(** How a scan ends. *)
Definition scanned (e : filter_env) (out out' : rel) (rc : Z) (st1 : option Z) (w1 : W) (n : nat) (ref : W * list row * option Z) : Prop :=
  lanes out' = lanes out /\ fits out' /\
  ((rc = 0 /\ st1 = None /\ ref.2 = None /\ w1 = ref.1.1 /\ grew out out' ref.1.2) \/
   (rc <> 0 /\ st1 = Some rc /\ ref.2 = Some rc /\ w1 = ref.1.1) \/
   (rc = ENOMEM /\ st1 = None /\ (roomy e -> 2 ^ 31 < Z.of_nat (nrows out + n)))).

Lemma scanned_cons e out out1 out2 rc st1 w1 n w' l st x : lanes out1 = lanes out -> grew out out1 [x] ->
  scanned e out1 out2 rc st1 w1 n (w', l, st) -> scanned e out out2 rc st1 w1 (S n) (w', x :: l, st).
Proof.
  intros Hl Hg (Hl2 & Hf2 & H). split; [by rewrite Hl2|]. split; [done|]. destruct H as [(-> & -> & Hst & -> & H)|[H|(-> & -> & H)]].
  - left. split_and!; [done..|]. by apply (grew_app out out1 out2 [x] l).
  - right. left. done.
  - right. right. split_and!; [done..|]. intros Hr. specialize (H Hr). destruct Hg as [Hn _]. cbn [length] in *. lia.
Qed.

Lemma verdict_status ss sessions buf nc x (w w' : W) st : verdict ss sessions buf nc x w = Some (w', inr st) -> 2 <= st.
Proof.
  unfold verdict. destruct (length buf =? 0)%nat; [done|]. destruct (eval_run_ctx _ _ _ _ _ _) as [[[w1 err] v]|]; [|done]. cbn [mbind option_bind].
  destruct (Z.leb_spec EXTENSION_MALFORMED err); [|done]. by intros [= _ <-].
Qed.

Lemma slow_loop_ok e ss sessions buf ce (r : rel) : ExprProof.is_buffer buf -> readable r ->
  (if (length buf =? 0)%nat then Some None else compile (compile_alloc e) (instrs_alloc e) buf (s_intern ss)) = Some ce ->
  forall n i out (w : W) ref, (i + n = nrows r)%nat -> fits out -> lanes out = lanes r ->
    accepted ss sessions buf (ncols r) (drop i (stored r)) w = Some ref ->
    exists w1 out' rc st1, slow_loop n e ss sessions buf ce r i out w = Some (w1, out', rc, st1) /\ scanned e out out' rc st1 w1 n ref.
Proof.
  intros Hbuf Hr Hce. pose proof Hr as [Hf Hok]. pose proof (length_stored r Hf) as Hls.
  induction n as [|n IH]; intros i out w ref Hi Hfo Hlo Hacc; cbn [slow_loop].
  { rewrite drop_ge in Hacc by lia. cbn in Hacc. injection Hacc as <-. eexists w, out, 0, None. split; [done|]. split; [done|]. split; [done|]. left. cbn.
    split_and!; [done..|]. split; [cbn; lia|]. exists []. by rewrite app_nil_r. }
  destruct (scan_row r i Hr ltac:(lia)) as (x & -> & Hx & Hxl & Hxok & Hd). rewrite Hd in Hacc. cbn [mbind option_bind]. rewrite Hx. cbn [mbind option_bind].
  rewrite (row_passes_verdict e) by done. cbn [accepted] in Hacc.
  destruct (verdict ss sessions buf (ncols r) x w) as [[w1 [keep|st]]|] eqn:Hv; [| |done]; cbn [mbind option_bind] in Hacc |- *.
  2: { injection Hacc as <-. apply verdict_status in Hv. eexists w1, out, st, (Some st). split; [done|]. split; [done|]. split; [done|]. right. left. cbn. split_and!; (done || lia). }
  destruct (accepted ss sessions buf (ncols r) (drop (S i) (stored r)) w1) as [[[w2 l] st]|] eqn:Hrec; [|done]. cbn [mbind option_bind] in Hacc. injection Hacc as <-.
  destruct keep.
  - destruct (append_one e out x Hfo ltac:(by rewrite Hlo)) as (o1 & rc & -> & Hl1 & Hf1 & [[-> Hg]|[-> Hg]]); cbn [mbind option_bind Z.eqb negb ENOMEM].
    + destruct (IH (S i) o1 w1 _ ltac:(lia) Hf1 ltac:(congruence) Hrec) as (w3 & o2 & rc & st1 & -> & Hs2). eexists _, _, _, _. split; [done|]. by apply (scanned_cons e out o1).
    + eexists _, _, _, _. split; [done|]. split; [done|]. split; [done|]. right. right. split_and!; [done..|]. intros Hro. specialize (Hg Hro). lia.
  - cbn [mbind option_bind Z.eqb negb]. destruct (IH (S i) out w1 _ ltac:(lia) Hfo Hlo Hrec) as (w3 & o2 & rc & st1 & -> & Hs2). eexists _, _, _, _. split; [done|].
    destruct Hs2 as (H1 & H2 & H3). split; [done|]. split; [done|]. destruct H3 as [H3|[H3|(-> & -> & H3)]]; [by left|by right; left|right; right].
    split_and!; [done..|]. intros Hro. specialize (H3 Hro). lia.
Qed.

(** Where the fast path applies, the interpreter accepts the rows that satisfy
    the comparison. *)
Lemma fast_cmp_accepted ss sessions buf (r : rel) : ExprProof.is_buffer buf -> exists x, fast_cmp buf r = Some x /\ forall c, x = Some c ->
  simple_fits c (ncols r) /\ forall l (w : W), Forall (fun x => length x = ncols r) l ->
    accepted ss sessions buf (ncols r) l w = Some (w, filter (fun x => simple_holds c x = true) l, None).
Proof.
  intros Hbuf. unfold fast_cmp. destruct (Nat.eqb_spec (length buf) 0) as [|Hne]; [by eexists|]. destruct (nrows r =? 0)%nat; [by eexists|]. cbn [orb].
  destruct (simple_cmp_runs buf Hbuf) as (sc & -> & Hsc). cbn [mbind option_bind]. eexists. split; [done|]. intros c Hc. destruct sc as [c'|]; [|done]. cbn [mbind option_bind] in Hc.
  destruct (Z.ltb_spec (col_a c') (Z.of_nat (ncols r))) as [Hca|]; [|done]. cbn [andb] in Hc. destruct (b_is_const c' || _) eqn:Hcb; [|done]. injection Hc as <-.
  destruct (Hsc c' eq_refl) as (Ha & Hb & Hop & Hrun). split.
  { split; [lia|]. split; [|done]. intros Hk. rewrite Hk in Hcb. cbn [orb] in Hcb. apply Z.ltb_lt in Hcb. lia. }
  intros l w Hl. induction Hl as [|x l Hx _ IH]; [done|]. cbn [accepted].
  assert (Hv : verdict ss sessions buf (ncols r) x w = Some (w, inl (simple_holds c' x))).
  { unfold verdict. rewrite (proj2 (Nat.eqb_neq _ _)) by done. rewrite Hrun, (proj2 (Z.ltb_lt (col_a c') _)) by lia. unfold rd, simple_holds.
    rewrite (list_lookup_lookup_total_lt x (Z.to_nat (col_a c'))) by lia. cbn [mbind option_bind].
    destruct (b_is_const c'); cbn [orb mbind option_bind] in *; [by destruct (col_filter_cmp_scalar _ _ _)|].
    rewrite Hcb. apply Z.ltb_lt in Hcb. rewrite list_lookup_lookup_total_lt by lia. cbn [mbind option_bind]. by destruct (col_filter_cmp_scalar _ _ _). }
  rewrite Hv. cbn [mbind option_bind]. rewrite IH. cbn [mbind option_bind]. rewrite filter_cons. by destruct (simple_holds c' x); case_decide.
Qed.

Lemma new_like_fits (r : rel) : fits (new_like r).
Proof. unfold fits, new_like. cbn [nrows capacity rows]. rewrite length_replicate. lia. Qed.

(** A relation grown from an empty one holds what was appended. *)
Lemma grew_fresh (r out : rel) l : lanes out = lanes r -> fits out -> grew (new_like r) out l -> readable out /\ keys r (stored out) = keys r l.
Proof.
  intros Hl Hf (_ & l' & Hs & Hk & Hok). change (stored (new_like r)) with (take 0 (rows (new_like r))) in Hs. rewrite take_0 in Hs. cbn [app] in Hs. rewrite Hs.
  change (lanes (new_like r)) with (lanes r) in Hk, Hok. split; [|done]. split; [done|]. rewrite Hs, Hl. done.
Qed.

(** How the operator ends: with the accepted rows on the stack, with the status
    of an extension call, or without memory; the input is freed when it was
    owned, and the output when it is not pushed. *)
Definition filtered_as (e : filter_env) (r : rel) (own : bool) (rest : stack K) (ref : W * list row * option Z)
    (res : W * stack K * Z * list (resource K) * option Z) : Prop :=
  let '(w1, s', rc, freed, st1) := res in
  let input := if own then [F_relation r] else [] in
  (rc = 0 /\ st1 = None /\ ref.2 = None /\ w1 = ref.1.1 /\ freed = input /\ exists out, s' = En (Some out) true false None 0 ENTRY_RELATION None :: rest /\
     lanes out = lanes r /\ readable out /\ keys r (stored out) = keys r ref.1.2) \/
  (rc <> 0 /\ st1 = Some rc /\ ref.2 = Some rc /\ w1 = ref.1.1 /\ s' = rest /\ exists out, freed = F_relation out :: input) \/
  (rc = ENOMEM /\ st1 = None /\ s' = rest /\ (freed = input \/ exists out, freed = F_relation out :: input) /\ (roomy e -> 2 ^ 31 < Z.of_nat (nrows r))).

Lemma finish_ok e r own delta segs nseg rest out rc st1 w1 ref : (length rest < COL_STACK_MAX)%nat -> scanned e (new_like r) out rc st1 w1 (nrows r) ref ->
  exists s' rc' freed, finish rest (En (Some r) own delta segs nseg ENTRY_RELATION None) r out rc = (s', rc', freed) /\
    filtered_as e r own rest ref (w1, s', rc', freed, st1).
Proof.
  intros Hrest (Hl & Hf & H). unfold finish. cbn [owned]. destruct H as [(-> & -> & Hst & -> & Hg)|[(Hrc & -> & Hst & ->)|(-> & -> & Hro)]].
  - cbn [Z.eqb negb]. unfold eval_stack_push. rewrite (proj2 (Nat.leb_gt _ _)) by done. eexists _, _, _. split; [done|]. left. split_and!; [done..|].
    exists out. split; [done|]. split; [done|]. by apply grew_fresh.
  - rewrite (proj2 (Z.eqb_neq rc 0)) by done. cbn [negb]. eexists _, _, _. split; [done|]. right. left. split_and!; eauto.
  - cbn [Z.eqb negb ENOMEM]. eexists _, _, _. split; [done|]. right. right. split_and!; eauto.
Qed.

Lemma filter_op_ok e ss sessions buf rest r own delta segs nseg (w : W) ref : ExprProof.is_buffer buf -> readable r -> (length rest < COL_STACK_MAX)%nat ->
  accepted ss sessions buf (ncols r) (stored r) w = Some ref ->
  exists res, filter_op e ss sessions buf (En (Some r) own delta segs nseg ENTRY_RELATION None :: rest) w = Some res /\ filtered_as e r own rest ref res.
Proof.
  intros Hbuf Hr Hrest Hacc. unfold filter_op. cbn [eval_stack_pop_relation eval_stack_pop kind e_rel owned Z.eqb negb ENTRY_CONTINUATION ENTRY_RELATION].
  destruct (out_alloc e) eqn:Hout; cbn [negb].
  2: { eexists. split; [done|]. right. right. split_and!; [done..|by left|]. intros (Hro & _). congruence. }
  destruct (fast_cmp_accepted ss sessions buf r Hbuf) as (fast & -> & Hfast). cbn [mbind option_bind]. destruct fast as [c|].
  - destruct (Hfast c eq_refl) as [Hc Hall]. pose proof Hr as [Hf Hok].
    assert (Hlen : Forall (fun x => length x = ncols r) (stored r)) by (eapply Forall_impl; [done|]; intros x Hx; apply Hx).
    rewrite (Hall _ _ Hlen) in Hacc. injection Hacc as <-. destruct (fast_rows_ok e r c Hr Hc) as ([[n t]|] & -> & Hx); cbn [mbind option_bind].
    2: { eexists. split; [done|]. right. right. split_and!; [done..|by right; eexists|]. intros (_ & H1 & H2 & _). destruct Hx; congruence. }
    set (l := filter _ (stored r)) in *. assert (Hlr : (length l <= nrows r)%nat) by (unfold l; rewrite <-(length_stored r Hf); apply length_filter).
    assert (Hn : n = length l) by apply Hx. subst n.
    destruct (append_loop_ok e (ncols r) t l (length l) 0 (new_like r) Hx ltac:(lia) (new_like_fits r)) as (out & rc & -> & Hl & Hfo & Ha); [apply Forall_forall; intros x [_ Hx2]%list_elem_of_filter; exact (proj1 (Forall_forall _ _) Hok x Hx2)|]. cbn [mbind option_bind].
    rewrite drop_0 in Ha.
    destruct (finish_ok e r own delta segs nseg rest out rc None w (w, l, None) Hrest) as (s' & rc' & freed & -> & Hfin).
    { split; [done|]. split; [done|]. destruct Ha as [[-> Hg]|[-> Hro]]; [left; done|right; right]. split_and!; [done..|]. intros Hr2. specialize (Hro Hr2). cbn [nrows new_like] in *. lia. }
    eexists. split; [done|]. done.
  - assert (Hce : exists ce, (if (length buf =? 0)%nat then Some None else compile (compile_alloc e) (instrs_alloc e) buf (s_intern ss)) = Some ce).
    { destruct (length buf =? 0)%nat; [by eexists|]. destruct (ExprProof.compile_agrees_ctx (W := W) (compile_alloc e) (instrs_alloc e) buf (s_intern ss) Hbuf) as (ce & Hce & _). eauto. }
    destruct Hce as (ce & Hce). rewrite Hce. cbn [mbind option_bind]. destruct (negb _) eqn:Hrow.
    { eexists. split; [done|]. right. right. split_and!; [done..|by right; eexists|]. intros (_ & _ & _ & Hra & _). rewrite Hra, orb_true_r in Hrow. done. }
    destruct (slow_loop_ok e ss sessions buf ce r Hbuf Hr Hce (nrows r) 0 (new_like r) w ref) as (w1 & out & rc & st1 & -> & Hs); [lia|apply new_like_fits|done|by rewrite drop_0|].
    cbn [mbind option_bind]. destruct (finish_ok e r own delta segs nseg rest out rc st1 w1 ref Hrest Hs) as (s' & rc' & freed & -> & Hfin). by eexists.
Qed.

(** ** Filtered join inputs *)

(** The rows the interpreter accepts; an error drops the row. *)
Fixpoint kept_rows (table : bool) (sessions buf : list Z) (nc : nat) (l : list row) (w : W) : option (W * list row) :=
  match l with
  | [] => Some (w, [])
  | x :: l' =>
      '(w, err, v) ← eval_run table sessions buf x (Z.of_nat nc) w;
      '(w, out) ← kept_rows table sessions buf nc l' w;
      Some (w, if (err =? 0) && negb (v =? 0) then x :: out else out)
  end.

(** A simple comparison has its left column in the relation. *)
Definition left_column_exists (buf : list Z) (nc : nat) : Prop := forall c, filter_is_simple_cmp buf = Some (Some c) -> col_a c < Z.of_nat nc.

(** A row that passes is appended, another one skipped: what both loops do. *)
Lemma keep_step e (out : rel) (x : row) (keep : bool) n : fits out -> row_ok out x ->
  exists out1 rc1, (if keep then col_rel_append_row (grow_alloc e (nrows out)) out x else Some (out, 0)) = Some (out1, rc1) /\ lanes out1 = lanes out /\ fits out1 /\
    ((rc1 = 0 /\ grew out out1 (if keep then [x] else []) /\ (nrows out1 + n <= nrows out + S n)%nat) \/ (rc1 = ENOMEM /\ (roomy e -> 2 ^ 31 < Z.of_nat (nrows out + S n)))).
Proof.
  intros Hf Hx. destruct keep.
  - destruct (append_one e out x Hf Hx) as (o1 & rc & -> & Hl & Hf1 & [[-> Hg]|[-> Hg]]); eexists _, _; (split; [done|]); (split; [done|]); (split; [done|]); [left|right].
    + split_and!; [done..|]. destruct Hg as [Hn _]. cbn in Hn. lia.
    + split; [done|]. intros Hr. specialize (Hg Hr). lia.
  - exists out, 0. split; [done|]. split; [done|]. split; [done|]. left. split_and!; [done| |lia]. split; [cbn; lia|]. exists []. by rewrite app_nil_r.
Qed.

(** How a fill ends. *)
Definition filled (e : filter_env) (out out' : rel) (rc : Z) (n : nat) (l : list row) : Prop :=
  lanes out' = lanes out /\ fits out' /\ ((rc = 0 /\ grew out out' l) \/ (rc = ENOMEM /\ (roomy e -> 2 ^ 31 < Z.of_nat (nrows out + n)))).

Lemma filled_step e (out out1 out2 : rel) rc n l1 l2 : lanes out1 = lanes out -> grew out out1 l1 -> (nrows out1 + n <= nrows out + S n)%nat ->
  filled e out1 out2 rc n l2 -> filled e out out2 rc (S n) (l1 ++ l2).
Proof.
  intros Hl Hg Hn (Hl2 & Hf2 & H). split; [by rewrite Hl2|]. split; [done|]. destruct H as [[-> H]|[-> H]]; [left|right]; (split; [done|]).
  - by apply (grew_app out out1 out2).
  - intros Hr. specialize (H Hr). lia.
Qed.

Lemma fill_simple_ok e c (r : rel) sessions buf table : ExprProof.is_buffer buf -> readable r -> filter_is_simple_cmp buf = Some (Some c) -> col_a c < Z.of_nat (ncols r) ->
  forall n i out, (i + n = nrows r)%nat -> fits out -> lanes out = lanes r -> exists out' rc l,
    fill_simple n e c r i out = Some (out', rc) /\ filled e out out' rc n l /\ forall w : W, kept_rows table sessions buf (ncols r) (drop i (stored r)) w = Some (w, l).
Proof.
  intros Hbuf Hr Hc Hca. pose proof Hr as [Hf Hok]. pose proof (length_stored r Hf) as Hls.
  destruct (simple_cmp_runs (W := W) buf Hbuf) as (sc & Hsc & Hrun). rewrite Hc in Hsc. injection Hsc as <-. destruct (Hrun c eq_refl) as (Ha & Hb & _ & Hrun'). clear Hrun.
  induction n as [|n IH]; intros i out Hi Hfo Hlo; cbn [fill_simple].
  { eexists out, 0, []. split; [done|]. split; [|intros w; by rewrite drop_ge by lia]. split; [done|]. split; [done|]. left. split; [done|]. split; [cbn; lia|]. exists []. by rewrite app_nil_r. }
  destruct (scan_row r i Hr ltac:(lia)) as (x & -> & Hx & Hxl & Hxok & Hd). rewrite Hd. cbn [mbind option_bind]. rewrite Hx. cbn [mbind option_bind].
  set (b := if b_is_const c then const_b c else if col_b c <? Z.of_nat (ncols r) then x !!! Z.to_nat (col_b c) else 0).
  assert (Hbv : (if b_is_const c then Some (const_b c) else if col_b c <? Z.of_nat (ncols r) then rd x (Z.to_nat (col_b c)) else Some 0) = Some b).
  { unfold b. destruct (b_is_const c); [done|]. destruct (Z.ltb_spec (col_b c) (Z.of_nat (ncols r))); [|done]. apply list_lookup_lookup_total_lt. lia. }
  assert (Hav : rd x (Z.to_nat (col_a c)) = Some (x !!! Z.to_nat (col_a c))) by (apply list_lookup_lookup_total_lt; lia).
  unfold col_filter_cmp_row. rewrite (proj2 (Z.leb_gt _ _)) by lia. rewrite Hav, Hbv. cbn [mbind option_bind].
  set (keep := col_filter_cmp_scalar _ b _).
  assert (Hk : forall w : W, eval_run table sessions buf x (Z.of_nat (ncols r)) w = Some (w, 0, Z.b2z keep)).
  { intros w. unfold eval_run. rewrite Hrun', (proj2 (Z.ltb_lt (col_a c) _)) by lia. rewrite Hav, Hbv. done. }
  clearbody keep. destruct (keep_step e out x keep n Hfo ltac:(by rewrite Hlo)) as (o1 & rc1 & -> & Hl1 & Hf1 & [(-> & Hg & Hn)|[-> Hro]]); cbn [mbind option_bind Z.eqb negb ENOMEM].
  - destruct (IH (S i) o1 ltac:(lia) Hf1 ltac:(congruence)) as (o2 & rc & l & -> & Hfi & Hkept). eexists _, _, ((if keep then [x] else []) ++ l). split; [done|].
    split; [by apply (filled_step e out o1)|]. intros w. cbn [kept_rows]. rewrite Hk. cbn [mbind option_bind]. rewrite Hkept. by destruct keep.
  - destruct (IH (S i) o1 ltac:(lia) Hf1 ltac:(congruence)) as (_ & _ & l & _ & _ & Hkept). eexists _, _, ((if keep then [x] else []) ++ l). split; [done|].
    split; [split; [done|]; split; [done|]; right; done|]. intros w. cbn [kept_rows]. rewrite Hk. cbn [mbind option_bind]. rewrite Hkept. by destruct keep.
Qed.

Lemma fill_loop_ok e table sessions buf ce (r : rel) : ExprProof.is_buffer buf -> readable r -> compile (compile_alloc e) (instrs_alloc e) buf table = Some ce ->
  forall n i out (w w' : W) l, (i + n = nrows r)%nat -> fits out -> lanes out = lanes r -> kept_rows table sessions buf (ncols r) (drop i (stored r)) w = Some (w', l) ->
  exists w1 out' rc, Filter.fill_loop n e table sessions buf ce r i out w = Some (w1, out', rc) /\ filled e out out' rc n l /\ (rc = 0 -> w1 = w').
Proof.
  intros Hbuf Hr Hce. pose proof Hr as [Hf Hok]. pose proof (length_stored r Hf) as Hls.
  induction n as [|n IH]; intros i out w w' l Hi Hfo Hlo Hacc; cbn [Filter.fill_loop].
  { rewrite drop_ge in Hacc by lia. cbn in Hacc. injection Hacc as <- <-. eexists _, _, _. split; [done|]. split; [|done]. split; [done|]. split; [done|]. left. split; [done|]. split; [cbn; lia|]. exists []. by rewrite app_nil_r. }
  destruct (scan_row r i Hr ltac:(lia)) as (x & -> & Hx & Hxl & Hxok & Hd). rewrite Hd in Hacc. cbn [kept_rows] in Hacc. cbn [mbind option_bind]. rewrite Hx. cbn [mbind option_bind].
  assert (Hp : fill_passes table sessions buf ce x (Z.of_nat (ncols r)) w = ('(w, err, v) ← eval_run table sessions buf x (Z.of_nat (ncols r)) w; Some (w, (err =? 0) && negb (v =? 0)))).
  { unfold fill_passes. destruct ce as [c|]; [|done]. destruct (ExprProof.compile_agrees (W := W) (compile_alloc e) (instrs_alloc e) buf table Hbuf) as (rr & Hrr & Hag).
    rewrite Hce in Hrr. injection Hrr as <-. rewrite (Hag c eq_refl). unfold ExprProof.result. by destruct (eval_compiled _ _ _ _) as [[rc v]|]. }
  rewrite Hp. destruct (eval_run _ _ _ _ _ w) as [[[w1 err] v]|]; [|done]. cbn [mbind option_bind] in *.
  destruct (kept_rows _ _ _ _ _ w1) as [[w2 l2]|] eqn:Hrec; [|done]. cbn [mbind option_bind] in Hacc. injection Hacc as <- <-. set (keep := _ && _). clearbody keep.
  destruct (keep_step e out x keep n Hfo ltac:(by rewrite Hlo)) as (o1 & rc1 & -> & Hl1 & Hf1 & [(-> & Hg & Hn)|[-> Hro]]); cbn [mbind option_bind Z.eqb negb ENOMEM].
  - destruct (IH (S i) o1 w1 _ _ ltac:(lia) Hf1 ltac:(congruence) Hrec) as (w3 & o2 & rc & -> & Hfi & Hw). eexists _, _, _. split; [done|]. split; [|done].
    replace (if keep then x :: l2 else l2) with ((if keep then [x] else []) ++ l2) by (by destruct keep). by apply (filled_step e out o1).
  - eexists _, _, _. split; [done|]. split; [|done]. split; [done|]. split; [done|]. right. done.
Qed.

(** A filtered copy of [r]. *)
Definition copy_of (r : rel) (l : list row) (out : rel) : Prop := lanes out = lanes r /\ readable out /\ keys r (stored out) = keys r l.

Lemma fill_filtered_ok e table sessions buf (r : rel) (w w' : W) l : ExprProof.is_buffer buf -> readable r -> left_column_exists buf (ncols r) ->
  kept_rows table sessions buf (ncols r) (stored r) w = Some (w', l) ->
  exists w1 out rc, fill_filtered_rel e table sessions buf r (new_like r) w = Some (w1, out, rc) /\
    ((rc = 0 /\ w1 = w' /\ copy_of r l out) \/ (rc = ENOMEM /\ (roomy e -> 2 ^ 31 < Z.of_nat (nrows r)))).
Proof.
  intros Hbuf Hr Hcol Hkept. unfold fill_filtered_rel. destruct (negb _) eqn:Hrow.
  { eexists _, _, _. split; [done|]. right. split; [done|]. intros (_ & _ & _ & Hra & _). by rewrite Hra, orb_true_r in Hrow. }
  destruct (simple_cmp_runs (W := W) buf Hbuf) as (sc & Hsc & _). rewrite Hsc. cbn [mbind option_bind]. destruct sc as [c|].
  - destruct (fill_simple_ok e c r sessions buf table Hbuf Hr Hsc (Hcol c Hsc) (nrows r) 0 (new_like r)) as (out & rc & l' & -> & (Hl & Hf & Hfi) & Hall); [lia|apply new_like_fits|done|].
    cbn [mbind option_bind]. rewrite drop_0 in Hall. rewrite Hall in Hkept. injection Hkept as <- <-. eexists _, _, _. split; [done|].
    destruct Hfi as [[-> Hg]|H]; [left|by right]. split_and!; [done..|]. split; [done|]. by apply grew_fresh.
  - destruct (ExprProof.compile_agrees (W := W) (compile_alloc e) (instrs_alloc e) buf table Hbuf) as (ce & Hce & _). rewrite Hce. cbn [mbind option_bind].
    destruct (fill_loop_ok e table sessions buf ce r Hbuf Hr Hce (nrows r) 0 (new_like r) w w' l) as (w1 & out & rc & -> & (Hl & Hf & Hfi) & Hw); [lia|apply new_like_fits|done|by rewrite drop_0|].
    eexists _, _, _. split; [done|]. destruct Hfi as [[-> Hg]|H]; [left|by right]. split_and!; [done|auto|]. split; [done|]. by apply grew_fresh.
Qed.

End Operator.

End FilterProof.
