(* ===== verification/FilterSpec.v ===== *)
(** * What the filters promise

    The theorems on the operator, on the selection kernel, on the cache of
    filtered join inputs and on the sizes of hash tables, with inputs to which
    they apply, and a few inputs on which the code departs from what it
    means. *)

From S2P Require Import Prelude RadixSort Relation Consolidate ConsolidateProof DeltaSpec StringOps StringOpsProof Expr ExprCompile ExprProof EvalStack Filter FilterProof.

Module FilterSpec.

Import Keys Rel Consolidate ConsolidateProof StringOps.StringOps Expr.Expr ExprCompile.ExprCompile EvalStack.EvalStack Filter.Filter FilterProof.FilterProof.

(** ** The cache *)

Section Cache.

Context {W : Type} `{!Host W}.

(** The predicates in use do not depend on the world: what they say of a row. *)
Context (holds_on : list Z -> row -> bool).

(** A call with a pure predicate on a relation. *)
Record proper_call (table : bool) (buf : list Z) (r : rel) : Prop := {
  pc_buf : ExprProof.is_buffer buf;
  pc_rel : readable r;
  pc_col : left_column_exists buf (ncols r);
  pc_pure : forall sessions x (w : W), length x = ncols r ->
    exists err v, eval_run table sessions buf x (Z.of_nat (ncols r)) w = Some (w, err, v) /\ holds_on buf x = (err =? 0) && negb (v =? 0) }.

Definition filter_of (buf : list Z) (r out : rel) : Prop := copy_of r (filter (fun x => holds_on buf x = true) (stored r)) out.

(** The calls made so far: name, predicate, snapshot and relation. *)
Abbreviation history := (list (str * list Z * snapshot * rel)).

(** An entry with a relation holds the filtered relation of the call that filled
    it. *)
Definition entry_fresh (h : history) (x : cached) : Prop := forall out, filtered x = Some out ->
  exists r, (rel_name x, filter_data x, source_snapshot x, r) ∈ h /\ nrows r = source_nrows x /\ filter_of (filter_data x) r out.

Lemma entry_fresh_cons h k l : Forall (entry_fresh h) l -> Forall (entry_fresh (k :: h)) l.
Proof. intros H. eapply Forall_impl; [exact H|]. clear H. intros x Hx out (r & Hr & H)%Hx. exists r. split; [by right|done]. Qed.

(** A filtered relation is that of the call itself, or of an earlier call by the
    same name and predicate, with an equal snapshot and as many rows. *)
Definition served (h : history) (name : str) (buf : list Z) (sn : snapshot) (r out : rel) : Prop :=
  exists r', (r' = r \/ exists sn', (name, buf, sn', r') ∈ h /\ snapshot_equal sn' sn = true /\ nrows r' = nrows r) /\ filter_of buf r' out.

(** With [lucky], no allocation ever failed. *)
Record cache_ok (lucky : bool) (h : history) (c : cache) : Prop := {
  ck_fresh : Forall (entry_fresh h) (entries c);
  ck_cap : Z.of_nat (length (entries c)) <= filt_cache_cap c;
  ck_full : lucky = true -> Forall (fun x => is_Some (filtered x)) (entries c) }.

Definition lucky_call (e : filter_env) (ke : cache_env) (r : rel) : Prop :=
  roomy e /\ realloc_ok ke = true /\ strdup_ok ke = true /\ data_ok ke = true /\ Z.of_nat (nrows r) <= 2 ^ 31.

Lemma pure_kept table buf r sessions (w : W) : proper_call table buf r -> kept_rows table sessions buf (ncols r) (stored r) w = Some (w, filter (fun x => holds_on buf x = true) (stored r)).
Proof.
  intros [_ [_ Hok] _ Hp]. induction Hok as [|x l Hx _ IH]; [done|]. cbn [kept_rows]. destruct (Hp sessions x w (rk_len _ _ Hx)) as (err & v & -> & Hh).
  cbn [mbind option_bind]. rewrite IH. cbn [mbind option_bind]. rewrite filter_cons, <-Hh. by destruct (holds_on buf x); case_decide.
Qed.

Lemma find_entry_some l name buf h i j : find_entry l name buf h i = Some j -> exists x, (i <= j)%nat /\ l !! (j - i)%nat = Some x /\ rel_name x = name /\ filter_data x = buf.
Proof.
  revert i. induction l as [|x l IH]; intros i; cbn [find_entry]; [done|].
  assert (Hrec : find_entry l name buf h (S i) = Some j -> exists y, (i <= j)%nat /\ (x :: l) !! (j - i)%nat = Some y /\ rel_name y = name /\ filter_data y = buf).
  { intros (y & Hle & Hy & Hn & Hd)%IH. exists y. split; [lia|]. split; [|done]. replace (j - i)%nat with (S (j - S i)) by lia. done. }
  destruct (negb (filter_hash x =? h)); [done|]. case_bool_decide; [|done]. cbn [negb]. destruct (negb _ || _) eqn:Hd; [done|]. intros [= <-].
  apply orb_false_iff in Hd as [_ Hd%negb_false_iff%bool_decide_eq_true]. exists x. rewrite Nat.sub_diag. done.
Qed.

(** One call: it returns; a relation it returns is the filtered relation of a
    call; the cache stays sound, and without failures there is always a
    relation. *)
Lemma cached_step lucky h e ke table sessions buf name r sn c (w : W) : cache_ok lucky h c -> proper_call table buf r -> Z.of_nat (length (entries c)) < 2 ^ 31 ->
  (lucky = true -> lucky_call e ke r) ->
  exists w' c' out, apply_right_filter_cached e ke table sessions buf name r sn c w = Some (w', c', out) /\ cache_ok lucky ((name, buf, sn, r) :: h) c' /\
    (forall o, out = Some o -> served h name buf sn r o) /\ (lucky = true -> is_Some out).
Proof.
  intros [Hfr Hcap Hfull] Hcall Hsize Hl. pose proof (pure_kept table buf r sessions w Hcall) as Hk. pose proof (entry_fresh_cons h (name, buf, sn, r) _ Hfr) as Hfr'.
  destruct (fill_filtered_ok e table sessions buf r w w _ (pc_buf _ _ _ Hcall) (pc_rel _ _ _ Hcall) (pc_col _ _ _ Hcall) Hk) as (w1 & out & rc & Hfill & Hres).
  assert (Hbad : lucky = true -> rc = 0).
  { intros Hlu. destruct Hres as [(-> & _)|(_ & Hro)]; [done|]. destruct (Hl Hlu) as (H1 & _ & _ & _ & H2). specialize (Hro H1). lia. }
  assert (Hnew : forall x, rel_name x = name -> filter_data x = buf -> entry_fresh ((name, buf, sn, r) :: h) (stamped (nrows r) sn (Some out) x) \/ rc <> 0).
  { intros x Hxn Hx. destruct Hres as [(-> & _ & Hc)|(-> & _)]; [left|by right]. intros o [= <-]. exists r. cbn. rewrite Hx, Hxn. split; [left|]. by split. }
  unfold apply_right_filter_cached. destruct (find_entry _ _ _ _ _) as [j|] eqn:Hfind.
  - destruct (find_entry_some _ _ _ _ _ _ Hfind) as (x & _ & Hx & Hname & Hdata). rewrite Nat.sub_0_r in Hx. unfold rd. rewrite Hx. cbn [mbind option_bind].
    pose proof (lookup_lt_Some _ _ _ Hx) as Hlt. pose proof (Forall_lookup_1 _ _ _ _ Hfr Hx) as Hxf.
    destruct (snapshot_equal _ _ && _) eqn:Hsn.
    { eexists _, _, _. split; [done|]. split; [by split|]. split; [|intros Hlu; by apply (Forall_lookup_1 _ _ _ _ (Hfull Hlu) Hx)]. intros o (r' & Hr' & Hn & Ho)%Hxf.
      apply andb_true_iff in Hsn as [Hsn Hnr%Nat.eqb_eq]. rewrite Hname, Hdata in Hr'. rewrite Hdata in Ho. exists r'. split; [|done]. right. exists (source_snapshot x). split_and!; [done..|lia]. }
    assert (Hnone : cache_ok lucky ((name, buf, sn, r) :: h) (Cache (<[j := set_filtered None x]> (entries c)) (filt_cache_cap c)) \/ lucky = true).
    { destruct lucky; [by right|left]. split; cbn; [|by rewrite length_insert|done]. apply Forall_insert; [done|]. intros o [=]. }
    destruct (out_alloc e) eqn:Hout; cbn [negb].
    2: { rewrite wr_lt by done. eexists _, _, _. split; [done|]. destruct lucky; [destruct (Hl eq_refl) as ((Hr & _) & _); congruence|]. destruct Hnone as [|]; [|done]. split_and!; done. }
    rewrite Hfill. cbn [mbind option_bind]. rewrite wr_lt by done. rewrite wr_lt by done. cbn [mbind option_bind].
    destruct Hres as [(-> & -> & Hc)|(-> & Hro)]; cbn [Z.eqb negb ENOMEM].
    + eexists _, _, _. split; [done|]. split; [|split; [intros o [= <-]; exists r; split; [by left|exact Hc]|by eexists]]. split; cbn; [|by rewrite length_insert|].
      * apply Forall_insert; [done|]. by destruct (Hnew x Hname Hdata).
      * intros Hlu. apply Forall_insert; [by apply Hfull|by eexists].
    + destruct lucky; [specialize (Hbad eq_refl); done|]. destruct Hnone as [|]; [|done]. eexists _, _, _. split; [done|]. split_and!; done.
  - set (full := _ =? _). set (cap := if full then _ else _).
    assert (Hcap2 : (lucky = true -> full && negb (realloc_ok ke) = false) /\ Z.of_nat (length (entries c)) < cap).
    { split; [intros Hlu; destruct (Hl Hlu) as (_ & -> & _); by rewrite andb_false_r|]. unfold cap, full. destruct (Z.eqb_spec (Z.of_nat (length (entries c))) (filt_cache_cap c)); [|lia].
      destruct (Z.eqb_spec (filt_cache_cap c) 0); [lia|]. rewrite u32_small by mi. lia. }
    destruct Hcap2 as [Hre Hc2]. destruct (full && negb (realloc_ok ke)); [eexists _, _, _; split; [done|]; destruct lucky; [by specialize (Hre eq_refl)|split_and!; done]|].
    rewrite (proj2 (Z.leb_gt _ _)) by done. destruct (_ || _) eqn:Halloc.
    { eexists _, _, _. split; [done|]. split; [split; cbn; [done|lia|done]|]. split; [done|]. intros Hlu. exfalso.
      destruct (Hl Hlu) as ((H0 & _) & _ & H1 & H2 & _). by rewrite H0, H1, H2 in Halloc. }
    rewrite Hfill. cbn [mbind option_bind]. destruct Hres as [(-> & -> & Hc)|(-> & Hro)]; cbn [Z.eqb negb ENOMEM]; eexists _, _, _; (split; [done|]).
    + split; [|split; [intros o [= <-]; exists r; split; [by left|exact Hc]|by eexists]]. split; cbn.
      * apply Forall_app_2; [done|]. apply Forall_singleton. by destruct (Hnew (Cached name (fnv1a_hash buf) buf 0 (Snap 0 0 0) None) eq_refl eq_refl).
      * rewrite length_app. cbn. lia.
      * intros Hlu. apply Forall_app_2; [by apply Hfull|]. apply Forall_singleton. by eexists.
    + destruct lucky; [by specialize (Hbad eq_refl)|]. split; [|done]. split; cbn; [|rewrite length_app; cbn; lia|done].
      apply Forall_app_2; [done|]. apply Forall_singleton. intros o [=].
Qed.

(** The caches that calls lead to. *)
Inductive used (lucky : bool) : history -> cache -> Prop :=
| used_new : used lucky [] (Cache [] 0)
| used_call h c e ke table sessions buf name r sn (w w' : W) c' out : used lucky h c -> proper_call table buf r -> Z.of_nat (length (entries c)) < 2 ^ 31 ->
    (lucky = true -> lucky_call e ke r) -> apply_right_filter_cached e ke table sessions buf name r sn c w = Some (w', c', out) -> used lucky ((name, buf, sn, r) :: h) c'.

Lemma used_ok lucky h c : used lucky h c -> cache_ok lucky h c.
Proof.
  induction 1 as [|h c e ke table sessions buf name r sn w w' c' out _ IH Hcall Hsize Hl Happ]; [split; cbn; [done|lia|done]|].
  destruct (cached_step lucky h e ke table sessions buf name r sn c w IH Hcall Hsize Hl) as (w2 & c2 & o2 & Heq & Hok & _). rewrite Happ in Heq. by injection Heq as _ <- _.
Qed.

End Cache.

(** ** Sizes of hash tables *)

(** wl_columnar_filter_next_pow2 returns the least power of two that is at
    least 16 and at least its argument, and 0 exactly when that does not fit
    32 bits. *)
Theorem next_pow2_exact n : is_uint32 n ->
  (n <= 2 ^ 31 -> exists k, 4 <= k <= 31 /\ next_pow2 n = 2 ^ k /\ n <= 2 ^ k /\ (k = 4 \/ 2 ^ (k - 1) < n)) /\ (2 ^ 31 < n -> next_pow2 n = 0).
Proof.
  intros Hn. unfold next_pow2. change (UINT32_MAX / 2 + 1) with (2 ^ 31). split.
  - intros Hle. destruct (Z.ltb_spec n 16) as [Hlt|Hge]; [exists 4; split_and!; (done || lia)|]. rewrite (proj2 (Z.ltb_ge _ _)) by lia. rewrite (u32_small (n - 1)) by mi.
    set (m := n - 1). set (L := Z.log2 m). assert (Hm : 15 <= m < 2 ^ 31) by lia. pose proof (Z.log2_spec m ltac:(lia)) as [Hl1 Hl2]. fold L in Hl1, Hl2.
    assert (HL : 3 <= L <= 30) by (split; [change 3 with (Z.log2 15); apply Z.log2_le_mono; lia|apply Z.lt_succ_r, Z.log2_lt_pow2; lia]).
    fold (smear 1 m) (smear 2 (smear 1 m)) (smear 4 (smear 2 (smear 1 m))) (smear 8 (smear 4 (smear 2 (smear 1 m)))).
    fold (smear 16 (smear 8 (smear 4 (smear 2 (smear 1 m))))). rewrite (smear_log2 m) by lia. fold L.
    exists (L + 1). replace (2 ^ (L + 1) - 1 + 1) with (2 ^ (L + 1)) by lia.
    assert (Hp : 2 ^ (L + 1) <= 2 ^ 31) by (apply Z.pow_le_mono_r; lia). rewrite u32_small by mi. rewrite Z.add_simpl_r. unfold Z.succ in Hl2. split_and!; (done || lia).
  - intros Hgt. rewrite (proj2 (Z.ltb_ge _ _)) by lia. by rewrite (proj2 (Z.ltb_lt _ _)) by lia.
Qed.

Lemma next_pow2_exact_witness : (exists k, 4 <= k <= 31 /\ next_pow2 1000 = 2 ^ k /\ 1000 <= 2 ^ k /\ (k = 4 \/ 2 ^ (k - 1) < 1000)) /\ next_pow2 1000 = 1024.
Proof. split; [apply (next_pow2_exact 1000); [split; vm_compute; discriminate|vm_compute; discriminate]|reflexivity]. Defined.

(** ** The theorems *)

(** The selection kernel, vectorised through the packing table or not,
    returns the numbers of the rows whose comparison holds, in ascending order,
    without leaving its columns or the selection vector. *)
Theorem select_rows_exact col_a col_b const_b nrows op avx sel : columns_cover col_a col_b nrows -> (nrows + COL_FILTER_SEL_SLACK <= length sel)%nat ->
  exists n sel', col_filter_select_rows col_a col_b const_b nrows (CMP op) avx sel = Some (n, sel') /\ length sel' = length sel /\
    take n sel' = filter (fun i => passes col_a col_b const_b op i = true) (seq 0 nrows) /\ length (take n sel') = n.
Proof.
  intros Hc Hl. destruct (select_rows_ok col_a col_b const_b nrows op Hc avx sel Hl) as (n & sel' & Hs & Hls & Hn & Ht). exists n, sel'.
  split_and!; [done..|]. by rewrite Ht.
Qed.

(** Twenty rows: two vectors and a tail. *)
Definition twenty : list Z := [5; 1; 9; 4; 4; 7; 0; 3; 8; 2; 4; 6; 1; 1; 9; 0; 5; 4; 3; 2].

Lemma select_rows_exact_witness : exists n sel', col_filter_select_rows twenty None 4 20 (CMP LTE) true (replicate 28 O) = Some (n, sel') /\
  take n sel' = filter (fun i => passes twenty None 4 LTE i = true) (seq 0 20) /\ take n sel' = [1; 3; 4; 6; 7; 9; 10; 12; 13; 15; 17; 18; 19]%nat.
Proof.
  destruct (select_rows_exact twenty None 4 20 LTE true (replicate 28 O)) as (n & sel' & Hs & _ & Ht & _).
  - split; [vm_compute; lia|done].
  - vm_compute. lia.
  - exists n, sel'. split; [exact Hs|]. split; [exact Ht|]. rewrite Ht. vm_compute. reflexivity.
Defined.

(** C8: The filter operator computes the reference [accepted], the predicate
    interpreted row by row, whichever path it takes: it pushes the accepted
    rows, in order, up to the sign of zeros; or it ends with the status of the
    first failed extension call; or it is out of memory.  It frees the input
    exactly when it owned it, and the output exactly when it does not push
    it. *)
Theorem filter_op_exact {W} `{!Host W} {K} e ss sessions buf (rest : stack K) r own delta segs nseg (w : W) ref :
  ExprProof.is_buffer buf -> readable r -> (length rest < COL_STACK_MAX)%nat -> accepted ss sessions buf (ncols r) (stored r) w = Some ref ->
  exists res, filter_op e ss sessions buf (En (Some r) own delta segs nseg ENTRY_RELATION None :: rest) w = Some res /\ filtered_as e r own rest ref res.
Proof. apply filter_op_ok. Qed.

#[local] Existing Instance ExprProof.list_host.

Definition rich_env : filter_env := Fenv true true true true true true true (fun _ => true).
Definition plain_session : session (W := list str) := Sess true None 1 false None.

(** The rows of the relations on the stack, and what was freed. *)
Definition outputs {W K} (res : W * stack K * Z * list (resource K) * option Z) : list (option (list row)) :=
  let '(_, s, _, _, _) := res in (fun x => stored <$> e_rel x) <$> s.
Definition freed_by {W K} (res : W * stack K * Z * list (resource K) * option Z) : list (resource K) := let '(_, _, _, f, _) := res in f.

(** The rows (3,4), (4,3), (1,2). *)
Definition three : rel := DeltaSpec.of_rows DeltaSpec.pairs [[3; 4]; [4; 3]; [1; 2]] 0 [].

Lemma three_readable : readable three.
Proof. split; [split; vm_compute; lia|]. apply DeltaSpec.int_rows_ok; done. Qed.

Lemma filter_op_exact_witness : exists res, filter_op (K := unit) rich_env plain_session [] ExprProof.lt_buf [En (Some three) true false None 0 ENTRY_RELATION None] [] = Some res /\
  filtered_as rich_env three true [] ([], [[3; 4]; [1; 2]], None) res /\ outputs res = [Some [[3; 4]; [1; 2]]].
Proof.
  destruct (filter_op_exact (K := unit) rich_env plain_session [] ExprProof.lt_buf [] three true false None 0 [] ([], [[3; 4]; [1; 2]], None)) as (res & Hf & Hres).
  - exact ExprProof.lt_buf_ok.
  - exact three_readable.
  - vm_compute. lia.
  - vm_compute. reflexivity.
  - exists res. split; [exact Hf|]. split; [exact Hres|].
    assert (Hv : outputs <$> filter_op (K := unit) rich_env plain_session [] ExprProof.lt_buf [En (Some three) true false None 0 ENTRY_RELATION None] [] =
      Some [Some [[3; 4]; [1; 2]]]) by (lazy; reflexivity). rewrite Hf in Hv. cbn [fmap option_fmap option_map] in Hv. by apply (inj Some) in Hv.
Defined.

(** C31: After any calls with predicates that depend on the row alone and whose
    left column exists, the cached filter of a join input returns NULL or the
    filtered relation of this call, or of an earlier call by the same name and
    predicate whose snapshot is valid and equal and whose relation had as many
    rows; so, where equal snapshots are of equal relations, the filtered
    relation of this call.  It returns NULL only if an allocation has failed at
    some point, or above 2^31 rows. *)
Theorem cached_filter_exact {W} `{!Host W} holds_on lucky h c e ke table sessions buf name r sn (w : W) :
  used (W := W) holds_on lucky h c -> proper_call (W := W) holds_on table buf r -> Z.of_nat (length (entries c)) < 2 ^ 31 -> (lucky = true -> lucky_call e ke r) ->
  exists w' c' out, apply_right_filter_cached e ke table sessions buf name r sn c w = Some (w', c', out) /\
    (forall o, out = Some o -> served holds_on h name buf sn r o) /\
    ((forall n b sn' r', (n, b, sn', r') ∈ h -> snapshot_equal sn' sn = true -> r' = r) -> forall o, out = Some o -> filter_of holds_on buf r o) /\
    (lucky = true -> is_Some out).
Proof.
  intros Hu Hc Hs Hl. destruct (cached_step holds_on lucky h e ke table sessions buf name r sn c w (used_ok _ _ _ _ Hu) Hc Hs Hl) as (w' & c' & out & Ha & _ & Ho & Hlu).
  exists w', c', out. split_and!; [done..| |done]. intros Hsame o (r' & [->|(sn' & Hin & Heq & _)] & Hf)%Ho; [done|]. by rewrite <-(Hsame _ _ _ _ Hin Heq).
Qed.

Definition lt_holds (buf : list Z) (x : row) : bool := x !!! 0%nat <? x !!! 1%nat.
Definition snap1 : snapshot := Snap 1 1 1.

Lemma three_call : proper_call (W := list str) lt_holds false ExprProof.lt_buf three.
Proof.
  split; [exact ExprProof.lt_buf_ok|exact three_readable| |].
  - intros c Hc. vm_compute in Hc. injection Hc as <-. vm_compute. reflexivity.
  - intros sessions x w Hx. destruct x as [|a [|b [|]]]; try discriminate Hx. exists 0, (Z.b2z (a <? b)). split; [reflexivity|]. change (lt_holds ExprProof.lt_buf [a; b]) with (a <? b). by destruct (a <? b).
Qed.

Lemma cached_filter_exact_witness : exists w' c' out,
  apply_right_filter_cached (W := list str) rich_env (Kenv true true true) false [] ExprProof.lt_buf [114] three snap1 (Cache [] 0) [] = Some (w', c', out) /\
  (forall o, out = Some o -> filter_of lt_holds ExprProof.lt_buf three o) /\ is_Some out.
Proof.
  destruct (cached_filter_exact (W := list str) lt_holds true [] (Cache [] 0) rich_env (Kenv true true true) false [] ExprProof.lt_buf [114] three snap1 [])
    as (w' & c' & out & Ha & _ & Ho & Hl).
  - apply used_new.
  - exact three_call.
  - vm_compute. reflexivity.
  - intros _. split_and!; try reflexivity; [split_and!; reflexivity|]. vm_compute. discriminate.
  - exists w', c', out. split; [exact Ha|]. split; [|by apply Hl]. apply Ho. intros n b sn' r' Hin. by apply not_elem_of_nil in Hin.
Defined.

(** ** Departures *)

(** col5 = 0 *)
Definition missing : list Z := [1; 4; 0; 99; 111; 108; 53; 2; 0; 0; 0; 0; 0; 0; 0; 0; 0x22].

(** A comparison with a column that is not there: the filter of join inputs
    drops every row, the interpreter reads 0 and keeps it. *)
Example missing_column_disagrees :
  ((fun r => stored r.1.2) <$> fill_filtered_rel (W := list str) rich_env false [] missing three (new_like three) [] = Some []) /\
  ((fun r => r.2) <$> kept_rows (W := list str) false [] missing 2 (stored three) [] = Some (stored three)).
Proof. split; vm_compute; reflexivity. Qed.

(** A failed rebuild leaves the snapshot of the relation it was built from: when
    that relation is asked for again, the entry answers NULL although there is
    memory. *)
Definition no_memory : filter_env := Fenv true false true true true true true (fun _ => true).
Definition snap2 : snapshot := Snap 2 1 1.
Definition ask (e : filter_env) (sn : snapshot) (c : cache) : option (cache * option rel) :=
  '(_, c, out) ← apply_right_filter_cached (W := list str) e (Kenv true true true) false [] ExprProof.lt_buf [114] three sn c []; Some (c, out).

Example stale_entry_answers_null :
  ('(c, _) ← ask rich_env snap1 (Cache [] 0); '(c, _) ← ask no_memory snap2 c; '(_, out) ← ask rich_env snap1 c; Some out) = Some None.
Proof. vm_compute. reflexivity. Qed.

(** The operator drops the segment boundaries of its input without freeing
    them. *)
Example filter_leaks_segments :
  freed_by <$> filter_op (K := unit) rich_env plain_session [] [] [En (Some three) true false (Some [0; 2; 3]%nat) 2 ENTRY_RELATION None] [] = Some [F_relation three].
Proof. vm_compute. reflexivity. Qed.

End FilterSpec.
