(* ===== verification/ConcatSpec.v ===== *)
(** * Concatenation and the cut into segments

    The concatenation of two relations holds the rows of both, and the
    boundaries it attaches cut it into the segments of its inputs, which is
    what the consolidation operator needs for its k-way merge.  Together they
    compute the union. *)

From S2P Require Import Prelude RadixSort Relation RelSort Consolidate ConsolidateProof DeltaProof DeltaSpec KwayProof ConsolidateSpec EvalStack.

Module ConcatSpec.

Import Keys Rel RelSort Consolidate EvalStack.EvalStack.

(** ** Cuts *)

Lemma cuts_app bs1 bs2 : forall s m n, cuts s bs1 m -> cuts m bs2 n -> cuts s (bs1 ++ bs2) n.
Proof. induction bs1 as [|b bs1 IH]; intros s m n; cbn [cuts app]; [by intros ->|]. intros [Hs H1] H2. split; [done|]. by apply (IH b m). Qed.

Lemma cuts_shift k bs : forall s n, cuts s bs n -> cuts (s + k) ((fun x => x + k)%nat <$> bs) (n + k).
Proof. induction bs as [|b bs IH]; intros s n; cbn; [lia|]. intros [Hs H]. split; [lia|]. by apply IH. Qed.

(** The last cut is the number of rows. *)
Lemma cuts_last bs : forall s n, cuts s bs n -> exists init, s :: bs = init ++ [n] /\ length init = length bs.
Proof.
  induction bs as [|b bs IH]; intros s n; cbn [cuts]; [intros ->; by exists []|]. intros [_ (init & Heq & Hl)%IH]. exists (s :: init). split; [by rewrite Heq|]. cbn. by rewrite Hl.
Qed.

(** The boundaries as the operator reads them: those of the entry, or one
    segment. *)
Definition bounds_of (sb : option (list nat)) (n : nat) : list nat := default [0; n]%nat sb.
Definition segs_of (count : nat) : nat := if (0 <? count)%nat then count else 1.

(** The boundaries of an entry with [n] rows are a cut into its segments. *)
Definition segments_ok (sb : option (list nat)) (count n : nat) : Prop :=
  match sb with
  | None => count = O
  | Some l => exists bs, l = O :: bs /\ length bs = count /\ (0 < count)%nat /\ cuts 0 bs n
  end.

Lemma segments_bounds sb count n : segments_ok sb count n -> exists bs, bounds_of sb n = O :: bs /\ length bs = segs_of count /\ cuts 0 bs n.
Proof.
  unfold segments_ok, bounds_of, segs_of. destruct sb as [l|]; cbn [default].
  - intros (bs & -> & Hl & Hc & Hcut). exists bs. rewrite (proj2 (Nat.ltb_lt _ _)) by done. done.
  - intros ->. exists [n]. cbn. split_and!; (done || lia).
Qed.

Lemma copy_bounds_ok n src add i dst off : (i + n <= length src)%nat -> (off + i + n <= length dst)%nat ->
  copy_bounds n src add i dst off = Some (take (off + i) dst ++ ((fun x => x + add)%nat <$> take n (drop i src)) ++ drop (off + i + n) dst).
Proof.
  revert i dst. induction n as [|n IH]; intros i dst Hs Hd; cbn [copy_bounds].
  { rewrite take_0. cbn. by rewrite Nat.add_0_r, take_drop. }
  unfold rd. destruct (lookup_lt_is_Some_2 src i ltac:(lia)) as [x Hx]. rewrite Hx. cbn [mbind option_bind]. rewrite wr_lt by lia. cbn [mbind option_bind].
  rewrite IH by (rewrite ?length_insert; lia). f_equal. rewrite (drop_S src x i Hx). cbn [take firstn fmap list_fmap].
  replace (off + S i)%nat with (S (off + i)) by lia. rewrite (take_S_r _ _ (x + add)%nat) by (rewrite list_lookup_insert_eq by lia; done). rewrite take_insert_ge by lia.
  rewrite drop_insert_lt by lia. rewrite <-app_assoc. cbn [app]. by replace (S (off + i) + n)%nat with (off + i + S n)%nat by lia.
Qed.

Lemma write_pair (dst : list nat) off x y : (off + 2 <= length dst)%nat -> (l ← wr dst off x; wr l (off + 1) y) = Some (take off dst ++ [x; y] ++ drop (off + 2) dst).
Proof.
  intros Hd. pose proof (copy_bounds_ok 2 [x; y] 0 0 dst off ltac:(cbn; lia) ltac:(lia)) as H. cbn [copy_bounds] in H. unfold rd in H. cbn in H.
  rewrite !Nat.add_0_r in H. cbn [app]. rewrite <-H. destruct (wr dst off x) as [l|]; cbn; [|done]. by destruct (wr l (off + 1) y).
Qed.

Lemma concat_bounds_ok {K} (ea eb : entry K) na nb : segments_ok (seg_boundaries ea) (seg_count ea) na -> segments_ok (seg_boundaries eb) (seg_count eb) nb ->
  exists l n, concat_bounds ea eb na (na + nb) = Some (l, n) /\ segments_ok (Some l) n (na + nb).
Proof.
  intros Ha Hb. destruct (segments_bounds _ _ _ Ha) as (ba & HLa & Hla & Hca). destruct (segments_bounds _ _ _ Hb) as (bb & HLb & Hlb & Hcb).
  unfold concat_bounds. fold (segs_of (seg_count ea)) (segs_of (seg_count eb)). set (left := segs_of (seg_count ea)) in *. set (right := segs_of (seg_count eb)) in *.
  assert (Hr : (0 < right)%nat) by (unfold right, segs_of; destruct (Nat.ltb_spec 0 (seg_count eb)); lia).
  set (l0 := replicate (left + right + 1) 0%nat). assert (Hl0 : length l0 = (left + right + 1)%nat) by apply length_replicate.
  assert (H1 : match seg_boundaries ea with Some src => copy_bounds (left + 1) src 0 0 l0 0 | None => l ← wr l0 0 0%nat; wr l 1 na end = Some ((O :: ba) ++ drop (left + 1) l0)).
  { rewrite <-HLa. destruct (seg_boundaries ea) as [src|] eqn:Hsa; cbn [bounds_of default] in HLa |- *.
    - unfold id in HLa. subst src. rewrite copy_bounds_ok by (cbn [length]; lia). cbn [Nat.add]. rewrite take_0. cbn [app]. f_equal. f_equal. rewrite drop_0, take_ge by (cbn [length]; lia).
      rewrite <-(list_fmap_id (O :: ba)) at 2. apply list_fmap_ext. intros ? x _. unfold id. lia.
    - assert (left = 1%nat) as -> by (unfold left, segs_of; rewrite Ha; done). pose proof (write_pair l0 0 0 na ltac:(lia)) as Hw. cbn [Nat.add] in Hw. by rewrite Hw, take_0. }
  rewrite H1. cbn [mbind option_bind]. clear H1. destruct (cuts_last _ _ _ Hca) as (init & Hinit & Hil). rewrite Hinit in *. set (l1 := (init ++ [na]) ++ drop (left + 1) l0).
  assert (Hl1 : length l1 = (left + right + 1)%nat) by (unfold l1; rewrite !length_app, length_drop; cbn; lia).
  assert (Ht1 : take left l1 = init) by (unfold l1; rewrite <-app_assoc, <-Hla, <-Hil; apply take_app_length).
  assert (H2 : match seg_boundaries eb with Some src => copy_bounds (right + 1) src na 0 l1 left | None => l ← wr l1 left na; wr l (left + 1) (na + nb)%nat end =
    Some (init ++ ((fun x => x + na)%nat <$> (O :: bb)))).
  { rewrite <-HLb. destruct (seg_boundaries eb) as [src|] eqn:Hsb; cbn [bounds_of default] in HLb |- *.
    - unfold id in HLb |- *. subst src. rewrite copy_bounds_ok by (cbn [length]; lia). rewrite Nat.add_0_r, Ht1, drop_0. rewrite (drop_ge l1) by lia. rewrite app_nil_r, take_ge by (cbn [length]; lia). done.
    - assert (right = 1%nat) as Hr1 by (unfold right, segs_of; rewrite Hb; done). rewrite write_pair by lia. rewrite Ht1, (drop_ge l1) by lia. cbn. do 4 f_equal. lia. }
  rewrite H2. cbn [mbind option_bind]. eexists _, _. split; [done|]. exists (ba ++ ((fun x => x + na)%nat <$> bb)). cbn [fmap list_fmap]. split.
  - cbn [Nat.add]. change (na :: ?l) with ([na] ++ l). rewrite app_assoc, <-Hinit. done.
  - rewrite length_app, length_fmap. split; [lia|]. split; [lia|]. eapply cuts_app; [exact Hca|]. pose proof (cuts_shift na bb 0 nb Hcb) as Hs. by rewrite (Nat.add_comm nb na) in Hs.
Qed.

(** ** The operator *)

Lemma same_lanes_compatible (r : shape) a n c : row_ok r a -> (c + n = ncols r)%nat -> lanes_compatible n c r r = Some true.
Proof.
  intros Ha. revert c. induction n as [|n IH]; intros c Hc; cbn [lanes_compatible]; [done|]. destruct (row_cell r a c Ha ltac:(lia)) as (ty & _ & -> & _). cbn [mbind option_bind].
  rewrite bool_decide_true by done. rewrite andb_false_r. apply IH. lia.
Qed.

Lemma append_checked_ok tb b (dst src : rel) : fits dst -> fits src -> lanes src = lanes dst -> Forall (row_ok src) (stored src) -> Z.of_nat (nrows dst + nrows src) <= 2 ^ 31 ->
  exists d rc, append_checked tb b dst src = Some (d, rc) /\ ((rc = 0 /\ kept dst d /\ fits d /\ sorted_nrows d = sorted_nrows dst /\ grew dst d (stored src)) \/ (rc = ENOMEM /\ b = false)).
Proof.
  intros Hfd Hfs Hl Hok Hbig. destruct (append_all_ok b dst src Hfd Hfs Hl Hok Hbig) as (d & rc & Ha & Hres). unfold append_checked.
  rewrite Hl, Nat.eqb_refl. cbn [negb]. destruct (Nat.eqb_spec (nrows src) 0) as [H0|H0].
  { unfold col_rel_append_all in Ha. rewrite (proj2 (Nat.eqb_eq _ _) H0) in Ha. injection Ha as <- <-. exists dst, 0. split; [done|]. destruct Hres as [H|(H & _)]; [by left|done]. }
  pose proof (length_stored src Hfs) as Hls. destruct (stored src) as [|x l] eqn:Hst; [cbn in Hls; lia|]. rewrite <-Hst in *.
  assert (Hx : row_ok dst x) by (rewrite Hst, Hl in Hok; by apply Forall_cons in Hok as [? _]).
  rewrite (same_lanes_compatible dst x) by done. cbn [mbind option_bind negb]. rewrite float_valid_ok by done. cbn [mbind option_bind negb].
  assert (Ht : match column_types dst, column_types dst with None, Some _ => true | _, _ => false end = false) by (by destruct (column_types dst)). rewrite Ht. cbn [andb].
  rewrite Ha. cbn [mbind option_bind]. eexists _, _. split; [done|]. destruct Hres as [(-> & Hres)|(-> & _ & Hb)]; [left|right]; done.
Qed.

Definition concat_space (e : concat_env) : bool := out_ok e && grow1_ok e && grow2_ok e && bounds_malloc_ok e.

(** A relation with its rows on the stack. *)
Definition loaded {K} (en : entry K) (r : rel) : Prop :=
  e_rel en = Some r /\ kind en = ENTRY_RELATION /\ fits r /\ Forall (row_ok r) (stored r) /\ segments_ok (seg_boundaries en) (seg_count en) (nrows r).

Lemma pop_loaded {K} (en : entry K) r s : loaded en r -> eval_stack_pop_relation (en :: s) = (s, 0, en, []).
Proof. intros (He & Hk & _). cbn [eval_stack_pop_relation eval_stack_pop]. rewrite Hk. cbn. by rewrite He. Qed.

(** The relation that is pushed: the rows of both, fresh storage. *)
Definition joined (a b out : rel) : Prop :=
  lanes out = lanes a /\ wf out /\ length (run_ends out) = COL_MAX_RUNS /\ sorted_nrows out = O /\ nrows out = (nrows a + nrows b)%nat /\
  keys a (stored out) = keys a (stored a) ++ keys a (stored b).

Lemma append_both e (a b : rel) : fits a -> fits b -> lanes b = lanes a -> Forall (row_ok a) (stored a) -> Forall (row_ok b) (stored b) -> Z.of_nat (nrows a + nrows b) <= 2 ^ 31 ->
  exists out rc, ('(out, rc) ← append_checked (types_ok e) (grow1_ok e) (new_like a) a;
      if rc =? 0 then append_checked (types_ok e) (grow2_ok e) out b else Some (out, rc)) = Some (out, rc) /\
    ((rc = 0 /\ joined a b out) \/ (rc = ENOMEM /\ concat_space e = false)).
Proof.
  intros Hfa Hfb Hl Hoa Hob Hbig. unfold concat_space.
  destruct (append_checked_ok (types_ok e) (grow1_ok e) (new_like a) a) as (o1 & rc1 & -> & [(-> & K1 & Hf1 & Hs1 & G1)|(-> & Hg)]); try done.
  { unfold fits, new_like. cbn [nrows capacity rows]. rewrite length_replicate. lia. }
  { cbn [nrows new_like]. lia. }
  2: { exists o1, ENOMEM. split; [done|]. right. split; [done|]. rewrite Hg. by rewrite andb_false_r. }
  cbn [mbind option_bind Z.eqb]. pose proof (kt_lanes _ _ K1) as L1. change (lanes (new_like a)) with (lanes a) in L1.
  destruct (append_checked_ok (types_ok e) (grow2_ok e) o1 b) as (o2 & rc2 & -> & [(-> & K2 & Hf2 & Hs2 & G2)|(-> & Hg)]); try done; [congruence|destruct G1 as [Hn _]; cbn in Hn; pose proof (length_stored a Hfa); lia| |].
  2: { exists o2, ENOMEM. split; [done|]. right. split; [done|]. rewrite Hg. by rewrite andb_false_r. }
  exists o2, 0. split; [done|]. left. split; [done|]. pose proof (grew_app (new_like a) o1 o2 _ _ L1 G1 G2) as (Hn & l & Hst & Hk & Hlok).
  change (stored (new_like a)) with (take 0 (rows (new_like a))) in Hst. rewrite take_0 in Hst. cbn [app] in Hst. change (lanes (new_like a)) with (lanes a) in Hk, Hlok.
  pose proof (kt_lanes _ _ K2) as L2. destruct (kt_merge _ _ K1) as [M1 M1'], (kt_merge _ _ K2) as [M2 M2'], (kt_runs _ _ K1) as [_ R1], (kt_runs _ _ K2) as [_ R2].
  split; [congruence|]. split; [split; [done|rewrite Hst, L2, L1; done|unfold merge_wf; rewrite M2, M1, M2', M1'; done]|]. split; [rewrite R2, R1; done|]. split; [rewrite Hs2, Hs1; done|].
  split; [cbn [nrows new_like] in Hn; rewrite length_app, !length_stored in Hn by done; lia|]. rewrite Hst. unfold keys in *. rewrite Hk. apply fmap_app.
Qed.

(** Concatenating two relations of the same lanes pushes their rows, in
    order and up to the sign of zeros, with boundaries that cut them into the
    segments of both, and frees both inputs; otherwise memory ran out and
    nothing is pushed. *)
Lemma concat_step {K} e (ea eb : entry K) rest a b : loaded ea a -> loaded eb b -> lanes b = lanes a -> Z.of_nat (nrows a + nrows b) <= 2 ^ 31 -> (length rest < COL_STACK_MAX)%nat ->
  exists s' rc freed, col_op_concat e (eb :: ea :: rest) = Some (s', rc, freed) /\
    ((rc = 0 /\ freed = eval_entry_dispose ea ++ eval_entry_dispose eb /\
      exists out l n, s' = En (Some out) true false (Some l) n ENTRY_RELATION None :: rest /\ joined a b out /\ segments_ok (Some l) n (nrows out)) \/
     (rc = ENOMEM /\ s' = rest /\ concat_space e = false)).
Proof.
  intros La Lb Hl Hbig Hrest. unfold col_op_concat. rewrite (pop_loaded eb b) by done. cbn [length Nat.ltb Nat.leb Z.eqb negb]. rewrite (pop_loaded ea a) by done. cbn [Z.eqb negb].
  destruct La as (Ea & _ & Hfa & Hoa & Sa), Lb as (Eb & _ & Hfb & Hob & Sb). rewrite Ea, Eb, Hl, Nat.eqb_refl. cbn [negb].
  destruct (append_both e a b Hfa Hfb Hl Hoa Hob Hbig) as (out & rc & Happ & Hres). unfold concat_space in *.
  destruct (out_ok e); cbn [negb]; [|eexists _, _, _; split; [done|by right]].
  destruct (append_checked (types_ok e) (grow1_ok e) (new_like a) a) as [[o1 rc1]|]; [|done]. cbn [mbind option_bind] in Happ |- *. rewrite Happ. cbn [mbind option_bind].
  destruct Hres as [(-> & Hj)|(-> & Hsp)]; cbn [Z.eqb negb ENOMEM]; [|eexists _, _, _; split; [done|by right]].
  destruct (bounds_malloc_ok e); cbn [negb]; [|eexists _, _, _; split; [done|right; by rewrite andb_false_r]].
  destruct (concat_bounds_ok ea eb _ _ Sa Sb) as (l & n & Hb & Hseg). pose proof Hj as (_ & _ & _ & _ & Hn & _). rewrite Hn, Hb. cbn [mbind option_bind].
  unfold eval_stack_push. rewrite (proj2 (Nat.leb_gt _ _)) by done. cbn [Z.eqb negb on_top]. eexists _, _, _. split; [done|]. left. split; [done|]. split; [done|].
  exists out, l, n. split; [done|]. split; [done|]. by rewrite Hn.
Qed.

(** On two inputs with the same lanes, at least one, and together fewer than
    2^31 rows, and if the sort succeeds on every range of up to as many rows
    (the consolidation ignores its status), concatenation followed by
    consolidation computes the union: the boundaries that the first attaches
    are those the second needs, and the result is the sorted set of the rows of
    both inputs, or one of the two reports that memory ran out. *)
Theorem union_exact {K} sort `{!RangeSort sort} ce e (ea eb : entry K) rest a b (Ha : loaded ea a) (Hb : loaded eb b) (Hl : lanes b = lanes a) (Hc : (0 < ncols a)%nat)
    (Hbig : Z.of_nat (nrows a + nrows b) < 2 ^ 31) (Hrest : (length rest < COL_STACK_MAX)%nat) (Hsort : sorts_upto sort a (nrows a + nrows b)) :
  exists s' rc freed, col_op_concat ce (eb :: ea :: rest) = Some (s', rc, freed) /\
    (rc <> 0 -> concat_space ce = false) /\
    (rc = 0 -> exists out segs n, s' = En (Some out) true false segs n ENTRY_RELATION None :: rest /\
      exists r rc', col_op_consolidate sort e out true segs = Some (r, rc') /\ (rc' <> 0 -> cons_space e = false) /\
        (rc' = 0 -> strict a (stored r) /\ forall k, k ∈ keys a (stored r) <-> k ∈ keys a (stored a) \/ k ∈ keys a (stored b))).
Proof.
  destruct (concat_step ce ea eb rest a b Ha Hb Hl ltac:(lia) Hrest) as (s' & rc & freed & Hcat & Hres). exists s', rc, freed. split; [done|].
  destruct Hres as [(-> & _ & out & l & n & -> & (Hlo & Hwf & He & Hs & Hn & Hk) & Hseg)|(-> & _ & Hsp)]; (split; [done|]); [|done]. intros _. exists out, (Some l), n. split; [done|].
  destruct Hseg as (bs & -> & _ & _ & Hcuts).
  destruct (consolidate_ok sort e out true (Some (O :: bs))) as (r & rc' & Hcons & H0 & H1); [done|done|by rewrite Hlo|lia|intros _; by rewrite Hs, take_0; constructor|by rewrite Hn, Hlo|by exists bs|].
  exists r, rc'. split; [done|]. split; [intros Hne; by apply H1|]. intros Hz. destruct (H0 Hz) as [_ _ Hst Hkeys _ _ _]. rewrite Hlo in Hst, Hkeys. split; [done|].
  intros k. rewrite Hkeys, Hk. apply elem_of_app.
Qed.

(** (3,4), (1,2) in two segments, and (1,2), (2,5) in one. *)
Definition left_rel : rel := of_rows pairs [[3; 4]; [1; 2]] 0 [].
Definition right_rel : rel := of_rows pairs [[1; 2]; [2; 5]] 0 [].
Definition left_entry : entry unit := En (Some left_rel) true false (Some [0; 1; 2]%nat) 2 ENTRY_RELATION None.
Definition right_entry : entry unit := En (Some right_rel) false false None 0 ENTRY_RELATION None.
Definition both_rel : rel := R pairs ([[3; 4]; [1; 2]; [1; 2]; [2; 5]] ++ replicate 60 [0; 0]) 4 64 0 None 0 false 0 (replicate 8 O).
Definition concat_rich : concat_env := Cenv true true true true true.

Definition top_relation (s : stack unit) : option (rel * option (list nat)) := e ← head s; r ← e_rel e; Some (r, seg_boundaries e).

Lemma union_exact_witness : exists s' freed out segs n, col_op_concat concat_rich [right_entry; left_entry] = Some (s', 0, freed) /\
  s' = [En (Some out) true false segs n ENTRY_RELATION None] /\ segs = Some [0; 1; 2; 4]%nat /\
  exists r, col_op_consolidate (col_rel_radix_sort rich_sort) rich out true segs = Some (r, 0) /\ strict left_rel (stored r) /\ stored r = [[1; 2]; [2; 5]; [3; 4]].
Proof.
  destruct (union_exact (col_rel_radix_sort rich_sort) concat_rich rich left_entry right_entry [] left_rel right_rel) as (s' & rc & freed & Hc & _ & H0).
  - split_and!; try reflexivity; [split; vm_compute; lia|by apply int_rows_ok|]. exists [1; 2]%nat. split_and!; cbn; (reflexivity || lia).
  - split_and!; try reflexivity; [split; vm_compute; lia|by apply int_rows_ok].
  - reflexivity.
  - vm_compute. lia.
  - vm_compute. reflexivity.
  - vm_compute. lia.
  - apply radix_sorts_upto; [done|]. right. by apply Z.leb_le.
  - assert (Hv : (fun x => (x.1.2, top_relation x.1.1)) <$> col_op_concat concat_rich [right_entry; left_entry] =
      Some (0, Some (both_rel, Some [0; 1; 2; 4]%nat))) by (vm_compute; reflexivity).
    rewrite Hc in Hv. cbn [fmap option_fmap option_map] in Hv. apply (inj Some) in Hv. cbn [fst snd] in Hv. injection Hv as -> Htop.
    destruct (H0 eq_refl) as (out & segs & n & -> & r & rc' & Hcons & _ & H1). apply (inj Some), pair_equal_spec in Htop as [-> Hsegs]. cbn [seg_boundaries] in Hsegs. subst segs.
    eexists _, freed, _, _, n. split; [exact Hc|]. split; [reflexivity|]. split; [reflexivity|].
    assert (Hw : (fun x => (x.2, stored x.1)) <$> col_op_consolidate (col_rel_radix_sort rich_sort) rich both_rel true (Some [0; 1; 2; 4]%nat) =
      Some (0, [[1; 2]; [2; 5]; [3; 4]])) by (vm_compute; reflexivity).
    rewrite Hcons in Hw. cbn [fmap option_fmap option_map] in Hw. apply (inj Some) in Hw. injection Hw as -> Hst. exists r. split; [exact Hcons|]. split; [by apply H1|exact Hst].
Defined.

End ConcatSpec.
