(* ===== verification/RowOps.v ===== *)
(** * Projection and aggregation (src/wirelog/columnar/ops.c, eval_serial.c)

    The operators that compute a row from a row and a row from a group of rows,
    and the reduction of a relation in place that ends a recursive aggregate.
    Groups are found through a hash table with linear probing.  A group count
    is the number of arguments of a rule head, so [gc + 1] does not wrap. *)

From Stdlib Require Import SpecFloat.
From S2P Require Import Prelude Arithmetic RadixSort Relation Consolidate StringOps Floats Expr ExprCompile EvalStack Filter.

Module RowOps.

Import Keys Rel Consolidate StringOps.StringOps Floats.Floats Expr.Expr ExprCompile.ExprCompile EvalStack.EvalStack Filter.Filter.

(** wl_columnar_float_canonical_bits, as a lane. *)
Definition float_canonical_bits (bits : Z) : Z := if float_bits_zero bits then 0 else bits.

(** col_rel_pool_new_auto: an untyped relation of [n] columns; outside a pool
    one without columns has no storage either. *)
Definition new_auto (pooled : bool) (n : nat) : rel :=
  let cap := if pooled || (0 <? n)%nat then COL_REL_INIT_CAP else O in
  R (Sh n None) (replicate cap (replicate n 0)) 0 cap 0 None 0 false 0 (replicate COL_MAX_RUNS O).

Definition col_rel_get (r : rel) (i c : nat) : option Z := x ← rd (rows r) i; rd x c.

(** col_rel_set on storage that is not shared. *)
Definition col_rel_set (r : rel) (i c : nat) (v : Z) : option (rel * Z) :=
  if (capacity r <=? i)%nat || (ncols r <=? c)%nat then Some (r, EINVAL)
  else
    ty ← column_type_at r c;
    if is_float ty && negb (float_bits_valid v) then Some (r, EINVAL)
    else
      x ← rd (rows r) i;
      x ← wr x c (canonical_cell ty v);
      l ← wr (rows r) i x;
      Some (set_rows l r, 0).

(** ** The table of groups *)

Abbreviation slot := (Z * nat)%type.
Definition GROUP_HASH_SEED : Z := 1469598103934665603.
Definition GROUP_HASH_PRIME : Z := 1099511628211.

Definition mix (h key : Z) : Z := u64 (Z.lxor h (u64 key) * GROUP_HASH_PRIME).
Definition nonzero_hash (h : Z) : Z := if h =? 0 then 1 else h.

(** while (map_cap < desired && map_cap <= UINT32_MAX / 2) map_cap <<= 1 *)
Fixpoint grow_cap (fuel : nat) (cap desired : Z) : Z :=
  match fuel with
  | O => cap
  | S fuel' => if (cap <? desired) && (cap <=? UINT32_MAX / 2) then grow_cap fuel' (u32 (Z.shiftl cap 1)) desired else cap
  end.

(** [None]: no table is large enough. *)
Definition map_capacity (n : Z) : option Z :=
  let cap := grow_cap 32 1 (n * 2) in if cap <? n * 2 then None else Some cap.

(** while (groups[slot].hash != 0), with the test of the body: the slot where
    the loop ends and whether the test held there. *)
Fixpoint find_group (fuel : nat) (test : slot -> option bool) (groups : list slot) (mask at_ : Z) : option (bool * Z) :=
  match fuel with
  | O => None
  | S fuel' =>
      c ← rd groups (Z.to_nat at_);
      if c.1 =? 0 then Some (false, at_)
      else
        found ← test c;
        if found : bool then Some (true, at_) else find_group fuel' test groups mask (Z.land (at_ + 1) mask)
  end.

(** The column of the output that holds group column [k]. *)
Definition out_col (agg_index k : nat) : nat := if (agg_index <=? k)%nat then (k + 1)%nat else k.

(** ** Aggregates *)

(** wl_plan_agg_operand_t *)
Inductive agg_operand := OPERAND_UNKNOWN | OPERAND_SCALAR | OPERAND_STRING | OPERAND_FLOAT.

Section Ops.

Context {W : Type} `{!Host W} {K : Type}.

Definition int_better (fn : agg_op) (cand cur : Z) : bool := match fn with MAX => cur <? cand | _ => cand <? cur end.

(** [table]: the intern pointer is set. *)
Definition col_agg_better (fn : agg_op) (domain : agg_operand) (table : bool) (w : W) (cand cur : Z) : option bool :=
  match domain with
  | OPERAND_STRING =>
      a ← (if table then reverse w cand else Some None);
      b ← (if table then reverse w cur else Some None);
      Some (match a, b with
            | Some a, Some b => match fn with MAX => 0 <? strcmp a b | _ => strcmp a b <? 0 end
            | Some _, None => true
            | None, Some _ => false
            | None, None => int_better fn cand cur
            end)
  | _ => Some (int_better fn cand cur)
  end.

(** (double)count *)
Definition of_uint64 (n : Z) : spec_float := binary_normalize prec emax n 0 false.

(** The switch on the aggregate: the value to store, if any, the sum and the
    count, or a code. *)
Definition agg_update (fn : agg_op) (domain : agg_operand) (table : bool) (w : W) (cur v : Z) (sum : spec_float) (count : Z) :
    option ((option Z * spec_float * Z) + Z) :=
  let float_agg := match domain with OPERAND_FLOAT => true | _ => false end in
  match fn with
  | COUNT => Some (inl (Some (i64 (cur + 1)), sum, count))
  | SUM =>
      if float_agg then
        let next := fadd sum (of_bits v) in
        if negb (isfinite next) then Some (inr ERANGE) else Some (inl (Some (float_canonical_bits (to_bits next)), next, count))
      else
        o ← Arith.checked_add_int64 cur v 0;
        Some (if negb (Arith.rc o =? 0) then inr ERANGE else inl (Some (Arith.out o), sum, count))
  | MIN | MAX =>
      if float_agg then
        let cmp := float_compare_bits v cur in
        let better := match fn with MIN => cmp <? 0 | _ => 0 <? cmp end in
        Some (inl (if better then Some (float_canonical_bits v) else None, sum, count))
      else
        better ← col_agg_better fn domain table w v cur;
        Some (inl (if better : bool then Some v else None, sum, count))
  | AVG =>
      if float_agg then
        let sum := fadd sum (of_bits v) in
        let count := u64 (count + 1) in
        if negb (isfinite sum) then Some (inr ERANGE)
        else Some (inl (Some (float_canonical_bits (to_bits (fdiv sum (of_uint64 count)))), sum, count))
      else Some (inl (None, sum, count))
  end.

(** The first value of a group, and whether sums[slot] and counts[slot] are
    set. *)
Definition agg_first (fn : agg_op) (domain : agg_operand) (v : Z) : Z * bool :=
  match domain with
  | OPERAND_FLOAT => (match fn with AVG => to_bits (of_bits v) | _ => float_canonical_bits v end, true)
  | _ => (match fn with COUNT => 1 | _ => v end, false)
  end.

(** ** REDUCE *)

(** The fields of the operator; [None] as group_by_indices is NULL. *)
Record reduce_op := Rop {
  agg_fn : agg_op;
  group_by_indices : option (list nat);
  group_by_count : nat;
  aggregate_index : nat;
  agg_expr : list Z;
  agg_operand_type : agg_operand }.

(** The outcomes of the allocations; [set_types_rc] is the code of
    col_rel_set_column_types. *)
Record reduce_env := Renv {
  re_out : bool;
  re_types : bool;
  set_types_rc : Z;
  re_tmp : bool;
  re_compile : bool;
  re_instrs : bool;
  re_row : bool;
  re_groups : bool;
  re_sums : bool;
  re_grow : nat -> bool }.

Definition is_float_agg (op : reduce_op) : bool := match agg_operand_type op with OPERAND_FLOAT => true | _ => false end.

Definition group_index (op : reduce_op) (k : nat) : option nat :=
  match group_by_indices op with Some l => rd l k | None => Some k end.

(** in->column_types && gi < in->ncols ? in->column_types[gi] : INT64 *)
Definition group_type (r : shape) (gi : nat) : option column_type :=
  match column_types r with
  | Some ts => if (gi <? ncols r)%nat then rd ts gi else Some TYPE_INT64
  | None => Some TYPE_INT64
  end.

(** for (c < gc): the types of the group columns, [n] left. *)
Fixpoint fill_types (n : nat) (op : reduce_op) (r : shape) (agg_index c : nat) (types : list column_type) : option (list column_type) :=
  match n with
  | O => Some types
  | S n' =>
      src ← group_index op c;
      ty ← group_type r src;
      types ← wr types (out_col agg_index c) ty;
      fill_types n' op r agg_index (S c) types
  end.

Definition reduce_types (op : reduce_op) (r : shape) (agg_index : nat) : option (list column_type) :=
  types ← fill_types (group_by_count op) op r agg_index 0 (replicate (group_by_count op + 1) TYPE_INT64);
  wr types agg_index (if is_float_agg op then TYPE_FLOAT else TYPE_INT64).

(** row[gi < in->ncols ? gi : 0] *)
Definition group_cell (r : shape) (x : row) (gi : nat) : option Z := rd x (if (gi <? ncols r)%nat then gi else O).

(** The cell as it is hashed and compared: a float with its zero canonical. *)
Definition group_key (op : reduce_op) (r : shape) (x : row) (k : nat) : option Z :=
  gi ← group_index op k;
  v ← group_cell r x gi;
  ty ← group_type r gi;
  Some (if is_float ty then float_canonical_bits v else v).

Fixpoint reduce_hash (n : nat) (op : reduce_op) (r : shape) (x : row) (k : nat) (h : Z) : option Z :=
  match n with
  | O => Some (nonzero_hash h)
  | S n' => key ← group_key op r x k; reduce_hash n' op r x (S k) (mix h key)
  end.

(** for (k < gc && match) *)
Fixpoint reduce_match (n : nat) (op : reduce_op) (r : shape) (x : row) (agg_index k : nat) (out : rel) (i : nat) : option bool :=
  match n with
  | O => Some true
  | S n' =>
      left ← group_key op r x k;
      right ← col_rel_get out i (out_col agg_index k);
      if left =? right then reduce_match n' op r x agg_index (S k) out i else Some false
  end.

Fixpoint fill_group (n : nat) (op : reduce_op) (r : shape) (x : row) (agg_index k : nat) (tmp : row) : option row :=
  match n with
  | O => Some tmp
  | S n' =>
      gi ← group_index op k;
      v ← group_cell r x gi;
      tmp ← wr tmp (out_col agg_index k) v;
      fill_group n' op r x agg_index (S k) tmp
  end.

(** The value to aggregate, or ERANGE. *)
Definition reduce_operand (table : bool) (sessions : list Z) (op : reduce_op) (ce : option compiled) (x : row) (nc : nat) (w : W) : option (W * (Z + Z)) :=
  v ← (if (group_by_count op <? nc)%nat then rd x (group_by_count op) else Some 1);
  match agg_fn op, agg_expr op with
  | COUNT, _ | _, [] => Some (w, inl v)
  | _, buf =>
      match ce with
      | Some ce => '(rc, val) ← eval_compiled ce x (Z.of_nat nc) w; Some (w, if rc =? 0 then inl val else inr ERANGE)
      | None => '(w, err, val) ← eval_i64 table sessions buf x (Z.of_nat nc) w; Some (w, if err =? 0 then inl val else inr ERANGE)
      end
  end.

(** The relation under construction, the table, sums[] and counts[]. *)
Record rstate := RState { rs_out : rel; rs_groups : list slot; rs_sums : list spec_float; rs_counts : list Z; rs_tmp : row }.

(** A row of a group that is there: its aggregate is updated. *)
Definition reduce_update (table : bool) (op : reduce_op) (agg_index : nat) (w : W) (v at_ : Z) (st : rstate) : option (rstate + Z) :=
  g ← rd (rs_groups st) (Z.to_nat at_);
  cur ← col_rel_get (rs_out st) g.2 agg_index;
  sum ← rd (rs_sums st) (Z.to_nat at_);
  count ← rd (rs_counts st) (Z.to_nat at_);
  u ← agg_update (agg_fn op) (agg_operand_type op) table w cur v sum count;
  match u with
  | inr code => Some (inr code)
  | inl (val, sum, count) =>
      sums ← wr (rs_sums st) (Z.to_nat at_) sum;
      counts ← wr (rs_counts st) (Z.to_nat at_) count;
      out ← (match val with Some val => '(out, _) ← col_rel_set (rs_out st) g.2 agg_index val; Some out | None => Some (rs_out st) end);
      Some (inl (RState out (rs_groups st) sums counts (rs_tmp st)))
  end.

(** The first row of a group. *)
Definition reduce_insert (e : reduce_env) (op : reduce_op) (r : shape) (agg_index : nat) (x : row) (v hash at_ : Z) (st : rstate) : option (rstate + (rel * Z)) :=
  tmp ← fill_group (group_by_count op) op r x agg_index 0 (rs_tmp st);
  let '(first, float_agg) := agg_first (agg_fn op) (agg_operand_type op) v in
  tmp ← wr tmp agg_index first;
  sums ← (if float_agg : bool then wr (rs_sums st) (Z.to_nat at_) (of_bits v) else Some (rs_sums st));
  counts ← (if float_agg : bool then wr (rs_counts st) (Z.to_nat at_) 1 else Some (rs_counts st));
  '(out, rc) ← col_rel_append_row (re_grow e (nrows (rs_out st))) (rs_out st) tmp;
  if negb (rc =? 0) then Some (inr (out, rc))
  else
    groups ← wr (rs_groups st) (Z.to_nat at_) (hash, (nrows out - 1)%nat);
    Some (inl (RState out groups sums counts tmp)).

(** One row; the code that ends the operator with the output to destroy. *)
Definition reduce_row (e : reduce_env) (table : bool) (sessions : list Z) (op : reduce_op) (agg_index : nat) (ce : option compiled) (r : shape) (x : row) (st : rstate) (w : W) :
    option (W * (rstate + (rel * Z))) :=
  '(w, v) ← reduce_operand table sessions op ce x (ncols r) w;
  match v with
  | inr code => Some (w, inr (rs_out st, code))
  | inl v =>
      if is_float_agg op && negb (float_bits_valid v) then Some (w, inr (rs_out st, EINVAL))
      else
        let mask := Z.of_nat (length (rs_groups st)) - 1 in
        hash ← reduce_hash (group_by_count op) op r x 0 GROUP_HASH_SEED;
        '(found, at_) ← find_group (length (rs_groups st))
          (fun g => if g.1 =? hash then reduce_match (group_by_count op) op r x agg_index 0 (rs_out st) g.2 else Some false)
          (rs_groups st) mask (Z.land (u32 hash) mask);
        if found : bool then
          u ← reduce_update table op agg_index w v at_ st;
          Some (w, match u with inl st => inl st | inr code => inr (rs_out st, code) end)
        else
          u ← reduce_insert e op r agg_index x v hash at_ st;
          Some (w, u)
  end.

Fixpoint reduce_loop (n : nat) (e : reduce_env) (table : bool) (sessions : list Z) (op : reduce_op) (agg_index : nat) (ce : option compiled) (r : rel) (i : nat) (st : rstate) (w : W) :
    option (W * (rstate + (rel * Z))) :=
  match n with
  | O => Some (w, inl st)
  | S n' =>
      x ← rd (rows r) i;
      x ← lanes_at (ncols r) x 0;
      '(w, u) ← reduce_row e table sessions op agg_index ce r x st w;
      match u with
      | inr out => Some (w, inr out)
      | inl st => reduce_loop n' e table sessions op agg_index ce r (S i) st w
      end
  end.

(** The world, the stack, the code and what was freed. *)
Definition col_op_reduce (e : reduce_env) (table : bool) (sessions : list Z) (op : reduce_op) (s : stack K) (w : W) : option (W * stack K * Z * list (resource K)) :=
  let '(s, pop_rc, en, freed) := eval_stack_pop_relation s in
  if negb (pop_rc =? 0) then Some (w, s, pop_rc, freed)
  else
    match e_rel en with
    | None => None
    | Some r =>
        let gc := group_by_count op in
        let ocols := (gc + 1)%nat in
        let agg_index := if (aggregate_index op <? ocols)%nat then aggregate_index op else gc in
        let input := if owned en then [F_relation r] else [] in
        let fail rc (out : rel) := Some (w, s, rc, F_relation out :: input) in
        let out := new_auto true ocols in
        if negb (re_out e) then Some (w, s, ENOMEM, input)
        else if negb (re_types e) then fail ENOMEM out
        else
          types ← reduce_types op r agg_index;
          if negb (set_types_rc e =? 0) then fail (set_types_rc e) out
          else
            let out := set_types (Some types) out in
            if negb (re_tmp e) then fail ENOMEM out
            else
              ce ← (if (length (agg_expr op) =? 0)%nat then Some None else compile (re_compile e) (re_instrs e) (agg_expr op) table);
              if negb ((ncols r <=? 32)%nat || re_row e) then fail ENOMEM out
              else
                match map_capacity (Z.of_nat (Nat.max (nrows r) 1)) with
                | None => fail ENOMEM out
                | Some cap =>
                    if negb (re_groups e) || negb (re_sums e) then fail ENOMEM out
                    else
                      let n := Z.to_nat cap in
                      '(w, u) ← reduce_loop (nrows r) e table sessions op agg_index ce r 0
                        (RState out (replicate n (0, O)) (replicate n (S754_zero false)) (replicate n 0) (replicate ocols 0)) w;
                      let '(out, rc) := match u with inl st => (rs_out st, 0) | inr (out, rc) => (out, rc) end in
                      let '(s, rc, freed) := finish s en r out rc in
                      Some (w, s, rc, freed)
                end
    end.

(** ** The end of a recursive aggregate *)

(** wl_plan_agg_spec_t of a relation that has one. *)
Record agg_spec := Aspec { sp_fn : agg_op; sp_group_by_count : nat; sp_aggregate_index : nat; sp_operand_type : agg_operand }.

Fixpoint group_equal (n : nat) (x y : row) (agg_index c : nat) : option bool :=
  match n with
  | O => Some true
  | S n' =>
      a ← rd x (out_col agg_index c);
      b ← rd y (out_col agg_index c);
      if negb (a =? b) then Some false else group_equal n' x y agg_index (S c)
  end.
Definition col_reduce_output_group_equal (l : list row) (a b gc agg_index : nat) : option bool :=
  x ← rd l a; y ← rd l b; group_equal gc x y agg_index 0.

Fixpoint group_hash_from (n : nat) (x : row) (agg_index c : nat) (h : Z) : option Z :=
  match n with
  | O => Some (nonzero_hash h)
  | S n' => v ← rd x (out_col agg_index c); group_hash_from n' x agg_index (S c) (mix h v)
  end.
Definition col_group_hash (l : list row) (i gc agg_index : nat) : option Z := x ← rd l i; group_hash_from gc x agg_index 0 GROUP_HASH_SEED.

(** One row: the rows, the table, the number of rows kept, whether anything
    changed. *)
Definition canonicalize_row (table : bool) (sp : agg_spec) (agg_index : nat) (w : W) (i : nat) (st : list row * list slot * nat * bool) :
    option (list row * list slot * nat * bool) :=
  let '(l, groups, out, changed) := st in
  let gc := sp_group_by_count sp in
  let mask := Z.of_nat (length groups) - 1 in
  hash ← col_group_hash l i gc agg_index;
  '(found, at_) ← find_group (length groups)
    (fun g => if g.1 =? hash then col_reduce_output_group_equal l g.2 i gc agg_index else Some false)
    groups mask (Z.land (u32 hash) mask);
  if found : bool then
    g ← rd groups (Z.to_nat at_);
    kept ← rd l g.2;
    x ← rd l i;
    cur ← rd kept agg_index;
    val ← rd x agg_index;
    better ← col_agg_better (sp_fn sp) (sp_operand_type sp) table w val cur;
    if better : bool then kept ← wr kept agg_index val; l ← wr l g.2 kept; Some (l, groups, out, true)
    else Some (l, groups, out, changed)
  else
    x ← rd l i;
    l ← (if (out =? i)%nat then Some l else wr l out x);
    groups ← wr groups (Z.to_nat at_) (hash, out);
    Some (l, groups, S out, changed || negb (out =? i)%nat).

Fixpoint canonicalize_loop (n : nat) (table : bool) (sp : agg_spec) (agg_index : nat) (w : W) (i : nat) (st : list row * list slot * nat * bool) :
    option (list row * list slot * nat * bool) :=
  match n with
  | O => Some st
  | S n' => st ← canonicalize_row table sp agg_index w i st; canonicalize_loop n' table sp agg_index w (S i) st
  end.

(** [groups_ok]: the outcome of the allocation.  The base row count and the
    hash set of the delta, which the source resets as well, are not fields of
    [rel]. *)
Definition canonicalize_aggregate (groups_ok table : bool) (sp : agg_spec) (r : rel) (w : W) : option (rel * Z) :=
  if (nrows r <? 2)%nat then Some (r, 0)
  else
    let gc := sp_group_by_count sp in
    let agg_index := if (sp_aggregate_index sp <? ncols r)%nat then sp_aggregate_index sp else gc in
    if (ncols r <=? gc)%nat then Some (r, EINVAL)
    else
      match map_capacity (Z.of_nat (nrows r)) with
      | None => Some (r, ENOMEM)
      | Some cap =>
          if negb groups_ok then Some (r, ENOMEM)
          else
            '(l, _, out, changed) ← canonicalize_loop (nrows r) table sp agg_index w 0 (rows r, replicate (Z.to_nat cap) (0, O), O, false);
            let r' := set_rows l r in
            Some (if changed || negb (out =? nrows r)%nat
                  then set_runs 0 (replicate COL_MAX_RUNS O) (set_sorted out (set_nrows out r'))
                  else r', 0)
      end.

(** ** MAP *)

(** The fields of the operator; a missing array is [None], an expression that
    is absent an empty buffer. *)
Record map_op := Mop { project_count : nat; project_indices : option (list nat); map_exprs : option (list (list Z)) }.

Record map_env := Menv {
  me_out : bool;
  me_pooled : bool;
  me_tmp : bool;
  me_calloc : bool;
  me_compile : nat -> bool;
  me_instrs : nat -> bool;
  me_row : bool;
  me_grow : nat -> bool }.

Definition map_ctx (ss : session (W := W)) : context := Ctx (s_intern ss) (s_extensions ss) true (s_workers ss) (s_parallel ss) (s_key ss).

(** The expression of output column [c]. *)
Definition map_expr (op : map_op) (c : nat) : list Z :=
  match map_exprs op with Some l => default [] (l !! c) | None => [] end.

Fixpoint compile_maps (n : nat) (e : map_env) (op : map_op) (table : bool) (c : nat) : option (list (option compiled)) :=
  match n with
  | O => Some []
  | S n' =>
      ce ← (if (length (map_expr op c) =? 0)%nat then Some None else compile (me_compile e c) (me_instrs e c) (map_expr op c) table);
      l ← compile_maps n' e op table (S c);
      Some (ce :: l)
  end.

(** The compiled expressions; none without an array for them. *)
Definition compiled_maps (e : map_env) (op : map_op) (table : bool) : option (list (option compiled)) :=
  match map_exprs op with
  | Some l => if (0 <? length l)%nat && me_calloc e then compile_maps (Nat.min (length l) (project_count op)) e op table 0 else Some []
  | None => Some []
  end.

(** One output cell: its value, or the code with the status to record. *)
Definition map_cell (ss : session (W := W)) (sessions : list Z) (op : map_op) (ces : list (option compiled)) (x : row) (nc c : nat) (w : W) :
    option (W * (Z + Z * option Z)) :=
  if (length (map_expr op c) =? 0)%nat then
    src ← (match project_indices op with Some l => rd l c | None => Some c end);
    v ← (if (src <? nc)%nat then rd x src else Some 0);
    Some (w, inl v)
  else
    match default None (ces !! c) with
    | Some ce => '(rc, v) ← eval_compiled ce x (Z.of_nat nc) w; Some (w, if negb (rc =? 0) then inr (ERANGE, None) else inl v)
    | None =>
        '(w, status, v) ← eval_run_ctx (map_ctx ss) sessions (map_expr op c) x (Z.of_nat nc) w;
        Some (w, if negb (status =? OK) then
                   if EXTENSION_MALFORMED <=? status then inr (status, Some status) else inr (ERANGE, None)
                 else inl v)
    end.

Fixpoint map_cells (n : nat) (ss : session (W := W)) (sessions : list Z) (op : map_op) (ces : list (option compiled)) (x : row) (nc c : nat) (tmp : row) (w : W) :
    option (W * (row + Z * option Z)) :=
  match n with
  | O => Some (w, inl tmp)
  | S n' =>
      '(w, v) ← map_cell ss sessions op ces x nc c w;
      match v with
      | inr code => Some (w, inr code)
      | inl v => tmp ← wr tmp c v; map_cells n' ss sessions op ces x nc (S c) tmp w
      end
  end.

Fixpoint map_loop (n : nat) (e : map_env) (ss : session (W := W)) (sessions : list Z) (op : map_op) (ces : list (option compiled)) (r : rel) (i : nat) (tmp : row) (out : rel) (w : W) :
    option (W * rel * Z * option Z) :=
  match n with
  | O => Some (w, out, 0, None)
  | S n' =>
      x ← rd (rows r) i;
      x ← lanes_at (ncols r) x 0;
      '(w, v) ← map_cells (project_count op) ss sessions op ces x (ncols r) 0 tmp w;
      match v with
      | inr (rc, st) => Some (w, out, rc, st)
      | inl tmp =>
          '(out, rc) ← col_rel_append_row (me_grow e (nrows out)) out tmp;
          if negb (rc =? 0) then Some (w, out, rc, None)
          else map_loop n' e ss sessions op ces r (S i) tmp out w
      end
  end.

(** As [filter_op]. *)
Definition col_op_map (e : map_env) (ss : session (W := W)) (sessions : list Z) (op : map_op) (s : stack K) (w : W) :
    option (W * stack K * Z * list (resource K) * option Z) :=
  let '(s, pop_rc, en, freed) := eval_stack_pop_relation s in
  if negb (pop_rc =? 0) then Some (w, s, pop_rc, freed, None)
  else
    match e_rel en with
    | None => None
    | Some r =>
        let input := if owned en then [F_relation r] else [] in
        let out := new_auto (me_pooled e) (project_count op) in
        if negb (me_out e) then Some (w, s, ENOMEM, input, None)
        else if negb (me_tmp e) then Some (w, s, ENOMEM, F_relation out :: input, None)
        else
          ces ← compiled_maps e op (s_intern ss);
          if negb ((ncols r <=? 32)%nat || me_row e) then Some (w, s, ENOMEM, F_relation out :: input, None)
          else
            '(w, out, rc, st) ← map_loop (nrows r) e ss sessions op ces r 0 (replicate (project_count op) 0) out w;
            let '(s, rc, freed) := finish s en r out rc in
            Some (w, s, rc, freed, st)
    end.

End Ops.

End RowOps.
