(* ===== verification/GroupTable.v ===== *)
(** * The table of groups is an index

    Linear probing over a table with a free slot: the walk from a hash ends at
    the slot of the key or at the slot where it belongs.  [indexed] says that a
    table maps every key of a list to its position; both reducers of
    [RowOps] keep it. *)

From S2P Require Import Prelude RowOps.

Module GroupTable.

Import RowOps.RowOps.

(** ** Capacities *)

Lemma grow_cap_pow2 desired fuel : forall j, 0 <= j <= 31 -> (Z.to_nat (31 - j) < fuel)%nat ->
  exists k, j <= k <= 31 /\ grow_cap fuel (2 ^ j) desired = 2 ^ k /\ (desired <= 2 ^ k \/ k = 31).
Proof.
  induction fuel as [|fuel IH]; intros j Hj Hf; [lia|]. cbn [grow_cap]. change (UINT32_MAX / 2) with (2 ^ 31 - 1).
  destruct (Z.ltb_spec (2 ^ j) desired); cbn [andb]; [|exists j; split_and!; (done || lia || by left)].
  destruct (Z.leb_spec (2 ^ j) (2 ^ 31 - 1)) as [Hle|Hgt].
  - assert (Hj31 : j < 31) by (apply (Z.pow_lt_mono_r_iff 2); lia). rewrite Z.shiftl_mul_pow2, <-Z.pow_add_r by lia.
    assert (2 ^ (j + 1) <= 2 ^ 31) by (apply Z.pow_le_mono_r; lia). rewrite u32_small by mi.
    destruct (IH (j + 1) ltac:(lia) ltac:(lia)) as (k & Hk & -> & Hd). exists k. split; [lia|done].
  - assert (j = 31) as ->. { destruct (Z.eq_dec j 31); [done|]. assert (2 ^ j <= 2 ^ 30) by (apply Z.pow_le_mono_r; lia). lia. } exists 31. split_and!; (done || lia || by right).
Qed.

(** A table holds twice the rows, a power of two below 2^32; there is none for
    more than 2^30 rows. *)
Lemma map_capacity_ok n : 1 <= n -> (n <= 2 ^ 30 /\ exists k, 0 <= k <= 31 /\ map_capacity n = Some (2 ^ k) /\ 2 * n <= 2 ^ k) \/ (2 ^ 30 < n /\ map_capacity n = None).
Proof.
  intros Hn. unfold map_capacity. destruct (grow_cap_pow2 (n * 2) 32 0 ltac:(lia) ltac:(lia)) as (k & Hk & Hg & Hd). change (2 ^ 0) with 1 in Hg. rewrite Hg.
  assert (2 ^ k <= 2 ^ 31) by (apply Z.pow_le_mono_r; lia). destruct (Z.ltb_spec (2 ^ k) (n * 2)) as [Hlt|Hge].
  - right. split; [|done]. destruct Hd as [Hd| ->]; lia.
  - left. split; [lia|]. exists k. split_and!; (done || lia).
Qed.

(** ** Walks *)

Section Walks.

Context (k : Z) (Hk : 0 <= k).

(** The slot [d] steps after the one of hash [h]. *)
Definition pos (h : Z) (d : nat) : nat := Z.to_nat ((h + Z.of_nat d) mod 2 ^ k).

Definition occupied (g : list slot) (i : nat) : Prop := exists c, g !! i = Some c /\ c.1 <> 0.

(** Every key is reached from its hash over occupied slots. *)
Record table_ok (g : list slot) : Prop := {
  tk_size : Z.of_nat (length g) = 2 ^ k;
  tk_path : forall i c, g !! i = Some c -> c.1 <> 0 -> exists d, (d < length g)%nat /\ i = pos c.1 d /\ forall d', (d' < d)%nat -> occupied g (pos c.1 d') }.

Lemma pos_lt g h d : table_ok g -> (pos h d < length g)%nat.
Proof. intros [Hs _]. unfold pos. pose proof (Z.mod_pos_bound (h + Z.of_nat d) (2 ^ k) ltac:(lia)). lia. Qed.

Lemma pos_next h d : Z.land ((h + Z.of_nat d) mod 2 ^ k + 1) (2 ^ k - 1) = (h + Z.of_nat (S d)) mod 2 ^ k.
Proof.
  replace (2 ^ k - 1) with (Z.ones k) by (rewrite Z.ones_equiv; lia). rewrite Z.land_ones by done.
  rewrite Z.add_mod_idemp_l by (pose proof (Z.pow_pos_nonneg 2 k); lia). f_equal. lia.
Qed.

(** Some slot is free, at most a whole turn away. *)
Lemma group_free_ahead g h i c : table_ok g -> g !! i = Some c -> c.1 = 0 -> exists d, (d < length g)%nat /\ pos h d = i.
Proof.
  intros Ht Hi Hc. pose proof (tk_size g Ht). pose proof (lookup_lt_Some _ _ _ Hi). pose proof (Z.mod_pos_bound (Z.of_nat i - h) (2 ^ k) ltac:(lia)).
  exists (Z.to_nat ((Z.of_nat i - h) mod 2 ^ k)). split; [lia|]. unfold pos. rewrite Z2Nat.id, Z.add_mod_idemp_r by lia.
  replace (h + (Z.of_nat i - h)) with (Z.of_nat i) by lia. rewrite Z.mod_small by lia. lia.
Qed.

(** What a walk from [h] finds [d] steps on. *)
Definition walk (test : slot -> option bool) (g : list slot) (h : Z) (d : nat) (found : bool) : Prop :=
  (forall d', (d' < d)%nat -> exists c, g !! pos h d' = Some c /\ c.1 <> 0 /\ test c = Some false) /\
  exists c, g !! pos h d = Some c /\ if found then c.1 <> 0 /\ test c = Some true else c.1 = 0.

Lemma find_group_walk test g h i c : table_ok g -> g !! i = Some c -> c.1 = 0 -> (forall j y, g !! j = Some y -> y.1 <> 0 -> is_Some (test y)) ->
  exists found d, find_group (length g) test g (2 ^ k - 1) (h mod 2 ^ k) = Some (found, (h + Z.of_nat d) mod 2 ^ k) /\ (d < length g)%nat /\ walk test g h d found.
Proof.
  intros Ht Hi Hc Htest. destruct (group_free_ahead g h i c Ht Hi Hc) as (d0 & Hd0 & Hp0).
  enough (Hgen : forall n fuel d, (d + n = d0)%nat -> (n < fuel)%nat -> (forall d', (d' < d)%nat -> exists c, g !! pos h d' = Some c /\ c.1 <> 0 /\ test c = Some false) ->
    exists found d1, find_group fuel test g (2 ^ k - 1) ((h + Z.of_nat d) mod 2 ^ k) = Some (found, (h + Z.of_nat d1) mod 2 ^ k) /\ (d1 < length g)%nat /\ walk test g h d1 found).
  { destruct (Hgen d0 (length g) O ltac:(lia) ltac:(lia)) as (f & d1 & H1 & H2); [intros; lia|]. exists f, d1. rewrite Z.add_0_r in H1. done. }
  induction n as [|n IH]; intros fuel d Hd Hf Hpre; (destruct fuel as [|fuel]; [lia|]); cbn [find_group]; unfold rd; fold (pos h d).
  - replace d with d0 by lia. rewrite Hp0, Hi. cbn [mbind option_bind]. rewrite Hc. exists false, d0. split; [done|]. split; [done|]. split; [by replace d0 with d by lia|]. exists c. by rewrite Hp0.
  - destruct (lookup_lt_is_Some_2 g (pos h d) (pos_lt g h d Ht)) as [y Hy]. rewrite Hy. cbn [mbind option_bind].
    destruct (Z.eqb_spec y.1 0) as [Hy0|Hy0]; [exists false, d; split; [done|]; split; [lia|]; split; [done|]; by exists y|].
    destruct (Htest _ y Hy Hy0) as [[|] Hb]; rewrite Hb; cbn [mbind option_bind]; [exists true, d; split; [done|]; split; [lia|]; split; [done|]; by exists y|].
    rewrite pos_next. apply IH; [lia..|]. intros d' Hd'. destruct (decide (d' = d)) as [->|]; [by exists y|]. apply Hpre. lia.
Qed.

(** A walk that ends at a free slot met every entry with its hash. *)
Lemma walk_absent test g h d i c : table_ok g -> walk test g h d false -> g !! i = Some c -> c.1 = h -> c.1 <> 0 -> test c = Some false.
Proof.
  intros Ht [Hpre (y & Hy & Hy0)] Hi Hh Hc. destruct (tk_path g Ht i c Hi Hc) as (d0 & _ & Hp & Hocc). rewrite Hh in Hp, Hocc.
  destruct (decide (d0 < d)%nat) as [Hlt|Hge].
  - destruct (Hpre d0 Hlt) as (y0 & Hy1 & _ & Hy2). rewrite <-Hp, Hi in Hy1. by injection Hy1 as <-.
  - destruct (decide (d0 = d)) as [->|]; [rewrite <-Hp, Hi in Hy; by injection Hy as <-|]. destruct (Hocc d ltac:(lia)) as (y1 & Hy1 & Hne). rewrite Hy in Hy1. by injection Hy1 as <-.
Qed.

Lemma occupied_insert g i c j : c.1 <> 0 -> occupied g j -> occupied (<[i := c]> g) j.
Proof.
  intros Hc (y & Hy & Hne). destruct (decide (i = j)) as [->|Hij].
  - exists c. split; [|done]. apply list_lookup_insert_eq. by eapply lookup_lt_Some.
  - exists y. by rewrite list_lookup_insert_ne.
Qed.

(** The key goes to the slot where the walk ended. *)
Lemma group_insert test g h d n : table_ok g -> (d < length g)%nat -> walk test g h d false -> h <> 0 -> table_ok (<[pos h d := (h, n)]> g).
Proof.
  intros Ht Hd [Hpre _] Hh. split; [rewrite length_insert; apply Ht|]. intros i c Hi Hc. rewrite length_insert. destruct (decide (pos h d = i)) as [<-|Hne].
  - rewrite list_lookup_insert_eq in Hi by (by apply pos_lt). injection Hi as <-. exists d. split; [done|]. split; [done|].
    intros d' Hd'. apply occupied_insert; [done|]. destruct (Hpre d' Hd') as (y & Hy & Hy0 & _). by exists y.
  - rewrite list_lookup_insert_ne in Hi by done. destruct (tk_path g Ht i c Hi Hc) as (d0 & Hd0 & Hp & Ho). exists d0. split; [done|]. split; [done|].
    intros d' Hd'. apply occupied_insert; [done|]. by apply Ho.
Qed.

End Walks.

(** ** Indexes *)

Section Index.

Context (k : Z) (Hk : 0 <= k <= 31) {A : Type} `{!EqDecision A} (hash : A -> Z) (Hhash : forall a, hash a <> 0).

(** Every key of [ks], at its place, has one slot. *)
Record indexed (g : list slot) (ks : list A) : Prop := {
  ix_table : table_ok k g;
  ix_all : forall j a, ks !! j = Some a -> exists i, g !! i = Some (hash a, j);
  ix_only : forall i c, g !! i = Some c -> c.1 <> 0 -> exists a, ks !! c.2 = Some a /\ c.1 = hash a;
  ix_inj : forall i i' c c', g !! i = Some c -> g !! i' = Some c' -> c.1 <> 0 -> c'.1 <> 0 -> c.2 = c'.2 -> i = i';
  ix_count : length (filter (fun c : slot => c.1 <> 0) g) = length ks }.

Lemma indexed_empty n : Z.of_nat n = 2 ^ k -> indexed (replicate n (0, O)) [].
Proof.
  intros Hn. assert (Hz : forall i (c : slot), replicate n (0, O) !! i = Some c -> c.1 = 0) by (by intros i c [-> _]%lookup_replicate).
  split; [split; [by rewrite length_replicate|]| | | |].
  - intros i c Hi Hc. by apply Hz in Hi.
  - done.
  - intros i c Hi Hc. by apply Hz in Hi.
  - intros i i' c c' Hi _ Hc. by apply Hz in Hi.
  - rewrite filter_none; [done|]. intros c [i Hi]%list_elem_of_lookup Hc. by apply Hz in Hi.
Qed.

(** A table with more slots than keys has a free one. *)
Lemma indexed_free g ks : indexed g ks -> (length ks < length g)%nat -> exists i c, g !! i = Some c /\ c.1 = 0.
Proof.
  intros Hx Hlt. rewrite <-(ix_count g ks Hx) in Hlt. clear Hx. induction g as [|c g IH]; [cbn in Hlt; lia|]. destruct (decide (c.1 = 0)) as [|Hne]; [by exists O, c|].
  rewrite filter_cons_True in Hlt by done. destruct IH as (i & y & Hi & Hy); [cbn [length] in Hlt; lia|]. by exists (S i), y.
Qed.

Lemma mask_start g ks h : indexed g ks -> Z.of_nat (length g) - 1 = 2 ^ k - 1 /\ Z.land (u32 h) (2 ^ k - 1) = h mod 2 ^ k.
Proof.
  intros Hx. split; [by rewrite (tk_size _ g (ix_table g ks Hx))|]. replace (2 ^ k - 1) with (Z.ones k) by (rewrite Z.ones_equiv; lia).
  rewrite Z.land_ones by lia. unfold u32. apply Z.mod_mod_divide. exists (2 ^ (32 - k)). rewrite <-Z.pow_add_r by lia. f_equal. lia.
Qed.

Lemma indexed_insert test g ks a d : indexed g ks -> (d < length g)%nat -> walk k test g (hash a) d false ->
  indexed (<[pos k (hash a) d := (hash a, length ks)]> g) (ks ++ [a]).
Proof.
  intros [Ht Hall Honly Hinj Hcount] Hd Hw. set (p := pos k (hash a) d). assert (Hp : (p < length g)%nat) by (apply pos_lt; [lia|done]).
  pose proof Hw as [_ (y & Hy & Hy0)]. fold p in Hy.
  assert (Hcase : forall i c, <[p := (hash a, length ks)]> g !! i = Some c -> (i = p /\ c = (hash a, length ks)) \/ (i <> p /\ g !! i = Some c)).
  { intros i c Hi. destruct (decide (p = i)) as [<-|Hne]; [rewrite list_lookup_insert_eq in Hi by done; injection Hi as <-; by left|]. rewrite list_lookup_insert_ne in Hi by done. right. split; [congruence|done]. }
  assert (Hold : forall i c, g !! i = Some c -> c.1 <> 0 -> (c.2 < length ks)%nat).
  { intros i c Hi Hc. destruct (Honly i c Hi Hc) as (b & Hb & _). by eapply lookup_lt_Some. }
  split.
  - by eapply group_insert; [lia| | | |].
  - intros j b Hj. apply lookup_app_Some in Hj as [Hj|[Hj Hb]].
    + destruct (Hall j b Hj) as (i & Hi). exists i. rewrite list_lookup_insert_ne; [done|]. intros ->. rewrite Hy in Hi. injection Hi as ->. cbn in Hy0. by apply (Hhash b).
    + destruct (j - length ks)%nat as [|n] eqn:Hn; [|by destruct n]. injection Hb as <-. exists p. rewrite list_lookup_insert_eq by done. by replace j with (length ks) by lia.
  - intros i c [[-> ->]|[_ Hi]]%Hcase Hc; cbn.
    + exists a. split; [|done]. by apply list_lookup_middle.
    + destruct (Honly i c Hi Hc) as (b & Hb & Hh). exists b. split; [|done]. by apply lookup_app_l_Some.
  - intros i i' c c' [[-> ->]|[Hn Hi]]%Hcase [[-> ->]|[Hn' Hi']]%Hcase Hc Hc' Heq; [done| | |by eapply Hinj]; cbn in Heq; [pose proof (Hold _ _ Hi' Hc')|pose proof (Hold _ _ Hi Hc)]; lia.
  - rewrite (length_filter_insert _ g p y) by (done || cbn; auto). rewrite Hcount, length_app. cbn. lia.
Qed.

(** The walk for key [a], whose test compares keys. *)
Lemma indexed_find test g ks a : indexed g ks -> (length ks < length g)%nat ->
  (forall i c b, g !! i = Some c -> c.1 <> 0 -> ks !! c.2 = Some b -> c.1 = hash b -> test c = Some (bool_decide (b = a))) ->
  exists found at_, find_group (length g) test g (Z.of_nat (length g) - 1) (Z.land (u32 (hash a)) (Z.of_nat (length g) - 1)) = Some (found, at_) /\
    (Z.to_nat at_ < length g)%nat /\
    if found : bool then exists j, ks !! j = Some a /\ g !! Z.to_nat at_ = Some (hash a, j)
    else a ∉ ks /\ (exists c, g !! Z.to_nat at_ = Some c /\ c.1 = 0) /\ indexed (<[Z.to_nat at_ := (hash a, length ks)]> g) (ks ++ [a]).
Proof.
  intros Hx Hlt Htest. destruct (mask_start g ks (hash a) Hx) as [Hmask Hstart]. rewrite Hmask, Hstart. destruct (indexed_free g ks Hx Hlt) as (i0 & c0 & Hi0 & Hc0).
  destruct (find_group_walk k ltac:(lia) test g (hash a) i0 c0 (ix_table g ks Hx) Hi0 Hc0) as (found & d & -> & Hd & Hw).
  { intros j y Hj Hy. destruct (ix_only g ks Hx j y Hj Hy) as (b & Hb & Hh). by rewrite (Htest j y b). }
  exists found, ((hash a + Z.of_nat d) mod 2 ^ k). split; [done|]. fold (pos k (hash a) d). split; [apply pos_lt; [lia|apply Hx]|]. destruct found.
  - destruct Hw as [_ (c & Hc & Hc0' & Ht)]. destruct (ix_only g ks Hx _ c Hc Hc0') as (b & Hb & Hh). rewrite (Htest _ c b) in Ht by done. injection Ht as Ht%bool_decide_eq_true.
    subst b. exists c.2. split; [done|]. rewrite Hc, <-Hh. by destruct c.
  - split; [|split; [by destruct Hw as [_ (c & Hc & Hz)]; exists c|by eapply indexed_insert]]. intros [j Hj]%list_elem_of_lookup. destruct (ix_all g ks Hx j a Hj) as (i & Hi).
    pose proof (walk_absent k test g (hash a) d i (hash a, j) (ix_table g ks Hx) Hw Hi eq_refl (Hhash a)) as Hf. rewrite (Htest i (hash a, j) a) in Hf by (done || apply Hhash).
    by rewrite bool_decide_true in Hf.
Qed.

End Index.

End GroupTable.
