(* ===== verification/ReduceProof.v ===== *)
(** * Aggregation against a table without hashing

    [grouped] is the reference: the rows in order, each added to the first
    entry with its key.  The operator keeps the same groups, in the same
    order, in the rows of its output. *)

From Stdlib Require Import SpecFloat.
From S2P Require Import Prelude Arithmetic RadixSort Relation Consolidate ConsolidateProof StringOps Floats FloatsProof Expr ExprCompile ExprProof EvalStack Filter FilterProof RowOps GroupTable.

Module ReduceProof.

Import Keys Rel Consolidate ConsolidateProof StringOps.StringOps Floats.Floats Expr.Expr ExprCompile.ExprCompile EvalStack.EvalStack Filter.Filter FilterProof.FilterProof RowOps.RowOps GroupTable.GroupTable.

(** ** Rows of a group and their aggregate *)

(** The output row: the aggregate stands at [ai]. *)
Definition assemble {A} (ai : nat) (key : list A) (v : A) : list A := take ai key ++ v :: drop ai key.

Lemma length_assemble {A} ai (key : list A) v : length (assemble ai key v) = S (length key).
Proof. unfold assemble. rewrite length_app. cbn. rewrite length_take, length_drop. lia. Qed.

Lemma assemble_agg {A} ai (key : list A) v : (ai <= length key)%nat -> assemble ai key v !! ai = Some v.
Proof. intros H. unfold assemble. apply list_lookup_middle. rewrite length_take. lia. Qed.

Lemma assemble_col {A} ai (key : list A) v k : (ai <= length key)%nat -> assemble ai key v !! out_col ai k = key !! k.
Proof.
  intros H. unfold assemble, out_col. destruct (Nat.leb_spec ai k).
  - rewrite lookup_app_r by (rewrite length_take; lia). rewrite length_take, Nat.min_l by lia. replace (k + 1 - ai)%nat with (S (k - ai)) by lia. change ((v :: drop ai key) !! S (k - ai)) with (drop ai key !! (k - ai)%nat). rewrite lookup_drop. f_equal. lia.
  - destruct (decide (k < length key)%nat); [|rewrite lookup_app_r by (rewrite length_take; lia); lia]. rewrite lookup_app_l by (rewrite length_take; lia). by apply lookup_take_lt.
Qed.

Lemma assemble_set {A} ai (key : list A) v v' : (ai <= length key)%nat -> <[ai := v']> (assemble ai key v) = assemble ai key v'.
Proof. intros H. unfold assemble. rewrite insert_app_r_alt by (rewrite length_take; lia). rewrite length_take, Nat.min_l, Nat.sub_diag by lia. done. Qed.

(** Every column is one of the group or the aggregate's. *)
Lemma out_col_cases ai c n : (ai <= n)%nat -> (c < S n)%nat -> c = ai \/ exists k, (k < n)%nat /\ c = out_col ai k.
Proof.
  intros Ha Hc. destruct (decide (c = ai)); [by left|right]. unfold out_col. destruct (decide (c < ai)%nat).
  - exists c. split; [lia|]. by rewrite (proj2 (Nat.leb_gt _ _)) by lia.
  - exists (c - 1)%nat. split; [lia|]. rewrite (proj2 (Nat.leb_le _ _)) by lia. lia.
Qed.

Lemma out_col_inj ai k k' : out_col ai k = out_col ai k' -> k = k'.
Proof. unfold out_col. destruct (Nat.leb_spec ai k), (Nat.leb_spec ai k'); lia. Qed.

Lemma out_col_agg ai k : out_col ai k <> ai.
Proof. unfold out_col. destruct (Nat.leb_spec ai k); lia. Qed.

Lemma assemble_ext {A} ai n (l : list A) key v : (ai <= n)%nat -> length key = n -> length l = S n -> l !! ai = Some v ->
  (forall k, (k < n)%nat -> l !! out_col ai k = key !! k) -> l = assemble ai key v.
Proof.
  intros Ha Hk Hl Hv Hc. apply list_eq. intros i. destruct (decide (i < S n)%nat).
  - destruct (out_col_cases ai i n Ha) as [->|(k & Hk' & ->)]; [done| |].
    + by rewrite assemble_agg by lia.
    + by rewrite assemble_col, Hc by lia.
  - rewrite !lookup_ge_None_2; [done|rewrite length_assemble|]; lia.
Qed.

(** Columns written one by one. *)
Lemma fill_columns {A} (f : nat -> option A) ai n : forall m k l, (ai <= n)%nat -> (k + m = n)%nat -> length l = S n ->
  (forall j, (j < n)%nat -> is_Some (f j)) ->
  exists l', length l' = S n /\ l' !! ai = l !! ai /\ (forall j, (k <= j < n)%nat -> l' !! out_col ai j = f j) /\ (forall j, (j < k)%nat -> l' !! out_col ai j = l !! out_col ai j) /\
    forall (g : nat -> nat -> list A -> option (list A)), (forall k l, g O k l = Some l) ->
      (forall m k l, g (S m) k l = (x ← f k; l ← wr l (out_col ai k) x; g m (S k) l)) -> g m k l = Some l'.
Proof.
  induction m as [|m IH]; intros k l Ha Hm Hl Hf.
  { exists l. split_and!; [done..| |done|]; [intros j Hj; lia|]. intros g H0 _. apply H0. }
  destruct (Hf k ltac:(lia)) as [x Hx]. assert (Hlt : (out_col ai k < length l)%nat) by (unfold out_col; destruct (ai <=? k)%nat; lia).
  destruct (IH (S k) (<[out_col ai k := x]> l) Ha ltac:(lia) ltac:(by rewrite length_insert) Hf) as (l' & Hl' & Hag & Hnew & Hold & Hg).
  exists l'. split; [done|]. split; [rewrite Hag; apply list_lookup_insert_ne, out_col_agg|]. split_and!.
  - intros j Hj. destruct (decide (j = k)) as [->|]; [|apply Hnew; lia]. rewrite Hold by lia. by rewrite list_lookup_insert_eq.
  - intros j Hj. rewrite Hold by lia. apply list_lookup_insert_ne. intros ->%out_col_inj. lia.
  - intros g H0 H1. rewrite H1, Hx. cbn [mbind option_bind]. rewrite wr_lt by done. cbn [mbind option_bind]. by apply Hg.
Qed.

(** ** Keys *)

Section Keys.

Context (op : reduce_op) (s : shape).

Abbreviation gc := (group_by_count op).

(** The group columns exist, and so do the types of the columns. *)
Record op_ok : Prop := {
  ok_cols : (0 < gc)%nat -> (0 < ncols s)%nat;
  ok_indices : forall l, group_by_indices op = Some l -> (gc <= length l)%nat;
  ok_types : forall ts, column_types s = Some ts -> (ncols s <= length ts)%nat }.

Definition gidx (k : nat) : nat := match group_by_indices op with Some l => l !!! k | None => k end.
Definition gtype (k : nat) : column_type := default TYPE_INT64 (group_type s (gidx k)).
Definition raw_cell (x : row) (k : nat) : Z := x !!! (if (gidx k <? ncols s)%nat then gidx k else O).

(** The key of a row. *)
Definition row_key (x : row) : list Z := (fun k => canonical_cell (gtype k) (raw_cell x k)) <$> seq 0 gc.
Definition hash_key (key : list Z) : Z := nonzero_hash (foldl mix GROUP_HASH_SEED key).

Lemma hash_key_nonzero key : hash_key key <> 0.
Proof. unfold hash_key, nonzero_hash. by destruct (Z.eqb_spec (foldl mix GROUP_HASH_SEED key) 0). Qed.

Context (Hop : op_ok).

Lemma group_index_ok k : (k < gc)%nat -> group_index op k = Some (gidx k).
Proof.
  intros Hk. unfold group_index, gidx. destruct (group_by_indices op) as [l|] eqn:Hl; [|done]. pose proof (ok_indices Hop l Hl). apply list_lookup_lookup_total_lt. lia.
Qed.

Lemma group_type_ok k : group_type s (gidx k) = Some (gtype k).
Proof.
  unfold gtype, group_type. destruct (column_types s) as [ts|] eqn:Ht; [|done]. destruct (Nat.ltb_spec (gidx k) (ncols s)); [|done]. pose proof (ok_types Hop ts Ht).
  unfold rd. by destruct (lookup_lt_is_Some_2 ts (gidx k) ltac:(lia)) as [ty ->].
Qed.

Lemma raw_cell_ok x k : row_ok s x -> (k < gc)%nat -> group_cell s x (gidx k) = Some (raw_cell x k) /\ valid_key (gtype k) (raw_cell x k).
Proof.
  intros Hx Hk. pose proof (ok_cols Hop ltac:(lia)) as Hnc. unfold group_cell, raw_cell, rd. split.
  - apply list_lookup_lookup_total_lt. rewrite (rk_len _ _ Hx). destruct (Nat.ltb_spec (gidx k) (ncols s)); lia.
  - pose proof (group_type_ok k) as Hg. unfold group_type in Hg. destruct (Nat.ltb_spec (gidx k) (ncols s)) as [Hlt|Hge].
    + destruct (row_cell s x (gidx k) Hx Hlt) as (ty & v & Hty & _ & -> & Hv). enough (ty = gtype k) as <- by done. unfold column_type_at in Hty. destruct (column_types s); congruence.
    + destruct (row_cell s x O Hx Hnc) as (ty & v & _ & _ & -> & [Hi _]). replace (gtype k) with TYPE_INT64 by (destruct (column_types s); congruence). by split.
Qed.

Lemma group_key_ok x k : row_ok s x -> (k < gc)%nat -> group_key op s x k = Some (canonical_cell (gtype k) (raw_cell x k)).
Proof.
  intros Hx Hk. unfold group_key. rewrite group_index_ok by done. cbn [mbind option_bind]. destruct (raw_cell_ok x k Hx Hk) as [-> _]. cbn [mbind option_bind]. rewrite group_type_ok. cbn [mbind option_bind].
  unfold canonical_cell, float_canonical_bits. by destruct (is_float (gtype k)).
Qed.

Lemma length_row_key x : length (row_key x) = gc.
Proof. unfold row_key. by rewrite length_fmap, length_seq. Qed.

Lemma reduce_hash_ok x : row_ok s x -> reduce_hash gc op s x 0 GROUP_HASH_SEED = Some (hash_key (row_key x)).
Proof.
  intros Hx. unfold hash_key, row_key. enough (H : forall n k h, (k + n = gc)%nat -> reduce_hash n op s x k h = Some (nonzero_hash (foldl mix h ((fun k => canonical_cell (gtype k) (raw_cell x k)) <$> seq k n)))) by (by apply H).
  induction n as [|n IH]; intros k h Hk; cbn [reduce_hash seq fmap list_fmap foldl]; [done|]. rewrite group_key_ok by (done || lia). cbn [mbind option_bind]. apply IH. lia.
Qed.

(** A row of the output has the key of [x] when its group columns agree. *)
Lemma reduce_match_ok x ai out i key v : row_ok s x -> (ai <= gc)%nat -> length key = gc -> rows out !! i = Some (assemble ai key v) ->
  reduce_match gc op s x ai 0 out i = Some (bool_decide (key = row_key x)).
Proof.
  intros Hx Ha Hl Hi. unfold row_key.
  enough (H : forall n k, (k + n = gc)%nat -> reduce_match n op s x ai k out i = Some (bool_decide (drop k key = (fun k => canonical_cell (gtype k) (raw_cell x k)) <$> seq k n))) by (by rewrite H).
  induction n as [|n IH]; intros k Hk; cbn [reduce_match seq fmap list_fmap].
  - rewrite drop_ge by lia. by rewrite bool_decide_true.
  - rewrite group_key_ok by (done || lia). cbn [mbind option_bind]. unfold col_rel_get, rd. rewrite Hi. cbn [mbind option_bind]. rewrite assemble_col by lia.
    destruct (lookup_lt_is_Some_2 key k ltac:(lia)) as [c Hc]. rewrite Hc. cbn [mbind option_bind]. rewrite (drop_S key c k Hc).
    destruct (Z.eqb_spec (canonical_cell (gtype k) (raw_cell x k)) c) as [<-|Hne].
    + rewrite (IH (S k)) by lia. f_equal. apply bool_decide_ext. split; [by intros ->|by intros [= ->]].
    + symmetry. f_equal. apply bool_decide_eq_false_2. intros [= H _]. by apply Hne.
Qed.

(** The row of a new group. *)
Lemma fill_group_ok x ai tmp v : row_ok s x -> (ai <= gc)%nat -> length tmp = S gc ->
  exists tmp', fill_group gc op s x ai 0 tmp = Some tmp' /\ wr tmp' ai v = Some (assemble ai (raw_cell x <$> seq 0 gc) v).
Proof.
  intros Hx Ha Hl. assert (Hf : forall j, (j < gc)%nat -> (gi ← group_index op j; group_cell s x gi) = Some (raw_cell x j)).
  { intros j Hj. rewrite group_index_ok by done. cbn. by apply raw_cell_ok. }
  destruct (fill_columns (fun k => gi ← group_index op k; group_cell s x gi) ai gc gc 0 tmp Ha ltac:(lia) Hl) as (tmp' & Hl' & Hag & Hnew & _ & Hg); [intros j Hj; by rewrite Hf|].
  exists tmp'. split.
  - apply (Hg (fun n k t => fill_group n op s x ai k t)); [done|]. intros m k l. cbn [fill_group]. by destruct (group_index op k).
  - rewrite wr_lt by lia. f_equal. apply (assemble_ext ai gc); [done|by rewrite length_fmap, length_seq|by rewrite length_insert|apply list_lookup_insert_eq; lia|].
    intros k Hk. rewrite list_lookup_insert_ne by (symmetry; apply out_col_agg). rewrite Hnew by lia. rewrite Hf by done. rewrite list_lookup_fmap, lookup_seq_lt by done. done.
Qed.

(** The types of the output. *)
Definition agg_type : column_type := if is_float_agg op then TYPE_FLOAT else TYPE_INT64.
Definition out_types (ai : nat) : list column_type := assemble ai (gtype <$> seq 0 gc) agg_type.

Lemma reduce_types_ok ai : (ai <= gc)%nat -> reduce_types op s ai = Some (out_types ai).
Proof.
  intros Ha. unfold reduce_types. assert (Hf : forall j, (j < gc)%nat -> (gi ← group_index op j; group_type s gi) = Some (gtype j)).
  { intros j Hj. rewrite group_index_ok by done. cbn. apply group_type_ok. }
  destruct (fill_columns (fun k => gi ← group_index op k; group_type s gi) ai gc gc 0 (replicate (gc + 1) TYPE_INT64) Ha ltac:(lia) ltac:(rewrite length_replicate; lia))
    as (l & Hl & Hag & Hnew & _ & Hg); [intros j Hj; by rewrite Hf|].
  rewrite (Hg (fun n k t => fill_types n op s ai k t)); [|done|intros m k t; cbn [fill_types]; by destruct (group_index op k)]. cbn [mbind option_bind].
  rewrite wr_lt by lia. f_equal. apply (assemble_ext ai gc); [done|by rewrite length_fmap, length_seq|by rewrite length_insert|apply list_lookup_insert_eq; lia|].
  intros k Hk. rewrite list_lookup_insert_ne by (symmetry; apply out_col_agg). rewrite Hnew by lia. rewrite Hf by done. rewrite list_lookup_fmap, lookup_seq_lt by done. done.
Qed.

Definition out_shape (ai : nat) : shape := Sh (gc + 1) (Some (out_types ai)).

Lemma out_shape_col ai k : (ai <= gc)%nat -> (k < gc)%nat -> column_type_at (out_shape ai) (out_col ai k) = Some (gtype k).
Proof.
  intros Ha Hk. unfold column_type_at, out_shape, rd. cbn [column_types]. unfold out_types. rewrite assemble_col by (rewrite length_fmap, length_seq; lia).
  rewrite list_lookup_fmap, lookup_seq_lt by done. done.
Qed.

Lemma out_shape_agg ai : (ai <= gc)%nat -> column_type_at (out_shape ai) ai = Some agg_type.
Proof. intros Ha. unfold column_type_at, out_shape, rd. cbn [column_types]. unfold out_types. apply assemble_agg. rewrite length_fmap, length_seq. lia. Qed.

Lemma new_row_ok x ai v : row_ok s x -> (ai <= gc)%nat -> valid_key agg_type v -> row_ok (out_shape ai) (assemble ai (raw_cell x <$> seq 0 gc) v).
Proof.
  intros Hx Ha Hv. assert (Hls : length (raw_cell x <$> seq 0 gc) = gc) by (by rewrite length_fmap, length_seq). split; [rewrite length_assemble, Hls; cbn; lia|].
  intros c y Hc. pose proof (lookup_lt_Some _ _ _ Hc) as Hlt. rewrite length_assemble, Hls in Hlt. destruct (out_col_cases ai c gc Ha Hlt) as [->|(k & Hk & ->)].
  - rewrite assemble_agg in Hc by lia. injection Hc as <-. exists agg_type. split; [by apply out_shape_agg|done].
  - rewrite assemble_col in Hc by lia. rewrite list_lookup_fmap, lookup_seq_lt in Hc by done. injection Hc as <-. exists (gtype k). split; [by apply out_shape_col|]. by apply raw_cell_ok.
Qed.

(** It is stored with the key of [x]. *)
Lemma canon_new_row x ai v : (ai <= gc)%nat -> canon (out_shape ai) (assemble ai (raw_cell x <$> seq 0 gc) v) = assemble ai (row_key x) (canonical_cell agg_type v).
Proof.
  intros Ha. assert (Hls : length (raw_cell x <$> seq 0 gc) = gc) by (by rewrite length_fmap, length_seq).
  apply (assemble_ext ai gc); [done|apply length_row_key|unfold canon; by rewrite length_imap, length_assemble, Hls| |].
  - unfold canon. rewrite list_lookup_imap, assemble_agg by lia. cbn [fmap option_fmap option_map]. by rewrite out_shape_agg.
  - intros k Hk. unfold canon, row_key. rewrite list_lookup_imap, assemble_col by lia. rewrite !list_lookup_fmap, lookup_seq_lt by done. cbn [fmap option_fmap option_map]. by rewrite out_shape_col.
Qed.

End Keys.

(** ** Values *)

Lemma to_bits_int64 f : is_int64 (to_bits f).
Proof. destruct f; cbn [to_bits]; try apply i64_range. case_match; apply i64_range. Qed.

Lemma float_canonical_int64 v : is_int64 v -> is_int64 (float_canonical_bits v).
Proof. intros H. unfold float_canonical_bits. destruct (float_bits_zero v); [mi|done]. Qed.

(** An update stores an int64. *)
Lemma agg_update_int64 {W} `{!Host W} fn domain table (w : W) cur v sum count val sum' count' : is_int64 cur -> is_int64 v ->
  agg_update fn domain table w cur v sum count = Some (inl (Some val, sum', count')) -> is_int64 val.
Proof.
  intros Hc Hv. unfold agg_update. destruct fn.
  - intros [= <- _ _]. apply i64_range.
  - destruct (match domain with OPERAND_FLOAT => true | _ => false end).
    + destruct (negb _); [done|]. intros [= <- _ _]. apply float_canonical_int64, to_bits_int64.
    + rewrite (Arith.add_checks cur v 0 Hc Hv). cbn [mbind option_bind]. case_decide; [|done]. cbn. by intros [= <- _ _].
  - destruct (match domain with OPERAND_FLOAT => true | _ => false end).
    + destruct (_ <? 0); [|done]. intros [= <- _ _]. by apply float_canonical_int64.
    + destruct (col_agg_better _ _ _ _ _ _) as [[|]|]; [|done..]. cbn. by intros [= <- _ _].
  - destruct (match domain with OPERAND_FLOAT => true | _ => false end).
    + destruct (0 <? _); [|done]. intros [= <- _ _]. by apply float_canonical_int64.
    + destruct (col_agg_better _ _ _ _ _ _) as [[|]|]; [|done..]. cbn. by intros [= <- _ _].
  - destruct (match domain with OPERAND_FLOAT => true | _ => false end); [|done].
    destruct (negb _); [done|]. intros [= <- _ _]. apply float_canonical_int64, to_bits_int64.
Qed.

(** A cell of a stored row is overwritten, unless a float lane refuses it. *)
Lemma col_rel_set_ok (r : rel) i c v x ty : rows r !! i = Some x -> (i < capacity r)%nat -> (c < ncols r)%nat -> length x = ncols r -> column_type_at r c = Some ty ->
  col_rel_set r i c v = Some (if is_float ty && negb (float_bits_valid v) then (r, EINVAL) else (set_rows (<[i := <[c := canonical_cell ty v]> x]> (rows r)) r, 0)).
Proof.
  intros Hi Hcap Hc Hl Hty. unfold col_rel_set. rewrite (proj2 (Nat.leb_gt _ _) Hcap), (proj2 (Nat.leb_gt _ _) Hc). cbn [orb]. rewrite Hty. cbn [mbind option_bind].
  destruct (_ && _); [done|]. unfold rd. rewrite Hi. cbn [mbind option_bind]. rewrite wr_lt by lia. cbn [mbind option_bind]. by rewrite wr_lt by (by eapply lookup_lt_Some).
Qed.

(** The entry with a key, in a list without repeated keys. *)
Lemma list_find_key {A} (acc : list (list Z * A)) key : NoDup acc.*1 ->
  match list_find (fun p : list Z * A => p.1 = key) acc with Some (j, p) => acc !! j = Some p /\ p.1 = key | None => key ∉ acc.*1 end /\
  forall j c, acc !! j = Some (key, c) -> list_find (fun p : list Z * A => p.1 = key) acc = Some (j, (key, c)).
Proof.
  intros Hnd. split.
  - destruct (list_find _ acc) as [[j p]|] eqn:Hf; [apply list_find_Some in Hf as (H1 & H2 & _); done|]. apply list_find_None in Hf. intros (p & -> & Hp)%list_elem_of_fmap. rewrite Forall_forall in Hf. by apply (Hf p).
  - intros j c Hj. apply list_find_Some. split_and!; [done..|]. intros i y Hi Hlt Hy.
    assert (i = j) as ->; [|lia]. eapply NoDup_lookup; [exact Hnd| |]; rewrite list_lookup_fmap; [rewrite Hi|rewrite Hj]; cbn; by rewrite ?Hy.
Qed.

(** ** The reference *)

Section Grouping.

Context {W : Type} `{!Host W}.
Context (table : bool) (sessions : list Z) (op : reduce_op) (s : shape).

(** The aggregate of a group: the value in the output, the sum and the count. *)
Record cell := Cell { c_val : Z; c_sum : spec_float; c_count : Z }.

Abbreviation group := (list Z * cell)%type.

(** The operand by the interpreter. *)
Definition operand (x : row) (w : W) : option (W * (Z + Z)) := reduce_operand table sessions op None x (ncols s) w.

Definition first_cell (v : Z) : cell :=
  let '(first, float_agg) := agg_first (agg_fn op) (agg_operand_type op) v in
  if float_agg : bool then Cell (canonical_cell (agg_type op) first) (of_bits v) 1 else Cell first (S754_zero false) 0.

(** What a float lane accepts. *)
Definition new_val (cur : Z) (val : option Z) : Z :=
  match val with
  | None => cur
  | Some v => if is_float_agg op && negb (float_bits_valid v) then cur else canonical_cell (agg_type op) v
  end.

Definition next_cell (w : W) (c : cell) (v : Z) : option (cell + Z) :=
  u ← agg_update (agg_fn op) (agg_operand_type op) table w (c_val c) v (c_sum c) (c_count c);
  Some (match u with inr code => inr code | inl (val, sum, count) => inl (Cell (new_val (c_val c) val) sum count) end).

(** One value more for the group [key]. *)
Definition add_value (w : W) (acc : list group) (key : list Z) (v : Z) : option (list group + Z) :=
  match list_find (fun p : group => p.1 = key) acc with
  | Some (j, p) => u ← next_cell w p.2 v; Some (match u with inl c => inl (<[j := (key, c)]> acc) | inr code => inr code end)
  | None => Some (inl (acc ++ [(key, first_cell v)]))
  end.

(** The groups of the rows in the order of their first rows, or a code. *)
Fixpoint grouped (l : list row) (acc : list group) (w : W) : option (W * (list group + Z)) :=
  match l with
  | [] => Some (w, inl acc)
  | x :: l' =>
      '(w, v) ← operand x w;
      match v with
      | inr code => Some (w, inr code)
      | inl v =>
          if is_float_agg op && negb (float_bits_valid v) then Some (w, inr EINVAL)
          else
            acc ← add_value w acc (row_key op s x) v;
            match acc with inr code => Some (w, inr code) | inl acc => grouped l' acc w end
      end
  end.

(** ** The operator's state *)

Context (k : Z) (Hk : 0 <= k <= 31) (ai : nat) (Hai : (ai <= group_by_count op)%nat) (Hop : op_ok op s).

Definition out_row (p : group) : row := assemble ai p.1 (c_val p.2).

Definition group_ok (p : group) : Prop := length p.1 = group_by_count op /\ valid_key (agg_type op) (c_val p.2).

Record represents (st : rstate) (acc : list group) : Prop := {
  rp_index : indexed k hash_key (rs_groups st) acc.*1;
  rp_distinct : NoDup acc.*1;
  rp_rows : stored (rs_out st) = out_row <$> acc;
  rp_fits : fits (rs_out st);
  rp_lanes : lanes (rs_out st) = out_shape op s ai;
  rp_groups : Forall group_ok acc;
  rp_cells : forall i h j p, rs_groups st !! i = Some (h, j) -> h <> 0 -> acc !! j = Some p -> rs_sums st !! i = Some (c_sum p.2) /\ rs_counts st !! i = Some (c_count p.2);
  rp_free : forall i c, rs_groups st !! i = Some c -> c.1 = 0 -> rs_sums st !! i = Some (S754_zero false) /\ rs_counts st !! i = Some 0;
  rp_sums : length (rs_sums st) = length (rs_groups st) /\ length (rs_counts st) = length (rs_groups st);
  rp_tmp : length (rs_tmp st) = S (group_by_count op) }.

Lemma represents_nrows st acc : represents st acc -> nrows (rs_out st) = length acc.
Proof. intros H. rewrite <-(length_stored _ (rp_fits _ _ H)), (rp_rows _ _ H). apply length_fmap. Qed.

Lemma represents_row st acc j p : represents st acc -> acc !! j = Some p -> rows (rs_out st) !! j = Some (out_row p) /\ (j < nrows (rs_out st))%nat.
Proof.
  intros H Hj. pose proof (represents_nrows st acc H) as Hn. pose proof (lookup_lt_Some _ _ _ Hj) as Hlt. split; [|lia].
  pose proof (rp_rows _ _ H) as Hr. unfold stored in Hr. rewrite <-(lookup_take_lt _ (nrows (rs_out st))) by lia. rewrite Hr, list_lookup_fmap, Hj. done.
Qed.

(** The walk of a row ends at its group or where it belongs. *)
Lemma reduce_find st acc x : represents st acc -> row_ok s x -> (length acc < length (rs_groups st))%nat ->
  exists found at_, find_group (length (rs_groups st))
      (fun g => if g.1 =? hash_key (row_key op s x) then reduce_match (group_by_count op) op s x ai 0 (rs_out st) g.2 else Some false)
      (rs_groups st) (Z.of_nat (length (rs_groups st)) - 1) (Z.land (u32 (hash_key (row_key op s x))) (Z.of_nat (length (rs_groups st)) - 1)) = Some (found, at_) /\
    (Z.to_nat at_ < length (rs_groups st))%nat /\
    if found : bool then exists j c, acc !! j = Some (row_key op s x, c) /\ rs_groups st !! Z.to_nat at_ = Some (hash_key (row_key op s x), j)
    else row_key op s x ∉ acc.*1 /\ (exists c, rs_groups st !! Z.to_nat at_ = Some c /\ c.1 = 0) /\
      indexed k hash_key (<[Z.to_nat at_ := (hash_key (row_key op s x), length acc)]> (rs_groups st)) (acc.*1 ++ [row_key op s x]).
Proof.
  intros H Hx Hlt. set (key := row_key op s x).
  destruct (indexed_find k Hk hash_key hash_key_nonzero (fun g => if g.1 =? hash_key key then reduce_match (group_by_count op) op s x ai 0 (rs_out st) g.2 else Some false)
    (rs_groups st) acc.*1 key (rp_index _ _ H)) as (found & at_ & Hf & Hat & Hr); [by rewrite length_fmap| |].
  - intros i c b Hi Hc Hb Hh. rewrite list_lookup_fmap in Hb. destruct (acc !! c.2) as [p|] eqn:Hp; [|done]. injection Hb as <-.
    destruct (represents_row st acc _ p H Hp) as [Hrow _]. destruct (Forall_lookup_1 _ _ _ _ (rp_groups _ _ H) Hp) as [Hlen _].
    rewrite (reduce_match_ok op s Hop x ai (rs_out st) c.2 p.1 (c_val p.2)) by done. fold key. rewrite Hh. destruct (Z.eqb_spec (hash_key p.1) (hash_key key)) as [|Hne]; [done|].
    symmetry. f_equal. apply bool_decide_eq_false_2. congruence.
  - exists found, at_. split; [done|]. split; [done|]. destruct found; [|by rewrite length_fmap in Hr]. destruct Hr as (j & Hj & Hg). rewrite list_lookup_fmap in Hj.
    destruct (acc !! j) as [[kk c]|] eqn:Hp; [|done]. injection Hj as ->. by exists j, c.
Qed.

Lemma agg_type_float : is_float (agg_type op) = is_float_agg op.
Proof. unfold agg_type. by destruct (is_float_agg op). Qed.

Lemma new_val_ok cur val : valid_key (agg_type op) cur -> (forall v, val = Some v -> is_int64 v) -> valid_key (agg_type op) (new_val cur val).
Proof.
  intros Hc Hv. unfold new_val. destruct val as [v|]; [|done]. destruct (is_float_agg op && negb (float_bits_valid v)) eqn:Hb; [done|]. apply canonical_cell_ok. split; [by apply Hv|].
  rewrite agg_type_float. intros Hf. rewrite Hf in Hb. by destruct (float_bits_valid v).
Qed.

Lemma next_cell_ok w c v c' : valid_key (agg_type op) (c_val c) -> is_int64 v -> next_cell w c v = Some (inl c') -> valid_key (agg_type op) (c_val c').
Proof.
  intros Hc Hv. unfold next_cell. destruct (agg_update _ _ _ _ _ _ _ _) as [[[[val sum] count]|]|] eqn:Hu; [|done..]. cbn. intros [= <-]. cbn [c_val]. apply new_val_ok; [done|].
  intros v' ->. eapply agg_update_int64; [|exact Hv|exact Hu]. apply Hc.
Qed.

Lemma stored_insert (r : rel) j x : (j < nrows r)%nat -> stored (set_rows (<[j := x]> (rows r)) r) = <[j := x]> (stored r).
Proof. intros Hj. unfold stored. cbn. by rewrite take_insert_lt. Qed.

Lemma set_value_ok st acc j key c val : represents st acc -> acc !! j = Some (key, c) ->
  exists out, match val with Some val => '(out, _) ← col_rel_set (rs_out st) j ai val; Some out | None => Some (rs_out st) end = Some out /\
    lanes out = lanes (rs_out st) /\ fits out /\ stored out = <[j := assemble ai key (new_val (c_val c) val)]> (out_row <$> acc).
Proof.
  intros H Hj. destruct (represents_row st acc j _ H Hj) as [Hrow Hlt]. pose proof (rp_fits _ _ H) as Hf. pose proof (rp_rows _ _ H) as Hs.
  destruct (Forall_lookup_1 _ _ _ _ (rp_groups _ _ H) Hj) as [Hlen _]. cbn [fst] in Hlen.
  assert (Hsame : (out_row <$> acc) = <[j := assemble ai key (c_val c)]> (out_row <$> acc)) by (symmetry; apply list_insert_id; by rewrite list_lookup_fmap, Hj).
  destruct val as [val|]; cbn [new_val]; [|exists (rs_out st); split_and!; [done..|congruence]].
  rewrite (col_rel_set_ok (rs_out st) j ai val (out_row (key, c)) (agg_type op)).
  2: done. 2: destruct Hf; lia. 2: rewrite (rp_lanes _ _ H); cbn; lia. 2: rewrite (rp_lanes _ _ H); unfold out_row; rewrite length_assemble; cbn in *; lia.
  2: rewrite (rp_lanes _ _ H); by apply out_shape_agg.
  rewrite agg_type_float. destruct (is_float_agg op && negb (float_bits_valid val)); cbn [mbind option_bind]; eexists; (split; [done|]).
  - split_and!; [done..|]. congruence.
  - split; [done|]. split; [destruct Hf as [Hf1 Hf2]; split; cbn; [done|by rewrite length_insert]|]. rewrite stored_insert, Hs by done. unfold out_row at 1. cbn [fst snd]. by rewrite assemble_set by (cbn in *; lia).
Qed.

Lemma reduce_update_ok st acc w v at_ j key c u : represents st acc -> acc !! j = Some (key, c) -> rs_groups st !! Z.to_nat at_ = Some (hash_key key, j) -> is_int64 v ->
  next_cell w c v = Some u ->
  match u with
  | inr code => reduce_update table op ai w v at_ st = Some (inr code)
  | inl c' => exists st', reduce_update table op ai w v at_ st = Some (inl st') /\ represents st' (<[j := (key, c')]> acc) /\ length (rs_groups st') = length (rs_groups st)
  end.
Proof.
  intros H Hj Hg Hv Hn. pose proof (hash_key_nonzero key) as Hh. destruct (rp_cells _ _ H _ _ _ _ Hg Hh Hj) as [Hsum Hcount]. cbn [snd] in Hsum, Hcount.
  destruct (represents_row st acc j _ H Hj) as [Hrow _]. destruct (Forall_lookup_1 _ _ _ _ (rp_groups _ _ H) Hj) as [Hlen Hval]. cbn [fst snd] in Hlen, Hval.
  pose proof Hn as Hn0. unfold next_cell in Hn. unfold reduce_update, col_rel_get, rd. rewrite Hg. cbn [mbind option_bind snd]. rewrite Hrow. cbn [mbind option_bind].
  assert (Hcell : out_row (key, c) !! ai = Some (c_val c)) by (apply assemble_agg; cbn; lia). rewrite Hcell. cbn [mbind option_bind]. rewrite Hsum, Hcount. cbn [mbind option_bind].
  destruct (agg_update _ _ _ _ _ _ _ _) as [[[[val sum] count]|code]|]; cbn [mbind option_bind] in Hn |- *; [|by injection Hn as <-|done]. injection Hn as <-.
  pose proof (rp_sums _ _ H) as [Hls Hlc]. pose proof (lookup_lt_Some _ _ _ Hg) as Hat. rewrite !wr_lt by lia. cbn [mbind option_bind].
  destruct (set_value_ok st acc j key c val H Hj) as (out & -> & Hl & Hf & Hst). cbn [mbind option_bind]. eexists. split; [done|]. split; [|done].
  assert (Hfst : (<[j := (key, Cell (new_val (c_val c) val) sum count)]> acc).*1 = acc.*1) by (rewrite list_fmap_insert; apply list_insert_id; by rewrite list_lookup_fmap, Hj).
  split; cbn [rs_out rs_groups rs_sums rs_counts rs_tmp]; rewrite ?Hfst, ?length_insert; try apply H.
  - rewrite Hst. by rewrite list_fmap_insert.
  - done.
  - rewrite Hl. apply H.
  - apply Forall_insert; [apply H|]. split; [done|]. by eapply next_cell_ok.
  - intros i h j' p Hi Hne Hp. destruct (decide (j = j')) as [<-|Hjj].
    + assert (i = Z.to_nat at_) as ->. { eapply (ix_inj _ _ _ _ (rp_index _ _ H)); [exact Hi|exact Hg|done..]. }
      rewrite list_lookup_insert_eq in Hp by (by eapply lookup_lt_Some). injection Hp as <-. cbn. rewrite !list_lookup_insert_eq by lia. done.
    + rewrite list_lookup_insert_ne in Hp by done. rewrite !list_lookup_insert_ne; [by eapply (rp_cells _ _ H)|intros <-; congruence..].
  - intros i x Hi Hx0. rewrite !list_lookup_insert_ne; [by eapply (rp_free _ _ H)|intros <-; rewrite Hg in Hi; injection Hi as <-; done..].
Qed.

(** What [first_cell] stores. *)
Lemma first_ok v : is_int64 v -> (is_float_agg op = true -> float_bits_valid v = true) ->
  valid_key (agg_type op) (agg_first (agg_fn op) (agg_operand_type op) v).1 /\ c_val (first_cell v) = canonical_cell (agg_type op) (agg_first (agg_fn op) (agg_operand_type op) v).1.
Proof.
  intros Hi Hf. unfold first_cell, agg_type, valid_key, is_float_agg in *. destruct (agg_operand_type op); cbn in *.
  4: { destruct (FloatsProof.expr_float_load_eq v Hi (Hf eq_refl)) as [_ Hexp]. split; [|done].
       assert (Hc : is_int64 (float_canonical_bits v) /\ float_bits_valid (float_canonical_bits v) = true).
       { split; [by apply float_canonical_int64|]. unfold float_canonical_bits. destruct (float_bits_zero v); [done|by apply Hf]. }
       rewrite FloatsProof.to_bits_of_bits by done. destruct (agg_fn op); split; intros; (apply Hc || done || by apply Hf). }
  all: split; [split; [destruct (agg_fn op); (done || mi)|done]|done].
Qed.

Lemma reduce_insert_ok e st acc x v at_ : represents st acc -> row_ok s x -> is_int64 v -> (is_float_agg op = true -> float_bits_valid v = true) ->
  (Z.to_nat at_ < length (rs_groups st))%nat -> row_key op s x ∉ acc.*1 -> (exists c, rs_groups st !! Z.to_nat at_ = Some c /\ c.1 = 0) ->
  indexed k hash_key (<[Z.to_nat at_ := (hash_key (row_key op s x), length acc)]> (rs_groups st)) (acc.*1 ++ [row_key op s x]) ->
  (exists st', reduce_insert e op s ai x v (hash_key (row_key op s x)) at_ st = Some (inl st') /\ represents st' (acc ++ [(row_key op s x, first_cell v)]) /\
     length (rs_groups st') = length (rs_groups st)) \/
  (reduce_insert e op s ai x v (hash_key (row_key op s x)) at_ st = Some (inr (rs_out st, ENOMEM)) /\ (re_grow e (nrows (rs_out st)) = true -> 2 ^ 31 <= Z.of_nat (length acc))).
Proof.
  intros H Hx Hi Hfv Hat Hnew (c0 & Hc0 & Hz) Hix. set (key := row_key op s x) in *. pose proof (represents_nrows st acc H) as Hn. pose proof (rp_sums _ _ H) as [Hls Hlc].
  destruct (first_ok v Hi Hfv) as [Hfirst Hcv]. destruct (rp_free _ _ H _ _ Hc0 Hz) as [Hs0 Hk0]. unfold reduce_insert.
  pose proof (eq_refl (first_cell v)) as Hfc. unfold first_cell at 2 in Hfc.
  destruct (agg_first (agg_fn op) (agg_operand_type op) v) as [first fl]. cbn [fst] in Hfirst, Hcv.
  destruct (fill_group_ok op s Hop x ai (rs_tmp st) first Hx Hai (rp_tmp _ _ H)) as (tmp & -> & Hw). cbn [mbind option_bind]. rewrite Hw. cbn [mbind option_bind].
  pose proof (new_row_ok op s Hop x ai first Hx Hai Hfirst) as Hrow. rewrite <-(rp_lanes _ _ H) in Hrow.
  assert (Hsums : exists sums counts, (if fl then wr (rs_sums st) (Z.to_nat at_) (of_bits v) else Some (rs_sums st)) = Some sums /\
    (if fl then wr (rs_counts st) (Z.to_nat at_) 1 else Some (rs_counts st)) = Some counts /\ length sums = length (rs_sums st) /\ length counts = length (rs_counts st) /\
    sums !! Z.to_nat at_ = Some (c_sum (first_cell v)) /\ counts !! Z.to_nat at_ = Some (c_count (first_cell v)) /\
    forall i, i <> Z.to_nat at_ -> sums !! i = rs_sums st !! i /\ counts !! i = rs_counts st !! i).
  { rewrite Hfc. destruct fl; cbn [c_sum c_count].
    - rewrite !wr_lt by lia. eexists _, _. split_and!; [done..|by rewrite length_insert|by rewrite length_insert|apply list_lookup_insert_eq; lia|apply list_lookup_insert_eq; lia|].
      intros i Hne. by rewrite !list_lookup_insert_ne.
    - eexists _, _. split_and!; done. }
  destruct Hsums as (sums & counts & -> & -> & Hl1 & Hl2 & Hv1 & Hv2 & Hother). cbn [mbind option_bind].
  destruct (append_row_exact (re_grow e (nrows (rs_out st))) (rs_out st) _ (rp_fits _ _ H) Hrow) as (out & rc & -> & Hk' & Hf & [(-> & Hn' & Hs)|(-> & -> & Hg)]); cbn [mbind option_bind Z.eqb negb ENOMEM].
  2: { right. split; [done|]. by rewrite <-Hn. }
  rewrite wr_lt by done. cbn [mbind option_bind]. left. eexists. split; [done|]. rewrite Hn', Nat.sub_1_r. cbn [Nat.pred]. rewrite Hn.
  split; [|cbn; by rewrite length_insert]. split; cbn [rs_out rs_groups rs_sums rs_counts rs_tmp].
  - by rewrite fmap_app.
  - rewrite fmap_app. cbn. apply NoDup_app. split_and!; [apply H| |apply NoDup_singleton]. intros y Hy ->%list_elem_of_singleton. done.
  - rewrite Hs, (rp_rows _ _ H), fmap_app, (rp_lanes _ _ H), canon_new_row by done. cbn. unfold out_row at 3. cbn [fst snd]. by rewrite Hcv.
  - done.
  - rewrite (kt_lanes _ _ Hk'). apply H.
  - apply Forall_app. split; [apply H|]. apply Forall_singleton. split; [apply length_row_key|]. cbn [snd]. rewrite Hcv. by apply canonical_cell_ok.
  - intros i h j p Hij Hne Hp. destruct (decide (i = Z.to_nat at_)) as [->|Hia].
    + rewrite list_lookup_insert_eq in Hij by done. injection Hij as <- <-. rewrite list_lookup_middle in Hp by done. injection Hp as <-. done.
    + rewrite list_lookup_insert_ne in Hij by done. destruct (Hother i Hia) as [-> ->]. eapply (rp_cells _ _ H); [exact Hij|done|].
      destruct (ix_only _ _ _ _ (rp_index _ _ H) i (h, j) Hij Hne) as (b & Hb & _). apply lookup_lt_Some in Hb. cbn in Hb. rewrite length_fmap in Hb. by rewrite lookup_app_l in Hp.
  - intros i c Hic Hc. destruct (decide (i = Z.to_nat at_)) as [->|Hia].
    + rewrite list_lookup_insert_eq in Hic by done. injection Hic as <-. cbn in Hc. by apply hash_key_nonzero in Hc.
    + rewrite list_lookup_insert_ne in Hic by done. destruct (Hother i Hia) as [-> ->]. by eapply (rp_free _ _ H).
  - rewrite length_insert. lia.
  - rewrite length_assemble, length_fmap, length_seq. done.
Qed.

(** ** The loop *)

(** The compiled operand is the interpreted one. *)
Lemma operand_compiled m1 m2 ce x nc w : ExprProof.is_buffer (agg_expr op) ->
  (if (length (agg_expr op) =? 0)%nat then Some None else compile m1 m2 (agg_expr op) table) = Some ce ->
  reduce_operand table sessions op ce x nc w = reduce_operand table sessions op None x nc w.
Proof.
  intros Hb Hce. unfold reduce_operand. destruct (if (_ <? _)%nat then _ else _) as [v|]; [|done]. cbn [mbind option_bind].
  destruct ce as [ce|]; [|done]. destruct (agg_fn op), (agg_expr op) as [|b buf] eqn:Hbuf; try done; cbn [length Nat.eqb] in Hce;
    (destruct (ExprProof.compile_agrees (W := W) m1 m2 (b :: buf) table Hb) as (r & Hr & Hc); rewrite Hce in Hr; injection Hr as <-; unfold eval_i64; rewrite (Hc ce eq_refl);
     unfold ExprProof.result; destruct (eval_compiled ce x (Z.of_nat nc) w) as [[rc val]|] eqn:He; [|done]; cbn [mbind option_bind];
     by destruct (ExprProof.eval_compiled_rc _ _ _ _ _ _ He) as [->| ->]).
Qed.

Lemma operand_code x w w' code : operand x w = Some (w', inr code) -> code = ERANGE.
Proof.
  unfold operand, reduce_operand. destruct (if (_ <? _)%nat then _ else _) as [v|]; [|done]. cbn [mbind option_bind].
  destruct (agg_fn op), (agg_expr op); try done; (destruct (eval_i64 _ _ _ _ _ _) as [[[w1 err] val]|]; [|done]; cbn [mbind option_bind]; destruct (err =? 0); [done|]; by intros [= _ <-]).
Qed.

Lemma next_cell_code w c v code : next_cell w c v = Some (inr code) -> code = ERANGE.
Proof.
  unfold next_cell, agg_update. destruct (agg_fn op); cbn [mbind option_bind]; [done| | | |].
  - destruct (match agg_operand_type op with OPERAND_FLOAT => true | _ => false end); [destruct (negb _); [by intros [= <-]|done]|].
    destruct (Arith.checked_add_int64 _ _ _) as [o|]; [|done]. cbn [mbind option_bind]. destruct (negb _); [by intros [= <-]|done].
  - destruct (match agg_operand_type op with OPERAND_FLOAT => true | _ => false end); [done|]. by destruct (col_agg_better _ _ _ _ _ _).
  - destruct (match agg_operand_type op with OPERAND_FLOAT => true | _ => false end); [done|]. by destruct (col_agg_better _ _ _ _ _ _).
  - destruct (match agg_operand_type op with OPERAND_FLOAT => true | _ => false end); [destruct (negb _); [by intros [= <-]|done]|done].
Qed.

(** How a row or a loop ends, given what the reference says. *)
Definition reduced (e : reduce_env) (bound : Prop) (size : nat) (res : option (W * (rstate + rel * Z))) (ref : W * (list group + Z)) (most : nat) : Prop :=
  (exists st acc, res = Some (ref.1, inl st) /\ ref.2 = inl acc /\ represents st acc /\ length (rs_groups st) = size /\ (length acc <= most)%nat) \/
  (exists out code, res = Some (ref.1, inr (out, code)) /\ ref.2 = inr code /\ code <> 0) \/
  (exists w out, res = Some (w, inr (out, ENOMEM)) /\ ((forall i, re_grow e i = true) -> bound)).

Definition row_step (x : row) (acc : list group) (w : W) : option (W * (list group + Z)) :=
  '(w, v) ← operand x w;
  match v with
  | inr code => Some (w, inr code)
  | inl v => if is_float_agg op && negb (float_bits_valid v) then Some (w, inr EINVAL) else u ← add_value w acc (row_key op s x) v; Some (w, u)
  end.

Lemma reduce_row_ok e ce x st acc w ref : (forall w', reduce_operand table sessions op ce x (ncols s) w' = operand x w') -> (forall w' w'' v, operand x w' = Some (w'', inl v) -> is_int64 v) ->
  represents st acc -> row_ok s x -> (length acc < length (rs_groups st))%nat -> row_step x acc w = Some ref ->
  reduced e (2 ^ 31 <= Z.of_nat (length acc)) (length (rs_groups st)) (reduce_row e table sessions op ai ce s x st w) ref (S (length acc)).
Proof.
  intros Hce Hint H Hx Hroom Href. unfold reduce_row. rewrite Hce. unfold row_step in Href. destruct (operand x w) as [[w1 [v|code]]|] eqn:Ho; [| |done]; cbn [mbind option_bind] in Href |- *.
  2: { injection Href as <-. right. left. eexists _, code. split; [done|]. split; [done|]. by rewrite (operand_code _ _ _ _ Ho). }
  destruct (is_float_agg op && negb (float_bits_valid v)) eqn:Hfv; [injection Href as <-; right; left; by eexists _, _|].
  rewrite (reduce_hash_ok op s Hop x Hx). cbn [mbind option_bind].
  destruct (reduce_find st acc x H Hx Hroom) as (found & at_ & -> & Hat & Hr). cbn [mbind option_bind]. unfold add_value in Href.
  destruct (list_find_key acc (row_key op s x) (rp_distinct _ _ H)) as [Hlf1 Hlf2]. destruct found.
  - destruct Hr as (j & c & Hj & Hg). rewrite (Hlf2 j c Hj) in Href. cbn [snd] in Href. destruct (next_cell w1 c v) as [u|] eqn:Hn; [|done]. cbn [mbind option_bind] in Href. injection Href as <-.
    pose proof (reduce_update_ok st acc w1 v at_ j _ c u H Hj Hg (Hint _ _ _ Ho) Hn) as Hu. destruct u as [c'|code].
    + destruct Hu as (st' & -> & Hst & Hlen). left. eexists st', _. split_and!; [done..|rewrite length_insert; lia].
    + rewrite Hu. right. left. eexists _, code. split; [done|]. split; [done|]. by rewrite (next_cell_code _ _ _ _ Hn).
  - destruct Hr as (Hnot & Hfree & Hix). destruct (list_find _ acc) as [[j p]|].
    { destruct Hlf1 as [Hp1 Hp2]. exfalso. apply Hnot. rewrite <-Hp2. apply list_elem_of_fmap_2. by eapply list_elem_of_lookup_2. }
    cbn [mbind option_bind] in Href. injection Href as <-.
    destruct (reduce_insert_ok e st acc x v at_ H Hx (Hint _ _ _ Ho)) as [(st' & -> & Hst & Hlen)|[-> Hg]]; [|done..| |].
    + intros Hf. rewrite Hf in Hfv. by destruct (float_bits_valid v).
    + left. eexists st', _. split_and!; [done..|]. rewrite length_app. cbn. lia.
    + right. right. eexists _, _. split; [done|]. intros Hg'. by apply Hg.
Qed.

Lemma grouped_cons x l acc w : grouped (x :: l) acc w = ('(w, u) ← row_step x acc w; match u with inr code => Some (w, inr code) | inl acc => grouped l acc w end).
Proof.
  cbn [grouped]. unfold row_step. destruct (operand x w) as [[w1 [v|code]]|]; [|done..]. cbn [mbind option_bind]. destruct (_ && _); [done|].
  by destruct (add_value w1 acc (row_key op s x) v) as [[|]|].
Qed.

Lemma reduce_loop_ok e ce (r : rel) : lanes r = s -> readable r -> (forall x w, reduce_operand table sessions op ce x (ncols s) w = operand x w) ->
  (forall x w w' v, x ∈ stored r -> operand x w = Some (w', inl v) -> is_int64 v) ->
  forall n i st acc w ref, (i + n = nrows r)%nat -> represents st acc -> (length acc <= i)%nat -> (nrows r < length (rs_groups st))%nat ->
    grouped (drop i (stored r)) acc w = Some ref ->
    reduced e (2 ^ 31 <= Z.of_nat (nrows r)) (length (rs_groups st)) (reduce_loop n e table sessions op ai ce r i st w) ref (nrows r).
Proof.
  intros Hl Hr Hce Hint. pose proof (length_stored r (proj1 Hr)) as Hls. induction n as [|n IH]; intros i st acc w ref Hi H Hacc Hroom Href; cbn [reduce_loop].
  { rewrite drop_ge in Href by lia. cbn in Href. injection Href as <-. left. exists st, acc. split_and!; (done || lia). }
  destruct (scan_row r i Hr ltac:(lia)) as (x & -> & Hx & _ & Hxok & Hd). cbn [mbind option_bind]. rewrite Hx. cbn [mbind option_bind]. rewrite Hd, grouped_cons in Href. rewrite Hl in Hxok |- *.
  assert (Hin : x ∈ stored r) by (rewrite <-(take_drop i (stored r)), Hd; apply elem_of_app; right; by left).
  destruct (row_step x acc w) as [[w1 u]|] eqn:Hstep; [|done]. cbn [mbind option_bind] in Href.
  destruct (reduce_row_ok e ce x st acc w (w1, u) (Hce x) (fun w' w'' v => Hint x w' w'' v Hin) H Hxok ltac:(lia) Hstep)
    as [(st' & acc' & -> & Hu & H' & Hlen & Hmost)|[(out & code & -> & Hu & Hcode)|(w2 & out & -> & Hg)]]; cbn [mbind option_bind fst snd] in *.
  - subst u. rewrite <-Hlen. apply (IH (S i) st' acc' w1); (done || lia).
  - subst u. injection Href as <-. right. left. by exists out, code.
  - right. right. exists w2, out. split; [done|]. intros Hgr. specialize (Hg Hgr). lia.
Qed.

End Grouping.

(** ** The operator *)

Section Operator.

Context {W : Type} `{!Host W} {K : Type}.

(** Every allocation succeeds, but for the compiled operand. *)
Definition reduce_lucky (e : reduce_env) : Prop :=
  re_out e = true /\ re_types e = true /\ set_types_rc e = 0 /\ re_tmp e = true /\ re_row e = true /\ re_groups e = true /\ re_sums e = true /\ forall i, re_grow e i = true.

Definition agg_position (op : reduce_op) : nat := if (aggregate_index op <? group_by_count op + 1)%nat then aggregate_index op else group_by_count op.

Lemma agg_position_le op : (agg_position op <= group_by_count op)%nat.
Proof. unfold agg_position. destruct (Nat.ltb_spec (aggregate_index op) (group_by_count op + 1)); lia. Qed.

(** How the operator ends: the rows of the groups are on the stack, or it
    reports the code of the reference, or an allocation failed. *)
Definition reduces_to (e : reduce_env) (op : reduce_op) (r : rel) (own : bool) (rest : stack K) (ref : W * (list (list Z * cell) + Z)) (res : W * stack K * Z * list (resource K)) : Prop :=
  let '(w, s', rc, freed) := res in
  let input := if own then [F_relation r] else [] in
  (rc = 0 /\ w = ref.1 /\ freed = input /\ exists acc out, ref.2 = inl acc /\ s' = En (Some out) true false None 0 ENTRY_RELATION None :: rest /\
     lanes out = out_shape op r (agg_position op) /\ fits out /\ stored out = out_row (agg_position op) <$> acc) \/
  (rc <> 0 /\ w = ref.1 /\ ref.2 = inr rc /\ s' = rest /\ exists out, freed = F_relation out :: input) \/
  (rc <> 0 /\ s' = rest /\ (freed = input \/ exists out, freed = F_relation out :: input) /\ (reduce_lucky e -> rc = ENOMEM /\ 2 ^ 30 < Z.of_nat (nrows r))).

(** The first state: no group. *)
Lemma represents_empty op s k ai n : 0 <= k <= 31 -> Z.of_nat n = 2 ^ k ->
  represents op s k ai (RState (set_types (Some (out_types op s ai)) (new_auto true (group_by_count op + 1))) (replicate n (0, O)) (replicate n (S754_zero false)) (replicate n 0) (replicate (group_by_count op + 1) 0)) [].
Proof.
  intros Hk Hn. split; cbn [rs_out rs_groups rs_sums rs_counts rs_tmp]; rewrite ?length_replicate.
  - by apply indexed_empty.
  - constructor.
  - done.
  - unfold fits, new_auto, set_types. cbn [nrows capacity rows orb]. rewrite length_replicate. lia.
  - done.
  - constructor.
  - done.
  - intros i c Hi _. apply lookup_lt_Some in Hi. rewrite length_replicate in Hi. by rewrite !lookup_replicate_2.
  - done.
  - lia.
Qed.

Lemma reduce_finish e op (r : rel) own delta segs nseg rest (ref : W * (list (list Z * cell) + Z)) k size res bound :
  (length rest < COL_STACK_MAX)%nat -> reduced op r k (agg_position op) e bound size res ref (nrows r) -> (bound -> 2 ^ 30 < Z.of_nat (nrows r)) ->
  exists out, ('(w, u) ← res; let '(out, rc) := match u with inl st => (rs_out st, 0) | inr (out, rc) => (out, rc) end in
    let '(s, rc, freed) := finish rest (En (Some r) own delta segs nseg ENTRY_RELATION None) r out rc in Some (w, s, rc, freed)) = Some out /\ reduces_to e op r own rest ref out.
Proof.
  intros Hrest Hred Hb. unfold finish. cbn [owned]. destruct Hred as [(st & acc & -> & Href & H & _)|[(out & code & -> & Href & Hcode)|(w & out & -> & Hg)]]; cbn [mbind option_bind].
  - cbn [Z.eqb negb]. unfold eval_stack_push. rewrite (proj2 (Nat.leb_gt _ _)) by done. eexists. split; [done|]. left. split_and!; [done..|]. exists acc, (rs_out st). split_and!; [done..| | |]; apply H.
  - rewrite (proj2 (Z.eqb_neq code 0)) by done. cbn [negb]. eexists. split; [done|]. right. left. split_and!; [done..|]. eauto.
  - cbn [Z.eqb negb ENOMEM]. eexists. split; [done|]. right. right. split_and!; [done..|by right; eexists|]. intros (_ & _ & _ & _ & _ & _ & _ & Hgr). split; [done|]. by apply Hb, Hg.
Qed.

Lemma col_op_reduce_ok e table sessions op rest r own delta segs nseg (w : W) ref :
  ExprProof.is_buffer (agg_expr op) -> readable r -> op_ok op r -> (length rest < COL_STACK_MAX)%nat ->
  (forall x w w' v, x ∈ stored r -> operand table sessions op r x w = Some (w', inl v) -> is_int64 v) ->
  grouped table sessions op r (stored r) [] w = Some ref ->
  exists res, col_op_reduce e table sessions op (En (Some r) own delta segs nseg ENTRY_RELATION None :: rest) w = Some res /\ reduces_to e op r own rest ref res.
Proof.
  intros Hbuf Hr Hop Hrest Hint Href. unfold col_op_reduce. cbn [eval_stack_pop_relation eval_stack_pop kind e_rel owned Z.eqb negb ENTRY_CONTINUATION ENTRY_RELATION].
  fold (agg_position op). pose proof (agg_position_le op) as Hai.
  assert (Hfail : forall rc freed, rc <> 0 -> (freed = (if own then [F_relation r] else []) \/ exists out, freed = F_relation out :: (if own then [F_relation r] else [])) -> (reduce_lucky e -> rc = ENOMEM /\ 2 ^ 30 < Z.of_nat (nrows r)) ->
    exists res, Some (w, rest, rc, freed) = Some res /\ reduces_to e op r own rest ref res).
  { intros rc freed H1 H2 H3. eexists. split; [done|]. right. right. done. }
  destruct (re_out e) eqn:H1; cbn [negb]; [|apply Hfail; [done|by left|intros L; destruct L; congruence]].
  destruct (re_types e) eqn:H2; cbn [negb]; [|apply Hfail; [done|by right; eexists|intros (? & ? & _); congruence]].
  rewrite (reduce_types_ok op r Hop (agg_position op) Hai). cbn [mbind option_bind].
  destruct (Z.eqb_spec (set_types_rc e) 0) as [H3|H3]; cbn [negb]; [|apply Hfail; [done|by right; eexists|intros (? & ? & ? & _); congruence]].
  destruct (re_tmp e) eqn:H4; cbn [negb]; [|apply Hfail; [done|by right; eexists|intros (? & ? & ? & ? & _); congruence]].
  destruct (if (length (agg_expr op) =? 0)%nat then _ else _) as [ce|] eqn:Hce.
  2: { destruct (length (agg_expr op) =? 0)%nat; [done|]. destruct (ExprProof.compile_agrees (W := W) (re_compile e) (re_instrs e) (agg_expr op) table Hbuf) as (? & ? & _). congruence. }
  cbn [mbind option_bind].
  destruct (negb ((ncols r <=? 32)%nat || re_row e)) eqn:H5.
  { apply Hfail; [done|by right; eexists|]. intros (? & ? & ? & ? & H6 & _). by rewrite H6, orb_true_r in H5. }
  destruct (map_capacity_ok (Z.of_nat (Nat.max (nrows r) 1)) ltac:(lia)) as [(Hsmall & k & Hk & -> & Hcap)|(Hbig & ->)].
  2: { apply Hfail; [done|by right; eexists|]. intros _. split; [done|lia]. }
  destruct (negb (re_groups e) || negb (re_sums e)) eqn:H7.
  { apply Hfail; [done|by right; eexists|]. intros (? & ? & ? & ? & ? & H8 & H9 & _). by rewrite H8, H9 in H7. }
  pose proof (Z.pow_pos_nonneg 2 k ltac:(lia) ltac:(lia)) as Hp.
  eapply (reduce_finish e op r own delta segs nseg rest ref k); [done| |].
  - eapply (reduce_loop_ok table sessions op r k Hk (agg_position op) Hai Hop e ce r eq_refl Hr).
    + intros x w0. by eapply operand_compiled.
    + done.
    + lia.
    + apply represents_empty; [done|]. by rewrite Z2Nat.id by lia.
    + cbn. lia.
    + cbn. rewrite length_replicate. lia.
    + by rewrite drop_0.
  - lia.
Qed.

End Operator.

End ReduceProof.
