(* ===== verification/ReduceSpec.v ===== *)
(** * What the aggregations compute

    The groups of [grouped] in terms of the values of each group, the
    reduction of a relation in place, which computes the same groups, and the
    inputs on which the two reducers depart from what they mean. *)

From Stdlib Require Import SpecFloat.
From S2P Require Import Prelude Arithmetic RadixSort Relation Consolidate ConsolidateProof DeltaSpec StringOps Floats Expr ExprCompile ExprProof EvalStack Filter FilterProof RowOps GroupTable ReduceProof.

Module ReduceSpec.

Import Keys Rel Consolidate ConsolidateProof StringOps.StringOps Floats.Floats Expr.Expr ExprCompile.ExprCompile EvalStack.EvalStack Filter.Filter FilterProof.FilterProof RowOps.RowOps GroupTable.GroupTable ReduceProof.ReduceProof.

Section Values.

Context {W : Type} `{!Host W} (table : bool) (op : reduce_op).

(** Keys and values one after the other. *)
Fixpoint add_all (w : W) (acc : list (list Z * cell)) (l : list (list Z * Z)) : option (list (list Z * cell) + Z) :=
  match l with
  | [] => Some (inl acc)
  | (key, v) :: l' => u ← add_value table op w acc key v; match u with inl acc => add_all w acc l' | inr code => Some (inr code) end
  end.

(** Integer domains. *)
Definition int_domain : Prop := agg_operand_type op = OPERAND_SCALAR \/ agg_operand_type op = OPERAND_UNKNOWN.

Definition zsum (l : list Z) : Z := foldr Z.add 0 l.

(** [v] is the aggregate of the values [vs]; an average of integers is never
    planned, and the code keeps the first value. *)
Definition aggregate_of (fn : agg_op) (vs : list Z) (v : Z) : Prop :=
  match fn with
  | COUNT => v = Z.of_nat (length vs)
  | SUM => v = zsum vs
  | MIN => v ∈ vs /\ forall u, u ∈ vs -> v <= u
  | MAX => v ∈ vs /\ forall u, u ∈ vs -> u <= v
  | AVG => head vs = Some v
  end.

Definition values_of (key : list Z) (l : list (list Z * Z)) : list Z := snd <$> filter (fun p => p.1 = key) l.

Lemma values_of_snoc key l key' v : values_of key (l ++ [(key', v)]) = values_of key l ++ (if decide (key' = key) then [v] else []).
Proof. unfold values_of. rewrite filter_app, fmap_app. f_equal. rewrite filter_cons, filter_nil. cbn. by case_decide. Qed.

Lemma zsum_snoc l v : zsum (l ++ [v]) = zsum l + v.
Proof. unfold zsum. induction l as [|x l IH]; cbn; lia. Qed.

Context (Hint : int_domain).

Lemma int_not_float : is_float_agg op = false.
Proof. unfold is_float_agg. by destruct Hint as [-> | ->]. Qed.

Lemma first_aggregate v : aggregate_of (agg_fn op) [v] (c_val (first_cell op v)).
Proof.
  unfold first_cell, agg_first. destruct Hint as [-> | ->]; destruct (agg_fn op); cbn; rewrite ?Z.add_0_r; try done; (split; [by left|]); intros u ->%list_elem_of_singleton; lia.
Qed.

(** A value more: the aggregate of the longer list, or an overflow of a sum. *)
Lemma next_aggregate w c v vs : is_int64 v -> is_int64 (c_val c) -> Z.of_nat (length vs) < 2 ^ 62 -> aggregate_of (agg_fn op) vs (c_val c) ->
  (exists c', next_cell table op w c v = Some (inl c') /\ aggregate_of (agg_fn op) (vs ++ [v]) (c_val c') /\ is_int64 (c_val c')) \/
  (next_cell table op w c v = Some (inr ERANGE) /\ agg_fn op = SUM /\ ~ is_int64 (zsum (vs ++ [v]))).
Proof.
  intros Hv Hc Hlen Hag. unfold next_cell, new_val, agg_type. rewrite int_not_float. cbn [andb]. unfold canonical_cell. cbn [is_float andb].
  change (is_float TYPE_INT64) with false. cbn [andb]. unfold agg_update, col_agg_better.
  assert (Hdom : forall A (x y : A), match agg_operand_type op with OPERAND_FLOAT => x | _ => y end = y) by (by destruct Hint as [-> | ->]). rewrite !Hdom.
  assert (Hstr : forall A (x y : A), match agg_operand_type op with OPERAND_STRING => x | _ => y end = y) by (by destruct Hint as [-> | ->]).
  destruct (agg_fn op); cbn [mbind option_bind aggregate_of] in *.
  - left. eexists. split; [done|]. cbn [c_val]. rewrite length_app. cbn [length]. rewrite i64_small by (rewrite Hag; mi). split; [lia|rewrite Hag; mi].
  - pose proof (Arith.add_checks _ _ 0 Hc Hv) as Hadd. unfold Arith.checks in Hadd. rewrite !Hadd. cbn [mbind option_bind]. rewrite zsum_snoc, <-Hag. case_decide as Hfit; cbn; [left|right]; [|by split_and!].
    eexists. split; [done|]. cbn. done.
  - left. rewrite Hstr. cbn [mbind option_bind int_better]. destruct Hag as [Hin Hle]. destruct (Z.ltb_spec v (c_val c)); (eexists; split; [done|]; cbn [c_val]; split; [|done]).
    + split; [apply elem_of_app; right; by left|]. intros u [Hu|Hu]%elem_of_app; [specialize (Hle u Hu); lia|apply list_elem_of_singleton in Hu; lia].
    + split; [apply elem_of_app; by left|]. intros u [Hu|Hu]%elem_of_app; [by apply Hle|apply list_elem_of_singleton in Hu; lia].
  - left. rewrite Hstr. cbn [mbind option_bind int_better]. destruct Hag as [Hin Hle]. destruct (Z.ltb_spec (c_val c) v); (eexists; split; [done|]; cbn [c_val]; split; [|done]).
    + split; [apply elem_of_app; right; by left|]. intros u [Hu|Hu]%elem_of_app; [specialize (Hle u Hu); lia|apply list_elem_of_singleton in Hu; lia].
    + split; [apply elem_of_app; by left|]. intros u [Hu|Hu]%elem_of_app; [by apply Hle|apply list_elem_of_singleton in Hu; lia].
  - left. eexists. split; [done|]. cbn [c_val]. split; [|done]. by destruct vs.
Qed.

(** The groups of what was added so far. *)
Record summarises (acc : list (list Z * cell)) (l : list (list Z * Z)) : Prop := {
  su_distinct : NoDup acc.*1;
  su_keys : forall key, key ∈ acc.*1 <-> key ∈ l.*1;
  su_values : forall key c, (key, c) ∈ acc -> aggregate_of (agg_fn op) (values_of key l) (c_val c) /\ is_int64 (c_val c) }.

Lemma summarises_step w acc l key v : summarises acc l -> is_int64 v -> Z.of_nat (length l) < 2 ^ 62 ->
  (exists acc', add_value table op w acc key v = Some (inl acc') /\ summarises acc' (l ++ [(key, v)])) \/
  (add_value table op w acc key v = Some (inr ERANGE) /\ agg_fn op = SUM /\ ~ is_int64 (zsum (values_of key (l ++ [(key, v)])))).
Proof.
  intros [Hnd Hkeys Hval] Hv Hlen. unfold add_value. destruct (list_find_key acc key Hnd) as [Hf _]. destruct (list_find _ acc) as [[j [key' c]]|] eqn:Hfind.
  - destruct Hf as [Hj Hk]. cbn [fst] in Hk. subst key'. cbn [snd]. destruct (Hval key c) as [Hag Hci]; [by eapply list_elem_of_lookup_2|].
    assert (Hl : (length (values_of key l) <= length l)%nat) by (unfold values_of; rewrite length_fmap; apply length_filter).
    destruct (next_aggregate w c v (values_of key l) Hv Hci ltac:(lia) Hag) as [(c' & -> & Hag' & Hci')|(-> & Hs & Hov)]; cbn [mbind option_bind].
    + left. eexists. split; [done|]. assert (Hfst : (<[j := (key, c')]> acc).*1 = acc.*1) by (rewrite list_fmap_insert; apply list_insert_id; by rewrite list_lookup_fmap, Hj).
      split; [by rewrite Hfst| |].
      * intros k. rewrite Hfst, Hkeys, fmap_app, elem_of_app. cbn. rewrite list_elem_of_singleton. split; [by left|]. intros [?| ->]; [done|]. apply Hkeys. change key with ((key, c).1). apply list_elem_of_fmap_2. by eapply list_elem_of_lookup_2.
      * intros k ck [i Hi]%list_elem_of_lookup. rewrite values_of_snoc. destruct (decide (i = j)) as [->|Hne].
        -- rewrite list_lookup_insert_eq in Hi by (by eapply lookup_lt_Some). injection Hi as <- <-. by rewrite decide_True.
        -- rewrite list_lookup_insert_ne in Hi by done. rewrite decide_False, app_nil_r; [apply Hval; by eapply list_elem_of_lookup_2|].
           intros ->. apply Hne. eapply NoDup_lookup; [exact Hnd|rewrite list_lookup_fmap, Hi|rewrite list_lookup_fmap, Hj]; done.
    + right. rewrite values_of_snoc, decide_True by done. done.
  - left. eexists. split; [done|]. assert (Hnew : values_of key l = []).
    { unfold values_of. rewrite filter_none; [done|]. intros p Hp <-. apply Hf, Hkeys. by apply list_elem_of_fmap_2. }
    split.
    + rewrite fmap_app. apply NoDup_app. split_and!; [done| |apply NoDup_singleton]. intros k Hk ->%list_elem_of_singleton. done.
    + intros k. rewrite !fmap_app, !elem_of_app, Hkeys. done.
    + intros k ck [Hin|Hin]%elem_of_app; rewrite values_of_snoc.
      * rewrite decide_False, app_nil_r; [by apply Hval|]. intros ->. apply Hf. change k with ((k, ck).1). by apply list_elem_of_fmap_2.
      * apply list_elem_of_singleton in Hin. injection Hin as -> ->. rewrite decide_True, Hnew by done. split; [apply first_aggregate|].
        destruct (first_ok op v Hv) as [Hvk Hcv]; [by rewrite int_not_float|]. rewrite Hcv. by apply canonical_cell_ok.
Qed.

(** Every list of int64 values is summarised, unless a sum overflows. *)
Lemma add_all_ok w l : forall acc l0, summarises acc l0 -> Forall (fun p => is_int64 p.2) l -> Z.of_nat (length (l0 ++ l)) < 2 ^ 62 ->
  (exists acc', add_all w acc l = Some (inl acc') /\ summarises acc' (l0 ++ l)) \/ (add_all w acc l = Some (inr ERANGE) /\ agg_fn op = SUM /\
    exists key n, ~ is_int64 (zsum (values_of key (take n (l0 ++ l))))).
Proof.
  induction l as [|[key v] l IH]; intros acc l0 Hs Hi Hlen; cbn [add_all]; [left; exists acc; by rewrite app_nil_r|]. apply Forall_cons in Hi as [Hv Hi].
  rewrite length_app in Hlen. cbn [length] in Hlen.
  destruct (summarises_step w acc l0 key v Hs Hv ltac:(lia)) as [(acc' & -> & Hs')|(-> & Hsum & Hov)]; cbn [mbind option_bind].
  - replace (l0 ++ (key, v) :: l) with ((l0 ++ [(key, v)]) ++ l) by (by rewrite <-app_assoc). apply IH; [done..|]. rewrite !length_app. cbn. lia.
  - right. split; [done|]. split; [done|]. exists key, (S (length l0)). replace (take (S (length l0)) (l0 ++ (key, v) :: l)) with (l0 ++ [(key, v)]); [done|].
    rewrite take_app_ge by lia. f_equal. by replace (S (length l0) - length l0)%nat with 1%nat by lia.
Qed.

Lemma summarises_nil : summarises [] [].
Proof. split; [constructor|done|]. intros key c H. by apply not_elem_of_nil in H. Qed.

End Values.

(** ** Reduction in place *)

Section InPlace.

Context {W : Type} `{!Host W} (table : bool) (sp : agg_spec) (w : W).

(** The position of the aggregate in a relation of [gc + 1] columns. *)
Definition spec_index : nat := if (sp_aggregate_index sp <? sp_group_by_count sp + 1)%nat then sp_aggregate_index sp else sp_group_by_count sp.

Abbreviation gc := (sp_group_by_count sp).
Abbreviation ai := spec_index.

(** The operator whose groups these are. *)
Definition spec_op : reduce_op := Rop (sp_fn sp) None gc ai [] (sp_operand_type sp).

Lemma spec_index_le : (ai <= gc)%nat.
Proof. unfold spec_index. destruct (Nat.ltb_spec (sp_aggregate_index sp) (gc + 1)); lia. Qed.

(** Key and value of a row. *)
Definition row_entry (x : row) : list Z * Z := ((fun k => x !!! out_col ai k) <$> seq 0 gc, x !!! ai).

Lemma row_split x : length x = S gc -> x = assemble ai (row_entry x).1 (row_entry x).2.
Proof.
  intros Hl. pose proof spec_index_le as Ha. apply (assemble_ext ai gc); [done|unfold row_entry; cbn; by rewrite length_fmap, length_seq|done|exact (list_lookup_lookup_total_lt x ai ltac:(lia))|].
  intros k Hk. unfold row_entry. cbn [fst]. rewrite list_lookup_fmap, lookup_seq_lt by done. apply list_lookup_lookup_total_lt. unfold out_col.
  destruct (ai <=? 0 + k)%nat; lia.
Qed.

Lemma length_entry x : length (row_entry x).1 = gc.
Proof. unfold row_entry. cbn. by rewrite length_fmap, length_seq. Qed.

Lemma group_hash_ok key v : length key = gc -> group_hash_from gc (assemble ai key v) ai 0 GROUP_HASH_SEED = Some (hash_key key).
Proof.
  intros Hl. pose proof spec_index_le as Ha. unfold hash_key.
  enough (H : forall n k h, (k + n = gc)%nat -> group_hash_from n (assemble ai key v) ai k h = Some (nonzero_hash (foldl mix h (drop k key)))) by (by rewrite H).
  induction n as [|n IH]; intros k h Hk; cbn [group_hash_from]; [by rewrite drop_ge by lia|]. destruct (lookup_lt_is_Some_2 key k ltac:(lia)) as [c Hc].
  unfold rd. rewrite assemble_col by lia. rewrite Hc. cbn [mbind option_bind]. rewrite (drop_S key c k Hc). cbn [foldl]. apply IH. lia.
Qed.

Lemma group_equal_ok k1 v1 k2 v2 : length k1 = gc -> length k2 = gc -> group_equal gc (assemble ai k1 v1) (assemble ai k2 v2) ai 0 = Some (bool_decide (k1 = k2)).
Proof.
  intros H1 H2. pose proof spec_index_le as Ha.
  enough (H : forall n k, (k + n = gc)%nat -> group_equal n (assemble ai k1 v1) (assemble ai k2 v2) ai k = Some (bool_decide (drop k k1 = drop k k2))) by (by rewrite H).
  induction n as [|n IH]; intros k Hk; cbn [group_equal]; [rewrite !drop_ge by lia; by rewrite bool_decide_true|].
  destruct (lookup_lt_is_Some_2 k1 k ltac:(lia)) as [c1 Hc1]. destruct (lookup_lt_is_Some_2 k2 k ltac:(lia)) as [c2 Hc2].
  unfold rd. rewrite !assemble_col by lia. rewrite Hc1, Hc2. cbn [mbind option_bind]. rewrite (drop_S k1 c1 k Hc1), (drop_S k2 c2 k Hc2). destruct (Z.eqb_spec c1 c2) as [<-|Hne]; cbn [negb].
  - rewrite (IH (S k)) by lia. f_equal. apply bool_decide_ext. split; [by intros ->|by intros [= ->]].
  - symmetry. f_equal. apply bool_decide_eq_false_2. intros [= H _]. done.
Qed.

(** A minimum or a maximum, of numbers or strings. *)
Definition ordered_spec : Prop := (sp_fn sp = MIN \/ sp_fn sp = MAX) /\ sp_operand_type sp <> OPERAND_FLOAT.

Lemma spec_not_float : ordered_spec -> is_float_agg spec_op = false.
Proof. intros [_ Hd]. unfold is_float_agg. cbn. by destruct (sp_operand_type sp). Qed.

(** What the reference does with a value of a group that is there. *)
Lemma next_ordered c v : ordered_spec -> next_cell table spec_op w c v =
  (better ← col_agg_better (sp_fn sp) (sp_operand_type sp) table w v (c_val c); Some (inl (Cell (if better : bool then v else c_val c) (c_sum c) (c_count c)))).
Proof.
  intros Ho. pose proof (spec_not_float Ho) as Hf. destruct Ho as [Hfn Hd]. unfold next_cell, new_val, agg_type. rewrite Hf. cbn [andb]. unfold canonical_cell. change (is_float TYPE_INT64) with false. cbn [andb].
  unfold agg_update, spec_op. cbn [agg_fn agg_operand_type]. assert (Hdom : forall A (x y : A), match sp_operand_type sp with OPERAND_FLOAT => x | _ => y end = y) by (by destruct (sp_operand_type sp)).
  destruct Hfn as [-> | ->]; rewrite Hdom; (destruct (col_agg_better _ _ _ _ _ _) as [[|]|]; done).
Qed.

Lemma first_ordered v : ordered_spec -> c_val (first_cell spec_op v) = v.
Proof. intros [Hfn Hd]. unfold first_cell, agg_first, spec_op. cbn [agg_fn agg_operand_type]. destruct (sp_operand_type sp); (done || destruct Hfn as [-> | ->]; done). Qed.

(** After [i] rows of [l0]. *)
Record compacted (k : Z) (l0 : list row) (i : nat) (st : list row * list slot * nat * bool) (acc : list (list Z * cell)) : Prop := {
  cp_length : length st.1.1.1 = length l0;
  cp_out : st.1.2 = length acc /\ (length acc <= i)%nat;
  cp_rows : take (length acc) st.1.1.1 = out_row ai <$> acc;
  cp_rest : drop i st.1.1.1 = drop i l0;
  cp_index : indexed k hash_key st.1.1.2 acc.*1;
  cp_keys : NoDup acc.*1 /\ Forall (fun p => length p.1 = gc) acc;
  cp_same : st.2 = false -> st.1.1.1 = l0 }.

Lemma compacted_row k l0 i st acc j p : compacted k l0 i st acc -> acc !! j = Some p -> st.1.1.1 !! j = Some (out_row ai p) /\ (j < length acc)%nat.
Proof.
  intros H Hj. pose proof (lookup_lt_Some _ _ _ Hj) as Hlt. split; [|done]. rewrite <-(lookup_take_lt _ (length acc)) by done. by rewrite (cp_rows _ _ _ _ _ H), list_lookup_fmap, Hj.
Qed.

(** The walk of row [i]. *)
Lemma compacted_find k l0 i l groups out changed acc x : 0 <= k <= 31 -> compacted k l0 i (l, groups, out, changed) acc -> l !! i = Some x -> length x = S gc -> (length acc < length groups)%nat ->
  exists found at_, find_group (length groups) (fun g => if g.1 =? hash_key (row_entry x).1 then col_reduce_output_group_equal l g.2 i gc ai else Some false)
      groups (Z.of_nat (length groups) - 1) (Z.land (u32 (hash_key (row_entry x).1)) (Z.of_nat (length groups) - 1)) = Some (found, at_) /\ (Z.to_nat at_ < length groups)%nat /\
    if found : bool then exists j c, acc !! j = Some ((row_entry x).1, c) /\ groups !! Z.to_nat at_ = Some (hash_key (row_entry x).1, j)
    else (row_entry x).1 ∉ acc.*1 /\ indexed k hash_key (<[Z.to_nat at_ := (hash_key (row_entry x).1, length acc)]> groups) (acc.*1 ++ [(row_entry x).1]).
Proof.
  intros Hk H Hi Hx Hlt. set (key := (row_entry x).1). destruct (cp_keys _ _ _ _ _ H) as [_ Hlens].
  destruct (indexed_find k Hk hash_key hash_key_nonzero (fun g => if g.1 =? hash_key key then col_reduce_output_group_equal l g.2 i gc ai else Some false) groups acc.*1 key (cp_index _ _ _ _ _ H))
    as (found & at_ & Hf & Hat & Hr); [by rewrite length_fmap| |].
  - intros n c b Hn Hc Hb Hh. rewrite list_lookup_fmap in Hb. destruct (acc !! c.2) as [p|] eqn:Hp; [|done]. injection Hb as <-.
    destruct (compacted_row _ _ _ _ _ _ _ H Hp) as [Hrow _]. cbn [fst] in Hrow. rewrite Hh. destruct (Z.eqb_spec (hash_key p.1) (hash_key key)) as [|Hne].
    + unfold col_reduce_output_group_equal, rd. rewrite Hrow, Hi. cbn [mbind option_bind]. rewrite (row_split x Hx). apply group_equal_ok; [exact (Forall_lookup_1 _ _ _ _ Hlens Hp)|apply length_entry].
    + symmetry. f_equal. apply bool_decide_eq_false_2. congruence.
  - exists found, at_. split; [done|]. split; [done|]. destruct found; [|rewrite length_fmap in Hr; tauto]. destruct Hr as (j & Hj & Hg). rewrite list_lookup_fmap in Hj.
    destruct (acc !! j) as [[kk c]|] eqn:Hp; [|done]. injection Hj as ->. by exists j, c.
Qed.

Lemma canonicalize_row_ok k l0 i st acc x u : 0 <= k <= 31 -> ordered_spec -> compacted k l0 i st acc -> l0 !! i = Some x -> length x = S gc -> (length acc < length st.1.1.2)%nat ->
  add_value table spec_op w acc (row_entry x).1 (row_entry x).2 = Some u ->
  exists st' acc', canonicalize_row table sp ai w i st = Some st' /\ u = inl acc' /\ compacted k l0 (S i) st' acc' /\ length st'.1.1.2 = length st.1.1.2.
Proof.
  intros Hk Hord H Hx0 Hlen Hroom Hu. destruct st as [[[l groups] out] changed]. pose proof H as [Hl [Ho Hle] Hrows Hrest Hix [Hnd Hks] Hsame]. cbn [fst snd] in *. pose proof spec_index_le as Hai.
  assert (Hx : l !! i = Some x). { rewrite <-(Nat.add_0_r i), <-lookup_drop, Hrest, lookup_drop, Nat.add_0_r. done. }
  pose proof (row_split x Hlen) as Hsplit. pose proof (lookup_lt_Some _ _ _ Hx) as Hil. unfold canonicalize_row, col_group_hash, rd. rewrite Hx. cbn [mbind option_bind].
  assert (Hh : group_hash_from gc x ai 0 GROUP_HASH_SEED = Some (hash_key (row_entry x).1)) by (rewrite Hsplit at 1; apply group_hash_ok, length_entry). rewrite Hh. cbn [mbind option_bind].
  destruct (compacted_find k l0 i l groups out changed acc x Hk H Hx Hlen Hroom) as (found & at_ & -> & Hat & Hf). cbn [mbind option_bind].
  pose proof (length_entry x) as Hkl. set (key := (row_entry x).1) in *. set (v := (row_entry x).2) in *. assert (Hdrop : forall n y, (n < i)%nat -> drop (S i) (<[n := y]> l) = drop (S i) l0).
  { intros n y Hn. rewrite drop_insert_lt by lia. by rewrite <-(Nat.add_1_r i), <-!drop_drop, Hrest. }
  assert (Hdrop1 : drop (S i) l = drop (S i) l0) by (by rewrite <-(Nat.add_1_r i), <-!drop_drop, Hrest).
  unfold add_value in Hu. destruct (list_find_key acc key Hnd) as [Hlf1 Hlf2]. destruct found.
  - destruct Hf as (j & c & Hj & Hg). rewrite (Hlf2 j c Hj) in Hu. cbn [snd] in Hu. rewrite (next_ordered c v Hord) in Hu. rewrite Hg. cbn [mbind option_bind snd].
    destruct (compacted_row _ _ _ _ _ _ _ H Hj) as [Hrow Hjl]. cbn [fst] in Hrow. rewrite Hrow. cbn [mbind option_bind].
    assert (Hcell : out_row ai (key, c) !! ai = Some (c_val c)) by (apply assemble_agg; cbn [fst]; lia). rewrite Hcell. cbn [mbind option_bind].
    assert (Hxv : x !! ai = Some v) by (apply list_lookup_lookup_total_lt; lia). rewrite Hxv. cbn [mbind option_bind].
    destruct (col_agg_better _ _ _ _ _ _) as [better|]; [|done]. cbn [mbind option_bind] in Hu |- *. injection Hu as <-.
    set (acc' := <[j := (key, Cell (if better then v else c_val c) (c_sum c) (c_count c))]> acc).
    assert (Hfst : acc'.*1 = acc.*1) by (unfold acc'; rewrite list_fmap_insert; apply list_insert_id; by rewrite list_lookup_fmap, Hj).
    assert (Hac : forall l', length l' = length l0 -> take (length acc) l' = out_row ai <$> acc' -> drop (S i) l' = drop (S i) l0 -> forall ch, (ch = false -> l' = l0) ->
      compacted k l0 (S i) (l', groups, out, ch) acc').
    { intros l' H1 H2 H3 ch H4. split; cbn [fst snd]; rewrite ?Hfst; try done.
      - unfold acc'. rewrite length_insert. lia. - unfold acc' at 1. by rewrite length_insert. - split; [done|]. apply Forall_insert; [done|]. apply length_entry. }
    destruct better.
    + rewrite wr_lt by (unfold out_row; rewrite length_assemble; cbn [fst]; lia). cbn [mbind option_bind]. rewrite wr_lt by lia. cbn [mbind option_bind].
      unfold out_row at 1. cbn [fst snd]. rewrite assemble_set by lia. eexists _, acc'. split; [done|]. split; [done|]. split; [|done]. apply Hac.
      * by rewrite length_insert.
      * rewrite take_insert_lt by lia. rewrite Hrows. unfold acc'. by rewrite list_fmap_insert.
      * apply Hdrop. lia.
      * done.
    + eexists _, acc'. split; [done|]. split; [done|]. split; [|done]. apply Hac; [done| |done|done].
      rewrite Hrows. unfold acc'. rewrite list_fmap_insert. symmetry. apply list_insert_id. by rewrite list_lookup_fmap, Hj.
  - destruct Hf as [Hnot Hix']. destruct (list_find _ acc) as [[j p]|].
    { destruct Hlf1 as [Hp1 Hp2]. exfalso. apply Hnot. rewrite <-Hp2. apply list_elem_of_fmap_2. by eapply list_elem_of_lookup_2. }
    injection Hu as <-.
    assert (Hstep : exists l', (if (out =? i)%nat then Some l else wr l out x) = Some l' /\ length l' = length l0 /\ take (S (length acc)) l' = (out_row ai <$> acc) ++ [x] /\ drop (S i) l' = drop (S i) l0 /\
      (changed || negb (out =? i)%nat = false -> l' = l0)).
    { destruct (Nat.eqb_spec out i) as [Heq|Hne].
      - exists l. split_and!; [done..| |done|]; [|rewrite orb_false_r; done]. rewrite (take_S_r l _ x) by (rewrite <-Ho, Heq; done). by rewrite Hrows.
      - rewrite wr_lt by lia. eexists. split; [done|]. split_and!; [by rewrite length_insert| |apply Hdrop; lia|by rewrite orb_true_r].
        rewrite (take_S_r _ _ x) by (rewrite <-Ho; apply list_lookup_insert_eq; lia). rewrite take_insert_ge by lia. by rewrite Hrows. }
    destruct Hstep as (l' & -> & Hl' & Hr' & Hd' & Hs'). cbn [mbind option_bind]. rewrite wr_lt by done. cbn [mbind option_bind]. eexists _, _. split; [done|]. split; [done|]. split; [|cbn; by rewrite length_insert].
    split; cbn [fst snd].
    + done.
    + rewrite length_app. cbn. lia.
    + rewrite length_app, Nat.add_1_r, Hr', fmap_app. f_equal. cbn [fmap list_fmap]. unfold out_row. cbn [fst snd]. rewrite first_ordered by done. by rewrite <-Hsplit.
    + done.
    + rewrite fmap_app. cbn [fmap list_fmap fst]. by rewrite Ho.
    + rewrite fmap_app. split; [apply NoDup_app; split_and!; [done| |apply NoDup_singleton]; by intros y Hy ->%list_elem_of_singleton|apply Forall_app; split; [done|]; apply Forall_singleton, length_entry].
    + done.
Qed.

Lemma canonicalize_loop_ok k l0 m : 0 <= k <= 31 -> ordered_spec -> Forall (fun x => length x = S gc) (take m l0) -> (m <= length l0)%nat ->
  forall n i st acc u, (i + n = m)%nat -> compacted k l0 i st acc -> (m < length st.1.1.2)%nat -> add_all table spec_op w acc (row_entry <$> drop i (take m l0)) = Some u ->
  exists st' acc', canonicalize_loop n table sp ai w i st = Some st' /\ u = inl acc' /\ compacted k l0 m st' acc'.
Proof.
  intros Hk Hord Hall Hm. induction n as [|n IH]; intros i st acc u Hi H Hroom Hu; cbn [canonicalize_loop].
  - rewrite drop_ge in Hu by (rewrite length_take; lia). cbn in Hu. injection Hu as <-. exists st, acc. split; [done|]. split; [done|]. by replace m with i by lia.
  - destruct (lookup_lt_is_Some_2 (take m l0) i ltac:(rewrite length_take; lia)) as [x Hx]. rewrite (drop_S _ _ _ Hx) in Hu. cbn [fmap list_fmap add_all] in Hu. rewrite lookup_take_lt in Hx by lia.
    destruct (row_entry x) as [key v] eqn:Hentry. cbn [add_all] in Hu. destruct (add_value table spec_op w acc key v) as [u1|] eqn:Hv; [|done]. cbn [mbind option_bind] in Hu.
    destruct (canonicalize_row_ok k l0 i st acc x u1 Hk Hord H Hx) as (st' & acc' & -> & -> & H' & Hlen).
    + apply (Forall_lookup_1 _ _ i x Hall). by rewrite lookup_take_lt by lia.
    + destruct (cp_out _ _ _ _ _ H). lia.
    + by rewrite Hentry.
    + cbn [mbind option_bind]. apply (IH (S i) st' acc' u); (done || lia).
Qed.

(** The relation keeps one row for each key, as the reference says. *)
Lemma canonicalize_ok (r : rel) groups_ok u : ordered_spec -> fits r -> ncols r = S gc -> Forall (fun x => length x = S gc) (stored r) ->
  add_all table spec_op w [] (row_entry <$> stored r) = Some u ->
  exists r' rc, canonicalize_aggregate groups_ok table sp r w = Some (r', rc) /\
    ((rc = ENOMEM /\ r' = r /\ (groups_ok = true -> 2 ^ 30 < Z.of_nat (nrows r))) \/
     (rc = 0 /\ exists acc, u = inl acc /\ lanes r' = lanes r /\ fits r' /\ stored r' = out_row ai <$> acc)).
Proof.
  intros Hord Hf Hnc Hall Hu. pose proof (length_stored r Hf) as Hls. unfold canonicalize_aggregate. destruct (Nat.ltb_spec (nrows r) 2) as [Hsmall|Hbig].
  { exists r, 0. split; [done|]. right. split; [done|]. destruct (stored r) as [|x [|? ?]] eqn:Hst; [| |cbn in Hls; lia]; cbn in Hu; injection Hu as <-.
    - by exists [].
    - eexists. split_and!; [done..|]. cbn [fmap list_fmap]. unfold out_row. cbn [fst snd]. rewrite first_ordered by done. apply Forall_cons in Hall as [Hx _]. f_equal. exact (row_split x Hx). }
  rewrite (proj2 (Nat.leb_gt _ _)) by lia. replace (if (sp_aggregate_index sp <? ncols r)%nat then _ else _) with ai by (unfold spec_index; by rewrite Hnc, Nat.add_1_r).
  destruct (map_capacity_ok (Z.of_nat (nrows r)) ltac:(lia)) as [(Hle & k & Hk & -> & Hcap)|(Hgt & ->)]; [|exists r, ENOMEM; split; [done|left; split_and!; done]].
  destruct groups_ok; cbn [negb]; [|exists r, ENOMEM; split; [done|left; split_and!; done]]. pose proof (Z.pow_pos_nonneg 2 k ltac:(lia) ltac:(lia)) as Hp.
  destruct (canonicalize_loop_ok k (rows r) (nrows r) Hk Hord Hall ltac:(destruct Hf; lia) (nrows r) 0 (rows r, replicate (Z.to_nat (2 ^ k)) (0, O), O, false) [] u) as ([[[l g] out] ch] & acc & -> & -> & H).
  - lia.
  - split; cbn [fst snd]; try done; [apply indexed_empty; lia|split; constructor].
  - cbn. rewrite length_replicate. lia.
  - by rewrite drop_0.
  - cbn [mbind option_bind]. destruct H as [Hl [Ho Hle'] Hrows _ _ _ _]. cbn [fst snd] in *. eexists _, 0. split; [done|]. right. split; [done|]. exists acc. split; [done|].
    destruct (ch || negb (out =? nrows r)%nat) eqn:Hch.
    + split; [done|]. unfold fits, stored. cbn. rewrite Ho. split; [destruct Hf; lia|done].
    + apply orb_false_iff in Hch as [_ Hch]. apply negb_false_iff, Nat.eqb_eq in Hch. split; [done|]. unfold fits, stored. cbn. split; [destruct Hf; lia|]. rewrite <-Hch, Ho. done.
Qed.

End InPlace.

(** ** The theorems *)

(** An operand that depends on the row alone. *)
Definition pure_operand {W} `{!Host W} (table : bool) (sessions : list Z) (op : reduce_op) (s : shape) (l : list row) (value : row -> Z) : Prop :=
  forall x (w : W), x ∈ l -> operand table sessions op s x w = Some (w, inl (value x)) /\ is_int64 (value x).

Lemma grouped_pure {W} `{!Host W} table sessions op s l value : is_float_agg op = false -> pure_operand (W := W) table sessions op s l value ->
  forall acc (w : W), grouped table sessions op s l acc w = (u ← add_all table op w acc ((fun x => (row_key op s x, value x)) <$> l); Some (w, u)).
Proof.
  intros Hf. induction l as [|x l IH]; intros Hp acc w; cbn [grouped fmap list_fmap add_all]; [done|]. destruct (Hp x w ltac:(left)) as [-> _]. cbn [mbind option_bind]. rewrite Hf. cbn [andb].
  destruct (add_value table op w acc (row_key op s x) (value x)) as [[acc'|code]|]; [|done..]. cbn [mbind option_bind]. apply IH. intros y w' Hy. apply Hp. by right.
Qed.

(** C16: The aggregation operator computes the reference [grouped], the groups
    in the order of their first rows with the aggregate at its place in the
    head: it pushes exactly those rows, or ends with the reference's code, or
    with a failed allocation and its input and output freed; with enough memory
    it fails only above 2^30 rows. *)
Theorem reduce_op_exact {W} `{!Host W} {K} e table sessions op (rest : stack K) r own delta segs nseg (w : W) ref :
  ExprProof.is_buffer (agg_expr op) -> readable r -> op_ok op r -> (length rest < COL_STACK_MAX)%nat ->
  (forall x w w' v, x ∈ stored r -> operand table sessions op r x w = Some (w', inl v) -> is_int64 v) ->
  grouped table sessions op r (stored r) [] w = Some ref ->
  exists res, col_op_reduce e table sessions op (En (Some r) own delta segs nseg ENTRY_RELATION None :: rest) w = Some res /\ reduces_to e op r own rest ref res.
Proof. apply col_op_reduce_ok. Qed.

(** C17: Over integers the operator gives each key one row, and in it the count,
    the exact sum, the least or the greatest of the key's values; it fails only
    when the sum of a key leaves int64 after some row. *)
Theorem reduce_aggregates {W} `{!Host W} {K} e table sessions op value (rest : stack K) r own delta segs nseg (w : W) :
  reduce_lucky e -> int_domain op -> ExprProof.is_buffer (agg_expr op) -> readable r -> op_ok op r -> (length rest < COL_STACK_MAX)%nat -> Z.of_nat (nrows r) <= 2 ^ 30 ->
  pure_operand (W := W) table sessions op r (stored r) value ->
  exists w' s' rc freed, col_op_reduce e table sessions op (En (Some r) own delta segs nseg ENTRY_RELATION None :: rest) w = Some (w', s', rc, freed) /\
    let entries := (fun x => (row_key op r x, value x)) <$> stored r in
    ((rc = 0 /\ exists acc out, s' = En (Some out) true false None 0 ENTRY_RELATION None :: rest /\ stored out = out_row (agg_position op) <$> acc /\ summarises op acc entries) \/
     (rc = ERANGE /\ s' = rest /\ agg_fn op = SUM /\ exists key n, ~ is_int64 (zsum (values_of key (take n entries))))).
Proof.
  intros Hlucky Hint Hbuf Hr Hop Hrest Hn Hp. set (entries := _ <$> stored r). pose proof (int_not_float op Hint) as Hf.
  assert (Hlen : length entries = nrows r) by (unfold entries; rewrite length_fmap; apply length_stored; apply Hr).
  assert (Hall : Forall (fun p => is_int64 p.2) entries). { apply Forall_fmap, Forall_forall. intros x Hx. by apply (Hp x w). }
  assert (Hg : forall u, add_all table op w [] entries = Some u -> grouped table sessions op r (stored r) [] w = Some (w, u)).
  { intros u Hu. rewrite (grouped_pure table sessions op r (stored r) value Hf Hp). fold entries. by rewrite Hu. }
  assert (Hi64 : forall x w1 w2 v, x ∈ stored r -> operand table sessions op r x w1 = Some (w2, inl v) -> is_int64 v).
  { intros x w1 w2 v Hx Ho. destruct (Hp x w1 Hx) as [Ho' Hi]. rewrite Ho in Ho'. by injection Ho' as _ ->. }
  assert (Hrun : forall u, add_all table op w [] entries = Some u -> exists res, col_op_reduce e table sessions op (En (Some r) own delta segs nseg ENTRY_RELATION None :: rest) w = Some res /\ reduces_to e op r own rest (w, u) res).
  { intros u Hu. apply col_op_reduce_ok; auto. }
  destruct (add_all_ok table op Hint w entries [] [] (summarises_nil op) Hall) as [(acc & Hu & Hs)|(Hu & Hfn & Hov)]; [cbn [app]; lia| |];
    destruct (Hrun _ Hu) as ([[[w' s'] rc] freed] & Hrun' & Hto); exists w', s', rc, freed; (split; [exact Hrun'|]);
    (destruct Hto as [(-> & _ & _ & acc' & out & Ha & -> & _ & _ & Hst)|[(Hrc & _ & Ha & -> & _)|(_ & _ & _ & Hl)]]; [| |destruct (Hl Hlucky); lia]); cbn [snd] in Ha.
  - injection Ha as <-. left. split; [done|]. by exists acc, out.
  - done.
  - done.
  - injection Ha as <-. right. by split_and!.
Qed.

(** C18: For a minimum or a maximum of an operand that is not a float, the
    reduction in place at the end of a recursive aggregate leaves the groups
    that folding the operator's update over the relation's rows gives, in the
    order of their first rows: over integers, one row for each key with its
    least or greatest value; without memory, or above 2^30 rows, the relation
    is left as it was. *)
Theorem canonicalize_exact {W} `{!Host W} table sp (w : W) (r : rel) groups_ok u :
  ordered_spec sp -> fits r -> ncols r = S (sp_group_by_count sp) -> Forall (row_ok r) (stored r) -> add_all table (spec_op sp) w [] (row_entry sp <$> stored r) = Some u ->
  exists r' rc, canonicalize_aggregate groups_ok table sp r w = Some (r', rc) /\
    ((rc = ENOMEM /\ r' = r /\ (groups_ok = true -> 2 ^ 30 < Z.of_nat (nrows r))) \/
     (rc = 0 /\ exists acc, u = inl acc /\ lanes r' = lanes r /\ fits r' /\ stored r' = out_row (spec_index sp) <$> acc /\
        (int_domain (spec_op sp) -> Z.of_nat (nrows r) < 2 ^ 62 -> summarises (spec_op sp) acc (row_entry sp <$> stored r)))).
Proof.
  intros Hord Hf Hnc Hok Hu. assert (Hall : Forall (fun x => length x = S (sp_group_by_count sp)) (stored r)) by (eapply Forall_impl; [exact Hok|]; intros x Hx; by rewrite (rk_len _ _ Hx), Hnc).
  destruct (canonicalize_ok table sp w r groups_ok u Hord Hf Hnc Hall Hu) as (r' & rc & Hc & [H|(-> & acc & -> & Hl & Hf' & Hs)]); eexists _, _; (split; [exact Hc|]); [by left|]. right. split; [done|].
  exists acc. split_and!; [done..|]. intros Hint Hn. destruct (add_all_ok table (spec_op sp) Hint w (row_entry sp <$> stored r) [] [] (summarises_nil _)) as [(acc' & Hu' & Hsum)|(Hu' & _)].
  - apply Forall_fmap, Forall_forall. intros x Hx. cbn. pose proof (proj1 (Forall_forall _ _) Hok x Hx) as Hxok. pose proof (spec_index_le sp).
    destruct (row_cell r x (spec_index sp) Hxok ltac:(lia)) as (ty & v & _ & _ & -> & [Hi _]). done.
  - cbn [app]. rewrite length_fmap, (length_stored r Hf). done.
  - rewrite Hu in Hu'. by injection Hu' as <-.
  - rewrite Hu in Hu'. done.
Qed.

(** ** Inputs *)

#[local] Existing Instance ExprProof.list_host.

Definition rich : reduce_env := Renv true true 0 true true true true true true (fun _ => true).

(** The rows (1,5), (2,7), (1,3), grouped by the first column. *)
Definition sales : rel := DeltaSpec.of_rows DeltaSpec.pairs [[1; 5]; [2; 7]; [1; 3]] 0 [].
Definition sum_by_first : reduce_op := Rop SUM None 1 1 [] OPERAND_SCALAR.

Lemma sales_readable : readable sales.
Proof. split; [split; vm_compute; lia|]. apply DeltaSpec.int_rows_ok; done. Qed.

Lemma sum_by_first_ok : op_ok sum_by_first sales.
Proof. split; [intros; vm_compute; lia|done|done]. Qed.

Lemma sales_pure : pure_operand (W := list str) false [] sum_by_first sales (stored sales) (fun x => x !!! 1%nat).
Proof. intros x w Hx. vm_compute in Hx. repeat (apply elem_of_cons in Hx as [->|Hx]; [split; [reflexivity|vm_compute; split; congruence]|]). by apply not_elem_of_nil in Hx. Qed.

Definition rows_on {W K} (res : option (W * stack K * Z * list (resource K))) : option (list (option (list row)) * Z) :=
  match res with Some (_, s, rc, _) => Some (map (fun x : entry K => stored <$> e_rel x) s, rc) | None => None end.

Lemma reduce_op_exact_witness : exists res, col_op_reduce (K := unit) rich false [] sum_by_first [En (Some sales) true false None 0 ENTRY_RELATION None] [] = Some res /\
  (exists ref, reduces_to rich sum_by_first sales true [] ref res) /\ rows_on (Some res) = Some ([Some [[1; 8]; [2; 7]]], 0).
Proof.
  destruct (reduce_op_exact (K := unit) rich false [] sum_by_first [] sales true false None 0 ([] : list str) ([], inl [([1], Cell 8 (S754_zero false) 0); ([2], Cell 7 (S754_zero false) 0)])) as (res & Hres & Hto).
  - split; [constructor|vm_compute; reflexivity].
  - exact sales_readable.
  - exact sum_by_first_ok.
  - vm_compute. lia.
  - intros x w w' v Hx Ho. destruct (sales_pure x w Hx) as [Ho' Hi]. rewrite Ho in Ho'. injection Ho' as _ ->. exact Hi.
  - vm_compute. reflexivity.
  - exists res. split; [exact Hres|]. split; [eexists; exact Hto|]. rewrite <-Hres. vm_compute. reflexivity.
Defined.

Lemma reduce_aggregates_witness : exists w' s' rc freed,
  col_op_reduce (K := unit) rich false [] sum_by_first [En (Some sales) true false None 0 ENTRY_RELATION None] [] = Some (w', s', rc, freed) /\ rc = 0 /\ rows_on (Some (w', s', rc, freed)) = Some ([Some [[1; 8]; [2; 7]]], 0).
Proof.
  destruct (reduce_aggregates (K := unit) rich false [] sum_by_first (fun x => x !!! 1%nat) [] sales true false None 0 ([] : list str)) as (w' & s' & rc & freed & Hres & _).
  - vm_compute. split_and!; reflexivity.
  - left. reflexivity.
  - split; [constructor|vm_compute; reflexivity].
  - exact sales_readable.
  - exact sum_by_first_ok.
  - vm_compute. lia.
  - vm_compute. discriminate.
  - exact sales_pure.
  - assert (Hv : rows_on (Some (w', s', rc, freed)) = Some ([Some [[1; 8]; [2; 7]]], 0)) by (rewrite <-Hres; vm_compute; reflexivity).
    exists w', s', rc, freed. split; [exact Hres|]. split; [injection Hv as _ Hrc; exact Hrc|exact Hv].
Defined.

(** The greatest second value for each first one. *)
Definition max_by_first : agg_spec := Aspec MAX 1 1 OPERAND_SCALAR.

Lemma canonicalize_exact_witness : exists r' rc, canonicalize_aggregate true false max_by_first sales ([] : list str) = Some (r', rc) /\ rc = 0 /\ stored r' = [[1; 5]; [2; 7]].
Proof.
  destruct (canonicalize_exact false max_by_first ([] : list str) sales true (inl [([1], Cell 5 (S754_zero false) 0); ([2], Cell 7 (S754_zero false) 0)])) as (r' & rc & Hc & H).
  - split; [right; reflexivity|discriminate].
  - apply sales_readable.
  - reflexivity.
  - apply sales_readable.
  - vm_compute. reflexivity.
  - exists r', rc. split; [exact Hc|]. assert (Hv : Some (r', rc) = canonicalize_aggregate true false max_by_first sales ([] : list str)) by (symmetry; exact Hc). vm_compute in Hv. injection Hv as -> ->. split; vm_compute; reflexivity.
Defined.

(** ** Departures *)

(** count(v) of a float column does not count: the column's first lane is taken
    for the first count.  Two rows with 1.0 give the lane of 1.0 plus one. *)
Definition lanes_12 : shape := Sh 2 (Some [TYPE_INT64; TYPE_FLOAT]).
Definition floats : rel := DeltaSpec.of_rows lanes_12 [[1; 4607182418800017408]; [1; 4607182418800017408]] 0 [].

Example count_of_floats_is_not_a_count : rows_on (col_op_reduce (K := unit) rich false [] (Rop COUNT None 1 1 [] OPERAND_FLOAT) [En (Some floats) true false None 0 ENTRY_RELATION None] ([] : list str)) =
  Some ([Some [[1; 4607182418800017409]]], 0).
Proof. vm_compute. reflexivity. Qed.

(** The two reducers disagree on negative floats: of -1.0 and -2.0 the operator
    takes -2.0 as the minimum and the reduction in place keeps -1.0. *)
Definition negatives : rel := DeltaSpec.of_rows lanes_12 [[1; -4616189618054758400]; [1; -4611686018427387904]] 0 [].

Example reducers_disagree_on_floats :
  rows_on (col_op_reduce (K := unit) rich false [] (Rop MIN None 1 1 [] OPERAND_FLOAT) [En (Some negatives) true false None 0 ENTRY_RELATION None] ([] : list str)) = Some ([Some [[1; -4611686018427387904]]], 0) /\
  ('(r, rc) ← canonicalize_aggregate true false (Aspec MIN 1 1 OPERAND_FLOAT) negatives ([] : list str); Some (stored r, rc)) = Some ([[1; -4616189618054758400]], 0).
Proof. split; vm_compute; reflexivity. Qed.

(** With the aggregate in front, the reduction in place claims an order it
    destroys: the sorted rows (1,10), (2,20), (3,10) become (3,10), (2,20), all
    of them declared sorted. *)
Definition ranked : rel := set_sorted 3 (DeltaSpec.of_rows DeltaSpec.pairs [[1; 10]; [2; 20]; [3; 10]] 0 []).

Example canonicalize_breaks_order :
  ('(r, rc) ← canonicalize_aggregate true false (Aspec MAX 1 0 OPERAND_SCALAR) ranked ([] : list str); c ← col_rel_row_cmp r 0 1; Some (stored r, sorted_nrows r, c, rc)) =
    Some ([[3; 10]; [2; 20]], 2%nat, 1, 0).
Proof. vm_compute. reflexivity. Qed.

End ReduceSpec.
