(* ===== verification/MapSpec.v ===== *)
(** * Projection computes its rows

    [mapped] is the reference: every output cell is a cell of the row, 0 outside
    it, or an expression by the interpreter, row by row.  The operator, with its compiled expressions, pushes exactly those
    rows. *)

From S2P Require Import Prelude RadixSort Relation Consolidate ConsolidateProof DeltaSpec StringOps Expr ExprCompile ExprProof EvalStack Filter FilterProof RowOps.

Module MapSpec.

Import Keys Rel Consolidate ConsolidateProof StringOps.StringOps Expr.Expr ExprCompile.ExprCompile EvalStack.EvalStack Filter.Filter FilterProof.FilterProof RowOps.RowOps.

Section Map.

Context {W : Type} `{!Host W} {K : Type} (ss : session (W := W)) (sessions : list Z) (op : map_op).

Abbreviation pc := (project_count op).

(** Cell [c] of a row's image: a cell of the row, or the value of its
    expression, or a code and a status to record. *)
Definition cell (x : row) (c : nat) (w : W) : option (W * (Z + Z * option Z)) :=
  match map_expr op c with
  | [] => src ← (match project_indices op with Some l => l !! c | None => Some c end); Some (w, inl (default 0 (x !! src)))
  | buf =>
      '(w, status, v) ← eval_run_ctx (map_ctx ss) sessions buf x (Z.of_nat (length x)) w;
      Some (w, if decide (status = OK) then inl v else inr (if EXTENSION_MALFORMED <=? status then (status, Some status) else (ERANGE, None)))
  end.

(** The cells [c] to [c + n]. *)
Fixpoint image (n c : nat) (x : row) (w : W) : option (W * (row + Z * option Z)) :=
  match n with
  | O => Some (w, inl [])
  | S n' =>
      '(w, v) ← cell x c w;
      match v with
      | inr code => Some (w, inr code)
      | inl v => '(w, l) ← image n' (S c) x w; Some (w, match l with inl l => inl (v :: l) | inr code => inr code end)
      end
  end.

(** The images of the rows, until one fails. *)
Fixpoint mapped (l : list row) (w : W) : option (W * list row * option (Z * option Z)) :=
  match l with
  | [] => Some (w, [], None)
  | x :: l' =>
      '(w, y) ← image pc 0 x w;
      match y with
      | inr code => Some (w, [], Some code)
      | inl y => '(w, ys, st) ← mapped l' w; Some (w, y :: ys, st)
      end
  end.

(** ** Cells *)

(** The array of compiled expressions: each is that of its column. *)
Definition compiled_as (ces : list (option compiled)) : Prop :=
  forall c ce, ces !! c = Some (Some ce) -> map_expr op c <> [] /\ forall x nc w, eval_run_ctx (map_ctx ss) sessions (map_expr op c) x nc w = ExprProof.result w (eval_compiled ce x nc w).

Definition exprs_ok : Prop := forall c, ExprProof.is_buffer (map_expr op c).

Lemma compile_maps_ok e : exprs_ok -> forall n c, exists ces, compile_maps n e op (s_intern ss) c = Some ces /\
  forall i ce, ces !! i = Some (Some ce) -> map_expr op (c + i) <> [] /\ forall x nc w, eval_run_ctx (map_ctx ss) sessions (map_expr op (c + i)) x nc w = ExprProof.result w (eval_compiled ce x nc w).
Proof.
  intros Hok. induction n as [|n IH]; intros c; cbn [compile_maps]; [by exists []|]. destruct (IH (S c)) as (ces & Hces & Hc).
  assert (Hce : exists ce, (if (length (map_expr op c) =? 0)%nat then Some None else compile (me_compile e c) (me_instrs e c) (map_expr op c) (s_intern ss)) = Some ce /\
    forall ce', ce = Some ce' -> map_expr op c <> [] /\ forall x nc w, eval_run_ctx (map_ctx ss) sessions (map_expr op c) x nc w = ExprProof.result w (eval_compiled ce' x nc w)).
  { destruct (Nat.eqb_spec (length (map_expr op c)) 0); [by exists None|]. destruct (ExprProof.compile_agrees_ctx (W := W) (me_compile e c) (me_instrs e c) (map_expr op c) (s_intern ss) (Hok c)) as (ce & Hce & Hag).
    exists ce. split; [done|]. intros ce' ->. split; [by destruct (map_expr op c)|]. intros x nc w. by apply (Hag ce'). }
  destruct Hce as (ce & -> & Hce). cbn [mbind option_bind]. rewrite Hces. cbn [mbind option_bind]. eexists. split; [done|]. intros [|i] ce' Hi; cbn in Hi.
  - injection Hi as ->. rewrite Nat.add_0_r. by apply Hce.
  - rewrite <-Nat.add_succ_comm. by apply Hc.
Qed.

Lemma compiled_maps_ok e : exprs_ok -> exists ces, compiled_maps e op (s_intern ss) = Some ces /\ compiled_as ces.
Proof.
  intros Hok. unfold compiled_maps. assert (Hnone : compiled_as []) by (by intros c ce H). destruct (map_exprs op) as [l|]; [|by exists []].
  destruct (_ && _); [|by exists []]. destruct (compile_maps_ok e Hok (Nat.min (length l) pc) 0) as (ces & -> & Hc). exists ces. split; [done|]. exact Hc.
Qed.

(** The operator's cell, compiled or interpreted. *)
Lemma map_cell_ok ces x c w : compiled_as ces -> map_cell ss sessions op ces x (length x) c w = cell x c w.
Proof.
  intros Hces. unfold map_cell. destruct (map_expr op c) as [|b buf] eqn:Hb; cbn [length Nat.eqb].
  - unfold cell. rewrite Hb. destruct (project_indices op) as [l|]; [unfold rd; destruct (l !! c) as [src|]|set (src := c)]; cbn [mbind option_bind]; [|done|]; destruct (Nat.ltb_spec src (length x)) as [Hs|Hs];
      [destruct (lookup_lt_is_Some_2 x src Hs) as [v Hv]|rewrite (lookup_ge_None_2 x src Hs)|destruct (lookup_lt_is_Some_2 x src Hs) as [v Hv]|rewrite (lookup_ge_None_2 x src Hs)]; unfold rd; rewrite ?Hv; done.
  - rewrite <-Hb. assert (Hint : ('(w, status, v) ← eval_run_ctx (map_ctx ss) sessions (map_expr op c) x (Z.of_nat (length x)) w;
        Some (w, if negb (status =? OK) then if EXTENSION_MALFORMED <=? status then inr (status, Some status) else inr (ERANGE, None) else inl v)) = cell x c w).
    { unfold cell. rewrite Hb. destruct (eval_run_ctx _ _ _ _ _ _) as [[[w1 status] v]|]; [|done]. cbn [mbind option_bind]. destruct (decide (status = OK)) as [->|Hst]; [done|].
      rewrite (proj2 (Z.eqb_neq status OK)) by done. cbn [negb]. by destruct (EXTENSION_MALFORMED <=? status). }
    destruct (ces !! c) as [[ce|]|] eqn:Hc; cbn [default from_option id]; [|exact Hint..].
    rewrite <-Hint. destruct (Hces c ce Hc) as [_ Hrun]. rewrite Hrun. unfold ExprProof.result. destruct (eval_compiled ce x (Z.of_nat (length x)) w) as [[rc v]|] eqn:He; [|done].
    cbn [mbind option_bind]. by destruct (ExprProof.eval_compiled_rc _ _ _ _ _ _ He) as [->| ->].
Qed.

Lemma map_cells_ok ces x : compiled_as ces -> forall n c tmp w, (c + n = length tmp)%nat ->
  map_cells n ss sessions op ces x (length x) c tmp w = ('(w, l) ← image n c x w; Some (w, match l with inl l => inl (take c tmp ++ l) | inr code => inr code end)).
Proof.
  intros Hces. induction n as [|n IH]; intros c tmp w Hn; cbn [map_cells image mbind option_bind]; [by rewrite take_ge, app_nil_r by lia|].
  rewrite map_cell_ok by done. destruct (cell x c w) as [[w1 [v|code]]|]; [|done..]. cbn [mbind option_bind]. rewrite wr_lt by lia. cbn [mbind option_bind].
  rewrite IH by (rewrite length_insert; lia). destruct (image n (S c) x w1) as [[w2 [l|code]]|]; [|done..]. cbn [mbind option_bind]. do 3 f_equal.
  rewrite (take_S_r _ _ v) by (apply list_lookup_insert_eq; lia). rewrite take_insert_ge, <-app_assoc by lia. done.
Qed.

Lemma image_length n : forall c x w w' l, image n c x w = Some (w', inl l) -> length l = n.
Proof.
  induction n as [|n IH]; intros c x w w' l; cbn [image]; [by intros [= _ <-]|]. destruct (cell x c w) as [[w1 [v|code]]|]; [|done..]. cbn [mbind option_bind].
  destruct (image n (S c) x w1) as [[w2 [l'|code]]|] eqn:Hr; [|done..]. cbn [mbind option_bind]. intros [= _ <-]. cbn. by rewrite (IH _ _ _ _ _ Hr).
Qed.

(** A cell fails with a code other than 0. *)
Lemma cell_code x c w w' rc st : cell x c w = Some (w', inr (rc, st)) -> rc <> 0.
Proof.
  unfold cell. destruct (map_expr op c) as [|b buf].
  - by destruct (match project_indices op with Some l => l !! c | None => Some c end).
  - destruct (eval_run_ctx _ _ _ _ _ _) as [[[w1 status] v]|]; [|done]. cbn [mbind option_bind]. destruct (decide (status = OK)); [done|].
    destruct (Z.leb_spec EXTENSION_MALFORMED status) as [Hst|_]; intros [= _ <- _]; [unfold EXTENSION_MALFORMED in Hst; lia|done].
Qed.

Lemma image_code n : forall c x w w' rc st, image n c x w = Some (w', inr (rc, st)) -> rc <> 0.
Proof.
  induction n as [|n IH]; intros c x w w' rc st; cbn [image]; [done|]. destruct (cell x c w) as [[w1 [v|[rc1 st1]]]|] eqn:Hc; [| |done]; cbn [mbind option_bind].
  - destruct (image n (S c) x w1) as [[w2 [l'|code]]|] eqn:Hr; [done| |done]. cbn [mbind option_bind]. intros [= _ ->]. by eapply IH.
  - intros [= _ -> _]. by eapply cell_code.
Qed.

(** ** Rows *)

Definition untyped : shape := Sh pc None.

Lemma untyped_row y : length y = pc -> Forall is_int64 y -> row_ok untyped y /\ canon untyped y = y.
Proof.
  intros Hl Hi. split.
  - split; [done|]. intros c v Hv. exists TYPE_INT64. split; [done|]. split; [by apply (Forall_lookup_1 _ _ _ _ Hi Hv)|done].
  - apply list_eq. intros c. unfold canon. rewrite list_lookup_imap. by destruct (y !! c).
Qed.

(** How a loop over [n] rows ends. *)
Definition maps_to (e : map_env) (n : nat) (out : rel) (ref : W * list row * option (Z * option Z)) (res : option (W * rel * Z * option Z)) : Prop :=
  exists w out' rc st, res = Some (w, out', rc, st) /\
    ((rc = 0 /\ st = None /\ ref.2 = None /\ w = ref.1.1 /\ lanes out' = untyped /\ fits out' /\ stored out' = stored out ++ ref.1.2) \/
     (rc <> 0 /\ ref.2 = Some (rc, st) /\ w = ref.1.1) \/
     (rc = ENOMEM /\ st = None /\ ((forall i, me_grow e i = true) -> 2 ^ 31 < Z.of_nat (nrows out + n)))).

Lemma map_loop_ok e ces (r : rel) : compiled_as ces -> readable r -> forall n i tmp out w ref, (i + n = nrows r)%nat -> length tmp = pc -> fits out -> lanes out = untyped ->
  mapped (drop i (stored r)) w = Some ref -> Forall (Forall is_int64) ref.1.2 ->
  maps_to e n out ref (map_loop n e ss sessions op ces r i tmp out w).
Proof.
  intros Hces Hr. pose proof (length_stored r (proj1 Hr)) as Hls. induction n as [|n IH]; intros i tmp out w ref Hi Htmp Hf Hl Href Hint; cbn [map_loop].
  { rewrite drop_ge in Href by lia. cbn in Href. injection Href as <-. eexists _, _, _, _. split; [done|]. left. split_and!; [done..|]. by rewrite app_nil_r. }
  destruct (scan_row r i Hr ltac:(lia)) as (x & -> & Hx & Hxl & _ & Hd). cbn [mbind option_bind]. rewrite Hx. cbn [mbind option_bind]. rewrite Hd in Href. cbn [mapped] in Href.
  rewrite <-Hxl, (map_cells_ok ces x Hces) by lia. destruct (image pc 0 x w) as [[w1 [y|[rc st]]]|] eqn:Him; [| |done]; cbn [mbind option_bind] in Href |- *.
  2: { injection Href as <-. eexists _, _, _, _. split; [done|]. right. left. split_and!; [by eapply image_code|done..]. }
  destruct (mapped (drop (S i) (stored r)) w1) as [[[w2 ys] st]|] eqn:Hm; [|done]. cbn [mbind option_bind] in Href. injection Href as <-. cbn [fst snd] in Hint. apply Forall_cons in Hint as [Hy Hys].
  pose proof (image_length _ _ _ _ _ _ Him) as Hyl. destruct (untyped_row y Hyl Hy) as [Hyok Hyc]. rewrite take_0. cbn [app]. rewrite <-Hl in Hyok, Hyc.
  destruct (append_row_exact (me_grow e (nrows out)) out y Hf Hyok) as (out1 & rc & -> & Hk & Hf1 & [(-> & Hn1 & Hs1)|(-> & -> & Hg)]); cbn [mbind option_bind Z.eqb negb ENOMEM].
  - destruct (IH (S i) y out1 w1 (w2, ys, st) ltac:(lia) Hyl Hf1 ltac:(by rewrite (kt_lanes _ _ Hk)) Hm Hys) as (w3 & out3 & rc & st3 & -> & H). eexists _, _, _, _. split; [done|].
    cbn [fst snd] in *. destruct H as [(-> & -> & -> & -> & Hl3 & Hf3 & Hs3)|[H|(-> & -> & H)]]; [left|by right; left|right; right].
    + split_and!; [done..|]. rewrite Hs3, Hs1, Hyc, <-app_assoc. done.
    + split_and!; [done..|]. intros Hgr. specialize (H Hgr). lia.
  - eexists _, _, _, _. split; [done|]. right. right. split_and!; [done..|]. intros Hgr. specialize (Hg (Hgr _)). lia.
Qed.

(** ** The operator *)

Definition map_lucky (e : map_env) : Prop := me_out e = true /\ me_tmp e = true /\ me_row e = true /\ forall i, me_grow e i = true.

Definition map_result (e : map_env) (r : rel) (own : bool) (rest : stack K) (ref : W * list row * option (Z * option Z)) (res : W * stack K * Z * list (resource K) * option Z) : Prop :=
  let '(w, s', rc, freed, st) := res in
  let input := if own then [F_relation r] else [] in
  (rc = 0 /\ st = None /\ ref.2 = None /\ w = ref.1.1 /\ freed = input /\ exists out, s' = En (Some out) true false None 0 ENTRY_RELATION None :: rest /\
     lanes out = untyped /\ fits out /\ stored out = ref.1.2) \/
  (rc <> 0 /\ ref.2 = Some (rc, st) /\ w = ref.1.1 /\ s' = rest /\ exists out, freed = F_relation out :: input) \/
  (rc = ENOMEM /\ st = None /\ s' = rest /\ (freed = input \/ exists out, freed = F_relation out :: input) /\ (map_lucky e -> 2 ^ 31 < Z.of_nat (nrows r))).

Lemma new_auto_ok pooled : fits (new_auto pooled pc) /\ lanes (new_auto pooled pc) = untyped /\ nrows (new_auto pooled pc) = O /\ stored (new_auto pooled pc) = [].
Proof. unfold new_auto, fits, stored. cbn [nrows capacity rows lanes]. rewrite length_replicate. split_and!; (done || lia). Qed.

Lemma col_op_map_ok e rest r own delta segs nseg (w : W) ref : exprs_ok -> readable r -> (length rest < COL_STACK_MAX)%nat ->
  mapped (stored r) w = Some ref -> Forall (Forall is_int64) ref.1.2 ->
  exists res, col_op_map e ss sessions op (En (Some r) own delta segs nseg ENTRY_RELATION None :: rest) w = Some res /\ map_result e r own rest ref res.
Proof.
  intros Hok Hr Hrest Href Hint. unfold col_op_map. cbn [eval_stack_pop_relation eval_stack_pop kind e_rel owned Z.eqb negb ENTRY_CONTINUATION ENTRY_RELATION].
  destruct (me_out e) eqn:H1; cbn [negb]; [|eexists; split; [done|]; right; right; split_and!; [done..|by left|intros (? & _); congruence]].
  destruct (me_tmp e) eqn:H2; cbn [negb]; [|eexists; split; [done|]; right; right; split_and!; [done..|by right; eexists|intros (_ & ? & _); congruence]].
  destruct (compiled_maps_ok e Hok) as (ces & -> & Hces). cbn [mbind option_bind].
  destruct (negb _) eqn:H3; [eexists; split; [done|]; right; right; split_and!; [done..|by right; eexists|intros (_ & _ & H4 & _); by rewrite H4, orb_true_r in H3]|].
  destruct (new_auto_ok (me_pooled e)) as (Hf & Hl & Hn & Hs).
  destruct (map_loop_ok e ces r Hces Hr (nrows r) 0 (replicate pc 0) (new_auto (me_pooled e) pc) w ref) as (w1 & out & rc & st & -> & H); [lia|apply length_replicate|done|done|by rewrite drop_0|done|].
  cbn [mbind option_bind]. unfold finish. cbn [owned]. destruct H as [(-> & -> & Hst & -> & Hlo & Hfo & Hso)|[(Hrc & Hst & ->)|(-> & -> & H)]].
  - cbn [Z.eqb negb]. unfold eval_stack_push. rewrite (proj2 (Nat.leb_gt _ _)) by done. eexists. split; [done|]. left. split_and!; [done..|]. exists out. rewrite Hs in Hso. by split_and!.
  - rewrite (proj2 (Z.eqb_neq rc 0)) by done. cbn [negb]. eexists. split; [done|]. right. left. split_and!; [done..|by eexists].
  - cbn [Z.eqb negb ENOMEM]. eexists. split; [done|]. right. right. split_and!; [done..|by right; eexists|]. intros (_ & _ & _ & Hg). specialize (H Hg). lia.
Qed.

End Map.

(** ** The theorem *)

(** C21: The projection operator pushes the images of the rows, each cell
    projected or computed by its expression, in order and whatever was
    compiled; or it ends with the code of the first cell that fails, recording
    the status of an extension call; or an allocation failed, which with enough
    memory happens only above 2^31 rows. *)
Theorem map_op_exact {W} `{!Host W} {K} ss sessions op e (rest : stack K) r own delta segs nseg (w : W) ref :
  exprs_ok op -> readable r -> (length rest < COL_STACK_MAX)%nat -> mapped ss sessions op (stored r) w = Some ref -> Forall (Forall is_int64) ref.1.2 ->
  exists res, col_op_map e ss sessions op (En (Some r) own delta segs nseg ENTRY_RELATION None :: rest) w = Some res /\ map_result op e r own rest ref res.
Proof. apply col_op_map_ok. Qed.

#[local] Existing Instance ExprProof.list_host.

Definition plain : session (W := list str) := Sess true None 1 false None.
Definition rich : map_env := Menv true true true true (fun _ => true) (fun _ => true) true (fun _ => true).

(** Columns 1 and 0, and col0 < col1, of (3,4) and (4,3). *)
Definition swap_lt : map_op := Mop 3 (Some [1; 0; 0]%nat) (Some [[]; []; ExprProof.lt_buf]).
Definition two : rel := DeltaSpec.of_rows DeltaSpec.pairs [[3; 4]; [4; 3]] 0 [].

Definition images {W K} (res : W * stack K * Z * list (resource K) * option Z) : list (option (list row)) := let '(_, s, _, _, _) := res in map (fun x : entry K => stored <$> e_rel x) s.

Lemma map_op_exact_witness : exists res, col_op_map (K := unit) rich plain [] swap_lt [En (Some two) true false None 0 ENTRY_RELATION None] [] = Some res /\
  map_result swap_lt rich two true [] ([], [[4; 3; 1]; [3; 4; 0]], None) res /\ images res = [Some [[4; 3; 1]; [3; 4; 0]]].
Proof.
  destruct (map_op_exact (K := unit) plain [] swap_lt rich [] two true false None 0 ([] : list str) ([], [[4; 3; 1]; [3; 4; 0]], None)) as (res & Hres & Hm).
  - intros [|[|[|c]]]; [split; [constructor|vm_compute; reflexivity]..|exact ExprProof.lt_buf_ok|split; [constructor|vm_compute; reflexivity]].
  - split; [split; vm_compute; lia|]. apply DeltaSpec.int_rows_ok; done.
  - vm_compute. lia.
  - vm_compute. reflexivity.
  - repeat constructor; vm_compute; congruence.
  - exists res. split; [exact Hres|]. split; [exact Hm|]. assert (Hv : Some (images res) = Some [Some [[4; 3; 1]; [3; 4; 0]]]).
    { change (Some (images res)) with (images <$> Some res). rewrite <-Hres. vm_compute. reflexivity. }
    injection Hv as Hv. exact Hv.
Defined.

(** The output has no column types: the identity projection of a float column
    cannot be appended to the relation it came from. *)
Definition float_column : rel := DeltaSpec.of_rows (Sh 1 (Some [TYPE_FLOAT])) [[4607182418800017408]] 0 [].

Example map_forgets_float_columns :
  match col_op_map (K := unit) rich plain [] (Mop 1 None None) [En (Some float_column) false false None 0 ENTRY_RELATION None] [] with
  | Some (_, [m], 0, _, _) =>
      match e_rel m with
      | Some out => stored out = stored float_column /\ column_types out = None /\ append_checked true true float_column out = Some (float_column, EINVAL)
      | None => False
      end
  | _ => False
  end.
Proof. vm_compute. split_and!; reflexivity. Qed.

End MapSpec.
