(* ===== verification/Partition.v ===== *)
(** * Hash partitions (src/wirelog/columnar/partition.c)

    A relation is split among workers by the hash of its key columns, and the
    parts are put together again.  The source copies column by column with the
    same offsets for each; the model copies the rows.  What timestamps hold is
    not modelled, only whether a relation has them. *)

From S2P Require Import Prelude RadixSort Relation Consolidate EvalStack Filter.

Module Partition.

Import Keys Rel Consolidate EvalStack.EvalStack Filter.Filter.

Definition PARTITION_STACK_MAX : nat := 64.

Section Partition.

(** XXH3_64bits of the key lanes. *)
Context (XXH3 : list Z -> Z).

Definition row_partition_colmajor (x : row) (key_cols : list nat) (num_workers : nat) : option nat :=
  if (num_workers =? 1)%nat then Some O
  else key ← mapM (rd x) key_cols; Some (Z.to_nat (u32 (XXH3 key mod Z.of_nat num_workers))).

(** The outcomes of the allocations: [pe_part w] is the code of creating part
    [w]. *)
Record part_env := Penv {
  pe_counts : bool;
  pe_key_buf : bool;
  pe_part : nat -> Z;
  pe_realloc : nat -> bool;
  pe_index : bool;
  pe_stamps : nat -> bool }.

(** Pass 1, [n] rows left. *)
Fixpoint count_rows (n : nat) (r : rel) (key_cols : list nat) (num_workers i : nat) (counts : list nat) : option (list nat) :=
  match n with
  | O => Some counts
  | S n' =>
      x ← rd (rows r) i;
      p ← row_partition_colmajor x key_cols num_workers;
      c ← rd counts p;
      counts ← wr counts p (S c);
      count_rows n' r key_cols num_workers (S i) counts
  end.

(** A part of [count] rows: the storage of a new relation is resized, or freed
    when there are none.  [None] inside: no memory. *)
Definition new_part (nc count : nat) (realloc_ok : bool) : option rel :=
  let part := R (Sh nc None) (replicate COL_REL_INIT_CAP (replicate nc 0)) 0 COL_REL_INIT_CAP 0 None 0 false 0 (replicate COL_MAX_RUNS O) in
  if negb (count =? COL_REL_INIT_CAP)%nat && (0 <? count)%nat then
    if negb realloc_ok then None else Some (set_capacity count (set_rows (resized nc count (rows part)) part))
  else if (count =? 0)%nat then Some (set_capacity 0 (set_rows [] part))
  else Some part.

(** The parts from [w] on, [n] left, or a code. *)
Fixpoint make_parts (n : nat) (e : part_env) (nc w : nat) (counts : list nat) : option (list rel + Z) :=
  match n with
  | O => Some (inl [])
  | S n' =>
      c ← rd counts w;
      if negb (pe_part e w =? 0) then Some (inr (pe_part e w))
      else
        match new_part nc c (pe_realloc e w) with
        | None => Some (inr ENOMEM)
        | Some part => u ← make_parts n' e nc (S w) counts; Some (match u with inl l => inl (part :: l) | inr rc => inr rc end)
        end
  end.

(** Pass 2. *)
Fixpoint index_rows (n : nat) (r : rel) (key_cols : list nat) (num_workers i : nat) : option (list nat) :=
  match n with
  | O => Some []
  | S n' =>
      x ← rd (rows r) i;
      p ← row_partition_colmajor x key_cols num_workers;
      l ← index_rows n' r key_cols num_workers (S i);
      Some (p :: l)
  end.

(** Pass 3. *)
Fixpoint scatter (n : nat) (r : rel) (part_idx : list nat) (i : nat) (offsets : list nat) (parts : list rel) : option (list rel) :=
  match n with
  | O => Some parts
  | S n' =>
      p ← rd part_idx i;
      off ← rd offsets p;
      part ← rd parts p;
      x ← rd (rows r) i;
      x ← lanes_at (ncols r) x 0;
      l ← wr (rows part) off x;
      parts ← wr parts p (set_rows l part);
      offsets ← wr offsets p (S off);
      scatter n' r part_idx (S i) offsets parts
  end.

(** Pass 4: the timestamps of parts with rows; [None]: no memory. *)
Fixpoint stamp_parts (e : part_env) (w : nat) (counts : list nat) (parts : list rel) : option (list rel) :=
  match counts, parts with
  | c :: counts', part :: parts' =>
      if (c =? 0)%nat then l ← stamp_parts e (S w) counts' parts'; Some (part :: l)
      else if negb (pe_stamps e w) then None
      else l ← stamp_parts e (S w) counts' parts'; Some (set_timestamps true part :: l)
  | _, _ => Some parts
  end.

(** The code and the parts; on an error there are none.  A NULL pointer is not
    among the arguments. *)
Definition col_rel_partition_by_key (e : part_env) (src : rel) (key_cols : list nat) (num_workers : nat) : option (Z * list rel) :=
  if (length key_cols =? 0)%nat || (num_workers =? 0)%nat || (ncols src =? 0)%nat then Some (EINVAL, [])
  else if existsb (fun c => (ncols src <=? c)%nat) key_cols then Some (EINVAL, [])
  else if (PARTITION_STACK_MAX <? num_workers)%nat && negb (pe_counts e) then Some (ENOMEM, [])
  else if (COL_STACK_MAX <? length key_cols)%nat && negb (pe_key_buf e) then Some (ENOMEM, [])
  else
    counts ← count_rows (nrows src) src key_cols num_workers 0 (replicate num_workers O);
    u ← make_parts num_workers e (ncols src) 0 counts;
    match u with
    | inr rc => Some (rc, [])
    | inl parts =>
        if (0 <? nrows src)%nat && negb (pe_index e) then Some (ENOMEM, [])
        else
          part_idx ← index_rows (nrows src) src key_cols num_workers 0;
          parts ← scatter (nrows src) src part_idx 0 (replicate num_workers O) parts;
          match (if timestamps src && (0 <? nrows src)%nat then stamp_parts e 0 counts parts else Some parts) with
          | None => Some (ENOMEM, [])
          | Some parts => Some (0, zip_with set_nrows counts parts)
          end
    end.

(** [graph]: the column of the graph, when the relation has one. *)
Definition col_rel_exchange_partition (e : part_env) (src : rel) (graph : option nat) (fallback : list nat) (num_workers : nat) : option (Z * list rel) :=
  match graph with
  | Some c => if (1 <? num_workers)%nat then col_rel_partition_by_key e src [c] num_workers else col_rel_partition_by_key e src fallback num_workers
  | None => col_rel_partition_by_key e src fallback num_workers
  end.

End Partition.

(** ** Merging *)

(** Whether a NULL or a part of another width is met, and the rows. *)
Fixpoint total_rows (parts : list (option rel)) (nc : nat) (acc : Z) : option Z :=
  match parts with
  | [] => Some acc
  | None :: _ => None
  | Some p :: parts' => if negb (ncols p =? nc)%nat then None else total_rows parts' nc (u64 (acc + Z.of_nat (nrows p)))
  end.

Fixpoint copy_rows (n : nat) (src : rel) (i off : nat) (dst : list row) : option (list row) :=
  match n with
  | O => Some dst
  | S n' =>
      x ← rd (rows src) i;
      x ← lanes_at (ncols src) x 0;
      dst ← wr dst (off + i) x;
      copy_rows n' src (S i) off dst
  end.

Fixpoint copy_parts (parts : list rel) (off : nat) (dst : list row) : option (list row) :=
  match parts with
  | [] => Some dst
  | p :: parts' => dst ← copy_rows (nrows p) p 0 off dst; copy_parts parts' (off + nrows p) dst
  end.

(** The outcomes of its allocations. *)
Record merge_env := Genv { ge_out : bool; ge_realloc : bool; ge_stamps : bool }.

Definition col_rel_merge_partitions (e : merge_env) (parts : list (option rel)) : option (Z * option rel) :=
  match parts with
  | [] => Some (EINVAL, None)
  | first :: _ =>
      let nc := match first with Some p => ncols p | None => O end in
      if (nc =? 0)%nat then Some (EINVAL, None)
      else
        match total_rows parts nc 0, first with
        | Some total, Some p0 =>
            if UINT32_MAX <? total then Some (ENOMEM, None)
            else if negb (ge_out e) then Some (ENOMEM, None)
            else
              let total := Z.to_nat total in
              let merged := new_like p0 in
              let grow := (0 <? total)%nat && negb (total =? capacity merged)%nat in
              if grow && negb (ge_realloc e) then Some (ENOMEM, None)
              else
                let merged := if grow then set_capacity total (set_rows (resized nc total (rows merged)) merged)
                              else if (total =? 0)%nat then set_capacity 0 (set_rows [] merged) else merged in
                l ← copy_parts (omap id parts) 0 (rows merged);
                let has_ts := existsb timestamps (omap id parts) in
                if has_ts && (0 <? total)%nat && negb (ge_stamps e) then Some (ENOMEM, None)
                else
                  let merged := set_nrows total (set_rows l merged) in
                  Some (0, Some (if has_ts && (0 <? total)%nat then set_timestamps true merged else merged))
        | _, _ => Some (EINVAL, None)
        end
  end.

End Partition.
