(* ===== verification/PartitionSpec.v ===== *)
(** * Partitions are the rows of their hash

    Every part holds, in order, the rows whose key hashes to it, in storage of
    exactly that size; merging the parts gives the rows back. *)

From S2P Require Import Prelude RadixSort Relation Consolidate ConsolidateProof DeltaSpec EvalStack Filter FilterProof Partition.

Module PartitionSpec.

Import Keys Rel Consolidate ConsolidateProof EvalStack.EvalStack Filter.Filter FilterProof.FilterProof Partition.Partition.

(** ** Counting *)

Section Counts.

Context {A : Type} (f : A -> nat) (n : nat).

Definition belongs (w : nat) (l : list A) : list A := filter (fun x => f x = w) l.
Definition counts_of (l : list A) : list nat := (fun w => length (belongs w l)) <$> seq 0 n.

Lemma belongs_snoc w l x : belongs w (l ++ [x]) = belongs w l ++ (if decide (f x = w) then [x] else []).
Proof. unfold belongs. rewrite filter_app. f_equal. Qed.

Lemma length_counts l : length (counts_of l) = n.
Proof. unfold counts_of. by rewrite length_fmap, length_seq. Qed.

Lemma counts_lookup l w : (w < n)%nat -> counts_of l !! w = Some (length (belongs w l)).
Proof. intros Hw. unfold counts_of. rewrite list_lookup_fmap, lookup_seq_lt by done. done. Qed.

Lemma counts_snoc l x : (f x < n)%nat -> <[f x := S (length (belongs (f x) l))]> (counts_of l) = counts_of (l ++ [x]).
Proof.
  intros Hx. apply list_eq. intros w. destruct (decide (w < n)%nat) as [Hw|Hw].
  - rewrite (counts_lookup (l ++ [x])), belongs_snoc, length_app by done. destruct (decide (f x = w)) as [<-|Hne]; cbn [length].
    + rewrite list_lookup_insert_eq by (by rewrite length_counts). f_equal. lia.
    + rewrite list_lookup_insert_ne, counts_lookup by done. f_equal. lia.
  - rewrite !lookup_ge_None_2; [done|rewrite length_counts; lia|rewrite length_insert, length_counts; lia].
Qed.

(** The classes together are the list. *)
Lemma parts_permutation l : Forall (fun x => (f x < n)%nat) l -> concat ((fun w => belongs w l) <$> seq 0 n) ≡ₚ l.
Proof.
  intros Hl. enough (H : forall m, (m <= n)%nat -> concat ((fun w => belongs w l) <$> seq 0 m) ≡ₚ filter (fun x => (f x < m)%nat) l).
  { rewrite H by done. clear H. induction Hl as [|x l Hx _ IH]; [done|]. rewrite filter_cons_True by done. by rewrite IH. }
  induction m as [|m IH]; intros Hm; [cbn; by rewrite filter_none by (intros; lia)|]. rewrite seq_S, fmap_app, concat_app. rewrite IH by lia. cbn. rewrite app_nil_r. clear. unfold belongs.
  induction l as [|x l IH]; [done|]. rewrite !filter_cons. repeat case_decide; try lia; rewrite <-?Permutation_middle, ?IH; cbn; rewrite ?IH; done.
Qed.

End Counts.

(** ** Partitioning *)

(** Rows with all their lanes; their values do not matter. *)
Definition rows_fit (r : rel) : Prop := fits r /\ Forall (fun x => length x = ncols r) (stored r).

Section Split.

Context (XXH3 : list Z -> Z) (e : part_env) (r : rel) (key_cols : list nat) (num_workers : nat).
Hypothesis Hr : rows_fit r.
Hypothesis Hkeys : Forall (fun c => (c < ncols r)%nat) key_cols.
Hypothesis Hw : (0 < num_workers)%nat /\ Z.of_nat num_workers < 2 ^ 32.

(** The part of a row. *)
Definition part_of (x : row) : nat :=
  if (num_workers =? 1)%nat then O else Z.to_nat (XXH3 ((fun c => x !!! c) <$> key_cols) mod Z.of_nat num_workers).

Lemma part_of_lt x : (part_of x < num_workers)%nat.
Proof. unfold part_of. destruct (Nat.eqb_spec num_workers 1); [lia|]. pose proof (Z.mod_pos_bound (XXH3 ((fun c => x !!! c) <$> key_cols)) (Z.of_nat num_workers) ltac:(lia)). lia. Qed.

Lemma row_partition_ok x : length x = ncols r -> row_partition_colmajor XXH3 x key_cols num_workers = Some (part_of x).
Proof.
  intros Hx. unfold row_partition_colmajor, part_of. destruct (Nat.eqb_spec num_workers 1); [done|].
  assert (Hm : mapM (rd x) key_cols = Some ((fun c => x !!! c) <$> key_cols)).
  { apply mapM_Some, Forall2_fmap_r, Forall_Forall2_diag. eapply Forall_impl; [exact Hkeys|]. intros c Hc. apply list_lookup_lookup_total_lt. cbn in Hc. lia. }
  rewrite Hm. cbn [mbind option_bind]. do 2 f_equal. apply u32_small. pose proof (Z.mod_pos_bound (XXH3 ((fun c => x !!! c) <$> key_cols)) (Z.of_nat num_workers) ltac:(lia)). mi.
Qed.

(** The row that a pass is at. *)
Lemma pass_row i : (i < nrows r)%nat -> exists x, rd (rows r) i = Some x /\ length x = ncols r /\ lanes_at (ncols r) x 0 = Some x /\ take (S i) (stored r) = take i (stored r) ++ [x] /\ stored r !! i = Some x.
Proof.
  intros Hi. destruct Hr as [Hf Hl]. pose proof (length_stored r Hf) as Hls. destruct (lookup_lt_is_Some_2 (stored r) i ltac:(lia)) as [x Hx]. exists x.
  pose proof (Forall_lookup_1 _ _ _ _ Hl Hx) as Hxl. cbn in Hxl. split_and!; [|done|by apply lanes_whole|by apply take_S_r|done]. unfold stored in Hx. by rewrite lookup_take_lt in Hx.
Qed.

Abbreviation belongs' := (belongs part_of).
Abbreviation counts' := (counts_of part_of num_workers).

Lemma count_parts_ok n i : (i + n = nrows r)%nat -> count_rows XXH3 n r key_cols num_workers i (counts' (take i (stored r))) = Some (counts' (stored r)).
Proof.
  pose proof (length_stored r (proj1 Hr)) as Hls. revert i. induction n as [|n IH]; intros i Hi; cbn [count_rows]; [by rewrite take_ge by lia|].
  destruct (pass_row i ltac:(lia)) as (x & -> & Hx & _ & Ht & _). cbn [mbind option_bind]. rewrite row_partition_ok by done. cbn [mbind option_bind]. unfold rd. pose proof (part_of_lt x) as Hp.
  rewrite counts_lookup by done. cbn [mbind option_bind]. rewrite wr_lt by (by rewrite length_counts). cbn [mbind option_bind]. rewrite counts_snoc, <-Ht by done. apply IH. lia.
Qed.

Lemma index_rows_ok n i : (i + n = nrows r)%nat -> index_rows XXH3 n r key_cols num_workers i = Some (part_of <$> drop i (stored r)).
Proof.
  pose proof (length_stored r (proj1 Hr)) as Hls. revert i. induction n as [|n IH]; intros i Hi; cbn [index_rows]; [by rewrite drop_ge by lia|].
  destruct (pass_row i ltac:(lia)) as (x & -> & Hx & _ & _ & Hs). cbn [mbind option_bind]. rewrite row_partition_ok by done. cbn [mbind option_bind]. rewrite (IH (S i)) by lia. cbn [mbind option_bind].
  by rewrite (drop_S _ _ _ Hs).
Qed.

(** A part with room for [c] rows. *)
Definition blank (c : nat) (p : rel) : Prop := length (rows p) = c /\ capacity p = c /\ lanes p = Sh (ncols r) None /\ nrows p = O.

Lemma new_part_ok c b : (exists p, new_part (ncols r) c b = Some p /\ blank c p) \/ (new_part (ncols r) c b = None /\ b = false).
Proof.
  unfold new_part, blank. destruct (Nat.eqb_spec c COL_REL_INIT_CAP) as [->|]; cbn [negb andb]; [left; eexists; split; [done|]; cbn [rows capacity lanes nrows]; by rewrite length_replicate|].
  destruct (Nat.ltb_spec 0 c).
  - destruct b; cbn [negb]; [|by right]. left. eexists. split; [done|]. cbn [rows capacity lanes nrows set_capacity set_rows]. by rewrite length_resized.
  - assert (c = O) as -> by lia. left. eexists. split; [done|]. done.
Qed.

Definition part_lucky : Prop :=
  pe_counts e = true /\ pe_key_buf e = true /\ (forall w, pe_part e w = 0) /\ (forall w, pe_realloc e w = true) /\ pe_index e = true /\ forall w, pe_stamps e w = true.

Lemma make_parts_ok counts n w : (w + n = length counts)%nat ->
  (exists l, make_parts n e (ncols r) w counts = Some (inl l) /\ Forall2 blank (drop w counts) l) \/ (exists rc, make_parts n e (ncols r) w counts = Some (inr rc) /\ rc <> 0 /\ ~ part_lucky).
Proof.
  revert w. induction n as [|n IH]; intros w Hn; cbn [make_parts]; [left; exists []; rewrite drop_ge by lia; split; [done|constructor]|].
  destruct (lookup_lt_is_Some_2 counts w ltac:(lia)) as [c Hc]. unfold rd. rewrite Hc. cbn [mbind option_bind].
  destruct (Z.eqb_spec (pe_part e w) 0) as [|Hne]; cbn [negb]; [|right; eexists; split; [done|]; split; [done|]; intros (_ & _ & H & _); by rewrite H in Hne].
  destruct (new_part_ok c (pe_realloc e w)) as [(p & -> & Hp)|[-> Hb]]; [|right; eexists; split; [done|]; split; [done|]; intros (_ & _ & _ & H & _); by rewrite H in Hb].
  destruct (IH (S w) ltac:(lia)) as [(l & -> & Hl)|(rc & -> & Hrc & Hno)]; cbn [mbind option_bind]; [left|right].
  - eexists. split; [done|]. rewrite (drop_S _ _ _ Hc). by constructor.
  - by exists rc.
Qed.

(** After the rows [l] were scattered. *)
Record scattered (l : list row) (parts : list rel) : Prop := {
  sc_length : length parts = num_workers;
  sc_part : forall w p, parts !! w = Some p -> length (rows p) = length (belongs' w (stored r)) /\ capacity p = length (belongs' w (stored r)) /\
    lanes p = Sh (ncols r) None /\ take (length (belongs' w l)) (rows p) = belongs' w l }.

Lemma belongs_take w i : (length (belongs' w (take i (stored r))) <= length (belongs' w (stored r)))%nat.
Proof. rewrite <-(take_drop i (stored r)) at 2. unfold belongs. rewrite filter_app, length_app. lia. Qed.

Lemma scatter_parts_ok n i parts : (i + n = nrows r)%nat -> scattered (take i (stored r)) parts ->
  exists parts', scatter n r (part_of <$> stored r) i (counts' (take i (stored r))) parts = Some parts' /\ scattered (stored r) parts'.
Proof.
  pose proof (length_stored r (proj1 Hr)) as Hls. revert i parts. induction n as [|n IH]; intros i parts Hi Hsc; cbn [scatter]; [exists parts; split; [done|]; by rewrite take_ge in Hsc by lia|].
  destruct (pass_row i ltac:(lia)) as (x & Hrx & Hxl & Hlx & Ht & Hs). pose proof (part_of_lt x) as Hp. assert (Hd : rd (part_of <$> stored r) i = Some (part_of x)) by (unfold rd; by rewrite list_lookup_fmap, Hs).
  rewrite Hd. cbn [mbind option_bind]. pose proof (counts_lookup part_of num_workers (take i (stored r)) (part_of x) Hp) as Hc. change (counts' (take i (stored r)) !! part_of x) with (rd (counts' (take i (stored r))) (part_of x)) in Hc.
  rewrite Hc. cbn [mbind option_bind]. destruct (lookup_lt_is_Some_2 parts (part_of x)) as [p Hpx]; [rewrite (sc_length _ _ Hsc); done|]. change (parts !! part_of x) with (rd parts (part_of x)) in Hpx. rewrite Hpx. cbn [mbind option_bind].
  rewrite Hrx. cbn [mbind option_bind]. rewrite Hlx. cbn [mbind option_bind]. destruct (sc_part _ _ Hsc _ p Hpx) as (H1 & H2 & H3 & H4). set (off := length (belongs' (part_of x) (take i (stored r)))) in *.
  assert (Hoff : (off < length (rows p))%nat).
  { rewrite H1. pose proof (belongs_take (part_of x) (S i)) as Hb. rewrite Ht, belongs_snoc, length_app, decide_True in Hb by done. cbn in Hb. fold off in Hb. lia. }
  rewrite (wr_lt (rows p) off x) by exact Hoff. cbn [mbind option_bind]. rewrite (wr_lt parts) by (by eapply lookup_lt_Some). cbn [mbind option_bind]. rewrite wr_lt by (by rewrite length_counts). cbn [mbind option_bind].
  unfold off. rewrite counts_snoc by done. rewrite <-Ht. apply IH; [lia|]. split; [rewrite length_insert; apply Hsc|]. intros w q Hq. rewrite Ht, belongs_snoc. destruct (decide (part_of x = w)) as [<-|Hne].
  - rewrite list_lookup_insert_eq in Hq by (by eapply lookup_lt_Some). injection Hq as <-. cbn [rows capacity lanes set_rows]. rewrite length_insert. split_and!; [done..|]. rewrite length_app, Nat.add_1_r. fold off.
    rewrite (take_S_r _ _ x) by (by apply list_lookup_insert_eq). by rewrite take_insert_ge, H4 by lia.
  - rewrite list_lookup_insert_ne in Hq by done. rewrite app_nil_r. by apply (sc_part _ _ Hsc).
Qed.

Lemma stamp_parts_ok parts : forall w counts,
  (exists l, stamp_parts e w counts parts = Some l /\ length l = length parts /\ forall v p, l !! v = Some p -> exists q, parts !! v = Some q /\ (p = q \/ p = set_timestamps true q)) \/
  (stamp_parts e w counts parts = None /\ ~ part_lucky).
Proof.
  induction parts as [|p parts IH]; intros w [|c counts]; cbn [stamp_parts]; [left; eexists; split; [done|]; split; [done|]; intros; eauto..|].
  assert (Hcons : forall p' (l : list rel), (p' = p \/ p' = set_timestamps true p) -> (forall v p, l !! v = Some p -> exists q, parts !! v = Some q /\ (p = q \/ p = set_timestamps true q)) ->
    forall v y, (p' :: l) !! v = Some y -> exists q, (p :: parts) !! v = Some q /\ (y = q \/ y = set_timestamps true q)).
  { intros p' l Hp' Hl [|v] y Hy; cbn in *; [injection Hy as <-; eauto|by apply Hl]. }
  destruct (IH (S w) counts) as [(l & Hl & Hlen & Hq)|[Hl Hno]]; rewrite Hl; cbn [mbind option_bind].
  - destruct (c =? 0)%nat; [left; eexists; split; [done|]; split; [cbn; by rewrite Hlen|by apply Hcons; [left|]]|].
    destruct (pe_stamps e w) eqn:Hst; cbn [negb]; [left; eexists; split; [done|]; split; [cbn; by rewrite Hlen|by apply Hcons; [right|]]|]. right. split; [done|]. intros (_ & _ & _ & _ & _ & H). by rewrite H in Hst.
  - right. destruct (c =? 0)%nat; [done|]. by destruct (negb (pe_stamps e w)).
Qed.

(** What the parts are. *)
Definition split_into (parts : list rel) : Prop :=
  length parts = num_workers /\ forall w p, parts !! w = Some p -> lanes p = Sh (ncols r) None /\ fits p /\ capacity p = nrows p /\ stored p = belongs' w (stored r).

Lemma partition_ok : key_cols <> [] -> (0 < ncols r)%nat ->
  exists rc parts, col_rel_partition_by_key XXH3 e r key_cols num_workers = Some (rc, parts) /\ ((rc = 0 /\ split_into parts) \/ (rc <> 0 /\ parts = [] /\ ~ part_lucky)).
Proof.
  intros Hne Hnc. unfold col_rel_partition_by_key. rewrite (proj2 (Nat.eqb_neq (length key_cols) 0)) by (by destruct key_cols). rewrite (proj2 (Nat.eqb_neq num_workers 0)), (proj2 (Nat.eqb_neq (ncols r) 0)) by lia. cbn [orb].
  assert (Hex : existsb (fun c => (ncols r <=? c)%nat) key_cols = false).
  { apply not_true_is_false. intros (c & Hc & Hle)%existsb_exists. apply list_elem_of_In in Hc. apply (proj1 (Forall_forall _ _) Hkeys) in Hc. apply Nat.leb_le in Hle. lia. }
  rewrite Hex. destruct (_ && negb (pe_counts e)) eqn:H1; [eexists _, _; split; [done|]; right; split_and!; [done..|]; intros (H & _); by rewrite H, andb_false_r in H1|].
  destruct (_ && negb (pe_key_buf e)) eqn:H2; [eexists _, _; split; [done|]; right; split_and!; [done..|]; intros (_ & H & _); by rewrite H, andb_false_r in H2|].
  assert (Hzero : forall l : list row, l = [] -> counts' l = replicate num_workers O).
  { intros l ->. unfold counts_of, belongs. apply list_eq. intros w. rewrite list_lookup_fmap. destruct (decide (w < num_workers)%nat); [by rewrite lookup_seq_lt, lookup_replicate_2|rewrite lookup_seq_ge by lia; symmetry; apply lookup_ge_None; rewrite length_replicate; lia]. }
  rewrite <-(Hzero (take 0 (stored r))) by done. rewrite count_parts_ok by lia. cbn [mbind option_bind].
  destruct (make_parts_ok (counts' (stored r)) num_workers 0) as [(parts & -> & Hparts)|(rc & -> & Hrc & Hno)]; [by rewrite length_counts| |]; cbn [mbind option_bind]; [|by exists rc, []; split; [|right]].
  rewrite drop_0 in Hparts. destruct (_ && negb (pe_index e)) eqn:H3; [eexists _, _; split; [done|]; right; split_and!; [done..|]; intros (_ & _ & _ & _ & H & _); by rewrite H, andb_false_r in H3|].
  rewrite index_rows_ok by lia. cbn [mbind option_bind]. rewrite drop_0.
  destruct (scatter_parts_ok (nrows r) 0 parts) as (parts1 & -> & Hsc); [lia| |].
  { split; [by rewrite <-(Forall2_length _ _ _ Hparts), length_counts|]. intros w p Hp. destruct (Forall2_lookup_r _ _ _ _ _ Hparts Hp) as (c & Hc & B1 & B2 & B3 & _).
    assert (Hwn : (w < num_workers)%nat) by (apply lookup_lt_Some in Hc; by rewrite length_counts in Hc). rewrite counts_lookup in Hc by done. injection Hc as <-. done. }
  cbn [mbind option_bind].
  assert (Hdone : forall l, length l = length parts1 -> (forall v p, l !! v = Some p -> exists q, parts1 !! v = Some q /\ (p = q \/ p = set_timestamps true q)) -> split_into (zip_with set_nrows (counts' (stored r)) l)).
  { intros l Hl Hq. pose proof (sc_length _ _ Hsc) as Hn1. split; [rewrite length_zip_with, length_counts; lia|]. intros w p Hp. apply lookup_zip_with_Some in Hp as (c & q & -> & Hc & Hqw).
    assert (Hwn : (w < num_workers)%nat) by (apply lookup_lt_Some in Hc; by rewrite length_counts in Hc). rewrite counts_lookup in Hc by done. injection Hc as <-.
    destruct (Hq w q Hqw) as (q0 & Hq0 & Hqq). destruct (sc_part _ _ Hsc w q0 Hq0) as (S1 & S2 & S3 & S4). set (B := belongs' w (stored r)) in *. clearbody B. destruct Hqq as [-> | ->]; unfold fits, stored; cbn [nrows capacity rows lanes set_nrows set_timestamps]; rewrite ?S1, ?S2; (split; [done|]; split; [lia|]; split; done). }
  destruct (timestamps r && _).
  - destruct (stamp_parts_ok parts1 0 (counts' (stored r))) as [(l & -> & Hl & Hq)|[-> Hno]]; eexists _, _; (split; [done|]); [left|right; by split_and!]. split; [done|]. by apply Hdone.
  - eexists _, _. split; [done|]. left. split; [done|]. apply Hdone; [done|]. intros v p Hp. exists p. auto.
Qed.

End Split.

(** ** Merging *)

Definition rows_in (ps : list rel) : nat := foldr (fun p n => (nrows p + n)%nat) O ps.

Lemma length_concat_stored ps : Forall fits ps -> length (concat (stored <$> ps)) = rows_in ps.
Proof. induction 1 as [|p ps Hp _ IH]; [done|]. cbn. rewrite length_app, length_stored, IH by done. done. Qed.

Lemma copy_rows_ok (src : rel) off : rows_fit src -> forall n i dst, (i + n = nrows src)%nat -> (off + nrows src <= length dst)%nat ->
  copy_rows n src i off dst = Some (take (off + i) dst ++ drop i (stored src) ++ drop (off + nrows src) dst).
Proof.
  intros [Hf Hl]. pose proof (length_stored src Hf) as Hls. induction n as [|n IH]; intros i dst Hi Hd; cbn [copy_rows].
  - rewrite (drop_ge (stored src)) by lia. cbn [app]. replace (off + nrows src)%nat with (off + i)%nat by lia. by rewrite take_drop.
  - destruct (lookup_lt_is_Some_2 (stored src) i ltac:(lia)) as [x Hx]. pose proof (Forall_lookup_1 _ _ _ _ Hl Hx) as Hxl. cbn in Hxl.
    assert (Hrx : rd (rows src) i = Some x) by (unfold stored in Hx; by rewrite lookup_take_lt in Hx by lia). rewrite Hrx. cbn [mbind option_bind]. rewrite lanes_whole by done. cbn [mbind option_bind].
    rewrite (wr_lt dst) by lia. cbn [mbind option_bind]. rewrite IH by (rewrite ?length_insert; lia). f_equal. rewrite (drop_S _ _ _ Hx). replace (off + S i)%nat with (S (off + i)) by lia.
    rewrite (take_S_r _ _ x) by (apply list_lookup_insert_eq; lia). rewrite take_insert_ge, drop_insert_lt by lia. rewrite <-app_assoc. done.
Qed.

Lemma copy_parts_ok ps : Forall rows_fit ps -> forall off dst, (off + rows_in ps <= length dst)%nat ->
  copy_parts ps off dst = Some (take off dst ++ concat (stored <$> ps) ++ drop (off + rows_in ps) dst).
Proof.
  induction 1 as [|p ps Hp Hps IH]; intros off dst Hd; cbn [copy_parts rows_in foldr fmap list_fmap concat] in *; [rewrite Nat.add_0_r; cbn [app]; by rewrite take_drop|].
  fold (rows_in ps) in *. pose proof (length_stored p (proj1 Hp)) as Hls. rewrite copy_rows_ok by (done || lia). cbn [mbind option_bind]. rewrite drop_0, Nat.add_0_r.
  assert (Hlen : length (take off dst ++ stored p) = (off + nrows p)%nat) by (rewrite length_app, length_take, Hls; lia).
  rewrite IH by (rewrite !length_app, length_drop, length_take; lia). f_equal. rewrite !app_assoc. rewrite take_app_le by lia. rewrite take_ge by lia. rewrite drop_app_ge by lia. rewrite drop_drop, Hlen.
  do 2 f_equal. lia.
Qed.

Lemma omap_some {A} (l : list A) : omap id (Some <$> l) = l.
Proof. induction l as [|x l IH]; [done|]. cbn. by rewrite IH. Qed.

Lemma total_rows_ok ps nc : Forall (fun p : rel => ncols p = nc) ps -> forall acc, 0 <= acc -> acc + Z.of_nat (rows_in ps) < 2 ^ 64 -> total_rows (Some <$> ps) nc acc = Some (acc + Z.of_nat (rows_in ps)).
Proof.
  induction 1 as [|p ps Hp _ IH]; intros acc Ha Hb; cbn [total_rows fmap list_fmap rows_in foldr] in *; [by rewrite Z.add_0_r|]. fold (rows_in ps) in *. rewrite Hp, Nat.eqb_refl. cbn [negb].
  rewrite u64_small by mi. rewrite IH by lia. f_equal. lia.
Qed.

Definition merge_lucky (e : merge_env) : Prop := ge_out e = true /\ ge_realloc e = true /\ ge_stamps e = true.

(** The merged relation: the parts one after the other, with the lanes of the
    first. *)
Definition merged_from (ps : list rel) (m : rel) : Prop :=
  (forall p0, head ps = Some p0 -> lanes m = lanes p0) /\ fits m /\ stored m = concat (stored <$> ps).

Lemma merge_ok e ps nc : ps <> [] -> (0 < nc)%nat -> Forall rows_fit ps -> Forall (fun p : rel => ncols p = nc) ps -> Z.of_nat (rows_in ps) <= UINT32_MAX ->
  exists rc m, col_rel_merge_partitions e (Some <$> ps) = Some (rc, m) /\ ((rc = 0 /\ exists m', m = Some m' /\ merged_from ps m') \/ (rc = ENOMEM /\ m = None /\ ~ merge_lucky e)).
Proof.
  intros Hne Hnc Hps Hcols Hsmall. destruct ps as [|p0 ps]; [done|]. set (all := p0 :: ps) in *. assert (Hc0 : ncols p0 = nc) by (by apply Forall_cons in Hcols as [? _]).
  unfold col_rel_merge_partitions. change (Some <$> all) with (Some p0 :: (Some <$> ps)). cbv beta iota. rewrite Hc0. rewrite (proj2 (Nat.eqb_neq nc 0)) by lia. change (Some p0 :: (Some <$> ps)) with (Some <$> all).
  rewrite (total_rows_ok all nc Hcols 0) by mi. cbv beta iota. rewrite Z.add_0_l. rewrite (proj2 (Z.ltb_ge _ _)) by lia. rewrite Nat2Z.id.
  destruct (ge_out e) eqn:H1; cbn [negb]; [|eexists _, _; split; [done|]; right; split_and!; [done..|]; intros (? & _); congruence].
  set (n := rows_in all) in *. set (grow := (0 <? n)%nat && negb (n =? capacity (new_like p0))%nat). destruct (grow && negb (ge_realloc e)) eqn:H2.
  { eexists _, _. split; [done|]. right. split_and!; [done..|]. intros (_ & H & _). by rewrite H, andb_false_r in H2. }
  set (m0 := if grow then _ else _). assert (Hm0 : length (rows m0) = n /\ capacity m0 = n /\ lanes m0 = lanes p0).
  { unfold m0, grow. change (capacity (new_like p0)) with COL_REL_INIT_CAP. destruct (Nat.ltb_spec 0 n); cbn [andb]; [destruct (Nat.eqb_spec n COL_REL_INIT_CAP) as [->|]; cbn [negb]|].
    - cbn [Nat.eqb COL_REL_INIT_CAP]. cbn [rows capacity lanes new_like]. by rewrite length_replicate.
    - cbn [rows capacity lanes new_like set_capacity set_rows]. by rewrite length_resized.
    - assert (Hn0 : n = O) by lia. rewrite Hn0. done. }
  clearbody m0. destruct Hm0 as (M1 & M2 & M3). rewrite omap_some. rewrite (copy_parts_ok all Hps 0 (rows m0)) by (fold n; lia). fold n. cbn [mbind option_bind]. rewrite take_0, (drop_ge (rows m0)), app_nil_r by lia. cbn [app].
  destruct (_ && negb (ge_stamps e)) eqn:H3; [eexists _, _; split; [done|]; right; split_and!; [done..|]; intros (_ & _ & H); by rewrite H, andb_false_r in H3|].
  eexists _, _. split; [done|]. left. split; [done|]. eexists. split; [done|].
  assert (Hlen : length (concat (stored <$> all)) = n) by (apply length_concat_stored; eapply Forall_impl; [exact Hps|]; by intros p [H _]). unfold merged_from. set (C := concat (stored <$> all)) in *. clearbody C.
  destruct (existsb timestamps all && (0 <? n)%nat); (split; [intros p [= <-]; exact M3|]); unfold fits, stored; cbn [nrows capacity rows set_nrows set_rows set_timestamps]; (split; [lia|]); by rewrite take_ge by lia.
Qed.

(** ** The theorems *)

(** C19: Partitioning puts every row, in the order of the relation, into the
    part that its key hashes to, in storage of exactly the part's size, and
    never writes outside it; on a failed allocation there are no parts. *)
Theorem partition_exact XXH3 e r key_cols num_workers :
  rows_fit r -> key_cols <> [] -> (0 < ncols r)%nat -> Forall (fun c => (c < ncols r)%nat) key_cols -> (0 < num_workers)%nat /\ Z.of_nat num_workers < 2 ^ 32 ->
  exists rc parts, col_rel_partition_by_key XXH3 e r key_cols num_workers = Some (rc, parts) /\
    ((rc = 0 /\ split_into XXH3 r key_cols num_workers parts) \/ (rc <> 0 /\ parts = [] /\ ~ part_lucky e)).
Proof. intros Hr Hne Hnc Hk Hw. by apply partition_ok. Qed.

(** C20: With enough memory, merging the parts of a relation of at most 2^32 - 1
    rows gives a relation with as many columns, whose types are forgotten, and
    with the same rows, each as often as before. *)
Theorem partition_merge_round_trip XXH3 e g r key_cols num_workers :
  part_lucky e -> merge_lucky g -> rows_fit r -> key_cols <> [] -> (0 < ncols r)%nat -> Forall (fun c => (c < ncols r)%nat) key_cols ->
  (0 < num_workers)%nat /\ Z.of_nat num_workers < 2 ^ 32 -> Z.of_nat (nrows r) <= UINT32_MAX ->
  exists parts m, col_rel_partition_by_key XXH3 e r key_cols num_workers = Some (0, parts) /\ col_rel_merge_partitions g (Some <$> parts) = Some (0, Some m) /\ lanes m = Sh (ncols r) None /\ fits m /\ stored m ≡ₚ stored r.
Proof.
  intros He Hg Hr Hne Hnc Hk Hw Hbig. destruct (partition_ok XXH3 e r key_cols num_workers Hr Hk Hw Hne Hnc) as (rc & parts & Hp & [(-> & Hlen & Hparts)|(_ & _ & Hno)]); [|done].
  assert (Hst : stored <$> parts = (fun w => belongs (part_of XXH3 key_cols num_workers) w (stored r)) <$> seq 0 num_workers).
  { apply list_eq. intros w. rewrite !list_lookup_fmap. destruct (parts !! w) as [p|] eqn:Hpw; cbn.
    - rewrite lookup_seq_lt by (apply lookup_lt_Some in Hpw; lia). cbn. f_equal. by apply Hparts.
    - rewrite lookup_seq_ge by (apply lookup_ge_None in Hpw; lia). done. }
  assert (Hperm : concat (stored <$> parts) ≡ₚ stored r).
  { rewrite Hst. apply parts_permutation, Forall_forall. intros x _. by apply part_of_lt. }
  assert (Hfit : Forall rows_fit parts /\ Forall (fun p : rel => ncols p = ncols r) parts).
  { split; apply Forall_lookup; intros w p Hpw; destruct (Hparts w p Hpw) as (Hl & Hf & _ & Hs); [|by rewrite Hl]. split; [done|]. rewrite Hs, Hl. apply Forall_forall. intros x [_ Hx]%list_elem_of_filter. exact (proj1 (Forall_forall _ _) (proj2 Hr) x Hx). }
  destruct (merge_ok g parts (ncols r)) as (rc & m & Hm & [(-> & m' & -> & Hlm & Hfm & Hsm)|(_ & _ & Hno)]); [by destruct parts; cbn in Hlen; [lia|]|done|apply Hfit|apply Hfit| | |done].
  - rewrite <-length_concat_stored by (eapply Forall_impl; [exact (proj1 Hfit)|]; by intros p [H _]). rewrite Hperm, (length_stored r (proj1 Hr)). done.
  - exists parts, m'. split; [done|]. split; [done|]. split; [|split; [done|by rewrite Hsm]]. destruct parts as [|p ps]; [cbn in Hlen; lia|]. rewrite (Hlm p eq_refl). by apply (Hparts 0%nat p).
Qed.

(** Four rows split by the sum of their key. *)
Definition four : rel := DeltaSpec.of_rows DeltaSpec.pairs [[1; 5]; [2; 7]; [3; 3]; [4; 1]] 0 [].
Definition rich_part : part_env := Penv true true (fun _ => 0) (fun _ => true) true (fun _ => true).
Definition key_sum (key : list Z) : Z := foldr Z.add 0 key.

Lemma four_fits : rows_fit four.
Proof. split; [split; vm_compute; lia|]. repeat constructor. Qed.

Definition part_rows (x : option (Z * list rel)) : option (Z * list (list row)) := match x with Some (rc, l) => Some (rc, map stored l) | None => None end.

Lemma partition_exact_witness : exists rc parts, col_rel_partition_by_key key_sum rich_part four [0%nat] 2 = Some (rc, parts) /\ part_rows (Some (rc, parts)) = Some (0, [[[2; 7]; [4; 1]]; [[1; 5]; [3; 3]]]).
Proof.
  destruct (partition_exact key_sum rich_part four [0%nat] 2) as (rc & parts & Hp & _).
  - exact four_fits.
  - discriminate.
  - vm_compute. lia.
  - repeat constructor; vm_compute; lia.
  - split; vm_compute; [lia|reflexivity].
  - exists rc, parts. split; [exact Hp|]. rewrite <-Hp. vm_compute. reflexivity.
Defined.

Lemma partition_merge_round_trip_witness : exists parts m, col_rel_partition_by_key key_sum rich_part four [0%nat] 2 = Some (0, parts) /\
  col_rel_merge_partitions (Genv true true true) (Some <$> parts) = Some (0, Some m) /\ lanes m = Sh 2 None /\ fits m /\ stored m ≡ₚ stored four.
Proof.
  apply (partition_merge_round_trip key_sum rich_part (Genv true true true) four [0%nat] 2).
  - vm_compute. split_and!; reflexivity.
  - vm_compute. split_and!; reflexivity.
  - exact four_fits.
  - discriminate.
  - vm_compute. lia.
  - repeat constructor; vm_compute; lia.
  - split; vm_compute; [lia|reflexivity].
  - vm_compute. discriminate.
Defined.

(** The parts have no column types: a part of a float relation is refused by
    the relation it was taken from. *)
Definition float_rel : rel := DeltaSpec.of_rows (Sh 1 (Some [TYPE_FLOAT])) [[4607182418800017408]] 0 [].

Example partition_forgets_float_columns :
  match col_rel_partition_by_key key_sum rich_part float_rel [0%nat] 1 with
  | Some (0, [p]) => stored p = stored float_rel /\ column_types p = None /\ append_checked true true float_rel p = Some (float_rel, EINVAL)
  | _ => False
  end.
Proof. vm_compute. split_and!; reflexivity. Qed.

End PartitionSpec.
