(* ===== verification/HashJoin.v ===== *)
(** * Hash joins (src/wirelog/columnar/join.c)

    The keys of a join, the chained hash table over the rows of the right input,
    and the antijoin and semijoin operators.  The names of a relation's columns
    are not a field of [rel]; they are an argument beside it.  The semijoin may
    split its left rows among the workers of a queue: the order in which the
    workers run is an argument. *)

From S2P Require Import Prelude RadixSort Relation Consolidate StringOps Expr EvalStack Filter RowOps.

Module HashJoin.

Import Keys Rel Consolidate StringOps.StringOps Expr.Expr EvalStack.EvalStack Filter.Filter RowOps.RowOps.

(** ** Key columns *)

Abbreviation names := (option (list (option str))).

(** strtol and strtoul in base 10: the sign, the magnitude and the number of
    digits, and what follows them; without digits the scan ends where it began. *)
Definition scan_number (s : str) : bool * Z * nat * str :=
  let t := skip_space s in
  let '(neg, t) := match t with c :: t' => if c =? 45 then (true, t') else if c =? 43 then (false, t') else (false, t) | [] => (false, []) end in
  let '(v, n) := scan_digits t 0 0 in
  (neg, v, n, if (n =? 0)%nat then s else drop n t).

Definition strtol (s : str) : Z * str :=
  let '(neg, v, _, rest) := scan_number s in
  let v := if neg : bool then - v else v in
  (if v <? INT64_MIN then INT64_MIN else if INT64_MAX <? v then INT64_MAX else v, rest).

(** for (i < r->ncols), [n] left. *)
Fixpoint find_name (n : nat) (ns : list (option str)) (name : str) (i : nat) : option (option nat) :=
  match n with
  | O => Some None
  | S n' => x ← rd ns i; if bool_decide (x = Some name) then Some (Some i) else find_name n' ns name (S i)
  end.

Definition col_rel_col_idx (ns : names) (nc : nat) (name : option str) : option Z :=
  match ns, name with
  | Some ns, Some name =>
      found ← find_name nc ns name 0;
      Some (match found, name with
            | Some i, _ => Z.of_nat i
            | None, 99 :: 111 :: 108 :: digits =>
                let '(v, rest) := strtol digits in
                if (length rest =? 0)%nat && (0 <=? v) && (u32 v <? Z.of_nat nc) then u32 v else -1
            | None, _ => -1
            end)
  | _, _ => Some (-1)
  end.

(** A name that is not found stands for column 0. *)
Definition col_op_resolve_key (ns : names) (nc : nat) (name : option str) : option nat :=
  idx ← col_rel_col_idx ns nc name; Some (if 0 <=? idx then Z.to_nat idx else O).

(** op->left_keys ? op->left_keys[k] : NULL for k < kc *)
Definition resolve_keys (ns : names) (nc : nat) (keys : option (list (option str))) (kc : nat) : option (list nat) :=
  mapM (fun k => name ← (match keys with Some l => rd l k | None => Some None end); col_op_resolve_key ns nc name) (seq 0 kc).

Fixpoint col_join_key_types_compatible (left : shape) (lk : list nat) (right : shape) (rk : list nat) : option bool :=
  match lk, rk with
  | l :: lk', r :: rk' =>
      lt ← column_type_at left l;
      rt ← column_type_at right r;
      if negb (Bool.eqb (is_float lt) (is_float rt)) then Some false else col_join_key_types_compatible left lk' right rk'
  | _, _ => Some true
  end.

(** wl_columnar_value_equal of a cell of the left and a cell of the right
    relation. *)
Definition columnar_value_equal (left : shape) (lc : nat) (a : Z) (right : shape) (rc : nat) (b : Z) : option bool :=
  lt ← column_type_at left lc;
  rt ← column_type_at right rc;
  Some (if negb (bool_decide (lt = rt)) then false else value_equal lt a b).

Fixpoint hash_keys (r : rel) (i : nat) (keys : list nat) (h : Z) : option Z :=
  match keys with
  | [] => Some h
  | k :: keys' => ty ← column_type_at r k; v ← col_rel_get r i k; hash_keys r i keys' (hash_value h ty v)
  end.
Definition JOIN_HASH_SEED : Z := 2166136261.
Definition col_join_hash_rel_keys (r : rel) (i : nat) (keys : list nat) : option Z := hash_keys r i keys JOIN_HASH_SEED.

Fixpoint col_join_keys_match_rel (left : rel) (lr : nat) (lk : list nat) (right : rel) (rr : nat) (rk : list nat) : option bool :=
  match lk, rk with
  | l :: lk', r :: rk' =>
      a ← col_rel_get left lr l;
      b ← col_rel_get right rr r;
      same ← columnar_value_equal left l a right r b;
      if negb same then Some false else col_join_keys_match_rel left lr lk' right rr rk'
  | _, _ => Some true
  end.

(** ** The table: heads of chains of row numbers plus one, 0 at the end *)

(** [None]: ENOMEM *)
Definition col_join_bucket_count (n : Z) : option Z :=
  if UINT32_MAX / 2 <? n then None
  else
    let count := next_pow2 (if 0 <? n then u32 (n * 2) else 1) in
    if count =? 0 then None else Some count.

(** for (rr < right->nrows), [n] left. *)
Fixpoint build_chains (n : nat) (r : rel) (keys : list nat) (mask : Z) (i : nat) (head next : list Z) : option (list Z * list Z) :=
  match n with
  | O => Some (head, next)
  | S n' =>
      h ← col_join_hash_rel_keys r i keys;
      let b := Z.to_nat (Z.land h mask) in
      e ← rd head b;
      next ← wr next i e;
      head ← wr head b (u32 (Z.of_nat i + 1));
      build_chains n' r keys mask (S i) head next
  end.

(** for (e = head[h]; e != 0 && !found; e = next[e - 1]) *)
Fixpoint chain_found (fuel : nat) (test : nat -> option bool) (next : list Z) (e : Z) : option bool :=
  match fuel with
  | O => None
  | S fuel' =>
      if e =? 0 then Some false
      else
        let rr := Z.to_nat (e - 1) in
        found ← test rr;
        if found : bool then Some true else e ← rd next rr; chain_found fuel' test next e
  end.

(** The two inputs of a probe with their key columns, and the table. *)
Record probe := Probe { p_left : rel; p_lk : list nat; p_right : rel; p_rk : list nat; p_mask : Z; p_head : list Z; p_next : list Z }.

Definition left_hash (p : probe) (lr : nat) : option Z := h ← col_join_hash_rel_keys (p_left p) lr (p_lk p); Some (Z.land h (p_mask p)).

Definition probe_at (p : probe) (lr : nat) (h : Z) : option bool :=
  e ← rd (p_head p) (Z.to_nat h);
  chain_found (S (nrows (p_right p))) (fun rr => col_join_keys_match_rel (p_left p) lr (p_lk p) (p_right p) rr (p_rk p)) (p_next p) e.

Definition row_matches (p : probe) (lr : nat) : option bool := h ← left_hash p lr; probe_at p lr h.

Section Ops.

Context {W : Type} `{!Host W} {K : Type}.

(** ** The operators' arguments *)

(** The fields of the operator that an antijoin and a semijoin read. *)
Record join_op := Jop {
  left_keys : option (list (option str));
  right_keys : option (list (option str));
  key_count : nat;
  j_project_count : nat;
  j_project_indices : option (list nat);
  right_filter_expr : list Z }.

(** The outcomes of the allocations. *)
Record join_env := Jenv {
  je_filter : filter_env;
  je_keys : bool;
  je_out : bool;
  je_pooled : bool;
  je_types : bool;
  je_tables : bool;
  je_tmp : bool;
  je_grow : nat -> bool }.

(** The right input: filtered when the operator has a predicate for it.
    [None] inside: no memory.  The flag tells whether it is a filtered copy. *)
Definition filtered_right (e : join_env) (table : bool) (sessions : list Z) (op : join_op) (right : rel) (w : W) : option (W * option (rel * bool)) :=
  if (0 <? length (right_filter_expr op))%nat then
    '(w, f) ← apply_right_filter (je_filter e) table sessions (right_filter_expr op) right w;
    Some (w, match f with Some f => Some (f, true) | None => None end)
  else Some (w, Some (right, false)).

(** ** ANTIJOIN *)

(** for (lr < left->nrows && aj_rc == 0), [n] left. *)
Fixpoint anti_loop (n : nat) (e : join_env) (p : probe) (lr : nat) (out : rel) : option (rel * Z) :=
  match n with
  | O => Some (out, 0)
  | S n' =>
      found ← row_matches p lr;
      if found : bool then anti_loop n' e p (S lr) out
      else
        x ← rd (rows (p_left p)) lr;
        x ← lanes_at (ncols (p_left p)) x 0;
        '(out, rc) ← col_rel_append_row (je_grow e (nrows out)) out x;
        if negb (rc =? 0) then Some (out, rc) else anti_loop n' e p (S lr) out
  end.

(** [found]: the right relation of the session, with the names of its columns.
    The world, the stack, the code and what was freed. *)
Definition antijoin_op (e : join_env) (table : bool) (sessions : list Z) (op : join_op) (left_names : names) (found : option (rel * names)) (s : stack K) (w : W) :
    option (W * stack K * Z * list (resource K)) :=
  let '(s, pop_rc, en, freed) := eval_stack_pop_relation s in
  if negb (pop_rc =? 0) then Some (w, s, pop_rc, freed)
  else
    match e_rel en, found with
    | None, _ => None
    | Some lrel, None => let '(s, rc) := eval_stack_push s (Some lrel) (owned en) in Some (w, s, rc, [])
    | Some lrel, Some (rrel, right_names) =>
        let input := if owned en then [F_relation lrel] else [] in
        '(w, f) ← filtered_right e table sessions op rrel w;
        match f with
        | None => Some (w, s, ENOMEM, input)
        | Some (rrel, is_copy) =>
            let copy := if is_copy : bool then [F_relation rrel] else [] in
            if negb (je_keys e) then Some (w, s, ENOMEM, input)
            else
              lk ← resolve_keys left_names (ncols lrel) (left_keys op) (key_count op);
              rk ← resolve_keys right_names (ncols rrel) (right_keys op) (key_count op);
              compatible ← col_join_key_types_compatible lrel lk rrel rk;
              if negb compatible then Some (w, s, EINVAL, copy ++ input)
              else if negb (je_out e) then Some (w, s, ENOMEM, input)
              else
                let out := new_like lrel in
                match col_join_bucket_count (Z.of_nat (nrows rrel)) with
                | None => Some (w, s, ENOMEM, F_relation out :: copy ++ input)
                | Some nbuckets =>
                    if negb (je_tables e) then Some (w, s, ENOMEM, F_relation out :: input)
                    else
                      let mask := nbuckets - 1 in
                      '(head, next) ← build_chains (nrows rrel) rrel rk mask 0 (replicate (Z.to_nat nbuckets) 0) (replicate (S (nrows rrel)) 0);
                      '(out, rc) ← (if negb (je_tmp e) then Some (out, ENOMEM) else anti_loop (nrows lrel) e (Probe lrel lk rrel rk mask head next) 0 out);
                      if negb (rc =? 0) then Some (w, s, rc, F_relation out :: input)
                      else
                        let '(s, rc) := eval_stack_push s (Some out) true in
                        Some (w, s, rc, input ++ copy)
                end
        end
    end.

(** ** SEMIJOIN *)

Definition WL_JOIN_PAR_MIN_LEFT_ROWS_DEFAULT : Z := 4096.

(** [env]: the value of the environment variable, if it is set. *)
Definition col_join_parallel_min_left_rows (env : option str) : Z :=
  match env with
  | None | Some [] => WL_JOIN_PAR_MIN_LEFT_ROWS_DEFAULT
  | Some s =>
      let '(neg, v, n, rest) := scan_number s in
      let out_of_range := UINT64_MAX <? v in
      let v := if neg : bool then u64 (- v) else v in
      if (n =? 0)%nat || negb (length rest =? 0)%nat || out_of_range || (UINT32_MAX <? v) then WL_JOIN_PAR_MIN_LEFT_ROWS_DEFAULT else v
  end.

(** col_join_set_left_output_types: the types of the output. *)
Definition left_output_types (op : join_op) (left : shape) : option (list column_type) :=
  mapM (fun c =>
    source ← (if (0 <? j_project_count op)%nat then match j_project_indices op with Some l => rd l c | None => None end else Some c);
    group_type left source)
    (seq 0 (if (0 <? j_project_count op)%nat then j_project_count op else ncols left)).

(** The cells of the output row of left row [x]. *)
Definition semi_row (op : join_op) (left : shape) (x : row) : option row :=
  match j_project_indices op with
  | Some l =>
      if (0 <? j_project_count op)%nat then mapM (fun c => si ← rd l c; if (si <? ncols left)%nat then rd x si else Some 0) (seq 0 (j_project_count op))
      else lanes_at (ncols left) x 0
  | None => lanes_at (ncols left) x 0
  end.

(** *** The workers *)

(** The session's part of the decision, the outcomes of the allocations and of
    the submissions, and the orders in which the submitted tasks run. *)
Record par_env := Par {
  coordinator : bool;
  num_workers : Z;
  min_left_env : option str;
  pa_queue : bool;
  pa_ctxs : bool;
  pa_hashes : bool;
  pa_count : nat -> bool;
  pa_reserve : bool;
  pa_fill : nat -> bool;
  pa_count_order : list nat;
  pa_fill_order : list nat }.

(** The left rows of worker [w]. *)
Definition chunk_bounds (nrows n w : Z) : Z * Z :=
  let chunk := u32 (nrows + n - 1) / n in
  let b := u32 (w * chunk) in
  let e := u32 (b + chunk) in
  (Z.min b nrows, Z.min e nrows).

(** [hashes]: left_hashes, NULL when it could not be allocated. *)
Definition col_semijoin_row_found (p : probe) (hashes : option (list Z)) (lr : nat) : option bool :=
  h ← (match hashes with Some l => rd l lr | None => left_hash p lr end);
  probe_at p lr h.

Fixpoint count_worker (n : nat) (p : probe) (lr : nat) (hashes : option (list Z)) (count : nat) : option (option (list Z) * nat) :=
  match n with
  | O => Some (hashes, count)
  | S n' =>
      hashes ← (match hashes with Some l => h ← left_hash p lr; l ← wr l lr h; Some (Some l) | None => Some None end);
      found ← col_semijoin_row_found p hashes lr;
      count_worker n' p (S lr) hashes (if found : bool then S count else count)
  end.

Fixpoint run_counts (order : list nat) (pa : par_env) (p : probe) (n : Z) (hashes : option (list Z)) (counts : list nat) : option (option (list Z) * list nat) :=
  match order with
  | [] => Some (hashes, counts)
  | w :: order' =>
      if negb (pa_count pa w) then run_counts order' pa p n hashes counts
      else
        let '(b, e) := chunk_bounds (Z.of_nat (nrows (p_left p))) n (Z.of_nat w) in
        '(hashes, c) ← count_worker (Z.to_nat (e - b)) p (Z.to_nat b) hashes 0;
        counts ← wr counts w c;
        run_counts order' pa p n hashes counts
  end.

Fixpoint offsets_of (counts : list nat) (total : nat) : list nat :=
  match counts with [] => [total] | c :: counts' => total :: offsets_of counts' (total + c)%nat end.

Definition col_join_reserve_exact (ok : bool) (r : rel) (n : nat) : rel * Z :=
  if (n <=? capacity r)%nat then (r, 0)
  else if negb ok then (r, ENOMEM)
  else (set_capacity n (set_rows (resized (ncols r) n (rows r)) r), 0).

(** col_rel_set_raw differs from col_rel_set in the generation that it does not
    advance. *)
Fixpoint set_cells (n : nat) (out : rel) (i c : nat) (x : row) : option (rel * Z) :=
  match n with
  | O => Some (out, 0)
  | S n' =>
      v ← rd x c;
      '(out, rc) ← col_rel_set out i c v;
      if negb (rc =? 0) then Some (out, rc) else set_cells n' out i (S c) x
  end.

Fixpoint fill_worker (n : nat) (op : join_op) (p : probe) (hashes : option (list Z)) (lr out_row : nat) (out : rel) (write_error : Z) : option (rel * Z) :=
  match n with
  | O => Some (out, write_error)
  | S n' =>
      if negb (write_error =? 0) then Some (out, write_error)
      else
        found ← col_semijoin_row_found p hashes lr;
        if negb found then fill_worker n' op p hashes (S lr) out_row out write_error
        else
          x ← rd (rows (p_left p)) lr;
          x ← semi_row op (p_left p) x;
          '(out, rc) ← set_cells (length x) out out_row 0 x;
          if negb (rc =? 0) then Some (out, rc) else fill_worker n' op p hashes (S lr) (S out_row) out write_error
  end.

Fixpoint run_fills (order : list nat) (pa : par_env) (op : join_op) (p : probe) (n : Z) (hashes : option (list Z)) (offsets : list nat) (out : rel) (write_error : Z) : option (rel * Z) :=
  match order with
  | [] => Some (out, write_error)
  | w :: order' =>
      if negb (pa_fill pa w) then run_fills order' pa op p n hashes offsets out write_error
      else
        let '(b, e) := chunk_bounds (Z.of_nat (nrows (p_left p))) n (Z.of_nat w) in
        off ← rd offsets w;
        '(out, write_error) ← fill_worker (Z.to_nat (e - b)) op p hashes (Z.to_nat b) off out write_error;
        run_fills order' pa op p n hashes offsets out write_error
  end.

(** Both passes of [n] workers: the output and prc. *)
Definition parallel_semijoin (pa : par_env) (op : join_op) (p : probe) (n : Z) (out : rel) : option (rel * Z) :=
  let workers := seq 0 (Z.to_nat n) in
  '(hashes, counts) ← run_counts (pa_count_order pa) pa p n (if pa_hashes pa then Some (replicate (Nat.max (nrows (p_left p)) 1) 0) else None) (replicate (Z.to_nat n) O);
  let offsets := offsets_of counts 0 in
  let total := sum_list counts in
  if negb (forallb (pa_count pa) workers) || (UINT32_MAX <? Z.of_nat total) then Some (set_nrows 0 out, ENOMEM)
  else
    let '(out, rc) := col_join_reserve_exact (pa_reserve pa) out total in
    if negb (rc =? 0) then Some (set_nrows 0 out, ENOMEM)
    else
      '(out, write_error) ← run_fills (pa_fill_order pa) pa op p n hashes offsets (set_nrows total out) 0;
      let prc := if negb (forallb (pa_fill pa) workers) then ENOMEM else write_error in
      Some (if negb (prc =? 0) then set_nrows 0 out else out, prc).

(** The probe of one row after the other. *)
Fixpoint semi_loop (n : nat) (e : join_env) (op : join_op) (p : probe) (lr : nat) (out : rel) : option (rel * Z) :=
  match n with
  | O => Some (out, 0)
  | S n' =>
      found ← row_matches p lr;
      if negb found then semi_loop n' e op p (S lr) out
      else
        x ← rd (rows (p_left p)) lr;
        x ← semi_row op (p_left p) x;
        '(out, rc) ← col_rel_append_row (je_grow e (nrows out)) out x;
        if negb (rc =? 0) then Some (out, rc) else semi_loop n' e op p (S lr) out
  end.

(** The number of workers for [n] left rows. *)
Definition worker_count (pa : par_env) (n : nat) : Z :=
  let env := col_join_parallel_min_left_rows (min_left_env pa) in
  let min_left := if env =? 0 then 1 else env in
  Z.min (Z.of_nat n / min_left) (num_workers pa).

(** The workers, and the loop when they were not used or failed. *)
Definition semi_rows (e : join_env) (pa : par_env) (op : join_op) (p : probe) (out : rel) : option (rel * Z) :=
  let n := worker_count pa (nrows (p_left p)) in
  '(out, done) ← (if negb (coordinator pa) && (1 <? n) && (0 <? nrows (p_right p))%nat && pa_queue pa && pa_ctxs pa then
                    '(out, prc) ← parallel_semijoin pa op p n out; Some (out, prc =? 0)
                  else Some (out, false));
  if done : bool then Some (out, 0) else semi_loop (nrows (p_left p)) e op p 0 out.

Definition semijoin_op (e : join_env) (pa : par_env) (table : bool) (sessions : list Z) (op : join_op) (left_names : names) (found : option (rel * names)) (s : stack K) (w : W) :
    option (W * stack K * Z * list (resource K)) :=
  let '(s, pop_rc, en, freed) := eval_stack_pop_relation s in
  if negb (pop_rc =? 0) then Some (w, s, pop_rc, freed)
  else
    match e_rel en, found with
    | None, _ => None
    | Some lrel, None => let '(s, rc) := eval_stack_push s (Some lrel) (owned en) in Some (w, s, rc, [])
    | Some lrel, Some (rrel, right_names) =>
        let input := if owned en then [F_relation lrel] else [] in
        '(w, f) ← filtered_right e table sessions op rrel w;
        match f with
        | None => Some (w, s, ENOMEM, input)
        | Some (rrel, is_copy) =>
            let copy := if is_copy : bool then [F_relation rrel] else [] in
            if negb (je_keys e) then Some (w, s, ENOMEM, input)
            else
              lk ← resolve_keys left_names (ncols lrel) (left_keys op) (key_count op);
              rk ← resolve_keys right_names (ncols rrel) (right_keys op) (key_count op);
              compatible ← col_join_key_types_compatible lrel lk rrel rk;
              if negb compatible then Some (w, s, EINVAL, input)
              else
                let ocols := if (0 <? j_project_count op)%nat then j_project_count op else ncols lrel in
                let out := new_auto (je_pooled e) ocols in
                if negb (je_out e) then Some (w, s, ENOMEM, input)
                else
                  types ← left_output_types op lrel;
                  if negb (je_types e) then Some (w, s, ENOMEM, F_relation out :: input)
                  else
                    let out := set_types (Some types) out in
                    if negb (je_tmp e) then Some (w, s, ENOMEM, F_relation out :: input)
                    else
                      match col_join_bucket_count (Z.of_nat (nrows rrel)) with
                      | None => Some (w, s, ENOMEM, F_relation out :: copy ++ input)
                      | Some nbuckets =>
                          if negb (je_tables e) then Some (w, s, ENOMEM, F_relation out :: input)
                          else
                            let mask := nbuckets - 1 in
                            '(head, next) ← build_chains (nrows rrel) rrel rk mask 0 (replicate (Z.to_nat nbuckets) 0) (replicate (Nat.max (nrows rrel) 1) 0);
                            '(out, rc) ← semi_rows e pa op (Probe lrel lk rrel rk mask head next) out;
                            if negb (rc =? 0) then Some (w, s, rc, F_relation out :: input)
                            else
                              let '(s, rc) := eval_stack_push s (Some out) true in
                              Some (w, s, rc, input ++ copy)
                      end
        end
    end.

End Ops.

End HashJoin.
