(* ===== verification/HashJoinProof.v ===== *)
(** * Chained hash tables and probes

    The chain of a bucket lists the rows of the bucket, the last one first.  A
    probe therefore decides whether a row of the right relation has the key of
    the left row: rows with equal keys have equal hashes. *)

From S2P Require Import Prelude RadixSort Relation Consolidate ConsolidateProof HashDedup StringOps Expr ExprProof EvalStack Filter FilterProof FilterSpec RowOps HashJoin.

Module HashJoinProof.

Import Keys Rel Consolidate ConsolidateProof Expr.Expr EvalStack.EvalStack Filter.Filter FilterProof.FilterProof RowOps.RowOps HashJoin.HashJoin.

(** ** Chains *)

Section Chains.

(** The row number that a link stands for; [None] at the end of a chain. *)
Context (dec : Z -> option nat).

Inductive chain (next : list Z) : Z -> list nat -> Prop :=
  | chain_end e : dec e = None -> chain next e []
  | chain_link e i e' l : dec e = Some i -> next !! i = Some e' -> chain next e' l -> chain next e (i :: l).

Lemma chain_insert next e l i v : chain next e l -> i ∉ l -> chain (<[i:=v]> next) e l.
Proof.
  induction 1 as [|e j e' l Hd Hn _ IH]; intros Hi; [by constructor|]. apply not_elem_of_cons in Hi as [Hij Hi].
  econstructor; [done| |by apply IH]. by rewrite list_lookup_insert_ne.
Qed.

(** The rows below [i] of bucket [b], the last one first. *)
Definition in_bucket (bucket : nat -> nat) (b i : nat) : list nat := reverse (filter (fun j => bucket j = b) (seq 0 i)).

Lemma in_bucket_S bucket b i : in_bucket bucket b (S i) = (if decide (bucket i = b) then [i] else []) ++ in_bucket bucket b i.
Proof. unfold in_bucket. rewrite seq_S, filter_app, reverse_app. cbn. by destruct (decide (bucket i = b)). Qed.

Lemma elem_of_bucket bucket b i j : j ∈ in_bucket bucket b i <-> (j < i)%nat /\ bucket j = b.
Proof. unfold in_bucket. rewrite elem_of_reverse, list_elem_of_filter, elem_of_seq. naive_solver lia. Qed.

(** The table of the rows below [i]. *)
Definition chained (bucket : nat -> nat) (nb : nat) (head : nat -> option Z) (next : list Z) (i : nat) : Prop :=
  forall b, (b < nb)%nat -> exists e, head b = Some e /\ chain next e (in_bucket bucket b i).

Lemma chained_step bucket nb head next i e v head' :
  chained bucket nb head next i -> (bucket i < nb)%nat -> (i < length next)%nat -> head (bucket i) = Some e -> dec v = Some i ->
  (forall b, head' b = if decide (b = bucket i) then Some v else head b) ->
  chained bucket nb head' (<[i:=e]> next) (S i).
Proof.
  intros H Hb Hi He Hv Hh b Hlt. rewrite in_bucket_S, Hh. destruct (H b Hlt) as (e1 & He1 & Hc).
  assert (Hni : i ∉ in_bucket bucket b i) by (rewrite elem_of_bucket; lia). pose proof (chain_insert _ _ _ i e Hc Hni) as Hc'. destruct (decide (b = bucket i)) as [->|Hne].
  - rewrite decide_True by done. rewrite He in He1. injection He1 as <-. exists v. split; [done|]. cbn. econstructor; [done|by apply list_lookup_insert_eq|done].
  - rewrite decide_False by done. by exists e1.
Qed.

End Chains.

(** 0 ends a chain of join.c. *)
Definition link (e : Z) : option nat := if e =? 0 then None else Some (Z.to_nat (e - 1)).

Lemma chain_found_ok test f next l : forall fuel e, chain link next e l -> (length l < fuel)%nat -> (forall j, j ∈ l -> test j = Some (f j)) ->
  chain_found fuel test next e = Some (existsb f l).
Proof.
  induction l as [|i l IH]; intros fuel e Hc Hfuel Ht; (destruct fuel as [|fuel]; [cbn in Hfuel; lia|]); inversion Hc as [? Hd|? ? e' ? Hd Hn Hc']; subst; unfold link in Hd; cbn [chain_found]; destruct (e =? 0); try done.
  injection Hd as Hd. rewrite Hd, Ht by left. cbn [mbind option_bind existsb]. destruct (f i); [done|]. cbn [orb]. unfold rd. rewrite Hn. cbn [mbind option_bind].
  apply IH; [done|cbn in Hfuel; lia|]. intros j Hj. apply Ht. by right.
Qed.

(** ** Keys *)

(** The typed, canonical key of a row. *)
Definition join_key (s : shape) (ks : list nat) (x : row) : list (column_type * Z) :=
  (fun k => let ty := default TYPE_INT64 (column_type_at s k) in (ty, canonical_cell ty (x !!! k))) <$> ks.

Definition join_hash (key : list (column_type * Z)) : Z := foldl (fun h p => hash_value h p.1 p.2) JOIN_HASH_SEED key.

Definition joins (left : shape) (lk : list nat) (right : shape) (rk : list nat) (x y : row) : bool := bool_decide (join_key left lk x = join_key right rk y).

Lemma hash_value_canonical h ty v : hash_value h ty (canonical_cell ty v) = hash_value h ty v.
Proof. unfold hash_value, value_key, canonical_cell. destruct (is_float ty), (float_bits_zero v) eqn:Hz; cbn [andb]; rewrite ?Hz; done. Qed.

(** Equality of valid cells is equality of canonical cells. *)
Lemma value_equal_canonical ty a b : valid_key ty a -> valid_key ty b -> value_equal ty a b = bool_decide (canonical_cell ty a = canonical_cell ty b).
Proof.
  intros Ha Hb. unfold value_equal, canonical_cell. destruct (is_float ty) eqn:Hf; cbn [andb]; [|by destruct (Z.eqb_spec a b), (bool_decide_reflect (a = b))].
  assert (ty = TYPE_FLOAT) as -> by (unfold is_float in Hf; by apply bool_decide_eq_true in Hf). destruct (Radix.float_compare_total a b Ha Hb) as [-> Hrank].
  assert (Hc : (if float_bits_zero a then 0 else a) = (if float_bits_zero b then 0 else b) <-> rank TYPE_FLOAT a = rank TYPE_FLOAT b).
  { rewrite Hrank. destruct (float_bits_zero a) eqn:Za, (float_bits_zero b) eqn:Zb; split; try tauto; [|by intros [<-|[]]; congruence| |by intros [->|[]]; congruence|].
    - intros <-. by vm_compute in Zb.
    - intros ->. by vm_compute in Za.
    - intros [->|[]]; congruence. }
  destruct (three_way_cases (rank TYPE_FLOAT a) (rank TYPE_FLOAT b)) as [[H ->]|[[H ->]|[H ->]]]; case_bool_decide as Hd; try done; apply Hc in Hd || (exfalso; apply Hd, Hc); lia.
Qed.

Lemma columnar_cells_ok (left right : shape) lc rc lt rt a b : column_type_at left lc = Some lt -> column_type_at right rc = Some rt -> valid_key lt a -> valid_key rt b ->
  columnar_value_equal left lc a right rc b = Some (bool_decide ((lt, canonical_cell lt a) = (rt, canonical_cell rt b))).
Proof.
  intros Hlt Hrt Ha Hb. unfold columnar_value_equal. rewrite Hlt, Hrt. cbn. f_equal. destruct (bool_decide_reflect (lt = rt)) as [->|Hne]; cbn [negb].
  - rewrite value_equal_canonical by done. apply bool_decide_ext. split; congruence.
  - symmetry. apply bool_decide_eq_false. congruence.
Qed.

Lemma columnar_equal_ok (left right : shape) lc rc x y : row_ok left x -> row_ok right y -> (lc < ncols left)%nat -> (rc < ncols right)%nat ->
  columnar_value_equal left lc (x !!! lc) right rc (y !!! rc) = Some (bool_decide (join_key left [lc] x = join_key right [rc] y)).
Proof.
  intros Hx Hy Hlc Hrc. destruct (row_cell left x lc Hx Hlc) as (lt & a & Hlt & _ & Ha' & Ha). destruct (row_cell right y rc Hy Hrc) as (rt & b & Hrt & _ & Hb' & Hb).
  rewrite Ha', Hb', (columnar_cells_ok left right lc rc lt rt a b Hlt Hrt Ha Hb). f_equal. unfold join_key. cbn. rewrite Hlt, Hrt. cbn. unfold id. rewrite Ha', Hb'. apply bool_decide_ext. split; congruence.
Qed.

(** Every column has a type. *)
Definition typed (s : shape) : Prop := forall c, (c < ncols s)%nat -> is_Some (column_type_at s c).

(** Key columns of a relation. *)
Definition key_cols (s : shape) (ks : list nat) : Prop := Forall (fun k => (k < ncols s)%nat) ks.

Lemma stored_cell (r : rel) i k : readable r -> (i < nrows r)%nat -> (k < ncols r)%nat ->
  col_rel_get r i k = Some (stored r !!! i !!! k) /\ row_ok r (stored r !!! i) /\ exists ty, column_type_at r k = Some ty.
Proof.
  intros Hr Hi Hk. destruct (stored_row r Hr i Hi) as [Hx Hl]. assert (Hok : row_ok r (stored r !!! i)).
  { apply (Forall_lookup_1 _ _ i _ (proj2 Hr)). apply list_lookup_lookup_total_lt. rewrite length_stored by apply Hr. lia. }
  destruct (row_cell r _ k Hok Hk) as (ty & v & Hty & Hv & Hv' & _). unfold col_rel_get, rd. rewrite Hx. cbn [mbind option_bind]. rewrite Hv, Hv'. split_and!; [done..|by exists ty].
Qed.

Lemma hash_keys_ok (r : rel) i ks : readable r -> (i < nrows r)%nat -> key_cols r ks -> forall h,
  hash_keys r i ks h = Some (foldl (fun h p => hash_value h p.1 p.2) h (join_key r ks (stored r !!! i))).
Proof.
  intros Hr Hi. induction 1 as [|k ks Hk _ IH]; intros h; cbn [hash_keys join_key fmap list_fmap foldl]; [done|].
  destruct (stored_cell r i k Hr Hi Hk) as (-> & _ & ty & ->). cbn [mbind option_bind default from_option fst snd]. unfold id. rewrite hash_value_canonical. apply IH.
Qed.

Lemma keys_match_ok (left right : rel) lr rr lk rk : readable left -> readable right -> (lr < nrows left)%nat -> (rr < nrows right)%nat -> key_cols left lk -> key_cols right rk -> length lk = length rk ->
  col_join_keys_match_rel left lr lk right rr rk = Some (joins left lk right rk (stored left !!! lr) (stored right !!! rr)).
Proof.
  intros Hl Hr Hlr Hrr Hlk. revert rk. unfold joins. induction Hlk as [|l lk Hlt _ IH]; intros [|r rk] Hrk Hlen; try done. apply Forall_cons in Hrk as [Hrt Hrk]. cbn [col_join_keys_match_rel].
  destruct (stored_cell left lr l Hl Hlr Hlt) as (-> & Hx & _). destruct (stored_cell right rr r Hr Hrr Hrt) as (-> & Hy & _). cbn [mbind option_bind]. rewrite columnar_equal_ok by done. cbn [mbind option_bind].
  set (x := stored left !!! lr) in *. set (y := stored right !!! rr) in *. destruct (bool_decide_reflect (join_key left [l] x = join_key right [r] y)) as [Heq|Hne]; unfold join_key in *; cbn [fmap list_fmap negb] in *.
  - rewrite IH by (done || (cbn in Hlen; lia)). f_equal. apply bool_decide_ext. injection Heq as H1 H2. split; [intros ->; congruence|congruence].
  - f_equal. symmetry. apply bool_decide_eq_false. congruence.
Qed.

(** ** The table *)

Lemma bucket_count_ok n : 0 <= n -> (exists k, 4 <= k <= 31 /\ col_join_bucket_count n = Some (2 ^ k)) \/ (2 ^ 30 < n /\ col_join_bucket_count n = None).
Proof.
  intros Hn. unfold col_join_bucket_count. change (UINT32_MAX / 2) with 2147483647. destruct (Z.ltb_spec 2147483647 n) as [Hbig|Hle]; [right; split; [lia|done]|].
  set (m := if 0 <? n then _ else _). assert (Hm : is_uint32 m /\ (m <= 2 ^ 31 <-> n <= 2 ^ 30)). { unfold m. destruct (Z.ltb_spec 0 n); [|mi]. unfold u32. rewrite Z.mod_small by lia. mi. }
  destruct Hm as [Hm Hmn]. destruct (FilterSpec.next_pow2_exact m Hm) as [H1 H2]. destruct (Z.le_gt_cases m (2 ^ 31)) as [Hs|Hs].
  - left. destruct (H1 Hs) as (k & Hk & -> & _). exists k. split; [done|]. pose proof (Z.pow_pos_nonneg 2 k). rewrite (proj2 (Z.eqb_neq _ _)) by lia. done.
  - right. rewrite (H2 Hs). split; [lia|done].
Qed.

(** The bucket of row [i]. *)
Definition bucket_of (r : rel) (ks : list nat) (k : Z) (i : nat) : nat := Z.to_nat (join_hash (join_key r ks (stored r !!! i)) mod 2 ^ k).

Lemma land_bucket key k : 0 <= k -> Z.land (join_hash key) (2 ^ k - 1) = join_hash key mod 2 ^ k /\ 0 <= join_hash key mod 2 ^ k < 2 ^ k.
Proof. intros Hk. replace (2 ^ k - 1) with (Z.ones k) by (rewrite Z.ones_equiv; lia). rewrite Z.land_ones by lia. split; [done|]. apply Z.mod_pos_bound. lia. Qed.

Definition chains_of (r : rel) (ks : list nat) (k : Z) (head next : list Z) (i : nat) : Prop :=
  length head = Z.to_nat (2 ^ k) /\ (nrows r <= length next)%nat /\ chained link (bucket_of r ks k) (Z.to_nat (2 ^ k)) (fun b => head !! b) next i.

Lemma build_chains_ok (r : rel) ks k : readable r -> key_cols r ks -> 0 <= k -> Z.of_nat (nrows r) < 2 ^ 32 -> forall n i head next, (i + n = nrows r)%nat -> chains_of r ks k head next i ->
  exists head' next', build_chains n r ks (2 ^ k - 1) i head next = Some (head', next') /\ chains_of r ks k head' next' (nrows r).
Proof.
  intros Hr Hks Hk Hbig. induction n as [|n IH]; intros i head next Hi H; cbn [build_chains].
  { exists head, next. split; [done|]. by replace (nrows r) with i by lia. }
  destruct H as (Hlh & Hln & Hc). unfold col_join_hash_rel_keys. rewrite hash_keys_ok by (done || lia). fold (join_hash (join_key r ks (stored r !!! i))). cbn [mbind option_bind].
  destruct (land_bucket (join_key r ks (stored r !!! i)) k Hk) as [-> Hlt]. fold (bucket_of r ks k i). assert (Hb : (bucket_of r ks k i < Z.to_nat (2 ^ k))%nat) by (unfold bucket_of; lia).
  destruct (Hc _ Hb) as (e & He & _). unfold rd. rewrite He. cbn [mbind option_bind]. rewrite !wr_lt by lia. cbn [mbind option_bind]. apply IH; [lia|].
  split; [by rewrite length_insert|]. split; [by rewrite length_insert|]. apply (chained_step _ _ _ _ _ _ e (u32 (Z.of_nat i + 1)) _ Hc Hb); [lia|exact He| |].
  - unfold link. rewrite u32_small by mi. rewrite (proj2 (Z.eqb_neq _ _)) by lia. f_equal. lia.
  - intros b. destruct (decide (b = bucket_of r ks k i)) as [->|Hne]; [apply list_lookup_insert_eq; lia|by apply list_lookup_insert_ne].
Qed.

Lemma chains_empty (r : rel) ks k n : 0 <= k -> (nrows r <= n)%nat -> chains_of r ks k (replicate (Z.to_nat (2 ^ k)) 0) (replicate n 0) 0.
Proof.
  intros Hk Hn. unfold chains_of. rewrite !length_replicate. split_and!; [done..|]. intros b Hb. exists 0. split; [by apply lookup_replicate_2|]. by constructor.
Qed.

(** ** Probes *)

Record probe_ok (p : probe) : Prop := {
  po_left : readable (p_left p);
  po_right : readable (p_right p);
  po_lk : key_cols (p_left p) (p_lk p);
  po_rk : key_cols (p_right p) (p_rk p);
  po_len : length (p_lk p) = length (p_rk p);
  po_table : exists k, 0 <= k /\ p_mask p = 2 ^ k - 1 /\ chains_of (p_right p) (p_rk p) k (p_head p) (p_next p) (nrows (p_right p)) }.

(** Whether a row of the right relation joins with [x]. *)
Definition matched (p : probe) (x : row) : bool := existsb (joins (p_left p) (p_lk p) (p_right p) (p_rk p) x) (stored (p_right p)).

(** Rows of another bucket do not join, so the chain decides. *)
Lemma existsb_bucket (f : nat -> bool) bucket b n : (forall i, (i < n)%nat -> f i = true -> bucket i = b) -> existsb f (in_bucket bucket b n) = existsb f (seq 0 n).
Proof.
  intros H. apply eq_true_iff_eq. rewrite !existsb_exists. setoid_rewrite <-list_elem_of_In. setoid_rewrite elem_of_bucket. setoid_rewrite elem_of_seq. split; intros (i & Hi & Hf); exists i; (split; [|done]); [lia|].
  split; [lia|]. apply H; [lia|done].
Qed.

Lemma existsb_stored (f : row -> bool) (r : rel) : fits r -> existsb (fun i => f (stored r !!! i)) (seq 0 (nrows r)) = existsb f (stored r).
Proof.
  intros Hf. pose proof (length_stored r Hf) as Hl. apply eq_true_iff_eq. rewrite !existsb_exists. setoid_rewrite <-list_elem_of_In. split.
  - intros (i & Hi%elem_of_seq & Hfi). exists (stored r !!! i). split; [|done]. apply list_elem_of_lookup_total_2. lia.
  - intros (x & [i Hi]%list_elem_of_lookup & Hfx). exists i. split; [apply elem_of_seq; apply lookup_lt_Some in Hi; lia|]. by rewrite (list_lookup_total_correct _ _ _ Hi).
Qed.

Lemma left_hash_ok p lr : probe_ok p -> (lr < nrows (p_left p))%nat -> exists k, 0 <= k /\ p_mask p = 2 ^ k - 1 /\
  left_hash p lr = Some (join_hash (join_key (p_left p) (p_lk p) (stored (p_left p) !!! lr)) mod 2 ^ k) /\ chains_of (p_right p) (p_rk p) k (p_head p) (p_next p) (nrows (p_right p)).
Proof.
  intros [Hl _ Hlk _ _ (k & Hk & Hm & Hc)] Hlr. exists k. split_and!; [done..| |done]. unfold left_hash, col_join_hash_rel_keys. rewrite hash_keys_ok by done. cbn [mbind option_bind].
  rewrite Hm. f_equal. by apply land_bucket.
Qed.

Lemma probe_at_ok p lr h : probe_ok p -> (lr < nrows (p_left p))%nat -> left_hash p lr = Some h -> probe_at p lr h = Some (matched p (stored (p_left p) !!! lr)).
Proof.
  intros Hp Hlr Hh. destruct (left_hash_ok p lr Hp Hlr) as (k & Hk & Hm & Hh' & Hlh & Hln & Hc). rewrite Hh in Hh'. injection Hh' as ->. destruct Hp as [Hl Hr Hlk Hrk Hlen _].
  set (x := stored (p_left p) !!! lr). destruct (land_bucket (join_key (p_left p) (p_lk p) x) k Hk) as [_ Hlt]. unfold probe_at.
  destruct (Hc (Z.to_nat (join_hash (join_key (p_left p) (p_lk p) x) mod 2 ^ k)) ltac:(lia)) as (e & He & Hch). unfold rd. rewrite He. cbn [mbind option_bind].
  set (f := fun rr => joins (p_left p) (p_lk p) (p_right p) (p_rk p) x (stored (p_right p) !!! rr)). rewrite (chain_found_ok _ f _ _ _ _ Hch).
  - f_equal. unfold matched. rewrite <-(existsb_stored _ (p_right p)) by apply Hr. apply existsb_bucket. intros i Hi Hf. apply bool_decide_eq_true in Hf. unfold bucket_of. by rewrite Hf.
  - unfold in_bucket. rewrite length_reverse. pose proof (length_filter (fun j => bucket_of (p_right p) (p_rk p) k j = Z.to_nat (join_hash (join_key (p_left p) (p_lk p) x) mod 2 ^ k)) (seq 0 (nrows (p_right p)))). rewrite length_seq in *. lia.
  - intros j [Hj _]%elem_of_bucket. by apply keys_match_ok.
Qed.

Lemma row_matches_ok p lr : probe_ok p -> (lr < nrows (p_left p))%nat -> row_matches p lr = Some (matched p (stored (p_left p) !!! lr)).
Proof.
  intros Hp Hlr. destruct (left_hash_ok p lr Hp Hlr) as (k & _ & _ & Hh & _). unfold row_matches. rewrite Hh. cbn [mbind option_bind]. by apply probe_at_ok.
Qed.

(** ** Rows with the same keys *)

Lemma rows_equal_cells (s : shape) a b : row_ok s a -> row_ok s b -> forall n c, (c + n = ncols s)%nat -> rows_equal s n c a b = Some true ->
  forall k, (c <= k < ncols s)%nat -> join_key s [k] a = join_key s [k] b.
Proof.
  intros Ha Hb. induction n as [|n IH]; intros c Hc He k Hk; [lia|]. cbn [rows_equal] in He.
  destruct (row_cell s a c Ha ltac:(lia)) as (ty & v & Hty & Hv & Hv' & Hkv). destruct (row_cell s b c Hb ltac:(lia)) as (ty' & u & Hty' & Hu & Hu' & Hku).
  rewrite Hty in Hty'. injection Hty' as <-. unfold rd in He. rewrite Hty, Hv, Hu in He. cbn [mbind option_bind] in He. rewrite value_equal_canonical in He by done.
  destruct (bool_decide_reflect (canonical_cell ty v = canonical_cell ty u)) as [Heq|]; [|done]. destruct (decide (k = c)) as [->|Hne]; [|by apply (IH (S c)); [lia|done|lia]].
  unfold join_key. cbn. rewrite Hty. cbn. unfold id. by rewrite Hv', Hu', Heq.
Qed.

Lemma key_join_key (s : shape) ks a b : row_ok s a -> row_ok s b -> key_cols s ks -> key s a = key s b -> join_key s ks a = join_key s ks b.
Proof.
  intros Ha Hb Hks Hk. pose proof (rows_equal_key s a b Ha Hb) as He. rewrite Hk, Z.eqb_refl in He. induction Hks as [|k ks Hlt _ IH]; [done|].
  pose proof (rows_equal_cells s a b Ha Hb (ncols s) 0 eq_refl He k ltac:(lia)) as H1. unfold join_key in *. cbn [fmap list_fmap] in *. injection H1 as H1. by rewrite H1, IH.
Qed.

(** A copy of rows has the same matches. *)
Lemma existsb_joins (left right : shape) lk rk x l l' : key_cols right rk -> Forall (row_ok right) l -> Forall (row_ok right) l' -> keys right l = keys right l' ->
  existsb (joins left lk right rk x) l = existsb (joins left lk right rk x) l'.
Proof.
  intros Hrk Hl. revert l'. induction Hl as [|y l Hy _ IH]; intros [|y' l'] Hl' Hk; try done. apply Forall_cons in Hl' as [Hy' Hl']. unfold keys in Hk. cbn in Hk. injection Hk as Hyy Hk.
  cbn [existsb]. rewrite (IH l') by done. f_equal. unfold joins. by rewrite (key_join_key right rk y y') by done.
Qed.

(** ** The right input *)

Section Right.

Context {W : Type} `{!Host W}.

(** The rows of the right relation that pass the operator's predicate. *)
Definition right_rows (table : bool) (sessions : list Z) (op : join_op) (right : rel) (w : W) : option (W * list row) :=
  if (0 <? length (right_filter_expr op))%nat then kept_rows table sessions (right_filter_expr op) (ncols right) (stored right) w else Some (w, stored right).

Definition right_filter_ok (op : join_op) (right : shape) : Prop := ExprProof.is_buffer (right_filter_expr op) /\ left_column_exists (right_filter_expr op) (ncols right).

Lemma kept_rows_sub table sessions buf nc l : forall (w w' : W) out, kept_rows table sessions buf nc l w = Some (w', out) -> sublist out l.
Proof.
  induction l as [|x l IH]; intros w w' out; cbn [kept_rows]; [by intros [= _ <-]|]. destruct (eval_run _ _ _ _ _ _) as [[[w1 err] v]|]; [|done]. cbn [mbind option_bind].
  destruct (kept_rows _ _ _ _ l w1) as [[w2 out2]|] eqn:Hr; [|done]. cbn [mbind option_bind]. intros [= _ <-]. specialize (IH _ _ _ Hr). destruct (_ && _); by constructor.
Qed.

Lemma filtered_right_ok e table sessions op (right : rel) (w w' : W) l : right_filter_ok op right -> readable right -> right_rows table sessions op right w = Some (w', l) ->
  exists w1 f, filtered_right e table sessions op right w = Some (w1, f) /\
    ((exists r is_copy, f = Some (r, is_copy) /\ w1 = w' /\ lanes r = lanes right /\ readable r /\ (nrows r <= nrows right)%nat /\
       (forall (left : shape) lk rk x, key_cols right rk -> existsb (joins left lk right rk x) (stored r) = existsb (joins left lk right rk x) l)) \/
     (f = None /\ (roomy (je_filter e) -> 2 ^ 31 < Z.of_nat (nrows right)))).
Proof.
  intros [Hbuf Hcol] Hr Hrows. unfold filtered_right, right_rows in *. destruct (0 <? length (right_filter_expr op))%nat.
  2: { injection Hrows as <- <-. eexists _, _. split; [done|]. left. exists right, false. by split_and!. }
  unfold apply_right_filter. destruct (out_alloc (je_filter e)) eqn:Ho; cbn [negb]. 2: { eexists _, _. split; [done|]. right. split; [done|]. intros (Hc & _). congruence. }
  destruct (fill_filtered_ok (je_filter e) table sessions (right_filter_expr op) right w w' l Hbuf Hr Hcol Hrows) as (w1 & out & rc & -> & [(-> & -> & Hl & Hro & Hk)|[-> Hg]]); cbn [mbind option_bind Z.eqb negb ENOMEM]; (eexists _, _; split; [done|]).
  2: { right. by split. }
  left. exists out, true. pose proof (kept_rows_sub _ _ _ _ _ _ _ _ Hrows) as Hsub. assert (Hlok : Forall (row_ok right) l) by (eapply Forall_forall; intros y Hy; apply (proj1 (Forall_forall _ _) (proj2 Hr)); by eapply elem_of_submseteq; [|apply sublist_submseteq]).
  split_and!; try done.
  - rewrite <-(length_stored out) by apply Hro. rewrite <-(length_stored right) by apply Hr. apply (f_equal length) in Hk. unfold keys in Hk. rewrite !length_fmap in Hk. rewrite Hk. by apply sublist_length.
  - intros left lk rk x Hrk. apply existsb_joins; [done| |done|done]. destruct Hro as [_ Hro]. by rewrite <-Hl.
Qed.

End Right.

End HashJoinProof.
