(* ===== verification/HashJoinSpec.v ===== *)
(** * Antijoin and semijoin keep the rows that they are named after

    The reference of both is a scan of the right rows for each left row.  The
    operators, with their hash table and the semijoin's workers in whatever
    order, keep exactly the left rows without, or with, a partner. *)

From S2P Require Import Prelude RadixSort Relation Consolidate ConsolidateProof DeltaSpec StringOps Expr ExprProof EvalStack Filter FilterProof FilterSpec RowOps HashJoin HashJoinProof.

Module HashJoinSpec.

Import Keys Rel Consolidate ConsolidateProof Expr.Expr EvalStack.EvalStack Filter.Filter FilterProof.FilterProof RowOps.RowOps HashJoin.HashJoin HashJoinProof.HashJoinProof.

(** ** Resolving the keys *)

Definition names_ok (ns : names) (nc : nat) : Prop := match ns with Some l => length l = nc | None => True end.
Definition keys_given (keys : option (list (option (list Z)))) (kc : nat) : Prop := match keys with Some l => (kc <= length l)%nat | None => True end.

Lemma find_name_ok ns name : forall n i, (i + n = length ns)%nat -> exists f, find_name n ns name i = Some f /\
  match f with Some j => (i <= j < length ns)%nat /\ ns !! j = Some (Some name) | None => True end.
Proof.
  induction n as [|n IH]; intros i Hi; cbn [find_name]; [by exists None|]. destruct (lookup_lt_is_Some_2 ns i ltac:(lia)) as [x Hx]. unfold rd. rewrite Hx. cbn [mbind option_bind].
  case_bool_decide as Hn; [subst x; exists (Some i); split; [done|]; split; [lia|done]|]. destruct (IH (S i) ltac:(lia)) as (f & -> & Hf). exists f. split; [done|]. destruct f; [|done]. split; [lia|apply Hf].
Qed.

(** A key column lies in the relation. *)
Lemma resolve_key_ok ns nc name : names_ok ns nc -> (0 < nc)%nat -> exists i, col_op_resolve_key ns nc name = Some i /\ (i < nc)%nat.
Proof.
  intros Hns Hnc. unfold col_op_resolve_key. enough (H : exists idx, col_rel_col_idx ns nc name = Some idx /\ idx < Z.of_nat nc).
  { destruct H as (idx & -> & Hlt). cbn [mbind option_bind]. eexists. split; [done|]. destruct (Z.leb_spec 0 idx); lia. }
  unfold col_rel_col_idx. destruct ns as [ns|]; [|by exists (-1); split; [|lia]]. destruct name as [name|]; [|by exists (-1); split; [|lia]].
  destruct (find_name_ok ns name nc 0 ltac:(cbn in Hns; lia)) as ([i|] & -> & Hf); cbn [mbind option_bind]; (eexists; split; [done|]). { cbn in Hns. lia. }
  repeat (case_match; try lia).
Qed.

Lemma resolve_keys_ok ns nc keys kc : names_ok ns nc -> keys_given keys kc -> (0 < nc)%nat \/ kc = O ->
  exists ks, resolve_keys ns nc keys kc = Some ks /\ length ks = kc /\ Forall (fun k => (k < nc)%nat) ks.
Proof.
  intros Hns Hk Hnc. unfold resolve_keys. enough (H : forall n i, (i + n <= kc)%nat -> exists ks, mapM (fun k => name ← (match keys with Some l => rd l k | None => Some None end); col_op_resolve_key ns nc name) (seq i n) = Some ks /\ length ks = n /\ Forall (fun k => (k < nc)%nat) ks) by (by apply H).
  induction n as [|n IH]; intros i Hi; [by exists []|]. cbn [seq]. destruct (IH (S i) ltac:(lia)) as (ks & Hks & Hl & Hf).
  assert (Hname : exists name, (match keys with Some l => rd l i | None => Some None end) = Some name).
  { destruct keys as [l|]; [|by exists None]. cbn in Hk. destruct (lookup_lt_is_Some_2 l i ltac:(lia)) as [x Hx]. by exists x. }
  destruct Hname as [name Hname]. destruct (resolve_key_ok ns nc name Hns ltac:(lia)) as (j & Hj & Hlt). cbn [mapM]. rewrite Hname. cbn [mbind option_bind]. rewrite Hj. cbn [mbind option_bind]. rewrite Hks.
  exists (j :: ks). split_and!; [done|cbn; lia|by constructor].
Qed.

(** ** One row after the other *)

(** The rows [l] were appended, or there was no memory. *)
Definition appends (e : join_env) (out : rel) (budget : nat) (l : list row) (res : option (rel * Z)) : Prop :=
  exists out' rc, res = Some (out', rc) /\ lanes out' = lanes out /\ fits out' /\
    ((rc = 0 /\ stored out' = stored out ++ l) \/ (rc = ENOMEM /\ ((forall i, je_grow e i = true) -> 2 ^ 31 < Z.of_nat (nrows out + budget)))).

Lemma appends_step e out x budget l (k : rel -> option (rel * Z)) : fits out -> row_ok out x ->
  (forall out', lanes out' = lanes out -> fits out' -> appends e out' budget l (k out')) ->
  appends e out (S budget) (canon out x :: l) ('(out, rc) ← col_rel_append_row (je_grow e (nrows out)) out x; if negb (rc =? 0) then Some (out, rc) else k out).
Proof.
  intros Hf Hx Hk. destruct (append_row_exact (je_grow e (nrows out)) out x Hf Hx) as (o1 & rc & -> & Hkt & Hf1 & [(-> & Hn & Hs)|(-> & -> & Hg)]); cbn [mbind option_bind Z.eqb negb ENOMEM].
  - destruct (Hk o1 (kt_lanes _ _ Hkt) Hf1) as (o2 & rc & -> & Hl2 & Hf2 & H). exists o2, rc. rewrite Hl2, (kt_lanes _ _ Hkt). split_and!; [done..|]. destruct H as [[-> Hs2]|[-> Hg]]; [left|right]; (split; [done|]).
    + rewrite Hs2, Hs, <-app_assoc. done.
    + intros Ha. specialize (Hg Ha). lia.
  - exists out, ENOMEM. split_and!; [done..|]. right. split; [done|]. intros Ha. specialize (Hg (Ha _)). lia.
Qed.

Lemma appends_skip e out budget l res : appends e out budget l res -> appends e out (S budget) l res.
Proof. intros (o & rc & -> & Hl & Hf & H). exists o, rc. split_and!; [done..|]. destruct H as [H|[-> H]]; [by left|right]. split; [done|]. intros Ha. specialize (H Ha). lia. Qed.

Lemma drop_row (r : rel) i : readable r -> (i < nrows r)%nat -> exists x, stored r !!! i = x /\ rd (rows r) i = Some x /\ lanes_at (ncols r) x 0 = Some x /\ row_ok r x /\ drop i (stored r) = x :: drop (S i) (stored r).
Proof.
  intros Hr Hi. destruct (scan_row r i Hr Hi) as (x & Hx & Hl & _ & Hok & Hd). exists x. split_and!; [|done..]. apply list_lookup_total_correct. rewrite <-(Nat.add_0_r i), <-lookup_drop, Hd. done.
Qed.

Lemma anti_loop_ok e p : probe_ok p -> forall n lr out, (lr + n = nrows (p_left p))%nat -> fits out -> lanes out = lanes (p_left p) ->
  appends e out n (canon (p_left p) <$> filter (fun x => matched p x = false) (drop lr (stored (p_left p)))) (anti_loop n e p lr out).
Proof.
  intros Hp. pose proof (po_left _ Hp) as Hl. pose proof (length_stored _ (proj1 Hl)) as Hls. induction n as [|n IH]; intros lr out Hlr Hf Hlo; cbn [anti_loop].
  { rewrite drop_ge by lia. exists out, 0. split_and!; [done..|]. left. by rewrite app_nil_r. }
  rewrite row_matches_ok by (done || lia). cbn [mbind option_bind]. destruct (drop_row _ lr Hl ltac:(lia)) as (x & -> & -> & Hx & Hok & ->). rewrite filter_cons.
  destruct (matched p x); [rewrite decide_False by done; apply appends_skip, IH; (done || lia)|]. rewrite decide_True by done. cbn [mbind option_bind fmap list_fmap]. rewrite Hx. cbn [mbind option_bind].
  rewrite <-Hlo. apply appends_step; [done|by rewrite Hlo|]. intros o Ho Hfo. rewrite Hlo in Ho |- *. apply IH; (done || lia).
Qed.

(** ** The operators *)

Definition join_lucky (e : join_env) : Prop :=
  roomy (je_filter e) /\ je_keys e = true /\ je_out e = true /\ je_types e = true /\ je_tables e = true /\ je_tmp e = true /\ forall i, je_grow e i = true.

(** The inputs of a join: readable relations with names and types for their
    columns, and a predicate for the right one that is well formed. *)
Record join_ok (op : join_op) (left right : rel) (ln rn : names) : Prop := {
  jo_left : readable left /\ typed left;
  jo_right : readable right /\ typed right /\ Z.of_nat (nrows right) < 2 ^ 32;
  jo_filter : right_filter_ok op right;
  jo_lkeys : names_ok ln (ncols left) /\ keys_given (left_keys op) (key_count op) /\ ((0 < ncols left)%nat \/ key_count op = O);
  jo_rkeys : names_ok rn (ncols right) /\ keys_given (right_keys op) (key_count op) /\ ((0 < ncols right)%nat \/ key_count op = O) }.

(** The key columns. *)
Definition lkeys (op : join_op) (ln : names) (left : shape) : list nat := default [] (resolve_keys ln (ncols left) (left_keys op) (key_count op)).
Definition rkeys (op : join_op) (rn : names) (right : shape) : list nat := default [] (resolve_keys rn (ncols right) (right_keys op) (key_count op)).

(** Floats are joined with floats only. *)
Definition floats_agree (left : shape) (lk : list nat) (right : shape) (rk : list nat) : Prop :=
  Forall2 (fun l r => is_float (default TYPE_INT64 (column_type_at left l)) = is_float (default TYPE_INT64 (column_type_at right r))) lk rk.

Lemma compatible_ok (left right : shape) lk rk : typed left -> typed right -> key_cols left lk -> key_cols right rk -> length lk = length rk ->
  exists b, col_join_key_types_compatible left lk right rk = Some b /\ (b = true <-> floats_agree left lk right rk).
Proof.
  intros Hl Hr Hlk. revert rk. induction Hlk as [|l lk Hlt _ IH]; intros [|r rk] Hrk Hlen; try done; [exists true; split; [done|]; split; [constructor|done]|].
  apply Forall_cons in Hrk as [Hrt Hrk]. destruct (Hl l Hlt) as [lt Hlt']. destruct (Hr r Hrt) as [rt Hrt']. cbn [col_join_key_types_compatible]. rewrite Hlt', Hrt'. cbn [mbind option_bind].
  destruct (IH rk Hrk ltac:(cbn in Hlen; lia)) as (b & Hb & Hiff). destruct (eqb_spec (is_float lt) (is_float rt)) as [Heq|Hne]; cbn [negb].
  - exists b. split; [done|]. rewrite Hiff. unfold floats_agree. rewrite Forall2_cons, Hlt', Hrt'. cbn. unfold id. tauto.
  - exists false. split; [done|]. split; [done|]. unfold floats_agree. rewrite Forall2_cons, Hlt', Hrt'. cbn. unfold id. tauto.
Qed.

(** The table of the right rows. *)
Lemma probe_built (left right : rel) lk rk k n : readable left -> readable right -> key_cols left lk -> key_cols right rk -> length lk = length rk -> 0 <= k -> Z.of_nat (nrows right) < 2 ^ 32 -> (nrows right <= n)%nat ->
  exists head next, build_chains (nrows right) right rk (2 ^ k - 1) 0 (replicate (Z.to_nat (2 ^ k)) 0) (replicate n 0) = Some (head, next) /\ probe_ok (Probe left lk right rk (2 ^ k - 1) head next).
Proof.
  intros Hl Hr Hlk Hrk Hlen Hk Hbig Hn. destruct (build_chains_ok right rk k Hr Hrk Hk Hbig (nrows right) 0 _ _ eq_refl (chains_empty right rk k n Hk Hn)) as (head & next & Hb & Hc).
  exists head, next. split; [done|]. split; try done. by exists k.
Qed.

Section Operators.

Context {W : Type} `{!Host W} {K : Type} (table : bool) (sessions : list Z) (op : join_op) (ln rn : names).

(** How an operator ends that keeps the rows [l] with the lanes [s]. *)
Definition join_result (e : join_env) (left right : rel) (own : bool) (rest : stack K) (w' : W) (s : shape) (l : list row) (res : W * stack K * Z * list (resource K)) : Prop :=
  let '(w1, s', rc, freed) := res in
  let input := if own then [F_relation left] else [] in
  let agree := floats_agree left (lkeys op ln left) right (rkeys op rn right) in
  (rc = 0 /\ w1 = w' /\ agree /\ exists out copy, s' = En (Some out) true false None 0 ENTRY_RELATION None :: rest /\ freed = input ++ copy /\ lanes out = s /\ fits out /\ stored out = l) \/
  (rc = EINVAL /\ ~ agree /\ s' = rest) \/
  (rc = ENOMEM /\ s' = rest /\ (join_lucky e -> 2 ^ 30 < Z.of_nat (nrows right) \/ 2 ^ 31 < Z.of_nat (nrows left))).

(** The left rows with a partner among the right rows [l]. *)
Definition has_partner (left right : shape) (l : list row) (x : row) : bool := existsb (joins left (lkeys op ln left) right (rkeys op rn right) x) l.

Lemma antijoin_ok e rest left right own delta segs nseg (w w' : W) l : join_ok op left right ln rn -> (length rest < COL_STACK_MAX)%nat -> right_rows table sessions op right w = Some (w', l) ->
  exists res, antijoin_op e table sessions op ln (Some (right, rn)) (En (Some left) own delta segs nseg ENTRY_RELATION None :: rest) w = Some res /\
    join_result e left right own rest w' left (canon left <$> filter (fun x => has_partner left right l x = false) (stored left)) res.
Proof.
  intros [[Hl Htl] (Hr & Htr & Hbig) Hfil (Hln & Hlk & Hlc) (Hrn & Hrk & Hrc)] Hrest Hrows.
  destruct (resolve_keys_ok ln (ncols left) (left_keys op) (key_count op) Hln Hlk Hlc) as (lk & Elk & Llk & Flk).
  destruct (resolve_keys_ok rn (ncols right) (right_keys op) (key_count op) Hrn Hrk Hrc) as (rk & Erk & Lrk & Frk).
  unfold antijoin_op, join_result, has_partner, lkeys, rkeys. rewrite Elk, Erk. cbn [eval_stack_pop_relation eval_stack_pop kind e_rel owned Z.eqb negb ENTRY_CONTINUATION ENTRY_RELATION default from_option]. unfold id.
  destruct (filtered_right_ok e table sessions op right w w' l Hfil Hr Hrows) as (w1 & f & -> & [(r & is_copy & -> & -> & Hlr & Hrr & Hnr & Hpart)|(-> & Hno)]); cbn [mbind option_bind].
  2: { eexists. split; [done|]. right. right. split_and!; [done..|]. intros (Hroom & _). specialize (Hno Hroom). lia. }
  destruct (je_keys e) eqn:E1; cbn [negb]; [|eexists; split; [done|]; right; right; split_and!; [done..|]; intros (_ & ? & _); congruence].
  rewrite Hlr, Elk. cbn [mbind option_bind]. rewrite Erk. cbn [mbind option_bind]. destruct (compatible_ok left right lk rk Htl Htr Flk Frk ltac:(lia)) as (b & -> & Hb). cbn [mbind option_bind].
  destruct b; cbn [negb]; [|eexists; split; [done|]; right; left; split_and!; [done|by rewrite <-Hb|done]].
  destruct (je_out e) eqn:E2; cbn [negb]; [|eexists; split; [done|]; right; right; split_and!; [done..|]; intros (_ & _ & ? & _); congruence].
  destruct (bucket_count_ok (Z.of_nat (nrows r)) ltac:(lia)) as [(k & Hk & ->)|[Hlarge ->]]; [|eexists; split; [done|]; right; right; split_and!; [done..|]; intros _; lia].
  destruct (je_tables e) eqn:E3; cbn [negb]; [|eexists; split; [done|]; right; right; split_and!; [done..|]; intros (_ & _ & _ & _ & ? & _); congruence].
  destruct (probe_built left r lk rk k (S (nrows r)) Hl Hrr Flk ltac:(unfold key_cols; by rewrite Hlr) ltac:(lia) ltac:(lia) ltac:(lia) ltac:(lia)) as (head & next & -> & Hp). cbn [mbind option_bind].
  destruct (je_tmp e) eqn:E4; cbn [negb mbind option_bind Z.eqb ENOMEM]; [|eexists; split; [done|]; right; right; split_and!; [done..|]; intros (_ & _ & _ & _ & _ & ? & _); congruence].
  destruct (anti_loop_ok e _ Hp (nrows left) 0 (new_like left) eq_refl (new_like_fits left) eq_refl) as (out & rc & -> & Hlo & Hfo & [[-> Hs]|[-> Hg]]); cbn [mbind option_bind Z.eqb negb ENOMEM].
  - unfold eval_stack_push. rewrite (proj2 (Nat.leb_gt _ _)) by done. eexists. split; [done|]. left. split_and!; [done|done|by apply Hb|]. eexists _, _. split_and!; [done..|]. rewrite Hs, drop_0.
    change (stored (new_like left)) with (@nil row). cbn [app p_left]. f_equal. apply list_filter_iff. intros x. unfold matched. cbn [p_left p_lk p_right p_rk]. rewrite Hlr, Hpart by done. done.
  - eexists. split; [done|]. right. right. split_and!; [done..|]. intros (_ & _ & _ & _ & _ & _ & Ha). specialize (Hg Ha). cbn in Hg. lia.
Qed.

End Operators.

(** ** The antijoin *)

(** C11: The antijoin pushes, in order, exactly the left rows that no right row
    that passes the operator's predicate joins with: rows join when their key
    cells have the same types and values, the two zeros of a float being one.
    It refuses to join floats with other columns; with enough memory it fails
    otherwise only above 2^30 right or 2^31 left rows. *)
Theorem antijoin_exact {W} `{!Host W} {K} table sessions op ln rn e (rest : stack K) left right own delta segs nseg (w w' : W) l :
  join_ok op left right ln rn -> (length rest < COL_STACK_MAX)%nat -> right_rows table sessions op right w = Some (w', l) ->
  exists res, antijoin_op e table sessions op ln (Some (right, rn)) (En (Some left) own delta segs nseg ENTRY_RELATION None :: rest) w = Some res /\
    join_result op ln rn e left right own rest w' left (canon left <$> filter (fun x => has_partner op ln rn left right l x = false) (stored left)) res.
Proof. apply antijoin_ok. Qed.

#[local] Existing Instance ExprProof.list_host.

(** The relations l(a, b) and r(c, a). *)
Definition lrows : rel := DeltaSpec.of_rows DeltaSpec.pairs [[1; 5]; [2; 7]; [3; 3]; [2; 8]] 0 [].
Definition rrows : rel := DeltaSpec.of_rows DeltaSpec.pairs [[0; 1]; [4; 3]; [9; 3]] 0 [].
Definition lnames : names := Some [Some [97]; Some [98]].
Definition rnames : names := Some [Some [99]; Some [97]].
Definition on_a : join_op := Jop (Some [Some [97]]) (Some [Some [97]]) 1 0 None [].
Definition rich : join_env := Jenv FilterSpec.FilterSpec.rich_env true true true true true true (fun _ => true).

Definition pushed {W K} (res : W * stack K * Z * list (resource K)) : list (option (list row)) := let '(_, s, _, _) := res in map (fun x : entry K => stored <$> e_rel x) s.

Lemma untyped_typed nc : typed (Sh nc None).
Proof. intros c _. by eexists. Qed.

Lemma on_a_ok : join_ok on_a lrows rrows lnames rnames.
Proof.
  split.
  - split; [|apply untyped_typed]. split; [split; vm_compute; lia|]. apply DeltaSpec.int_rows_ok; done.
  - split; [|split; [apply untyped_typed|vm_compute; reflexivity]]. split; [split; vm_compute; lia|]. apply DeltaSpec.int_rows_ok; done.
  - split; [split; [constructor|vm_compute; reflexivity]|]. intros c Hc. vm_compute in Hc. discriminate Hc.
  - split; [reflexivity|]. split; [vm_compute; lia|left; vm_compute; lia].
  - split; [reflexivity|]. split; [vm_compute; lia|left; vm_compute; lia].
Qed.

Lemma antijoin_exact_witness : exists res,
  antijoin_op (K := unit) rich false [] on_a lnames (Some (rrows, rnames)) [En (Some lrows) true false None 0 ENTRY_RELATION None] ([] : list (list Z)) = Some res /\
  join_result on_a lnames rnames rich lrows rrows true [] [] lrows [[2; 7]; [2; 8]] res /\ pushed res = [Some [[2; 7]; [2; 8]]].
Proof.
  destruct (antijoin_exact (K := unit) false [] on_a lnames rnames rich [] lrows rrows true false None 0 ([] : list (list Z)) [] (stored rrows)) as (res & Hres & Hj).
  - exact on_a_ok.
  - vm_compute. lia.
  - reflexivity.
  - exists res. split; [exact Hres|]. split; [exact Hj|]. assert (Hv : Some (pushed res) = Some [Some [[2; 7]; [2; 8]]]).
    { change (Some (pushed res)) with (pushed <$> Some res). rewrite <-Hres. vm_compute. reflexivity. }
    injection Hv as Hv. exact Hv.
Defined.

(** ** Departures *)

(** A relation with a float column has types, one without has none: a symbol of
    the first never joins with the same symbol of the second. *)
Definition weights : rel := DeltaSpec.of_rows (Sh 2 (Some [TYPE_STRING; TYPE_FLOAT])) [[7; 4607182418800017408]] 0 [].
Definition symbols : rel := DeltaSpec.of_rows (Sh 2 None) [[0; 7]] 0 [].

Example typed_symbols_never_join :
  col_join_key_types_compatible weights [0%nat] symbols [1%nat] = Some true /\
  col_join_keys_match_rel weights 0 [0%nat] symbols 0 [1%nat] = Some false /\ col_rel_get weights 0 0 = col_rel_get symbols 0 1.
Proof. split_and!; reflexivity. Qed.

(** When the output of an antijoin cannot be allocated, the filtered copy of the
    right relation is not freed. *)
Definition on_a_filtered : join_op := Jop (Some [Some [97]]) (Some [Some [97]]) 1 0 None ExprProof.lt_buf.
Definition no_out : join_env := Jenv FilterSpec.FilterSpec.rich_env true false true true true true (fun _ => true).

Example antijoin_leaks_copy :
  (filtered_right no_out false [] on_a_filtered rrows ([] : list (list Z)) = Some ([], Some (set_nrows 1 (set_rows ([0; 1] :: replicate 63 [0; 0]) (new_like rrows)), true))) /\
  (antijoin_op (K := unit) no_out false [] on_a_filtered lnames (Some (rrows, rnames)) [En (Some lrows) true false None 0 ENTRY_RELATION None] ([] : list (list Z)) =
     Some ([], [], ENOMEM, [F_relation lrows])).
Proof. split; vm_compute; reflexivity. Qed.

End HashJoinSpec.
