(* ===== verification/SemijoinSpec.v ===== *)
(** * The semijoin and its workers

    The left rows are cut into chunks.  A first pass counts the matches of each
    chunk, a second one writes them behind those of the chunks before.  Whatever
    the order in which the tasks of a pass run, the rows written are those of
    the sequential scan, each at its place. *)

From S2P Require Import Prelude RadixSort Relation Consolidate ConsolidateProof StringOps Expr ExprProof EvalStack Filter FilterProof RowOps HashJoin HashJoinProof HashJoinSpec.

Module SemijoinSpec.

Import Keys Rel Consolidate ConsolidateProof Expr.Expr EvalStack.EvalStack Filter.Filter FilterProof.FilterProof RowOps.RowOps HashJoin.HashJoin HashJoinProof.HashJoinProof HashJoinSpec.HashJoinSpec.

Lemma mapM_seq {A} (f : nat -> option A) (g : nat -> A) n : forall i, (forall c, (i <= c < i + n)%nat -> f c = Some (g c)) -> mapM f (seq i n) = Some (g <$> seq i n).
Proof.
  induction n as [|n IH]; intros i H; [done|]. cbn [seq mapM]. rewrite H by lia. cbn [mbind option_bind]. rewrite IH by (intros c Hc; apply H; lia). done.
Qed.

(** ** The projection *)

Definition proj_ok (op : join_op) : Prop := j_project_count op = O \/ exists l, j_project_indices op = Some l /\ (j_project_count op <= length l)%nat.

(** The columns of the left relation that are kept. *)
Definition sources (op : join_op) (nc : nat) : list nat :=
  if (0 <? j_project_count op)%nat then take (j_project_count op) (default [] (j_project_indices op)) else seq 0 nc.

Definition projected (op : join_op) (x : row) : row := (fun si => default 0 (x !! si)) <$> sources op (length x).

(** The lanes of the output. *)
Definition left_shape (op : join_op) (left : shape) : shape := Sh (length (sources op (ncols left))) (Some ((fun si => default TYPE_INT64 (group_type left si)) <$> sources op (ncols left))).

Lemma length_sources op nc : proj_ok op -> length (sources op nc) = (if (0 <? j_project_count op)%nat then j_project_count op else nc).
Proof.
  unfold sources. intros [H|(l & -> & Hl)]; [rewrite H; cbn; apply length_seq|]. destruct (_ <? _)%nat; [|apply length_seq]. cbn. unfold id. rewrite length_take. lia.
Qed.

Lemma whole_row (x : row) : (fun si => default 0 (x !! si)) <$> seq 0 (length x) = x.
Proof.
  apply list_eq. intros i. rewrite list_lookup_fmap. destruct (lt_dec i (length x)) as [Hi|Hi].
  - rewrite lookup_seq_lt by done. cbn. destruct (lookup_lt_is_Some_2 x i Hi) as [v ->]. done.
  - rewrite lookup_seq_ge by lia. symmetry. apply lookup_ge_None_2. lia.
Qed.

Lemma semi_row_ok op (left : shape) x : proj_ok op -> length x = ncols left -> semi_row op left x = Some (projected op x).
Proof.
  intros Hp Hx. unfold semi_row, projected, sources. assert (Hall : lanes_at (ncols left) x 0 = Some ((fun si => default 0 (x !! si)) <$> seq 0 (length x))) by (rewrite whole_row; by apply lanes_whole).
  destruct Hp as [H|(l & Hl & Hlen)]; [rewrite H; cbn; by destruct (j_project_indices op)|]. rewrite Hl. destruct (0 <? j_project_count op)%nat eqn:Hc; [|done].
  rewrite (mapM_seq _ (fun c => default 0 (x !! (l !!! c)))).
  - f_equal. cbn. unfold id. apply list_eq. intros i. rewrite !list_lookup_fmap. destruct (lt_dec i (j_project_count op)) as [Hi|Hi].
    + rewrite lookup_seq_lt, lookup_take_lt by done. destruct (lookup_lt_is_Some_2 l i ltac:(lia)) as [s Hs]. rewrite Hs. cbn. by rewrite (list_lookup_total_correct _ _ _ Hs).
    + rewrite lookup_seq_ge, lookup_take_ge by lia. done.
  - intros c Hc'. destruct (lookup_lt_is_Some_2 l c ltac:(lia)) as [s Hs]. unfold rd. rewrite Hs. cbn [mbind option_bind]. rewrite (list_lookup_total_correct _ _ _ Hs).
    destruct (Nat.ltb_spec s (ncols left)) as [Hlt|Hge]; [destruct (lookup_lt_is_Some_2 x s ltac:(lia)) as [v ->]; done|by rewrite (lookup_ge_None_2 x s) by lia].
Qed.

Lemma source_type_ok (left : shape) gi : typed left -> exists ty, group_type left gi = Some ty /\ ((gi < ncols left)%nat -> column_type_at left gi = Some ty) /\ ((ncols left <= gi)%nat -> ty = TYPE_INT64).
Proof.
  intros Ht. unfold group_type. destruct (column_types left) as [ts|] eqn:Hts.
  - destruct (Nat.ltb_spec gi (ncols left)) as [Hlt|Hge]; [|exists TYPE_INT64; split_and!; (done || lia)]. destruct (Ht gi Hlt) as [ty Hty]. exists ty. unfold column_type_at in *. rewrite Hts in *. split_and!; (done || lia).
  - exists TYPE_INT64. unfold column_type_at. rewrite Hts. done.
Qed.

Lemma left_types_ok op (left : shape) : proj_ok op -> typed left -> left_output_types op left = column_types (left_shape op left).
Proof.
  intros Hp Ht. unfold left_output_types. cbn [left_shape column_types]. pose proof (length_sources op (ncols left) Hp) as Hlen. rewrite <-Hlen.
  rewrite (mapM_seq _ (fun c => default TYPE_INT64 (group_type left (sources op (ncols left) !!! c)))).
  - f_equal. apply list_eq. intros i. rewrite !list_lookup_fmap. destruct (lt_dec i (length (sources op (ncols left)))) as [Hi|Hi].
    + rewrite lookup_seq_lt by done. destruct (lookup_lt_is_Some_2 _ i Hi) as [s Hs]. rewrite Hs. cbn. by rewrite (list_lookup_total_correct _ _ _ Hs).
    + rewrite lookup_seq_ge, (lookup_ge_None_2 (sources op (ncols left))) by lia. done.
  - intros c Hc. unfold sources in *. destruct (0 <? j_project_count op)%nat eqn:Hpc.
    + destruct Hp as [H|(l & Hl & Hll)]; [rewrite H in Hpc; done|]. rewrite Hl in *. cbn in Hlen, Hc |- *. unfold id in *. destruct (lookup_lt_is_Some_2 l c ltac:(rewrite length_take in Hc; lia)) as [s Hs].
      unfold rd. rewrite Hs. cbn [mbind option_bind]. rewrite (list_lookup_total_correct (take _ l) c s) by (rewrite lookup_take_lt by lia; done). by destruct (source_type_ok left s Ht) as (ty & -> & _).
    + cbn [mbind option_bind]. rewrite length_seq in Hc. rewrite (list_lookup_total_correct (seq 0 (ncols left)) c c) by (rewrite lookup_seq_lt by lia; done). by destruct (source_type_ok left c Ht) as (ty & -> & _).
Qed.

Lemma projected_ok op (left : shape) x : proj_ok op -> typed left -> row_ok left x -> row_ok (left_shape op left) (projected op x).
Proof.
  intros Hp Ht Hx. unfold projected, left_shape. rewrite (rk_len _ _ Hx). split; [cbn; apply length_fmap|]. intros c v Hv. cbn [column_type_at column_types]. unfold column_type_at. cbn [column_types].
  rewrite list_lookup_fmap in Hv. destruct (sources op (ncols left) !! c) as [s|] eqn:Hs; [|done]. cbn in Hv. injection Hv as <-. unfold rd. rewrite list_lookup_fmap, Hs. cbn.
  destruct (source_type_ok left s Ht) as (ty & -> & Hin & Hout). exists ty. split; [done|]. destruct (lt_dec s (ncols left)) as [Hlt|Hge].
  - destruct (row_cell left x s Hx Hlt) as (ty' & v & Hty & Hv & _ & Hk). rewrite (Hin Hlt) in Hty. injection Hty as <-. by rewrite Hv.
  - rewrite (lookup_ge_None_2 x s) by (rewrite (rk_len _ _ Hx); lia). rewrite Hout by lia. split; [cbn; mi|done].
Qed.

(** Setting the cells of a row one by one writes the canonical row. *)
Lemma set_cells_ok (s : shape) (out : rel) i x y : lanes out = s -> (i < capacity out)%nat -> row_ok s x -> length y = ncols s -> forall m c, (c + m = length x)%nat ->
  rows out !! i = Some (take c (canon s x) ++ drop c y) -> set_cells m out i c x = Some (set_rows (<[i := canon s x]> (rows out)) out, 0).
Proof.
  intros Hl Hi Hx Hy m. revert out Hl Hi. induction m as [|m IH]; intros out Hl Hi c Hc Hrow; cbn [set_cells].
  { assert (Hlc : length (canon s x) = length x) by apply length_imap. rewrite take_ge, drop_ge, app_nil_r in Hrow by (rewrite ?Hlc, ?Hy, <-?(rk_len _ _ Hx); lia). rewrite list_insert_id by done. by destruct out. }
  destruct (row_cell s x c Hx ltac:(rewrite <-(rk_len _ _ Hx); lia)) as (ty & v & Hty & Hv & _ & [_ Hval]). pose proof (lookup_lt_Some _ _ _ Hrow) as Hil. unfold rd at 1. rewrite Hv. cbn [mbind option_bind].
  unfold col_rel_set. rewrite Hl, (proj2 (Nat.leb_gt _ _) Hi), (proj2 (Nat.leb_gt _ _)) by (rewrite <-(rk_len _ _ Hx); lia). cbn [orb]. rewrite Hty. cbn [mbind option_bind].
  assert (is_float ty && negb (float_bits_valid v) = false) as -> by (destruct (is_float ty); [by rewrite Hval|done]). unfold rd. rewrite Hrow. cbn [mbind option_bind].
  assert (Hlc : length (canon s x) = length x) by apply length_imap. rewrite wr_lt by (rewrite length_app, length_take, length_drop, Hlc, Hy, <-(rk_len _ _ Hx); lia). cbn [mbind option_bind]. rewrite wr_lt by done. cbn [mbind option_bind Z.eqb negb].
  rewrite (IH (set_rows (<[i := _]> (rows out)) out)) with (c := S c); [cbn [set_rows rows lanes capacity nrows sorted_nrows merge_columns merge_buf_cap timestamps run_count run_ends]; by rewrite list_insert_insert_eq|done|done|lia|].
  cbn [set_rows rows]. rewrite list_lookup_insert_eq by done. f_equal. assert (Hcx : canon s x !! c = Some (canonical_cell ty v)) by (unfold canon; rewrite list_lookup_imap, Hv; cbn; by rewrite Hty).
  rewrite insert_app_r_alt by (rewrite length_take; lia). rewrite length_take, Nat.min_l by (rewrite Hlc; lia). rewrite Nat.sub_diag, (take_S_r _ _ _ Hcx), <-app_assoc. f_equal.
  destruct (lookup_lt_is_Some_2 y c ltac:(rewrite Hy, <-(rk_len _ _ Hx); lia)) as [u Hu]. by rewrite (drop_S y u c Hu).
Qed.

(** A number between two values of a function lies between two neighbours. *)
Lemma interval_of (f : nat -> nat) i : (f 0 <= i)%nat -> forall m, (i < f m)%nat -> exists w, (w < m)%nat /\ (f w <= i < f (S w))%nat.
Proof.
  intros H0. induction m as [|m IH]; intros Hm; [lia|]. destruct (lt_dec i (f m)) as [Hlt|Hge]; [destruct (IH Hlt) as (w & Hw & Hiw); exists w|exists m]; (split; [lia|lia]).
Qed.

(** ** The chunks *)

Lemma order_bounds n order : order ≡ₚ seq 0 (Z.to_nat n) -> Forall (fun w => Z.of_nat w < n) order /\ forall w, Z.of_nat w < n -> w ∈ order.
Proof. intros H. split; [rewrite H; apply Forall_forall; intros w Hw%elem_of_seq; lia|]. intros w Hw. rewrite H. apply elem_of_seq. lia. Qed.

Lemma submitted n (f : nat -> bool) : forallb f (seq 0 (Z.to_nat n)) = true -> forall w, Z.of_nat w < n -> f w = true.
Proof. intros H w Hw. apply forallb_forall with (x := w) in H; [done|]. apply list_elem_of_In, elem_of_seq. lia. Qed.


Section Chunks.

Context (N n : Z) (Hn : 0 < n) (HN : 0 <= N).

(** The first row of worker [w]. *)
Definition first_row (w : nat) : nat := Z.to_nat (Z.min (Z.of_nat w * ((N + n - 1) / n)) N).

Lemma chunk_bounds_ok w : N + n - 1 < 2 ^ 32 -> Z.of_nat w < n -> chunk_bounds N n (Z.of_nat w) = (Z.of_nat (first_row w), Z.of_nat (first_row (S w))).
Proof.
  intros Hbig Hw. unfold chunk_bounds, first_row. rewrite (u32_small (N + n - 1)) by mi. set (c := (N + n - 1) / n). pose proof (Z.mul_div_le (N + n - 1) n Hn) as Hc. fold c in Hc. assert (0 <= c) by (apply Z.div_pos; lia).
  assert (Hwc : 0 <= Z.of_nat w * c /\ Z.of_nat w * c + c <= n * c) by nia. rewrite (u32_small (Z.of_nat w * c)) by mi. rewrite u32_small by mi. rewrite !Z2Nat.id by lia. f_equal. f_equal. lia.
Qed.

Lemma first_row_mono w : (first_row w <= first_row (S w))%nat.
Proof. unfold first_row. assert (0 <= (N + n - 1) / n) by (apply Z.div_pos; lia). nia. Qed.

Lemma first_row_0 : first_row 0 = O.
Proof. unfold first_row. change (Z.of_nat 0) with 0. rewrite Z.mul_0_l. lia. Qed.

Lemma first_row_le w : (first_row w <= Z.to_nat N)%nat.
Proof. unfold first_row. lia. Qed.

Lemma first_row_end : first_row (Z.to_nat n) = Z.to_nat N.
Proof. unfold first_row. rewrite Z2Nat.id by lia. f_equal. pose proof (Z.mod_pos_bound (N + n - 1) n Hn). pose proof (Z.div_mod (N + n - 1) n ltac:(lia)). lia. Qed.

(** Every row lies in the chunk of a worker. *)
Lemma chunk_of i : (i < Z.to_nat N)%nat -> exists w, Z.of_nat w < n /\ (first_row w <= i < first_row (S w))%nat.
Proof.
  intros Hi. destruct (interval_of first_row i ltac:(rewrite first_row_0; lia) (Z.to_nat n)) as (w & Hw & Hiw); [rewrite first_row_end; lia|]. exists w. split; [lia|done].
Qed.

End Chunks.

Lemma offsets_lookup counts : forall total w, (w <= length counts)%nat -> offsets_of counts total !! w = Some (total + sum_list (take w counts))%nat.
Proof.
  induction counts as [|c counts IH]; intros total [|w] Hw; cbn in Hw; cbn [offsets_of lookup list_lookup take sum_list]; try lia; [f_equal; cbn; lia..|].
  rewrite IH by lia. cbn. f_equal. lia.
Qed.

Section Workers.

Context (op : join_op) (p : probe) (Hp : probe_ok p) (Hproj : proj_ok op) (Hty : typed (p_left p)).

Abbreviation left := (p_left p).
Abbreviation N := (nrows left).
Abbreviation oshape := (left_shape op left).

(** The matches among the first [lr] rows, and the rows of the output. *)
Definition matches (lr : nat) : nat := length (filter (fun x => matched p x = true) (take lr (stored left))).
Definition selected : list row := (fun x => canon oshape (projected op x)) <$> filter (fun x => matched p x = true) (stored left).

Lemma left_stored lr : (lr < N)%nat -> stored left !! lr = Some (stored left !!! lr) /\ row_ok left (stored left !!! lr).
Proof.
  intros Hlr. pose proof (po_left _ Hp) as [Hf Hok]. assert (H : stored left !! lr = Some (stored left !!! lr)) by (apply list_lookup_lookup_total_lt; rewrite length_stored by done; lia).
  split; [done|]. by apply (Forall_lookup_1 _ _ _ _ Hok H).
Qed.

Lemma matches_S lr : (lr < N)%nat -> matches (S lr) = (matches lr + if matched p (stored left !!! lr) then 1 else 0)%nat.
Proof.
  intros Hlr. unfold matches. rewrite (take_S_r _ _ _ (proj1 (left_stored lr Hlr))), filter_app, length_app. f_equal. rewrite filter_cons, filter_nil.
  destruct (matched p _); [by rewrite decide_True|by rewrite decide_False].
Qed.

Lemma matches_mono a b : (a <= b <= N)%nat -> (matches a <= matches b)%nat.
Proof. intros [Hab Hb]. induction Hab as [|b Hab IH]; [done|]. rewrite matches_S by lia. specialize (IH ltac:(lia)). lia. Qed.

Lemma matches_all : matches N = length selected.
Proof. unfold matches, selected. rewrite length_fmap, take_ge; [done|]. by rewrite length_stored by apply (po_left _ Hp). Qed.

Lemma selected_at lr : (lr < N)%nat -> matched p (stored left !!! lr) = true -> selected !! matches lr = Some (canon oshape (projected op (stored left !!! lr))).
Proof.
  intros Hlr Hm. unfold selected. rewrite list_lookup_fmap, <-(take_drop_middle (stored left) lr _ (proj1 (left_stored lr Hlr))) at 1.
  rewrite filter_app, filter_cons, decide_True by done. rewrite lookup_app_r by (unfold matches; lia). unfold matches. by rewrite Nat.sub_diag.
Qed.

(** *** Hashes *)

(** left_hashes, where it exists, holds the hashes of the rows in [D]. *)
Definition hashes_for (hs : option (list Z)) (D : nat -> Prop) : Prop :=
  match hs with None => True | Some l => (N <= length l)%nat /\ forall lr, D lr -> l !! lr = left_hash p lr end.

Lemma left_hash_some lr : (lr < N)%nat -> exists h, left_hash p lr = Some h.
Proof. intros Hlr. destruct (left_hash_ok p lr Hp Hlr) as (k & _ & _ & -> & _). by eexists. Qed.

Lemma row_found_ok hs (D : nat -> Prop) lr : hashes_for hs D -> D lr -> (lr < N)%nat -> col_semijoin_row_found p hs lr = Some (matched p (stored left !!! lr)).
Proof.
  intros Hh Hd Hlr. destruct (left_hash_some lr Hlr) as [h Hl]. unfold col_semijoin_row_found. destruct hs as [l|]; [unfold rd; rewrite (proj2 Hh lr Hd)|]; rewrite Hl; cbn [mbind option_bind]; by apply probe_at_ok.
Qed.

Lemma hashes_step hs D lr : hashes_for hs D -> (lr < N)%nat -> exists hs', (match hs with Some l => h ← left_hash p lr; l ← wr l lr h; Some (Some l) | None => Some None end) = Some hs' /\
  hashes_for hs' (fun i => D i \/ i = lr).
Proof.
  intros Hh Hlr. destruct hs as [l|]; [|by exists None]. destruct Hh as [Hlen Hd]. destruct (left_hash_some lr Hlr) as [h Hl]. rewrite Hl. cbn [mbind option_bind]. rewrite wr_lt by lia. cbn [mbind option_bind].
  eexists. split; [done|]. split; [by rewrite length_insert|]. intros i Hi. destruct (decide (i = lr)) as [->|Hne]; [rewrite list_lookup_insert_eq by lia; done|]. rewrite list_lookup_insert_ne by done. apply Hd. tauto.
Qed.

Lemma hashes_weaken hs (D D' : nat -> Prop) : hashes_for hs D -> (forall i, D' i -> D i) -> hashes_for hs D'.
Proof. destruct hs as [l|]; [|done]. intros [Hl Hd] H. split; [done|]. intros i Hi. by apply Hd, H. Qed.

(** *** Counting *)

Lemma count_worker_ok m : forall lr hs D c, (lr + m <= N)%nat -> hashes_for hs D ->
  exists hs', count_worker m p lr hs c = Some (hs', (c + (matches (lr + m) - matches lr))%nat) /\ hashes_for hs' (fun i => D i \/ (lr <= i < lr + m)%nat).
Proof.
  induction m as [|m IH]; intros lr hs D c Hlr Hh; cbn [count_worker].
  { exists hs. split; [do 2 f_equal; rewrite Nat.add_0_r; lia|]. eapply hashes_weaken; [exact Hh|]. intros i [Hi|]; [done|lia]. }
  destruct (hashes_step hs D lr Hh ltac:(lia)) as (hs1 & -> & Hh1). cbn [mbind option_bind]. rewrite (row_found_ok hs1 _ lr Hh1) by (lia || by right). cbn [mbind option_bind].
  set (c' := if matched p (stored left !!! lr) then S c else c). destruct (IH (S lr) hs1 _ c' ltac:(lia) Hh1) as (hs2 & -> & Hh2). exists hs2. split.
  - do 2 f_equal. rewrite Nat.add_succ_comm. pose proof (matches_S lr ltac:(lia)). pose proof (matches_mono (S lr) (lr + S m) ltac:(lia)). unfold c'. destruct (matched p (stored left !!! lr)); lia.
  - eapply hashes_weaken; [exact Hh2|]. intros i [Hi|Hi]; [by left; left|]. destruct (decide (i = lr)); [by left; right|right; lia].
Qed.

(** The workers [0] to [n - 1]. *)
Context (n : Z) (Hn : 0 < n) (Hbig : Z.of_nat N + n - 1 < 2 ^ 32).

Abbreviation first := (first_row (Z.of_nat N) n).

Definition chunk_count (w : nat) : nat := (matches (first (S w)) - matches (first w))%nat.

Lemma chunk_range w : Z.of_nat w < n -> chunk_bounds (Z.of_nat N) n (Z.of_nat w) = (Z.of_nat (first w), Z.of_nat (first (S w))) /\ (first w <= first (S w) <= N)%nat.
Proof.
  intros Hw. split; [by apply chunk_bounds_ok; lia|]. pose proof (first_row_mono (Z.of_nat N) n Hn ltac:(lia) w). pose proof (first_row_le (Z.of_nat N) n (S w)). lia.
Qed.

Lemma run_counts_ok pa order : Forall (fun w => Z.of_nat w < n) order -> forall hs (D : nat -> Prop) counts (E : nat -> Prop), length counts = Z.to_nat n -> hashes_for hs D ->
  (forall w, E w -> counts !! w = Some (chunk_count w)) ->
  exists hs' counts', run_counts order pa p n hs counts = Some (hs', counts') /\ length counts' = Z.to_nat n /\
    hashes_for hs' (fun i => D i \/ exists w, w ∈ order /\ pa_count pa w = true /\ (first w <= i < first (S w))%nat) /\
    (forall w, E w \/ (w ∈ order /\ pa_count pa w = true) -> counts' !! w = Some (chunk_count w)).
Proof.
  induction 1 as [|w order Hw _ IH]; intros hs D counts E Hlen Hh Hc; cbn [run_counts].
  { exists hs, counts. split_and!; [done..| |]; [eapply hashes_weaken; [exact Hh|]; intros i [|(w & Hw & _)]; [done|by apply not_elem_of_nil in Hw]|]. intros w [Hw|[Hw _]]; [by apply Hc|by apply not_elem_of_nil in Hw]. }
  destruct (pa_count pa w) eqn:Hpc; cbn [negb].
  - destruct (chunk_range w Hw) as [-> Hr]. replace (Z.to_nat (Z.of_nat (first (S w)) - Z.of_nat (first w))) with (first (S w) - first w)%nat by lia. rewrite Nat2Z.id.
    destruct (count_worker_ok (first (S w) - first w) (first w) hs D 0 ltac:(lia) Hh) as (hs1 & -> & Hh1). cbn [mbind option_bind]. rewrite wr_lt by lia. cbn [mbind option_bind].
    replace (first w + (first (S w) - first w))%nat with (first (S w)) in * by lia. cbn [Nat.add]. fold (chunk_count w).
    destruct (IH hs1 _ (<[w := chunk_count w]> counts) (fun v => E v \/ v = w) ltac:(by rewrite length_insert) Hh1) as (hs2 & c2 & -> & Hl2 & Hh2 & Hc2).
    { intros v Hv. destruct (decide (v = w)) as [->|Hne]; [apply list_lookup_insert_eq; lia|]. rewrite list_lookup_insert_ne by done. apply Hc. tauto. }
    exists hs2, c2. split_and!; [done..| |].
    + eapply hashes_weaken; [exact Hh2|]. intros i [Hi|(v & [->|Hv]%elem_of_cons & Hpv & Hi)]; [by left; left|left; right; lia|right; by exists v].
    + intros v [Hv|[[->|Hv]%elem_of_cons Hpv]]; apply Hc2; tauto.
  - destruct (IH hs D counts E Hlen Hh Hc) as (hs2 & c2 & -> & Hl2 & Hh2 & Hc2). exists hs2, c2. split_and!; [done..| |].
    + eapply hashes_weaken; [exact Hh2|]. intros i [Hi|(v & [->|Hv]%elem_of_cons & Hpv & Hi)]; [by left|congruence|right; by exists v].
    + intros v [Hv|[[->|Hv]%elem_of_cons Hpv]]; [apply Hc2; tauto|congruence|apply Hc2; tauto].
Qed.

(** The offset of a worker is the number of matches before its chunk. *)
Lemma chunk_sum m : (m <= Z.to_nat n)%nat -> sum_list (chunk_count <$> seq 0 m) = matches (first m).
Proof.
  induction m as [|m IH]; intros Hm; [by rewrite first_row_0|]. rewrite seq_S, fmap_app, sum_list_with_app. change (sum_list_with id) with sum_list. rewrite IH by lia. cbn. unfold id.
  unfold chunk_count. destruct (chunk_range m ltac:(lia)) as [_ Hr]. pose proof (matches_mono (first m) (first (S m)) Hr). lia.
Qed.

(** *** Writing *)

(** The output under construction: the rows in [A] are written. *)
Definition filling (out : rel) (A : nat -> Prop) : Prop :=
  lanes out = oshape /\ nrows out = length selected /\ fits out /\ Forall (fun x => length x = ncols oshape) (rows out) /\ forall i, A i -> (i < length selected)%nat -> rows out !! i = selected !! i.

Lemma filling_weaken out (A A' : nat -> Prop) : filling out A -> (forall i, A' i -> A i) -> filling out A'.
Proof. intros (H1 & H2 & H3 & H4 & H5) H. split_and!; [done..|]. intros i Hi. by apply H5, H. Qed.

Lemma fill_worker_ok hs (D : nat -> Prop) m : forall lr out A, (lr + m <= N)%nat -> hashes_for hs D -> (forall i, (lr <= i < lr + m)%nat -> D i) -> filling out A ->
  exists out', fill_worker m op p hs lr (matches lr) out 0 = Some (out', 0) /\ filling out' (fun i => A i \/ (matches lr <= i < matches (lr + m))%nat).
Proof.
  induction m as [|m IH]; intros lr out A Hlr Hh Hd Hf; cbn [fill_worker Z.eqb negb].
  { exists out. split; [done|]. eapply filling_weaken; [exact Hf|]. intros i [Hi|Hi]; [done|]. rewrite Nat.add_0_r in Hi. lia. }
  rewrite (row_found_ok hs D lr Hh) by (lia || apply Hd; lia). cbn [mbind option_bind]. pose proof (matches_S lr ltac:(lia)) as HS. pose proof (matches_mono (S lr) (lr + S m) ltac:(lia)) as Hle. replace (lr + S m)%nat with (S lr + m)%nat in * by lia.
  destruct (matched p (stored left !!! lr)) eqn:Hm; cbn [negb].
  2: { replace (matches lr) with (matches (S lr)) by lia. apply IH; [lia|done| |done]. intros i Hi. apply Hd. lia. }
  destruct (drop_row left lr (po_left _ Hp) ltac:(lia)) as (x & Hx & -> & _ & Hok & _). rewrite Hx in Hm. cbn [mbind option_bind]. rewrite semi_row_ok by (done || apply (rk_len _ _ Hok)). cbn [mbind option_bind].
  destruct Hf as (Hl & Hnr & Hfit & Hrl & Hw). pose proof (matches_mono (S lr + m) N ltac:(lia)) as Hall. rewrite matches_all in Hall. destruct Hfit as [Hcap Hlen].
  destruct (lookup_lt_is_Some_2 (rows out) (matches lr) ltac:(lia)) as [y Hy]. pose proof (Forall_lookup_1 _ _ _ _ Hrl Hy) as Hyl. cbn beta in Hyl.
  rewrite (set_cells_ok oshape out (matches lr) (projected op x) y Hl ltac:(lia) (projected_ok op left x Hproj Hty Hok) Hyl (length (projected op x)) 0 eq_refl) by (by rewrite drop_0). cbn [mbind option_bind Z.eqb negb].
  replace (S (matches lr)) with (matches (S lr)) by lia. set (out1 := set_rows _ out). pose proof (selected_at lr ltac:(lia) ltac:(by rewrite Hx)) as Hsel. rewrite Hx in Hsel.
  destruct (IH (S lr) out1 (fun i => A i \/ i = matches lr)) as (out2 & -> & H2); [lia|done|intros i Hi; apply Hd; lia| |].
  - unfold out1. split_and!; cbn [set_rows lanes nrows capacity rows]; [done..| |apply Forall_insert; [done|]|].
    + split; cbn [nrows capacity rows set_rows]; rewrite ?length_insert; lia.
    + unfold canon. rewrite length_imap, <-(rk_len _ _ (projected_ok op left x Hproj Hty Hok)). done.
    + intros i Hi Hlt. destruct (decide (i = matches lr)) as [->|Hne]; [rewrite list_lookup_insert_eq by lia; done|]. rewrite list_lookup_insert_ne by done. apply Hw; [tauto|done].
  - exists out2. split; [done|]. eapply filling_weaken; [exact H2|]. intros i [Hi|Hi]; [tauto|]. destruct (decide (i = matches lr)); [tauto|right; lia].
Qed.

Lemma run_fills_ok pa hs (D : nat -> Prop) offsets order : hashes_for hs D -> (forall i, (i < N)%nat -> D i) -> (forall w, Z.of_nat w < n -> offsets !! w = Some (matches (first w))) ->
  Forall (fun w => Z.of_nat w < n) order -> forall out A, filling out A ->
  exists out', run_fills order pa op p n hs offsets out 0 = Some (out', 0) /\ filling out' (fun i => A i \/ exists w, w ∈ order /\ pa_fill pa w = true /\ (matches (first w) <= i < matches (first (S w)))%nat).
Proof.
  intros Hh Hd Hoff. induction 1 as [|w order Hw _ IH]; intros out A Hf; cbn [run_fills].
  { exists out. split; [done|]. eapply filling_weaken; [exact Hf|]. intros i [Hi|(w & Hw & _)]; [done|by apply not_elem_of_nil in Hw]. }
  destruct (pa_fill pa w) eqn:Hpf; cbn [negb].
  - destruct (chunk_range w Hw) as [-> Hr]. replace (Z.to_nat (Z.of_nat (first (S w)) - Z.of_nat (first w))) with (first (S w) - first w)%nat by lia. rewrite Nat2Z.id. unfold rd. rewrite Hoff by done. cbn [mbind option_bind].
    destruct (fill_worker_ok hs D (first (S w) - first w) (first w) out A ltac:(lia) Hh ltac:(intros i Hi; apply Hd; lia) Hf) as (o1 & -> & H1). cbn [mbind option_bind].
    replace (first w + (first (S w) - first w))%nat with (first (S w)) in H1 by lia. destruct (IH o1 _ H1) as (o2 & -> & H2). exists o2. split; [done|].
    eapply filling_weaken; [exact H2|]. intros i [Hi|(v & [->|Hv]%elem_of_cons & Hpv & Hi)]; [tauto|tauto|right; by exists v].
  - destruct (IH out A Hf) as (o2 & -> & H2). exists o2. split; [done|]. eapply filling_weaken; [exact H2|]. intros i [Hi|(v & [->|Hv]%elem_of_cons & Hpv & Hi)]; [tauto|congruence|right; by exists v].
Qed.

(** The tasks of both passes run in some order. *)
Definition orders_ok (pa : par_env) : Prop := pa_count_order pa ≡ₚ seq 0 (Z.to_nat n) /\ pa_fill_order pa ≡ₚ seq 0 (Z.to_nat n).

(** An empty output with room for its rows. *)
Definition blank (out : rel) : Prop := lanes out = oshape /\ nrows out = O /\ fits out /\ Forall (fun x => length x = ncols oshape) (rows out).

Lemma reserve_ok ok out m : blank out -> exists out' rc, col_join_reserve_exact ok out m = (out', rc) /\ ((rc = 0 /\ blank out' /\ (m <= capacity out')%nat) \/ (rc = ENOMEM /\ out' = out)).
Proof.
  intros (Hl & Hn0 & Hf & Hr). unfold col_join_reserve_exact. destruct (Nat.leb_spec m (capacity out)); [exists out, 0; split; [done|]; left; done|]. destruct ok; cbn [negb]; [|exists out, ENOMEM; split; [done|]; by right].
  eexists _, _. split; [done|]. left. split; [done|]. split; [|done]. split_and!; [done..| |].
  - split; cbn [nrows capacity rows set_capacity set_rows]; [lia|]. by rewrite length_resized.
  - cbn [rows set_capacity set_rows]. unfold resized. apply Forall_app. split; [by apply Forall_take|]. rewrite Hl. apply Forall_replicate. apply length_replicate.
Qed.

(** The workers write the selected rows, or leave the output empty. *)
Lemma parallel_ok pa out : orders_ok pa -> blank out -> exists out' prc, parallel_semijoin pa op p n out = Some (out', prc) /\
  lanes out' = oshape /\ fits out' /\ ((prc = 0 /\ stored out' = selected) \/ (prc <> 0 /\ nrows out' = O)).
Proof.
  intros [Hco Hfo] Hblank. pose proof Hblank as (Hl & Hn0 & Hf & Hr). assert (Hfail : fits (set_nrows 0 out)) by (split; cbn; destruct Hf; lia).
  unfold parallel_semijoin. destruct (order_bounds n _ Hco) as [Hcb Hcall]. destruct (order_bounds n _ Hfo) as [Hfb Hfall].
  set (hs0 := if pa_hashes pa then _ else _). assert (Hh0 : hashes_for hs0 (fun _ => False)) by (unfold hs0; destruct (pa_hashes pa); [split; [rewrite length_replicate; lia|done]|done]).
  destruct (run_counts_ok pa _ Hcb hs0 (fun _ : nat => False) (replicate (Z.to_nat n) O) (fun _ => False)) as (hs & counts & -> & Hlc & Hh & Hc); [apply length_replicate|done|done|]. cbn [mbind option_bind].
  destruct (forallb (pa_count pa) (seq 0 (Z.to_nat n))) eqn:Hsub; cbn [negb orb]; [|eexists _, _; split; [done|]; split_and!; [done..|by right]].
  pose proof (submitted n _ Hsub) as Hcs. assert (Hcounts : counts = chunk_count <$> seq 0 (Z.to_nat n)).
  { apply list_eq. intros w. destruct (lt_dec w (Z.to_nat n)) as [Hw|Hw].
    - rewrite Hc by (right; split; [apply Hcall; lia|apply Hcs; lia]). by rewrite list_lookup_fmap, lookup_seq_lt by done.
    - rewrite (lookup_ge_None_2 counts) by lia. by rewrite list_lookup_fmap, lookup_seq_ge by lia. }
  assert (Hsum : forall m, (m <= Z.to_nat n)%nat -> sum_list (take m counts) = matches (first m)). { intros m Hm. rewrite Hcounts, <-fmap_take, take_seq, Nat.min_l by lia. by apply chunk_sum. }
  assert (Htot : sum_list counts = length selected). { rewrite <-(firstn_all counts), Hlc, Hsum by lia. rewrite first_row_end, Nat2Z.id by lia. apply matches_all. }
  rewrite Htot. assert (Hsel : (length selected <= N)%nat). { unfold selected. rewrite length_fmap. pose proof (length_filter (fun x => matched p x = true) (stored left)). rewrite length_stored in * by apply (po_left _ Hp). lia. }
  rewrite (proj2 (Z.ltb_ge _ _)) by mi. destruct (reserve_ok (pa_reserve pa) out (length selected) Hblank) as (o1 & rc & -> & [(-> & (Hl1 & Hn1 & Hf1 & Hr1) & Hcap)|(-> & ->)]); cbn [Z.eqb negb ENOMEM]; [|eexists _, _; split; [done|]; split_and!; [done..|by right]].
  destruct (run_fills_ok pa hs _ (offsets_of counts 0) (pa_fill_order pa) Hh) with (out := set_nrows (length selected) o1) (A := fun _ : nat => False) as (o2 & -> & Hl2 & Hn2 & Hf2 & _ & Hw2); [| |done| |].
  - intros i Hi. right. destruct (chunk_of (Z.of_nat N) n Hn i ltac:(lia)) as (w & Hw & Hiw). exists w. split_and!; [by apply Hcall|by apply Hcs|lia..].
  - intros w Hw. rewrite offsets_lookup by lia. f_equal. cbn. apply Hsum. lia.
  - split_and!; [done|done| |done|done]. split; cbn [nrows capacity rows set_nrows]; [lia|apply Hf1].
  - cbn [mbind option_bind]. destruct (forallb (pa_fill pa) (seq 0 (Z.to_nat n))) eqn:Hfs; cbn [negb Z.eqb ENOMEM].
    2: { eexists _, _. split; [done|]. split_and!; [done| |by right]. split; cbn [nrows capacity rows set_nrows]; [lia|apply Hf2]. }
    pose proof (submitted n _ Hfs) as Hfs'. eexists _, _. split; [done|]. split_and!; [done..|]. left. split; [done|]. unfold stored. rewrite Hn2. apply list_eq. intros i. destruct (lt_dec i (length selected)) as [Hi|Hi].
    + rewrite lookup_take_lt by done. apply Hw2; [|done]. right.
      destruct (interval_of (fun w => matches (first w)) i) with (m := Z.to_nat n) as (w & Hw & Hiw); [rewrite first_row_0; change (matches 0) with O; lia|rewrite first_row_end, Nat2Z.id, matches_all by lia; done|].
      exists w. split_and!; [apply Hfall; lia|apply Hfs'; lia|lia..].
    + rewrite lookup_take_ge, (lookup_ge_None_2 selected) by lia. done.
Qed.

End Workers.

(** ** The operator *)

Lemma semi_loop_ok e op p : probe_ok p -> proj_ok op -> typed (p_left p) -> forall n lr out, (lr + n = nrows (p_left p))%nat -> fits out -> lanes out = left_shape op (p_left p) ->
  appends e out n ((fun x => canon (left_shape op (p_left p)) (projected op x)) <$> filter (fun x => matched p x = true) (drop lr (stored (p_left p)))) (semi_loop n e op p lr out).
Proof.
  intros Hp Hproj Hty. pose proof (po_left _ Hp) as Hl. pose proof (length_stored _ (proj1 Hl)) as Hls. induction n as [|n IH]; intros lr out Hlr Hf Hlo; cbn [semi_loop].
  { rewrite drop_ge by lia. exists out, 0. split_and!; [done..|]. left. by rewrite app_nil_r. }
  rewrite row_matches_ok by (done || lia). cbn [mbind option_bind]. destruct (drop_row _ lr Hl ltac:(lia)) as (x & -> & -> & Hx & Hok & ->). rewrite filter_cons.
  destruct (matched p x); [|rewrite decide_False by done; cbn [negb]; apply appends_skip, IH; (done || lia)]. rewrite decide_True by done. cbn [negb mbind option_bind fmap list_fmap].
  rewrite semi_row_ok by (done || apply (rk_len _ _ Hok)). cbn [mbind option_bind]. rewrite <-Hlo.
  apply appends_step; [done|by rewrite Hlo; apply projected_ok|]. intros o Ho Hfo. rewrite Hlo in Ho |- *. apply IH; (done || lia).
Qed.

(** The tasks that are used run in some order. *)
Definition tasks_ok (pa : par_env) (n : nat) : Prop := Z.of_nat n + num_workers pa <= 2 ^ 32 /\ orders_ok (worker_count pa n) pa.

Lemma semi_rows_ok e pa op p out : probe_ok p -> proj_ok op -> typed (p_left p) -> tasks_ok pa (nrows (p_left p)) -> blank op p out ->
  appends e out (nrows (p_left p)) (selected op p) (semi_rows e pa op p out).
Proof.
  intros Hp Hproj Hty [Hbig Ho] Hb. unfold semi_rows. set (n := worker_count pa (nrows (p_left p))) in *. pose proof Hb as (Hl & Hn0 & Hf & _).
  assert (Hst : forall o : rel, nrows o = O -> stored o = []) by (intros o H; unfold stored; by rewrite H).
  assert (Hloop : forall o, lanes o = left_shape op (p_left p) -> fits o -> nrows o = O -> appends e out (nrows (p_left p)) (selected op p) (semi_loop (nrows (p_left p)) e op p 0 o)).
  { intros o H1 H2 H3. destruct (semi_loop_ok e op p Hp Hproj Hty (nrows (p_left p)) 0 o eq_refl H2 H1) as (o' & rc & -> & H4 & H5 & H6). rewrite drop_0 in H6. fold (selected op p) in H6. rewrite (Hst o H3) in H6.
    exists o', rc. rewrite Hl, (Hst out Hn0), Hn0, <-H3. split_and!; [done|congruence|done|done]. }
  destruct (negb (coordinator pa) && _ && _ && _ && _) eqn:Hcond; cbn [mbind option_bind]; [|by apply Hloop].
  rewrite !andb_true_iff in Hcond. destruct Hcond as [[[[_ Hn%Z.ltb_lt] _] _] _]. assert (n <= num_workers pa) by (unfold n, worker_count; lia).
  destruct (parallel_ok op p Hp Hproj Hty n ltac:(lia) ltac:(lia) pa out Ho Hb) as (o & prc & -> & Hlo & Hfo & [[-> Hs]|[Hprc Hno]]); cbn [mbind option_bind Z.eqb].
  - exists o, 0. split_and!; [done|congruence|done|]. left. split; [done|]. by rewrite (Hst out Hn0).
  - rewrite (proj2 (Z.eqb_neq _ _) Hprc). by apply Hloop.
Qed.

Section Operator.

Context {W : Type} `{!Host W} {K : Type} (table : bool) (sessions : list Z) (op : join_op) (ln rn : names).

(** The rows of the output: the projections of the left rows with a partner. *)
Definition semijoined (left right : rel) (l : list row) : list row :=
  (fun x => canon (left_shape op left) (projected op x)) <$> filter (fun x => has_partner op ln rn left right l x = true) (stored left).

Lemma semijoin_ok e pa rest left right own delta segs nseg (w w' : W) l : join_ok op left right ln rn -> proj_ok op -> tasks_ok pa (nrows left) -> (length rest < COL_STACK_MAX)%nat ->
  right_rows table sessions op right w = Some (w', l) ->
  exists res, semijoin_op e pa table sessions op ln (Some (right, rn)) (En (Some left) own delta segs nseg ENTRY_RELATION None :: rest) w = Some res /\
    join_result (K := K) op ln rn e left right own rest w' (left_shape op left) (semijoined left right l) res.
Proof.
  intros [[Hl Htl] (Hr & Htr & Hbig) Hfil (Hln & Hlk & Hlc) (Hrn & Hrk & Hrc)] Hproj Htask Hrest Hrows.
  destruct (resolve_keys_ok ln (ncols left) (left_keys op) (key_count op) Hln Hlk Hlc) as (lk & Elk & Llk & Flk).
  destruct (resolve_keys_ok rn (ncols right) (right_keys op) (key_count op) Hrn Hrk Hrc) as (rk & Erk & Lrk & Frk).
  unfold semijoin_op, join_result, semijoined, has_partner, lkeys, rkeys. rewrite Elk, Erk. cbn [eval_stack_pop_relation eval_stack_pop kind e_rel owned Z.eqb negb ENTRY_CONTINUATION ENTRY_RELATION default from_option]. unfold id.
  destruct (filtered_right_ok e table sessions op right w w' l Hfil Hr Hrows) as (w1 & f & -> & [(r & is_copy & -> & -> & Hlr & Hrr & Hnr & Hpart)|(-> & Hno)]); cbn [mbind option_bind].
  2: { eexists. split; [done|]. right. right. split_and!; [done..|]. intros (Hroom & _). specialize (Hno Hroom). lia. }
  destruct (je_keys e) eqn:E1; cbn [negb]; [|eexists; split; [done|]; right; right; split_and!; [done..|]; intros (_ & ? & _); congruence].
  rewrite Hlr, Elk. cbn [mbind option_bind]. rewrite Erk. cbn [mbind option_bind]. destruct (compatible_ok left right lk rk Htl Htr Flk Frk ltac:(lia)) as (b & -> & Hb). cbn [mbind option_bind].
  destruct b; cbn [negb]; [|eexists; split; [done|]; right; left; split_and!; [done|by rewrite <-Hb|done]].
  destruct (je_out e) eqn:E2; cbn [negb]; [|eexists; split; [done|]; right; right; split_and!; [done..|]; intros (_ & _ & ? & _); congruence].
  rewrite (left_types_ok op left Hproj Htl). cbn [left_shape column_types mbind option_bind]. destruct (je_types e) eqn:E3; cbn [negb]; [|eexists; split; [done|]; right; right; split_and!; [done..|]; intros (_ & _ & _ & ? & _); congruence].
  destruct (je_tmp e) eqn:E4; cbn [negb]; [|eexists; split; [done|]; right; right; split_and!; [done..|]; intros (_ & _ & _ & _ & _ & ? & _); congruence].
  destruct (bucket_count_ok (Z.of_nat (nrows r)) ltac:(lia)) as [(k & Hk & ->)|[Hlarge ->]]; [|eexists; split; [done|]; right; right; split_and!; [done..|]; intros _; lia].
  destruct (je_tables e) eqn:E5; cbn [negb]; [|eexists; split; [done|]; right; right; split_and!; [done..|]; intros (_ & _ & _ & _ & ? & _); congruence].
  destruct (probe_built left r lk rk k (Nat.max (nrows r) 1) Hl Hrr Flk ltac:(unfold key_cols; by rewrite Hlr) ltac:(lia) ltac:(lia) ltac:(lia) ltac:(lia)) as (head & next & -> & Hp). cbn [mbind option_bind].
  set (out := set_types _ _). assert (Hblank : blank op (Probe left lk r rk (2 ^ k - 1) head next) out).
  { pose proof (length_sources op (ncols left) Hproj) as Hls. unfold out, blank, new_auto, set_types, left_shape, fits. cbn [p_left lanes nrows capacity rows ncols]. rewrite length_replicate, Hls. split_and!; [done|done|lia|lia|]. apply Forall_replicate, length_replicate. }
  destruct (semi_rows_ok e pa op _ out Hp Hproj Htl Htask Hblank) as (o & rc & -> & Hlo & Hfo & [[-> Hs]|[-> Hg]]); cbn [mbind option_bind Z.eqb negb ENOMEM].
  - unfold eval_stack_push. rewrite (proj2 (Nat.leb_gt _ _)) by done. eexists. split; [done|]. left. split_and!; [done|done|by apply Hb|]. eexists _, _. destruct Hblank as (Hlb & Hn0 & _). split_and!; [done..|by rewrite Hlo|done|].
    rewrite Hs. unfold stored at 1. rewrite Hn0, take_0. cbn [app]. unfold selected. cbn [p_left]. f_equal. apply list_filter_iff. intros x. unfold matched. cbn [p_left p_lk p_right p_rk]. rewrite Hlr, Hpart by done. done.
  - eexists. split; [done|]. right. right. split_and!; [done..|]. intros (_ & _ & _ & _ & _ & _ & Ha). specialize (Hg Ha). cbn in Hg. lia.
Qed.

End Operator.

(** C12: The semijoin pushes, in order, the projections of exactly the left rows
    that a right row that passes the predicate joins with, whether the rows are
    probed one after the other or by workers, in whatever order these run, and
    also when a task of theirs cannot be submitted. *)
Theorem semijoin_exact {W} `{!Host W} {K} table sessions op ln rn e pa (rest : stack K) left right own delta segs nseg (w w' : W) l :
  join_ok op left right ln rn -> proj_ok op -> tasks_ok pa (nrows left) -> (length rest < COL_STACK_MAX)%nat -> right_rows table sessions op right w = Some (w', l) ->
  exists res, semijoin_op e pa table sessions op ln (Some (right, rn)) (En (Some left) own delta segs nseg ENTRY_RELATION None :: rest) w = Some res /\
    join_result op ln rn e left right own rest w' (left_shape op left) (semijoined op ln rn left right l) res.
Proof. apply semijoin_ok. Qed.

#[local] Existing Instance ExprProof.list_host.

(** Two workers for four rows; the second one runs first. *)
Definition two_workers : par_env := Par false 2 (Some [49]) true true true (fun _ => true) true (fun _ => true) [1; 0]%nat [1; 0]%nat.
Definition b_of_a : join_op := Jop (Some [Some [97]]) (Some [Some [97]]) 1 1 (Some [1%nat]) [].

Lemma semijoin_exact_witness : exists res,
  semijoin_op (K := unit) rich two_workers false [] b_of_a lnames (Some (rrows, rnames)) [En (Some lrows) true false None 0 ENTRY_RELATION None] ([] : list (list Z)) = Some res /\
  join_result b_of_a lnames rnames rich lrows rrows true [] [] (left_shape b_of_a lrows) [[5]; [3]] res /\ pushed res = [Some [[5]; [3]]].
Proof.
  destruct (semijoin_exact (K := unit) false [] b_of_a lnames rnames rich two_workers [] lrows rrows true false None 0 ([] : list (list Z)) [] (stored rrows)) as (res & Hres & Hj).
  - destruct on_a_ok as [H1 H2 H3 H4 H5]. split; [exact H1|exact H2|exact H3|exact H4|exact H5].
  - right. exists [1%nat]. split; [reflexivity|vm_compute; lia].
  - split; [vm_compute; discriminate|]. split; vm_compute; apply Permutation.perm_swap.
  - vm_compute. lia.
  - reflexivity.
  - exists res. split; [exact Hres|]. split; [exact Hj|]. assert (Hv : Some (pushed res) = Some [Some [[5]; [3]]]).
    { change (Some (pushed res)) with (pushed <$> Some res). rewrite <-Hres. vm_compute. reflexivity. }
    injection Hv as Hv. exact Hv.
Defined.

(** The 32-bit sum of rows and workers wraps: with 2^32 - 1 rows both of two
    workers get no row at all. *)
Example chunks_wrap : chunk_bounds UINT32_MAX 2 0 = (0, 0) /\ chunk_bounds UINT32_MAX 2 1 = (0, 0).
Proof. split; reflexivity. Qed.

End SemijoinSpec.
