(* ===== verification/Arrangement.v ===== *)
(** * Arrangements (src/wirelog/columnar/arrangement.c)

    A hash index of the rows of a relation on key columns.  The head of a
    bucket carries the generation of the build that wrote it, so that a rebuild
    does not have to clear the table.  Whether the governor admits a size and
    whether an allocation succeeds are arguments; the accounting of bytes is not
    modelled. *)

From S2P Require Import Prelude RadixSort Relation Consolidate EvalStack Filter RowOps HashJoin.

Module Arrangement.

Import Keys Rel Consolidate EvalStack.EvalStack Filter.Filter RowOps.RowOps HashJoin.HashJoin.

Definition ARR_HEAD_ROW (v : Z) : Z := Z.land v 0xFFFFFFFF.
Definition ARR_HEAD_GENERATION (v : Z) : Z := u32 (Z.shiftr v 32).
Definition ARR_MAKE_HEAD (g row : Z) : Z := Z.lor (Z.shiftl g 32) row.
Definition ARR_HASH_TILE : nat := 1024.

(** col_arrangement_t *)
Record arrangement := Arr {
  a_key_cols : list nat;
  ht_head : list Z;
  nbuckets : Z;
  ht_next : list Z;
  ht_cap : Z;
  generation : Z;
  indexed_rows : nat }.

Definition set_index (head next : list Z) (a : arrangement) : arrangement := Arr (a_key_cols a) head (nbuckets a) next (ht_cap a) (generation a) (indexed_rows a).
Definition set_heads (head : list Z) (nb : Z) (a : arrangement) : arrangement := Arr (a_key_cols a) head nb (ht_next a) (ht_cap a) (generation a) (indexed_rows a).
Definition set_nexts (next : list Z) (cap : Z) (a : arrangement) : arrangement := Arr (a_key_cols a) (ht_head a) (nbuckets a) next cap (generation a) (indexed_rows a).
Definition set_generation (g : Z) (a : arrangement) : arrangement := Arr (a_key_cols a) (ht_head a) (nbuckets a) (ht_next a) (ht_cap a) g (indexed_rows a).
Definition set_indexed (n : nat) (a : arrangement) : arrangement := Arr (a_key_cols a) (ht_head a) (nbuckets a) (ht_next a) (ht_cap a) (generation a) n.

(** An entry of the registry before its first build. *)
Definition new_arrangement (ks : list nat) : arrangement := Arr ks [] 0 [] 0 0 0.

Definition arr_free_contents (a : arrangement) : arrangement := Arr (a_key_cols a) [] 0 [] 0 0 0.

(** ** The hash of a key *)

Definition ARR_HASH_SEED : Z := u32 14695981039346656037.

(** for (b < 8): the bytes of [v] from the lowest, [n] left. *)
Fixpoint hash_bytes (n : nat) (h v : Z) : Z :=
  match n with O => h | S n' => hash_bytes n' (u32 (Z.lxor h (Z.land v 0xff) * 435)) (Z.shiftr v 8) end.

(** The untyped hash, of the raw lanes. *)
Fixpoint hash_raw (x : row) (ks : list nat) (h : Z) : option Z :=
  match ks with [] => Some h | k :: ks' => v ← rd x k; hash_raw x ks' (hash_bytes 8 h (u64 v)) end.
Definition arr_hash_key (x : row) (ks : list nat) (nb : Z) : option Z := h ← hash_raw x ks ARR_HASH_SEED; Some (Z.land h (nb - 1)).

Fixpoint hash_typed (s : shape) (x : row) (ks : list nat) (h : Z) : option Z :=
  match ks with
  | [] => Some h
  | k :: ks' => ty ← column_type_at s k; v ← rd x k; hash_typed s x ks' (hash_bytes 8 h (value_key ty v))
  end.
Definition arr_hash_key_typed (s : shape) (x : row) (ks : list nat) (nb : Z) : option Z := h ← hash_typed s x ks ARR_HASH_SEED; Some (Z.land h (nb - 1)).

(** out_hashes of [n] rows from [i] on. *)
Fixpoint arr_hash_rows_batch (n : nat) (r : rel) (i : nat) (ks : list nat) : option (list Z) :=
  match n with
  | O => Some []
  | S n' => x ← rd (rows r) i; h ← hash_typed r x ks ARR_HASH_SEED; l ← arr_hash_rows_batch n' r (S i) ks; Some (h :: l)
  end.

(** ** Building *)

(** for (j < chunk): the rows from [base + j] on go before their chains. *)
Fixpoint index_chunk (n : nat) (a : arrangement) (scratch : list Z) (base j : nat) (nb : Z) : option arrangement :=
  match n with
  | O => Some a
  | S n' =>
      h ← rd scratch j;
      let row := (base + j)%nat in
      let bucket := Z.to_nat (Z.land h (nb - 1)) in
      head ← rd (ht_head a) bucket;
      let head := if negb (ARR_HEAD_GENERATION head =? generation a) then ARR_MAKE_HEAD (generation a) UINT32_MAX else head in
      next ← wr (ht_next a) row (ARR_HEAD_ROW head);
      heads ← wr (ht_head a) bucket (ARR_MAKE_HEAD (generation a) (Z.of_nat row));
      index_chunk n' (set_index heads next a) scratch base (S j) nb
  end.

(** for (base < nrows) *)
Fixpoint arr_index_rows (fuel : nat) (a : arrangement) (r : rel) (base n : nat) (nb : Z) : option arrangement :=
  if (n <=? base)%nat then Some a
  else
    match fuel with
    | O => None
    | S fuel' =>
        let chunk := Nat.min (n - base) ARR_HASH_TILE in
        scratch ← arr_hash_rows_batch chunk r base (a_key_cols a);
        a ← index_chunk chunk a scratch base 0 nb;
        arr_index_rows fuel' a r (base + chunk) n nb
    end.

Definition arr_key_cols_valid (r : shape) (ks : list nat) : bool := negb (length ks =? 0)%nat && forallb (fun k => (k <? ncols r)%nat) ks.

Definition arr_next_pow2 (n : Z) : Z :=
  if n <? 16 then 16
  else
    let n := u32 (n - 1) in
    let n := Z.lor n (Z.shiftr n 1) in
    let n := Z.lor n (Z.shiftr n 2) in
    let n := Z.lor n (Z.shiftr n 4) in
    let n := Z.lor n (Z.shiftr n 8) in
    let n := Z.lor n (Z.shiftr n 16) in
    u32 (n + 1).

(** The guards on the sizes in bytes. *)
Definition sizes_fit (nb cap : Z) : bool :=
  let head_bytes := u64 (nb * 8) in
  let next_bytes := u64 (cap * 4) in
  (head_bytes / 8 =? nb) && (next_bytes / 4 =? cap) && (head_bytes <=? SIZE_MAX - next_bytes).

(** The outcomes: admission, the heads and the links. *)
Record arr_env := Aenv { ae_reserve : bool; ae_head : bool; ae_next : bool }.

(** A new generation; only a wrap clears the heads. *)
Definition next_generation (a : arrangement) : arrangement :=
  if generation a =? UINT32_MAX then set_generation 1 (set_heads (replicate (length (ht_head a)) 0) (nbuckets a) a)
  else let g := u32 (generation a + 1) in set_generation (if g =? 0 then 1 else g) a.

(** On a failure the arrangement is left as it was. *)
Definition arr_build_full (e : arr_env) (a : arrangement) (r : rel) : option (arrangement * Z) :=
  let n := Z.of_nat (nrows r) in
  let nb := arr_next_pow2 (if 0 <? n then u32 (n * 2) else 16) in
  if nb =? 0 then Some (a, ENOMEM)
  else
    let grow := ht_cap a <? n in
    let doubled := if UINT32_MAX / 2 <? ht_cap a then UINT32_MAX else u32 (ht_cap a * 2) in
    let new_cap := if grow then Z.max (Z.max n doubled) 16 else ht_cap a in
    let resize := negb (nb =? nbuckets a) in
    let regrow := negb (new_cap =? ht_cap a) in
    if negb (sizes_fit nb new_cap) then Some (a, ENOMEM)
    else if (resize || regrow) && negb (ae_reserve e) then Some (a, ENOMEM)
    else if resize && negb (ae_head e) then Some (a, ENOMEM)
    else if regrow && negb (ae_next e) then Some (a, ENOMEM)
    else
      let a := if resize then set_heads (replicate (Z.to_nat nb) 0) nb a else a in
      let a := if regrow then set_nexts (replicate (Z.to_nat new_cap) 0) new_cap a else a in
      a ← arr_index_rows (nrows r) (next_generation a) r 0 (nrows r) nb;
      Some (set_indexed (nrows r) a, 0).

(** nxt, with the old links copied. *)
Definition arr_update_incremental (e : arr_env) (a : arrangement) (r : rel) (old_nrows : nat) : option (arrangement * Z) :=
  let n := Z.of_nat (nrows r) in
  if (nrows r <=? old_nrows)%nat then Some (a, 0)
  else if UINT32_MAX / 2 <? n then Some (a, ENOMEM)
  else if negb (arr_next_pow2 (u32 (n * 2)) =? nbuckets a) then arr_build_full e a r
  else
    let grow := ht_cap a <? n in
    let new_cap := Z.max 16 (u32 (n * 2)) in
    if grow && (negb (sizes_fit (nbuckets a) new_cap) || negb (ae_reserve e) || negb (ae_next e)) then Some (a, ENOMEM)
    else
      let a := if grow then set_nexts (take (Z.to_nat (ht_cap a)) (ht_next a) ++ replicate (Z.to_nat new_cap - Z.to_nat (ht_cap a)) 0) new_cap a else a in
      a ← arr_index_rows (nrows r) a r old_nrows (nrows r) (nbuckets a);
      Some (set_indexed (nrows r) a, 0).

(** ** Lookup *)

(** for (k < key_count): the key of row [i] against a row of keys. *)
Fixpoint key_equal (r : rel) (i : nat) (key_row : row) (ks : list nat) : option bool :=
  match ks with
  | [] => Some true
  | k :: ks' =>
      a ← col_rel_get r i k;
      b ← rd key_row k;
      same ← columnar_value_equal r k a r k b;
      if negb same then Some false else key_equal r i key_row ks'
  end.

(** while (row != UINT32_MAX), with the test of the body. *)
Fixpoint find_row (fuel : nat) (test : nat -> option bool) (next : list Z) (row : Z) : option Z :=
  match fuel with
  | O => None
  | S fuel' =>
      if row =? UINT32_MAX then Some UINT32_MAX
      else
        same ← test (Z.to_nat row);
        if same : bool then Some row else row ← rd next (Z.to_nat row); find_row fuel' test next row
  end.

(** The row at which the search of a bucket starts. *)
Definition first_row_of (a : arrangement) (head : Z) : Z := if ARR_HEAD_GENERATION head =? generation a then ARR_HEAD_ROW head else UINT32_MAX.

Definition col_arrangement_find_first_typed (a : arrangement) (r : rel) (key_row : row) : option Z :=
  if (nbuckets a =? 0) || (indexed_rows a =? 0)%nat then Some UINT32_MAX
  else
    bucket ← arr_hash_key_typed r key_row (a_key_cols a) (nbuckets a);
    head ← rd (ht_head a) (Z.to_nat bucket);
    find_row (S (length (ht_next a))) (fun i => key_equal r i key_row (a_key_cols a)) (ht_next a) (first_row_of a head).

(** The untyped lookup compares the lanes. *)
Fixpoint lanes_equal (r : rel) (i : nat) (key_row : row) (ks : list nat) : option bool :=
  match ks with
  | [] => Some true
  | k :: ks' =>
      a ← col_rel_get r i k;
      b ← rd key_row k;
      if negb (a =? b) then Some false else lanes_equal r i key_row ks'
  end.

Definition col_arrangement_find_first (a : arrangement) (r : rel) (key_row : row) : option Z :=
  if (nbuckets a =? 0) || (indexed_rows a =? 0)%nat then Some UINT32_MAX
  else
    bucket ← arr_hash_key key_row (a_key_cols a) (nbuckets a);
    head ← rd (ht_head a) (Z.to_nat bucket);
    find_row (S (length (ht_next a))) (fun i => lanes_equal r i key_row (a_key_cols a)) (ht_next a) (first_row_of a head).

Definition col_arrangement_find_next (a : arrangement) (row : Z) : option Z :=
  if ht_cap a <=? row then Some UINT32_MAX else rd (ht_next a) (Z.to_nat row).

End Arrangement.
