(* ===== verification/ArrangementProof.v ===== *)
(** * Arrangements index their relation

    Building, rebuilding and extending an arrangement leave, behind the heads of
    the current generation, the chains of the relation's rows; heads of earlier
    generations count as empty.  A lookup followed by the chain lists the rows
    with the key. *)

From S2P Require Import Prelude RadixSort Relation Consolidate ConsolidateProof HashDedup EvalStack Filter FilterProof RowOps HashJoin HashJoinProof Arrangement.

Module ArrangementProof.

Import Keys Rel Consolidate ConsolidateProof EvalStack.EvalStack Filter.Filter FilterProof.FilterProof RowOps.RowOps HashJoin.HashJoin HashJoinProof.HashJoinProof Arrangement.Arrangement.

(** ** Heads *)

Lemma make_head_parts g row : is_uint32 g -> is_uint32 row -> ARR_HEAD_GENERATION (ARR_MAKE_HEAD g row) = g /\ ARR_HEAD_ROW (ARR_MAKE_HEAD g row) = row.
Proof.
  intros Hg Hr. unfold ARR_HEAD_GENERATION, ARR_HEAD_ROW, ARR_MAKE_HEAD. rewrite lor_shiftl_low by mi. change 0xFFFFFFFF with (Z.ones 32). rewrite Z.land_ones, Z.shiftr_div_pow2 by lia. split.
  - rewrite Z.div_add_l, Z.div_small, Z.add_0_r by mi. apply u32_small. mi.
  - rewrite Z.add_comm, Z_mod_plus_full, Z.mod_small by mi. done.
Qed.

Lemma next_pow2_cases n : is_uint32 n -> arr_next_pow2 n = 0 \/ exists k, 4 <= k <= 31 /\ arr_next_pow2 n = 2 ^ k.
Proof.
  intros Hn. unfold arr_next_pow2. destruct (Z.ltb_spec n 16) as [Hlt|Hge]; [right; by exists 4|]. rewrite (u32_small (n - 1)) by mi.
  set (m := n - 1). set (L := Z.log2 m). assert (Hm : 15 <= m < 2 ^ 32) by (unfold m; mi).
  fold (smear 1 m) (smear 2 (smear 1 m)) (smear 4 (smear 2 (smear 1 m))) (smear 8 (smear 4 (smear 2 (smear 1 m)))).
  fold (smear 16 (smear 8 (smear 4 (smear 2 (smear 1 m))))). rewrite (smear_log2 m) by lia. fold L. replace (2 ^ (L + 1) - 1 + 1) with (2 ^ (L + 1)) by lia.
  assert (HL : 3 <= L <= 31) by (split; [change 3 with (Z.log2 15); apply Z.log2_le_mono; lia|apply Z.lt_succ_r, Z.log2_lt_pow2; lia]).
  destruct (decide (L = 31)) as [->|Hne]; [by left|]. right. exists (L + 1). split; [lia|]. apply u32_small. assert (2 ^ (L + 1) <= 2 ^ 31) by (apply Z.pow_le_mono_r; lia). pose proof (Z.pow_pos_nonneg 2 (L + 1)). mi.
Qed.

Lemma next_pow2_small n : 0 <= n <= 2 ^ 31 -> arr_next_pow2 n <> 0.
Proof.
  intros Hn. unfold arr_next_pow2. destruct (Z.ltb_spec n 16) as [Hlt|Hge]; [done|]. rewrite (u32_small (n - 1)) by mi.
  set (m := n - 1). set (L := Z.log2 m). assert (Hm : 15 <= m < 2 ^ 31) by (unfold m; lia).
  fold (smear 1 m) (smear 2 (smear 1 m)) (smear 4 (smear 2 (smear 1 m))) (smear 8 (smear 4 (smear 2 (smear 1 m)))).
  fold (smear 16 (smear 8 (smear 4 (smear 2 (smear 1 m))))). rewrite (smear_log2 m) by lia. fold L. replace (2 ^ (L + 1) - 1 + 1) with (2 ^ (L + 1)) by lia.
  assert (HL : 0 <= L <= 30) by (split; [apply Z.log2_nonneg|apply Z.lt_succ_r, Z.log2_lt_pow2; lia]). assert (2 ^ (L + 1) <= 2 ^ 31) by (apply Z.pow_le_mono_r; lia). pose proof (Z.pow_pos_nonneg 2 (L + 1)). rewrite u32_small by mi. lia.
Qed.

(** ** The hash *)

(** UINT32_MAX ends a chain. *)
Definition arr_link (e : Z) : option nat := if e =? UINT32_MAX then None else Some (Z.to_nat e).

Definition arr_hash (key : list (column_type * Z)) : Z := foldl (fun h p => hash_bytes 8 h (value_key p.1 p.2)) ARR_HASH_SEED key.

Lemma value_key_canonical ty v : value_key ty (canonical_cell ty v) = value_key ty v.
Proof. unfold value_key, canonical_cell. destruct (is_float ty), (float_bits_zero v) eqn:Hz; cbn [andb]; rewrite ?Hz; done. Qed.

Lemma hash_typed_ok (s : shape) x ks : typed s -> length x = ncols s -> key_cols s ks -> forall h,
  hash_typed s x ks h = Some (foldl (fun h p => hash_bytes 8 h (value_key p.1 p.2)) h (join_key s ks x)).
Proof.
  intros Ht Hx. induction 1 as [|k ks Hk _ IH]; intros h; cbn [hash_typed join_key fmap list_fmap foldl]; [done|].
  destruct (Ht k Hk) as [ty ->]. destruct (lookup_lt_is_Some_2 x k ltac:(lia)) as [v Hv]. unfold rd. rewrite Hv, (list_lookup_total_correct _ _ _ Hv). cbn [mbind option_bind default from_option fst snd]. unfold id.
  rewrite value_key_canonical. apply IH.
Qed.

Lemma hash_batch_ok (r : rel) ks : readable r -> typed r -> key_cols r ks -> forall n i, (i + n <= nrows r)%nat ->
  arr_hash_rows_batch n r i ks = Some ((fun j => arr_hash (join_key r ks (stored r !!! j))) <$> seq i n).
Proof.
  intros Hr Ht Hks. induction n as [|n IH]; intros i Hi; [done|]. cbn [arr_hash_rows_batch seq fmap list_fmap]. destruct (stored_row r Hr i ltac:(lia)) as [Hx Hl]. unfold rd. rewrite Hx. cbn [mbind option_bind].
  rewrite hash_typed_ok by done. cbn [mbind option_bind]. rewrite IH by lia. done.
Qed.

(** ** The index *)

Definition arr_bucket (r : rel) (ks : list nat) (nb : Z) (i : nat) : nat := Z.to_nat (arr_hash (join_key r ks (stored r !!! i)) mod nb).

(** The arrays of an arrangement: no head is of a later generation. *)
Record arr_wf (a : arrangement) : Prop := {
  aw_heads : Z.of_nat (length (ht_head a)) = nbuckets a;
  aw_nexts : Z.of_nat (length (ht_next a)) = ht_cap a /\ ht_cap a <= UINT32_MAX;
  aw_gen : is_uint32 (generation a);
  aw_old : Forall (fun h => ARR_HEAD_GENERATION h <= generation a) (ht_head a) }.

(** It indexes the rows of [r] below [n]. *)
Record indexes (a : arrangement) (r : rel) (n : nat) : Prop := {
  ix_wf : arr_wf a;
  ix_gen : generation a <> 0;
  ix_pow : exists k, 4 <= k <= 31 /\ nbuckets a = 2 ^ k;
  ix_room : (n <= length (ht_next a))%nat;
  ix_chains : chained arr_link (arr_bucket r (a_key_cols a) (nbuckets a)) (length (ht_head a)) (fun b => first_row_of a <$> ht_head a !! b) (ht_next a) n }.

Lemma index_step a r n h : indexes a r n -> (n < length (ht_next a))%nat -> Z.of_nat n < UINT32_MAX -> ht_head a !! arr_bucket r (a_key_cols a) (nbuckets a) n = Some h ->
  indexes (set_index (<[arr_bucket r (a_key_cols a) (nbuckets a) n := ARR_MAKE_HEAD (generation a) (Z.of_nat n)]> (ht_head a)) (<[n := first_row_of a h]> (ht_next a)) a) r (S n).
Proof.
  intros [[Hh Hn Hg Hold] Hg0 Hpow Hroom Hc] Hlt Hbig Hb. destruct (make_head_parts (generation a) (Z.of_nat n) Hg ltac:(mi)) as [Hmg Hmr].
  split; cbn [set_index ht_head ht_next nbuckets generation ht_cap a_key_cols]; [|done|done|by rewrite length_insert|].
  - split; cbn [set_index ht_head ht_next nbuckets generation ht_cap]; [by rewrite length_insert|by rewrite length_insert|done|]. apply Forall_insert; [done|]. rewrite Hmg. done.
  - rewrite length_insert. apply (chained_step _ _ _ _ _ _ (first_row_of a h) (Z.of_nat n) _ Hc); [by eapply lookup_lt_Some|done|cbn beta; by rewrite Hb| |].
    + unfold arr_link. rewrite (proj2 (Z.eqb_neq _ _)) by lia. by rewrite Nat2Z.id.
    + intros b. destruct (decide (b = arr_bucket r (a_key_cols a) (nbuckets a) n)) as [->|Hne].
      * rewrite list_lookup_insert_eq by (by eapply lookup_lt_Some). cbn. unfold first_row_of. cbn [generation set_index]. by rewrite Hmg, Z.eqb_refl, Hmr.
      * by rewrite list_lookup_insert_ne.
Qed.

Lemma index_chunk_ok (r : rel) base scratch a0 : (forall j h, scratch !! j = Some h -> Z.to_nat (Z.land h (nbuckets a0 - 1)) = arr_bucket r (a_key_cols a0) (nbuckets a0) (base + j)) ->
  forall n j a, (j + n = length scratch)%nat -> a_key_cols a = a_key_cols a0 -> nbuckets a = nbuckets a0 -> indexes a r (base + j) -> (base + length scratch <= length (ht_next a))%nat -> Z.of_nat (base + length scratch) <= UINT32_MAX ->
  exists a', index_chunk n a scratch base j (nbuckets a0) = Some a' /\ indexes a' r (base + length scratch) /\ a_key_cols a' = a_key_cols a0 /\ nbuckets a' = nbuckets a0 /\ length (ht_next a') = length (ht_next a).
Proof.
  intros Hs. induction n as [|n IH]; intros j a Hj Hk Hb Hix Hroom Hbig; cbn [index_chunk].
  { exists a. replace (base + length scratch)%nat with (base + j)%nat by lia. done. }
  destruct (lookup_lt_is_Some_2 scratch j ltac:(lia)) as [h Hh]. unfold rd. rewrite Hh. cbn [mbind option_bind]. rewrite (Hs j h Hh), <-Hk, <-Hb. set (b := arr_bucket r (a_key_cols a) (nbuckets a) (base + j)).
  destruct (ix_pow _ _ _ Hix) as (k & Hk31 & Hnb). pose proof (Z.pow_pos_nonneg 2 k ltac:(lia) ltac:(lia)) as Hpos. destruct (ix_wf _ _ _ Hix) as [Hlh _ Hg _].
  destruct (lookup_lt_is_Some_2 (ht_head a) b) as [hd Hhd]; [unfold b, arr_bucket; pose proof (Z.mod_pos_bound (arr_hash (join_key r (a_key_cols a) (stored r !!! (base + j)%nat))) (nbuckets a)); lia|].
  rewrite Hhd. cbn [mbind option_bind].
  assert (Hrow : ARR_HEAD_ROW (if negb (ARR_HEAD_GENERATION hd =? generation a) then ARR_MAKE_HEAD (generation a) UINT32_MAX else hd) = first_row_of a hd).
  { unfold first_row_of. destruct (ARR_HEAD_GENERATION hd =? generation a); cbn [negb]; [done|]. apply make_head_parts; [done|mi]. }
  rewrite Hrow, !wr_lt by (lia || by eapply lookup_lt_Some). cbn [mbind option_bind]. rewrite Hb, Hk.
  destruct (IH (S j) (set_index (<[b := ARR_MAKE_HEAD (generation a) (Z.of_nat (base + j))]> (ht_head a)) (<[(base + j)%nat := first_row_of a hd]> (ht_next a)) a)) as (a' & -> & Hix' & Hk' & Hb' & Hl'); try done.
  - lia.
  - rewrite Nat.add_succ_r. apply index_step; (done || lia).
  - cbn [set_index ht_next]. rewrite length_insert. lia.
  - exists a'. split_and!; [done..|]. rewrite Hl'. cbn [set_index ht_next]. by rewrite length_insert.
Qed.

Lemma arr_index_ok (r : rel) nb : readable r -> typed r -> Z.of_nat (nrows r) <= UINT32_MAX -> forall fuel base a, (base <= nrows r)%nat -> (nrows r - base <= fuel)%nat -> nbuckets a = nb -> key_cols r (a_key_cols a) -> indexes a r base -> (nrows r <= length (ht_next a))%nat ->
  exists a', arr_index_rows fuel a r base (nrows r) nb = Some a' /\ indexes a' r (nrows r) /\ a_key_cols a' = a_key_cols a.
Proof.
  intros Hr Ht Hbig. induction fuel as [|fuel IH]; intros base a Hle Hfuel <- Hks Hix Hroom; cbn [arr_index_rows].
  { rewrite (proj2 (Nat.leb_le _ _)) by lia. exists a. by replace (nrows r) with base by lia. }
  destruct (Nat.leb_spec (nrows r) base) as [Hdone|Hmore]; [exists a; by replace (nrows r) with base by lia|]. set (chunk := Nat.min _ _). assert (Hch : (0 < chunk)%nat /\ (base + chunk <= nrows r)%nat) by (unfold chunk, ARR_HASH_TILE; lia).
  rewrite (hash_batch_ok r (a_key_cols a) Hr Ht Hks chunk base) by lia. cbn [mbind option_bind]. set (scratch := _ <$> seq base chunk). assert (Hls : length scratch = chunk) by (unfold scratch; by rewrite length_fmap, length_seq).
  destruct (index_chunk_ok r base scratch a) with (n := chunk) (j := O) (a := a) as (a1 & -> & Hix1 & Hk1 & Hb1 & Hl1); try done; try lia.
  - intros j h Hh. unfold scratch in Hh. rewrite list_lookup_fmap in Hh. destruct (lt_dec j chunk) as [Hj|Hj]; [|by rewrite lookup_seq_ge in Hh by lia]. rewrite lookup_seq_lt in Hh by done. injection Hh as <-.
    unfold arr_bucket. f_equal. destruct (ix_pow _ _ _ Hix) as (k & Hk & ->). replace (2 ^ k - 1) with (Z.ones k) by (rewrite Z.ones_equiv; lia). apply Z.land_ones. lia.
  - by rewrite Nat.add_0_r.
  - cbn [mbind option_bind]. rewrite Hls in Hix1. destruct (IH (base + chunk)%nat a1) as (a2 & -> & Hix2 & Hk2); [lia|lia|done|by rewrite Hk1|done|by rewrite Hl1|]. exists a2. split_and!; [done..|congruence].
Qed.

Definition arr_lucky (e : arr_env) : Prop := ae_reserve e = true /\ ae_head e = true /\ ae_next e = true.

Lemma sizes_ok nb cap : 0 <= nb <= 2 ^ 31 -> 0 <= cap <= UINT32_MAX -> sizes_fit nb cap = true.
Proof.
  intros Hn Hc. unfold sizes_fit, u64. rewrite !Z.mod_small by mi. rewrite !Z.div_mul by lia. rewrite !Z.eqb_refl. cbn [andb]. apply Z.leb_le. mi.
Qed.

(** No head is of the generation that starts. *)
Lemma next_generation_ok a : arr_wf a -> let a' := next_generation a in arr_wf a' /\ generation a' <> 0 /\ Forall (fun h => ARR_HEAD_GENERATION h <> generation a') (ht_head a') /\
  nbuckets a' = nbuckets a /\ a_key_cols a' = a_key_cols a /\ ht_next a' = ht_next a /\ length (ht_head a') = length (ht_head a).
Proof.
  intros [Hh Hn Hg Hold]. unfold next_generation. destruct (Z.eqb_spec (generation a) UINT32_MAX) as [Hmax|Hne].
  - split_and!; try done; cbn [set_generation set_heads ht_head generation]; [split; cbn; try done|by apply Forall_replicate|by rewrite length_replicate]; [by rewrite length_replicate|by apply Forall_replicate].
  - rewrite u32_small by mi. rewrite (proj2 (Z.eqb_neq (generation a + 1) 0)) by mi. split_and!; try done; cbn [set_generation ht_head generation]; [split; cbn; try done; [mi|]|mi|]; (eapply Forall_impl; [exact Hold|]); intros h Hle; cbn beta in Hle; lia.
Qed.

Lemma fresh_index (r : rel) a k : arr_wf a -> generation a <> 0 -> Forall (fun h => ARR_HEAD_GENERATION h <> generation a) (ht_head a) -> 4 <= k <= 31 -> nbuckets a = 2 ^ k -> indexes a r 0.
Proof.
  intros Hw Hg Hne Hk Hnb. split; [done|done|by exists k|lia|]. intros b Hb. destruct (lookup_lt_is_Some_2 _ b Hb) as [h Hh]. exists UINT32_MAX. rewrite Hh. cbn. pose proof (Forall_lookup_1 _ _ _ _ Hne Hh) as H. cbn beta in H.
  unfold first_row_of. rewrite (proj2 (Z.eqb_neq _ _) H). split; [done|]. by constructor.
Qed.

(** A build indexes all rows, or there was no memory and nothing changed. *)
Lemma build_full_ok e a (r : rel) : arr_wf a -> readable r -> typed r -> key_cols r (a_key_cols a) -> Z.of_nat (nrows r) <= UINT32_MAX ->
  exists a' rc, arr_build_full e a r = Some (a', rc) /\ a_key_cols a' = a_key_cols a /\
    ((rc = 0 /\ indexes a' r (nrows r) /\ indexed_rows a' = nrows r) \/ (rc = ENOMEM /\ a' = a /\ (arr_lucky e -> 2 ^ 30 < Z.of_nat (nrows r)))).
Proof.
  intros Hw Hr Ht Hks Hbig. unfold arr_build_full. set (want := if 0 <? Z.of_nat (nrows r) then _ else _). assert (Hwant : is_uint32 want) by (unfold want; destruct (0 <? _); [unfold u32; pose proof (Z.mod_pos_bound (Z.of_nat (nrows r) * 2) (2 ^ 32)); mi|mi]).
  assert (Hfail : arr_next_pow2 want = 0 -> 2 ^ 30 < Z.of_nat (nrows r)).
  { intros H0. apply Znot_ge_lt. intros Hge. apply (next_pow2_small want); [|done]. unfold want. destruct (Z.ltb_spec 0 (Z.of_nat (nrows r))); [rewrite u32_small by mi; lia|lia]. }
  destruct (next_pow2_cases want Hwant) as [H0|(k & Hk & Hnb)]; [rewrite H0; exists a, ENOMEM; split_and!; [done..|]; right; split_and!; [done..|]; intros _; by apply Hfail|].
  pose proof (Z.pow_pos_nonneg 2 k ltac:(lia) ltac:(lia)) as Hpos. assert (H31 : 2 ^ k <= 2 ^ 31) by (apply Z.pow_le_mono_r; lia). rewrite Hnb, (proj2 (Z.eqb_neq (2 ^ k) 0)) by lia.
  set (doubled := if UINT32_MAX / 2 <? ht_cap a then _ else _). set (new_cap := if ht_cap a <? Z.of_nat (nrows r) then _ else _). destruct (aw_nexts _ Hw) as [Hnl Hcap].
  assert (Hcap' : 0 <= new_cap <= UINT32_MAX /\ Z.of_nat (nrows r) <= new_cap).
  { unfold new_cap, doubled. change (UINT32_MAX / 2) with 2147483647. destruct (Z.ltb_spec (ht_cap a) (Z.of_nat (nrows r))); [|lia]. destruct (Z.ltb_spec 2147483647 (ht_cap a)); [mi|]. rewrite u32_small by mi. mi. }
  rewrite (sizes_ok (2 ^ k) new_cap) by lia. cbn [negb].
  destruct (_ && negb (ae_reserve e)) eqn:H1; [apply andb_true_iff in H1 as [_ H1]; exists a, ENOMEM; split_and!; [done..|]; right; split_and!; [done..|]; intros (Hx & _); by rewrite Hx in H1|].
  destruct (_ && negb (ae_head e)) eqn:H2; [apply andb_true_iff in H2 as [_ H2]; exists a, ENOMEM; split_and!; [done..|]; right; split_and!; [done..|]; intros (_ & Hx & _); by rewrite Hx in H2|].
  destruct (_ && negb (ae_next e)) eqn:H3; [apply andb_true_iff in H3 as [_ H3]; exists a, ENOMEM; split_and!; [done..|]; right; split_and!; [done..|]; intros (_ & _ & Hx); by rewrite Hx in H3|].
  set (a1 := if negb (2 ^ k =? nbuckets a) then _ else _). set (a2 := if negb (new_cap =? ht_cap a) then _ else _).
  assert (Ha1 : arr_wf a1 /\ nbuckets a1 = 2 ^ k /\ a_key_cols a1 = a_key_cols a /\ ht_cap a1 = ht_cap a).
  { unfold a1. destruct (Z.eqb_spec (2 ^ k) (nbuckets a)) as [->|Hne]; cbn [negb]; [done|]. split_and!; try done. split; cbn; [rewrite length_replicate; lia|done|apply Hw|]. apply Forall_replicate. change (ARR_HEAD_GENERATION 0) with 0. apply (aw_gen _ Hw). }
  assert (Ha2 : arr_wf a2 /\ nbuckets a2 = 2 ^ k /\ a_key_cols a2 = a_key_cols a /\ (nrows r <= length (ht_next a2))%nat).
  { destruct Ha1 as (Hw1 & Hn1 & Hk1 & Hc1). unfold a2. destruct (Z.eqb_spec new_cap (ht_cap a)) as [Heq|Hne]; cbn [negb].
    - split_and!; [done..|]. pose proof (proj1 (aw_nexts _ Hw1)). lia.
    - split_and!; [split; cbn; [apply Hw1|rewrite length_replicate; lia|apply Hw1|apply Hw1]|done|done|]. cbn. rewrite length_replicate. lia. }
  destruct Ha2 as (Hw2 & Hn2 & Hk2 & Hl2). destruct (next_generation_ok a2 Hw2) as (Hw3 & Hg3 & Hne3 & Hn3 & Hk3 & Hx3 & _).
  destruct (arr_index_ok r (2 ^ k) Hr Ht Hbig (nrows r) 0 (next_generation a2)) as (a4 & -> & Hix & Hk4); [lia|lia|congruence|congruence|by apply (fresh_index r _ k); [..|congruence]|by rewrite Hx3|].
  cbn [mbind option_bind]. eexists _, _. split; [done|]. split; [cbn; congruence|]. left. split; [done|]. split; [|done]. destruct Hix as [[] ? ? ? ?]. by split; [split|..].
Qed.

Lemma update_ok e a (r : rel) old : indexes a r old -> indexed_rows a = old -> readable r -> typed r -> key_cols r (a_key_cols a) -> Z.of_nat (nrows r) <= UINT32_MAX -> (old <= nrows r)%nat ->
  exists a' rc, arr_update_incremental e a r old = Some (a', rc) /\ a_key_cols a' = a_key_cols a /\
    ((rc = 0 /\ indexes a' r (nrows r) /\ indexed_rows a' = nrows r) \/ (rc = ENOMEM /\ a' = a /\ (arr_lucky e -> 2 ^ 30 < Z.of_nat (nrows r)))).
Proof.
  intros Hix Hold Hr Ht Hks Hbig Hle. unfold arr_update_incremental. destruct (Nat.leb_spec (nrows r) old) as [Hd|Hmore]; [exists a, 0; split_and!; [done..|]; left; by replace (nrows r) with old by lia|].
  change (UINT32_MAX / 2) with 2147483647. destruct (Z.ltb_spec 2147483647 (Z.of_nat (nrows r))) as [Hb|Hb]; [exists a, ENOMEM; split_and!; [done..|]; right; split_and!; [done..|]; lia|].
  destruct (Z.eqb_spec (arr_next_pow2 (u32 (Z.of_nat (nrows r) * 2))) (nbuckets a)) as [Hnb|Hne]; cbn [negb]; [|by apply build_full_ok; [apply Hix|..]].
  destruct (ix_pow _ _ _ Hix) as (k & Hk & Hpow). pose proof (Z.pow_pos_nonneg 2 k ltac:(lia) ltac:(lia)) as Hpos. assert (H31 : 2 ^ k <= 2 ^ 31) by (apply Z.pow_le_mono_r; lia). destruct (aw_nexts _ (ix_wf _ _ _ Hix)) as [Hnl Hcap].
  rewrite u32_small by mi. set (new_cap := Z.max 16 _). rewrite (sizes_ok (nbuckets a) new_cap) by (unfold new_cap; mi). cbn [negb orb].
  destruct (_ && _) eqn:Hfail; [apply andb_true_iff in Hfail as [_ Hf%orb_true_iff]; exists a, ENOMEM; split_and!; [done..|]; right; split_and!; [done..|]; intros (Hx & _ & Hy); rewrite Hx, Hy in Hf; by destruct Hf|].
  set (a1 := if ht_cap a <? Z.of_nat (nrows r) then _ else _). assert (Ha1 : indexes a1 r old /\ a_key_cols a1 = a_key_cols a /\ (nrows r <= length (ht_next a1))%nat /\ nbuckets a1 = nbuckets a).
  { unfold a1. destruct (Z.ltb_spec (ht_cap a) (Z.of_nat (nrows r))) as [Hlt|Hge]; [|split_and!; (done || lia)]. split_and!; [|done|cbn; rewrite length_app, length_take, length_replicate; unfold new_cap; lia|done].
    destruct Hix as [[Hh Hn Hg Ho] Hg0 Hp Hro Hc]. split; cbn [set_nexts ht_head ht_next nbuckets generation a_key_cols]; [|done|done|rewrite length_app, length_take; lia|].
    - split; cbn [set_nexts ht_head ht_next nbuckets generation ht_cap]; [done| |done|done]. rewrite length_app, length_take, length_replicate. unfold new_cap. mi.
    - intros b0 Hb0. destruct (Hc b0 Hb0) as (e0 & He0 & Hch). exists e0. split; [exact He0|]. rewrite take_ge by lia. clear -Hch. induction Hch as [|e0 i e1 l Hd Hi _ IH]; econstructor; [done..| |done]. by apply lookup_app_l_Some. }
  destruct Ha1 as (Hix1 & Hk1 & Hl1 & Hn1). destruct (arr_index_ok r (nbuckets a1) Hr Ht Hbig (nrows r) old a1) as (a2 & -> & Hix2 & Hk2); [done|lia|done|congruence|done|done|].
  cbn [mbind option_bind]. eexists _, _. split; [done|]. split; [cbn; congruence|]. left. split; [done|]. split; [|done]. destruct Hix2 as [[] ? ? ? ?]. by split; [split|..].
Qed.

(** ** Lookup *)

(** A row with the lanes of [r] whose key cells are valid. *)
Definition key_row_ok (r : shape) (ks : list nat) (x : row) : Prop :=
  length x = ncols r /\ Forall (fun k => exists ty, column_type_at r k = Some ty /\ valid_key ty (x !!! k)) ks.

Lemma key_equal_ok (r : rel) i x ks : readable r -> (i < nrows r)%nat -> key_cols r ks -> key_row_ok r ks x ->
  key_equal r i x ks = Some (bool_decide (join_key r ks (stored r !!! i) = join_key r ks x)).
Proof.
  intros Hr Hi Hks [Hl Hx]. revert Hx. induction Hks as [|k ks Hk _ IH]; intros Hx; cbn [key_equal]; [done|]. apply Forall_cons in Hx as [(ty & Hty & Hv) Hx]. destruct (stored_cell r i k Hr Hi Hk) as (-> & Hok & _). cbn [mbind option_bind].
  destruct (lookup_lt_is_Some_2 x k ltac:(lia)) as [v Hxk]. unfold rd. rewrite Hxk. rewrite (list_lookup_total_correct _ _ _ Hxk) in Hv. cbn [mbind option_bind].
  destruct (row_cell r _ k Hok Hk) as (ty' & u & Hty' & _ & Hu & Hku). rewrite Hty in Hty'. injection Hty' as <-. rewrite Hu, (columnar_cells_ok r r k k ty ty u v Hty Hty Hku Hv). cbn [mbind option_bind].
  unfold join_key in *. cbn [fmap list_fmap]. rewrite Hty. cbn [default from_option]. unfold id. rewrite Hu, (list_lookup_total_correct _ _ _ Hxk). destruct (bool_decide_reflect ((ty, canonical_cell ty u) = (ty, canonical_cell ty v))) as [Heq|Heq]; cbn [negb].
  - rewrite IH by done. f_equal. apply bool_decide_ext. unfold id. split; [intros H; rewrite H; congruence|intros H; by injection H].
  - f_equal. symmetry. apply bool_decide_eq_false. congruence.
Qed.

(** The search skips rows with another key. *)
Lemma find_row_ok test (f : nat -> bool) next l : forall fuel e, chain arr_link next e l -> (length l < fuel)%nat -> (forall j, j ∈ l -> test j = Some (f j)) ->
  exists e' l0 l', find_row fuel test next e = Some e' /\ l = l0 ++ l' /\ chain arr_link next e' l' /\ Forall (fun j => f j = false) l0.
Proof.
  induction l as [|i l IH]; intros fuel e Hc Hfuel Ht; (destruct fuel as [|fuel]; [cbn in Hfuel; lia|]); inversion Hc as [? Hd|? ? e' ? Hd Hn Hc']; subst; pose proof Hd as Hd'; unfold arr_link in Hd; cbn [find_row]; destruct (Z.eqb_spec e UINT32_MAX); try done.
  { exists UINT32_MAX, [], []. split_and!; [done|done|by constructor|constructor]. }
  injection Hd as Hd. rewrite Hd, Ht by left. cbn [mbind option_bind]. destruct (f i) eqn:Hf.
  - exists e, [], (i :: l). split_and!; [done..|constructor].
  - unfold rd. rewrite Hn. cbn [mbind option_bind]. destruct (IH fuel e' Hc' ltac:(cbn in Hfuel; lia)) as (e1 & l0 & l' & -> & -> & Hc1 & Hl0); [intros j Hj; apply Ht; by right|].
    exists e1, (i :: l0), l'. split_and!; [done..|by constructor].
Qed.

Lemma find_next_ok a e i l : arr_wf a -> chain arr_link (ht_next a) e (i :: l) -> e <> UINT32_MAX /\ i = Z.to_nat e /\ exists e', col_arrangement_find_next a e = Some e' /\ chain arr_link (ht_next a) e' l.
Proof.
  intros Hw Hc. inversion Hc as [|? ? e' ? Hd Hn Hc']; subst. unfold arr_link in Hd. destruct (Z.eqb_spec e UINT32_MAX); [done|]. injection Hd as <-. split_and!; [done..|]. exists e'. split; [|done].
  pose proof (lookup_lt_Some _ _ _ Hn). pose proof (proj1 (aw_nexts _ Hw)). unfold col_arrangement_find_next. by rewrite (proj2 (Z.leb_gt _ _)) by lia.
Qed.

(** What a lookup returns starts the chain of the rows with the key's hash. *)
Lemma find_first_ok a (r : rel) x : indexes a r (nrows r) -> indexed_rows a = nrows r -> readable r -> typed r -> key_cols r (a_key_cols a) -> key_row_ok r (a_key_cols a) x ->
  exists e l0 l, col_arrangement_find_first_typed a r x = Some e /\ chain arr_link (ht_next a) e l /\
    in_bucket (arr_bucket r (a_key_cols a) (nbuckets a)) (Z.to_nat (arr_hash (join_key r (a_key_cols a) x) mod nbuckets a)) (nrows r) = l0 ++ l /\
    Forall (fun i => join_key r (a_key_cols a) (stored r !!! i) <> join_key r (a_key_cols a) x) l0.
Proof.
  intros Hix Hin Hr Ht Hks Hx. unfold col_arrangement_find_first_typed. destruct (ix_pow _ _ _ Hix) as (k & Hk & Hnb). pose proof (Z.pow_pos_nonneg 2 k ltac:(lia) ltac:(lia)) as Hpos. rewrite (proj2 (Z.eqb_neq (nbuckets a) 0)) by lia. cbn [orb]. rewrite Hin.
  destruct (Nat.eqb_spec (nrows r) 0) as [Hz|Hz]. { exists UINT32_MAX, [], []. rewrite Hz. split_and!; [done|by constructor|done|constructor]. }
  unfold arr_hash_key_typed. rewrite hash_typed_ok by (done || apply Hx). fold (arr_hash (join_key r (a_key_cols a) x)). cbn [mbind option_bind].
  assert (Hland : Z.land (arr_hash (join_key r (a_key_cols a) x)) (nbuckets a - 1) = arr_hash (join_key r (a_key_cols a) x) mod nbuckets a) by (rewrite Hnb; replace (2 ^ k - 1) with (Z.ones k) by (rewrite Z.ones_equiv; lia); apply Z.land_ones; lia).
  rewrite Hland. set (b := Z.to_nat (arr_hash (join_key r (a_key_cols a) x) mod nbuckets a)). destruct (ix_wf _ _ _ Hix) as [Hlh _ _ _].
  destruct (ix_chains _ _ _ Hix b) as (e & He & Hc); [unfold b; pose proof (Z.mod_pos_bound (arr_hash (join_key r (a_key_cols a) x)) (nbuckets a)); lia|]. destruct (ht_head a !! b) as [h|] eqn:Hh; [|done]. cbn in He. injection He as He.
  unfold rd. rewrite Hh. cbn [mbind option_bind]. rewrite He.
  destruct (find_row_ok (fun i => key_equal r i x (a_key_cols a)) (fun i => bool_decide (join_key r (a_key_cols a) (stored r !!! i) = join_key r (a_key_cols a) x)) (ht_next a) _ (S (length (ht_next a))) e Hc) as (e' & l0 & l & -> & Hl & Hc' & Hl0).
  - unfold in_bucket. rewrite length_reverse. pose proof (length_filter (fun j => arr_bucket r (a_key_cols a) (nbuckets a) j = b) (seq 0 (nrows r))). rewrite length_seq in *. pose proof (ix_room _ _ _ Hix). lia.
  - intros j [Hj _]%elem_of_bucket. by apply key_equal_ok.
  - exists e', l0, l. split_and!; [done..|]. eapply Forall_impl; [exact Hl0|]. intros j Hj. by apply bool_decide_eq_false in Hj.
Qed.

End ArrangementProof.
