(* ===== verification/ArrangementSpec.v ===== *)
(** * An arrangement over its life

    An arrangement is built, extended, rebuilt after its relation changed, and
    freed, and any of these steps may find no memory.  Whatever happened before,
    a lookup walks over the rows that the last successful step indexed. *)

From S2P Require Import Prelude RadixSort Relation Consolidate ConsolidateProof HashDedup DeltaSpec EvalStack Filter FilterProof RowOps HashJoin HashJoinProof Arrangement ArrangementProof.

Module ArrangementSpec.

Import Keys Rel Consolidate ConsolidateProof EvalStack.EvalStack Filter.Filter FilterProof.FilterProof RowOps.RowOps HashJoin.HashJoin HashJoinProof.HashJoinProof Arrangement.Arrangement ArrangementProof.ArrangementProof.

(** A relation with the key columns [ks]. *)
Definition indexable (ks : list nat) (r : rel) : Prop := readable r /\ typed r /\ key_cols r ks /\ Z.of_nat (nrows r) <= UINT32_MAX.

(** Rows were appended. *)
Definition extends (r r' : rel) : Prop := lanes r' = lanes r /\ (nrows r <= nrows r')%nat /\ take (nrows r) (stored r') = stored r.

(** ** The life of an arrangement *)

(** The relation that the arrangement indexes, if any. *)
Inductive lives (ks : list nat) : arrangement -> option rel -> Prop :=
  | lives_new : lives ks (new_arrangement ks) None
  | lives_built e a o r a' : lives ks a o -> indexable ks r -> arr_build_full e a r = Some (a', 0) -> lives ks a' (Some r)
  | lives_not_built e a o r a' : lives ks a o -> indexable ks r -> arr_build_full e a r = Some (a', ENOMEM) -> lives ks a' o
  | lives_updated e a r r' a' : lives ks a (Some r) -> indexable ks r' -> extends r r' -> arr_update_incremental e a r' (indexed_rows a) = Some (a', 0) -> lives ks a' (Some r')
  | lives_not_updated e a r r' a' : lives ks a (Some r) -> indexable ks r' -> extends r r' -> arr_update_incremental e a r' (indexed_rows a) = Some (a', ENOMEM) -> lives ks a' (Some r)
  | lives_freed a o : lives ks a o -> lives ks (arr_free_contents a) None.

Lemma empty_wf ks : arr_wf (Arr ks [] 0 [] 0 0 0).
Proof. split; cbn; (done || mi || by constructor). Qed.

(** The buckets of the rows below [nrows r] are those of any extension. *)
Lemma indexes_extends a r r' : readable r -> readable r' -> extends r r' -> indexes a r (nrows r) -> indexes a r' (nrows r).
Proof.
  intros Hr Hr' (Hl & Hn & Ht) [Hw Hg Hp Hroom Hc]. split; try done. intros b Hb. destruct (Hc b Hb) as (e & He & Hch). exists e. split; [done|].
  replace (in_bucket (arr_bucket r' (a_key_cols a) (nbuckets a)) b (nrows r)) with (in_bucket (arr_bucket r (a_key_cols a) (nbuckets a)) b (nrows r)); [done|].
  unfold in_bucket. f_equal. apply filter_iff_in. intros j Hj. apply elem_of_seq in Hj. unfold arr_bucket, join_key. rewrite Hl.
  replace (stored r' !!! j) with (stored r !!! j); [done|]. rewrite <-Ht. rewrite !list_lookup_total_alt, lookup_take_lt by lia. done.
Qed.

Lemma lives_inv ks a o : lives ks a o -> a_key_cols a = ks /\ match o with Some r => indexable ks r /\ indexes a r (nrows r) /\ indexed_rows a = nrows r | None => arr_wf a /\ indexed_rows a = O end.
Proof.
  assert (Hwf : forall a o, match o with Some r => indexable ks r /\ indexes a r (nrows r) /\ indexed_rows a = nrows r | None => arr_wf a /\ indexed_rows a = O end -> arr_wf a) by (intros a1 [r1|] H1; [apply H1|apply H1]).
  induction 1 as [|e a o r a' _ [Hk IH] (Hr & Ht & Hks & Hbig) Hb|e a o r a' _ [Hk IH] (Hr & Ht & Hks & Hbig) Hb|e a r r' a' _ [Hk (Hir & Hix & Hn)] (Hr & Ht & Hks & Hbig) Hext Hb|e a r r' a' _ [Hk (Hir & Hix & Hn)] (Hr & Ht & Hks & Hbig) Hext Hb|a o _ [Hk _]].
  - split; [done|]. split; [apply empty_wf|done].
  - subst ks. destruct (build_full_ok e a r (Hwf _ _ IH) Hr Ht Hks Hbig) as (a1 & rc & Hb' & Hk' & H). rewrite Hb in Hb'. injection Hb' as <- <-. destruct H as [(_ & H1 & H2)|(H & _)]; [|done]. by split.
  - subst ks. destruct (build_full_ok e a r (Hwf _ _ IH) Hr Ht Hks Hbig) as (a1 & rc & Hb' & Hk' & H). rewrite Hb in Hb'. injection Hb' as <- <-. destruct H as [(H & _)|(_ & -> & _)]; done.
  - subst ks. rewrite Hn in Hb. destruct (update_ok e a r' (nrows r) (indexes_extends _ _ _ (proj1 Hir) Hr Hext Hix) Hn Hr Ht Hks Hbig (proj1 (proj2 Hext))) as (a1 & rc & Hb' & Hk' & H). rewrite Hb in Hb'. injection Hb' as <- <-. destruct H as [(_ & H1 & H2)|(H & _)]; [|done]. by split.
  - subst ks. rewrite Hn in Hb. destruct (update_ok e a r' (nrows r) (indexes_extends _ _ _ (proj1 Hir) Hr Hext Hix) Hn Hr Ht Hks Hbig (proj1 (proj2 Hext))) as (a1 & rc & Hb' & Hk' & H). rewrite Hb in Hb'. injection Hb' as <- <-. destruct H as [(H & _)|(_ & -> & _)]; done.
  - split; [done|]. split; [apply empty_wf|done].
Qed.

(** ** Walking over the rows of a key *)

(** The rows from [row] on, as far as find_next goes. *)
Fixpoint walk (fuel : nat) (a : arrangement) (row : Z) : option (list nat) :=
  match fuel with
  | O => None
  | S fuel' => if row =? UINT32_MAX then Some [] else next ← col_arrangement_find_next a row; l ← walk fuel' a next; Some (Z.to_nat row :: l)
  end.

Definition lookup (a : arrangement) (r : rel) (key_row : row) : option (list nat) :=
  first ← col_arrangement_find_first_typed a r key_row; walk (S (indexed_rows a)) a first.

Lemma walk_ok a l : arr_wf a -> forall fuel e, chain arr_link (ht_next a) e l -> (length l < fuel)%nat -> walk fuel a e = Some l.
Proof.
  intros Hw. induction l as [|i l IH]; intros fuel e Hc Hf; (destruct fuel as [|fuel]; [cbn in Hf; lia|]); cbn [walk].
  - inversion Hc as [? Hd|]; subst. unfold arr_link in Hd. by destruct (e =? UINT32_MAX).
  - destruct (find_next_ok a e i l Hw Hc) as (Hne & -> & e' & -> & Hc'). rewrite (proj2 (Z.eqb_neq _ _) Hne). cbn [mbind option_bind]. rewrite (IH fuel e') by (done || (cbn in Hf; lia)). done.
Qed.

(** The rows of the table with the key of [x], the last one first. *)
Definition same_key (r : rel) (ks : list nat) (x : row) : list nat := filter (fun i => join_key r ks (stored r !!! i) = join_key r ks x) (reverse (seq 0 (nrows r))).

Lemma bucket_same_key (r : rel) ks nb x : filter (fun i => join_key r ks (stored r !!! i) = join_key r ks x) (in_bucket (arr_bucket r ks nb) (Z.to_nat (arr_hash (join_key r ks x) mod nb)) (nrows r)) = same_key r ks x.
Proof.
  unfold in_bucket, same_key. rewrite !filter_reverse. f_equal. rewrite list_filter_filter. apply list_filter_iff. intros i. split; [tauto|]. intros H. split; [done|]. unfold arr_bucket. by rewrite H.
Qed.

Lemma arr_lookup_ok a (r : rel) x : indexes a r (nrows r) -> indexed_rows a = nrows r -> indexable (a_key_cols a) r -> key_row_ok r (a_key_cols a) x ->
  exists l, lookup a r x = Some l /\ filter (fun i => join_key r (a_key_cols a) (stored r !!! i) = join_key r (a_key_cols a) x) l = same_key r (a_key_cols a) x.
Proof.
  intros Hix Hn (Hr & Ht & Hks & _) Hx. unfold lookup. destruct (find_first_ok a r x Hix Hn Hr Ht Hks Hx) as (e & l0 & l & -> & Hc & Hl & Hl0). cbn [mbind option_bind]. exists l.
  assert (Hlen : (length (l0 ++ l) <= nrows r)%nat) by (rewrite <-Hl; unfold in_bucket; rewrite length_reverse; etrans; [apply length_filter|by rewrite length_seq]). rewrite length_app in Hlen.
  split; [apply walk_ok; [apply Hix|done|lia]|]. rewrite <-(bucket_same_key r _ (nbuckets a) x), Hl, filter_app. rewrite (filter_none _ l0); [done|]. by apply Forall_forall.
Qed.

(** C13: In every state of its life an arrangement serves the relation that the
    last successful build or update indexed: a lookup followed to its end visits
    a list of rows, which may hold others of the same bucket; those in it with
    the key are all rows of the relation with that key, each once, the last one
    first.  A further build or update succeeds, or finds no memory and changes
    nothing. *)
Theorem arrangement_exact ks a r x : lives ks a (Some r) -> key_row_ok r ks x ->
  (exists l, lookup a r x = Some l /\ filter (fun i => join_key r ks (stored r !!! i) = join_key r ks x) l = same_key r ks x) /\
  (forall e r', indexable ks r' -> exists a' rc, arr_build_full e a r' = Some (a', rc) /\ (rc = 0 \/ rc = ENOMEM /\ a' = a /\ (arr_lucky e -> 2 ^ 30 < Z.of_nat (nrows r')))) /\
  (forall e r', indexable ks r' -> extends r r' -> exists a' rc, arr_update_incremental e a r' (indexed_rows a) = Some (a', rc) /\ (rc = 0 \/ rc = ENOMEM /\ a' = a /\ (arr_lucky e -> 2 ^ 30 < Z.of_nat (nrows r')))).
Proof.
  intros Hl Hx. destruct (lives_inv _ _ _ Hl) as (<- & Hir & Hix & Hn). split_and!.
  - by apply arr_lookup_ok.
  - intros e r' (Hr & Ht & Hks & Hbig). destruct (build_full_ok e a r' (ix_wf _ _ _ Hix) Hr Ht Hks Hbig) as (a' & rc & Hb & _ & H). exists a', rc. split; [done|]. tauto.
  - intros e r' (Hr & Ht & Hks & Hbig) Hext. rewrite Hn. destruct (update_ok e a r' (nrows r) (indexes_extends _ _ _ (proj1 Hir) Hr Hext Hix) Hn Hr Ht Hks Hbig (proj1 (proj2 Hext))) as (a' & rc & Hb & _ & H). exists a', rc. split; [done|]. tauto.
Qed.

(** A relation of three rows that grows by one. *)
Definition three : rel := DeltaSpec.of_rows DeltaSpec.pairs [[0; 1]; [4; 3]; [9; 3]] 0 [].
Definition four : rel := DeltaSpec.of_rows DeltaSpec.pairs [[0; 1]; [4; 3]; [9; 3]; [6; 3]] 0 [].
Definition on_second : list nat := [1%nat].
Definition given : arr_env := Aenv true true true.

Lemma pairs_indexable l : readable (DeltaSpec.of_rows DeltaSpec.pairs l 0 []) -> Z.of_nat (nrows (DeltaSpec.of_rows DeltaSpec.pairs l 0 [])) <= UINT32_MAX -> indexable on_second (DeltaSpec.of_rows DeltaSpec.pairs l 0 []).
Proof. intros Hr Hn. split; [done|]. split; [intros c _; by eexists|]. split; [|done]. repeat constructor. Qed.

Definition built_three : arrangement := from_option fst (new_arrangement on_second) (arr_build_full given (new_arrangement on_second) three).
Definition grown_four : arrangement := from_option fst (new_arrangement on_second) (arr_update_incremental given built_three four 3).

Lemma arrangement_exact_witness :
  lives on_second grown_four (Some four) /\ key_row_ok four on_second [0; 3] /\ (exists l, lookup grown_four four [0; 3] = Some l /\ filter (fun i => join_key four on_second (stored four !!! i) = join_key four on_second [0; 3]) l = [3; 2; 1]%nat).
Proof.
  assert (H3 : indexable on_second three) by (apply pairs_indexable; [split; [split; vm_compute; lia|apply DeltaSpec.int_rows_ok; done]|vm_compute; discriminate]).
  assert (H4 : indexable on_second four) by (apply pairs_indexable; [split; [split; vm_compute; lia|apply DeltaSpec.int_rows_ok; done]|vm_compute; discriminate]).
  assert (Hlives : lives on_second grown_four (Some four)).
  { apply (lives_updated on_second given built_three three four); [|exact H4|split; [reflexivity|split; [vm_compute; lia|reflexivity]]|vm_compute; reflexivity].
    apply (lives_built on_second given (new_arrangement on_second) None three); [constructor|exact H3|vm_compute; reflexivity]. }
  assert (Hkey : key_row_ok four on_second [0; 3]) by (split; [reflexivity|repeat constructor; by exists TYPE_INT64]).
  split; [exact Hlives|]. split; [exact Hkey|]. destruct (arrangement_exact on_second grown_four four [0; 3] Hlives Hkey) as [Hl _]. exact Hl.
Defined.

End ArrangementSpec.
