(* ===== verification/MatCache.v ===== *)
(** * The materialization cache (src/wirelog/columnar/cache.c)

    Join results that later joins of the same inputs may reuse, at most 64 of
    them.  A result that a caller has pinned is neither evicted nor destroyed:
    clearing the cache hides it and the last release of a pin destroys it.  What
    an operation destroys and what it tells the ledger are part of its result; an
    assertion that does not hold leaves an operation without one. *)

From S2P Require Import Prelude RadixSort Relation Consolidate MemLedger EvalStack Filter RowOps.

Module MatCache.

Import Keys Rel Consolidate Filter.Filter RowOps.RowOps.

Definition COL_MAT_CACHE_MAX : nat := 64.
Definition COL_MAT_CACHE_LIMIT_BYTES : Z := 100 * 1024 * 1024.
Definition MEM_SUBSYS_CACHE : Z := 2.
Definition ENOSPC : Z := Ledger.ENOSPC.

(** A relation with the fields of col_rel_t that only the cache reads: its
    snapshot, where its columns come from, whether a ledger is attached, and the
    bytes of col_rel_transport_bytes. *)
Record robj := Obj {
  o_rel : rel;
  o_snapshot : snapshot;
  pool_owned : bool;
  arena_owned : bool;
  col_shared : option (list bool);
  o_ledger : bool;
  transport_bytes : Z }.

Inductive effect := Destroy (o : robj) | Unledger (o : robj) | Tell (c : Ledger.call).

(** ** Keys *)

(** for (j < ncols) *)
Fixpoint hash_cells (n : nat) (x : row) (j : nat) (h : Z) : option Z :=
  match n with O => Some h | S n' => v ← rd x j; hash_cells n' x (S j) (mix h v) end.
(** for (i < k) *)
Fixpoint hash_rows (n : nat) (r : rel) (i : nat) (h : Z) : option Z :=
  match n with O => Some h | S n' => x ← rd (rows r) i; h ← hash_cells (ncols r) x 0 h; hash_rows n' r (S i) h end.

Definition col_mat_cache_key_content (r : rel) : option Z :=
  if (nrows r =? 0)%nat then Some 0
  else
    h ← hash_rows (Nat.min (nrows r) 100) r 0 14695981039346656037;
    Some (mix (mix h (Z.of_nat (nrows r))) (Z.of_nat (ncols r))).

(** ** The cache *)

(** col_mat_entry_t *)
Record mentry := Ment {
  left_hash : Z;
  right_hash : Z;
  result : option robj;
  mem_bytes : Z;
  lru_clock : Z;
  ledger_bytes : Z;
  identity : Z;
  pin_count : Z;
  eviction_deferred : bool;
  entry_epoch : Z;
  epoch_pin_count : Z;
  generation : Z;
  owner_alive : bool;
  owns_result : bool;
  left_snapshot : snapshot;
  right_snapshot : snapshot }.

(** col_mat_cache_t; [c_ledger]: a ledger is attached. *)
Record cache := MC {
  entries : list mentry;
  total_bytes : Z;
  clock : Z;
  hits : Z;
  misses : Z;
  c_ledger : bool;
  next_identity : Z;
  next_generation : Z;
  pin_epoch : Z;
  active_pins : Z;
  reclaimer_handle : Z;
  reclaimer_owner_alive : bool }.

Definition empty_cache (ledger : bool) : cache := MC [] 0 0 0 0 ledger 0 0 0 0 0 false.

Definition set_pins (n epochs epoch : Z) (x : mentry) : mentry :=
  Ment (left_hash x) (right_hash x) (result x) (mem_bytes x) (lru_clock x) (ledger_bytes x) (identity x) n (eviction_deferred x) epoch epochs (generation x) (owner_alive x) (owns_result x) (left_snapshot x) (right_snapshot x).
Definition set_deferred (x : mentry) : mentry :=
  Ment (left_hash x) (right_hash x) (result x) (mem_bytes x) (lru_clock x) (ledger_bytes x) (identity x) (pin_count x) true (entry_epoch x) (epoch_pin_count x) (generation x) (owner_alive x) (owns_result x) (left_snapshot x) (right_snapshot x).
Definition set_clock (t : Z) (x : mentry) : mentry :=
  Ment (left_hash x) (right_hash x) (result x) (mem_bytes x) t (ledger_bytes x) (identity x) (pin_count x) (eviction_deferred x) (entry_epoch x) (epoch_pin_count x) (generation x) (owner_alive x) (owns_result x) (left_snapshot x) (right_snapshot x).

Definition set_entries (l : list mentry) (c : cache) : cache :=
  MC l (total_bytes c) (clock c) (hits c) (misses c) (c_ledger c) (next_identity c) (next_generation c) (pin_epoch c) (active_pins c) (reclaimer_handle c) (reclaimer_owner_alive c).
Definition set_total (n : Z) (c : cache) : cache :=
  MC (entries c) n (clock c) (hits c) (misses c) (c_ledger c) (next_identity c) (next_generation c) (pin_epoch c) (active_pins c) (reclaimer_handle c) (reclaimer_owner_alive c).
Definition set_active (n : Z) (c : cache) : cache :=
  MC (entries c) (total_bytes c) (clock c) (hits c) (misses c) (c_ledger c) (next_identity c) (next_generation c) (pin_epoch c) n (reclaimer_handle c) (reclaimer_owner_alive c).
Definition set_epoch (n : Z) (c : cache) : cache :=
  MC (entries c) (total_bytes c) (clock c) (hits c) (misses c) (c_ledger c) (next_identity c) (next_generation c) n (active_pins c) (reclaimer_handle c) (reclaimer_owner_alive c).
Definition count_hit (t : Z) (c : cache) : cache :=
  MC (entries c) (total_bytes c) t (u64 (hits c + 1)) (misses c) (c_ledger c) (next_identity c) (next_generation c) (pin_epoch c) (active_pins c) (reclaimer_handle c) (reclaimer_owner_alive c).
Definition count_miss (c : cache) : cache :=
  MC (entries c) (total_bytes c) (clock c) (hits c) (u64 (misses c + 1)) (c_ledger c) (next_identity c) (next_generation c) (pin_epoch c) (active_pins c) (reclaimer_handle c) (reclaimer_owner_alive c).
Definition set_reclaimer (h : Z) (alive : bool) (c : cache) : cache :=
  MC (entries c) (total_bytes c) (clock c) (hits c) (misses c) (c_ledger c) (next_identity c) (next_generation c) (pin_epoch c) (active_pins c) h alive.

(** ** Removal *)

Definition mat_cache_entry_destroy (c : cache) (x : mentry) : list effect :=
  (if c_ledger c && (0 <? ledger_bytes x) then [Tell (Ledger.Free MEM_SUBSYS_CACHE (ledger_bytes x))] else []) ++
  match result x with Some o => [Destroy o] | None => [] end.

Definition mat_cache_remove_at (c : cache) (i : nat) : option (cache * list effect) :=
  x ← rd (entries c) i;
  if negb (pin_count x =? 0) then None
  else Some (set_entries (delete i (entries c)) (set_total (u64 (total_bytes c - mem_bytes x)) c), mat_cache_entry_destroy c x).

(** The least recently used entry that may go, [best] being the one so far. *)
Fixpoint find_lru (l : list mentry) (i : nat) (best : option (nat * Z)) : option nat :=
  match l with
  | [] => fst <$> best
  | x :: l' =>
      if negb (bool_decide (is_Some (result x))) || eviction_deferred x || (0 <? pin_count x) then find_lru l' (S i) best
      else find_lru l' (S i) (match best with Some (_, t) => if lru_clock x <? t then Some (i, lru_clock x) else best | None => Some (i, lru_clock x) end)
  end.

Definition mat_cache_evict_lru (c : cache) : option (cache * list effect * bool) :=
  match find_lru (entries c) 0 None with
  | Some i => '(c, eff) ← mat_cache_remove_at c i; Some (c, eff, true)
  | None => Some (c, [], false)
  end.

(** for (i < count): pinned entries are hidden, the others removed. *)
Fixpoint drop_from (fuel : nat) (c : cache) (i : nat) : option (cache * list effect) :=
  match fuel with
  | O => Some (c, [])
  | S fuel' =>
      if (length (entries c) <=? i)%nat then Some (c, [])
      else
        x ← rd (entries c) i;
        if 0 <? pin_count x then l ← wr (entries c) i (set_deferred x); drop_from fuel' (set_entries l c) (S i)
        else
          '(c, eff) ← mat_cache_remove_at c i;
          '(c, eff') ← drop_from fuel' c i;
          Some (c, eff ++ eff')
  end.

Definition col_mat_cache_clear (c : cache) : option (cache * list effect) := drop_from (length (entries c)) c 0.

Definition col_mat_cache_truncate (c : cache) (keep_count : nat) : option (cache * list effect) :=
  if (length (entries c) <=? keep_count)%nat then Some (c, []) else drop_from (length (entries c)) c keep_count.

(** for (i < count) of col_mat_cache_release_pins *)
Fixpoint release_from (fuel : nat) (c : cache) (i : nat) : option (cache * list effect) :=
  match fuel with
  | O => Some (c, [])
  | S fuel' =>
      if (length (entries c) <=? i)%nat then Some (c, [])
      else
        x ← rd (entries c) i;
        '(c, x) ← (if 0 <? epoch_pin_count x then
                     if (pin_count x <? epoch_pin_count x) || (active_pins c <? epoch_pin_count x) then None
                     else
                       let x' := set_pins (u32 (pin_count x - epoch_pin_count x)) 0 0 x in
                       l ← wr (entries c) i x';
                       Some (set_active (u32 (active_pins c - epoch_pin_count x)) (set_entries l c), x')
                   else Some (c, x));
        if (pin_count x =? 0) && eviction_deferred x then
          '(c, eff) ← mat_cache_remove_at c i;
          '(c, eff') ← release_from fuel' c i;
          Some (c, eff ++ eff')
        else release_from fuel' c (S i)
  end.

Definition col_mat_cache_release_pins (c : cache) : option (cache * list effect) :=
  '(c, eff) ← release_from (length (entries c)) c 0;
  let epoch := u64 (pin_epoch c + 1) in
  Some (set_epoch (if epoch =? 0 then 1 else epoch) c, eff).

(** while (count > 0 && total_bytes >= target_bytes); an eviction removes an
    entry. *)
Fixpoint evict_until_from (fuel : nat) (c : cache) (target : Z) : option (cache * list effect) :=
  match fuel with
  | O => Some (c, [])
  | S fuel' =>
      if (0 <? length (entries c))%nat && (target <=? total_bytes c) then
        '(c, eff, gone) ← mat_cache_evict_lru c;
        if negb gone then Some (c, eff) else '(c, eff') ← evict_until_from fuel' c target; Some (c, eff ++ eff')
      else Some (c, [])
  end.
Definition col_mat_cache_evict_until (c : cache) (target : Z) : option (cache * list effect) := evict_until_from (length (entries c)) c target.

(** ** Lookup *)

(** The test of a lookup. *)
Definition hit (lh rh : Z) (ls rs : snapshot) (x : mentry) : bool :=
  (left_hash x =? lh) && (right_hash x =? rh) && snapshot_equal (left_snapshot x) ls && snapshot_equal (right_snapshot x) rs &&
  bool_decide (is_Some (result x)) && negb (eviction_deferred x).

Fixpoint find_hit (l : list mentry) (test : mentry -> bool) (i : nat) : option nat :=
  match l with [] => None | x :: l' => if test x then Some i else find_hit l' test (S i) end.

Definition col_mat_cache_lookup (c : cache) (left right : robj) : option (cache * option robj) :=
  let c := if pin_epoch c =? 0 then set_epoch 1 c else c in
  lh ← col_mat_cache_key_content (o_rel left);
  rh ← col_mat_cache_key_content (o_rel right);
  match find_hit (entries c) (hit lh rh (o_snapshot left) (o_snapshot right)) 0 with
  | None => Some (count_miss c, None)
  | Some i =>
      x ← rd (entries c) i;
      let t := u64 (clock c + 1) in
      let pin := owner_alive x && negb (generation x =? 0) && negb (entry_epoch x =? pin_epoch c) in
      if pin && negb (active_pins c <? UINT32_MAX) then None
      else
        let x' := if pin then set_pins (u32 (pin_count x + 1)) (u32 (epoch_pin_count x + 1)) (pin_epoch c) x else x in
        l ← wr (entries c) i (set_clock t x');
        Some (count_hit t (set_active (if pin then u32 (active_pins c + 1) else active_pins c) (set_entries l c)), result x)
  end.

(** The result and the pin, that is, the identity that it holds. *)
Definition col_mat_cache_lookup_pin (c : cache) (left right : robj) : option (cache * option (robj * Z)) :=
  lh ← col_mat_cache_key_content (o_rel left);
  rh ← col_mat_cache_key_content (o_rel right);
  match find_hit (entries c) (hit lh rh (o_snapshot left) (o_snapshot right)) 0 with
  | None => Some (count_miss c, None)
  | Some i =>
      x ← rd (entries c) i;
      let t := u64 (clock c + 1) in
      if negb (active_pins c <? UINT32_MAX) then None
      else
        l ← wr (entries c) i (set_clock t (set_pins (u32 (pin_count x + 1)) (epoch_pin_count x) (entry_epoch x) x));
        o ← result x;
        Some (count_hit t (set_active (u32 (active_pins c + 1)) (set_entries l c)), Some (o, identity x))
  end.

(** The release of an active pin. *)
Definition col_mat_cache_pin_release (c : cache) (pin : Z) : option (cache * list effect) :=
  match find_hit (entries c) (fun x => identity x =? pin) 0 with
  | None => None
  | Some i =>
      x ← rd (entries c) i;
      if negb (0 <? pin_count x) then None
      else
        let x' := set_pins (u32 (pin_count x - 1)) (epoch_pin_count x) (entry_epoch x) x in
        l ← wr (entries c) i x';
        '(c, eff) ← (if (pin_count x' =? 0) && eviction_deferred x' then mat_cache_remove_at (set_entries l c) i else Some (set_entries l c, []));
        if negb (0 <? active_pins c) then None else Some (set_active (u32 (active_pins c - 1)) c, eff)
  end.

(** ** Insertion *)

Definition result_bytes (r : rel) : Z := if (0 <? nrows r)%nat && (0 <? ncols r)%nat then u64 (u64 (Z.of_nat (nrows r) * Z.of_nat (ncols r)) * 8) else 0.

(** The two loops before an insertion; the flag: there is room. *)
Fixpoint make_room (fuel : nat) (c : cache) (full : cache -> bool) : option (cache * list effect * bool) :=
  if full c then
    match fuel with
    | O => None
    | S fuel' =>
        '(c, eff, gone) ← mat_cache_evict_lru c;
        if negb gone then Some (c, eff, false) else '(c, eff', ok) ← make_room fuel' c full; Some (c, eff ++ eff', ok)
    end
  else Some (c, [], true).

Definition over_limit (bytes : Z) (c : cache) : bool := (0 <? length (entries c))%nat && (COL_MAT_CACHE_LIMIT_BYTES <? u64 (total_bytes c + bytes)).
Definition at_capacity (c : cache) : bool := (COL_MAT_CACHE_MAX <=? length (entries c))%nat.

(** A counter that skips zero. *)
Definition next_id (n : Z) : Z := let n := u64 (n + 1) in if n =? 0 then u64 (n + 1) else n.

Definition unshared (o : robj) : bool :=
  negb (pool_owned o) && negb (arena_owned o) && match col_shared o with Some l => negb (existsb id (take (ncols (o_rel o)) l)) | None => true end.

Definition detached (o : robj) : robj := Obj (o_rel o) (o_snapshot o) (pool_owned o) (arena_owned o) (col_shared o) false (transport_bytes o).

(** [pin]: a pin is wanted.  The code, the pin and the effects. *)
Definition col_mat_cache_insert_pin (c : cache) (left right o : robj) (pin : bool) : option (cache * Z * option Z * list effect) :=
  let bytes := result_bytes (o_rel o) in
  '(c, eff1, ok) ← make_room (S (length (entries c))) c (over_limit bytes);
  if negb ok then Some (c, ENOSPC, None, eff1)
  else
    '(c, eff2, ok) ← make_room (S (length (entries c))) c at_capacity;
    if negb ok then Some (c, ENOSPC, None, eff1 ++ eff2)
    else
      lh ← col_mat_cache_key_content (o_rel left);
      rh ← col_mat_cache_key_content (o_rel right);
      let t := u64 (clock c + 1) in
      let id := next_id (next_identity c) in
      let g := next_id (next_generation c) in
      let charge := if c_ledger c then transport_bytes o else 0 in
      let eff3 := if c_ledger c then (if o_ledger o then [Unledger o] else []) ++ (if 0 <? charge then [Tell (Ledger.Alloc MEM_SUBSYS_CACHE charge)] else []) else [] in
      if pin && negb (active_pins c <? UINT32_MAX) then None
      else
        let x := Ment lh rh (Some (if c_ledger c then detached o else o)) bytes t charge id (if pin then 1 else 0) false 0 0 g true (unshared o) (o_snapshot left) (o_snapshot right) in
        Some (MC (entries c ++ [x]) (u64 (total_bytes c + bytes)) t (hits c) (misses c) (c_ledger c) id g (pin_epoch c)
                (if pin then u32 (active_pins c + 1) else active_pins c) (reclaimer_handle c) (reclaimer_owner_alive c),
              0, (if pin then Some id else None), eff1 ++ eff2 ++ eff3).

Definition col_mat_cache_insert (c : cache) (left right o : robj) : option (cache * Z * list effect) :=
  '(c, rc, _, eff) ← col_mat_cache_insert_pin c left right o false; Some (c, rc, eff).

(** ** Reclaiming *)

(** The bytes and candidates of a reclaim. *)
Definition col_mat_cache_reclaim_entry (c : cache) (i : nat) (expected_generation : Z) : option (cache * (Z * Z) * list effect) :=
  match entries c !! i with
  | None => Some (c, (0, 0), [])
  | Some x =>
      if negb (generation x =? expected_generation) || negb (owner_alive x) || negb (owns_result x) || negb (bool_decide (is_Some (result x))) || negb (pin_count x =? 0)
      then Some (c, (0, 0), [])
      else
        o ← result x;
        '(c, eff) ← mat_cache_remove_at c i;
        Some (c, (transport_bytes o, 1), eff)
  end.

(** while (index < cache->count): an entry is removed or passed. *)
Fixpoint reclaim_from (fuel : nat) (c : cache) (i : nat) (total : Z * Z) : option (cache * (Z * Z) * list effect) :=
  match fuel with
  | O => Some (c, total, [])
  | S fuel' =>
      match entries c !! i with
      | None => Some (c, total, [])
      | Some x =>
          '(c, one, eff) ← col_mat_cache_reclaim_entry c i (generation x);
          if 0 <? one.2 then
            '(c, total, eff') ← reclaim_from fuel' c i (u64 (total.1 + one.1), u32 (total.2 + one.2));
            Some (c, total, eff ++ eff')
          else reclaim_from fuel' c (S i) total
      end
  end.

Definition mat_cache_reclaimer (c : cache) : option (cache * (Z * Z) * list effect) :=
  if negb (reclaimer_owner_alive c) then Some (c, (0, 0), []) else reclaim_from (length (entries c)) c 0 (0, 0).

(** [l]: the ledger, if one is attached; [fn], [owner]: the callback and the
    address of the cache. *)
Definition col_mat_cache_attach_reclaimer (c : cache) (l : Ledger.ledger) (fn owner : Z) : option (cache * Ledger.ledger * Z) :=
  if negb (c_ledger c) then Some (c, l, EINVAL)
  else if negb (reclaimer_handle c =? 0) then Some (c, l, 0)
  else
    '(rc, h, l) ← Ledger.register_reclaimer l (Some fn) owner;
    Some (set_reclaimer (default (reclaimer_handle c) h) (if rc =? 0 then true else reclaimer_owner_alive c) c, l, rc).

Definition col_mat_cache_detach_reclaimer (c : cache) (l : Ledger.ledger) : option (cache * Ledger.ledger) :=
  l ← (if c_ledger c && negb (reclaimer_handle c =? 0) then Ledger.unregister_reclaimer l (reclaimer_handle c) else Some l);
  Some (set_reclaimer 0 false c, l).

End MatCache.
