(* ===== verification/MatCacheProof.v ===== *)
(** * Pins keep cached results alive

    The invariant of the cache does not depend on the order of its entries: an
    operation takes an entry out, changes its pins or puts one in.  Each pin that
    a caller holds names an entry, and every result that was given to the cache
    is either in it or was destroyed once. *)

From S2P Require Import Prelude RadixSort Relation Consolidate MemLedger EvalStack Filter RowOps MatCache.

Module MatCacheProof.

Import Keys Rel Consolidate Filter.Filter RowOps.RowOps MatCache.MatCache.

(** ** Sums *)

Definition zsum {A} (f : A -> Z) (l : list A) : Z := foldr (fun x s => f x + s) 0 l.

#[global] Instance zsum_perm {A} (f : A -> Z) : Proper (Permutation ==> eq) (zsum f).
Proof. intros l l'. induction 1; cbn [zsum foldr] in *; unfold zsum in *; cbn [foldr]; lia. Qed.

Lemma zsum_cat {A} (f : A -> Z) l l' : zsum f (l ++ l') = zsum f l + zsum f l'.
Proof. induction l as [|x l IH]; cbn; [done|]. unfold zsum in *. rewrite IH. lia. Qed.

Lemma zsum_nonneg {A} (f : A -> Z) l : Forall (fun x => 0 <= f x) l -> 0 <= zsum f l.
Proof. induction 1 as [|x l Hx _ IH]; cbn; [done|]. unfold zsum in IH. lia. Qed.

(** The pins of the identity [i] among the handles. *)
Definition occ (i : Z) (h : list Z) : Z := Z.of_nat (length (filter (fun j => j = i) h)).

#[global] Instance occ_perm i : Proper (Permutation ==> eq) (occ i).
Proof. intros h h' H. unfold occ. by rewrite H. Qed.

Lemma occ_cons i j h : occ i (j :: h) = (if decide (j = i) then 1 else 0) + occ i h.
Proof. unfold occ. rewrite filter_cons. destruct (decide (j = i)); cbn [length]; lia. Qed.

Lemma occ_bounds i h : 0 <= occ i h <= Z.of_nat (length h).
Proof. unfold occ. pose proof (length_filter (fun j => j = i) h). lia. Qed.

Lemma occ_none i h : i ∉ h -> occ i h = 0.
Proof. intros Hi. unfold occ. rewrite filter_none; [done|]. by intros j Hj ->. Qed.

Lemma occ_zero i h : occ i h = 0 -> i ∉ h.
Proof. unfold occ. intros H Hi. assert (Hf : i ∈ filter (fun j => j = i) h) by by apply list_elem_of_filter. destruct (filter _ h); [by apply elem_of_nil in Hf|cbn in H; lia]. Qed.

(** ** The invariant *)

(** What the callers did: the pins they hold with the results they borrowed, the
    results they gave away with
    the inputs' snapshots, and what was destroyed and told to the ledger. *)
Record ghost := Gh { held : list (Z * robj); log : list (snapshot * snapshot * robj); effs : list effect }.

Definition gone (l : list effect) : list robj := omap (fun e => match e with Destroy o => Some o | _ => None end) l.
Definition told (l : list effect) : Z :=
  zsum (fun e => match e with Tell (Ledger.Alloc _ b) => b | Tell (Ledger.Free _ b) => - b | _ => 0 end) l.

Lemma gone_app l l' : gone (l ++ l') = gone l ++ gone l'.
Proof. apply omap_app. Qed.
Lemma told_app l l' : told (l ++ l') = told l + told l'.
Proof. apply zsum_cat. Qed.

(** One entry: its pins, its sizes and its result. *)
Record entry_ok (ledger : bool) (next : Z) (g : ghost) (x : mentry) : Prop := {
  eo_id : 1 <= identity x <= next;
  eo_epoch : 0 <= epoch_pin_count x;
  eo_pins : pin_count x = occ (identity x) (held g).*1 + epoch_pin_count x;
  eo_bytes : 0 <= mem_bytes x <= 2 ^ 62;
  eo_charge : 0 <= ledger_bytes x /\ (ledger = false -> ledger_bytes x = 0);
  eo_result : exists o, result x = Some o /\ (left_snapshot x, right_snapshot x, o) ∈ log g }.

(** The entry of a pin. *)
Definition pins (p : Z * robj) (x : mentry) : Prop := identity x = p.1 /\ result x = Some p.2.

Record core (ledger : bool) (next active total : Z) (g : ghost) (l : list mentry) : Prop := {
  co_ids : NoDup (identity <$> l);
  co_entries : Forall (entry_ok ledger next g) l;
  co_held : Forall (fun p => Exists (pins p) l) (held g);
  co_active : active = Z.of_nat (length (held g)) + zsum epoch_pin_count l;
  co_total : total = zsum mem_bytes l;
  co_owned : (snd <$> log g) ≡ₚ gone (effs g) ++ omap result l;
  co_told : told (effs g) = zsum ledger_bytes l }.

#[global] Instance core_perm ledger next active total g : Proper (Permutation ==> iff) (core ledger next active total g).
Proof.
  assert (H : forall l l', l ≡ₚ l' -> core ledger next active total g l -> core ledger next active total g l').
  { intros l l' Hp [H1 H2 H3 H4 H5 H6 H7]. split; [by rewrite <-Hp|by rewrite <-Hp| |by rewrite <-Hp|by rewrite <-Hp|by rewrite <-Hp|by rewrite <-Hp].
    eapply Forall_impl; [exact H3|]. intros p Hin. cbn beta in *. by rewrite <-Hp. }
  intros l l' Hp. split; by apply H.
Qed.

Lemma pins_le_active ledger next active total g x l : core ledger next active total g (x :: l) -> 0 <= pin_count x <= active /\ 0 <= epoch_pin_count x <= pin_count x.
Proof.
  intros [_ [Hx Hl]%Forall_cons _ -> _ _ _]. pose proof (occ_bounds (identity x) (held g).*1) as Hocc0. rewrite length_fmap in Hocc0. destruct Hx as [_ He -> _ _ _]. cbn [zsum foldr]. fold (zsum epoch_pin_count l).
  assert (0 <= zsum epoch_pin_count l) by (apply zsum_nonneg; eapply Forall_impl; [exact Hl|by intros ? []]). lia.
Qed.

Lemma bytes_le_total ledger next active total g x l : core ledger next active total g (x :: l) -> 0 <= mem_bytes x <= total.
Proof.
  intros [_ [Hx Hl]%Forall_cons _ _ -> _ _]. destruct Hx as [_ _ _ Hb _ _]. cbn [zsum foldr]. fold (zsum mem_bytes l).
  assert (0 <= zsum mem_bytes l) by (apply zsum_nonneg; eapply Forall_impl; [exact Hl|intros ? []; lia]). lia.
Qed.

(** ** Taking an entry out *)

Lemma core_remove c next active total g x l : core (c_ledger c) next active total g (x :: l) -> pin_count x = 0 ->
  core (c_ledger c) next active (total - mem_bytes x) (Gh (held g) (log g) (effs g ++ mat_cache_entry_destroy c x)) l.
Proof.
  intros [Hid [Hx Hl]%Forall_cons Hh Ha Ht Ho Hto] Hp. pose proof (occ_bounds (identity x) (held g).*1) as Hocc0. rewrite length_fmap in Hocc0. destruct Hx as [_ He Hpx _ [Hc Hcl] (o & Hr & _)].
  assert (He0 : epoch_pin_count x = 0) by lia. assert (Hni : identity x ∉ (held g).*1) by (apply occ_zero; lia). cbn [fmap list_fmap] in Hid. apply NoDup_cons in Hid as [_ Hid]. cbn [zsum foldr] in Ha, Ht, Hto. fold (zsum epoch_pin_count l) in Ha. fold (zsum mem_bytes l) in Ht. fold (zsum ledger_bytes l) in Hto.
  split; cbn [held log effs]; [done|eapply Forall_impl; [exact Hl|by intros ? []]| |lia|lia| |].
  - apply Forall_forall. intros p Hin. pose proof (proj1 (Forall_forall _ _) Hh p Hin) as Hp'. apply Exists_cons in Hp' as [[Heq _]|?]; [|done]. destruct Hni. rewrite Heq. by apply list_elem_of_fmap_2.
  - rewrite Ho, gone_app. cbn [omap list_omap]. rewrite Hr. unfold mat_cache_entry_destroy. rewrite Hr, gone_app. destruct (c_ledger c && _); cbn [gone omap list_omap app]; by rewrite <-app_assoc.
  - rewrite told_app, Hto. unfold mat_cache_entry_destroy. rewrite Hr. destruct (c_ledger c) eqn:El; cbn [andb]; [|rewrite (Hcl eq_refl); cbn; lia]. destruct (Z.ltb_spec 0 (ledger_bytes x)); cbn; lia.
Qed.

(** ** Changing the pins of an entry *)

Record same_data (x y : mentry) : Prop := {
  sd_id : identity y = identity x;
  sd_bytes : mem_bytes y = mem_bytes x;
  sd_charge : ledger_bytes y = ledger_bytes x;
  sd_result : result y = result x;
  sd_left : left_snapshot y = left_snapshot x;
  sd_right : right_snapshot y = right_snapshot x }.

Lemma core_update ledger next active total g x y l h : core ledger next active total g (x :: l) -> same_data x y ->
  (forall i, i <> identity x -> occ i h.*1 = occ i (held g).*1) -> Forall (fun p => Exists (pins p) (x :: l)) h ->
  0 <= epoch_pin_count y -> pin_count y = occ (identity x) h.*1 + epoch_pin_count y ->
  core ledger next (active - Z.of_nat (length (held g)) - epoch_pin_count x + Z.of_nat (length h) + epoch_pin_count y) total (Gh h (log g) (effs g)) (y :: l).
Proof.
  intros [Hid [Hx Hl]%Forall_cons Hh Ha Ht Ho Hto] [Si Sb Sc Sr Sl Ss] Hocc Hin He Hp. cbn [fmap list_fmap] in Hid. pose proof Hid as [Hni _]%NoDup_cons. cbn [zsum foldr] in *.
  split; cbn [held log effs fmap list_fmap zsum foldr]; rewrite ?Si, ?Sb, ?Sc; [done| | |fold (zsum epoch_pin_count l) in *; lia|done| |done].
  - apply Forall_cons. split.
    + destruct Hx as [H1 H2 H3 H4 H5 H6]. split; cbn [held log]; rewrite ?Si, ?Sb, ?Sc, ?Sr, ?Sl, ?Ss; done.
    + apply Forall_forall. intros z Hz. pose proof (proj1 (Forall_forall _ _) Hl z Hz) as [H1 H2 H3 H4 H5 H6]. split; cbn [held log]; try done. rewrite Hocc; [done|]. intros Heq. apply Hni. rewrite <-Heq. by apply list_elem_of_fmap_2.
  - eapply Forall_impl; [exact Hin|]. intros p. rewrite !Exists_cons. unfold pins. by rewrite Si, Sr.
  - cbn [omap list_omap] in *. by rewrite Sr.
Qed.

(** ** Putting an entry in *)

Lemma core_insert ledger next active total g l x o eff h : core ledger next active total g l -> next < identity x -> result x = Some o -> 0 <= mem_bytes x <= 2 ^ 62 ->
  0 <= ledger_bytes x /\ (ledger = false -> ledger_bytes x = 0) -> epoch_pin_count x = 0 -> h = [] \/ h = [(identity x, o)] -> 0 <= next -> pin_count x = Z.of_nat (length h) -> gone eff = [] -> told eff = ledger_bytes x ->
  core ledger (identity x) (active + Z.of_nat (length h)) (total + mem_bytes x) (Gh (h ++ held g) (log g ++ [(left_snapshot x, right_snapshot x, o)]) (effs g ++ eff)) (l ++ [x]).
Proof.
  intros [Hid Hl Hh Ha Ht Ho Hto] Hn Hr Hb Hc He Hpin H0 Hp Hgone Htold.
  assert (Hfresh : forall i, i ∈ identity <$> l -> i <> identity x) by (intros i (y & -> & Hy)%list_elem_of_fmap; pose proof (proj1 (Forall_forall _ _) Hl y Hy) as [? _ _ _ _ _]; lia).
  assert (Hnh : identity x ∉ (held g).*1).
  { intros (p & Hp1 & Hin)%list_elem_of_fmap. pose proof (proj1 (Forall_forall _ _) Hh p Hin) as (y & Hy & Hyp & _)%Exists_exists. apply (Hfresh (identity y)); [by apply list_elem_of_fmap_2|congruence]. }
  rewrite <-(Permutation_cons_append l x). split; cbn [held log effs fmap list_fmap zsum foldr omap list_omap].
  - apply NoDup_cons. split; [|done]. intros Hin. by apply (Hfresh (identity x)).
  - apply Forall_cons. split.
    + split; cbn [held log]; [lia|lia| |done|done|exists o; split; [done|]; apply elem_of_app; right; by apply list_elem_of_singleton].
      rewrite He, Hp, Z.add_0_r. destruct Hpin as [-> | ->]; cbn [app length fmap list_fmap fst]; [by rewrite occ_none|]. rewrite occ_cons, decide_True, occ_none by done. done.
    + apply Forall_forall. intros z Hz. pose proof (proj1 (Forall_forall _ _) Hl z Hz) as [H1 H2 H3 H4 H5 (oz & Hoz & Hin)]. split; cbn [held log]; try done; [lia| |exists oz; split; [done|]; apply elem_of_app; by left].
      destruct Hpin as [-> | ->]; [done|]. cbn [app fmap list_fmap fst]. rewrite occ_cons, decide_False; [lia|]. intros Heq. by apply (Hfresh (identity z)); [apply list_elem_of_fmap_2|].
  - apply Forall_app. split; [destruct Hpin as [-> | ->]; [done|]; apply Forall_singleton; by left|]. eapply Forall_impl; [exact Hh|]. intros p Hin. by right.
  - rewrite length_app. fold (zsum epoch_pin_count l). lia.
  - fold (zsum mem_bytes l). lia.
  - rewrite fmap_app, Ho, gone_app, Hgone, app_nil_r, Hr. cbn [fmap list_fmap snd]. rewrite <-app_assoc. f_equiv. apply Permutation_sym, Permutation_cons_append.
  - rewrite told_app, Hto, Htold. fold (zsum ledger_bytes l). lia.
Qed.

(** ** The cache *)

Definition add_effs (g : ghost) (eff : list effect) : ghost := Gh (held g) (log g) (effs g ++ eff).

Record inv (c : cache) (g : ghost) : Prop := {
  in_core : core (c_ledger c) (next_identity c) (active_pins c) (total_bytes c) g (entries c);
  in_count : (length (entries c) <= COL_MAT_CACHE_MAX)%nat;
  in_total : total_bytes c <= COL_MAT_CACHE_LIMIT_BYTES \/ (length (entries c) <= 1)%nat;
  in_next : 0 <= next_identity c <= UINT32_MAX;
  in_active : active_pins c <= UINT32_MAX }.

(** A hidden entry is pinned. *)
Definition hidden (l : list mentry) : Prop := Forall (fun x => eviction_deferred x = true -> 0 < pin_count x) l.

(** What a removal leaves alone. *)
Definition frame (c c' : cache) : Prop :=
  c_ledger c' = c_ledger c /\ next_identity c' = next_identity c /\ active_pins c' = active_pins c /\ pin_epoch c' = pin_epoch c /\ reclaimer_owner_alive c' = reclaimer_owner_alive c.

Lemma frame_refl c : frame c c.
Proof. done. Qed.
Lemma frame_trans c c1 c2 : frame c c1 -> frame c1 c2 -> frame c c2.
Proof. unfold frame. intuition congruence. Qed.

Lemma insert_perm {A} (l : list A) i x y : l !! i = Some x -> <[i := y]> l ≡ₚ y :: delete i l.
Proof.
  intros Hi. rewrite insert_take_drop by (by eapply lookup_lt_Some). rewrite delete_take_drop. by rewrite Permutation_middle.
Qed.

Lemma total_small c g : inv c g -> 0 <= total_bytes c <= 2 ^ 62.
Proof.
  intros [[_ Hl _ _ Ht _ _] _ Htot _ _]. assert (0 <= total_bytes c) by (rewrite Ht; apply zsum_nonneg; eapply Forall_impl; [exact Hl|intros ? []; lia]).
  split; [done|]. destruct Htot as [Htot|Hlen]; [unfold COL_MAT_CACHE_LIMIT_BYTES in Htot; lia|]. rewrite Ht. destruct (entries c) as [|x [|]]; cbn; [lia| |cbn in Hlen; lia]. apply Forall_cons in Hl as [[] _]. lia.
Qed.

Lemma inv_at c g i x : inv c g -> entries c !! i = Some x -> core (c_ledger c) (next_identity c) (active_pins c) (total_bytes c) g (x :: delete i (entries c)).
Proof. intros Hi Hx. rewrite <-(delete_Permutation _ _ _ Hx). apply Hi. Qed.

Lemma remove_ok c g i x : inv c g -> entries c !! i = Some x -> pin_count x = 0 ->
  exists c' eff, mat_cache_remove_at c i = Some (c', eff) /\ inv c' (add_effs g eff) /\ entries c' = delete i (entries c) /\ frame c c' /\ total_bytes c' = total_bytes c - mem_bytes x.
Proof.
  intros Hi Hx Hp. pose proof (inv_at _ _ _ _ Hi Hx) as Hc. pose proof (total_small _ _ Hi). pose proof (bytes_le_total _ _ _ _ _ _ _ Hc). pose proof (lookup_lt_Some _ _ _ Hx).
  unfold mat_cache_remove_at, rd. rewrite Hx. cbn [mbind option_bind]. rewrite Hp. cbn [Z.eqb negb]. eexists _, _. split; [done|]. cbn [set_entries set_total entries total_bytes]. rewrite u64_small by mi. split_and!; try done.
  destruct Hi as [_ Hn Ht Hnx Ha]. assert (Hlen : length (delete i (entries c)) = pred (length (entries c))) by (rewrite length_delete by (by eexists); lia).
  split; cbn [set_entries set_total entries total_bytes c_ledger next_identity active_pins]; [by apply core_remove|lia| |done|done]. destruct Ht; [left; lia|right; lia].
Qed.

Lemma inv_touch c g i x y : inv c g -> entries c !! i = Some x -> same_data x y -> pin_count y = pin_count x -> epoch_pin_count y = epoch_pin_count x -> inv (set_entries (<[i := y]> (entries c)) c) g.
Proof.
  intros Hi Hx Hs Hp He. pose proof (inv_at _ _ _ _ Hi Hx) as Hc. destruct Hi as [_ Hn Ht Hnx Ha]. split; cbn [set_entries entries total_bytes c_ledger next_identity active_pins]; rewrite ?length_insert; try done.
  rewrite (insert_perm _ _ x y Hx). pose proof Hc as [_ [[_ Hee Hpp _ _ _] _]%Forall_cons Hh _ _ _ _].
  pose proof (core_update _ _ _ _ _ x y _ (held g) Hc Hs (fun _ _ => eq_refl) Hh ltac:(lia) ltac:(lia)) as H. replace (active_pins c - _ - _ + _ + _) with (active_pins c) in H by lia. by destruct g.
Qed.

Lemma hidden_delete l i : hidden l -> hidden (delete i l).
Proof. apply Forall_delete. Qed.

(** ** Eviction *)

(** The entries that may be evicted. *)
Definition evictable (x : mentry) : Prop := is_Some (result x) /\ eviction_deferred x = false /\ pin_count x <= 0.

Lemma find_lru_ok l : forall i best,
  match find_lru l i best with
  | Some j => ((exists t, best = Some (j, t) /\ Forall (fun y => evictable y -> t <= lru_clock y) l) \/
               (exists x, (i <= j)%nat /\ l !! (j - i)%nat = Some x /\ evictable x /\ Forall (fun y => evictable y -> lru_clock x <= lru_clock y) l /\ forall b t, best = Some (b, t) -> lru_clock x < t))
  | None => best = None /\ Forall (fun y => ~ evictable y) l
  end.
Proof.
  induction l as [|x l IH]; intros i best; cbn [find_lru].
  { destruct best as [[j t]|]; cbn; [left; exists t; split; [done|constructor]|split; [done|constructor]]. }
  destruct (negb _ || _ || _) eqn:Hskip.
  - assert (Hne : ~ evictable x).
    { intros (Hr & Hd & Hp). rewrite Hd, (bool_decide_eq_true_2 _ Hr), (proj2 (Z.ltb_ge _ _) Hp) in Hskip. done. }
    specialize (IH (S i) best). destruct (find_lru l (S i) best) as [j|].
    + destruct IH as [(t & -> & H)|(y & Hij & Hy & He & Hmin & Hb)]; [left; exists t; split; [done|by constructor]|right; exists y]. split_and!; [lia| |done|by constructor|done].
      destruct (j - i)%nat eqn:E; [lia|]. cbn. by replace n with (j - S i)%nat by lia.
    + destruct IH as [-> H]. split; [done|by constructor].
  - apply orb_false_iff in Hskip as [[Hr%negb_false_iff Hd]%orb_false_iff Hp%Z.ltb_ge]. apply bool_decide_eq_true in Hr. assert (Hev : evictable x) by done.
    set (best' := match best with Some (_, t) => _ | None => _ end). specialize (IH (S i) best'). destruct (find_lru l (S i) best') as [j|].
    + destruct IH as [(t & Hb' & H)|(y & Hij & Hy & He & Hmin & Hb)].
      * unfold best' in Hb'. destruct best as [[b0 t0]|]; [destruct (Z.ltb_spec (lru_clock x) t0)|].
        -- injection Hb' as <- <-. right. exists x. split_and!; [lia|by rewrite Nat.sub_diag|done|constructor; [lia|done]|]. intros b t [= <- <-]. done.
        -- injection Hb' as <- <-. left. exists t0. split; [done|]. constructor; [lia|done].
        -- injection Hb' as <- <-. right. exists x. split_and!; [lia|by rewrite Nat.sub_diag|done|constructor; [lia|done]|done].
      * right. exists y. split_and!; [lia|destruct (j - i)%nat eqn:E; [lia|]; cbn; by replace n with (j - S i)%nat by lia|done| |].
        -- constructor; [|done]. intros _. unfold best' in Hb. destruct best as [[b0 t0]|]; [destruct (Z.ltb_spec (lru_clock x) t0)|]; specialize (Hb _ _ eq_refl); lia.
        -- intros b t ->. unfold best' in Hb. destruct (Z.ltb_spec (lru_clock x) t); specialize (Hb _ _ eq_refl); lia.
    + destruct IH as [Hb' _]. unfold best' in Hb'. destruct best as [[b0 t0]|]; [destruct (lru_clock x <? t0)|]; done.
Qed.

(** An eviction takes out the least recently used entry that may go; there is
    none only when all entries are pinned. *)
Lemma evict_ok c g : inv c g -> hidden (entries c) ->
  exists c' eff b, mat_cache_evict_lru c = Some (c', eff, b) /\ inv c' (add_effs g eff) /\ hidden (entries c') /\ frame c c' /\ total_bytes c' <= total_bytes c /\
    ((b = true /\ (length (entries c') < length (entries c))%nat /\ exists i x, entries c !! i = Some x /\ entries c' = delete i (entries c) /\ pin_count x = 0 /\
        Forall (fun y => pin_count y = 0 -> lru_clock x <= lru_clock y) (entries c)) \/
     (b = false /\ c' = c /\ eff = [] /\ Forall (fun x => 0 < pin_count x) (entries c))).
Proof.
  intros Hi Hh. assert (Hev : Forall (fun x => evictable x <-> pin_count x = 0) (entries c) /\ Forall (fun x => 0 <= pin_count x) (entries c)).
  { split; apply Forall_forall; intros x Hx; pose proof Hx as [j Hj]%list_elem_of_lookup; pose proof (pins_le_active _ _ _ _ _ _ _ (inv_at _ _ _ _ Hi Hj)) as [Hpp _]; [|lia].
    unfold evictable. split; [lia|]. intros H0. split_and!; [|destruct (eviction_deferred x) eqn:E; [|done]; pose proof (proj1 (Forall_forall _ _) Hh x Hx E); lia|lia].
    destruct (proj1 (Forall_forall _ _) (co_entries _ _ _ _ _ _ (in_core _ _ Hi)) x Hx) as [_ _ _ _ _ (o & -> & _)]. by eexists. }
  destruct Hev as [Hev Hge]. unfold mat_cache_evict_lru. pose proof (find_lru_ok (entries c) 0 None) as Hf. destruct (find_lru (entries c) 0 None) as [j|].
  - destruct Hf as [(? & ? & _)|(x & _ & Hx & Hx0 & Hmin & _)]; [done|]. rewrite Nat.sub_0_r in Hx. assert (Hp0 : pin_count x = 0) by (apply (proj1 (Forall_forall _ _) Hev x); [by eapply list_elem_of_lookup_2|done]).
    destruct (remove_ok c g j x Hi Hx Hp0) as (c' & eff & -> & Hi' & He & Hfr & Htt). cbn [mbind option_bind]. exists c', eff, true. rewrite He. pose proof (bytes_le_total _ _ _ _ _ _ _ (inv_at _ _ _ _ Hi Hx)). split_and!; [done..|by apply hidden_delete|done|lia|]. left. split; [done|]. split.
    + rewrite length_delete by (by eexists). pose proof (lookup_lt_Some _ _ _ Hx). lia.
    + exists j, x. split_and!; [done..|]. apply Forall_forall. intros y Hy Hyp. apply (proj1 (Forall_forall _ _) Hmin y Hy), (proj1 (Forall_forall _ _) Hev y Hy), Hyp.
  - destruct Hf as [_ Hnone]. exists c, [], false. unfold add_effs. rewrite app_nil_r. split_and!; [done|by destruct g|done|apply frame_refl|lia|]. right. split_and!; [done..|].
    apply Forall_forall. intros x Hx. pose proof (proj1 (Forall_forall _ _) Hge x Hx). pose proof (proj1 (Forall_forall _ _) Hnone x Hx) as H0. cbn beta in *. rewrite (proj1 (Forall_forall _ _) Hev x Hx) in H0. lia.
Qed.

End MatCacheProof.
