(* ===== verification/MatCacheSpec.v ===== *)
(** * The materialization cache in use

    Callers look results up, pin and release them, give results away, and the
    session clears, truncates, evicts and reclaims, in any order.  No operation
    fails an assertion, a borrowed result stays until its pin is released, and
    every result is destroyed once. *)

From S2P Require Import Prelude RadixSort Relation Consolidate ConsolidateProof MemLedger EvalStack Filter FilterProof DeltaSpec RowOps MatCache MatCacheProof.

Module MatCacheSpec.

Import Keys Rel Consolidate ConsolidateProof Filter.Filter FilterProof.FilterProof RowOps.RowOps MatCache.MatCache MatCacheProof.MatCacheProof.

(** ** Sweeps *)

Lemma add_effs_app g e1 e2 : add_effs (add_effs g e1) e2 = add_effs g (e1 ++ e2).
Proof. unfold add_effs. cbn. by rewrite app_assoc. Qed.
Lemma add_effs_nil g : add_effs g [] = g.
Proof. unfold add_effs. rewrite app_nil_r. by destruct g. Qed.

Lemma pin_nonneg c g i x : inv c g -> entries c !! i = Some x -> 0 <= pin_count x.
Proof. intros Hi Hx. apply (pins_le_active _ _ _ _ _ _ _ (inv_at _ _ _ _ Hi Hx)). Qed.

(** Pinned entries are hidden, the others removed. *)
Lemma drop_from_ok : forall fuel c g i, inv c g -> hidden (entries c) -> (length (entries c) - i <= fuel)%nat ->
  exists c' eff, drop_from fuel c i = Some (c', eff) /\ inv c' (add_effs g eff) /\ hidden (entries c') /\ frame c c' /\
    entries c' = take i (entries c) ++ (set_deferred <$> filter (fun x => 0 < pin_count x) (drop i (entries c))).
Proof.
  induction fuel as [|fuel IH]; intros c g i Hi Hh Hf; cbn [drop_from].
  { exists c, []. rewrite add_effs_nil, take_ge, drop_ge, app_nil_r by lia. done. }
  destruct (Nat.leb_spec (length (entries c)) i) as [Hle|Hlt]; [exists c, []; rewrite add_effs_nil, take_ge, drop_ge, app_nil_r by lia; done|].
  destruct (lookup_lt_is_Some_2 _ _ Hlt) as [x Hx]. unfold rd. rewrite Hx. cbn [mbind option_bind]. pose proof (pin_nonneg _ _ _ _ Hi Hx). rewrite (drop_S _ _ _ Hx), filter_cons. destruct (Z.ltb_spec 0 (pin_count x)) as [Hp|Hp].
  - rewrite wr_lt by done. cbn [mbind option_bind]. destruct (IH (set_entries (<[i := set_deferred x]> (entries c)) c) g (S i)) as (c' & eff & -> & Hi' & Hh' & Hfr & He).
    + by apply (inv_touch c g i x).
    + cbn. apply Forall_insert; [done|]. by cbn.
    + cbn. rewrite length_insert. lia.
    + exists c', eff. split_and!; try done. rewrite He. cbn [set_entries entries]. rewrite decide_True by done. cbn [fmap list_fmap].
      rewrite (take_S_r _ _ (set_deferred x)) by (by apply list_lookup_insert_eq). rewrite take_insert_ge, drop_insert_lt by lia. by rewrite <-app_assoc.
  - destruct (remove_ok c g i x Hi Hx ltac:(lia)) as (c1 & e1 & -> & Hi1 & He1 & Hf1 & _). cbn [mbind option_bind].
    destruct (IH c1 (add_effs g e1) i Hi1) as (c' & eff & -> & Hi' & Hh' & Hfr & He).
    + rewrite He1. by apply hidden_delete.
    + rewrite He1, length_delete by (by eexists). lia.
    + cbn [mbind option_bind]. exists c', (e1 ++ eff). rewrite <-add_effs_app. split_and!; [done..|by eapply frame_trans|]. rewrite He, He1, decide_False by lia.
      rewrite delete_take_drop, take_app_le, take_take, Nat.min_id, drop_app_ge, length_take, Nat.min_l, Nat.sub_diag, drop_0 by (rewrite ?length_take; lia). done.
Qed.

Lemma delete_insert_same {A} (l : list A) i y : delete i (<[i := y]> l) = delete i l.
Proof. rewrite !delete_take_drop. by rewrite take_insert_ge, drop_insert_lt by lia. Qed.

(** The epoch pins go; what was hidden and is no longer pinned goes too. *)
Lemma release_from_ok : forall fuel c g i, inv c g -> hidden (entries c) -> (length (entries c) - i <= fuel)%nat ->
  exists c' eff, release_from fuel c i = Some (c', eff) /\ inv c' (add_effs g eff) /\ hidden (entries c') /\
    c_ledger c' = c_ledger c /\ next_identity c' = next_identity c /\ active_pins c' <= active_pins c /\ reclaimer_owner_alive c' = reclaimer_owner_alive c.
Proof.
  induction fuel as [|fuel IH]; intros c g i Hi Hh Hf; cbn [release_from]; [exists c, []; rewrite add_effs_nil; done|].
  destruct (Nat.leb_spec (length (entries c)) i) as [Hle|Hlt]; [exists c, []; rewrite add_effs_nil; done|].
  destruct (lookup_lt_is_Some_2 _ _ Hlt) as [x Hx]. unfold rd. rewrite Hx. cbn [mbind option_bind]. pose proof (inv_at _ _ _ _ Hi Hx) as Hc. destruct (pins_le_active _ _ _ _ _ _ _ Hc) as [Hpa Hep]. pose proof (in_active _ _ Hi).
  set (y := if 0 <? epoch_pin_count x then set_pins (pin_count x - epoch_pin_count x) 0 0 x else x).
  set (c0 := set_active (active_pins c - epoch_pin_count x) (set_entries (<[i := y]> (entries c)) c)).
  assert (Hstep : (if 0 <? epoch_pin_count x then
                     if (pin_count x <? epoch_pin_count x) || (active_pins c <? epoch_pin_count x) then None
                     else l ← wr (entries c) i (set_pins (u32 (pin_count x - epoch_pin_count x)) 0 0 x); Some (set_active (u32 (active_pins c - epoch_pin_count x)) (set_entries l c), set_pins (u32 (pin_count x - epoch_pin_count x)) 0 0 x)
                   else Some (c, x)) = Some (c0, y)).
  { unfold c0, y. destruct (Z.ltb_spec 0 (epoch_pin_count x)) as [He|He]; [|rewrite list_insert_id by done; replace (epoch_pin_count x) with 0 by lia; rewrite Z.sub_0_r; by destruct c].
    rewrite (proj2 (Z.ltb_ge _ _)), (proj2 (Z.ltb_ge _ _)) by lia. cbn [orb]. rewrite !u32_small by mi. rewrite wr_lt by done. done. }
  rewrite Hstep. cbn [mbind option_bind]. clear Hstep.
  assert (Hpy : pin_count y = pin_count x - epoch_pin_count x /\ epoch_pin_count y = 0 /\ same_data x y /\ eviction_deferred y = eviction_deferred x) by (unfold y; destruct (Z.ltb_spec 0 (epoch_pin_count x)); [done|]; split_and!; (done || lia)).
  destruct Hpy as (Hpy & Hey & Hsd & Hdy). assert (Hi0 : inv c0 g).
  { pose proof Hc as [_ [[_ Hee Hpp _ _ _] _]%Forall_cons Hhd _ _ _ _]. pose proof (core_update _ _ _ _ _ x y _ (held g) Hc Hsd (fun _ _ => eq_refl) Hhd ltac:(lia) ltac:(lia)) as H0. destruct Hi as [_ Hn Ht Hnx Ha].
    split; cbn [c0 set_active set_entries entries total_bytes c_ledger next_identity active_pins]; rewrite ?length_insert; try done; [|lia].
    rewrite (insert_perm _ _ x y Hx). replace (active_pins c - epoch_pin_count x) with (active_pins c - Z.of_nat (length (held g)) - epoch_pin_count x + Z.of_nat (length (held g)) + epoch_pin_count y) by lia. by destruct g. }
  assert (Hat : entries c0 !! i = Some y) by (by apply list_lookup_insert_eq). destruct (_ && _) eqn:Hgo.
  - apply andb_true_iff in Hgo as [Hp0%Z.eqb_eq _]. destruct (remove_ok c0 g i y Hi0 Hat Hp0) as (c1 & e1 & -> & Hi1 & He1 & Hf1 & _). cbn [mbind option_bind].
    assert (He1' : entries c1 = delete i (entries c)) by (rewrite He1; cbn; apply delete_insert_same).
    destruct (IH c1 (add_effs g e1) i Hi1) as (c' & eff & -> & Hi' & Hh' & H1 & H2 & H3 & H4); [rewrite He1'; by apply hidden_delete|rewrite He1', length_delete by (by eexists); lia|].
    cbn [mbind option_bind]. exists c', (e1 ++ eff). rewrite <-add_effs_app. destruct Hf1 as (F1 & F2 & F3 & _ & F5). cbn in F1, F2, F3, F5. split_and!; try done; try congruence. lia.
  - destruct (IH c0 g (S i) Hi0) as (c' & eff & -> & Hi' & Hh' & H1 & H2 & H3 & H4).
    + cbn. apply Forall_insert; [done|]. rewrite Hdy. intros Hd. rewrite Hdy, Hd, andb_true_r in Hgo. apply Z.eqb_neq in Hgo. lia.
    + cbn. rewrite length_insert. lia.
    + exists c', eff. cbn in H1, H2, H3, H4. split_and!; try done. lia.
Qed.

Lemma evict_until_ok target : forall fuel c g, inv c g -> hidden (entries c) -> (length (entries c) <= fuel)%nat ->
  exists c' eff, evict_until_from fuel c target = Some (c', eff) /\ inv c' (add_effs g eff) /\ hidden (entries c') /\ frame c c' /\
    (total_bytes c' < target \/ Forall (fun x => 0 < pin_count x) (entries c')).
Proof.
  induction fuel as [|fuel IH]; intros c g Hi Hh Hf; cbn [evict_until_from].
  { exists c, []. rewrite add_effs_nil. split_and!; [done..|]. right. destruct (entries c); [constructor|cbn in Hf; lia]. }
  destruct (_ && _) eqn:Hgo.
  - destruct (evict_ok c g Hi Hh) as (c1 & e1 & b & -> & Hi1 & Hh1 & Hf1 & _ & [(-> & Hlt & _)|(-> & -> & -> & Hall)]); cbn [mbind option_bind negb].
    + destruct (IH c1 (add_effs g e1) Hi1 Hh1 ltac:(lia)) as (c' & eff & -> & Hi' & Hh' & Hfr & Hend). cbn [mbind option_bind]. exists c', (e1 ++ eff). rewrite <-add_effs_app. split_and!; [done..|by eapply frame_trans|done].
    + exists c, []. rewrite add_effs_nil. split_and!; [done..|by right].
  - exists c, []. rewrite add_effs_nil. split_and!; [done..|]. apply andb_false_iff in Hgo as [Hz|Hz%Z.leb_gt]; [right|by left]. destruct (entries c); [constructor|done].
Qed.

Lemma make_room_ok full : forall fuel c g, inv c g -> hidden (entries c) -> (length (entries c) < fuel)%nat ->
  exists c' eff b, make_room fuel c full = Some (c', eff, b) /\ inv c' (add_effs g eff) /\ hidden (entries c') /\ frame c c' /\ total_bytes c' <= total_bytes c /\ (length (entries c') <= length (entries c))%nat /\
    full c' = negb b /\ (b = false -> Forall (fun x => 0 < pin_count x) (entries c')).
Proof.
  induction fuel as [|fuel IH]; intros c g Hi Hh Hf; [lia|]. cbn [make_room]. destruct (full c) eqn:Hfull; [|exists c, [], true; rewrite add_effs_nil; split_and!; (done || lia)].
  destruct (evict_ok c g Hi Hh) as (c1 & e1 & b & -> & Hi1 & Hh1 & Hf1 & Ht1 & [(-> & Hlt & _)|(-> & -> & -> & Hall)]); cbn [mbind option_bind negb].
  - destruct (IH c1 (add_effs g e1) Hi1 Hh1 ltac:(lia)) as (c' & eff & b & -> & Hi' & Hh' & Hfr & Ht & Hl & Hend & Hall). cbn [mbind option_bind]. exists c', (e1 ++ eff), b. rewrite <-add_effs_app. split_and!; [done..|by eapply frame_trans|lia|lia|done|done].
  - exists c, [], false. rewrite add_effs_nil. split_and!; (done || lia).
Qed.

(** ** Lookup *)

(** A relation that the cache may be given or asked about. *)
Record obj_ok (o : robj) : Prop := {
  oo_readable : readable (o_rel o);
  oo_bytes : Z.of_nat (nrows (o_rel o)) * Z.of_nat (ncols (o_rel o)) * 8 <= 2 ^ 62;
  oo_transport : 0 <= transport_bytes o }.

Lemma hash_cells_ok x : forall n j h, (j + n <= length x)%nat -> is_Some (hash_cells n x j h).
Proof. induction n as [|n IH]; intros j h Hj; cbn [hash_cells]; [by eexists|]. destruct (lookup_lt_is_Some_2 x j ltac:(lia)) as [v Hv]. unfold rd. rewrite Hv. cbn [mbind option_bind]. apply IH. lia. Qed.

Lemma hash_prefix_ok r : readable r -> forall n i h, (i + n <= nrows r)%nat -> is_Some (hash_rows n r i h).
Proof.
  intros Hr. induction n as [|n IH]; intros i h Hi; cbn [hash_rows]; [by eexists|]. destruct (stored_row r Hr i ltac:(lia)) as [Hx Hl]. unfold rd. rewrite Hx. cbn [mbind option_bind].
  destruct (hash_cells_ok (stored r !!! i) (ncols r) 0 h ltac:(lia)) as [h' ->]. cbn [mbind option_bind]. apply IH. lia.
Qed.

Lemma key_content_ok o : obj_ok o -> exists h, col_mat_cache_key_content (o_rel o) = Some h.
Proof.
  intros Ho. unfold col_mat_cache_key_content. destruct (_ =? _)%nat; [by eexists|]. destruct (hash_prefix_ok _ (oo_readable _ Ho) (Nat.min (nrows (o_rel o)) 100) 0 14695981039346656037 ltac:(lia)) as [h ->]. by eexists.
Qed.

Lemma find_hit_ok test l : forall i, match find_hit l test i with Some j => exists x, (i <= j)%nat /\ l !! (j - i)%nat = Some x /\ test x = true | None => Forall (fun x => test x = false) l end.
Proof.
  induction l as [|x l IH]; intros i; cbn [find_hit]; [constructor|]. destruct (test x) eqn:Hx; [exists x; rewrite Nat.sub_diag; done|].
  specialize (IH (S i)). destruct (find_hit l test (S i)) as [j|]; [|by constructor]. destruct IH as (y & Hij & Hy & Ht). exists y. split_and!; [lia| |done]. destruct (j - i)%nat eqn:E; [lia|]. cbn. by replace n with (j - S i)%nat by lia.
Qed.

(** Whom a result was computed for. *)
Definition computed_for (g : ghost) (left right o : robj) : Prop :=
  exists ls rs, (ls, rs, o) ∈ log g /\ snapshot_equal ls (o_snapshot left) = true /\ snapshot_equal rs (o_snapshot right) = true.

Lemma hit_computed c g i x lh rh left right : inv c g -> entries c !! i = Some x -> hit lh rh (o_snapshot left) (o_snapshot right) x = true -> exists o, result x = Some o /\ computed_for g left right o.
Proof.
  intros Hi Hx Hh. unfold hit in Hh. repeat (apply andb_true_iff in Hh as [Hh ?]).
  destruct (proj1 (Forall_forall _ _) (co_entries _ _ _ _ _ _ (in_core _ _ Hi)) x) as [_ _ _ _ _ (o & Ho & Hin)]; [by eapply list_elem_of_lookup_2|]. exists o. split; [done|]. by exists (left_snapshot x), (right_snapshot x).
Qed.

(** The entry's pins and the active pins change together. *)
Lemma inv_pins c g i x y h a : inv c g -> entries c !! i = Some x -> same_data x y -> 
  (forall j, j <> identity x -> occ j h.*1 = occ j (held g).*1) -> Forall (fun p => Exists (pins p) (entries c)) h ->
  0 <= epoch_pin_count y -> pin_count y = occ (identity x) h.*1 + epoch_pin_count y ->
  a = active_pins c - Z.of_nat (length (held g)) - epoch_pin_count x + Z.of_nat (length h) + epoch_pin_count y -> a <= UINT32_MAX ->
  inv (set_active a (set_entries (<[i := y]> (entries c)) c)) (Gh h (log g) (effs g)).
Proof.
  intros Hi Hx Hs Hocc Hin He Hp -> Ha. pose proof (inv_at _ _ _ _ Hi Hx) as Hc. destruct Hi as [_ Hn Ht Hnx _]. split; cbn [set_active set_entries entries total_bytes c_ledger next_identity active_pins]; rewrite ?length_insert; try done.
  rewrite (insert_perm _ _ x y Hx). apply core_update; try done. eapply Forall_impl; [exact Hin|]. intros p Hpe. eapply Permutation_Exists; [|exact Hpe]. by apply delete_Permutation.
Qed.

Lemma lookup_pin_ok c g left right : inv c g -> hidden (entries c) -> obj_ok left -> obj_ok right -> active_pins c < UINT32_MAX ->
  exists c' res, col_mat_cache_lookup_pin c left right = Some (c', res) /\ hidden (entries c') /\ c_ledger c' = c_ledger c /\ next_identity c' = next_identity c /\ active_pins c' <= active_pins c + 1 /\ reclaimer_owner_alive c' = reclaimer_owner_alive c /\
    match res with None => inv c' g | Some (o, p) => inv c' (Gh ((p, o) :: held g) (log g) (effs g)) /\ computed_for g left right o end.
Proof.
  intros Hi Hh Hl Hr Ha. unfold col_mat_cache_lookup_pin. destruct (key_content_ok _ Hl) as [lh ->]. destruct (key_content_ok _ Hr) as [rh ->]. cbn [mbind option_bind].
  pose proof (find_hit_ok (hit lh rh (o_snapshot left) (o_snapshot right)) (entries c) 0) as Hf. destruct (find_hit _ _ _) as [i|].
  2: { exists (count_miss c), None. split_and!; try done; [cbn; lia|]. by destruct Hi. }
  destruct Hf as (x & _ & Hx & Hhit). rewrite Nat.sub_0_r in Hx. pose proof (lookup_lt_Some _ _ _ Hx) as Hlt. unfold rd. rewrite Hx. cbn [mbind option_bind]. rewrite (proj2 (Z.ltb_lt _ _) Ha). cbn [negb]. rewrite wr_lt by done. cbn [mbind option_bind].
  destruct (hit_computed c g i x lh rh left right Hi Hx Hhit) as (o & Ho & Hcomp). rewrite Ho. cbn [mbind option_bind]. pose proof (inv_at _ _ _ _ Hi Hx) as Hc. destruct (pins_le_active _ _ _ _ _ _ _ Hc) as [Hpa Hep]. pose proof Hc as [_ [Hex _]%Forall_cons _ _ _ _ _]. destruct Hex as [_ _ Hpin _ _ _].
  rewrite (u32_small (pin_count x + 1)), (u32_small (active_pins c + 1)) by mi. set (t := u64 _). set (y := set_clock t _). eexists _, _. split; [done|]. cbn [count_hit set_active set_entries entries c_ledger next_identity active_pins reclaimer_owner_alive]. split_and!; try done; try lia.
  - apply Forall_insert; [done|]. intros _. unfold y. cbn. lia.
  - enough (H : inv (set_active (active_pins c + 1) (set_entries (<[i := y]> (entries c)) c)) (Gh ((identity x, o) :: held g) (log g) (effs g))) by (by destruct H).
    apply (inv_pins c g i x y); try done; unfold y; cbn [set_clock set_pins epoch_pin_count pin_count fmap list_fmap fst length].
    + intros j Hj. by rewrite occ_cons, decide_False.
    + constructor; [|apply (co_held _ _ _ _ _ _ (in_core _ _ Hi))]. apply Exists_exists. exists x. split; [by eapply list_elem_of_lookup_2|done].
    + lia.
    + rewrite occ_cons, decide_True by done. lia.
    + lia.
    + lia.
Qed.

Lemma cache_lookup_ok c g left right : inv c g -> hidden (entries c) -> obj_ok left -> obj_ok right -> active_pins c < UINT32_MAX ->
  exists c' res, col_mat_cache_lookup c left right = Some (c', res) /\ hidden (entries c') /\ c_ledger c' = c_ledger c /\ next_identity c' = next_identity c /\ active_pins c' <= active_pins c + 1 /\ reclaimer_owner_alive c' = reclaimer_owner_alive c /\ inv c' g /\
    match res with None => True | Some o => computed_for g left right o end.
Proof.
  intros Hi0 Hh0 Hl Hr Ha0. unfold col_mat_cache_lookup. destruct (key_content_ok _ Hl) as [lh ->]. destruct (key_content_ok _ Hr) as [rh ->]. cbn [mbind option_bind].
  set (c1 := if pin_epoch c =? 0 then set_epoch 1 c else c). assert (Hi : inv c1 g) by (unfold c1; destruct (_ =? _); [by destruct Hi0|done]). assert (Hsame : entries c1 = entries c /\ c_ledger c1 = c_ledger c /\ next_identity c1 = next_identity c /\ active_pins c1 = active_pins c /\ reclaimer_owner_alive c1 = reclaimer_owner_alive c) by (unfold c1; by destruct (_ =? _)).
  clearbody c1. destruct Hsame as (He & H1 & H2 & H3 & H4). rewrite <-H1, <-H2, <-H3, <-H4. rewrite <-H3 in Ha0. rewrite <-He in Hh0. clear He H1 H2 H3 H4 Hi0.
  pose proof (find_hit_ok (hit lh rh (o_snapshot left) (o_snapshot right)) (entries c1) 0) as Hf. destruct (find_hit _ _ _) as [i|].
  2: { exists (count_miss c1), None. split_and!; try done; [cbn; lia|]. by destruct Hi. }
  destruct Hf as (x & _ & Hx & Hhit). rewrite Nat.sub_0_r in Hx. pose proof (lookup_lt_Some _ _ _ Hx) as Hlt. unfold rd. rewrite Hx. cbn [mbind option_bind]. rewrite (proj2 (Z.ltb_lt _ _) Ha0). cbn [negb]. rewrite andb_false_r. rewrite wr_lt by done. cbn [mbind option_bind].
  destruct (hit_computed c1 g i x lh rh left right Hi Hx Hhit) as (o & Ho & Hcomp). rewrite Ho. pose proof (inv_at _ _ _ _ Hi Hx) as Hc. destruct (pins_le_active _ _ _ _ _ _ _ Hc) as [Hpa Hep]. pose proof Hc as [_ [Hex _]%Forall_cons _ _ _ _ _]. destruct Hex as [_ _ Hpin _ _ _].
  set (t := u64 _). set (pin := _ && _ && _). eexists _, _. split; [done|]. cbn [count_hit set_active set_entries entries c_ledger next_identity active_pins reclaimer_owner_alive].
  set (y := set_clock t _). set (a := if pin then u32 _ else _). assert (Hy : same_data x y /\ pin_count y = pin_count x + (if pin then 1 else 0) /\ epoch_pin_count y = epoch_pin_count x + (if pin then 1 else 0) /\ a = active_pins c1 + (if pin then 1 else 0) /\ eviction_deferred y = eviction_deferred x).
  { unfold y, a. destruct pin; cbn [set_clock set_pins epoch_pin_count pin_count eviction_deferred]; rewrite ?u32_small by mi; split_and!; try done; lia. }
  destruct Hy as (Hsd & Hpy & Hey & Haa & Hdy). split_and!; try done; [|rewrite Haa; destruct pin; lia|].
  - apply Forall_insert; [done|]. rewrite Hdy. pose proof (proj1 (Forall_forall _ _) Hh0 x ltac:(by eapply list_elem_of_lookup_2)) as Hx'. cbn beta in Hx'. intros Hd. specialize (Hx' Hd). destruct pin; lia.
  - enough (H : inv (set_active a (set_entries (<[i := y]> (entries c1)) c1)) (Gh (held g) (log g) (effs g))) by (by destruct H, g).
    apply (inv_pins c1 g i x y); try done; [apply (co_held _ _ _ _ _ _ (in_core _ _ Hi))|destruct pin; lia|lia|lia|destruct pin; lia].
Qed.

(** ** Release *)

Lemma held_entry c g k p : inv c g -> held g !! k = Some p -> exists i x, find_hit (entries c) (fun x => identity x =? p.1) 0 = Some i /\ entries c !! i = Some x /\ identity x = p.1 /\ result x = Some p.2.
Proof.
  intros Hi Hk. pose proof (proj1 (Forall_forall _ _) (co_held _ _ _ _ _ _ (in_core _ _ Hi)) p ltac:(by eapply list_elem_of_lookup_2)) as (x & Hx & Hid & Hr)%Exists_exists.
  pose proof (find_hit_ok (fun x => identity x =? p.1) (entries c) 0) as Hf. destruct (find_hit _ _ _) as [i|].
  - destruct Hf as (y & _ & Hy & Hyp%Z.eqb_eq). rewrite Nat.sub_0_r in Hy. exists i, y. split_and!; [done..|]. apply list_elem_of_lookup in Hx as [j Hx].
    assert (Hij : i = j) by (eapply NoDup_lookup; [apply (co_ids _ _ _ _ _ _ (in_core _ _ Hi))|rewrite list_lookup_fmap, Hy; cbn; by rewrite Hyp|rewrite list_lookup_fmap, Hx; cbn; by rewrite Hid]). subst j. rewrite Hy in Hx. by injection Hx as ->.
  - pose proof (proj1 (Forall_forall _ _) Hf x Hx) as Hne. cbn beta in Hne. by rewrite Hid, Z.eqb_refl in Hne.
Qed.

Lemma pin_release_ok c g k p : inv c g -> hidden (entries c) -> held g !! k = Some p ->
  exists c' eff, col_mat_cache_pin_release c p.1 = Some (c', eff) /\ inv c' (Gh (delete k (held g)) (log g) (effs g ++ eff)) /\ hidden (entries c') /\
    c_ledger c' = c_ledger c /\ next_identity c' = next_identity c /\ active_pins c' = active_pins c - 1 /\ reclaimer_owner_alive c' = reclaimer_owner_alive c.
Proof.
  intros Hi Hh Hk. destruct (held_entry c g k p Hi Hk) as (i & x & Hf & Hx & Hid & Hres). unfold col_mat_cache_pin_release. rewrite Hf. unfold rd. rewrite Hx. cbn [mbind option_bind].
  pose proof (inv_at _ _ _ _ Hi Hx) as Hc. destruct (pins_le_active _ _ _ _ _ _ _ Hc) as [Hpa Hep]. pose proof Hc as [_ [[_ _ Hpin _ _ _] _]%Forall_cons Hheld _ _ _ _]. pose proof (in_active _ _ Hi) as Hmax. pose proof (lookup_lt_Some _ _ _ Hx) as Hlt.
  assert (Hperm : held g ≡ₚ p :: delete k (held g)) by (by apply delete_Permutation). assert (Hocc : forall j, occ j (held g).*1 = (if decide (p.1 = j) then 1 else 0) + occ j (delete k (held g)).*1) by (intros j; transitivity (occ j (p :: delete k (held g)).*1); [by apply occ_perm, fmap_Permutation|apply occ_cons]).
  rewrite Hocc, decide_True in Hpin by done. pose proof (occ_bounds (identity x) (delete k (held g)).*1). rewrite (proj2 (Z.ltb_lt _ _)) by lia. cbn [negb]. rewrite wr_lt by done. cbn [mbind option_bind set_pins pin_count eviction_deferred].
  rewrite (u32_small (pin_count x - 1)) by mi. set (y := set_pins (pin_count x - 1) _ _ x). assert (Hlen : Z.of_nat (length (held g)) = 1 + Z.of_nat (length (delete k (held g)))) by (rewrite (Permutation_length Hperm); cbn [length]; lia).
  assert (Hi1 : inv (set_active (active_pins c - 1) (set_entries (<[i := y]> (entries c)) c)) (Gh (delete k (held g)) (log g) (effs g))).
  { apply (inv_pins c g i x y); try done; unfold y; cbn [set_pins epoch_pin_count pin_count]; [| |lia|lia|lia|lia].
    - intros j Hj. rewrite (Hocc j), decide_False by congruence. done.
    - apply Forall_delete, (co_held _ _ _ _ _ _ (in_core _ _ Hi)). }
  destruct (Z.eqb_spec (pin_count x - 1) 0) as [H0|H0]; cbn [andb]; [destruct (eviction_deferred x) eqn:Hd|].
  - destruct (remove_ok _ _ i y Hi1) as (c1 & eff & Hrm & Hi2 & He2 & Hfr & _); [by apply list_lookup_insert_eq|done|].
    assert (Hrm' : mat_cache_remove_at (set_entries (<[i := y]> (entries c)) c) i = Some (set_active (active_pins c) c1, eff)).
    { unfold mat_cache_remove_at in Hrm |- *. cbn [set_active set_entries entries] in Hrm |- *. destruct (rd _ i); [|done]. cbn [mbind option_bind] in Hrm |- *. destruct (negb _); [done|]. injection Hrm as <- <-. done. }
    rewrite Hrm'. cbn [mbind option_bind set_active active_pins]. rewrite (proj2 (Z.ltb_lt _ _)) by lia. cbn [negb]. rewrite u32_small by mi. eexists _, _. split; [done|]. destruct Hfr as (F1 & F2 & F3 & _ & F5). cbn in F1, F2, F3, F5.
    cbn [set_active entries c_ledger next_identity active_pins reclaimer_owner_alive]. split_and!; try done.
    + destruct Hi2 as [G1 G2 G3 G4 G5]. unfold add_effs in G1. cbn [held log effs] in G1. split; cbn [set_active entries c_ledger next_identity active_pins total_bytes]; try done; [|lia]. by rewrite <-F3.
    + rewrite He2. cbn [set_active set_entries entries]. rewrite delete_insert_same. by apply hidden_delete.
  - cbn [mbind option_bind]. cbn [set_entries active_pins]. rewrite (proj2 (Z.ltb_lt _ _)) by lia. cbn [negb]. rewrite u32_small by mi. eexists _, _. split; [done|]. rewrite app_nil_r. split_and!; try done. cbn. apply Forall_insert; [done|]. cbn. by rewrite Hd.
  - cbn [mbind option_bind]. cbn [set_entries active_pins]. rewrite (proj2 (Z.ltb_lt _ _)) by lia. cbn [negb]. rewrite u32_small by mi. eexists _, _. split; [done|]. rewrite app_nil_r. split_and!; try done. cbn. apply Forall_insert; [done|]. cbn. intros _. lia.
Qed.

(** ** Insertion *)

Lemma insert_pin_ok c g left right o pin : inv c g -> hidden (entries c) -> obj_ok left -> obj_ok right -> obj_ok o -> active_pins c < UINT32_MAX -> next_identity c < UINT32_MAX ->
  exists c' rc p eff, col_mat_cache_insert_pin c left right o pin = Some (c', rc, p, eff) /\ hidden (entries c') /\ c_ledger c' = c_ledger c /\ next_identity c' <= next_identity c + 1 /\ active_pins c' <= active_pins c + 1 /\ reclaimer_owner_alive c' = reclaimer_owner_alive c /\
    let stored_obj := if c_ledger c then detached o else o in
    ((rc = 0 /\ p = (if pin then Some (next_identity c') else None) /\
      inv c' (Gh ((if pin then [(next_identity c', stored_obj)] else []) ++ held g) (log g ++ [(o_snapshot left, o_snapshot right, stored_obj)]) (effs g ++ eff))) \/
     (rc = ENOSPC /\ p = None /\ inv c' (add_effs g eff) /\ Forall (fun x => 0 < pin_count x) (entries c'))).
Proof.
  intros Hi Hh Hl Hr Ho Ha Hn. unfold col_mat_cache_insert_pin. set (bytes := result_bytes (o_rel o)).
  assert (Hb : 0 <= bytes <= 2 ^ 62). { unfold bytes, result_bytes. destruct (_ && _); [|lia]. pose proof (oo_bytes _ Ho). assert (0 <= Z.of_nat (nrows (o_rel o)) * Z.of_nat (ncols (o_rel o))) by nia. rewrite (u64_small (Z.of_nat _ * _)), u64_small by mi. lia. }
  destruct (make_room_ok (over_limit bytes) (S (length (entries c))) c g Hi Hh ltac:(lia)) as (c1 & e1 & b1 & -> & Hi1 & Hh1 & Hf1 & Ht1 & Hl1 & Hb1 & Hall1). cbn [mbind option_bind].
  pose proof Hf1 as (L1 & N1 & A1 & P1 & R1). destruct b1; cbn [negb].
  2: { eexists _, _, _, _. split; [done|]. split_and!; try done; [lia|lia|]. right. split_and!; try done. by apply Hall1. }
  destruct (make_room_ok at_capacity (S (length (entries c1))) c1 _ Hi1 Hh1 ltac:(lia)) as (c2 & e2 & b2 & -> & Hi2 & Hh2 & Hf2 & Ht2 & Hl2 & Hb2 & Hall2). cbn [mbind option_bind]. rewrite add_effs_app in Hi2.
  pose proof (frame_trans _ _ _ Hf1 Hf2) as (L2 & N2 & A2 & P2 & R2). destruct b2; cbn [negb].
  2: { eexists _, _, _, _. split; [done|]. split_and!; try done; [lia|lia|]. right. split_and!; try done. by apply Hall2. }
  destruct (key_content_ok _ Hl) as [lh ->]. destruct (key_content_ok _ Hr) as [rh ->]. cbn [mbind option_bind]. rewrite A2, (proj2 (Z.ltb_lt _ _) Ha), andb_false_r. rewrite N2, L2.
  assert (Hid : next_id (next_identity c) = next_identity c + 1). { unfold next_id. pose proof (in_next _ _ Hi). rewrite u64_small by mi. by rewrite (proj2 (Z.eqb_neq _ _)) by lia. }
  rewrite Hid. set (x := Ment _ _ _ _ _ _ _ _ _ _ _ _ _ _ _ _). set (eff3 := if c_ledger c then _ else _). eexists _, _, _, _. split; [done|]. cbn [entries c_ledger next_identity active_pins reclaimer_owner_alive].
  pose proof (total_small _ _ Hi2) as Hts. assert (Hroom : (length (entries c2) = 0)%nat \/ total_bytes c2 + bytes <= COL_MAT_CACHE_LIMIT_BYTES).
  { cbn [negb] in Hb1. unfold over_limit in Hb1. pose proof (total_small _ _ Hi1). rewrite u64_small in Hb1 by mi. apply andb_false_iff in Hb1 as [Hz%Nat.ltb_ge|Hz%Z.ltb_ge]; [left; lia|right; lia]. }
  assert (Hcap : (length (entries c2) < COL_MAT_CACHE_MAX)%nat) by (cbn [negb] in Hb2; by apply Nat.leb_gt in Hb2).
  assert (Ha0 : 0 <= active_pins c) by (pose proof (in_core _ _ Hi) as [_ Hes _ -> _ _ _]; pose proof (zsum_nonneg epoch_pin_count (entries c) ltac:(eapply Forall_impl; [exact Hes|by intros ? []])); lia).
  rewrite (u32_small (active_pins c + 1)) by mi. rewrite (u64_small (total_bytes c2 + bytes)) by mi.
  split; [by apply Forall_app; split; [|constructor; [|constructor]]|]. split; [done|]. split; [lia|]. split; [destruct pin; lia|]. split; [done|]. left. split_and!; [done|done|].
  set (h := if pin then [(next_identity c + 1, if c_ledger c then detached o else o)] else []). pose proof (in_core _ _ Hi2) as Hc2. rewrite L2, N2, A2 in Hc2. cbn [add_effs held log effs] in Hc2.
  assert (Heff3 : gone eff3 = [] /\ told eff3 = ledger_bytes x). { unfold eff3, x. cbn [ledger_bytes]. pose proof (oo_transport _ Ho). destruct (c_ledger c), (o_ledger o); try done; destruct (Z.ltb_spec 0 (transport_bytes o)); cbn; split; (done || lia). }
  pose proof (core_insert _ _ _ _ _ _ x (if c_ledger c then detached o else o) eff3 h Hc2) as Hins. cbn [identity result mem_bytes ledger_bytes epoch_pin_count pin_count left_snapshot right_snapshot x held log effs] in Hins.
  split; cbn [entries total_bytes c_ledger next_identity active_pins]; [|rewrite length_app; cbn [length]; lia|rewrite length_app; cbn [length]; destruct Hroom; [right; lia|left; lia]|pose proof (in_next _ _ Hi); lia|destruct pin; lia].
  replace (if pin then active_pins c + 1 else active_pins c) with (active_pins c + Z.of_nat (length h)) by (unfold h; destruct pin; cbn; lia). replace (effs g ++ e1 ++ e2 ++ eff3) with ((effs g ++ e1 ++ e2) ++ eff3) by (by rewrite <-!app_assoc).
  apply Hins; try done; [lia|pose proof (oo_transport _ Ho); by destruct (c_ledger c)|unfold h; destruct pin; [by right|by left]|apply (in_next _ _ Hi)|unfold h; by destruct pin|apply Heff3|apply Heff3].
Qed.


(** ** Reclaiming *)

Lemma reclaim_entry_ok c g i gen : inv c g -> hidden (entries c) ->
  exists c' n eff, col_mat_cache_reclaim_entry c i gen = Some (c', n, eff) /\ inv c' (add_effs g eff) /\ hidden (entries c') /\ frame c c' /\ ((n.2 = 0 /\ c' = c) \/ (n.2 = 1 /\ (length (entries c') < length (entries c))%nat)).
Proof.
  intros Hi Hh. unfold col_mat_cache_reclaim_entry. destruct (entries c !! i) as [x|] eqn:Hx; [|exists c, (0, 0), []; rewrite add_effs_nil; split_and!; [done..|by left]].
  destruct (_ || _) eqn:Hno; [exists c, (0, 0), []; rewrite add_effs_nil; split_and!; [done..|by left]|]. apply orb_false_iff in Hno as [[_ Hr%negb_false_iff]%orb_false_iff Hp%negb_false_iff%Z.eqb_eq].
  apply bool_decide_eq_true in Hr as [o Ho]. rewrite Ho. cbn [mbind option_bind]. destruct (remove_ok c g i x Hi Hx Hp) as (c' & eff & -> & Hi' & He & Hfr & _). cbn [mbind option_bind]. exists c', (transport_bytes o, 1), eff. rewrite He. split_and!; [done..|by apply hidden_delete|done|right].
  split; [done|]. rewrite length_delete by (by eexists). pose proof (lookup_lt_Some _ _ _ Hx). lia.
Qed.

Lemma reclaim_from_ok : forall fuel c g i t, inv c g -> hidden (entries c) -> exists c' n eff, reclaim_from fuel c i t = Some (c', n, eff) /\ inv c' (add_effs g eff) /\ hidden (entries c') /\ frame c c'.
Proof.
  induction fuel as [|fuel IH]; intros c g i t Hi Hh; cbn [reclaim_from]; [exists c, t, []; by rewrite add_effs_nil|].
  destruct (entries c !! i) as [x|]; [|exists c, t, []; by rewrite add_effs_nil]. destruct (reclaim_entry_ok c g i (generation x) Hi Hh) as (c1 & n & e1 & -> & Hi1 & Hh1 & Hf1 & Hn). cbn [mbind option_bind]. destruct (Z.ltb_spec 0 n.2).
  - destruct (IH c1 _ i (u64 (t.1 + n.1), u32 (t.2 + n.2)) Hi1 Hh1) as (c' & n' & e2 & -> & Hi' & Hh' & Hf'). cbn [mbind option_bind]. eexists _, _, _. split; [done|]. rewrite <-add_effs_app. split_and!; [done..|by eapply frame_trans].
  - destruct Hn as [[_ ->]|[Hn _]]; [|lia]. by apply IH.
Qed.

(** ** Sequences of operations *)

Inductive op :=
  | Lookup (left right : robj)
  | LookupPin (left right : robj)
  | Release (k : nat)
  | Insert (left right o : robj) (pin : bool)
  | Clear
  | Truncate (keep : nat)
  | EvictUntil (target : Z)
  | ReleasePins
  | Reclaim
  | ReclaimEntry (i : nat) (expected : Z).

Definition with_effs (g : ghost) (res : option (cache * list effect)) : option (cache * ghost) := '(c, eff) ← res; Some (c, add_effs g eff).

(** [Release k] gives the [k]-th pin that is held back. *)
Definition exec (c : cache) (g : ghost) (o : op) : option (cache * ghost) :=
  match o with
  | Lookup l r => '(c, _) ← col_mat_cache_lookup c l r; Some (c, g)
  | LookupPin l r => '(c, res) ← col_mat_cache_lookup_pin c l r; Some (c, match res with Some (o, p) => Gh ((p, o) :: held g) (log g) (effs g) | None => g end)
  | Release k => match held g !! k with
                 | None => Some (c, g)
                 | Some p => '(c, eff) ← col_mat_cache_pin_release c p.1; Some (c, Gh (delete k (held g)) (log g) (effs g ++ eff))
                 end
  | Insert l r o pin =>
      let obj := if c_ledger c then detached o else o in
      '(c, rc, p, eff) ← col_mat_cache_insert_pin c l r o pin;
      Some (c, if rc =? 0 then Gh (match p with Some p => [(p, obj)] | None => [] end ++ held g) (log g ++ [(o_snapshot l, o_snapshot r, obj)]) (effs g ++ eff) else add_effs g eff)
  | Clear => with_effs g (col_mat_cache_clear c)
  | Truncate n => with_effs g (col_mat_cache_truncate c n)
  | EvictUntil t => with_effs g (col_mat_cache_evict_until c t)
  | ReleasePins => with_effs g (col_mat_cache_release_pins c)
  | Reclaim => '(c, _, eff) ← mat_cache_reclaimer c; Some (c, add_effs g eff)
  | ReclaimEntry i e => '(c, _, eff) ← col_mat_cache_reclaim_entry c i e; Some (c, add_effs g eff)
  end.

Fixpoint run (ops : list op) (c : cache) (g : ghost) : option (cache * ghost) :=
  match ops with [] => Some (c, g) | o :: ops' => '(c, g) ← exec c g o; run ops' c g end.

Definition proper (o : op) : Prop :=
  match o with Lookup l r | LookupPin l r => obj_ok l /\ obj_ok r | Insert l r o _ => obj_ok l /\ obj_ok r /\ obj_ok o | _ => True end.

Record good (n : Z) (c : cache) (g : ghost) : Prop := {
  go_inv : inv c g;
  go_hidden : hidden (entries c);
  go_active : active_pins c <= n;
  go_next : next_identity c <= n }.

Lemma framed_good n c c' g g' : good n c g -> inv c' g' -> hidden (entries c') -> frame c c' -> good (n + 1) c' g'.
Proof. intros [] Hi Hh (_ & Hn & Ha & _). split; [done|done|lia|lia]. Qed.

Lemma exec_ok n c g o : good n c g -> n < UINT32_MAX -> proper o -> exists c' g', exec c g o = Some (c', g') /\ good (n + 1) c' g'.
Proof.
  intros Hgood Hn Ho. pose proof Hgood as [Hi Hh Ha Hx]. destruct o as [l r|l r|k|l r o pin| |keep|target| | |i e]; cbn [exec].
  - destruct (cache_lookup_ok c g l r Hi Hh (proj1 Ho) (proj2 Ho) ltac:(lia)) as (c' & res & -> & Hh' & _ & Hn' & Ha' & _ & Hi' & _). cbn [mbind option_bind]. eexists _, _. split; [done|]. split; (done || lia).
  - destruct (lookup_pin_ok c g l r Hi Hh (proj1 Ho) (proj2 Ho) ltac:(lia)) as (c' & res & -> & Hh' & _ & Hn' & Ha' & _ & Hi'). cbn [mbind option_bind]. eexists _, _. split; [done|]. split; try (done || lia). by destruct res as [[]|]; [apply Hi'|].
  - destruct (held g !! k) as [p|] eqn:Hk; [|eexists _, _; split; [done|]; split; (done || lia)]. destruct (pin_release_ok c g k p Hi Hh Hk) as (c' & eff & -> & Hi' & Hh' & _ & Hn' & Ha' & _). cbn [mbind option_bind]. eexists _, _. split; [done|]. split; (done || lia).
  - destruct Ho as (Hl & Hr & Ho). destruct (insert_pin_ok c g l r o pin Hi Hh Hl Hr Ho ltac:(lia) ltac:(lia)) as (c' & rc & p & eff & -> & Hh' & _ & Hn' & Ha' & _ & Hres). cbn [mbind option_bind]. eexists _, _. split; [done|]. split; try (done || lia).
    destruct Hres as [(-> & -> & Hi')|(-> & -> & Hi' & _)]; cbn [Z.eqb ENOSPC Ledger.ENOSPC]; [by destruct pin|done].
  - destruct (drop_from_ok (length (entries c)) c g 0 Hi Hh ltac:(lia)) as (c' & eff & He & Hi' & Hh' & Hf & _). unfold col_mat_cache_clear. rewrite He. eexists _, _. split; [done|]. by eapply framed_good.
  - unfold col_mat_cache_truncate. destruct (_ <=? _)%nat; [eexists _, _; split; [done|]; rewrite add_effs_nil; split; (done || lia)|]. destruct (drop_from_ok (length (entries c)) c g keep Hi Hh ltac:(lia)) as (c' & eff & -> & Hi' & Hh' & Hf & _). eexists _, _. split; [done|]. by eapply framed_good.
  - destruct (evict_until_ok target (length (entries c)) c g Hi Hh ltac:(lia)) as (c' & eff & He & Hi' & Hh' & Hf & _). unfold col_mat_cache_evict_until. rewrite He. eexists _, _. split; [done|]. by eapply framed_good.
  - destruct (release_from_ok (length (entries c)) c g 0 Hi Hh ltac:(lia)) as (c' & eff & He & Hi' & Hh' & _ & Hn' & Ha' & _). unfold col_mat_cache_release_pins. rewrite He. cbn [mbind option_bind with_effs]. eexists _, _. split; [done|]. split; cbn; try (done || lia). by destruct Hi'.
  - unfold mat_cache_reclaimer. destruct (negb _); [eexists _, _; split; [done|]; rewrite add_effs_nil; split; (done || lia)|]. destruct (reclaim_from_ok (length (entries c)) c g 0 (0, 0) Hi Hh) as (c' & t & eff & -> & Hi' & Hh' & Hf). cbn [mbind option_bind]. eexists _, _. split; [done|]. by eapply framed_good.
  - destruct (reclaim_entry_ok c g i e Hi Hh) as (c' & t & eff & -> & Hi' & Hh' & Hf & _). cbn [mbind option_bind]. eexists _, _. split; [done|]. by eapply framed_good.
Qed.

Definition no_ghost : ghost := Gh [] [] [].

Lemma empty_good ledger h alive : good 0 (set_reclaimer h alive (empty_cache ledger)) no_ghost.
Proof. split; cbn; try done; [|constructor]. split; cbn; try (done || lia || mi). split; cbn; try done; constructor. Qed.

Lemma cache_run_ok : forall ops n c g, good n c g -> Forall proper ops -> n + Z.of_nat (length ops) <= UINT32_MAX -> exists c' g', run ops c g = Some (c', g') /\ good (n + Z.of_nat (length ops)) c' g'.
Proof.
  induction ops as [|o ops IH]; intros n c g Hg Hp Hn; cbn [run length] in *; [exists c, g; by rewrite Z.add_0_r|]. apply Forall_cons in Hp as [Ho Hp].
  destruct (exec_ok n c g o Hg ltac:(lia) Ho) as (c1 & g1 & -> & Hg1). cbn [mbind option_bind]. destruct (IH (n + 1) c1 g1 Hg1 Hp ltac:(lia)) as (c' & g' & -> & Hg'). exists c', g'. split; [done|]. by replace (n + Z.of_nat (S (length ops))) with (n + 1 + Z.of_nat (length ops)) by lia.
Qed.

(** C14: Whatever fewer than 2^32 operations a cache went through, no assertion
    failed; it holds at most 64 results, and more than 100 MiB only with a single
    one; each pin that is still held has its result in the cache; every result
    that was given to the cache is in it or was destroyed once; the bytes it
    counts, the pins it counts and the charges at the ledger are those of its
    entries. *)
Theorem pinned_results_live ledger h alive ops : Forall proper ops -> Z.of_nat (length ops) <= UINT32_MAX ->
  exists c g, run ops (set_reclaimer h alive (empty_cache ledger)) no_ghost = Some (c, g) /\
    (length (entries c) <= COL_MAT_CACHE_MAX)%nat /\ (total_bytes c <= COL_MAT_CACHE_LIMIT_BYTES \/ (length (entries c) <= 1)%nat) /\
    Forall (fun p => exists x, x ∈ entries c /\ identity x = p.1 /\ result x = Some p.2) (held g) /\
    (log g).*2 ≡ₚ gone (effs g) ++ omap result (entries c) /\
    total_bytes c = zsum mem_bytes (entries c) /\ active_pins c = Z.of_nat (length (held g)) + zsum epoch_pin_count (entries c) /\ told (effs g) = zsum ledger_bytes (entries c).
Proof.
  intros Hp Hn. destruct (cache_run_ok ops 0 _ _ (empty_good ledger h alive) Hp ltac:(lia)) as (c & g & Hrun & [[[_ _ Hh Ha Ht Ho Hto] Hc Hb _ _] _ _ _]). exists c, g. split_and!; try done.
  eapply Forall_impl; [exact Hh|]. intros p Hx. apply Exists_exists in Hx as (x & Hin & H1 & H2). by exists x.
Qed.

(** C15: A lookup of a cache in use finds no result, or one that was given to it
    for inputs with the same identities and generations and is not destroyed yet,
    if no relation was given twice; the result is pinned. *)
Theorem lookup_sound ledger h alive ops c g left right : Forall proper ops -> Z.of_nat (length ops) < UINT32_MAX ->
  run ops (set_reclaimer h alive (empty_cache ledger)) no_ghost = Some (c, g) -> obj_ok left -> obj_ok right ->
  exists c' res, col_mat_cache_lookup_pin c left right = Some (c', res) /\
    match res with
    | None => True
    | Some (o, p) => computed_for g left right o /\ (NoDup (log g).*2 -> o ∉ gone (effs g)) /\ exists x, x ∈ entries c' /\ identity x = p /\ result x = Some o /\ 0 < pin_count x
    end.
Proof.
  intros Hp Hn Hrun Hl Hr. destruct (cache_run_ok ops 0 _ _ (empty_good ledger h alive) Hp ltac:(lia)) as (c1 & g1 & Hrun' & Hgood). rewrite Hrun in Hrun'. injection Hrun' as <- <-. destruct Hgood as [Hi Hh Ha _].
  destruct (lookup_pin_ok c g left right Hi Hh Hl Hr ltac:(lia)) as (c' & res & Heq & Hh' & _ & _ & _ & _ & Hres). exists c', res. split; [done|]. destruct res as [[o p]|]; [|done]. destruct Hres as [Hi' Hcomp]. split; [done|].
  pose proof (in_core _ _ Hi') as [_ Hes Hheld _ _ Hown _]. cbn [held log effs] in *. apply Forall_cons in Hheld as [Hex _]. apply Exists_exists in Hex as (x & Hx & Hid & Hrx). cbn in Hid, Hrx. split.
  - intros Hnd Hgone. rewrite Hown in Hnd. apply NoDup_app in Hnd as (_ & Hdis & _). apply (Hdis o Hgone). apply list_elem_of_omap. by exists x.
  - exists x. split_and!; [done..|]. destruct (proj1 (Forall_forall _ _) Hes x Hx) as [_ He Hpin _ _ _]. cbn [held fmap list_fmap fst] in Hpin. rewrite Hid, occ_cons, decide_True in Hpin by done. pose proof (occ_bounds p (held g).*1). lia.
Qed.

(** ** A run *)

Definition obj (id : Z) (l : list row) : robj := Obj (DeltaSpec.of_rows DeltaSpec.pairs l 0 []) (Snap id 1 1) false false None true 1024.
Definition left_in : robj := obj 1 [[1; 2]; [2; 3]].
Definition right_in : robj := obj 2 [[2; 5]].
Definition joined : robj := obj 3 [[1; 5]].
Definition other : robj := obj 4 [[7; 7]].

Lemma pairs_obj_ok id l : readable (DeltaSpec.of_rows DeltaSpec.pairs l 0 []) -> (length l <= 100)%nat -> obj_ok (obj id l).
Proof. intros Hr Hl. split; [done|unfold obj, DeltaSpec.of_rows, DeltaSpec.pairs; cbn [o_rel lanes ncols nrows]; lia|done]. Qed.

(** A result is pinned, the cache cleared and another result inserted. *)
Definition used_ops : list op := [Insert left_in right_in joined false; LookupPin left_in right_in; Clear; Insert right_in left_in other false].

Lemma used_proper : Forall proper used_ops /\ obj_ok right_in /\ obj_ok left_in.
Proof.
  assert (H1 : obj_ok left_in) by (apply pairs_obj_ok; [split; [split; vm_compute; lia|apply DeltaSpec.int_rows_ok; done]|vm_compute; lia]).
  assert (H2 : obj_ok right_in) by (apply pairs_obj_ok; [split; [split; vm_compute; lia|apply DeltaSpec.int_rows_ok; done]|vm_compute; lia]).
  assert (H3 : obj_ok joined) by (apply pairs_obj_ok; [split; [split; vm_compute; lia|apply DeltaSpec.int_rows_ok; done]|vm_compute; lia]).
  assert (H4 : obj_ok other) by (apply pairs_obj_ok; [split; [split; vm_compute; lia|apply DeltaSpec.int_rows_ok; done]|vm_compute; lia]).
  split; [|done]. unfold used_ops. rewrite !Forall_cons. cbn [proper]. split_and!; (done || constructor).
Qed.

Lemma pinned_results_live_witness : exists c g, run used_ops (set_reclaimer 1 true (empty_cache true)) no_ghost = Some (c, g) /\
  held g = [(1, detached joined)] /\ gone (effs g) = [] /\ omap result (entries c) = [detached joined; detached other] /\ told (effs g) = 2048.
Proof.
  destruct (pinned_results_live true 1 true used_ops) as (c & g & Hrun & _); [apply used_proper|vm_compute; discriminate|]. exists c, g. split; [exact Hrun|].
  vm_compute in Hrun. injection Hrun as <- <-. split_and!; reflexivity.
Defined.

Lemma lookup_sound_witness : exists c g c' o p, run used_ops (set_reclaimer 1 true (empty_cache true)) no_ghost = Some (c, g) /\
  col_mat_cache_lookup_pin c right_in left_in = Some (c', Some (o, p)) /\ o = detached other /\ computed_for g right_in left_in o.
Proof.
  destruct (run used_ops (set_reclaimer 1 true (empty_cache true)) no_ghost) as [[c g]|] eqn:Hrun; [|vm_compute in Hrun; discriminate Hrun].
  destruct (lookup_sound true 1 true used_ops c g right_in left_in) as (c' & res & Hl & Hres); [apply used_proper|vm_compute; reflexivity|exact Hrun|apply used_proper|apply used_proper|].
  assert (Hv : snd <$> col_mat_cache_lookup_pin c right_in left_in = Some (Some (detached other, 2))) by (vm_compute in Hrun; injection Hrun as <- <-; vm_compute; reflexivity).
  rewrite Hl in Hv. injection Hv as ->. destruct Hres as [Hc _]. exists c, g, c', (detached other), 2. split_and!; [reflexivity|exact Hl|reflexivity|exact Hc].
Defined.

(** ** Departures *)

(** The lookup that is documented to return an unpinned result pins it until
    the next release of the epoch's pins. *)
Example diagnostic_lookup_pins :
  ('(c, g) ← run [Insert left_in right_in joined false; Lookup left_in right_in] (empty_cache false) no_ghost; Some (pin_count <$> entries c, active_pins c, held g)) = Some ([1], 1, []).
Proof. vm_compute. reflexivity. Qed.

End MatCacheSpec.
