(* ===== verification/Join.v ===== *)
(** * The join operator (src/wirelog/columnar/join.c)

    JOIN pops its left input, chooses the right one (the full relation or a
    delta), filters it, and emits a row for each pair of rows with equal keys: by
    a table over a relation of one column, by an arrangement, by a table that
    lives as long as the call, or, without keys, by workers.  The relations of
    the session, the arrangements it serves and the answers of its ledger are
    arguments. *)

From S2P Require Import Prelude RadixSort Relation Consolidate StringOps Expr MemLedger EvalStack Filter RowOps HashJoin Arrangement MatCache.

Module Join.

Import Keys Rel Consolidate Expr.Expr EvalStack.EvalStack Filter.Filter RowOps.RowOps HashJoin.HashJoin Arrangement.Arrangement MatCache.MatCache.

(** ** The right input *)

(** A relation of the session. *)
Record srel := Srel { s_rel : rel; s_names : names; s_snapshot : snapshot }.

(** wl_delta_mode_t *)
Inductive delta_mode := DELTA_AUTO | FORCE_DELTA | FORCE_FULL | FORCE_EMPTY | FORCE_EMPTY_AFTER_SEED.

(** What the operator reads of the session. *)
Record session := Sess {
  find_rel : list Z -> option srel;
  current_iteration : Z;
  delta_seeded : bool;
  retraction_seeded : bool;
  retraction_right_pass : bool;
  tdd_outbound_only_active : bool;
  tdd_subpass_active : bool }.

(** snprintf into 256 bytes *)
Definition delta_name (name : list Z) : list Z := take 255 ([36; 100; 36] ++ name).
(** [None]: the buffer is too small. *)
Definition retraction_rel_name (name : list Z) : option (list Z) := if (256 <=? 3 + length name)%nat then None else Some ([36; 114; 36] ++ name).

(** The delta of the retraction pass. *)
Definition find_retraction (s : session) (name : list Z) : option srel := match retraction_rel_name name with Some n => find_rel s n | None => None end.

Definition has_rows (d : option srel) : option srel := match d with Some d => if (0 <? nrows (s_rel d))%nat then Some d else None | None => None end.

(** The choice by mode; [None]: the result is empty. *)
Definition substitute_delta (s : session) (mode : delta_mode) (name : list Z) (left_is_delta : bool) (right : srel) : option (srel * bool) :=
  match mode with
  | FORCE_DELTA =>
      let d := find_rel s (delta_name name) in
      let d := match d with
               | Some _ => d
               | None => if retraction_seeded s && (current_iteration s =? 0) then find_retraction s name else None
               end in
      match has_rows d with
      | Some d => Some (d, true)
      | None => if (0 <? current_iteration s) || delta_seeded s || retraction_seeded s then None else Some (right, false)
      end
  | FORCE_FULL => Some (right, false)
  | _ =>
      let outbound := tdd_outbound_only_active s && (0 <? current_iteration s) in
      if negb left_is_delta || outbound then
        Some (match find_rel s (delta_name name) with
              | Some d =>
                  let n := nrows (s_rel d) in
                  if ((0 <? n)%nat && (n <? nrows (s_rel right))%nat) || ((0 <? n)%nat && tdd_subpass_active s) || outbound then (d, true) else (right, false)
              | None => (right, false)
              end)
      else Some (right, false)
  end.

Definition choose_right (s : session) (mode : delta_mode) (name : list Z) (left_is_delta : bool) (right : srel) : option (srel * bool) :=
  '(r, used) ← substitute_delta s mode name left_is_delta right;
  Some (if negb used && retraction_right_pass s && (current_iteration s =? 0) then
          match has_rows (find_retraction s name) with Some d => (d, true) | None => (r, used) end
        else (r, used)).

(** ** The rows of the output *)

Section Ops.

Context {W : Type} `{!Host W} {K : Type}.

(** The fields of wl_plan_op_t. *)
Record jop := Jo {
  j_op :> join_op;
  right_relation : option (list Z);
  j_mode : delta_mode;
  materialized : bool }.

(** op->project_count > 0 && op->project_indices *)
Definition projection (op : join_op) : option (list nat) := if (0 <? j_project_count op)%nat then j_project_indices op else None.

Definition col_join_output_width (op : join_op) (left right : shape) : nat := match projection op with Some _ => j_project_count op | None => (ncols left + ncols right)%nat end.

(** col_join_set_output_types *)
Definition output_type (left right : shape) (source : nat) : option column_type :=
  if (source <? ncols left)%nat then column_type_at left source
  else if (source - ncols left <? ncols right)%nat then column_type_at right (source - ncols left)
  else Some TYPE_INT64.
Definition output_types (op : join_op) (left right : shape) : option (list column_type) :=
  mapM (fun c => source ← (match projection op with Some l => rd l c | None => Some c end); output_type left right source) (seq 0 (col_join_output_width op left right)).

Definition col_join_pair_value (left : rel) (lr : nat) (right : rel) (rr idx : nat) : option Z :=
  if (idx <? ncols left)%nat then col_rel_get left lr idx
  else if (idx - ncols left <? ncols right)%nat then col_rel_get right rr (idx - ncols left)
  else Some 0.

(** The cells of the pair. *)
Definition pair_row (op : join_op) (left : rel) (lr : nat) (right : rel) (rr : nat) : option row :=
  match projection op with
  | Some l => mapM (fun c => idx ← rd l c; col_join_pair_value left lr right rr idx) (seq 0 (j_project_count op))
  | None =>
      x ← mapM (col_rel_get left lr) (seq 0 (ncols left));
      y ← mapM (col_rel_get right rr) (seq 0 (ncols right));
      Some (x ++ y)
  end.

Definition col_join_append_pair (ok : bool) (op : join_op) (left : rel) (lr : nat) (right : rel) (rr : nat) (out : rel) : option (rel * Z) :=
  x ← pair_row op left lr right rr;
  if (nrows out <? capacity out)%nat then
    '(out, rc) ← set_cells (length x) out (nrows out) 0 x;
    Some (if negb (rc =? 0) then (out, rc) else (set_nrows (S (nrows out)) out, 0))
  else col_rel_append_row ok out x.

(** *** Limits *)

(** The limits of the session.  [shared]: the limit of a counter that several
    sessions advance, and the counts that the advances of this call return.
    [pressure]: the answer of the ledger with so many rows in the output. *)
Record limits := Lim {
  join_output_limit : Z;
  shared : option (Z * (nat -> Z));
  is_worker : bool;
  pressure : nat -> bool }.

Definition col_join_output_limit_reached (l : limits) (n : nat) : bool :=
  match shared l with
  | Some (limit, seen) => if limit =? 0 then false else limit <=? seen n
  | None => if join_output_limit l =? 0 then false else join_output_limit l <=? Z.of_nat n
  end.

Definition col_join_inloop_backpressure (l : limits) (n : nat) : bool := is_worker l && (0 <? n)%nat && (n mod 10000 =? 0)%nat && pressure l n.

(** A pair is appended, unless this exhausts the limit. *)
Definition emit (e : join_env) (l : limits) (op : join_op) (left right : rel) (lr rr : nat) (out : rel) : option (rel * Z) :=
  '(out, rc) ← col_join_append_pair (je_grow e (nrows out)) op left lr right rr out;
  Some (if negb (rc =? 0) then (out, rc)
        else if col_join_output_limit_reached l (nrows out) || col_join_inloop_backpressure l (nrows out) then (out, EOVERFLOW)
        else (out, 0)).

(** *** Probes *)

(** for (e = head[h]; e != 0; e = next[e - 1]) *)
Fixpoint emit_chain (fuel : nat) (test : nat -> option bool) (em : nat -> rel -> option (rel * Z)) (next : list Z) (e : Z) (out : rel) : option (rel * Z) :=
  match fuel with
  | O => None
  | S fuel' =>
      if e =? 0 then Some (out, 0)
      else
        let rr := Z.to_nat (e - 1) in
        same ← test rr;
        '(out, rc) ← (if same : bool then em rr out else Some (out, 0));
        if negb (rc =? 0) then Some (out, rc) else e ← rd next rr; emit_chain fuel' test em next e out
  end.

(** while (rr != UINT32_MAX && join_rc == 0) *)
Fixpoint emit_arranged (fuel : nat) (test : nat -> option bool) (em : nat -> rel -> option (rel * Z)) (a : arrangement) (rr : Z) (out : rel) : option (rel * Z) :=
  match fuel with
  | O => None
  | S fuel' =>
      if rr =? UINT32_MAX then Some (out, 0)
      else
        same ← test (Z.to_nat rr);
        '(out, rc) ← (if same : bool then em (Z.to_nat rr) out else Some (out, 0));
        if negb (rc =? 0) then Some (out, rc) else rr ← col_arrangement_find_next a rr; emit_arranged fuel' test em a rr out
  end.

(** One row after the other, [n] left. *)
Fixpoint for_rows (n : nat) (step : nat -> rel -> option (rel * Z)) (i : nat) (out : rel) : option (rel * Z) :=
  match n with
  | O => Some (out, 0)
  | S n' => '(out, rc) ← step i out; if negb (rc =? 0) then Some (out, rc) else for_rows n' step (S i) out
  end.

(** The rows of [build], one of them with a single column, against the row [pr]
    of the other relation. *)
Definition unary_step (e : join_env) (l : limits) (op : join_op) (left right build probed : rel) (bk pk : nat) (right_is_unary : bool) (mask : Z) (head next : list Z) (pr : nat) (out : rel) : option (rel * Z) :=
  pkey ← col_rel_get probed pr pk;
  h ← col_join_hash_rel_keys probed pr [pk];
  first ← rd head (Z.to_nat (Z.land h mask));
  emit_chain (S (nrows build)) (fun bi => bkey ← col_rel_get build bi bk; columnar_value_equal build bk bkey probed pk pkey)
    (fun bi => if right_is_unary then emit e l op left right pr bi else emit e l op left right bi pr) next first out.

Definition ephemeral_step (e : join_env) (l : limits) (op : join_op) (p : probe) (lr : nat) (out : rel) : option (rel * Z) :=
  h ← HashJoin.HashJoin.left_hash p lr;
  first ← rd (p_head p) (Z.to_nat h);
  emit_chain (S (nrows (p_right p))) (fun rr => col_join_keys_match_rel (p_left p) lr (p_lk p) (p_right p) rr (p_rk p)) (emit e l op (p_left p) (p_right p) lr) (p_next p) first out.

(** key_row[rk[k]] = left->columns[lk[k]][lr] for k < kc *)
Fixpoint fill_key_row (left : rel) (lr : nat) (lk rk : list nat) (key_row : row) : option row :=
  match lk, rk with
  | l :: lk', r :: rk' => v ← col_rel_get left lr l; key_row ← wr key_row r v; fill_key_row left lr lk' rk' key_row
  | _, _ => Some key_row
  end.

(** The buffer key_row is shared by all probes. *)
Fixpoint arranged_rows (n : nat) (e : join_env) (l : limits) (op : join_op) (a : arrangement) (left right : rel) (lk rk : list nat) (lr : nat) (key_row : row) (out : rel) : option (rel * Z) :=
  match n with
  | O => Some (out, 0)
  | S n' =>
      key_row ← fill_key_row left lr lk rk key_row;
      first ← col_arrangement_find_first_typed a right key_row;
      '(out, rc) ← emit_arranged (S (nrows right)) (fun rr => col_join_keys_match_rel left lr lk right rr rk) (emit e l op left right lr) a first out;
      if negb (rc =? 0) then Some (out, rc) else arranged_rows n' e l op a left right lk rk (S lr) key_row out
  end.

(** *** Without keys *)

Definition col_join_should_parallelize_rows (pa : par_env) (left : rel) : bool :=
  if coordinator pa || (num_workers pa <=? 1) then false
  else
    let env := col_join_parallel_min_left_rows (min_left_env pa) in
    let min_left := if env =? 0 then 1 else env in
    (min_left <=? Z.of_nat (nrows left)) && (u32 (num_workers pa * min_left) <=? Z.of_nat (nrows left)).

Definition col_join_should_parallelize_cross (pa : par_env) (l : limits) (left right : rel) : bool :=
  if negb (col_join_should_parallelize_rows pa left) then false
  else if negb (nrows right =? 0)%nat && (UINT64_MAX / Z.of_nat (nrows right) <? Z.of_nat (nrows left)) then false
  else (join_output_limit l =? 0) || (Z.of_nat (nrows left) * Z.of_nat (nrows right) <? join_output_limit l).

(** while (oi < ctx->end), [n] left *)
Fixpoint col_join_cross_fill_worker_fn (n : nat) (op : join_op) (left right : rel) (oi lr rpos : nat) (out : rel) (write_error : Z) : option (rel * Z) :=
  match n with
  | O => Some (out, write_error)
  | S n' =>
      if negb (write_error =? 0) then Some (out, write_error)
      else
        let rr := (nrows right - 1 - rpos)%nat in
        x ← pair_row op left lr right rr;
        '(out, rc) ← set_cells (length x) out oi 0 x;
        if negb (rc =? 0) then Some (out, rc)
        else
          let wrap := (S rpos =? nrows right)%nat in
          col_join_cross_fill_worker_fn n' op left right (S oi) (if wrap then S lr else lr) (if wrap then O else S rpos) out write_error
  end.

(** The output rows of worker [w]. *)
Definition cross_bounds (total n w : Z) : Z * Z :=
  let chunk := u64 (total + n - 1) / n in
  let b := u64 (w * chunk) in
  (Z.min b total, Z.min (u64 (b + chunk)) total).

Fixpoint run_cross (order : list nat) (pa : par_env) (op : join_op) (left right : rel) (total n : Z) (out : rel) (write_error : Z) : option (rel * Z) :=
  match order with
  | [] => Some (out, write_error)
  | w :: order' =>
      if negb (pa_fill pa w) then run_cross order' pa op left right total n out write_error
      else
        let '(b, e) := cross_bounds total n (Z.of_nat w) in
        let rn := Z.of_nat (nrows right) in
        '(out, write_error) ← col_join_cross_fill_worker_fn (Z.to_nat (e - b)) op left right (Z.to_nat b) (Z.to_nat (b / rn)) (Z.to_nat (b mod rn)) out write_error;
        run_cross order' pa op left right total n out write_error
  end.

(** The code, the output when the code is 0 and whether the limit was reached.
    [pa_queue]: there is a queue; [pa_ctxs]: calloc; [je_out], [je_types]: the
    new output. *)
Definition col_join_parallel_cross (e : join_env) (pa : par_env) (l : limits) (op : join_op) (left right : rel) : option (Z * option rel * bool) :=
  if (num_workers pa <=? 1) || (nrows right =? 0)%nat then Some (EINVAL, None, false)
  else
    let total := Z.of_nat (nrows left) * Z.of_nat (nrows right) in
    let over := (0 <? join_output_limit l) && (join_output_limit l <=? total) in
    let emit_total := if over then join_output_limit l else total in
    if UINT32_MAX <? emit_total then Some (ENOMEM, None, over)
    else
      let active := if emit_total <? num_workers pa then emit_total else num_workers pa in
      if active <=? 1 then Some (EINVAL, None, over)
      else if negb (pa_queue pa) then Some (ENOMEM, None, over)
      else if negb (je_out e) then Some (ENOMEM, None, over)
      else
        types ← output_types op left right;
        if negb (je_types e) then Some (ENOMEM, None, over)
        else
          let out := set_types (Some types) (new_auto false (col_join_output_width op left right)) in
          let '(out, rc) := col_join_reserve_exact (pa_reserve pa) out (Z.to_nat emit_total) in
          if negb (rc =? 0) then Some (ENOMEM, None, over)
          else if negb (pa_ctxs pa) then Some (ENOMEM, None, over)
          else
            '(out, write_error) ← run_cross (pa_fill_order pa) pa op left right emit_total active (set_nrows (Z.to_nat emit_total) out) 0;
            let rc := if negb (forallb (pa_fill pa) (seq 0 (Z.to_nat active))) then ENOMEM else write_error in
            Some (rc, if rc =? 0 then Some out else None, over).

(** ** The operator *)

(** The further outcomes: of the filter cache, of key_row and of deep copies. *)
Record op_env := Oenv { o_env :> join_env; o_filter_cache : cache_env; o_key_row : bool; o_copy : bool }.

(** The rows through a table over the unary relation: the output, the code, and
    whether a failure frees the filtered copy of the right relation. *)
Definition unary_rows (e : op_env) (l : limits) (op : join_op) (left right : rel) (lk rk : list nat) (out : rel) : option (rel * Z * bool) :=
  let right_is_unary := (ncols right =? 1)%nat in
  lk0 ← rd lk 0;
  rk0 ← rd rk 0;
  let build := if right_is_unary then right else left in
  let probed := if right_is_unary then left else right in
  let bk := if right_is_unary then rk0 else lk0 in
  let pk := if right_is_unary then lk0 else rk0 in
  match col_join_bucket_count (Z.of_nat (nrows build)) with
  | None => Some (out, ENOMEM, true)
  | Some nbuckets =>
      if negb (je_tables e) then Some (out, ENOMEM, false)
      else
        let mask := nbuckets - 1 in
        '(head, next) ← build_chains (nrows build) build [bk] mask 0 (replicate (Z.to_nat nbuckets) 0) (replicate (Nat.max (nrows build) 1) 0);
        '(out, rc) ← for_rows (nrows probed) (unary_step e l op left right build probed bk pk right_is_unary mask head next) 0 out;
        Some (out, rc, true)
  end.

(** The rows through the arrangement [arr], or a table over the right rows. *)
Definition keyed_rows (e : op_env) (pa : par_env) (l : limits) (op : join_op) (arr : option arrangement) (left right : rel) (lk rk : list nat) (out : rel) : option (rel * Z * bool) :=
  let parallel := (key_count op =? 0)%nat && col_join_should_parallelize_cross pa l left right in
  match arr with
  | Some a =>
      if negb (o_key_row e) then Some (out, ENOMEM, false)
      else
        '(out, rc) ← arranged_rows (nrows left) e l op a left right lk rk 0 (replicate (Nat.max (ncols right) 1) 0) out;
        Some (out, rc, true)
  | None =>
      match col_join_bucket_count (Z.of_nat (nrows right)) with
      | None => Some (out, ENOMEM, true)
      | Some nbuckets =>
          if negb (je_tables e) then Some (out, ENOMEM, false)
          else
            let mask := nbuckets - 1 in
            '(head, next) ← build_chains (nrows right) right rk mask 0 (replicate (Z.to_nat nbuckets) 0) (replicate (Nat.max (nrows right) 1) 0);
            if parallel then
              '(rc, made, over) ← col_join_parallel_cross e pa l op left right;
              let out := default out made in
              Some (out, (if rc =? EINVAL then 0 else if (rc =? 0) && over then EOVERFLOW else rc), true)
            else
              '(out, rc) ← for_rows (nrows left) (ephemeral_step e l op (Probe left lk right rk mask head next)) 0 out;
              Some (out, rc, true)
      end
  end.

(** col_rel_deep_copy *)
Definition deep_copy (r : rel) : rel :=
  R (lanes r) (take (nrows r) (rows r) ++ replicate (capacity r - nrows r) (replicate (ncols r) 0)) (nrows r) (capacity r) (sorted_nrows r)
    (if (0 <? ncols r)%nat && (0 <? merge_buf_cap r)%nat then merge_columns r else None) (merge_buf_cap r) (timestamps r) (run_count r) (run_ends r).

(** col_rel_transport_bytes of a relation that owns its columns. *)
Definition owned_bytes (r : rel) : Z :=
  if (capacity r =? 0)%nat || (ncols r =? 0)%nat then 0
  else if UINT64_MAX / Z.of_nat (capacity r) / 8 <? Z.of_nat (ncols r) then UINT64_MAX
  else Z.of_nat (ncols r) * Z.of_nat (capacity r) * 8.

(** The snapshots of the left input, of the filtered right one and of the
    output. *)
Record ids := Ids { id_left : snapshot; id_filtered : snapshot; id_out : snapshot }.

Definition input_obj (r : rel) (sn : snapshot) : robj := Obj r sn false false None false 0.

(** The right input filtered: through the cache unless it is a delta.  The flag
    tells whether the operator owns it. *)
Definition filter_right (e : op_env) (table : bool) (sessions : list Z) (op : jop) (name : list Z) (i : ids) (right : srel) (used : bool) (fc : Filter.Filter.cache) (w : W) :
    option (W * Filter.Filter.cache * option (rel * snapshot * bool)) :=
  if (length (right_filter_expr op) =? 0)%nat then Some (w, fc, Some (s_rel right, s_snapshot right, false))
  else if negb used then
    '(w, fc, f) ← apply_right_filter_cached (je_filter e) (o_filter_cache e) table sessions (right_filter_expr op) name (s_rel right) (s_snapshot right) fc w;
    Some (w, fc, match f with Some f => Some (f, id_filtered i, false) | None => None end)
  else
    '(w, f) ← apply_right_filter (je_filter e) table sessions (right_filter_expr op) (s_rel right) w;
    Some (w, fc, match f with Some f => Some (f, id_filtered i, true) | None => None end).

(** Whose arrangement is asked for. *)
Inductive arr_kind := Arr_full | Arr_filtered | Arr_delta.

Definition find_arrangement (arrs : arr_kind -> list nat -> option arrangement) (l : limits) (op : jop) (used : bool) (rk : list nat) : option arrangement :=
  if (key_count op =? 0)%nat then None
  else if used then arrs Arr_delta rk
  else if (length (right_filter_expr op) =? 0)%nat then arrs Arr_full rk
  else if negb (is_worker l) then arrs Arr_filtered rk
  else None.

(** The result of the rows goes to the stack and, when the operator is marked,
    a copy of it too: the cache takes the original. *)
Definition publish (e : op_env) (op : jop) (i : ids) (left right : robj) (used_delta : bool) (mc : MatCache.MatCache.cache) (s : stack K) (out : rel) :
    option (MatCache.MatCache.cache * stack K * Z * list (resource K) * list effect) :=
  let push r := eval_stack_push_delta s (Some r) true used_delta in
  if materialized op && negb (bool_decide (is_Some (projection op))) then
    if negb (o_copy e) then let '(s, rc) := push out in Some (mc, s, rc, [], [])
    else
      '(mc, cache_rc, eff) ← col_mat_cache_insert mc left right (Obj out (id_out i) false false None true (owned_bytes out));
      if negb (cache_rc =? 0) then let '(s, rc) := push out in Some (mc, s, rc, [F_relation (deep_copy out)], eff)
      else let '(s, rc) := push (deep_copy out) in Some (mc, s, rc, (if negb (rc =? 0) then [F_relation (deep_copy out)] else []), eff)
  else let '(s, rc) := push out in Some (mc, s, rc, [], []).

(** The world, the two caches, the stack, the code, what was freed and what the
    cache did. *)
Definition wl_columnar_join_op (e : op_env) (pa : par_env) (l : limits) (table : bool) (sessions : list Z) (se : session) (arrs : arr_kind -> list nat -> option arrangement) (op : jop) (left_names : names) (i : ids)
    (s : stack K) (fc : Filter.Filter.cache) (mc : MatCache.MatCache.cache) (w : W) :
    option (W * Filter.Filter.cache * MatCache.MatCache.cache * stack K * Z * list (resource K) * list effect) :=
  let '(s, pop_rc, en, freed) := eval_stack_pop_relation s in
  if negb (pop_rc =? 0) then Some (w, fc, mc, s, pop_rc, freed, [])
  else
    left ← e_rel en;
    let input := if owned en then [F_relation left] else [] in
    match right_relation op, (match right_relation op with Some n => find_rel se n | None => None end) with
    | None, _ | _, None =>
        let out := new_auto (je_pooled e) (match projection op with Some _ => j_project_count op | None => ncols left end) in
        if negb (je_out e) then Some (w, fc, mc, s, ENOMEM, input, [])
        else
          types ← left_output_types op left;
          if negb (je_types e) then Some (w, fc, mc, s, ENOMEM, F_relation out :: input, [])
          else let '(s, rc) := eval_stack_push_delta s (Some (set_types (Some types) out)) true false in Some (w, fc, mc, s, rc, input, [])
    | Some name, Some full =>
        match choose_right se (j_mode op) name (is_delta en) full with
        | None =>
            let out := new_auto false (col_join_output_width op left (s_rel full)) in
            if negb (je_out e) then Some (w, fc, mc, s, ENOMEM, input, [])
            else
              types ← output_types op left (s_rel full);
              if negb (je_types e) then Some (w, fc, mc, s, ENOMEM, F_relation out :: input, [])
              else
                let out := set_types (Some types) out in
                let '(s, rc) := eval_stack_push s (Some out) true in
                Some (w, fc, mc, s, rc, input ++ (if negb (rc =? 0) then [F_relation out] else []), [])
        | Some (chosen, used) =>
            '(w, fc, f) ← filter_right e table sessions op name i chosen used fc w;
            match f with
            | None => Some (w, fc, mc, s, ENOMEM, input, [])
            | Some (rrel, right_id, is_copy) =>
                let copy := if is_copy : bool then [F_relation rrel] else [] in
                let lobj := input_obj left (id_left i) in
                let robj := input_obj rrel right_id in
                let projected := bool_decide (is_Some (projection op)) in
                '(mc, cached) ← (if materialized op && negb projected then col_mat_cache_lookup_pin mc lobj robj else Some (mc, None));
                match cached with
                | Some (hit, pin) =>
                    '(mc, eff) ← col_mat_cache_pin_release mc pin;
                    if negb (o_copy e) then Some (w, fc, mc, s, ENOMEM, copy ++ input, eff)
                    else
                      let again := deep_copy (o_rel hit) in
                      let '(s, rc) := eval_stack_push_delta s (Some again) true (is_delta en || used) in
                      Some (w, fc, mc, s, rc, copy ++ input ++ (if negb (rc =? 0) then [F_relation again] else []), eff)
                | None =>
                    if negb (je_keys e) then Some (w, fc, mc, s, ENOMEM, input, [])
                    else
                      lk ← resolve_keys left_names (ncols left) (left_keys op) (key_count op);
                      rk ← resolve_keys (s_names chosen) (ncols rrel) (right_keys op) (key_count op);
                      compatible ← col_join_key_types_compatible left lk rrel rk;
                      if negb compatible then Some (w, fc, mc, s, EINVAL, copy ++ input, [])
                      else if negb (je_out e) then Some (w, fc, mc, s, ENOMEM, input, [])
                      else
                        let out := new_auto (je_pooled e && negb (materialized op && negb projected)) (col_join_output_width op left rrel) in
                        types ← output_types op left rrel;
                        if negb (je_types e) then Some (w, fc, mc, s, ENOMEM, F_relation out :: input, [])
                        else
                          let out := set_types (Some types) out in
                          if pressure l 0 && negb (is_worker l) then let '(s, rc) := eval_stack_push s (Some out) true in Some (w, fc, mc, s, rc, input, [])
                          else if negb (je_tmp e) then Some (w, fc, mc, s, ENOMEM, F_relation out :: input, [])
                          else
                            let unary := ((ncols rrel =? 1)%nat || (ncols left =? 1)%nat) && (key_count op =? 1)%nat in
                            '(out, rc, frees) ← (if unary then unary_rows e l op left rrel lk rk out
                                                 else keyed_rows e pa l op (find_arrangement arrs l op used rk) left rrel lk rk out);
                            if negb (rc =? 0) then Some (w, fc, mc, s, rc, F_relation out :: (if frees : bool then copy else []) ++ input, [])
                            else
                              '(mc, s, rc, freed, eff) ← publish e op i lobj robj (negb projected && (is_delta en || used)) mc s out;
                              Some (w, fc, mc, s, rc, freed ++ input ++ copy, eff)
                end
            end
        end
    end.

End Ops.

End Join.
