(* ===== verification/JoinProof.v ===== *)
(** * The pairs that a join emits

    Whichever way the partners of a row are found, they are the rows of the other
    relation with its key, the last one first, and each pair becomes a row of the
    output, until the limit is reached or there is no memory. *)

From S2P Require Import Prelude RadixSort Relation Consolidate ConsolidateProof StringOps Expr ExprProof EvalStack Filter FilterProof RowOps HashJoin HashJoinProof HashJoinSpec SemijoinSpec Arrangement ArrangementProof ArrangementSpec MatCache Join.

Module JoinProof.

Import Keys Rel Consolidate ConsolidateProof Expr.Expr EvalStack.EvalStack Filter.Filter FilterProof.FilterProof RowOps.RowOps HashJoin.HashJoin HashJoinProof.HashJoinProof HashJoinSpec.HashJoinSpec SemijoinSpec.SemijoinSpec
  Arrangement.Arrangement ArrangementProof.ArrangementProof ArrangementSpec.ArrangementSpec Join.Join.

(** ** The row of a pair *)

Definition types_of (s : shape) : list column_type := (fun c => default TYPE_INT64 (column_type_at s c)) <$> seq 0 (ncols s).

(** The lanes of both relations, and of the output. *)
Definition both (left right : shape) : shape := Sh (ncols left + ncols right) (Some (types_of left ++ types_of right)).
Definition join_shape (op : join_op) (left right : shape) : shape := left_shape op (both left right).
Definition pair_of (op : join_op) (x y : row) : row := projected op (x ++ y).

Lemma types_of_lookup (s : shape) c : (c < ncols s)%nat -> types_of s !! c = Some (default TYPE_INT64 (column_type_at s c)).
Proof. intros Hc. unfold types_of. rewrite list_lookup_fmap, lookup_seq_lt by done. done. Qed.

Lemma both_type (left right : shape) c : typed left -> typed right -> (c < ncols left + ncols right)%nat ->
  column_type_at (both left right) c = if (c <? ncols left)%nat then column_type_at left c else column_type_at right (c - ncols left).
Proof.
  intros Hl Hr Hc. unfold both, column_type_at at 1. cbn [column_types]. unfold rd. destruct (Nat.ltb_spec c (ncols left)) as [Hlt|Hge].
  - rewrite lookup_app_l by (unfold types_of; by rewrite length_fmap, length_seq). rewrite types_of_lookup by done. by destruct (Hl c Hlt) as [ty ->].
  - rewrite lookup_app_r by (unfold types_of; by rewrite length_fmap, length_seq). unfold types_of at 1. rewrite length_fmap, length_seq, types_of_lookup by lia. by destruct (Hr (c - ncols left)%nat ltac:(lia)) as [ty ->].
Qed.

Lemma both_typed (left right : shape) : typed left -> typed right -> typed (both left right).
Proof. intros Hl Hr c Hc. cbn [both ncols] in Hc. rewrite both_type by done. destruct (Nat.ltb_spec c (ncols left)); [by apply Hl|apply Hr; lia]. Qed.

Lemma both_row_ok (left right : shape) x y : typed left -> typed right -> row_ok left x -> row_ok right y -> row_ok (both left right) (x ++ y).
Proof.
  intros Hl Hr [Hx Hxc] [Hy Hyc]. split; [rewrite length_app; cbn; lia|]. intros c v Hv. pose proof (lookup_lt_Some _ _ _ Hv) as Hlt. rewrite length_app in Hlt. rewrite both_type by (done || lia). destruct (Nat.ltb_spec c (ncols left)) as [Hc|Hc].
  - apply Hxc. by rewrite lookup_app_l in Hv by lia.
  - rewrite lookup_app_r in Hv by lia. rewrite Hx in Hv. by apply Hyc.
Qed.

Lemma projection_ok op : proj_ok op -> projection op = if (0 <? j_project_count op)%nat then Some (default [] (j_project_indices op)) else None.
Proof. unfold projection. intros [H|(l & -> & _)]; [rewrite H; done|]. by destruct (_ <? _)%nat. Qed.

Lemma output_width_ok op (left right : shape) : proj_ok op -> col_join_output_width op left right = ncols (join_shape op left right).
Proof.
  intros Hp. unfold col_join_output_width, join_shape, left_shape. cbn [ncols both]. rewrite length_sources, projection_ok by done. by destruct (_ <? _)%nat.
Qed.

Lemma output_types_ok op (left right : shape) : proj_ok op -> typed left -> typed right -> output_types op left right = column_types (join_shape op left right).
Proof.
  intros Hp Hl Hr. unfold join_shape at 1. rewrite <-(left_types_ok op (both left right) Hp (both_typed _ _ Hl Hr)). unfold output_types, left_output_types. rewrite output_width_ok by done. unfold join_shape, left_shape. cbn [ncols]. rewrite length_sources by done.
  rewrite projection_ok by done.
  assert (Hty : forall si, output_type left right si = group_type (both left right) si).
  { intros si. unfold output_type, group_type. cbn [both column_types ncols]. destruct (Nat.ltb_spec si (ncols left)) as [H1|H1]; [rewrite (proj2 (Nat.ltb_lt _ _)) by lia; pose proof (both_type left right si Hl Hr ltac:(lia)) as H; rewrite (proj2 (Nat.ltb_lt _ _) H1) in H; by rewrite <-H|].
    destruct (Nat.ltb_spec (si - ncols left) (ncols right)) as [H2|H2]; [|by rewrite (proj2 (Nat.ltb_ge _ _)) by lia]. rewrite (proj2 (Nat.ltb_lt _ _)) by lia. pose proof (both_type left right si Hl Hr ltac:(lia)) as H. rewrite (proj2 (Nat.ltb_ge _ _) H1) in H. by rewrite <-H. }
  destruct Hp as [H0|(l & Hl' & Hlen)]; [rewrite H0; cbn [Nat.ltb Nat.leb]|rewrite Hl'; cbn [default from_option]; unfold id; destruct (0 <? j_project_count op)%nat]; apply mapM_ext; intros c; cbn [mbind option_bind]; [apply Hty| |apply Hty].
  destruct (rd l c); cbn [mbind option_bind]; [apply Hty|done].
Qed.

Section Pairs.

Context (op : join_op) (left right : rel).
Context (Hl : readable left) (Hr : readable right) (Htl : typed left) (Htr : typed right) (Hp : proj_ok op).

Abbreviation L lr := (stored left !!! lr).
Abbreviation R rr := (stored right !!! rr).

Lemma whole_get (r : rel) i : readable r -> (i < nrows r)%nat -> mapM (col_rel_get r i) (seq 0 (ncols r)) = Some (stored r !!! i).
Proof.
  intros Hx Hi. rewrite (mapM_seq _ (fun c => stored r !!! i !!! c)) by (intros c Hc; apply stored_cell; (done || lia)). f_equal. destruct (stored_row r Hx i Hi) as [_ Hlen]. apply list_eq. intros c. rewrite list_lookup_fmap. destruct (lt_dec c (ncols r)) as [Hc|Hc].
  - rewrite lookup_seq_lt by done. cbn. symmetry. apply list_lookup_lookup_total_lt. lia.
  - rewrite lookup_seq_ge by lia. symmetry. apply lookup_ge_None_2. lia.
Qed.

Lemma pair_row_ok lr rr : (lr < nrows left)%nat -> (rr < nrows right)%nat -> pair_row op left lr right rr = Some (pair_of op (L lr) (R rr)).
Proof.
  intros Hlr Hrr. destruct (stored_row left Hl lr Hlr) as [_ Ll]. destruct (stored_row right Hr rr Hrr) as [_ Lr]. unfold pair_row. rewrite projection_ok by done. unfold pair_of, projected, sources. destruct (0 <? j_project_count op)%nat eqn:Hc.
  - destruct Hp as [H|(l & Hl' & Hlen)]; [rewrite H in Hc; done|]. rewrite Hl'. cbn [default from_option]. unfold id. rewrite (mapM_seq _ (fun c => default 0 ((L lr ++ R rr) !! (l !!! c)))).
    + f_equal. apply list_eq. intros i. rewrite !list_lookup_fmap. destruct (lt_dec i (j_project_count op)) as [Hi|Hi]; [|by rewrite lookup_seq_ge, lookup_take_ge by lia]. rewrite lookup_seq_lt, lookup_take_lt by done.
      destruct (lookup_lt_is_Some_2 l i ltac:(lia)) as [s Hs]. rewrite Hs. cbn. by rewrite (list_lookup_total_correct _ _ _ Hs).
    + intros c Hc'. destruct (lookup_lt_is_Some_2 l c ltac:(lia)) as [s Hs]. unfold rd. rewrite Hs. cbn [mbind option_bind]. rewrite (list_lookup_total_correct _ _ _ Hs). unfold col_join_pair_value. destruct (Nat.ltb_spec s (ncols left)) as [H1|H1].
      * destruct (stored_cell left lr s Hl Hlr H1) as [-> _]. rewrite lookup_app_l by lia. by rewrite (list_lookup_lookup_total_lt (L lr) s) by lia.
      * rewrite lookup_app_r by lia. rewrite Ll. destruct (Nat.ltb_spec (s - ncols left) (ncols right)) as [H2|H2]; [destruct (stored_cell right rr (s - ncols left)%nat Hr Hrr H2) as [-> _]; by rewrite (list_lookup_lookup_total_lt (R rr)) by lia|by rewrite (lookup_ge_None_2 (R rr)) by lia].
  - rewrite (whole_get left lr), (whole_get right rr) by done. cbn [mbind option_bind]. by rewrite whole_row.
Qed.

Lemma pair_ok lr rr : (lr < nrows left)%nat -> (rr < nrows right)%nat -> row_ok (join_shape op left right) (pair_of op (L lr) (R rr)).
Proof.
  intros Hlr Hrr. apply projected_ok; [done|by apply both_typed|]. apply both_row_ok; try done; [apply (Forall_lookup_1 _ _ lr _ (proj2 Hl))|apply (Forall_lookup_1 _ _ rr _ (proj2 Hr))]; apply list_lookup_lookup_total_lt; rewrite length_stored; (apply Hl || apply Hr || done).
Qed.

End Pairs.

(** ** Emission *)

(** Whether the emission of the [n]-th row ends the join. *)
Definition stops (l : limits) (n : nat) : bool := col_join_output_limit_reached l n || col_join_inloop_backpressure l n.

(** Every row of the storage has the relation's width. *)
Definition wide (r : rel) : Prop := fits r /\ Forall (fun x => length x = ncols r) (rows r).

Lemma append_row_wide b d x d' rc : wide d -> row_ok d x -> col_rel_append_row b d x = Some (d', rc) -> Forall (fun y => length y = ncols d) (rows d').
Proof.
  intros [[Hn Hc] Hw] Hx. unfold col_rel_append_row. rewrite (cells_valid_ok d x Hx). cbn [mbind option_bind negb]. destruct (_ && _) eqn:Hfail; [by intros [= <- <-]|].
  set (d1 := if (capacity d <=? nrows d)%nat then _ else d). assert (Hd1 : lanes d1 = lanes d /\ (nrows d1 < length (rows d1))%nat /\ Forall (fun y => length y = ncols d) (rows d1)).
  { unfold d1. destruct (Nat.leb_spec (capacity d) (nrows d)) as [Hf|Hf]; [|split_and!; (done || lia)]. cbn [andb] in Hfail. apply orb_false_iff in Hfail as [Hcap%Nat.leb_gt _].
    cbn [set_capacity set_rows lanes rows nrows]. rewrite length_resized. split_and!; [done|lia|]. unfold resized. apply Forall_app. split; [by apply Forall_take|]. apply Forall_replicate, length_replicate. }
  clearbody d1. destruct Hd1 as (Hl & Hlt & Hw1). rewrite <-Hl in Hx. rewrite (copy_in_ok d1 (nrows d1) x Hx Hlt). cbn [mbind option_bind Z.eqb negb]. intros [= <- <-]. cbn. apply Forall_insert; [done|]. unfold canon. rewrite length_imap, <-Hl. apply (rk_len _ _ Hx).
Qed.

Section Emission.

Context (e : join_env) (l : limits) (s : shape).

(** The rows [xs] were appended, the emission of one of them ended the join, or
    there was no memory. *)
Definition emits (out : rel) (xs : list row) (res : option (rel * Z)) : Prop :=
  exists out' rc, res = Some (out', rc) /\ lanes out' = s /\ wide out' /\
    ((rc = 0 /\ stored out' = stored out ++ xs /\ forall n, (nrows out < n <= nrows out + length xs)%nat -> stops l n = false) \/
     (rc = EOVERFLOW /\ exists n, (nrows out < n <= nrows out + length xs)%nat /\ stops l n = true) \/
     (rc = ENOMEM /\ ((forall i, je_grow e i = true) -> 2 ^ 31 < Z.of_nat (nrows out + length xs)))).

Lemma emits_nil out : lanes out = s -> wide out -> emits out [] (Some (out, 0)).
Proof. intros Hl Hw. exists out, 0. split_and!; [done..|]. left. rewrite app_nil_r. split_and!; [done..|]. cbn. lia. Qed.

Lemma emits_seq out l1 l2 res (k : rel -> option (rel * Z)) : wide out -> emits out l1 res -> (forall o, lanes o = s -> wide o -> emits o l2 (k o)) ->
  emits out (l1 ++ l2) ('(o, rc) ← res; if negb (rc =? 0) then Some (o, rc) else k o).
Proof.
  intros Hw (o1 & rc & -> & Hl1 & Hw1 & H1) Hk. cbn [mbind option_bind]. destruct H1 as [(-> & Hs1 & Hn1)|[(-> & n & Hn & Hst)|(-> & Hg)]]; cbn [Z.eqb negb ENOMEM EOVERFLOW].
  - destruct (Hk o1 Hl1 Hw1) as (o2 & rc & -> & Hl2 & Hw2 & H2). exists o2, rc. split_and!; [done..|]. assert (Hno : nrows o1 = (nrows out + length l1)%nat) by (rewrite <-(length_stored o1 (proj1 Hw1)), Hs1, length_app, (length_stored out (proj1 Hw)); done). rewrite length_app. destruct H2 as [(-> & Hs2 & Hn2)|[(-> & n & Hn & Hst)|(-> & Hg)]].
    + left. split; [done|]. rewrite Hs2, Hs1, <-app_assoc. split; [done|]. intros n Hn. destruct (le_dec n (nrows out + length l1)); [apply Hn1; lia|apply Hn2; lia].
    + right. left. split; [done|]. exists n. split; [lia|done].
    + right. right. split; [done|]. intros Ha. specialize (Hg Ha). lia.
  - exists o1, EOVERFLOW. split_and!; [done..|]. right. left. split; [done|]. exists n. rewrite length_app. split; [lia|done].
  - exists o1, ENOMEM. split_and!; [done..|]. right. right. split; [done|]. intros Ha. specialize (Hg Ha). rewrite length_app. lia.
Qed.

Lemma emit_chain_ok test (f : nat -> bool) em (g : nat -> row) next js : forall fuel h out, chain link next h js -> (length js < fuel)%nat -> (forall j, j ∈ js -> test j = Some (f j)) ->
  (forall j o, j ∈ js -> f j = true -> lanes o = s -> wide o -> emits o [g j] (em j o)) -> lanes out = s -> wide out ->
  emits out (g <$> filter (fun j => f j = true) js) (emit_chain fuel test em next h out).
Proof.
  induction js as [|i js IH]; intros fuel h out Hc Hfuel Ht He Hl Hw; (destruct fuel as [|fuel]; [cbn in Hfuel; lia|]); inversion Hc as [? Hd|? ? h' ? Hd Hn Hc']; subst; unfold link in Hd; cbn [emit_chain]; destruct (h =? 0); try done; [by apply emits_nil|].
  injection Hd as Hd. rewrite Hd, Ht by left. cbn [mbind option_bind]. rewrite filter_cons. unfold rd. rewrite Hn. cbn [mbind option_bind]. assert (Hrec : forall o, lanes o = s -> wide o -> emits o (g <$> filter (fun j => f j = true) js) (emit_chain fuel test em next h' o)).
  { intros o Ho Hwo. apply IH; try done; [cbn in Hfuel; lia|intros j Hj; apply Ht; by right|intros j o' Hj; apply He; by right]. }
  destruct (f i) eqn:Hf; [rewrite decide_True by done|rewrite decide_False by done].
  - rewrite fmap_cons. apply (emits_seq out [g i]); [done| |done]. apply He; (done || left).
  - cbn [mbind option_bind Z.eqb negb]. by apply Hrec.
Qed.

Lemma emit_arranged_ok a test (f : nat -> bool) em (g : nat -> row) js : arr_wf a -> forall fuel h out, chain arr_link (ht_next a) h js -> (length js < fuel)%nat -> (forall j, j ∈ js -> test j = Some (f j)) ->
  (forall j o, j ∈ js -> f j = true -> lanes o = s -> wide o -> emits o [g j] (em j o)) -> lanes out = s -> wide out ->
  emits out (g <$> filter (fun j => f j = true) js) (emit_arranged fuel test em a h out).
Proof.
  intros Ha. induction js as [|i js IH]; intros fuel h out Hc Hfuel Ht He Hl Hw; (destruct fuel as [|fuel]; [cbn in Hfuel; lia|]); cbn [emit_arranged].
  { inversion Hc as [? Hd|]; subst. unfold arr_link in Hd. destruct (h =? UINT32_MAX); [|done]. by apply emits_nil. }
  destruct (find_next_ok a h i js Ha Hc) as (Hne & -> & h' & Hnx & Hc'). rewrite (proj2 (Z.eqb_neq _ _) Hne), Ht by left. cbn [mbind option_bind]. rewrite filter_cons, Hnx. cbn [mbind option_bind].
  assert (Hrec : forall o, lanes o = s -> wide o -> emits o (g <$> filter (fun j => f j = true) js) (emit_arranged fuel test em a h' o)).
  { intros o Ho Hwo. apply IH; try done; [cbn in Hfuel; lia|intros j Hj; apply Ht; by right|intros j o' Hj; apply He; by right]. }
  destruct (f (Z.to_nat h)) eqn:Hf; [rewrite decide_True by done|rewrite decide_False by done].
  - rewrite fmap_cons. apply (emits_seq out [g (Z.to_nat h)]); [done| |done]. apply He; (done || left).
  - cbn [mbind option_bind Z.eqb negb]. by apply Hrec.
Qed.

Lemma for_rows_ok step (G : nat -> list row) n : forall i out, (forall j o, (i <= j < i + n)%nat -> lanes o = s -> wide o -> emits o (G j) (step j o)) -> lanes out = s -> wide out ->
  emits out (concat (G <$> seq i n)) (for_rows n step i out).
Proof.
  induction n as [|n IH]; intros i out Hs Hl Hw; cbn [for_rows seq fmap list_fmap concat]; [by apply emits_nil|]. apply emits_seq; [done|apply Hs; (done || lia)|].
  intros o Ho Hwo. apply IH; [|done|done]. intros j o' Hj. apply Hs. lia.
Qed.

End Emission.

Lemma emit_pair_ok e l op (left right : rel) lr rr out : readable left -> readable right -> typed left -> typed right -> proj_ok op -> (lr < nrows left)%nat -> (rr < nrows right)%nat ->
  lanes out = join_shape op left right -> wide out ->
  emits e l (join_shape op left right) out [canon (join_shape op left right) (pair_of op (stored left !!! lr) (stored right !!! rr))] (emit e l op left right lr rr out).
Proof.
  intros Hl Hr Htl Htr Hp Hlr Hrr Hlo Hw. unfold emit, col_join_append_pair. rewrite pair_row_ok by done. cbn [mbind option_bind]. pose proof (pair_ok op left right Hl Hr Htl Htr Hp lr rr Hlr Hrr) as Hok. set (s := join_shape op left right) in *. set (x := pair_of op _ _) in *.
  assert (Happ : exists o rc, (if (nrows out <? capacity out)%nat then '(out, rc) ← set_cells (length x) out (nrows out) 0 x; Some (if negb (rc =? 0) then (out, rc) else (set_nrows (S (nrows out)) out, 0))
                               else col_rel_append_row (je_grow e (nrows out)) out x) = Some (o, rc) /\ lanes o = s /\ wide o /\
    ((rc = 0 /\ nrows o = S (nrows out) /\ stored o = stored out ++ [canon s x]) \/ (rc = ENOMEM /\ (je_grow e (nrows out) = true -> 2 ^ 31 <= Z.of_nat (nrows out))))).
  { destruct Hw as [Hf Hwd]. destruct (Nat.ltb_spec (nrows out) (capacity out)) as [Hlt|Hge].
    - destruct Hf as [Hn Hc]. destruct (lookup_lt_is_Some_2 (rows out) (nrows out) ltac:(lia)) as [y Hy]. pose proof (Forall_lookup_1 _ _ _ _ Hwd Hy) as Hyl. cbn beta in Hyl. rewrite Hlo in Hyl.
      rewrite (set_cells_ok s out (nrows out) x y Hlo Hlt Hok Hyl (length x) 0 eq_refl) by (by rewrite drop_0). cbn [mbind option_bind Z.eqb negb]. eexists _, _. split; [done|]. cbn [set_nrows set_rows lanes nrows rows]. split; [done|]. split; [split|].
      + split; cbn [set_nrows set_rows nrows capacity rows]; [lia|by rewrite length_insert].
      + cbn [set_nrows set_rows rows lanes]. apply Forall_insert; [done|]. unfold canon. rewrite length_imap, Hlo. apply (rk_len _ _ Hok).
      + left. split_and!; [done..|]. unfold stored. cbn [set_nrows set_rows nrows rows]. rewrite (take_S_r _ _ (canon s x)) by (apply list_lookup_insert_eq; lia). by rewrite take_insert_ge by lia.
    - rewrite <-Hlo in Hok. destruct (append_row_exact (je_grow e (nrows out)) out x Hf Hok) as (o & rc & Ha & Hk & Hfo & H). exists o, rc. split; [done|]. rewrite (kt_lanes _ _ Hk). split; [done|]. split; [split; [done|]|].
      + rewrite (kt_lanes _ _ Hk). by eapply append_row_wide.
      + rewrite Hlo in H. destruct H as [H|(-> & _ & H)]; [by left|by right]. }
  destruct Happ as (o & rc & -> & Hlo' & Hwo & H). cbn [mbind option_bind]. destruct H as [(-> & Hn & Hs)|(-> & Hg)]; cbn [Z.eqb negb ENOMEM].
  - fold (stops l (nrows o)). rewrite Hn. destruct (stops l (S (nrows out))) eqn:Hst; eexists _, _; (split; [done|]); (split; [done|]); (split; [done|]).
    + right. left. split; [done|]. exists (S (nrows out)). cbn. split; [lia|done].
    + left. split; [done|]. split; [done|]. cbn. intros n Hn'. by replace n with (S (nrows out)) by lia.
  - eexists _, _. split; [done|]. split_and!; [done..|]. right. right. split; [done|]. intros Ha. specialize (Hg (Ha _)). cbn. lia.
Qed.

(** ** The partners of a row *)

(** Rows of another bucket do not join. *)
Lemma filter_bucket (f : nat -> bool) bucket b n : (forall i, (i < n)%nat -> f i = true -> bucket i = b) -> filter (fun i => f i = true) (in_bucket bucket b n) = filter (fun i => f i = true) (reverse (seq 0 n)).
Proof.
  intros H. unfold in_bucket. rewrite !filter_reverse. f_equal. rewrite list_filter_filter. apply filter_iff_in. intros i Hi%elem_of_seq. split; [tauto|]. intros Hf. split; [done|]. apply H; [lia|done].
Qed.

Lemma bucket_length bucket b n : (length (in_bucket bucket b n) <= n)%nat.
Proof. unfold in_bucket. rewrite length_reverse. etrans; [apply length_filter|]. by rewrite length_seq. Qed.

Section Paths.

Context (e : join_env) (l : limits) (op : join_op) (left right : rel).
Context (Hl : readable left) (Hr : readable right) (Htl : typed left) (Htr : typed right) (Hp : proj_ok op).

Abbreviation shape_out := (join_shape op left right).
Abbreviation L lr := (stored left !!! lr).
Abbreviation R rr := (stored right !!! rr).

(** The output row of a pair. *)
Definition out_row (lr rr : nat) : row := canon shape_out (pair_of op (L lr) (R rr)).

(** The right partners of a left row, and the left partners of a right row. *)
Definition right_partners (lk rk : list nat) (lr : nat) : list nat := filter (fun rr => joins left lk right rk (L lr) (R rr) = true) (reverse (seq 0 (nrows right))).
Definition left_partners (lk rk : list nat) (rr : nat) : list nat := filter (fun lr => joins left lk right rk (L lr) (R rr) = true) (reverse (seq 0 (nrows left))).

Lemma emit_pair lr rr out : (lr < nrows left)%nat -> (rr < nrows right)%nat -> lanes out = shape_out -> wide out -> emits e l shape_out out [out_row lr rr] (emit e l op left right lr rr out).
Proof. intros. by apply emit_pair_ok. Qed.

(** The table that lives as long as the call. *)
Lemma ephemeral_step_ok lk rk mask head next lr out : probe_ok (Probe left lk right rk mask head next) -> (lr < nrows left)%nat -> lanes out = shape_out -> wide out ->
  emits e l shape_out out (out_row lr <$> right_partners lk rk lr) (ephemeral_step e l op (Probe left lk right rk mask head next) lr out).
Proof.
  intros Hpr Hlr Hlo Hw. unfold ephemeral_step. destruct (left_hash_ok _ lr Hpr Hlr) as (k & Hk & Hm & -> & Hlh & Hln & Hc). destruct Hpr as [_ _ Hlk Hrk Hlen _]. cbn [p_left p_lk p_right p_rk p_mask p_head p_next] in *. cbn [mbind option_bind].
  destruct (land_bucket (join_key left lk (L lr)) k Hk) as [_ Hlt]. destruct (Hc (Z.to_nat (join_hash (join_key left lk (L lr)) mod 2 ^ k)) ltac:(lia)) as (h & Hh & Hch). unfold rd. rewrite Hh. cbn [mbind option_bind].
  set (f := fun rr => joins left lk right rk (L lr) (R rr)). unfold right_partners. rewrite <-(filter_bucket f (bucket_of right rk k) (Z.to_nat (join_hash (join_key left lk (L lr)) mod 2 ^ k))).
  2: { intros i Hi Hf. apply bool_decide_eq_true in Hf. unfold bucket_of. by rewrite Hf. }
  apply (emit_chain_ok e l shape_out _ f); try done.
  - pose proof (bucket_length (bucket_of right rk k) (Z.to_nat (join_hash (join_key left lk (L lr)) mod 2 ^ k)) (nrows right)). lia.
  - intros j [Hj _]%elem_of_bucket. by apply keys_match_ok.
  - intros j o [Hj _]%elem_of_bucket _. by apply emit_pair.
Qed.

(** A table over the relation [build] of one column. *)
Lemma unary_step_ok (build probed : rel) bk pk k head next (ru : bool) pr out (g : nat -> row) : readable build -> readable probed -> (bk < ncols build)%nat -> (pk < ncols probed)%nat -> 0 <= k ->
  chains_of build [bk] k head next (nrows build) -> (pr < nrows probed)%nat ->
  (forall bi o, (bi < nrows build)%nat -> lanes o = shape_out -> wide o -> emits e l shape_out o [g bi] ((if ru then emit e l op left right pr bi else emit e l op left right bi pr) o)) -> lanes out = shape_out -> wide out ->
  emits e l shape_out out (g <$> filter (fun bi => bool_decide (join_key build [bk] (stored build !!! bi) = join_key probed [pk] (stored probed !!! pr)) = true) (reverse (seq 0 (nrows build))))
    (unary_step e l op left right build probed bk pk ru (2 ^ k - 1) head next pr out).
Proof.
  intros Hb Hpd Hbk Hpk Hk (Hlh & Hln & Hc) Hpr Hem Hlo Hw. unfold unary_step. destruct (stored_cell probed pr pk Hpd Hpr Hpk) as (-> & Hrow & _). cbn [mbind option_bind]. unfold col_join_hash_rel_keys.
  rewrite hash_keys_ok by (done || by constructor). cbn [mbind option_bind]. fold (join_hash (join_key probed [pk] (stored probed !!! pr))). set (y := stored probed !!! pr) in *. destruct (land_bucket (join_key probed [pk] y) k Hk) as [-> Hlt].
  destruct (Hc (Z.to_nat (join_hash (join_key probed [pk] y) mod 2 ^ k)) ltac:(lia)) as (h & Hh & Hch). unfold rd. rewrite Hh. cbn [mbind option_bind].
  set (f := fun bi => bool_decide (join_key build [bk] (stored build !!! bi) = join_key probed [pk] y)). rewrite <-(filter_bucket f (bucket_of build [bk] k) (Z.to_nat (join_hash (join_key probed [pk] y) mod 2 ^ k))).
  2: { intros i Hi Hf. apply bool_decide_eq_true in Hf. unfold bucket_of. by rewrite Hf. }
  apply (emit_chain_ok e l shape_out _ f); try done.
  - pose proof (bucket_length (bucket_of build [bk] k) (Z.to_nat (join_hash (join_key probed [pk] y) mod 2 ^ k)) (nrows build)). lia.
  - intros j [Hj _]%elem_of_bucket. destruct (stored_cell build j bk Hb Hj Hbk) as (-> & Hrb & _). cbn [mbind option_bind]. by apply columnar_equal_ok.
  - intros j o [Hj _]%elem_of_bucket _ Hlo' Hwo. specialize (Hem j o Hj Hlo' Hwo). by destruct ru.
Qed.

(** *** The arrangement *)

Lemma fill_key_row_ok lr : (lr < nrows left)%nat -> forall lk rk kr, key_cols left lk -> Forall (fun r => (r < length kr)%nat) rk -> length lk = length rk ->
  exists kr', fill_key_row left lr lk rk kr = Some kr' /\ length kr' = length kr /\
    (forall r, r ∈ rk -> exists j c, lk !! j = Some c /\ rk !! j = Some r /\ kr' !!! r = L lr !!! c) /\ (forall r, r ∉ rk -> kr' !! r = kr !! r).
Proof.
  intros Hlr. induction lk as [|c lk IH]; intros [|r rk] kr Hlk Hrk Hlen; try done; cbn [fill_key_row].
  { exists kr. split_and!; try done. intros r Hin. by apply not_elem_of_nil in Hin. }
  apply Forall_cons in Hlk as [Hc Hlk]. apply Forall_cons in Hrk as [Hrr Hrk]. destruct (stored_cell left lr c Hl Hlr Hc) as [-> _]. cbn [mbind option_bind]. rewrite wr_lt by done. cbn [mbind option_bind].
  destruct (IH rk (<[r := L lr !!! c]> kr) Hlk) as (kr' & -> & Hk' & Hin & Hout); [by rewrite length_insert|cbn in Hlen; lia|]. rewrite length_insert in Hk'. exists kr'. split_and!; [done..| |].
  - intros r' Hr'. destruct (decide (r' ∈ rk)) as [Hmem|Hmem]; [destruct (Hin r' Hmem) as (j & c' & H1 & H2 & H3); by exists (S j), c'|].
    apply elem_of_cons in Hr' as [->|?]; [|done]. exists O, c. split_and!; [done..|]. apply list_lookup_total_correct. rewrite Hout by done. by rewrite list_lookup_insert_eq.
  - intros r' Hne. apply not_elem_of_cons in Hne as [Hne Hnin]. rewrite Hout by done. by rewrite list_lookup_insert_ne.
Qed.

(** The key row of a left row has valid cells, and the key of every partner. *)
Lemma key_row_valid lk rk lr kr : key_cols left lk -> key_cols right rk -> length lk = length rk -> floats_agree left lk right rk -> (lr < nrows left)%nat -> length kr = ncols right ->
  (forall r, r ∈ rk -> exists j c, lk !! j = Some c /\ rk !! j = Some r /\ kr !!! r = L lr !!! c) ->
  key_row_ok right rk kr /\ forall y, joins left lk right rk (L lr) y = true -> join_key right rk y = join_key right rk kr.
Proof.
  intros Hlk Hrk Hlen Hfl Hlr Hkr Hin. split.
  - split; [done|]. apply Forall_forall. intros r Hmem. destruct (Hin r Hmem) as (j & c & Hj1 & Hj2 & ->). pose proof (Forall_lookup_1 _ _ _ _ Hlk Hj1) as Hc. pose proof (Forall_lookup_1 _ _ _ _ Hrk Hj2) as Hrc.
    destruct (Htr r Hrc) as [rt Hrt]. exists rt. split; [done|]. destruct (stored_cell left lr c Hl Hlr Hc) as (_ & Hrow & _). destruct (row_cell left _ c Hrow Hc) as (lt & v & Hlt & _ & -> & Hv1 & Hv2).
    pose proof (Forall2_lookup_lr _ _ _ _ _ _ Hfl Hj1 Hj2) as Hf. cbn beta in Hf. rewrite Hlt, Hrt in Hf. cbn in Hf. unfold id in Hf. split; [done|]. by rewrite <-Hf.
  - intros y Hy. apply bool_decide_eq_true in Hy. unfold join_key in *. apply list_fmap_ext. intros i r Hi. destruct (Hin r ltac:(by eapply list_elem_of_lookup_2)) as (j & c & Hj1 & Hj2 & ->).
    assert (Hjj := f_equal (fun z => z !! j) Hy). cbn beta in Hjj. rewrite !list_lookup_fmap, Hj1, Hj2 in Hjj. cbn in Hjj. injection Hjj as Ht Hv. by rewrite <-Hv, Ht.
Qed.

(** The arrangement indexes the right relation; an empty one needs none. *)
Definition serves (rk : list nat) (a : arrangement) (r : rel) : Prop := lives rk a (Some r) \/ (nrows r = O /\ lives rk a None).

Lemma arranged_rows_ok lk rk a : key_cols left lk -> key_cols right rk -> length lk = length rk -> floats_agree left lk right rk -> serves rk a right ->
  forall n lr kr out, (lr + n = nrows left)%nat -> length kr = ncols right -> lanes out = shape_out -> wide out ->
  emits e l shape_out out (concat ((fun i => out_row i <$> right_partners lk rk i) <$> seq lr n)) (arranged_rows n e l op a left right lk rk lr kr out).
Proof.
  intros Hlk Hrk Hlen Hfl Hserves. induction n as [|n IH]; intros lr kr out Hlr Hkr Hlo Hw; cbn [arranged_rows seq fmap list_fmap concat]; [by apply emits_nil|].
  destruct (fill_key_row_ok lr ltac:(lia) lk rk kr Hlk) as (kr' & -> & Hk' & Hin & _); [eapply Forall_impl; [exact Hrk|]; intros ? ?; cbn beta in *; lia|done|]. cbn [mbind option_bind].
  destruct (key_row_valid lk rk lr kr' Hlk Hrk Hlen Hfl ltac:(lia) ltac:(lia) Hin) as [Hkro Hpart]. set (f := fun rr => joins left lk right rk (L lr) (R rr)).
  assert (Hfirst : exists h js, col_arrangement_find_first_typed a right kr' = Some h /\ arr_wf a /\ chain arr_link (ht_next a) h js /\ (length js <= nrows right)%nat /\ Forall (fun j => (j < nrows right)%nat) js /\
                     filter (fun j => f j = true) js = right_partners lk rk lr).
  { destruct Hserves as [Hs|[Hz Hs]].
    - destruct (lives_inv _ _ _ Hs) as (Hks & Hir & Hix & Hnr). destruct (find_first_ok a right kr' Hix Hnr Hr Htr) as (h & l0 & js & Hff & Hch & Hbk & Hl0); [by rewrite Hks|by rewrite Hks|]. rewrite Hks in *.
      exists h, js. split; [done|]. split; [apply Hix|]. split; [done|]. set (bk := in_bucket _ _ _) in Hbk. pose proof (bucket_length (arr_bucket right rk (nbuckets a)) (Z.to_nat (arr_hash (join_key right rk kr') mod nbuckets a)) (nrows right)) as Hbl. fold bk in Hbl. rewrite Hbk, length_app in Hbl. split; [lia|]. split.
      + apply Forall_forall. intros j Hj. assert (Hjb : j ∈ bk) by (rewrite Hbk; apply elem_of_app; by right). by apply elem_of_bucket in Hjb as [? _].
      + unfold right_partners. rewrite <-(filter_bucket f (arr_bucket right rk (nbuckets a)) (Z.to_nat (arr_hash (join_key right rk kr') mod nbuckets a))); [|intros i Hi Hfi; unfold arr_bucket; by rewrite (Hpart _ Hfi)].
        fold bk. rewrite Hbk, filter_app. rewrite (filter_none _ l0); [done|]. intros j Hj Hfj. by apply (proj1 (Forall_forall _ _) Hl0 j Hj), Hpart.
    - destruct (lives_inv _ _ _ Hs) as (Hks & Hwf & Hnr). exists UINT32_MAX, []. unfold col_arrangement_find_first_typed. rewrite Hnr. cbn [Nat.eqb]. rewrite orb_true_r. split_and!; [done|done|by constructor|cbn; lia|constructor|].
      unfold right_partners. by rewrite Hz. }
  destruct Hfirst as (h & js & -> & Hwf & Hch & Hlj & Hjr & Hfil). cbn [mbind option_bind]. apply emits_seq; [done| |].
  - rewrite <-Hfil. apply (emit_arranged_ok e l shape_out a _ f); try done; [lia| |].
    + intros j Hj. apply keys_match_ok; try done; [lia|]. by apply (proj1 (Forall_forall _ _) Hjr).
    + intros j o Hj _. apply emit_pair; [lia|]. by apply (proj1 (Forall_forall _ _) Hjr).
  - intros o Ho Hwo. apply IH; try done; lia.
Qed.

End Paths.

End JoinProof.
