(* ===== verification/JoinSpec.v ===== *)
(** * What a join produces

    The pairs of a left and a right row with equal keys, each once: by workers
    when there are no keys, and by the operator as a whole. *)

From S2P Require Import Prelude RadixSort Relation Consolidate ConsolidateProof DeltaSpec StringOps Expr ExprProof EvalStack Filter FilterProof FilterSpec RowOps HashJoin HashJoinProof HashJoinSpec SemijoinSpec Arrangement ArrangementProof ArrangementSpec MatCache Join JoinProof.

Module JoinSpec.

Import Keys Rel Consolidate ConsolidateProof Expr.Expr EvalStack.EvalStack Filter.Filter FilterProof.FilterProof RowOps.RowOps HashJoin.HashJoin HashJoinProof.HashJoinProof HashJoinSpec.HashJoinSpec SemijoinSpec.SemijoinSpec
  Arrangement.Arrangement ArrangementProof.ArrangementProof ArrangementSpec.ArrangementSpec Join.Join JoinProof.JoinProof.

(** ** Workers *)

Lemma concat_block {A} (F : nat -> list A) m : (0 < m)%nat -> (forall i, length (F i) = m) -> forall n i0 k, (k < n * m)%nat -> concat (F <$> seq i0 n) !! k = F (i0 + k / m)%nat !! (k mod m)%nat.
Proof.
  intros Hm HF. induction n as [|n IH]; intros i0 k Hk; [lia|]. cbn [seq fmap list_fmap concat]. destruct (lt_dec k m) as [Hlt|Hge].
  - rewrite lookup_app_l by (by rewrite HF). rewrite Nat.div_small, Nat.mod_small, Nat.add_0_r by done. done.
  - rewrite lookup_app_r by (rewrite HF; lia). rewrite HF, IH by lia. assert (Hk' : k = (k - m + 1 * m)%nat) by lia. rewrite Hk' at 3 4. rewrite Nat.div_add, Nat.Div0.mod_add by lia. f_equal. f_equal. lia.
Qed.

Lemma length_blocks {A} (F : nat -> list A) m n : (forall i, length (F i) = m) -> forall i0, length (concat (F <$> seq i0 n)) = (n * m)%nat.
Proof. intros HF. induction n as [|n IH]; intros i0; [done|]. cbn [seq fmap list_fmap concat]. rewrite length_app, HF, IH. done. Qed.

Section Cross.

Context (op : join_op) (left right : rel).
Context (Hl : readable left) (Hr : readable right) (Htl : typed left) (Htr : typed right) (Hp : proj_ok op) (Hn : (0 < nrows right)%nat).

Abbreviation shape_out := (join_shape op left right).
Abbreviation out_at lr rr := (out_row op left right lr rr).

(** All pairs: for each left row the right ones, the last one first. *)
Definition crossed : list row := concat ((fun lr => (fun rr => out_at lr rr) <$> reverse (seq 0 (nrows right))) <$> seq 0 (nrows left)).

Lemma length_crossed : length crossed = (nrows left * nrows right)%nat.
Proof. apply length_blocks. intros i. by rewrite length_fmap, length_reverse, length_seq. Qed.

Lemma crossed_at lr rpos : (lr < nrows left)%nat -> (rpos < nrows right)%nat -> crossed !! (lr * nrows right + rpos)%nat = Some (out_at lr (nrows right - 1 - rpos)).
Proof.
  intros Hlr Hrp. unfold crossed. rewrite (concat_block _ (nrows right)); [|done|intros i; by rewrite length_fmap, length_reverse, length_seq|nia].
  rewrite Nat.div_add_l, Nat.div_small, Nat.add_0_r, Nat.add_0_l by lia. rewrite Nat.add_comm, Nat.Div0.mod_add, Nat.mod_small by done. rewrite list_lookup_fmap, reverse_lookup by (rewrite length_seq; lia). rewrite length_seq, lookup_seq_lt by lia. cbn. do 2 f_equal. lia.
Qed.

(** The output under construction: the rows in [A] are written. *)
Definition writing (out : rel) (A : nat -> Prop) : Prop := lanes out = shape_out /\ nrows out = length crossed /\ wide out /\ forall i, A i -> (i < length crossed)%nat -> rows out !! i = crossed !! i.

Lemma writing_weaken out (A A' : nat -> Prop) : writing out A -> (forall i, A' i -> A i) -> writing out A'.
Proof. intros (H1 & H2 & H3 & H4) H. split_and!; [done..|]. intros i Hi. by apply H4, H. Qed.

Lemma cross_worker_ok m : forall lr rpos out A, (rpos < nrows right)%nat -> (lr * nrows right + rpos + m <= length crossed)%nat -> writing out A ->
  exists out', col_join_cross_fill_worker_fn m op left right (lr * nrows right + rpos) lr rpos out 0 = Some (out', 0) /\ writing out' (fun i => A i \/ (lr * nrows right + rpos <= i < lr * nrows right + rpos + m)%nat).
Proof.
  induction m as [|m IH]; intros lr rpos out A Hrp Hm Hwr; cbn [col_join_cross_fill_worker_fn Z.eqb negb].
  { exists out. split; [done|]. eapply writing_weaken; [exact Hwr|]. intros i [Hi|Hi]; [done|lia]. }
  rewrite length_crossed in Hm. assert (Hlr : (lr < nrows left)%nat) by nia. rewrite pair_row_ok by (done || lia). cbn [mbind option_bind]. pose proof (pair_ok op left right Hl Hr Htl Htr Hp lr (nrows right - 1 - rpos) Hlr ltac:(lia)) as Hok. set (x := pair_of op _ _) in *.
  destruct Hwr as (Hlo & Hno & [[Hf1 Hf2] Hwd] & Hat). set (oi := (lr * nrows right + rpos)%nat) in *. rewrite length_crossed in Hno. destruct (lookup_lt_is_Some_2 (rows out) oi ltac:(lia)) as [y Hy]. pose proof (Forall_lookup_1 _ _ _ _ Hwd Hy) as Hyl. cbn beta in Hyl. rewrite Hlo in Hyl.
  rewrite (set_cells_ok shape_out out oi x y Hlo ltac:(lia) Hok Hyl (length x) 0 eq_refl) by (by rewrite drop_0). cbn [mbind option_bind Z.eqb negb]. set (o1 := set_rows _ out).
  assert (Hw1 : writing o1 (fun i => A i \/ i = oi)).
  { unfold o1. split; [done|]. split; [by rewrite length_crossed|]. split; [split; [split; cbn [set_rows nrows capacity rows]; rewrite ?length_insert; lia|]|].
    - cbn [set_rows rows lanes]. apply Forall_insert; [done|]. unfold canon. rewrite length_imap, Hlo. apply (rk_len _ _ Hok).
    - intros i Hi Hlt. cbn [set_rows rows]. destruct (decide (i = oi)) as [->|Hne]; [|rewrite list_lookup_insert_ne by done; apply Hat; [tauto|done]]. rewrite list_lookup_insert_eq by lia. symmetry. by apply crossed_at. }
  destruct (Nat.eqb_spec (S rpos) (nrows right)) as [Hw|Hw].
  - destruct (IH (S lr) O o1 _ Hn ltac:(rewrite length_crossed; lia) Hw1) as (o2 & Ho2 & H2). replace (S oi) with (S lr * nrows right + 0)%nat by (unfold oi; lia). exists o2. split; [done|]. eapply writing_weaken; [exact H2|]. intros i [Hi|Hi]; [tauto|]. destruct (decide (i = oi)); [tauto|right; unfold oi in *; lia].
  - destruct (IH lr (S rpos) o1 _ ltac:(lia) ltac:(rewrite length_crossed; lia) Hw1) as (o2 & Ho2 & H2). replace (S oi) with (lr * nrows right + S rpos)%nat by (unfold oi; lia). exists o2. split; [done|]. eapply writing_weaken; [exact H2|]. intros i [Hi|Hi]; [tauto|]. destruct (decide (i = oi)); [tauto|right; unfold oi in *; lia].
Qed.

Context (n : Z) (Hw : 0 < n) (Hbig : Z.of_nat (length crossed) <= UINT32_MAX /\ n <= UINT32_MAX).

Abbreviation total := (Z.of_nat (length crossed)).
Abbreviation first := (first_row total n).

Lemma cross_bounds_ok w : Z.of_nat w < n -> cross_bounds total n (Z.of_nat w) = (Z.of_nat (first w), Z.of_nat (first (S w))).
Proof.
  intros Hlt. unfold cross_bounds, first_row. rewrite (u64_small (total + n - 1)) by mi. set (c := (total + n - 1) / n). pose proof (Z.mul_div_le (total + n - 1) n Hw) as Hc. fold c in Hc. assert (0 <= c) by (apply Z.div_pos; lia).
  assert (Hwc : 0 <= Z.of_nat w * c /\ Z.of_nat w * c + c <= n * c) by nia. rewrite (u64_small (Z.of_nat w * c)) by mi. rewrite u64_small by mi. rewrite !Z2Nat.id by lia. f_equal. f_equal. lia.
Qed.

Lemma run_cross_ok pa order : Forall (fun w => Z.of_nat w < n) order -> forall out A, writing out A ->
  exists out', run_cross order pa op left right total n out 0 = Some (out', 0) /\ writing out' (fun i => A i \/ exists w, w ∈ order /\ pa_fill pa w = true /\ (first w <= i < first (S w))%nat).
Proof.
  induction 1 as [|w order Hwn _ IH]; intros out A Hwr; cbn [run_cross].
  { exists out. split; [done|]. eapply writing_weaken; [exact Hwr|]. intros i [Hi|(w & Hw0 & _)]; [done|by apply not_elem_of_nil in Hw0]. }
  destruct (pa_fill pa w) eqn:Hpf; cbn [negb].
  - rewrite cross_bounds_ok by done. pose proof (first_row_mono total n Hw ltac:(lia) w) as Hmono. pose proof (first_row_le total n (S w)) as Hle.
    replace (Z.to_nat (Z.of_nat (first (S w)) - Z.of_nat (first w))) with (first (S w) - first w)%nat by lia. rewrite <-Nat2Z.inj_div, <-Nat2Z.inj_mod, !Nat2Z.id. pose proof (Nat.div_mod (first w) (nrows right) ltac:(lia)) as Hdm.
    destruct (cross_worker_ok (first (S w) - first w) (first w / nrows right) (first w mod nrows right) out A) as (o1 & Ho1 & H1); [apply Nat.mod_upper_bound; lia|rewrite (Nat.mul_comm (first w / _)), <-Hdm; lia|done|].
    rewrite (Nat.mul_comm (first w / _)), <-Hdm in Ho1, H1. rewrite Ho1. cbn [mbind option_bind]. destruct (IH o1 _ H1) as (o2 & -> & H2). exists o2. split; [done|].
    eapply writing_weaken; [exact H2|]. intros i [Hi|(v & [->|Hv]%elem_of_cons & Hpv & Hi)]; [tauto|left; right; lia|right; by exists v].
  - destruct (IH out A Hwr) as (o2 & -> & H2). exists o2. split; [done|]. eapply writing_weaken; [exact H2|]. intros i [Hi|(v & [->|Hv]%elem_of_cons & Hpv & Hi)]; [tauto|congruence|right; by exists v].
Qed.

End Cross.

(** A new output. *)
Lemma new_out_ok pooled (sh : shape) ts : column_types sh = Some ts -> let out := set_types (Some ts) (new_auto pooled (ncols sh)) in lanes out = sh /\ wide out /\ nrows out = O /\ stored out = [].
Proof.
  intros Hts. cbn zeta. split; [destruct sh; cbn in *; by subst|]. split; [|split; [done|unfold stored; cbn; by rewrite take_0]]. split; [split; cbn; [lia|by rewrite length_replicate]|]. cbn. apply Forall_replicate, length_replicate.
Qed.

Lemma reserve_wide ok out m : wide out -> nrows out = O -> exists out' rc, col_join_reserve_exact ok out m = (out', rc) /\ ((rc = 0 /\ lanes out' = lanes out /\ wide out' /\ (m <= capacity out')%nat) \/ (rc = ENOMEM /\ ok = false)).
Proof.
  intros [[H1 H2] Hw] H0. unfold col_join_reserve_exact. destruct (Nat.leb_spec m (capacity out)); [exists out, 0; split; [done|]; left; done|]. destruct ok; cbn [negb]; [|exists out, ENOMEM; split; [done|]; by right].
  eexists _, _. split; [done|]. left. cbn [set_capacity set_rows lanes capacity]. split_and!; [done..| |done]. split; [split; cbn [set_capacity set_rows nrows capacity rows]; [lia|by rewrite length_resized]|]. cbn [set_capacity set_rows rows lanes]. unfold resized. apply Forall_app. split; [by apply Forall_take|]. apply Forall_replicate, length_replicate.
Qed.

Definition cross_lucky (e : join_env) (pa : par_env) : Prop := je_out e = true /\ je_types e = true /\ pa_queue pa = true /\ pa_ctxs pa = true /\ pa_reserve pa = true /\ forall w, pa_fill pa w = true.

(** The tasks of the workers run in some order. *)
Definition cross_order (pa : par_env) (left right : rel) : Prop :=
  pa_fill_order pa ≡ₚ seq 0 (Z.to_nat (Z.min (Z.of_nat (nrows left * nrows right)) (num_workers pa))).

Lemma scan_digits_nonneg t : forall acc n, 0 <= acc -> 0 <= (StringOps.StringOps.scan_digits t acc n).1.
Proof.
  induction t as [|c t IH]; intros acc n Ha; cbn [StringOps.StringOps.scan_digits]; [done|]. destruct (StringOps.StringOps.isdigit c) eqn:Hd; [|done]. apply IH. unfold StringOps.StringOps.isdigit in Hd. apply andb_true_iff in Hd as [Hd%Z.leb_le _]. lia.
Qed.

Lemma min_left_nonneg env : 0 <= col_join_parallel_min_left_rows env.
Proof.
  unfold col_join_parallel_min_left_rows, WL_JOIN_PAR_MIN_LEFT_ROWS_DEFAULT. destruct env as [[|c str]|]; [lia| |lia]. assert (Hv : 0 <= (scan_number (c :: str)).1.1.2).
  { unfold scan_number. set (t := StringOps.StringOps.skip_space _). destruct (match t with [] => _ | _ => _ end) as [neg t']. pose proof (scan_digits_nonneg t' 0 0 ltac:(lia)) as H. by destruct (StringOps.StringOps.scan_digits t' 0 0). }
  destruct (scan_number _) as [[[neg v] m] rest]. cbn in Hv. assert (Hu : 0 <= u64 (- v)) by (unfold u64; apply Z.mod_pos_bound; lia). destruct neg; destruct (_ || _); lia.
Qed.

Lemma parallel_cross_ok e pa l op (left right : rel) : readable left -> readable right -> typed left -> typed right -> proj_ok op -> 0 <= join_output_limit l -> is_uint32 (num_workers pa) -> cross_order pa left right ->
  col_join_should_parallelize_cross pa l left right = true ->
  exists rc made, col_join_parallel_cross e pa l op left right = Some (rc, made, false) /\
    ((rc = EINVAL /\ made = None /\ nrows right = O) \/
     (rc = 0 /\ (exists out, made = Some out /\ lanes out = join_shape op left right /\ fits out /\ stored out = crossed op left right) /\ (0 < join_output_limit l -> Z.of_nat (nrows left * nrows right) < join_output_limit l)) \/
     (rc = ENOMEM /\ made = None /\ (cross_lucky e pa -> UINT32_MAX < Z.of_nat (nrows left * nrows right)))).
Proof.
  intros Hl Hr Htl Htr Hp Hlim Hnw Hord Hpar. unfold col_join_should_parallelize_cross, col_join_should_parallelize_rows in Hpar. destruct (coordinator pa); [done|]. cbn [orb] in Hpar. destruct (Z.leb_spec (num_workers pa) 1) as [|Hw1]; [done|].
  set (ml := if _ =? 0 then 1 else _) in Hpar. destruct (_ && _) eqn:Hmin in Hpar; [|done]. cbn [negb] in Hpar. destruct (_ && _) eqn:Hov in Hpar; [done|]. apply andb_true_iff in Hmin as [Hmin1%Z.leb_le Hmin2%Z.leb_le].
  unfold col_join_parallel_cross. rewrite (proj2 (Z.leb_gt _ _) Hw1). cbn [orb]. destruct (Nat.eqb_spec (nrows right) 0) as [Hz|Hz]; [exists EINVAL, None; split; [done|]; by left|].
  rewrite <-Nat2Z.inj_mul. set (T := Z.of_nat (nrows left * nrows right)) in *.
  assert (Hlt : 0 < join_output_limit l -> T < join_output_limit l) by (intros H; apply orb_true_iff in Hpar as [H0%Z.eqb_eq|H0%Z.ltb_lt]; [lia|rewrite <-Nat2Z.inj_mul in H0; done]).
  assert ((0 <? join_output_limit l) && (join_output_limit l <=? T) = false) as ->. { destruct (Z.ltb_spec 0 (join_output_limit l)) as [H|H]; [|done]. cbn. apply Z.leb_gt. by apply Hlt. }
  cbn [negb]. destruct (Z.ltb_spec UINT32_MAX T) as [Hbig|Hbig]; [eexists _, _; split; [done|]; right; right; by split_and!|].
  assert (HT2 : 2 <= T).
  { assert (2 <= Z.of_nat (nrows left)); [|unfold T; nia]. pose proof (min_left_nonneg (min_left_env pa)) as Hml. assert (Hml1 : 1 <= ml) by (unfold ml; destruct (Z.eqb_spec (col_join_parallel_min_left_rows (min_left_env pa)) 0); lia). clearbody ml. destruct (decide (ml = 1)) as [->|]; [rewrite u32_small in Hmin2 by mi; lia|lia]. }
  set (active := if T <? num_workers pa then T else num_workers pa). assert (Hact : active = Z.min T (num_workers pa) /\ 2 <= active) by (unfold active; destruct (Z.ltb_spec T (num_workers pa)); lia). clearbody active. destruct Hact as [Hact Hact2]. rewrite (proj2 (Z.leb_gt _ _)) by lia.
  destruct (pa_queue pa) eqn:E1; cbn [negb]; [|eexists _, _; split; [done|]; right; right; split_and!; [done..|]; intros (_ & _ & ? & _); congruence].
  destruct (je_out e) eqn:E2; cbn [negb]; [|eexists _, _; split; [done|]; right; right; split_and!; [done..|]; intros (? & _); congruence].
  rewrite output_types_ok, output_width_ok by done. destruct (column_types (join_shape op left right)) as [ts|] eqn:Hts; [|done]. cbn [mbind option_bind].
  destruct (je_types e) eqn:E3; cbn [negb]; [|eexists _, _; split; [done|]; right; right; split_and!; [done..|]; intros (_ & ? & _); congruence].
  destruct (new_out_ok false (join_shape op left right) ts Hts) as (Hlo & Hwo & Hno & Hso). set (out := set_types _ _) in *. destruct (reserve_wide (pa_reserve pa) out (Z.to_nat T) Hwo Hno) as (o1 & rc & -> & [(-> & Hl1 & Hw1' & Hcap)|(-> & Hres)]); cbn [Z.eqb negb ENOMEM].
  2: { eexists _, _. split; [done|]. right. right. split_and!; [done..|]. intros (_ & _ & _ & _ & ? & _). congruence. }
  destruct (pa_ctxs pa) eqn:E4; cbn [negb]; [|eexists _, _; split; [done|]; right; right; split_and!; [done..|]; intros (_ & _ & _ & ? & _); congruence].
  assert (HTn : Z.to_nat T = length (crossed op left right)) by (rewrite length_crossed; unfold T; lia). assert (HTz : T = Z.of_nat (length (crossed op left right))) by (rewrite length_crossed; done).
  assert (Hstart : writing op left right (set_nrows (Z.to_nat T) o1) (fun _ => False)).
  { split; [cbn [set_nrows lanes]; congruence|]. split; [cbn [set_nrows nrows]; lia|]. split; [|done]. destruct Hw1' as [[F1 F2] F3]. split; [split; cbn [set_nrows nrows capacity rows]; lia|done]. }
  destruct (order_bounds active (pa_fill_order pa)) as [Hob Hoall]; [unfold cross_order in Hord; by rewrite Hord, Hact|].
  destruct (run_cross_ok op left right Hl Hr Htl Htr Hp ltac:(lia) active ltac:(lia) ltac:(mi) pa _ Hob _ _ Hstart) as (o2 & Hrun & Hfin). rewrite <-HTz in Hrun. rewrite Hrun. cbn [mbind option_bind].
  destruct (forallb (pa_fill pa) (seq 0 (Z.to_nat active))) eqn:Hsub; cbn [negb Z.eqb ENOMEM].
  2: { eexists _, _. split; [done|]. right. right. split_and!; [done..|]. intros (_ & _ & _ & _ & _ & Ha). rewrite (proj2 (forallb_forall _ _)) in Hsub by (intros; apply Ha). done. }
  pose proof (submitted active _ Hsub) as Hall. eexists _, _. split; [done|]. right. left. split; [done|]. split; [|done]. exists o2. destruct Hfin as (G1 & G2 & [G3 G4] & G5). split_and!; [done..|].
  apply list_eq. intros i. unfold stored. rewrite G2. destruct (lt_dec i (length (crossed op left right))) as [Hi|Hi]; [|by rewrite lookup_take_ge, (lookup_ge_None_2 (crossed op left right)) by lia]. rewrite lookup_take_lt by done. apply G5; [|done].
  right. destruct (chunk_of (Z.of_nat (length (crossed op left right))) active ltac:(lia) i ltac:(lia)) as (w & Hw & Hiw). exists w. split_and!; [by apply Hoall|by apply Hall|lia|lia].
Qed.


(** ** The joined rows *)

Section Joined.

Context (op : join_op) (left right : rel) (lk rk : list nat).

(** Left rows first, unless the left relation alone is unary. *)
Definition left_major : bool := (ncols right =? 1)%nat || negb ((ncols left =? 1)%nat && (length lk =? 1)%nat).
Definition joined : list row :=
  if left_major then concat ((fun i => out_row op left right i <$> right_partners left right lk rk i) <$> seq 0 (nrows left))
  else concat ((fun j => (fun i => out_row op left right i j) <$> left_partners left right lk rk j) <$> seq 0 (nrows right)).

(** The reference: the pairs of rows that join. *)
Definition pairs_that_join : list (row * row) := filter (fun p => joins left lk right rk p.1 p.2 = true) (concat ((fun x => (fun y => (x, y)) <$> stored right) <$> stored left)).

Lemma concat_map_perm {A B} (f g : A -> list B) l : (forall x, x ∈ l -> f x ≡ₚ g x) -> concat (f <$> l) ≡ₚ concat (g <$> l).
Proof. induction l as [|x l IH]; intros H; [done|]. cbn [fmap list_fmap concat]. rewrite (H x) by left. rewrite IH; [done|]. intros y Hy. apply H. by right. Qed.

Lemma concat_swap {A B C} (h : A -> B -> list C) (l : list A) (m : list B) : concat ((fun x => concat ((fun y => h x y) <$> m)) <$> l) ≡ₚ concat ((fun y => concat ((fun x => h x y) <$> l)) <$> m).
Proof.
  induction l as [|x l IH]; cbn [fmap list_fmap concat].
  - induction m as [|y m IHm]; [done|]. cbn [fmap list_fmap concat]. by rewrite <-IHm.
  - rewrite IH. clear IH. induction m as [|y m IHm]; [done|]. cbn [fmap list_fmap concat]. rewrite <-IHm. rewrite <-!app_assoc. f_equiv. rewrite !app_assoc. f_equiv. apply Permutation_app_comm.
Qed.

Lemma filter_concat_single {A B} (f : A -> bool) (g : A -> B) l : g <$> filter (fun x => f x = true) l = concat ((fun x => if f x then [g x] else []) <$> l).
Proof. induction l as [|x l IH]; [done|]. rewrite filter_cons. cbn [fmap list_fmap concat]. destruct (f x); [rewrite decide_True by done; cbn; by rewrite <-IH|rewrite decide_False by done; by rewrite <-IH]. Qed.

Lemma stored_seq (r : rel) : fits r -> stored r = (fun i => stored r !!! i) <$> seq 0 (nrows r).
Proof.
  intros Hf. apply list_eq. intros i. rewrite list_lookup_fmap. pose proof (length_stored r Hf). destruct (lt_dec i (nrows r)) as [Hi|Hi]; [rewrite lookup_seq_lt by done; apply list_lookup_lookup_total_lt; lia|rewrite lookup_seq_ge, lookup_ge_None_2 by lia; done].
Qed.

Lemma filter_pairs {A B C D E} (f : A * B -> bool) (g : A * B -> C) (F : D -> A) (G : E -> B) ls ms : g <$> filter (fun p => f p = true) (concat ((fun x => (fun y => (x, y)) <$> (G <$> ms)) <$> (F <$> ls))) =
  concat ((fun i => concat ((fun j => if f (F i, G j) then [g (F i, G j)] else []) <$> ms)) <$> ls).
Proof.
  induction ls as [|i ls IH]; [done|]. cbn [fmap list_fmap concat]. rewrite filter_app, fmap_app. f_equal; [|exact IH]. rewrite filter_concat_single. by rewrite <-!list_fmap_compose.
Qed.

(** The output holds each pair that joins once. *)
Lemma joined_perm : fits left -> fits right -> joined ≡ₚ (fun p => canon (join_shape op left right) (pair_of op p.1 p.2)) <$> pairs_that_join.
Proof.
  intros Hfl Hfr. set (h := fun i j => if joins left lk right rk (stored left !!! i) (stored right !!! j) then [out_row op left right i j] else []).
  assert (Href : (fun p => canon (join_shape op left right) (pair_of op p.1 p.2)) <$> pairs_that_join = concat ((fun i => concat ((fun j => h i j) <$> seq 0 (nrows right))) <$> seq 0 (nrows left))).
  { unfold pairs_that_join. rewrite (f_equal2 (fun ls rs => concat ((fun x => (fun y => (x, y)) <$> rs) <$> ls)) (stored_seq left Hfl) (stored_seq right Hfr)). apply (filter_pairs (fun p => joins left lk right rk p.1 p.2)). }
  rewrite Href. unfold joined. destruct left_major.
  - apply concat_map_perm. intros i _. unfold right_partners. rewrite (filter_concat_single (fun j => joins left lk right rk (stored left !!! i) (stored right !!! j))). by rewrite (reverse_Permutation (seq 0 (nrows right))).
  - rewrite concat_swap. apply concat_map_perm. intros j _. unfold left_partners. rewrite (filter_concat_single (fun i => joins left lk right rk (stored left !!! i) (stored right !!! j))). by rewrite (reverse_Permutation (seq 0 (nrows left))).
Qed.

End Joined.

(** ** The rows of the operator *)

(** A table over the rows of [build]. *)
Lemma table_built (build : rel) ks : readable build -> key_cols build ks ->
  (exists k head next, 4 <= k <= 31 /\ col_join_bucket_count (Z.of_nat (nrows build)) = Some (2 ^ k) /\ build_chains (nrows build) build ks (2 ^ k - 1) 0 (replicate (Z.to_nat (2 ^ k)) 0) (replicate (Nat.max (nrows build) 1) 0) = Some (head, next) /\ chains_of build ks k head next (nrows build)) \/
  (2 ^ 30 < Z.of_nat (nrows build) /\ col_join_bucket_count (Z.of_nat (nrows build)) = None).
Proof.
  intros Hb Hks. destruct (bucket_count_ok (Z.of_nat (nrows build)) ltac:(lia)) as [(k & Hk & Hc)|?]; [left|by right].
  assert (Hbig : Z.of_nat (nrows build) < 2 ^ 32). { unfold col_join_bucket_count in Hc. change (UINT32_MAX / 2) with 2147483647 in Hc. destruct (Z.ltb_spec 2147483647 (Z.of_nat (nrows build))); [done|lia]. }
  destruct (build_chains_ok build ks k Hb Hks ltac:(lia) Hbig (nrows build) 0 _ _ eq_refl (chains_empty build ks k (Nat.max (nrows build) 1) ltac:(lia) ltac:(lia))) as (head & next & Hbc & Hch). by exists k, head, next.
Qed.

Lemma joins_sym (left right : shape) lk rk x y : joins left lk right rk x y = bool_decide (join_key right rk y = join_key left lk x).
Proof. unfold joins. apply bool_decide_ext. split; intros H; by rewrite H. Qed.

Lemma singleton_length {A} (l : list A) : length l = 1%nat -> exists x, l = [x].
Proof. destruct l as [|x [|? ?]]; try done. intros _. by exists x. Qed.

Section Produced.

Context (e : op_env) (pa : par_env) (l : limits) (op : join_op) (left right : rel) (lk rk : list nat).
Context (Hl : readable left) (Hr : readable right) (Htl : typed left) (Htr : typed right) (Hp : proj_ok op).
Context (Hlk : key_cols left lk) (Hrk : key_cols right rk) (Hlen : length lk = key_count op) (Hlen' : length rk = key_count op).

Abbreviation shape_out := (join_shape op left right).
Abbreviation rows_out := (joined op left right lk rk).

(** No allocation of the rows fails. *)
Definition rows_lucky : Prop := je_tables e = true /\ o_key_row e = true /\ (forall i, je_grow e i = true) /\ cross_lucky e pa.

(** All rows were produced, the emission of one of them ended the join, or there
    was no memory. *)
Definition produces (res : option (rel * Z * bool)) : Prop :=
  exists out rc frees, res = Some (out, rc, frees) /\
    ((rc = 0 /\ lanes out = shape_out /\ fits out /\ stored out = rows_out /\ (shared l = None -> 0 < join_output_limit l -> Z.of_nat (length rows_out) < join_output_limit l)) \/
     (rc = EOVERFLOW /\ exists n, (0 < n <= length rows_out)%nat /\ stops l n = true) \/
     (rc = ENOMEM /\ (rows_lucky -> 2 ^ 30 < Z.of_nat (nrows left) \/ 2 ^ 30 < Z.of_nat (nrows right) \/ 2 ^ 31 < Z.of_nat (length rows_out)))).

Lemma produces_nomem out frees : (rows_lucky -> 2 ^ 30 < Z.of_nat (nrows left) \/ 2 ^ 30 < Z.of_nat (nrows right) \/ 2 ^ 31 < Z.of_nat (length rows_out)) -> produces (Some (out, ENOMEM, frees)).
Proof. intros H. eexists _, _, _. split; [done|]. right. right. by split. Qed.

Lemma emits_produces out frees res : nrows out = O -> stored out = [] -> emits e l shape_out out rows_out res -> produces ('(o, rc) ← res; Some (o, rc, frees)).
Proof.
  intros Hn Hs (o & rc & -> & Hlo & [Hfo _] & H). cbn [mbind option_bind]. exists o, rc, frees. split; [done|]. rewrite Hn in H. cbn [plus Nat.add] in H. destruct H as [(-> & Hst & Hno)|[(-> & n & Hn' & Hst)|(-> & Hg)]].
  - left. rewrite Hs in Hst. split_and!; [done..|]. intros Hsh Hlim. destruct (length rows_out) as [|m] eqn:Hm; [lia|]. specialize (Hno (S m) ltac:(lia)). unfold stops, col_join_output_limit_reached in Hno. rewrite Hsh in Hno. apply orb_false_iff in Hno as [Hno _].
    rewrite (proj2 (Z.eqb_neq _ _)) in Hno by lia. by apply Z.leb_gt in Hno.
  - right. left. split; [done|]. by exists n.
  - right. right. split; [done|]. intros (_ & _ & Hgrow & _). specialize (Hg Hgrow). lia.
Qed.

Lemma unary_rows_ok out : ((ncols right =? 1)%nat || (ncols left =? 1)%nat) && (key_count op =? 1)%nat = true -> lanes out = shape_out -> wide out -> nrows out = O -> stored out = [] ->
  produces (unary_rows e l op left right lk rk out).
Proof.
  intros Hun Hlo Hw Hn Hs. apply andb_true_iff in Hun as [Hun Hkc%Nat.eqb_eq]. destruct (singleton_length lk ltac:(lia)) as [lk0 Elk]. destruct (singleton_length rk ltac:(lia)) as [rk0 Erk]. assert (Klk : key_cols left [lk0]) by (rewrite <-Elk; exact Hlk). assert (Krk : key_cols right [rk0]) by (rewrite <-Erk; exact Hrk).
  unfold unary_rows. assert (rd lk 0 = Some lk0) as -> by (by rewrite Elk). assert (rd rk 0 = Some rk0) as -> by (by rewrite Erk). cbn [mbind option_bind]. pose proof (Forall_inv Klk) as Hlk0. pose proof (Forall_inv Krk) as Hrk0. cbn beta in Hlk0, Hrk0.
  destruct (Nat.eqb_spec (ncols right) 1) as [H1|H1].
  - destruct (table_built right [rk0] Hr Krk) as [(k & head & next & Hk & -> & Hbc & Hch)|[Hbig ->]]; [|apply produces_nomem; intros _; lia]. destruct (je_tables e) eqn:Et; cbn [negb]; [|apply produces_nomem; intros (? & _); congruence].
    rewrite Hbc. cbn [mbind option_bind]. apply (emits_produces out); [done..|]. rewrite Elk, Erk. unfold joined, left_major. rewrite (proj2 (Nat.eqb_eq _ _) H1). cbn [orb].
    apply for_rows_ok; [|done..]. intros j o Hj Hlo' Hwo. unfold right_partners. erewrite list_filter_iff; [apply (unary_step_ok e l op left right right left rk0 lk0 k head next true j o (out_row op left right j)); try done; try lia; intros bi o' Hbi; apply emit_pair; (done || lia)|].
    intros bi. by rewrite joins_sym.
  - cbn [orb] in Hun. destruct (table_built left [lk0] Hl Klk) as [(k & head & next & Hk & -> & Hbc & Hch)|[Hbig ->]]; [|apply produces_nomem; intros _; lia]. destruct (je_tables e) eqn:Et; cbn [negb]; [|apply produces_nomem; intros (? & _); congruence].
    rewrite Hbc. cbn [mbind option_bind]. apply (emits_produces out); [done..|]. rewrite Elk, Erk. unfold joined, left_major. rewrite (proj2 (Nat.eqb_neq _ _) H1), Hun. cbn [orb andb negb length Nat.eqb].
    apply for_rows_ok; [|done..]. intros j o Hj Hlo' Hwo. unfold left_partners. apply (unary_step_ok e l op left right left right lk0 rk0 k head next false j o (fun i => out_row op left right i j)); try done; try lia; intros bi o' Hbi; apply emit_pair; (done || lia).
Qed.

Lemma keyless : lk = [] -> rk = [] -> rows_out = crossed op left right.
Proof.
  intros -> ->. unfold joined, left_major. cbn [length Nat.eqb]. rewrite andb_false_r. cbn [negb]. rewrite orb_true_r. unfold crossed. f_equal. apply list_fmap_ext. intros _ i _. f_equal. unfold right_partners. apply filter_all, Forall_forall. intros j _. unfold joins. by apply bool_decide_eq_true_2.
Qed.

Lemma keyed_rows_ok arr out : ((ncols right =? 1)%nat || (ncols left =? 1)%nat) && (key_count op =? 1)%nat = false -> lanes out = shape_out -> wide out -> nrows out = O -> stored out = [] ->
  floats_agree left lk right rk -> (forall a, arr = Some a -> key_count op <> O /\ serves rk a right) -> 0 <= join_output_limit l -> is_uint32 (num_workers pa) -> cross_order pa left right ->
  produces (keyed_rows e pa l op arr left right lk rk out).
Proof.
  intros Hun Hlo Hw Hn Hs Hfl Harr Hlim Hnw Hord. assert (Hmaj : left_major left right lk = true).
  { unfold left_major. rewrite Hlen. destruct (ncols right =? 1)%nat, (ncols left =? 1)%nat, (key_count op =? 1)%nat; done. }
  unfold keyed_rows. destruct arr as [a|].
  - destruct (Harr a eq_refl) as [Hkc Hsv]. destruct (o_key_row e) eqn:Ek; cbn [negb]; [|apply produces_nomem; intros (_ & ? & _); congruence]. apply (emits_produces out); [done..|]. unfold joined. rewrite Hmaj.
    apply arranged_rows_ok; try done; [lia|]. rewrite length_replicate. destruct rk as [|r rk']; [cbn in Hlen'; lia|]. pose proof (Forall_inv Hrk). cbn beta in *. lia.
  - clear Harr. destruct (table_built right rk Hr Hrk) as [(k & head & next & Hk & -> & Hbc & Hch)|[Hbig ->]]; [|apply produces_nomem; intros _; lia]. destruct (je_tables e) eqn:Et; cbn [negb]; [|apply produces_nomem; intros (? & _); congruence].
    rewrite Hbc. cbn [mbind option_bind]. destruct ((key_count op =? 0)%nat && _) eqn:Hpar.
    + apply andb_true_iff in Hpar as [Hkc%Nat.eqb_eq Hpar]. pose proof (keyless (nil_length_inv lk ltac:(lia)) (nil_length_inv rk ltac:(lia))) as Hjo.
      destruct (parallel_cross_ok e pa l op left right Hl Hr Htl Htr Hp Hlim Hnw Hord Hpar) as (rc & made & -> & [(-> & -> & Hz)|[(-> & (o & -> & Hlo' & Hfo & Hso) & Hlt)|(-> & -> & Hno)]]); cbn [mbind option_bind Z.eqb EINVAL ENOMEM andb default from_option].
      * eexists _, _, _. split; [done|]. left. assert (H0 : length rows_out = O) by (rewrite Hjo, length_crossed; lia). rewrite H0. apply nil_length_inv in H0. rewrite H0, Hs. split_and!; try done. apply Hw.
      * eexists _, _, _. split; [done|]. left. unfold id. rewrite Hso, Hjo. split_and!; try done. intros _ H. rewrite length_crossed. by apply Hlt.
      * apply produces_nomem. intros (_ & _ & _ & Hc). specialize (Hno Hc). rewrite Hjo, length_crossed. right. right. mi.
    + apply (emits_produces out); [done..|]. unfold joined. rewrite Hmaj. apply for_rows_ok; [|done..]. intros j o Hj Hlo' Hwo. apply ephemeral_step_ok; try done; [|lia]. split; try done; [cbn [p_lk p_rk]; congruence|]. exists k. split; [lia|done].
Qed.

End Produced.

(** ** The operator *)

(** What a join requires of its inputs. *)
Record joinable (op : join_op) (left right : rel) (ln rn : names) : Prop := {
  ja_left : readable left /\ typed left;
  ja_right : readable right /\ typed right;
  ja_proj : proj_ok op;
  ja_lkeys : names_ok ln (ncols left) /\ keys_given (left_keys op) (key_count op) /\ ((0 < ncols left)%nat \/ key_count op = O);
  ja_rkeys : names_ok rn (ncols right) /\ keys_given (right_keys op) (key_count op) /\ ((0 < ncols right)%nat \/ key_count op = O) }.

Section Operator.

Context {W : Type} `{!Host W} {K : Type}.
Context (e : op_env) (pa : par_env) (l : limits) (op : jop).

(** No allocation fails. *)
Definition op_lucky : Prop := je_keys e = true /\ je_out e = true /\ je_types e = true /\ je_tmp e = true /\ rows_lucky e pa.

Abbreviation relation_on r d rest := (En (Some r) true d None 0 ENTRY_RELATION None :: rest).

(** How the join of [left] and [right] ends.  [flag]: the output is a delta. *)
Definition join_ends (left right : rel) (ln rn : names) (own flag : bool) (rest : stack K) (s' : stack K) (rc : Z) (freed : list (resource K)) : Prop :=
  let lk := lkeys op ln left in
  let rk := rkeys op rn right in
  let pairs := pairs_that_join left right lk rk in
  (own = true -> F_relation left ∈ freed) /\
  ((rc = 0 /\ floats_agree left lk right rk /\ exists out d, s' = relation_on out d rest /\ lanes out = join_shape op left right /\ fits out /\
      ((d = flag /\ stored out ≡ₚ (fun p => canon (join_shape op left right) (pair_of op p.1 p.2)) <$> pairs /\ (shared l = None -> 0 < join_output_limit l -> Z.of_nat (length pairs) < join_output_limit l)) \/
       (pressure l 0 = true /\ is_worker l = false /\ stored out = []))) \/
   (rc = EINVAL /\ s' = rest /\ ~ floats_agree left lk right rk) \/
   (rc = EOVERFLOW /\ s' = rest /\ exists n, (0 < n <= length pairs)%nat /\ stops l n = true) \/
   (rc = ENOMEM /\ s' = rest /\ (op_lucky -> 2 ^ 30 < Z.of_nat (nrows left) \/ 2 ^ 30 < Z.of_nat (nrows right) \/ 2 ^ 31 < Z.of_nat (length pairs)))).

Lemma joined_length (left right : rel) lk rk : fits left -> fits right -> length (joined op left right lk rk) = length (pairs_that_join left right lk rk).
Proof. intros Hl Hr. rewrite (Permutation_length (joined_perm op left right lk rk Hl Hr)). by rewrite length_fmap. Qed.

Lemma join_nomem left right ln rn own flag rest freed : (own = true -> F_relation left ∈ freed) -> (op_lucky -> False) -> join_ends left right ln rn own flag rest rest ENOMEM freed.
Proof. intros Hown Hno. split; [done|]. do 3 right. split_and!; [done..|]. intros H. by destruct (Hno H). Qed.

Lemma join_op_ok table sessions se arrs ln i (rest : stack K) left own delta segs nseg fc mc (w w' : W) fc' name full chosen used right rid is_copy :
  right_relation op = Some name -> find_rel se name = Some full -> choose_right se (j_mode op) name delta full = Some (chosen, used) ->
  filter_right e table sessions op name i chosen used fc w = Some (w', fc', Some (right, rid, is_copy)) ->
  materialized op = false \/ is_Some (projection op) -> joinable op left right ln (s_names chosen) ->
  (forall a, find_arrangement arrs l op used (rkeys op (s_names chosen) right) = Some a -> serves (rkeys op (s_names chosen) right) a right) ->
  0 <= join_output_limit l -> is_uint32 (num_workers pa) -> cross_order pa left right -> (length rest < COL_STACK_MAX)%nat ->
  exists s' rc freed, wl_columnar_join_op e pa l table sessions se arrs op ln i (En (Some left) own delta segs nseg ENTRY_RELATION None :: rest) fc mc w = Some (w', fc', mc, s', rc, freed, []) /\
    join_ends left right ln (s_names chosen) own (negb (bool_decide (is_Some (projection op))) && (delta || used)) rest s' rc freed.
Proof.
  intros Hname Hfull Hchoose Hfilter Hmat [[Hl Htl] [Hr Htr] Hp (Hln & Hlk & Hlc) (Hrn & Hrk & Hrc)] Harr Hlim Hnw Hord Hrest.
  destruct (resolve_keys_ok ln (ncols left) (left_keys op) (key_count op) Hln Hlk Hlc) as (lk & Elk & Llk & Flk).
  destruct (resolve_keys_ok (s_names chosen) (ncols right) (right_keys op) (key_count op) Hrn Hrk Hrc) as (rk & Erk & Lrk & Frk).
  assert (Kl : lkeys op ln left = lk) by (unfold lkeys; by rewrite Elk). assert (Kr : rkeys op (s_names chosen) right = rk) by (unfold rkeys; by rewrite Erk).
  assert (Hm : materialized op && negb (bool_decide (is_Some (projection op))) = false) by (destruct Hmat as [->|Hmat]; [done|rewrite (bool_decide_eq_true_2 _ Hmat); by rewrite andb_false_r]).
  assert (Hin : own = true -> F_relation left ∈ (if own then [F_relation (K := K) left] else [])) by (intros ->; left).
  unfold wl_columnar_join_op. cbn [eval_stack_pop_relation eval_stack_pop kind e_rel owned is_delta Z.eqb negb ENTRY_CONTINUATION ENTRY_RELATION mbind option_bind]. rewrite Hname, Hfull, Hchoose, Hfilter. cbn [mbind option_bind]. rewrite Hm. cbn [mbind option_bind].
  destruct (je_keys e) eqn:E1; cbn [negb]; [|eexists _, _, _; split; [done|]; apply join_nomem; [done|]; intros (? & _); congruence].
  rewrite Elk. cbn [mbind option_bind]. rewrite Erk. cbn [mbind option_bind]. destruct (compatible_ok left right lk rk Htl Htr Flk Frk ltac:(lia)) as (b & -> & Hb). cbn [mbind option_bind].
  destruct b; cbn [negb]; [|eexists _, _, _; split; [done|]; split; [intros Ho; apply elem_of_app; right; by apply Hin|]; right; left; rewrite Kl, Kr; split_and!; [done..|]; by rewrite <-Hb].
  pose proof (proj1 Hb eq_refl) as Hfl. destruct (je_out e) eqn:E2; cbn [negb]; [|eexists _, _, _; split; [done|]; apply join_nomem; [done|]; intros (_ & ? & _); congruence].
  rewrite output_types_ok, output_width_ok by done. destruct (column_types (join_shape op left right)) as [ts|] eqn:Hts; [|done]. cbn [mbind option_bind].
  destruct (je_types e) eqn:E3; cbn [negb]; [|eexists _, _, _; split; [done|]; apply join_nomem; [intros Ho; right; by apply Hin|]; intros (_ & _ & ? & _); congruence].
  destruct (new_out_ok (je_pooled e && true) (join_shape op left right) ts Hts) as (Hlo & Hwo & Hno & Hso). set (out := set_types _ _) in *.
  assert (Hpush : forall o d, eval_stack_push_delta rest (Some o) true d = (relation_on o d rest, 0)) by (intros; unfold eval_stack_push_delta, eval_stack_push; by rewrite (proj2 (Nat.leb_gt _ _)) by done).
  destruct (pressure l 0 && negb (is_worker l)) eqn:Hpr.
  { apply andb_true_iff in Hpr as [Hpr Hnwk%negb_true_iff]. unfold eval_stack_push. rewrite (proj2 (Nat.leb_gt _ _)) by done. eexists _, _, _. split; [done|]. split; [done|]. left. rewrite Kl, Kr. split_and!; [done..|]. eexists _, _. split_and!; [done..|apply Hwo|]. by right. }
  destruct (je_tmp e) eqn:E4; cbn [negb]; [|eexists _, _, _; split; [done|]; apply join_nomem; [intros Ho; right; by apply Hin|]; intros (_ & _ & _ & ? & _); congruence].
  rewrite Kr in Harr. assert (Hprod : produces e pa l op left right lk rk (if ((ncols right =? 1)%nat || (ncols left =? 1)%nat) && (key_count op =? 1)%nat then unary_rows e l op left right lk rk out
      else keyed_rows e pa l op (find_arrangement arrs l op used rk) left right lk rk out)).
  { clearbody out. destruct (((ncols right =? 1)%nat || _) && _) eqn:Hun; [by apply unary_rows_ok|]. apply keyed_rows_ok; try done. intros a Ha. split; [|by apply Harr]. unfold find_arrangement in Ha. by destruct (Nat.eqb_spec (key_count op) 0). }
  pose proof (joined_perm op left right lk rk (proj1 Hl) (proj1 Hr)) as Hperm. pose proof (joined_length left right lk rk (proj1 Hl) (proj1 Hr)) as Hjl.
  destruct Hprod as (o & rc & frees & -> & H). cbn [mbind option_bind]. rewrite Hjl in H. destruct H as [(-> & Hlo' & Hfo & Hst & Hlt)|[(-> & Hn)|(-> & Hg)]]; cbn [Z.eqb negb ENOMEM EOVERFLOW].
  - unfold publish. rewrite Hm, Hpush. cbn [mbind option_bind]. eexists _, _, _. split; [done|]. split; [intros Ho; apply elem_of_app; right; apply elem_of_app; left; by apply Hin|]. left. rewrite Kl, Kr. split_and!; [done..|]. eexists _, _. split_and!; [done..|]. left. split; [done|]. rewrite Hst. by split.
  - eexists _, _, _. split; [done|]. split; [intros Ho; right; apply elem_of_app; right; by apply Hin|]. right. right. left. rewrite Kl, Kr. done.
  - eexists _, _, _. split; [done|]. split; [intros Ho; right; apply elem_of_app; right; by apply Hin|]. do 3 right. rewrite Kl, Kr. split_and!; [done..|]. intros (_ & _ & _ & _ & Hlk'). by apply Hg.
Qed.

End Operator.

(** C10: A join whose result is not shared through the cache pushes exactly the
    pairs of a left row and a row of the chosen and filtered right relation with
    equal keys, each once, through a table, a valid arrangement or workers, in
    whatever order these run; fewer than the limit.  Else it pushes nothing and
    reports floats that are to be joined with other columns, a limit that one of
    the pairs exhausts, or, with enough memory, more than 2^30 rows of an input or
    2^31 pairs.  A coordinator under memory pressure pushes no rows instead.  The
    left input is freed if it is owned. *)
Theorem join_exact {W} `{!Host W} {K} e pa l op table sessions se arrs ln i (rest : stack K) left own delta segs nseg fc mc (w w' : W) fc' name full chosen used right rid is_copy :
  right_relation op = Some name -> find_rel se name = Some full -> choose_right se (j_mode op) name delta full = Some (chosen, used) ->
  filter_right e table sessions op name i chosen used fc w = Some (w', fc', Some (right, rid, is_copy)) ->
  materialized op = false \/ is_Some (projection op) -> joinable op left right ln (s_names chosen) ->
  (forall a, find_arrangement arrs l op used (rkeys op (s_names chosen) right) = Some a -> serves (rkeys op (s_names chosen) right) a right) ->
  0 <= join_output_limit l -> is_uint32 (num_workers pa) -> cross_order pa left right -> (length rest < COL_STACK_MAX)%nat ->
  exists s' rc freed, wl_columnar_join_op e pa l table sessions se arrs op ln i (En (Some left) own delta segs nseg ENTRY_RELATION None :: rest) fc mc w = Some (w', fc', mc, s', rc, freed, []) /\
    join_ends e pa l op left right ln (s_names chosen) own (negb (bool_decide (is_Some (projection op))) && (delta || used)) rest s' rc freed.
Proof. apply join_op_ok. Qed.

#[local] Existing Instance ExprProof.list_host.

Definition r_name : list Z := [114].
Definition plain_session : session := Sess (fun n => if bool_decide (n = r_name) then Some (Srel rrows rnames (Snap 2 1 1)) else None) 0 false false false false false.
Definition join_on (lc rc : list Z) (mat : bool) : jop := Jo (Jop (Some [Some lc]) (Some [Some rc]) 1 0 None []) (Some r_name) DELTA_AUTO mat.
Definition rich_op : op_env := Oenv rich (Kenv true true true) true true.
Definition no_limits : limits := Lim 0 None false (fun _ => false).
Definition one_worker : par_env := Par false 1 None true true true (fun _ => true) true (fun _ => true) [] [0%nat].
Definition some_ids : ids := Ids (Snap 1 1 1) (Snap 3 1 1) (Snap 4 1 1).
Definition run_join (op : jop) (mc : MatCache.MatCache.cache) :=
  wl_columnar_join_op (K := unit) rich_op one_worker no_limits false [] plain_session (fun _ _ => None) op lnames some_ids [En (Some lrows) true false None 0 ENTRY_RELATION None] (Cache [] 0) mc ([] : list (list Z)).
Definition on_stack {K} (s : stack K) : list (option (list row)) := map (fun x : entry K => stored <$> e_rel x) s.

Lemma join_exact_witness : exists s' rc freed, run_join (join_on [97] [97] false) (MatCache.MatCache.empty_cache false) = Some ([], Cache [] 0, MatCache.MatCache.empty_cache false, s', rc, freed, []) /\
  join_ends rich_op one_worker no_limits (join_on [97] [97] false) lrows rrows lnames rnames true false [] s' rc freed /\ on_stack s' = [Some [[1; 5; 0; 1]; [3; 3; 9; 3]; [3; 3; 4; 3]]] /\ freed = [F_relation lrows].
Proof.
  destruct (join_exact (K := unit) rich_op one_worker no_limits (join_on [97] [97] false) false [] plain_session (fun _ _ => None) lnames some_ids [] lrows true false None 0 (Cache [] 0)
    (MatCache.MatCache.empty_cache false) ([] : list (list Z)) [] (Cache [] 0) r_name (Srel rrows rnames (Snap 2 1 1)) (Srel rrows rnames (Snap 2 1 1)) false rrows (Snap 2 1 1) false) as (s' & rc & freed & Hrun & Hends); try reflexivity.
  - by left.
  - destruct on_a_ok as [H1 (H2 & H2' & _) _ H4 H5]. split; [exact H1|split; [exact H2|exact H2']|by left|exact H4|exact H5].
  - intros a Ha. vm_compute in Ha. discriminate Ha.
  - split; vm_compute; discriminate.
  - vm_compute. reflexivity.
  - vm_compute. lia.
  - exists s', rc, freed. split; [exact Hrun|]. split; [exact Hends|]. vm_compute in Hrun. injection Hrun as <- _ <-. split; reflexivity.
Defined.

(** ** Departures *)

(** The cache of join results is asked for the inputs only: a marked join of the
    same inputs on other columns gets the rows of the first one. *)
Example cached_join_ignores_keys :
  (('(_, _, mc, s1, _, _, _) ← run_join (join_on [97] [97] true) (MatCache.MatCache.empty_cache false);
    '(_, _, _, s2, _, _, _) ← run_join (join_on [98] [99] true) mc; Some (on_stack s1, on_stack s2)) =
   Some ([Some [[1; 5; 0; 1]; [3; 3; 9; 3]; [3; 3; 4; 3]]], [Some [[1; 5; 0; 1]; [3; 3; 9; 3]; [3; 3; 4; 3]]])) /\
  (('(_, _, _, s, _, _, _) ← run_join (join_on [98] [99] false) (MatCache.MatCache.empty_cache false); Some (on_stack s)) = Some [Some []]).
Proof. split; vm_compute; reflexivity. Qed.

End JoinSpec.
