(* ===== verification/Eval.v ===== *)
(** * The serial evaluator (src/wirelog/columnar/eval_plan.c, eval_serial.c, ops.c)

    A stratum is evaluated by running the plan of each of its relations on the
    operator stack; a recursive one in passes, each of which reads the rows that
    the previous pass added, the deltas, until a pass adds none.  The relations of
    the session are a map from names.  The operators other than VARIABLE, and the
    caches, arrangements and arenas that go with them, are an interface.  What is
    freed is not followed. *)

From S2P Require Import Prelude RadixSort Relation RelSort Consolidate StringOps Expr EvalStack Filter RowOps HashJoin Arrangement MatCache Join Frontier Progress.

Module Eval.

Import Keys Rel Consolidate EvalStack.EvalStack RowOps.RowOps HashJoin.HashJoin Join.Join.
Import Frontier.Affected(op_type, OP_VARIABLE, OP_MAP, OP_FILTER, OP_JOIN, OP_ANTIJOIN, OP_REDUCE, OP_CONCAT, OP_CONSOLIDATE, OP_SEMIJOIN, OP_K_FUSION, OP_LFTJ, OP_EXCHANGE, is_join).

Definition ENOENT : Z := 2.
Definition EAGAIN : Z := 11.
Definition MAX_ITERATIONS : Z := 4096.
Definition EVAL_STRIDE : Z := 8.

#[global] Instance op_type_eq : EqDecision op_type.
Proof. solve_decision. Defined.

(** snprintf(buf, sizeof(buf), "col%u", i) *)
Definition auto_name (i : nat) : list Z := [99; 111; 108] ++ StringOps.StringOps.print_int64 (Z.of_nat i).

(** ** The session *)

(** col_delta_timestamp_t, without the worker. *)
Record stamp := St { t_iteration : Z; t_stratum : Z; multiplicity : Z }.

(** A relation of the session, with the names of its columns and, for a delta,
    its timestamps. *)
Record srel := Sr { s_rel : rel; s_names : names; s_stamps : option (list stamp) }.

(** Operators and relations of a plan; [P]: the fields of an operator that only
    the operator itself reads. *)
Record plan_op {P : Type} := Op { op_kind : op_type; relation_name : option (list Z); right_relation : option (list Z); mode : delta_mode; payload : P }.
Record rplan {P : Type} := Rp { rp_name : list Z; delta_name_of : list Z; ops : list (plan_op (P := P)); recursive_agg : option agg_spec }.
Arguments plan_op : clear implicits.
Arguments rplan : clear implicits.
Arguments Op {P}.
Arguments Rp {P}.

(** The settings of the session that the evaluator reads; [relation_counts]: of
    the strata of the plan, if there is one. *)
Record config := Cfg {
  delta_seeded : bool;
  retraction_seeded : bool;
  retraction_right_pass : bool;
  tdd_outbound_only_active : bool;
  tdd_subpass_active : bool;
  diff_enabled : bool;
  coordinator : bool;
  num_workers : Z;
  cache_evict_threshold : Z;
  frontier_vtable : Vtable.frontier_ops;
  relation_counts : option (list Z) }.

(** The other state of the session: caches, arrangements, arenas, the tracker of
    the coordinator, and what the aggregates compare strings with.
    [drop_caches]: session_invalidate_relation_caches; [clear_cache],
    [evict_cache]: the pins are released and the cache of join results is cleared,
    or shrunk; a failed assertion has no result. *)
Class Side (X : Type) := {
  free_delta_arrangements : X -> X;
  invalidate_arrangements : list Z -> X -> X;
  drop_caches : list Z -> X -> option X;
  clear_cache : X -> option X;
  evict_cache : Z -> X -> option X;
  reset_pools : X -> X;
  gc_epoch : X -> X;
  report : nat -> Z -> Z -> X -> option X;
  canonicalize : agg_spec -> rel -> X -> option (rel * Z) }.

Section Evaluator.

Context {X K P : Type} `{!Side X}.

(** The session: its relations, the iteration, the frontiers, the rest. *)
Record ev := Ev {
  rels : gmap (list Z) srel;
  current_iteration : Z;
  diff_operators_active : bool;
  fronts : Vtable.session;
  total_iterations : Z;
  side : X }.

Definition set_rels (m : gmap (list Z) srel) (v : ev) : ev := Ev m (current_iteration v) (diff_operators_active v) (fronts v) (total_iterations v) (side v).
Definition set_iteration (k : Z) (d : bool) (v : ev) : ev := Ev (rels v) k d (fronts v) (total_iterations v) (side v).
Definition set_fronts (f : Vtable.session) (v : ev) : ev := Ev (rels v) (current_iteration v) (diff_operators_active v) f (total_iterations v) (side v).
Definition set_total (n : Z) (v : ev) : ev := Ev (rels v) (current_iteration v) (diff_operators_active v) (fronts v) n (side v).
Definition set_side (x : X) (v : ev) : ev := Ev (rels v) (current_iteration v) (diff_operators_active v) (fronts v) (total_iterations v) x.

(** session_remove_rel *)
Definition remove_rel (n : list Z) (v : ev) : option ev :=
  match rels v !! n with
  | None => Some v
  | Some _ => x ← drop_caches n (side v); Some (set_side x (set_rels (delete n (rels v)) v))
  end.

(** session_add_rel; a relation of that name is replaced. *)
Definition add_rel (ok : bool) (n : list Z) (r : srel) (v : ev) : option (ev * Z) :=
  if negb ok then Some (v, ENOMEM)
  else
    x ← (match rels v !! n with Some _ => drop_caches n (side v) | None => Some (side v) end);
    Some (set_side x (set_rels (<[n := r]> (rels v)) v), 0).

(** ** Plans *)

(** The stack and the column names of its relations. *)
Record estack := Es { es : stack K; es_names : list names }.

Definition push_named (st : estack) (r : rel) (own delta : bool) (ns : names) : estack * Z :=
  let '(s, rc) := eval_stack_push_delta (es st) (Some r) own delta in
  if rc =? 0 then (Es s (ns :: es_names st), 0) else (st, rc).

Definition retraction_delta (v : ev) (n : list Z) : option srel := match retraction_rel_name n with Some d => rels v !! d | None => None end.

Definition col_op_variable (c : config) (new_ok : bool) (rn : option (list Z)) (m : delta_mode) (v : ev) (st : estack) : estack * Z :=
  match rn with
  | None => (st, ENOENT)
  | Some n =>
      match rels v !! n with
      | None => (st, ENOENT)
      | Some full =>
          let delta := if retraction_seeded c && (current_iteration v =? 0) && negb (retraction_right_pass c) then retraction_delta v n else rels v !! delta_name n in
          let push_empty d := if negb new_ok then (st, ENOMEM) else push_named st (new_like (s_rel full)) true d (s_names full) in
          let push_full := push_named st (s_rel full) false false (s_names full) in
          let outbound := tdd_outbound_only_active c && (0 <? current_iteration v) in
          let auto :=
            match delta with
            | Some d =>
                let nd := nrows (s_rel d) in
                if ((0 <? nd)%nat && (nd <? nrows (s_rel full))%nat) || ((0 <? nd)%nat && tdd_subpass_active c) || outbound
                then push_named st (s_rel d) false true (s_names d) else push_full
            | None => push_full
            end in
          match m with
          | FORCE_EMPTY => push_empty false
          | FORCE_EMPTY_AFTER_SEED => if outbound then push_empty false else auto
          | FORCE_FULL => push_full
          | FORCE_DELTA =>
              match delta with
              | Some d => if (0 <? nrows (s_rel d))%nat then push_named st (s_rel d) false true (s_names d)
                          else if (current_iteration v =? 0) && negb (delta_seeded c || retraction_seeded c) then push_full else push_empty true
              | None => if (current_iteration v =? 0) && negb (delta_seeded c || retraction_seeded c) then push_full else push_empty true
              end
          | DELTA_AUTO => auto
          end
      end
  end.

(** No delta, or an empty one. *)
Definition no_rows (d : option srel) : bool := match d with Some d => (nrows (s_rel d) =? 0)%nat | None => true end.

Definition used_in_join (all : list (plan_op P)) (n : list Z) : bool := existsb (fun o => is_join (op_kind o) && bool_decide (right_relation o = Some n)) all.

(** The relation whose rows a pass after the first need not load again. *)
Definition base_case (v : ev) (all : list (plan_op P)) (op : plan_op P) (next : list (plan_op P)) : option srel :=
  match op_kind op, relation_name op, mode op with
  | OP_VARIABLE, Some n, DELTA_AUTO =>
      if negb (0 <? current_iteration v) then None
      else if match next with o :: _ => is_join (op_kind o) | [] => false end then None
      else if negb (no_rows (rels v !! delta_name n)) || used_in_join all n then None
      else rels v !! n
  | _, _, _ => None
  end.

(** The operators but VARIABLE: relation [ri], operator [i] of its plan. *)
Context (run_op : nat -> nat -> plan_op P -> ev -> estack -> option (ev * estack * Z)).

(** The outcomes of allocations: [en_new] at an operator, the others at a relation
    of the stratum, in an iteration. *)
Record eval_env := Eenv {
  en_new : Z -> nat -> nat -> bool;
  en_strdup : Z -> nat -> bool;
  en_add : Z -> nat -> bool;
  en_copy : Z -> nat -> bool;
  en_schema : Z -> nat -> Z;
  en_types : Z -> nat -> bool;
  en_grow : Z -> nat -> bool;
  en_alloc : nat -> bool;
  en_arrays : bool;
  en_presort : nat -> RelSort.RelSort.sort_env;
  en_register : Z -> nat -> bool;
  en_delta : Z -> nat -> bool;
  en_sort : Z -> nat -> RelSort.RelSort.sort_env;
  en_cons : Z -> nat -> cons_env;
  en_stamps : Z -> nat -> bool;
  en_enable : Z -> nat -> bool }.

Context (c : config) (e : eval_env).

(** The loop over the operators, [rest] of them left. *)
Fixpoint eval_ops (ri : nat) (all rest : list (plan_op P)) (i : nat) (v : ev) (st : estack) : option (ev * estack * Z) :=
  match rest with
  | [] => Some (v, st, 0)
  | op :: rest' =>
      let ok := en_new e (current_iteration v) ri i in
      match base_case v all op rest' with
      | Some full =>
          if negb ok then Some (v, st, ENOMEM)
          else let '(st, rc) := push_named st (new_like (s_rel full)) true false (s_names full) in
               if negb (rc =? 0) then Some (v, st, rc) else eval_ops ri all rest' (S i) v st
      | None =>
          '(v, st, rc) ← (match op_kind op with
                          | OP_VARIABLE => let '(st, rc) := col_op_variable c ok (relation_name op) (mode op) v st in Some (v, st, rc)
                          | _ => run_op ri i op v st
                          end);
          if negb (rc =? 0) then Some (v, st, rc) else eval_ops ri all rest' (S i) v st
      end
  end.

Definition col_eval_relation_plan (ri : nat) (rp : rplan P) (v : ev) : option (ev * estack * Z) := eval_ops ri (ops rp) (ops rp) 0 v (Es [] []).

(** The relation whose delta an operator insists on. *)
Definition forced (op : plan_op P) : option (list Z) :=
  match mode op with
  | FORCE_DELTA => match op_kind op with OP_VARIABLE => relation_name op | OP_JOIN | OP_SEMIJOIN => right_relation op | _ => None end
  | _ => None
  end.

Fixpoint empty_forced (l : list (plan_op P)) (v : ev) (iteration : Z) : bool :=
  match l with
  | [] => false
  | op :: l' =>
      match forced op with
      | None => empty_forced l' v iteration
      | Some n =>
          if retraction_seeded c && (iteration =? 0) then
            match retraction_rel_name n with
            | None => false
            | Some d => if no_rows (rels v !! d) then true else empty_forced l' v iteration
            end
          else if no_rows (rels v !! delta_name n) then true else empty_forced l' v iteration
      end
  end.

Definition has_empty_forced_delta (rp : rplan P) (v : ev) (iteration : Z) : bool :=
  if (iteration =? 0) && negb (delta_seeded c) && negb (retraction_seeded c) then false
  else if existsb (fun o => bool_decide (op_kind o = OP_CONCAT)) (ops rp) then false
  else empty_forced (ops rp) v iteration.

(** ** The result of a plan *)

(** The entry that is popped after the plan ran; [None]: it is not a relation. *)
Definition result_entry (st : estack) : option (option (rel * bool * names)) :=
  match es st with
  | [] => Some None
  | en :: _ =>
      if negb (EvalStack.EvalStack.kind en =? ENTRY_RELATION) then None
      else Some (match e_rel en with Some r => Some (r, owned en, default None (head (es_names st))) | None => None end)
  end.

(** A relation that is not there yet: the result itself or a copy of it. *)
Definition store_new (k : Z) (ri : nat) (n : list Z) (r : rel) (own : bool) (ns : names) (v : ev) : option (ev * Z) :=
  if own then
    if negb (en_strdup e k ri) then Some (v, ENOMEM) else add_rel (en_add e k ri) n (Sr r ns None) v
  else if negb (en_copy e k ri) then Some (v, ENOMEM)
  else
    '(copy, rc) ← append_checked (en_types e k ri) (en_grow e k ri) (new_like r) r;
    if negb (rc =? 0) then Some (v, rc) else add_rel (en_add e k ri) n (Sr copy ns None) v.

(** col_rel_set_schema of a relation without columns. *)
Definition with_schema (nc : nat) (ns : names) (t : srel) : srel :=
  let r := s_rel t in
  Sr (R (Sh nc (column_types r)) (replicate COL_REL_INIT_CAP (replicate nc 0)) (nrows r) COL_REL_INIT_CAP (sorted_nrows r) (merge_columns r) (merge_buf_cap r) (timestamps r) (run_count r) (run_ends r))
     (Some ((fun i => Some (default (auto_name i) (mjoin (default [] ns !! i)))) <$> seq 0 nc)) (s_stamps t).

(** The rows of the result join those of the relation [t]. *)
Definition append_to (k : Z) (ri : nat) (n : list Z) (t : srel) (r : rel) (v : ev) : option (ev * Z) :=
  '(d, rc) ← append_checked (en_types e k ri) (en_grow e k ri) (s_rel t) r;
  Some (set_rels (<[n := Sr d (s_names t) (s_stamps t)]> (rels v)) v, rc).

Definition store_result (k : Z) (ri : nat) (n : list Z) (r : rel) (own : bool) (ns : names) (v : ev) : option (ev * Z) :=
  match rels v !! n with
  | None => store_new k ri n r own ns v
  | Some t =>
      if (ncols (s_rel t) =? 0)%nat && (0 <? ncols r)%nat then
        if negb (en_schema e k ri =? 0) then Some (v, en_schema e k ri) else append_to k ri n (with_schema (ncols r) ns t) r v
      else append_to k ri n t r v
  end.

(** ** A pass *)

(** The deltas of the previous pass enter the session; one that cannot is lost. *)
Fixpoint register_deltas (k : Z) (ri : nat) (ps : list (rplan P)) (ds : list (option srel)) (v : ev) : option ev :=
  match ps, ds with
  | p :: ps', d :: ds' =>
      v ← (match d with
           | None => Some v
           | Some d => v ← remove_rel (delta_name_of p) v; '(v, _) ← add_rel (en_register e k ri) (delta_name_of p) d v; Some v
           end);
      register_deltas k (S ri) ps' ds' v
  | _, _ => Some v
  end.

Definition row_counts (ps : list (rplan P)) (v : ev) : list nat := (fun p => match rels v !! rp_name p with Some r => nrows (s_rel r) | None => O end) <$> ps.

(** The sum of the multiplicities of a delta, an int64. *)
Definition net_multiplicity (d : srel) : option Z := l ← s_stamps d; Some (foldl (fun n t => i64 (n + multiplicity t)) 0 (take (nrows (s_rel d)) l)).

Fixpoint all_net_zero (ps : list (rplan P)) (v : ev) : option bool :=
  match ps with
  | [] => Some true
  | p :: ps' =>
      match rels v !! delta_name_of p with
      | Some d => if (nrows (s_rel d) =? 0)%nat then all_net_zero ps' v
                  else n ← net_multiplicity d; if negb (n =? 0) then Some false else all_net_zero ps' v
      | None => all_net_zero ps' v
      end
  end.

(** The plans of the stratum, one after the other. *)
Fixpoint eval_rules (k : Z) (rule_id : Z) (ri : nat) (ps : list (rplan P)) (v : ev) : option (ev * Z) :=
  match ps with
  | [] => Some (v, 0)
  | p :: ps' =>
      let next := eval_rules k rule_id (S ri) ps' in
      skip ← Vtable.should_skip_rule (frontier_vtable c) (fronts v) (Z.to_nat (rule_id + Z.of_nat ri)) k;
      if (skip : bool) || has_empty_forced_delta p v k then next v
      else
        '(v, st, rc) ← col_eval_relation_plan ri p v;
        if negb (rc =? 0) then Some (v, rc)
        else
          match result_entry st with
          | None => Some (v, ENOTSUP)
          | Some None => next v
          | Some (Some (r, own, ns)) =>
              if (nrows r =? 0)%nat then next v
              else '(v, rc) ← store_result k ri (rp_name p) r own ns v; if negb (rc =? 0) then Some (v, rc) else next v
          end
  end.

Fixpoint remove_deltas (ps : list (rplan P)) (v : ev) : option ev :=
  match ps with [] => Some v | p :: ps' => v ← remove_rel (delta_name_of p) v; remove_deltas ps' v end.

(** col_frontier_compute: the least timestamp. *)
Definition col_frontier_compute (n : nat) (l : option (list stamp)) : Z * Z :=
  match n, l with
  | S _, Some (t :: l) => foldl (fun f t => if (t_iteration t <? f.1) || ((t_iteration t =? f.1) && (t_stratum t <? f.2)) then (t_iteration t, t_stratum t) else f)
                            (t_iteration t, t_stratum t) (take (n - 1) l)
  | _, _ => (0, 0)
  end.

Definition later (f g : Z * Z) : bool := (g.1 <? f.1) || ((f.1 =? g.1) && (g.2 <? f.2)).

(** col_rel_enable_timestamps *)
Definition enable_timestamps (ok : bool) (r : rel) : rel * Z :=
  if timestamps r || (capacity r =? 0)%nat then (r, 0) else if negb ok then (r, ENOMEM) else (set_timestamps true r, 0).

(** The relations with new rows are consolidated; the new deltas, the frontier. *)
Fixpoint consolidate_all (k : Z) (stratum : nat) (ri : nat) (ps : list (rplan P)) (snap : list nat) (v : ev) (f : Z * Z) : option (ev * list (option srel) * (Z * Z) * Z) :=
  match ps, snap with
  | p :: ps', old :: snap' =>
      let keep v d f := '(v, ds, f, rc) ← consolidate_all k stratum (S ri) ps' snap' v f; Some (v, d :: ds, f, rc) in
      let stop v rc := Some (v, replicate (length ps) None, f, rc) in
      match rels v !! rp_name p with
      | None => keep v None f
      | Some t =>
          if (nrows (s_rel t) <=? old)%nat then keep v None f
          else if negb (en_delta e k ri) then stop v ENOMEM
          else
            '(r, d, rc) ← col_op_consolidate_incremental_delta (RelSort.RelSort.col_rel_radix_sort (en_sort e k ri)) (en_cons e k ri) (s_rel t) old (Some (new_like (s_rel t)));
            let put r v := set_side (invalidate_arrangements (rp_name p) (side v)) (set_rels (<[rp_name p := Sr r (s_names t) (s_stamps t)]> (rels v)) v) in
            let v := put r v in
            if negb (rc =? 0) then stop v rc
            else d ← d;
            if (nrows d =? 0)%nat then keep v None f
            else if negb (en_stamps e k ri) then stop v ENOMEM
            else
              let stamps := replicate (nrows d) (St k (Z.of_nat stratum) 1) in
              let '(r, rc) := enable_timestamps (en_enable e k ri) r in
              let v := set_rels (<[rp_name p := Sr r (s_names t) (s_stamps t)]> (rels v)) v in
              if negb (rc =? 0) then stop v rc
              else
                let g := col_frontier_compute (nrows d) (Some stamps) in
                keep v (Some (Sr (set_timestamps true d) (s_names t) (Some stamps))) (if later g f then g else f)
      end
  | _, _ => Some (v, [], f, 0)
  end.

(** The state between passes, and how a pass ends. *)
Record loop := Lp { lv : ev; deltas : list (option srel); strat_frontier : Z * Z; final_eff_iter : Z }.
Inductive outcome := Skipped | Next | Failed (rc : Z) | Converged | More.

Definition sub_pass (ps : list (rplan P)) (stratum : nat) (rule_base k : Z) (lp : loop) : option (loop * outcome) :=
  let v := set_iteration k (diff_enabled c && (0 <? k)) (lv lp) in
  let with_v v o := Some (Lp v (deltas lp) (strat_frontier lp) (final_eff_iter lp), o) in
  skip ← Vtable.should_skip_iteration (frontier_vtable c) (fronts v) stratum k;
  if skip : bool then with_v v Skipped
  else
    let v := set_side (free_delta_arrangements (side v)) v in
    v ← register_deltas k 0 ps (deltas lp) v;
    let none := replicate (length ps) None in
    let stop v o := Some (Lp v none (strat_frontier lp) (final_eff_iter lp), o) in
    let snap := row_counts ps v in
    zero ← (if 0 <? k then all_net_zero ps v else Some false);
    if zero : bool then stop v Next
    else if (0 <? k) && forallb (fun p => has_empty_forced_delta p v k) ps then stop v Next
    else
      '(v, rc) ← eval_rules k rule_base 0 ps v;
      if negb (rc =? 0) then stop v (Failed rc)
      else
        v ← remove_deltas ps v;
        '(v, ds, f, rc) ← consolidate_all k stratum 0 ps snap v (strat_frontier lp);
        if negb (rc =? 0) then Some (Lp v ds f (final_eff_iter lp), Failed rc)
        else
          x ← (if cache_evict_threshold c =? 0 then clear_cache (side v) else evict_cache (cache_evict_threshold c) (side v));
          let x := reset_pools x in
          let v := set_side (if coordinator c then x else gc_epoch x) v in
          if forallb (fun d => negb (bool_decide (is_Some d))) ds then Some (Lp v ds f (final_eff_iter lp), Converged)
          else Some (Lp v ds f k, More).

(** ** Passes and strides *)

(** How the passes of a stride end: [n] left, whether one ran, whether one added
    rows. *)
Fixpoint sub_passes (n : nat) (ps : list (rplan P)) (stratum : nat) (rule_base k : Z) (ran new : bool) (lp : loop) : option (loop * bool * bool * outcome) :=
  match n with
  | O => Some (lp, ran, new, More)
  | S n' =>
      '(lp, o) ← sub_pass ps stratum rule_base k lp;
      match o with
      | Skipped => sub_passes n' ps stratum rule_base (k + 1) ran new lp
      | More => sub_passes n' ps stratum rule_base (k + 1) true true lp
      | _ => Some (lp, true, new, o)
      end
  end.

(** for (iter = 0; iter < MAX_ITERATIONS; iter++), [n] left *)
Fixpoint strides (n : nat) (ps : list (rplan P)) (stratum : nat) (rule_base iter : Z) (lp : loop) : option (loop * Z) :=
  match n with
  | O => Some (lp, 0)
  | S n' =>
      '(lp, ran, new, o) ← sub_passes (Z.to_nat EVAL_STRIDE) ps stratum rule_base (iter * EVAL_STRIDE) false false lp;
      match o with
      | Failed rc => Some (lp, rc)
      | _ =>
          let next := strides n' ps stratum rule_base (iter + 1) lp in
          if negb ran then next
          else match o with
               | Next => next
               | Converged => Some (lp, 0)
               | _ => if negb new then Some (lp, 0) else next
               end
      end
  end.

(** ** A stratum *)

(** Empty relations for those that are not there. *)
Fixpoint pre_register (ri : nat) (ps : list (rplan P)) (v : ev) : option (ev * Z) :=
  match ps with
  | [] => Some (v, 0)
  | p :: ps' =>
      match rels v !! rp_name p with
      | Some _ => pre_register (S ri) ps' v
      | None =>
          if negb (en_alloc e ri) then Some (v, ENOMEM)
          else
            '(v, rc) ← add_rel (en_add e 0 ri) (rp_name p) (Sr (R (Sh 0 None) [] 0 0 0 None 0 false 0 (replicate COL_MAX_RUNS O)) None None) v;
            if negb (rc =? 0) then Some (v, rc) else pre_register (S ri) ps' v
      end
  end.

Fixpoint presort (ri : nat) (ps : list (rplan P)) (v : ev) : option ev :=
  match ps with
  | [] => Some v
  | p :: ps' =>
      match rels v !! rp_name p with
      | Some t =>
          if (1 <? nrows (s_rel t))%nat then
            r ← RelSort.RelSort.col_rel_radix_sort_int64 (en_presort e ri) (s_rel t);
            presort (S ri) ps' (set_rels (<[rp_name p := Sr r (s_names t) (s_stamps t)]> (rels v)) v)
          else presort (S ri) ps' v
      | None => presort (S ri) ps' v
      end
  end.

(** The first rule of the stratum, among all. *)
Definition rule_id_base (stratum : nat) : Z :=
  let base := match relation_counts c with Some l => foldl (fun n m => u32 (n + m)) 0 (take stratum l) | None => 0 end in
  if Z.of_nat Vtable.MAX_RULES <=? base then Z.of_nat Vtable.MAX_RULES else base.

Fixpoint record_rules (n : nat) (base : Z) (ri : nat) (it : Z) (f : Vtable.session) : option Vtable.session :=
  match n with
  | O => Some f
  | S n' =>
      if negb (base + Z.of_nat ri <? Z.of_nat Vtable.MAX_RULES) then Some f
      else f ← Vtable.record_rule_convergence (frontier_vtable c) f (Z.to_nat (base + Z.of_nat ri)) (Vtable.epoch f) it; record_rules n' base (S ri) it f
  end.

(** wl_columnar_eval_serial_canonicalize_aggregates *)
Fixpoint canonicalize_aggregates (ps : list (rplan P)) (v : ev) : option (ev * Z) :=
  match ps with
  | [] => Some (v, 0)
  | p :: ps' =>
      match recursive_agg p with
      | None => canonicalize_aggregates ps' v
      | Some sp =>
          '(v, rc) ← (match rels v !! rp_name p with
                      | None => Some (v, 0)
                      | Some t => '(r, rc) ← canonicalize sp (s_rel t) (side v); Some (set_rels (<[rp_name p := Sr r (s_names t) (s_stamps t)]> (rels v)) v, rc)
                      end);
          if negb (rc =? 0) then Some (v, rc) else canonicalize_aggregates ps' (set_side (invalidate_arrangements (rp_name p) (side v)) v)
      end
  end.

Definition eval_recursive (ps : list (rplan P)) (stratum : nat) (v : ev) : option (ev * Z) :=
  '(v, rc) ← pre_register 0 ps v;
  if negb (rc =? 0) then Some (v, rc)
  else if negb (en_arrays e) then Some (v, ENOMEM)
  else
    v ← presort 0 ps v;
    f ← Vtable.init_stratum (frontier_vtable c) (fronts v) stratum;
    let v := set_fronts f v in
    let saved := diff_operators_active v in
    let base := rule_id_base stratum in
    '(lp, rc) ← strides (Z.to_nat MAX_ITERATIONS) ps stratum base 0 (Lp v (replicate (length ps) None) (0, 0) 0);
    let v := set_iteration (current_iteration (lv lp)) saved (lv lp) in
    if negb (rc =? 0) then v ← remove_deltas ps v; Some (v, rc)
    else
      let final := final_eff_iter lp in
      f ← record_rules (length ps) base 0 final (fronts v);
      let v := set_fronts f (set_total final v) in
      let it := fst (strat_frontier lp) in
      v ← (if negb (it =? UINT32_MAX) then
             f ← Vtable.record_stratum_convergence (frontier_vtable c) (fronts v) stratum (Vtable.epoch (fronts v)) it;
             x ← (if coordinator c then report stratum (Vtable.epoch (fronts v)) it (side v) else Some (side v));
             Some (set_side x (set_fronts f v))
           else Some v);
      '(v, rc) ← canonicalize_aggregates ps v;
      if negb (rc =? 0) then Some (v, rc)
      else
        v ← remove_deltas ps v;
        x ← clear_cache (reset_pools (side v));
        Some (set_side x v, 0).

(** *** Strata without recursion *)

(** wl_columnar_eval_nonrec_relation_parallel: without further workers, or under
    these settings, it leaves the relation to the caller. *)
Context (eval_parallel : nat -> rplan P -> ev -> option (ev * Z)).

Definition nonrec_parallel (ri : nat) (p : rplan P) (v : ev) : option (ev * Z) :=
  if coordinator c || delta_seeded c || retraction_seeded c || retraction_right_pass c || diff_operators_active v || (num_workers c <=? 1) then Some (v, EAGAIN)
  else eval_parallel ri p v.

Fixpoint eval_once (ri : nat) (ps : list (rplan P)) (v : ev) : option (ev * Z) :=
  match ps with
  | [] => Some (v, 0)
  | p :: ps' =>
      '(v, par) ← nonrec_parallel ri p v;
      if par =? 0 then eval_once (S ri) ps' v
      else if negb (par =? EAGAIN) then Some (v, par)
      else
        '(v, st, rc) ← col_eval_relation_plan ri p v;
        if negb (rc =? 0) then Some (v, rc)
        else
          match result_entry st with
          | None => Some (v, ENOTSUP)
          | Some None => eval_once (S ri) ps' v
          | Some (Some (r, own, ns)) =>
              '(v, rc) ← (match rels v !! rp_name p with None => store_new 0 ri (rp_name p) r own ns v | Some t => append_to 0 ri (rp_name p) t r v end);
              if negb (rc =? 0) then Some (v, rc) else eval_once (S ri) ps' v
          end
  end.

(** The rules of the stratum are marked as evaluated. *)
Fixpoint reset_rules (n : nat) (base : Z) (ri : nat) (f : Vtable.session) : option Vtable.session :=
  match n with
  | O => Some f
  | S n' =>
      f ← (if base + Z.of_nat ri <? Z.of_nat Vtable.MAX_RULES then Vtable.reset_rule_frontier (frontier_vtable c) f (Z.to_nat (base + Z.of_nat ri)) (Vtable.epoch f) else Some f);
      reset_rules n' base (S ri) f
  end.

Definition eval_nonrecursive (ps : list (rplan P)) (stratum : nat) (v : ev) : option (ev * Z) :=
  '(v, rc) ← eval_once 0 ps (set_iteration 0 (diff_operators_active v) v);
  if negb (rc =? 0) then Some (v, rc)
  else
    x ← clear_cache (side v);
    let v := set_side (reset_pools x) v in
    f ← Vtable.record_stratum_convergence (frontier_vtable c) (fronts v) stratum (Vtable.epoch (fronts v)) UINT32_MAX;
    x ← (if coordinator c then report stratum (Vtable.epoch (fronts v)) UINT32_MAX (side v) else Some (side v));
    f ← (match relation_counts c with Some l => reset_rules (length ps) (foldl (fun n m => u32 (n + m)) 0 (take stratum l)) 0 f | None => Some f end);
    Some (set_side x (set_fronts f v), 0).

Definition col_eval_stratum (is_recursive : bool) (ps : list (rplan P)) (stratum : nat) (v : ev) : option (ev * Z) :=
  if is_recursive then eval_recursive ps stratum v else eval_nonrecursive ps stratum v.

End Evaluator.

End Eval.
