(* ===== verification/EvalProof.v ===== *)
(** * Passes of the evaluator

    What a pass over a recursive stratum does to the relations: the deltas enter
    the session, every rule is run, the deltas leave it, the new rows are
    consolidated into the relations and are the next deltas.  The rules are given
    by what their plans promise ([rule_law]): rows that follow from the relations,
    and all those that need a row of a delta. *)

From stdpp Require Import sorting.
From S2P Require Import Prelude RadixSort Relation RelSort Consolidate ConsolidateProof HeapProof DeltaProof KwayProof DeltaSpec ConsolidateSpec StringOps Expr EvalStack ConcatSpec Filter FilterProof RowOps HashJoin HashJoinProof HashJoinSpec Arrangement MatCache Join Frontier Progress Eval.

Module EvalProof.

Import Keys Rel RelSort Consolidate EvalStack.EvalStack ConcatSpec.ConcatSpec FilterProof.FilterProof RowOps.RowOps HashJoin.HashJoin HashJoinSpec.HashJoinSpec Join.Join Eval.Eval.

(** ** The interface of the rest of the session *)

(** The operations on caches and arenas keep [ok], under which their assertions
    hold. *)
Class LawfulSide (X : Type) `{!Side X} (ok : X -> Prop) : Prop := {
  ok_free : forall x, ok x -> ok (free_delta_arrangements x);
  ok_invalidate : forall n x, ok x -> ok (invalidate_arrangements n x);
  ok_drop : forall n x, ok x -> exists x', drop_caches n x = Some x' /\ ok x';
  ok_clear : forall x, ok x -> exists x', clear_cache x = Some x' /\ ok x';
  ok_evict : forall t x, ok x -> exists x', evict_cache t x = Some x' /\ ok x';
  ok_reset : forall x, ok x -> ok (reset_pools x);
  ok_gc : forall x, ok x -> ok (gc_epoch x);
  ok_report : forall s ep it x, ok x -> exists x', report s ep it x = Some x' /\ ok x' }.

(** Sets of rows, by their keys, for the relations of a stratum. *)
Abbreviation interp := (nat -> Z -> Prop).
Definition sub (Y Y' : interp) : Prop := forall i k, Y i k -> Y' i k.
Definition both (Y Y' : interp) : interp := fun i k => Y i k \/ Y' i k.

(** ** The end of a pass, for one relation *)

Definition small (r : rel) : Prop := Z.of_nat (nrows r) < 2 ^ 31.
Definition sort_memory (se : sort_env) : Prop := work_ok se && perm_ok se && temp_ok se && detach_ok se = true.
Definition narrow (s : shape) : Prop := Z.of_nat (ncols s) < 2 ^ 28.

Lemma narrow_sorts se (s : shape) N : sort_memory se -> narrow s -> Z.of_nat N < 2 ^ 31 -> sorts_upto (col_rel_radix_sort se) s N.
Proof.
  intros Hse Hs HN. apply radix_sorts_upto; [exact Hse|]. unfold narrow in Hs. destruct (ncols s) as [|n] eqn:Hn; [by left|right].
  apply Z.div_le_lower_bound; [lia|]. transitivity (2 ^ 28 * 8 * 2 ^ 31); [|done]. apply Z.mul_le_mono_nonneg; lia.
Qed.

(** The rows a relation was left with count as consolidated, the others are new:
    they are merged, the relation keeps its set of rows, and the delta holds those
    that were not there. *)
Lemma consolidate_one se ce (r : rel) old : wf r -> tracked r old -> (old < nrows r)%nat -> int_lead r -> narrow r -> small r -> sort_memory se -> tight_ok ce = true -> (forall n, append_ok ce n = true) ->
  exists r' d rc, col_op_consolidate_incremental_delta (col_rel_radix_sort se) ce r old (Some (new_like r)) = Some (r', d, rc) /\
    ((rc <> 0 /\ allocs ce = false) \/
     (rc = 0 /\ lanes r' = lanes r /\ wf r' /\ runs_ok r' (nrows r') /\ (forall x, x ∈ keys r (stored r') <-> x ∈ keys r (stored r)) /\
      exists d', d = Some d' /\ lanes d' = lanes r /\ readable d' /\ small d' /\ NoDup (keys r (stored d')) /\ forall x, x ∈ keys r (stored d') <-> x ∈ keys r (stored r) /\ x ∉ keys r (take old (rows r)))).
Proof.
  intros Hwf Htr Hnew Hlead Hnar Hsm Hse Htight Happ. pose proof Hwf as [[Hf1 Hf2] Hrows _].
  set (olds := take old (rows r)). set (news := take (nrows r - old) (drop old (rows r))).
  assert (Hst : stored r = olds ++ news) by (unfold stored, olds, news; rewrite take_take_drop; f_equal; lia).
  assert (Hlo : length olds = old) by (unfold olds; rewrite length_take; lia). assert (Hln : length news = (nrows r - old)%nat) by (unfold news; rewrite length_take, length_drop; lia).
  assert (Hr : rows r = olds ++ news ++ drop (nrows r) (rows r)) by (rewrite app_assoc, <-Hst; unfold stored; by rewrite take_drop).
  destruct (narrow_sorts se r (nrows r) Hse Hnar Hsm r olds news (drop (nrows r) (rows r)) eq_refl Hr) as (r1 & Hsort); [lia|lia|rewrite Hst in Hrows; by apply Forall_app in Hrows as [_ ?]|]. rewrite Hlo, Hln in Hsort.
  destruct (incremental_ok (col_rel_radix_sort se) ce r r1 old (Some (new_like r)) Hwf Htr Hnew Hlead) as (r' & d & rc & -> & H0 & Hbad); [split; [done|apply new_like_fits]|constructor|done|].
  exists r', d, rc. split; [done|]. destruct (decide (rc = 0)) as [->|Hrc]; [|left; by destruct (Hbad Hrc)]. right. split; [done|]. destruct (H0 eq_refl) as [C1 C2 C3 C4 (fresh & F1 & F2 & F3)].
  fold olds news in C4, F2. assert (Hmem : forall x, x ∈ keys r (stored r) <-> x ∈ keys r olds \/ x ∈ keys r news) by (intros x; rewrite Hst; unfold keys; by rewrite fmap_app, elem_of_app).
  split_and!; [done|by apply C3|done|intros x; by rewrite C4, Hmem|]. destruct d as [d|]; [|done]. destruct F3 as (G1 & G2 & G3).
  pose proof (fresh_length _ _ _ _ F1 F2) as Hfl. unfold small in Hsm. specialize (G3 Happ ltac:(cbn [new_like nrows]; lia)). exists d. destruct (grew_fresh r d fresh G1 G2 G3) as [Hrd Hkd]. split_and!; [done|done|done| | |].
  - unfold small. destruct G3 as [-> _]. cbn [new_like nrows]. lia.
  - rewrite Hkd. by apply strict_nodup.
  - intros x. rewrite Hkd, F2, Hmem. fold olds. tauto.
Qed.

(** ** Rows for a relation without column types *)

Definition no_floats (s : shape) : Prop := forall c ty, column_type_at s c = Some ty -> is_float ty = false.

Lemma untyped_compatible (s : shape) a n m c : no_floats s -> row_ok s a -> (c + n = ncols s)%nat -> lanes_compatible n c (Sh m None) s = Some true.
Proof.
  intros Hs Ha. revert c. induction n as [|n IH]; intros c Hc; cbn [lanes_compatible]; [done|]. destruct (row_cell s a c Ha ltac:(lia)) as (ty & v & Hty & _). change (column_type_at (Sh m None) c) with (Some TYPE_INT64). rewrite Hty. cbn [mbind option_bind].
  rewrite (Hs c ty Hty). cbn [is_float orb andb]. apply IH. lia.
Qed.

(** The relation takes the types of the rows. *)
Lemma append_adopts tb b (dst src : rel) : lanes dst = Sh (ncols src) None -> no_floats src -> fits dst -> readable src -> nrows src <> O -> Z.of_nat (nrows dst + nrows src) <= 2 ^ 31 -> stored dst = [] ->
  exists d rc, append_checked tb b dst src = Some (d, rc) /\
    ((rc = 0 /\ kept (set_types (column_types src) dst) d /\ fits d /\ grew (set_types (column_types src) dst) d (stored src)) \/ (rc = ENOMEM /\ (b = false \/ tb = false))).
Proof.
  intros Hl Hnf Hfd [Hfs Hok] Hn Hbig Hst. set (dst' := set_types (column_types src) dst). assert (Hl' : lanes src = lanes dst') by (unfold dst'; cbn; rewrite Hl; by destruct (lanes src)).
  destruct (append_all_ok b dst' src Hfd Hfs Hl' Hok Hbig) as (d & rc & Ha & Hres). pose proof (length_stored src Hfs) as Hls. destruct (stored src) as [|x l] eqn:Hss; [cbn in Hls; lia|]. rewrite <-Hss in *.
  assert (Hx : row_ok src x) by (rewrite Hss in Hok; by apply Forall_cons in Hok as [? _]).
  unfold append_checked. rewrite Hl. cbn [ncols column_types]. rewrite Nat.eqb_refl. cbn [negb]. rewrite (proj2 (Nat.eqb_neq _ _) Hn). rewrite (untyped_compatible src x) by done. cbn [mbind option_bind negb]. rewrite float_valid_ok by done. cbn [mbind option_bind negb].
  assert (Hover : (UINT32_MAX - Z.of_nat (nrows dst) <? Z.of_nat (nrows src)) = false) by mi. rewrite Hover, andb_false_r.
  destruct (column_types src) as [ts|] eqn:Hts; cbn [andb].
  - destruct tb; cbn [negb]; [|eexists _, _; split; [done|]; right; split; [done|by right]]. fold dst'. rewrite Ha. cbn [mbind option_bind]. eexists _, _. split; [done|]. destruct Hres as [(-> & H1 & H2 & _ & H3)|(-> & _ & Hb)]; [left; by split_and!|right; split; [done|by left]].
  - assert (Hsame : dst' = dst) by (unfold dst', set_types; destruct dst as [lan ? ? ? ? ? ? ? ? ?]; cbn in Hl |- *; by rewrite Hl). rewrite Hsame in *. rewrite Ha. cbn [mbind option_bind]. eexists _, _. split; [done|]. destruct Hres as [(-> & H1 & H2 & _ & H3)|(-> & _ & Hb)]; [left; by split_and!|right; split; [done|by left]].
Qed.

(** A relation with names has one for every column. *)
Definition titled (t : srel) : Prop := names_ok (s_names t) (ncols (s_rel t)).
Definition titles (m : gmap (list Z) srel) : Prop := map_Forall (fun _ t => titled t) m.

Section Stratum.

Context {X K P : Type} `{!Side X} (side_ok : X -> Prop) `{!LawfulSide X side_ok}.
Context (run_op : nat -> nat -> plan_op P -> ev (X := X) -> estack (K := K) -> option (ev (X := X) * estack (K := K) * Z)) (c : config) (e : eval_env).
Context (ps : list (rplan P)) (stratum : nat) (sh : nat -> shape) (m0 : gmap (list Z) srel).

Abbreviation session := (ev (X := X)).

(** *** The deltas enter and leave *)

Fixpoint delta_at (qs : list (rplan P)) (ds : list (option srel)) (n : list Z) : option srel :=
  match qs, ds with q :: qs', d :: ds' => if decide (delta_name_of q = n) then d else delta_at qs' ds' n | _, _ => None end.

Lemma delta_at_notin qs : forall ds n, n ∉ delta_name_of <$> qs -> delta_at qs ds n = None.
Proof. induction qs as [|q qs IH]; intros [|d ds] n Hn; try done. apply not_elem_of_cons in Hn as [Hne Hn]. cbn. rewrite decide_False by congruence. by apply IH. Qed.

Lemma delta_at_some qs : forall ds n d, delta_at qs ds n = Some d -> exists i, ds !! i = Some (Some d).
Proof. induction qs as [|q qs IH]; intros [|d0 ds] n d H; try done. cbn in H. destruct (decide _); [exists 0%nat; by rewrite H|]. destruct (IH ds n d H) as (i & Hi). by exists (S i). Qed.

Lemma delta_at_lookup qs : NoDup (delta_name_of <$> qs) -> forall ds i q, qs !! i = Some q -> length ds = length qs -> delta_at qs ds (delta_name_of q) = mjoin (ds !! i).
Proof.
  induction qs as [|q0 qs IH]; intros Hnd [|d ds] i q Hi Hlen; try done. apply NoDup_cons in Hnd as [Hnin Hnd]. destruct i as [|i]; cbn in Hi |- *.
  - injection Hi as ->. by rewrite decide_True by done.
  - rewrite decide_False; [apply (IH Hnd); [done|cbn in Hlen; lia]|]. intros Heq. apply Hnin. rewrite Heq. apply list_elem_of_fmap. exists q. split; [done|]. by eapply list_elem_of_lookup_2.
Qed.

(** The sessions differ in relations and caches only. *)
Record same_but (m : gmap (list Z) srel) (v v' : session) : Prop := {
  sb_rels : rels v' = m;
  sb_iteration : current_iteration v' = current_iteration v;
  sb_diff : diff_operators_active v' = diff_operators_active v;
  sb_fronts : fronts v' = fronts v;
  sb_side : side_ok (side v') }.

Lemma remove_rel_ok n (v : session) : side_ok (side v) -> exists v', remove_rel n v = Some v' /\ same_but (delete n (rels v)) v v'.
Proof.
  intros Hs. unfold remove_rel. destruct (rels v !! n) eqn:Hn.
  - destruct (ok_drop n _ Hs) as (x & -> & Hx). cbn [mbind option_bind]. eexists. split; [done|]. by split.
  - exists v. split; [done|]. split; try done. symmetry. by apply delete_id.
Qed.

Lemma add_rel_ok b n r (v : session) : side_ok (side v) -> (b = false /\ add_rel b n r v = Some (v, ENOMEM)) \/ (exists v', add_rel b n r v = Some (v', 0) /\ same_but (<[n := r]> (rels v)) v v').
Proof.
  intros Hs. unfold add_rel. destruct b; [|by left]. right. cbn [negb]. destruct (rels v !! n).
  - destruct (ok_drop n _ Hs) as (x & -> & Hx). cbn [mbind option_bind]. eexists. split; [done|]. by split.
  - cbn [mbind option_bind]. eexists. split; [done|]. by split.
Qed.

Lemma register_ok k : (forall ri, en_register e k ri = true) -> forall qs ds ri (v : session), NoDup (delta_name_of <$> qs) -> side_ok (side v) ->
  exists v', register_deltas e k ri qs ds v = Some v' /\ same_but (rels v') v v' /\ forall n, rels v' !! n = match delta_at qs ds n with Some d => Some d | None => rels v !! n end.
Proof.
  intros Hreg. induction qs as [|q qs IH]; intros ds ri v Hnd Hs; [by exists v|]. destruct ds as [|d ds]; [by exists v|]. apply NoDup_cons in Hnd as [Hnin Hnd]. cbn [register_deltas].
  assert (Hstep : exists v1, (match d with None => Some v | Some d => v ← remove_rel (delta_name_of q) v; '(v, _) ← add_rel (en_register e k ri) (delta_name_of q) d v; Some v end) = Some v1 /\
    same_but (rels v1) v v1 /\ forall n, rels v1 !! n = if decide (delta_name_of q = n) then match d with Some d => Some d | None => rels v !! n end else rels v !! n).
  { destruct d as [d|].
    - destruct (remove_rel_ok (delta_name_of q) v Hs) as (v1 & -> & [R1 R2 R3 R4 R5]). cbn [mbind option_bind]. rewrite Hreg. destruct (add_rel_ok true (delta_name_of q) d v1 R5) as [[? _]|(v2 & -> & [A1 A2 A3 A4 A5])]; [done|]. cbn [mbind option_bind].
      exists v2. split; [done|]. split; [split; congruence || done|]. intros n. rewrite A1, R1. destruct (decide (delta_name_of q = n)) as [->|Hne]; [by rewrite lookup_insert_eq|]. by rewrite lookup_insert_ne, lookup_delete_ne.
    - exists v. split; [done|]. split; [by split|]. intros n. by destruct (decide _). }
  destruct Hstep as (v1 & -> & [S1 S2 S3 S4 S5] & Hl). cbn [mbind option_bind]. destruct (IH ds (S ri) v1 Hnd S5) as (v' & -> & [T1 T2 T3 T4 T5] & Hl'). exists v'. split; [done|]. split; [split; congruence || done|].
  intros n. rewrite Hl'. cbn. destruct (decide (delta_name_of q = n)) as [<-|Hne]; [|rewrite Hl, decide_False by done; done]. rewrite delta_at_notin by done. rewrite Hl, decide_True by done. done.
Qed.

Lemma remove_deltas_ok (qs : list (rplan P)) : forall (v : session), side_ok (side v) -> exists v', remove_deltas qs v = Some v' /\ same_but (rels v') v v' /\ forall n, rels v' !! n = if decide (n ∈ (delta_name_of <$> qs)) then None else rels v !! n.
Proof.
  induction qs as [|q qs IH]; intros v Hs; cbn [remove_deltas].
  { exists v. split; [done|]. split; [by split|]. intros n. by rewrite decide_False by (apply not_elem_of_nil). }
  destruct (remove_rel_ok (delta_name_of q) v Hs) as (v1 & -> & [R1 R2 R3 R4 R5]). cbn [mbind option_bind]. destruct (IH v1 R5) as (v' & -> & [T1 T2 T3 T4 T5] & Hl). exists v'. split; [done|]. split; [split; congruence || done|].
  intros n. rewrite Hl, R1. cbn [fmap list_fmap]. destruct (decide (n ∈ delta_name_of <$> qs)) as [Hin|Hnin]; [rewrite decide_True by (by right); done|]. destruct (decide (n = delta_name_of q)) as [->|Hne].
  - rewrite decide_True by left. apply lookup_delete_eq.
  - rewrite decide_False by (rewrite elem_of_cons; tauto). by apply lookup_delete_ne.
Qed.

(** A delta with rows has a net multiplicity. *)
Definition stamped (d : srel) : Prop := exists k s, s_stamps d = Some (replicate (nrows (s_rel d)) (St k s 1)) /\ Z.of_nat (nrows (s_rel d)) < 2 ^ 31.

Lemma net_ok d : stamped d -> net_multiplicity d = Some (Z.of_nat (nrows (s_rel d))).
Proof.
  intros (k & s & Hst & Hn). unfold net_multiplicity. rewrite Hst. cbn [mbind option_bind]. rewrite take_ge by (by rewrite length_replicate). f_equal.
  assert (H : forall n a, 0 <= a -> a + Z.of_nat n < 2 ^ 31 -> foldl (fun n t => i64 (n + multiplicity t)) a (replicate n (St k s 1)) = a + Z.of_nat n).
  { induction n as [|n IH]; intros a Ha Hb; cbn [replicate foldl multiplicity]; [lia|]. rewrite i64_small by mi. rewrite IH by lia. lia. }
  rewrite H by lia. lia.
Qed.

Lemma net_zero_ok (v : session) (qs : list (rplan P)) : (forall q d, q ∈ qs -> rels v !! delta_name_of q = Some d -> stamped d /\ (0 < nrows (s_rel d))%nat) ->
  exists b, all_net_zero qs v = Some b /\ (b = true -> forall q, q ∈ qs -> rels v !! delta_name_of q = None).
Proof.
  induction qs as [|q qs IH]; intros H; cbn [all_net_zero]; [exists true; split; [done|]; intros _ q Hq; by apply not_elem_of_nil in Hq|].
  destruct IH as (b & Hb & Hb'); [intros q' d Hq'; apply H; by right|]. destruct (rels v !! delta_name_of q) as [d|] eqn:Hd.
  - destruct (H q d ltac:(left) Hd) as [Hst Hpos]. rewrite (proj2 (Nat.eqb_neq _ _)) by lia. rewrite (net_ok d Hst). cbn [mbind option_bind]. rewrite (proj2 (Z.eqb_neq _ _)) by lia. by exists false.
  - exists b. split; [done|]. intros Hbt q' [->|Hq']%elem_of_cons; [done|by apply Hb'].
Qed.

(** *** Relations of a stratum *)

(** A relation between passes: its runs end where its rows do; or it was made for
    the stratum and has no schema yet. *)
Record at_rest (i : nat) (r : rel) (Yi : Z -> Prop) : Prop := {
  ar_lanes : lanes r = sh i;
  ar_wf : wf r;
  ar_tracked : tracked r (nrows r);
  ar_rows : forall x, x ∈ keys (sh i) (stored r) <-> Yi x }.
Definition blank : rel := R (Sh 0 None) [] 0 0 0 None 0 false 0 (replicate COL_MAX_RUNS O).
Definition unused (i : nat) (r : rel) (Yi : Z -> Prop) : Prop := r = blank /\ no_floats (sh i) /\ forall x, ~ Yi x.
Definition resting (i : nat) (r : rel) (Yi : Z -> Prop) : Prop := at_rest i r Yi \/ unused i r Yi.

(** One that may have rows twice. *)
Definition holding (i : nat) (r : rel) (Yi : Z -> Prop) : Prop := (lanes r = sh i /\ readable r /\ forall x, x ∈ keys (sh i) (stored r) <-> Yi x) \/ unused i r Yi.

Lemma tracked_nodup r n : tracked r n -> NoDup (keys r (take n (rows r))).
Proof. intros [H|H]; [apply H|apply strict_nodup, H]. Qed.

Lemma resting_holding i r Yi : resting i r Yi -> holding i r Yi.
Proof. intros [[H1 [G1 G2 G3] H3 H4]|H]; [left|by right]. by split_and!. Qed.

Lemma resting_ext i r Yi Yi' : (forall x, Yi x <-> Yi' x) -> resting i r Yi -> resting i r Yi'.
Proof. intros Hx [[H1 H2 H3 H4]|(H1 & H2 & H3)]; [left; split; try done; intros x; by rewrite H4|right; split_and!; try done; intros x; by rewrite <-Hx]. Qed.

Lemma holding_agree i r A B : holding i r A -> holding i r B -> forall x, A x <-> B x.
Proof.
  assert (Hb : forall C, (lanes r = sh i /\ readable r /\ forall x, x ∈ keys (sh i) (stored r) <-> C x) -> r = blank -> forall x, ~ C x) by (intros C (_ & _ & H) -> x Hx%H; by apply not_elem_of_nil in Hx).
  intros [HA|(EA & _ & HA)] [HB|(EB & _ & HB)] x.
  - destruct HA as (_ & _ & HA), HB as (_ & _ & HB). by rewrite <-HA, <-HB.
  - pose proof (Hb A HA EB x). pose proof (HB x). tauto.
  - pose proof (Hb B HB EA x). pose proof (HA x). tauto.
  - pose proof (HA x). pose proof (HB x). tauto.
Qed.

Lemma holding_dec i r Yi : holding i r Yi -> forall x, Yi x \/ ~ Yi x.
Proof. intros [(_ & _ & H)|(_ & _ & H)] x; [rewrite <-H; destruct (decide (x ∈ keys (sh i) (stored r))); tauto|right; apply H]. Qed.

(** *** The rules *)

(** The rows that the rules of relation [i] give, of the rows of the stratum; the
    rows it starts from; the rows that follow.  There are finitely many. *)
Context (sem : nat -> interp -> Z -> Prop) (X0 : interp).

Definition closed (Y : interp) : Prop := forall i p x, ps !! i = Some p -> sem i Y x -> Y i x.
Definition least : interp := fun i x => forall Y, sub X0 Y -> closed Y -> Y i x.

(** [L]: all of them; [size i]: what relation [i] may hold before its new rows are
    consolidated. *)
Context (L : list (nat * Z)) (size : nat -> nat).

(** The rules below [ri] ran; the relations of the stratum hold [Y], their deltas
    [D], the others are as they were. *)
Record view (ri : nat) (v : session) (Y D : interp) : Prop := {
  vw_rel : forall i p, ps !! i = Some p -> exists t, rels v !! rp_name p = Some t /\ holding i (s_rel t) (Y i) /\ (nrows (s_rel t) <= if decide (i < ri)%nat then size i else length L)%nat;
  vw_delta : forall i p, ps !! i = Some p ->
    match rels v !! delta_name_of p with
    | None => forall x, ~ D i x
    | Some d => lanes (s_rel d) = sh i /\ readable (s_rel d) /\ (0 < nrows (s_rel d) <= length L)%nat /\ forall x, x ∈ keys (sh i) (stored (s_rel d)) <-> D i x
    end;
  vw_sub : sub D Y;
  vw_out : forall i x, ps !! i = None -> ~ Y i x;
  vw_other : forall n, n ∉ rp_name <$> ps -> n ∉ delta_name_of <$> ps -> rels v !! n = m0 !! n;
  vw_titles : titles (rels v);
  vw_side : side_ok (side v) }.

(** The rows [R] are enough: in the first pass all that follow, later those that
    follow with the deltas but not without. *)
Definition covers (k : Z) (i : nat) (Y D : interp) (R : Z -> Prop) : Prop :=
  if k =? 0 then forall x, sem i Y x -> R x else forall B x, sub B Y -> sem i (both B D) x -> sem i B x \/ R x.

(** No allocation fails that would be reported. *)
Context (lucky : Prop).
Record env_lucky : Prop := {
  lk_grow : forall k ri, en_grow e k ri = true;
  lk_types : forall k ri, en_types e k ri = true;
  lk_add : forall k ri, en_add e k ri = true;
  lk_schema : forall k ri, en_schema e k ri = 0;
  lk_alloc : forall ri, en_alloc e ri = true;
  lk_arrays : en_arrays e = true;
  lk_delta : forall k ri, en_delta e k ri = true;
  lk_cons : forall k ri, allocs (en_cons e k ri) = true;
  lk_stamps : forall k ri, en_stamps e k ri = true;
  lk_enable : forall k ri, en_enable e k ri = true }.
Context (Hlucky : lucky -> env_lucky).

(** The rows of a result. *)
Definition rows_of (i : nat) (res : option (rel * bool * names)) (x : Z) : Prop := match res with Some (r, _, _) => x ∈ keys (sh i) (stored r) | None => False end.
Definition result_ok (i : nat) (res : option (rel * bool * names)) : Prop :=
  match res with Some (r, _, _) => nrows r = O \/ (lanes r = sh i /\ readable r /\ (length L + nrows r <= size i)%nat) | None => True end.

(** What the plan [p] of relation [i] promises. *)
Record rule_law (i : nat) (p : rplan P) : Prop := {
  rl_mono : forall Y Y' x, sub Y Y' -> sem i Y x -> sem i Y' x;
  rl_run : forall v Y D, view i v Y D -> sub X0 Y -> sub Y least -> 0 <= current_iteration v -> (current_iteration v = 0 -> forall j x, ~ D j x) ->
    exists v' st rc, col_eval_relation_plan run_op c e i p v = Some (v', st, rc) /\ same_but (rels v) v v' /\
      ((rc <> 0 /\ ~ lucky) \/
       (rc = 0 /\ exists res, result_entry st = Some res /\ result_ok i res /\ (forall x, rows_of i res x -> sem i Y x) /\ covers (current_iteration v) i Y D (rows_of i res)));
  rl_skip : forall v Y D ri, view ri v Y D -> 0 < current_iteration v -> has_empty_forced_delta c p v (current_iteration v) = true -> covers (current_iteration v) i Y D (fun _ => False) }.
Context (Hrules : forall i p, ps !! i = Some p -> rule_law i p).

Lemma least_closed : closed least.
Proof.
  intros i p x Hp Hx Y Hs Hc. apply (Hc i p x Hp). apply (rl_mono _ _ (Hrules i p Hp) least); [|done]. intros j y Hy. by apply Hy.
Qed.

Context (HL : forall i p x, ps !! i = Some p -> least i x -> (i, x) ∈ L).

(** What [n] rounds of all rules derive; all that follows does so within [N]. *)
Fixpoint stage (n : nat) : interp :=
  match n with O => X0 | S n' => fun i x => stage n' i x \/ (is_Some (ps !! i) /\ sem i (stage n') x) end.
Context (N : nat) (Hdepth : sub least (stage N)) (HN : Z.of_nat N < MAX_ITERATIONS * EVAL_STRIDE).
Context (Hsize : forall i, (length L <= size i)%nat /\ Z.of_nat (size i) < 2 ^ 31).

Lemma few i p l : ps !! i = Some p -> NoDup l -> (forall x, x ∈ l -> least i x) -> (length l <= length L)%nat.
Proof.
  intros Hp Hnd Hl. rewrite <-(length_fmap (pair i) l). apply submseteq_length, NoDup_submseteq; [apply NoDup_fmap_2; [|done]; by intros ? ? [= ->]|].
  intros [j x] (y & [= -> ->] & Hy)%list_elem_of_fmap. apply (HL _ _ _ Hp). by apply Hl.
Qed.

Lemma drop_head {A} (l : list A) i x l' : x :: l' = drop i l -> l !! i = Some x /\ l' = drop (S i) l.
Proof. intros H. split; [by rewrite <-(Nat.add_0_r i), <-lookup_drop, <-H|by rewrite <-(Nat.add_1_r i), <-drop_drop, <-H]. Qed.

(** *** Running the rules *)

Context (Hnames : NoDup ((rp_name <$> ps) ++ (delta_name_of <$> ps))).

Lemma name_inj i j p q : ps !! i = Some p -> ps !! j = Some q -> rp_name p = rp_name q -> i = j.
Proof. intros Hi Hj Heq. apply NoDup_app in Hnames as [Hnd _]. apply (NoDup_lookup _ i j (rp_name p) Hnd); by rewrite list_lookup_fmap, ?Hi, ?Hj; cbn; rewrite ?Heq. Qed.

Lemma name_delta i j p q : ps !! i = Some p -> ps !! j = Some q -> rp_name p <> delta_name_of q.
Proof.
  intros Hi Hj Heq. apply NoDup_app in Hnames as (_ & Hd & _). apply (Hd (rp_name p)); [apply list_elem_of_fmap; exists p; split; [done|by eapply list_elem_of_lookup_2]|].
  rewrite Heq. apply list_elem_of_fmap. exists q. split; [done|by eapply list_elem_of_lookup_2].
Qed.

Lemma deltas_nodup : NoDup (delta_name_of <$> ps).
Proof. by apply NoDup_app in Hnames as (_ & _ & ?). Qed.

(** The pass starts from [Y], in which all follows from [B] that does. *)
Definition ready (k : Z) (Y B D : interp) : Prop :=
  (k = 0 /\ forall i x, ~ D i x) \/ (0 < k /\ sub Y (both B D) /\ sub B Y /\ forall i p x, ps !! i = Some p -> sem i B x -> Y i x).

Lemma advance k i p Y Yv B D R x : ps !! i = Some p -> ready k Y B D -> sub Y Yv -> covers k i Yv D R -> sem i Y x -> Y i x \/ R x.
Proof.
  intros Hp [[-> _]|(Hk & Hy & Hb & Hbase)] Hs Hcov Hx; unfold covers in Hcov.
  - right. apply Hcov. by eapply (rl_mono _ _ (Hrules i p Hp)).
  - rewrite (proj2 (Z.eqb_neq _ _)) in Hcov by lia. destruct (Hcov B x) as [H|H]; [intros j y Hj; by apply Hs, Hb|by eapply (rl_mono _ _ (Hrules i p Hp))|left; by eapply Hbase|by right].
Qed.

(** Rows were appended to a relation. *)
Record grown (t t' : srel) : Prop := {
  gn_kept : kept (s_rel t) (s_rel t');
  gn_fits : fits (s_rel t');
  gn_rows : (nrows (s_rel t) <= nrows (s_rel t'))%nat }.

Lemma grown_refl t : fits (s_rel t) -> grown t t.
Proof. intros Hf. split; [by split|done|done]. Qed.

(** The failures that nobody reports do not happen. *)
Record quiet : Prop := {
  qu_register : forall k ri, en_register e k ri = true;
  qu_presort : forall ri, sort_memory (en_presort e ri);
  qu_sort : forall k ri, sort_memory (en_sort e k ri);
  qu_tight : forall k ri, tight_ok (en_cons e k ri) = true;
  qu_append : forall k ri n, append_ok (en_cons e k ri) n = true }.
Context (Hquiet : quiet) (Hshape : forall i p, ps !! i = Some p -> int_lead (sh i) /\ narrow (sh i)).

Section Rules.

Context (k base : Z) (v0 : session) (Y B D : interp) (Hk : 0 <= k) (Hfrom0 : sub X0 Y) (Hready : ready k Y B D) (Hit : current_iteration v0 = k) (Hview0 : view 0 v0 Y D).
Context (Hrest0 : forall i p t, ps !! i = Some p -> rels v0 !! rp_name p = Some t -> resting i (s_rel t) (Y i)).
Context (Hseeds : delta_seeded c = false /\ retraction_seeded c = false).
Context (Hskip : forall ri, Vtable.should_skip_rule (frontier_vtable c) (fronts v0) (Z.to_nat (base + Z.of_nat ri)) k = Some false).

(** How relation [i] comes to hold [Yi]: as it was, or rows joined those of [t1],
    the relation with its schema. *)
Definition evolved (i : nat) (t t' : srel) : Prop := t' = t \/ exists t1, nrows (s_rel t1) = nrows (s_rel t) /\ at_rest i (s_rel t1) (Y i) /\ grown t1 t'.

(** The rules below [ri] ran. *)
Record running (ri : nat) (v : session) (Yv : interp) : Prop := {
  rn_view : view ri v Yv D;
  rn_same : same_but (rels v) v0 v;
  rn_from : sub Y Yv;
  rn_sound : sub Yv least;
  rn_rels : forall i p t, ps !! i = Some p -> rels v0 !! rp_name p = Some t -> exists t', rels v !! rp_name p = Some t' /\ evolved i t t' /\ ((ri <= i)%nat -> t' = t) }.

(** Before rows are appended the relation has its schema; it is [r1] then, with
    the types of the rows. *)
Lemma schema_append i t r ns tb b : resting i (s_rel t) (Y i) -> lanes r = sh i -> readable r -> (0 < ncols (sh i))%nat -> nrows r <> O -> Z.of_nat (nrows (s_rel t) + nrows r) <= 2 ^ 31 ->
  exists r1 d rc, append_checked tb b (s_rel (if (ncols (s_rel t) =? 0)%nat && (0 <? ncols r)%nat then with_schema (ncols r) ns t else t)) r = Some (d, rc) /\
    nrows r1 = nrows (s_rel t) /\ at_rest i r1 (Y i) /\ ((rc = 0 /\ kept r1 d /\ fits d /\ grew r1 d (stored r)) \/ (rc = ENOMEM /\ (b = false \/ tb = false))).
Proof.
  intros [Hr|(Hb & Hnf & Hno)] Hlr Hrr Hnc Hn Hbig.
  - assert ((ncols (s_rel t) =? 0)%nat = false) as -> by (apply Nat.eqb_neq; rewrite (ar_lanes _ _ _ Hr); lia). cbn [andb].
    destruct (append_checked_ok tb b (s_rel t) r (wf_fits _ (ar_wf _ _ _ Hr)) (proj1 Hrr) ltac:(by rewrite Hlr, (ar_lanes _ _ _ Hr)) (proj2 Hrr) Hbig) as (d & rc & Ha & Hres).
    exists (s_rel t), d, rc. split_and!; [done..|]. destruct Hres as [(-> & H1 & H2 & _ & H3)|(-> & Hg)]; [left; by split_and!|right; split; [done|by left]].
  - rewrite Hb. assert ((0 <? ncols r)%nat = true) as -> by (apply Nat.ltb_lt; rewrite Hlr; lia). cbn [blank lanes ncols Nat.eqb andb]. set (r0 := s_rel (with_schema (ncols r) ns t)).
    assert (Hr0 : r0 = R (Sh (ncols r) None) (replicate COL_REL_INIT_CAP (replicate (ncols r) 0)) 0 COL_REL_INIT_CAP 0 None 0 false 0 (replicate COL_MAX_RUNS O)) by (unfold r0, with_schema; cbn [s_rel]; by rewrite Hb).
    assert (Hf0 : fits r0) by (rewrite Hr0; unfold fits; cbn [nrows capacity rows]; rewrite length_replicate; lia).
    destruct (append_adopts tb b r0 r) as (d & rc & Ha & Hres); [by rewrite Hr0|by rewrite Hlr|done|done|done|by rewrite Hr0, Hb in *|by rewrite Hr0|].
    exists (set_types (column_types r) r0), d, rc. split_and!; [done|by rewrite Hr0| |done]. split.
    + cbn [set_types lanes]. rewrite Hr0. cbn [lanes ncols]. rewrite Hlr. by destruct (sh i).
    + split; [exact Hf0|rewrite Hr0; constructor|by rewrite Hr0].
    + left. rewrite Hr0. split; cbn [set_types run_ends run_count rows lanes nrows]; [done|unfold COL_MAX_RUNS; lia|lia|constructor|constructor|done].
    + intros x. rewrite Hr0. cbn. split; [by intros ?%not_elem_of_nil|]. intros H. by apply Hno in H.
Qed.

Lemma store_result_ok ri p (v : session) Yv r own ns : ps !! ri = Some p -> running ri v Yv -> (0 < ncols (sh ri))%nat -> nrows r <> O -> lanes r = sh ri -> readable r -> (length L + nrows r <= size ri)%nat -> (forall x, x ∈ keys (sh ri) (stored r) -> sem ri Yv x) ->
  exists v' rc, store_result e k ri (rp_name p) r own ns v = Some (v', rc) /\ side_ok (side v') /\
    ((rc <> 0 /\ ~ lucky) \/ (rc = 0 /\ running (S ri) v' (fun i x => Yv i x \/ (i = ri /\ x ∈ keys (sh ri) (stored r))))).
Proof.
  intros Hp [[V1 V2 V3 V4 V5 V7 V6] [S1 S2 S3 S4 S5] Hfrom Hsound Hrels] Hnc Hnz Hlr Hrr Hbig Hsem. destruct (V1 ri p Hp) as (t & Ht & Hh & Hn). rewrite decide_False in Hn by lia.
  destruct (vw_rel _ _ _ _ Hview0 ri p Hp) as (t0 & Ht0 & _). destruct (Hrels ri p t0 Hp Ht0) as (t' & Ht' & _ & Heq). rewrite Ht in Ht'. injection Ht' as <-. specialize (Heq ltac:(done)). subst t0. pose proof (Hsize ri) as [Hs1 Hs2].
  assert (Hin : forall x, x ∈ keys (sh ri) (stored r) -> least ri x) by (intros x Hx; apply (least_closed ri p x Hp); eapply (rl_mono _ _ (Hrules ri p Hp)); [exact Hsound|by apply Hsem]).
  destruct (schema_append ri t r ns (en_types e k ri) (en_grow e k ri) (Hrest0 ri p t Hp Ht0) Hlr Hrr Hnc Hnz ltac:(lia)) as (r1 & d & rc & Ha & An & [A1 [A2 A3 A4] A5 A6] & Hres). unfold store_result. rewrite Ht.
  set (sc := (ncols (s_rel t) =? 0)%nat && (0 <? ncols r)%nat) in *. set (t1 := if sc then with_schema (ncols r) ns t else t) in *.
  assert (Hsplit : (if sc then if negb (en_schema e k ri =? 0) then Some (v, en_schema e k ri) else append_to e k ri (rp_name p) (with_schema (ncols r) ns t) r v else append_to e k ri (rp_name p) t r v) =
    (if sc && negb (en_schema e k ri =? 0) then Some (v, en_schema e k ri) else append_to e k ri (rp_name p) t1 r v)) by (unfold t1; destruct sc; done).
  rewrite Hsplit. clear Hsplit. destruct (sc && negb (en_schema e k ri =? 0)) eqn:Hsc.
  { apply andb_true_iff in Hsc as [_ Hsc%negb_true_iff%Z.eqb_neq]. eexists _, _. split; [done|]. split; [done|]. left. split; [done|]. intros Hl. apply Hlucky in Hl. by rewrite (lk_schema Hl) in Hsc. }
  assert (Ht1 : names_ok (s_names t1) (ncols r)).
  { unfold t1, sc. destruct (Hrest0 ri p t Hp Ht0) as [Hr|(Hb & _)].
    - assert ((ncols (s_rel t) =? 0)%nat = false) as -> by (apply Nat.eqb_neq; rewrite (ar_lanes _ _ _ Hr); lia). cbn [andb]. rewrite Hlr, <-(ar_lanes _ _ _ Hr). exact (V7 _ _ Ht).
    - rewrite Hb, Hlr, (proj2 (Nat.ltb_lt _ _) Hnc). cbn. by rewrite length_fmap, length_seq. }
  clear Hsc. unfold append_to. rewrite Ha. cbn [mbind option_bind]. destruct Hres as [(-> & Hkp & Hfd & Hnd & l & Hsd & Hkl & Hokl)|(-> & Hg)].
  2: { eexists _, _. split; [done|]. split; [done|]. left. split; [done|]. intros Hl. apply Hlucky in Hl. rewrite (lk_grow Hl), (lk_types Hl) in Hg. by destruct Hg. }
  eexists _, _. split; [done|]. split; [done|]. right. split; [done|]. pose proof (kt_lanes _ _ Hkp) as Hld. rewrite (length_stored r (proj1 Hrr)) in Hnd.
  split; cbn [set_rels rels side current_iteration diff_operators_active fronts].
  - split; cbn [set_rels rels side].
    + intros i q Hq. destruct (decide (i = ri)) as [->|Hne].
      * rewrite Hp in Hq. injection Hq as <-. rewrite lookup_insert_eq. eexists. split; [done|]. cbn [s_rel]. split; [left|rewrite decide_True by lia; lia]. rewrite Hld, A1. split; [done|]. split; [split; [done|rewrite Hld, Hsd; by apply Forall_app]|].
        intros x. rewrite Hsd. unfold keys in *. rewrite fmap_app, elem_of_app. rewrite A1 in Hkl. rewrite Hkl, A6.
        rewrite (holding_agree ri (s_rel t) (Y ri) (Yv ri) (resting_holding _ _ _ (Hrest0 ri p t Hp Ht0)) Hh x).
        split; [intros [H|H]; [by left|by right]|intros [H|[_ H]]; [by left|by right]].
      * rewrite lookup_insert_ne by (intros Heq; apply Hne; symmetry; by eapply name_inj). destruct (V1 i q Hq) as (ti & H1 & H2 & H3). exists ti. split; [done|]. split; [|destruct (decide (i < ri)%nat); [rewrite decide_True by lia; done|rewrite decide_False by lia; done]].
        destruct H2 as [(G1 & G2 & G3)|(G1 & G2 & G3)]; [left|right]; (split; [done|]; split; [done|]); intros x; rewrite ?G3; [split; [by left|]; intros [H|[? _]]; done|intros [H|[? _]]; [by apply G3 in H|done]].
    + intros i q Hq. rewrite lookup_insert_ne by (by eapply name_delta). by apply V2.
    + intros i x Hx. left. by apply V3.
    + intros i x Hi [H|[-> _]]; [by eapply V4|congruence].
    + intros n Hn1 Hn2. rewrite lookup_insert_ne; [by apply V5|]. intros <-. apply Hn1. apply list_elem_of_fmap. exists p. split; [done|by eapply list_elem_of_lookup_2].
    + apply map_Forall_insert_2; [|done]. unfold titled. cbn [s_names s_rel]. rewrite Hld, A1, <-Hlr. exact Ht1.
    + done.
  - by split.
  - intros i x Hx. left. by apply Hfrom.
  - intros i x [Hx|[-> Hx]]; [by apply Hsound|by apply Hin].
  - intros i q ti Hq Hti. destruct (decide (i = ri)) as [->|Hne].
    + rewrite Hp in Hq. injection Hq as <-. rewrite Ht0 in Hti. injection Hti as <-. rewrite lookup_insert_eq. eexists. split; [done|]. split; [right; exists (Sr r1 (s_names t) (s_stamps t)); split; [done|]; split; [by split|split; cbn [s_rel]; [done|done|lia]]|lia].
    + rewrite lookup_insert_ne by (intros Heq; apply Hne; symmetry; by eapply name_inj). destruct (Hrels i q ti Hq Hti) as (t' & H1 & H2 & H3). exists t'. split_and!; try done. intros Hle. apply H3. lia.
Qed.

Lemma running_skip ri v Yv : running ri v Yv -> running (S ri) v Yv.
Proof.
  intros [[V1 V2 V3 V4 V5 V7 V6] H2 H3 H4 H5]. split; try done.
  - split; try done. intros i p Hp. destruct (V1 i p Hp) as (t & G1 & G2 & G3). exists t. split_and!; try done. pose proof (Hsize i). repeat case_decide; lia.
  - intros i p t Hp Ht. destruct (H5 i p t Hp Ht) as (t' & G1 & G2 & G3). exists t'. split_and!; try done. intros Hle. apply G3. lia.
Qed.

Lemma running_same ri v v' Yv : same_but (rels v) v v' -> running ri v Yv -> running ri v' Yv.
Proof.
  intros [R1 R2 R3 R4 R5] [[V1 V2 V3 V4 V5 V7 V6] [S1 S2 S3 S4 S5] H3 H4 H5]. split; try done; [|split; congruence || done|by rewrite R1]. split; rewrite ?R1; done.
Qed.

Lemma running_le ri v Yv : (length ps <= ri)%nat -> running ri v Yv -> running (length ps) v Yv.
Proof.
  intros Hle [[V1 V2 V3 V4 V5 V7 V6] H2 H3 H4 H5]. split; try done.
  - split; try done. intros i p Hp. destruct (V1 i p Hp) as (t & G1 & G2 & G3). exists t. split_and!; try done. apply lookup_lt_Some in Hp. rewrite decide_True by done. by rewrite decide_True in G3 by lia.
  - intros i p t Hp Ht. destruct (H5 i p t Hp Ht) as (t' & G1 & G2 & G3). exists t'. split_and!; try done. intros Hle'. apply lookup_lt_Some in Hp. lia.
Qed.

Lemma eval_rules_ok qs : forall ri v Yv, qs = drop ri ps -> running ri v Yv ->
  exists v' rc, eval_rules run_op c e k base ri qs v = Some (v', rc) /\ side_ok (side v') /\
    ((rc <> 0 /\ ~ lucky) \/ (rc = 0 /\ exists Yv', running (length ps) v' Yv' /\ sub Yv Yv' /\ forall i p x, (ri <= i)%nat -> ps !! i = Some p -> sem i Y x -> Yv' i x)).
Proof.
  induction qs as [|p qs IH]; intros ri v Yv Hqs Hrun; cbn [eval_rules].
  { eexists _, _. split; [done|]. split; [apply Hrun|]. right. split; [done|]. exists Yv. assert (Hlen : (length ps <= ri)%nat) by (apply (f_equal length) in Hqs; rewrite length_drop in Hqs; cbn in Hqs; lia). split; [|split; [by intros ? ?|intros i q x Hi Hq; apply lookup_lt_Some in Hq; lia]].
    by apply (running_le ri). }
  destruct (drop_head ps ri p qs Hqs) as [Hp Hqs'].
  pose proof Hrun as [Hview [S1 S2 S3 S4 S5] Hfrom Hsound Hrels]. rewrite S4, Hskip. cbn [mbind option_bind orb]. rewrite Hit in S2. pose proof (Hrules ri p Hp) as Hlaw.
  (* how to go on *)
  assert (Hgo : forall v1 Yv1 (R : Z -> Prop), running (S ri) v1 Yv1 -> sub Yv Yv1 -> covers k ri Yv D R -> (forall x, R x -> Yv1 ri x) ->
    exists v' rc, eval_rules run_op c e k base (S ri) qs v1 = Some (v', rc) /\ side_ok (side v') /\
      ((rc <> 0 /\ ~ lucky) \/ (rc = 0 /\ exists Yv', running (length ps) v' Yv' /\ sub Yv Yv' /\ forall i p x, (ri <= i)%nat -> ps !! i = Some p -> sem i Y x -> Yv' i x))).
  { intros v1 Yv1 R Hrun1 Hsub Hcov HR. destruct (IH (S ri) v1 Yv1 Hqs' Hrun1) as (v' & rc & -> & Hsd & [Hbad|(-> & Yv' & Hrun' & Hsub' & Hall)]); (eexists _, _; split; [done|]; split; [done|]); [by left|]. right. split; [done|]. exists Yv'. split; [done|]. split; [intros j x Hx; by apply Hsub', Hsub|].
    intros i q x Hi Hq Hx. destruct (decide (i = ri)) as [->|Hne]; [|apply (Hall i q x); (done || lia)]. apply Hsub'. destruct (advance k ri p Y Yv B D R x Hp Hready Hfrom Hcov Hx) as [H|H]; [by apply Hsub, Hfrom|by apply HR]. }
  destruct (has_empty_forced_delta c p v k) eqn:Hpre.
  { assert (Hk0 : k <> 0). { intros ->. destruct Hready as [[_ HD]|[? _]]; [|lia]. unfold has_empty_forced_delta in Hpre. by rewrite (proj1 Hseeds), (proj2 Hseeds) in Hpre. }
    apply (Hgo v Yv (fun _ => False)); [by apply running_skip|by intros ? ?| |done]. rewrite <-S2. apply (rl_skip _ _ Hlaw v Yv D ri Hview); [lia|by rewrite S2]. }
  destruct (rl_run _ _ Hlaw v Yv D Hview ltac:(intros ? ? ?; by apply Hfrom, Hfrom0) Hsound) as (v1 & st & rc & -> & Hsame & Hres); [lia|rewrite S2; intros Hz; destruct Hready as [[_ HD]|[? _]]; [done|lia]|]. cbn [mbind option_bind].
  destruct Hres as [[Hrc Hnl]|(-> & res & Hre & Hrok & Hsd & Hcov)]; [rewrite (proj2 (Z.eqb_neq _ _) Hrc); eexists _, _; split; [done|]; split; [apply Hsame|by left]|]. cbn [Z.eqb negb]. rewrite Hre. rewrite S2 in Hcov.
  assert (Hrun1 : running ri v1 Yv) by (by apply (running_same _ v)).
  destruct res as [[[r own] ns]|]; [|apply (Hgo v1 Yv (rows_of ri None)); [by apply running_skip|by intros ? ?|done|done]].
  destruct (Nat.eqb_spec (nrows r) 0) as [Hz|Hnz].
  { apply (Hgo v1 Yv (rows_of ri (Some (r, own, ns)))); [by apply running_skip|by intros ? ?|done|]. intros x Hx. cbn in Hx. unfold stored in Hx. rewrite Hz in Hx. cbn in Hx. by apply not_elem_of_nil in Hx. }
  destruct Hrok as [?|(Hlr & Hrr & Hnd)]; [done|]. pose proof (proj1 (proj1 (Hshape ri p Hp))) as Hnc.
  destruct (store_result_ok ri p v1 Yv r own ns Hp Hrun1 Hnc Hnz Hlr Hrr Hnd Hsd) as (v2 & rc & -> & Hs2 & [[Hrc Hnl]|(-> & Hrun2)]); cbn [mbind option_bind]; [rewrite (proj2 (Z.eqb_neq _ _) Hrc); eexists _, _; split; [done|]; split; [done|by left]|]. cbn [Z.eqb negb].
  apply (Hgo v2 _ (rows_of ri (Some (r, own, ns))) Hrun2); [intros i x Hx; by left|done|]. intros x Hx. by right.
Qed.

End Rules.

(** *** The end of a pass *)

(** A relation with the rows of a pass behind [old]. *)
Record behind (i old : nat) (r : rel) (Yi Yi' : Z -> Prop) : Prop := {
  bh_lanes : lanes r = sh i;
  bh_wf : wf r;
  bh_tracked : tracked r old;
  bh_small : small r;
  bh_le : (old <= nrows r)%nat;
  bh_old : forall x, x ∈ keys (sh i) (take old (rows r)) <-> Yi x;
  bh_rows : forall x, x ∈ keys (sh i) (stored r) <-> Yi' x }.
Definition delta_is (i : nat) (Di : Z -> Prop) (d : option srel) : Prop :=
  match d with
  | None => forall x, ~ Di x
  | Some d => lanes (s_rel d) = sh i /\ readable (s_rel d) /\ (0 < nrows (s_rel d))%nat /\ (nrows (s_rel d) <= length L)%nat /\ stamped d /\ titled d /\ forall x, x ∈ keys (sh i) (stored (s_rel d)) <-> Di x
  end.

Lemma tracked_timestamps b r n : tracked r n -> tracked (set_timestamps b r) n.
Proof. intros [[H1 H2 H3 H4 H5 H6]|[H1 H2 H3 H4 H5 H6]]; [left|right]; by split. Qed.

Lemma enable_ok b r : exists rc, enable_timestamps b r = (if rc =? 0 then set_timestamps (timestamps r || negb (capacity r =? 0)%nat) r else r, rc) /\ (rc = 0 \/ (rc = ENOMEM /\ b = false)).
Proof.
  unfold enable_timestamps. destruct (timestamps r) eqn:Ht; cbn [orb]; [exists 0; split; [|by left]; cbn; f_equal; destruct r; cbn in *; by subst|].
  destruct (capacity r =? 0)%nat; cbn [negb]; [exists 0; split; [|by left]; cbn; f_equal; destruct r; cbn in *; by subst|]. destruct b; [exists 0; split; [done|by left]|exists ENOMEM; split; [done|by right]].
Qed.

Lemma at_rest_timestamps b i r Yi : at_rest i r Yi -> at_rest i (set_timestamps b r) Yi.
Proof. intros [H1 [G1 G2 G3] H3 H4]. split; [done|by split|by apply (tracked_timestamps b r)|done]. Qed.

Section Closing.

Context (k : Z) (Y Y' : interp) (snap : list nat) (Hsound' : sub Y' least).

(** What consolidating the relations from [ri] on, [n] of them, leaves. *)
Definition closing_ok (ri n : nat) (v : session) (res : option (session * list (option srel) * (Z * Z) * Z)) : Prop :=
  exists v' ds f rc, res = Some (v', ds, f, rc) /\ same_but (rels v') v v' /\
    ((rc <> 0 /\ ~ lucky) \/
     (rc = 0 /\ (forall i p, ps !! i = Some p -> exists t, rels v' !! rp_name p = Some t /\ resting i (s_rel t) (Y' i)) /\
      (forall n, n ∉ rp_name <$> ps -> rels v' !! n = rels v !! n) /\ titles (rels v') /\ length ds = n /\
      forall j d, ds !! j = Some d -> delta_is (ri + j) (fun x => Y' (ri + j)%nat x /\ ~ Y (ri + j)%nat x) d)).

Lemma closing_stop ri n (v : session) v' m ds f rc : same_but m v v' -> rc <> 0 -> ~ lucky -> closing_ok ri n v (Some (v', ds, f, rc)).
Proof. intros [S1 S2 S3 S4 S5] Hrc Hl. eexists _, _, _, _. split; [done|]. split; [by split|by left]. Qed.

Lemma closing_step ri p n (v v1 : session) t1 d res : ps !! ri = Some p -> same_but (<[rp_name p := t1]> (rels v)) v v1 -> delta_is ri (fun x => Y' ri x /\ ~ Y ri x) d ->
  closing_ok (S ri) n v1 res -> closing_ok ri (S n) v ('(v', ds, f', rc) ← res; Some (v', d :: ds, f', rc)).
Proof.
  intros Hp [S1 S2 S3 S4 S5] Hd (v' & ds & f & rc & -> & [T1 T2 T3 T4 T5] & Hres). cbn [mbind option_bind]. eexists _, _, _, _. split; [done|]. split; [split; congruence || done|].
  destruct Hres as [H|(-> & H1 & H2 & Ht & H3 & H4)]; [by left|right]. split_and!; [done|done| |done|cbn; by rewrite H3|].
  - intros m Hm. rewrite H2, S1 by done. rewrite lookup_insert_ne; [done|]. intros <-. apply Hm. apply list_elem_of_fmap. exists p. split; [done|by eapply list_elem_of_lookup_2].
  - intros [|j] d' Hj; [rewrite Nat.add_0_r; cbn in Hj; by injection Hj as <-|]. replace (ri + S j)%nat with (S ri + j)%nat by lia. by apply H4.
Qed.

Lemma behind_done i old r : behind i old r (Y i) (Y' i) -> (nrows r <= old)%nat -> at_rest i r (Y' i) /\ forall x, ~ (Y' i x /\ ~ Y i x).
Proof.
  intros [B1 B2 B3 B4 B5 B6 B7] Hle. assert (nrows r = old) as Hn by lia. split; [split; try done; by rewrite Hn|]. intros x [H1 H2]. apply H2. apply B6. apply B7 in H1. unfold stored in H1. by rewrite Hn in H1.
Qed.

Definition awaiting (i old : nat) (r : rel) : Prop := behind i old r (Y i) (Y' i) \/ ((nrows r <= old)%nat /\ resting i r (Y' i) /\ forall x, Y' i x -> Y i x).

Lemma consolidate_all_ok qs : forall ri (v : session) f, qs = drop ri ps -> length snap = length ps -> titles (rels v) -> side_ok (side v) ->
  (forall i p, (i < ri)%nat -> ps !! i = Some p -> exists t, rels v !! rp_name p = Some t /\ resting i (s_rel t) (Y' i)) ->
  (forall i p old, (ri <= i)%nat -> ps !! i = Some p -> snap !! i = Some old -> exists t, rels v !! rp_name p = Some t /\ awaiting i old (s_rel t)) ->
  closing_ok ri (length qs) v (consolidate_all e k stratum ri qs (drop ri snap) v f).
Proof.
  induction qs as [|p qs IH]; intros ri v f Hqs Hlen Htit Hside Hdone Htodo; cbn [consolidate_all length].
  { eexists _, _, _, _. split; [done|]. split; [by split|]. right. split; [done|]. assert (length ps <= ri)%nat by (apply (f_equal length) in Hqs; rewrite length_drop in Hqs; cbn in Hqs; lia). split_and!; [|done|done|done|by intros j d Hj; apply list_elem_of_lookup_2, not_elem_of_nil in Hj].
    intros i p Hp. apply Hdone; [|done]. apply lookup_lt_Some in Hp. lia. }
  destruct (drop_head ps ri p qs Hqs) as [Hp Hqs']. assert (Hold : is_Some (snap !! ri)) by (apply lookup_lt_is_Some; apply lookup_lt_Some in Hp; lia). destruct Hold as [old Hold]. rewrite (drop_S _ _ _ Hold).
  assert (Hgo : forall t1 v1 d f1, same_but (<[rp_name p := t1]> (rels v)) v v1 -> titled t1 -> resting ri (s_rel t1) (Y' ri) -> delta_is ri (fun x => Y' ri x /\ ~ Y ri x) d ->
    closing_ok ri (S (length qs)) v ('(v', ds, f', rc) ← consolidate_all e k stratum (S ri) qs (drop (S ri) snap) v1 f1; Some (v', d :: ds, f', rc))).
  { intros t1 v1 d f1 Hsame Ht1 Hrest Hd. pose proof Hsame as [S1 _ _ _ S5]. eapply closing_step; [done..|]. apply IH; [done|done|rewrite S1; by apply map_Forall_insert_2|done| |].
    - intros i q Hi Hq. rewrite S1. destruct (decide (i = ri)) as [->|Hne]; [rewrite Hp in Hq; injection Hq as <-; rewrite lookup_insert_eq; by eexists|].
      rewrite lookup_insert_ne by (intros Heq; apply Hne; symmetry; by eapply name_inj). apply Hdone; [lia|done].
    - intros i q o Hi Hq Ho. rewrite S1. rewrite lookup_insert_ne by (intros Heq; assert (ri = i) by (by eapply name_inj); lia). apply Htodo; (done || lia). }
  destruct (Htodo ri p old ltac:(done) Hp Hold) as (t & Ht & Hb). pose proof (Htit _ _ Ht : titled t) as Htt. rewrite Ht. destruct (Nat.leb_spec (nrows (s_rel t)) old) as [Hle|Hlt].
  { assert (Hb' : resting ri (s_rel t) (Y' ri) /\ forall x, ~ (Y' ri x /\ ~ Y ri x)) by (destruct Hb as [Hb|(_ & Hr & Hs)]; [destruct (behind_done ri old _ Hb Hle); split; [by left|done]|split; [done|]; intros x [H1 H2]; by apply H2, Hs]).
    destruct Hb' as [Hrest Hnone]. apply (Hgo t); [|done|done|exact Hnone]. split; try done. by rewrite insert_id. }
  destruct Hb as [[B1 B2 B3 B4 B5 B6 B7]|(? & _)]; [|lia]. destruct (en_delta e k ri) eqn:Hed; cbn [negb].
  2: { eapply closing_stop; [by split|done|]. intros Hl. apply Hlucky in Hl. by rewrite (lk_delta Hl) in Hed. }
  destruct (Hshape ri p Hp) as [Hlead Hnar]. rewrite <-B1 in Hlead, Hnar.
  destruct (consolidate_one (en_sort e k ri) (en_cons e k ri) (s_rel t) old B2 B3 Hlt Hlead Hnar B4 (qu_sort Hquiet k ri) (qu_tight Hquiet k ri) (qu_append Hquiet k ri)) as (r & d & rc & -> & Hres). cbn [mbind option_bind].
  destruct Hres as [[Hrc Ha]|(-> & C1 & C2 & C3 & C4 & d' & -> & D1 & D2 & D3 & Dn & D4)].
  { rewrite (proj2 (Z.eqb_neq _ _) Hrc). cbn [negb]. eapply closing_stop; [by split; [..|by apply ok_invalidate]|done|]. intros Hl. apply Hlucky in Hl. by rewrite (lk_cons Hl) in Ha. }
  cbn [Z.eqb negb mbind option_bind]. rewrite B1 in C1, C4, D1, Dn, D4.
  assert (Htr : titled (Sr r (s_names t) (s_stamps t))) by (unfold titled in *; cbn; by rewrite C1, <-B1).
  assert (Hrest : at_rest ri r (Y' ri)) by (split; [done|done|by left|intros x; by rewrite C4, B7]).
  assert (Hdx : forall x, x ∈ keys (sh ri) (stored d') <-> Y' ri x /\ ~ Y ri x) by (intros x; by rewrite D4, B7, B6).
  destruct (Nat.eqb_spec (nrows d') 0) as [Hz|Hnz].
  { eapply Hgo; [split; cbn; done || by apply ok_invalidate|exact Htr|by left|]. intros x Hx%Hdx. unfold stored in Hx. rewrite Hz in Hx. by apply not_elem_of_nil in Hx. }
  destruct (en_stamps e k ri) eqn:Hes; cbn [negb].
  2: { eapply closing_stop; [by split; [..|by apply ok_invalidate]|done|]. intros Hl. apply Hlucky in Hl. by rewrite (lk_stamps Hl) in Hes. }
  destruct (enable_ok (en_enable e k ri) r) as (rc & -> & [->|[-> Hen]]).
  2: { eapply closing_stop; [by split; [..|by apply ok_invalidate]|done|]. intros Hl. apply Hlucky in Hl. by rewrite (lk_enable Hl) in Hen. }
  cbn [Z.eqb negb]. eapply (Hgo (Sr (set_timestamps _ r) (s_names t) (s_stamps t))); [split; cbn; [by rewrite insert_insert_eq|done..|by apply ok_invalidate]|exact Htr|left; by apply at_rest_timestamps|].
  cbn [delta_is s_rel]. unfold small in D3. assert (length (stored d') = nrows d') by (by apply length_stored, D2).
  split_and!; [done|done|cbn; lia| | |unfold titled in *; cbn; by rewrite D1, <-B1|done]; [|exists k, (Z.of_nat stratum); split; [done|]; cbn; lia]. cbn. rewrite <-(length_stored d') by apply D2. rewrite <-(length_fmap (key (sh ri))). apply (few ri p); [done|exact Dn|]. intros x Hx. by apply Hsound', Hdx.
Qed.

End Closing.

(** *** A pass *)

Section Loop.

Context (Hseeds : delta_seeded c = false /\ retraction_seeded c = false) (f1 : Vtable.session) (base : Z).
Context (Hskip_iteration : forall k, is_uint32 k -> Vtable.should_skip_iteration (frontier_vtable c) f1 stratum k = Some false).
Context (Hskip_rule : forall k ri, is_uint32 k -> Vtable.should_skip_rule (frontier_vtable c) f1 (Z.to_nat (base + Z.of_nat ri)) k = Some false).

(** The stratum between passes: the relations hold [Y], all that is derived. *)
Record derived (v : session) (Y : interp) : Prop := {
  de_rel : forall i p, ps !! i = Some p -> exists t, rels v !! rp_name p = Some t /\ resting i (s_rel t) (Y i);
  de_other : forall n, n ∉ rp_name <$> ps -> n ∉ delta_name_of <$> ps -> rels v !! n = m0 !! n;
  de_out : forall i x, ps !! i = None -> ~ Y i x;
  de_titles : titles (rels v);
  de_side : side_ok (side v);
  de_fronts : fronts v = f1;
  de_start : sub X0 Y;
  de_sound : sub Y least }.

(** Before pass [k]: the deltas hold [D], the rows that the last pass added to
    [B]; every pass but the first has some.  What [k] rounds of the rules derive
    is there, and a row that fewer rounds do not. *)
Record paused (k : Z) (lp : loop (X := X)) (Y B D : interp) : Prop := {
  pa_derived : derived (lv lp) Y;
  pa_none : forall p, p ∈ ps -> rels (lv lp) !! delta_name_of p = None;
  pa_length : length (deltas lp) = length ps;
  pa_deltas : forall i d, deltas lp !! i = Some d -> delta_is i (D i) d;
  pa_sub : sub D Y;
  pa_ready : ready k Y B D;
  pa_some : 0 < k -> exists i d, deltas lp !! i = Some (Some d);
  pa_stage : 0 <= k /\ sub (stage (Z.to_nat k)) Y;
  pa_new : 0 < k -> exists i x, Y i x /\ ~ stage (Z.to_nat (k - 1)) i x }.

Lemma resting_few i p r Y : ps !! i = Some p -> sub Y least -> resting i r (Y i) -> (nrows r <= length L)%nat.
Proof.
  intros Hp Hs [[H1 [G1 G2 G3] H3 H4]|(-> & _ & _)]; [|cbn; lia]. rewrite <-(length_stored r G1), <-(length_fmap (key (sh i))). apply (few i p); [done| |intros x Hx; by apply Hs, H4].
  rewrite <-H1. by apply tracked_nodup.
Qed.

(** The deltas are in the session. *)
Lemma paused_view k lp Y B D (v : session) : paused k lp Y B D -> same_but (rels v) (lv lp) v ->
  (forall n, rels v !! n = match delta_at ps (deltas lp) n with Some d => Some d | None => rels (lv lp) !! n end) ->
  view 0 v Y D /\ (forall i p t, ps !! i = Some p -> rels v !! rp_name p = Some t -> resting i (s_rel t) (Y i)) /\
  (forall i p, ps !! i = Some p -> rels v !! delta_name_of p = mjoin (deltas lp !! i)).
Proof.
  intros [[D1 D2 D3 D8 D4 D5 D6 D7] P2 P3 P4 P5 P6 P7 _ _] [_ _ _ _ S5] Hl.
  assert (Hrel : forall i p, ps !! i = Some p -> rels v !! rp_name p = rels (lv lp) !! rp_name p).
  { intros i p Hp. rewrite Hl, delta_at_notin; [done|]. intros (q & Hq & (j & Hj)%list_elem_of_lookup)%list_elem_of_fmap. by apply (name_delta i j p q Hp Hj). }
  assert (Hdel : forall i p, ps !! i = Some p -> rels v !! delta_name_of p = mjoin (deltas lp !! i)).
  { intros i p Hp. rewrite Hl, (delta_at_lookup ps deltas_nodup (deltas lp) i p Hp P3). destruct (mjoin (deltas lp !! i)) eqn:E; [done|]. apply P2. by eapply list_elem_of_lookup_2. }
  split_and!; [split| |done].
  - intros i p Hp. destruct (D1 i p Hp) as (t & Ht & Hr). exists t. rewrite (Hrel i p Hp). split; [done|]. split; [by apply resting_holding|]. rewrite decide_False by lia. by apply (resting_few i p (s_rel t) Y).
  - intros i p Hp. rewrite (Hdel i p Hp). assert (is_Some (deltas lp !! i)) as [d Hd] by (apply lookup_lt_is_Some; rewrite P3; by eapply lookup_lt_Some). rewrite Hd. specialize (P4 i d Hd). destruct d as [d|]; cbn; [|done].
    destruct P4 as (G1 & G2 & G3 & G4 & _ & _ & G6). split_and!; done.
  - done.
  - done.
  - intros n Hn1 Hn2. rewrite Hl, delta_at_notin by done. by apply D2.
  - intros n t Ht. rewrite Hl in Ht. destruct (delta_at ps (deltas lp) n) as [d|] eqn:Hd; [|by apply (D8 n)]. injection Ht as <-. destruct (delta_at_some ps (deltas lp) n d Hd) as (i & Hi). destruct (P4 i _ Hi) as (_ & _ & _ & _ & _ & ? & _). done.
  - done.
  - intros i p t Hp Ht. rewrite (Hrel i p Hp) in Ht. destruct (D1 i p Hp) as (t' & Ht' & Hr). congruence.
Qed.

Lemma wide_not_blank i p r : ps !! i = Some p -> lanes r = sh i -> r <> blank.
Proof. intros Hp Hl ->. destruct (Hshape i p Hp) as [[Hn _] _]. rewrite <-Hl in Hn. cbn in Hn. lia. Qed.

(** After the rules the relations wait for their consolidation. *)
Lemma rules_awaiting v0 (v : session) Y Y' D i p t : ps !! i = Some p -> running v0 Y D (length ps) v Y' -> rels v0 !! rp_name p = Some t -> resting i (s_rel t) (Y i) ->
  exists t', rels v !! rp_name p = Some t' /\ awaiting Y Y' i (nrows (s_rel t)) (s_rel t').
Proof.
  intros Hp [[V1 _ _ _ _ _ _] _ _ _ Hrels] Ht Hrest. destruct (Hrels i p t Hp Ht) as (t' & Ht' & Hev & _). exists t'. split; [done|].
  destruct (V1 i p Hp) as (t2 & Ht2 & Hh & Hn). rewrite Ht' in Ht2. injection Ht2 as <-. rewrite decide_True in Hn by (by eapply lookup_lt_Some).
  destruct Hev as [->|(t1 & Hn1 & [A1 [A2 A3 A4] A5 A6] & [Hk Hf Hle])].
  - right. pose proof (holding_agree i (s_rel t) (Y i) (Y' i) (resting_holding _ _ _ Hrest) Hh) as Hag. split; [done|]. split; [by apply (resting_ext i _ (Y i))|]. intros x Hx. by apply Hag.
  - left. pose proof (kt_lanes _ _ Hk) as Hl. rewrite A1 in Hl. destruct Hh as [(_ & [_ Hrows] & Hkeys)|(Hb & _)]; [|by destruct (wide_not_blank i p _ Hp Hl)]. rewrite <-Hn1. split; [done| | | |done| |done].
    + split; [done|done|]. unfold merge_wf. destruct (kt_merge _ _ Hk) as [-> ->]. exact A4.
    + by apply (kept_tracked (s_rel t1)).
    + unfold small. destruct (Hsize i). lia.
    + intros x. rewrite (kt_rows _ _ Hk). apply A6.
Qed.

Lemma derived_dec v Y : derived v Y -> forall i x, Y i x \/ ~ Y i x.
Proof.
  intros [D1 _ D3 _ _ _ _ _] i x. destruct (ps !! i) as [p|] eqn:Hp; [|right; by apply D3]. destruct (D1 i p Hp) as (t & _ & Hr). by eapply holding_dec, resting_holding.
Qed.

(** How a pass from [Y] ends. *)
Definition pass_ends (k : Z) (Y : interp) (lp : loop (X := X)) (o : outcome) : Prop :=
  side_ok (side (lv lp)) /\
  match o with
  | Skipped => False
  | Failed rc => rc <> 0 /\ ~ lucky
  | Next => 0 < k /\ derived (lv lp) Y /\ closed Y /\ deltas lp = replicate (length ps) None /\ forallb (fun p => has_empty_forced_delta c p (lv lp) k) ps = true /\
      forall p d, p ∈ ps -> rels (lv lp) !! delta_name_of p = Some d -> stamped d /\ (0 < nrows (s_rel d))%nat
  | Converged => exists Y', derived (lv lp) Y' /\ closed Y' /\ forall p, p ∈ ps -> rels (lv lp) !! delta_name_of p = None
  | More => exists Y' D', paused (k + 1) lp Y' Y D'
  end.

(** The last step of a pass: the new deltas decide. *)
Lemma pass_done k lp Y B D Y' (v : session) ds f x n : paused k lp Y B D -> 0 <= k -> sub Y Y' -> sub Y' least -> (forall i x, ps !! i = None -> ~ Y' i x) -> (forall i p x, ps !! i = Some p -> sem i Y x -> Y' i x) ->
  (forall i p, ps !! i = Some p -> exists t, rels v !! rp_name p = Some t /\ resting i (s_rel t) (Y' i)) ->
  (forall n, n ∉ rp_name <$> ps -> n ∉ delta_name_of <$> ps -> rels v !! n = m0 !! n) -> (forall p, p ∈ ps -> rels v !! delta_name_of p = None) -> titles (rels v) -> fronts v = f1 -> side_ok x ->
  length ds = length ps -> (forall j d, ds !! j = Some d -> delta_is j (fun x => Y' j x /\ ~ Y j x) d) ->
  pass_ends k Y (Lp (set_side x v) ds f n) (if forallb (fun d => negb (bool_decide (is_Some d))) ds then Converged else More).
Proof.
  intros HP Hk Hsub Hsound Hout Hstep Hrel Hother Hnone Htit Hfr Hx Hlen Hds. pose proof (derived_dec _ _ (pa_derived _ _ _ _ _ HP)) as Hdec.
  assert (Hder : derived (set_side x v) Y') by (split; try done; intros i y Hy; apply Hsub, (de_start _ _ (pa_derived _ _ _ _ _ HP)), Hy). split; [done|].
  destruct (forallb _ ds) eqn:Hall.
  - exists Y'. split_and!; [done| |done]. rewrite forallb_forall in Hall.
    assert (Hback : sub Y' Y).
    { intros i y Hy. destruct (ps !! i) as [p|] eqn:Hp; [|by destruct (Hout i y Hp)]. destruct (Hdec i y) as [|Hno]; [done|exfalso]. assert (is_Some (ds !! i)) as [d Hd] by (apply lookup_lt_is_Some; rewrite Hlen; by eapply lookup_lt_Some).
      specialize (Hds i d Hd). pose proof (Hall d ltac:(apply list_elem_of_In; by eapply list_elem_of_lookup_2)) as Hb%negb_true_iff%bool_decide_eq_false. destruct d as [d|]; [by destruct Hb|]. by apply (Hds y). }
    intros i p y Hp Hy. apply (Hstep i p y Hp). by apply (rl_mono _ _ (Hrules i p Hp) Y').
  - exists Y', (fun i y => Y' i y /\ ~ Y i y). assert (Hex : exists i d, ds !! i = Some (Some d)).
    { assert (Hno : ~ Forall (fun d : option srel => d = None) ds). { intros Hf. apply not_true_iff_false in Hall. apply Hall, forallb_forall. intros d Hd%list_elem_of_In. rewrite (proj1 (Forall_forall _ _) Hf d Hd). done. }
      clear - Hno. induction ds as [|[d|] ds IH]; [by destruct Hno|by exists 0%nat, d|]. destruct IH as (i & d & Hi); [intros H; apply Hno; by constructor|]. by exists (S i), d. }
    split; cbn [lv deltas]; try done.
    + by intros i y [? _].
    + right. split; [lia|]. split; [|done]. intros i y Hy. destruct (Hdec i y); [by left|by right].
    + split; [lia|]. replace (Z.to_nat (k + 1)) with (S (Z.to_nat k)) by lia. destruct (pa_stage _ _ _ _ _ HP) as [_ Hstage]. intros i y [Hy|[[p Hp] Hy]]; [by apply Hsub, Hstage|].
      apply (Hstep i p y Hp). by apply (rl_mono _ _ (Hrules i p Hp) (stage (Z.to_nat k))).
    + intros _. destruct Hex as (i & d & Hd). specialize (Hds i _ Hd). destruct Hds as (_ & [Hf _] & Hpos & _ & _ & _ & Hkeys). pose proof (length_stored _ Hf) as Hst. destruct (stored (s_rel d)) as [|z zs]; [cbn in Hst; lia|].
      destruct (proj1 (Hkeys (key (sh i) z)) ltac:(left)) as [G1 G2]. exists i, (key (sh i) z). split; [done|]. replace (k + 1 - 1) with k by lia. intros H. by apply G2, (pa_stage _ _ _ _ _ HP).
Qed.

Lemma stage_mono n m : (n <= m)%nat -> sub (stage n) (stage m).
Proof. induction 1 as [|m _ IH]; [by intros ? ?|]. intros i x Hx. left. by apply IH. Qed.

Lemma paused_bound k lp Y B D : paused k lp Y B D -> 0 <= k <= Z.of_nat N.
Proof.
  intros HP. destruct (pa_stage _ _ _ _ _ HP) as [Hk _]. split; [done|]. destruct (Z.le_gt_cases k (Z.of_nat N)) as [|Hgt]; [done|exfalso]. destruct (pa_new _ _ _ _ _ HP ltac:(lia)) as (i & x & Hx & Hno).
  apply Hno, (stage_mono N); [lia|]. apply Hdepth. by apply (de_sound _ _ (pa_derived _ _ _ _ _ HP)).
Qed.

Lemma sub_pass_ok k lp Y B D : paused k lp Y B D -> exists lp' o, sub_pass run_op c e ps stratum base k lp = Some (lp', o) /\ pass_ends k Y lp' o.
Proof.
  intros HP. destruct (paused_bound _ _ _ _ _ HP) as [Hk HkL]. pose proof HP as [HD P2 P3 P4 P5 P6 P7 P8 P9]. pose proof HD as [D1 D2 D3 D8 D4 D5 D6 D7]. unfold MAX_ITERATIONS, EVAL_STRIDE in HN. assert (Hu : is_uint32 k) by mi.
  unfold sub_pass. cbn [set_iteration fronts]. rewrite D5, (Hskip_iteration k Hu). cbn [mbind option_bind].
  set (v1 := set_side (free_delta_arrangements (side (set_iteration k (diff_enabled c && (0 <? k)) (lv lp)))) (set_iteration k (diff_enabled c && (0 <? k)) (lv lp))).
  destruct (register_ok k (qu_register Hquiet k) ps (deltas lp) 0 v1 deltas_nodup ltac:(by apply ok_free)) as (v2 & -> & [S1 S2 S3 S4 S5] & Hl). cbn [mbind option_bind]. assert (Hf2 : fronts v2 = f1) by (rewrite S4; exact D5).
  assert (HP' : paused k (Lp v1 (deltas lp) (strat_frontier lp) (final_eff_iter lp)) Y B D) by (split; try done; split; try done; by apply ok_free).
  destruct (paused_view _ _ _ _ _ v2 HP' ltac:(by split) Hl) as (Hview & Hrest & Hdel).
  assert (Hstamped : forall p d, p ∈ ps -> rels v2 !! delta_name_of p = Some d -> stamped d /\ (0 < nrows (s_rel d))%nat).
  { intros p d (i & Hp)%list_elem_of_lookup Hd. rewrite (Hdel i p Hp) in Hd. cbn [deltas] in Hd. destruct (deltas lp !! i) as [d'|] eqn:Hi; [|done]. cbn in Hd. subst d'. destruct (P4 i _ Hi) as (_ & _ & ? & _ & ? & _). done. }
  assert (Hzero : (if 0 <? k then all_net_zero ps v2 else Some false) = Some false).
  { destruct (Z.ltb_spec 0 k) as [Hpos|]; [|done]. destruct (net_zero_ok v2 ps) as (b & Hb & Hbt); [intros q d Hq; by apply Hstamped|]. rewrite Hb. destruct b; [|done]. exfalso. destruct (P7 Hpos) as (i & d & Hi).
    assert (is_Some (ps !! i)) as [p Hp] by (apply lookup_lt_is_Some; rewrite <-P3; by eapply lookup_lt_Some). pose proof (Hbt eq_refl p ltac:(by eapply list_elem_of_lookup_2)) as Hn. rewrite (Hdel i p Hp) in Hn. cbn [deltas] in Hn. by rewrite Hi in Hn. }
  rewrite Hzero. cbn [mbind option_bind]. destruct ((0 <? k) && _) eqn:Hstuck.
  { apply andb_true_iff in Hstuck as [Hpos%Z.ltb_lt Hall]. eexists _, _. split; [done|]. split; [done|]. cbn [lv deltas]. split; [done|]. split; [|split; [|split_and!; done]].
    - split; try done; [|apply Hview|apply Hview]. intros i p Hp. destruct (vw_rel _ _ _ _ Hview i p Hp) as (t & Ht & _). exists t. split; [done|]. by apply (Hrest i p).
    - intros i p x Hp Hx. rewrite forallb_forall in Hall. assert (Hit : current_iteration v2 = k) by (by rewrite S2).
      pose proof (rl_skip _ _ (Hrules i p Hp) v2 Y D 0 Hview ltac:(lia)) as Hcov. rewrite Hit in Hcov. specialize (Hcov (Hall p ltac:(apply list_elem_of_In; by eapply list_elem_of_lookup_2))).
      by destruct (advance k i p Y Y B D (fun _ => False) x Hp P6 ltac:(by intros ? ?) Hcov Hx). }
  assert (Hrun0 : running v2 Y D 0 v2 Y).
  { split; [done|by split|by intros ? ?|done|]. intros i p t Hp Ht. exists t. split; [done|]. split; [by left|done]. }
  destruct (eval_rules_ok k base v2 Y B D Hk D6 P6 ltac:(by rewrite S2) Hview Hrest Hseeds) with (qs := ps) (ri := 0%nat) (v := v2) (Yv := Y) as (v3 & rc & -> & Hs3 & Hres);
    [intros ri; rewrite Hf2; by apply Hskip_rule|done|done|]. cbn [mbind option_bind].
  destruct Hres as [[Hrc Hnl]|(-> & Y' & Hrun & Hsub & Hall)]; [rewrite (proj2 (Z.eqb_neq _ _) Hrc); cbn [negb]; eexists _, _; split; [done|]; by split|]. cbn [Z.eqb negb].
  destruct (remove_deltas_ok ps v3 Hs3) as (v4 & -> & [R1 R2 R3 R4 R5] & Hl4). cbn [mbind option_bind].
  assert (Hnd : forall i p, ps !! i = Some p -> rp_name p ∉ delta_name_of <$> ps) by (intros i p Hp (q & Hq & (j & Hj)%list_elem_of_lookup)%list_elem_of_fmap; by apply (name_delta i j p q Hp Hj)).
  pose proof (consolidate_all_ok k Y Y' (row_counts ps v2) (rn_sound _ _ _ _ _ _ Hrun) ps 0 v4 (strat_frontier lp) eq_refl) as Hcons. rewrite drop_0 in Hcons.
  destruct Hcons as (v5 & ds & f & rc & -> & [T1 T2 T3 T4 T5] & Hres); [by unfold row_counts; rewrite length_fmap|intros n t Ht; rewrite Hl4 in Ht; destruct (decide _); [done|]; by apply (vw_titles _ _ _ _ (rn_view _ _ _ _ _ _ Hrun) n)|done|intros; lia| |].
  { intros i p old _ Hp Hold. unfold row_counts in Hold. rewrite list_lookup_fmap, Hp in Hold. cbn in Hold. destruct (vw_rel _ _ _ _ Hview i p Hp) as (t & Ht & _). rewrite Ht in Hold. injection Hold as <-.
    rewrite Hl4, decide_False by (by eapply Hnd). apply (rules_awaiting v2 v3 Y Y' D i p t); [done..|]. by apply (Hrest i p). }
  cbn [mbind option_bind]. destruct Hres as [[Hrc Hnl]|(-> & C1 & C2 & Ct & C3 & C4)]; [rewrite (proj2 (Z.eqb_neq _ _) Hrc); cbn [negb]; eexists _, _; split; [done|]; by split|]. cbn [Z.eqb negb].
  assert (Hx : exists x, (if cache_evict_threshold c =? 0 then clear_cache (side v5) else evict_cache (cache_evict_threshold c) (side v5)) = Some x /\ side_ok x) by (destruct (_ =? 0); [by apply ok_clear|by apply ok_evict]).
  destruct Hx as (x & -> & Hx). cbn [mbind option_bind]. set (x' := if coordinator c then reset_pools x else gc_epoch (reset_pools x)). assert (Hx' : side_ok x') by (unfold x'; destruct (coordinator c); [by apply ok_reset|by apply ok_gc, ok_reset]).
  assert (Hother : forall n, n ∉ rp_name <$> ps -> n ∉ delta_name_of <$> ps -> rels v5 !! n = m0 !! n) by (intros n Hn1 Hn2; rewrite C2, Hl4, decide_False by done; apply (rn_view _ _ _ _ _ _ Hrun); done).
  assert (Hgone : forall p, p ∈ ps -> rels v5 !! delta_name_of p = None).
  { intros p (i & Hp)%list_elem_of_lookup. assert (Hin : delta_name_of p ∈ delta_name_of <$> ps) by (apply list_elem_of_fmap; exists p; split; [done|by eapply list_elem_of_lookup_2]). rewrite C2, Hl4, decide_True by done || (intros (q & Hq & (j & Hj)%list_elem_of_lookup)%list_elem_of_fmap; by apply (name_delta j i q p Hj Hp)); done. }
  pose proof (pass_done k lp Y B D Y' v5 ds f x' (if forallb (fun d => negb (bool_decide (is_Some d))) ds then final_eff_iter lp else k) HP Hk Hsub (rn_sound _ _ _ _ _ _ Hrun) (vw_out _ _ _ _ (rn_view _ _ _ _ _ _ Hrun))) as Hdone.
  destruct (forallb _ ds); (eexists _, _; split; [done|]); apply Hdone; try done; try (by intros i p y Hp Hy; apply (Hall i p y); [lia|..]); rewrite T4, R4; destruct (rn_same _ _ _ _ _ _ Hrun) as [_ _ _ G _]; rewrite G; exact Hf2.
Qed.

(** *** Passes after which nothing is left *)

Definition stuck (lp : loop (X := X)) (Y : interp) : Prop :=
  derived (lv lp) Y /\ closed Y /\ deltas lp = replicate (length ps) None /\ (forall k, 0 < k -> forallb (fun p => has_empty_forced_delta c p (lv lp) k) ps = true) /\
  forall p d, p ∈ ps -> rels (lv lp) !! delta_name_of p = Some d -> stamped d /\ (0 < nrows (s_rel d))%nat.

Lemma empty_forced_later (l : list (plan_op P)) (v v' : session) k k' : rels v = rels v' -> empty_forced c l v k = empty_forced c l v' k'.
Proof. intros Hr. induction l as [|o l IH]; [done|]. cbn [empty_forced]. rewrite (proj2 Hseeds), Hr, IH. done. Qed.

Lemma has_empty_later (p : rplan P) (v v' : session) k k' : rels v = rels v' -> 0 < k -> 0 < k' -> has_empty_forced_delta c p v k = has_empty_forced_delta c p v' k'.
Proof. intros Hr Hk Hk'. unfold has_empty_forced_delta. rewrite !(proj2 (Z.eqb_neq _ 0)) by lia. cbn [andb]. by rewrite (empty_forced_later (ops p) v v' k k' Hr). Qed.

Lemma all_empty_later (qs : list (rplan P)) (v v' : session) k k' : rels v = rels v' -> 0 < k -> 0 < k' ->
  forallb (fun p => has_empty_forced_delta c p v k) qs = forallb (fun p => has_empty_forced_delta c p v' k') qs.
Proof. intros Hr Hk Hk'. induction qs as [|p qs IH]; [done|]. cbn [forallb]. by rewrite IH, (has_empty_later p v v' k k'). Qed.

Lemma next_stuck k lp Y : pass_ends k Y lp Next -> stuck lp Y.
Proof.
  intros (_ & Hk & H1 & H2 & H3 & H4 & H5). split_and!; try done. intros k' Hk'. rewrite <-H4. by apply all_empty_later.
Qed.

Lemma delta_at_none (qs : list (rplan P)) n m : delta_at qs (replicate m None) n = None.
Proof. revert m. induction qs as [|q qs IH]; intros [|m]; try done. cbn. destruct (decide _); [done|apply IH]. Qed.

Lemma stuck_pass k lp Y : stuck lp Y -> 0 < k -> is_uint32 k -> exists lp', sub_pass run_op c e ps stratum base k lp = Some (lp', Next) /\ stuck lp' Y.
Proof.
  intros ([D1 D2 D3 D8 D4 D5 D6 D7] & Hc & Hd & He & Hs) Hk Hu. unfold sub_pass. cbn [set_iteration fronts]. rewrite D5, (Hskip_iteration k Hu). cbn [mbind option_bind]. rewrite Hd.
  set (v1 := set_side (free_delta_arrangements (side (set_iteration k (diff_enabled c && (0 <? k)) (lv lp)))) (set_iteration k (diff_enabled c && (0 <? k)) (lv lp))).
  destruct (register_ok k (qu_register Hquiet k) ps (replicate (length ps) None) 0 v1 deltas_nodup ltac:(by apply ok_free)) as (v2 & -> & [S1 S2 S3 S4 S5] & Hl). cbn [mbind option_bind].
  assert (Hrels : rels v2 = rels (lv lp)) by (apply map_eq; intros n; by rewrite Hl, delta_at_none).
  assert (Hst : stuck (Lp v2 (replicate (length ps) None) (strat_frontier lp) (final_eff_iter lp)) Y).
  { split_and!; cbn [lv deltas]; try done; [split; try done; rewrite ?Hrels, ?S4; done| |by rewrite Hrels]. intros k' Hk'. rewrite <-(He k' Hk'). by apply all_empty_later. }
  rewrite (proj2 (Z.ltb_lt 0 k) Hk). destruct (net_zero_ok v2 ps) as (b & -> & _); [intros q d Hq; rewrite Hrels; by apply Hs|]. cbn [mbind option_bind andb]. destruct b; [eexists; by split|].
  destruct Hst as (G1 & G2 & G3 & G4 & G5). cbn [lv] in G4. rewrite (G4 k Hk). eexists. split; [done|]. by split_and!.
Qed.

(** *** Strides *)

Definition stride_ends (k : Z) (m : nat) (lp : loop (X := X)) (ran new ran' new' : bool) (o : outcome) : Prop :=
  side_ok (side (lv lp)) /\
  match o with
  | Skipped => False
  | Failed rc => rc <> 0 /\ ~ lucky
  | Next => ran' = true /\ exists Y, stuck lp Y
  | Converged => ran' = true /\ exists Y, derived (lv lp) Y /\ closed Y
  | More => (if (m =? 0)%nat then ran' = ran /\ new' = new else ran' = true /\ new' = true) /\ exists Y B D, paused (k + Z.of_nat m) lp Y B D
  end.

Lemma sub_passes_ok m : forall k ran new lp Y B D, paused k lp Y B D ->
  exists lp' ran' new' o, sub_passes run_op c e m ps stratum base k ran new lp = Some (lp', ran', new', o) /\ stride_ends k m lp' ran new ran' new' o.
Proof.
  induction m as [|m IH]; intros k ran new lp Y B D HP; cbn [sub_passes].
  { eexists _, _, _, _. split; [done|]. split; [apply (pa_derived _ _ _ _ _ HP)|]. split; [done|]. exists Y, B, D. by rewrite Z.add_0_r. }
  destruct (sub_pass_ok k lp Y B D HP) as (lp1 & o & -> & Hends). cbn [mbind option_bind]. destruct o as [| |rc| |].
  - by destruct Hends.
  - eexists _, _, _, _. split; [done|]. split; [apply Hends|]. split; [done|]. exists Y. by eapply next_stuck.
  - eexists _, _, _, _. by split.
  - eexists _, _, _, _. split; [done|]. destruct Hends as (Hs & Y' & H1 & H2 & _). split; [done|]. split; [done|]. by exists Y'.
  - destruct Hends as (_ & Y' & D' & HP'). destruct (IH (k + 1) true true lp1 Y' Y D' HP') as (lp' & ran' & new' & o & -> & Hs & Ho). eexists _, _, _, _. split; [done|]. split; [done|].
    destruct o as [| |rc| |]; try done. destruct Ho as [Hr HP2]. split; [by destruct m; cbn in Hr |- *|]. destruct HP2 as (Y2 & B2 & D2 & HP2). exists Y2, B2, D2. by replace (k + Z.of_nat (S m)) with (k + 1 + Z.of_nat m) by lia.
Qed.

Lemma strides_stuck n : forall iter lp Y, stuck lp Y -> 0 < iter -> iter + Z.of_nat n <= MAX_ITERATIONS -> exists lp', strides run_op c e n ps stratum base iter lp = Some (lp', 0) /\ stuck lp' Y.
Proof.
  unfold MAX_ITERATIONS. induction n as [|n IH]; intros iter lp Y Hs Hi Hn; cbn [strides]; [by exists lp|]. change (Z.to_nat EVAL_STRIDE) with 8%nat. cbn [sub_passes]. unfold EVAL_STRIDE.
  destruct (stuck_pass (iter * 8) lp Y Hs ltac:(lia) ltac:(mi)) as (lp1 & -> & Hs1). cbn [mbind option_bind negb]. apply IH; [done|lia|lia].
Qed.

Lemma strides_ok n : forall iter lp Y B D, paused (iter * EVAL_STRIDE) lp Y B D -> 0 <= iter -> iter + Z.of_nat n = MAX_ITERATIONS ->
  exists lp' rc, strides run_op c e n ps stratum base iter lp = Some (lp', rc) /\ side_ok (side (lv lp')) /\ ((rc <> 0 /\ ~ lucky) \/ (rc = 0 /\ exists Y', derived (lv lp') Y' /\ closed Y')).
Proof.
  induction n as [|n IH]; intros iter lp Y B D HP Hi Hn.
  { exfalso. pose proof (paused_bound _ _ _ _ _ HP). replace iter with MAX_ITERATIONS in * by lia. lia. }
  cbn [strides]. destruct (sub_passes_ok (Z.to_nat EVAL_STRIDE) (iter * EVAL_STRIDE) false false lp Y B D HP) as (lp1 & ran & new & o & -> & Hs & Ho). cbn [mbind option_bind]. destruct o as [| |rc| |].
  - done.
  - destruct Ho as [-> (Y1 & Hst)]. cbn [negb]. destruct (strides_stuck n (iter + 1) lp1 Y1 Hst) as (lp' & -> & Hst'); [lia|lia|]. eexists _, _. split; [done|]. destruct Hst' as (Hd & Hc & _). split; [apply Hd|]. right. split; [done|]. by exists Y1.
  - eexists _, _. split; [done|]. split; [done|]. by left.
  - destruct Ho as [-> (Y1 & Hd & Hc)]. cbn [negb]. eexists _, _. split; [done|]. split; [done|]. right. split; [done|]. by exists Y1.
  - destruct Ho as [[-> ->] (Y1 & B1 & D1 & HP1)]. cbn [negb]. apply (IH (iter + 1) lp1 Y1 B1 D1); [|lia|lia]. unfold EVAL_STRIDE in *. by replace ((iter + 1) * 8) with (iter * 8 + Z.of_nat (Z.to_nat 8)) by lia.
Qed.

End Loop.

(** *** The relations at the start *)

(** Facts that were loaded: no row twice, no runs recorded; or nothing. *)
Definition loaded (i : nat) (r : rel) : Prop :=
  (lanes r = sh i /\ wf r /\ length (run_ends r) = COL_MAX_RUNS /\ run_count r = O /\ small r /\ NoDup (keys (sh i) (stored r)) /\ forall x, x ∈ keys (sh i) (stored r) <-> X0 i x) \/
  unused i r (X0 i).
Definition initial (i : nat) (o : option srel) : Prop := match o with Some t => loaded i (s_rel t) | None => no_floats (sh i) /\ forall x, ~ X0 i x end.

Lemma sorted_strict (s : shape) l : StronglySorted (by_key s) l -> NoDup (keys s l) -> strict s l.
Proof.
  induction 1 as [|x l Hs IH Hx]; intros Hnd; [constructor|]. apply NoDup_cons in Hnd as [Hnin Hnd]. constructor; [by apply IH|]. apply Forall_forall. intros y Hy. pose proof (proj1 (Forall_forall _ _) Hx y Hy) as Hle. unfold by_key in Hle.
  assert (key s x <> key s y) by (intros Heq; apply Hnin; rewrite Heq; by apply list_elem_of_fmap_2). unfold strict in *. cbn. lia.
Qed.

(** Sorted or too short for it, the rows are one run that is not recorded. *)
Lemma loaded_sorted i r : lanes r = sh i -> wf r -> length (run_ends r) = COL_MAX_RUNS -> run_count r = O -> strict (sh i) (stored r) -> (forall x, x ∈ keys (sh i) (stored r) <-> X0 i x) -> at_rest i r (X0 i).
Proof.
  intros H1 H2 H3 H4 H5 H6. split; try done. right. destruct H2 as [[G1 G1'] G2 G3]. split; try done; [rewrite H4; unfold COL_MAX_RUNS; lia|by left|lia|by rewrite H1].
Qed.

Lemma presort_one se i p r : ps !! i = Some p -> sort_memory se -> loaded i r -> (1 < nrows r)%nat -> exists r', col_rel_radix_sort_int64 se r = Some r' /\ at_rest i r' (X0 i) /\ lanes r' = lanes r.
Proof.
  intros Hp Hse [(H1 & H2 & H3 & H4 & Hsm & H5 & H6)|(-> & _)] Hn; [|cbn in Hn; lia]. destruct (Hshape i p Hp) as [[Hnc _] Hnar]. pose proof H2 as [[Hf1 Hf2] Hrows Hm]. rewrite <-H1 in Hnc, Hnar.
  unfold col_rel_radix_sort_int64. rewrite (proj2 (Nat.eqb_neq _ _)) by lia. rewrite (proj2 (Nat.leb_gt _ _)) by lia. cbn [orb].
  assert (Hr : rows r = [] ++ stored r ++ drop (nrows r) (rows r)) by (unfold stored; cbn [app]; by rewrite take_drop). assert (Hl : length (stored r) = nrows r) by (by apply length_stored).
  destruct (narrow_sorts se r (nrows r) Hse Hnar Hsm r [] (stored r) (drop (nrows r) (rows r)) eq_refl Hr) as (r1 & Hsort); [cbn; lia|lia|done|]. cbn [length] in Hsort. rewrite Hl in Hsort.
  destruct (sort_range (sort := col_rel_radix_sort se) r [] (stored r) (drop (nrows r) (rows r)) Hr) as (l' & rc & Hs & H0 & _); [cbn; lia|done|]. cbn [length] in Hs. rewrite Hl, Hsort in Hs. injection Hs as -> <-. destruct (H0 eq_refl) as [Hperm Hso]. rewrite Hsort. cbn [mbind option_bind Z.eqb app].
  eexists. split; [done|]. split; [|done]. assert (Hst : stored (set_sorted (nrows (set_rows (l' ++ drop (nrows r) (rows r)) r)) (set_rows (l' ++ drop (nrows r) (rows r)) r)) = l').
  { unfold stored. cbn [rows set_sorted set_rows nrows]. replace (nrows r) with (length l') by (by rewrite Hperm). apply take_app_length. }
  assert (Hk : keys (sh i) l' ≡ₚ keys (sh i) (stored r)) by (unfold keys; by rewrite Hperm).
  apply loaded_sorted; rewrite ?Hst; try done.
  - split; [|rewrite Hst; cbn; by rewrite Hperm|done]. unfold fits. cbn [rows set_sorted set_rows nrows capacity]. rewrite length_app, length_drop, Hperm. lia.
  - apply sorted_strict; [by rewrite <-H1|by rewrite Hk].
  - intros x. by rewrite Hk.
Qed.

Lemma presort_ok qs : forall ri (v : session), qs = drop ri ps -> side_ok (side v) ->
  (forall i p, (i < ri)%nat -> ps !! i = Some p -> exists t, rels v !! rp_name p = Some t /\ resting i (s_rel t) (X0 i)) ->
  (forall i p, (ri <= i)%nat -> ps !! i = Some p -> exists t, rels v !! rp_name p = Some t /\ loaded i (s_rel t)) ->
  exists v', presort e ri qs v = Some v' /\ same_but (rels v') v v' /\ (forall i p, ps !! i = Some p -> exists t, rels v' !! rp_name p = Some t /\ resting i (s_rel t) (X0 i)) /\ (titles (rels v) -> titles (rels v')) /\
    forall n, n ∉ rp_name <$> ps -> rels v' !! n = rels v !! n.
Proof.
  induction qs as [|p qs IH]; intros ri v Hqs Hside Hdone Htodo; cbn [presort].
  { exists v. split; [done|]. split; [by split|]. split; [|by split]. assert (length ps <= ri)%nat by (apply (f_equal length) in Hqs; rewrite length_drop in Hqs; cbn in Hqs; lia). intros i p Hp. apply Hdone; [|done]. apply lookup_lt_Some in Hp. lia. }
  destruct (drop_head ps ri p qs Hqs) as [Hp Hqs']. destruct (Htodo ri p ltac:(done) Hp) as (t & Ht & Hload). rewrite Ht.
  assert (Hgo : forall r', at_rest ri r' (X0 ri) \/ unused ri r' (X0 ri) -> lanes r' = lanes (s_rel t) -> forall v1, same_but (<[rp_name p := Sr r' (s_names t) (s_stamps t)]> (rels v)) v v1 ->
    exists v', presort e (S ri) qs v1 = Some v' /\ same_but (rels v') v v' /\ (forall i p, ps !! i = Some p -> exists t, rels v' !! rp_name p = Some t /\ resting i (s_rel t) (X0 i)) /\ (titles (rels v) -> titles (rels v')) /\ forall n, n ∉ rp_name <$> ps -> rels v' !! n = rels v !! n).
  { intros r' Hr' Hlr v1 [S1 S2 S3 S4 S5]. destruct (IH (S ri) v1 Hqs' S5) as (v' & -> & [T1 T2 T3 T4 T5] & G1 & Gt & G2).
    - intros i q Hi Hq. rewrite S1. destruct (decide (i = ri)) as [->|Hne]; [rewrite Hp in Hq; injection Hq as <-; rewrite lookup_insert_eq; by eexists|].
      rewrite lookup_insert_ne by (intros Heq; apply Hne; symmetry; by eapply name_inj). apply Hdone; [lia|done].
    - intros i q Hi Hq. rewrite S1. rewrite lookup_insert_ne by (intros Heq; assert (ri = i) by (by eapply name_inj); lia). apply Htodo; (done || lia).
    - exists v'. split; [done|]. split; [split; congruence || done|]. split; [done|]. split; [intros Hm; apply Gt; rewrite S1; apply map_Forall_insert_2; [|done]; unfold titled; cbn; rewrite Hlr; exact (Hm _ _ Ht)|]. intros n Hn. rewrite G2, S1 by done. rewrite lookup_insert_ne; [done|]. intros <-. apply Hn. apply list_elem_of_fmap. exists p. split; [done|by eapply list_elem_of_lookup_2]. }
  destruct (Nat.ltb_spec 1 (nrows (s_rel t))) as [Hlt|Hge].
  - destruct (presort_one (en_presort e ri) ri p (s_rel t) Hp (qu_presort Hquiet ri) Hload Hlt) as (r' & -> & Hr' & Hlr). cbn [mbind option_bind]. apply (Hgo r'); [by left|done|by split].
  - apply (Hgo (s_rel t)); [|done|split; try done; rewrite insert_id; by destruct t]. destruct Hload as [(H1 & H2 & H3 & H4 & _ & H5 & H6)|Hu]; [left|by right]. apply loaded_sorted; try done. apply strict_short. rewrite length_stored by apply H2. lia.
Qed.

Lemma pre_register_ok qs : forall ri (v : session), qs = drop ri ps -> side_ok (side v) ->
  (forall i p, (i < ri)%nat -> ps !! i = Some p -> exists t, rels v !! rp_name p = Some t /\ loaded i (s_rel t)) ->
  (forall i p, (ri <= i)%nat -> ps !! i = Some p -> initial i (rels v !! rp_name p)) ->
  exists v' rc, pre_register e ri qs v = Some (v', rc) /\ same_but (rels v') v v' /\
    ((rc <> 0 /\ ~ lucky) \/ (rc = 0 /\ (forall i p, ps !! i = Some p -> exists t, rels v' !! rp_name p = Some t /\ loaded i (s_rel t)) /\ (titles (rels v) -> titles (rels v')) /\ forall n, n ∉ rp_name <$> ps -> rels v' !! n = rels v !! n)).
Proof.
  induction qs as [|p qs IH]; intros ri v Hqs Hside Hdone Htodo; cbn [pre_register].
  { exists v, 0. split; [done|]. split; [by split|]. right. split; [done|]. split; [|by split]. assert (length ps <= ri)%nat by (apply (f_equal length) in Hqs; rewrite length_drop in Hqs; cbn in Hqs; lia). intros i p Hp. apply Hdone; [|done]. apply lookup_lt_Some in Hp. lia. }
  destruct (drop_head ps ri p qs Hqs) as [Hp Hqs']. pose proof (Htodo ri p ltac:(done) Hp) as Hinit. destruct (rels v !! rp_name p) as [t|] eqn:Ht.
  { apply IH; [done|done| |intros i q Hi; apply Htodo; lia]. intros i q Hi Hq. destruct (decide (i = ri)) as [->|Hne]; [|apply Hdone; [lia|done]]. rewrite Hp in Hq. injection Hq as <-. by exists t. }
  destruct (en_alloc e ri) eqn:Ha; cbn [negb]; [|exists v, ENOMEM; split; [done|]; split; [by split|left]; split; [done|]; intros Hl; apply Hlucky in Hl; by rewrite (lk_alloc Hl) in Ha].
  destruct (add_rel_ok (en_add e 0 ri) (rp_name p) (Sr blank None None) v Hside) as [[Hb Hadd]|(v1 & Hadd & [S1 S2 S3 S4 S5])]; unfold blank in Hadd; rewrite Hadd; cbn [mbind option_bind Z.eqb negb ENOMEM].
  { exists v, ENOMEM. split; [done|]. split; [by split|]. left. split; [done|]. intros Hl. apply Hlucky in Hl. by rewrite (lk_add Hl) in Hb. }
  assert (Hlk : forall q : rplan P, rp_name q <> rp_name p -> rels v1 !! rp_name q = rels v !! rp_name q) by (intros q Hne; rewrite S1; by apply lookup_insert_ne).
  destruct (IH (S ri) v1 Hqs' S5) as (v' & rc & -> & [T1 T2 T3 T4 T5] & Hres).
  - intros i q Hi Hq. destruct (decide (i = ri)) as [->|Hne]; [rewrite Hp in Hq; injection Hq as <-; rewrite S1, lookup_insert_eq; eexists; split; [done|]; right; by split|].
    rewrite Hlk by (intros Heq; apply Hne; by eapply name_inj). apply Hdone; [lia|done].
  - intros i q Hi Hq. rewrite Hlk by (intros Heq; assert (i = ri) by (by eapply name_inj); lia). apply Htodo; (done || lia).
  - exists v', rc. split; [done|]. split; [split; congruence || done|]. destruct Hres as [H|(-> & H1 & Ht1 & H2)]; [by left|right]. split_and!; [done|done|intros Hm; apply Ht1; rewrite S1; by apply map_Forall_insert_2|]. intros n Hn. rewrite H2, S1 by done. rewrite lookup_insert_ne; [done|]. intros <-. apply Hn. apply list_elem_of_fmap. exists p. split; [done|by eapply list_elem_of_lookup_2].
Qed.

(** *** The whole stratum *)

Context {M : Vtable.Model} `{Hfrontier : !Vtable.FrontierRefines (frontier_vtable c)}.

Lemma record_rules_ok base0 it n : forall ri f a, Vtable.refines f a -> exists f' a', record_rules c n base0 ri it f = Some f' /\ Vtable.refines f' a'.
Proof.
  induction n as [|n IH]; intros ri f a Hf; cbn [record_rules]; [by exists f, a|]. destruct (negb _); [by exists f, a|].
  destruct (Vtable.apply_refines f a (Vtable.RecordRule (Z.to_nat (base0 + Z.of_nat ri)) (Vtable.epoch f) it) Hf) as (f' & Ha & Hf'). cbn [Vtable.apply] in Ha. rewrite Ha. cbn [mbind option_bind]. by eapply IH.
Qed.

Lemma no_aggregates (qs : list (rplan P)) (v : session) : (forall p, p ∈ qs -> recursive_agg p = None) -> canonicalize_aggregates qs v = Some (v, 0).
Proof. induction qs as [|p qs IH]; intros H; [done|]. cbn [canonicalize_aggregates]. rewrite (H p ltac:(left)). apply IH. intros q Hq. apply H. by right. Qed.

(** The stratum holds its least fixed point. *)
Definition computed (v : session) : Prop :=
  (forall i p, ps !! i = Some p -> exists t, rels v !! rp_name p = Some t /\ resting i (s_rel t) (least i)) /\
  (forall p, p ∈ ps -> rels v !! delta_name_of p = None) /\ forall n, n ∉ rp_name <$> ps -> n ∉ delta_name_of <$> ps -> rels v !! n = m0 !! n.

Lemma closed_computed f v v' Y : derived f v Y -> closed Y -> (forall n, rels v' !! n = if decide (n ∈ delta_name_of <$> ps) then None else rels v !! n) -> computed v'.
Proof.
  intros [D1 D2 D3 D8 D4 D5 D6 D7] Hc Hl. split_and!.
  - intros i p Hp. destruct (D1 i p Hp) as (t & Ht & Hr). exists t. rewrite Hl, decide_False by (intros (q & Hq & (j & Hj)%list_elem_of_lookup)%list_elem_of_fmap; by apply (name_delta i j p q Hp Hj)). split; [done|].
    eapply resting_ext; [|exact Hr]. intros x. split; [apply D7|]. intros H. by apply H.
  - intros p Hp. rewrite Hl, decide_True; [done|]. apply list_elem_of_fmap. by exists p.
  - intros n H1 H2. rewrite Hl, decide_False by done. by apply D2.
Qed.

Lemma eval_recursive_ok (v : session) a : m0 = rels v -> side_ok (side v) -> delta_seeded c = false /\ retraction_seeded c = false -> (forall p, p ∈ ps -> recursive_agg p = None) ->
  Vtable.refines (fronts v) a -> Vtable.spec_init stratum (Vtable.strata a) !! stratum = None -> (forall ri, Vtable.rules a !! Z.to_nat (rule_id_base c stratum + Z.of_nat ri) = None) ->
  (forall i p, ps !! i = Some p -> initial i (m0 !! rp_name p)) -> (forall p, p ∈ ps -> m0 !! delta_name_of p = None) -> titles m0 -> (forall i x, ps !! i = None -> ~ X0 i x) ->
  exists v' rc, eval_recursive run_op c e ps stratum v = Some (v', rc) /\ ((rc <> 0 /\ ~ lucky) \/ (rc = 0 /\ computed v')).
Proof.
  intros Hm Hside Hseeds Hagg Href Hst Hru Hinit Hnone Htit Hout. unfold eval_recursive. assert (Hfuel : Z.of_nat (Z.to_nat MAX_ITERATIONS) = MAX_ITERATIONS) by (apply Z2Nat.id; unfold MAX_ITERATIONS; lia). generalize dependent (Z.to_nat MAX_ITERATIONS). intros fuel Hfuel.
  destruct (pre_register_ok ps 0 v eq_refl Hside) as (v1 & rc & -> & [A1 A2 A3 A4 A5] & Hres); [intros; lia|intros i p _ Hp; rewrite <-Hm; by apply Hinit|]. cbn [mbind option_bind].
  destruct Hres as [[Hrc Hnl]|(-> & Hload & Htit1 & Hoth1)]; [rewrite (proj2 (Z.eqb_neq _ _) Hrc); cbn [negb]; eexists _, _; split; [done|by left]|]. cbn [Z.eqb negb].
  destruct (en_arrays e) eqn:Harr; cbn [negb]; [|eexists _, _; split; [done|left; split; [done|]; intros Hl; apply Hlucky in Hl; by rewrite (lk_arrays Hl) in Harr]].
  destruct (presort_ok ps 0 v1 eq_refl A5) as (v2 & -> & [B1 B2 B3 B4 B5] & Hrest & Htit2 & Hoth2); [intros; lia|intros i p _ Hp; by apply Hload|]. cbn [mbind option_bind].
  destruct (Vtable.apply_refines (fronts v2) a (Vtable.InitStratum stratum) ltac:(by rewrite B4, A4)) as (f1 & Hf1 & Href1). cbn [Vtable.apply] in Hf1. rewrite Hf1. cbn [mbind option_bind].
  assert (Hit : forall k, is_uint32 k -> Vtable.should_skip_iteration (frontier_vtable c) f1 stratum k = Some false).
  { intros k Hk. rewrite (Vtable.skip_iteration_refines f1 _ stratum k Href1 Hk). cbn [Vtable.spec_apply Vtable.strata Vtable.now]. unfold Vtable.spec_skip. by rewrite Hst. }
  assert (Hrule : forall k ri, is_uint32 k -> Vtable.should_skip_rule (frontier_vtable c) f1 (Z.to_nat (rule_id_base c stratum + Z.of_nat ri)) k = Some false).
  { intros k ri Hk. rewrite (Vtable.skip_rule_refines f1 _ _ k Href1 Hk). cbn [Vtable.spec_apply Vtable.rules]. unfold Vtable.spec_skip. by rewrite Hru. }
  assert (Hotherm : forall n, n ∉ rp_name <$> ps -> rels v2 !! n = m0 !! n) by (intros n Hn; rewrite Hoth2, Hoth1, Hm by done; done).
  assert (HP : paused f1 0 (Lp (set_fronts f1 v2) (replicate (length ps) None) (0, 0) 0) X0 X0 (fun _ _ => False)).
  { split; cbn [lv deltas]; [..|lia| |].
    - split; try done; [intros n Hn _; by apply Hotherm|apply Htit2, Htit1; by rewrite <-Hm|by intros ? ?|]. intros i x Hx Y Hs _. by apply Hs.
    - intros p Hp. cbn [set_fronts rels]. rewrite Hotherm; [by apply Hnone|]. apply list_elem_of_lookup in Hp as (j & Hj). intros (q & Hq & (i & Hi)%list_elem_of_lookup)%list_elem_of_fmap. by apply (name_delta i j q p Hi Hj).
    - by rewrite length_replicate.
    - intros i d Hd. apply lookup_replicate in Hd as [-> _]. by intros x [].
    - by intros i x [].
    - left. split; [done|]. by intros i x [].
    - split; [done|]. by intros i x.
    - lia. }
  destruct (strides_ok Hseeds f1 (rule_id_base c stratum) Hit Hrule fuel 0 _ X0 X0 _ HP) as (lp & rc & -> & Hs & Hres); [done|lia|]. cbn [mbind option_bind].
  set (v3 := set_iteration _ _ (lv lp)). destruct Hres as [[Hrc Hnl]|(-> & Y & Hd & Hc)].
  { rewrite (proj2 (Z.eqb_neq _ _) Hrc). cbn [negb]. destruct (remove_deltas_ok ps v3 Hs) as (v4 & -> & _). cbn [mbind option_bind]. eexists _, _. split; [done|by left]. }
  cbn [Z.eqb negb]. destruct (record_rules_ok (rule_id_base c stratum) (final_eff_iter lp) (length ps) 0 (fronts v3) (Vtable.spec_apply a (Vtable.InitStratum stratum))) as (f2 & a2 & -> & Href2); [change (fronts v3) with (fronts (lv lp)); by rewrite (de_fronts _ _ _ Hd)|]. cbn [mbind option_bind].
  assert (Htail : forall v4 : session, rels v4 = rels (lv lp) -> side_ok (side v4) -> exists v' rc, ('(v, rc) ← canonicalize_aggregates ps v4; if negb (rc =? 0) then Some (v, rc) else v ← remove_deltas ps v; x ← clear_cache (reset_pools (side v)); Some (set_side x v, 0)) = Some (v', rc) /\ ((rc <> 0 /\ ~ lucky) \/ (rc = 0 /\ computed v'))).
  { intros v4 Hr4 Hs4. rewrite no_aggregates by done. cbn [mbind option_bind Z.eqb negb]. destruct (remove_deltas_ok ps v4 Hs4) as (v5 & -> & [_ _ _ _ S5] & Hl). cbn [mbind option_bind]. destruct (ok_clear _ (ok_reset _ S5)) as (x & -> & Hx). cbn [mbind option_bind].
    eexists _, _. split; [done|]. right. split; [done|]. apply (closed_computed f1 (lv lp) _ Y Hd Hc). intros n. cbn [set_side rels]. by rewrite Hl, Hr4. }
  destruct (negb (fst (strat_frontier lp) =? UINT32_MAX)); [|by apply Htail].
  destruct (Vtable.apply_refines f2 a2 (Vtable.RecordStratum stratum (Vtable.epoch f2) (fst (strat_frontier lp))) Href2) as (f3 & Hf3 & _). cbn [Vtable.apply] in Hf3. cbn [set_fronts set_total fronts side]. rewrite Hf3. cbn [mbind option_bind].
  assert (Hrep : exists x, (if coordinator c then report stratum (Vtable.epoch f2) (fst (strat_frontier lp)) (side (lv lp)) else Some (side (lv lp))) = Some x /\ side_ok x) by (destruct (coordinator c); [by apply ok_report|by exists (side (lv lp))]).
  destruct Hrep as (x & Hx & Hxok). change (side v3) with (side (lv lp)). rewrite Hx. cbn [mbind option_bind]. by apply Htail.
Qed.

End Stratum.

End EvalProof.
