(* ===== verification/EvalSpec.v ===== *)
(** * Recursive strata compute their least fixed point

    The evaluator against its rules: when it reports success, the relations of a
    recursive stratum hold exactly the rows that follow from the facts.  A rule
    that joins a relation of the stratum with one of an earlier stratum keeps the
    contract that this needs of a plan. *)

From stdpp Require Import sorting.
From S2P Require Import Prelude RadixSort Relation RelSort Consolidate ConsolidateProof HashDedup HeapProof DeltaProof DeltaSpec EvalStack ConcatSpec StringOps Expr ExprProof Filter FilterProof FilterSpec RowOps HashJoin HashJoinProof HashJoinSpec SemijoinSpec Arrangement ArrangementSpec MatCache Join JoinProof JoinSpec Frontier Progress Eval EvalProof.

Module EvalSpec.

Import Keys Rel RelSort Consolidate EvalStack.EvalStack FilterProof.FilterProof Filter.Filter HashJoin.HashJoin HashJoinProof.HashJoinProof HashJoinSpec.HashJoinSpec SemijoinSpec.SemijoinSpec Join.Join JoinProof.JoinProof JoinSpec.JoinSpec Eval.Eval EvalProof.EvalProof.
Import Frontier.Affected(op_type, OP_VARIABLE, OP_JOIN).

#[local] Existing Instance ExprProof.list_host.

(** ** Rules that join *)

Lemma key_inj (s : shape) a b : no_floats s -> row_ok s a -> row_ok s b -> key s a = key s b -> a = b.
Proof.
  intros Hs Ha Hb Hk. pose proof (rows_equal_key s a b Ha Hb) as He. rewrite Hk, Z.eqb_refl in He. apply list_eq_same_length with (n := ncols s); [apply Hb|apply Ha|]. intros k x y Hlt Hx Hy.
  pose proof (rows_equal_cells s a b Ha Hb (ncols s) 0 eq_refl He k ltac:(lia)) as H1. destruct (row_cell s a k Ha Hlt) as (ty & u & Hty & Hu & Hu' & _). destruct (row_cell s b k Hb Hlt) as (ty' & w & _ & Hw & Hw' & _).
  unfold join_key in H1. cbn in H1. rewrite Hty, Hu', Hw' in H1. cbn in H1. unfold id, canonical_cell in H1. rewrite (Hs k ty Hty) in H1. cbn [andb] in H1. congruence.
Qed.

(** The operator JOIN within the evaluator: without filter, limits, arrangements
    and workers. *)
Definition no_workers : par_env := Par false 0 None true true true (fun _ => true) true (fun _ => true) [] [].
Definition to_join (t : Eval.Eval.srel) : Join.Join.srel := Srel (Eval.Eval.s_rel t) (Eval.Eval.s_names t) (Snap 0 0 0).
Definition join_session {X} (c : config) (v : ev (X := X)) : Join.Join.session :=
  Sess (fun n => to_join <$> rels v !! n) (Eval.Eval.current_iteration v) (Eval.Eval.delta_seeded c) (Eval.Eval.retraction_seeded c) (Eval.Eval.retraction_right_pass c)
    (Eval.Eval.tdd_outbound_only_active c) (Eval.Eval.tdd_subpass_active c).

Definition join_step {X} (c : config) (ri i : nat) (op : plan_op (option jop)) (v : ev (X := X)) (st : estack (K := unit)) : option (ev (X := X) * estack (K := unit) * Z) :=
  match op_kind op, payload op with
  | OP_JOIN, Some jo =>
      '(_, _, _, s, rc, _, _) ← wl_columnar_join_op rich_op no_workers no_limits false [] (join_session c v) (fun _ _ => None) jo (default None (head (es_names st))) some_ids (es st) (Cache [] 0) (MatCache.MatCache.empty_cache false) ([] : list (list Z));
      Some (v, Es s (None :: tail (es_names st)), rc)
  | _, _ => None
  end.

Section Linear.

Context {X : Type} `{!Side X} (side_ok : X -> Prop) `{!LawfulSide X side_ok}.
Context (c : config) (e : eval_env) (ps : list (rplan (option jop))) (sh : nat -> shape) (m0 : gmap (list Z) Eval.Eval.srel) (X0 : interp) (L : list (nat * Z)) (size : nat -> nat) (lucky : Prop).
Context (i j : nat) (p q : rplan (option jop)) (jo : jop) (name : list Z) (base : Eval.Eval.srel).

(** The rule of relation [i]: relation [j] of the stratum, which has facts, joined
    on its first column with [base], which is not of the stratum. *)
Record join_rule : Prop := {
  jr_at : ps !! i = Some p /\ ps !! j = Some q;
  jr_ops : ops p = [Op OP_VARIABLE (Some (rp_name q)) None DELTA_AUTO None; Op OP_JOIN None (Some name) DELTA_AUTO (Some jo)];
  jr_delta : delta_name_of q = delta_name (rp_name q);
  jr_jop : Join.Join.right_relation jo = Some name /\ j_mode jo = DELTA_AUTO /\ right_filter_expr jo = [] /\ left_keys jo = None /\ key_count jo = 1%nat /\ keys_given (right_keys jo) 1 /\ is_Some (projection jo) /\ proj_ok jo;
  jr_base : m0 !! name = Some base /\ m0 !! delta_name name = None /\ Forall (fun n => n ∉ rp_name <$> ps /\ n ∉ delta_name_of <$> ps) [name; delta_name name];
  jr_right : readable (s_rel base) /\ typed (s_rel base) /\ no_floats (s_rel base) /\ (0 < ncols (s_rel base))%nat;
  jr_left : typed (sh j) /\ no_floats (sh j) /\ (0 < ncols (sh j))%nat /\ exists x, X0 j x;
  jr_shape : join_shape jo (sh j) (s_rel base) = sh i;
  jr_config : retraction_seeded c = false /\ retraction_right_pass c = false /\ tdd_outbound_only_active c = false /\ tdd_subpass_active c = false;
  jr_size : forall n, (n <= if decide (j < i)%nat then size j else length L)%nat -> (length L + n * nrows (s_rel base) <= size i)%nat /\ Z.of_nat n <= 2 ^ 30;
  jr_few : Z.of_nat (nrows (s_rel base)) <= 2 ^ 30 /\ Z.of_nat (size i) < 2 ^ 31 /\ (length L <= size j)%nat }.

(** The rows it derives. *)
Definition join_sem (Y : interp) (x : Z) : Prop :=
  exists a b, row_ok (sh j) a /\ Y j (key (sh j) a) /\ b ∈ stored (s_rel base) /\ joins (sh j) [0%nat] (s_rel base) (rkeys jo (s_names base) (s_rel base)) a b = true /\ x = key (sh i) (pair_of jo a b).

Context (Hrule : join_rule).
Abbreviation session := (ev (X := X)).
Abbreviation right_key := (rkeys jo (s_names base) (s_rel base)).
Abbreviation view := (view side_ok ps sh m0 L size).

Lemma right_keys_ok : names_ok (s_names base) (ncols (s_rel base)) -> length right_key = 1%nat /\ key_cols (s_rel base) right_key.
Proof.
  intros Hn. destruct (jr_jop Hrule) as (_ & _ & _ & _ & Hk & Hg & _). destruct (jr_right Hrule) as (_ & _ & _ & Hc). unfold rkeys. rewrite Hk. destruct (resolve_keys_ok (s_names base) (ncols (s_rel base)) (right_keys jo) 1 Hn Hg ltac:(by left)) as (rk & -> & Hl & Hf). done.
Qed.

Lemma pair_member (left : rel) x : x ∈ ((fun p => canon (join_shape jo left (s_rel base)) (pair_of jo p.1 p.2)) <$> pairs_that_join left (s_rel base) [0%nat] right_key) <->
  exists a b, a ∈ stored left /\ b ∈ stored (s_rel base) /\ joins left [0%nat] (s_rel base) right_key a b = true /\ x = canon (join_shape jo left (s_rel base)) (pair_of jo a b).
Proof.
  rewrite list_elem_of_fmap. unfold pairs_that_join. setoid_rewrite list_elem_of_filter. setoid_rewrite list_elem_of_In. setoid_rewrite in_concat. setoid_rewrite <-list_elem_of_In. setoid_rewrite list_elem_of_fmap. split.
  - intros ([a b] & -> & Hj & l & (a' & -> & Ha) & Hb). apply list_elem_of_fmap in Hb as (b' & [= -> ->] & Hb). by exists a', b'.
  - intros (a & b & Ha & Hb & Hj & ->). exists (a, b). split; [done|]. split; [done|]. eexists. split; [by exists a|]. apply list_elem_of_fmap. by exists b.
Qed.

Lemma pairs_bound (left : rel) : fits left -> fits (s_rel base) -> (length (pairs_that_join left (s_rel base) [0%nat] right_key) <= nrows left * nrows (s_rel base))%nat.
Proof.
  intros Hl Hr. unfold pairs_that_join. etransitivity; [apply length_filter|]. rewrite <-(length_stored left Hl). induction (stored left) as [|a l IH]; [done|]. cbn [fmap list_fmap concat length]. rewrite length_app, length_fmap, (length_stored _ Hr). lia.
Qed.

Lemma derived_row_ok a b : row_ok (sh j) a -> b ∈ stored (s_rel base) -> row_ok (sh i) (pair_of jo a b).
Proof.
  intros Ha Hb. destruct (jr_right Hrule) as ([Hf Hok] & Ht & _). destruct (jr_left Hrule) as (Htl & _). destruct (jr_jop Hrule) as (_ & _ & _ & _ & _ & _ & _ & Hp).
  rewrite <-(jr_shape Hrule). apply projected_ok; [done|by apply both_typed|]. apply both_row_ok; try done. exact (proj1 (Forall_forall _ _) Hok b Hb).
Qed.

Lemma join_runs ri n (v : session) left own d ns : rels v !! name = Some base -> rels v !! delta_name name = None -> names_ok (s_names base) (ncols (s_rel base)) ->
  readable left -> lanes left = sh j -> names_ok ns (ncols left) -> (nrows left <= if decide (j < i)%nat then size j else length L)%nat ->
  exists out dd, join_step c ri n (Op OP_JOIN None (Some name) DELTA_AUTO (Some jo)) v (Es [En (Some left) own d None 0 ENTRY_RELATION None] [ns]) = Some (v, Es [En (Some out) true dd None 0 ENTRY_RELATION None] [None], 0) /\
    lanes out = sh i /\ readable out /\ (length L + nrows out <= size i)%nat /\
    forall x, x ∈ keys (sh i) (stored out) <-> exists a b, a ∈ stored left /\ b ∈ stored (s_rel base) /\ joins (sh j) [0%nat] (s_rel base) right_key a b = true /\ x = key (sh i) (pair_of jo a b).
Proof.
  intros Hb Hd Hnb Hl Hll Hns Hn. destruct (jr_jop Hrule) as (J1 & J2 & J3 & J4 & J5 & J6 & J7 & J8). destruct (jr_right Hrule) as (Hr & Htr & Hnr & Hcr). destruct (jr_left Hrule) as (Htl & Hnl & Hcl & _). destruct (jr_config Hrule) as (C1 & C2 & C3 & C4).
  destruct (jr_size Hrule _ Hn) as [Hsz Hn30]. destruct (jr_few Hrule) as (Hb30 & Hsi & _). assert (Hlk : lkeys jo ns left = [0%nat]) by (unfold lkeys, resolve_keys; rewrite J4, J5; by destruct ns).
  assert (Hagree : floats_agree left [0%nat] (s_rel base) right_key).
  { destruct (right_keys_ok Hnb) as [H1 H2]. destruct right_key as [|k [|? ?]]; try done. apply Forall_inv in H2. rewrite Hll. repeat constructor. cbn. destruct (Htl 0%nat Hcl) as [ty Hty]. destruct (Htr k H2) as [ty' Hty']. rewrite Hty, Hty'. cbn. by rewrite (Hnl _ _ Hty), (Hnr _ _ Hty'). }
  destruct (join_op_ok (K := unit) rich_op no_workers no_limits jo false [] (join_session c v) (fun _ _ => None) ns some_ids [] left own d None 0 (Cache [] 0) (MatCache.MatCache.empty_cache false) ([] : list (list Z)) [] (Cache [] 0)
    name (to_join base) (to_join base) false (s_rel base) (Snap 0 0 0) false) as (s' & rc & freed & Hrun & _ & Hends).
  - done.
  - cbn [join_session find_rel]. by rewrite Hb.
  - unfold choose_right, substitute_delta. rewrite J2. cbn [join_session tdd_outbound_only_active tdd_subpass_active retraction_right_pass find_rel Join.Join.tdd_outbound_only_active Join.Join.tdd_subpass_active Join.Join.retraction_right_pass]. rewrite C2, C3, Hd. cbn [andb orb]. by destruct d.
  - unfold filter_right. by rewrite J3.
  - by right.
  - split; [split; [done|by rewrite Hll]|done|done|rewrite J4, J5; cbn; split_and!; [done|done|left; rewrite Hll; done]|rewrite J5; split_and!; [done|done|by left]].
  - intros a. unfold find_arrangement. rewrite J5, J3. done.
  - done.
  - done.
  - unfold cross_order. cbn. rewrite Z.min_r by lia. done.
  - unfold COL_STACK_MAX. cbn. lia.
  - cbn [Join.Join.s_names to_join] in Hends. rewrite Hlk in Hends. pose proof (pairs_bound left (proj1 Hl) (proj1 Hr)) as Hpb.
    destruct Hends as [(-> & _ & out & dd & -> & Hlo & Hfo & [(Hdd & Hst & _)|(Hpr & _)])|[(_ & _ & Hno)|[(_ & _ & m & _ & Hs)|(_ & _ & Hmem)]]]; [|done|done|done|].
    2: { exfalso. destruct Hmem as [?|[?|?]]; [repeat split; done|lia|lia|]. lia. }
    exists out, dd. split; [unfold join_step; cbn [op_kind payload es es_names head default from_option tail]; unfold id; rewrite Hrun; done|].
    assert (Hsh : join_shape jo left (s_rel base) = sh i) by (rewrite Hll; apply (jr_shape Hrule)). assert (Hno : length (stored out) = nrows out) by (by apply length_stored). rewrite Hst, length_fmap in Hno.
    assert (Hmem : forall x, x ∈ stored out <-> exists a b, a ∈ stored left /\ b ∈ stored (s_rel base) /\ joins (sh j) [0%nat] (s_rel base) right_key a b = true /\ x = canon (sh i) (pair_of jo a b)) by (intros x; rewrite Hst, pair_member, Hsh; by rewrite Hll).
    assert (Hrow : forall a, a ∈ stored left -> row_ok (sh j) a) by (intros a Ha; rewrite <-Hll; exact (proj1 (Forall_forall _ _) (proj2 Hl) a Ha)).
    split_and!; [by rewrite Hlo|split; [done|]|nia|].
    + rewrite Hlo, Hsh. apply Forall_forall. intros x (a & b & Ha & Hb' & _ & ->)%Hmem. apply canon_ok, derived_row_ok; [by apply Hrow|done].
    + intros x. unfold keys. rewrite list_elem_of_fmap. split.
      * intros (y & -> & (a & b & Ha & Hb' & Hj & ->)%Hmem). exists a, b. split_and!; try done. apply canon_ok, derived_row_ok; [by apply Hrow|done].
      * intros (a & b & Ha & Hb' & Hj & ->). exists (canon (sh i) (pair_of jo a b)). split; [symmetry; apply canon_ok, derived_row_ok; [by apply Hrow|done]|]. apply Hmem. by exists a, b.
Qed.

(** VARIABLE loads the relation or its delta, in the first pass the relation. *)
Lemma loads ok (v : session) Y D : view i v Y D -> sub X0 Y -> 0 <= current_iteration v -> (current_iteration v = 0 -> forall l x, ~ D l x) ->
  exists r d ns, col_op_variable (K := unit) c ok (Some (rp_name q)) DELTA_AUTO v (Es [] []) = (Es [En (Some r) false d None 0 ENTRY_RELATION None] [ns], 0) /\
    readable r /\ lanes r = sh j /\ names_ok ns (ncols r) /\ (nrows r <= if decide (j < i)%nat then size j else length L)%nat /\
    (forall x, x ∈ keys (sh j) (stored r) -> Y j x) /\ (forall x, D j x -> x ∈ keys (sh j) (stored r)) /\ (current_iteration v = 0 -> forall x, Y j x -> x ∈ keys (sh j) (stored r)).
Proof.
  intros [V1 V2 V3 V4 V5 V6 V7] Hx0 Hit Hd0. destruct (jr_at Hrule) as [_ Hq]. destruct (jr_left Hrule) as (_ & _ & _ & x0 & Hx). destruct (jr_config Hrule) as (C1 & C2 & C3 & C4).
  destruct (V1 j q Hq) as (t & Ht & [(T1 & T2 & T3)|(_ & _ & Hno)] & Tn); [|by destruct (Hno x0 (Hx0 j x0 Hx))]. pose proof (V2 j q Hq) as Hdel. rewrite (jr_delta Hrule) in Hdel. pose proof (V6 _ _ Ht) as Htt.
  unfold col_op_variable. rewrite Ht, C1, C3, C4. cbn [andb]. set (delta := rels v !! delta_name (rp_name q)) in *.
  assert (Hfull : exists r d ns, push_named (Es [] []) (s_rel t) false false (s_names t) = (Es [En (K := unit) (Some r) false d None 0 ENTRY_RELATION None] [ns], 0) /\
    readable r /\ lanes r = sh j /\ names_ok ns (ncols r) /\ (nrows r <= if decide (j < i)%nat then size j else length L)%nat /\
    (forall x, x ∈ keys (sh j) (stored r) -> Y j x) /\ (forall x, D j x -> x ∈ keys (sh j) (stored r)) /\ (current_iteration v = 0 -> forall x, Y j x -> x ∈ keys (sh j) (stored r))).
  { eexists _, _, _. split; [done|]. split_and!; try done; intros; apply T3; [done| |done]. by apply V3. }
  destruct delta as [d|] eqn:Hd; [|exact Hfull]. rewrite !andb_false_r, !orb_false_r. destruct ((0 <? nrows (s_rel d))%nat && _) eqn:Hsm; [|exact Hfull]. apply andb_true_iff in Hsm as [Hpos _]. destruct Hdel as (D1 & D2 & D3 & D4).
  eexists _, _, _. split; [done|]. split_and!; try done.
  - exact (V6 _ _ Hd).
  - destruct (jr_few Hrule) as (_ & _ & Hlj). destruct (decide _); lia.
  - intros x H. by apply V3, D4.
  - intros x H. by apply D4.
  - intros Hz. exfalso. pose proof (length_stored _ (proj1 D2)) as Hls. destruct (stored (s_rel d)) as [|y ys]; [cbn in Hls; lia|]. apply (Hd0 Hz j (key (sh j) y)), D4. left.
Qed.

(** The plan keeps the contract of a rule. *)
Lemma join_rule_law (sem : nat -> interp -> Z -> Prop) : (forall Y x, sem i Y x <-> join_sem Y x) -> titles m0 -> rule_law side_ok (join_step c) c e ps sh m0 sem X0 L size lucky i p.
Proof.
  intros Hsem Htit. destruct (jr_base Hrule) as (B1 & B2 & B3). apply Forall_cons in B3 as [B3 B4]. apply Forall_cons in B4 as [B4 _]. pose proof (Htit _ _ B1) as Hnb. split.
  - intros Y Y' x Hs. rewrite !Hsem. intros (a & b & Ha & Hy & Hrest). exists a, b. split; [done|]. split; [by apply Hs|done].
  - intros v Y D Hv Hx0 _ Hit Hd0. pose proof (vw_other _ _ _ _ _ _ _ _ _ _ Hv) as Hother. unfold col_eval_relation_plan. rewrite (jr_ops Hrule). cbn [eval_ops op_kind relation_name Eval.Eval.mode].
    assert (base_case v [Op OP_VARIABLE (Some (rp_name q)) None DELTA_AUTO None; Op OP_JOIN None (Some name) DELTA_AUTO (Some jo)] (Op OP_VARIABLE (Some (rp_name q)) None DELTA_AUTO None) [Op OP_JOIN None (Some name) DELTA_AUTO (Some jo)] = None) as -> by (unfold base_case; cbn; by destruct (negb _)).
    destruct (loads (en_new e (current_iteration v) i 0) v Y D Hv Hx0 Hit Hd0) as (r & d & ns & -> & Hr & Hl & Hns & Hn & Hsound & Hdel & Hall). cbn [mbind option_bind Z.eqb negb base_case op_kind].
    destruct (join_runs i 1 v r false d ns) as (out & dd & -> & Ho1 & Ho2 & Ho3 & Ho4); [rewrite Hother; [done|apply B3..]|rewrite Hother; [done|apply B4..]|done..|]. cbn [mbind option_bind Z.eqb negb].
    eexists _, _, _. split; [done|]. split; [by split; [..|apply Hv]|]. right. split; [done|]. eexists. split; [done|]. split; [right; done|]. cbn [rows_of].
    assert (Hget : forall (Z' : interp) x, (forall y, Z' j y -> y ∈ keys (sh j) (stored r)) -> join_sem Z' x -> x ∈ keys (sh i) (stored out)).
    { intros Z' x HZ (a & b & Ha & Hy & Hb & Hj & ->). apply Ho4. apply HZ, list_elem_of_fmap in Hy as (a' & Hk & Ha'). assert (a = a') as <-.
      { apply (key_inj (sh j)); try done; [apply (jr_left Hrule)|]. rewrite <-Hl. exact (proj1 (Forall_forall _ _) (proj2 Hr) a' Ha'). }
      by exists a, b. }
    split.
    + intros x (a & b & Ha & Hb & Hj & ->)%Ho4. apply Hsem. exists a, b. split_and!; try done; [rewrite <-Hl; exact (proj1 (Forall_forall _ _) (proj2 Hr) a Ha)|]. apply Hsound. by apply list_elem_of_fmap_2.
    + unfold covers. destruct (Z.eqb_spec (current_iteration v) 0) as [Hz|Hnz].
      * intros x Hx%Hsem. apply (Hget Y); [|done]. by apply Hall.
      * intros B x HB Hx%Hsem. destruct Hx as (a & b & Ha & [Hy|Hy] & Hrest); [left; apply Hsem; by exists a, b|right]. apply (Hget D); [done|]. by exists a, b.
  - intros v Y D ri _ Hpos He. exfalso. unfold has_empty_forced_delta in He. rewrite (jr_ops Hrule) in He. rewrite (proj2 (Z.eqb_neq _ 0)) in He by lia. cbn in He. done.
Qed.

End Linear.

(** ** Strata *)

Section Stratum.

Context {X K P : Type} `{!Side X} (side_ok : X -> Prop).
Context (run_op : nat -> nat -> plan_op P -> ev (X := X) -> estack (K := K) -> option (ev (X := X) * estack (K := K) * Z)) (c : config) (e : eval_env).
Context (ps : list (rplan P)) (stratum : nat) (sh : nat -> shape) (sem : nat -> interp -> Z -> Prop) (X0 : interp) (L : list (nat * Z)) (size : nat -> nat) (lucky : Prop) (N : nat).

(** What the evaluation of a stratum requires.  The rules keep their contract;
    finitely many rows follow, all of them within [N] rounds, and there is room
    for them; names, shapes and settings are as they should be; no frontier of an
    earlier evaluation is recorded; the relations hold the facts, once each. *)
Record evaluable (v : ev (X := X)) (a : Vtable.abstract) : Prop := {
  ev_rules : forall i p, ps !! i = Some p -> rule_law side_ok run_op c e ps sh (rels v) sem X0 L size lucky i p;
  ev_finite : forall i p x, ps !! i = Some p -> least ps sem X0 i x -> (i, x) ∈ L;
  ev_depth : sub (least ps sem X0) (stage ps sem X0 N) /\ Z.of_nat N < MAX_ITERATIONS * EVAL_STRIDE;
  ev_size : forall i, (length L <= size i)%nat /\ Z.of_nat (size i) < 2 ^ 31;
  ev_names : NoDup ((rp_name <$> ps) ++ (delta_name_of <$> ps));
  ev_memory : (lucky -> env_lucky e) /\ quiet e;
  ev_shapes : forall i p, ps !! i = Some p -> int_lead (sh i) /\ narrow (sh i);
  ev_settings : (delta_seeded c = false /\ retraction_seeded c = false) /\ forall p, p ∈ ps -> recursive_agg p = None;
  ev_frontier : Vtable.refines (fronts v) a /\ Vtable.spec_init stratum (Vtable.strata a) !! stratum = None /\ forall ri, Vtable.rules a !! Z.to_nat (rule_id_base c stratum + Z.of_nat ri) = None;
  ev_initial : forall i p, ps !! i = Some p -> initial sh X0 i (rels v !! rp_name p) /\ rels v !! delta_name_of p = None;
  ev_facts : forall i x, ps !! i = None -> ~ X0 i x;
  ev_side : titles (rels v) /\ side_ok (side v) }.

End Stratum.


(** *** The nodes that a graph reaches from another *)

(** reach(z, s) :- reach(x, s), edge(x, z). *)
#[local] Instance no_side : Side unit := Build_Side unit id (fun _ => id) (fun _ => Some) Some (fun _ => Some) id id (fun _ _ _ => Some) (fun _ r _ => Some (r, 0)).
#[local] Instance no_side_lawful : LawfulSide unit (fun _ => True).
Proof. split; try done; intros; by eexists. Qed.

Definition pair_shape : shape := Sh 2 (Some [TYPE_INT64; TYPE_INT64]).
Definition table (l : list row) : Eval.Eval.srel := Sr (R pair_shape l (length l) (length l) 0 None 0 false 0 (replicate COL_MAX_RUNS O)) None None.
Definition reach_name : list Z := [114].
Definition edge_name : list Z := [101].
Definition edges : list row := [[1; 2]; [2; 3]; [3; 1]; [4; 5]].
Definition step_op : jop := Jo (Jop None None 1 2 (Some [3%nat; 1%nat]) []) (Some edge_name) DELTA_AUTO false.
Definition reach_plan : rplan (option jop) :=
  Rp reach_name (delta_name reach_name) [Op OP_VARIABLE (Some reach_name) None DELTA_AUTO None; Op OP_JOIN None (Some edge_name) DELTA_AUTO (Some step_op)] None.
Definition plain_config : config := Cfg false false false false false false false 1 0 Vtable.col_frontier_epoch_ops None.
Definition rich_eval : eval_env := Eenv (fun _ _ _ => true) (fun _ _ => true) (fun _ _ => true) (fun _ _ => true) (fun _ _ => 0) (fun _ _ => true) (fun _ _ => true) (fun _ => true) true (fun _ => rich_sort)
  (fun _ _ => true) (fun _ _ => true) (fun _ _ => rich_sort) (fun _ _ => DeltaSpec.rich) (fun _ _ => true) (fun _ _ => true).
Definition fresh_fronts : Vtable.session := Vtable.Session 1 (replicate Vtable.MAX_STRATA (Vtable.Frontier 0 0)) (replicate Vtable.MAX_RULES (Vtable.Frontier 1 UINT32_MAX)).
Definition graph : ev (X := unit) := Ev {[reach_name := table [[1; 1]]; edge_name := table edges]} 0 false fresh_fronts 0 ().

Definition reach_facts : interp := fun i x => i = O /\ x = key pair_shape [1; 1].
Definition reach_sem (i : nat) : interp -> Z -> Prop := join_sem (fun _ => pair_shape) 0 0 step_op (table edges).
Definition reach_rows : list (nat * Z) := [(O, key pair_shape [1; 1]); (O, key pair_shape [2; 1]); (O, key pair_shape [3; 1])].

Lemma pair_types : typed pair_shape /\ no_floats pair_shape /\ (0 < ncols pair_shape)%nat.
Proof. split_and!; [by intros [|[|k]] Hk; [eexists..|cbn in Hk; lia]|by intros [|[|k]] ty [= <-]|cbn; lia]. Qed.

Lemma pair_row_of x y : is_int64 x -> is_int64 y -> row_ok pair_shape [x; y].
Proof. intros Hx Hy. split; [done|]. by intros [|[|k]] z [= <-]; eexists. Qed.

Lemma table_readable l : Forall (row_ok pair_shape) l -> readable (s_rel (table l)).
Proof. intros Hl. split; [split; done|]. unfold stored. cbn. by rewrite firstn_all. Qed.

Lemma edges_ok : Forall (row_ok pair_shape) edges.
Proof. repeat constructor; apply pair_row_of; mi. Qed.

Lemma reach_plan_rule : join_rule plain_config [reach_plan] (fun _ => pair_shape) (rels graph) reach_facts reach_rows (fun _ => 15%nat) 0 0 reach_plan reach_plan step_op edge_name (table edges).
Proof.
  split; try (by split).
  - split_and!; try done. right. eexists. split; [done|]. cbn. lia.
  - split_and!; try done. repeat constructor; vm_compute; intros H; repeat (apply elem_of_cons in H as [H|H]; [discriminate H|]); by apply not_elem_of_nil in H.
  - destruct pair_types as (H1 & H2 & H3). split_and!; try done. apply table_readable, edges_ok.
  - destruct pair_types as (H1 & H2 & H3). split_and!; try done. by eexists.
  - intros n Hn. rewrite decide_False in Hn by lia. change (length reach_rows) with 3%nat in *. change (nrows (s_rel (table edges))) with 4%nat. split; [lia|]. transitivity 3; [lia|done].
  - cbn. lia.
Qed.

(** The rows that follow. *)
Lemma reach_closed : closed [reach_plan] reach_sem (fun i x => (i, x) ∈ reach_rows).
Proof.
  intros [|i] p x Hp Hx; [|done]. destruct Hx as (a & b & Ha & Hy & Hb & Hj & ->). destruct pair_types as (_ & Hnf & _).
  assert (Hin : a ∈ [[1; 1]; [2; 1]; [3; 1]]).
  { unfold reach_rows in Hy. repeat (apply elem_of_cons in Hy as [Hy|Hy]; [injection Hy as Hy; apply (key_inj pair_shape) in Hy; [subst a; set_solver|done|done|apply pair_row_of; mi]|]). by apply not_elem_of_nil in Hy. }
  clear Hy Ha. change (stored (s_rel (table edges))) with edges in Hb. unfold edges in Hb.
  repeat (apply elem_of_cons in Hin as [->|Hin]; [repeat (apply elem_of_cons in Hb as [->|Hb]; [vm_compute in Hj; (discriminate Hj || (unfold reach_rows; repeat (apply elem_of_cons; first [left; reflexivity|right])))|]); by apply not_elem_of_nil in Hb|]). by apply not_elem_of_nil in Hin.
Qed.

Lemma reach_finite i x : least [reach_plan] reach_sem reach_facts i x -> (i, x) ∈ reach_rows.
Proof. intros H. apply (H (fun i x => (i, x) ∈ reach_rows)); [|apply reach_closed]. intros j y [-> ->]. left. Qed.

Lemma reach_step n x y z : is_int64 x -> stage [reach_plan] reach_sem reach_facts n 0 (key pair_shape [x; y]) -> is_int64 y -> [x; z] ∈ edges -> stage [reach_plan] reach_sem reach_facts (S n) 0 (key pair_shape [z; y]).
Proof.
  intros Hx Hs Hy Hin. right. split; [by eexists|]. exists [x; y], [x; z]. split_and!; [by apply pair_row_of|done|done| |done]. unfold joins. by apply bool_decide_eq_true_2.
Qed.

Lemma reach_depth : sub (least [reach_plan] reach_sem reach_facts) (stage [reach_plan] reach_sem reach_facts 2).
Proof.
  intros i x Hx%reach_finite. assert (H0 : stage [reach_plan] reach_sem reach_facts 0 0 (key pair_shape [1; 1])) by done.
  pose proof (reach_step 0 1 1 2 ltac:(mi) H0 ltac:(mi) ltac:(set_solver)) as H1. pose proof (reach_step 1 2 1 3 ltac:(mi) H1 ltac:(mi) ltac:(set_solver)) as H2.
  unfold reach_rows in Hx. apply elem_of_cons in Hx as [[= -> ->]|Hx]; [left; by left|]. apply elem_of_cons in Hx as [[= -> ->]|Hx]; [by left|]. apply elem_of_cons in Hx as [[= -> ->]|Hx]; [done|]. by apply not_elem_of_nil in Hx.
Qed.

Definition fresh_points : Vtable.abstract := Vtable.Abstract 1 (list_to_map ((fun k => (k, (0, 0))) <$> seq 0 Vtable.MAX_STRATA)) ∅.

Lemma fresh_refines : Vtable.refines fresh_fronts fresh_points.
Proof.
  split; [done|]. split; (split; [done|]); intros k; cbn [fresh_fronts fresh_points Vtable.frontiers Vtable.rule_frontiers Vtable.strata Vtable.rules].
  - destruct (decide (k < Vtable.MAX_STRATA)%nat) as [Hk|Hk].
    + rewrite lookup_replicate_2 by done. cbn [Vtable.iteration Vtable.outer_epoch]. apply elem_of_list_to_map_1; [rewrite <-list_fmap_compose; apply NoDup_fmap_2; [by intros ? ?|apply NoDup_seq]|]. apply list_elem_of_fmap. exists k. split; [done|]. apply elem_of_seq. lia.
    + rewrite lookup_ge_None_2 by (rewrite length_replicate; lia). apply not_elem_of_list_to_map_1. intros (x & -> & (y & -> & Hy)%list_elem_of_fmap)%list_elem_of_fmap. apply elem_of_seq in Hy. cbn in Hk. lia.
  - rewrite lookup_empty. destruct (replicate _ _ !! k) as [f|] eqn:Hf; [|done]. by apply lookup_replicate in Hf as [-> _].
Qed.

Lemma graph_evaluable : evaluable (fun _ : unit => True) (join_step plain_config) plain_config rich_eval [reach_plan] 0 (fun _ => pair_shape) reach_sem reach_facts reach_rows (fun _ => 15%nat) True 2 graph fresh_points.
Proof.
  assert (Htit : titles (rels graph)) by (apply map_Forall_insert_2; [done|]; apply map_Forall_insert_2; [done|]; apply map_Forall_empty).
  split.
  - intros [|i] p Hp; [|done]. injection Hp as <-. eapply join_rule_law; [exact reach_plan_rule|done|done].
  - intros i p x _. apply reach_finite.
  - split; [apply reach_depth|]. by vm_compute.
  - intros i. split; [vm_compute; lia|done].
  - vm_compute. repeat constructor; intros H; repeat (apply elem_of_cons in H as [H|H]; [discriminate H|]); by apply not_elem_of_nil in H.
  - split; [intros _; by split|by split].
  - intros i p _. destruct pair_types as (_ & _ & H). split; [|done]. split; [done|]. by exists TYPE_INT64.
  - split; [done|]. intros p [->|Hp]%elem_of_cons; [done|by apply not_elem_of_nil in Hp].
  - split; [apply fresh_refines|]. done.
  - intros [|i] p Hp; [|done]. injection Hp as <-. split; [left|done]. assert (H : Forall (row_ok pair_shape) [[1; 1]]) by (repeat constructor; apply pair_row_of; mi). destruct (table_readable _ H) as [Hf Hr].
    split_and!; [done|by split|done|done|done|apply NoDup_singleton|]. intros x. change (keys pair_shape (stored (s_rel (table [[1; 1]])))) with [key pair_shape [1; 1]]. rewrite list_elem_of_singleton. unfold reach_facts. naive_solver.
  - intros i x Hi [-> _]. done.
  - done.
Qed.

#[local] Instance plain_frontier : Vtable.FrontierRefines (frontier_vtable plain_config) (H := Vtable.epoch_model) := Vtable.epoch_refines.


(** ** Departures *)

(** A delta that cannot be registered is lost without a report: node 3 is not
    reached. *)
Definition poor_eval : eval_env := Eenv (fun _ _ _ => true) (fun _ _ => true) (fun _ _ => true) (fun _ _ => true) (fun _ _ => 0) (fun _ _ => true) (fun _ _ => true) (fun _ => true) true (fun _ => rich_sort)
  (fun _ _ => false) (fun _ _ => true) (fun _ _ => rich_sort) (fun _ _ => DeltaSpec.rich) (fun _ _ => true) (fun _ _ => true).

Example lost_delta_unreported :
  ('(v, rc) ← col_eval_stratum (K := unit) (join_step plain_config) plain_config poor_eval (fun _ _ v => Some (v, 0)) true [reach_plan] 0 graph; Some (rc, stored ∘ s_rel <$> rels v !! reach_name)) =
  Some (0, Some [[1; 1]; [2; 1]]).
Proof. vm_compute. reflexivity. Qed.

End EvalSpec.
